(* ===== verification/_CoqProject ===== *)
-Q . S2P
Prelude.v
Mem.v
Lz4Common.v
Lz4Format.v
Lz4Decompress.v
Lz4DecompressProofs.v
Lz4DecompressApi.v
Lz4DecompressExamples.v
Lz4Compress.v
Lz4Text.v
Lz4CompressProofs.v
Lz4CompressApi.v
Lz4DestSize.v
Lz4Stream.v
Lz4CompressExamples.v
Lz4Hc.v
Lz4HcProofs.v
Lz4HcApi.v
Lz4HcExamples.v
Xxhash.v
XxhashProofs.v
XxhashExamples.v
Lz4Frame.v
Lz4FrameDec.v
Lz4FrameFormat.v
Lz4FrameProofs.v
Lz4FrameBegin.v
Lz4FrameBlock.v
Lz4FrameUpdate.v
Lz4FrameCompress.v
Lz4FrameDict.v
Lz4FrameDecode.v
Lz4FrameCall.v
Lz4FrameResume.v
Lz4FrameSafe.v
Lz4FrameSafeCall.v
Lz4FrameErrors.v
Lz4FrameExamples.v
Primality.v
Secp256k1Scalar.v
Secp256k1ScalarProofs.v
Secp256k1ScalarOps.v
Secp256k1ScalarApi.v
Secp256k1Hash.v
Secp256k1HashProofs.v
Secp256k1HashApi.v
Secp256k1Field.v
Secp256k1FieldProofs.v
Secp256k1FieldOps.v
Secp256k1FieldApi.v
Secp256k1Curve.v
Secp256k1GroupLaw.v
Secp256k1Order.v
Secp256k1Group.v
Secp256k1GroupProofs.v
Secp256k1GroupApi.v
Secp256k1Ecmult.v
Secp256k1Wnaf.v
Secp256k1EcmultProofs.v
Secp256k1EcmultGen.v
Secp256k1EcmultGenProofs.v
Secp256k1EcmultGenTable.v
Secp256k1GroupTheorems.v
Secp256k1Ecdsa.v
Secp256k1EcdsaProofs.v
Secp256k1Der.v
Secp256k1Keys.v
Secp256k1Api.v
Secp256k1ApiProofs.v
Secp256k1Interface.v
Secp256k1Codecs.v
Secp256k1Signatures.v
Secp256k1Contexts.v
Secp256k1Signing.v
Secp256k1Examples.v
Secp256k1FieldExamples.v
Secp256k1GroupExamples.v
Secp256k1ApiExamples.v
