(* ===== verification/Prelude.v ===== *)
(** * Verification of the compression and signature libraries of the node

    The node stores its ledger data compressed with LZ4 and signs and checks what it
    sends and receives with ECDSA on the curve secp256k1; the C sources of
    both libraries are part of its tree (src/src/lz4/lib and src/src/secp256k1) and
    are built into it.  This development is a model of the C files of these
    directories that the node compiles, and the theorems that make them correct.

    ** The parts of the program

    Compression (src/src/lz4/lib):

    - lz4.c, block compression: a hash table of positions, a search for matches,
      and the encoding of a block.  One function, [LZ4_compress_generic], is
      specialised by directives to the one-shot, the limited-output and the
      streaming compressors; [LZ4_compress_destSize] fills a destination.
    - lz4.c, block decompression: [LZ4_decompress_generic], specialised by
      directives to decoders that check the input, decoders that trust it,
      partial ones, and ones with a dictionary before or apart from the output.
    - lz4hc.c: the high compression mode, with chains of positions and a parser
      that chooses among overlapping matches.
    - xxhash.c: XXH32 and XXH64, in one call or incrementally.
    - lz4frame.c: frames, a header, blocks, an end mark and a checksum.  The
      compressor calls the block compressors and xxHash; the decoder is a state
      machine of sixteen stages that may be given a frame in any pieces and
      delivers its content in any pieces, and calls the block decoders and
      xxHash.

    Signatures (src/src/secp256k1/src, as basic-config.h configures them: ten limbs of
    26 bits for the field, eight limbs of 32 bits for scalars, built-in inverses, no
    endomorphism, no optional modules):
    - scalar_8x32_impl.h, scalar_impl.h: numbers modulo the order of the group.
    - field_10x26_impl.h, field_impl.h: numbers modulo the field prime, whose limbs
      may exceed 26 bits within a magnitude that the callers keep track of.
    - hash_impl.h: SHA-256, HMAC and the generator of RFC 6979.
    - group_impl.h: points of the curve in affine and Jacobian coordinates.
    - ecmult_impl.h, ecmult_gen_impl.h: linear combinations [na A + ng G], with windows
      and tables, and multiples of the generator, with a table of 1024 points
      and a blinding value that is chained from seed to seed.
    - ecdsa_impl.h, eckey_impl.h: DER, verification, signing; encodings of public keys and
      tweaks of keys.
    - secp256k1.c: the interface, with contexts, checks of arguments that are reported to
      callbacks, and opaque structures for keys and signatures.

    ** The model

    [Prelude] has fixed-width integers ([u8] to [u64], [s32]), bytes and what is
    shared on lists.  [Mem] has flat memory, a map from addresses to bytes, the
    type [prog] of C code over it (a value and a memory, a fault, or more
    iterations than allowed) with its [let!] notation, and the total correctness
    calculus [wp].  An access outside of the mapped addresses is a fault, so
    each theorem that a function returns says that it stays in its buffers;
    [frame lo hi m m'] says that nothing was written elsewhere.  The target is a
    parameter (class [Arch] of [Lz4Common]: pointer width and byte order), and
    every theorem holds for all of its instances.  A [memcpy] reads all its
    bytes before it writes the first.  A function that allocates takes the
    address the allocator returns as an argument, and [free] has no effect.

    Loops that are not structural take fuel, a number computed from the sizes of
    the input and the output where the loop starts.  Each theorem about such a
    function includes that the fuel is enough, by a measure that decreases with
    each iteration: the decoders consume input or produce output ([decode_loop],
    [inputSize + outputSize + 1]), a search moves forward in the input
    ([find_match], the input size and 200 more for the steps it may take before
    it advances), the compressor's loop visits two labels per match
    ([compress_loop], twice the input size), a call of the frame decoder goes
    through at most 16 stages for a byte of input and 32 more ([dloop],
    [decompress_fuel]; the measure is [work] of [Lz4FrameDecode]), a window of digits
    advances by at least one bit ([wnaf_loop], 256), hashing uses up its input
    and its requests ([write_loop], [generate_loop]).  Three loops of secp256k1 are not
    bounded by the sizes of anything, as they draw pseudorandom numbers until one is in
    range: [draw_fe], [draw_scalar] and [sign_loop] take fuel and give [None] when
    it is used up.  The theorems say when they return: the draws from the fixed
    seed of a new context succeed at the first attempt (by computation), and signing
    returns unless none of the attempts that the fuel allows has a usable nonce.

    The elliptic curve code works on structures that its callers own and does not
    touch other memory, so its functions are pure: they return what the C functions leave in the
    structures they are given, and what uninitialised memory holds is an
    argument ([local], [mem], [local_scalar], [local_ge]).  Limbs, words and sizes keep their width:
    where the C code wraps around, the model does, and that no sum of products
    overflows is part of the proofs.  A pointer that may be NULL is an option; a
    call of a callback is part of the result ([reports]).

    ** The files

    Blocks:
    - [Lz4Common]: memory access, constants, [LZ4_count], [LZ4_wildCopy] (lz4.c).
    - [Lz4Format]: the abstract block format, [ser_seq], [apply_seq] and [block_text].
    - [Lz4Decompress], [Lz4DecompressProofs], [Lz4DecompressApi]: the decoders, the
      two results about [LZ4_decompress_generic] (safe on every input, correct
      on every well-formed block), and one theorem for each entry point.
    - [Lz4Compress], [Lz4Text], [Lz4CompressProofs], [Lz4CompressApi]: the compressor,
      what compressors share (the text, the block under construction), the
      invariant of the hash table and the main loop, and the entry points with
      the round trip.
    - [Lz4DestSize]: the compressor that fills a destination.
    - [Lz4Stream]: streams of blocks with their dictionary.
    - [Lz4Hc], [Lz4HcProofs], [Lz4HcApi]: the high compression mode, in the same
      three steps.

    Checksums:
    - [Xxhash], [XxhashProofs]: the two hashes and the function of a byte list
      they compute.

    Frames:
    - [Lz4Frame], [Lz4FrameDec]: the compressor's and the decoder's side of
      lz4frame.c.
    - [Lz4FrameFormat]: the abstract frame format, [lz4_frame].
    - [Lz4FrameProofs], [Lz4FrameBegin]: headers, written and read.
    - [Lz4FrameBlock]: what a frame needs of a block compressor (the class
      [BlockCompressor]), its instances, and a block of a frame.
    - [Lz4FrameUpdate], [Lz4FrameCompress]: the blocks of a call, and whole frames.
    - [Lz4FrameDict]: the decoder's dictionary, 64 KB of text that lie in the
      destination or in a buffer of the decoder.
    - [Lz4FrameDecode], [Lz4FrameCall], [Lz4FrameResume]: the stages on a
      well-formed frame, a call, and the theorems about calls.
    - [Lz4FrameSafe], [Lz4FrameSafeCall]: the stages and a call on arbitrary input.
    - [Lz4FrameErrors]: error codes and error paths.

    Numbers and hashes of secp256k1:
    - [Primality]: Pocklington certificates, for the primality of the two moduli.
    - [Secp256k1Scalar], [Secp256k1ScalarProofs], [Secp256k1ScalarOps], [Secp256k1ScalarApi]: scalars, their
      accumulators and reductions, and the theorems in terms of [scalar_of].
    - [Secp256k1Field], [Secp256k1FieldProofs], [Secp256k1FieldOps], [Secp256k1FieldApi]: field elements, in
      the same steps; [fe_mag m] is the magnitude as an invariant.
    - [Secp256k1Hash], [Secp256k1HashProofs], [Secp256k1HashApi]: the hashes against FIPS 180-4, RFC 2104
      and RFC 6979.

    The curve:
    - [Secp256k1Curve], [Secp256k1GroupLaw], [Secp256k1Order]: the specification, points over the integers
      modulo the prime with the addition of SEC 1; that it is a commutative group; and that the
      generator generates it and has the order the scalars are reduced by.
    - [Secp256k1Group], [Secp256k1GroupProofs], [Secp256k1GroupApi]: group_impl.h, the additions
      ([gej_is a P]: the structure [a] stands for [P], with its magnitudes), and the rest.
    - [Secp256k1Ecmult], [Secp256k1Wnaf], [Secp256k1EcmultProofs]: ecmult_impl.h, the digits, and the loop
      on the isomorphic curve that the tables are for.
    - [Secp256k1EcmultGen], [Secp256k1EcmultGenProofs], [Secp256k1EcmultGenTable]: ecmult_gen_impl.h, the sum over the
      table with its blinding ([gen_ctx_ok]), and the table as the context builds it.
    - [Secp256k1GroupTheorems]: the theorems about these parts.

    Signatures and the interface:
    - [Secp256k1Ecdsa], [Secp256k1EcdsaProofs], [Secp256k1Der]: ecdsa_impl.h, with the standard as
      [ecdsa_valid], and the DER encoding.
    - [Secp256k1Keys], [Secp256k1Api], [Secp256k1ApiProofs]: eckey_impl.h and secp256k1.c, and what the
      opaque structures stand for ([pubkey_is], [signature_is]).
    - [Secp256k1Interface]: keys, tweaks, verification and signing; [signs] and [verifies] are
      what contexts promise.
    - [Secp256k1Codecs], [Secp256k1Signatures], [Secp256k1Contexts], [Secp256k1Signing]: encodings of keys and of
      signatures, contexts and sums of keys, and the nonce that signing does not exclude.

    The files named [...Examples] evaluate the theorems at concrete inputs.

    ** What is shown

    - Round trips: block compression (fast and high compression) followed by
      [LZ4_decompress_safe]; [LZ4F_compressFrame] at the fast levels followed by
      [LZ4F_decompress]; frame headers.
    - Refinement of the abstract formats: the compressors write well-formed blocks,
      and at the fast levels frames, with the input as their text; the decoders give
      the text of every well-formed block and frame, whoever wrote it.  Frames at the
      levels of the high compression mode are not covered, since its limited
      output may leave its destination (see the next point).
    - Streams and pieces: a block of a stream is well-formed after the text that
      the stream came with, also where the block was written over the older part of that
      text, and the stream keeps its invariant and the end of the text (the first block of
      a fresh fast stream has at least 4 bytes, and a block of a fast stream does not
      cover the end of its dictionary); the frame decoder, given a frame in any
      pieces, delivers the content in order and never stops early.
    - Safety: the checking decoders stay in their buffers on every input.  The
      compressors stay in a destination of [LZ4_compressBound] bytes, and in a smaller
      one for inputs of at most 128 KB (fast, with an acceleration of at most [2^25])
      or 4 KB (high compression); for larger inputs the tests of the code on
      the output limit are too weak.  A call of [LZ4F_decompress] without [stableDst]
      terminates and stays in its buffers whatever it is given (one byte after the
      input must be readable, see the finding on blocks of one byte), and
      its invariant [dctx_ok], which is about its own buffers, holds again when it returns
      without an error.  Between two frames the next call is safe only if the
      destination that the previous frame of linked blocks was delivered to is still
      readable: the decoder may save its dictionary from there.
    - Arithmetic of secp256k1: scalars and field elements are the integers modulo two
      numbers that are proved prime; inverses, square roots, comparisons and
      encodings are what they should be, within the magnitudes the code asks for.
    - The group: all additions compute the group law, without exceptions for equal, opposite
      or infinite points (the second point of the one without branches is finite, as it
      asserts); the law is associative; the curve is cyclic of the order
      that the code uses; both multiplications compute multiples, with the contexts that the
      code builds, blinds and copies.
    - ECDSA: verification accepts exactly the signatures of the standard with a
      low [s]; what signing returns verifies; tweaks of private and public keys
      commute with deriving public keys; sums of keys; normal forms.
    - Encodings: public keys and signatures survive their encodings, only points of the
      curve are accepted, and DER is parsed strictly.
    - Equivalence: SHA-256 and HMAC in any pieces and the generator for any requests are
      those of the standards; xxHash in one call, in pieces and on both byte orders is one
      function of the bytes.
    - Errors: which headers are refused and how, error names, and inputs on which
      the code departs from its documentation.

    ** What is not modelled

    Of LZ4: the command line programs, streams of [LZ4F_compressUpdate] calls with linked
    blocks over several calls, and skippable frames in the compressor.  Of secp256k1: the modules
    that the node does not compile (ECDH, recovery, Schnorr) and ecmult_const_impl.h,
    which only they use; the other representations of numbers; the endomorphism;
    [secp256k1_context_destroy], which frees; running times, so that nothing is said
    of side channels.  ed25519-donna, SQLite and its Lua binding, and the C++
    parts are not modelled: they are libraries of their own.  The functions that only call an allocator or print
    are left out; the benchmark and the deprecated aliases that only rename
    another function are covered by it. *)

From Stdlib Require Import ZArith Lia Strings.Byte.
From stdpp Require Import base gmap list fin_maps numbers.

#[global] Open Scope Z_scope.

(** * Fixed-width integers

    A C integer of [w] bits is a [Z]; a conversion to that width is written
    out where the C code converts. *)

Definition wrap (w z : Z) : Z := z mod 2 ^ w.
Definition u8 (z : Z) : Z := wrap 8 z.
Definition u16 (z : Z) : Z := wrap 16 z.
Definition u32 (z : Z) : Z := wrap 32 z.
Definition u64 (z : Z) : Z := wrap 64 z.

(** Two's complement reading of a 32-bit [int]. *)
Definition s32 (z : Z) : Z := (z + 2 ^ 31) mod 2 ^ 32 - 2 ^ 31.

(** * Bytes *)

Abbreviation byte := Byte.byte.

#[global] Instance byte_eqdec : EqDecision byte := Byte.byte_eq_dec.
#[global] Instance byte_inhabited : Inhabited byte := populate x00.

Definition b2z (b : byte) : Z := Z.of_N (Byte.to_N b).
Definition z2b (z : Z) : byte := default x00 (Byte.of_N (Z.to_N (u8 z))).

(** Little-endian and big-endian value of a byte string. *)
Fixpoint le_val (l : list byte) : Z :=
  match l with
  | [] => 0
  | b :: l => b2z b + 256 * le_val l
  end.

Definition be_val (l : list byte) : Z := le_val (reverse l).

(** The [n] low-order bytes of [z], least significant first. *)
Fixpoint le_bytes (n : nat) (z : Z) : list byte :=
  match n with
  | O => []
  | S n => z2b z :: le_bytes n (z / 256)
  end.

Definition be_bytes (n : nat) (z : Z) : list byte := reverse (le_bytes n z).

(** The length of a list as an integer. *)
Abbreviation zlen l := (Z.of_nat (length l)).

(** * Automation *)

(** Splits the boolean tests of the goal and of the hypotheses into the
    propositions they decide. *)
Ltac zbool :=
  repeat match goal with
  | H : (_ && _)%bool = true |- _ => apply andb_true_iff in H; destruct H
  | H : (_ || _)%bool = false |- _ => apply orb_false_iff in H; destruct H
  | H : (_ && _)%bool = false |- _ => apply andb_false_iff in H
  | H : (_ || _)%bool = true |- _ => apply orb_true_iff in H
  | H : negb _ = true |- _ => apply negb_true_iff in H
  | H : negb _ = false |- _ => apply negb_false_iff in H
  | H : (_ <? _) = true |- _ => apply Z.ltb_lt in H
  | H : (_ <? _) = false |- _ => apply Z.ltb_ge in H
  | H : (_ <=? _) = true |- _ => apply Z.leb_le in H
  | H : (_ <=? _) = false |- _ => apply Z.leb_gt in H
  | H : (_ =? _) = true |- _ => apply Z.eqb_eq in H
  | H : (_ =? _) = false |- _ => apply Z.eqb_neq in H
  | H : (_ >? _) = true |- _ => rewrite Z.gtb_ltb in H
  | H : (_ >? _) = false |- _ => rewrite Z.gtb_ltb in H
  | H : (_ >=? _) = true |- _ => rewrite Z.geb_leb in H
  | H : (_ >=? _) = false |- _ => rewrite Z.geb_leb in H
  end.

(** Case analysis on the test of an [if] of the goal. *)
Ltac case_if :=
  match goal with
  | |- context [if ?b then _ else _] => let E := fresh "E" in destruct b eqn:E
  end.

(** Closes a conjunction of trivial and of arithmetical facts. *)
Ltac fin := split_and?; try done; lia.

Create Rewrite HintDb bytes.

(** * Integers *)

Lemma wrap_small (w z : Z) : 0 ≤ z < 2 ^ w → wrap w z = z.
Proof. apply Z.mod_small. Qed.

Lemma wrap_range (w z : Z) : 0 ≤ w → 0 ≤ wrap w z < 2 ^ w.
Proof. intros. apply Z.mod_pos_bound. lia. Qed.

Lemma wrap_wrap (w z : Z) : 0 ≤ w → wrap w (wrap w z) = wrap w z.
Proof. intros Hw. apply wrap_small, wrap_range, Hw. Qed.

Lemma u8_small (z : Z) : 0 ≤ z < 256 → u8 z = z.
Proof. intros. apply wrap_small. lia. Qed.

Lemma u16_small (z : Z) : 0 ≤ z < 65536 → u16 z = z.
Proof. intros. apply wrap_small. lia. Qed.

Lemma u32_small (z : Z) : 0 ≤ z < 4294967296 → u32 z = z.
Proof. intros. apply wrap_small. lia. Qed.

Lemma u64_small (z : Z) : 0 ≤ z < 2 ^ 64 → u64 z = z.
Proof. apply wrap_small. Qed.

Lemma u32_range (z : Z) : 0 ≤ u32 z < 4294967296.
Proof. apply (wrap_range 32 z). lia. Qed.

Lemma u64_range (z : Z) : 0 ≤ u64 z < 2 ^ 64.
Proof. apply (wrap_range 64 z). lia. Qed.

Lemma s32_small (z : Z) : - 2 ^ 31 ≤ z < 2 ^ 31 → s32 z = z.
Proof. intros. unfold s32. rewrite Z.mod_small; lia. Qed.

(** [x / d] written as the quotient and remainder equations [lia] needs. *)
Ltac zdiv := Z.to_euclidean_division_equations; lia.

(** * Bytes and integers *)

Lemma b2z_range (b : byte) : 0 ≤ b2z b < 256.
Proof. unfold b2z. pose proof (Byte.to_N_bounded b). lia. Qed.

Lemma b2z_z2b (z : Z) : b2z (z2b z) = u8 z.
Proof.
  unfold b2z, z2b. pose proof (wrap_range 8 z ltac:(lia)) as Hr.
  change (wrap 8 z) with (u8 z) in Hr.
  destruct (Byte.of_N (Z.to_N (u8 z))) as [b|] eqn:E; simpl.
  - apply Byte.to_of_N in E. rewrite E. lia.
  - apply Byte.of_N_None_iff in E. lia.
Qed.

Lemma b2z_inj (a b : byte) : b2z a = b2z b → a = b.
Proof.
  unfold b2z. intros H. apply N2Z.inj in H.
  pose proof (Byte.of_to_N a) as Ha. rewrite H, Byte.of_to_N in Ha. congruence.
Qed.

Lemma z2b_b2z (b : byte) : z2b (b2z b) = b.
Proof. apply b2z_inj. rewrite b2z_z2b. apply u8_small, b2z_range. Qed.

Lemma b2z_z2b_small (z : Z) : 0 ≤ z < 256 → b2z (z2b z) = z.
Proof. intros. rewrite b2z_z2b. by apply u8_small. Qed.

#[export] Hint Rewrite b2z_z2b z2b_b2z : bytes.

Lemma le_val_range (l : list byte) : 0 ≤ le_val l < 256 ^ zlen l.
Proof.
  induction l as [|b l IH]; simpl length; simpl le_val; [lia|].
  pose proof (b2z_range b). rewrite Nat2Z.inj_succ, Z.pow_succ_r by lia. lia.
Qed.

Lemma length_le_bytes (n : nat) (z : Z) : length (le_bytes n z) = n.
Proof. revert z. induction n as [|n IH]; intros z; simpl; [done|]. by rewrite IH. Qed.

Lemma le_val_le_bytes (n : nat) (z : Z) : le_val (le_bytes n z) = z mod 256 ^ Z.of_nat n.
Proof.
  revert z. induction n as [|n IH]; intros z; simpl le_val.
  - by rewrite Z.mod_1_r.
  - rewrite IH, b2z_z2b, Nat2Z.inj_succ, Z.pow_succ_r by lia.
    unfold u8, wrap. change (2 ^ 8) with 256. rewrite Z.rem_mul_r by lia. lia.
Qed.

Lemma le_val_inj (l1 l2 : list byte) :
  length l1 = length l2 → le_val l1 = le_val l2 → l1 = l2.
Proof.
  revert l2. induction l1 as [|a l1 IH]; intros [|b l2] Hl H; try done.
  simpl in Hl, H. pose proof (b2z_range a). pose proof (b2z_range b).
  f_equal; [apply b2z_inj; lia|apply IH; lia].
Qed.

Lemma le_bytes_le_val (l : list byte) : le_bytes (length l) (le_val l) = l.
Proof.
  apply le_val_inj; [apply length_le_bytes|].
  rewrite le_val_le_bytes. apply Z.mod_small, le_val_range.
Qed.

Lemma be_val_inj (l1 l2 : list byte) :
  length l1 = length l2 → be_val l1 = be_val l2 → l1 = l2.
Proof.
  intros Hl H. apply (inj reverse), le_val_inj; [|done]. by rewrite !length_reverse.
Qed.

Lemma le_val_app (l1 l2 : list byte) :
  le_val (l1 ++ l2) = le_val l1 + 256 ^ zlen l1 * le_val l2.
Proof.
  induction l1 as [|b l1 IH]; simpl app; simpl le_val; simpl length; [lia|].
  rewrite IH, Nat2Z.inj_succ, Z.pow_succ_r by lia. lia.
Qed.

(** * Exclusive or of words split at a bit *)

Lemma lxor_range (k a b : Z) :
  0 ≤ k → 0 ≤ a < 2 ^ k → 0 ≤ b < 2 ^ k → 0 ≤ Z.lxor a b < 2 ^ k.
Proof.
  intros Hk Ha Hb.
  replace (Z.lxor a b) with (Z.lxor a b mod 2 ^ k); [apply Z.mod_pos_bound; lia|].
  rewrite <- !Z.land_ones by lia.
  apply Z.bits_inj'. intros n Hn. rewrite Z.land_spec, Z.lxor_spec.
  destruct (decide (n < k)).
  - rewrite Z.ones_spec_low by lia. by rewrite andb_true_r.
  - rewrite Z.ones_spec_high by lia. rewrite andb_false_r. symmetry.
    rewrite <- (Z.mod_small a (2 ^ k)), <- (Z.mod_small b (2 ^ k)) by lia.
    by rewrite !Z.mod_pow2_bits_high by lia.
Qed.

Lemma lxor_split (k a b x y : Z) :
  0 ≤ k → 0 ≤ a < 2 ^ k → 0 ≤ b < 2 ^ k →
  Z.lxor (a + 2 ^ k * x) (b + 2 ^ k * y) = Z.lxor a b + 2 ^ k * Z.lxor x y.
Proof.
  intros Hk Ha Hb. set (A := a + 2 ^ k * x). set (B := b + 2 ^ k * y).
  assert (Hd : Z.lxor A B / 2 ^ k = Z.lxor x y).
  { rewrite <- Z.shiftr_div_pow2, Z.shiftr_lxor, !Z.shiftr_div_pow2 by lia.
    unfold A, B. rewrite !(Z.mul_comm (2 ^ k)), !Z.div_add, !Z.div_small by lia. f_equal; lia. }
  assert (Hm : Z.lxor A B mod 2 ^ k = Z.lxor a b).
  { rewrite <- (Z.mod_small a (2 ^ k)), <- (Z.mod_small b (2 ^ k)) by lia.
    unfold A, B. rewrite <- (Z_mod_plus_full a x (2 ^ k)), <- (Z_mod_plus_full b y (2 ^ k)).
    rewrite !(Z.mul_comm _ (2 ^ k)), <- !Z.land_ones by lia.
    apply Z.bits_inj'. intros n Hn. rewrite !Z.lxor_spec, !Z.land_spec, !Z.lxor_spec.
    destruct (Z.testbit (Z.ones k) n); by rewrite ?andb_true_r, ?andb_false_r. }
  pose proof (Z.div_mod (Z.lxor A B) (2 ^ k) ltac:(lia)). lia.
Qed.

Lemma lxor_eq_0 (a b : Z) : Z.lxor a b = 0 ↔ a = b.
Proof. apply Z.lxor_eq_0_iff. Qed.

Lemma lor_eqb_0 (a b : Z) : (Z.lor a b =? 0) = (a =? 0) && (b =? 0).
Proof.
  apply eq_true_iff_eq. rewrite andb_true_iff, !Z.eqb_eq. apply Z.lor_eq_0_iff.
Qed.

Lemma lxor_eq_0_eqb (a b : Z) : (Z.lxor a b =? 0) = (a =? b).
Proof.
  destruct (Z.eqb_spec (Z.lxor a b) 0) as [E|E]; rewrite lxor_eq_0 in E;
    symmetry; [by apply Z.eqb_eq|by apply Z.eqb_neq].
Qed.

Lemma land_byte (y k : Z) :
  0 ≤ k → Z.land y (Z.shiftl 255 k) = (Z.shiftr y k mod 256) * 2 ^ k.
Proof.
  intros Hk. rewrite <- Z.shiftl_mul_pow2 by done. change 256 with (2 ^ 8).
  rewrite <- Z.land_ones by lia. change (Z.ones 8) with 255.
  rewrite Z.shiftl_land. apply Z.bits_inj'. intros n Hn. rewrite !Z.land_spec.
  destruct (decide (n < k)).
  - by rewrite (Z.shiftl_spec_low 255), !andb_false_r by lia.
  - rewrite (Z.shiftl_spec_high (Z.shiftr y k)), Z.shiftr_spec by lia. do 2 f_equal. lia.
Qed.

Lemma lor_byte (k' H b k : Z) :
  k' = k + 8 → 0 ≤ k → 0 ≤ b < 256 → Z.lor (H * 2 ^ k') (b * 2 ^ k) = (H * 256 + b) * 2 ^ k.
Proof.
  intros -> Hk Hb. rewrite Z.pow_add_r by lia. change (2 ^ 8) with 256.
  replace (H * (2 ^ k * 256)) with ((H * 256) * 2 ^ k) by lia.
  rewrite <- !Z.shiftl_mul_pow2, <- Z.shiftl_lor by lia. f_equal.
  change 256 with (2 ^ 8). rewrite <- Z.shiftl_mul_pow2 by lia.
  assert (Hz : Z.land (Z.shiftl H 8) b = 0).
  { apply Z.bits_inj'. intros n Hn. rewrite Z.land_spec, Z.bits_0. destruct (decide (n < 8)).
    - by rewrite Z.shiftl_spec_low by lia.
    - rewrite <- (Z.mod_small b (2 ^ 8)) by lia. by rewrite Z.mod_pow2_bits_high, andb_false_r by lia. }
  rewrite <- Z.lxor_lor, <- Z.add_nocarry_lxor by done. done.
Qed.
