(* ===== verification/Mem.v ===== *)
(** Flat byte-addressed memory, the effect of C code on it, and the total
    correctness calculus the components are verified with.

    A pointer is an integer address; memory maps the addresses that belong to
    some live object to their bytes.  An access outside of them is undefined
    behaviour in C and is the outcome [Fault] here, so a theorem that a
    function returns includes that it stays within its buffers. *)

From Stdlib Require Import ZArith Lia Strings.Byte.
From stdpp Require Import base gmap list fin_maps numbers.
From S2P Require Import Prelude.

Abbreviation mem := (gmap Z byte).

(** * Effects *)

(** What running C code leads to: a value and the memory after, an access
    outside of every object, or more loop iterations than the bound given. *)
Inductive outcome (A : Type) : Type :=
| Ret (a : A) (m : mem)
| Fault
| OutOfFuel.
Arguments Ret {A}.
Arguments Fault {A}.
Arguments OutOfFuel {A}.

Definition prog (A : Type) : Type := mem → outcome A.

Definition ret {A : Type} (a : A) : prog A := λ m, Ret a m.

Definition bind {A B : Type} (c : prog A) (k : A → prog B) : prog B :=
  λ m, match c m with
       | Ret a m' => k a m'
       | Fault => Fault
       | OutOfFuel => OutOfFuel
       end.

Definition nofuel {A : Type} : prog A := λ _, OutOfFuel.

Definition fault {A : Type} : prog A := λ _, Fault.

Declare Scope prog_scope.
Delimit Scope prog_scope with prog.
Notation "'let!' x ':=' c 'in' k" := (bind c (λ x, k))
  (at level 10, x pattern, c at level 100, k at level 200) : prog_scope.
Notation "c ';!' k" := (bind c (λ _ : unit, k))
  (at level 100, k at level 200, right associativity) : prog_scope.
#[global] Open Scope prog_scope.

(** * Memory accesses *)

(** [*(BYTE* )a] *)
Definition load8 (a : Z) : prog Z :=
  λ m, match m !! a with Some b => Ret (b2z b) m | None => Fault end.

(** [*(BYTE* )a = (BYTE)v] *)
Definition store8 (a v : Z) : prog unit :=
  λ m, match m !! a with Some _ => Ret tt (<[a := z2b v]> m) | None => Fault end.

Fixpoint read_bytes (m : mem) (a : Z) (n : nat) : option (list byte) :=
  match n with
  | O => Some []
  | S n => match m !! a, read_bytes m (a + 1) n with
           | Some b, Some l => Some (b :: l)
           | _, _ => None
           end
  end.

Definition load_bytes (a : Z) (n : nat) : prog (list byte) :=
  λ m, match read_bytes m a n with Some l => Ret l m | None => Fault end.

Fixpoint store_bytes (a : Z) (l : list byte) : prog unit :=
  match l with
  | [] => ret tt
  | b :: l => store8 a (b2z b) ;! store_bytes (a + 1) l
  end.

(** [memcpy]: every byte of the source is read before the first is written,
    which is how a fixed-size copy is compiled and what [memmove] promises. *)
Definition memcpy (dst src n : Z) : prog unit :=
  let! l := load_bytes src (Z.to_nat n) in
  store_bytes dst l.

Definition memmove (dst src n : Z) : prog unit :=
  let! l := load_bytes src (Z.to_nat n) in
  store_bytes dst l.

(** * Assertions *)

(** The addresses [a .. a + n - 1] are mapped. *)
Definition mapped (m : mem) (a n : Z) : Prop :=
  ∀ i, a ≤ i < a + n → is_Some (m !! i).

(** The bytes [l] are stored from address [a] on. *)
Fixpoint bytes_at (m : mem) (a : Z) (l : list byte) : Prop :=
  match l with
  | [] => True
  | b :: l => m !! a = Some b ∧ bytes_at m (a + 1) l
  end.

(** [m'] has the objects of [m], and its bytes outside of [lo .. hi - 1]. *)
Record frame (lo hi : Z) (m m' : mem) : Prop := {
  frame_dom : ∀ i, is_Some (m' !! i) ↔ is_Some (m !! i);
  frame_eq : ∀ i, i < lo ∨ hi ≤ i → m' !! i = m !! i
}.

(** Total correctness: [c] runs from [m] without fault, within its loop
    bounds, and ends with a value and a memory that satisfy [Q]. *)
Definition wp {A : Type} (c : prog A) (Q : A → mem → Prop) (m : mem) : Prop :=
  match c m with
  | Ret a m' => Q a m'
  | Fault | OutOfFuel => False
  end.

(** * Rules of the calculus *)

Section rules.
Context {A B : Type}.
Implicit Types (m : mem).

Lemma wp_ret (a : A) (Q : A → mem → Prop) m : Q a m → wp (ret a) Q m.
Proof. done. Qed.

Lemma wp_bind (c : prog A) (k : A → prog B) (Q : B → mem → Prop) m :
  wp c (λ a m', wp (k a) Q m') m → wp (bind c k) Q m.
Proof. unfold wp, bind. by destruct (c m). Qed.

Lemma wp_bind_inv (c : prog A) (k : A → prog B) (Q : B → mem → Prop) m :
  wp (bind c k) Q m → wp c (λ a m', wp (k a) Q m') m.
Proof. unfold wp, bind. by destruct (c m). Qed.

Lemma wp_mono (c : prog A) (P Q : A → mem → Prop) m :
  wp c P m → (∀ a m', P a m' → Q a m') → wp c Q m.
Proof. unfold wp. destruct (c m); naive_solver. Qed.

(** Sequencing through a specification of the first part. *)
Lemma wp_seq (c : prog A) (k : A → prog B) (P : A → mem → Prop) (Q : B → mem → Prop) m :
  wp c P m → (∀ a m', P a m' → wp (k a) Q m') → wp (bind c k) Q m.
Proof. intros Hc Hk. apply wp_bind. by eapply wp_mono. Qed.

Lemma wp_conj (c : prog A) (P Q : A → mem → Prop) m :
  wp c P m → wp c Q m → wp c (λ a m', P a m' ∧ Q a m') m.
Proof. unfold wp. by destruct (c m). Qed.

Lemma wp_result (c : prog A) (Q : A → mem → Prop) m :
  wp c Q m ↔ ∃ a m', c m = Ret a m' ∧ Q a m'.
Proof.
  unfold wp. destruct (c m); split; try naive_solver.
Qed.

Lemma bind_assoc {C : Type} (c : prog A) (k : A → prog B) (k' : B → prog C) m :
  bind (bind c k) k' m = bind c (λ a, bind (k a) k') m.
Proof. unfold bind. by destruct (c m). Qed.

End rules.

Lemma wp_load8 (a : Z) (b : byte) (Q : Z → mem → Prop) (m : mem) :
  m !! a = Some b → Q (b2z b) m → wp (load8 a) Q m.
Proof. intros H HQ. unfold wp, load8. by rewrite H. Qed.

Lemma wp_store8 (a v : Z) (Q : unit → mem → Prop) (m : mem) :
  is_Some (m !! a) → Q tt (<[a := z2b v]> m) → wp (store8 a v) Q m.
Proof. intros [b H] HQ. unfold wp, store8. by rewrite H. Qed.

(** * Frames *)

#[global] Instance frame_refl (lo hi : Z) : Reflexive (frame lo hi).
Proof. intros m. split; done. Qed.

Lemma frame_trans (lo hi : Z) (m1 m2 m3 : mem) :
  frame lo hi m1 m2 → frame lo hi m2 m3 → frame lo hi m1 m3.
Proof.
  intros [D1 E1] [D2 E2]. split; intros i.
  - by rewrite D2, D1.
  - intros Hi. rewrite E2, E1; done.
Qed.

#[global] Instance frame_preorder (lo hi : Z) : PreOrder (frame lo hi).
Proof. split; [apply _|]. intros m1 m2 m3. apply frame_trans. Qed.

Lemma frame_weaken (lo hi lo' hi' : Z) (m m' : mem) :
  frame lo hi m m' → lo' ≤ lo → hi ≤ hi' → frame lo' hi' m m'.
Proof. intros [D E] ??. split; [done|]. intros i Hi. apply E. lia. Qed.

Lemma frame_insert (lo hi a : Z) (b : byte) (m : mem) :
  is_Some (m !! a) → lo ≤ a < hi → frame lo hi m (<[a := b]> m).
Proof.
  intros Ha Hr. split; intros i.
  - destruct (decide (a = i)) as [->|Hne].
    + rewrite lookup_insert_eq. naive_solver.
    + by rewrite lookup_insert_ne.
  - intros Hi. rewrite lookup_insert_ne; [done|lia].
Qed.

Lemma frame_mapped (lo hi a n : Z) (m m' : mem) :
  frame lo hi m m' → mapped m a n → mapped m' a n.
Proof. intros [D _] H i Hi. rewrite D. auto. Qed.

Lemma frame_lookup_Some (lo hi : Z) (m m' : mem) (i : Z) (b : byte) :
  frame lo hi m m' → (i < lo ∨ hi ≤ i) → m !! i = Some b → m' !! i = Some b.
Proof. intros [_ E] Hi H. by rewrite E. Qed.

(** * Mapped ranges *)

Lemma mapped_sub (m : mem) (a n a' n' : Z) :
  mapped m a n → a ≤ a' → a' + n' ≤ a + n → mapped m a' n'.
Proof. intros H ?? i Hi. apply H. lia. Qed.

Lemma mapped_at (m : mem) (a n i : Z) :
  mapped m a n → a ≤ i < a + n → is_Some (m !! i).
Proof. auto. Qed.

Lemma mapped_join (m : mem) (a n n' : Z) :
  mapped m a n → mapped m (a + n) n' → mapped m a (n + n').
Proof.
  intros H1 H2 i Hi. destruct (decide (i < a + n)); [apply H1|apply H2]; lia.
Qed.

(** * Stored byte strings *)

Lemma bytes_at_lookup (m : mem) (a : Z) (l : list byte) :
  bytes_at m a l ↔ ∀ i b, l !! i = Some b → m !! (a + Z.of_nat i) = Some b.
Proof.
  revert a. induction l as [|x l IH]; intros a; simpl; [naive_solver|].
  rewrite IH. split.
  - intros [H1 H2] [|i] b Hi; simpl in Hi.
    + simplify_eq. by rewrite Z.add_0_r.
    + rewrite <- (H2 i b Hi). f_equal. lia.
  - intros H. split.
    + rewrite <- (H 0%nat x eq_refl). f_equal. lia.
    + intros i b Hi. rewrite <- (H (S i) b Hi). f_equal. lia.
Qed.

Lemma bytes_at_app (m : mem) (a : Z) (l1 l2 : list byte) :
  bytes_at m a (l1 ++ l2) ↔ bytes_at m a l1 ∧ bytes_at m (a + zlen l1) l2.
Proof.
  revert a. induction l1 as [|x l1 IH]; intros a; simpl.
  - rewrite Z.add_0_r. naive_solver.
  - rewrite IH. replace (a + 1 + zlen l1) with (a + Z.of_nat (S (length l1))) by lia.
    naive_solver.
Qed.

Lemma bytes_at_mapped (m : mem) (a : Z) (l : list byte) :
  bytes_at m a l → mapped m a (zlen l).
Proof.
  rewrite bytes_at_lookup. intros H i Hi.
  destruct (lookup_lt_is_Some_2 l (Z.to_nat (i - a))) as [b Hb]; [lia|].
  exists b. rewrite <- (H _ _ Hb). f_equal. lia.
Qed.

Lemma bytes_at_frame (lo hi : Z) (m m' : mem) (a : Z) (l : list byte) :
  frame lo hi m m' → (a + zlen l ≤ lo ∨ hi ≤ a) → bytes_at m a l → bytes_at m' a l.
Proof.
  rewrite !bytes_at_lookup. intros F Hd H i b Hi.
  eapply frame_lookup_Some; [done| |by apply H].
  apply lookup_lt_Some in Hi. lia.
Qed.

Lemma bytes_at_copy (m m' : mem) (a a' : Z) (l : list byte) :
  (∀ i, 0 ≤ i < zlen l → m' !! (a' + i) = m !! (a + i)) →
  bytes_at m a l → bytes_at m' a' l.
Proof.
  rewrite !bytes_at_lookup. intros Hc H i b Hi.
  rewrite Hc; [by apply H|]. apply lookup_lt_Some in Hi. lia.
Qed.

Lemma bytes_at_inj (m : mem) (a : Z) (l l' : list byte) :
  bytes_at m a l → bytes_at m a l' → length l = length l' → l = l'.
Proof.
  revert a l'. induction l as [|x l IH]; intros a [|y l'] H H' Hl; try done.
  simpl in *. destruct H, H'. simplify_eq. f_equal. eapply IH; eauto.
Qed.

(** Every mapped range holds some bytes. *)
Lemma mapped_bytes_at (m : mem) (a : Z) (n : nat) :
  mapped m a (Z.of_nat n) → ∃ l, length l = n ∧ bytes_at m a l.
Proof.
  revert a. induction n as [|n IH]; intros a H.
  - by exists [].
  - destruct (H a) as [b Hb]; [lia|].
    destruct (IH (a + 1)) as (l & Hl & Hat); [eapply mapped_sub; eauto; lia|].
    exists (b :: l). simpl. by rewrite Hl.
Qed.

Lemma read_bytes_at (m : mem) (a : Z) (n : nat) (l : list byte) :
  read_bytes m a n = Some l ↔ length l = n ∧ bytes_at m a l.
Proof.
  revert a l. induction n as [|n IH]; intros a l; simpl.
  - split; [naive_solver|]. intros [H _]. by destruct l.
  - destruct (m !! a) as [b|] eqn:Hb.
    + destruct (read_bytes m (a + 1) n) as [l'|] eqn:Hl.
      * apply IH in Hl as [Hn Hl]. split.
        -- intros [= <-]. simpl. by rewrite Hn, Hb.
        -- intros [Hn' H]. destruct l as [|x l]; [done|]. simpl in *.
           destruct H. simplify_eq. do 2 f_equal. by eapply bytes_at_inj.
      * split; [done|]. intros [Hn H]. destruct l as [|x l]; [done|]. simpl in *.
        destruct H as [_ H]. enough (@None (list byte) = Some l) by done.
        rewrite <- Hl. apply IH. naive_solver.
    + split; [done|]. intros [Hn H]. destruct l; [done|]. simpl in H. naive_solver.
Qed.

(** Reading a mapped range, executable. *)
Definition mappedb (m : mem) (a n : Z) : bool :=
  match read_bytes m a (Z.to_nat n) with Some _ => true | None => false end.

Lemma mappedb_mapped (m : mem) (a n : Z) : mappedb m a n = true → mapped m a n.
Proof.
  unfold mappedb. destruct (read_bytes m a (Z.to_nat n)) as [l|] eqn:H; [|done].
  intros _ i Hi. apply read_bytes_at in H as [Hl H].
  apply (bytes_at_mapped _ _ _ H). lia.
Qed.

(** * Rules for the block accesses *)

Lemma wp_load_bytes (a : Z) (l : list byte) (Q : list byte → mem → Prop) (m : mem) :
  bytes_at m a l → Q l m → wp (load_bytes a (length l)) Q m.
Proof.
  intros H HQ. unfold wp, load_bytes.
  rewrite (proj2 (read_bytes_at m a (length l) l)); done.
Qed.

Lemma store_bytes_spec (l : list byte) (a : Z) (m : mem) :
  mapped m a (zlen l) →
  wp (store_bytes a l)
     (λ _ m', frame a (a + zlen l) m m' ∧ bytes_at m' a l) m.
Proof.
  revert a m. induction l as [|b l IH]; intros a m Hm; simpl store_bytes.
  - apply wp_ret. simpl. split; [|done]. reflexivity.
  - apply wp_bind, wp_store8; [apply Hm; simpl; lia|].
    rewrite z2b_b2z. simpl length in Hm.
    assert (Hf : frame a (a + zlen (b :: l)) m (<[a:=b]> m)).
    { apply frame_insert; simpl; [apply Hm; lia|lia]. }
    eapply wp_mono; [apply IH|].
    + eapply frame_mapped; [done|]. eapply mapped_sub; [done|lia..].
    + intros _ m' [Hf' Hb]. simpl length in *. split.
      * etransitivity; [done|]. eapply frame_weaken; [done|lia..].
      * simpl. split; [|done].
        rewrite (frame_eq _ _ _ _ Hf') by lia. apply lookup_insert_eq.
Qed.

(** [memcpy] on mapped ranges: only the destination changes, and it holds the
    bytes the source had. *)
Lemma memcpy_spec (dst src n : Z) (m : mem) :
  0 ≤ n → mapped m src n → mapped m dst n →
  wp (memcpy dst src n)
     (λ _ m', frame dst (dst + n) m m' ∧
              ∀ i, 0 ≤ i < n → m' !! (dst + i) = m !! (src + i)) m.
Proof.
  intros Hn Hs Hd. rewrite <- (Z2Nat.id n) in Hs, Hd by done.
  destruct (mapped_bytes_at _ _ _ Hs) as (l & Hl & Hat).
  unfold memcpy. apply wp_bind. rewrite <- Hl. apply wp_load_bytes; [done|].
  eapply wp_mono; [apply store_bytes_spec; by rewrite Hl|].
  intros _ m' [Hf Hb]. replace (zlen l) with n in Hf by lia. split; [done|].
  intros i Hi. destruct (lookup_lt_is_Some_2 l (Z.to_nat i)) as [b Hlb]; [lia|].
  rewrite bytes_at_lookup in Hat, Hb.
  pose proof (Hat _ _ Hlb) as H1. pose proof (Hb _ _ Hlb) as H2.
  rewrite Z2Nat.id in H1, H2 by lia. congruence.
Qed.

Lemma memmove_spec (dst src n : Z) (m : mem) :
  0 ≤ n → mapped m src n → mapped m dst n →
  wp (memmove dst src n)
     (λ _ m', frame dst (dst + n) m m' ∧
              ∀ i, 0 ≤ i < n → m' !! (dst + i) = m !! (src + i)) m.
Proof. apply memcpy_spec. Qed.

(** * Tactics of the calculus *)

(** Runs the next command through the specification [H]. *)
Tactic Notation "wp_apply" uconstr(H) := eapply wp_seq; [eapply H|].

(** A range is mapped when it lies in a range mapped now or before some
    framed steps. *)
Ltac solve_mapped :=
  match goal with
  | H : mapped ?m _ _ |- mapped ?m _ _ => solve [apply (mapped_sub _ _ _ _ _ H); lia]
  | H : bytes_at ?m _ _ |- mapped ?m _ _ =>
      solve [apply (mapped_sub _ _ _ _ _ (bytes_at_mapped _ _ _ H)); simpl length; lia]
  | F : frame _ _ ?m0 ?m |- mapped ?m _ _ => apply (frame_mapped _ _ _ _ _ _ F); solve_mapped
  | |- is_Some (?m !! ?i) => apply (mapped_at m i 1 i); [solve_mapped|lia]
  end.

(** Composes the framed steps between two memories. *)
Ltac solve_frame :=
  match goal with
  | |- frame _ _ ?m ?m => reflexivity
  | F : frame _ _ ?m ?m' |- frame _ _ ?m ?m' => solve [apply (frame_weaken _ _ _ _ _ _ F); lia]
  | F : frame _ _ ?m0 ?m' |- frame ?lo ?hi ?m ?m' =>
      apply (frame_trans lo hi m m0 m'); [solve_frame|solve [apply (frame_weaken _ _ _ _ _ _ F); lia]]
  end.

(** * Concrete memories *)

(** An object at address [a] that holds the bytes [l]. *)
Fixpoint place (a : Z) (l : list byte) (m : mem) : mem :=
  match l with
  | [] => m
  | b :: l => <[a := b]> (place (a + 1) l m)
  end.

(** Bytes given by their values. *)
Definition bytes_of (l : list Z) : list byte := z2b <$> l.

(** Closes a ground fact about concrete memories and integers by evaluation. *)
Ltac ground :=
  lazymatch goal with
  | |- mapped _ _ _ => apply mappedb_mapped; vm_compute; reflexivity
  | |- _ ∧ _ => split; ground
  | |- _ = _ => vm_compute; reflexivity
  | |- bytes_at _ _ _ => vm_compute; repeat split; reflexivity
  | |- _ ≤ _ => vm_compute; discriminate
  | |- _ < _ => vm_compute; reflexivity
  | |- _ => vm_compute; intuition discriminate
  end.
