(* ===== verification/Lz4Common.v ===== *)
(** LZ4: the memory primitives, constants and match counting shared by the
    block compressors and the block decompressor (src/src/lz4/lib/lz4.c,
    "Reading and writing into memory" to "Common functions").

    The functions are parameterised by the two facts about the target that
    the C code asks for, the pointer width and the byte order, so everything
    proved from here on holds on the four kinds of targets. *)

From Stdlib Require Import ZArith Lia Strings.Byte.
From stdpp Require Import base gmap list fin_maps numbers.
From S2P Require Import Prelude Mem.

(** * The target *)

(** [LZ4_64bits] and [LZ4_isLittleEndian]. *)
Class Arch : Type := {
  LZ4_64bits : bool;
  LZ4_isLittleEndian : bool
}.

(** The target the node is built for. *)
Definition x86_64 : Arch := {| LZ4_64bits := true; LZ4_isLittleEndian := true |}.

(** * Constants *)

Definition MINMATCH : Z := 4.
Definition COPYLENGTH : Z := 8.
Definition LASTLITERALS : Z := 5.
Definition MFLIMIT : Z := COPYLENGTH + MINMATCH.
Definition LZ4_minLength : Z := MFLIMIT + 1.
Definition KB (n : Z) : Z := n * 1024.
Definition GB (n : Z) : Z := n * 2 ^ 30.
Definition MAXD_LOG : Z := 16.
Definition MAX_DISTANCE : Z := 2 ^ MAXD_LOG - 1.
Definition ML_BITS : Z := 4.
Definition ML_MASK : Z := 2 ^ ML_BITS - 1.
Definition RUN_BITS : Z := 8 - ML_BITS.
Definition RUN_MASK : Z := 2 ^ RUN_BITS - 1.

(** * Bit counting *)

(** [__builtin_ctzll]: the number of trailing zero bits of a nonzero word. *)
Fixpoint pos_ctz (p : positive) : Z :=
  match p with
  | xO q => 1 + pos_ctz q
  | _ => 0
  end.

Definition ctz (z : Z) : Z :=
  match z with Zpos p => pos_ctz p | _ => 0 end.

(** [__builtin_clzll]: the number of leading zero bits of a nonzero [w]-bit word. *)
Definition clz (w z : Z) : Z := w - 1 - Z.log2 z.

Section arch.
Context {arch : Arch}.

(** [sizeof(size_t)] *)
Definition STEPSIZE : Z := if LZ4_64bits then 8 else 4.

(** The number of bits of a pointer and of [size_t]. *)
Definition ptr_bits : Z := 8 * STEPSIZE.

(** Conversion to [size_t]. *)
Definition usize (z : Z) : Z := wrap ptr_bits z.

(** The value the target reads from the bytes of a word. *)
Definition native (l : list byte) : Z :=
  if LZ4_isLittleEndian then le_val l else be_val l.

(** The bytes the target stores for an [n]-byte word. *)
Definition native_bytes (n : nat) (v : Z) : list byte :=
  if LZ4_isLittleEndian then le_bytes n v else be_bytes n v.

(** * Reading and writing into memory *)

Definition LZ4_read16 (memPtr : Z) : prog Z :=
  let! l := load_bytes memPtr 2 in ret (native l).

Definition LZ4_readLE16 (memPtr : Z) : prog Z :=
  if LZ4_isLittleEndian then LZ4_read16 memPtr
  else
    let! p0 := load8 memPtr in
    let! p1 := load8 (memPtr + 1) in
    ret (u16 (u16 p0 + Z.shiftl p1 8)).

Definition LZ4_writeLE16 (memPtr value : Z) : prog unit :=
  if LZ4_isLittleEndian then store_bytes memPtr (native_bytes 2 value)
  else store8 memPtr value ;! store8 (memPtr + 1) (Z.shiftr value 8).

Definition LZ4_read32 (memPtr : Z) : prog Z :=
  let! l := load_bytes memPtr 4 in ret (native l).

Definition LZ4_read64 (memPtr : Z) : prog Z :=
  let! l := load_bytes memPtr 8 in ret (native l).

Definition LZ4_read_ARCH (p : Z) : prog Z :=
  if LZ4_64bits then LZ4_read64 p else LZ4_read32 p.

Definition LZ4_copy4 (dstPtr srcPtr : Z) : prog unit := memcpy dstPtr srcPtr 4.

Definition LZ4_copy8 (dstPtr srcPtr : Z) : prog unit := memcpy dstPtr srcPtr 8.

(** [do { LZ4_copy8(d,s); d+=8; s+=8; } while (d<e)] *)
Fixpoint wildCopy_loop (fuel : nat) (d s e : Z) : prog unit :=
  match fuel with
  | O => nofuel
  | S fuel =>
      LZ4_copy8 d s ;!
      if d + 8 <? e then wildCopy_loop fuel (d + 8) (s + 8) e else ret tt
  end.

Definition LZ4_wildCopy (dstPtr srcPtr dstEnd : Z) : prog unit :=
  wildCopy_loop (S (Z.to_nat (dstEnd - dstPtr))) dstPtr srcPtr dstEnd.

(** * Common functions *)

(** The branches compiled with the bit-count builtins. *)
Definition LZ4_NbCommonBytes (val : Z) : Z :=
  if LZ4_isLittleEndian then
    if LZ4_64bits then Z.shiftr (ctz (u64 val)) 3 else Z.shiftr (ctz (u32 val)) 3
  else
    if LZ4_64bits then Z.shiftr (clz 64 (u64 val)) 3 else Z.shiftr (clz 32 (u32 val)) 3.

Definition DeBruijnBytePos64 : list Z :=
  [0; 0; 0; 0; 0; 1; 1; 2; 0; 3; 1; 3; 1; 4; 2; 7; 0; 2; 3; 6; 1; 5; 3; 5; 1; 3; 4; 4; 2; 5; 6; 7;
   7; 0; 1; 2; 3; 3; 4; 6; 2; 6; 5; 5; 3; 4; 5; 6; 7; 1; 2; 4; 6; 4; 4; 5; 7; 2; 6; 5; 7; 6; 7; 7].

Definition DeBruijnBytePos32 : list Z :=
  [0; 0; 3; 0; 3; 1; 3; 0; 3; 2; 2; 1; 3; 2; 0; 1; 3; 3; 1; 2; 2; 2; 2; 0; 3; 1; 2; 0; 1; 0; 1; 1].

(** The branches compiled under [LZ4_FORCE_SW_BITCOUNT]. *)
Definition LZ4_NbCommonBytes_sw (val : Z) : Z :=
  if LZ4_isLittleEndian then
    if LZ4_64bits then
      DeBruijnBytePos64 !!! Z.to_nat (Z.shiftr (u64 (Z.land val (- val) * 0x0218A392CDABBD3F)) 58)
    else
      DeBruijnBytePos32 !!! Z.to_nat (Z.shiftr (u32 (Z.land val (- val) * 0x077CB531)) 27)
  else
    if LZ4_64bits then
      let '(r, val) := if Z.shiftr val 32 =? 0 then (4, val) else (0, Z.shiftr val 32) in
      let '(r, val) := if Z.shiftr val 16 =? 0 then (r + 2, Z.shiftr val 8)
                       else (r, Z.shiftr val 24) in
      r + (if val =? 0 then 1 else 0)
    else
      let '(r, val) := if Z.shiftr val 16 =? 0 then (2, Z.shiftr val 8)
                       else (0, Z.shiftr val 24) in
      r + (if val =? 0 then 1 else 0).

(** The [while] loop of [LZ4_count]: [inl pIn] when it returns from inside,
    [inr (pIn, pMatch)] when it falls through. *)
Fixpoint count_loop (fuel : nat) (pIn pMatch pInLimit : Z) : prog (Z + Z * Z) :=
  match fuel with
  | O => nofuel
  | S fuel =>
      if pIn <? pInLimit - (STEPSIZE - 1) then
        let! a := LZ4_read_ARCH pMatch in
        let! b := LZ4_read_ARCH pIn in
        let diff := Z.lxor a b in
        if diff =? 0 then count_loop fuel (pIn + STEPSIZE) (pMatch + STEPSIZE) pInLimit
        else ret (inl (pIn + LZ4_NbCommonBytes diff))
      else ret (inr (pIn, pMatch))
  end.

(** [if (LZ4_64bits()) if ((pIn<(pInLimit-3)) && (read32(pMatch)==read32(pIn))) ..] *)
Definition count_tail4 (pIn pMatch pInLimit : Z) : prog (Z * Z) :=
  if LZ4_64bits then
    if pIn <? pInLimit - 3 then
      let! a := LZ4_read32 pMatch in
      let! b := LZ4_read32 pIn in
      ret (if a =? b then (pIn + 4, pMatch + 4) else (pIn, pMatch))
    else ret (pIn, pMatch)
  else ret (pIn, pMatch).

Definition count_tail2 (pIn pMatch pInLimit : Z) : prog (Z * Z) :=
  if pIn <? pInLimit - 1 then
    let! a := LZ4_read16 pMatch in
    let! b := LZ4_read16 pIn in
    ret (if a =? b then (pIn + 2, pMatch + 2) else (pIn, pMatch))
  else ret (pIn, pMatch).

Definition count_tail1 (pIn pMatch pInLimit : Z) : prog Z :=
  if pIn <? pInLimit then
    let! a := load8 pMatch in
    let! b := load8 pIn in
    ret (if a =? b then pIn + 1 else pIn)
  else ret pIn.

Definition LZ4_count (pIn pMatch pInLimit : Z) : prog Z :=
  let pStart := pIn in
  let! r := count_loop (S (Z.to_nat (pInLimit - pIn))) pIn pMatch pInLimit in
  match r with
  | inl pIn => ret (u32 (pIn - pStart))
  | inr (pIn, pMatch) =>
      let! (pIn, pMatch) := count_tail4 pIn pMatch pInLimit in
      let! (pIn, pMatch) := count_tail2 pIn pMatch pInLimit in
      let! pIn := count_tail1 pIn pMatch pInLimit in
      ret (u32 (pIn - pStart))
  end.

End arch.

(** * Bit counting lemmas *)

Lemma pos_ctz_nonneg (p : positive) : 0 ≤ pos_ctz p.
Proof. induction p; simpl; lia. Qed.

Lemma ctz_double (z : Z) : 0 < z → ctz (2 * z) = 1 + ctz z.
Proof. by destruct z. Qed.

Lemma ctz_pow2_mul (n : nat) (z : Z) : 0 < z → ctz (2 ^ Z.of_nat n * z) = Z.of_nat n + ctz z.
Proof.
  intros Hz. induction n as [|n IH]; [rewrite Z.pow_0_r, Z.mul_1_l; lia|].
  rewrite Nat2Z.inj_succ, Z.pow_succ_r, <- Z.mul_assoc, ctz_double, IH by lia. lia.
Qed.

Lemma ctz_odd (z : Z) : ctz (1 + 2 * z) = 0.
Proof. destruct z as [|p|[p|p|]]; done. Qed.

(** Low-order bits decide the count when they are not all zero. *)
Lemma ctz_low (k : nat) (x y : Z) :
  0 < x < 2 ^ Z.of_nat k → 0 ≤ y →
  ctz (x + 2 ^ Z.of_nat k * y) = ctz x ∧ 0 ≤ ctz x < Z.of_nat k.
Proof.
  revert x. induction k as [|k IH]; intros x Hx Hy; [simpl in Hx; lia|].
  rewrite Nat2Z.inj_succ, Z.pow_succ_r in * by lia.
  destruct (Z.Even_or_Odd x) as [[w ->]|[w ->]].
  - destruct (IH w) as [IH1 IH2]; [lia..|].
    replace (2 * w + 2 * 2 ^ Z.of_nat k * y) with (2 * (w + 2 ^ Z.of_nat k * y)) by lia.
    rewrite !ctz_double by nia. lia.
  - replace (2 * w + 1 + 2 * 2 ^ Z.of_nat k * y)
      with (1 + 2 * (w + 2 ^ Z.of_nat k * y)) by lia.
    rewrite (Z.add_comm (2 * w)), !ctz_odd. lia.
Qed.

(** Isolating the lowest set bit. *)
Lemma land_opp_ctz (z : Z) : 0 < z → Z.land z (- z) = 2 ^ ctz z.
Proof.
  destruct z as [|p|p]; [lia| |lia]. intros _. simpl ctz.
  induction p as [p IH|p IH|]; try done.
  - change (Z.land (Z.pos p~1) (- Z.pos p~1) = 2 ^ 0).
    apply Z.bits_inj'. intros n Hn.
    replace (- Z.pos p~1) with (Z.lnot (2 * Z.pos p)) by (unfold Z.lnot; lia).
    rewrite Z.land_spec, Z.lnot_spec by lia. change (2 ^ 0) with 1.
    replace (Z.pos p~1) with (2 * Z.pos p + 1) by lia.
    destruct (decide (n = 0)) as [->|].
    + by rewrite Z.testbit_odd_0, Z.testbit_even_0.
    + replace n with (Z.succ (n - 1)) by lia.
      rewrite Z.testbit_odd_succ, Z.testbit_even_succ by lia.
      rewrite andb_negb_r. symmetry. change 1 with (2 * 0 + 1).
      rewrite Z.testbit_odd_succ by lia. apply Z.bits_0.
  - cbn [pos_ctz]. rewrite Z.pow_add_r, <- IH by (pose proof (pos_ctz_nonneg p); lia).
    replace (Z.pos p~0) with (Z.shiftl (Z.pos p) 1) by (rewrite Z.shiftl_mul_pow2; lia).
    replace (- Z.shiftl (Z.pos p) 1) with (Z.shiftl (- Z.pos p) 1)
      by (rewrite !Z.shiftl_mul_pow2; lia).
    rewrite <- Z.shiftl_land, Z.shiftl_mul_pow2 by lia. lia.
Qed.

Lemma ctz_range (k : nat) (x : Z) : 0 < x < 2 ^ Z.of_nat k → 0 ≤ ctz x < Z.of_nat k.
Proof. intros Hx. apply (ctz_low k x 0); lia. Qed.

(** * First difference of two words *)

(** [k] is the length of the longest common prefix of two different strings. *)
Definition first_diff (k : nat) (l1 l2 : list byte) : Prop :=
  (∀ i, (i < k)%nat → l1 !! i = l2 !! i) ∧ (k < length l1)%nat ∧ l1 !! k ≠ l2 !! k.

Lemma first_diff_cons (k : nat) (b : byte) (l1 l2 : list byte) :
  first_diff k l1 l2 → first_diff (S k) (b :: l1) (b :: l2).
Proof.
  intros (H1 & H2 & H3). split_and!; [|simpl; lia|done].
  intros [|i] Hi; [done|]. apply H1. lia.
Qed.

Lemma pow256 (n : nat) : 256 ^ Z.of_nat n = 2 ^ (8 * Z.of_nat n).
Proof. change 256 with (2 ^ 8). by rewrite <- Z.pow_mul_r by lia. Qed.

Lemma le_diff (l1 l2 : list byte) :
  length l1 = length l2 → l1 ≠ l2 →
  let d := Z.lxor (le_val l1) (le_val l2) in
  0 < d < 2 ^ (8 * zlen l1) ∧ first_diff (Z.to_nat (ctz d / 8)) l1 l2.
Proof.
  intros Hl Hne. cbv zeta. split.
  { pose proof (le_val_range l1) as R1. pose proof (le_val_range l2) as R2.
    rewrite <- Hl in R2. rewrite pow256 in *.
    pose proof (lxor_range (8 * zlen l1) _ _ ltac:(lia) R1 R2) as R.
    enough (Z.lxor (le_val l1) (le_val l2) ≠ 0) by lia.
    rewrite lxor_eq_0. intros H. by apply Hne, le_val_inj. }
  revert l2 Hl Hne. induction l1 as [|a l1 IH]; intros [|b l2] Hl Hne; try done.
  simpl in Hl. pose proof (b2z_range a). pose proof (b2z_range b).
  simpl le_val. change 256 with (2 ^ 8). rewrite lxor_split by lia.
  destruct (decide (a = b)) as [->|Hab].
  - assert (l1 ≠ l2) as Hne' by congruence.
    rewrite Z.lxor_nilpotent, Z.add_0_l. change (2 ^ 8) with (2 ^ Z.of_nat 8).
    set (d := Z.lxor (le_val l1) (le_val l2)).
    assert (0 < d).
    { pose proof (le_val_range l1). pose proof (le_val_range l2).
      assert (0 ≤ d) by (apply Z.lxor_nonneg; lia).
      enough (d ≠ 0) by lia. unfold d. rewrite lxor_eq_0. intros E.
      apply Hne'. apply le_val_inj; [lia|done]. }
    rewrite ctz_pow2_mul by lia. change (Z.of_nat 8) with (1 * 8).
    rewrite Z.div_add_l by lia.
    assert (0 ≤ ctz d) by (destruct d; simpl; try lia; apply pos_ctz_nonneg).
    rewrite Z2Nat.inj_add by (try apply Z.div_pos; lia).
    apply first_diff_cons, IH; [lia|done].
  - assert (0 < Z.lxor (b2z a) (b2z b) < 2 ^ Z.of_nat 8) as Hx.
    { pose proof (lxor_range 8 (b2z a) (b2z b)). change (2 ^ Z.of_nat 8) with (2 ^ 8).
      enough (Z.lxor (b2z a) (b2z b) ≠ 0) by lia. rewrite lxor_eq_0.
      intros E. by apply Hab, b2z_inj. }
    destruct (ctz_low 8 (Z.lxor (b2z a) (b2z b)) (Z.lxor (le_val l1) (le_val l2)) Hx) as [E R].
    { pose proof (le_val_range l1). pose proof (le_val_range l2). apply Z.lxor_nonneg; lia. }
    change (2 ^ Z.of_nat 8) with (2 ^ 8) in E. rewrite E, Z.div_small by lia.
    split_and!; simpl; [lia|lia|congruence].
Qed.

Lemma be_val_cons (b : byte) (l : list byte) :
  be_val (b :: l) = be_val l + 2 ^ (8 * zlen l) * b2z b.
Proof.
  unfold be_val. rewrite reverse_cons, le_val_app, length_reverse, pow256. simpl. lia.
Qed.

Lemma be_val_range (l : list byte) : 0 ≤ be_val l < 2 ^ (8 * zlen l).
Proof.
  unfold be_val. rewrite <- pow256, <- (length_reverse l). apply le_val_range.
Qed.

Lemma be_diff (l1 l2 : list byte) :
  length l1 = length l2 → l1 ≠ l2 →
  let d := Z.lxor (be_val l1) (be_val l2) in
  0 < d < 2 ^ (8 * zlen l1) ∧
  first_diff (Z.to_nat (clz (8 * zlen l1) d / 8)) l1 l2.
Proof.
  intros Hl Hne. cbv zeta. split.
  { pose proof (be_val_range l1) as R1. pose proof (be_val_range l2) as R2.
    rewrite <- Hl in R2.
    pose proof (lxor_range (8 * zlen l1) _ _ ltac:(lia) R1 R2) as R.
    enough (Z.lxor (be_val l1) (be_val l2) ≠ 0) by lia.
    rewrite lxor_eq_0. intros H. by apply Hne, be_val_inj. }
  revert l2 Hl Hne. induction l1 as [|a l1 IH]; intros [|b l2] Hl Hne; try done.
  simpl in Hl. pose proof (b2z_range a). pose proof (b2z_range b).
  pose proof (be_val_range l1) as R1. pose proof (be_val_range l2) as R2.
  assert (length l1 = length l2) as Hl' by lia. rewrite <- Hl' in R2.
  rewrite !be_val_cons, <- Hl', lxor_split by lia.
  pose proof (lxor_range (8 * zlen l1) _ _ ltac:(lia) R1 R2) as R.
  set (d := Z.lxor (be_val l1) (be_val l2)) in *. unfold clz in *.
  replace (8 * zlen (a :: l1)) with (8 * zlen l1 + 8) by (simpl length; lia).
  destruct (decide (a = b)) as [->|Hab].
  - assert (l1 ≠ l2) as Hne' by congruence. rewrite Z.lxor_nilpotent, Z.mul_0_r, Z.add_0_r.
    assert (d ≠ 0). { unfold d. rewrite lxor_eq_0. intros E. by apply Hne', be_val_inj. }
    assert (Z.log2 d < 8 * zlen l1) by (apply Z.log2_lt_pow2; lia).
    replace (8 * zlen l1 + 8 - 1 - Z.log2 d) with (1 * 8 + (8 * zlen l1 - 1 - Z.log2 d)) by lia.
    rewrite Z.div_add_l, Z2Nat.inj_add by (try apply Z.div_pos; lia).
    apply first_diff_cons, IH; [lia|done].
  - pose proof (lxor_range 8 (b2z a) (b2z b) ltac:(lia) ltac:(lia) ltac:(lia)) as Rx.
    assert (Z.lxor (b2z a) (b2z b) ≠ 0) as Hx.
    { rewrite lxor_eq_0. intros E. by apply Hab, b2z_inj. }
    assert (8 * zlen l1 ≤ Z.log2 (d + 2 ^ (8 * zlen l1) * Z.lxor (b2z a) (b2z b))) as L1.
    { apply Z.log2_le_pow2; nia. }
    assert (Z.log2 (d + 2 ^ (8 * zlen l1) * Z.lxor (b2z a) (b2z b)) < 8 * zlen l1 + 8) as L2.
    { apply Z.log2_lt_pow2; [nia|]. rewrite Z.pow_add_r by lia. nia. }
    rewrite Z.div_small by lia.
    split_and!; simpl; [lia|lia|congruence].
Qed.

Lemma NbCommonBytes_nonneg `{Arch} (d : Z) : 0 ≤ LZ4_NbCommonBytes d.
Proof.
  unfold LZ4_NbCommonBytes. destruct LZ4_isLittleEndian, LZ4_64bits; apply Z.shiftr_nonneg.
  - unfold ctz. destruct (u64 d); [done|apply pos_ctz_nonneg|done].
  - unfold ctz. destruct (u32 d); [done|apply pos_ctz_nonneg|done].
  - pose proof (u64_range d). unfold clz.
    destruct (decide (u64 d = 0)) as [->|]; [done|].
    enough (Z.log2 (u64 d) < 64) by lia. apply Z.log2_lt_pow2; lia.
  - pose proof (u32_range d). unfold clz.
    destruct (decide (u32 d = 0)) as [->|]; [done|].
    enough (Z.log2 (u32 d) < 32) by lia. apply Z.log2_lt_pow2; lia.
Qed.

(** On the two words of [STEPSIZE] bytes that [LZ4_count] compares, the bit
    count is the length of their common prefix. *)
Lemma NbCommonBytes_first_diff `{Arch} (l1 l2 : list byte) :
  zlen l1 = STEPSIZE → length l1 = length l2 → l1 ≠ l2 →
  first_diff (Z.to_nat (LZ4_NbCommonBytes (Z.lxor (native l1) (native l2)))) l1 l2.
Proof.
  intros Hs Hl Hne. unfold LZ4_NbCommonBytes, native, STEPSIZE in *.
  destruct (le_diff l1 l2 Hl Hne) as [Rl Dl]. destruct (be_diff l1 l2 Hl Hne) as [Rb Db].
  destruct LZ4_isLittleEndian, LZ4_64bits; rewrite Hs in *;
    unfold u64, u32; rewrite wrap_small by (simpl in *; lia);
    rewrite Z.shiftr_div_pow2 by lia; done.
Qed.

Lemma native_inj `{Arch} (l1 l2 : list byte) :
  length l1 = length l2 → native l1 = native l2 → l1 = l2.
Proof.
  unfold native. destruct LZ4_isLittleEndian; [apply le_val_inj|apply be_val_inj].
Qed.

(** * The software bit count *)

Definition debruijn64_ok (k : nat) : bool :=
  DeBruijnBytePos64 !!! Z.to_nat (Z.shiftr (u64 (2 ^ Z.of_nat k * 0x0218A392CDABBD3F)) 58)
  =? Z.shiftr (Z.of_nat k) 3.

Definition debruijn32_ok (k : nat) : bool :=
  DeBruijnBytePos32 !!! Z.to_nat (Z.shiftr (u32 (2 ^ Z.of_nat k * 0x077CB531)) 27)
  =? Z.shiftr (Z.of_nat k) 3.

Lemma debruijn64_table (k : nat) : (k < 64)%nat → debruijn64_ok k = true.
Proof.
  intros Hk. assert (H : forallb debruijn64_ok (seq 0 64) = true) by (vm_compute; reflexivity).
  rewrite forallb_forall in H. apply H, in_seq. lia.
Qed.

Lemma debruijn32_table (k : nat) : (k < 32)%nat → debruijn32_ok k = true.
Proof.
  intros Hk. assert (H : forallb debruijn32_ok (seq 0 32) = true) by (vm_compute; reflexivity).
  rewrite forallb_forall in H. apply H, in_seq. lia.
Qed.

(** The byte holding the highest set bit. *)
Lemma log2_byte (j z : Z) : 0 ≤ j → 2 ^ (8 * j) ≤ z < 2 ^ (8 * j + 8) → Z.log2 z / 8 = j.
Proof.
  intros Hj [H1 H2]. assert (0 < 2 ^ (8 * j)) by lia. assert (0 < z) by lia.
  apply Z.log2_le_pow2 in H1; [|lia]. apply Z.log2_lt_pow2 in H2; [|lia]. zdiv.
Qed.

Lemma clz_byte (w j z : Z) :
  0 ≤ j → 2 ^ (8 * j) ≤ z < 2 ^ (8 * j + 8) →
  Z.shiftr (clz (8 * w) z) 3 = w - 1 - j.
Proof.
  intros Hj Hz. pose proof (log2_byte j z Hj Hz). unfold clz.
  rewrite Z.shiftr_div_pow2 by lia. change (2 ^ 3) with 8. zdiv.
Qed.

(** The byte position of the highest set bit of a word, by cases. *)
Lemma byte_cases (w z : Z) :
  0 < z < 2 ^ (8 * w) → 0 ≤ w → ∃ j, 0 ≤ j < w ∧ 2 ^ (8 * j) ≤ z < 2 ^ (8 * j + 8).
Proof.
  intros Hz Hw. exists (Z.log2 z / 8).
  pose proof (Z.log2_spec z ltac:(lia)) as [L1 L2]. pose proof (Z.log2_nonneg z).
  assert (Z.log2 z < 8 * w) by (apply Z.log2_lt_pow2; lia).
  split; [zdiv|]. split.
  - eapply Z.le_trans; [|apply L1]. apply Z.pow_le_mono_r; [lia|]. zdiv.
  - eapply Z.lt_le_trans; [apply L2|]. apply Z.pow_le_mono_r; [lia|]. zdiv.
Qed.

Ltac shiftr_consts := rewrite ?Z.shiftr_div_pow2 in * by lia.

Lemma NbCommonBytes_sw_builtin `{Arch} (val : Z) :
  0 < val < 2 ^ ptr_bits → LZ4_NbCommonBytes_sw val = LZ4_NbCommonBytes val.
Proof.
  unfold LZ4_NbCommonBytes_sw, LZ4_NbCommonBytes, ptr_bits, STEPSIZE. intros Hv.
  destruct LZ4_isLittleEndian, LZ4_64bits; simpl in Hv.
  - rewrite (u64_small val), land_opp_ctz by lia.
    pose proof (ctz_range 64 val ltac:(simpl; lia)).
    pose proof (debruijn64_table (Z.to_nat (ctz val)) ltac:(lia)) as H1.
    unfold debruijn64_ok in H1. rewrite Z2Nat.id in H1 by lia. by apply Z.eqb_eq in H1.
  - rewrite (u32_small val), land_opp_ctz by lia.
    pose proof (ctz_range 32 val ltac:(simpl; lia)).
    pose proof (debruijn32_table (Z.to_nat (ctz val)) ltac:(lia)) as H1.
    unfold debruijn32_ok in H1. rewrite Z2Nat.id in H1 by lia. by apply Z.eqb_eq in H1.
  - rewrite u64_small by lia.
    destruct (byte_cases 8 val Hv ltac:(lia)) as (j & Hj & Hr).
    change 64 with (8 * 8). rewrite (clz_byte 8 j val) by lia.
    assert (j = 0 ∨ j = 1 ∨ j = 2 ∨ j = 3 ∨ j = 4 ∨ j = 5 ∨ j = 6 ∨ j = 7) as Hc by lia.
    destruct Hc as [->|[->|[->|[->|[->|[->|[->| ->]]]]]]]; simpl in Hr;
      repeat case_if; zbool; shiftr_consts; zdiv.
  - rewrite u32_small by lia.
    destruct (byte_cases 4 val Hv ltac:(lia)) as (j & Hj & Hr).
    change 32 with (8 * 4). rewrite (clz_byte 4 j val) by lia.
    assert (j = 0 ∨ j = 1 ∨ j = 2 ∨ j = 3) as Hc by lia.
    destruct Hc as [->|[->|[->| ->]]]; simpl in Hr;
      repeat case_if; zbool; shiftr_consts; zdiv.
Qed.

(** * Rules for the reads *)

Section reads.
Context {arch : Arch}.
Implicit Types (m : mem).

Lemma read_native_spec (a : Z) (n : nat) m :
  mapped m a (Z.of_nat n) →
  wp (let! l := load_bytes a n in ret (native l))
     (λ v m', m' = m ∧ ∃ l, length l = n ∧ bytes_at m a l ∧ v = native l) m.
Proof.
  intros Hm. destruct (mapped_bytes_at m a n Hm) as (l & <- & Hl).
  apply wp_bind, wp_load_bytes; [done|]. apply wp_ret. eauto.
Qed.

Lemma read_ARCH_spec (a : Z) m :
  mapped m a STEPSIZE →
  wp (LZ4_read_ARCH a)
     (λ v m', m' = m ∧ ∃ l, zlen l = STEPSIZE ∧ bytes_at m a l ∧ v = native l) m.
Proof.
  unfold LZ4_read_ARCH, STEPSIZE. destruct LZ4_64bits; intros Hm;
    (eapply wp_mono; [by apply read_native_spec|]); simpl;
    intros v m' (-> & l & Hl & ?); (split; [done|]); exists l; rewrite Hl; naive_solver.
Qed.

(** Two words of memory are equal exactly when their bytes are. *)
Lemma bytes_at_eq (m : mem) (a a' : Z) (l l' : list byte) :
  bytes_at m a l → bytes_at m a' l' → length l = length l' →
  (l = l' ↔ ∀ i, 0 ≤ i < zlen l → m !! (a + i) = m !! (a' + i)).
Proof.
  intros H1 H2 Hl. pose proof H1 as H1'. pose proof H2 as H2'.
  rewrite bytes_at_lookup in H1', H2'. split.
  - intros <- i Hi. destruct (lookup_lt_is_Some_2 l (Z.to_nat i)) as [b Hb]; [lia|].
    pose proof (H1' _ _ Hb) as E1. pose proof (H2' _ _ Hb) as E2.
    rewrite Z2Nat.id in E1, E2 by lia. congruence.
  - intros He. eapply bytes_at_inj; [exact H1| |done].
    eapply bytes_at_copy; [|exact H2]. intros i Hi. apply He. lia.
Qed.

(** The lists read at two addresses agree at an index exactly when memory
    does. *)
Lemma bytes_at_index (m : mem) (a : Z) (l : list byte) (i : nat) :
  bytes_at m a l → (i < length l)%nat → l !! i = m !! (a + Z.of_nat i).
Proof.
  rewrite bytes_at_lookup. intros Hl Hi.
  destruct (lookup_lt_is_Some_2 l i Hi) as [b Hb]. rewrite Hb. symmetry. by apply Hl.
Qed.

End reads.

(** * Specifications of the primitives *)

Section primitives.
Context {arch : Arch}.
Implicit Types (m : mem).

Lemma readLE16_spec (a : Z) (b0 b1 : byte) m :
  bytes_at m a [b0; b1] →
  wp (LZ4_readLE16 a) (λ v m', m' = m ∧ v = le_val [b0; b1]) m.
Proof.
  intros Hb. pose proof (b2z_range b0). pose proof (b2z_range b1).
  unfold LZ4_readLE16, LZ4_read16, native. destruct LZ4_isLittleEndian.
  - apply wp_bind. apply (wp_load_bytes a [b0; b1]); [done|]. by apply wp_ret.
  - destruct Hb as (Hb0 & Hb1 & _).
    apply wp_bind. eapply wp_load8; [done|]. apply wp_bind. eapply wp_load8; [done|].
    apply wp_ret. split; [done|]. simpl le_val.
    rewrite Z.shiftl_mul_pow2 by lia. change (2 ^ 8) with 256.
    rewrite (u16_small (b2z b0)) by lia. rewrite u16_small by lia. lia.
Qed.

Lemma writeLE16_spec (a v : Z) m :
  mapped m a 2 →
  wp (LZ4_writeLE16 a v)
     (λ _ m', frame a (a + 2) m m' ∧ bytes_at m' a (le_bytes 2 v)) m.
Proof.
  intros Hm. unfold LZ4_writeLE16, native_bytes. destruct LZ4_isLittleEndian.
  - eapply wp_mono; [apply store_bytes_spec|]; by rewrite length_le_bytes.
  - rewrite Z.shiftr_div_pow2 by lia. change (2 ^ 8) with 256.
    apply wp_bind, wp_store8; [apply Hm; lia|].
    assert (F : frame a (a + 2) m (<[a:=z2b v]> m)) by (apply frame_insert; [apply Hm|]; lia).
    apply wp_store8; [eapply frame_mapped; [done..|lia]|].
    split; [etransitivity; [done|]; apply frame_insert; [eapply frame_mapped; [done..|lia]|lia]|].
    simpl. rewrite lookup_insert_eq, lookup_insert_ne, lookup_insert_eq by lia. done.
Qed.

Lemma read32_spec (a : Z) m :
  mapped m a 4 →
  wp (LZ4_read32 a)
     (λ v m', m' = m ∧ ∃ l, length l = 4%nat ∧ bytes_at m a l ∧ v = native l) m.
Proof. apply (read_native_spec a 4). Qed.

(** ** [LZ4_wildCopy] *)

(** The address just past the last byte the copy writes. *)
Definition wild_end (d e : Z) : Z := d + 8 * Z.max 1 ((e - d + 7) / 8).

Lemma wild_end_bounds (d e : Z) :
  d + 8 ≤ wild_end d e ∧ e ≤ wild_end d e ∧ wild_end d e ≤ Z.max (d + 8) (e + 7).
Proof. unfold wild_end. zdiv. Qed.

Lemma wild_end_step (d e : Z) : d + 8 < e → wild_end (d + 8) e = wild_end d e.
Proof. unfold wild_end. intros. zdiv. Qed.

Lemma wild_end_last (d e : Z) : e ≤ d + 8 → wild_end d e = d + 8.
Proof. unfold wild_end. intros. zdiv. Qed.

Lemma wildCopy_loop_spec (fuel : nat) (d s e : Z) m :
  (Z.to_nat (e - d) < fuel)%nat →
  mapped m d (wild_end d e - d) → mapped m s (wild_end d e - d) →
  wp (wildCopy_loop fuel d s e)
     (λ _ m', frame d (wild_end d e) m m' ∧
              (8 ≤ d - s ∨ wild_end d e ≤ s →
               ∀ i, d ≤ i < wild_end d e → m' !! i = m' !! (i - (d - s)))) m.
Proof.
  revert d s m. induction fuel as [|fuel IH]; intros d s m Hf Hd Hs; [lia|].
  pose proof (wild_end_bounds d e) as (B1 & B2 & B3).
  simpl. unfold LZ4_copy8.
  wp_apply memcpy_spec; [lia|solve_mapped..|].
  intros _ m1 [F1 C1]. case_if; zbool.
  - rewrite <- (wild_end_step d e) in * by lia.
    pose proof (wild_end_bounds (d + 8) e) as (B4 & B5 & B6).
    eapply wp_mono; [apply IH; [lia|solve_mapped..]|].
    intros _ m2 [F2 C2]. split.
    { solve_frame. }
    intros Hsep i Hi. destruct (decide (i < d + 8)).
    + rewrite (frame_eq _ _ _ _ F2) by lia.
      rewrite (frame_eq _ _ _ _ F2) by lia.
      rewrite (frame_eq _ _ _ _ F1 (i - (d - s))) by lia.
      specialize (C1 (i - d)). replace (d + (i - d)) with i in C1 by lia.
      rewrite C1 by lia. f_equal. lia.
    + rewrite C2 by lia. f_equal. lia.
  - rewrite wild_end_last in * by lia. apply wp_ret. split; [done|].
    intros Hsep i Hi.
    specialize (C1 (i - d)). replace (d + (i - d)) with i in C1 by lia.
    rewrite C1, (frame_eq _ _ _ _ F1) by lia. f_equal. lia.
Qed.

(** [LZ4_wildCopy] writes up to [wild_end], at most 7 bytes past [dstEnd] or 8
    past the start; in the memory it leaves every byte written equals the one
    at the distance of the copy, as long as that distance is at least 8 or
    the destination ends before the source. *)
Lemma wildCopy_spec (d s e : Z) m :
  mapped m d (wild_end d e - d) → mapped m s (wild_end d e - d) →
  wp (LZ4_wildCopy d s e)
     (λ _ m', frame d (wild_end d e) m m' ∧
              (8 ≤ d - s ∨ wild_end d e ≤ s →
               ∀ i, d ≤ i < wild_end d e → m' !! i = m' !! (i - (d - s)))) m.
Proof. intros. apply wildCopy_loop_spec; [lia|done..]. Qed.

End primitives.

(** * [LZ4_count] *)

(** The [n] bytes at [p] and at [q] are the same. *)
Definition common (m : mem) (p q n : Z) : Prop :=
  ∀ i, 0 ≤ i < n → m !! (p + i) = m !! (q + i).

Lemma common_app (m : mem) (p q n n' : Z) :
  common m p q n → common m (p + n) (q + n) n' → common m p q (n + n').
Proof.
  intros H1 H2 i Hi. destruct (decide (i < n)); [apply H1; lia|].
  specialize (H2 (i - n) ltac:(lia)).
  by replace (p + n + (i - n)) with (p + i) in H2 by lia;
    replace (q + n + (i - n)) with (q + i) in H2 by lia.
Qed.

(** Where the comparison of the strings at [p0] and [q0] has got to: the bytes
    passed are equal, and fewer than [w] bytes are left before [limit] or
    one of the next [w] differs. *)
Definition counted (m : mem) (p0 q0 limit w : Z) (pq : Z * Z) : Prop :=
  ∃ k, pq = (p0 + k, q0 + k) ∧ 0 ≤ k ∧ common m p0 q0 k ∧
       (p0 + k ≤ limit ∨ k = 0) ∧
       (limit - (p0 + k) < w ∨
        ∃ j, 0 ≤ j < w ∧ j < limit - (p0 + k) ∧ m !! (p0 + k + j) ≠ m !! (q0 + k + j)).

Section count.
Context {arch : Arch}.
Implicit Types (m : mem).

(** Comparing one word of [n] bytes either advances past it or finds a
    difference inside. *)
Lemma counted_word m (p0 q0 limit w : Z) (n : nat) (k : Z) (a b : list byte) :
  counted m p0 q0 limit w (p0 + k, q0 + k) → w ≤ 2 * Z.of_nat n →
  length a = n → length b = n →
  bytes_at m (q0 + k) a → bytes_at m (p0 + k) b →
  p0 + k < limit - (Z.of_nat n - 1) →
  counted m p0 q0 limit (Z.of_nat n)
    (if native a =? native b then (p0 + k + Z.of_nat n, q0 + k + Z.of_nat n)
     else (p0 + k, q0 + k)).
Proof.
  intros (k' & Ek & Hk & Hc & Hlim & Hw) Hwn Ha Hb Hma Hmb Hp.
  assert (k' = k) as -> by (injection Ek; lia). clear Ek.
  pose proof (bytes_at_eq m _ _ a b Hma Hmb ltac:(lia)) as Heq. rewrite Ha in Heq.
  destruct (Z.eqb_spec (native a) (native b)) as [E|E].
  - apply native_inj in E; [|lia]. pose proof (proj1 Heq E) as Eq. clear E. rename Eq into E.
    exists (k + Z.of_nat n). split_and!.
    + f_equal; lia.
    + lia.
    + apply common_app; [done|]. intros i Hi. symmetry. by apply E.
    + lia.
    + destruct Hw as [Hw|(j & Hj & Hj' & Hd)]; [lia|]. right.
      destruct (decide (j < Z.of_nat n)).
      * exfalso. apply Hd. symmetry. apply E. lia.
      * exists (j - Z.of_nat n). split; [lia|]. split; [lia|].
        by replace (p0 + (k + Z.of_nat n) + (j - Z.of_nat n)) with (p0 + k + j) by lia;
          replace (q0 + (k + Z.of_nat n) + (j - Z.of_nat n)) with (q0 + k + j) by lia.
  - exists k. split_and!; try done. right.
    destruct (decide (Forall (λ i, a !! i = b !! i) (seq 0 n))) as [Hall|Hex].
    + exfalso. apply E. f_equal. apply list_eq_same_length with n; [done..|].
      intros i x y Hi Hx Hy. rewrite Forall_forall in Hall.
      specialize (Hall i). rewrite Hx, Hy in Hall.
      enough (Some x = Some y) by congruence. apply Hall, in_seq. lia.
    + apply not_Forall_Exists in Hex; [|apply _].
      apply Exists_exists in Hex as (i & Hi & Hd). apply in_seq in Hi.
      cbv [compose] in Hd.
      rewrite (bytes_at_index m _ a i), (bytes_at_index m _ b i) in Hd by (done || lia).
      exists (Z.of_nat i). split; [lia|]. split; [lia|]. by intros ?.
Qed.

Lemma counted_start m (p0 q0 limit w : Z) :
  limit - p0 < w → counted m p0 q0 limit w (p0, q0).
Proof.
  intros Hw. exists 0. rewrite !Z.add_0_r. split_and!; try lia; [done|].
  intros i Hi. lia.
Qed.

Lemma count_loop_spec (fuel : nat) m (p0 q0 limit k : Z) :
  (Z.to_nat (limit - (p0 + k)) < fuel)%nat → 0 ≤ k → common m p0 q0 k →
  (p0 + k ≤ limit ∨ k = 0) →
  mapped m p0 (limit - p0) → mapped m q0 (limit - p0) →
  wp (count_loop fuel (p0 + k) (q0 + k) limit)
     (λ r m', m' = m ∧
        match r with
        | inl p => counted m p0 q0 limit 1 (p, q0 + (p - p0))
        | inr pq => counted m p0 q0 limit STEPSIZE pq
        end) m.
Proof.
  assert (Hst : 4 ≤ STEPSIZE) by (unfold STEPSIZE; destruct LZ4_64bits; lia).
  revert k. induction fuel as [|fuel IH]; intros k Hf Hk Hc Hlim Hp Hq; [lia|].
  simpl. case_if; zbool; [|apply wp_ret].
  - wp_apply read_ARCH_spec; [solve_mapped|]. intros va m1 (-> & a & Ha & Hma & ->).
    wp_apply read_ARCH_spec; [solve_mapped|]. intros vb m1 (-> & b & Hb & Hmb & ->).
    rewrite lxor_eq_0_eqb. case_if; zbool.
    + apply native_inj in E0; [|lia].
      pose proof (proj1 (bytes_at_eq m _ _ a b Hma Hmb ltac:(lia)) E0) as Heq.
      rewrite <- !Z.add_assoc. apply IH; try lia; try done.
      apply common_app; [done|]. intros i Hi. symmetry. apply Heq. lia.
    + assert (a ≠ b) as Hne by (intros ->; done).
      destruct (NbCommonBytes_first_diff a b Ha ltac:(lia) Hne) as (D1 & D2 & D3).
      set (n := LZ4_NbCommonBytes _) in *.
      assert (0 ≤ n) as Hn by apply NbCommonBytes_nonneg.
      apply wp_ret. split; [done|]. exists (k + n).
      replace (q0 + (p0 + k + n - p0)) with (q0 + (k + n)) by lia.
      split_and!; [f_equal; lia|lia| | lia|].
      * apply common_app; [done|]. intros i Hi.
        pose proof (D1 (Z.to_nat i) ltac:(lia)) as D.
        rewrite (bytes_at_index m _ a), (bytes_at_index m _ b) in D by (done || lia).
        rewrite Z2Nat.id in D by lia. congruence.
      * right. exists 0. split; [lia|]. split; [lia|].
        rewrite (bytes_at_index m _ a), (bytes_at_index m _ b) in D3 by (done || lia).
        rewrite Z2Nat.id in D3 by lia. rewrite !Z.add_0_r, !Z.add_assoc. by intros ?.
  - split; [done|]. exists k. split_and!; try done. left. lia.
Qed.

(** Nothing left to compare counts as compared at any word size. *)
Lemma counted_near m (p0 q0 limit w w' k : Z) :
  counted m p0 q0 limit w (p0 + k, q0 + k) → limit - (p0 + k) < w' →
  counted m p0 q0 limit w' (p0 + k, q0 + k).
Proof.
  intros (k' & Ek & Hk & Hc & Hlim & Hw) Hw'.
  assert (k' = k) as -> by (injection Ek; lia).
  exists k. split_and!; try done. by left.
Qed.

Lemma count_tail4_spec m (p0 q0 limit : Z) (pq : Z * Z) :
  mapped m p0 (limit - p0) → mapped m q0 (limit - p0) →
  counted m p0 q0 limit STEPSIZE pq →
  wp (count_tail4 pq.1 pq.2 limit)
     (λ pq' m', m' = m ∧ counted m p0 q0 limit 4 pq') m.
Proof.
  intros Hp Hq Hc. pose proof Hc as (k & -> & Hk & _). simpl.
  unfold count_tail4, STEPSIZE in *. destruct LZ4_64bits; [|by apply wp_ret].
  case_if; zbool; [|apply wp_ret; split; [done|]; eapply counted_near; [done|lia]].
  wp_apply read32_spec; [solve_mapped|]. intros va m1 (-> & a & Ha & Hma & ->).
  wp_apply read32_spec; [solve_mapped|]. intros vb m1 (-> & b & Hb & Hmb & ->).
  apply wp_ret. split; [done|].
  apply (counted_word m p0 q0 limit 8 4 k a b); try done; simpl; lia.
Qed.

Lemma count_tail2_spec m (p0 q0 limit : Z) (pq : Z * Z) :
  mapped m p0 (limit - p0) → mapped m q0 (limit - p0) →
  counted m p0 q0 limit 4 pq →
  wp (count_tail2 pq.1 pq.2 limit)
     (λ pq' m', m' = m ∧ counted m p0 q0 limit 2 pq') m.
Proof.
  intros Hp Hq Hc. pose proof Hc as (k & -> & Hk & _). simpl. unfold count_tail2, LZ4_read16.
  case_if; zbool; [|apply wp_ret; split; [done|]; eapply counted_near; [done|lia]].
  wp_apply (read_native_spec _ 2); [simpl; solve_mapped|]. intros va m1 (-> & a & Ha & Hma & ->).
  wp_apply (read_native_spec _ 2); [simpl; solve_mapped|]. intros vb m1 (-> & b & Hb & Hmb & ->).
  apply wp_ret. split; [done|].
  apply (counted_word m p0 q0 limit 4 2 k a b); try done; simpl; lia.
Qed.

Lemma count_tail1_spec m (p0 q0 limit : Z) (pq : Z * Z) :
  mapped m p0 (limit - p0) → mapped m q0 (limit - p0) →
  counted m p0 q0 limit 2 pq →
  wp (count_tail1 pq.1 pq.2 limit)
     (λ p m', m' = m ∧ counted m p0 q0 limit 1 (p, q0 + (p - p0))) m.
Proof.
  intros Hp Hq Hc. pose proof Hc as (k & -> & Hk & _). simpl. unfold count_tail1.
  replace (q0 + (p0 + k - p0)) with (q0 + k) by lia.
  case_if; zbool.
  - destruct (mapped_bytes_at m (q0 + k) 1) as ([|a []] & Ha & Hma); [solve_mapped|done| |done].
    destruct (mapped_bytes_at m (p0 + k) 1) as ([|b []] & Hb & Hmb); [solve_mapped|done| |done].
    apply wp_bind. eapply wp_load8; [apply Hma|]. apply wp_bind. eapply wp_load8; [apply Hmb|].
    apply wp_ret. split; [done|].
    pose proof (counted_word m p0 q0 limit 2 1 k [a] [b] Hc ltac:(lia) eq_refl eq_refl
                  Hma Hmb ltac:(simpl; lia)) as Hw.
    unfold native, be_val in Hw. rewrite !reverse_singleton in Hw. simpl in Hw.
    rewrite !Z.add_0_r in Hw. destruct LZ4_isLittleEndian; destruct (b2z a =? b2z b);
      (replace (q0 + (p0 + k + 1 - p0)) with (q0 + k + 1) by lia || idtac);
      by replace (q0 + (p0 + k - p0)) with (q0 + k) by lia.
  - apply wp_ret. split; [done|].
    replace (q0 + (p0 + k - p0)) with (q0 + k) by lia.
    eapply counted_near; [done|lia].
Qed.

(** [LZ4_count] returns the length of the longest common prefix of the bytes
    at [pIn], up to [pInLimit], and the bytes at [pMatch]. *)
Lemma count_spec m (pIn pMatch pInLimit : Z) :
  pInLimit - pIn < 2 ^ 32 →
  mapped m pIn (pInLimit - pIn) → mapped m pMatch (pInLimit - pIn) →
  wp (LZ4_count pIn pMatch pInLimit)
     (λ n m', m' = m ∧ 0 ≤ n ≤ Z.max 0 (pInLimit - pIn) ∧ common m pIn pMatch n ∧
        (n = Z.max 0 (pInLimit - pIn) ∨ m !! (pIn + n) ≠ m !! (pMatch + n))) m.
Proof.
  intros Hsz Hp Hq. unfold LZ4_count.
  assert (Hfin : ∀ p, counted m pIn pMatch pInLimit 1 (p, pMatch + (p - pIn)) →
    0 ≤ u32 (p - pIn) ≤ Z.max 0 (pInLimit - pIn) ∧ common m pIn pMatch (u32 (p - pIn)) ∧
    (u32 (p - pIn) = Z.max 0 (pInLimit - pIn) ∨
     m !! (pIn + u32 (p - pIn)) ≠ m !! (pMatch + u32 (p - pIn)))).
  { intros p (k & Ek & Hk & Hc & Hlim & Hw). assert (p = pIn + k) as -> by (injection Ek; lia).
    replace (pIn + k - pIn) with k by lia. rewrite u32_small by lia.
    split; [lia|]. split; [done|]. destruct Hw as [Hw|(j & Hj & Hj' & Hd)]; [left; lia|].
    right. assert (j = 0) as -> by lia. by rewrite !Z.add_0_r in Hd. }
  pose proof (count_loop_spec (S (Z.to_nat (pInLimit - pIn))) m pIn pMatch pInLimit 0
    ltac:(lia) ltac:(lia) ltac:(intros i Hi; lia) ltac:(lia) Hp Hq) as Hl.
  rewrite !Z.add_0_r in Hl. eapply wp_seq; [exact Hl|].
  intros [p|[p q]] m1 [-> Hcnt].
  - apply wp_ret. split; [done|]. by apply Hfin.
  - wp_apply (count_tail4_spec m pIn pMatch pInLimit (p, q)); [done..|].
    intros [p4 q4] m1 [-> H4].
    wp_apply (count_tail2_spec m pIn pMatch pInLimit (p4, q4)); [done..|].
    intros [p2 q2] m1 [-> H2].
    wp_apply (count_tail1_spec m pIn pMatch pInLimit (p2, q2)); [done..|].
    intros p1 m1 [-> H1]. apply wp_ret. split; [done|]. by apply Hfin.
Qed.

End count.
