(* ===== verification/Lz4Format.v ===== *)
(** The LZ4 block format, independently of how blocks are produced and
    consumed: sequences, their serialisation, and the text a block stands
    for.  This is the abstract specification the block compressors and the
    block decompressor are proved against.

    A block is a list of sequences followed by a last run of literals.  A
    sequence is a run of literals and a match, the copy of [sq_mlen] bytes
    from [sq_off] bytes back.  A match may reach back into a dictionary, the
    history of the block. *)

From Stdlib Require Import ZArith Lia Strings.Byte.
From stdpp Require Import base gmap list fin_maps numbers.
From S2P Require Import Prelude Mem Lz4Common.

Record sequence : Type := Sequence {
  sq_lits : list byte;
  sq_off : Z;
  sq_mlen : Z
}.

(** * Serialisation *)

(** The bytes that carry the part of a length over the 15 of its nibble. *)
Definition len_ext (n : Z) : list byte :=
  replicate (Z.to_nat (n / 255)) xff ++ [z2b (n mod 255)].

Definition nibble_ext (n : Z) : list byte :=
  if n <? 15 then [] else len_ext (n - 15).

Definition token (litLength matchLength : Z) : byte :=
  z2b (16 * Z.min litLength 15 + Z.min matchLength 15).

Definition ser_seq (s : sequence) : list byte :=
  token (zlen (sq_lits s)) (sq_mlen s - MINMATCH)
    :: nibble_ext (zlen (sq_lits s)) ++ sq_lits s
    ++ le_bytes 2 (sq_off s) ++ nibble_ext (sq_mlen s - MINMATCH).

Definition ser_last (l : list byte) : list byte :=
  token (zlen l) 0 :: nibble_ext (zlen l) ++ l.

Fixpoint block (seqs : list sequence) (l : list byte) : list byte :=
  match seqs with
  | [] => ser_last l
  | s :: seqs => ser_seq s ++ block seqs l
  end.

(** * Meaning *)

(** Copies [n] bytes from [off] back, byte by byte, so that a copy may run
    over the bytes it produces. *)
Fixpoint copy_back (n : nat) (off : Z) (out : list byte) : option (list byte) :=
  match n with
  | O => Some out
  | S n =>
      if (1 <=? off) && (off <=? zlen out) then
        match out !! Z.to_nat (zlen out - off) with
        | Some b => copy_back n off (out ++ [b])
        | None => None
        end
      else None
  end.

(** Extends the text produced so far by a sequence.  An offset that has no 16
    bit representation or a match that is too short has no meaning. *)
Definition apply_seq (out : list byte) (s : sequence) : option (list byte) :=
  if (sq_off s <=? MAX_DISTANCE) && (MINMATCH <=? sq_mlen s) then
    copy_back (Z.to_nat (sq_mlen s)) (sq_off s) (out ++ sq_lits s)
  else None.

Fixpoint apply_seqs (out : list byte) (seqs : list sequence) : option (list byte) :=
  match seqs with
  | [] => Some out
  | s :: seqs =>
      match apply_seq out s with
      | Some out => apply_seqs out seqs
      | None => None
      end
  end.

(** The text of a block read after the history [hist]. *)
Definition block_text (hist : list byte) (seqs : list sequence) (l : list byte) :
    option (list byte) :=
  match apply_seqs hist seqs with
  | Some out => Some (drop (length hist) (out ++ l))
  | None => None
  end.

(** The end of block conditions: the last [LASTLITERALS] bytes are literals and
    the last match starts at least [MFLIMIT] bytes before the end. *)
Fixpoint end_ok (seqs : list sequence) (l : list byte) : Prop :=
  match seqs with
  | [] => True
  | [s] => LASTLITERALS ≤ zlen l ∧ MFLIMIT ≤ sq_mlen s + zlen l
  | _ :: seqs => end_ok seqs l
  end.

(** * Sizes of the encodings *)

Lemma length_len_ext (n : Z) : 0 ≤ n → zlen (len_ext n) = n / 255 + 1.
Proof.
  intros Hn. unfold len_ext. rewrite length_app, length_replicate. simpl.
  pose proof (Z.div_pos n 255 Hn ltac:(lia)). lia.
Qed.

Lemma length_nibble_ext (n : Z) :
  0 ≤ n → zlen (nibble_ext n) = if n <? 15 then 0 else (n - 15) / 255 + 1.
Proof.
  intros Hn. unfold nibble_ext. case_if; zbool; [done|]. apply length_len_ext. lia.
Qed.

(** The encoding of a length grows by one byte in 255. *)
Lemma nibble_ext_bound (n : Z) : 0 ≤ n → 255 * zlen (nibble_ext n) ≤ n + 240.
Proof. intros Hn. rewrite length_nibble_ext by done. case_if; zbool; zdiv. Qed.

Lemma length_ser_seq (s : sequence) :
  zlen (ser_seq s) =
    3 + zlen (nibble_ext (zlen (sq_lits s))) + zlen (sq_lits s)
      + zlen (nibble_ext (sq_mlen s - MINMATCH)).
Proof. unfold ser_seq. cbn [length]. rewrite !length_app, length_le_bytes. lia. Qed.

Lemma length_ser_last (l : list byte) :
  zlen (ser_last l) = 1 + zlen (nibble_ext (zlen l)) + zlen l.
Proof. unfold ser_last. cbn [length]. rewrite length_app. lia. Qed.

Lemma block_app (s1 s2 : list sequence) (l : list byte) :
  block (s1 ++ s2) l = concat (ser_seq <$> s1) ++ block s2 l.
Proof. induction s1 as [|s s1 IH]; simpl; [done|]. by rewrite IH, app_assoc. Qed.

Lemma length_block_pos (seqs : list sequence) (l : list byte) : 1 ≤ zlen (block seqs l).
Proof.
  destruct seqs as [|s seqs]; simpl; [lia|]. rewrite length_app. simpl. lia.
Qed.

(** * Properties of the meaning *)

Lemma copy_back_length (n : nat) (off : Z) (out out' : list byte) :
  copy_back n off out = Some out' → length out' = (length out + n)%nat.
Proof.
  revert out. induction n as [|n IH]; intros out H; simpl in H.
  - injection H as <-. lia.
  - case_match; [|done]. case_match; [|done]. apply IH in H. rewrite length_app in H.
    simpl in H. lia.
Qed.

Lemma copy_back_prefix (n : nat) (off : Z) (out out' : list byte) :
  copy_back n off out = Some out' → out `prefix_of` out'.
Proof.
  revert out. induction n as [|n IH]; intros out H; simpl in H.
  - by injection H as <-.
  - case_match; [|done]. case_match; [|done]. apply IH in H.
    by eapply prefix_app_l.
Qed.

Lemma copy_back_offset (n : nat) (off : Z) (out out' : list byte) :
  (0 < n)%nat → copy_back n off out = Some out' → 1 ≤ off ≤ zlen out.
Proof. destruct n; [lia|]. intros _. simpl. case_match; [|done]. zbool. lia. Qed.

(** Every byte a copy produces is the one [off] before it. *)
Lemma copy_back_lookup (n : nat) (off : Z) (out out' : list byte) (i : Z) :
  copy_back n off out = Some out' → zlen out ≤ i < zlen out' →
  out' !! Z.to_nat i = out' !! Z.to_nat (i - off).
Proof.
  revert out. induction n as [|n IH]; intros out H Hi.
  - injection H as <-. lia.
  - pose proof (copy_back_offset (S n) off out out' ltac:(lia) H) as Ho. simpl in H.
    case_match; [|done]. case_match eqn:Hb; [|done].
    pose proof (copy_back_prefix _ _ _ _ H) as [k ->].
    destruct (decide (i = zlen out)) as [->|Hne].
    + rewrite Nat2Z.id. rewrite <- app_assoc.
      rewrite lookup_app_r by lia. rewrite Nat.sub_diag. simpl.
      rewrite lookup_app_l by lia. done.
    + apply (IH _ H). rewrite !length_app in *. simpl in *. lia.
Qed.

Lemma copy_back_total (n : nat) (off : Z) (out : list byte) :
  1 ≤ off ≤ zlen out → is_Some (copy_back n off out).
Proof.
  revert out. induction n as [|n IH]; intros out Ho; simpl; [by eexists|].
  assert ((1 <=? off) && (off <=? zlen out) = true) as ->.
  { apply andb_true_iff. split; apply Z.leb_le; lia. }
  destruct (lookup_lt_is_Some_2 out (Z.to_nat (zlen out - off))) as [b ->]; [lia|].
  apply IH. rewrite length_app. simpl. lia.
Qed.

(** A text that repeats itself from [off] back is what the copy produces. *)
Lemma copy_back_take (n : nat) (off : Z) (x : list byte) (pos : nat) :
  1 ≤ off ≤ Z.of_nat pos → (pos + n ≤ length x)%nat →
  (∀ i, Z.of_nat pos ≤ i < Z.of_nat (pos + n) → x !! Z.to_nat i = x !! Z.to_nat (i - off)) →
  copy_back n off (take pos x) = Some (take (pos + n) x).
Proof.
  revert pos. induction n as [|n IH]; intros pos Ho Hl Hx; simpl.
  - by rewrite Nat.add_0_r.
  - rewrite length_take_le by lia.
    assert ((1 <=? off) && (off <=? Z.of_nat pos) = true) as ->.
    { apply andb_true_iff. split; apply Z.leb_le; lia. }
    rewrite lookup_take_lt by lia. rewrite <- Hx, Nat2Z.id by lia.
    destruct (lookup_lt_is_Some_2 x pos) as [b Hb]; [lia|]. rewrite Hb.
    rewrite <- (take_S_r x pos b Hb). rewrite IH; [f_equal; f_equal; lia|lia|lia|].
    intros i Hi. apply Hx. lia.
Qed.

Lemma apply_seq_length (out out' : list byte) (s : sequence) :
  apply_seq out s = Some out' →
  zlen out' = zlen out + zlen (sq_lits s) + sq_mlen s ∧ MINMATCH ≤ sq_mlen s ∧
  1 ≤ sq_off s ≤ Z.min MAX_DISTANCE (zlen out + zlen (sq_lits s)).
Proof.
  unfold apply_seq. case_match eqn:E; [|done]. zbool. intros Hc.
  pose proof (copy_back_length _ _ _ _ Hc) as Hl. rewrite length_app in Hl.
  apply copy_back_offset in Hc; [|unfold MINMATCH in *; lia].
  rewrite length_app in Hc. unfold MINMATCH in *. lia.
Qed.

Lemma apply_seqs_app (out : list byte) (s1 s2 : list sequence) :
  apply_seqs out (s1 ++ s2) =
    match apply_seqs out s1 with Some out => apply_seqs out s2 | None => None end.
Proof.
  revert out. induction s1 as [|s s1 IH]; intros out; simpl; [done|].
  by destruct (apply_seq out s).
Qed.

Lemma apply_seqs_length_le (out out' : list byte) (seqs : list sequence) :
  apply_seqs out seqs = Some out' → zlen out ≤ zlen out'.
Proof.
  revert out. induction seqs as [|s seqs IH]; intros out H; simpl in H.
  - injection H as <-. lia.
  - destruct (apply_seq out s) as [o|] eqn:E; [|done].
    apply apply_seq_length in E. apply IH in H. unfold MINMATCH in *. lia.
Qed.

(** What the end conditions leave after the first sequence of a block. *)
Lemma end_ok_first (s : sequence) (seqs : list sequence) (l out out' : list byte) :
  end_ok (s :: seqs) l → apply_seqs out seqs = Some out' →
  MINMATCH ≤ sq_mlen s →
  LASTLITERALS ≤ zlen out' - zlen out + zlen l ∧
  MFLIMIT ≤ sq_mlen s + (zlen out' - zlen out) + zlen l.
Proof.
  revert s out. induction seqs as [|s' seqs IH]; intros s out He H Hm; simpl in H.
  - injection H as <-. simpl in He. lia.
  - destruct (apply_seq out s') as [o|] eqn:E; [|done].
    apply apply_seq_length in E as (El & Em & _).
    destruct (IH s' o He H Em). unfold MINMATCH in *. lia.
Qed.

Lemma end_ok_tail (s : sequence) (seqs : list sequence) (l : list byte) :
  end_ok (s :: seqs) l → end_ok seqs l.
Proof. by destruct seqs. Qed.

(** * Unfolding the encodings *)

Lemma len_ext_small (n : Z) : 0 ≤ n < 255 → len_ext n = [z2b n].
Proof. intros Hn. unfold len_ext. rewrite Z.div_small, Z.mod_small by lia. done. Qed.

Lemma len_ext_step (n : Z) : 255 ≤ n → len_ext n = xff :: len_ext (n - 255).
Proof.
  intros Hn. unfold len_ext.
  replace n with (n - 255 + 1 * 255) at 1 2 by lia. rewrite Z.div_add, Z_mod_plus_full by lia.
  rewrite Z2Nat.inj_add by (try apply Z.div_pos; lia). rewrite Nat.add_comm. done.
Qed.

Lemma token_range (L ML : Z) :
  0 ≤ L → 0 ≤ ML → b2z (token L ML) = 16 * Z.min L 15 + Z.min ML 15.
Proof. intros. unfold token. rewrite b2z_z2b_small; lia. Qed.

Lemma token_lit (L ML : Z) :
  0 ≤ L → 0 ≤ ML → Z.shiftr (b2z (token L ML)) ML_BITS = Z.min L 15.
Proof.
  intros. rewrite token_range by done. unfold ML_BITS.
  rewrite Z.shiftr_div_pow2 by lia. change (2 ^ 4) with 16. zdiv.
Qed.

Lemma token_match (L ML : Z) :
  0 ≤ L → 0 ≤ ML → Z.land (b2z (token L ML)) ML_MASK = Z.min ML 15.
Proof.
  intros. rewrite token_range by done. change ML_MASK with (Z.ones 4).
  rewrite Z.land_ones by lia. change (2 ^ 4) with 16. zdiv.
Qed.

(** A block that follows a match has room for a token and the last literals. *)
Lemma length_block_after (s : sequence) (seqs : list sequence) (l : list byte) :
  end_ok (s :: seqs) l → 6 ≤ zlen (block seqs l).
Proof.
  revert s. induction seqs as [|s' seqs IH]; intros s He.
  - simpl in He. unfold LASTLITERALS in He. cbn [block]. rewrite length_ser_last. lia.
  - cbn [block]. rewrite length_app. specialize (IH s' He). lia.
Qed.

Lemma apply_seqs_prefix (out out' : list byte) (seqs : list sequence) :
  apply_seqs out seqs = Some out' → out `prefix_of` out'.
Proof.
  revert out. induction seqs as [|s seqs IH]; intros out H; simpl in H.
  - by injection H as <-.
  - unfold apply_seq in H. case_match eqn:E; [|done]. case_match; [|done].
    etransitivity; [|by apply IH]. eapply prefix_app_l. by eapply copy_back_prefix.
Qed.

(** Every sequence produces at least [MINMATCH] bytes. *)
Lemma apply_seqs_count (out out' : list byte) (seqs : list sequence) :
  apply_seqs out seqs = Some out' → zlen out + MINMATCH * zlen seqs ≤ zlen out'.
Proof.
  revert out. induction seqs as [|s seqs IH]; intros out H; simpl in H.
  - injection H as <-. simpl. lia.
  - destruct (apply_seq out s) as [o|] eqn:E; [|done].
    apply apply_seq_length in E. apply IH in H. unfold MINMATCH in *. simpl length. lia.
Qed.

(** * The reach of a match *)

(** A copy that stays within the end [h] of the text does not depend on what
    comes before it. *)
Lemma copy_back_suffix (n : nat) (off : Z) (a h out : list byte) :
  off ≤ zlen h → copy_back n off (a ++ h) = Some out →
  ∃ h', out = a ++ h' ∧ copy_back n off h = Some h'.
Proof.
  revert h. induction n as [|n IH]; intros h Ho H; simpl in H.
  - injection H as <-. by exists h.
  - case_match eqn:E; [|done]. zbool. cbn [copy_back].
    assert ((1 <=? off) && (off <=? zlen h) = true) as ->.
    { apply andb_true_iff. split; apply Z.leb_le; lia. }
    rewrite length_app, lookup_app_r in H by lia.
    replace (Z.to_nat (Z.of_nat (length a + length h) - off) - length a)%nat
      with (Z.to_nat (zlen h - off)) in H by lia.
    destruct (h !! Z.to_nat (zlen h - off)) as [b|]; [|done].
    rewrite <- app_assoc in H. apply IH in H; [done|]. rewrite length_app. lia.
Qed.

Lemma apply_seqs_suffix (seqs : list sequence) (a h out : list byte) :
  MAX_DISTANCE ≤ zlen h → apply_seqs (a ++ h) seqs = Some out →
  ∃ h', out = a ++ h' ∧ apply_seqs h seqs = Some h'.
Proof.
  revert h. induction seqs as [|s seqs IH]; intros h Hh H; simpl in H.
  - injection H as <-. by exists h.
  - destruct (apply_seq (a ++ h) s) as [o|] eqn:Hc; [|done]. unfold apply_seq in Hc.
    case_match eqn:E; [|done]. zbool. rewrite <- app_assoc in Hc.
    apply copy_back_suffix in Hc as (h1 & -> & Hc); [|rewrite length_app; lia].
    pose proof (copy_back_length _ _ _ _ Hc) as Hl. rewrite length_app in Hl.
    apply IH in H as (h' & -> & H); [|lia]. exists h'. split; [done|]. simpl. unfold apply_seq.
    assert ((sq_off s <=? MAX_DISTANCE) && (MINMATCH <=? sq_mlen s) = true) as ->.
    { apply andb_true_iff. split; apply Z.leb_le; lia. }
    by rewrite Hc.
Qed.

(** Only the last [MAX_DISTANCE] bytes of the history matter. *)
Lemma block_text_suffix (seqs : list sequence) (l a h text : list byte) :
  MAX_DISTANCE ≤ zlen h → block_text (a ++ h) seqs l = Some text → block_text h seqs l = Some text.
Proof.
  unfold block_text. intros Hh H. destruct (apply_seqs (a ++ h) seqs) as [o|] eqn:E; [|done].
  apply apply_seqs_suffix in E as (h' & -> & E); [|done]. rewrite E.
  rewrite <- app_assoc, length_app, drop_app_add in H. done.
Qed.
