(* ===== verification/Lz4Decompress.v ===== *)
(** LZ4 block decompression: [LZ4_decompress_generic] and its entry points
    (src/src/lz4/lib/lz4.c, "Decompression functions"), as stateful programs
    over flat memory.  The theorems about them are in [Lz4DecompressProofs]. *)

From Stdlib Require Import ZArith Lia Strings.Byte.
From stdpp Require Import base gmap list fin_maps numbers.
From S2P Require Import Prelude Mem Lz4Common.

Inductive dict_directive : Type := noDict | withPrefix64k | usingExtDict.
Inductive endCondition_directive : Type := endOnOutputSize | endOnInputSize.
Inductive earlyEnd_directive : Type := full | partial.

Definition is_usingExtDict (d : dict_directive) : bool :=
  match d with usingExtDict => true | _ => false end.
Definition is_endOnInput (e : endCondition_directive) : bool :=
  match e with endOnInputSize => true | endOnOutputSize => false end.
Definition is_partial (e : earlyEnd_directive) : bool :=
  match e with partial => true | full => false end.

(** The values that stay fixed while a block is decoded: the constants
    [LZ4_decompress_generic] computes from its arguments on entry. *)
Record dec_env : Type := DecEnv {
  de_source : Z;
  de_dest : Z;
  iend : Z;
  oend : Z;
  oexit : Z;
  endOnInput : bool;
  partialDecoding : bool;
  de_dict : dict_directive;
  lowPrefix : Z;
  lowLimit : Z;
  dictEnd : Z;
  checkOffset : bool;
  len_fuel : nat
}.

(** One turn of the main loop ends by starting the next one, by leaving the
    loop after the last literals, or by jumping to [_output_error]. *)
Inductive dec_step : Type :=
| DContinue (ip op : Z)
| DBreak (ip op : Z)
| DError (ip : Z).

Definition dec32table : list Z := [4; 1; 2; 1; 4; 4; 4; 4].
(** The entry [(size_t)-1] is subtracted from a pointer, which adds 1. *)
Definition dec64table : list Z := [0; 0; 0; -1; 0; 1; 2; 3].

Section decompress.
Context {arch : Arch}.

(** Pointer addition, at pointer width. *)
Definition padd (p n : Z) : Z := usize (p + n).

(** [(size_t)(p+length) < (size_t)p] *)
Definition ptr_overflow (p length : Z) : bool := padd p length <? usize p.

(** [do { s = *ip++; length += s; }
     while (likely((endOnInput)?ip<iend-RUN_MASK:1) && (s==255))] *)
Fixpoint literal_length_loop (fuel : nat) (env : dec_env) (ip length : Z) : prog (Z * Z) :=
  match fuel with
  | O => nofuel
  | S fuel =>
      let! s := load8 ip in
      let ip := ip + 1 in
      let length := usize (length + s) in
      if (if endOnInput env then ip <? iend env - RUN_MASK else true) && (s =? 255)
      then literal_length_loop fuel env ip length
      else ret (length, ip)
  end.

(** [do { if ((endOnInput) && (ip > iend-LASTLITERALS)) goto _output_error;
          s = *ip++; length += s; } while (s==255)]; [inl ip] is the jump. *)
Fixpoint match_length_loop (fuel : nat) (env : dec_env) (ip length : Z) :
    prog (Z + Z * Z) :=
  match fuel with
  | O => nofuel
  | S fuel =>
      if endOnInput env && (ip >? iend env - LASTLITERALS) then ret (inl ip)
      else
        let! s := load8 ip in
        let ip := ip + 1 in
        let length := usize (length + s) in
        if s =? 255 then match_length_loop fuel env ip length
        else ret (inr (length, ip))
  end.

(** The literal length of a token; [inl ip] when an overflow is detected. *)
Definition get_literal_length (env : dec_env) (token ip op : Z) : prog (Z + Z * Z) :=
  let length := Z.shiftr token ML_BITS in
  if length =? RUN_MASK then
    let! (length, ip) := literal_length_loop (len_fuel env) env ip length in
    if endOnInput env && ptr_overflow op length then ret (inl ip)
    else if endOnInput env && ptr_overflow ip length then ret (inl ip)
    else ret (inr (length, ip))
  else ret (inr (length, ip)).

(** The match length of a token, [MINMATCH] included. *)
Definition get_match_length (env : dec_env) (token ip op : Z) : prog (Z + Z * Z) :=
  let length := Z.land token ML_MASK in
  if length =? ML_MASK then
    let! r := match_length_loop (len_fuel env) env ip length in
    match r with
    | inl ip => ret (inl ip)
    | inr (length, ip) =>
        if endOnInput env && ptr_overflow op length then ret (inl ip)
        else ret (inr (usize (length + MINMATCH), ip))
    end
  else ret (inr (usize (length + MINMATCH), ip)).

(** The last literals: the checks, the copy, and [break]. *)
Definition last_literals (env : dec_env) (ip op length cpy : Z) : prog dec_step :=
  let bad :=
    if partialDecoding env then
      (cpy >? oend env) || (endOnInput env && (padd ip length >? iend env))
    else
      (negb (endOnInput env) && negb (cpy =? oend env)) ||
      (endOnInput env && (negb (padd ip length =? iend env) || (cpy >? oend env))) in
  if bad then ret (DError ip)
  else memcpy op ip length ;! ret (DBreak (ip + length) (op + length)).

(** [while (op < endOfMatch) *op++ = *copyFrom++] *)
Fixpoint byte_copy_loop (fuel : nat) (op from endOfMatch : Z) : prog unit :=
  match fuel with
  | O => nofuel
  | S fuel =>
      if op <? endOfMatch then
        let! b := load8 from in
        store8 op b ;! byte_copy_loop fuel (op + 1) (from + 1) endOfMatch
      else ret tt
  end.

Definition byte_copy (op from endOfMatch : Z) : prog unit :=
  byte_copy_loop (S (Z.to_nat (endOfMatch - op))) op from endOfMatch.

(** A match that starts in the external dictionary. *)
Definition copy_extDict (env : dec_env) (ip op mtch length : Z) : prog dec_step :=
  if padd op length >? oend env - LASTLITERALS then ret (DError ip)
  else if length <=? usize (lowPrefix env - mtch) then
    let mtch := dictEnd env - (lowPrefix env - mtch) in
    memmove op mtch length ;! ret (DContinue ip (op + length))
  else
    let copySize := usize (lowPrefix env - mtch) in
    memcpy op (dictEnd env - copySize) copySize ;!
    let op := op + copySize in
    let copySize := usize (length - copySize) in
    if copySize >? usize (op - lowPrefix env) then
      byte_copy op (lowPrefix env) (op + copySize) ;!
      ret (DContinue ip (op + copySize))
    else
      memcpy op (lowPrefix env) copySize ;! ret (DContinue ip (op + copySize)).

(** The first eight bytes of a repeated sequence; returns where the copy goes
    on from, the new [match]. *)
Definition copy_first8 (op mtch : Z) : prog Z :=
  if op - mtch <? 8 then
    let dec64 := dec64table !!! Z.to_nat (op - mtch) in
    let! b := load8 mtch in store8 op b ;!
    let! b := load8 (mtch + 1) in store8 (op + 1) b ;!
    let! b := load8 (mtch + 2) in store8 (op + 2) b ;!
    let! b := load8 (mtch + 3) in store8 (op + 3) b ;!
    let mtch := mtch + dec32table !!! Z.to_nat (op - mtch) in
    LZ4_copy4 (op + 4) mtch ;!
    ret (mtch - dec64)
  else LZ4_copy8 op mtch ;! ret (mtch + 8).

(** "copy repeated sequence" *)
Definition copy_repeated (env : dec_env) (ip op mtch length : Z) : prog dec_step :=
  let cpy := padd op length in
  let! mtch := copy_first8 op mtch in
  let op := op + 8 in
  if cpy >? oend env - 12 then
    if cpy >? oend env - LASTLITERALS then ret (DError ip)
    else
      let! (op, mtch) :=
        (if op <? oend env - 8 then
           LZ4_wildCopy op mtch (oend env - 8) ;!
           ret (oend env - 8, mtch + ((oend env - 8) - op))
         else ret (op, mtch)) in
      byte_copy op mtch cpy ;! ret (DContinue ip cpy)
  else LZ4_wildCopy op mtch cpy ;! ret (DContinue ip cpy).

(** From "get offset" to the end of the loop body. *)
Definition decode_match (env : dec_env) (token ip op : Z) : prog dec_step :=
  let! offset := LZ4_readLE16 ip in
  let mtch := op - offset in
  let ip := ip + 2 in
  if checkOffset env && (mtch <? lowLimit env) then ret (DError ip)
  else
    let! r := get_match_length env token ip op in
    match r with
    | inl ip => ret (DError ip)
    | inr (length, ip) =>
        if is_usingExtDict (de_dict env) && (mtch <? lowPrefix env)
        then copy_extDict env ip op mtch length
        else copy_repeated env ip op mtch length
    end.

(** The body of the main loop. *)
Definition decode_sequence (env : dec_env) (ip op : Z) : prog dec_step :=
  let! token := load8 ip in
  let! r := get_literal_length env token (ip + 1) op in
  match r with
  | inl ip => ret (DError ip)
  | inr (length, ip) =>
      let cpy := padd op length in
      if (endOnInput env &&
            ((cpy >? (if partialDecoding env then oexit env else oend env - MFLIMIT)) ||
             (padd ip length >? iend env - (2 + 1 + LASTLITERALS)))) ||
         (negb (endOnInput env) && (cpy >? oend env - COPYLENGTH))
      then last_literals env ip op length cpy
      else
        LZ4_wildCopy op ip cpy ;!
        decode_match env token (ip + length) cpy
  end.

Fixpoint decode_loop (fuel : nat) (env : dec_env) (ip op : Z) : prog Z :=
  match fuel with
  | O => nofuel
  | S fuel =>
      let! r := decode_sequence env ip op in
      match r with
      | DContinue ip op => decode_loop fuel env ip op
      | DBreak ip op => ret (if endOnInput env then op - de_dest env else ip - de_source env)
      | DError ip => ret (- (ip - de_source env) - 1)
      end
  end.

Definition LZ4_decompress_generic (source dest inputSize outputSize : Z)
    (endOnInput : endCondition_directive) (partialDecoding : earlyEnd_directive)
    (targetOutputSize : Z) (dict : dict_directive)
    (lowPrefix dictStart dictSize : Z) : prog Z :=
  let oend := dest + outputSize in
  let oexit := dest + targetOutputSize in
  let safeDecode := is_endOnInput endOnInput in
  let oexit := if is_partial partialDecoding && (oexit >? oend - MFLIMIT)
               then oend - MFLIMIT else oexit in
  let fuel := S (Z.to_nat inputSize + Z.to_nat outputSize) in
  let env := {|
    de_source := source; de_dest := dest;
    iend := source + inputSize; oend := oend; oexit := oexit;
    Lz4Decompress.endOnInput := safeDecode;
    Lz4Decompress.partialDecoding := is_partial partialDecoding;
    de_dict := dict; Lz4Decompress.lowPrefix := lowPrefix;
    lowLimit := lowPrefix - dictSize; dictEnd := dictStart + dictSize;
    checkOffset := safeDecode && (dictSize <? KB 64);
    len_fuel := fuel |} in
  if safeDecode && (outputSize =? 0) then
    if inputSize =? 1 then
      let! b := load8 source in ret (if b =? 0 then 0 else -1)
    else ret (-1)
  else if negb safeDecode && (outputSize =? 0) then
    let! b := load8 source in ret (if b =? 0 then 1 else -1)
  else decode_loop fuel env source dest.

(** * Entry points *)

Definition NULL : Z := 0.

Definition LZ4_decompress_safe (source dest compressedSize maxDecompressedSize : Z) : prog Z :=
  LZ4_decompress_generic source dest compressedSize maxDecompressedSize
    endOnInputSize full 0 noDict dest NULL 0.

Definition LZ4_decompress_safe_partial
    (source dest compressedSize targetOutputSize maxDecompressedSize : Z) : prog Z :=
  LZ4_decompress_generic source dest compressedSize maxDecompressedSize
    endOnInputSize partial targetOutputSize noDict dest NULL 0.

Definition LZ4_decompress_fast (source dest originalSize : Z) : prog Z :=
  LZ4_decompress_generic source dest 0 originalSize
    endOnOutputSize full 0 withPrefix64k (dest - KB 64) NULL (KB 64).

Definition LZ4_decompress_usingDict_generic
    (source dest compressedSize maxOutputSize : Z) (safe : endCondition_directive)
    (dictStart dictSize : Z) : prog Z :=
  if dictSize =? 0 then
    LZ4_decompress_generic source dest compressedSize maxOutputSize safe full 0
      noDict dest NULL 0
  else if dictStart + dictSize =? dest then
    if dictSize >=? KB 64 - 1 then
      LZ4_decompress_generic source dest compressedSize maxOutputSize safe full 0
        withPrefix64k (dest - KB 64) NULL 0
    else
      LZ4_decompress_generic source dest compressedSize maxOutputSize safe full 0
        noDict (dest - dictSize) NULL 0
  else
    LZ4_decompress_generic source dest compressedSize maxOutputSize safe full 0
      usingExtDict dest dictStart dictSize.

Definition LZ4_decompress_safe_usingDict
    (source dest compressedSize maxOutputSize dictStart dictSize : Z) : prog Z :=
  LZ4_decompress_usingDict_generic source dest compressedSize maxOutputSize
    endOnInputSize dictStart dictSize.

Definition LZ4_decompress_fast_usingDict
    (source dest originalSize dictStart dictSize : Z) : prog Z :=
  LZ4_decompress_usingDict_generic source dest 0 originalSize
    endOnOutputSize dictStart dictSize.

Definition LZ4_decompress_safe_forceExtDict
    (source dest compressedSize maxOutputSize dictStart dictSize : Z) : prog Z :=
  LZ4_decompress_generic source dest compressedSize maxOutputSize
    endOnInputSize full 0 usingExtDict dest dictStart dictSize.

Definition LZ4_decompress_safe_withPrefix64k
    (source dest compressedSize maxOutputSize : Z) : prog Z :=
  LZ4_decompress_generic source dest compressedSize maxOutputSize
    endOnInputSize full 0 withPrefix64k (dest - KB 64) NULL (KB 64).

Definition LZ4_decompress_fast_withPrefix64k (source dest originalSize : Z) : prog Z :=
  LZ4_decompress_generic source dest 0 originalSize
    endOnOutputSize full 0 withPrefix64k (dest - KB 64) NULL (KB 64).

Definition LZ4_uncompress (source dest outputSize : Z) : prog Z :=
  LZ4_decompress_fast source dest outputSize.

Definition LZ4_uncompress_unknownOutputSize (source dest isize maxOutputSize : Z) : prog Z :=
  LZ4_decompress_safe source dest isize maxOutputSize.

(** * Streaming decompression *)

Record LZ4_streamDecode_t_internal : Type := StreamDecode {
  externalDict : Z;
  extDictSize : Z;
  prefixEnd : Z;
  prefixSize : Z
}.

Definition LZ4_createStreamDecode : LZ4_streamDecode_t_internal :=
  {| externalDict := 0; extDictSize := 0; prefixEnd := 0; prefixSize := 0 |}.

Definition LZ4_setStreamDecode (dictionary dictSize : Z) : LZ4_streamDecode_t_internal * Z :=
  ({| prefixSize := usize dictSize; prefixEnd := dictionary + dictSize;
      externalDict := NULL; extDictSize := 0 |}, 1).

Definition LZ4_decompress_safe_continue (sd : LZ4_streamDecode_t_internal)
    (source dest compressedSize maxOutputSize : Z) :
    prog (LZ4_streamDecode_t_internal * Z) :=
  if prefixEnd sd =? dest then
    let! result := LZ4_decompress_generic source dest compressedSize maxOutputSize
      endOnInputSize full 0 usingExtDict
      (prefixEnd sd - prefixSize sd) (externalDict sd) (extDictSize sd) in
    ret (if result <=? 0 then (sd, result)
         else ({| externalDict := externalDict sd; extDictSize := extDictSize sd;
                  prefixEnd := prefixEnd sd + result;
                  prefixSize := usize (prefixSize sd + result) |}, result))
  else
    let sd := {| externalDict := prefixEnd sd - prefixSize sd; extDictSize := prefixSize sd;
                 prefixEnd := prefixEnd sd; prefixSize := prefixSize sd |} in
    let! result := LZ4_decompress_generic source dest compressedSize maxOutputSize
      endOnInputSize full 0 usingExtDict dest (externalDict sd) (extDictSize sd) in
    ret (if result <=? 0 then (sd, result)
         else ({| externalDict := externalDict sd; extDictSize := extDictSize sd;
                  prefixEnd := dest + result; prefixSize := result |}, result)).

Definition LZ4_decompress_fast_continue (sd : LZ4_streamDecode_t_internal)
    (source dest originalSize : Z) : prog (LZ4_streamDecode_t_internal * Z) :=
  if prefixEnd sd =? dest then
    let! result := LZ4_decompress_generic source dest 0 originalSize
      endOnOutputSize full 0 usingExtDict
      (prefixEnd sd - prefixSize sd) (externalDict sd) (extDictSize sd) in
    ret (if result <=? 0 then (sd, result)
         else ({| externalDict := externalDict sd; extDictSize := extDictSize sd;
                  prefixEnd := prefixEnd sd + originalSize;
                  prefixSize := usize (prefixSize sd + originalSize) |}, result))
  else
    let sd := {| externalDict := dest - prefixSize sd; extDictSize := prefixSize sd;
                 prefixEnd := prefixEnd sd; prefixSize := prefixSize sd |} in
    let! result := LZ4_decompress_generic source dest 0 originalSize
      endOnOutputSize full 0 usingExtDict dest (externalDict sd) (extDictSize sd) in
    ret (if result <=? 0 then (sd, result)
         else ({| externalDict := externalDict sd; extDictSize := extDictSize sd;
                  prefixEnd := dest + originalSize; prefixSize := originalSize |}, result)).

End decompress.
