(* ===== verification/Lz4DecompressProofs.v ===== *)
(** Correctness of LZ4 block decompression.

    Two results about [LZ4_decompress_generic] carry everything else.  For
    the directives that check the input ([endOnInputSize]), every input
    whatsoever is decoded without an access outside of the buffers, in a
    bounded number of steps, and only the destination is written.  For every
    well-formed block of [Lz4Format], under all the directives, the
    destination ends up holding the text of the block. *)

From Stdlib Require Import ZArith Lia Strings.Byte.
From stdpp Require Import base gmap list fin_maps numbers.
From S2P Require Import Prelude Mem Lz4Common Lz4Format Lz4Decompress.

(** * Repeating strings of memory *)

(** The bytes in [lo + off .. hi - 1] each equal the one [off] before. *)
Definition periodic (m : mem) (lo hi off : Z) : Prop :=
  ∀ i, lo + off ≤ i < hi → m !! i = m !! (i - off).

Lemma periodic_rep (m : mem) (lo hi off : Z) :
  1 ≤ off → periodic m lo hi off →
  ∀ i, lo ≤ i < hi → m !! i = m !! (lo + (i - lo) mod off).
Proof.
  intros Ho Hp i Hi. remember (Z.to_nat (i - lo)) as n eqn:Hn.
  revert i Hi Hn. induction (lt_wf n) as [n _ IH]. intros i Hi ->.
  destruct (decide (i < lo + off)).
  - rewrite Z.mod_small by lia. f_equal. lia.
  - rewrite Hp by lia. rewrite (IH (Z.to_nat (i - off - lo)) ltac:(lia) (i - off)) by lia.
    do 2 f_equal. replace (i - lo) with (i - off - lo + 1 * off) by lia.
    by rewrite Z_mod_plus_full.
Qed.

(** Going on from a repeating string with copies from a multiple of its
    period back keeps it repeating with that period. *)
Lemma periodic_extend (m : mem) (lo mid hi off q : Z) :
  1 ≤ off → 1 ≤ q → periodic m lo mid off → lo + q * off ≤ mid →
  (∀ i, mid ≤ i < hi → m !! i = m !! (i - q * off)) →
  periodic m lo hi off.
Proof.
  intros Ho Hq Hp Hm Hc.
  assert (Hrep : ∀ i, lo ≤ i < hi → m !! i = m !! (lo + (i - lo) mod off)).
  { intros i Hi. remember (Z.to_nat (i - lo)) as n eqn:Hn.
    revert i Hi Hn. induction (lt_wf n) as [n _ IH]. intros i Hi ->.
    destruct (decide (i < mid)); [apply (periodic_rep _ _ mid); [done..|lia]|].
    rewrite Hc by lia.
    rewrite (IH (Z.to_nat (i - q * off - lo)) ltac:(nia) (i - q * off)) by nia.
    do 2 f_equal. replace (i - lo) with (i - q * off - lo + q * off) by lia.
    by rewrite Z_mod_plus_full. }
  intros i Hi. rewrite (Hrep i), (Hrep (i - off)) by lia.
  do 2 f_equal. replace (i - lo) with (i - off - lo + 1 * off) by lia.
  by rewrite Z_mod_plus_full.
Qed.

(** A copy from [off] back over bytes that do not change afterwards. *)
Lemma periodic_frame (m m' : mem) (lo hi off lo' hi' : Z) :
  periodic m lo hi off → frame lo' hi' m m' → hi ≤ lo' → 0 ≤ off → periodic m' lo hi off.
Proof.
  intros Hp F Hh Ho i Hi. rewrite !(frame_eq _ _ _ _ F) by lia. by apply Hp.
Qed.

(** * The copies *)

Section copies.
Context {arch : Arch}.
Implicit Types (m : mem) (env : dec_env).

(** [*d = *s; rest] *)
Lemma wp_copy1 {A : Type} (d s : Z) (k : prog A) (Q : A → mem → Prop) m :
  is_Some (m !! s) → is_Some (m !! d) →
  (∀ m', frame d (d + 1) m m' → m' !! d = m !! s → wp k Q m') →
  wp (let! b := load8 s in store8 d b ;! k) Q m.
Proof.
  intros [b Hs] Hd Hk. apply wp_bind. eapply wp_load8; [done|].
  apply wp_bind, wp_store8; [done|]. apply Hk.
  - apply frame_insert; [done|lia].
  - by rewrite lookup_insert_eq, z2b_b2z.
Qed.

Lemma byte_copy_loop_spec (fuel : nat) (op from e : Z) m :
  (Z.to_nat (e - op) < fuel)%nat →
  mapped m op (e - op) → mapped m from (e - op) →
  wp (byte_copy_loop fuel op from e)
     (λ _ m', frame op (Z.max op e) m m' ∧
        (1 ≤ op - from ∨ e ≤ from →
         ∀ i, op ≤ i < e → m' !! i = m' !! (i - (op - from)))) m.
Proof.
  revert op from m. induction fuel as [|fuel IH]; intros op from m Hf Ho Hs; [lia|].
  simpl. case_if; zbool.
  - apply wp_copy1; [solve_mapped..|]. intros m1 F1 C1.
    eapply wp_mono; [apply IH; [lia|solve_mapped..]|]. intros _ m2 [F2 C2].
    split; [solve_frame|]. intros Hd i Hi. destruct (decide (i = op)) as [->|].
    + rewrite !(frame_eq _ _ _ _ F2) by lia. rewrite C1.
      rewrite (frame_eq _ _ _ _ F1) by lia. f_equal. lia.
    + rewrite C2 by lia. f_equal. lia.
  - apply wp_ret. split; [reflexivity|]. intros _ i Hi. lia.
Qed.

Lemma byte_copy_spec (op from e : Z) m :
  mapped m op (e - op) → mapped m from (e - op) →
  wp (byte_copy op from e)
     (λ _ m', frame op (Z.max op e) m m' ∧
        (1 ≤ op - from ∨ e ≤ from →
         ∀ i, op ≤ i < e → m' !! i = m' !! (i - (op - from)))) m.
Proof. intros. apply byte_copy_loop_spec; [lia|done..]. Qed.

(** After [copy_first8] the match goes on from a distance that is a multiple of
    the offset, at least 8, and reaches no further back. *)
Definition first8_post (m m' : mem) (op off mtch' : Z) : Prop :=
  frame op (op + 8) m m' ∧ 4 ≤ op + 8 - mtch' ≤ 8 + off ∧
  (1 ≤ off → ∃ q, 1 ≤ q ∧ 8 ≤ q * off ∧ op + 8 - mtch' = q * off ∧
     periodic m' (op - off) (op + 8) off).

Lemma copy_first8_far (op off : Z) m :
  8 ≤ off → mapped m (op - off) (off + 8) →
  wp (copy_first8 op (op - off)) (λ mt m', first8_post m m' op off mt) m.
Proof.
  intros Ho Hm. unfold copy_first8, LZ4_copy8.
  assert ((op - (op - off) <? 8) = false) as -> by (apply Z.ltb_ge; lia).
  wp_apply memcpy_spec; [lia|solve_mapped..|]. intros _ m1 [F C]. apply wp_ret.
  split_and!; [done|lia..|]. intros _. exists 1. split_and!; [lia..|].
  intros i Hi. specialize (C (i - op)). replace (op + (i - op)) with i in C by lia.
  rewrite C, (frame_eq _ _ _ _ F) by lia. f_equal. lia.
Qed.

(** The short distances, from what the two tables say about one offset. *)
Lemma copy_first8_near (op off d32 d64 : Z) m :
  0 ≤ off < 8 → mapped m (op - off) (off + 8) →
  dec32table !!! Z.to_nat off = d32 → dec64table !!! Z.to_nat off = d64 →
  0 ≤ 4 + off - d32 ≤ 4 + off → 4 ≤ 8 + off - d32 + d64 ≤ 8 + off →
  (1 ≤ off → ∃ q1 q2, 1 ≤ q1 ∧ 1 ≤ q2 ∧ 4 + off - d32 = q1 * off ∧
                      8 + off - d32 + d64 = q2 * off ∧ 8 ≤ q2 * off ∧ 4 ≤ q1 * off) →
  wp (copy_first8 op (op - off)) (λ mt m', first8_post m m' op off mt) m.
Proof.
  intros Ho Hm H32 H64 B32 B64 Hq. unfold copy_first8, LZ4_copy4.
  replace (op - (op - off)) with off by lia. rewrite H32, H64.
  assert ((off <? 8) = true) as -> by (apply Z.ltb_lt; lia).
  apply wp_copy1; [solve_mapped..|]. intros m1 F1 C1.
  apply wp_copy1; [solve_mapped..|]. intros m2 F2 C2.
  apply wp_copy1; [solve_mapped..|]. intros m3 F3 C3.
  apply wp_copy1; [solve_mapped..|]. intros m4 F4 C4.
  wp_apply memcpy_spec; [lia|solve_mapped..|]. intros _ m5 [F5 C5]. apply wp_ret.
  split_and!; [solve_frame|lia..|]. intros Ho1.
  destruct (Hq Ho1) as (q1 & q2 & Q1 & Q2 & E1 & E2 & Q3 & Q4).
  exists q2. split_and!; [lia..|].
  apply (periodic_extend m5 _ (op + 4) _ off q1); [lia..| |lia|].
  - intros i Hi.
    assert (i = op ∨ i = op + 1 ∨ i = op + 2 ∨ i = op + 3) as Hc by lia.
    rewrite !(frame_eq _ _ _ _ F5) by lia.
    destruct Hc as [->|[->|[->| ->]]];
      rewrite ?C4; rewrite ?(frame_eq _ _ _ _ F4) by lia;
      rewrite ?C3; rewrite ?(frame_eq _ _ _ _ F3) by lia;
      rewrite ?C2; rewrite ?(frame_eq _ _ _ _ F2) by lia;
      rewrite ?C1; rewrite ?(frame_eq _ _ _ _ F1) by lia; f_equal; lia.
  - intros i Hi. specialize (C5 (i - (op + 4))).
    replace (op + 4 + (i - (op + 4))) with i in C5 by lia.
    rewrite C5, (frame_eq _ _ _ _ F5) by lia. f_equal. lia.
Qed.

Lemma copy_first8_spec (op off : Z) m :
  0 ≤ off → mapped m (op - off) (off + 8) →
  wp (copy_first8 op (op - off)) (λ mt m', first8_post m m' op off mt) m.
Proof.
  intros Ho Hm. destruct (decide (8 ≤ off)); [by apply copy_first8_far|].
  assert (off = 0 ∨ off = 1 ∨ off = 2 ∨ off = 3 ∨ off = 4 ∨ off = 5 ∨ off = 6 ∨ off = 7) as Hc
    by lia.
  destruct Hc as [->|[->|[->|[->|[->|[->|[->| ->]]]]]]].
  - apply (copy_first8_near op 0 4 0); try done; lia.
  - apply (copy_first8_near op 1 1 0); try done. by exists 4, 8.
  - apply (copy_first8_near op 2 2 0); try done. by exists 2, 4.
  - apply (copy_first8_near op 3 1 (-1)); try done. by exists 2, 3.
  - apply (copy_first8_near op 4 4 0); try done. by exists 1, 2.
  - apply (copy_first8_near op 5 4 1); try done. by exists 1, 2.
  - apply (copy_first8_near op 6 4 2); try done. by exists 1, 2.
  - apply (copy_first8_near op 7 4 3); try done. by exists 1, 2.
Qed.

Lemma ptr_bits_large : 4294967296 ≤ 2 ^ ptr_bits.
Proof. unfold ptr_bits, STEPSIZE. destruct LZ4_64bits; simpl; lia. Qed.

Lemma padd_exact (p n : Z) : 0 ≤ p + n < 2 ^ ptr_bits → padd p n = p + n.
Proof. apply wrap_small. Qed.

Lemma usize_small (n : Z) : 0 ≤ n < 2 ^ ptr_bits → usize n = n.
Proof. apply wrap_small. Qed.

Lemma no_overflow (p n : Z) :
  0 ≤ p → 0 ≤ n → p + n < 2 ^ ptr_bits → ptr_overflow p n = false.
Proof.
  intros. unfold ptr_overflow. rewrite padd_exact, usize_small by lia. apply Z.ltb_ge. lia.
Qed.

(** The rest of a repeated sequence, after its first eight bytes, from a
    distance [D]. *)
Lemma copy_tail_spec (oend op cpy D : Z) m :
  4 ≤ D → mapped m (op - D) (oend - (op - D)) → cpy ≤ oend - 5 → op ≤ oend → op - 4 ≤ cpy →
  wp (if cpy >? oend - 12 then
        let! (op, mtch) :=
          (if op <? oend - 8 then
             LZ4_wildCopy op (op - D) (oend - 8) ;!
             ret (oend - 8, op - D + ((oend - 8) - op))
           else ret (op, op - D)) in
        byte_copy op mtch cpy
      else LZ4_wildCopy op (op - D) cpy)
     (λ _ m', frame op oend m m' ∧
        (8 ≤ D → ∀ i, op ≤ i < cpy → m' !! i = m' !! (i - D))) m.
Proof.
  intros HD Hm Hc Ho Hoc. case_if; zbool.
  - destruct (Z.ltb_spec op (oend - 8)).
    + pose proof (wild_end_bounds op (oend - 8)).
      apply wp_bind. wp_apply wildCopy_spec; [solve_mapped..|]. intros _ m1 [F1 C1].
      apply wp_ret. eapply wp_mono; [apply byte_copy_spec; solve_mapped|].
      intros _ m2 [F2 C2]. split; [solve_frame|]. intros HD8 i Hi.
      destruct (decide (i < oend - 8)).
      * rewrite !(frame_eq _ _ _ _ F2) by lia. rewrite C1 by lia. f_equal. lia.
      * rewrite C2 by lia. f_equal. lia.
    + apply wp_bind, wp_ret. eapply wp_mono; [apply byte_copy_spec; solve_mapped|].
      intros _ m2 [F2 C2]. split; [solve_frame|]. intros HD8 i Hi.
      rewrite C2 by lia. f_equal. lia.
  - pose proof (wild_end_bounds op cpy).
    eapply wp_mono; [apply wildCopy_spec; solve_mapped|].
    intros _ m1 [F1 C1]. split; [solve_frame|]. intros HD8 i Hi. rewrite C1 by lia. f_equal. lia.
Qed.

Lemma copy_repeated_spec env (ip op off length : Z) m :
  0 ≤ off → 4 ≤ length → 0 ≤ op → op + length < 2 ^ ptr_bits → op + 8 ≤ oend env →
  mapped m (op - off) (oend env - (op - off)) →
  wp (copy_repeated env ip op (op - off) length)
     (λ r m', frame op (oend env) m m' ∧
        ((r = DError ip ∧ oend env - LASTLITERALS < op + length) ∨
         (r = DContinue ip (op + length) ∧ op + length ≤ oend env - LASTLITERALS ∧
          (1 ≤ off → periodic m' (op - off) (op + length) off)))) m.
Proof.
  intros Ho Hl Hop Hw Hoe Hm. unfold copy_repeated. rewrite padd_exact by lia.
  unfold LASTLITERALS.
  wp_apply copy_first8_spec; [done|solve_mapped|]. intros mt m1 (F1 & HD & Hper).
  destruct (Z.gtb_spec (op + length) (oend env - 5)) as [Hbig|Hok].
  { assert ((op + length >? oend env - 12) = true) as -> by (apply Z.gtb_lt; lia).
    apply wp_ret. split; [solve_frame|]. left. split; [done|lia]. }
  set (D := op + 8 - mt) in *. replace mt with (op + 8 - D) by lia.
  pose proof (copy_tail_spec (oend env) (op + 8) (op + length) D m1 ltac:(lia)
    ltac:(solve_mapped) ltac:(lia) ltac:(lia) ltac:(lia)) as Ht.
  assert (Hfin : ∀ m2, frame (op + 8) (oend env) m1 m2 ∧
      (8 ≤ D → ∀ i, op + 8 ≤ i < op + length → m2 !! i = m2 !! (i - D)) →
    frame op (oend env) m m2 ∧
    ((DContinue ip (op + length) = DError ip ∧ oend env - 5 < op + length) ∨
     (DContinue ip (op + length) = DContinue ip (op + length) ∧ op + length ≤ oend env - 5 ∧
      (1 ≤ off → periodic m2 (op - off) (op + length) off)))).
  { intros m2 [F2 C2]. split; [solve_frame|]. right. split_and!; [done|lia|].
    intros Ho1. destruct (Hper Ho1) as (q & Hq & Hq8 & Eq & Hp).
    apply (periodic_frame _ _ _ _ _ _ _) with (1 := Hp) in F2; [|lia..].
    apply (periodic_extend m2 _ (op + 8) _ off q); [lia..|done|lia|].
    intros i Hi. rewrite <- Eq. apply C2; lia. }
  destruct (op + length >? oend env - 12).
  - apply wp_bind. apply wp_bind_inv in Ht. eapply wp_mono; [exact Ht|].
    intros [o mt'] m1' Hb. apply wp_bind. eapply wp_mono; [exact Hb|].
    intros u m2 H2. apply wp_ret. by apply Hfin.
  - apply wp_bind. eapply wp_mono; [exact Ht|]. intros u m2 H2. apply wp_ret. by apply Hfin.
Qed.

(** Where the decoder finds the byte at address [a] of the text: below the
    prefix it is in the external dictionary. *)
Definition vaddr env (a : Z) : Z :=
  if is_usingExtDict (de_dict env) && (a <? lowPrefix env)
  then dictEnd env - (lowPrefix env - a) else a.

Lemma vaddr_high env (a : Z) : lowPrefix env ≤ a → vaddr env a = a.
Proof.
  intros Ha. unfold vaddr. destruct (Z.ltb_spec a (lowPrefix env)); [lia|].
  by rewrite andb_false_r.
Qed.

Lemma vaddr_ext env (a : Z) :
  de_dict env = usingExtDict → a < lowPrefix env →
  vaddr env a = dictEnd env - (lowPrefix env - a).
Proof.
  intros Hd Ha. unfold vaddr. rewrite Hd. destruct (Z.ltb_spec a (lowPrefix env)); [done|lia].
Qed.

Lemma copy_extDict_spec env (ip op off length : Z) m :
  de_dict env = usingExtDict → 4 ≤ length →
  0 ≤ op → op + length < 2 ^ ptr_bits → off < 2 ^ ptr_bits →
  0 ≤ lowPrefix env → op - off < lowPrefix env ≤ op → op ≤ oend env →
  mapped m (vaddr env (op - off)) (lowPrefix env - (op - off)) →
  mapped m (lowPrefix env) (oend env - lowPrefix env) →
  wp (copy_extDict env ip op (op - off) length)
     (λ r m', frame op (oend env) m m' ∧
        ((r = DError ip ∧ oend env - LASTLITERALS < op + length) ∨
         (r = DContinue ip (op + length) ∧ op + length ≤ oend env - LASTLITERALS ∧
          (dictEnd env ≤ op ∨ oend env ≤ vaddr env (op - off) →
           ∀ i, op ≤ i < op + length → m' !! i = m' !! vaddr env (i - off))))) m.
Proof.
  intros Hd Hl Hop Hw Hofw Hlp0 Hlp Hoe Hmd Hmp. unfold copy_extDict, LASTLITERALS.
  rewrite vaddr_ext in * by (done || lia). rewrite padd_exact by lia.
  case_if; zbool; [apply wp_ret; split; [reflexivity|]; left; split; [done|lia]|].
  set (c := lowPrefix env - (op - off)) in *.
  rewrite (usize_small c) by lia. case_if; zbool.
  { wp_apply memmove_spec; [lia|solve_mapped..|]. intros _ m1 [F1 C1]. apply wp_ret.
    split; [solve_frame|]. right. split_and!; [done|lia|]. intros Hdis i Hi.
    rewrite vaddr_ext by (done || lia).
    specialize (C1 (i - op)). replace (op + (i - op)) with i in C1 by lia.
    rewrite C1, (frame_eq _ _ _ _ F1) by lia. f_equal. lia. }
  rewrite (usize_small (length - c)), (usize_small (op + c - lowPrefix env)) by lia.
  wp_apply memcpy_spec; [lia|solve_mapped..|]. intros _ m1 [F1 C1].
  assert (Hfin : ∀ m2, frame (op + c) (op + length) m1 m2 →
    (∀ i, op + c ≤ i < op + length → m2 !! i = m2 !! (i - off)) →
    frame op (oend env) m m2 ∧
    ((DContinue ip (op + c + (length - c)) = DError ip ∧ oend env - 5 < op + length) ∨
     (DContinue ip (op + c + (length - c)) = DContinue ip (op + length) ∧
      op + length ≤ oend env - 5 ∧
      (dictEnd env ≤ op ∨ oend env ≤ dictEnd env - c →
       ∀ i, op ≤ i < op + length → m2 !! i = m2 !! vaddr env (i - off))))).
  { intros m2 F2 C2. split; [solve_frame|]. right. split_and!; [f_equal; lia|lia|].
    intros Hdis i Hi. destruct (decide (i < op + c)).
    - rewrite vaddr_ext, !(frame_eq _ _ _ _ F2) by (done || lia).
      specialize (C1 (i - op)). replace (op + (i - op)) with i in C1 by lia.
      rewrite C1, (frame_eq _ _ _ _ F1) by lia. f_equal. lia.
    - rewrite vaddr_high by lia. apply C2. lia. }
  case_if; zbool.
  - wp_apply byte_copy_spec; [solve_mapped..|]. intros _ m2 [F2 C2]. apply wp_ret.
    apply Hfin; [solve_frame|]. intros i Hi. rewrite C2 by lia. f_equal. lia.
  - wp_apply memcpy_spec; [lia|solve_mapped..|]. intros _ m2 [F2 C2]. apply wp_ret.
    apply Hfin; [solve_frame|]. intros i Hi. specialize (C2 (i - (op + c))).
    replace (op + c + (i - (op + c))) with i in C2 by lia.
    rewrite C2, (frame_eq _ _ _ _ F2) by lia. f_equal. lia.
Qed.

End copies.

(** * Safety on arbitrary input *)

Section safety.
Context {arch : Arch}.
Implicit Types (m : mem) (env : dec_env).

Lemma readLE16_range (a : Z) m :
  mapped m a 2 → wp (LZ4_readLE16 a) (λ v m', m' = m ∧ 0 ≤ v < 65536) m.
Proof.
  intros Hm. destruct (mapped_bytes_at m a 2) as ([|b0 [|b1 []]] & Hl & Hb); try done.
  eapply wp_mono; [by apply readLE16_spec|]. intros v m' [-> ->]. split; [done|].
  pose proof (le_val_range [b0; b1]). simpl length in *. lia.
Qed.

(** The number of bytes the decoder may read at [source]: the input, and at
    least the first token and the byte after it. *)
Definition in_span env : Z := Z.max 2 (iend env - de_source env).

(** The directives check the input, and the buffers are where a decoder that
    checks its input may be pointed at. *)
Record safe_env env : Prop := {
  sf_end : endOnInput env = true;
  sf_src : 0 ≤ de_source env;
  sf_dst : 0 ≤ de_dest env;
  sf_src_room : de_source env + 256 * in_span env + 300 ≤ 2 ^ ptr_bits;
  sf_dst_room : Z.max (de_dest env) (oend env) + 255 * in_span env + 300 ≤ 2 ^ ptr_bits;
  sf_low : lowPrefix env ≤ de_dest env;
  sf_exit : partialDecoding env = true → oexit env ≤ oend env - MFLIMIT;
  sf_fuel : (Z.to_nat (iend env - de_source env) < len_fuel env)%nat;
  sf_limit : lowLimit env ≤ lowPrefix env;
  sf_check : checkOffset env = true ∨ lowLimit env ≤ lowPrefix env - KB 64;
  sf_dict : if is_usingExtDict (de_dict env) then 0 ≤ lowPrefix env
            else (lowLimit env = lowPrefix env ∧ checkOffset env = true) ∨
                 lowPrefix env ≤ de_dest env - MAX_DISTANCE
}.

(** The memory the decoder needs: the input, the destination with the part of
    its prefix that offsets can reach, and the external dictionary. *)
Record safe_mem env m : Prop := {
  sm_src : mapped m (de_source env) (in_span env);
  sm_dst : let lo := Z.max (lowPrefix env) (de_dest env - MAX_DISTANCE) in
           mapped m lo (oend env - lo);
  sm_ext : is_usingExtDict (de_dict env) = true →
           mapped m (dictEnd env - (lowPrefix env - lowLimit env)) (lowPrefix env - lowLimit env)
}.

Lemma safe_mem_frame env (lo hi : Z) m m' :
  safe_mem env m → frame lo hi m m' → safe_mem env m'.
Proof.
  intros [H1 H2 H3] F. split; [by eapply frame_mapped..|].
  intros Hd. eapply frame_mapped; [done|]. by apply H3.
Qed.

Lemma literal_length_loop_safe (fuel : nat) env (ip length : Z) m :
  safe_env env → safe_mem env m → (Z.to_nat (iend env - RUN_MASK - ip) < fuel)%nat →
  de_source env ≤ ip < de_source env + in_span env →
  0 ≤ length → length + 255 * (de_source env + in_span env - ip) < 2 ^ ptr_bits →
  wp (literal_length_loop fuel env ip length)
     (λ r m', m' = m ∧ ip < r.2 ≤ Z.max (ip + 1) (iend env - RUN_MASK) ∧
        length ≤ r.1 ≤ length + 255 * (r.2 - ip)) m.
Proof.
  intros He Hm. revert ip length.
  induction fuel as [|fuel IH]; intros ip length Hf Hip Hl Hlw; [lia|]. simpl.
  destruct (sm_src env m Hm ip ltac:(lia)) as [b Hb].
  apply wp_bind. eapply wp_load8; [done|]. pose proof (b2z_range b).
  rewrite (sf_end env He), usize_small by lia. unfold RUN_MASK, RUN_BITS, ML_BITS in *.
  destruct (Z.ltb_spec (ip + 1) (iend env - (2 ^ (8 - 4) - 1)));
    [destruct (Z.eqb_spec (b2z b) 255)|]; simpl.
  - eapply wp_mono; [apply IH; try lia|].
    { unfold in_span in *. lia. }
    intros [l' ip'] m' (-> & H1 & H2). simpl in *. fin.
  - apply wp_ret. simpl. fin.
  - apply wp_ret. simpl. fin.
Qed.

Lemma match_length_loop_safe (fuel : nat) env (ip length : Z) m :
  safe_env env → safe_mem env m → (Z.to_nat (iend env - ip) < fuel)%nat →
  de_source env ≤ ip ≤ iend env → 0 ≤ length →
  length + 255 * (de_source env + in_span env - ip) < 2 ^ ptr_bits →
  wp (match_length_loop fuel env ip length)
     (λ r m', m' = m ∧
        match r with
        | inl ip' => ip ≤ ip' ≤ iend env
        | inr (length', ip') => ip < ip' ≤ iend env - 4 ∧
                                length ≤ length' ≤ length + 255 * (ip' - ip)
        end) m.
Proof.
  intros He Hm. revert ip length.
  induction fuel as [|fuel IH]; intros ip length Hf Hip Hl Hlw; [lia|]. simpl.
  rewrite (sf_end env He). simpl. unfold LASTLITERALS, in_span in *.
  case_if; zbool; [apply wp_ret; fin|].
  destruct (sm_src env m Hm ip) as [b Hb]; [unfold in_span; lia|].
  apply wp_bind. eapply wp_load8; [done|]. pose proof (b2z_range b).
  rewrite usize_small by lia. case_if; zbool; [|apply wp_ret; fin].
  eapply wp_mono; [apply IH; lia|].
  intros [ip'|[l' ip']] m' (-> & H1); simpl in *; fin.
Qed.

Lemma get_literal_length_safe env (tok ip op : Z) m :
  safe_env env → safe_mem env m → 0 ≤ tok < 256 →
  de_source env ≤ ip < de_source env + in_span env →
  de_dest env ≤ op ≤ Z.max (de_dest env) (oend env) →
  wp (get_literal_length env tok ip op)
     (λ r m', m' = m ∧
        match r with
        | inl ip' => False
        | inr (length, ip') =>
            ip ≤ ip' ≤ Z.max (ip + 1) (iend env - RUN_MASK) ∧
            0 ≤ length ≤ 15 + 255 * (ip' - ip)
        end) m.
Proof.
  intros He Hm Ht Hip Hop. unfold get_literal_length, ML_BITS.
  rewrite Z.shiftr_div_pow2 by lia. change (2 ^ 4) with 16.
  pose proof (sf_end env He) as E1. pose proof (sf_src env He). pose proof (sf_dst env He).
  pose proof (sf_src_room env He). pose proof (sf_dst_room env He). pose proof (sf_fuel env He).
  case_if; zbool; [|apply wp_ret; split; [done|]; zdiv].
  eapply wp_seq; [apply (literal_length_loop_safe _ env ip _ m He Hm)|];
    change RUN_MASK with 15 in *; [lia..|].
  intros [l ip'] m' (-> & L1 & L2). simpl in L1, L2. rewrite E1. simpl.
  unfold in_span in *. rewrite !no_overflow by lia. apply wp_ret. fin.
Qed.

Lemma get_match_length_safe env (tok ip op : Z) m :
  safe_env env → safe_mem env m → 0 ≤ tok < 256 →
  de_source env ≤ ip ≤ iend env - 4 →
  de_dest env ≤ op ≤ oend env →
  wp (get_match_length env tok ip op)
     (λ r m', m' = m ∧
        match r with
        | inl ip' => ip ≤ ip' ≤ iend env
        | inr (length, ip') => ip ≤ ip' ≤ iend env - 4 ∧
                               4 ≤ length ≤ 19 + 255 * (ip' - ip)
        end) m.
Proof.
  intros He Hm Ht Hip Hop. unfold get_match_length, MINMATCH.
  assert (0 ≤ Z.land tok ML_MASK ≤ 15) as Hland.
  { change ML_MASK with (Z.ones 4). rewrite Z.land_ones by lia. zdiv. }
  pose proof (sf_src_room env He). pose proof (sf_dst_room env He).
  pose proof (sf_dst env He). unfold in_span in *.
  case_if; zbool.
  - pose proof (sf_fuel env He).
    eapply wp_seq; [apply (match_length_loop_safe _ env ip _ m He Hm); unfold in_span; lia|].
    intros [ip'|[l ip']] m' (-> & L1); [apply wp_ret; fin|].
    rewrite (sf_end env He), no_overflow by lia. simpl.
    rewrite usize_small by lia. apply wp_ret. fin.
  - rewrite usize_small by lia. apply wp_ret. fin.
Qed.

(** What a turn of the loop leaves behind. *)
Definition safe_post env (ip : Z) m (r : dec_step) m' : Prop :=
  frame (de_dest env) (Z.max (de_dest env) (oend env)) m m' ∧
  match r with
  | DContinue ip' op' => ip < ip' ≤ iend env - 4 ∧ de_dest env ≤ op' ≤ oend env
  | DBreak ip' op' => de_dest env ≤ op' ≤ Z.max (de_dest env) (oend env)
  | DError ip' => de_source env ≤ ip' ≤ de_source env + in_span env
  end.

Lemma last_literals_safe env (ip op length : Z) m :
  safe_env env → safe_mem env m → 0 ≤ length ≤ 15 + 255 * in_span env →
  de_source env ≤ ip ≤ de_source env + in_span env →
  de_dest env ≤ op ≤ Z.max (de_dest env) (oend env) →
  wp (last_literals env ip op length (padd op length)) (safe_post env ip m) m.
Proof.
  intros He Hm Hl Hip Hop. unfold last_literals.
  pose proof (sf_src env He). pose proof (sf_dst env He). pose proof (sf_low env He).
  pose proof (sf_src_room env He). pose proof (sf_dst_room env He).
  unfold in_span in *. rewrite (sf_end env He), !padd_exact by lia.
  case_if; [apply wp_ret; split; [reflexivity|unfold in_span; lia]|].
  pose proof (sm_src env m Hm) as Hs. pose proof (sm_dst env m Hm) as Hd.
  unfold in_span, MAX_DISTANCE, MAXD_LOG in *.
  assert (op + length ≤ oend env ∧ ip + length ≤ iend env) as [Ho Hi].
  { destruct (partialDecoding env); simpl in E; zbool; lia. }
  wp_apply memcpy_spec; [lia|solve_mapped..|]. intros _ m1 [F C]. apply wp_ret.
  split; [solve_frame|lia].
Qed.

(** A match copied from a checked offset stays within the buffers. *)
Lemma copy_safe env (ip op off length : Z) m :
  safe_env env → safe_mem env m → 0 ≤ off ≤ MAX_DISTANCE →
  4 ≤ length ≤ 19 + 255 * in_span env →
  de_dest env ≤ op ≤ oend env - MFLIMIT →
  (checkOffset env = true → lowLimit env ≤ op - off) →
  wp (if is_usingExtDict (de_dict env) && (op - off <? lowPrefix env)
      then copy_extDict env ip op (op - off) length
      else copy_repeated env ip op (op - off) length)
     (λ r m', frame op (oend env) m m' ∧
        (r = DError ip ∨ r = DContinue ip (op + length) ∧ op + length ≤ oend env)) m.
Proof.
  intros He Hm Ho Hl Hop Hck. pose proof (sm_dst env m Hm) as Hd. pose proof (sm_ext env m Hm) as Hx.
  pose proof (sf_dst env He). pose proof (sf_low env He). pose proof (sf_dst_room env He).
  pose proof (sf_check env He) as Hc. pose proof (sf_dict env He) as Hdc.
  pose proof (sf_limit env He).
  unfold MFLIMIT, MAX_DISTANCE, MAXD_LOG, COPYLENGTH, MINMATCH, KB in *. simpl in Hd.
  destruct (is_usingExtDict (de_dict env) && (op - off <? lowPrefix env)) eqn:E.
  - apply andb_true_iff in E as [E Elt]. zbool. assert (de_dict env = usingExtDict) as Hde by (by destruct (de_dict env)).
    rewrite E in Hdc. specialize (Hx E).
    assert (lowLimit env ≤ op - off) as Hlow.
    { destruct Hc as [Hc|Hc]; [auto|]. lia. }
    pose proof ptr_bits_large.
    eapply wp_mono; [apply copy_extDict_spec; try done; try lia|].
    + rewrite vaddr_ext by done. solve_mapped.
    + solve_mapped.
    + unfold LASTLITERALS. intros r m' [F Hr]. split; [done|]. destruct Hr as [[-> _]|[-> Hr]]; [by left|right]. fin.
  - assert (Z.max (lowPrefix env) (de_dest env - 65535) ≤ op - off) as Hlow.
    { destruct (is_usingExtDict (de_dict env)) eqn:Ed; simpl in E.
      - zbool. lia.
      - destruct Hdc as [[Hll Hck']|Hlo]; [specialize (Hck Hck')|]; lia. }
    eapply wp_mono; [apply copy_repeated_spec; try lia|].
    + solve_mapped.
    + unfold LASTLITERALS. intros r m' [F Hr]. split; [done|]. destruct Hr as [[-> _]|[-> Hr]]; [by left|right]. fin.
Qed.

Lemma decode_match_safe env (tok ip op : Z) m :
  safe_env env → safe_mem env m → 0 ≤ tok < 256 →
  de_source env ≤ ip ≤ iend env - 8 →
  de_dest env ≤ op ≤ oend env - MFLIMIT →
  wp (decode_match env tok ip op) (safe_post env ip m) m.
Proof.
  intros He Hm Ht Hip Hop. unfold decode_match.
  pose proof (sm_src env m Hm) as Hs. unfold in_span, MFLIMIT, COPYLENGTH, MINMATCH in *.
  wp_apply readLE16_range; [solve_mapped|]. intros off m1 [-> Hoff].
  destruct (checkOffset env && (op - off <? lowLimit env)) eqn:Eck.
  { apply wp_ret. split; [reflexivity|]. unfold in_span. lia. }
  eapply wp_seq; [apply (get_match_length_safe env tok (ip + 2) op m He Hm); lia|].
  intros [ip'|[len ip']] m1 [-> Hlen].
  { apply wp_ret. split; [reflexivity|]. unfold in_span. lia. }
  eapply wp_mono; [apply copy_safe; try done|].
  - unfold MAX_DISTANCE, MAXD_LOG. lia.
  - unfold in_span. lia.
  - intros Hc. rewrite Hc in Eck. simpl in Eck. zbool. lia.
  - intros r m2 [F Hr]. split; [solve_frame|]. unfold in_span.
    destruct Hr as [->|[-> Hr]]; lia.
Qed.

Lemma decode_sequence_safe env (ip op : Z) m :
  safe_env env → safe_mem env m →
  de_source env ≤ ip ≤ de_source env + in_span env - 2 →
  de_dest env ≤ op ≤ Z.max (de_dest env) (oend env) →
  wp (decode_sequence env ip op) (safe_post env ip m) m.
Proof.
  intros He Hm Hip Hop. unfold decode_sequence.
  pose proof (sm_src env m Hm) as Hs. pose proof (sm_dst env m Hm) as Hd. simpl in Hd.
  pose proof (sf_src env He). pose proof (sf_dst env He). pose proof (sf_low env He).
  pose proof (sf_src_room env He). pose proof (sf_dst_room env He).
  destruct (Hs ip ltac:(lia)) as [b Hb].
  apply wp_bind. eapply wp_load8; [done|]. pose proof (b2z_range b).
  eapply wp_seq; [apply (get_literal_length_safe env (b2z b) (ip + 1) op m He Hm); lia|].
  intros [ip'|[len ip']] m1 [-> Hlen]; [done|].
  change RUN_MASK with 15 in *. unfold in_span in *.
  destruct ((endOnInput env && _) || _) eqn:Eg.
  { eapply wp_mono; [apply last_literals_safe; try done; unfold in_span; lia|].
    intros r m' [F Hr]. split; [done|]. destruct r; lia. }
  rewrite (sf_end env He) in Eg. simpl in Eg. rewrite !padd_exact in * by lia. zbool.
  assert (op + len ≤ oend env - 12) as Hcpy.
  { pose proof (sf_exit env He) as Hx. unfold MFLIMIT, COPYLENGTH, MINMATCH in *.
    destruct (partialDecoding env); [specialize (Hx eq_refl)|]; lia. }
  unfold LASTLITERALS, MAX_DISTANCE, MAXD_LOG in *.
  pose proof (wild_end_bounds op (op + len)).
  wp_apply wildCopy_spec; [solve_mapped..|]. intros _ m1 [F C].
  eapply wp_mono; [apply decode_match_safe; try done|].
  - by eapply safe_mem_frame.
  - lia.
  - unfold MFLIMIT, COPYLENGTH, MINMATCH. lia.
  - intros r m2 [F2 Hr]. split; [solve_frame|]. destruct r; unfold in_span in *; lia.
Qed.

Lemma decode_loop_safe (fuel : nat) env (ip op : Z) m :
  safe_env env → safe_mem env m → (Z.to_nat (iend env - ip) < fuel)%nat →
  de_source env ≤ ip ≤ de_source env + in_span env - 2 →
  de_dest env ≤ op ≤ Z.max (de_dest env) (oend env) →
  wp (decode_loop fuel env ip op)
     (λ r m', frame (de_dest env) (Z.max (de_dest env) (oend env)) m m' ∧
        - in_span env - 1 ≤ r ≤ Z.max 0 (oend env - de_dest env)) m.
Proof.
  intros He. revert ip op m. induction fuel as [|fuel IH]; intros ip op m Hm Hf Hip Hop; [lia|].
  simpl. eapply wp_seq; [by apply decode_sequence_safe|].
  intros r m1 [F Hr]. destruct r as [ip' op'|ip' op'|ip'].
  - eapply wp_mono; [apply IH|].
    + by eapply safe_mem_frame.
    + lia.
    + unfold in_span in *. lia.
    + lia.
    + intros r m2 [F2 Hr2]. split; [solve_frame|done].
  - apply wp_ret. rewrite (sf_end env He). unfold in_span. split; [done|]. lia.
  - apply wp_ret. split; [done|]. unfold in_span in *. lia.
Qed.

End safety.

(** * Decoding well-formed blocks *)

Section valid.
Context {arch : Arch}.
Implicit Types (m : mem) (env : dec_env).

Lemma literal_length_loop_valid (fuel : nat) env (ip length n : Z) m :
  0 ≤ n → 0 ≤ length → length + n < 2 ^ ptr_bits →
  (Z.to_nat (n / 255) < fuel)%nat → bytes_at m ip (len_ext n) →
  (endOnInput env = true → ip + zlen (len_ext n) ≤ iend env - RUN_MASK) →
  wp (literal_length_loop fuel env ip length)
     (λ r m', m' = m ∧ r = (length + n, ip + zlen (len_ext n))) m.
Proof.
  revert ip length n. induction fuel as [|fuel IH]; intros ip length n Hn Hl Hw Hf Hb Hi; [lia|].
  simpl. destruct (decide (n < 255)).
  - rewrite len_ext_small in * by lia. destruct Hb as [Hb _].
    apply wp_bind. eapply wp_load8; [done|]. rewrite b2z_z2b_small, usize_small by lia.
    assert ((n =? 255) = false) as -> by (apply Z.eqb_neq; lia). rewrite andb_false_r.
    apply wp_ret. done.
  - rewrite len_ext_step in * by lia. destruct Hb as [Hb Hbs].
    rewrite length_cons in Hi |- *.
    pose proof (length_len_ext (n - 255) ltac:(lia)).
    apply wp_bind. eapply wp_load8; [done|]. change (b2z xff) with 255.
    rewrite usize_small by lia.
    assert ((if endOnInput env then ip + 1 <? iend env - RUN_MASK else true) = true) as ->.
    { destruct (endOnInput env); [|done]. apply Z.ltb_lt. specialize (Hi eq_refl).
      assert (0 ≤ (n - 255) / 255) by (apply Z.div_pos; lia). lia. }
    simpl. eapply wp_mono; [apply (IH (ip + 1) (length + 255) (n - 255)); try lia|].
    + zdiv.
    + done.
    + intros He. specialize (Hi He). lia.
    + intros r m' [-> ->]. split; [done|]. f_equal; lia.
Qed.

Lemma match_length_loop_valid (fuel : nat) env (ip length n : Z) m :
  0 ≤ n → 0 ≤ length → length + n < 2 ^ ptr_bits →
  (Z.to_nat (n / 255) < fuel)%nat → bytes_at m ip (len_ext n) →
  (endOnInput env = true → ip + zlen (len_ext n) ≤ iend env - 4) →
  wp (match_length_loop fuel env ip length)
     (λ r m', m' = m ∧ r = inr (length + n, ip + zlen (len_ext n))) m.
Proof.
  revert ip length n. induction fuel as [|fuel IH]; intros ip length n Hn Hl Hw Hf Hb Hi; [lia|].
  simpl. pose proof (length_len_ext n Hn). assert (0 ≤ n / 255) by (apply Z.div_pos; lia).
  assert ((endOnInput env && (ip >? iend env - LASTLITERALS)) = false) as ->.
  { destruct (endOnInput env); [|done]. specialize (Hi eq_refl). simpl.
    unfold LASTLITERALS. rewrite Z.gtb_ltb. apply Z.ltb_ge. lia. }
  destruct (decide (n < 255)).
  - rewrite len_ext_small in * by lia. destruct Hb as [Hb _].
    apply wp_bind. eapply wp_load8; [done|]. rewrite b2z_z2b_small, usize_small by lia.
    assert ((n =? 255) = false) as -> by (apply Z.eqb_neq; lia).
    apply wp_ret. done.
  - rewrite len_ext_step in * by lia. destruct Hb as [Hb Hbs].
    rewrite length_cons in Hi |- *.
    apply wp_bind. eapply wp_load8; [done|]. change (b2z xff) with 255.
    rewrite usize_small by lia.
    simpl. eapply wp_mono; [apply (IH (ip + 1) (length + 255) (n - 255)); try lia|].
    + zdiv.
    + done.
    + intros He. specialize (Hi He). lia.
    + intros r m' [-> ->]. split; [done|]. do 2 f_equal; lia.
Qed.

Lemma get_literal_length_valid env (L ML ip op : Z) m :
  0 ≤ L → 0 ≤ ML → L < Z.of_nat (len_fuel env) →
  0 ≤ ip → 0 ≤ op → op + L < 2 ^ ptr_bits →
  ip + zlen (nibble_ext L) + L < 2 ^ ptr_bits →
  bytes_at m ip (nibble_ext L) →
  (endOnInput env = true → ip + zlen (nibble_ext L) + L ≤ iend env) →
  wp (get_literal_length env (b2z (token L ML)) ip op)
     (λ r m', m' = m ∧ r = inr (L, ip + zlen (nibble_ext L))) m.
Proof.
  intros HL HML Hf Hip Hop Hopw Hipw Hb Hi. unfold get_literal_length.
  rewrite token_lit by done. unfold nibble_ext in *. change RUN_MASK with 15.
  destruct (Z.ltb_spec L 15) as [Hs|Hs].
  - rewrite Z.min_l by lia. assert ((L =? 15) = false) as -> by (apply Z.eqb_neq; lia).
    apply wp_ret. simpl. by rewrite Z.add_0_r.
  - rewrite Z.min_r by lia. simpl. pose proof (length_len_ext (L - 15) ltac:(lia)).
    assert (0 ≤ (L - 15) / 255) by (apply Z.div_pos; lia).
    eapply wp_seq; [apply (literal_length_loop_valid _ env ip 15 (L - 15) m); try lia|].
    + zdiv.
    + done.
    + intros He. specialize (Hi He). change RUN_MASK with 15. lia.
    + intros [l ip'] m' [-> [= -> ->]]. rewrite !no_overflow by lia. rewrite andb_false_r.
      apply wp_ret. split; [done|]. do 2 f_equal. lia.
Qed.

Lemma get_match_length_valid env (L ML ip op : Z) m :
  0 ≤ L → 0 ≤ ML → ML < Z.of_nat (len_fuel env) →
  0 ≤ op → op + ML + 4 < 2 ^ ptr_bits →
  bytes_at m ip (nibble_ext ML) →
  (endOnInput env = true → ip + zlen (nibble_ext ML) ≤ iend env - 4) →
  wp (get_match_length env (b2z (token L ML)) ip op)
     (λ r m', m' = m ∧ r = inr (ML + 4, ip + zlen (nibble_ext ML))) m.
Proof.
  intros HL HML Hf Hop Hopw Hb Hi. unfold get_match_length, MINMATCH.
  rewrite token_match by done. unfold nibble_ext in *. change ML_MASK with 15.
  destruct (Z.ltb_spec ML 15) as [Hs|Hs].
  - rewrite Z.min_l by lia. assert ((ML =? 15) = false) as -> by (apply Z.eqb_neq; lia).
    apply wp_ret. simpl. rewrite Z.add_0_r, usize_small by lia. done.
  - rewrite Z.min_r by lia. simpl. pose proof (length_len_ext (ML - 15) ltac:(lia)).
    eapply wp_seq; [apply (match_length_loop_valid _ env ip 15 (ML - 15) m); try lia|].
    + zdiv.
    + done.
    + done.
    + intros r m' [-> ->]. rewrite no_overflow by lia. rewrite andb_false_r.
      rewrite usize_small by lia. apply wp_ret. split; [done|]. do 2 f_equal. lia.
Qed.

(** The text [o], history included, is in memory from the address [d0] of the
    text on. *)
Definition text_at env m (d0 : Z) (o : list byte) : Prop :=
  ∀ j b, o !! j = Some b → m !! vaddr env (d0 + Z.of_nat j) = Some b.

Lemma text_at_mapped env m (d0 a : Z) (o : list byte) :
  text_at env m d0 o → d0 ≤ a < d0 + zlen o → is_Some (m !! vaddr env a).
Proof.
  intros Ht Ha. destruct (lookup_lt_is_Some_2 o (Z.to_nat (a - d0))) as [b Hb]; [lia|].
  apply Ht in Hb. replace (d0 + Z.of_nat (Z.to_nat (a - d0))) with a in Hb by lia. by eexists.
Qed.

(** A destination that holds no byte of the history. *)
Definition hist_apart env (d0 : Z) : Prop :=
  is_usingExtDict (de_dict env) = true →
  dictEnd env ≤ de_dest env ∨ oend env ≤ dictEnd env - (lowPrefix env - d0).

Lemma vaddr_apart env (d0 a op : Z) :
  hist_apart env d0 → lowPrefix env ≤ de_dest env → de_dest env ≤ op → d0 ≤ a < op →
  vaddr env a < op ∨ oend env ≤ vaddr env a.
Proof.
  intros Hh Hl Ho Ha. unfold vaddr, hist_apart in *.
  destruct (is_usingExtDict (de_dict env)); simpl; [|lia].
  destruct (Z.ltb_spec a (lowPrefix env)); [|lia].
  destruct (Hh eq_refl); lia.
Qed.

Lemma text_at_frame env m m' (d0 op : Z) (o : list byte) :
  text_at env m d0 o → frame op (oend env) m m' →
  hist_apart env d0 → lowPrefix env ≤ de_dest env → de_dest env ≤ op → d0 + zlen o ≤ op →
  text_at env m' d0 o.
Proof.
  intros Ht F Hh Hl Ho Hend j b Hj. pose proof (lookup_lt_Some _ _ _ Hj).
  rewrite (frame_eq _ _ _ _ F); [by apply Ht|].
  apply (vaddr_apart env d0); try done. lia.
Qed.

Lemma text_at_app env m (d0 : Z) (o l : list byte) :
  text_at env m d0 o → lowPrefix env ≤ d0 + zlen o → bytes_at m (d0 + zlen o) l →
  text_at env m d0 (o ++ l).
Proof.
  intros Ht Hlow Hb j b Hj. apply lookup_app_Some in Hj as [Hj|[Hj Hl]]; [by apply Ht|].
  rewrite vaddr_high by lia. rewrite bytes_at_lookup in Hb.
  apply Hb in Hl. rewrite <- Hl. f_equal. lia.
Qed.

(** The memory after a match was copied holds the text with the match. *)
Lemma text_at_copy_back env m (d0 off : Z) (n : nat) (o o' : list byte) :
  text_at env m d0 o → lowPrefix env ≤ d0 + zlen o →
  copy_back n off o = Some o' →
  (∀ i, d0 + zlen o ≤ i < d0 + zlen o + Z.of_nat n → m !! i = m !! vaddr env (i - off)) →
  text_at env m d0 o'.
Proof.
  intros Ht Hlow Hc Hm j b Hj. pose proof (copy_back_length _ _ _ _ Hc) as Hlen.
  pose proof (copy_back_prefix _ _ _ _ Hc) as [k Hk].
  assert (Hend : (j < length o')%nat) by (by eapply lookup_lt_Some).
  revert b Hj Hend. induction (lt_wf j) as [j _ IH]. intros b Hj Hend.
  destruct (decide (j < length o)%nat).
  { apply Ht. by rewrite Hk, lookup_app_l in Hj. }
  assert (0 < n)%nat by lia. pose proof (copy_back_offset n off o o' ltac:(lia) Hc).
  rewrite vaddr_high, Hm by lia.
  pose proof (copy_back_lookup n off o o' (Z.of_nat j) Hc ltac:(lia)) as E.
  rewrite Nat2Z.id, Hj in E.
  specialize (IH (Z.to_nat (Z.of_nat j - off)) ltac:(lia) b (eq_sym E) ltac:(lia)).
  rewrite <- IH. do 2 f_equal. lia.
Qed.

(** A decoder that can be pointed at a well-formed block: [d0] is the address of
    the first byte of the history, [src_end] the end of the block. *)
Record valid_env env (d0 src_end : Z) : Prop := {
  v_full : partialDecoding env = false;
  v_dst : 0 ≤ de_dest env;
  v_hist : d0 ≤ de_dest env;
  v_low : lowPrefix env ≤ de_dest env;
  v_low0 : is_usingExtDict (de_dict env) = true → 0 ≤ lowPrefix env;
  v_limit : checkOffset env = true → lowLimit env ≤ d0;
  v_apart : hist_apart env d0;
  v_dst_wrap : oend env < 2 ^ ptr_bits;
  v_src : 0 ≤ de_source env;
  v_src_wrap : src_end < 2 ^ ptr_bits;
  v_iend : endOnInput env = true → iend env = src_end;
  v_fuel : oend env - de_dest env < Z.of_nat (len_fuel env);
  v_disjoint : src_end ≤ de_dest env ∨ oend env ≤ de_source env
}.

(** The destination with the part of the text before it that is not in the
    external dictionary. *)
Lemma mapped_prefix env m (d0 : Z) (o : list byte) (lo : Z) :
  text_at env m d0 o → de_dest env ≤ d0 + zlen o → d0 ≤ lo → lowPrefix env ≤ lo →
  mapped m (de_dest env) (oend env - de_dest env) → mapped m lo (oend env - lo).
Proof.
  intros Ht Hd Hd0 Hlo Hm i Hi. destruct (decide (i < de_dest env)).
  - destruct (text_at_mapped env m d0 i o Ht) as [b Hb]; [lia|].
    rewrite vaddr_high in Hb by lia. by eexists.
  - apply Hm. lia.
Qed.

(** The copy of a match whose offset lies in the text. *)
Lemma copy_valid env (d0 src_end ip op off : Z) (n : nat) (o o' : list byte) m :
  valid_env env d0 src_end → text_at env m d0 o → op = d0 + zlen o → de_dest env ≤ op →
  mapped m (de_dest env) (oend env - de_dest env) → off ≤ MAX_DISTANCE →
  copy_back n off o = Some o' → 4 ≤ Z.of_nat n →
  op + Z.of_nat n ≤ oend env - LASTLITERALS → op ≤ oend env - MFLIMIT →
  wp (if is_usingExtDict (de_dict env) && (op - off <? lowPrefix env)
      then copy_extDict env ip op (op - off) (Z.of_nat n)
      else copy_repeated env ip op (op - off) (Z.of_nat n))
     (λ r m', frame op (oend env) m m' ∧ r = DContinue ip (op + Z.of_nat n) ∧
        text_at env m' d0 o') m.
Proof.
  intros He Ht Hop Hdop Hm Hoff Hc Hn Hend Hmf.
  pose proof (copy_back_offset n off o o' ltac:(lia) Hc) as Ho.
  pose proof (v_dst _ _ _ He). pose proof (v_low _ _ _ He). pose proof (v_dst_wrap _ _ _ He).
  pose proof (v_hist _ _ _ He). pose proof (v_apart _ _ _ He) as Hap.
  unfold LASTLITERALS, MFLIMIT, COPYLENGTH, MINMATCH, MAX_DISTANCE, MAXD_LOG in *.
  pose proof ptr_bits_large.
  assert (Hfin : ∀ m', frame op (oend env) m m' →
    (∀ i, op ≤ i < op + Z.of_nat n → m' !! i = m' !! vaddr env (i - off)) →
    text_at env m' d0 o').
  { intros m' F C. eapply text_at_copy_back; [| |exact Hc|]; [|lia|by rewrite <- Hop].
    eapply text_at_frame; [done..|lia]. }
  destruct (is_usingExtDict (de_dict env) && (op - off <? lowPrefix env)) eqn:E.
  - apply andb_true_iff in E as [E Elt]. apply Z.ltb_lt in Elt.
    assert (de_dict env = usingExtDict) as Hde by (by destruct (de_dict env)).
    pose proof (v_low0 _ _ _ He E).
    eapply wp_mono; [apply copy_extDict_spec; try done; try lia|].
    + intros i Hi. rewrite vaddr_ext in Hi by done.
      destruct (text_at_mapped env m d0 (lowPrefix env - (dictEnd env - i)) o Ht) as [b Hb]; [lia|].
      rewrite vaddr_ext in Hb by (done || lia).
      replace (dictEnd env - (lowPrefix env - (lowPrefix env - (dictEnd env - i)))) with i in Hb by lia.
      by eexists.
    + apply (mapped_prefix env m d0 o (lowPrefix env)); try done; lia.
    + intros r m' [F [[-> Hr]|(-> & _ & C)]]; [unfold LASTLITERALS in *; lia|].
      split_and!; [done..|]. apply Hfin; [done|]. apply C.
      rewrite vaddr_ext by done. destruct (Hap E); lia.
  - eapply wp_mono; [apply copy_repeated_spec; try lia|].
    + destruct (is_usingExtDict (de_dict env)) eqn:Ed; simpl in E.
      * apply Z.ltb_ge in E. apply (mapped_prefix env m d0 o (op - off)); try done; lia.
      * intros i Hi. destruct (decide (i < op)).
        -- destruct (text_at_mapped env m d0 i o Ht) as [b Hb]; [lia|].
           unfold vaddr in Hb. rewrite Ed in Hb. by eexists.
        -- apply Hm. lia.
    + intros r m' [F [[-> Hr]|(-> & _ & C)]]; [unfold LASTLITERALS in *; lia|].
      split_and!; [done..|]. apply Hfin; [done|]. intros i Hi.
      rewrite (C ltac:(lia) i) by lia. f_equal. symmetry.
      destruct (is_usingExtDict (de_dict env)) eqn:Ed; simpl in E.
      * apply Z.ltb_ge in E. apply vaddr_high. lia.
      * unfold vaddr. by rewrite Ed.
Qed.

Lemma decode_match_valid env (d0 src_end ip op L : Z) (s : sequence) (o o' : list byte) m :
  valid_env env d0 src_end → text_at env m d0 o → op = d0 + zlen o → de_dest env ≤ op →
  mapped m (de_dest env) (oend env - de_dest env) →
  bytes_at m ip (le_bytes 2 (sq_off s) ++ nibble_ext (sq_mlen s - MINMATCH)) →
  ip + 2 + zlen (nibble_ext (sq_mlen s - MINMATCH)) ≤ src_end - 6 →
  0 ≤ L → MINMATCH ≤ sq_mlen s → 1 ≤ sq_off s ≤ MAX_DISTANCE →
  copy_back (Z.to_nat (sq_mlen s)) (sq_off s) o = Some o' →
  op + sq_mlen s ≤ oend env - LASTLITERALS → op ≤ oend env - MFLIMIT →
  wp (decode_match env (b2z (token L (sq_mlen s - MINMATCH))) ip op)
     (λ r m', frame op (oend env) m m' ∧
        r = DContinue (ip + 2 + zlen (nibble_ext (sq_mlen s - MINMATCH))) (op + sq_mlen s) ∧
        text_at env m' d0 o') m.
Proof.
  intros He Ht Hop Hdop Hm Hb Hsrc HL Hml Hoff Hc Hend Hmf. unfold decode_match.
  pose proof (v_dst _ _ _ He). pose proof (v_dst_wrap _ _ _ He). pose proof (v_fuel _ _ _ He).
  unfold LASTLITERALS, MFLIMIT, COPYLENGTH, MINMATCH, MAX_DISTANCE, MAXD_LOG in *.
  pose proof (copy_back_offset (Z.to_nat (sq_mlen s)) (sq_off s) o o' ltac:(lia) Hc) as Hofl.
  rewrite bytes_at_app, length_le_bytes in Hb. destruct Hb as [Hofs Hmext].
  eapply wp_seq; [apply readLE16_spec; exact Hofs|]. intros off m1 [-> Eoff].
  change [_; _] with (le_bytes 2 (sq_off s)) in Eoff.
  rewrite le_val_le_bytes, Z.mod_small in Eoff by (simpl; lia). subst off.
  assert ((checkOffset env && (op - sq_off s <? lowLimit env)) = false) as ->.
  { destruct (checkOffset env) eqn:Eck; [|done]. simpl. apply Z.ltb_ge.
    pose proof (v_limit _ _ _ He Eck). lia. }
  eapply wp_seq; [apply (get_match_length_valid env L (sq_mlen s - 4) (ip + 2) op m); try lia|].
  { done. }
  { intros Hi. rewrite (v_iend _ _ _ He Hi). lia. }
  intros r m1 [-> ->]. replace (sq_mlen s - 4 + 4) with (sq_mlen s) by lia.
  pose proof (copy_valid env d0 src_end (ip + 2 + zlen (nibble_ext (sq_mlen s - 4))) op (sq_off s)
    (Z.to_nat (sq_mlen s)) o o' m He Ht Hop Hdop Hm) as Hcp.
  rewrite Z2Nat.id in Hcp by lia. apply Hcp; try done;
    unfold LASTLITERALS, MFLIMIT, COPYLENGTH, MINMATCH, MAX_DISTANCE, MAXD_LOG; lia.
Qed.

Lemma decode_sequence_valid env (d0 src_end ip op : Z) (s : sequence)
    (seqs : list sequence) (l o o1 o2 : list byte) m :
  valid_env env d0 src_end → text_at env m d0 o → op = d0 + zlen o → de_dest env ≤ op →
  mapped m (de_dest env) (oend env - de_dest env) →
  de_source env ≤ ip → ip + zlen (block (s :: seqs) l) = src_end →
  bytes_at m ip (block (s :: seqs) l) → end_ok (s :: seqs) l →
  apply_seq o s = Some o1 → apply_seqs o1 seqs = Some o2 →
  d0 + zlen o2 + zlen l ≤ oend env →
  wp (decode_sequence env ip op)
     (λ r m', frame op (oend env) m m' ∧
        r = DContinue (ip + zlen (ser_seq s)) (d0 + zlen o1) ∧ text_at env m' d0 o1) m.
Proof.
  intros He Ht Hop Hdop Hm Hip Hsrc Hb Hok Ha Has Hend.
  pose proof (apply_seq_length _ _ _ Ha) as (Hl1 & Hml & Hoff).
  pose proof (end_ok_first _ _ _ _ _ Hok Has Hml) as [Hlast Hmf].
  pose proof (length_block_after _ _ _ Hok) as Hafter.
  pose proof (v_dst _ _ _ He). pose proof (v_dst_wrap _ _ _ He). pose proof (v_src _ _ _ He).
  pose proof (v_src_wrap _ _ _ He). pose proof (v_fuel _ _ _ He). pose proof (v_low _ _ _ He).
  pose proof (v_disjoint _ _ _ He) as Hdis. pose proof (v_hist _ _ _ He).
  cbn [block] in Hsrc, Hb. rewrite length_app, Nat2Z.inj_add, length_ser_seq in Hsrc.
  set (L := zlen (sq_lits s)) in *. set (ML := sq_mlen s - MINMATCH) in *.
  unfold MFLIMIT, COPYLENGTH, LASTLITERALS, MINMATCH in *.
  assert (Hsm : mapped m ip (src_end - ip)).
  { eapply mapped_sub; [exact (bytes_at_mapped _ _ _ Hb)|lia|].
    rewrite length_app, Nat2Z.inj_add, length_ser_seq. fold L. unfold MINMATCH. fold ML. lia. }
  (* the fields of the sequence in memory *)
  rewrite bytes_at_app in Hb. destruct Hb as [Hb _]. unfold ser_seq in Hb.
  fold L in Hb. unfold MINMATCH in Hb. fold ML in Hb.
  cbn [bytes_at app] in Hb. destruct Hb as [Htok Hb].
  rewrite !bytes_at_app, length_le_bytes in Hb. destruct Hb as (Hext & Hlits & Hofs & Hmext).
  fold L in Hofs, Hmext. set (E1 := zlen (nibble_ext L)) in *. set (E2 := zlen (nibble_ext ML)) in *.
  unfold decode_sequence. apply wp_bind. eapply wp_load8; [exact Htok|].
  eapply wp_seq; [apply (get_literal_length_valid env L ML (ip + 1) op m); try lia|].
  { done. }
  { intros Hi. rewrite (v_iend _ _ _ He Hi). fold E1. lia. }
  intros r m1 [-> ->]. fold E1. rewrite !padd_exact by lia.
  assert (endOnInput env = true → iend env = src_end) as Hiend by apply He.
  assert (((endOnInput env &&
      ((op + L >? (if partialDecoding env then oexit env else oend env - MFLIMIT)) ||
       (ip + 1 + E1 + L >? iend env - (2 + 1 + LASTLITERALS)))) ||
     (negb (endOnInput env) && (op + L >? oend env - COPYLENGTH))) = false) as ->.
  { rewrite (v_full _ _ _ He). unfold MFLIMIT, COPYLENGTH, LASTLITERALS, MINMATCH.
    rewrite !Z.gtb_ltb. apply orb_false_iff.
    destruct (endOnInput env); simpl; split; try done.
    - specialize (Hiend eq_refl). apply orb_false_iff. split; apply Z.ltb_ge; lia.
    - apply Z.ltb_ge. lia. }
  pose proof (wild_end_bounds op (op + L)) as Hwb.
  wp_apply wildCopy_spec; [solve_mapped..|]. intros _ m1 [F1 C1].
  assert (F1' : frame op (oend env) m m1) by solve_frame.
  assert (Ht1 : text_at env m1 d0 (o ++ sq_lits s)).
  { apply text_at_app; [eapply text_at_frame; try done; [apply He|lia]|lia|].
    rewrite <- Hop. eapply bytes_at_copy; [|exact Hlits]. intros i Hi. fold L in Hi.
    rewrite (C1 ltac:(lia)) by lia. rewrite (frame_eq _ _ _ _ F1) by lia. f_equal. lia. }
  eapply wp_mono; [apply (decode_match_valid env d0 src_end (ip + 1 + E1 + L) (op + L) L s
    (o ++ sq_lits s) o1 m1); try done|].
  - rewrite length_app. lia.
  - lia.
  - solve_mapped.
  - rewrite bytes_at_app, length_le_bytes.
    split; (eapply bytes_at_frame; [exact F1| |done]);
      rewrite ?length_le_bytes; unfold MINMATCH; fold ML E2; lia.
  - unfold MINMATCH. fold ML E2. lia.
  - lia.
  - lia.
  - unfold apply_seq in Ha. by case_match.
  - unfold LASTLITERALS. lia.
  - unfold MFLIMIT, COPYLENGTH, MINMATCH. lia.
  - intros r m2 (F2 & -> & Ht2). split_and!; [solve_frame| |done].
    rewrite length_ser_seq. fold L E1. unfold MINMATCH. fold ML E2. f_equal; lia.
Qed.

Lemma decode_last_valid env (d0 src_end ip op : Z) (l o : list byte) m :
  valid_env env d0 src_end → text_at env m d0 o → op = d0 + zlen o → de_dest env ≤ op →
  mapped m (de_dest env) (oend env - de_dest env) →
  de_source env ≤ ip → ip + zlen (ser_last l) = src_end → bytes_at m ip (ser_last l) →
  op + zlen l ≤ oend env → (endOnInput env = false → op + zlen l = oend env) →
  wp (decode_sequence env ip op)
     (λ r m', frame op (oend env) m m' ∧ r = DBreak src_end (op + zlen l) ∧
        text_at env m' d0 (o ++ l)) m.
Proof.
  intros He Ht Hop Hdop Hm Hip Hsrc Hb Hend Hfast. rewrite length_ser_last in Hsrc.
  set (L := zlen l) in *.
  pose proof (v_dst _ _ _ He). pose proof (v_dst_wrap _ _ _ He). pose proof (v_src _ _ _ He).
  pose proof (v_src_wrap _ _ _ He). pose proof (v_fuel _ _ _ He). pose proof (v_low _ _ _ He).
  pose proof (v_disjoint _ _ _ He) as Hdis. pose proof (v_hist _ _ _ He).
  unfold ser_last in Hb. cbn [bytes_at] in Hb. destruct Hb as [Htok Hb].
  rewrite bytes_at_app in Hb. destruct Hb as [Hext Hlits]. fold L in Htok, Hext, Hlits.
  set (E1 := zlen (nibble_ext L)) in *.
  unfold decode_sequence. apply wp_bind. eapply wp_load8; [exact Htok|].
  eapply wp_seq; [apply (get_literal_length_valid env L 0 (ip + 1) op m); try lia|].
  { done. }
  { intros Hi. rewrite (v_iend _ _ _ He Hi). fold E1. lia. }
  intros r m1 [-> ->]. fold E1. rewrite !padd_exact by lia.
  assert (endOnInput env = true → iend env = src_end) as Hiend by apply He.
  assert (((endOnInput env &&
      ((op + L >? (if partialDecoding env then oexit env else oend env - MFLIMIT)) ||
       (ip + 1 + E1 + L >? iend env - (2 + 1 + LASTLITERALS)))) ||
     (negb (endOnInput env) && (op + L >? oend env - COPYLENGTH))) = true) as ->.
  { unfold LASTLITERALS, COPYLENGTH. rewrite !Z.gtb_ltb. apply orb_true_iff.
    destruct (endOnInput env); simpl; [left|right].
    - specialize (Hiend eq_refl). apply orb_true_iff. right. apply Z.ltb_lt. lia.
    - specialize (Hfast eq_refl). apply Z.ltb_lt. lia. }
  unfold last_literals. rewrite (v_full _ _ _ He), !padd_exact by lia.
  assert (((negb (endOnInput env) && negb (op + L =? oend env)) ||
      (endOnInput env && (negb (ip + 1 + E1 + L =? iend env) || (op + L >? oend env)))) = false) as ->.
  { rewrite Z.gtb_ltb. destruct (endOnInput env); simpl.
    - specialize (Hiend eq_refl). apply orb_false_iff. split; [|apply Z.ltb_ge; lia].
      apply negb_false_iff, Z.eqb_eq. lia.
    - specialize (Hfast eq_refl). rewrite orb_false_r. apply negb_false_iff, Z.eqb_eq. lia. }
  wp_apply memcpy_spec; [lia|solve_mapped..|]. intros _ m1 [F1 C1]. apply wp_ret.
  assert (F1' : frame op (oend env) m m1) by solve_frame.
  split_and!; [done|f_equal; lia|].
  apply text_at_app; [eapply text_at_frame; [done|exact F1'|apply He|done..|lia]|lia|].
  rewrite <- Hop. eapply bytes_at_copy; [|exact Hlits]. intros i Hi. apply C1. lia.
Qed.

Lemma decode_loop_valid (fuel : nat) env (d0 src_end ip op : Z)
    (seqs : list sequence) (l o o2 : list byte) m :
  valid_env env d0 src_end → text_at env m d0 o → op = d0 + zlen o → de_dest env ≤ op →
  mapped m (de_dest env) (oend env - de_dest env) →
  de_source env ≤ ip → ip + zlen (block seqs l) = src_end →
  bytes_at m ip (block seqs l) → end_ok seqs l → apply_seqs o seqs = Some o2 →
  d0 + zlen o2 + zlen l ≤ oend env →
  (endOnInput env = false → d0 + zlen o2 + zlen l = oend env) →
  (length seqs < fuel)%nat →
  wp (decode_loop fuel env ip op)
     (λ r m', frame op (oend env) m m' ∧ text_at env m' d0 (o2 ++ l) ∧
        r = if endOnInput env then d0 + zlen o2 + zlen l - de_dest env
            else src_end - de_source env) m.
Proof.
  intros He. revert ip op seqs o m. induction fuel as [|fuel IH];
    intros ip op seqs o m Ht Hop Hdop Hm Hip Hsrc Hb Hok Ha Hend Hfast Hf; [lia|]. simpl.
  destruct seqs as [|s seqs]; simpl in Ha.
  - injection Ha as <-.
    eapply wp_seq; [apply (decode_last_valid env d0 src_end ip op l o m); try done; try lia|].
    { intros Hi. specialize (Hfast Hi). lia. }
    intros r m1 (F & -> & Ht1). apply wp_ret. split_and!; [done..|].
    destruct (endOnInput env); lia.
  - destruct (apply_seq o s) as [o1|] eqn:Es; [|done].
    pose proof (apply_seq_length _ _ _ Es) as (Hl1 & Hml & _).
    pose proof (apply_seqs_length_le _ _ _ Ha). unfold MINMATCH in *.
    eapply wp_seq; [by apply (decode_sequence_valid env d0 src_end ip op s seqs l o o1 o2 m)|].
    intros r m1 (F & -> & Ht1). cbn [block] in Hsrc, Hb.
    rewrite length_app, Nat2Z.inj_add in Hsrc. rewrite bytes_at_app in Hb. destruct Hb as [_ Hb].
    pose proof (v_disjoint _ _ _ He) as Hdis.
    eapply wp_mono; [apply (IH _ _ seqs o1); try done; try lia|].
    + solve_mapped.
    + eapply bytes_at_frame; [done| |done]. lia.
    + by eapply end_ok_tail.
    + simpl in Hf. lia.
    + intros r m2 (F2 & Ht2 & Hr). split_and!; [solve_frame|done..].
Qed.

End valid.
