(* ===== verification/Lz4DecompressApi.v ===== *)
(** The theorems about the decompression entry points of lz4.h.

    Each entry point is [LZ4_decompress_generic] at some directives; the
    generic results of [Lz4DecompressProofs] are instantiated once, for the
    checking decoders and for well-formed blocks, and then for each entry
    point. *)

From Stdlib Require Import ZArith Lia Strings.Byte.
From stdpp Require Import base gmap list fin_maps numbers.
From S2P Require Import Prelude Mem Lz4Common Lz4Format Lz4Decompress Lz4DecompressProofs.

(** * Where the buffers may lie *)

(** The input span, the destination and the lengths an input of that size can
    encode fit in the address space. *)
Definition addressable {arch : Arch} (source dest inputSize outputSize : Z) : Prop :=
  0 ≤ source ∧ 0 ≤ dest ∧
  source + 256 * Z.max 2 inputSize + 300 ≤ 2 ^ ptr_bits ∧
  dest + Z.max 0 outputSize + 255 * Z.max 2 inputSize + 300 ≤ 2 ^ ptr_bits.

(** The history of a block at [dest]: the bytes [hist] end where the block's
    text starts, the newest of them in the prefix from [lowPrefix] on, the
    older ones at the end of the external dictionary. *)
Definition hist_at (ext : bool) (lowPrefix dictEnd dest : Z) (hist : list byte) (m : mem) : Prop :=
  ∀ j b, hist !! j = Some b →
    let a := dest - zlen hist + Z.of_nat j in
    m !! (if ext && (a <? lowPrefix) then dictEnd - (lowPrefix - a) else a) = Some b.

(** Two ranges without a common address. *)
Definition apart (a n b k : Z) : Prop := a + n ≤ b ∨ b + k ≤ a.

(** The history stays when only the destination is written. *)
Lemma hist_at_frame (m m' : mem) (lowPrefix dictEnd dest n : Z) (h : list byte) :
  frame dest (dest + n) m m' →
  (dest + n ≤ dictEnd - (lowPrefix - (dest - zlen h)) ∨ dictEnd ≤ dest ∨ lowPrefix ≤ dest - zlen h) →
  hist_at true lowPrefix dictEnd dest h m → hist_at true lowPrefix dictEnd dest h m'.
Proof.
  intros F Hd Hh j b Hj. pose proof (lookup_lt_Some _ _ _ Hj).
  specialize (Hh j b Hj). cbv zeta in *. simpl in *.
  rewrite (frame_eq _ _ _ _ F); [done|].
  destruct (Z.ltb_spec (dest - zlen h + Z.of_nat j) lowPrefix); lia.
Qed.

(** The text decoded at [dest] joins the history of what is decoded next. *)
Lemma hist_at_app (m : mem) (lowPrefix dictEnd dest : Z) (h text : list byte) :
  hist_at true lowPrefix dictEnd dest h m → lowPrefix ≤ dest → bytes_at m dest text →
  hist_at true lowPrefix dictEnd (dest + zlen text) (h ++ text) m.
Proof.
  intros Hh Hl Hb j b Hj. rewrite length_app. cbv zeta.
  replace (dest + zlen text - Z.of_nat (length h + length text) + Z.of_nat j)
    with (dest - zlen h + Z.of_nat j) by lia.
  apply lookup_app_Some in Hj as [Hj|[Hge Hj]]; [by apply Hh|]. simpl.
  destruct (Z.ltb_spec (dest - zlen h + Z.of_nat j) lowPrefix); [lia|].
  rewrite bytes_at_lookup in Hb. rewrite <- (Hb _ _ Hj). f_equal. lia.
Qed.

Section generic.
Context {arch : Arch}.
Implicit Types (m : mem).

Lemma decompress_generic_safe m (source dest inputSize outputSize : Z)
    (pd : earlyEnd_directive) (target : Z) (dict : dict_directive)
    (lowPrefix dictStart dictSize : Z) :
  addressable source dest inputSize outputSize →
  lowPrefix ≤ dest → 0 ≤ dictSize →
  (if is_usingExtDict dict then 0 ≤ lowPrefix ∧ mapped m dictStart dictSize
   else dictSize = 0 ∨ lowPrefix ≤ dest - MAX_DISTANCE) →
  mapped m source (Z.max 2 inputSize) →
  mapped m (Z.max lowPrefix (dest - MAX_DISTANCE))
           (dest + outputSize - Z.max lowPrefix (dest - MAX_DISTANCE)) →
  wp (LZ4_decompress_generic source dest inputSize outputSize endOnInputSize pd target dict
        lowPrefix dictStart dictSize)
     (λ r m', frame dest (dest + Z.max 0 outputSize) m m' ∧
        - Z.max 2 inputSize - 1 ≤ r ≤ Z.max 0 outputSize) m.
Proof.
  intros (A1 & A2 & A3 & A4) Hlow Hds Hdict Hsrc Hdst. unfold LZ4_decompress_generic.
  set (fuel := S (Z.to_nat inputSize + Z.to_nat outputSize)). cbn [is_endOnInput andb negb].
  destruct (Z.eqb_spec outputSize 0) as [->|Hne].
  - case_if; zbool.
    + destruct (Hsrc source ltac:(lia)) as [b Hb]. apply wp_bind. eapply wp_load8; [done|].
      apply wp_ret. split; [reflexivity|]. case_if; lia.
    + apply wp_ret. split; [reflexivity|]. lia.
  - set (env := DecEnv _ _ _ _ _ _ _ _ _ _ _ _ _).
    assert (Hspan : in_span env = Z.max 2 inputSize).
    { unfold in_span, env. simpl. f_equal. lia. }
    eapply wp_mono; [apply (decode_loop_safe fuel env)|].
    + constructor; rewrite ?Hspan; simpl; try lia.
      * destruct pd; [done|]. intros _. cbn [is_partial andb].
        destruct (Z.gtb_spec (dest + target) (dest + outputSize - MFLIMIT)); lia.
      * destruct (is_usingExtDict dict); [by destruct Hdict|].
        destruct Hdict as [->|Hd]; [left|by right]. split; [lia|done].
    + constructor; rewrite ?Hspan; simpl; try done.
      intros He. rewrite He in Hdict. destruct Hdict as [_ Hd].
      solve_mapped.
    + simpl. lia.
    + rewrite Hspan. simpl. lia.
    + simpl. lia.
    + rewrite Hspan. simpl. intros r m' [F Hr]. split; [|lia].
      eapply frame_weaken; [done|lia..].
Qed.

Lemma decompress_generic_block m (source dest inputSize outputSize : Z)
    (ec : endCondition_directive) (dict : dict_directive)
    (lowPrefix dictStart dictSize : Z)
    (hist : list byte) (seqs : list sequence) (l text : list byte) :
  addressable source dest (zlen (block seqs l)) outputSize →
  lowPrefix ≤ dest → (is_usingExtDict dict = true → 0 ≤ lowPrefix) →
  bytes_at m source (block seqs l) → end_ok seqs l →
  block_text hist seqs l = Some text →
  hist_at (is_usingExtDict dict) lowPrefix (dictStart + dictSize) dest hist m →
  mapped m dest outputSize →
  apart source (zlen (block seqs l)) dest outputSize →
  (is_usingExtDict dict = true →
   apart dest outputSize (dictStart + dictSize - (lowPrefix - (dest - zlen hist)))
         (lowPrefix - (dest - zlen hist))) →
  (is_endOnInput ec = true → dictSize < KB 64 → lowPrefix - dictSize ≤ dest - zlen hist) →
  (if is_endOnInput ec then inputSize = zlen (block seqs l) ∧ zlen text ≤ outputSize ∧ 0 < outputSize
   else outputSize = zlen text ∧ 0 < outputSize) →
  wp (LZ4_decompress_generic source dest inputSize outputSize ec full 0 dict
        lowPrefix dictStart dictSize)
     (λ r m', frame dest (dest + outputSize) m m' ∧ bytes_at m' dest text ∧
        r = if is_endOnInput ec then zlen text else zlen (block seqs l)) m.
Proof.
  intros (A1 & A2 & A3 & A4) Hlow Hlow0 Hb Hok Htext Hh Hm Hap Hapd Hlim Hsz.
  pose proof (length_block_pos seqs l).
  unfold block_text in Htext. destruct (apply_seqs hist seqs) as [o|] eqn:Ha; [|done].
  injection Htext as <-.
  pose proof (apply_seqs_prefix _ _ _ Ha) as [k ->].
  rewrite <- app_assoc, drop_app_length in *. set (text := k ++ l) in *.
  assert (Htl : zlen text = zlen k + zlen l) by (unfold text; rewrite length_app; lia).
  unfold LZ4_decompress_generic.
  set (fuel := S (Z.to_nat inputSize + Z.to_nat outputSize)). cbv zeta.
  set (env := DecEnv _ _ _ _ _ _ _ _ _ _ _ _ _).
  assert (Hpos : 0 < outputSize) by (destruct (is_endOnInput ec); lia).
  assert ((outputSize =? 0) = false) as -> by (apply Z.eqb_neq; lia).
  rewrite !andb_false_r.
  assert (Hseqs : (length seqs < fuel)%nat).
  { pose proof (apply_seqs_count _ _ _ Ha) as Hct. rewrite length_app in Hct.
    unfold fuel, MINMATCH in *.
    destruct (is_endOnInput ec); lia. }
  eapply wp_mono; [apply (decode_loop_valid fuel env (dest - zlen hist)
    (source + zlen (block seqs l)) source dest seqs l hist (hist ++ k))|].
  - unfold apart in *. constructor; simpl; try done; try lia.
    + intros Hck. apply andb_true_iff in Hck as [Hck1 Hck2]. apply Z.ltb_lt in Hck2. auto.
    + intros Hx. simpl in *. specialize (Hapd Hx). lia.
    + destruct (is_endOnInput ec); [lia|done].
  - intros j b Hj. apply Hh in Hj. simpl in Hj. unfold vaddr. simpl. done.
  - lia.
  - simpl. lia.
  - simpl. by replace (dest + outputSize - dest) with outputSize by lia.
  - simpl. lia.
  - lia.
  - done.
  - done.
  - done.
  - rewrite length_app. simpl. destruct (is_endOnInput ec); lia.
  - rewrite length_app. simpl. intros Hx. rewrite Hx in Hsz. lia.
  - done.
  - intros r m' (F & Ht & Hr). simpl in F, Hr. split_and!; [done| |].
    + rewrite bytes_at_lookup. intros i b Hi. rewrite <- app_assoc in Ht. fold text in Ht.
      specialize (Ht (length hist + i)%nat b).
      rewrite lookup_app_r in Ht by lia.
      replace (length hist + i - length hist)%nat with i in Ht by lia.
      rewrite <- (Ht Hi). f_equal. rewrite vaddr_high; simpl; lia.
    + rewrite length_app in Hr. destruct (is_endOnInput ec); rewrite Hr; lia.
Qed.

End generic.

(** * The checking decoders never leave their buffers *)

Section in_bounds.
Context {arch : Arch}.
Implicit Types (m : mem).

(** C3: [LZ4_decompress_safe] terminates on every input, however malformed,
    reads only the input (at least its first two bytes), writes only the
    destination, and returns at most its size. *)
Theorem LZ4_decompress_safe_in_bounds m (source dest compressedSize maxDecompressedSize : Z) :
  addressable source dest compressedSize maxDecompressedSize →
  mapped m source (Z.max 2 compressedSize) →
  mapped m dest maxDecompressedSize →
  ∃ r m', LZ4_decompress_safe source dest compressedSize maxDecompressedSize m = Ret r m' ∧
    frame dest (dest + Z.max 0 maxDecompressedSize) m m' ∧
    - Z.max 2 compressedSize - 1 ≤ r ≤ Z.max 0 maxDecompressedSize.
Proof.
  intros Ha Hs Hd. apply wp_result. apply decompress_generic_safe; try done; try lia.
  - by left.
  - unfold MAX_DISTANCE, MAXD_LOG. solve_mapped.
Qed.

(** the same for [LZ4_decompress_safe_partial], at every target size. *)
Theorem LZ4_decompress_safe_partial_in_bounds m
    (source dest compressedSize targetOutputSize maxDecompressedSize : Z) :
  addressable source dest compressedSize maxDecompressedSize →
  mapped m source (Z.max 2 compressedSize) →
  mapped m dest maxDecompressedSize →
  ∃ r m', LZ4_decompress_safe_partial source dest compressedSize targetOutputSize
            maxDecompressedSize m = Ret r m' ∧
    frame dest (dest + Z.max 0 maxDecompressedSize) m m' ∧
    - Z.max 2 compressedSize - 1 ≤ r ≤ Z.max 0 maxDecompressedSize.
Proof.
  intros Ha Hs Hd. apply wp_result. apply decompress_generic_safe; try done; try lia.
  - by left.
  - unfold MAX_DISTANCE, MAXD_LOG. solve_mapped.
Qed.

(** A decoder that is given a dictionary, wherever it lies. *)
Lemma usingDict_safe m (source dest compressedSize maxOutputSize dictStart dictSize : Z) :
  addressable source dest compressedSize maxOutputSize →
  mapped m source (Z.max 2 compressedSize) →
  mapped m dest maxOutputSize → 0 ≤ maxOutputSize →
  0 ≤ dictSize → mapped m dictStart dictSize →
  wp (LZ4_decompress_safe_usingDict source dest compressedSize maxOutputSize dictStart dictSize)
     (λ r m', frame dest (dest + Z.max 0 maxOutputSize) m m' ∧
        - Z.max 2 compressedSize - 1 ≤ r ≤ Z.max 0 maxOutputSize) m.
Proof.
  intros Ha Hs Hd Hmax Hds Hdict.
  unfold LZ4_decompress_safe_usingDict, LZ4_decompress_usingDict_generic.
  pose proof Ha as (_ & Hd0 & _). unfold KB.
  case_if; zbool; [|case_if; zbool; [case_if; zbool|]];
    apply decompress_generic_safe; try done; try lia; unfold MAX_DISTANCE, MAXD_LOG.
  - by left.
  - solve_mapped.
  - right. lia.
  - subst dest. intros i Hi. destruct (decide (i < dictStart + dictSize)); [apply Hdict|apply Hd]; lia.
  - by left.
  - subst dest. intros i Hi. destruct (decide (i < dictStart + dictSize)); [apply Hdict|apply Hd]; lia.
  - solve_mapped.
Qed.

(** [LZ4_decompress_safe_usingDict] stays within the input, the destination
    and the dictionary, wherever the dictionary lies: nowhere, right before
    the destination, or apart from it. *)
Theorem LZ4_decompress_safe_usingDict_in_bounds m
    (source dest compressedSize maxOutputSize dictStart dictSize : Z) :
  addressable source dest compressedSize maxOutputSize →
  mapped m source (Z.max 2 compressedSize) →
  mapped m dest maxOutputSize → 0 ≤ maxOutputSize →
  0 ≤ dictSize → mapped m dictStart dictSize →
  ∃ r m', LZ4_decompress_safe_usingDict source dest compressedSize maxOutputSize
            dictStart dictSize m = Ret r m' ∧
    frame dest (dest + Z.max 0 maxOutputSize) m m' ∧
    - Z.max 2 compressedSize - 1 ≤ r ≤ Z.max 0 maxOutputSize.
Proof. intros. by apply wp_result, usingDict_safe. Qed.

End in_bounds.

(** * Decoding well-formed blocks *)

Section blocks.
Context {arch : Arch}.
Implicit Types (m : mem).

(** on every well-formed block, [LZ4_decompress_safe] returns the size of
    the block's text, the destination holds the text, and nothing else
    changes. *)
Theorem LZ4_decompress_safe_block m (source dest maxDecompressedSize : Z)
    (seqs : list sequence) (l text : list byte) :
  addressable source dest (zlen (block seqs l)) maxDecompressedSize →
  bytes_at m source (block seqs l) → end_ok seqs l → block_text [] seqs l = Some text →
  mapped m dest maxDecompressedSize →
  apart source (zlen (block seqs l)) dest maxDecompressedSize →
  zlen text ≤ maxDecompressedSize → 0 < maxDecompressedSize →
  ∃ m', LZ4_decompress_safe source dest (zlen (block seqs l)) maxDecompressedSize m
          = Ret (zlen text) m' ∧
    frame dest (dest + maxDecompressedSize) m m' ∧ bytes_at m' dest text.
Proof.
  intros Ha Hb Hok Ht Hd Hap Hsz Hpos.
  pose proof (decompress_generic_block m source dest (zlen (block seqs l)) maxDecompressedSize
    endOnInputSize noDict dest NULL 0 [] seqs l text Ha) as H.
  apply wp_result in H as (r & m' & E & F & Hb' & ->); try done; try lia; by exists m'.
Qed.

(** The text [hist] right before the destination, as a history of the decoders
    that take the prefix of the destination as their dictionary. *)
Lemma hist_at_prefix m (lowPrefix dictEnd dest : Z) (hist : list byte) (ext : bool) :
  bytes_at m (dest - zlen hist) hist →
  (ext = true → lowPrefix ≤ dest - zlen hist) →
  hist_at ext lowPrefix dictEnd dest hist m.
Proof.
  intros Hb Hx j b Hj. pose proof (lookup_lt_Some _ _ _ Hj) as Hlt.
  rewrite bytes_at_lookup in Hb. apply Hb in Hj. cbv zeta.
  destruct ext; simpl; [|done]. specialize (Hx eq_refl).
  destruct (Z.ltb_spec (dest - zlen hist + Z.of_nat j) lowPrefix); [lia|done].
Qed.

(** [LZ4_decompress_fast], told the size of the text, decodes a well-formed
    block whose matches may reach up to 64 KB into the bytes before the
    destination, and returns the size of the block. *)
Theorem LZ4_decompress_fast_block m (source dest originalSize : Z)
    (hist : list byte) (seqs : list sequence) (l text : list byte) :
  addressable source dest (zlen (block seqs l)) originalSize →
  bytes_at m source (block seqs l) → end_ok seqs l → block_text hist seqs l = Some text →
  bytes_at m (dest - zlen hist) hist →
  mapped m dest originalSize → apart source (zlen (block seqs l)) dest originalSize →
  originalSize = zlen text → 0 < originalSize →
  ∃ m', LZ4_decompress_fast source dest originalSize m = Ret (zlen (block seqs l)) m' ∧
    frame dest (dest + originalSize) m m' ∧ bytes_at m' dest text.
Proof.
  intros Ha Hb Hok Ht Hh Hd Hap Hsz Hpos.
  pose proof (decompress_generic_block m source dest 0 originalSize
    endOnOutputSize withPrefix64k (dest - KB 64) NULL (KB 64) hist seqs l text Ha) as H.
  apply wp_result in H as (r & m' & E & F & Hb' & ->); try done; try lia; [by exists m'| |].
  - unfold KB. lia.
  - by apply hist_at_prefix.
Qed.

(** with a dictionary right before the destination or apart from it,
    [LZ4_decompress_safe_usingDict] decodes every block that is well-formed
    after the dictionary's bytes. *)
Theorem LZ4_decompress_safe_usingDict_block m (source dest maxOutputSize dictStart : Z)
    (dict : list byte) (seqs : list sequence) (l text : list byte) :
  addressable source dest (zlen (block seqs l)) maxOutputSize → 0 ≤ dictStart →
  bytes_at m source (block seqs l) → end_ok seqs l → block_text dict seqs l = Some text →
  bytes_at m dictStart dict → zlen dict < KB 64 - 1 →
  mapped m dest maxOutputSize → apart source (zlen (block seqs l)) dest maxOutputSize →
  apart dest maxOutputSize dictStart (zlen dict) →
  zlen text ≤ maxOutputSize → 0 < maxOutputSize →
  ∃ m', LZ4_decompress_safe_usingDict source dest (zlen (block seqs l)) maxOutputSize
          dictStart (zlen dict) m = Ret (zlen text) m' ∧
    frame dest (dest + maxOutputSize) m m' ∧ bytes_at m' dest text.
Proof.
  intros Ha Hds Hb Hok Ht Hdict Hdl Hd Hap Hapd Hsz Hpos.
  unfold LZ4_decompress_safe_usingDict, LZ4_decompress_usingDict_generic.
  pose proof Ha as (_ & Hd0 & _).
  case_if; zbool; [|case_if; zbool; [case_if; zbool|]].
  - destruct dict; [|done].
    pose proof (decompress_generic_block m source dest (zlen (block seqs l)) maxOutputSize
      endOnInputSize noDict dest NULL 0 [] seqs l text Ha) as H.
    apply wp_result in H as (r & m' & Er & F & Hb' & ->); try done; try lia; by exists m'.
  - lia.
  - pose proof (decompress_generic_block m source dest (zlen (block seqs l)) maxOutputSize
      endOnInputSize noDict (dest - zlen dict) NULL 0 dict seqs l text Ha) as H.
    apply wp_result in H as (r & m' & Er & F & Hb' & ->); try done; try lia; [by exists m'|].
    apply hist_at_prefix; [|done]. by replace (dest - zlen dict) with dictStart by lia.
  - pose proof (decompress_generic_block m source dest (zlen (block seqs l)) maxOutputSize
      endOnInputSize usingExtDict dest dictStart (zlen dict) dict seqs l text Ha) as H.
    apply wp_result in H as (r & m' & Er & F & Hb' & ->); try done; try lia; [by exists m'| |].
    + intros j b Hj. pose proof (lookup_lt_Some _ _ _ Hj). rewrite bytes_at_lookup in Hdict.
      apply Hdict in Hj. cbv zeta. simpl.
      destruct (Z.ltb_spec (dest - zlen dict + Z.of_nat j) dest); [|lia].
      rewrite <- Hj. f_equal. lia.
    + intros _. unfold apart in *. lia.
Qed.

End blocks.

(** * Streaming decompression *)

(** The history a decoding state offers to a block decoded at [dest]. *)
Definition sd_hist (sd : LZ4_streamDecode_t_internal) (dest : Z) (h : list byte) (m : mem) : Prop :=
  if prefixEnd sd =? dest then
    hist_at true (prefixEnd sd - prefixSize sd) (externalDict sd + extDictSize sd) dest h m ∧
    zlen h ≤ prefixSize sd + extDictSize sd
  else bytes_at m (prefixEnd sd - zlen h) h ∧ zlen h ≤ prefixSize sd.

(** A destination that does not overwrite the history. *)
Definition sd_apart (sd : LZ4_streamDecode_t_internal) (dest n : Z) : Prop :=
  if prefixEnd sd =? dest then apart dest n (externalDict sd) (extDictSize sd)
  else apart dest n (prefixEnd sd - prefixSize sd) (prefixSize sd).

Record sd_wf (sd : LZ4_streamDecode_t_internal) : Prop := {
  sd_prefix : 0 ≤ prefixSize sd ≤ prefixEnd sd;
  sd_ext : 0 ≤ extDictSize sd
}.

Section streaming.
Context {arch : Arch}.
Implicit Types (m : mem) (sd : LZ4_streamDecode_t_internal).

(** streaming decompression: when the history of the decoding state is
    intact, a block that is well-formed after it is decoded to its text, and
    the state left behind offers the history extended by that text to the
    next block. *)
Theorem LZ4_decompress_safe_continue_block m sd (source dest maxOutputSize : Z)
    (h : list byte) (seqs : list sequence) (l text : list byte) :
  addressable source dest (zlen (block seqs l)) maxOutputSize → sd_wf sd →
  bytes_at m source (block seqs l) → end_ok seqs l → block_text h seqs l = Some text →
  sd_hist sd dest h m → sd_apart sd dest maxOutputSize →
  mapped m dest maxOutputSize → apart source (zlen (block seqs l)) dest maxOutputSize →
  zlen text ≤ maxOutputSize → 0 < maxOutputSize →
  ∃ sd' m', LZ4_decompress_safe_continue sd source dest (zlen (block seqs l)) maxOutputSize m
              = Ret (sd', zlen text) m' ∧
    frame dest (dest + maxOutputSize) m m' ∧ bytes_at m' dest text ∧
    sd_wf sd' ∧ sd_hist sd' (dest + zlen text) (h ++ text) m'.
Proof.
  intros Ha [Wp We] Hb Hok Ht Hh Hapd Hd Hap Hsz Hpos.
  pose proof Ha as (_ & Hd0 & _ & Hroom). unfold LZ4_decompress_safe_continue, sd_hist, sd_apart in *.
  destruct (Z.eqb_spec (prefixEnd sd) dest) as [Hpe|Hpe]; destruct Hh as [Hh Hhl].
  - pose proof (decompress_generic_block m source dest (zlen (block seqs l)) maxOutputSize
      endOnInputSize usingExtDict (prefixEnd sd - prefixSize sd) (externalDict sd) (extDictSize sd)
      h seqs l text Ha) as H.
    apply wp_result in H as (r & m' & E & F & Hb' & ->); try done; try lia.
    2: { intros _. unfold apart in *. lia. }
    simpl is_endOnInput in E. cbv iota in E. unfold bind. rewrite E.
    destruct (Z.leb_spec (zlen text) 0).
    + destruct text; [|simpl in *; lia]. exists sd, m'. split_and!; try done.
      simpl length. rewrite app_nil_r, Z.add_0_r.
      assert ((prefixEnd sd =? dest) = true) as -> by (by apply Z.eqb_eq).
      split; [|done]. eapply hist_at_frame; [done| |done]. unfold apart in *. lia.
    + eexists _, m'. split_and!; try done.
      * constructor; simpl; [|done]. rewrite usize_small by lia. lia.
      * simpl. assert ((prefixEnd sd + zlen text =? dest + zlen text) = true) as ->
          by (apply Z.eqb_eq; lia).
        rewrite usize_small by lia. rewrite length_app. split; [|lia].
        replace (prefixEnd sd + zlen text - (prefixSize sd + zlen text))
          with (prefixEnd sd - prefixSize sd) by lia.
        apply hist_at_app; [|lia|done]. eapply hist_at_frame; [done| |done]. unfold apart in *. lia.
  - pose proof (decompress_generic_block m source dest (zlen (block seqs l)) maxOutputSize
      endOnInputSize usingExtDict dest (prefixEnd sd - prefixSize sd) (prefixSize sd)
      h seqs l text Ha) as H.
    assert (Hh' : hist_at true dest (prefixEnd sd) dest h m).
    { intros j b Hj. pose proof (lookup_lt_Some _ _ _ Hj). rewrite bytes_at_lookup in Hh.
      apply Hh in Hj. cbv zeta. simpl.
      destruct (Z.ltb_spec (dest - zlen h + Z.of_nat j) dest); [|lia].
      rewrite <- Hj. f_equal. lia. }
    replace (prefixEnd sd - prefixSize sd + prefixSize sd) with (prefixEnd sd) in H by lia.
    apply wp_result in H as (r & m' & E & F & Hb' & ->); try done; try lia.
    2: { intros _. unfold apart in *. lia. }
    simpl is_endOnInput in E. cbv iota in E. unfold bind. simpl externalDict. simpl extDictSize.
    rewrite E. destruct (Z.leb_spec (zlen text) 0).
    + destruct text; [|simpl in *; lia]. eexists _, m'. split_and!; try done.
      * constructor; simpl; lia.
      * simpl. rewrite app_nil_r, Z.add_0_r.
        assert ((prefixEnd sd =? dest) = false) as -> by (by apply Z.eqb_neq).
        split; [|done]. eapply bytes_at_frame; [done| |done]. unfold apart in *. lia.
    + eexists _, m'. split_and!; try done.
      * constructor; simpl; lia.
      * simpl. rewrite Z.eqb_refl, length_app.
        replace (dest + zlen text - zlen text) with dest by lia.
        replace (prefixEnd sd - prefixSize sd + prefixSize sd) with (prefixEnd sd) by lia.
        split; [|lia]. apply hist_at_app; [|lia|done].
        eapply hist_at_frame; [done| |done]. unfold apart in *. lia.
Qed.

End streaming.
