(* ===== verification/Lz4DecompressExamples.v ===== *)
(** Concrete runs of the decompression entry points: instances of the theorems
    of [Lz4DecompressApi], and the inputs on which the code departs from its
    documentation. *)

From Stdlib Require Import ZArith Lia Strings.Byte.
From stdpp Require Import base gmap list fin_maps numbers.
From S2P Require Import Prelude Mem Lz4Common Lz4Format Lz4Decompress Lz4DecompressProofs.
From S2P Require Import Lz4DecompressApi.

(** A block of one sequence, [abc] repeated, and its text. *)
Definition ex_seqs : list sequence := [Sequence (bytes_of [97; 98; 99]) 3 10].
Definition ex_last : list byte := bytes_of [1; 2; 3; 4; 5].
Definition ex_text : list byte :=
  bytes_of [97; 98; 99; 97; 98; 99; 97; 98; 99; 97; 98; 99; 97; 1; 2; 3; 4; 5].

(** The block at address 1000 and a destination of 32 bytes at 2000. *)
Definition ex_mem : mem :=
  place 1000 (block ex_seqs ex_last) (place 2000 (bytes_of (replicate 32 0)) ∅).

(** A block whose match reaches 16 bytes back, into its history. *)
Definition ex_hist : list byte :=
  bytes_of [10; 11; 12; 13; 14; 15; 16; 17; 18; 19; 20; 21; 22; 23; 24; 25].
Definition ex_dseqs : list sequence := [Sequence (bytes_of [97]) 17 12].
Definition ex_dtext : list byte :=
  bytes_of [97; 10; 11; 12; 13; 14; 15; 16; 17; 18; 19; 20; 21; 1; 2; 3; 4; 5].

(** The history at 500, the block at 1000, the destination at 2000, and other
    data right before the destination. *)
Definition ex_dmem : mem :=
  place 500 ex_hist (place 1000 (block ex_dseqs ex_last)
    (place 1984 (bytes_of (replicate 48 0)) ∅)).

Definition ex_sd : LZ4_streamDecode_t_internal :=
  {| externalDict := 0; extDictSize := 0; prefixEnd := 516; prefixSize := 16 |}.

(** * Instances *)

Lemma LZ4_decompress_safe_in_bounds_witness :
  ∃ r m', @LZ4_decompress_safe x86_64 1000 2000 12 32 ex_mem = Ret r m' ∧
    frame 2000 (2000 + Z.max 0 32) ex_mem m' ∧ - Z.max 2 12 - 1 ≤ r ≤ Z.max 0 32.
Proof.
  apply (@LZ4_decompress_safe_in_bounds x86_64 ex_mem 1000 2000 12 32); ground.
Defined.

Lemma LZ4_decompress_safe_partial_in_bounds_witness :
  ∃ r m', @LZ4_decompress_safe_partial x86_64 1000 2000 12 6 32 ex_mem = Ret r m' ∧
    frame 2000 (2000 + Z.max 0 32) ex_mem m' ∧ - Z.max 2 12 - 1 ≤ r ≤ Z.max 0 32.
Proof.
  apply (@LZ4_decompress_safe_partial_in_bounds x86_64 ex_mem 1000 2000 12 6 32); ground.
Defined.

Lemma LZ4_decompress_safe_usingDict_in_bounds_witness :
  ∃ r m', @LZ4_decompress_safe_usingDict x86_64 1000 2000 10 32 500 16 ex_dmem = Ret r m' ∧
    frame 2000 (2000 + Z.max 0 32) ex_dmem m' ∧ - Z.max 2 10 - 1 ≤ r ≤ Z.max 0 32.
Proof.
  apply (@LZ4_decompress_safe_usingDict_in_bounds x86_64 ex_dmem 1000 2000 10 32 500 16); ground.
Defined.

Lemma LZ4_decompress_safe_block_witness :
  ∃ m', @LZ4_decompress_safe x86_64 1000 2000 (zlen (block ex_seqs ex_last)) 32 ex_mem
          = Ret (zlen ex_text) m' ∧
    frame 2000 (2000 + 32) ex_mem m' ∧ bytes_at m' 2000 ex_text.
Proof.
  apply (@LZ4_decompress_safe_block x86_64 ex_mem 1000 2000 32 ex_seqs ex_last ex_text); ground.
Defined.

Lemma LZ4_decompress_fast_block_witness :
  ∃ m', @LZ4_decompress_fast x86_64 1000 2000 18 ex_mem
          = Ret (zlen (block ex_seqs ex_last)) m' ∧
    frame 2000 (2000 + 18) ex_mem m' ∧ bytes_at m' 2000 ex_text.
Proof.
  apply (@LZ4_decompress_fast_block x86_64 ex_mem 1000 2000 18 [] ex_seqs ex_last ex_text); ground.
Defined.

Lemma LZ4_decompress_safe_usingDict_block_witness :
  ∃ m', @LZ4_decompress_safe_usingDict x86_64 1000 2000 (zlen (block ex_dseqs ex_last)) 32
          500 (zlen ex_hist) ex_dmem = Ret (zlen ex_dtext) m' ∧
    frame 2000 (2000 + 32) ex_dmem m' ∧ bytes_at m' 2000 ex_dtext.
Proof.
  apply (@LZ4_decompress_safe_usingDict_block x86_64 ex_dmem 1000 2000 32 500
           ex_hist ex_dseqs ex_last ex_dtext); ground.
Defined.

Lemma LZ4_decompress_safe_continue_block_witness :
  ∃ sd' m', @LZ4_decompress_safe_continue x86_64 ex_sd 1000 2000
              (zlen (block ex_dseqs ex_last)) 32 ex_dmem = Ret (sd', zlen ex_dtext) m' ∧
    frame 2000 (2000 + 32) ex_dmem m' ∧ bytes_at m' 2000 ex_dtext ∧
    sd_wf sd' ∧ sd_hist sd' (2000 + zlen ex_dtext) (ex_hist ++ ex_dtext) m'.
Proof.
  apply (@LZ4_decompress_safe_continue_block x86_64 ex_dmem ex_sd 1000 2000 32
           ex_hist ex_dseqs ex_last ex_dtext); try ground.
  constructor; vm_compute; intuition discriminate.
Defined.

(** * Departures from the documentation *)

(** No object holds the byte at [a]. *)
Definition outside (m : mem) (a : Z) : Prop := m !! a = None.

(** [LZ4_decompress_safe] reads past the end of an input of less than two
    bytes: the token of an empty input, and the length byte that a token
    with a full literal nibble announces. *)
Theorem LZ4_decompress_safe_overread {arch : Arch} (m : mem) (source dest cap : Z) :
  cap ≠ 0 →
  (outside m source → LZ4_decompress_safe source dest 0 cap m = Fault) ∧
  (∀ b, m !! source = Some b → 240 ≤ b2z b → outside m (source + 1) →
        LZ4_decompress_safe source dest 1 cap m = Fault).
Proof.
  intros Hc. unfold outside, LZ4_decompress_safe, LZ4_decompress_generic.
  assert ((cap =? 0) = false) as -> by (by apply Z.eqb_neq). split.
  - intros Hn. cbn -[decode_sequence]. unfold decode_sequence, bind, load8. by rewrite Hn.
  - intros b Hb Hr Hn. cbn -[decode_sequence]. unfold decode_sequence, bind, load8. rewrite Hb.
    pose proof (b2z_range b). unfold get_literal_length, ML_BITS.
    rewrite Z.shiftr_div_pow2 by lia.
    assert (b2z b / 2 ^ 4 = RUN_MASK) as -> by (change RUN_MASK with 15; zdiv).
    rewrite Z.eqb_refl. simpl. unfold bind, load8. by rewrite Hn.
Qed.

Lemma LZ4_decompress_safe_overread_witness :
  (place 1000 (bytes_of [240]) (place 2000 (bytes_of (replicate 4 0)) ∅)) !! 1000 = Some (z2b 240) ∧
  @LZ4_decompress_safe x86_64 1000 2000 1 4
    (place 1000 (bytes_of [240]) (place 2000 (bytes_of (replicate 4 0)) ∅)) = Fault.
Proof.
  split; [ground|].
  apply (@LZ4_decompress_safe_overread x86_64 _ 1000 2000 4) with (b := z2b 240); ground.
Defined.

(** [LZ4_decompress_fast_continue] looks for the history right before the
    destination even when the state says it is elsewhere: on a block whose
    history is intact, [LZ4_decompress_safe_continue] produces the text,
    and [LZ4_decompress_fast_continue] reports success with another one. *)
Theorem LZ4_decompress_fast_continue_wrong_history :
  ∃ sd' m' sd'' m'' text,
    sd_hist ex_sd 2000 ex_hist ex_dmem ∧ block_text ex_hist ex_dseqs ex_last = Some ex_dtext ∧
    @LZ4_decompress_safe_continue x86_64 ex_sd 1000 2000
      (zlen (block ex_dseqs ex_last)) 18 ex_dmem = Ret (sd', zlen ex_dtext) m' ∧
    bytes_at m' 2000 ex_dtext ∧
    @LZ4_decompress_fast_continue x86_64 ex_sd 1000 2000 18 ex_dmem
      = Ret (sd'', zlen (block ex_dseqs ex_last)) m'' ∧
    bytes_at m'' 2000 text ∧ length text = length ex_dtext ∧ text ≠ ex_dtext.
Proof.
  eexists _, _, _, _, (bytes_of [97; 0; 0; 0; 0; 0; 0; 0; 0; 0; 0; 0; 0; 1; 2; 3; 4; 5]).
  split; [ground|]. split; [ground|]. split; [vm_compute; reflexivity|].
  split; [ground|]. split; [vm_compute; reflexivity|]. split; [ground|]. split; [ground|].
  vm_compute. discriminate.
Qed.
