(* ===== verification/Lz4Compress.v ===== *)
(** LZ4 block compression: the hash table, [LZ4_compress_generic] with all its
    directives, its one-shot entry points, and the variant that fills a
    destination of a given size (src/src/lz4/lib/lz4.c, "Compression
    functions" and "destSize variant"). *)

From Stdlib Require Import ZArith Lia Strings.Byte.
From stdpp Require Import base gmap list fin_maps numbers.
From S2P Require Import Prelude Mem Lz4Common Lz4Decompress.

(** * Constants and types *)

Definition LZ4_MEMORY_USAGE : Z := 14.
Definition LZ4_MAX_INPUT_SIZE : Z := 0x7E000000.
Definition LZ4_HASHLOG : Z := LZ4_MEMORY_USAGE - 2.
Definition HASH_SIZE_U32 : Z := 2 ^ LZ4_HASHLOG.
Definition LZ4_64Klimit : Z := KB 64 + (MFLIMIT - 1).
Definition LZ4_skipTrigger : Z := 6.
Definition ACCELERATION_DEFAULT : Z := 1.

Inductive limitedOutput_directive : Type := notLimited | limitedOutput.
Inductive tableType_t : Type := byPtr | byU32 | byU16.
Inductive dictIssue_directive : Type := noDictIssue | dictSmall.

Definition is_limited (o : limitedOutput_directive) : bool :=
  match o with limitedOutput => true | notLimited => false end.
Definition is_byU16 (t : tableType_t) : bool :=
  match t with byU16 => true | _ => false end.
Definition is_dictSmall (d : dictIssue_directive) : bool :=
  match d with dictSmall => true | noDictIssue => false end.

(** A hash table zeroed by [LZ4_resetStream] and then written entry by entry. *)
Abbreviation table := (gmap Z Z).

Record LZ4_stream_t_internal : Type := Stream {
  hashTable : table;
  currentOffset : Z;
  initCheck : Z;
  dictionary : Z;
  bufferStart : Z;
  dictSize : Z
}.

(** [MEM_INIT(LZ4_stream, 0, sizeof(LZ4_stream_t))] *)
Definition LZ4_resetStream : LZ4_stream_t_internal :=
  {| hashTable := ∅; currentOffset := 0; initCheck := 0; dictionary := 0;
     bufferStart := 0; dictSize := 0 |}.

Definition LZ4_compressBound (isize : Z) : Z :=
  if u32 isize >? LZ4_MAX_INPUT_SIZE then 0 else isize + isize ÷ 255 + 16.

(** The constants [LZ4_compress_generic] computes on entry. *)
Record comp_env : Type := CompEnv {
  ce_source : Z;
  ce_dest : Z;
  ce_iend : Z;
  mflimit : Z;
  matchlimit : Z;
  olimit : Z;
  maxOutputSize : Z;
  outputLimited : bool;
  tableType : tableType_t;
  ce_dict : dict_directive;
  dictIssue : dictIssue_directive;
  base : Z;
  lowRefLimit : Z;
  ce_dictionary : Z;
  ce_dictEnd : Z;
  ce_acceleration : Z
}.

(** [dictDelta = dictEnd - source], added to a pointer. *)
Definition dictDelta (cx : comp_env) : Z := ce_dictEnd cx - ce_source cx.

(** The number of entries of a table. *)
Definition table_entries (t : tableType_t) : Z :=
  if is_byU16 t then 2 ^ (LZ4_HASHLOG + 1) else 2 ^ LZ4_HASHLOG.

(** Where the search for a match stands when it stops: at the end of the
    input, or with a match. *)
Inductive search_result : Type :=
| SNone (tbl : table)
| SFound (ip mtch forwardH : Z) (tbl : table) (refDelta lowLimit : Z).

(** The labels of the main loop: its start, and [_next_match] with the
    position of the match and of the token. *)
Inductive label : Type :=
| LSearch (forwardH : Z)
| LNext (mtch token : Z).

(** The variables that live across the labels. *)
Record comp_state : Type := CompState {
  cs_ip : Z;
  cs_anchor : Z;
  cs_op : Z;
  cs_table : table;
  cs_refDelta : Z;
  cs_lowLimit : Z
}.

Section compress.
Context {arch : Arch}.

(** * Hashing *)

Definition LZ4_hashSequence (sequence : Z) (t : tableType_t) : Z :=
  if is_byU16 t then Z.shiftr (u32 (sequence * 2654435761)) (MINMATCH * 8 - (LZ4_HASHLOG + 1))
  else Z.shiftr (u32 (sequence * 2654435761)) (MINMATCH * 8 - LZ4_HASHLOG).

Definition prime5bytes : Z := 889523592379.

Definition LZ4_hashSequence64 (sequence : Z) (t : tableType_t) : Z :=
  let hashLog := if is_byU16 t then LZ4_HASHLOG + 1 else LZ4_HASHLOG in
  let hashMask := 2 ^ hashLog - 1 in
  Z.land (Z.shiftr (u64 (sequence * prime5bytes)) (40 - hashLog)) hashMask.

Definition LZ4_hashSequenceT (sequence : Z) (t : tableType_t) : Z :=
  if LZ4_64bits then LZ4_hashSequence64 sequence t else LZ4_hashSequence (u32 sequence) t.

Definition LZ4_hashPosition (p : Z) (t : tableType_t) : prog Z :=
  let! s := LZ4_read_ARCH p in ret (LZ4_hashSequenceT s t).

(** An index outside of the table is an access outside of its object. *)
Definition LZ4_putPositionOnHash (p h : Z) (tbl : table) (t : tableType_t) (srcBase : Z) :
    prog table :=
  if (0 <=? h) && (h <? table_entries t) then
    ret (<[h := match t with
                | byPtr => p
                | byU32 => u32 (p - srcBase)
                | byU16 => u16 (p - srcBase)
                end]> tbl)
  else fault.

Definition LZ4_putPosition (p : Z) (tbl : table) (t : tableType_t) (srcBase : Z) : prog table :=
  let! h := LZ4_hashPosition p t in LZ4_putPositionOnHash p h tbl t srcBase.

Definition LZ4_getPositionOnHash (h : Z) (tbl : table) (t : tableType_t) (srcBase : Z) : prog Z :=
  if (0 <=? h) && (h <? table_entries t) then
    let v := default 0 (tbl !! h) in
    ret (match t with byPtr => v | byU32 => v + srcBase | byU16 => v + srcBase end)
  else fault.

Definition LZ4_getPosition (p : Z) (tbl : table) (t : tableType_t) (srcBase : Z) : prog Z :=
  let! h := LZ4_hashPosition p t in LZ4_getPositionOnHash h tbl t srcBase.

(** * The main loop *)

(** In external dictionary mode, where the candidate [mtch] really is. *)
Definition locate (cx : comp_env) (mtch refDelta lowLimit : Z) : Z * Z :=
  if is_usingExtDict (ce_dict cx) then
    if mtch <? ce_source cx then (dictDelta cx, ce_dictionary cx) else (0, ce_source cx)
  else (refDelta, lowLimit).

(** "Find a match" *)
Fixpoint find_match (fuel : nat) (cx : comp_env)
    (forwardIp step searchMatchNb forwardH : Z) (tbl : table) (refDelta lowLimit : Z) :
    prog search_result :=
  match fuel with
  | O => nofuel
  | S fuel =>
      let h := forwardH in
      let ip := forwardIp in
      let forwardIp := forwardIp + step in
      let step := Z.shiftr searchMatchNb LZ4_skipTrigger in
      let searchMatchNb := u32 (searchMatchNb + 1) in
      if forwardIp >? mflimit cx then ret (SNone tbl)
      else
        let! mtch := LZ4_getPositionOnHash h tbl (tableType cx) (base cx) in
        let '(refDelta, lowLimit) := locate cx mtch refDelta lowLimit in
        let! forwardH := LZ4_hashPosition forwardIp (tableType cx) in
        let! tbl := LZ4_putPositionOnHash ip h tbl (tableType cx) (base cx) in
        if (if is_dictSmall (dictIssue cx) then mtch <? lowRefLimit cx else false) ||
           (if is_byU16 (tableType cx) then false else mtch + MAX_DISTANCE <? ip)
        then find_match fuel cx forwardIp step searchMatchNb forwardH tbl refDelta lowLimit
        else
          let! a := LZ4_read32 (mtch + refDelta) in
          let! b := LZ4_read32 ip in
          if a =? b then ret (SFound ip mtch forwardH tbl refDelta lowLimit)
          else find_match fuel cx forwardIp step searchMatchNb forwardH tbl refDelta lowLimit
  end.

(** "Catch up" *)
Fixpoint catch_up (fuel : nat) (ip mtch anchor refDelta lowLimit : Z) : prog (Z * Z) :=
  match fuel with
  | O => nofuel
  | S fuel =>
      if (ip >? anchor) && (mtch + refDelta >? lowLimit) then
        let! a := load8 (ip - 1) in
        let! b := load8 (mtch + refDelta - 1) in
        if a =? b then catch_up fuel (ip - 1) (mtch - 1) anchor refDelta lowLimit
        else ret (ip, mtch)
      else ret (ip, mtch)
  end.

(** [for(; len >= 255 ; len-=255) *op++ = 255; *op++ = (BYTE)len;] *)
Fixpoint put_run (fuel : nat) (op len : Z) : prog Z :=
  match fuel with
  | O => nofuel
  | S fuel =>
      if len >=? 255 then store8 op 255 ;! put_run fuel (op + 1) (len - 255)
      else store8 op len ;! ret (op + 1)
  end.

(** [for (; matchLength >= 510 ; matchLength-=510) { *op++ = 255; *op++ = 255; }
     if (matchLength >= 255) { matchLength-=255; *op++ = 255; }
     *op++ = (BYTE)matchLength;] *)
Fixpoint put_match_run (fuel : nat) (op len : Z) : prog Z :=
  match fuel with
  | O => nofuel
  | S fuel =>
      if len >=? 510 then
        store8 op 255 ;! store8 (op + 1) 255 ;! put_match_run fuel (op + 2) (len - 510)
      else if len >=? 255 then
        store8 op 255 ;! store8 (op + 1) (len - 255) ;! ret (op + 2)
      else store8 op len ;! ret (op + 1)
  end.

(** "Encode Literal length" and "Copy Literals"; [None] is [return 0]. *)
Definition encode_literals (cx : comp_env) (ip anchor op : Z) : prog (option (Z * Z)) :=
  let litLength := u32 (ip - anchor) in
  let token := op in
  let op := op + 1 in
  if outputLimited cx &&
     (op + litLength + (2 + 1 + LASTLITERALS) + litLength / 255 >? olimit cx)
  then ret None
  else
    let! op :=
      (if litLength >=? RUN_MASK then
         let len := litLength - RUN_MASK in
         store8 token (Z.shiftl RUN_MASK ML_BITS) ;! put_run (S (Z.to_nat len)) op len
       else store8 token (Z.shiftl litLength ML_BITS) ;! ret op) in
    LZ4_wildCopy op anchor (op + litLength) ;!
    ret (Some (op + litLength, token)).

(** The length of the match at [ip], less [MINMATCH], and [ip] after it. *)
Definition measure_match (cx : comp_env) (ip mtch refDelta lowLimit : Z) : prog (Z * Z) :=
  if is_usingExtDict (ce_dict cx) && (lowLimit =? ce_dictionary cx) then
    let mtch := mtch + refDelta in
    let limit := ip + (ce_dictEnd cx - mtch) in
    let limit := if limit >? matchlimit cx then matchlimit cx else limit in
    let! matchLength := LZ4_count (ip + MINMATCH) (mtch + MINMATCH) limit in
    let ip := ip + (MINMATCH + matchLength) in
    if ip =? limit then
      let! more := LZ4_count ip (ce_source cx) (matchlimit cx) in
      ret (u32 (matchLength + more), ip + more)
    else ret (matchLength, ip)
  else
    let! matchLength := LZ4_count (ip + MINMATCH) (mtch + MINMATCH) (matchlimit cx) in
    ret (matchLength, ip + (MINMATCH + matchLength)).

(** [*token += v] *)
Definition add_token (token v : Z) : prog unit :=
  let! t := load8 token in store8 token (t + v).

(** "Encode MatchLength"; [None] is [return 0]. *)
Definition encode_match_length (cx : comp_env) (op token matchLength : Z) : prog (option Z) :=
  if outputLimited cx &&
     (op + (1 + LASTLITERALS) + Z.shiftr matchLength 8 >? olimit cx)
  then ret None
  else if matchLength >=? ML_MASK then
    add_token token ML_MASK ;!
    let matchLength := matchLength - ML_MASK in
    let! op := put_match_run (S (Z.to_nat matchLength)) op matchLength in
    ret (Some op)
  else add_token token matchLength ;! ret (Some op).

(** [_last_literals]; the result [0] means that the output does not fit. *)
Definition encode_last_literals (cx : comp_env) (anchor op : Z) : prog Z :=
  let lastRun := usize (ce_iend cx - anchor) in
  if outputLimited cx &&
     (op - ce_dest cx + lastRun + 1 + (lastRun + 255 - RUN_MASK) / 255 >? u32 (maxOutputSize cx))
  then ret 0
  else
    let! op :=
      (if lastRun >=? RUN_MASK then
         let accumulator := lastRun - RUN_MASK in
         store8 op (Z.shiftl RUN_MASK ML_BITS) ;!
         put_run (S (Z.to_nat accumulator)) (op + 1) accumulator
       else store8 op (Z.shiftl lastRun ML_BITS) ;! ret (op + 1)) in
    memcpy op anchor lastRun ;!
    ret (op + lastRun - ce_dest cx).

(** "Fill table" and "Test next position", at the end of a match. *)
Definition test_next (cx : comp_env) (ip anchor op : Z) (tbl : table) (refDelta lowLimit : Z) :
    prog (comp_state * label) :=
  let! tbl := LZ4_putPosition (ip - 2) tbl (tableType cx) (base cx) in
  let! mtch := LZ4_getPosition ip tbl (tableType cx) (base cx) in
  let '(refDelta, lowLimit) := locate cx mtch refDelta lowLimit in
  let! tbl := LZ4_putPosition ip tbl (tableType cx) (base cx) in
  let! hit :=
    (if (if is_dictSmall (dictIssue cx) then mtch >=? lowRefLimit cx else true) &&
        (mtch + MAX_DISTANCE >=? ip)
     then
       let! a := LZ4_read32 (mtch + refDelta) in
       let! b := LZ4_read32 ip in
       ret (a =? b)
     else ret false) in
  if hit : bool then
    store8 op 0 ;!
    ret (CompState ip anchor (op + 1) tbl refDelta lowLimit, LNext mtch op)
  else
    let! forwardH := LZ4_hashPosition (ip + 1) (tableType cx) in
    ret (CompState (ip + 1) anchor op tbl refDelta lowLimit, LSearch forwardH).

(** The main loop; the table is what the context keeps. *)
Fixpoint compress_loop (fuel : nat) (cx : comp_env) (st : comp_state) (pc : label) :
    prog (table * Z) :=
  match fuel with
  | O => nofuel
  | S fuel =>
      match pc with
      | LSearch forwardH =>
          let! r := find_match (Z.to_nat (ce_iend cx - ce_source cx) + 200) cx (cs_ip st) 1
                      (u32 (Z.shiftl (ce_acceleration cx) LZ4_skipTrigger)) forwardH
                      (cs_table st) (cs_refDelta st) (cs_lowLimit st) in
          match r with
          | SNone tbl =>
              let! n := encode_last_literals cx (cs_anchor st) (cs_op st) in ret (tbl, n)
          | SFound ip mtch forwardH tbl refDelta lowLimit =>
              let! (ip, mtch) :=
                catch_up (S (Z.to_nat (ip - cs_anchor st))) ip mtch (cs_anchor st)
                         refDelta lowLimit in
              let! r := encode_literals cx ip (cs_anchor st) (cs_op st) in
              match r with
              | None => ret (tbl, 0)
              | Some (op, token) =>
                  compress_loop fuel cx
                    (CompState ip (cs_anchor st) op tbl refDelta lowLimit) (LNext mtch token)
              end
          end
      | LNext mtch token =>
          let ip := cs_ip st in
          LZ4_writeLE16 (cs_op st) (u16 (ip - mtch)) ;!
          let op := cs_op st + 2 in
          let! (matchLength, ip) :=
            measure_match cx ip mtch (cs_refDelta st) (cs_lowLimit st) in
          let! r := encode_match_length cx op token matchLength in
          match r with
          | None => ret (cs_table st, 0)
          | Some op =>
              if ip >? mflimit cx then
                let! n := encode_last_literals cx ip op in ret (cs_table st, n)
              else
                let! (st, pc) :=
                  test_next cx ip ip op (cs_table st) (cs_refDelta st) (cs_lowLimit st) in
                compress_loop fuel cx st pc
          end
      end
  end.

Definition with_table (ctx : LZ4_stream_t_internal) (tbl : table) : LZ4_stream_t_internal :=
  {| hashTable := tbl; currentOffset := currentOffset ctx; initCheck := initCheck ctx;
     dictionary := dictionary ctx; bufferStart := bufferStart ctx; dictSize := dictSize ctx |}.

(** The constants computed on entry. *)
Definition generic_env (ctx : LZ4_stream_t_internal)
    (source dest inputSize maxOutputSize : Z)
    (outputLimited : limitedOutput_directive) (tableType : tableType_t)
    (dict : dict_directive) (dictIssue : dictIssue_directive) (acceleration : Z) : comp_env :=
  let iend := source + inputSize in
  {| ce_source := source; ce_dest := dest; ce_iend := iend;
     mflimit := iend - MFLIMIT; matchlimit := iend - LASTLITERALS;
     olimit := dest + maxOutputSize; Lz4Compress.maxOutputSize := maxOutputSize;
     Lz4Compress.outputLimited := is_limited outputLimited;
     Lz4Compress.tableType := tableType; ce_dict := dict;
     Lz4Compress.dictIssue := dictIssue;
     base := match dict with
             | noDict => source
             | withPrefix64k | usingExtDict => source - currentOffset ctx
             end;
     lowRefLimit := source - dictSize ctx; ce_dictionary := dictionary ctx;
     ce_dictEnd := dictionary ctx + dictSize ctx; ce_acceleration := acceleration |}.

Definition LZ4_compress_generic (ctx : LZ4_stream_t_internal)
    (source dest inputSize maxOutputSize : Z)
    (outputLimited : limitedOutput_directive) (tableType : tableType_t)
    (dict : dict_directive) (dictIssue : dictIssue_directive) (acceleration : Z) :
    prog (LZ4_stream_t_internal * Z) :=
  let cx := generic_env ctx source dest inputSize maxOutputSize outputLimited tableType
              dict dictIssue acceleration in
  let lowLimit := match dict with
                  | withPrefix64k => source - dictSize ctx
                  | noDict | usingExtDict => source
                  end in
  if u32 inputSize >? u32 LZ4_MAX_INPUT_SIZE then ret (ctx, 0)
  else if is_byU16 tableType && (inputSize >=? LZ4_64Klimit) then ret (ctx, 0)
  else if inputSize <? LZ4_minLength then
    let! n := encode_last_literals cx source dest in ret (ctx, n)
  else
    let! tbl := LZ4_putPosition source (hashTable ctx) tableType (base cx) in
    let ip := source + 1 in
    let! forwardH := LZ4_hashPosition ip tableType in
    let! (tbl, n) :=
      compress_loop (2 * Z.to_nat inputSize + 2) cx
        (CompState ip source dest tbl 0 lowLimit) (LSearch forwardH) in
    ret (with_table ctx tbl, n).

(** * One-shot entry points *)

Definition table_for (inputSize : Z) : tableType_t :=
  if inputSize <? LZ4_64Klimit then byU16 else if LZ4_64bits then byU32 else byPtr.

Definition LZ4_compress_fast_extState (source dest inputSize maxOutputSize acceleration : Z) :
    prog (LZ4_stream_t_internal * Z) :=
  let state := LZ4_resetStream in
  let acceleration := if acceleration <? 1 then ACCELERATION_DEFAULT else acceleration in
  if maxOutputSize >=? LZ4_compressBound inputSize then
    LZ4_compress_generic state source dest inputSize 0 notLimited (table_for inputSize)
      noDict noDictIssue acceleration
  else
    LZ4_compress_generic state source dest inputSize maxOutputSize limitedOutput
      (table_for inputSize) noDict noDictIssue acceleration.

Definition LZ4_compress_fast (source dest inputSize maxOutputSize acceleration : Z) : prog Z :=
  let! (_, result) :=
    LZ4_compress_fast_extState source dest inputSize maxOutputSize acceleration in
  ret result.

Definition LZ4_compress_default (source dest inputSize maxOutputSize : Z) : prog Z :=
  LZ4_compress_fast source dest inputSize maxOutputSize 1.

Definition LZ4_compress_fast_force (source dest inputSize maxOutputSize acceleration : Z) : prog Z :=
  let! (_, result) :=
    LZ4_compress_generic LZ4_resetStream source dest inputSize maxOutputSize limitedOutput
      (table_for inputSize) noDict noDictIssue acceleration in
  ret result.

Definition LZ4_compress_limitedOutput (source dest inputSize maxOutputSize : Z) : prog Z :=
  LZ4_compress_default source dest inputSize maxOutputSize.

Definition LZ4_compress (source dest inputSize : Z) : prog Z :=
  LZ4_compress_default source dest inputSize (LZ4_compressBound inputSize).

Definition LZ4_compress_limitedOutput_withState (src dst srcSize dstSize : Z) :
    prog (LZ4_stream_t_internal * Z) :=
  LZ4_compress_fast_extState src dst srcSize dstSize 1.

Definition LZ4_compress_withState (src dst srcSize : Z) : prog (LZ4_stream_t_internal * Z) :=
  LZ4_compress_fast_extState src dst srcSize (LZ4_compressBound srcSize) 1.

End compress.
