(* ===== verification/Lz4Text.v ===== *)
(** The text a block compressor encodes and the block it writes, for any
    compressor of the library: the fast compressor, its variant that fills a
    destination, and the high compression mode share what is proved here.

    A compressor numbers the bytes of the history and of the input by virtual
    addresses, in the input the real ones; [loc] maps a virtual address to
    where the byte really is, and [txt] is the byte.  [progress] is the state
    of a partly written block. *)

From Stdlib Require Import ZArith Lia Strings.Byte.
From stdpp Require Import base gmap list fin_maps numbers.
From S2P Require Import Prelude Mem Lz4Common Lz4Format Lz4Decompress Lz4Compress.

(** * Writing a sequence *)

Section writers.
Context {arch : Arch}.
Implicit Types (m : mem).

Lemma store8_spec (a v : Z) m :
  mapped m a 1 → wp (store8 a v) (λ _ m', frame a (a + 1) m m' ∧ bytes_at m' a [z2b v]) m.
Proof.
  intros Hm. apply wp_store8; [apply Hm; lia|]. split.
  - apply frame_insert; [apply Hm|]; lia.
  - simpl. by rewrite lookup_insert_eq.
Qed.

Lemma put_run_spec (fuel : nat) (op len : Z) m :
  0 ≤ len → (Z.to_nat len < fuel)%nat → mapped m op (zlen (len_ext len)) →
  wp (put_run fuel op len)
     (λ op' m', op' = op + zlen (len_ext len) ∧ frame op op' m m' ∧ bytes_at m' op (len_ext len)) m.
Proof.
  revert op len m. induction fuel as [|fuel IH]; intros op len m Hl Hf Hm; [lia|].
  simpl put_run. case_if; zbool.
  - rewrite (len_ext_step len) in * by lia. simpl length in *.
    wp_apply store8_spec; [solve_mapped|]. intros _ m1 [F1 B1].
    eapply wp_mono; [apply IH; [lia|lia|solve_mapped]|].
    intros op' m2 (-> & F2 & B2). split; [lia|]. split; [solve_frame|].
    simpl. split; [|done]. rewrite (frame_eq _ _ _ _ F2) by lia. by apply B1.
  - rewrite (len_ext_small len) in * by lia. simpl length in *.
    wp_apply store8_spec; [solve_mapped|]. intros _ m1 [F1 B1].
    apply wp_ret. split; [done|]. split; [solve_frame|done].
Qed.

(** The two-bytes-at-a-time loop writes the same bytes. *)
Lemma put_match_run_spec (fuel : nat) (op len : Z) m :
  0 ≤ len → (Z.to_nat len < fuel)%nat → mapped m op (zlen (len_ext len)) →
  wp (put_match_run fuel op len)
     (λ op' m', op' = op + zlen (len_ext len) ∧ frame op op' m m' ∧ bytes_at m' op (len_ext len)) m.
Proof.
  revert op len m. induction fuel as [|fuel IH]; intros op len m Hl Hf Hm; [lia|].
  simpl put_match_run. case_if; zbool; [|case_if; zbool].
  - rewrite (len_ext_step len), (len_ext_step (len - 255)) in * by lia. simpl length in *.
    replace (len - 255 - 255) with (len - 510) in * by lia.
    wp_apply store8_spec; [solve_mapped|]. intros _ m1 [F1 B1].
    wp_apply store8_spec; [solve_mapped|]. intros _ m2 [F2 B2].
    eapply wp_mono; [apply IH; [lia|lia|solve_mapped]|].
    intros op' m3 (-> & F3 & B3). split; [lia|]. split; [solve_frame|].
    simpl. replace (op + 1 + 1) with (op + 2) by lia. split_and!; [| |done].
    + rewrite (frame_eq _ _ _ _ F3), (frame_eq _ _ _ _ F2) by lia. by apply B1.
    + rewrite (frame_eq _ _ _ _ F3) by lia. by apply B2.
  - rewrite (len_ext_step len), (len_ext_small (len - 255)) in * by lia. simpl length in *.
    wp_apply store8_spec; [solve_mapped|]. intros _ m1 [F1 B1].
    wp_apply store8_spec; [solve_mapped|]. intros _ m2 [F2 B2].
    apply wp_ret. split; [lia|]. split; [solve_frame|]. simpl. split_and!; [|apply B2|done].
    rewrite (frame_eq _ _ _ _ F2) by lia. by apply B1.
  - rewrite (len_ext_small len) in * by lia. simpl length in *.
    wp_apply store8_spec; [solve_mapped|]. intros _ m1 [F1 B1].
    apply wp_ret. split; [done|]. split; [solve_frame|done].
Qed.

(** The bytes of a sequence before its offset, without the match length. *)
Definition open_seq (lits : list byte) : list byte :=
  z2b (16 * Z.min (zlen lits) 15) :: nibble_ext (zlen lits) ++ lits.

Lemma length_open_seq (lits : list byte) :
  zlen (open_seq lits) = 1 + zlen (nibble_ext (zlen lits)) + zlen lits.
Proof. unfold open_seq. cbn [length]. rewrite length_app. lia. Qed.

Lemma ser_last_open (lits : list byte) : ser_last lits = open_seq lits.
Proof. unfold ser_last, open_seq, token. do 2 f_equal. lia. Qed.

(** A literal length: the token nibble and the bytes that extend it. *)
Lemma put_length_spec (op L : Z) m :
  0 ≤ L → mapped m op (1 + zlen (nibble_ext L)) →
  wp (if L >=? RUN_MASK then
        store8 op (Z.shiftl RUN_MASK ML_BITS) ;!
        put_run (S (Z.to_nat (L - RUN_MASK))) (op + 1) (L - RUN_MASK)
      else store8 op (Z.shiftl L ML_BITS) ;! ret (op + 1))
     (λ op' m', op' = op + 1 + zlen (nibble_ext L) ∧ frame op op' m m' ∧
        bytes_at m' op (z2b (16 * Z.min L 15) :: nibble_ext L)) m.
Proof.
  intros HL Hm. change RUN_MASK with 15. change ML_BITS with 4.
  change (Z.shiftl 15 4) with 240. rewrite (Z.shiftl_mul_pow2 L), (Z.mul_comm L) by lia.
  change (2 ^ 4) with 16.
  unfold nibble_ext in *. case_if; zbool.
  - destruct (Z.ltb_spec L 15); [lia|].
    wp_apply store8_spec; [solve_mapped|]. intros _ m1 [F1 B1].
    eapply wp_mono; [apply put_run_spec; [lia|lia|solve_mapped]|].
    intros op' m2 (-> & F2 & B2). split; [done|]. split; [solve_frame|].
    simpl. split; [|done]. rewrite (frame_eq _ _ _ _ F2) by lia.
    rewrite Z.min_r by lia. by apply B1.
  - destruct (Z.ltb_spec L 15); [|lia].
    wp_apply store8_spec; [solve_mapped|]. intros _ m1 [F1 B1].
    apply wp_ret. rewrite Z.min_l by lia. simpl length.
    split; [lia|]. split; [solve_frame|]. done.
Qed.

End writers.

(** The end of the output is far enough for any input of this size. *)
Definition roomy (N cap : Z) : Prop := 256 * N + 3826 ≤ 255 * cap.

(** * The text and where it is *)

Section text.
Context {arch : Arch} (source dest : Z) (hist x : list byte) (m0 : mem) (cap : Z) (loc : Z → Z).
Implicit Types (m : mem).

Abbreviation N := (zlen x).
Abbreviation iend := (source + N).
Abbreviation low := (source - zlen hist).

(** The byte at a virtual address of the history and the input. *)
Definition txt (v : Z) : option byte := (hist ++ x) !! Z.to_nat (v - low).

(** The texts of length [n] at [p] and [q] are the same. *)
Definition same (p q n : Z) : Prop := ∀ i, 0 ≤ i < n → txt (p + i) = txt (q + i).

(** The input and the history are in memory, apart from a destination of [cap]
    bytes. *)
Record text_env : Prop := {
  te_size : N ≤ LZ4_MAX_INPUT_SIZE;
  te_loc : ∀ v, source ≤ v → loc v = v;
  te_text : ∀ v, low ≤ v < iend → m0 !! loc v = txt v;
  te_sep : ∀ v, low ≤ v < iend → loc v < dest ∨ dest + cap ≤ loc v;
  te_dest : mapped m0 dest cap
}.

Context (T : text_env).

Lemma text_size : 0 ≤ N ≤ 0x7E000000.
Proof. pose proof (te_size T). split; [lia|done]. Qed.

Lemma txt_Some (v : Z) : low ≤ v < iend → is_Some (txt v).
Proof. intros Hv. apply lookup_lt_is_Some_2. rewrite length_app. lia. Qed.

(** Bytes of the text read in a memory where only the destination changed. *)
Lemma text_frame m (v : Z) :
  frame dest (dest + cap) m0 m → low ≤ v < iend → m !! loc v = txt v.
Proof.
  intros F Hv. rewrite (frame_eq _ _ _ _ F); [by apply (te_text T)|by apply (te_sep T)].
Qed.

(** A range of virtual addresses is mapped where it really is. *)
Lemma text_mapped m (v a n : Z) :
  frame dest (dest + cap) m0 m → low ≤ v → v + n ≤ iend →
  (∀ i, 0 ≤ i < n → loc (v + i) = a + i) → mapped m a n.
Proof.
  intros F H1 H2 Hl i Hi. replace i with (loc (v + (i - a))) by (rewrite Hl; lia).
  rewrite (text_frame m) by (done || lia). apply txt_Some. lia.
Qed.

Lemma source_mapped m (v n : Z) :
  frame dest (dest + cap) m0 m → source ≤ v → v + n ≤ iend → mapped m v n.
Proof.
  intros F H1 H2. apply (text_mapped m v); [done|lia|done|].
  intros i Hi. apply (te_loc T). lia.
Qed.

Lemma dest_mapped m : frame dest (dest + cap) m0 m → mapped m dest cap.
Proof. intros F. eapply frame_mapped; [done|apply (te_dest T)]. Qed.

Lemma same_app (p q n k : Z) : same p q n → same (p + n) (q + n) k → same p q (n + k).
Proof.
  intros H1 H2 i Hi. destruct (decide (i < n)); [apply H1; lia|].
  specialize (H2 (i - n) ltac:(lia)).
  by replace (p + n + (i - n)) with (p + i) in H2 by lia;
    replace (q + n + (i - n)) with (q + i) in H2 by lia.
Qed.

(** Equal bytes in memory are equal bytes of the text. *)
Lemma common_same m (p q a b n : Z) :
  frame dest (dest + cap) m0 m → low ≤ p → p + n ≤ iend → low ≤ q → q + n ≤ iend →
  (∀ i, 0 ≤ i < n → loc (p + i) = a + i ∧ loc (q + i) = b + i) →
  common m a b n → same q p n.
Proof.
  intros F Hp Hp' Hq Hq' Hl Hc i Hi. destruct (Hl i Hi) as [H1 H2].
  rewrite <- !(text_frame m) by (done || lia). rewrite H1, H2. symmetry. by apply Hc.
Qed.

Lemma differ_txt m (p q a b : Z) :
  frame dest (dest + cap) m0 m → low ≤ p < iend → low ≤ q < iend →
  loc p = a → loc q = b → m !! a ≠ m !! b → txt p ≠ txt q.
Proof. intros F Hp Hq <- <-. by rewrite !(text_frame m). Qed.

(** Counting from a position whose bytes are all where the addresses say. *)
Lemma count_text_spec m (ip q a limit : Z) :
  frame dest (dest + cap) m0 m → source ≤ ip → limit ≤ iend → ip ≤ limit →
  low ≤ q → (∀ v, q ≤ v < q + (limit - ip) → loc v = a + (v - q)) →
  q + (limit - ip) ≤ iend →
  wp (LZ4_count ip a limit)
     (λ n m', m' = m ∧ 0 ≤ n ≤ limit - ip ∧ same q ip n ∧
        (n = limit - ip ∨ txt (ip + n) ≠ txt (q + n))) m.
Proof.
  intros F Hip Hlim Hle Hq Hloc Hqe. pose proof text_size.
  eapply wp_mono; [apply count_spec|].
  - lia.
  - apply source_mapped; (done || lia).
  - intros i Hi. replace i with (loc (q + (i - a))) by (rewrite Hloc; lia).
    rewrite (text_frame m) by (done || lia). apply txt_Some. lia.
  - intros k m1 (-> & Hk & Hc & Hd). rewrite Z.max_r in Hk, Hd by lia.
    split; [done|]. split; [lia|]. split.
    + eapply (common_same m ip q ip a); [done|lia..| |exact Hc].
      intros i Hi. rewrite (te_loc T), Hloc by lia. lia.
    + destruct Hd as [->|Hd]; [by left|]. destruct (decide (k = limit - ip)); [by left|]. right.
      apply (differ_txt m _ _ (ip + k) (a + k)); try done; try lia.
      * rewrite (te_loc T); lia.
      * rewrite Hloc; lia.
Qed.

(** The text between two virtual addresses. *)
Definition piece (a b : Z) : list byte :=
  take (Z.to_nat (b - a)) (drop (Z.to_nat (a - low)) (hist ++ x)).

Lemma length_piece (a b : Z) : low ≤ a ≤ b → b ≤ iend → zlen (piece a b) = b - a.
Proof.
  intros Ha Hb. unfold piece.
  rewrite length_take, length_drop, length_app. lia.
Qed.

Lemma lookup_piece (a b : Z) (i : nat) :
  low ≤ a → a + Z.of_nat i < b → piece a b !! i = txt (a + Z.of_nat i).
Proof.
  intros Ha Hi. unfold piece, txt. rewrite lookup_take_lt, lookup_drop by lia. f_equal. lia.
Qed.

(** The input and the destination do not meet. *)
Lemma source_apart : 0 < cap → 0 < N → iend ≤ dest ∨ dest + cap ≤ source.
Proof.
  intros Hc HN. pose proof (te_sep T source ltac:(lia)) as Hs.
  rewrite (te_loc T) in Hs by lia. destruct Hs as [Hs|]; [|by right]. left.
  destruct (decide (iend ≤ dest)); [done|].
  pose proof (te_sep T dest ltac:(lia)) as Hd. rewrite (te_loc T) in Hd by lia. lia.
Qed.

(** A memory whose bytes at [a] are those of the text from [v] on. *)
Lemma piece_at m (a v e : Z) :
  frame dest (dest + cap) m0 m → source ≤ v ≤ e → e ≤ iend →
  (∀ i, 0 ≤ i < e - v → m !! (a + i) = m !! (v + i)) →
  bytes_at m a (piece v e).
Proof.
  intros F Hv He Hc. apply bytes_at_lookup. intros i b Hb.
  pose proof (lookup_lt_Some _ _ _ Hb) as Hi.
  pose proof (length_piece v e ltac:(lia) He).
  rewrite lookup_piece in Hb by lia.
  rewrite Hc, <- Hb, <- (text_frame m) by (done || lia). by rewrite (te_loc T) by lia.
Qed.

(** How far the output may be, whatever was encoded. *)
Definition accounted (op anchor : Z) : Prop := 255 * (op - dest) ≤ 256 * (anchor - source).

(** The length and the bytes of a run of literals: after the length, any copy of
    the piece to where it belongs completes [open_seq]. *)
Lemma put_piece_spec {A : Type} m (anchor e op : Z) (copy : Z → prog unit) (K : Z → prog A)
    (Q : A → mem → Prop) (over : Z) :
  frame dest (dest + cap) m0 m → source ≤ anchor ≤ e → e ≤ iend → dest ≤ op →
  let L := e - anchor in
  let d := op + 1 + zlen (nibble_ext L) in
  d + L ≤ over ≤ dest + cap →
  (∀ m1, frame dest (dest + cap) m0 m1 →
     wp (copy d) (λ _ m2, frame d over m1 m2 ∧
        ∀ i, 0 ≤ i < L → m2 !! (d + i) = m2 !! (anchor + i)) m1) →
  (∀ m2, frame op (dest + cap) m m2 → bytes_at m2 op (open_seq (piece anchor e)) →
     d + L = op + zlen (open_seq (piece anchor e)) → wp (K d) Q m2) →
  wp (let! op' :=
        (if L >=? RUN_MASK then
           store8 op (Z.shiftl RUN_MASK ML_BITS) ;!
           put_run (S (Z.to_nat (L - RUN_MASK))) (op + 1) (L - RUN_MASK)
         else store8 op (Z.shiftl L ML_BITS) ;! ret (op + 1)) in
      copy op' ;! K op') Q m.
Proof.
  intros F Ha He Hop L d Hov Hcopy HK.
  assert (HL : zlen (piece anchor e) = L) by (apply length_piece; lia).
  pose proof (dest_mapped m F) as Hdm.
  eapply wp_seq; [apply (put_length_spec op L m); [lia|apply (mapped_sub _ _ _ _ _ Hdm); lia]|].
  intros op' m1 (-> & F1 & B1). fold d in F1 |- *.
  assert (F1' : frame dest (dest + cap) m0 m1) by solve_frame.
  eapply wp_seq; [by apply Hcopy|]. intros _ m2 [F2 C2].
  assert (F2' : frame dest (dest + cap) m0 m2) by solve_frame.
  apply HK.
  - solve_frame.
  - unfold open_seq. rewrite HL, app_comm_cons. apply bytes_at_app. split.
    + eapply bytes_at_frame; [exact F2| |done]. left. simpl length. lia.
    + simpl length. replace (op + Z.of_nat (S (length (nibble_ext L)))) with d by lia.
      apply piece_at; [done|lia|lia|]. intros i Hi. by apply C2.
  - rewrite length_open_seq, HL. lia.
Qed.

Lemma wild_piece m (anchor ip d : Z) :
  frame dest (dest + cap) m0 m → source ≤ anchor ≤ ip → ip + 12 ≤ iend → dest ≤ d →
  wild_end d (d + (ip - anchor)) ≤ dest + cap →
  wp (LZ4_wildCopy d anchor (d + (ip - anchor)))
     (λ _ m2, frame d (wild_end d (d + (ip - anchor))) m m2 ∧
        ∀ i, 0 ≤ i < ip - anchor → m2 !! (d + i) = m2 !! (anchor + i)) m.
Proof.
  intros F Ha Hip Hd Hw. pose proof text_size.
  pose proof (wild_end_bounds d (d + (ip - anchor))) as (W1 & W2 & W3).
  pose proof (dest_mapped m F) as Hdm. pose proof source_apart as Hap.
  eapply wp_mono; [apply wildCopy_spec; [solve_mapped|apply source_mapped; (done || lia)]|].
  intros _ m2 [F2 C2]. split; [done|]. intros i Hi. rewrite C2 by lia. f_equal. lia.
Qed.

Lemma memcpy_piece m (anchor e d : Z) :
  frame dest (dest + cap) m0 m → source ≤ anchor ≤ e → e ≤ iend → dest ≤ d →
  d + (e - anchor) ≤ dest + cap →
  wp (memcpy d anchor (e - anchor))
     (λ _ m2, frame d (d + (e - anchor)) m m2 ∧
        ∀ i, 0 ≤ i < e - anchor → m2 !! (d + i) = m2 !! (anchor + i)) m.
Proof.
  intros F Ha He Hd Hw. pose proof text_size. pose proof source_apart as Hap.
  pose proof (dest_mapped m F) as Hdm.
  eapply wp_mono; [apply memcpy_spec; [lia|apply source_mapped; (done || lia)|solve_mapped]|].
  intros _ m2 [F2 C2]. split; [done|]. intros i Hi.
  by rewrite C2, (frame_eq _ _ _ _ F2) by lia.
Qed.

Lemma nibble_ext_div (L : Z) : 0 ≤ L → (L + 240) / 255 = zlen (nibble_ext L).
Proof. intros HL. rewrite length_nibble_ext by done. case_if; zbool; zdiv. Qed.

Lemma add_token_spec m (tk k v : Z) :
  m !! tk = Some (z2b (16 * k)) → 0 ≤ k ≤ 15 → 0 ≤ v ≤ 15 →
  wp (add_token tk v)
     (λ _ m', frame tk (tk + 1) m m' ∧ m' !! tk = Some (z2b (16 * k + v))) m.
Proof.
  intros Htk Hk Hv. unfold add_token. apply wp_bind. eapply wp_load8; [done|].
  rewrite b2z_z2b_small by lia.
  apply wp_store8; [by rewrite Htk|]. split; [apply frame_insert; [by rewrite Htk|lia]|].
  apply lookup_insert_eq.
Qed.

(** The match length: the low nibble of the token and the bytes that extend it,
    by either of the two loops that write these. *)
Lemma put_match_length_spec {A : Type} m (run : nat → Z → Z → prog Z) (hi op tk k ml : Z)
    (K : Z → prog A) (Q : A → mem → Prop) :
  (∀ fuel o len m1, 0 ≤ len → (Z.to_nat len < fuel)%nat → mapped m1 o (zlen (len_ext len)) →
     wp (run fuel o len)
        (λ o' m2, o' = o + zlen (len_ext len) ∧ frame o o' m1 m2 ∧ bytes_at m2 o (len_ext len)) m1) →
  tk < op → op + zlen (nibble_ext ml) ≤ hi → mapped m op (zlen (nibble_ext ml)) →
  m !! tk = Some (z2b (16 * k)) → 0 ≤ k ≤ 15 → 0 ≤ ml →
  (∀ m2, frame tk hi m m2 → (∀ i, tk < i < op → m2 !! i = m !! i) →
     m2 !! tk = Some (z2b (16 * k + Z.min ml 15)) → bytes_at m2 op (nibble_ext ml) →
     wp (K (op + zlen (nibble_ext ml))) Q m2) →
  wp (if ml >=? ML_MASK then
        add_token tk ML_MASK ;!
        let! op := run (S (Z.to_nat (ml - ML_MASK))) op (ml - ML_MASK) in K op
      else add_token tk ml ;! K op) Q m.
Proof.
  intros Hrun Htk Hhi Hm Htb Hk Hml HK.
  change ML_MASK with 15. unfold nibble_ext in *. case_if; zbool.
  - destruct (Z.ltb_spec ml 15); [lia|]. rewrite Z.min_r in HK by lia.
    wp_apply add_token_spec; [done|done|lia|]. intros _ m1 [F1 B1].
    eapply wp_seq; [apply Hrun; [lia|lia|solve_mapped]|]. intros op' m2 (-> & F2 & B2).
    apply HK; [solve_frame| | |done].
    + intros i Hi. rewrite (frame_eq _ _ _ _ F2), (frame_eq _ _ _ _ F1) by lia. done.
    + by rewrite (frame_eq _ _ _ _ F2) by lia.
  - destruct (Z.ltb_spec ml 15); [|lia]. simpl length in *. rewrite Z.min_l in HK by lia.
    wp_apply add_token_spec; [done|done|lia|]. intros _ m1 [F1 B1].
    replace (op + Z.of_nat 0) with op in HK by lia.
    apply HK; [solve_frame| |done|done]. intros i Hi. by rewrite (frame_eq _ _ _ _ F1) by lia.
Qed.


(** * The block so far *)

Definition ser (seqs : list sequence) : list byte := concat (ser_seq <$> seqs).

Lemma ser_snoc (seqs : list sequence) (s : sequence) : ser (seqs ++ [s]) = ser seqs ++ ser_seq s.
Proof. unfold ser. rewrite fmap_app, concat_app. simpl. by rewrite app_nil_r. Qed.

(** The sequences [seqs] encode the text before [anchor] and fill the
    destination up to [op]. *)
Record progress m (seqs : list sequence) (anchor op : Z) : Prop := {
  pg_frame : frame dest (dest + cap) m0 m;
  pg_anchor : source ≤ anchor ≤ iend;
  pg_op : op = dest + zlen (ser seqs);
  pg_bytes : bytes_at m dest (ser seqs);
  pg_text : apply_seqs hist seqs = Some (piece low anchor);
  pg_acc : accounted op anchor;
  pg_end : ∀ pre s, seqs = pre ++ [s] →
           LASTLITERALS ≤ iend - anchor ∧ MFLIMIT ≤ sq_mlen s + (iend - anchor)
}.

(** The result [n] is the size of a block at the destination with text [x]. *)
Definition compressed m (n : Z) : Prop :=
  ∃ seqs l, end_ok seqs l ∧ block_text hist seqs l = Some x ∧
    n = zlen (block seqs l) ∧ n ≤ cap ∧ bytes_at m dest (block seqs l).

Lemma piece_low (b : Z) : piece low b = take (Z.to_nat (b - low)) (hist ++ x).
Proof. unfold piece. replace (Z.to_nat (low - low)) with O by lia. done. Qed.

Lemma piece_app (a b c : Z) : low ≤ a ≤ b → b ≤ c → piece a b ++ piece b c = piece a c.
Proof.
  intros Ha Hc. unfold piece.
  replace (Z.to_nat (b - low)) with (Z.to_nat (a - low) + Z.to_nat (b - a))%nat by lia.
  rewrite <- drop_drop.
  replace (Z.to_nat (c - a)) with (Z.to_nat (b - a) + Z.to_nat (c - b))%nat by lia.
  apply take_take_drop.
Qed.

Lemma end_ok_last (seqs : list sequence) (l : list byte) :
  (∀ pre s, seqs = pre ++ [s] → LASTLITERALS ≤ zlen l ∧ MFLIMIT ≤ sq_mlen s + zlen l) →
  end_ok seqs l.
Proof.
  induction seqs as [|s seqs IH]; intros H; [done|].
  destruct seqs as [|s' seqs]; [by apply (H [])|].
  apply IH. intros pre t Ht. apply (H (s :: pre)). by rewrite Ht.
Qed.

(** A position the text at [ip] can be copied from. *)
Definition reach (ip q : Z) : Prop := low ≤ q < ip ∧ ip - q ≤ MAX_DISTANCE.

(** A match extends the text that was encoded. *)
Lemma apply_match (anchor ip q ml : Z) :
  source ≤ anchor ≤ ip → ip + MINMATCH + ml ≤ iend → 0 ≤ ml → reach ip q →
  same q ip (MINMATCH + ml) →
  apply_seq (piece low anchor) (Sequence (piece anchor ip) (ip - q) (MINMATCH + ml)) =
    Some (piece low (ip + MINMATCH + ml)).
Proof.
  intros Ha He Hml [V1 V2] Hs. unfold apply_seq. simpl.
  assert ((ip - q <=? MAX_DISTANCE) && (MINMATCH <=? MINMATCH + ml) = true) as ->.
  { apply andb_true_iff. split; apply Z.leb_le; lia. }
  unfold MINMATCH in *. rewrite piece_app, !piece_low by lia.
  rewrite (copy_back_take (Z.to_nat (4 + ml)) (ip - q) (hist ++ x)); [|lia|rewrite length_app; lia|].
  - do 2 f_equal. lia.
  - intros i Hi. specialize (Hs (i - (ip - low)) ltac:(lia)). unfold txt in Hs.
    replace (ip + (i - (ip - low)) - low) with i in Hs by lia.
    replace (q + (i - (ip - low)) - low) with (i - (ip - q)) in Hs by lia. done.
Qed.

(** The accounting that bounds the output: a sequence takes at most 256 bytes
    for 255 bytes of text. *)
Lemma ser_seq_accounted (s : sequence) :
  MINMATCH ≤ sq_mlen s →
  255 * zlen (ser_seq s) ≤ 256 * (zlen (sq_lits s) + sq_mlen s).
Proof.
  unfold MINMATCH. intros Hm. rewrite length_ser_seq. change MINMATCH with 4.
  pose proof (nibble_ext_bound (zlen (sq_lits s)) ltac:(lia)).
  pose proof (length_nibble_ext (sq_mlen s - 4) ltac:(lia)) as HX.
  destruct (Z.ltb_spec (sq_mlen s - 4) 15); [lia|]. rewrite HX. zdiv.
Qed.

Lemma close_accounted (tk anchor ip q ml : Z) :
  accounted tk anchor → source ≤ anchor ≤ ip → ip + MINMATCH + ml ≤ iend → 0 ≤ ml →
  let s := Sequence (piece anchor ip) (ip - q) (MINMATCH + ml) in
  zlen (ser_seq s) = zlen (open_seq (piece anchor ip)) + 2 + zlen (nibble_ext ml) ∧
  accounted (tk + zlen (open_seq (piece anchor ip)) + 2 + zlen (nibble_ext ml))
    (ip + MINMATCH + ml).
Proof.
  intros Hacc Ha He Hml s.
  assert (HL : zlen (piece anchor ip) = ip - anchor)
    by (apply length_piece; unfold MINMATCH in *; lia).
  assert (Hlen : zlen (ser_seq s) = zlen (open_seq (piece anchor ip)) + 2 + zlen (nibble_ext ml)).
  { rewrite length_ser_seq, length_open_seq. cbn [s sq_lits sq_mlen].
    replace (MINMATCH + ml - MINMATCH) with ml by lia. lia. }
  split; [done|]. pose proof (ser_seq_accounted s ltac:(cbn [s sq_mlen]; lia)) as Hs.
  unfold accounted in *. rewrite Hlen in Hs. cbn [s sq_lits sq_mlen] in Hs. lia.
Qed.

(** Completing the sequence that was opened at [tk]. *)
Lemma close_seq m m1 m2 (seqs : list sequence) (anchor ip q tk op op' ml : Z) :
  progress m seqs anchor tk → anchor ≤ ip → ip + 12 ≤ iend →
  bytes_at m tk (open_seq (piece anchor ip)) → op = tk + zlen (open_seq (piece anchor ip)) →
  frame op (op + 2) m m1 → op + 2 ≤ dest + cap → bytes_at m1 op (le_bytes 2 (u16 (ip - q))) →
  frame tk (dest + cap) m1 m2 → (∀ i, tk < i < op + 2 → m2 !! i = m1 !! i) →
  m2 !! tk = Some (z2b (16 * Z.min (ip - anchor) 15 + Z.min ml 15)) →
  bytes_at m2 (op + 2) (nibble_ext ml) → op' = op + 2 + zlen (nibble_ext ml) →
  reach ip q → same q ip (MINMATCH + ml) → 0 ≤ ml → ip + MINMATCH + ml ≤ iend - 5 →
  progress m2 (seqs ++ [Sequence (piece anchor ip) (ip - q) (MINMATCH + ml)])
    (ip + MINMATCH + ml) op'.
Proof.
  intros [P1 P2 P3 P4 P5 P6 P7] Hip Hip' Hb -> F1 Hop B1 F2 C2 Htk B2 -> Hv Hs Hml He.
 
  set (s := Sequence _ _ _).
  assert (HL : zlen (piece anchor ip) = ip - anchor) by (apply length_piece; lia).
  destruct (close_accounted tk anchor ip q ml P6 ltac:(lia) ltac:(lia) Hml) as [Hlen Hacc].
  fold s in Hlen.
  assert (tk < dest + cap) by (rewrite length_open_seq in *; lia).
  assert (u16 (ip - q) = ip - q) as Hoff.
  { destruct Hv as [V1 V2]. unfold MAX_DISTANCE, MAXD_LOG in V2. apply u16_small. lia. }
  constructor.
  - solve_frame.
  - unfold MINMATCH in *. lia.
  - rewrite ser_snoc, length_app. lia.
  - rewrite ser_snoc. apply bytes_at_app. rewrite <- P3. split.
    { do 2 (eapply bytes_at_frame; [eassumption|rewrite ?length_open_seq; lia|]). done. }
    unfold ser_seq, s, token. cbn [sq_lits sq_off sq_mlen bytes_at]. rewrite HL.
    replace (MINMATCH + ml - MINMATCH) with ml by lia.
    split; [done|]. rewrite app_assoc. rewrite length_open_seq, HL in *.
    unfold open_seq in Hb. rewrite HL in Hb. destruct Hb as [_ Hb].
    rewrite !bytes_at_app, length_app, Nat2Z.inj_add, HL, length_le_bytes. split_and!.
    + apply bytes_at_app in Hb as [Hb _]. eapply bytes_at_copy; [|exact Hb].
      intros i Hi. rewrite C2, (frame_eq _ _ _ _ F1) by lia. done.
    + apply bytes_at_app in Hb as [_ Hb]. eapply bytes_at_copy; [|exact Hb].
      intros i Hi. rewrite C2, (frame_eq _ _ _ _ F1) by lia. done.
    + rewrite Hoff in B1. eapply bytes_at_copy; [|exact B1].
      intros i Hi. rewrite length_le_bytes in Hi. rewrite C2 by lia. f_equal. lia.
    + eapply bytes_at_copy; [|exact B2]. intros i Hi. f_equal. lia.
  - rewrite apply_seqs_app, P5. cbn [apply_seqs]. unfold s. by rewrite apply_match by (done || lia).
  - done.
  - intros pre s' Hs'. apply app_inj_tail in Hs' as [_ <-]. unfold s. simpl.
    unfold LASTLITERALS, MFLIMIT, COPYLENGTH, MINMATCH in *. lia.
Qed.

(** Writing the last literals completes a block. *)
Lemma close_block m m' (seqs : list sequence) (anchor op n : Z) :
  progress m seqs anchor op → frame op (dest + cap) m m' →
  n = op - dest + zlen (ser_last (piece anchor iend)) → n ≤ cap →
  bytes_at m' op (ser_last (piece anchor iend)) → compressed m' n.
Proof.
  intros [P1 P2 P3 P4 P5 P6 P7] F Hn Hc Hb.
  exists seqs, (piece anchor iend).
  assert (HL : zlen (piece anchor iend) = iend - anchor) by (apply length_piece; lia).
  rewrite <- (app_nil_r seqs) at 3 4. rewrite block_app. fold (ser seqs). cbn [block].
  rewrite length_app, bytes_at_app, <- P3. split_and!.
  - apply end_ok_last. rewrite HL. exact P7.
  - unfold block_text. rewrite P5, piece_app, piece_low by lia.
    rewrite take_ge by (rewrite length_app; lia). by rewrite drop_app_length.
  - lia.
  - done.
  - eapply bytes_at_frame; [exact F|lia|done].
  - done.
Qed.

(** Nothing is written yet. *)
Lemma progress_start m : frame dest (dest + cap) m0 m → progress m [] source dest.
Proof.
  intros F. constructor; simpl; try done; try lia; [|by unfold accounted; lia|].
  - rewrite piece_low. replace (Z.to_nat _) with (length hist) by lia. by rewrite take_app_length.
  - intros pre s Hs. by destruct pre.
Qed.

(** Bytes written past the end of the block so far. *)
Lemma progress_frame m m' (seqs : list sequence) (anchor op : Z) :
  progress m seqs anchor op → frame op (dest + cap) m m' → progress m' seqs anchor op.
Proof.
  intros P F. destruct P. constructor; try done; [etransitivity; [done|]; eapply frame_weaken; [exact F|lia..]|].
  eapply bytes_at_frame; [exact F|lia|done].
Qed.

End text.
