(* ===== verification/Lz4CompressProofs.v ===== *)
(** Correctness of the LZ4 block compressor: the invariant of the hash table,
    the search for a match, and the main loop, which turns any input into a
    well-formed block with that text.

    The proofs are shared by all the directives.  An address below [source]
    that stands for a byte of an external dictionary is a virtual one, which
    [loc] maps to where the byte really is. *)

From Stdlib Require Import ZArith Lia Strings.Byte.
From stdpp Require Import base gmap list fin_maps numbers.
From S2P Require Import Prelude Mem Lz4Common Lz4Format Lz4Decompress Lz4Compress Lz4Text.

(** * The environment of the main loop *)

(** Where the byte at a virtual address is. *)
Definition loc (cx : comp_env) (v : Z) : Z :=
  if is_usingExtDict (ce_dict cx) && (v <? ce_source cx) then v + dictDelta cx else v.

(** The position a table entry stands for. *)
Definition entry_pos (cx : comp_env) (v : Z) : Z :=
  match tableType cx with byPtr => v | byU32 | byU16 => v + base cx end.

(** The candidate passes the tests that come before the comparison. *)
Definition passes (cx : comp_env) (ip mtch : Z) : Prop :=
  (is_dictSmall (dictIssue cx) = true → lowRefLimit cx ≤ mtch) ∧
  (is_byU16 (tableType cx) = false → ip ≤ mtch + MAX_DISTANCE).

(** The sizes for which the test on the match length is exact enough: a small
    input, or a destination that holds all but one byte of a larger one. *)
Definition SMALL_INPUT : Z := KB 128.
Definition LARGE_INPUT : Z := KB 8192.

Definition tested_room (N cap : Z) : Prop :=
  N ≤ SMALL_INPUT ∨ N ≤ LARGE_INPUT ∧ N ≤ cap + 1.

Section loop.
Context {arch : Arch} (cx : comp_env) (hist x : list byte) (m0 : mem) (cap : Z).
Implicit Types (m : mem) (tbl : table).

Abbreviation source := (ce_source cx).
Abbreviation dest := (ce_dest cx).
Abbreviation iend := (ce_iend cx).
Abbreviation N := (zlen x).
Abbreviation low := (source - zlen hist).
Abbreviation txt := (Lz4Text.txt source hist x).
Abbreviation same := (Lz4Text.same source hist x).
Abbreviation piece := (Lz4Text.piece source hist x).
Abbreviation accounted := (Lz4Text.accounted source dest).
Abbreviation progress := (Lz4Text.progress source dest hist x m0 cap).
Abbreviation compressed := (Lz4Text.compressed dest hist x cap).

(** Positions the table may hold when the block starts. *)
Context (Old : Z → Prop).

Record loop_env : Prop := {
  le_iend : iend = source + N;
  le_mflimit : mflimit cx = iend - MFLIMIT;
  le_matchlimit : matchlimit cx = iend - LASTLITERALS;
  le_size : N ≤ LZ4_MAX_INPUT_SIZE;
  le_hist : ce_dict cx = noDict → hist = [];
  le_ext : is_usingExtDict (ce_dict cx) = true →
           ce_dictionary cx = ce_dictEnd cx - zlen hist ∧ ce_dictionary cx ≠ source;
  le_u16 : is_byU16 (tableType cx) = true → base cx = source ∧ N < LZ4_64Klimit;
  le_u32 : is_byU16 (tableType cx) = false → base cx ≤ source ∧ iend - base cx < 2 ^ 32;
  le_old : ∀ p ip, Old p → source < ip ≤ mflimit cx → passes cx ip p →
           low ≤ p < ip ∧ ip - p ≤ MAX_DISTANCE ∧
           (is_usingExtDict (ce_dict cx) = true → source ≤ p ∨ p + MINMATCH ≤ source);
  le_text : ∀ v, low ≤ v < iend → m0 !! loc cx v = txt v;
  le_sep : ∀ v, low ≤ v < iend → loc cx v < dest ∨ dest + cap ≤ loc cx v;
  le_dest : mapped m0 dest cap;
  le_acc : 1 ≤ ce_acceleration cx ≤ 2 ^ 25
}.

(** The destination is large enough, or the output is limited to it and the
    input is not too large. *)
Record room_env : Prop := {
  re_room : roomy N cap ∨ outputLimited cx = true ∧ tested_room N cap;
  re_lim : outputLimited cx = true →
           olimit cx = dest + cap ∧ maxOutputSize cx = cap ∧ 0 ≤ cap < 2 ^ 31
}.

Context (E : loop_env) (RE : room_env).

Lemma mflimit_iend : mflimit cx = iend - 12.
Proof. exact (le_mflimit E). Qed.

Lemma matchlimit_iend : matchlimit cx = iend - 5.
Proof. exact (le_matchlimit E). Qed.

Lemma size_range : 0 ≤ N ≤ 0x7E000000 ∧ iend = source + N.
Proof. pose proof (le_size E). split; [split; [lia|done]|exact (le_iend E)]. Qed.
Lemma loc_source (v : Z) : source ≤ v → loc cx v = v.
Proof.
  intros Hv. unfold loc. destruct (Z.ltb_spec v source); [lia|]. by rewrite andb_false_r.
Qed.

Lemma loop_text : text_env source dest hist x m0 cap (loc cx).
Proof.
  pose proof (le_iend E) as He. constructor.
  - apply (le_size E).
  - exact loc_source.
  - rewrite <- He. apply (le_text E).
  - rewrite <- He. apply (le_sep E).
  - apply (le_dest E).
Qed.

Abbreviation txt_Some := (Lz4Text.txt_Some source hist x).
Abbreviation text_frame := (Lz4Text.text_frame source dest hist x m0 cap (loc cx) loop_text).
Abbreviation source_mapped := (Lz4Text.source_mapped source dest hist x m0 cap (loc cx) loop_text).
Abbreviation dest_mapped := (Lz4Text.dest_mapped source dest hist x m0 cap (loc cx) loop_text).
Abbreviation length_piece := (Lz4Text.length_piece source hist x).
Abbreviation put_piece_spec := (Lz4Text.put_piece_spec source dest hist x m0 cap (loc cx) loop_text).
Abbreviation wild_piece := (Lz4Text.wild_piece source dest hist x m0 cap (loc cx) loop_text).
Abbreviation memcpy_piece := (Lz4Text.memcpy_piece source dest hist x m0 cap (loc cx) loop_text).
Abbreviation same_app := (Lz4Text.same_app source hist x).
Abbreviation count_text_spec := (Lz4Text.count_text_spec source dest hist x m0 cap (loc cx) loop_text).
Abbreviation close_accounted := (Lz4Text.close_accounted source dest hist x).
Abbreviation close_seq := (Lz4Text.close_seq source dest hist x m0 cap).

Lemma loc_low (v : Z) :
  is_usingExtDict (ce_dict cx) = true → v < source → loc cx v = v + dictDelta cx.
Proof. intros He Hv. unfold loc. rewrite He. by destruct (Z.ltb_spec v source); [|lia]. Qed.

Lemma loc_prefix (v : Z) : is_usingExtDict (ce_dict cx) = false → loc cx v = v.
Proof. intros He. unfold loc. by rewrite He. Qed.

(** A range of virtual addresses on one side of [source] is mapped where it
    really is. *)
Lemma loc_mapped m (v n : Z) :
  frame dest (dest + cap) m0 m → low ≤ v → v + n ≤ iend →
  (is_usingExtDict (ce_dict cx) = true → source ≤ v ∨ v + n ≤ source) →
  mapped m (loc cx v) n.
Proof.
  pose proof (le_iend E). intros F H1 H2 Hs i Hi. assert (i = loc cx (v + (i - loc cx v))) as ->.
  { unfold loc in *. destruct (is_usingExtDict (ce_dict cx)); simpl in *; [|lia].
    specialize (Hs eq_refl).
    destruct (Z.ltb_spec v source); destruct (Z.ltb_spec (v + (i - v)) source);
      repeat case_if; zbool; lia. }
  rewrite (text_frame m) by (done || lia). apply txt_Some. lia.
Qed.


(** * The hash table *)

Lemma hashSequence_range (s : Z) (t : tableType_t) :
  0 ≤ LZ4_hashSequenceT s t < table_entries t.
Proof.
  unfold LZ4_hashSequenceT, LZ4_hashSequence64, LZ4_hashSequence, table_entries.
  assert (H32 : ∀ k, 0 ≤ k ≤ 32 → 0 ≤ Z.shiftr (u32 (u32 s * 2654435761)) (32 - k) < 2 ^ k).
  { intros k Hk. pose proof (u32_range (u32 s * 2654435761)) as R.
    rewrite Z.shiftr_div_pow2 by lia. split; [apply Z.div_pos; lia|].
    apply Z.div_lt_upper_bound; [lia|]. rewrite <- Z.pow_add_r by lia.
    replace (32 - k + k) with 32 by lia. lia. }
  assert (H64 : ∀ z k, 0 ≤ k → 0 ≤ Z.land z (2 ^ k - 1) < 2 ^ k).
  { intros z k Hk. replace (2 ^ k - 1) with (Z.ones k) by (rewrite Z.ones_equiv; lia).
    rewrite Z.land_ones by lia. apply Z.mod_pos_bound. lia. }
  destruct LZ4_64bits, (is_byU16 t).
  - by apply (H64 _ 13).
  - by apply (H64 _ 12).
  - by apply (H32 13).
  - by apply (H32 12).
Qed.

Lemma hashPosition_spec m (p : Z) (t : tableType_t) :
  mapped m p STEPSIZE →
  wp (LZ4_hashPosition p t) (λ h m', m' = m ∧ 0 ≤ h < table_entries t) m.
Proof.
  intros Hm. unfold LZ4_hashPosition. wp_apply read_ARCH_spec; [done|].
  intros v m1 (-> & _). apply wp_ret. split; [done|apply hashSequence_range].
Qed.

Lemma STEPSIZE_range : 4 ≤ STEPSIZE ≤ 8.
Proof. unfold STEPSIZE. destruct LZ4_64bits; lia. Qed.

(** The positions in the table are old ones, or were passed by [ip]. *)
Definition tbl_inv tbl (ip : Z) : Prop :=
  ∀ h, 0 ≤ h < table_entries (tableType cx) →
    let q := entry_pos cx (default 0 (tbl !! h)) in
    Old q ∨ source ≤ q < ip ∧ q ≤ mflimit cx.

(** A candidate that can be matched with the text at [ip]. *)
Definition valid (ip q : Z) : Prop :=
  low ≤ q < ip ∧ ip - q ≤ MAX_DISTANCE ∧
  (is_usingExtDict (ce_dict cx) = true → source ≤ q ∨ q + MINMATCH ≤ source).

Lemma valid_reach (ip q : Z) : valid ip q → reach source hist ip q.
Proof. intros (V1 & V2 & _). by split. Qed.

Lemma tbl_inv_mono tbl (ip ip' : Z) : tbl_inv tbl ip → ip ≤ ip' → tbl_inv tbl ip'.
Proof. intros H Hle h Hh. destruct (H h Hh) as [?|?]; [by left|right; lia]. Qed.

(** Nothing is lost when a position of the input is stored in the table. *)
Lemma entry_pos_put (p : Z) :
  source ≤ p ≤ mflimit cx →
  entry_pos cx (match tableType cx with
                | byPtr => p
                | byU32 => u32 (p - base cx)
                | byU16 => u16 (p - base cx)
                end) = p.
Proof.
  intros Hp. pose proof size_range. rewrite mflimit_iend in Hp.
  pose proof (le_u16 E) as H16. pose proof (le_u32 E) as H32.
  unfold entry_pos. destruct (tableType cx); simpl in *; [done| |].
  - specialize (H32 eq_refl). rewrite u32_small; lia.
  - specialize (H16 eq_refl). unfold LZ4_64Klimit, KB, MFLIMIT, COPYLENGTH, MINMATCH in H16.
    rewrite u16_small; lia.
Qed.

Lemma putPositionOnHash_spec m tbl (p h ip ip' : Z) :
  0 ≤ h < table_entries (tableType cx) → source ≤ p < ip' → p ≤ mflimit cx →
  tbl_inv tbl ip → ip ≤ ip' →
  wp (LZ4_putPositionOnHash p h tbl (tableType cx) (base cx))
     (λ tbl' m', m' = m ∧ tbl_inv tbl' ip') m.
Proof.
  intros Hh Hp Hpm Ht Hip. unfold LZ4_putPositionOnHash.
  assert ((0 <=? h) && (h <? table_entries (tableType cx)) = true) as ->.
  { apply andb_true_iff. split; [apply Z.leb_le|apply Z.ltb_lt]; lia. }
  apply wp_ret. split; [done|]. intros h' Hh'. cbv zeta.
  destruct (decide (h = h')) as [<-|Hne].
  - rewrite lookup_insert_eq. cbn [default id from_option]. right. rewrite entry_pos_put; lia.
  - rewrite lookup_insert_ne by done. by apply (tbl_inv_mono tbl ip ip').
Qed.

Lemma getPositionOnHash_spec m tbl (h ip : Z) :
  0 ≤ h < table_entries (tableType cx) → tbl_inv tbl ip → source < ip ≤ mflimit cx →
  wp (LZ4_getPositionOnHash h tbl (tableType cx) (base cx))
     (λ q m', m' = m ∧ (passes cx ip q → valid ip q)) m.
Proof.
  intros Hh Ht Hip. unfold LZ4_getPositionOnHash.
  assert ((0 <=? h) && (h <? table_entries (tableType cx)) = true) as ->.
  { apply andb_true_iff. split; [apply Z.leb_le|apply Z.ltb_lt]; lia. }
  apply wp_ret. split; [done|]. specialize (Ht h Hh). cbv zeta in Ht.
  fold (entry_pos cx (default 0 (tbl !! h))).
  destruct Ht as [Ho|Hq]; [intros Hp; by apply (le_old E)|].
  intros [_ Hd]. split; [lia|]. split; [|intros _; lia].
  destruct (is_byU16 (tableType cx)) eqn:H16; [|specialize (Hd eq_refl); lia].
  pose proof (le_u16 E H16) as [_ HN]. pose proof size_range. rewrite mflimit_iend in *.
  unfold LZ4_64Klimit, KB, MFLIMIT, COPYLENGTH, MINMATCH, MAX_DISTANCE, MAXD_LOG in *. lia.
Qed.

Lemma putPosition_spec m tbl (p ip ip' : Z) :
  frame dest (dest + cap) m0 m →
  source ≤ p < ip' → p ≤ mflimit cx → tbl_inv tbl ip → ip ≤ ip' →
  wp (LZ4_putPosition p tbl (tableType cx) (base cx))
     (λ tbl' m', m' = m ∧ tbl_inv tbl' ip') m.
Proof.
  intros F Hp Hpm Ht Hip. pose proof STEPSIZE_range. pose proof mflimit_iend. pose proof (le_iend E) as Hiend.
  unfold LZ4_putPosition. wp_apply hashPosition_spec; [apply source_mapped; (done || lia)|].
  intros h m1 [-> Hh]. by eapply putPositionOnHash_spec.
Qed.

Lemma getPosition_spec m tbl (ip : Z) :
  frame dest (dest + cap) m0 m → tbl_inv tbl ip → source < ip ≤ mflimit cx →
  wp (LZ4_getPosition ip tbl (tableType cx) (base cx))
     (λ q m', m' = m ∧ (passes cx ip q → valid ip q)) m.
Proof.
  intros F Ht Hip. pose proof STEPSIZE_range. pose proof mflimit_iend. pose proof (le_iend E) as Hiend.
  unfold LZ4_getPosition. wp_apply hashPosition_spec; [apply source_mapped; (done || lia)|].
  intros h m1 [-> Hh]. by apply getPositionOnHash_spec.
Qed.

(** * Finding a match *)

(** [refDelta] and [lowLimit] are the ones of the region of [q]. *)
Definition located (q refDelta lowLimit : Z) : Prop :=
  if is_usingExtDict (ce_dict cx) then
    (refDelta, lowLimit) = if q <? source then (dictDelta cx, ce_dictionary cx) else (0, source)
  else refDelta = 0 ∧ lowLimit = low.

(** Without external dictionary there is one region only. *)
Definition region_ok (refDelta lowLimit : Z) : Prop :=
  is_usingExtDict (ce_dict cx) = false → refDelta = 0 ∧ lowLimit = low.

Lemma located_region (q rd ll : Z) : located q rd ll → region_ok rd ll.
Proof. unfold located, region_ok. intros H He. by rewrite He in H. Qed.

Lemma locate_spec (q rd ll : Z) :
  region_ok rd ll → located q (locate cx q rd ll).1 (locate cx q rd ll).2.
Proof.
  unfold located, region_ok, locate. destruct (is_usingExtDict (ce_dict cx)); [|auto].
  intros _. by destruct (q <? source).
Qed.

(** The real address of a virtual one of the same region. *)
Lemma located_loc (q v rd ll : Z) :
  located q rd ll → (is_usingExtDict (ce_dict cx) = true → q < source ↔ v < source) →
  loc cx v = v + rd.
Proof.
  unfold located, loc. destruct (is_usingExtDict (ce_dict cx)); simpl; intros H Hs.
  - specialize (Hs eq_refl). destruct (Z.ltb_spec q source), (Z.ltb_spec v source); try lia; injection H as -> _; lia.
  - lia.
Qed.

(** The bytes of a candidate and of the text at [ip] are compared where they
    are. *)
Lemma compare_spec m (ip q rd ll : Z) :
  frame dest (dest + cap) m0 m → source < ip ≤ mflimit cx → valid ip q → located q rd ll →
  wp (let! a := LZ4_read32 (q + rd) in let! b := LZ4_read32 ip in ret (a =? b))
     (λ hit m', m' = m ∧ (hit = true → same q ip MINMATCH)) m.
Proof.
  intros F Hip (V1 & V2 & V3) Hl. pose proof mflimit_iend. pose proof (le_iend E) as Hiend. unfold MINMATCH in *.
  assert (Hq : loc cx q = q + rd) by (by eapply located_loc).
  wp_apply read32_spec; [rewrite <- Hq; apply loc_mapped; (done || lia)|].
  intros a m1 (-> & la & La & Ba & ->).
  wp_apply read32_spec; [apply source_mapped; (done || lia)|].
  intros b m1 (-> & lb & Lb & Bb & ->). apply wp_ret. split; [done|].
  intros Heq. zbool. apply native_inj in Heq; [|lia].
  pose proof (proj1 (bytes_at_eq m _ _ la lb Ba Bb ltac:(lia)) Heq) as Hb.
  intros i Hi. rewrite La in Hb. specialize (Hb i ltac:(lia)).
  rewrite <- (text_frame m), <- (text_frame m) by (done || lia).
  rewrite (loc_source (ip + i)), <- Hb by lia. f_equal.
  rewrite (located_loc q (q + i) rd ll); [lia|done|]. intros He. specialize (V3 He). lia.
Qed.

(** What a search from [fip] on ends with. *)
Definition found (fip : Z) (r : search_result) : Prop :=
  match r with
  | SNone tbl => tbl_inv tbl iend
  | SFound ip q _ tbl rd ll =>
      fip ≤ ip < mflimit cx ∧ valid ip q ∧ located q rd ll ∧ same q ip MINMATCH ∧
      tbl_inv tbl (ip + 1)
  end.

Lemma find_match_spec (fuel : nat) m (fip step nb fh rd ll : Z) tbl :
  frame dest (dest + cap) m0 m →
  source < fip ≤ mflimit cx + 1 → 1 ≤ step → 64 ≤ nb →
  nb + (mflimit cx + 1 - fip) < 2 ^ 32 →
  0 ≤ fh < table_entries (tableType cx) → tbl_inv tbl fip → region_ok rd ll →
  (Z.to_nat (mflimit cx + 1 - fip) < fuel)%nat →
  wp (find_match fuel cx fip step nb fh tbl rd ll)
     (λ r m', m' = m ∧ found fip r) m.
Proof.
  revert fip step nb fh rd ll tbl.
  induction fuel as [|fuel IH]; intros fip step nb fh rd ll tbl F Hf Hs Hn Hw Hh Ht Hr Hfu; [lia|].
  pose proof mflimit_iend. pose proof (le_iend E) as Hiend. pose proof STEPSIZE_range.
  simpl find_match. case_if; zbool.
  { apply wp_ret. split; [done|]. eapply tbl_inv_mono; [done|lia]. }
  wp_apply getPositionOnHash_spec; [done|done|lia|]. intros q m1 [-> Hq].
  pose proof (locate_spec q rd ll Hr) as Hloc.
  destruct (locate cx q rd ll) as [rd' ll']. simpl in Hloc.
  wp_apply hashPosition_spec; [apply source_mapped; (done || lia)|]. intros h' m1 [-> Hh'].
  wp_apply (putPositionOnHash_spec _ _ _ _ fip (fip + 1)); [done|lia|lia|done|lia|].
  intros tbl' m1 [-> Ht'].
  rewrite (u32_small (nb + 1)) by lia.
  assert (Hnext : wp (find_match fuel cx (fip + step) (Z.shiftr nb LZ4_skipTrigger) (nb + 1)
                        h' tbl' rd' ll')
    (λ r m', m' = m ∧ found fip r) m).
  { eapply wp_mono; [apply IH; try done; try lia|].
    - unfold LZ4_skipTrigger. rewrite Z.shiftr_div_pow2 by lia.
      apply (Z.div_le_lower_bound nb (2 ^ 6) 1); lia.
    - eapply tbl_inv_mono; [done|lia].
    - by eapply located_region.
    - intros r m' [-> Hp]. split; [done|]. destruct r; [done|].
      destruct Hp as (? & ?). split; [lia|done]. }
  case_if; [done|]. zbool.
  assert (Hv : valid fip q).
  { apply Hq. split; intros Hc; rewrite Hc in *; zbool; lia. }
  pose proof (compare_spec m fip q rd' ll' F ltac:(lia) Hv Hloc) as Hc.
  apply wp_bind_inv in Hc. eapply wp_seq; [exact Hc|]. intros a m1 Hc1. cbv beta in Hc1.
  apply wp_bind_inv in Hc1. eapply wp_seq; [exact Hc1|]. intros b m2 Hc2. cbv beta in Hc2.
  destruct Hc2 as [-> Hc2]. case_if; [|done].
  apply wp_ret. split; [done|]. split_and!; try done; try lia. by apply Hc2.
Qed.

(** * Catching up *)

Lemma catch_up_spec (fuel : nat) m (ip q anchor rd ll n : Z) :
  frame dest (dest + cap) m0 m → source ≤ anchor ≤ ip → ip ≤ mflimit cx →
  valid ip q → located q rd ll → same q ip n → 0 ≤ n →
  (Z.to_nat (ip - anchor) < fuel)%nat →
  wp (catch_up fuel ip q anchor rd ll)
     (λ '(ip', q') m', m' = m ∧ anchor ≤ ip' ≤ ip ∧ valid ip' q' ∧ located q' rd ll ∧
        same q' ip' (n + (ip - ip'))) m.
Proof.
  revert ip q n. induction fuel as [|fuel IH]; intros ip q n F Ha Hm Hv Hl Hs Hn Hf; [lia|].
  pose proof mflimit_iend. pose proof (le_iend E) as Hiend. simpl catch_up.
  assert (Hstop : wp (ret (ip, q)) (λ '(ip', q') m', m' = m ∧ anchor ≤ ip' ≤ ip ∧
                    valid ip' q' ∧ located q' rd ll ∧ same q' ip' (n + (ip - ip'))) m).
  { apply wp_ret. replace (n + (ip - ip)) with n by lia. split_and!; try done; lia. }
  case_if; [|done]. zbool.
  destruct Hv as (V1 & V2 & V3).
  assert (Hlow : low < q ∧ (is_usingExtDict (ce_dict cx) = true → q ≠ source)).
  { pose proof (le_ext E) as Hx. unfold located, dictDelta in Hl.
    destruct (is_usingExtDict (ce_dict cx)); [|split; [lia|done]].
    specialize (Hx eq_refl). destruct (Z.ltb_spec q source); injection Hl as -> ->; lia. }
  assert (Hl' : located (q - 1) rd ll).
  { unfold located in *. destruct (is_usingExtDict (ce_dict cx)); [|done].
    destruct Hlow as [_ Hne]. specialize (Hne eq_refl).
    destruct (Z.ltb_spec q source), (Z.ltb_spec (q - 1) source); (done || lia). }
  pose proof (text_frame m (ip - 1) F ltac:(lia)) as Ta.
  pose proof (text_frame m (q - 1) F ltac:(lia)) as Tb.
  rewrite (loc_source (ip - 1)) in Ta by lia.
  rewrite (located_loc (q - 1) (q - 1) rd ll Hl') in Tb by done.
  destruct (txt_Some (ip - 1) ltac:(lia)) as [a Ea]. destruct (txt_Some (q - 1) ltac:(lia)) as [b Eb].
  rewrite Ea in Ta. rewrite Eb in Tb.
  apply wp_bind. eapply wp_load8; [exact Ta|].
  apply wp_bind. eapply wp_load8; [rewrite <- Tb; f_equal; lia|].
  destruct (Z.eqb_spec (b2z a) (b2z b)) as [Hab|]; [|done]. apply b2z_inj in Hab as ->.
  eapply wp_mono; [apply (IH (ip - 1) (q - 1) (n + 1)); try done; try lia|].
  - split; [lia|]. split; [lia|]. intros He. specialize (V3 He). destruct Hlow as [_ Hne].
    specialize (Hne He). lia.
  - intros i Hi. destruct (decide (i = 0)) as [->|]; [rewrite !Z.add_0_r; congruence|].
    specialize (Hs (i - 1) ltac:(lia)).
    by replace (q - 1 + i) with (q + (i - 1)) by lia;
      replace (ip - 1 + i) with (ip + (i - 1)) by lia.
  - intros [ip' q'] m' (-> & ? & ? & ? & Hs'). split; [done|]. split; [lia|].
    replace (n + (ip - ip')) with (n + 1 + (ip - 1 - ip')) by lia. done.
Qed.

(** * Encoding *)
Lemma encode_literals_spec m (ip anchor op : Z) :
  frame dest (dest + cap) m0 m → source ≤ anchor ≤ ip → ip ≤ mflimit cx → dest ≤ op →
  accounted op anchor →
  wp (encode_literals cx ip anchor op)
     (λ r m', frame op (dest + cap) m m' ∧
        match r with
        | None => outputLimited cx = true ∧ ¬ roomy N cap
        | Some (op', tk) =>
            tk = op ∧ op' = op + zlen (open_seq (piece anchor ip)) ∧
            bytes_at m' op (open_seq (piece anchor ip)) ∧ op' + 2 ≤ dest + cap
        end) m.
Proof.
  intros F Ha Hip Hop Hacc. pose proof mflimit_iend. pose proof (le_iend E) as Hiend. pose proof size_range.
  unfold encode_literals. rewrite (u32_small (ip - anchor)) by lia.
  unfold LASTLITERALS, accounted, roomy in *.
  pose proof (length_nibble_ext (ip - anchor) ltac:(lia)) as HX.
  pose proof (nibble_ext_bound (ip - anchor) ltac:(lia)) as HB.
  case_if.
  { apply wp_ret. split; [reflexivity|]. zbool. split; [done|].
    destruct (re_lim RE ltac:(done)) as (Ho & _). rewrite Ho in *. zdiv. }
  set (d := op + 1 + zlen (nibble_ext (ip - anchor))).
  assert (Hroom : d + (ip - anchor) + 7 ≤ dest + cap ∧ d + 8 ≤ dest + cap).
  { destruct (re_room RE) as [Hr|[Hlim _]]; unfold roomy in *; [zdiv|].
    rewrite Hlim in *. zbool. destruct (re_lim RE Hlim) as (Ho & _). rewrite Ho in *.
    unfold d. rewrite HX. case_if; zbool; zdiv. }
  clear HX HB Hacc.
  pose proof (wild_end_bounds d (d + (ip - anchor))) as (W1 & W2 & W3).
  apply (put_piece_spec m anchor ip op (λ o, LZ4_wildCopy o anchor (o + (ip - anchor)))
    (λ o, ret (Some (o + (ip - anchor), op))) _ (wild_end d (d + (ip - anchor))));
    fold d; try done; try lia.
  - intros m1 F1. apply wild_piece; (done || lia).
  - intros m2 F2 B2 Hd. apply wp_ret. split_and!; (done || lia).
Qed.

(** The match of [ip] with [q] that ends at [ip'] could not be longer. *)
Definition longest (ip q ip' : Z) : Prop :=
  ip' = matchlimit cx ∨ txt ip' ≠ txt (q + (ip' - ip)).

Definition measured (ip q : Z) (r : Z * Z) : Prop :=
  let '(ml, ip') := r in
  0 ≤ ml ∧ ip' = ip + MINMATCH + ml ∧ ip' ≤ matchlimit cx ∧
  same q ip (MINMATCH + ml) ∧ longest ip q ip'.

Lemma measure_ext_spec m (ip q : Z) :
  frame dest (dest + cap) m0 m → source ≤ ip ≤ mflimit cx →
  is_usingExtDict (ce_dict cx) = true → low ≤ q → q + MINMATCH ≤ source → same q ip MINMATCH →
  wp (measure_match cx ip q (dictDelta cx) (ce_dictionary cx))
     (λ r m', m' = m ∧ measured ip q r) m.
Proof.
  intros F Hip Hd Hq Hqs Hs. pose proof mflimit_iend. pose proof (le_iend E) as Hiend. pose proof matchlimit_iend.
  pose proof size_range. unfold measured, longest, MINMATCH in *. unfold measure_match.
  rewrite Hd, Z.eqb_refl. change MINMATCH with 4. simpl andb. cbv iota.
  replace (ip + (ce_dictEnd cx - (q + dictDelta cx))) with (ip + (source - q))
    by (unfold dictDelta; lia).
  set (limit := if ip + (source - q) >? matchlimit cx then matchlimit cx else ip + (source - q)).
  assert (Hlim : ip + 4 ≤ limit ≤ matchlimit cx ∧ limit - ip ≤ source - q ∧
                 (limit = matchlimit cx ∨ limit = ip + (source - q))).
  { unfold limit. case_if; zbool; lia. }
  clearbody limit. destruct Hlim as (L1 & L2 & L3).
  wp_apply (count_text_spec m (ip + 4) (q + 4)); [done|lia..| |lia|].
  { intros v Hv. rewrite loc_low by (done || lia). lia. }
  intros n m1 (-> & Hn & S1 & D1). pose proof (same_app _ _ _ _ Hs S1) as S2.
  case_if; zbool.
  - wp_apply (count_text_spec m (ip + (4 + n)) source); [done|lia..| |lia|].
    { intros v Hv. rewrite loc_source; lia. }
    intros k m1 (-> & Hk & S3 & D3). apply wp_ret. rewrite u32_small by lia.
    split; [done|]. split; [lia|]. split; [lia|]. split; [lia|].
    destruct L3 as [->| ->].
    { replace k with 0 by lia. rewrite !Z.add_0_r. split; [done|]. left. lia. }
    replace (4 + (n + k)) with (4 + n + k) by lia. split.
    + apply same_app; [done|]. by replace (q + (4 + n)) with source by lia.
    + destruct D3 as [->|D3]; [left; lia|right].
      by replace (q + (ip + (4 + n) + k - ip)) with (source + k) by lia.
  - apply wp_ret. split; [done|]. split_and!; try done; try lia.
    destruct D1 as [->|D1]; [lia|right].
    replace (q + (ip + (4 + n) - ip)) with (q + 4 + n) by lia.
    by replace (ip + (4 + n)) with (ip + 4 + n) by lia.
Qed.

Lemma measure_match_spec m (ip q rd ll : Z) :
  frame dest (dest + cap) m0 m → source ≤ ip ≤ mflimit cx →
  valid ip q → located q rd ll → same q ip MINMATCH →
  wp (measure_match cx ip q rd ll) (λ r m', m' = m ∧ measured ip q r) m.
Proof.
  intros F Hip (V1 & _ & V3) Hl Hs. pose proof mflimit_iend. pose proof (le_iend E) as Hiend. pose proof matchlimit_iend.
  destruct (decide (is_usingExtDict (ce_dict cx) = true ∧ q < source)) as [[Hd Hq]|Hne].
  { specialize (V3 Hd). unfold located in Hl. rewrite Hd in Hl.
    destruct (Z.ltb_spec q source); [|lia]. injection Hl as -> ->.
    apply measure_ext_spec; (done || lia). }
  assert (Hloc : ∀ v, q ≤ v → loc cx v = v).
  { intros v Hv. destruct (is_usingExtDict (ce_dict cx)) eqn:Hd; [|by apply loc_prefix].
    apply loc_source. naive_solver lia. }
  assert (is_usingExtDict (ce_dict cx) && (ll =? ce_dictionary cx) = false) as Hb.
  { destruct (is_usingExtDict (ce_dict cx)) eqn:Hd; [|done].
    unfold located in Hl. rewrite Hd in Hl. destruct (Z.ltb_spec q source); [naive_solver|].
    injection Hl as -> ->. apply Z.eqb_neq. intros Hc. by apply (le_ext E Hd). }
  unfold measure_match. rewrite Hb. unfold measured, longest, MINMATCH in *.
  change MINMATCH with 4.
  wp_apply (count_text_spec m (ip + 4) (q + 4)); [done|lia..| |lia|].
  { intros v Hv. rewrite Hloc; lia. }
  intros n m1 (-> & Hn & S1 & D1). apply wp_ret. split; [done|].
  split; [lia|]. split; [lia|]. split; [lia|]. split; [by apply same_app|].
  destruct D1 as [->|D1]; [left; lia|right].
  replace (q + (ip + (4 + n) - ip)) with (q + 4 + n) by lia.
  by replace (ip + (4 + n)) with (ip + 4 + n) by lia.
Qed.

(** A match is at least as long as any common text. *)
Lemma longest_le (ip q ip' e : Z) :
  longest ip q ip' → ip ≤ ip' → same q ip (e - ip) → e ≤ matchlimit cx → e ≤ ip'.
Proof.
  intros [->|Hd] Hip Hs He; [done|]. destruct (decide (e ≤ ip')); [done|]. exfalso. apply Hd.
  specialize (Hs (ip' - ip) ltac:(lia)). replace (ip + (ip' - ip)) with ip' in Hs by lia. done.
Qed.

(** A match length that passes the output test leaves room for the token and
    the offset that may follow, if the input is not too large. *)
Lemma match_room (op ml : Z) :
  0 ≤ ml ≤ N → accounted (op + zlen (nibble_ext ml)) (iend - 5) → accounted op (iend - ml) →
  (outputLimited cx = true → op + 6 + Z.shiftr ml 8 ≤ dest + cap) →
  op + zlen (nibble_ext ml) + 3 ≤ dest + cap.
Proof.
  intros Hml Hacc Hop Hg. pose proof size_range. unfold accounted in Hacc, Hop.
  destruct (re_room RE) as [Hr|[Hl HN]]; [unfold roomy in *; lia|].
  specialize (Hg Hl). rewrite Z.shiftr_div_pow2 in Hg by lia. change (2 ^ 8) with 256 in Hg.
  rewrite length_nibble_ext in * by lia. unfold tested_room, SMALL_INPUT, LARGE_INPUT, KB in HN.
  clear Hacc. destruct HN as [HN|[HN Hc]]; case_if; zbool; zdiv.
Qed.

Lemma encode_match_length_spec m (op tk k ml : Z) :
  frame dest (dest + cap) m0 m → dest ≤ tk < op →
  m !! tk = Some (z2b (16 * k)) → 0 ≤ k ≤ 15 → 0 ≤ ml ≤ N →
  accounted (op + zlen (nibble_ext ml)) (iend - 5) → accounted op (iend - ml) →
  wp (encode_match_length cx op tk ml)
     (λ r m', frame tk (dest + cap) m m' ∧ (∀ i, tk < i < op → m' !! i = m !! i) ∧
        match r with
        | None => outputLimited cx = true ∧ ¬ roomy N cap
        | Some op' =>
            op' = op + zlen (nibble_ext ml) ∧ op' + 3 ≤ dest + cap ∧
            m' !! tk = Some (z2b (16 * k + Z.min ml 15)) ∧ bytes_at m' op (nibble_ext ml)
        end) m.
Proof.
  intros F Htk Htb Hk Hml Hacc Hop. pose proof (dest_mapped m F) as Hdm.
  pose proof size_range. unfold encode_match_length. change (1 + LASTLITERALS) with 6.
  case_if.
  { apply wp_ret. split; [reflexivity|]. split; [done|]. zbool. split; [done|].
    destruct (re_lim RE ltac:(done)) as (Ho & _). rewrite Ho in *.
    unfold accounted, roomy in *. rewrite length_nibble_ext in Hacc by lia.
    rewrite Z.shiftr_div_pow2 in * by lia. change (2 ^ 8) with 256 in *. intros Hr.
    destruct (Z.ltb_spec ml 15); zdiv. }
  assert (Hroom : op + zlen (nibble_ext ml) + 3 ≤ dest + cap).
  { apply match_room; [done..|]. intros Hl. rewrite Hl in *. zbool.
    destruct (re_lim RE Hl) as (Ho & _). rewrite Ho in *. lia. }
  apply (put_match_length_spec m put_match_run (dest + cap) op tk k ml (λ o, ret (Some o)));
    [apply put_match_run_spec|lia|lia| |done|done|lia|].
  - apply (mapped_sub _ _ _ _ _ Hdm); lia.
  - intros m2 F2 C2 Htk' B2. apply wp_ret. split_and!; (done || lia).
Qed.

Lemma encode_last_literals_spec m (anchor op : Z) :
  frame dest (dest + cap) m0 m → source ≤ anchor ≤ iend → dest ≤ op → accounted op anchor →
  wp (encode_last_literals cx anchor op)
     (λ n m', frame op (dest + cap) m m' ∧
        (n = 0 ∧ outputLimited cx = true ∧ ¬ roomy N cap ∨
         n = op - dest + zlen (ser_last (piece anchor iend)) ∧ n ≤ cap ∧
         bytes_at m' op (ser_last (piece anchor iend)))) m.
Proof.
  intros F Ha Hop Hacc. pose proof size_range. unfold encode_last_literals.
  assert (Hu : usize (iend - anchor) = iend - anchor).
  { unfold usize, ptr_bits. pose proof STEPSIZE_range. apply wrap_small. split; [lia|].
    apply Z.lt_le_trans with (2 ^ 32); [lia|]. apply Z.pow_le_mono_r; lia. }
  rewrite Hu. clear Hu.
  rewrite ser_last_open. unfold accounted, roomy in *.
  pose proof (nibble_ext_bound (iend - anchor) ltac:(lia)) as HB.
  replace (iend - anchor + 255 - RUN_MASK) with (iend - anchor + 240)
    by (change RUN_MASK with 15; lia).
  rewrite nibble_ext_div by lia.
  case_if.
  { apply wp_ret. split; [reflexivity|]. left. zbool. split; [done|]. split; [done|].
    destruct (re_lim RE ltac:(done)) as (_ & Ho & Hcap). rewrite Ho, u32_small in * by lia. lia. }
  assert (Hroom : op + 1 + zlen (nibble_ext (iend - anchor)) + (iend - anchor) ≤ dest + cap).
  { destruct (re_room RE) as [Hr|[Hlim _]]; unfold roomy in *; [lia|].
    rewrite Hlim in *. zbool. destruct (re_lim RE Hlim) as (_ & Ho & Hcap).
    rewrite Ho, u32_small in * by lia. lia. }
  clear HB Hacc.
  apply (put_piece_spec m anchor iend op (λ o, memcpy o anchor (iend - anchor))
    (λ o, ret (o + (iend - anchor) - dest)) _
    (op + 1 + zlen (nibble_ext (iend - anchor)) + (iend - anchor))); try done; try lia.
  - intros m1 F1. apply memcpy_piece; (done || lia).
  - intros m2 F2 B2 Hd. apply wp_ret. split; [done|]. right. split_and!; (done || lia).
Qed.

(** * The main loop *)

(** What the compressor returns: a block, or 0 when the destination is too
    small for what was limited to it. *)
Definition outcome_ok m (n : Z) : Prop :=
  n = 0 ∧ outputLimited cx = true ∧ ¬ roomy N cap ∨ compressed m n.

Lemma finish m (seqs : list sequence) (anchor op : Z) :
  progress m seqs anchor op →
  wp (encode_last_literals cx anchor op)
     (λ n m', frame dest (dest + cap) m0 m' ∧ outcome_ok m' n) m.
Proof.
  intros P. pose proof P as [P1 P2 P3 P4 P5 P6 P7]. pose proof size_range as [_ He].
  eapply wp_mono; [apply encode_last_literals_spec; (done || lia)|].
  intros n m' [F [Hz|(Hn & Hc & Hb)]]; (split; [solve_frame|]); [by left|right].
  rewrite He in *. by eapply Lz4Text.close_block.
Qed.

(** The states of the loop at its two labels. *)
Definition at_label m (seqs : list sequence) (st : comp_state) (pc : label) : Prop :=
  let ip := cs_ip st in
  match pc with
  | LSearch fh =>
      progress m seqs (cs_anchor st) (cs_op st) ∧
      source < ip ≤ mflimit cx + 1 ∧ cs_anchor st ≤ ip ∧
      0 ≤ fh < table_entries (tableType cx) ∧
      tbl_inv (cs_table st) ip ∧ region_ok (cs_refDelta st) (cs_lowLimit st)
  | LNext q tk =>
      progress m seqs (cs_anchor st) tk ∧
      source ≤ ip ≤ mflimit cx ∧ cs_anchor st ≤ ip ∧
      bytes_at m tk (open_seq (piece (cs_anchor st) ip)) ∧
      cs_op st = tk + zlen (open_seq (piece (cs_anchor st) ip)) ∧
      cs_op st + 2 ≤ dest + cap ∧
      valid ip q ∧ located q (cs_refDelta st) (cs_lowLimit st) ∧
      ∃ e, ip + MINMATCH ≤ e ≤ matchlimit cx ∧ same q ip (e - ip) ∧ tbl_inv (cs_table st) e
  end.

Lemma test_next_spec m (seqs : list sequence) (ip op rd ll : Z) tbl :
  progress m seqs ip op → source + 2 ≤ ip ≤ mflimit cx → op + 3 ≤ dest + cap →
  tbl_inv tbl ip → region_ok rd ll →
  wp (test_next cx ip ip op tbl rd ll)
     (λ '(st, pc) m', cs_anchor st = ip ∧ at_label m' seqs st pc ∧
        match pc with LSearch _ => True | LNext _ _ => cs_op st = op + 1 end) m.
Proof.
  intros P Hip Hop Ht Hr. pose proof P as [F _ Pop Pb _ _ _]. pose proof mflimit_iend. pose proof (le_iend E) as Hiend.
  pose proof matchlimit_iend. pose proof STEPSIZE_range. unfold test_next.
  wp_apply (putPosition_spec m _ _ ip ip); [done|lia|lia|done|lia|]. intros tbl1 m1 [-> Ht1].
  wp_apply (getPosition_spec m _ ip); [done|done|lia|]. intros q m1 [-> Hq].
  pose proof (locate_spec q rd ll Hr) as Hloc. destruct (locate cx q rd ll) as [rd' ll'].
  simpl in Hloc.
  wp_apply (putPosition_spec m _ _ ip (ip + 1)); [done|lia|lia|done|lia|]. intros tbl2 m1 [-> Ht2].
  apply (wp_seq _ _ (λ hit m', m' = m ∧ (hit = true → valid ip q ∧ same q ip MINMATCH))).
  { case_if; [|by apply wp_ret]. zbool.
    assert (Hv : valid ip q) by (apply Hq; split; intros Hc; rewrite ?Hc in *; zbool; lia).
    eapply wp_mono; [apply (compare_spec m ip q rd' ll'); (done || lia)|].
    intros hit m' [-> Hh]. split; [done|]. auto. }
  intros hit m1 [-> Hh]. destruct hit.
  - destruct (Hh eq_refl) as [Hv Hs]. pose proof (dest_mapped m F) as Hdm.
    wp_apply store8_spec; [solve_mapped|]. intros _ m1 [F1 B1]. apply wp_ret. split; [done|].
    unfold at_label. cbn [cs_ip cs_anchor cs_op cs_refDelta cs_lowLimit cs_table].
    assert (open_seq (piece ip ip) = [z2b 0]) as ->.
    { unfold piece. by replace (Z.to_nat (ip - ip)) with O by lia. }
    split; [|done]. split; [|split_and!; try done; try lia; simpl; try lia].
    { destruct P. constructor; try done; [solve_frame|].
      eapply bytes_at_frame; [exact F1|lia|done]. }
    exists (ip + 4). unfold MINMATCH in *. replace (ip + 4 - ip) with 4 by lia.
    split_and!; try done; try lia. eapply tbl_inv_mono; [done|lia].
  - wp_apply hashPosition_spec; [apply source_mapped; (done || lia)|]. intros fh m1 [-> Hfh].
    apply wp_ret. split; [done|]. simpl.
    split_and!; try done; try lia. by eapply located_region.
Qed.

(** One step from the search to a match. *)
Lemma search_spec m (seqs : list sequence) st (fh : Z) :
  at_label m seqs st (LSearch fh) →
  wp (find_match (Z.to_nat (iend - source) + 200) cx (cs_ip st) 1
        (u32 (Z.shiftl (ce_acceleration cx) LZ4_skipTrigger)) fh
        (cs_table st) (cs_refDelta st) (cs_lowLimit st))
     (λ r m', m' = m ∧ found (cs_ip st) r) m.
Proof.
  intros (P & Hip & Ha & Hh & Ht & Hr). pose proof P as [F _ _ _ _ _ _].
  pose proof mflimit_iend. pose proof (le_iend E) as Hiend. pose proof size_range. pose proof (le_acc E).
  assert (Hnb : u32 (Z.shiftl (ce_acceleration cx) LZ4_skipTrigger) = ce_acceleration cx * 64).
  { unfold LZ4_skipTrigger. rewrite Z.shiftl_mul_pow2 by lia. apply u32_small. lia. }
  rewrite Hnb. apply find_match_spec; (done || lia).
Qed.

(** The table and the result when the loop ends. *)
Definition loop_post m (r : table * Z) : Prop :=
  frame dest (dest + cap) m0 m ∧ tbl_inv r.1 iend ∧ outcome_ok m r.2.

Lemma stopped_post m tbl (e : Z) :
  frame dest (dest + cap) m0 m → tbl_inv tbl e → e ≤ iend →
  outputLimited cx = true ∧ ¬ roomy N cap → loop_post m (tbl, 0).
Proof.
  intros F Ht He Hl. split; [done|]. split; [by eapply tbl_inv_mono|]. by left.
Qed.

Lemma finish_loop m (seqs : list sequence) (anchor op e : Z) tbl :
  progress m seqs anchor op → tbl_inv tbl e → e ≤ iend →
  wp (let! n := encode_last_literals cx anchor op in ret (tbl, n)) (λ r m', loop_post m' r) m.
Proof.
  intros P Ht He. eapply wp_seq; [by eapply finish|]. intros n m' [F Ho].
  apply wp_ret. split; [done|]. split; [by eapply tbl_inv_mono|done].
Qed.

Definition label_weight (pc : label) : Z := match pc with LSearch _ => 1 | LNext _ _ => 0 end.

(** The main loop produces a block, or gives up on a limited output. *)
Lemma compress_loop_spec (fuel : nat) m (seqs : list sequence) st (pc : label) :
  at_label m seqs st pc →
  2 * (iend - cs_anchor st) + label_weight pc < Z.of_nat fuel →
  wp (compress_loop fuel cx st pc) (λ r m', loop_post m' r) m.
Proof.
  revert m seqs st pc. induction fuel as [|fuel IH]; intros m seqs st pc Hat Hf.
  { pose proof (le_iend E). destruct pc; simpl in Hat, Hf; destruct Hat as ([] & _); lia. }
  pose proof mflimit_iend. pose proof (le_iend E) as Hiend. pose proof matchlimit_iend. pose proof size_range.
  destruct pc as [fh|q tk]; cbn [compress_loop].
  - wp_apply search_spec; [exact Hat|]. intros r m1 [-> Hfound].
    destruct Hat as (P & Hip & Ha & Hh & Ht & Hr). pose proof P as [F Pa Pop _ _ Pacc _].
    destruct r as [tbl|ip q fh' tbl rd ll]; [by eapply finish_loop|].
    destruct Hfound as (R1 & R2 & R3 & R4 & R5).
    wp_apply (catch_up_spec _ m ip q _ rd ll 4); [done|lia|lia|done..|lia|lia|].
    intros [ip' q'] m1 (-> & C1 & C2 & C3 & C4).
    wp_apply (encode_literals_spec m ip'); [done|lia|lia|lia|done|].
    intros [[op' tk']|] m1 [F1 Hr1].
    2: { apply wp_ret. apply (stopped_post _ _ (ip + 1)); [solve_frame|done|lia|done]. }
    destruct Hr1 as (-> & -> & B1 & Hro).
    apply (IH _ seqs); [|simpl in *; lia].
    unfold at_label. cbn [cs_ip cs_anchor cs_op cs_refDelta cs_lowLimit cs_table].
    split; [|split_and!; try done; try lia].
    { destruct P. constructor; try done; [solve_frame|]. eapply bytes_at_frame; [exact F1|lia|done]. }
    exists (ip + 4). unfold MINMATCH in *. replace (ip + 4 - ip') with (4 + (ip - ip')) by lia.
    split_and!; try done; try lia. eapply tbl_inv_mono; [done|lia].
  - destruct Hat as (P & Hip & Ha & Hb & Hop & Hro & Hv & Hl & e & He & Hs & Ht).
    pose proof P as [F Pa Pop _ _ Pacc _]. pose proof (dest_mapped m F) as Hdm.
    set (ip := cs_ip st) in *. set (op := cs_op st) in *.
    pose proof (length_open_seq (piece (cs_anchor st) ip)) as Hol.
    rewrite length_piece in Hol by lia.
    pose proof (nibble_ext_bound (ip - cs_anchor st) ltac:(lia)) as Hnb.
    wp_apply writeLE16_spec; [solve_mapped|]. intros _ m1 [F1 B1].
    assert (F1' : frame dest (dest + cap) m0 m1) by solve_frame.
    wp_apply (measure_match_spec m1); [done|lia|done|done| |].
    { intros i Hi. apply Hs. unfold MINMATCH in *. lia. }
    intros [ml ip'] m2 (-> & Hml & -> & Hml' & Hs' & Hlong).
    pose proof (longest_le _ _ _ e Hlong ltac:(unfold MINMATCH; lia) Hs ltac:(lia)) as Hlong'.
    unfold MINMATCH in *.
    eapply wp_seq; [apply (encode_match_length_spec m1 (op + 2) tk
      (Z.min (ip - cs_anchor st) 15) ml)|]; try done; try lia.
    + rewrite (frame_eq _ _ _ _ F1) by lia. unfold open_seq in Hb. rewrite length_piece in Hb by lia.
      apply Hb.
    + destruct (close_accounted tk (cs_anchor st) ip q ml Pacc ltac:(lia) ltac:(unfold MINMATCH; lia)
        Hml) as [_ Hacc]. unfold accounted, MINMATCH in *. lia.
    + unfold accounted in *. lia.
    + intros [op'|] m2 (F2 & C2 & Hr2);
        [|apply wp_ret; eapply stopped_post; [solve_frame|done|lia|done]].
      destruct Hr2 as (-> & Hro' & Htk' & B2).
      pose proof (close_seq m m1 m2 seqs _ ip q tk op _ ml P ltac:(lia) ltac:(lia) Hb Hop F1 Hro B1 F2 C2
        Htk' B2 eq_refl (valid_reach _ _ Hv) Hs' Hml ltac:(unfold MINMATCH; lia)) as P2. unfold MINMATCH in P2.
      case_if; zbool; [eapply finish_loop; [done..|lia]|].
      eapply wp_seq; [eapply (test_next_spec m2); [exact P2|lia|lia| |]|].
      * eapply tbl_inv_mono; [done|lia].
      * by eapply located_region.
      * intros [st' pc'] m3 (Hanc & Hat' & _). eapply IH; [done|]. rewrite Hanc.
        simpl in Hf. destruct pc'; simpl; lia.
Qed.

End loop.
