(* ===== verification/Lz4CompressApi.v ===== *)
(** The theorems about the one-shot block compressors of lz4.h, and the round
    trip through the decompressor. *)

From Stdlib Require Import ZArith Lia Strings.Byte.
From stdpp Require Import base gmap list fin_maps numbers.
From S2P Require Import Prelude Mem Lz4Common Lz4Format Lz4Decompress Lz4DecompressProofs Lz4DecompressApi Lz4Compress Lz4Text Lz4CompressProofs.

(** * The generic compressor *)

Section generic.
Context {arch : Arch}.
Implicit Types (m : mem).

Lemma generic_region (ctx : LZ4_stream_t_internal) (source dest N cap : Z)
    (lim : limitedOutput_directive) (tt : tableType_t) (dict : dict_directive)
    (di : dictIssue_directive) (acc : Z) (hist : list byte) :
  (dict = noDict → hist = []) → (dict = withPrefix64k → zlen hist = dictSize ctx) →
  region_ok (generic_env ctx source dest N cap lim tt dict di acc) hist 0
    match dict with
    | withPrefix64k => source - dictSize ctx
    | noDict | usingExtDict => source
    end.
Proof.
  intros Hn Hp He. simpl in *. split; [done|].
  destruct dict; [rewrite Hn by done; simpl; lia|rewrite Hp by done; lia|done].
Qed.

(** From a table of old positions, [LZ4_compress_generic] leaves a table of old
    positions and of positions of the input. *)
Lemma compress_generic_spec m (ctx : LZ4_stream_t_internal) (source dest maxOut cap : Z)
    (lim : limitedOutput_directive) (tt : tableType_t) (dict : dict_directive)
    (di : dictIssue_directive) (acc : Z) (hist x : list byte) (Old : Z → Prop) :
  let cx := generic_env ctx source dest (zlen x) maxOut lim tt dict di acc in
  loop_env cx hist x m cap Old → room_env cx x cap →
  (dict = withPrefix64k → zlen hist = dictSize ctx) →
  (∀ h, 0 ≤ h < table_entries tt → Old (entry_pos cx (default 0 (hashTable ctx !! h)))) →
  wp (LZ4_compress_generic ctx source dest (zlen x) maxOut lim tt dict di acc)
     (λ '(ctx', n) m', frame dest (dest + cap) m m' ∧ outcome_ok cx hist x cap m' n ∧
        ∃ tbl, ctx' = with_table ctx tbl ∧ tbl_inv cx Old tbl (source + zlen x)) m.
Proof.
  intros cx E R Hp Hold. unfold LZ4_compress_generic. fold cx.
  pose proof (size_range cx hist x m cap Old E) as [HN Hend].
  assert ((u32 (zlen x) >? u32 LZ4_MAX_INPUT_SIZE) = false) as ->.
  { change (u32 LZ4_MAX_INPUT_SIZE) with 0x7E000000. rewrite u32_small by lia.
    rewrite Z.gtb_ltb. apply Z.ltb_ge. lia. }
  assert (is_byU16 tt && (zlen x >=? LZ4_64Klimit) = false) as ->.
  { destruct (is_byU16 tt) eqn:Ht; [|done]. simpl. rewrite Z.geb_leb. apply Z.leb_gt.
    by apply (le_u16 _ _ _ _ _ _ E). }
  assert (Ht : tbl_inv cx Old (hashTable ctx) source) by (intros h Hh; left; by apply Hold).
  assert (P : progress source dest hist x m cap m [] source dest) by (by apply progress_start).
  case_if; zbool.
  { wp_apply (finish cx hist x m cap Old E R m [] source dest P).
    intros n m' [F Ho]. apply wp_ret. split; [done|]. split; [done|].
    exists (hashTable ctx). split; [by destruct ctx|]. eapply tbl_inv_mono; [done|lia]. }
  pose proof (mflimit_iend cx hist x m cap Old E) as Hmf. pose proof STEPSIZE_range.
  unfold LZ4_minLength, MFLIMIT, COPYLENGTH, MINMATCH in *.
  assert (F : frame dest (dest + cap) m m) by reflexivity.
  wp_apply (putPosition_spec cx hist x m cap Old E m _ source source (source + 1)); try done;
    try (simpl in *; lia). intros tbl m1 [-> Ht1].
  wp_apply hashPosition_spec; [eapply source_mapped; [apply (loop_text _ _ _ _ _ _ E)|done|simpl in *; lia..]|].
  intros fh m1 [-> Hfh].
  eapply wp_seq; [apply (compress_loop_spec cx hist x m cap Old E R _ _ [])|].
  - unfold at_label. cbn [cs_ip cs_anchor cs_op cs_refDelta cs_lowLimit cs_table].
    split; [done|]. split; [simpl in *; lia|]. split; [lia|]. split; [done|]. split; [done|].
    apply generic_region; [|done]. apply (le_hist _ _ _ _ _ _ E).
  - simpl in *. lia.
  - intros [tbl' n] m' (F' & Ht' & Ho). apply wp_ret. split; [done|]. split; [done|].
    exists tbl'. split; [done|]. eapply tbl_inv_mono; [exact Ht'|]. simpl in *. lia.
Qed.

End generic.

(** * Arguments and results *)

(** The input [x] at [source] and a destination of [cap] bytes apart from it.
    No object lies in the first 64 KB of the address space. *)
Record comp_args (m : mem) (source dest : Z) (x : list byte) (cap : Z) : Prop := {
  ca_input : bytes_at m source x;
  ca_dest : mapped m dest cap;
  ca_apart : apart source (zlen x) dest cap;
  ca_cap : 0 ≤ cap;
  ca_size : zlen x ≤ LZ4_MAX_INPUT_SIZE;
  ca_addr : MAX_DISTANCE ≤ source
}.

(** A block at [dest] of size [n], at most [cap], whose text is [x]. *)
Definition block_at (m : mem) (dest cap : Z) (hist x : list byte) (n : Z) : Prop :=
  ∃ seqs l, end_ok seqs l ∧ block_text hist seqs l = Some x ∧
    n = zlen (block seqs l) ∧ n ≤ cap ∧ bytes_at m dest (block seqs l).

(** ** Histories *)

(** The text [l] at [a], where the [n] bytes at [src] may have been written over it
    since: a caller may reuse the oldest part of its buffer for the next block. *)
Definition intact (m : mem) (a : Z) (l : list byte) (src n : Z) : Prop :=
  ∀ i b, l !! i = Some b → a + Z.of_nat i < src ∨ src + n ≤ a + Z.of_nat i →
    m !! (a + Z.of_nat i) = Some b.

Lemma bytes_at_intact (m : mem) (a : Z) (l : list byte) (src n : Z) :
  bytes_at m a l → intact m a l src n.
Proof. rewrite bytes_at_lookup. intros H i b Hi _. by apply H. Qed.

Lemma intact_nil (m : mem) (a src n : Z) : intact m a [] src n.
Proof. intros i b Hi. by rewrite lookup_nil in Hi. Qed.

Lemma intact_suffix (m : mem) (a : Z) (l : list byte) (src n : Z) (k : nat) :
  intact m a l src n → intact m (a + Z.of_nat k) (drop k l) src n.
Proof.
  intros H i b Hi. rewrite lookup_drop in Hi.
  replace (a + Z.of_nat k + Z.of_nat i) with (a + Z.of_nat (k + i)) by lia. by apply H.
Qed.

Lemma intact_over (m : mem) (a : Z) (l1 l2 : list byte) (src n : Z) :
  src ≤ a → a + zlen l1 ≤ src + n → bytes_at m (a + zlen l1) l2 → intact m a (l1 ++ l2) src n.
Proof.
  intros Hs He Hb i b Hi Hout. rewrite lookup_app_r in Hi by lia. rewrite bytes_at_lookup in Hb.
  apply Hb in Hi. replace (a + Z.of_nat i) with (a + zlen l1 + Z.of_nat (i - length l1)) by lia. done.
Qed.

(** The end of the text that the new block does not reach is still there. *)
Lemma intact_drop (m : mem) (a : Z) (l : list byte) (src n : Z) (k : nat) :
  intact m a l src n → apart (a + Z.of_nat k) (zlen (drop k l)) src n →
  bytes_at m (a + Z.of_nat k) (drop k l).
Proof.
  intros H Ha. rewrite bytes_at_lookup. intros i b Hi. pose proof (lookup_lt_Some _ _ _ Hi) as Hl.
  rewrite lookup_drop in Hi. replace (a + Z.of_nat k + Z.of_nat i) with (a + Z.of_nat (k + i)) by lia.
  apply (H _ _ Hi). unfold apart in Ha. lia.
Qed.

(** All of it is readable, with the bytes of the block or its own. *)
Lemma intact_mapped (m : mem) (a : Z) (l : list byte) (src : Z) (x : list byte) :
  intact m a l src (zlen x) → bytes_at m src x → mapped m a (zlen l).
Proof.
  intros H Hx j Hj. destruct (decide (src ≤ j < src + zlen x)) as [Hin|Hout].
  - by apply (bytes_at_mapped _ _ _ Hx).
  - destruct (lookup_lt_is_Some_2 l (Z.to_nat (j - a))) as [b Hb]; [lia|].
    exists b. replace j with (a + Z.of_nat (Z.to_nat (j - a))) by lia. apply (H _ _ Hb). lia.
Qed.

Lemma copy_back_extend (n : nat) (off : Z) (a h out : list byte) :
  copy_back n off h = Some out → copy_back n off (a ++ h) = Some (a ++ out).
Proof.
  revert h. induction n as [|n IH]; intros h H; simpl in *.
  - by injection H as <-.
  - case_match eqn:E; [|done]. zbool.
    assert ((1 <=? off) && (off <=? zlen (a ++ h)) = true) as ->.
    { rewrite length_app. apply andb_true_iff. split; apply Z.leb_le; lia. }
    rewrite lookup_app_r by (rewrite length_app; lia). rewrite length_app.
    replace (Z.to_nat (Z.of_nat (length a + length h) - off) - length a)%nat
      with (Z.to_nat (zlen h - off)) by lia.
    destruct (h !! Z.to_nat (zlen h - off)) as [b|]; [|done].
    rewrite <- app_assoc. by apply IH.
Qed.

Lemma apply_seqs_extend (seqs : list sequence) (a h out : list byte) :
  apply_seqs h seqs = Some out → apply_seqs (a ++ h) seqs = Some (a ++ out).
Proof.
  revert h. induction seqs as [|s seqs IH]; intros h H; simpl in *.
  - by injection H as <-.
  - destruct (apply_seq h s) as [o|] eqn:E; [|done]. unfold apply_seq in *.
    case_match; [|done]. rewrite <- app_assoc, (copy_back_extend _ _ a _ o E). by apply IH.
Qed.

(** More history does not change the text of a block. *)
Lemma block_text_extend (seqs : list sequence) (l a h text : list byte) :
  block_text h seqs l = Some text → block_text (a ++ h) seqs l = Some text.
Proof.
  unfold block_text. destruct (apply_seqs h seqs) as [o|] eqn:E; [|done].
  intros [= <-]. rewrite (apply_seqs_extend _ a _ _ E). f_equal.
  by rewrite <- app_assoc, length_app, drop_app_add.
Qed.

Lemma block_at_extend m (dest cap : Z) (a h x : list byte) (n : Z) :
  block_at m dest cap h x n → block_at m dest cap (a ++ h) x n.
Proof.
  intros (seqs & l & H1 & H2 & H3). exists seqs, l. split; [done|]. split; [|done].
  by apply block_text_extend.
Qed.

(** * One-shot compression *)

Lemma compressBound_roomy (N : Z) :
  0 ≤ N ≤ LZ4_MAX_INPUT_SIZE →
  LZ4_compressBound N = N + N / 255 + 16 ∧ roomy N (LZ4_compressBound N).
Proof.
  intros HN. unfold LZ4_compressBound, LZ4_MAX_INPUT_SIZE, roomy in *.
  rewrite u32_small by lia. case_if; zbool; [lia|]. rewrite Z.quot_div_nonneg by lia.
  split; [done|]. zdiv.
Qed.

Section oneshot.
Context {arch : Arch}.
Implicit Types (m : mem).

Lemma oneshot_env m (source dest maxOut cap : Z) (x : list byte)
    (lim : limitedOutput_directive) (acc : Z) :
  let cx := generic_env LZ4_resetStream source dest (zlen x) maxOut lim (table_for (zlen x))
              noDict noDictIssue acc in
  comp_args m source dest x cap → 1 ≤ acc ≤ 2 ^ 25 →
  loop_env cx [] x m cap (λ p, p = entry_pos cx 0).
Proof.
  intros cx [A1 A2 A3 A4 A5 A6] Hacc. constructor; simpl; try done; try lia.
  - unfold table_for. destruct (Z.ltb_spec (zlen x) LZ4_64Klimit); [done|]. by destruct LZ4_64bits.
  - intros _. unfold LZ4_MAX_INPUT_SIZE in A5. lia.
  - intros p ip -> Hip [_ Hd]. simpl in *. unfold entry_pos in *. simpl in *.
    unfold table_for in *.
    destruct (Z.ltb_spec (zlen x) LZ4_64Klimit); [|destruct LZ4_64bits]; simpl in *.
    + unfold LZ4_64Klimit, KB, MFLIMIT, COPYLENGTH, MINMATCH, MAX_DISTANCE, MAXD_LOG in *.
      split; [lia|]. split; [lia|done].
    + specialize (Hd eq_refl). split; [lia|]. split; [lia|done].
    + specialize (Hd eq_refl). lia.
  - intros v Hv. unfold loc, txt. simpl in *. rewrite Z.sub_0_r.
    rewrite (bytes_at_index m source x) by (done || lia). f_equal. lia.
  - intros v Hv. unfold loc. simpl in *. unfold apart in A3. lia.
Qed.

Lemma oneshot_spec m (source dest maxOut cap : Z) (x : list byte)
    (lim : limitedOutput_directive) (acc : Z) :
  comp_args m source dest x cap → 1 ≤ acc ≤ 2 ^ 25 →
  roomy (zlen x) cap ∨ is_limited lim = true ∧ tested_room (zlen x) cap →
  (is_limited lim = true → maxOut = cap ∧ cap < 2 ^ 31) →
  wp (LZ4_compress_generic LZ4_resetStream source dest (zlen x) maxOut lim (table_for (zlen x))
        noDict noDictIssue acc)
     (λ '(_, n) m', frame dest (dest + cap) m m' ∧
        (n = 0 ∧ ¬ roomy (zlen x) cap ∨ block_at m' dest cap [] x n)) m.
Proof.
  intros A Hacc Hroom Hlim.
  eapply wp_mono; [apply (compress_generic_spec m LZ4_resetStream source dest maxOut cap lim
    (table_for (zlen x)) noDict noDictIssue acc [] x _ (oneshot_env m source dest maxOut cap x
      lim acc A Hacc)); [|done|]|].
  - constructor; simpl; [done|]. intros Hl. pose proof (ca_cap _ _ _ _ _ A).
    destruct (Hlim Hl) as [-> ?]. done.
  - intros h Hh. done.
  - intros [ctx' n] m' (F & [(H1 & _ & H3)|Hc] & _); (split; [done|]); [by left|by right].
Qed.

Lemma accel_range (acceleration : Z) :
  acceleration ≤ 2 ^ 25 →
  1 ≤ (if acceleration <? 1 then ACCELERATION_DEFAULT else acceleration) ≤ 2 ^ 25.
Proof. unfold ACCELERATION_DEFAULT. intros. case_if; zbool; lia. Qed.

Lemma comp_args_le m (source dest : Z) (x : list byte) (cap cap' : Z) :
  comp_args m source dest x cap → 0 ≤ cap' ≤ cap → comp_args m source dest x cap'.
Proof.
  intros [A1 A2 A3 A4 A5 A6] Hc. constructor; try done; try lia.
  - solve_mapped.
  - unfold apart in *. lia.
Qed.

(** What [LZ4_compress_fast_extState] does within the two cases of its output
    bound. *)
Lemma compress_extState_spec m (source dest maxOut acceleration : Z) (x : list byte) :
  comp_args m source dest x maxOut → acceleration ≤ 2 ^ 25 → maxOut < 2 ^ 31 →
  LZ4_compressBound (zlen x) ≤ maxOut ∨ tested_room (zlen x) maxOut →
  wp (LZ4_compress_fast_extState source dest (zlen x) maxOut acceleration)
     (λ '(_, n) m', frame dest (dest + Z.min maxOut (LZ4_compressBound (zlen x))) m m' ∧
        (n = 0 ∧ maxOut < LZ4_compressBound (zlen x) ∨
         block_at m' dest (Z.min maxOut (LZ4_compressBound (zlen x))) [] x n)) m.
Proof.
  intros A Hacc Hmax Hsz. apply accel_range in Hacc.
  destruct (compressBound_roomy (zlen x)) as [Hb Hroomy]; [destruct A; lia|].
  unfold LZ4_compress_fast_extState.
  set (acc := if acceleration <? 1 then ACCELERATION_DEFAULT else acceleration) in *.
  destruct (maxOut >=? LZ4_compressBound (zlen x)) eqn:Hc; zbool.
  - rewrite Z.min_r by done.
    eapply wp_mono; [apply (oneshot_spec m _ _ 0 (LZ4_compressBound (zlen x)))|].
    + eapply comp_args_le; [done|]. pose proof (Z.div_pos (zlen x) 255). lia.
    + done.
    + by left.
    + done.
    + intros [ctx n] m' [F [[_ Hn]|Ho]]; [done|]. split; [done|by right].
  - rewrite Z.min_l by lia.
    eapply wp_mono; [apply (oneshot_spec m _ _ maxOut maxOut)|].
    + done.
    + done.
    + right. split; [done|]. destruct Hsz; [lia|done].
    + done.
    + intros [ctx n] m' [F [[-> Hn]|Ho]]; (split; [done|]); [left; lia|by right].
Qed.

Lemma compress_fast_spec m (source dest maxOut acceleration : Z) (x : list byte) :
  comp_args m source dest x maxOut → acceleration ≤ 2 ^ 25 → maxOut < 2 ^ 31 →
  LZ4_compressBound (zlen x) ≤ maxOut ∨ tested_room (zlen x) maxOut →
  wp (LZ4_compress_fast source dest (zlen x) maxOut acceleration)
     (λ n m', frame dest (dest + Z.min maxOut (LZ4_compressBound (zlen x))) m m' ∧
        (n = 0 ∧ maxOut < LZ4_compressBound (zlen x) ∨
         block_at m' dest (Z.min maxOut (LZ4_compressBound (zlen x))) [] x n)) m.
Proof.
  intros A Hacc Hmax Hsz. eapply wp_seq; [by apply compress_extState_spec|].
  intros [ctx n] m' H. by apply wp_ret.
Qed.

End oneshot.

(** * The theorems *)

Section theorems.
Context {arch : Arch}.
Implicit Types (m : mem).

(** Every block a compressor leaves is decoded by [LZ4_decompress_safe]. *)
Lemma decompress_block_at m (source dest cap n dcap : Z) (x : list byte) :
  block_at m source cap [] x n →
  addressable source dest n dcap → mapped m dest dcap →
  apart source cap dest dcap → zlen x ≤ dcap → 0 < dcap →
  wp (LZ4_decompress_safe source dest n dcap)
     (λ r m', r = zlen x ∧ frame dest (dest + dcap) m m' ∧ bytes_at m' dest x) m.
Proof.
  intros (seqs & l & Hok & Ht & -> & Hn & Hb) Ha Hd Hap Hx Hpos.
  pose proof (decompress_generic_block m source dest (zlen (block seqs l)) dcap
    endOnInputSize noDict dest NULL 0 [] seqs l x Ha) as H.
  eapply wp_mono; [apply H; try done; try lia|].
  - unfold apart in *. lia.
  - intros r m' (F & Hb' & ->). done.
Qed.

(** given room for [LZ4_compressBound] bytes, [LZ4_compress_fast] always
    succeeds: it returns the size of a well-formed block at the destination
    whose text is the input, at most the bound, and changes nothing else. *)
Theorem LZ4_compress_fast_complete m (source dest maxDestSize acceleration : Z) (x : list byte) :
  comp_args m source dest x maxDestSize → acceleration ≤ 2 ^ 25 → maxDestSize < 2 ^ 31 →
  LZ4_compressBound (zlen x) ≤ maxDestSize →
  ∃ n m', LZ4_compress_fast source dest (zlen x) maxDestSize acceleration m = Ret n m' ∧
    0 < n ≤ zlen x + zlen x / 255 + 16 ∧
    frame dest (dest + LZ4_compressBound (zlen x)) m m' ∧
    ∃ seqs l, end_ok seqs l ∧ block_text [] seqs l = Some x ∧
      n = zlen (block seqs l) ∧ bytes_at m' dest (block seqs l).
Proof.
  intros A Hacc Hmax Hb.
  pose proof (compress_fast_spec m source dest maxDestSize acceleration x A Hacc Hmax
    (or_introl Hb)) as H.
  destruct (compressBound_roomy (zlen x)) as [Hbd _]; [destruct A; lia|].
  rewrite Z.min_r in H by done.
  apply wp_result in H as (n & m' & Hr & F & [[_ ?]|(seqs & l & H1 & H2 & H3 & H4 & H5)]); [lia|].
  exists n, m'. split; [done|]. pose proof (length_block_pos seqs l).
  split; [lia|]. split; [done|]. by exists seqs, l.
Qed.

(** C36: with a smaller destination, an input of at most 128 KB and an
    acceleration of at most [2^25], [LZ4_compress_fast] stays within the destination and returns 0, or the
    size of a well-formed block that fits in it and whose text is the input. *)
Theorem LZ4_compress_fast_limited m (source dest maxDestSize acceleration : Z) (x : list byte) :
  comp_args m source dest x maxDestSize → acceleration ≤ 2 ^ 25 →
  maxDestSize < LZ4_compressBound (zlen x) → zlen x ≤ KB 128 →
  ∃ n m', LZ4_compress_fast source dest (zlen x) maxDestSize acceleration m = Ret n m' ∧
    frame dest (dest + maxDestSize) m m' ∧
    (n = 0 ∨
     0 < n ≤ maxDestSize ∧
     ∃ seqs l, end_ok seqs l ∧ block_text [] seqs l = Some x ∧
       n = zlen (block seqs l) ∧ bytes_at m' dest (block seqs l)).
Proof.
  intros A Hacc Hmax Hb.
  destruct (compressBound_roomy (zlen x)) as [Hbd _]; [destruct A; lia|].
  assert (Hmax' : maxDestSize < 2 ^ 31) by (unfold KB in Hb; zdiv).
  pose proof (compress_fast_spec m source dest maxDestSize acceleration x A Hacc Hmax'
    (or_intror (or_introl Hb))) as H.
  rewrite Z.min_l in H by lia.
  apply wp_result in H as (n & m' & Hr & F & [[Hn _]|(seqs & l & H1 & H2 & H3 & H4 & H5)]);
    exists n, m'; (split; [done|]); (split; [done|]); [by left|right].
  pose proof (length_block_pos seqs l). split; [lia|]. by exists seqs, l.
Qed.

(** C1: round trip.  Compressing any input with [LZ4_compress_default] into
    [LZ4_compressBound] bytes and decompressing the result with
    [LZ4_decompress_safe] gives the input back. *)
Theorem LZ4_compress_default_roundtrip m (source dest back : Z) (x : list byte) :
  let bound := LZ4_compressBound (zlen x) in
  comp_args m source dest x bound →
  addressable dest back bound (zlen x + 1) → mapped m back (zlen x + 1) →
  apart dest bound back (zlen x + 1) →
  ∃ n m1 m2,
    LZ4_compress_default source dest (zlen x) bound m = Ret n m1 ∧
    LZ4_decompress_safe dest back n (zlen x + 1) m1 = Ret (zlen x) m2 ∧
    bytes_at m2 back x.
Proof.
  intros bound A Ha Hm Hap. destruct (compressBound_roomy (zlen x)) as [Hbd _]; [destruct A; lia|].
  fold bound in Hbd. pose proof (ca_size _ _ _ _ _ A) as HN. unfold LZ4_MAX_INPUT_SIZE in HN.
  pose proof (compress_fast_spec m source dest bound 1 x A ltac:(lia) ltac:(zdiv)
    (or_introl (Z.le_refl _))) as H.
  fold bound in H. rewrite Z.min_id in H.
  apply wp_result in H as (n & m1 & Hr & F & [[_ ?]|Hb]); [lia|].
  assert (Hn : n ≤ bound) by (destruct Hb as (? & ? & ? & ? & ? & ? & ?); done).
  pose proof (decompress_block_at m1 dest back bound n (zlen x + 1) x Hb) as H.
  apply wp_result in H as (r & m2 & Hr2 & -> & F2 & Hb2); try lia; try done.
  - by exists n, m1, m2.
  - unfold addressable in *. lia.
  - by eapply frame_mapped.
Qed.

(** [LZ4_compress_fast_force] tests its output against any bound, and fails
    only when the bound is smaller than [LZ4_compressBound]. *)
Lemma compress_fast_force_spec m (source dest maxDestSize acceleration : Z) (x : list byte) :
  comp_args m source dest x maxDestSize → 1 ≤ acceleration ≤ 2 ^ 25 → maxDestSize < 2 ^ 31 →
  LZ4_compressBound (zlen x) ≤ maxDestSize ∨ tested_room (zlen x) maxDestSize →
  wp (LZ4_compress_fast_force source dest (zlen x) maxDestSize acceleration)
     (λ n m', frame dest (dest + maxDestSize) m m' ∧
        (n = 0 ∧ maxDestSize < LZ4_compressBound (zlen x) ∨ block_at m' dest maxDestSize [] x n)) m.
Proof.
  intros A Hacc Hmax Hsz.
  destruct (compressBound_roomy (zlen x)) as [Hbd Hro]; [destruct A; lia|].
  assert (Hroomy : LZ4_compressBound (zlen x) ≤ maxDestSize → roomy (zlen x) maxDestSize).
  { unfold roomy in *. lia. }
  unfold LZ4_compress_fast_force.
  eapply wp_seq; [apply (oneshot_spec m _ _ maxDestSize maxDestSize); try done|].
  - destruct Hsz as [Hs|Hs]; [left; auto|by right].
  - intros [ctx n] m' [F [[-> Hn]|Hb]]; apply wp_ret; (split; [done|]); [left|by right].
    split; [done|]. destruct (decide (maxDestSize < LZ4_compressBound (zlen x))); [done|].
    exfalso. apply Hn, Hroomy. lia.
Qed.

End theorems.
