(* ===== verification/Lz4DestSize.v ===== *)
(** The "destSize" variant of the LZ4 block compressor, which fills a
    destination of a given size with as much of the input as it can hold
    (src/src/lz4/lib/lz4.c, "destSize variant"), and its correctness.

    Its search and catch-up loops are those of [LZ4_compress_generic] with the
    directives [noDict] and [noDictIssue] and an acceleration of 1, and are
    modelled by the same definitions; the encoding steps differ. *)

From Stdlib Require Import ZArith Lia Strings.Byte.
From stdpp Require Import base gmap list fin_maps numbers.
From S2P Require Import Prelude Mem Lz4Common Lz4Format Lz4Decompress Lz4DecompressProofs Lz4DecompressApi Lz4Compress Lz4Text Lz4CompressProofs Lz4CompressApi.

Section destSize.
Context {arch : Arch}.

(** [oend], [oMaxLit], [oMaxMatch] and [oMaxSeq], for a destination that ends
    at [olimit cx]. *)
Definition ds_oend (cx : comp_env) : Z := olimit cx.
Definition ds_oMaxLit (cx : comp_env) : Z := olimit cx - 2 - 8 - 1.
Definition ds_oMaxMatch (cx : comp_env) : Z := olimit cx - (LASTLITERALS + 1).
Definition ds_oMaxSeq (cx : comp_env) : Z := ds_oMaxLit cx - 1.

(** "Encode Literal length" and "Copy Literals"; [None] is
    [op--; goto _last_literals]. *)
Definition ds_encode_literals (cx : comp_env) (ip anchor op : Z) : prog (option (Z * Z)) :=
  let litLength := u32 (ip - anchor) in
  let token := op in
  let op := op + 1 in
  if op + (litLength + 240) / 255 + litLength >? ds_oMaxLit cx then ret None
  else
    let! op :=
      (if litLength >=? RUN_MASK then
         let len := litLength - RUN_MASK in
         store8 token (Z.shiftl RUN_MASK ML_BITS) ;! put_run (S (Z.to_nat len)) op len
       else store8 token (Z.shiftl litLength ML_BITS) ;! ret op) in
    LZ4_wildCopy op anchor (op + litLength) ;!
    ret (Some (op + litLength, token)).

(** "Encode MatchLength": the position after the match and [op]. *)
Definition ds_encode_match (cx : comp_env) (ip mtch op token : Z) : prog (Z * Z) :=
  let! matchLength := LZ4_count (ip + MINMATCH) (mtch + MINMATCH) (matchlimit cx) in
  let matchLength :=
    if op + (matchLength + 240) / 255 >? ds_oMaxMatch cx
    then (15 - 1) + (ds_oMaxMatch cx - op) * 255 else matchLength in
  let ip := ip + (MINMATCH + matchLength) in
  if matchLength >=? ML_MASK then
    add_token token ML_MASK ;!
    let matchLength := matchLength - ML_MASK in
    let! op := put_run (S (Z.to_nat matchLength)) op matchLength in
    ret (ip, op)
  else add_token token matchLength ;! ret (ip, op).

(** [_last_literals]: the number of bytes of the input that were encoded and
    the result. *)
Definition ds_last_literals (cx : comp_env) (anchor op : Z) : prog (Z * Z) :=
  let lastRunSize := ce_iend cx - anchor in
  let lastRunSize :=
    if op + 1 + (lastRunSize + 240) / 255 + lastRunSize >? ds_oend cx then
      let lastRunSize := ds_oend cx - op - 1 in
      lastRunSize - (lastRunSize + 240) / 255
    else lastRunSize in
  let ip := anchor + lastRunSize in
  let! op :=
    (if lastRunSize >=? RUN_MASK then
       let accumulator := lastRunSize - RUN_MASK in
       store8 op (Z.shiftl RUN_MASK ML_BITS) ;!
       put_run (S (Z.to_nat accumulator)) (op + 1) accumulator
     else store8 op (Z.shiftl lastRunSize ML_BITS) ;! ret (op + 1)) in
  memcpy op anchor lastRunSize ;!
  ret (ip - ce_source cx, op + lastRunSize - ce_dest cx).

Fixpoint ds_loop (fuel : nat) (cx : comp_env) (st : comp_state) (pc : label) : prog (Z * Z) :=
  match fuel with
  | O => nofuel
  | S fuel =>
      match pc with
      | LSearch forwardH =>
          let! r := find_match (Z.to_nat (ce_iend cx - ce_source cx) + 200) cx (cs_ip st) 1
                      (Z.shiftl 1 LZ4_skipTrigger) forwardH
                      (cs_table st) (cs_refDelta st) (cs_lowLimit st) in
          match r with
          | SNone tbl => ds_last_literals cx (cs_anchor st) (cs_op st)
          | SFound ip mtch forwardH tbl refDelta lowLimit =>
              let! (ip, mtch) :=
                catch_up (S (Z.to_nat (ip - cs_anchor st))) ip mtch (cs_anchor st)
                         refDelta lowLimit in
              let! r := ds_encode_literals cx ip (cs_anchor st) (cs_op st) in
              match r with
              | None => ds_last_literals cx (cs_anchor st) (cs_op st)
              | Some (op, token) =>
                  ds_loop fuel cx
                    (CompState ip (cs_anchor st) op tbl refDelta lowLimit) (LNext mtch token)
              end
          end
      | LNext mtch token =>
          let ip := cs_ip st in
          LZ4_writeLE16 (cs_op st) (u16 (ip - mtch)) ;!
          let op := cs_op st + 2 in
          let! (ip, op) := ds_encode_match cx ip mtch op token in
          if ip >? mflimit cx then ds_last_literals cx ip op
          else if op >? ds_oMaxSeq cx then ds_last_literals cx ip op
          else
            let! (st, pc) :=
              test_next cx ip ip op (cs_table st) (cs_refDelta st) (cs_lowLimit st) in
            ds_loop fuel cx st pc
      end
  end.

(** The value of [*srcSizePtr] after the call, and the result. *)
Definition LZ4_compress_destSize_generic (src dst srcSize targetDstSize : Z)
    (tableType : tableType_t) : prog (Z * Z) :=
  let cx := generic_env LZ4_resetStream src dst srcSize targetDstSize limitedOutput tableType
              noDict noDictIssue 1 in
  if targetDstSize <? 1 then ret (srcSize, 0)
  else if u32 srcSize >? u32 LZ4_MAX_INPUT_SIZE then ret (srcSize, 0)
  else if is_byU16 tableType && (srcSize >=? LZ4_64Klimit) then ret (srcSize, 0)
  else if srcSize <? LZ4_minLength then ds_last_literals cx src dst
  else
    let! tbl := LZ4_putPosition src (hashTable LZ4_resetStream) tableType src in
    let ip := src + 1 in
    let! forwardH := LZ4_hashPosition ip tableType in
    ds_loop (2 * Z.to_nat srcSize + 2) cx (CompState ip src dst tbl 0 src) (LSearch forwardH).

Definition LZ4_compress_destSize_extState (src dst srcSize targetDstSize : Z) : prog (Z * Z) :=
  if targetDstSize >=? LZ4_compressBound srcSize then
    let! (_, n) := LZ4_compress_fast_extState src dst srcSize targetDstSize 1 in
    ret (srcSize, n)
  else LZ4_compress_destSize_generic src dst srcSize targetDstSize (table_for srcSize).

Definition LZ4_compress_destSize (src dst srcSize targetDstSize : Z) : prog (Z * Z) :=
  LZ4_compress_destSize_extState src dst srcSize targetDstSize.

End destSize.

(** * Correctness *)

Section ds_proofs.
Context {arch : Arch} (cx : comp_env) (x : list byte) (m0 : mem) (cap : Z) (Old : Z → Prop).
Context (E : loop_env cx [] x m0 cap Old).
Context (Hol : olimit cx = ce_dest cx + cap) (Hcap : 1 ≤ cap).
Context (Hacc1 : ce_acceleration cx = 1).
Implicit Types (m : mem) (seqs : list sequence).

Abbreviation source := (ce_source cx).
Abbreviation dest := (ce_dest cx).
Abbreviation iend := (ce_iend cx).
Abbreviation N := (zlen x).

(** There is room for the literals the end of a block needs. *)
Definition ds_end seqs (op : Z) : Prop :=
  ∀ pre s, seqs = pre ++ [s] →
    op + 6 ≤ dest + cap ∧ (op + 9 ≤ dest + cap ∨ MFLIMIT ≤ sq_mlen s).

(** The result: a block in the destination whose text is the first [k] bytes of
    the input. *)
Definition ds_ok m (r : Z * Z) : Prop :=
  let '(k, n) := r in
  0 ≤ k ≤ N ∧ block_at m dest cap [] (take (Z.to_nat k) x) n.

(** The last literals are as many as fit, and enough for the end of a block. *)
Lemma ds_last_size (L r : Z) :
  0 ≤ L → 0 ≤ r →
  let L' := if 1 + (L + 240) / 255 + L >? r + 1 then r - (r + 240) / 255 else L in
  0 ≤ L' ≤ L ∧ zlen (nibble_ext L') + L' ≤ r ∧ (5 ≤ Z.min L r → 5 ≤ L') ∧ (8 ≤ r → Z.min 8 L ≤ L').
Proof.
  intros HL Hr L'. assert (0 ≤ L' ≤ L) as HL'.
  { unfold L'. case_if; zbool; [|lia]. zdiv. }
  rewrite <- nibble_ext_div by lia. unfold L' in *. case_if; zbool; zdiv.
Qed.

Lemma ds_finish m seqs (anchor op : Z) :
  progress source dest [] x m0 cap m seqs anchor op → ds_end seqs op →
  wp (ds_last_literals cx anchor op)
     (λ r m', frame dest (dest + cap) m0 m' ∧ ds_ok m' r) m.
Proof.
  intros [P1 P2 P3 P4 P5 P6 P7] Hend. pose proof (size_range cx [] x m0 cap Old E) as [HN Hie].
  unfold ds_last_literals, ds_oend. rewrite Hol.
  assert (Hr : 0 ≤ dest + cap - op - 1).
  { destruct seqs as [|s seqs] using rev_ind; [simpl in P3; lia|].
    destruct (Hend seqs s eq_refl). lia. }
  set (r := dest + cap - op - 1) in *.
  destruct (ds_last_size (iend - anchor) r ltac:(lia) Hr) as (S1 & S2 & S3 & S4).
  replace (op + 1 + (iend - anchor + 240) / 255 + (iend - anchor) >? dest + cap)
    with (1 + (iend - anchor + 240) / 255 + (iend - anchor) >? r + 1)
    by (rewrite !Z.gtb_ltb; destruct (Z.ltb_spec (r + 1) (1 + (iend - anchor + 240) / 255 + (iend - anchor)));
        symmetry; [apply Z.ltb_lt|apply Z.ltb_ge]; lia).
  set (L := if 1 + (iend - anchor + 240) / 255 + (iend - anchor) >? r + 1
            then r - (r + 240) / 255 else iend - anchor) in *.
  replace L with (anchor + L - anchor) by lia. set (e := anchor + L) in *.
  replace (anchor + (e - anchor)) with e by lia.
  apply (put_piece_spec source dest [] x m0 cap (loc cx) (loop_text cx [] x m0 cap Old E) m anchor e op (λ o, memcpy o anchor (e - anchor))
    (λ o, ret (e - source, o + (e - anchor) - dest)) _
    (op + 1 + zlen (nibble_ext (e - anchor)) + (e - anchor))); try done; try lia.
  { replace (e - anchor) with L by lia. lia. }
  { intros m1 F1. apply (memcpy_piece source dest [] x m0 cap (loc cx) (loop_text cx [] x m0 cap Old E)); try done; try lia. replace (e - anchor) with L by lia. lia. }
  intros m2 F2 B2 Hd. apply wp_ret. split; [solve_frame|]. split; [lia|].
  assert (HL : zlen (piece source [] x anchor e) = L) by (rewrite length_piece; simpl; lia).
  exists seqs, (piece source [] x anchor e).
  rewrite <- (app_nil_r seqs) at 3 4. rewrite block_app. fold (ser seqs). cbn [block].
  rewrite length_app, bytes_at_app, <- P3, ser_last_open. split_and!.
  - apply end_ok_last. intros pre s Hs. destruct (Hend pre s Hs) as [E1 E2].
    destruct (P7 pre s Hs) as [E3 E4]. rewrite HL.
    unfold LASTLITERALS, MFLIMIT, COPYLENGTH, MINMATCH in *.
    assert (MINMATCH ≤ sq_mlen s) as Hm.
    { subst seqs. rewrite apply_seqs_app in P5. destruct (apply_seqs [] pre) as [o|]; [|done].
      simpl in P5. destruct (apply_seq o s) eqn:Ha; [|done]. apply apply_seq_length in Ha. lia. }
    unfold MINMATCH in Hm. lia.
  - unfold block_text. rewrite P5. rewrite (piece_app source [] x) by (simpl; lia).
    rewrite piece_low. simpl. rewrite drop_0. do 2 f_equal. lia.
  - lia.
  - replace (e - anchor) with L in * by lia. lia.
  - eapply bytes_at_frame; [exact F2|lia|done].
  - done.
Qed.

Lemma ds_encode_literals_spec m (ip anchor op : Z) :
  frame dest (dest + cap) m0 m → source ≤ anchor ≤ ip → ip ≤ mflimit cx → dest ≤ op →
  wp (ds_encode_literals cx ip anchor op)
     (λ r m', match r with
        | None => m' = m
        | Some (op', tk) =>
            frame op (dest + cap) m m' ∧
            tk = op ∧ op' = op + zlen (open_seq (piece source [] x anchor ip)) ∧
            bytes_at m' op (open_seq (piece source [] x anchor ip)) ∧ op' + 11 ≤ dest + cap
        end) m.
Proof.
  intros F Ha Hip Hop. pose proof (mflimit_iend cx [] x m0 cap Old E).
  pose proof (size_range cx [] x m0 cap Old E).
  unfold ds_encode_literals, ds_oMaxLit. rewrite (u32_small (ip - anchor)), Hol by lia.
  rewrite nibble_ext_div by lia. case_if; zbool; [by apply wp_ret|].
  set (d := op + 1 + zlen (nibble_ext (ip - anchor))) in *.
  pose proof (wild_end_bounds d (d + (ip - anchor))) as (W1 & W2 & W3).
  apply (put_piece_spec source dest [] x m0 cap (loc cx) (loop_text cx [] x m0 cap Old E) m anchor ip op
    (λ o, LZ4_wildCopy o anchor (o + (ip - anchor)))
    (λ o, ret (Some (o + (ip - anchor), op))) _ (wild_end d (d + (ip - anchor))));
    fold d; try done; try lia.
  - intros m1 F1. apply (wild_piece source dest [] x m0 cap (loc cx) (loop_text cx [] x m0 cap Old E)); try done; lia.
  - intros m2 F2 B2 Hd. apply wp_ret. split_and!; (done || lia).
Qed.

(** The match written: as long as it can be, or shortened so that it fills the
    destination but for the last literals. *)
Lemma ds_encode_match_spec m (ip q tk k op : Z) :
  frame dest (dest + cap) m0 m → source ≤ ip ≤ mflimit cx → valid cx [] ip q →
  same source [] x q ip MINMATCH → dest ≤ tk < op → op + 9 ≤ dest + cap →
  m !! tk = Some (z2b (16 * k)) → 0 ≤ k ≤ 15 →
  wp (ds_encode_match cx ip q op tk)
     (λ '(ip', op') m', ∃ ml,
        0 ≤ ml ∧ ip' = ip + MINMATCH + ml ∧ ip' ≤ matchlimit cx ∧
        same source [] x q ip (MINMATCH + ml) ∧
        (longest cx [] x ip q ip' ∨ op' + 6 = dest + cap) ∧
        op' = op + zlen (nibble_ext ml) ∧ op' + 6 ≤ dest + cap ∧
        (op' + 9 ≤ dest + cap ∨ MFLIMIT ≤ ml) ∧
        frame tk (dest + cap) m m' ∧ (∀ i, tk < i < op → m' !! i = m !! i) ∧
        m' !! tk = Some (z2b (16 * k + Z.min ml 15)) ∧ bytes_at m' op (nibble_ext ml)) m.
Proof.
  intros F Hip (V1 & _) Hs Htk Hop Htb Hk.
  pose proof (mflimit_iend cx [] x m0 cap Old E). pose proof (matchlimit_iend cx [] x m0 cap Old E).
  pose proof (size_range cx [] x m0 cap Old E). simpl zlen in V1. pose proof (dest_mapped source dest [] x m0 cap (loc cx) (loop_text cx [] x m0 cap Old E) m F) as Hdm.
  unfold ds_encode_match, ds_oMaxMatch. rewrite Hol. change (LASTLITERALS + 1) with 6.
  unfold MFLIMIT, COPYLENGTH, MINMATCH in *.
  wp_apply (count_text_spec source dest [] x m0 cap (loc cx) (loop_text cx [] x m0 cap Old E) m (ip + 4) (q + 4)); try done; try (simpl; lia).
  { intros v Hv. rewrite loc_source; simpl in *; lia. }
  intros ml0 m1 (-> & Hml0 & S1 & D1). pose proof (same_app _ _ _ _ _ _ _ Hs S1) as S2.
  rewrite nibble_ext_div by lia.
  set (ml := if op + zlen (nibble_ext ml0) >? dest + cap - 6
             then 15 - 1 + (dest + cap - 6 - op) * 255 else ml0).
  assert (Hml : 0 ≤ ml ≤ ml0 ∧ op + zlen (nibble_ext ml) + 6 ≤ dest + cap ∧
                (ml = ml0 ∨ op + zlen (nibble_ext ml) + 6 = dest + cap) ∧
                (op + zlen (nibble_ext ml) + 9 ≤ dest + cap ∨ 12 ≤ ml)).
  { assert (Hml : 0 ≤ ml ≤ ml0).
    { unfold ml. rewrite <- nibble_ext_div by lia. case_if; zbool; [|lia]. zdiv. }
    rewrite <- nibble_ext_div by lia. unfold ml. rewrite <- nibble_ext_div by lia.
    case_if; zbool; zdiv. }
  destruct Hml as (M1 & M2 & M3 & M4). clearbody ml.
  apply (put_match_length_spec m put_run (dest + cap) op tk k ml (λ o, ret (ip + (4 + ml), o)));
    [apply put_run_spec|lia|lia| |done|done|lia|].
  - apply (mapped_sub _ _ _ _ _ Hdm); lia.
  - intros m2 F2 C2 Htk' B2. apply wp_ret. exists ml. split_and!; try done; try lia.
    + intros i Hi. apply S2. lia.
    + destruct M3 as [->|M3]; [left|by right]. unfold longest.
      destruct D1 as [->|D1]; [left; lia|right].
      replace (q + (ip + (4 + ml0) - ip)) with (q + 4 + ml0) by lia.
      by replace (ip + (4 + ml0)) with (ip + 4 + ml0) by lia.
Qed.

(** The states of the loop. *)
Definition ds_at m seqs (st : comp_state) (pc : label) : Prop :=
  at_label cx [] x m0 cap Old m seqs st pc ∧
  match pc with
  | LSearch _ => ds_end seqs (cs_op st)
  | LNext _ tk => ds_end seqs tk ∧ cs_op st + 11 ≤ dest + cap
  end.

Lemma ds_loop_spec (fuel : nat) m seqs (st : comp_state) (pc : label) :
  ds_at m seqs st pc →
  2 * (iend - cs_anchor st) + label_weight pc < Z.of_nat fuel →
  wp (ds_loop fuel cx st pc) (λ r m', frame dest (dest + cap) m0 m' ∧ ds_ok m' r) m.
Proof.
  revert m seqs st pc. induction fuel as [|fuel IH]; intros m seqs st pc [Hat Hds] Hf.
  { pose proof (le_iend _ _ _ _ _ _ E); destruct pc; simpl in Hat, Hf; destruct Hat as ([] & _); lia. }
  pose proof (mflimit_iend cx [] x m0 cap Old E). pose proof (matchlimit_iend cx [] x m0 cap Old E).
  pose proof (size_range cx [] x m0 cap Old E).
  destruct pc as [fh|q tk]; cbn [ds_loop].
  - pose proof (search_spec cx [] x m0 cap Old E m seqs st fh Hat) as Hsearch.
    rewrite Hacc1 in Hsearch. change (u32 (Z.shiftl 1 LZ4_skipTrigger)) with
      (Z.shiftl 1 LZ4_skipTrigger) in Hsearch.
    eapply wp_seq; [exact Hsearch|]. intros r m1 [-> Hfound].
    destruct Hat as (P & Hip & Ha & Hh & Ht & Hr). pose proof P as [F Pa Pop _ _ Pacc _].
    destruct r as [tbl|ip q fh' tbl rd ll]; [by eapply ds_finish|].
    destruct Hfound as (R1 & R2 & R3 & R4 & R5).
    wp_apply (catch_up_spec cx [] x m0 cap Old E _ m ip q _ rd ll 4); [done|lia|lia|done..|lia|lia|].
    intros [ip' q'] m1 (-> & C1 & C2 & C3 & C4).
    wp_apply (ds_encode_literals_spec m ip'); [done|lia|lia|lia|].
    intros [[op' tk']|] m1 Hr1; [|subst m1; by eapply ds_finish].
    destruct Hr1 as (F1 & -> & -> & B1 & Hro).
    apply (IH _ seqs); [|simpl in *; lia].
    unfold ds_at, at_label. cbn [cs_ip cs_anchor cs_op cs_refDelta cs_lowLimit cs_table].
    split; [|done]. split; [|split_and!; try done; try lia].
    { destruct P. constructor; try done; [solve_frame|]. eapply bytes_at_frame; [exact F1|lia|done]. }
    exists (ip + 4). unfold MINMATCH in *. replace (ip + 4 - ip') with (4 + (ip - ip')) by lia.
    split_and!; try done; try lia. eapply tbl_inv_mono; [done|lia].
  - destruct Hds as [Hend Hro]. destruct Hat as (P & Hip & Ha & Hb & Hop & _ & Hv & Hl & e & He & Hs & Ht).
    pose proof P as [F Pa Pop _ _ Pacc _]. pose proof (dest_mapped source dest [] x m0 cap (loc cx) (loop_text cx [] x m0 cap Old E) m F) as Hdm.
    set (ip := cs_ip st) in *. set (op := cs_op st) in *.
    pose proof (length_open_seq (piece source [] x (cs_anchor st) ip)) as Hlo.
    wp_apply writeLE16_spec; [solve_mapped|]. intros _ m1 [F1 B1].
    assert (F1' : frame dest (dest + cap) m0 m1) by solve_frame.
    wp_apply (ds_encode_match_spec m1 ip q tk (Z.min (ip - cs_anchor st) 15) (op + 2)); try done; try lia.
    { intros i Hi. apply Hs. unfold MINMATCH in *. lia. }
    { rewrite (frame_eq _ _ _ _ F1) by lia. unfold open_seq in Hb.
      rewrite length_piece in Hb by (simpl; lia). apply Hb. }
    intros [ip' op'] m2 (ml & M1 & -> & M2 & M3 & M4 & -> & M5 & M6 & F2 & C2 & Htk' & B2).
    pose proof (close_seq source dest [] x m0 cap m m1 m2 seqs _ ip q tk op _ ml P ltac:(lia) ltac:(lia) Hb Hop F1
      ltac:(lia) B1 F2 C2 Htk' B2 eq_refl (valid_reach _ _ _ _ Hv) M3 M1 ltac:(unfold MINMATCH in *; lia)) as P2. unfold MINMATCH in *.
    assert (Hend2 : ds_end (seqs ++ [Sequence (piece source [] x (cs_anchor st) ip) (ip - q) (4 + ml)])
                      (op + 2 + zlen (nibble_ext ml))).
    { intros pre s Hs'. apply app_inj_tail in Hs' as [_ <-]. cbn [sq_mlen].
      unfold MFLIMIT, COPYLENGTH, MINMATCH in *. lia. }
    case_if; zbool; [by eapply ds_finish|]. case_if; zbool; [by eapply ds_finish|].
    unfold ds_oMaxSeq, ds_oMaxLit in *. rewrite Hol in *.
    destruct M4 as [Hlong|M4]; [|lia].
    pose proof (longest_le _ _ _ _ _ _ e Hlong ltac:(lia) Hs ltac:(lia)) as Hlong'.
    eapply wp_seq; [eapply (test_next_spec cx [] x m0 cap Old E m2); [exact P2|lia|lia| |]|].
    + eapply tbl_inv_mono; [done|lia].
    + by eapply located_region.
    + intros [st' pc'] m3 (Hanc & Hat' & Hop'). eapply IH.
      * split; [exact Hat'|]. destruct pc' as [fh'|q' tk'].
        -- destruct Hat' as (P3 & _). rewrite (pg_op _ _ _ _ _ _ _ _ _ _ P3), <- (pg_op _ _ _ _ _ _ _ _ _ _ P2).
           done.
        -- destruct Hat' as (P3 & _). rewrite (pg_op _ _ _ _ _ _ _ _ _ _ P3), <- (pg_op _ _ _ _ _ _ _ _ _ _ P2).
           split; [done|lia].
      * rewrite Hanc. simpl in Hf. destruct pc'; simpl; lia.
Qed.

End ds_proofs.

Section ds_theorem.
Context {arch : Arch}.
Implicit Types (m : mem).

Lemma destSize_generic_spec m (src dst target : Z) (x : list byte) :
  comp_args m src dst x target → 1 ≤ target →
  wp (LZ4_compress_destSize_generic src dst (zlen x) target (table_for (zlen x)))
     (λ '(k, n) m', frame dst (dst + target) m m' ∧ 0 ≤ k ≤ zlen x ∧
        block_at m' dst target [] (take (Z.to_nat k) x) n) m.
Proof.
  intros A Ht. unfold LZ4_compress_destSize_generic.
  set (cx := generic_env _ _ _ _ _ _ _ _ _ _).
  pose proof (oneshot_env m src dst target target x limitedOutput 1 A ltac:(lia)) as E.
  cbv zeta in E. fold cx in E. set (Old := λ p, _) in E.
  pose proof (size_range cx [] x m target Old E) as [HN _].
  destruct (Z.ltb_spec target 1); [lia|].
  assert ((u32 (zlen x) >? u32 LZ4_MAX_INPUT_SIZE) = false) as ->.
  { change (u32 LZ4_MAX_INPUT_SIZE) with 0x7E000000. rewrite u32_small by lia.
    rewrite Z.gtb_ltb. apply Z.ltb_ge. lia. }
  assert (is_byU16 (table_for (zlen x)) && (zlen x >=? LZ4_64Klimit) = false) as ->.
  { unfold table_for. rewrite Z.geb_leb. destruct (Z.ltb_spec (zlen x) LZ4_64Klimit).
    - apply Z.leb_gt. done.
    - by destruct LZ4_64bits. }
  assert (P : progress src dst [] x m target m [] src dst) by (by apply progress_start).
  assert (Hend : ds_end cx target [] dst) by (intros pre s Hs; by destruct pre).
  case_if; zbool.
  { eapply wp_mono; [eapply (ds_finish cx x m target Old E); try done; lia|].
    intros [k n] m' [F [Hk Hb]]. done. }
  pose proof (mflimit_iend cx [] x m target Old E) as Hmf. pose proof STEPSIZE_range.
  unfold LZ4_minLength, MFLIMIT, COPYLENGTH, MINMATCH in *.
  assert (F : frame dst (dst + target) m m) by reflexivity.
  wp_apply (putPosition_spec cx [] x m target Old E m _ src src (src + 1)); try done;
    try (simpl in *; lia); [intros h Hh; by left|]. intros tbl m1 [-> Ht1].
  wp_apply hashPosition_spec; [eapply source_mapped; [apply (loop_text _ _ _ _ _ _ E)|done|simpl in *; lia..]|].
  intros fh m1 [-> Hfh].
  eapply wp_mono; [apply (ds_loop_spec cx x m target Old E eq_refl Ht eq_refl _ m [])|].
  - split; [|done]. unfold at_label. cbn [cs_ip cs_anchor cs_op cs_refDelta cs_lowLimit cs_table].
    split; [done|]. split; [simpl in *; lia|]. split; [lia|]. split; [done|]. split; [done|].
    intros _. simpl. split; [done|lia].
  - simpl in *. lia.
  - intros [k n] m' [F' [Hk Hb]]. done.
Qed.

(** [LZ4_compress_destSize] stays within a destination of any size from 1
    byte on and fills it with a well-formed block; the new value of
    [*srcSizePtr] is the number of bytes of the input that make up the
    block's text, all of them when [LZ4_compressBound] bytes are available. *)
Theorem LZ4_compress_destSize_block m (src dst targetDstSize : Z) (x : list byte) :
  comp_args m src dst x targetDstSize → 1 ≤ targetDstSize < 2 ^ 31 →
  ∃ k n m', LZ4_compress_destSize src dst (zlen x) targetDstSize m = Ret (k, n) m' ∧
    frame dst (dst + targetDstSize) m m' ∧ 0 ≤ k ≤ zlen x ∧ 0 < n ≤ targetDstSize ∧
    (LZ4_compressBound (zlen x) ≤ targetDstSize → k = zlen x) ∧
    ∃ seqs l, end_ok seqs l ∧ block_text [] seqs l = Some (take (Z.to_nat k) x) ∧
      n = zlen (block seqs l) ∧ bytes_at m' dst (block seqs l).
Proof.
  intros A Ht. enough (H : wp (LZ4_compress_destSize src dst (zlen x) targetDstSize)
    (λ '(k, n) m', frame dst (dst + targetDstSize) m m' ∧ 0 ≤ k ≤ zlen x ∧
       (LZ4_compressBound (zlen x) ≤ targetDstSize → k = zlen x) ∧
       block_at m' dst targetDstSize [] (take (Z.to_nat k) x) n) m).
  { apply wp_result in H as ([k n] & m' & Hr & F & Hk & Hkb & (seqs & l & H1 & H2 & H3 & H4 & H5)).
    exists k, n, m'. pose proof (length_block_pos seqs l). split_and!; try done; try lia.
    by exists seqs, l. }
  unfold LZ4_compress_destSize, LZ4_compress_destSize_extState. case_if; zbool.
  - pose proof (compress_fast_spec m src dst targetDstSize 1 x A ltac:(lia) ltac:(lia)
      (or_introl E)) as H. unfold LZ4_compress_fast in H. apply wp_bind_inv in H.
    eapply wp_seq; [exact H|]. intros [ctx n] m' [F [[_ ?]|Hb]]; [lia|]. simpl in F, Hb.
    rewrite Z.min_r in F, Hb by done. apply wp_ret.
    destruct (compressBound_roomy (zlen x)) as [Hbd _]; [destruct A; lia|].
    split; [solve_frame|]. split; [lia|]. split; [done|].
    rewrite take_ge by lia. destruct Hb as (seqs & l & H1 & H2 & H3 & H4 & H5).
    exists seqs, l. split_and!; (done || lia).
  - eapply wp_mono; [apply destSize_generic_spec; [done|lia]|].
    intros [k n] m' (F & Hk & Hb). split_and!; (done || lia).
Qed.

End ds_theorem.
