(* ===== verification/Lz4Stream.v ===== *)
(** Streaming LZ4 block compression (src/src/lz4/lib/lz4.c, "Streaming
    functions" and the obsolete streaming functions), and its correctness:
    each block of a stream is well-formed after the text the stream keeps as
    its dictionary, and the state that is left is ready for the next one. *)

From Stdlib Require Import ZArith Lia Strings.Byte.
From stdpp Require Import base gmap list fin_maps numbers.
From S2P Require Import Prelude Mem Lz4Common Lz4Format Lz4Decompress Lz4DecompressProofs Lz4DecompressApi Lz4Compress Lz4Text Lz4CompressProofs Lz4CompressApi.

(** * Operations *)

Definition LZ4_createStream : LZ4_stream_t_internal := LZ4_resetStream.

(** The stream with another dictionary. *)
Definition with_dict (s : LZ4_stream_t_internal) (dict size : Z) : LZ4_stream_t_internal :=
  {| hashTable := hashTable s; currentOffset := currentOffset s; initCheck := initCheck s;
     dictionary := dict; bufferStart := bufferStart s; dictSize := size |}.

Definition with_offset (s : LZ4_stream_t_internal) (off : Z) : LZ4_stream_t_internal :=
  {| hashTable := hashTable s; currentOffset := off; initCheck := initCheck s;
     dictionary := dictionary s; bufferStart := bufferStart s; dictSize := dictSize s |}.

Section stream.
Context {arch : Arch}.

Definition HASH_UNIT : Z := STEPSIZE.

(** [while (p <= dictEnd-HASH_UNIT) { LZ4_putPosition(..); p+=3; }] *)
Fixpoint loadDict_loop (fuel : nat) (p dictEnd base : Z) (tbl : table) : prog table :=
  match fuel with
  | O => nofuel
  | S fuel =>
      if p <=? dictEnd - HASH_UNIT then
        let! tbl := LZ4_putPosition p tbl byU32 base in
        loadDict_loop fuel (p + 3) dictEnd base tbl
      else ret tbl
  end.

Definition LZ4_loadDict (dict : LZ4_stream_t_internal) (dictionary dictSize : Z) :
    prog (LZ4_stream_t_internal * Z) :=
  let p := dictionary in
  let dictEnd := p + dictSize in
  let dict := if negb (initCheck dict =? 0) || (currentOffset dict >? GB 1)
              then LZ4_resetStream else dict in
  if dictSize <? HASH_UNIT then ret (with_dict dict NULL 0, 0)
  else
    let p := if dictEnd - p >? KB 64 then dictEnd - KB 64 else p in
    let dict := with_offset dict (u32 (currentOffset dict + KB 64)) in
    let base := p - currentOffset dict in
    let dict := with_dict dict p (u32 (dictEnd - p)) in
    let dict := with_offset dict (u32 (currentOffset dict + Lz4Compress.dictSize dict)) in
    let! tbl := loadDict_loop (S (Z.to_nat (dictEnd - p))) p dictEnd base (hashTable dict) in
    ret (with_table dict tbl, Lz4Compress.dictSize dict).

(** Rescales the whole table; an entry that is not there is 0, and stays so. *)
Definition renorm_table (delta : Z) (tbl : table) : table :=
  (λ v, if v <? delta then 0 else v - delta) <$> tbl.

Definition LZ4_renormDictT (s : LZ4_stream_t_internal) (src : Z) : LZ4_stream_t_internal :=
  if (currentOffset s >? 0x80000000) || (currentOffset s >? src) then
    let delta := u32 (currentOffset s - KB 64) in
    let dictEnd := dictionary s + dictSize s in
    let s := with_table s (renorm_table delta (hashTable s)) in
    let s := with_offset s (KB 64) in
    let size := if dictSize s >? KB 64 then KB 64 else dictSize s in
    with_dict s (dictEnd - size) size
  else s.

(** "Check overlapping input/dictionary space" *)
Definition check_overlap (s : LZ4_stream_t_internal) (dictEnd source inputSize : Z) :
    LZ4_stream_t_internal :=
  let sourceEnd := source + inputSize in
  if (sourceEnd >? dictionary s) && (sourceEnd <? dictEnd) then
    let size := u32 (dictEnd - sourceEnd) in
    let size := if size >? KB 64 then KB 64 else size in
    let size := if size <? 4 then 0 else size in
    with_dict s (dictEnd - size) size
  else s.

(** What [LZ4_compress_fast_continue] does to the stream before it compresses. *)
Definition prepare_stream (s : LZ4_stream_t_internal) (source inputSize : Z) :
    LZ4_stream_t_internal :=
  let dictEnd := dictionary s + dictSize s in
  let smallest := source in
  let smallest := if (dictSize s >? 0) && (smallest >? dictEnd) then dictEnd else smallest in
  check_overlap (LZ4_renormDictT s smallest) dictEnd source inputSize.

Definition dict_issue (s : LZ4_stream_t_internal) : dictIssue_directive :=
  if (dictSize s <? KB 64) && (dictSize s <? currentOffset s) then dictSmall else noDictIssue.

Definition LZ4_compress_fast_continue (s : LZ4_stream_t_internal)
    (source dest inputSize maxOutputSize acceleration : Z) : prog (LZ4_stream_t_internal * Z) :=
  let dictEnd := dictionary s + dictSize s in
  if negb (initCheck s =? 0) then ret (s, 0)
  else
    let s := prepare_stream s source inputSize in
    let acceleration := if acceleration <? 1 then ACCELERATION_DEFAULT else acceleration in
    if dictEnd =? source then
      let! (s, result) :=
        LZ4_compress_generic s source dest inputSize maxOutputSize limitedOutput byU32
          withPrefix64k (dict_issue s) acceleration in
      let s := with_dict s (dictionary s) (u32 (dictSize s + u32 inputSize)) in
      ret (with_offset s (u32 (currentOffset s + u32 inputSize)), result)
    else
      let! (s, result) :=
        LZ4_compress_generic s source dest inputSize maxOutputSize limitedOutput byU32
          usingExtDict (dict_issue s) acceleration in
      let s := with_dict s source (u32 inputSize) in
      ret (with_offset s (u32 (currentOffset s + u32 inputSize)), result).

Definition LZ4_compress_forceExtDict (s : LZ4_stream_t_internal) (source dest inputSize : Z) :
    prog (LZ4_stream_t_internal * Z) :=
  let dictEnd := dictionary s + dictSize s in
  let smallest := dictEnd in
  let smallest := if smallest >? source then source else smallest in
  let s := LZ4_renormDictT s smallest in
  let! (s, result) :=
    LZ4_compress_generic s source dest inputSize 0 notLimited byU32 usingExtDict noDictIssue 1 in
  let s := with_dict s source (u32 inputSize) in
  ret (with_offset s (u32 (currentOffset s + u32 inputSize)), result).

Definition LZ4_saveDict (dict : LZ4_stream_t_internal) (safeBuffer dictSize : Z) :
    prog (LZ4_stream_t_internal * Z) :=
  let previousDictEnd := dictionary dict + Lz4Compress.dictSize dict in
  let dictSize := if u32 dictSize >? KB 64 then KB 64 else dictSize in
  let dictSize := if u32 dictSize >? Lz4Compress.dictSize dict
                  then Lz4Compress.dictSize dict else dictSize in
  memmove safeBuffer (previousDictEnd - dictSize) dictSize ;!
  ret (with_dict dict safeBuffer (u32 dictSize), dictSize).

(** * Obsolete functions *)

Definition LZ4_compress_limitedOutput_continue (s : LZ4_stream_t_internal)
    (src dst srcSize maxDstSize : Z) : prog (LZ4_stream_t_internal * Z) :=
  LZ4_compress_fast_continue s src dst srcSize maxDstSize 1.

Definition LZ4_compress_continue (s : LZ4_stream_t_internal) (source dest inputSize : Z) :
    prog (LZ4_stream_t_internal * Z) :=
  LZ4_compress_fast_continue s source dest inputSize (LZ4_compressBound inputSize) 1.

Definition LZ4_init (base : Z) : LZ4_stream_t_internal :=
  {| hashTable := ∅; currentOffset := 0; initCheck := 0; dictionary := 0;
     bufferStart := base; dictSize := 0 |}.

(** The address of the state decides: [None] leaves the state as it is. *)
Definition LZ4_resetStreamState (state inputBuffer : Z) : option LZ4_stream_t_internal * Z :=
  if negb (Z.land state 3 =? 0) then (None, 1) else (Some (LZ4_init inputBuffer), 0).

Definition LZ4_create (inputBuffer : Z) : LZ4_stream_t_internal := LZ4_init inputBuffer.

Definition LZ4_slideInputBuffer (ctx : LZ4_stream_t_internal) :
    prog (LZ4_stream_t_internal * Z) :=
  let! (ctx, dictSize) := LZ4_saveDict ctx (bufferStart ctx) (KB 64) in
  ret (ctx, bufferStart ctx + dictSize).

End stream.

(** * The invariant of a stream *)

(** Every position in the table lies at least [MINMATCH] bytes before the end of
    the text seen so far, and the dictionary is part of that text. *)
Record stream_ok (s : LZ4_stream_t_internal) : Prop := {
  so_init : initCheck s = 0;
  so_size : 0 ≤ dictSize s ≤ currentOffset s;
  so_off : currentOffset s < 2 ^ 32;
  so_table : ∀ h, 0 ≤ h < HASH_SIZE_U32 →
    let v := default 0 (hashTable s !! h) in
    0 ≤ v ∧ (v + MINMATCH ≤ currentOffset s ∨ currentOffset s = 0 ∧ v = 0)
}.

Section stream_proofs.
Context {arch : Arch}.
Implicit Types (m : mem) (s : LZ4_stream_t_internal).

Lemma resetStream_ok : stream_ok LZ4_resetStream.
Proof. constructor; simpl; try lia. intros h _. rewrite lookup_empty. simpl. lia. Qed.

Lemma with_dict_ok s (dict size : Z) :
  stream_ok s → 0 ≤ size ≤ currentOffset s → stream_ok (with_dict s dict size).
Proof. intros [H1 H2 H3 H4] Hs. by constructor. Qed.

Lemma renorm_ok s (src : Z) :
  stream_ok s → KB 64 ≤ src → let s1 := LZ4_renormDictT s src in
  stream_ok s1 ∧ currentOffset s1 ≤ 0x80000000 ∧ currentOffset s1 ≤ src ∧
  dictionary s1 + dictSize s1 = dictionary s + dictSize s ∧ dictSize s1 ≤ dictSize s.
Proof.
  intros Hs Hsrc s1. unfold KB in Hsrc. pose proof Hs as [H1 H2 H3 H4].
  unfold s1, LZ4_renormDictT. change (KB 64) with 65536.
  case_if; zbool; [|simpl; split_and!; (done || lia)].
  assert (Hco : 65536 ≤ currentOffset s) by (destruct E; zbool; lia).
  assert (Hsz : (if dictSize s >? 65536 then 65536 else dictSize s) = Z.min (dictSize s) 65536).
  { case_if; zbool; lia. }
  simpl. rewrite Hsz. split_and!; try lia. constructor; simpl; try done; try lia.
  intros h Hh. specialize (H4 h Hh). cbv zeta in H4. unfold renorm_table. rewrite lookup_fmap.
  rewrite u32_small by lia. unfold MINMATCH in *.
  destruct (hashTable s !! h) as [v|]; simpl in *; [|lia]. case_if; zbool; lia.
Qed.

Lemma prepare_ok s (source N : Z) :
  stream_ok s → KB 64 ≤ source → (0 < dictSize s → KB 64 ≤ dictionary s + dictSize s) →
  let s1 := prepare_stream s source N in
  stream_ok s1 ∧ currentOffset s1 ≤ 0x80000000 ∧ currentOffset s1 ≤ source ∧
  dictionary s1 + dictSize s1 = dictionary s + dictSize s ∧ dictSize s1 ≤ dictSize s ∧
  (currentOffset s1 = 0 → currentOffset s = 0).
Proof.
  intros Hs Hsrc Hd s1. unfold s1, prepare_stream.
  set (smallest := if (dictSize s >? 0) && _ then _ else source).
  assert (Hsm : KB 64 ≤ smallest ≤ source).
  { unfold smallest. case_if; zbool; lia. }
  destruct (renorm_ok s smallest Hs ltac:(lia)) as (R1 & R2 & R3 & R4 & R5).
  assert (R6 : currentOffset (LZ4_renormDictT s smallest) = 0 → currentOffset s = 0).
  { unfold LZ4_renormDictT. case_if; simpl; [unfold KB; lia|done]. }
  set (s' := LZ4_renormDictT s smallest) in *. unfold check_overlap.
  case_if; zbool; [|split_and!; (done || lia)].
  pose proof (so_size _ R1). pose proof (so_off _ R1). unfold KB. simpl.
  rewrite (u32_small (dictionary s + dictSize s - (source + N))) by lia.
  set (size := dictionary s + dictSize s - (source + N)) in *.
  assert (Hsz : 0 ≤ (if (if size >? 64 * 1024 then 64 * 1024 else size) <? 4 then 0
                     else if size >? 64 * 1024 then 64 * 1024 else size) ≤ size).
  { repeat case_if; zbool; lia. }
  split_and!; try lia. apply with_dict_ok; [done|lia].
Qed.

(** Positions a stream's table holds when a block starts at [source]. *)
Definition old_pos s (source p : Z) : Prop :=
  ∃ h, 0 ≤ h < HASH_SIZE_U32 ∧ p = default 0 (hashTable s !! h) + (source - currentOffset s).

Lemma old_pos_valid s (source ip p : Z) :
  stream_ok s → old_pos s source p → source < ip →
  (is_dictSmall (dict_issue s) = true → source - dictSize s ≤ p) → ip ≤ p + MAX_DISTANCE →
  source - dictSize s ≤ p < ip ∧ (source ≤ p ∨ p + MINMATCH ≤ source).
Proof.
  intros [H1 H2 H3 H4] (h & Hh & ->) Hip Hsmall Hd. specialize (H4 h Hh). cbv zeta in H4.
  unfold dict_issue, MAX_DISTANCE, MAXD_LOG, MINMATCH, KB in *.
  destruct ((dictSize s <? 64 * 1024) && (dictSize s <? currentOffset s)) eqn:Hc; simpl in Hsmall.
  - specialize (Hsmall eq_refl). lia.
  - apply andb_false_iff in Hc as [Hc|Hc]; zbool; lia.
Qed.

(** What a block of a stream needs of memory. *)
Record stream_args m s (source dest : Z) (hist x : list byte) (cap : Z) : Prop := {
  sa_comp : comp_args m source dest x cap;
  sa_pos : 0 < zlen x;
  sa_size : zlen hist = dictSize s;
  sa_hist : bytes_at m (dictionary s) hist;
  sa_apart_src : apart (dictionary s) (dictSize s) source (zlen x);
  sa_apart_dst : apart (dictionary s) (dictSize s) dest cap
}.

Definition stream_dict s (source : Z) : dict_directive :=
  if dictionary s + dictSize s =? source then withPrefix64k else usingExtDict.

Lemma stream_env m s (source dest maxOut cap : Z) (hist x : list byte) (acc : Z) :
  stream_ok s → currentOffset s ≤ 0x80000000 →
  stream_args m s source dest hist x cap → 1 ≤ acc ≤ 2 ^ 25 →
  loop_env (generic_env s source dest (zlen x) maxOut limitedOutput byU32
              (stream_dict s source) (dict_issue s) acc) hist x m cap (old_pos s source).
Proof.
  intros Hs Hco [[A1 A2 A3 A4 A5 A6] S1 S2 S3 S4 S5] Hacc.
  pose proof Hs as [H1 H2 H3 H4]. unfold stream_dict, apart in *.
  destruct (Z.eqb_spec (dictionary s + dictSize s) source) as [Hd|Hd];
    constructor; simpl; try done; try lia.
  - intros _. unfold LZ4_MAX_INPUT_SIZE in A5. lia.
  - intros p ip Ho Hip [Hp1 Hp2]. specialize (Hp2 eq_refl). simpl in *. rewrite S2.
    destruct (old_pos_valid s source ip p Hs Ho ltac:(lia) Hp1 Hp2). split_and!; (done || lia).
  - intros v Hv. unfold loc, txt. simpl in *. rewrite S2 in *.
    destruct (decide (v < source)).
    + rewrite lookup_app_l by lia. rewrite (bytes_at_index m (dictionary s)) by (done || lia).
      f_equal. lia.
    + rewrite lookup_app_r by lia. rewrite (bytes_at_index m source) by (done || lia). f_equal. lia.
  - intros v Hv. unfold loc. simpl in *. lia.
  - intros _. unfold LZ4_MAX_INPUT_SIZE in A5. lia.
  - intros p ip Ho Hip [Hp1 Hp2]. specialize (Hp2 eq_refl). simpl in *. rewrite S2.
    destruct (old_pos_valid s source ip p Hs Ho ltac:(lia) Hp1 Hp2). split_and!; (done || lia).
  - intros v Hv. unfold loc, txt, dictDelta. simpl in *. rewrite S2 in *.
    destruct (Z.ltb_spec v source).
    + rewrite lookup_app_l by lia. rewrite (bytes_at_index m (dictionary s)) by (done || lia).
      f_equal. lia.
    + rewrite lookup_app_r by lia. rewrite (bytes_at_index m source) by (done || lia). f_equal. lia.
  - intros v Hv. unfold loc, dictDelta. simpl in *. destruct (Z.ltb_spec v source); lia.
Qed.

(** The table after a block is fit for the next one. *)
Lemma stream_table_after s (source dest maxOut N : Z) (dict : dict_directive)
    (di : dictIssue_directive) (acc : Z) (tbl : table) :
  let cx := generic_env s source dest N maxOut limitedOutput byU32 dict di acc in
  stream_ok s → dict ≠ noDict → 0 ≤ N → (currentOffset s = 0 → MINMATCH ≤ N) →
  tbl_inv cx (old_pos s source) tbl (source + N) →
  ∀ h, 0 ≤ h < HASH_SIZE_U32 →
    let v := default 0 (tbl !! h) in
    0 ≤ v ∧ (v + MINMATCH ≤ currentOffset s + N ∨ currentOffset s + N = 0 ∧ v = 0).
Proof.
  intros cx [H1 H2 H3 H4] Hdict HN Hfirst Hinv h Hh v.
  specialize (Hinv h Hh). cbv zeta in Hinv. fold v in Hinv.
  assert (Hpos : entry_pos cx v = v + (source - currentOffset s)) by (by destruct dict).
  rewrite Hpos in Hinv. unfold cx in Hinv. simpl in Hinv. clear Hpos cx.
  unfold MFLIMIT, COPYLENGTH, MINMATCH in *.
  destruct Hinv as [(h' & Hh' & Hv)|Hinv]; [|lia].
  specialize (H4 h' Hh'). cbv zeta in H4. lia.
Qed.

Lemma with_offset_ok s (off : Z) (tbl : table) :
  stream_ok s → currentOffset s ≤ off < 2 ^ 32 →
  (∀ h, 0 ≤ h < HASH_SIZE_U32 →
    let v := default 0 (tbl !! h) in
    0 ≤ v ∧ (v + MINMATCH ≤ off ∨ off = 0 ∧ v = 0)) →
  stream_ok (with_offset (with_table s tbl) off).
Proof. intros [H1 H2 H3 H4] Ho Ht. constructor; simpl; [done|lia|lia|exact Ht]. Qed.

(** The dictionary a block leaves. *)
Definition next_hist s (source : Z) (hist x : list byte) : list byte :=
  if dictionary s + dictSize s =? source then hist ++ x else x.

(** The block itself, once the stream is prepared. *)
Lemma stream_block_spec m s (source dest maxOut acc : Z) (hist x : list byte) :
  stream_ok s → currentOffset s ≤ 0x80000000 →
  stream_args m s source dest hist x maxOut → 1 ≤ acc ≤ 2 ^ 25 →
  (currentOffset s = 0 → MINMATCH ≤ zlen x) → maxOut < 2 ^ 31 →
  LZ4_compressBound (zlen x) ≤ maxOut ∨ tested_room (zlen x) maxOut →
  wp (LZ4_compress_generic s source dest (zlen x) maxOut limitedOutput byU32
        (stream_dict s source) (dict_issue s) acc)
     (λ '(s2, n) m', frame dest (dest + maxOut) m m' ∧
        (n = 0 ∧ maxOut < LZ4_compressBound (zlen x) ∨ block_at m' dest maxOut hist x n) ∧
        ∃ tbl, s2 = with_table s tbl ∧
          stream_ok (with_offset (with_table s tbl) (currentOffset s + zlen x))) m.
Proof.
  intros P1 P2 A Hacc Hfirst Hmax Hsz. pose proof A as [AC A1 A2 A3 A4 A5].
  pose proof (ca_size _ _ _ _ _ AC) as HN. pose proof (ca_cap _ _ _ _ _ AC) as Hcap.
  destruct (compressBound_roomy (zlen x)) as [Hbd Hro]; [lia|].
  pose proof (stream_env m s source dest maxOut maxOut hist x acc P1 P2 A Hacc) as E.
  set (cx := generic_env _ _ _ _ _ _ _ _ _ _) in E.
  assert (R : room_env cx x maxOut).
  { constructor; simpl; [|done]. destruct Hsz as [Hb|Hb]; [left|by right].
    unfold roomy in *. lia. }
  eapply wp_mono; [apply (compress_generic_spec m s source dest maxOut maxOut
    limitedOutput byU32 _ _ acc hist x _ E R)|].
  - intros _. done.
  - intros h Hh. exists h. split; [done|]. unfold entry_pos, stream_dict. simpl. by case_if.
  - intros [s2 n] m' (F & Ho & tbl & -> & Ht). split; [done|]. split.
    { destruct Ho as [(-> & _ & Hn)|Ho]; [left; split; [done|]|by right].
      destruct (decide (maxOut < LZ4_compressBound (zlen x))); [done|].
      exfalso. apply Hn. unfold roomy in *. lia. }
    exists tbl. split; [done|]. unfold LZ4_MAX_INPUT_SIZE in HN.
    apply with_offset_ok; [done|lia|]. eapply stream_table_after; [done| |lia|auto|exact Ht].
    unfold stream_dict. by case_if.
Qed.

(** What [LZ4_compress_fast_continue] does to the stream and the destination. *)
Lemma fast_continue_spec m s (source dest maxDestSize acceleration : Z)
    (hist x : list byte) :
  let s1 := prepare_stream s source (zlen x) in
  stream_ok s → KB 64 ≤ source → (0 < dictSize s → KB 64 ≤ dictionary s + dictSize s) →
  stream_args m s1 source dest hist x maxDestSize →
  (currentOffset s = 0 → MINMATCH ≤ zlen x) →
  acceleration ≤ 2 ^ 25 → maxDestSize < 2 ^ 31 →
  LZ4_compressBound (zlen x) ≤ maxDestSize ∨ tested_room (zlen x) maxDestSize →
  ∃ s' n m', LZ4_compress_fast_continue s source dest (zlen x) maxDestSize acceleration m
      = Ret (s', n) m' ∧
    frame dest (dest + maxDestSize) m m' ∧
    (n = 0 ∧ maxDestSize < LZ4_compressBound (zlen x) ∨ block_at m' dest maxDestSize hist x n) ∧
    stream_ok s' ∧
    bytes_at m' (dictionary s') (next_hist s source hist x) ∧
    dictSize s' = zlen (next_hist s source hist x) ∧
    dictionary s' + dictSize s' = source + zlen x ∧ 0 < currentOffset s'.
Proof.
  intros s1 Hs Hsrc Hde A Hfirst Hacc Hmax Hsz. apply accel_range in Hacc.
  destruct (prepare_ok s source (zlen x) Hs Hsrc Hde) as (P1 & P2 & P3 & P4 & P5 & P6).
  fold s1 in P1, P2, P3, P4, P5, P6.
  set (acc := if acceleration <? 1 then ACCELERATION_DEFAULT else acceleration) in *.
  pose proof (stream_block_spec m s1 source dest maxDestSize acc hist x P1 P2 A Hacc
    ltac:(auto) Hmax Hsz) as Hg.
  pose proof A as [AC A1 A2 A3 A4 A5]. pose proof (ca_size _ _ _ _ _ AC) as HN.
  apply wp_result in Hg as ([s2 n] & m' & Hrun & F & Ho & tbl & -> & Hok).
  unfold LZ4_compress_fast_continue. rewrite (so_init _ Hs). change (negb (0 =? 0)) with false.
  cbv iota zeta. fold s1 acc. unfold LZ4_MAX_INPUT_SIZE in HN. unfold stream_dict in Hrun. rewrite P4 in Hrun.
  unfold next_hist. pose proof (so_size _ P1).
  destruct (Z.eqb_spec (dictionary s + dictSize s) source) as [Hd|Hd].
  - unfold bind. rewrite Hrun. simpl. rewrite !(u32_small (zlen x)), !u32_small by lia.
    do 3 eexists. split; [reflexivity|]. split; [done|]. split; [done|]. simpl.
    split; [apply (with_dict_ok (with_offset (with_table s1 tbl) (currentOffset s1 + zlen x)));
            [done|simpl; lia]|].
    rewrite length_app. split; [|lia]. apply bytes_at_app. split.
    + eapply bytes_at_frame; [exact F| |done]. unfold apart in *. lia.
    + replace (dictionary s1 + zlen hist) with source by lia. destruct AC.
      eapply bytes_at_frame; [exact F| |done]. unfold apart in *. lia.
  - unfold bind. rewrite Hrun. simpl. rewrite !(u32_small (zlen x)), !u32_small by lia.
    do 3 eexists. split; [reflexivity|]. split; [done|]. split; [done|]. simpl.
    split; [apply (with_dict_ok (with_offset (with_table s1 tbl) (currentOffset s1 + zlen x)));
            [done|simpl; lia]|].
    split; [|lia]. destruct AC. eapply bytes_at_frame; [exact F| |done]. unfold apart in *. lia.
Qed.

(** The dictionary a block is compressed with is the end of the one the stream
    came with, and the block has not been written over it. *)
Lemma prepare_apart s (source N : Z) :
  stream_ok s → 0 < N → dictionary s + dictSize s ≤ source ∨ source + N < dictionary s + dictSize s →
  let s1 := prepare_stream s source N in
  apart (dictionary s1) (dictSize s1) source N ∧
  (dictionary s + dictSize s ≤ source → Z.min (dictSize s) (KB 64) ≤ dictSize s1).
Proof.
  intros Hs HN Hd s1. unfold s1, prepare_stream. set (smallest := if (dictSize s >? 0) && _ then _ else source).
  assert (Hren : let s' := LZ4_renormDictT s smallest in
    dictionary s' + dictSize s' = dictionary s + dictSize s ∧
    (dictSize s' = dictSize s ∨ dictSize s' = Z.min (dictSize s) (KB 64))).
  { unfold LZ4_renormDictT. case_if; cbn [with_dict dictionary dictSize with_offset with_table]; [|lia].
    rewrite Z.gtb_ltb. destruct (Z.ltb_spec (KB 64) (dictSize s)); lia. }
  set (s' := LZ4_renormDictT s smallest) in *. destruct Hren as [He Hsz].
  pose proof (so_size _ Hs). pose proof (so_off _ Hs). unfold check_overlap, apart, KB in *.
  case_if; zbool; [|lia]. cbn [with_dict dictionary dictSize].
  rewrite (u32_small (dictionary s + dictSize s - (source + N))) by lia. repeat case_if; zbool; lia.
Qed.

(** A block of a stream that comes with the text [hist] as its dictionary. The
    block may lie where the beginning of that text was, as in a ring buffer, but
    not over its end: the code looks for an overlap only where the block ends
    within the dictionary. *)
Record stream_input m s (source dest : Z) (hist x : list byte) (cap : Z) : Prop := {
  si_comp : comp_args m source dest x cap;
  si_pos : 0 < zlen x;
  si_size : zlen hist = dictSize s;
  si_hist : intact m (dictionary s) hist source (zlen x);
  si_end : dictionary s + dictSize s ≤ source ∨ source + zlen x < dictionary s + dictSize s;
  si_apart : apart (dictionary s) (dictSize s) dest cap;
  si_low : KB 64 ≤ source ∧ (0 < dictSize s → KB 64 ≤ dictionary s + dictSize s)
}.

(** The arguments of the block itself. *)
Lemma stream_input_args m s (source dest : Z) (hist x : list byte) (cap : Z) :
  stream_ok s → stream_input m s source dest hist x cap →
  let s1 := prepare_stream s source (zlen x) in
  let hist1 := drop (Z.to_nat (dictSize s - dictSize s1)) hist in
  stream_args m s1 source dest hist1 x cap ∧
  (dictionary s + dictSize s ≤ source → Z.min (zlen hist) (KB 64) ≤ zlen hist1).
Proof.
  intros Hs [AC S1 S2 S3 S4 S5 [S6 S7]] s1 hist1.
  destruct (prepare_ok s source (zlen x) Hs S6 S7) as (P1 & P2 & P3 & P4 & P5 & P6).
  destruct (prepare_apart s source (zlen x) Hs S1 S4) as [Q1 Q2]. fold s1 in P1, P2, P3, P4, P5, P6, Q1, Q2.
  pose proof (so_size _ P1). set (k := Z.to_nat (dictSize s - dictSize s1)) in *.
  assert (Hl : zlen hist1 = dictSize s1) by (unfold hist1, k; rewrite length_drop; lia).
  split; [|rewrite Hl, S2; exact Q2].
  assert (Hd : dictionary s1 = dictionary s + Z.of_nat k) by lia.
  constructor; try done.
  - rewrite Hd. eapply intact_drop; [exact S3|]. fold hist1. rewrite Hl, <- Hd. exact Q1.
  - unfold apart in *. lia.
Qed.

(** C37: [LZ4_compress_fast_continue] on a stream in a valid state that comes with
    the text [hist] as its dictionary, the beginning of which the block may have
    been written over, writes a well-formed block with text [x] after [hist], or
    returns 0 when the destination is smaller than [LZ4_compressBound]; it stays
    in the destination.  It leaves a valid stream, whose dictionary is the end of
    [hist ++ x]: at least [x], and up to 64 KB of [hist] before it when the block
    followed its dictionary in memory.  The first block of a fresh stream has at
    least 4 bytes, a destination smaller than [LZ4_compressBound] is for blocks of
    at most 128 KB, the acceleration is at most [2^25], and the block does not
    cover the end of the dictionary. *)
Theorem LZ4_compress_fast_continue_block m s (source dest maxDestSize acceleration : Z)
    (hist x : list byte) :
  stream_ok s → stream_input m s source dest hist x maxDestSize →
  (currentOffset s = 0 → MINMATCH ≤ zlen x) →
  acceleration ≤ 2 ^ 25 → maxDestSize < 2 ^ 31 →
  LZ4_compressBound (zlen x) ≤ maxDestSize ∨ zlen x ≤ KB 128 →
  ∃ s' n m', LZ4_compress_fast_continue s source dest (zlen x) maxDestSize acceleration m
      = Ret (s', n) m' ∧
    frame dest (dest + maxDestSize) m m' ∧
    (n = 0 ∧ maxDestSize < LZ4_compressBound (zlen x) ∨ block_at m' dest maxDestSize hist x n) ∧
    stream_ok s' ∧ 0 < currentOffset s' ∧
    ∃ older recent : list byte, hist ++ x = older ++ recent ∧
      bytes_at m' (dictionary s') recent ∧ dictSize s' = zlen recent ∧
      dictionary s' + dictSize s' = source + zlen x ∧ zlen x ≤ zlen recent ∧
      (dictionary s + dictSize s = source → Z.min (zlen hist) (KB 64) + zlen x ≤ zlen recent).
Proof.
  intros Hs I Hfirst Hacc Hmax Hsz. destruct (stream_input_args _ _ _ _ _ _ _ Hs I) as [A Hlong].
  set (s1 := prepare_stream s source (zlen x)) in *. set (k := Z.to_nat (dictSize s - dictSize s1)) in *.
  destruct (si_low _ _ _ _ _ _ _ I) as [Hsrc Hde].
  destruct (fast_continue_spec m s source dest maxDestSize acceleration (drop k hist) x Hs Hsrc Hde A Hfirst
    Hacc Hmax) as (s' & n & m' & H1 & H2 & H3 & H4 & H5 & H6 & H7 & H8).
  { destruct Hsz as [Hsz|Hsz]; [by left|right; by left]. }
  exists s', n, m'. split; [done|]. split; [done|]. split.
  { destruct H3 as [H3|H3]; [by left|right]. rewrite <- (take_drop k hist). by apply block_at_extend. }
  split; [done|]. split; [done|]. unfold next_hist in *.
  destruct (Z.eqb_spec (dictionary s + dictSize s) source) as [Hd|Hd].
  - exists (take k hist), (drop k hist ++ x). rewrite app_assoc, take_drop, length_app in *.
    specialize (Hlong ltac:(lia)). split_and!; (done || lia).
  - exists hist, x. split_and!; (done || lia).
Qed.

(** * Dictionaries *)

(** The positions in a table lie at least [MINMATCH] bytes before [off]. *)
Definition table_below (off : Z) (tbl : table) : Prop :=
  ∀ h, 0 ≤ h < HASH_SIZE_U32 → 0 ≤ default 0 (tbl !! h) ∧ default 0 (tbl !! h) + MINMATCH ≤ off.

Lemma loadDict_loop_spec (fuel : nat) m (p dictEnd base : Z) (tbl : table) :
  table_below (dictEnd - base) tbl → base ≤ p → dictEnd - base < 2 ^ 32 →
  mapped m p (dictEnd - p) → (Z.to_nat (dictEnd - p) < fuel)%nat →
  wp (loadDict_loop fuel p dictEnd base tbl)
     (λ tbl' m', m' = m ∧ table_below (dictEnd - base) tbl') m.
Proof.
  revert p tbl. induction fuel as [|fuel IH]; intros p tbl Ht Hp Hw Hm Hf; [lia|].
  pose proof STEPSIZE_range. unfold HASH_UNIT. simpl. unfold HASH_UNIT. case_if; zbool.
  - unfold LZ4_putPosition. apply wp_bind.
    wp_apply hashPosition_spec; [solve_mapped|]. intros h m1 [-> Hh].
    unfold LZ4_putPositionOnHash.
    assert ((0 <=? h) && (h <? table_entries byU32) = true) as ->.
    { apply andb_true_iff. split; [apply Z.leb_le|apply Z.ltb_lt]; lia. }
    apply wp_ret. rewrite u32_small by lia. apply IH; try lia; [|solve_mapped].
    intros h' Hh'. destruct (decide (h = h')) as [<-|Hne].
    + rewrite lookup_insert_eq. simpl. unfold MINMATCH. lia.
    + rewrite lookup_insert_ne by done. by apply Ht.
  - by apply wp_ret.
Qed.

Lemma loadDict_start s (d n : Z) :
  stream_ok s ∨ initCheck s ≠ 0 →
  let s0 := if negb (initCheck s =? 0) || (currentOffset s >? GB 1) then LZ4_resetStream else s in
  stream_ok s0 ∧ currentOffset s0 ≤ 2 ^ 30.
Proof.
  intros Hs. cbv zeta. destruct (Z.eqb_spec (initCheck s) 0); simpl.
  - destruct Hs as [Hs|]; [|done]. unfold GB. case_if; zbool; [split; [apply resetStream_ok|simpl; lia]|].
    split; [done|lia].
  - split; [apply resetStream_ok|simpl; lia].
Qed.

(** [LZ4_loadDict], on a valid or an uninitialised stream, leaves a valid
    stream whose dictionary is the last 64 KB of the one given, and returns
    its size; a dictionary smaller than a machine word is ignored. *)
Theorem LZ4_loadDict_ok m s (d : Z) (dict : list byte) :
  stream_ok s ∨ initCheck s ≠ 0 → bytes_at m d dict → zlen dict < 2 ^ 31 →
  ∃ s' r, LZ4_loadDict s d (zlen dict) m = Ret (s', r) m ∧ stream_ok s' ∧
    r = dictSize s' ∧
    dictSize s' = (if zlen dict <? HASH_UNIT then 0 else Z.min (zlen dict) (KB 64)) ∧
    bytes_at m (dictionary s') (drop (Z.to_nat (zlen dict - dictSize s')) dict).
Proof.
  intros Hs Hd Hn. unfold LZ4_loadDict.
  destruct (loadDict_start s d (zlen dict) Hs) as [S1 S2]. cbv zeta in S1, S2.
  set (s0 := if negb (initCheck s =? 0) || (currentOffset s >? GB 1) then LZ4_resetStream else s) in *.
  pose proof S1 as [H1 H2 H3 H4]. pose proof STEPSIZE_range. unfold HASH_UNIT in *.
  case_if; zbool.
  { do 2 eexists. split; [reflexivity|]. simpl. split; [apply with_dict_ok; [done|lia]|].
    split; [done|]. split; [done|]. rewrite drop_ge by lia. done. }
  set (p := if d + zlen dict - d >? KB 64 then d + zlen dict - KB 64 else d).
  assert (Hp : d + zlen dict - p = Z.min (zlen dict) (KB 64)) by (unfold p; case_if; zbool; lia).
  cbn [with_offset with_dict currentOffset hashTable dictSize].
  rewrite Hp. unfold KB in *.
  rewrite (u32_small (currentOffset s0 + 64 * 1024)), (u32_small (Z.min _ _)) by lia.
  rewrite u32_small by lia.
  set (base := p - (currentOffset s0 + 64 * 1024)).
  pose proof (loadDict_loop_spec (S (Z.to_nat (Z.min (zlen dict) (64 * 1024)))) m p (d + zlen dict)
    base (hashTable s0)) as Hl.
  apply wp_result in Hl as (tbl & m' & Hrun & -> & Ht); [|..].
  - unfold bind. rewrite Hrun. do 2 eexists. split; [reflexivity|]. simpl.
    split; [|split; [done|split; [done|]]].
    + constructor; simpl; try done; try lia. intros h Hh. specialize (Ht h Hh). unfold base in Ht.
      cbv zeta. lia.
    + replace p with (d + Z.of_nat (Z.to_nat (zlen dict - Z.min (zlen dict) (64 * 1024)))) by lia.
      rewrite <- (take_drop (Z.to_nat (zlen dict - Z.min (zlen dict) (64 * 1024))) dict) in Hd.
      apply bytes_at_app in Hd as [_ Hd]. rewrite length_take_le in Hd by lia. done.
  - intros h Hh. specialize (H4 h Hh). cbv zeta in H4. unfold base, MINMATCH in *. lia.
  - unfold base. lia.
  - unfold base. lia.
  - solve_mapped.
  - lia.
Qed.

(** [LZ4_saveDict] copies the end of the stream's dictionary, at most 64 KB
    and at most what is asked for, to the buffer given, which becomes the
    dictionary of a stream that stays valid, and returns its size. *)
Theorem LZ4_saveDict_ok m s (safeBuffer maxDictSize : Z) (hist : list byte) :
  let n := Z.min (Z.min (u32 maxDictSize) (KB 64)) (dictSize s) in
  stream_ok s → - 2 ^ 31 ≤ maxDictSize < 2 ^ 31 →
  zlen hist = dictSize s → bytes_at m (dictionary s) hist → mapped m safeBuffer n →
  ∃ s' m', LZ4_saveDict s safeBuffer maxDictSize m = Ret (s', n) m' ∧
    frame safeBuffer (safeBuffer + n) m m' ∧ stream_ok s' ∧
    dictionary s' = safeBuffer ∧ dictSize s' = n ∧
    bytes_at m' safeBuffer (drop (Z.to_nat (dictSize s - n)) hist).
Proof.
  intros n Hs Hr Hh Hb Hm. pose proof (so_size _ Hs). pose proof (so_off _ Hs).
  pose proof (u32_range maxDictSize). unfold LZ4_saveDict.
  assert (Hn : ∀ k, k = (if u32 maxDictSize >? KB 64 then KB 64 else maxDictSize) →
    (if u32 k >? dictSize s then dictSize s else k) = n).
  { intros k ->. unfold n, KB. destruct (u32 maxDictSize >? 64 * 1024) eqn:Hc; zbool.
    - rewrite u32_small by lia. case_if; zbool; lia.
    - assert (u32 maxDictSize = maxDictSize) as Hu.
      { unfold u32, wrap in *. zdiv. }
      rewrite Hu in *. case_if; zbool; lia. }
  rewrite (Hn _ eq_refl). assert (Hn0 : 0 ≤ n ≤ dictSize s) by (unfold n, KB; lia).
  rewrite (u32_small n) by lia. clearbody n.
  assert (Hsplit : bytes_at m (dictionary s + dictSize s - n) (drop (Z.to_nat (dictSize s - n)) hist)).
  { rewrite <- (take_drop (Z.to_nat (dictSize s - n)) hist) in Hb.
    apply bytes_at_app in Hb as [_ Hb]. rewrite length_take_le in Hb by lia.
    by replace (dictionary s + Z.of_nat (Z.to_nat (dictSize s - n)))
      with (dictionary s + dictSize s - n) in Hb by lia. }
  pose proof (memmove_spec safeBuffer (dictionary s + dictSize s - n) n m ltac:(lia)) as Hmv.
  apply wp_result in Hmv as ([] & m' & Hrun & F & Hc); [|solve_mapped|done].
  unfold bind. rewrite Hrun. do 2 eexists. split; [reflexivity|]. split; [done|]. simpl.
  split; [apply with_dict_ok; [done|lia]|]. split; [done|]. split; [done|].
  eapply bytes_at_copy; [|exact Hsplit]. intros i Hi. apply Hc. rewrite length_drop in Hi. lia.
Qed.

End stream_proofs.
