(* ===== verification/Lz4CompressExamples.v ===== *)
(** Concrete runs of the block compressors: instances of the theorems of
    [Lz4CompressApi], [Lz4DestSize] and [Lz4Stream], and the inputs on which
    the code departs from its documentation. *)

From Stdlib Require Import ZArith Lia Strings.Byte.
From stdpp Require Import base gmap list fin_maps numbers.
From S2P Require Import Prelude Mem Lz4Common Lz4Format Lz4Decompress Lz4DecompressApi Lz4Compress Lz4Text Lz4CompressProofs Lz4CompressApi Lz4DestSize Lz4Stream.

(** Three letters repeated, 30 bytes, at 70000; 100 bytes of destination at
    80000 and 64 bytes at 90000. *)
Definition cx_text : list byte := concat (replicate 10 (bytes_of [97; 98; 99])).

Definition cx_mem : mem :=
  place 70000 cx_text
    (place 80000 (replicate 100 x00) (place 90000 (replicate 64 x00) ∅)).

Lemma cx_args (cap : Z) : 0 ≤ cap ≤ 100 → comp_args cx_mem 70000 80000 cx_text cap.
Proof.
  intros Hc. constructor.
  - ground.
  - apply (mapped_sub cx_mem 80000 100); [ground|lia|lia].
  - left. change (zlen cx_text) with 30. lia.
  - lia.
  - ground.
  - ground.
Qed.

Lemma LZ4_compress_fast_complete_witness :
  ∃ n m', @LZ4_compress_fast x86_64 70000 80000 (zlen cx_text) 100 1 cx_mem = Ret n m' ∧
    0 < n ≤ zlen cx_text + zlen cx_text / 255 + 16 ∧
    frame 80000 (80000 + LZ4_compressBound (zlen cx_text)) cx_mem m' ∧
    ∃ seqs l, end_ok seqs l ∧ block_text [] seqs l = Some cx_text ∧
      n = zlen (block seqs l) ∧ bytes_at m' 80000 (block seqs l).
Proof.
  apply (@LZ4_compress_fast_complete x86_64 cx_mem 70000 80000 100 1 cx_text);
    [apply cx_args; lia|ground|ground|ground].
Defined.

Lemma LZ4_compress_fast_limited_witness :
  ∃ n m', @LZ4_compress_fast x86_64 70000 80000 (zlen cx_text) 20 1 cx_mem = Ret n m' ∧
    frame 80000 (80000 + 20) cx_mem m' ∧
    (n = 0 ∨ 0 < n ≤ 20 ∧
     ∃ seqs l, end_ok seqs l ∧ block_text [] seqs l = Some cx_text ∧
       n = zlen (block seqs l) ∧ bytes_at m' 80000 (block seqs l)).
Proof.
  apply (@LZ4_compress_fast_limited x86_64 cx_mem 70000 80000 20 1 cx_text);
    [apply cx_args; lia|ground|ground|ground].
Defined.

Lemma LZ4_compress_default_roundtrip_witness :
  ∃ n m1 m2,
    @LZ4_compress_default x86_64 70000 80000 (zlen cx_text) (LZ4_compressBound (zlen cx_text)) cx_mem
      = Ret n m1 ∧
    @LZ4_decompress_safe x86_64 80000 90000 n (zlen cx_text + 1) m1 = Ret (zlen cx_text) m2 ∧
    bytes_at m2 90000 cx_text.
Proof.
  apply (@LZ4_compress_default_roundtrip x86_64 cx_mem 70000 80000 90000 cx_text);
    [apply cx_args; split; ground|ground..].
Defined.

Lemma LZ4_compress_destSize_block_witness :
  ∃ k n m', @LZ4_compress_destSize x86_64 70000 80000 (zlen cx_text) 12 cx_mem = Ret (k, n) m' ∧
    frame 80000 (80000 + 12) cx_mem m' ∧ 0 ≤ k ≤ zlen cx_text ∧ 0 < n ≤ 12 ∧
    (LZ4_compressBound (zlen cx_text) ≤ 12 → k = zlen cx_text) ∧
    ∃ seqs l, end_ok seqs l ∧ block_text [] seqs l = Some (take (Z.to_nat k) cx_text) ∧
      n = zlen (block seqs l) ∧ bytes_at m' 80000 (block seqs l).
Proof.
  apply (@LZ4_compress_destSize_block x86_64 cx_mem 70000 80000 12 cx_text);
    [apply cx_args; lia|ground].
Defined.

(** * Streams *)

(** A stream that has the 30 bytes at 70000 as its dictionary. *)
Definition cx_stream : LZ4_stream_t_internal :=
  {| hashTable := <[5 := 65540]> ∅; currentOffset := 65566; initCheck := 0;
     dictionary := 70000; bufferStart := 0; dictSize := 30 |}.

(** The next block, 16 bytes that were written over the first half of them. *)
Definition cx_block : list byte := drop 14 cx_text.

Definition cx_smem : mem := place 70000 cx_block cx_mem.

Lemma cx_stream_ok : stream_ok cx_stream.
Proof.
  constructor; simpl; try lia. intros h _. destruct (decide (h = 5)) as [->|].
  - rewrite lookup_insert_eq. unfold MINMATCH. simpl. lia.
  - rewrite lookup_insert_ne, lookup_empty by done. unfold MINMATCH. simpl. lia.
Qed.

Lemma cx_stream_input : stream_input cx_smem cx_stream 70000 80000 cx_text cx_block 100.
Proof.
  constructor; [constructor; ground|ground|ground| |right; ground|left; ground|split; [ground|intros _; ground]].
  change cx_text with (take 16 cx_text ++ drop 16 cx_text). apply intact_over; ground.
Qed.

Lemma LZ4_compress_fast_continue_block_witness :
  ∃ s' n m', @LZ4_compress_fast_continue x86_64 cx_stream 70000 80000 (zlen cx_block) 100 1 cx_smem
      = Ret (s', n) m' ∧
    frame 80000 (80000 + 100) cx_smem m' ∧
    (n = 0 ∧ 100 < LZ4_compressBound (zlen cx_block) ∨ block_at m' 80000 100 cx_text cx_block n) ∧
    stream_ok s' ∧ 0 < currentOffset s' ∧
    ∃ older recent : list byte, cx_text ++ cx_block = older ++ recent ∧
      bytes_at m' (dictionary s') recent ∧ dictSize s' = zlen recent ∧
      dictionary s' + dictSize s' = 70000 + zlen cx_block ∧ zlen cx_block ≤ zlen recent ∧
      (dictionary cx_stream + dictSize cx_stream = 70000 →
       Z.min (zlen cx_text) (KB 64) + zlen cx_block ≤ zlen recent).
Proof.
  apply (@LZ4_compress_fast_continue_block x86_64 cx_smem cx_stream 70000 80000 100 1 cx_text cx_block);
    [apply cx_stream_ok|apply cx_stream_input|ground|ground|ground|].
  left. ground.
Defined.

Lemma LZ4_loadDict_ok_witness :
  ∃ s' r, @LZ4_loadDict x86_64 cx_stream 70000 (zlen cx_text) cx_mem = Ret (s', r) cx_mem ∧
    stream_ok s' ∧ r = dictSize s' ∧
    dictSize s' = (if zlen cx_text <? @HASH_UNIT x86_64 then 0 else Z.min (zlen cx_text) (KB 64)) ∧
    bytes_at cx_mem (dictionary s') (drop (Z.to_nat (zlen cx_text - dictSize s')) cx_text).
Proof.
  apply (@LZ4_loadDict_ok x86_64 cx_mem cx_stream 70000 cx_text);
    [left; apply cx_stream_ok|ground|ground].
Defined.

Lemma LZ4_saveDict_ok_witness :
  ∃ s' m', LZ4_saveDict cx_stream 80000 20 cx_mem
      = Ret (s', Z.min (Z.min (u32 20) (KB 64)) (dictSize cx_stream)) m' ∧
    frame 80000 (80000 + Z.min (Z.min (u32 20) (KB 64)) (dictSize cx_stream)) cx_mem m' ∧
    stream_ok s' ∧ dictionary s' = 80000 ∧
    dictSize s' = Z.min (Z.min (u32 20) (KB 64)) (dictSize cx_stream) ∧
    bytes_at m' 80000
      (drop (Z.to_nat (dictSize cx_stream - Z.min (Z.min (u32 20) (KB 64)) (dictSize cx_stream)))
         cx_text).
Proof.
  apply (LZ4_saveDict_ok cx_mem cx_stream 80000 20 cx_text);
    [apply cx_stream_ok|split; ground|ground|ground|ground].
Defined.

(** * Departures from the documentation *)

(** Bytes without any repetition. *)
Definition cx_distinct : list byte := bytes_of (Z.of_nat <$> seq 1 20).

Definition cx_amem : mem :=
  place 70000 cx_distinct
    (place 80000 (replicate 100 x00) (place 90000 (replicate 64 x00) ∅)).

(** Compresses the 20 bytes at 70000 and decompresses the result: the size of
    the block, the result of the decoder and the 20 bytes it left. *)
Definition there_and_back (acceleration : Z) : prog (Z * Z * list byte) :=
  let! n := @LZ4_compress_fast x86_64 70000 80000 20 100 acceleration in
  let! r := @LZ4_decompress_safe x86_64 80000 90000 n 64 in
  let! l := load_bytes 90000 20 in
  ret (n, r, l).

Definition result_of {A : Type} (o : outcome A) : option A :=
  match o with Ret a _ => Some a | Fault | OutOfFuel => None end.

(** an acceleration of 2^26 makes [searchMatchNb] wrap around to 0, the
    search stops advancing, and a position is matched with itself, at offset
    0: [LZ4_compress_fast] reports a block of 9 bytes, the decoder accepts
    it, and what it gives back is not the input; with an acceleration of 1 it
    is. *)
Theorem LZ4_compress_fast_acceleration_wraps :
  (∃ l, result_of (there_and_back (2 ^ 26) cx_amem) = Some (9, 20, l) ∧ l ≠ cx_distinct) ∧
  (∃ n, result_of (there_and_back 1 cx_amem) = Some (n, 20, cx_distinct)).
Proof.
  split; eexists; [split; [vm_compute; reflexivity|done]|vm_compute; reflexivity].
Qed.

(** A stream that has compressed a first block of 3 bytes, and nothing around
    that block. *)
Definition cx_tmem : mem :=
  place 70000 (bytes_of [1; 2; 3])
    (place 80000 (replicate 100 x00) (place 90000 cx_distinct ∅)).

Definition two_blocks : prog (Z * Z) :=
  let! (s, n1) := @LZ4_compress_fast_continue x86_64 LZ4_resetStream 70000 80000 3 40 1 in
  let! (s, n2) := @LZ4_compress_fast_continue x86_64 s 90000 80040 20 60 1 in
  ret (n1, n2).

(** after a first block of fewer than 4 bytes, the empty entries of the hash
    table stand for a position in the last 3 bytes of the dictionary, and the
    next call of [LZ4_compress_fast_continue], elsewhere in memory, reads 4
    bytes there: past the end of the previous block. *)
Theorem LZ4_compress_fast_continue_tiny_block : two_blocks cx_tmem = Fault.
Proof. vm_compute. reflexivity. Qed.

(** The output bound just passes the test on a match of 330495 bytes. *)
Definition cx_long : Z := 330495.

Definition cx_limit_env : comp_env :=
  {| ce_source := 0; ce_dest := 80000; ce_iend := 0; mflimit := 0; matchlimit := 0;
     olimit := 80010 + 6 + Z.shiftr cx_long 8; maxOutputSize := 16 + Z.shiftr cx_long 8;
     outputLimited := true; tableType := byU32; ce_dict := noDict; dictIssue := noDictIssue;
     base := 0; lowRefLimit := 0; ce_dictionary := 0; ce_dictEnd := 0; ce_acceleration := 1 |}.

(** A destination that ends at the limit. *)
Definition cx_limit_mem : mem :=
  place 80000 (replicate (Z.to_nat (olimit cx_limit_env - 80000)) x00) ∅.

(** The test [op + (1 + LASTLITERALS) + (matchLength>>8) > olimit] lets a
    match length of 330495 pass, whose encoding then runs past the limit. *)
Theorem encode_match_length_overrun :
  (80010 + (1 + LASTLITERALS) + Z.shiftr cx_long 8 >? olimit cx_limit_env) = false ∧
  encode_match_length cx_limit_env 80010 80007 cx_long cx_limit_mem = Fault.
Proof. split; [done|vm_compute; reflexivity]. Qed.
