(* ===== verification/Lz4Hc.v ===== *)
(** LZ4 HC, the high compression mode: the hash chains, the two match finders,
    the parser that chooses among overlapping matches, and the one-shot,
    streaming and deprecated entry points (src/src/lz4/lib/lz4hc.c).

    Pointers are integers; the context is a record that the functions take and
    return.  A match is kept as the triple the code holds in variables of its
    own: where it starts, where it is copied from, and its length. *)

From Stdlib Require Import ZArith Lia Strings.Byte.
From stdpp Require Import base gmap list fin_maps numbers.
From S2P Require Import Prelude Mem Lz4Common Lz4Decompress Lz4Compress.

(** * Constants and types *)

Definition LZ4HC_compressionLevel_default : Z := 9.
Definition DICTIONARY_LOGSIZE : Z := 16.
Definition MAXD : Z := 2 ^ DICTIONARY_LOGSIZE.
Definition HASH_LOG : Z := DICTIONARY_LOGSIZE - 1.
Definition HASHTABLESIZE : Z := 2 ^ HASH_LOG.
Definition OPTIMAL_ML : Z := (ML_MASK - 1) + MINMATCH.
Definition g_maxCompressionLevel : Z := 16.

Record LZ4HC_Data_Structure : Type := HC {
  hc_hashTable : table;
  chainTable : table;
  hc_end : Z;
  hc_base : Z;
  dictBase : Z;
  inputBuffer : Z;
  dictLimit : Z;
  lowLimit : Z;
  nextToUpdate : Z;
  compressionLevel : Z
}.

(** Assignments to the fields of a context. *)
Definition with_tables (hc : LZ4HC_Data_Structure) (tbl chain : table) (next : Z) :
    LZ4HC_Data_Structure :=
  HC tbl chain (hc_end hc) (hc_base hc) (dictBase hc) (inputBuffer hc) (dictLimit hc)
     (lowLimit hc) next (compressionLevel hc).

Definition with_window (hc : LZ4HC_Data_Structure)
    (end_ base dictBase dictLimit lowLimit nextToUpdate : Z) : LZ4HC_Data_Structure :=
  HC (hc_hashTable hc) (chainTable hc) end_ base dictBase (inputBuffer hc) dictLimit lowLimit
     nextToUpdate (compressionLevel hc).

Definition with_level (hc : LZ4HC_Data_Structure) (level : Z) : LZ4HC_Data_Structure :=
  HC (hc_hashTable hc) (chainTable hc) (hc_end hc) (hc_base hc) (dictBase hc) (inputBuffer hc)
     (dictLimit hc) (lowLimit hc) (nextToUpdate hc) level.

Definition with_inputBuffer (hc : LZ4HC_Data_Structure) (b : Z) : LZ4HC_Data_Structure :=
  HC (hc_hashTable hc) (chainTable hc) (hc_end hc) (hc_base hc) (dictBase hc) b
     (dictLimit hc) (lowLimit hc) (nextToUpdate hc) (compressionLevel hc).

(** A match of the parser: [start], [ref] and [ml] of the code. *)
Record hc_match : Type := Match {
  mt_start : Z;
  mt_ref : Z;
  mt_len : Z
}.

(** The labels of [LZ4HC_compress_generic]: the test of the [while] loop,
    [_Search2] and [_Search3]. *)
Inductive hc_label : Type := HMain | HSearch2 | HSearch3.

(** Its variables: [cur] is [ip], [ref] and [ml]; [second], [third] and [saved] are
    those numbered 2, 3 and 0. *)
Record hc_state : Type := HState {
  hs_ctx : LZ4HC_Data_Structure;
  hs_anchor : Z;
  hs_op : Z;
  cur : hc_match;
  second : hc_match;
  third : hc_match;
  saved : hc_match
}.

(** Where control goes after a label: out with [return 0], or to a label. *)
Inductive hc_next : Type :=
| HStop (ctx : LZ4HC_Data_Structure)
| HGo (st : hc_state) (pc : hc_label).

(** The constants computed on entry. *)
Record hc_env : Type := HEnv {
  he_dest : Z;
  he_iend : Z;
  he_mflimit : Z;
  he_matchlimit : Z;
  he_maxOutputSize : Z;
  he_oend : Z;
  he_limit : limitedOutput_directive;
  maxNbAttempts : Z
}.

(** [MEM_INIT] fills the hash table with 0 and the chain table with 0xFF bytes;
    an entry that is not bound has that value. *)
Definition LZ4HC_init (hc4 : LZ4HC_Data_Structure) (start : Z) : LZ4HC_Data_Structure :=
  HC ∅ ∅ start (start - KB 64) (start - KB 64) (inputBuffer hc4) (KB 64) (KB 64) (KB 64)
     (compressionLevel hc4).

(** [DELTANEXTU16(p)] *)
Definition DELTANEXTU16 (chain : table) (p : Z) : Z := default 0xFFFF (chain !! u16 p).

Section hc.
Context {arch : Arch}.

(** * Hash chains *)

Definition HASH_FUNCTION (i : Z) : Z := Z.shiftr (u32 (i * 2654435761)) (MINMATCH * 8 - HASH_LOG).

Definition LZ4HC_hashPtr (ptr : Z) : prog Z :=
  let! v := LZ4_read32 ptr in ret (HASH_FUNCTION v).

(** [HashTable[h]] *)
Definition HashTable (tbl : table) (h : Z) : prog Z :=
  if (0 <=? h) && (h <? HASHTABLESIZE) then ret (default 0 (tbl !! h)) else fault.

Fixpoint insert_loop (fuel : nat) (base idx target : Z) (tbl chain : table) :
    prog (table * table) :=
  match fuel with
  | O => nofuel
  | S fuel =>
      if idx <? target then
        let! h := LZ4HC_hashPtr (base + idx) in
        let! e := HashTable tbl h in
        let delta := u32 (idx - e) in
        let delta := if delta >? MAX_DISTANCE then MAX_DISTANCE else delta in
        insert_loop fuel base (u32 (idx + 1)) target (<[h := idx]> tbl)
          (<[u16 idx := u16 delta]> chain)
      else ret (tbl, chain)
  end.

(** Update chains up to [ip], excluded. *)
Definition LZ4HC_Insert (hc4 : LZ4HC_Data_Structure) (ip : Z) : prog LZ4HC_Data_Structure :=
  let target := u32 (ip - hc_base hc4) in
  let idx := nextToUpdate hc4 in
  let! (tbl, chain) :=
    insert_loop (S (Z.to_nat (target - idx))) (hc_base hc4) idx target (hc_hashTable hc4)
      (chainTable hc4) in
  ret (with_tables hc4 tbl chain target).

(** [lowLimit] of the match finders. *)
Definition search_low (hc4 : LZ4HC_Data_Structure) (ip : Z) : Z :=
  if u32 (lowLimit hc4 + KB 64) >? u32 (ip - hc_base hc4) then lowLimit hc4
  else u32 (u32 (ip - hc_base hc4) - (KB 64 - 1)).

(** The comparison with a candidate that may lie in the external dictionary,
    forwards: the length of the match at [matchIndex < dictLimit]. *)
Definition count_ext (hc4 : LZ4HC_Data_Structure) (ip mtch matchIndex iLimit : Z) : prog Z :=
  let vLimit := ip + u32 (dictLimit hc4 - matchIndex) in
  let vLimit := if vLimit >? iLimit then iLimit else vLimit in
  let! n := LZ4_count (ip + MINMATCH) (mtch + MINMATCH) vLimit in
  let mlt := n + MINMATCH in
  if (ip + mlt =? vLimit) && (vLimit <? iLimit) then
    let! more := LZ4_count (ip + mlt) (hc_base hc4 + dictLimit hc4) iLimit in
    ret (mlt + more)
  else ret mlt.

(** * The match finders *)

(** The loop over the chain of [LZ4HC_InsertAndFindBestMatch]. *)
Fixpoint best_loop (fuel : nat) (hc4 : LZ4HC_Data_Structure) (ip iLimit low matchIndex : Z)
    (nbAttempts ml matchpos : Z) : prog (Z * Z) :=
  match fuel with
  | O => nofuel
  | S fuel =>
      if (matchIndex >=? low) && negb (nbAttempts =? 0) then
        let! (ml, matchpos) :=
          (if matchIndex >=? dictLimit hc4 then
             let mtch := hc_base hc4 + matchIndex in
             let! a := load8 (mtch + ml) in
             let! b := load8 (ip + ml) in
             if a =? b then
               let! a := LZ4_read32 mtch in
               let! b := LZ4_read32 ip in
               if a =? b then
                 let! n := LZ4_count (ip + MINMATCH) (mtch + MINMATCH) iLimit in
                 let mlt := n + MINMATCH in
                 ret (if mlt >? ml then (mlt, mtch) else (ml, matchpos))
               else ret (ml, matchpos)
             else ret (ml, matchpos)
           else
             let mtch := dictBase hc4 + matchIndex in
             let! a := LZ4_read32 mtch in
             let! b := LZ4_read32 ip in
             if a =? b then
               let! mlt := count_ext hc4 ip mtch matchIndex iLimit in
               ret (if mlt >? ml then (mlt, hc_base hc4 + matchIndex) else (ml, matchpos))
             else ret (ml, matchpos)) in
        best_loop fuel hc4 ip iLimit low
          (u32 (matchIndex - DELTANEXTU16 (chainTable hc4) matchIndex)) (nbAttempts - 1) ml matchpos
      else ret (ml, matchpos)
  end.

(** Returns the context, the length of the match, and [*matchpos]. *)
Definition LZ4HC_InsertAndFindBestMatch (hc4 : LZ4HC_Data_Structure) (ip iLimit matchpos : Z)
    (maxNbAttempts : Z) : prog (LZ4HC_Data_Structure * Z * Z) :=
  let low := search_low hc4 ip in
  let! hc4 := LZ4HC_Insert hc4 ip in
  let! h := LZ4HC_hashPtr ip in
  let! matchIndex := HashTable (hc_hashTable hc4) h in
  let! (ml, matchpos) :=
    best_loop (S (Z.to_nat maxNbAttempts)) hc4 ip iLimit low matchIndex maxNbAttempts 0 matchpos in
  ret (hc4, s32 ml, matchpos).

(** [while ((ip+back>iLowLimit) && more back && (ip[back-1]==matchPtr[back-1])) back--;] *)
Fixpoint back_loop (fuel : nat) (ip matchPtr iLowLimit : Z) (more : Z → bool) (back : Z) : prog Z :=
  match fuel with
  | O => nofuel
  | S fuel =>
      if (ip + back >? iLowLimit) && more back then
        let! a := load8 (ip + (back - 1)) in
        let! b := load8 (matchPtr + (back - 1)) in
        if a =? b then back_loop fuel ip matchPtr iLowLimit more (back - 1) else ret back
      else ret back
  end.

(** The loop over the chain of [LZ4HC_InsertAndGetWiderMatch]; [best] is [longest],
    [*matchpos] and [*startpos]. *)
Fixpoint wider_loop (fuel : nat) (hc4 : LZ4HC_Data_Structure)
    (ip iLowLimit iHighLimit low matchIndex nbAttempts : Z) (best : hc_match) : prog hc_match :=
  match fuel with
  | O => nofuel
  | S fuel =>
      if (matchIndex >=? low) && negb (nbAttempts =? 0) then
        let longest := mt_len best in
        let delta := ip - iLowLimit in
        let back_fuel := S (Z.to_nat (ip - iLowLimit)) in
        let! best :=
          (if matchIndex >=? dictLimit hc4 then
             let matchPtr := hc_base hc4 + matchIndex in
             let! a := load8 (iLowLimit + longest) in
             let! b := load8 (matchPtr - delta + longest) in
             if a =? b then
               let! a := LZ4_read32 matchPtr in
               let! b := LZ4_read32 ip in
               if a =? b then
                 let! n := LZ4_count (ip + MINMATCH) (matchPtr + MINMATCH) iHighLimit in
                 let mlt := MINMATCH + n in
                 let! back := back_loop back_fuel ip matchPtr iLowLimit
                   (λ back, matchPtr + back >? hc_base hc4 + dictLimit hc4) 0 in
                 let mlt := mlt - back in
                 ret (if mlt >? longest then Match (ip + back) (matchPtr + back) mlt else best)
               else ret best
             else ret best
           else
             let matchPtr := dictBase hc4 + matchIndex in
             let! a := LZ4_read32 matchPtr in
             let! b := LZ4_read32 ip in
             if a =? b then
               let! mlt := count_ext hc4 ip matchPtr matchIndex iHighLimit in
               let! back := back_loop back_fuel ip matchPtr iLowLimit
                 (λ back, u32 (matchIndex + back) >? low) 0 in
               let mlt := mlt - back in
               ret (if mlt >? longest
                    then Match (ip + back) (hc_base hc4 + matchIndex + back) mlt else best)
             else ret best) in
        wider_loop fuel hc4 ip iLowLimit iHighLimit low
          (u32 (matchIndex - DELTANEXTU16 (chainTable hc4) matchIndex)) (nbAttempts - 1) best
      else ret best
  end.

(** The match returned has length [longest] and is [old] but for that when no
    wider one is found. *)
Definition LZ4HC_InsertAndGetWiderMatch (hc4 : LZ4HC_Data_Structure)
    (ip iLowLimit iHighLimit longest : Z) (old : hc_match) (maxNbAttempts : Z) :
    prog (LZ4HC_Data_Structure * hc_match) :=
  let low := search_low hc4 ip in
  let! hc4 := LZ4HC_Insert hc4 ip in
  let! h := LZ4HC_hashPtr ip in
  let! matchIndex := HashTable (hc_hashTable hc4) h in
  let! best :=
    wider_loop (S (Z.to_nat maxNbAttempts)) hc4 ip iLowLimit iHighLimit low matchIndex
      maxNbAttempts (Match (mt_start old) (mt_ref old) longest) in
  ret (hc4, best).

(** * Encoding *)

(** A sequence: [ip], [op] and [anchor] after it, or [None] for [return 1], when the
    output limit is met.  The loops that write the lengths are those of the
    fast compressor, with [len > 254] for [len >= 255]. *)
Definition LZ4HC_encodeSequence (ip op anchor matchLength mtch : Z)
    (limitedOutputBuffer : limitedOutput_directive) (oend : Z) : prog (option (Z * Z * Z)) :=
  let length := s32 (ip - anchor) in
  let token := op in
  let op := op + 1 in
  if is_limited limitedOutputBuffer &&
     (op + Z.shiftr length 8 + length + (2 + 1 + LASTLITERALS) >? oend)
  then ret None
  else
    let! op :=
      (if length >=? RUN_MASK then
         store8 token (Z.shiftl RUN_MASK ML_BITS) ;!
         put_run (S (Z.to_nat (length - RUN_MASK))) op (length - RUN_MASK)
       else store8 token (Z.shiftl length ML_BITS) ;! ret op) in
    LZ4_wildCopy op anchor (op + length) ;!
    let op := op + length in
    LZ4_writeLE16 op (u16 (ip - mtch)) ;!
    let op := op + 2 in
    let length := matchLength - MINMATCH in
    if is_limited limitedOutputBuffer && (op + Z.shiftr length 8 + (1 + LASTLITERALS) >? oend)
    then ret None
    else
      let! op :=
        (if length >=? ML_MASK then
           add_token token ML_MASK ;!
           let! op := put_match_run (S (Z.to_nat (length - ML_MASK))) op (length - ML_MASK) in
           ret op
         else add_token token length ;! ret op) in
      let ip := ip + matchLength in
      ret (Some (ip, op, ip)).

(** "Encode Last Literals"; the result 0 means that the output does not fit. *)
Definition hc_last_literals (he : hc_env) (anchor op : Z) : prog Z :=
  let lastRun := s32 (he_iend he - anchor) in
  if is_limited (he_limit he) &&
     (op - he_dest he + lastRun + 1 + (lastRun + 255 - RUN_MASK) / 255 >? u32 (he_maxOutputSize he))
  then ret 0
  else
    let! op :=
      (if lastRun >=? RUN_MASK then
         store8 op (Z.shiftl RUN_MASK ML_BITS) ;!
         put_run (S (Z.to_nat (lastRun - RUN_MASK))) (op + 1) (lastRun - RUN_MASK)
       else store8 op (Z.shiftl lastRun ML_BITS) ;! ret (op + 1)) in
    memcpy op anchor (he_iend he - anchor) ;!
    ret (op + (he_iend he - anchor) - he_dest he).

(** * The parser *)

(** [start += correction; ref += correction; ml -= correction;] *)
Definition push_match (correction : Z) (m : hc_match) : hc_match :=
  Match (mt_start m + correction) (mt_ref m + correction) (mt_len m - correction).

(** The length of the first match when the second one follows at once: at most
    [OPTIMAL_ML], and leaving [MINMATCH] bytes for the second. *)
Definition optimal_ml (ip ml : Z) (m2 : hc_match) : Z :=
  let new_ml := if ml >? OPTIMAL_ML then OPTIMAL_ML else ml in
  if ip + new_ml >? mt_start m2 + mt_len m2 - MINMATCH
  then mt_start m2 - ip + mt_len m2 - MINMATCH else new_ml.

Definition push_to (ip new_ml : Z) (m2 : hc_match) : hc_match :=
  let correction := new_ml - (mt_start m2 - ip) in
  if correction >? 0 then push_match correction m2 else m2.

(** The search of [_Search2]. *)
Definition search2 (he : hc_env) (st : hc_state) : prog (LZ4HC_Data_Structure * hc_match) :=
  let ip := mt_start (cur st) in
  let ml := mt_len (cur st) in
  if ip + ml <? he_mflimit he then
    LZ4HC_InsertAndGetWiderMatch (hs_ctx st) (ip + ml - 2) (ip + 1) (he_matchlimit he) ml
      (second st) (maxNbAttempts he)
  else ret (hs_ctx st, Match (mt_start (second st)) (mt_ref (second st)) ml).

(** The search of [_Search3] with the second match [m2]. *)
Definition search3 (he : hc_env) (st : hc_state) (m2 : hc_match) :
    prog (LZ4HC_Data_Structure * hc_match) :=
  if mt_start m2 + mt_len m2 <? he_mflimit he then
    LZ4HC_InsertAndGetWiderMatch (hs_ctx st) (mt_start m2 + mt_len m2 - 3) (mt_start m2)
      (he_matchlimit he) (mt_len m2) (third st) (maxNbAttempts he)
  else ret (hs_ctx st, Match (mt_start (third st)) (mt_ref (third st)) (mt_len m2)).

(** Encodes [m] and goes on with the state that [k] makes of the new [op] and
    [anchor]. *)
Definition encode_then (he : hc_env) (st : hc_state) (ctx : LZ4HC_Data_Structure) (m : hc_match)
    (k : Z → Z → hc_state * hc_label) : prog hc_next :=
  let! r := LZ4HC_encodeSequence (mt_start m) (hs_op st) (hs_anchor st) (mt_len m) (mt_ref m)
              (he_limit he) (he_oend he) in
  ret (match r with
       | None => HStop ctx
       | Some (_, op, anchor) => let '(st, pc) := k op anchor in HGo st pc
       end).

(** From [_Search2] to the next label. *)
Definition step_search2 (he : hc_env) (st : hc_state) : prog hc_next :=
  let! (ctx, m2) := search2 he st in
  let m1 := cur st in
  if mt_len m2 =? mt_len m1 then
    encode_then he st ctx m1 (λ op anchor,
      (HState ctx anchor op (Match anchor (mt_ref m1) (mt_len m1)) m2 (third st) (saved st), HMain))
  else
    let m1 := if (mt_start (saved st) <? mt_start m1) &&
                 (mt_start m2 <? mt_start m1 + mt_len (saved st))
              then saved st else m1 in
    if mt_start m2 - mt_start m1 <? 3 then
      ret (HGo (HState ctx (hs_anchor st) (hs_op st) m2 m2 (third st) (saved st)) HSearch2)
    else
      ret (HGo (HState ctx (hs_anchor st) (hs_op st) m1 m2 (third st) (saved st)) HSearch3).

(** [_Search3] when the third match leaves no room for the second. *)
Definition remove_second (he : hc_env) (st : hc_state) (ctx : LZ4HC_Data_Structure)
    (m2 m3 : hc_match) : prog hc_next :=
  let m1 := cur st in
  let e := mt_start m1 + mt_len m1 in
  if mt_start m3 >=? e then
    let m2 :=
      if mt_start m2 <? e then
        let m2 := push_match (e - mt_start m2) m2 in
        if mt_len m2 <? MINMATCH then m3 else m2
      else m2 in
    encode_then he st ctx m1 (λ op anchor, (HState ctx anchor op m3 m2 m3 m2, HSearch2))
  else ret (HGo (HState ctx (hs_anchor st) (hs_op st) m1 m3 m3 (saved st)) HSearch3).

(** [_Search3] when there are three ascending matches: the first is encoded. *)
Definition three_matches (he : hc_env) (st : hc_state) (ctx : LZ4HC_Data_Structure)
    (m2 m3 : hc_match) : prog hc_next :=
  let m1 := cur st in
  let ip := mt_start m1 in
  let '(ml, m2) :=
    if mt_start m2 <? ip + mt_len m1 then
      if mt_start m2 - ip <? ML_MASK then
        let ml := optimal_ml ip (mt_len m1) m2 in (ml, push_to ip ml m2)
      else (mt_start m2 - ip, m2)
    else (mt_len m1, m2) in
  encode_then he st ctx (Match ip (mt_ref m1) ml)
    (λ op anchor, (HState ctx anchor op m2 m3 m3 (saved st), HSearch3)).

(** From [_Search3] to the next label. *)
Definition step_search3 (he : hc_env) (st : hc_state) : prog hc_next :=
  let m1 := cur st in
  let ip := mt_start m1 in
  let m2 := if mt_start (second st) - ip <? OPTIMAL_ML
            then push_to ip (optimal_ml ip (mt_len m1) (second st)) (second st)
            else second st in
  let! (ctx, m3) := search3 he st m2 in
  if mt_len m3 =? mt_len m2 then
    let ml := if mt_start m2 <? ip + mt_len m1 then mt_start m2 - ip else mt_len m1 in
    let! r := encode_then he st ctx (Match ip (mt_ref m1) ml)
                (λ op anchor, (HState ctx anchor op m1 m2 m3 (saved st), HSearch3)) in
    match r with
    | HStop ctx => ret (HStop ctx)
    | HGo st _ =>
        encode_then he st ctx m2 (λ op anchor,
          (HState ctx anchor op (Match anchor (mt_ref m1) ml) m2 m3 (saved st), HMain))
    end
  else if mt_start m3 <? ip + mt_len m1 + 3 then remove_second he st ctx m2 m3
  else three_matches he st ctx m2 m3.

(** The main loop; the result is the context and the size, 0 for [return 0]. *)
Fixpoint hc_loop (fuel : nat) (he : hc_env) (st : hc_state) (pc : hc_label) :
    prog (LZ4HC_Data_Structure * Z) :=
  match fuel with
  | O => nofuel
  | S fuel =>
      match pc with
      | HMain =>
          let ip := mt_start (cur st) in
          if ip <? he_mflimit he then
            let! (ctx, ml, ref) :=
              LZ4HC_InsertAndFindBestMatch (hs_ctx st) ip (he_matchlimit he) (mt_ref (cur st))
                (maxNbAttempts he) in
            if ml =? 0 then
              hc_loop fuel he (HState ctx (hs_anchor st) (hs_op st) (Match (ip + 1) ref ml)
                                 (second st) (third st) (saved st)) HMain
            else
              let m := Match ip ref ml in
              hc_loop fuel he (HState ctx (hs_anchor st) (hs_op st) m (second st) (third st) m)
                HSearch2
          else
            let! n := hc_last_literals he (hs_anchor st) (hs_op st) in
            ret (hs_ctx st, n)
      | HSearch2 | HSearch3 =>
          let! r := (match pc with HSearch3 => step_search3 he st | _ => step_search2 he st end) in
          match r with
          | HStop ctx => ret (ctx, 0)
          | HGo st pc => hc_loop fuel he st pc
          end
      end
  end.

Definition LZ4HC_compress_generic (ctx : LZ4HC_Data_Structure)
    (source dest inputSize maxOutputSize compressionLevel : Z) (limit : limitedOutput_directive) :
    prog (LZ4HC_Data_Structure * Z) :=
  let iend := source + inputSize in
  let level := if compressionLevel >? g_maxCompressionLevel then g_maxCompressionLevel
               else compressionLevel in
  let level := if level <? 1 then LZ4HC_compressionLevel_default else level in
  let he := HEnv dest iend (iend - MFLIMIT) (iend - LASTLITERALS) maxOutputSize
              (dest + maxOutputSize) limit (Z.shiftl 1 (level - 1)) in
  let ctx := with_window ctx (hc_end ctx + inputSize) (hc_base ctx) (dictBase ctx) (dictLimit ctx)
               (lowLimit ctx) (nextToUpdate ctx) in
  let none := Match NULL NULL 0 in
  hc_loop (2 * Z.to_nat inputSize + 4) he
    (HState ctx source dest (Match (source + 1) NULL 0) none none none) HMain.

(** * One-shot compression *)

(** [state] is the address of the context [hc], which must be aligned for
    pointers. *)
Definition LZ4_compress_HC_extStateHC (state : Z) (hc : LZ4HC_Data_Structure)
    (src dst srcSize maxDstSize compressionLevel : Z) : prog (LZ4HC_Data_Structure * Z) :=
  if negb (Z.land (usize state) (STEPSIZE - 1) =? 0) then ret (hc, 0)
  else
    let hc := LZ4HC_init hc src in
    if maxDstSize <? LZ4_compressBound srcSize then
      LZ4HC_compress_generic hc src dst srcSize maxDstSize compressionLevel limitedOutput
    else
      LZ4HC_compress_generic hc src dst srcSize maxDstSize compressionLevel notLimited.

(** The context is a local variable: its address, aligned by the compiler, and
    what it holds are the arguments [state] and [hc]. *)
Definition LZ4_compress_HC (state : Z) (hc : LZ4HC_Data_Structure)
    (src dst srcSize maxDstSize compressionLevel : Z) : prog Z :=
  let! (_, n) := LZ4_compress_HC_extStateHC state hc src dst srcSize maxDstSize compressionLevel in
  ret n.

(** * Streaming *)

Definition LZ4_resetStreamHC (hc : LZ4HC_Data_Structure) (compressionLevel : Z) :
    LZ4HC_Data_Structure :=
  with_level (with_window hc (hc_end hc) NULL (dictBase hc) (dictLimit hc) (lowLimit hc)
                (nextToUpdate hc)) (u32 compressionLevel).

Definition LZ4_loadDictHC (hc : LZ4HC_Data_Structure) (dictionary dictSize : Z) :
    prog (LZ4HC_Data_Structure * Z) :=
  let '(dictionary, dictSize) :=
    if dictSize >? KB 64 then (dictionary + (dictSize - KB 64), KB 64) else (dictionary, dictSize) in
  let hc := LZ4HC_init hc dictionary in
  let! hc := (if dictSize >=? 4 then LZ4HC_Insert hc (dictionary + (dictSize - 3)) else ret hc) in
  ret (with_window hc (dictionary + dictSize) (hc_base hc) (dictBase hc) (dictLimit hc)
         (lowLimit hc) (nextToUpdate hc), dictSize).

Definition LZ4HC_setExternalDict (hc : LZ4HC_Data_Structure) (newBlock : Z) :
    prog LZ4HC_Data_Structure :=
  let! hc := (if hc_end hc >=? hc_base hc + 4 then LZ4HC_Insert hc (hc_end hc - 3) else ret hc) in
  let limit := u32 (hc_end hc - hc_base hc) in
  ret (with_window hc newBlock (newBlock - limit) (hc_base hc) limit (dictLimit hc) limit).

(** "Check overlapping input/dictionary space" *)
Definition hc_check_overlap (hc : LZ4HC_Data_Structure) (source inputSize : Z) :
    LZ4HC_Data_Structure :=
  let sourceEnd := source + inputSize in
  let dictBegin := dictBase hc + lowLimit hc in
  let dictEnd := dictBase hc + dictLimit hc in
  if (sourceEnd >? dictBegin) && (source <? dictEnd) then
    let sourceEnd := if sourceEnd >? dictEnd then dictEnd else sourceEnd in
    let low := u32 (sourceEnd - dictBase hc) in
    let low := if u32 (dictLimit hc - low) <? 4 then dictLimit hc else low in
    with_window hc (hc_end hc) (hc_base hc) (dictBase hc) (dictLimit hc) low (nextToUpdate hc)
  else hc.

(** "Check overflow" *)
Definition hc_check_overflow (hc : LZ4HC_Data_Structure) : prog LZ4HC_Data_Structure :=
  if usize (hc_end hc - hc_base hc) >? GB 2 then
    let dictSize := usize (usize (hc_end hc - hc_base hc) - dictLimit hc) in
    let dictSize := if dictSize >? KB 64 then KB 64 else dictSize in
    let! (hc, _) := LZ4_loadDictHC hc (hc_end hc - dictSize) dictSize in
    ret hc
  else ret hc.

(** What is done to the context before a block is compressed. *)
Definition hc_prepare (hc : LZ4HC_Data_Structure) (source inputSize : Z) :
    prog LZ4HC_Data_Structure :=
  let hc := if hc_base hc =? NULL then LZ4HC_init hc source else hc in
  let! hc := hc_check_overflow hc in
  let! hc := (if negb (source =? hc_end hc) then LZ4HC_setExternalDict hc source else ret hc) in
  ret (hc_check_overlap hc source inputSize).

Definition LZ4_compressHC_continue_generic (hc : LZ4HC_Data_Structure)
    (source dest inputSize maxOutputSize : Z) (limit : limitedOutput_directive) :
    prog (LZ4HC_Data_Structure * Z) :=
  let! hc := hc_prepare hc source inputSize in
  LZ4HC_compress_generic hc source dest inputSize maxOutputSize (s32 (compressionLevel hc)) limit.

Definition LZ4_compress_HC_continue (hc : LZ4HC_Data_Structure)
    (source dest inputSize maxOutputSize : Z) : prog (LZ4HC_Data_Structure * Z) :=
  if maxOutputSize <? LZ4_compressBound inputSize then
    LZ4_compressHC_continue_generic hc source dest inputSize maxOutputSize limitedOutput
  else LZ4_compressHC_continue_generic hc source dest inputSize maxOutputSize notLimited.

Definition LZ4_saveDictHC (hc : LZ4HC_Data_Structure) (safeBuffer dictSize : Z) :
    prog (LZ4HC_Data_Structure * Z) :=
  let prefixSize := s32 (hc_end hc - (hc_base hc + dictLimit hc)) in
  let dictSize := if dictSize >? KB 64 then KB 64 else dictSize in
  let dictSize := if dictSize <? 4 then 0 else dictSize in
  let dictSize := if dictSize >? prefixSize then prefixSize else dictSize in
  memmove safeBuffer (hc_end hc - dictSize) dictSize ;!
  let endIndex := u32 (hc_end hc - hc_base hc) in
  let end_ := safeBuffer + dictSize in
  let limit := u32 (endIndex - dictSize) in
  ret (with_window hc end_ (end_ - endIndex) (dictBase hc) limit limit
         (if nextToUpdate hc <? limit then limit else nextToUpdate hc), dictSize).

(** * Deprecated functions *)

Definition LZ4_compressHC (state : Z) (hc : LZ4HC_Data_Structure) (src dst srcSize : Z) : prog Z :=
  LZ4_compress_HC state hc src dst srcSize (LZ4_compressBound srcSize) 0.

Definition LZ4_compressHC_limitedOutput (state : Z) (hc : LZ4HC_Data_Structure)
    (src dst srcSize maxDstSize : Z) : prog Z :=
  LZ4_compress_HC state hc src dst srcSize maxDstSize 0.

Definition LZ4_compressHC2 (state : Z) (hc : LZ4HC_Data_Structure)
    (src dst srcSize cLevel : Z) : prog Z :=
  LZ4_compress_HC state hc src dst srcSize (LZ4_compressBound srcSize) cLevel.

Definition LZ4_compressHC2_limitedOutput (state : Z) (hc : LZ4HC_Data_Structure)
    (src dst srcSize maxDstSize cLevel : Z) : prog Z :=
  LZ4_compress_HC state hc src dst srcSize maxDstSize cLevel.

Definition LZ4_compressHC_withStateHC (state : Z) (hc : LZ4HC_Data_Structure)
    (src dst srcSize : Z) : prog (LZ4HC_Data_Structure * Z) :=
  LZ4_compress_HC_extStateHC state hc src dst srcSize (LZ4_compressBound srcSize) 0.

Definition LZ4_compressHC2_withStateHC (state : Z) (hc : LZ4HC_Data_Structure)
    (src dst srcSize cLevel : Z) : prog (LZ4HC_Data_Structure * Z) :=
  LZ4_compress_HC_extStateHC state hc src dst srcSize (LZ4_compressBound srcSize) cLevel.

Definition LZ4_compressHC_limitedOutput_withStateHC (state : Z) (hc : LZ4HC_Data_Structure)
    (src dst srcSize maxDstSize : Z) : prog (LZ4HC_Data_Structure * Z) :=
  LZ4_compress_HC_extStateHC state hc src dst srcSize maxDstSize 0.

Definition LZ4_compressHC2_limitedOutput_withStateHC (state : Z) (hc : LZ4HC_Data_Structure)
    (src dst srcSize maxDstSize cLevel : Z) : prog (LZ4HC_Data_Structure * Z) :=
  LZ4_compress_HC_extStateHC state hc src dst srcSize maxDstSize cLevel.

Definition LZ4_compressHC_limitedOutput_continue (hc : LZ4HC_Data_Structure)
    (src dst srcSize maxDstSize : Z) : prog (LZ4HC_Data_Structure * Z) :=
  LZ4_compress_HC_continue hc src dst srcSize maxDstSize.

Definition LZ4_compressHC_continue (hc : LZ4HC_Data_Structure) (src dst srcSize : Z) :
    prog (LZ4HC_Data_Structure * Z) :=
  LZ4_compress_HC_continue hc src dst srcSize (LZ4_compressBound srcSize).

(** The error is 1, for a state that is not aligned. *)
Definition LZ4_resetStreamStateHC (state : Z) (hc : LZ4HC_Data_Structure) (inputBuffer : Z) :
    LZ4HC_Data_Structure * Z :=
  if negb (Z.land (usize state) (STEPSIZE - 1) =? 0) then (hc, 1)
  else (with_inputBuffer (LZ4HC_init hc inputBuffer) inputBuffer, 0).

(** [hc4] is what the allocation returns. *)
Definition LZ4_createHC (hc4 : LZ4HC_Data_Structure) (inputBuffer : Z) : LZ4HC_Data_Structure :=
  with_inputBuffer (LZ4HC_init hc4 inputBuffer) inputBuffer.

Definition LZ4_compressHC2_continue (hc : LZ4HC_Data_Structure)
    (source dest inputSize compressionLevel : Z) : prog (LZ4HC_Data_Structure * Z) :=
  LZ4HC_compress_generic hc source dest inputSize 0 compressionLevel notLimited.

Definition LZ4_compressHC2_limitedOutput_continue (hc : LZ4HC_Data_Structure)
    (source dest inputSize maxOutputSize compressionLevel : Z) : prog (LZ4HC_Data_Structure * Z) :=
  LZ4HC_compress_generic hc source dest inputSize maxOutputSize compressionLevel limitedOutput.

Definition LZ4_slideInputBufferHC (hc : LZ4HC_Data_Structure) : prog (LZ4HC_Data_Structure * Z) :=
  let! (hc, dictSize) := LZ4_saveDictHC hc (inputBuffer hc) (KB 64) in
  ret (hc, inputBuffer hc + dictSize).

End hc.
