(* ===== verification/Lz4HcProofs.v ===== *)
(** Correctness of LZ4 HC: the invariant of the hash chains, what the match
    finders return, and the parser, which turns any input into a well-formed
    block with that text, whichever matches it prefers.

    Positions are the virtual addresses [base + index]; those below [dictLimit]
    are bytes of the external dictionary, which [hloc] finds. *)

From Stdlib Require Import ZArith Lia Strings.Byte.
From stdpp Require Import base gmap list fin_maps numbers.
From S2P Require Import Prelude Mem Lz4Common Lz4Format Lz4Decompress Lz4Compress Lz4Text Lz4CompressProofs Lz4Hc.

(** * The hash chains *)

(** The indices the tables know: all those of the dictionary and the prefix
    that have been inserted, with the four bytes that were hashed. *)
Definition live (ll dl next v : Z) : Prop := ll ≤ v < next ∧ (v + MINMATCH ≤ dl ∨ dl ≤ v).

(** The hash table and the chains lead from live indices to live indices, or
    out of the window. *)
Record chains (ll dl next : Z) (tbl chain : table) : Prop := {
  ch_hash : ∀ h, let v := default 0 (tbl !! h) in 0 ≤ v ∧ (v < ll ∨ live ll dl next v);
  ch_chain : ∀ v, live ll dl next v → next - MAXD ≤ v →
    let d := DELTANEXTU16 chain v in
    0 < d ≤ MAX_DISTANCE ∧ (v - d < ll ∨ live ll dl next (v - d) ∨ v - d < next - MAX_DISTANCE)
}.

Lemma chains_empty (ll dl next : Z) : 0 < ll → next ≤ dl → dl ≤ ll → chains ll dl next ∅ ∅.
Proof.
  intros H1 H2 H3. constructor.
  - intros h. rewrite lookup_empty. simpl. lia.
  - intros v [Hv _]. lia.
Qed.

(** Recording one more index. *)
Lemma chains_insert (ll dl next h : Z) (tbl chain : table) :
  chains ll dl next tbl chain → 0 ≤ ll ≤ dl → dl ≤ next →
  let delta := next - default 0 (tbl !! h) in
  let delta := if delta >? MAX_DISTANCE then MAX_DISTANCE else delta in
  chains ll dl (next + 1) (<[h := next]> tbl) (<[u16 next := u16 delta]> chain).
Proof.
  intros [Hh Hc] Hll Hdl delta delta'. pose proof (Hh h) as [He0 He].
  set (e := default 0 (tbl !! h)) in *.
  assert (Hmono : ∀ v, live ll dl next v → live ll dl (next + 1) v) by (unfold live; lia).
  assert (Hnew : live ll dl (next + 1) next) by (unfold live; lia).
  assert (He' : e < next) by (unfold live in He; lia).
  constructor.
  - intros h'. destruct (decide (h = h')) as [<-|Hne].
    + rewrite lookup_insert_eq. simpl. split; [lia|by right].
    + rewrite lookup_insert_ne by done. specialize (Hh h'). cbv zeta in Hh.
      split; [lia|]. destruct Hh as [_ [?|?]]; [by left|right; auto].
  - intros v Hv Hw d. unfold MAXD, DICTIONARY_LOGSIZE, MAX_DISTANCE, MAXD_LOG in *.
    destruct (decide (v = next)) as [->|Hne].
    + assert (d = delta') as Hd.
      { unfold d, DELTANEXTU16. rewrite lookup_insert_eq. simpl. apply u16_small.
        unfold delta', delta. case_if; zbool; lia. }
      rewrite Hd. unfold delta', delta. case_if; zbool; [lia|].
      replace (next - (next - e)) with e by lia. split; [lia|].
      destruct He as [?|?]; [by left|right; left; auto].
    + assert (Hv' : live ll dl next v) by (unfold live in *; lia).
      assert (d = DELTANEXTU16 chain v) as ->.
      { unfold d, DELTANEXTU16. rewrite lookup_insert_ne; [done|].
        unfold u16, wrap, live in *. intros Hm. zdiv. }
      specialize (Hc v Hv' ltac:(lia)). cbv zeta in Hc. destruct Hc as [H1 [H2|[H2|H2]]];
        (split; [lia|]); [by left|right; left; auto|lia].
Qed.

(** Shrinking the window from below. *)
Lemma chains_narrow (ll dl ll' dl' next next' : Z) (tbl chain : table) :
  chains ll dl next tbl chain → next ≤ next' →
  (∀ v, live ll dl next v → v < ll' ∨ live ll' dl' next' v) → ll ≤ ll' →
  (∀ v, live ll' dl' next' v → live ll dl next v) →
  chains ll' dl' next' tbl chain.
Proof.
  intros [Hh Hc] Hn Hfwd Hll Hback. constructor.
  - intros h. specialize (Hh h). cbv zeta in *. split; [lia|].
    destruct Hh as [_ [?|?]]; [left; lia|auto].
  - intros v Hv Hw d. unfold MAX_DISTANCE, MAXD, MAXD_LOG, DICTIONARY_LOGSIZE in *.
    specialize (Hc v (Hback v Hv) ltac:(lia)). cbv zeta in Hc. fold d in Hc.
    destruct Hc as [H1 [H2|[H2|H2]]]; (split; [lia|]); [left; lia| |lia].
    destruct (Hfwd _ H2); [by left|right; by left].
Qed.

(** * Inserting positions *)

Section insertion.
Context {arch : Arch}.
Implicit Types (m : mem) (hc : LZ4HC_Data_Structure).

Lemma hashPtr_spec m (p : Z) :
  mapped m p 4 → wp (LZ4HC_hashPtr p) (λ h m', m' = m ∧ 0 ≤ h < HASHTABLESIZE) m.
Proof.
  intros Hm. unfold LZ4HC_hashPtr. wp_apply read32_spec; [done|]. intros v m1 (-> & _).
  apply wp_ret. split; [done|]. unfold HASH_FUNCTION, HASHTABLESIZE.
  change (MINMATCH * 8 - HASH_LOG) with 17. change (2 ^ HASH_LOG) with 32768.
  pose proof (u32_range (v * 2654435761)) as R. rewrite Z.shiftr_div_pow2 by lia.
  change (2 ^ 17) with 131072. zdiv.
Qed.

Lemma HashTable_spec m (tbl : table) (h : Z) :
  0 ≤ h < HASHTABLESIZE → wp (HashTable tbl h) (λ v m', m' = m ∧ v = default 0 (tbl !! h)) m.
Proof.
  intros Hh. unfold HashTable.
  assert ((0 <=? h) && (h <? HASHTABLESIZE) = true) as ->; [|by apply wp_ret].
  apply andb_true_iff. split; [apply Z.leb_le|apply Z.ltb_lt]; lia.
Qed.

Lemma insert_loop_spec (fuel : nat) m (B ll dl idx target : Z) (tbl chain : table) :
  0 ≤ ll ≤ dl → dl ≤ idx ≤ target → target < 2 ^ 32 → mapped m (B + idx) (target + 3 - idx) →
  chains ll dl idx tbl chain → (Z.to_nat (target - idx) < fuel)%nat →
  wp (insert_loop fuel B idx target tbl chain)
     (λ '(tbl', chain') m', m' = m ∧ chains ll dl target tbl' chain') m.
Proof.
  revert idx tbl chain. induction fuel as [|fuel IH]; intros idx tbl chain Hll Hi Ht Hm Hc Hf; [lia|].
  simpl. case_if; zbool; [|apply wp_ret; replace target with idx by lia; done].
  wp_apply hashPtr_spec; [solve_mapped|]. intros h m1 [-> Hh].
  wp_apply HashTable_spec; [done|]. intros e m1 [-> ->].
  pose proof (ch_hash _ _ _ _ _ Hc h) as [He0 He]. unfold live in He.
  rewrite (u32_small (idx - _)), (u32_small (idx + 1)) by lia.
  apply IH; try done; try lia; [solve_mapped|]. apply chains_insert; (done || lia).
Qed.

(** [LZ4HC_Insert] up to a position that was not passed yet. *)
Lemma Insert_chains m hc (ll dl ip : Z) :
  let target := ip - hc_base hc in
  0 ≤ ll ≤ dl → dl ≤ nextToUpdate hc ≤ target → target < 2 ^ 32 →
  mapped m (hc_base hc + nextToUpdate hc) (target + 3 - nextToUpdate hc) →
  chains ll dl (nextToUpdate hc) (hc_hashTable hc) (chainTable hc) →
  wp (LZ4HC_Insert hc ip)
     (λ hc' m', m' = m ∧ ∃ tbl chain, hc' = with_tables hc tbl chain target ∧
        chains ll dl target tbl chain) m.
Proof.
  intros target H1 H2 H3 H4 H5. unfold LZ4HC_Insert. rewrite (u32_small (ip - _)) by lia.
  wp_apply insert_loop_spec; [exact H1|lia|done|done|done|unfold target; lia|].
  intros [tbl chain] m1 [-> Hc]. apply wp_ret. split; [done|]. by exists tbl, chain.
Qed.

End insertion.

(** * The environment of a block *)

Section hc_block.
Context {arch : Arch} (source dest : Z) (hist x : list byte) (m0 : mem) (cap : Z).
Context (B D dl : Z).
Implicit Types (m : mem) (hc : LZ4HC_Data_Structure).

Abbreviation N := (zlen x).
Abbreviation iend := (source + zlen x).
Abbreviation low := (source - zlen hist).

(** Where the byte at a virtual address is. *)
Definition hloc (v : Z) : Z := if v <? B + dl then v - B + D else v.

(** The window: the dictionary and the prefix make the history. *)
Record window : Prop := {
  wd_text : text_env source dest hist x m0 cap hloc;
  wd_low : KB 64 ≤ low - B ≤ dl;
  wd_prefix : B + dl ≤ source;
  wd_index : iend - B ≤ 0xFE000000
}.

(** A context with this window that has seen the positions before [ip]. *)
Record in_window hc (ip : Z) : Prop := {
  iw_end : hc_end hc = iend;
  iw_base : hc_base hc = B;
  iw_dictBase : dictBase hc = D;
  iw_dictLimit : dictLimit hc = dl;
  iw_lowLimit : lowLimit hc = low - B;
  iw_next : dl ≤ nextToUpdate hc ≤ ip - B;
  iw_chains : chains (low - B) dl (nextToUpdate hc) (hc_hashTable hc) (chainTable hc)
}.

Context (W : window).

Abbreviation txt := (Lz4Text.txt source hist x).
Abbreviation same := (Lz4Text.same source hist x).
Abbreviation reach := (Lz4Text.reach source hist).
Abbreviation text_frame := (Lz4Text.text_frame source dest hist x m0 cap hloc (wd_text W)).
Abbreviation source_mapped := (Lz4Text.source_mapped source dest hist x m0 cap hloc (wd_text W)).
Abbreviation count_text_spec := (Lz4Text.count_text_spec source dest hist x m0 cap hloc (wd_text W)).
Abbreviation text_mapped := (Lz4Text.text_mapped source dest hist x m0 cap hloc (wd_text W)).

Lemma in_window_le hc (ip ip' : Z) : in_window hc ip → ip ≤ ip' → in_window hc ip'.
Proof. intros [] ?. constructor; try done. lia. Qed.

Lemma hloc_prefix (v : Z) : B + dl ≤ v → hloc v = v.
Proof. intros Hv. unfold hloc. by destruct (Z.ltb_spec v (B + dl)); [lia|]. Qed.

Lemma hloc_dict (v : Z) : v < B + dl → hloc v = v - B + D.
Proof. intros Hv. unfold hloc. by destruct (Z.ltb_spec v (B + dl)); [|lia]. Qed.

Lemma prefix_mapped m (v n : Z) :
  frame dest (dest + cap) m0 m → B + dl ≤ v → v + n ≤ iend → mapped m v n.
Proof.
  intros F H1 H2. pose proof (wd_low W). apply (text_mapped m v); [done|lia|done|].
  intros i Hi. apply hloc_prefix. lia.
Qed.

Lemma Insert_spec m hc (ip : Z) :
  frame dest (dest + cap) m0 m → in_window hc ip → ip + 3 ≤ iend →
  wp (LZ4HC_Insert hc ip) (λ hc' m', m' = m ∧ in_window hc' ip ∧ nextToUpdate hc' = ip - B) m.
Proof.
  intros F Hw Hip. pose proof Hw as [H0 H1 H2 H3 H4 H5 H6].
  pose proof (wd_low W). pose proof (wd_index W). unfold KB in *.
  eapply wp_mono; [apply (Insert_chains m hc (low - B) dl ip); rewrite ?H1; try done; try lia|].
  - apply prefix_mapped; (done || lia).
  - intros hc' m' (-> & tbl & chain & -> & Hc). rewrite H1 in Hc |- *.
    split; [done|]. split; [|done]. constructor; try done. simpl. lia.
Qed.

(** * Candidates *)

(** An index a chain may lead to when the text at [ip] is searched. *)
Definition candidate (ip v : Z) : Prop :=
  0 ≤ v ∧ (v < low - B ∨ live (low - B) dl (ip - B) v ∨ v < ip - B - MAX_DISTANCE).

Lemma search_low_spec hc (ip : Z) :
  in_window hc ip → ip ≤ iend →
  low - B ≤ search_low hc ip ∧ ip - B - MAX_DISTANCE ≤ search_low hc ip.
Proof.
  intros [H0 H1 H2 H3 H4 H5 H6] Hip. pose proof (wd_low W). pose proof (wd_index W).
  pose proof (wd_prefix W). unfold search_low. rewrite H1, H4.
  unfold KB, MAX_DISTANCE, MAXD_LOG in *. rewrite (u32_small (ip - B)) by lia.
  rewrite (u32_small (ip - B - _)) by lia.
  rewrite u32_small by lia. case_if; zbool; lia.
Qed.

Lemma candidate_live (ip s v : Z) :
  low - B ≤ s → ip - B - MAX_DISTANCE ≤ s → s ≤ v → candidate ip v →
  live (low - B) dl (ip - B) v ∧ reach ip (B + v).
Proof.
  intros H1 H2 H3 [H4 [H5|[H5|H5]]]; [lia| |lia]. split; [done|].
  unfold live in H5. unfold Lz4Text.reach. lia.
Qed.

(** Following a chain from a live index. *)
Lemma candidate_next hc (ip v : Z) :
  in_window hc ip → nextToUpdate hc = ip - B → ip ≤ iend →
  live (low - B) dl (ip - B) v → ip - B - MAX_DISTANCE ≤ v →
  candidate ip (u32 (v - DELTANEXTU16 (chainTable hc) v)).
Proof.
  intros [H0 H1 H2 H3 H4 H5 H6] Hn Hip Hv Hd. pose proof (wd_low W). pose proof (wd_index W).
  rewrite Hn in H6. pose proof (ch_chain _ _ _ _ _ H6 v Hv) as Hc. cbv zeta in Hc.
  unfold live, candidate, MAXD, DICTIONARY_LOGSIZE, MAX_DISTANCE, MAXD_LOG, KB in *.
  destruct Hc as [Hc1 Hc2]; [lia|]. rewrite u32_small by lia. unfold live. lia.
Qed.

(** The first candidate. *)
Lemma candidate_first m hc (ip : Z) :
  frame dest (dest + cap) m0 m → in_window hc ip → nextToUpdate hc = ip - B →
  source ≤ ip → ip + 4 ≤ iend →
  wp (let! h := LZ4HC_hashPtr ip in HashTable (hc_hashTable hc) h)
     (λ v m', m' = m ∧ candidate ip v) m.
Proof.
  intros F Hw Hn H1 H2. wp_apply hashPtr_spec; [apply source_mapped; (done || lia)|].
  intros h m1 [-> Hh]. eapply wp_mono; [by apply HashTable_spec|]. intros v m1 [-> ->].
  split; [done|]. pose proof (ch_hash _ _ _ _ _ (iw_chains _ _ Hw) h) as [Hc0 Hc].
  rewrite Hn in Hc. unfold candidate. split; [done|]. destruct Hc; auto.
Qed.

(** * Comparing with a candidate *)

(** The four bytes at [a], those of the virtual address [q], and at [ip]. *)
Lemma compare4_spec {A : Type} m (ip q a : Z) (X Y : prog A) (Q : A → mem → Prop) :
  frame dest (dest + cap) m0 m → source ≤ ip → ip + 4 ≤ iend → low ≤ q → q + 4 ≤ iend →
  (∀ i, 0 ≤ i < 4 → hloc (q + i) = a + i) →
  (same q ip 4 → wp X Q m) → wp Y Q m →
  wp (let! u := LZ4_read32 a in let! v := LZ4_read32 ip in if u =? v then X else Y) Q m.
Proof.
  intros F H1 H2 H3 H4 Hl HX HY. pose proof (wd_prefix W).
  wp_apply read32_spec; [apply (text_mapped m q); (done || lia)|].
  intros u m1 (-> & lu & Lu & Bu & ->).
  wp_apply read32_spec; [apply source_mapped; (done || lia)|].
  intros v m1 (-> & lv & Lv & Bv & ->). destruct (Z.eqb_spec (native lu) (native lv)) as [He|]; [|done].
  apply HX. apply native_inj in He; [|lia].
  pose proof (proj1 (bytes_at_eq m _ _ lu lv Bu Bv ltac:(lia)) He) as Hb.
  intros i Hi. specialize (Hb i ltac:(lia)). rewrite <- !(text_frame m) by (done || lia).
  rewrite Hl, (hloc_prefix (ip + i)) by lia. done.
Qed.

(** One byte of the text. *)
Lemma load_text m (v a : Z) (Q : Z → mem → Prop) :
  frame dest (dest + cap) m0 m → low ≤ v < iend → hloc v = a →
  (∀ b, txt v = Some b → Q (b2z b) m) → wp (load8 a) Q m.
Proof.
  intros F Hv <- HQ. destruct (Lz4Text.txt_Some source hist x v Hv) as [b Hb].
  eapply wp_load8; [by rewrite (text_frame m), Hb|]. by apply HQ.
Qed.

(** A match in the external dictionary may run on into the prefix. *)
Lemma count_ext_spec m hc (ip v iLimit : Z) :
  frame dest (dest + cap) m0 m → in_window hc ip → source ≤ ip → iLimit ≤ iend →
  ip + 4 ≤ iLimit → low - B ≤ v → v + 4 ≤ dl → same (B + v) ip 4 →
  wp (count_ext hc ip (D + v) v iLimit)
     (λ n m', m' = m ∧ 4 ≤ n ≤ iLimit - ip ∧ same (B + v) ip n) m.
Proof.
  intros F [H0 H1 H2 H3 H4 H5 H6] Hs Hl Hip Hv Hv' Hsame. pose proof (wd_low W).
  pose proof (wd_prefix W). pose proof (wd_index W). unfold count_ext, MINMATCH. rewrite H1, H3.
  unfold KB in *. rewrite (u32_small (dl - v)) by lia.
  set (vLimit := if ip + (dl - v) >? iLimit then iLimit else ip + (dl - v)).
  assert (HvL : ip + 4 ≤ vLimit ≤ iLimit ∧ vLimit - ip ≤ dl - v ∧
                (vLimit = iLimit ∨ vLimit = ip + (dl - v))) by (unfold vLimit; case_if; zbool; lia).
  clearbody vLimit. destruct HvL as (L1 & L2 & L3).
  wp_apply (count_text_spec m (ip + 4) (B + v + 4)); [done|lia..| |lia|].
  { intros w Hw. rewrite hloc_dict by lia. lia. }
  intros n m1 (-> & Hn & S1 & _). pose proof (Lz4Text.same_app _ _ _ _ _ _ _ Hsame S1) as S2.
  case_if; zbool; [|apply wp_ret; replace (n + 4) with (4 + n) by lia; split_and!; (done || lia)].
  wp_apply (count_text_spec m (ip + (n + 4)) (B + dl)); [done|lia..| |lia|].
  { intros w Hw. rewrite hloc_prefix by lia. lia. }
  intros k m1 (-> & Hk & S3 & _). apply wp_ret. split; [done|]. split; [lia|].
  apply Lz4Text.same_app; [by replace (n + 4) with (4 + n) by lia|].
  replace (B + v + (n + 4)) with (B + dl) by lia. done.
Qed.

Lemma back_loop_spec (fuel : nat) m (ip q a lowL qlow n back : Z) (more : Z → bool) :
  frame dest (dest + cap) m0 m → source ≤ lowL ≤ ip + back → back ≤ 0 → ip ≤ iend → low ≤ qlow →
  q < ip → qlow ≤ q + back →
  (∀ b, b ≤ 0 → qlow ≤ q + b → more b = true → qlow < q + b ∧ hloc (q + b - 1) = a + (b - 1)) →
  same (q + back) (ip + back) (n - back) → (Z.to_nat (ip + back - lowL) < fuel)%nat →
  wp (back_loop fuel ip a lowL more back)
     (λ b m', m' = m ∧ b ≤ back ∧ lowL ≤ ip + b ∧ qlow ≤ q + b ∧ same (q + b) (ip + b) (n - b)) m.
Proof.
  revert back. induction fuel as [|fuel IH]; intros back F Hl Hb0 Hip Hq Hqi Hqb Hm Hs Hf; [lia|].
  simpl. case_if; [|apply wp_ret; split_and!; (done || lia)]. zbool.
  destruct (Hm back Hb0 Hqb ltac:(done)) as [M1 M2]. pose proof (wd_prefix W).
  apply wp_bind. apply (load_text m (ip + back - 1)); [done|lia|rewrite hloc_prefix; lia|]. intros u Hu.
  apply wp_bind. apply (load_text m (q + back - 1)); [done|lia|done|]. intros v Hv.
  destruct (Z.eqb_spec (b2z u) (b2z v)) as [He|]; [|apply wp_ret; split_and!; (done || lia)].
  apply b2z_inj in He as ->.
  eapply wp_mono; [apply (IH (back - 1)); try done; try lia|].
  - intros i Hi. destruct (decide (i = 0)) as [->|].
    + replace (q + (back - 1) + 0) with (q + back - 1) by lia.
      replace (ip + (back - 1) + 0) with (ip + back - 1) by lia. congruence.
    + specialize (Hs (i - 1) ltac:(lia)).
      by replace (q + (back - 1) + i) with (q + back + (i - 1)) by lia;
        replace (ip + (back - 1) + i) with (ip + back + (i - 1)) by lia.
  - intros b m1 (-> & ? & ? & ? & ?). split_and!; (done || lia).
Qed.

(** * The match finders *)

(** A match of the text at [start] with an earlier one, which ends where a match
    may end. *)
Record match_ok (mt : hc_match) : Prop := {
  mo_len : MINMATCH ≤ mt_len mt;
  mo_end : mt_start mt + mt_len mt ≤ iend - LASTLITERALS;
  mo_reach : reach (mt_start mt) (mt_ref mt);
  mo_same : same (mt_ref mt) (mt_start mt) (mt_len mt)
}.

(** Either no match was found, or [ml] and [matchpos] are one. *)
Definition best_ok (ip ml matchpos : Z) : Prop := ml = 0 ∨ match_ok (Match ip matchpos ml).

Lemma best_ok_range (ip ml matchpos : Z) :
  best_ok ip ml matchpos → ip + 12 ≤ iend → 0 ≤ ml ∧ ip + ml ≤ iend - 5.
Proof.
  intros [->|[H1 H2 _ _]] Hip; [lia|]. unfold MINMATCH, LASTLITERALS in *. simpl in *. lia.
Qed.

Lemma best_loop_spec (fuel : nat) m hc (ip s v nb ml matchpos : Z) :
  frame dest (dest + cap) m0 m → in_window hc ip → nextToUpdate hc = ip - B →
  source ≤ ip → ip + 12 ≤ iend →
  low - B ≤ s → ip - B - MAX_DISTANCE ≤ s → candidate ip v → 0 ≤ nb →
  best_ok ip ml matchpos → (Z.to_nat nb < fuel)%nat →
  wp (best_loop fuel hc ip (iend - LASTLITERALS) s v nb ml matchpos)
     (λ '(ml', matchpos') m', m' = m ∧ best_ok ip ml' matchpos') m.
Proof.
  revert v nb ml matchpos.
  induction fuel as [|fuel IH]; intros v nb ml matchpos F Hw Hn Hip Hip' Hs1 Hs2 Hc Hnb Hok Hf; [lia|].
  pose proof (wd_low W) as WL. pose proof (wd_prefix W) as WP.
  pose proof (best_ok_range _ _ _ Hok Hip') as Hml.
  simpl. case_if; [|by apply wp_ret]. zbool.
  destruct (candidate_live ip s v Hs1 Hs2 ltac:(lia) Hc) as [Hlive Hreach].
  pose proof (candidate_next hc ip v Hw Hn ltac:(lia) Hlive ltac:(lia)) as Hnext.
  rewrite (iw_base _ _ Hw), (iw_dictBase _ _ Hw), (iw_dictLimit _ _ Hw).
  apply (wp_seq _ _ (λ '(ml', matchpos') m', m' = m ∧ best_ok ip ml' matchpos')).
  2: { intros [ml' mp'] m1 [-> Hok']. by apply IH; try done; lia. }
  assert (Hkeep : wp (ret (ml, matchpos)) (λ '(ml', mp') m', m' = m ∧ best_ok ip ml' mp') m)
    by (by apply wp_ret).
  assert (Hnew : ∀ n, 4 ≤ n → ip + n ≤ iend - 5 → same (B + v) ip n →
    wp (ret (if n >? ml then (n, B + v) else (ml, matchpos)))
       (λ '(ml', mp') m', m' = m ∧ best_ok ip ml' mp') m).
  { intros n H1 H2 H3. apply wp_ret. destruct (n >? ml); [|done]. split; [done|right].
    by constructor. }
  unfold live, LASTLITERALS, MINMATCH in *. case_if; zbool.
  - apply wp_bind. apply (load_text m (B + v + ml)); [done|lia|apply hloc_prefix; lia|]. intros a _.
    apply wp_bind. apply (load_text m (ip + ml)); [done|lia|apply hloc_prefix; lia|]. intros b _.
    case_if; [|done].
    apply (compare4_spec m ip (B + v)); [done|lia..| | |done]; [intros i Hi; apply hloc_prefix; lia|].
    intros Hsame.
    wp_apply (count_text_spec m (ip + 4) (B + v + 4)); [done|lia..| |lia|].
    { intros w Hv. rewrite hloc_prefix; lia. }
    intros n m1 (-> & Hn1 & S1 & _). replace (n + 4) with (4 + n) by lia.
    apply Hnew; [lia|lia|]. by apply Lz4Text.same_app.
  - apply (compare4_spec m ip (B + v)); [done|lia..| | |done]; [intros i Hi; rewrite hloc_dict; lia|].
    intros Hsame. wp_apply (count_ext_spec m hc ip v (iend - 5)); [done|done|lia..|done|].
    intros n m1 (-> & Hn1 & S1). apply Hnew; [lia|lia|done].
Qed.

(** [LZ4HC_InsertAndFindBestMatch] finds a match at [ip] or none. *)
Lemma InsertAndFindBestMatch_spec m hc (ip matchpos nb : Z) :
  frame dest (dest + cap) m0 m → in_window hc ip → source ≤ ip → ip + 12 ≤ iend → 0 ≤ nb →
  wp (LZ4HC_InsertAndFindBestMatch hc ip (iend - LASTLITERALS) matchpos nb)
     (λ '(hc', ml, matchpos') m', m' = m ∧ in_window hc' ip ∧ best_ok ip ml matchpos') m.
Proof.
  intros F Hw Hip Hip' Hnb. unfold LZ4HC_InsertAndFindBestMatch.
  destruct (search_low_spec hc ip Hw ltac:(lia)) as [Hs1 Hs2].
  wp_apply Insert_spec; [done|done|lia|]. intros hc' m1 (-> & Hw' & Hn').
  pose proof (candidate_first m hc' ip F Hw' Hn' Hip ltac:(lia)) as Hc. apply wp_bind_inv in Hc.
  eapply wp_seq; [exact Hc|]. intros h m1 Hc1. cbv beta in Hc1.
  eapply wp_seq; [exact Hc1|]. intros v m2 [-> Hv].
  wp_apply (best_loop_spec _ m hc' ip (search_low hc ip) v nb 0 matchpos); try done; [by left|lia|].
  intros [ml mp] m2 [-> Hok]. apply wp_ret. split; [done|]. split; [done|].
  destruct (best_ok_range _ _ _ Hok Hip'). pose proof (Lz4Text.text_size _ _ _ _ _ _ _ (wd_text W)).
  rewrite s32_small by lia. done.
Qed.

(** What the search for a wider match at [ip] leads to: the match given, or one
    that is longer, starts between the limits and covers the text at [ip]. *)
Definition wider_ok (ip lowL : Z) (longest : Z) (old mt : hc_match) : Prop :=
  mt = old ∨
  longest < mt_len mt ∧ match_ok mt ∧ lowL ≤ mt_start mt ≤ ip ∧
  ip + MINMATCH ≤ mt_start mt + mt_len mt.

Lemma wider_loop_spec (fuel : nat) m hc (ip lowL s v nb : Z) (old best : hc_match) :
  frame dest (dest + cap) m0 m → in_window hc ip → nextToUpdate hc = ip - B →
  source ≤ lowL ≤ ip → ip + 12 ≤ iend →
  low - B ≤ s → ip - B - MAX_DISTANCE ≤ s → candidate ip v → 0 ≤ nb →
  mt_len old ≤ mt_len best → ip - lowL ≤ mt_len best → lowL + mt_len best ≤ iend - 5 →
  wider_ok ip lowL (mt_len old) old best → (Z.to_nat nb < fuel)%nat →
  wp (wider_loop fuel hc ip lowL (iend - LASTLITERALS) s v nb best)
     (λ best' m', m' = m ∧ wider_ok ip lowL (mt_len old) old best') m.
Proof.
  revert v nb best.
  induction fuel as [|fuel IH];
    intros v nb best F Hw Hn Hl Hip Hs1 Hs2 Hc Hnb Hb1 Hb2 Hb3 Hok Hf; [lia|].
  pose proof (wd_low W) as WL. pose proof (wd_prefix W) as WP. pose proof (wd_index W) as WI.
  cbn [wider_loop]. case_if; [|by apply wp_ret]. zbool.
  destruct (candidate_live ip s v Hs1 Hs2 ltac:(lia) Hc) as [Hlive Hreach].
  pose proof (candidate_next hc ip v Hw Hn ltac:(lia) Hlive ltac:(lia)) as Hnext.
  rewrite (iw_base _ _ Hw), (iw_dictBase _ _ Hw), (iw_dictLimit _ _ Hw).
  set (P := λ best', mt_len best ≤ mt_len best' ∧ lowL + mt_len best' ≤ iend - 5 ∧
                     wider_ok ip lowL (mt_len old) old best').
  apply (wp_seq _ _ (λ best' m', m' = m ∧ P best')).
  2: { intros best' m1 [-> (B1 & B2 & B3)]. by apply IH; try done; lia. }
  assert (Hkeep : wp (ret best) (λ best' m', m' = m ∧ P best') m)
    by (apply wp_ret; split_and!; (done || lia)).
  assert (Hnew : ∀ n back, 4 ≤ n → ip + n ≤ iend - 5 → back ≤ 0 → lowL ≤ ip + back →
    low ≤ B + v + back → same (B + v + back) (ip + back) (n - back) →
    wp (ret (if n - back >? mt_len best then Match (ip + back) (B + v + back) (n - back) else best))
       (λ best' m', m' = m ∧ P best') m).
  { intros n back H1 H2 H3 H4 H5 H6. apply wp_ret. destruct (n - back >? mt_len best) eqn:Hlt; zbool.
    - split; [done|]. unfold P. cbn [mt_len mt_start]. split; [lia|]. split; [lia|]. right.
      cbn [mt_len mt_start]. unfold MINMATCH. split; [lia|]. split; [|lia].
      constructor; simpl; unfold LASTLITERALS, MINMATCH; try done; try lia.
      unfold Lz4Text.reach in *. lia.
    - split_and!; (done || lia). }
  unfold live, LASTLITERALS, MINMATCH, Lz4Text.reach, KB in *. case_if; zbool.
  - apply wp_bind. apply (load_text m (lowL + mt_len best)); [done|lia|apply hloc_prefix; lia|]. intros a _.
    apply wp_bind.
    apply (load_text m (B + v - (ip - lowL) + mt_len best)); [done|lia|apply hloc_prefix; lia|]. intros b _.
    case_if; [|done].
    apply (compare4_spec m ip (B + v)); [done|lia..| | |done]; [intros i Hi; apply hloc_prefix; lia|].
    intros Hsame.
    wp_apply (count_text_spec m (ip + 4) (B + v + 4)); [done|lia..| |lia|].
    { intros w Hv. rewrite hloc_prefix; lia. }
    intros n m1 (-> & Hn1 & S1 & _).
    wp_apply (back_loop_spec _ m ip (B + v) (B + v) lowL (B + dl) (4 + n) 0); [done|lia..| | |lia|].
    { intros b' Hb' _ Hm. zbool. rewrite hloc_prefix by lia. lia. }
    { rewrite !Z.add_0_r, Z.sub_0_r. by apply Lz4Text.same_app. }
    intros back m1 (-> & K1 & K2 & K3 & K4). apply Hnew; (done || lia).
  - apply (compare4_spec m ip (B + v)); [done|lia..| | |done]; [intros i Hi; rewrite hloc_dict; lia|].
    intros Hsame. wp_apply (count_ext_spec m hc ip v (iend - 5)); [done|done|lia..|done|].
    intros n m1 (-> & Hn1 & S1).
    wp_apply (back_loop_spec _ m ip (B + v) (D + v) lowL (B + s) n 0); [done|lia..| | |lia|].
    { intros b' Hb' Hq2 Hm. zbool. rewrite u32_small in * by lia. rewrite hloc_dict by lia. lia. }
    { rewrite !Z.add_0_r, Z.sub_0_r. done. }
    intros back m1 (-> & K1 & K2 & K3 & K4). apply Hnew; (done || lia).
Qed.

Lemma InsertAndGetWiderMatch_spec m hc (ip lowL longest nb : Z) (old : hc_match) :
  frame dest (dest + cap) m0 m → in_window hc ip → source ≤ lowL ≤ ip → ip + 12 ≤ iend →
  ip - lowL ≤ longest → lowL + longest ≤ iend - 5 → 0 ≤ nb →
  wp (LZ4HC_InsertAndGetWiderMatch hc ip lowL (iend - LASTLITERALS) longest old nb)
     (λ '(hc', mt) m', m' = m ∧ in_window hc' ip ∧
        wider_ok ip lowL longest (Match (mt_start old) (mt_ref old) longest) mt) m.
Proof.
  intros F Hw Hl Hip H1 H2 Hnb. unfold LZ4HC_InsertAndGetWiderMatch.
  destruct (search_low_spec hc ip Hw ltac:(lia)) as [Hs1 Hs2].
  wp_apply Insert_spec; [done|done|lia|]. intros hc' m1 (-> & Hw' & Hn').
  pose proof (candidate_first m hc' ip F Hw' Hn' ltac:(lia) ltac:(lia)) as Hc.
  apply wp_bind_inv in Hc.
  eapply wp_seq; [exact Hc|]. intros h m1 Hc1. cbv beta in Hc1.
  eapply wp_seq; [exact Hc1|]. intros v m2 [-> Hv].
  wp_apply (wider_loop_spec _ m hc' ip lowL (search_low hc ip) v nb
    (Match (mt_start old) (mt_ref old) longest) (Match (mt_start old) (mt_ref old) longest));
    try done; try lia; [by left|].
  intros mt m2 [-> Hok]. by apply wp_ret.
Qed.

(** * Encoding *)

Abbreviation progress := (Lz4Text.progress source dest hist x m0 cap).
Abbreviation compressed := (Lz4Text.compressed dest hist x cap).

(** The size up to which the tests on the lengths are exact enough. *)
Definition HC_SMALL_INPUT : Z := KB 4.

(** The destination is large enough, or the output is limited to it and the
    input is not too large. *)
Record hc_room (lim : limitedOutput_directive) (oend : Z) : Prop := {
  hr_room : roomy N cap ∨ is_limited lim = true ∧ N ≤ HC_SMALL_INPUT;
  hr_oend : is_limited lim = true → oend = dest + cap
}.

Context (lim : limitedOutput_directive) (oend : Z) (R : hc_room lim oend).

(** Room for a run of literals, with what the copy writes past it. *)
Lemma hc_literal_room (op anchor L : Z) :
  accounted source dest op anchor → 0 ≤ L → anchor + L + 12 ≤ iend → source ≤ anchor →
  (is_limited lim = true → op + 1 + Z.shiftr L 8 + L + 8 ≤ oend) →
  let d := op + 1 + zlen (nibble_ext L) in
  wild_end d (d + L) ≤ dest + cap ∧ d + L + 2 ≤ dest + cap.
Proof.
  intros Hacc HL He Ha Hg d. pose proof (wild_end_bounds d (d + L)) as (W1 & W2 & W3).
  assert (Hw : wild_end d (d + L) = d + 8 * Z.max 1 ((L + 7) / 8)).
  { unfold wild_end. do 3 f_equal. f_equal. lia. }
  pose proof (length_nibble_ext L HL) as HX. pose proof (nibble_ext_bound L HL) as HB.
  unfold accounted in *.
  destruct (hr_room _ _ R) as [Hr|[Hl HN]]; [unfold roomy, d in *; lia|].
  specialize (Hg Hl). rewrite (hr_oend _ _ R Hl) in Hg.
  rewrite Z.shiftr_div_pow2 in Hg by lia. change (2 ^ 8) with 256 in Hg.
  unfold HC_SMALL_INPUT, KB in HN. rewrite Hw. unfold d in *. clear W1 W2 W3 Hw d.
  destruct (Z.ltb_spec L 15); rewrite HX; [zdiv|]. zdiv.
Qed.

(** Room for the bytes of a match length. *)
Lemma hc_match_room (op anchor ml : Z) :
  accounted source dest (op + zlen (nibble_ext ml)) anchor → anchor ≤ iend - 5 → 0 ≤ ml ≤ N →
  (is_limited lim = true → op + Z.shiftr ml 8 + 6 ≤ oend) →
  op + zlen (nibble_ext ml) ≤ dest + cap.
Proof.
  intros Hacc Ha Hml Hg. unfold accounted in *.
  destruct (hr_room _ _ R) as [Hr|[Hl HN]]; [unfold roomy in *; lia|].
  specialize (Hg Hl). rewrite (hr_oend _ _ R Hl) in Hg.
  rewrite Z.shiftr_div_pow2 in Hg by lia. change (2 ^ 8) with 256 in Hg.
  rewrite length_nibble_ext by lia. unfold HC_SMALL_INPUT, KB in HN. case_if; zbool; zdiv.
Qed.

(** What encoding a match leads to: [return 0] on a limited output that is too
    small, or one more sequence. *)
Definition encoded (e : Z) (r : option (Z * Z * Z)) m : Prop :=
  frame dest (dest + cap) m0 m ∧
  match r with
  | None => is_limited lim = true ∧ ¬ roomy N cap
  | Some (ip, op, anchor) => ip = e ∧ anchor = e ∧ ∃ seqs, progress m seqs e op
  end.

(** The match part of a sequence. *)
Lemma encode_match_spec m (seqs : list sequence) (anchor tk : Z) (mt : hc_match) :
  let ip := mt_start mt in
  let o := tk + zlen (open_seq (Lz4Text.piece source hist x anchor ip)) in
  progress m seqs anchor tk → match_ok mt → anchor ≤ ip → ip + 12 ≤ iend →
  bytes_at m tk (open_seq (Lz4Text.piece source hist x anchor ip)) → o + 2 ≤ dest + cap →
  wp (LZ4_writeLE16 o (u16 (ip - mt_ref mt)) ;!
      let op := o + 2 in
      let length := mt_len mt - MINMATCH in
      if is_limited lim && (op + Z.shiftr length 8 + (1 + LASTLITERALS) >? oend)
      then ret None
      else
        let! op :=
          (if length >=? ML_MASK then
             add_token tk ML_MASK ;!
             let! op := put_match_run (S (Z.to_nat (length - ML_MASK))) op (length - ML_MASK) in
             ret op
           else add_token tk length ;! ret op) in
        let ip := ip + mt_len mt in
        ret (Some (ip, op, ip)))
     (λ r m', encoded (ip + mt_len mt) r m') m.
Proof.
  intros ip o P [M1 M2 M3 M4] Ha Hip Hb Hro. fold ip in M2, M3, M4.
  pose proof P as [F Pa Pop _ _ Pacc _].
  pose proof (Lz4Text.dest_mapped _ _ _ _ _ _ _ (wd_text W) m F) as Hdm.
  pose proof (length_open_seq (Lz4Text.piece source hist x anchor ip)) as Hol.
  assert (HL : zlen (Lz4Text.piece source hist x anchor ip) = ip - anchor)
    by (apply Lz4Text.length_piece; lia).
  set (ml := mt_len mt - MINMATCH). unfold LASTLITERALS, MINMATCH in *.
  assert (Hlen : mt_len mt = MINMATCH + ml) by (unfold ml, MINMATCH; lia).
  destruct (Lz4Text.close_accounted source dest hist x tk anchor ip (mt_ref mt) ml Pacc
    ltac:(lia) ltac:(unfold MINMATCH, ml; lia) ltac:(lia)) as [_ Hacc].
  fold o in Hacc. unfold MINMATCH in Hacc. replace (ip + 4 + ml) with (ip + mt_len mt) in Hacc by lia.
  wp_apply writeLE16_spec; [solve_mapped|]. intros _ m1 [F1 B1]. cbv zeta.
  assert (F1' : frame dest (dest + cap) m0 m1) by solve_frame.
  pose proof (Lz4Text.dest_mapped _ _ _ _ _ _ _ (wd_text W) m1 F1') as Hdm1.
  case_if.
  { apply wp_ret. split; [done|]. zbool. split; [done|]. rewrite (hr_oend _ _ R) in * by done.
    unfold accounted, roomy in *. rewrite length_nibble_ext in Hacc by lia.
    rewrite Z.shiftr_div_pow2 in * by lia. change (2 ^ 8) with 256 in *. intros Hr.
    destruct (Z.ltb_spec ml 15); zdiv. }
  assert (Hroom : o + 2 + zlen (nibble_ext ml) ≤ dest + cap).
  { eapply hc_match_room; [exact Hacc|lia|lia|]. intros Hl. rewrite Hl in *. zbool. lia. }
  apply wp_bind.
  apply (put_match_length_spec m1 put_match_run (dest + cap) (o + 2) tk
    (Z.min (ip - anchor) 15) ml (λ o, ret o)); [apply put_match_run_spec|lia|lia| | |lia|lia|].
  - apply (mapped_sub _ _ _ _ _ Hdm1); lia.
  - rewrite (frame_eq _ _ _ _ F1) by lia. unfold open_seq in Hb. rewrite HL in Hb. apply Hb.
  - intros m2 F2 C2 Htk' B2. apply wp_ret, wp_ret.
    pose proof (Lz4Text.close_seq source dest hist x m0 cap m m1 m2 seqs anchor ip (mt_ref mt) tk o _
      ml P Ha Hip Hb eq_refl F1 Hro B1 F2 C2 Htk' B2 eq_refl M3) as P2.
    rewrite <- Hlen in P2. specialize (P2 M4 ltac:(lia) ltac:(lia)).
    rewrite Hlen in P2. unfold MINMATCH in P2.
    replace (ip + 4 + ml) with (ip + mt_len mt) in P2 by lia.
    split; [solve_frame|]. split; [done|]. split; [done|]. by eexists.
Qed.

(** [LZ4HC_encodeSequence] appends a sequence to the block. *)
Lemma encodeSequence_spec m (seqs : list sequence) (anchor op : Z) (mt : hc_match) :
  progress m seqs anchor op → match_ok mt → anchor ≤ mt_start mt → mt_start mt + 12 ≤ iend →
  wp (LZ4HC_encodeSequence (mt_start mt) op anchor (mt_len mt) (mt_ref mt) lim oend)
     (λ r m', encoded (mt_start mt + mt_len mt) r m') m.
Proof.
  intros P M Ha Hip. pose proof P as [F Pa Pop _ _ Pacc _].
  pose proof (Lz4Text.text_size _ _ _ _ _ _ _ (wd_text W)) as HN.
  set (ip := mt_start mt) in *. unfold LZ4HC_encodeSequence. rewrite s32_small by lia.
  change (2 + 1 + LASTLITERALS) with 8. case_if.
  { apply wp_ret. split; [done|]. zbool. split; [done|]. rewrite (hr_oend _ _ R) in * by done.
    unfold accounted, roomy in *. rewrite Z.shiftr_div_pow2 in * by lia.
    change (2 ^ 8) with 256 in *. zdiv. }
  destruct (hc_literal_room op anchor (ip - anchor) Pacc) as [Hw Hd]; [lia..| |].
  { intros Hl. rewrite Hl in *. zbool. lia. }
  set (d := op + 1 + zlen (nibble_ext (ip - anchor))) in *.
  pose proof (wild_end_bounds d (d + (ip - anchor))) as (W1 & W2 & W3).
  apply (Lz4Text.put_piece_spec source dest hist x m0 cap hloc (wd_text W) m anchor ip op
    (λ o, LZ4_wildCopy o anchor (o + (ip - anchor))) _ _ (wild_end d (d + (ip - anchor))));
    fold d; try done; try lia.
  - intros m1 F1. apply (Lz4Text.wild_piece source dest hist x m0 cap hloc (wd_text W)); (done || lia).
  - intros m2 F2 B2 Hd2. cbv zeta. rewrite Hd2 in *.
    apply (encode_match_spec m2 seqs); try done. by eapply Lz4Text.progress_frame.
Qed.

(** What the compressor returns. *)
Definition hc_outcome m (n : Z) : Prop :=
  n = 0 ∧ is_limited lim = true ∧ ¬ roomy N cap ∨ compressed m n.

Lemma hc_finish m (he : hc_env) (seqs : list sequence) (anchor op : Z) :
  he_dest he = dest → he_iend he = iend → he_limit he = lim →
  (is_limited lim = true → he_maxOutputSize he = cap ∧ 0 ≤ cap < 2 ^ 31) →
  progress m seqs anchor op →
  wp (hc_last_literals he anchor op)
     (λ n m', frame dest (dest + cap) m0 m' ∧ hc_outcome m' n) m.
Proof.
  intros E1 E2 E3 Hmax P. pose proof P as [F Pa Pop _ _ Pacc _].
  pose proof (Lz4Text.text_size _ _ _ _ _ _ _ (wd_text W)) as HN.
  unfold hc_last_literals. rewrite E1, E2, E3, s32_small by lia.
  replace (iend - anchor + 255 - RUN_MASK) with (iend - anchor + 240)
    by (change RUN_MASK with 15; lia).
  rewrite nibble_ext_div by lia.
  pose proof (nibble_ext_bound (iend - anchor) ltac:(lia)) as HB. unfold accounted in Pacc.
  case_if.
  { apply wp_ret. split; [done|]. left. zbool. destruct (Hmax ltac:(done)) as [Hm Hc].
    rewrite Hm, u32_small in * by lia. unfold roomy. split_and!; (done || lia). }
  assert (Hroom : op + 1 + zlen (nibble_ext (iend - anchor)) + (iend - anchor) ≤ dest + cap).
  { destruct (hr_room _ _ R) as [Hr|[Hl _]]; unfold roomy in *; [lia|].
    rewrite Hl in *. zbool. destruct (Hmax eq_refl) as [Hm Hc].
    rewrite Hm, u32_small in * by lia. lia. }
  apply (Lz4Text.put_piece_spec source dest hist x m0 cap hloc (wd_text W) m anchor iend op
    (λ o, memcpy o anchor (iend - anchor)) (λ o, ret (o + (iend - anchor) - dest)) _
    (op + 1 + zlen (nibble_ext (iend - anchor)) + (iend - anchor))); try done; try lia.
  - intros m1 F1. apply (Lz4Text.memcpy_piece source dest hist x m0 cap hloc (wd_text W)); (done || lia).
  - intros m2 F2 B2 Hd. apply wp_ret. split; [solve_frame|]. right.
    eapply Lz4Text.close_block; [exact P|done|rewrite ser_last_open; lia|lia|by rewrite ser_last_open].
Qed.

(** * The parser *)

Lemma push_match_ok (c : Z) (mt : hc_match) :
  match_ok mt → 0 ≤ c → MINMATCH ≤ mt_len mt - c → match_ok (push_match c mt).
Proof.
  intros [M1 M2 [M3 M3'] M4] Hc Hl. constructor; simpl; [done|lia|split; lia|].
  intros i Hi. replace (mt_ref mt + c + i) with (mt_ref mt + (c + i)) by lia.
  replace (mt_start mt + c + i) with (mt_start mt + (c + i)) by lia. apply M4. lia.
Qed.

Lemma shorten_ok (ml : Z) (mt : hc_match) :
  match_ok mt → MINMATCH ≤ ml ≤ mt_len mt → match_ok (Match (mt_start mt) (mt_ref mt) ml).
Proof.
  intros [M1 M2 M3 M4] Hl. constructor; simpl; try done; try lia.
  intros i Hi. apply M4. lia.
Qed.

(** The matches at the labels: they follow each other far enough that none is
    ever cut below [MINMATCH]. *)
Definition at_search2 (anchor : Z) (m1 m0' : hc_match) : Prop :=
  match_ok m1 ∧ match_ok m0' ∧ anchor ≤ mt_start m0' ≤ mt_start m1 ∧
  mt_start m1 ≤ mt_start m0' + 2 ∧ mt_start m1 + 12 < iend ∧
  (mt_start m0' = mt_start m1 ∧ mt_len m0' ≤ mt_len m1 ∨ mt_len m0' < mt_len m1).

Definition at_search3 (anchor : Z) (m1 m2 : hc_match) : Prop :=
  match_ok m1 ∧ match_ok m2 ∧ anchor ≤ mt_start m1 < mt_start m2 ∧
  mt_start m1 + mt_len m1 + 12 < iend ∧
  8 ≤ mt_start m2 - mt_start m1 + mt_len m2 ∧
  (mt_start m2 ≤ mt_start m1 + mt_len m1 ∨
   mt_start m2 = mt_start m1 + mt_len m1 + 1 ∧ 6 ≤ mt_len m2).

(** The second match after the first was cut to make room for it. *)
Lemma push_to_ok (m1 m2 : hc_match) (anchor : Z) :
  at_search3 anchor m1 m2 →
  let ip := mt_start m1 in
  let ml := optimal_ml ip (mt_len m1) m2 in
  let m2' := push_to ip ml m2 in
  4 ≤ ml ≤ mt_len m1 ∧ match_ok m2' ∧
  mt_start m2' + mt_len m2' = mt_start m2 + mt_len m2 ∧
  mt_start m2' = Z.max (mt_start m2) (ip + ml).
Proof.
  intros (M1 & M2 & Hs & He & H8 & Hu) ip ml m2'.
  pose proof (mo_len _ M1). pose proof (mo_len _ M2). unfold MINMATCH in *.
  assert (Hml : 4 ≤ ml ≤ mt_len m1 ∧ ip + ml ≤ mt_start m2 + mt_len m2 - 4).
  { unfold ml, optimal_ml, OPTIMAL_ML, ML_MASK, MINMATCH, ML_BITS, ip.
    destruct (mt_len m1 >? 2 ^ 4 - 1 - 1 + 4) eqn:Ho; zbool; case_if; zbool; lia. }
  split; [lia|]. unfold m2', push_to. case_if; zbool.
  - split; [apply push_match_ok; [done|lia|unfold MINMATCH; lia]|]. simpl. lia.
  - split; [done|]. lia.
Qed.

(** What the context has seen: nothing of the block, or positions that are
    followed by the bytes that were hashed. *)
Context (next0 : Z) (Hnext0 : next0 ≤ source - B).

Definition seen hc : Prop := nextToUpdate hc = next0 ∨ nextToUpdate hc + 3 ≤ iend - B.

(** The state of the parser at its labels; [hs_end] is how far it has looked. *)
Definition hs_end (st : hc_state) (pc : hc_label) : Z :=
  match pc with
  | HMain => mt_start (cur st)
  | HSearch2 => mt_start (cur st) + mt_len (cur st)
  | HSearch3 => mt_start (second st) + mt_len (second st)
  end.

Definition at_hc_label m (st : hc_state) (pc : hc_label) : Prop :=
  (∃ seqs, progress m seqs (hs_anchor st) (hs_op st)) ∧
  match pc with
  | HMain => hs_anchor st ≤ mt_start (cur st) ∧ source < mt_start (cur st) ≤ iend + 1 ∧
             in_window (hs_ctx st) (mt_start (cur st)) ∧ seen (hs_ctx st)
  | HSearch2 => at_search2 (hs_anchor st) (cur st) (saved st) ∧
                in_window (hs_ctx st) (hs_end st pc - 4)
  | HSearch3 => at_search3 (hs_anchor st) (cur st) (second st) ∧
                in_window (hs_ctx st) (hs_end st pc - 4)
  end.

(** Where a step leads: out, or to a label, with progress. *)
Definition next_ok (e : Z) (r : hc_next) m : Prop :=
  match r with
  | HStop ctx => frame dest (dest + cap) m0 m ∧ in_window ctx iend ∧ seen ctx ∧
                 is_limited lim = true ∧ ¬ roomy N cap
  | HGo st pc => at_hc_label m st pc ∧ e ≤ hs_end st pc ∧ (pc = HMain ∨ e < hs_end st pc)
  end.

Lemma progress_source m (anchor op : Z) :
  (∃ seqs, progress m seqs anchor op) → source ≤ anchor.
Proof. intros [seqs P]. apply (pg_anchor _ _ _ _ _ _ _ _ _ _ P). Qed.

Context (he : hc_env).

(** The constants of the block. *)
Record he_ok : Prop := {
  ho_dest : he_dest he = dest;
  ho_iend : he_iend he = iend;
  ho_mflimit : he_mflimit he = iend - 12;
  ho_matchlimit : he_matchlimit he = iend - LASTLITERALS;
  ho_limit : he_limit he = lim;
  ho_oend : he_oend he = oend;
  ho_max : is_limited lim = true → he_maxOutputSize he = cap ∧ 0 ≤ cap < 2 ^ 31;
  ho_attempts : 0 ≤ maxNbAttempts he
}.

Context (HO : he_ok).

(** Encoding a match and going on. *)
Lemma encode_then_spec m (st : hc_state) ctx (mt : hc_match) (e ip : Z)
    (k : Z → Z → hc_state * hc_label) :
  (∃ seqs, progress m seqs (hs_anchor st) (hs_op st)) → match_ok mt →
  hs_anchor st ≤ mt_start mt → mt_start mt + 12 ≤ iend →
  in_window ctx ip → ip ≤ iend - 3 →
  (∀ m' op, (∃ seqs, progress m' seqs (mt_start mt + mt_len mt) op) →
     let '(st', pc) := k op (mt_start mt + mt_len mt) in next_ok e (HGo st' pc) m') →
  wp (encode_then he st ctx mt k) (λ r m', next_ok e r m') m.
Proof.
  intros [seqs P] M Ha Hip Hw Hi Hk. unfold encode_then. rewrite (ho_limit HO), (ho_oend HO).
  wp_apply (encodeSequence_spec m seqs); [done..|]. intros r m1 [F Hr]. apply wp_ret.
  destruct r as [[[ip' op'] anchor']|].
  - destruct Hr as (-> & -> & Hp). specialize (Hk m1 op' Hp).
    by destruct (k op' (mt_start mt + mt_len mt)).
  - destruct Hr. split; [done|]. split; [eapply in_window_le; [done|lia]|]. split; [|done].
    pose proof (iw_next _ _ Hw). right. lia.
Qed.

(** The searches leave the match given or find a wider one. *)
Lemma search2_spec m (st : hc_state) :
  at_hc_label m st HSearch2 →
  let m1 := cur st in
  let e := mt_start m1 + mt_len m1 in
  wp (search2 he st)
     (λ '(ctx, m2) m', m' = m ∧ in_window ctx (e - 2) ∧
        (mt_len m2 = mt_len m1 ∨
         mt_len m1 < mt_len m2 ∧ match_ok m2 ∧ mt_start m1 < mt_start m2 ≤ e - 2 ∧
         e + 2 ≤ mt_start m2 + mt_len m2 ∧ e + 12 < iend)) m.
Proof.
  intros ([seqs P] & (M1 & M0 & H1 & H2 & H3 & H4) & Hw) m1 e. simpl in Hw. fold m1 in Hw, M1, H1, H2, H3, H4. fold e in Hw.
  pose proof (mo_len _ M1) as L1. unfold MINMATCH in L1.
  unfold search2. fold m1. fold e. rewrite (ho_mflimit HO), (ho_matchlimit HO). case_if; zbool.
  - eapply wp_mono; [apply InsertAndGetWiderMatch_spec; try lia|].
    + apply P.
    + eapply in_window_le; [done|lia].
    + pose proof (pg_anchor _ _ _ _ _ _ _ _ _ _ P). lia.
    + apply (ho_attempts HO).
    + intros [ctx m2] m' (-> & Hw' & Hok). split; [done|]. split; [done|].
      destruct Hok as [->|(Hl & Hm & Hs & He)]; [by left|]. right. unfold MINMATCH in He.
      split_and!; (done || lia).
  - apply wp_ret. split; [done|]. split; [|by left]. eapply in_window_le; [done|lia].
Qed.

Lemma search3_spec m (st : hc_state) (m2 : hc_match) :
  (∃ seqs, progress m seqs (hs_anchor st) (hs_op st)) → match_ok m2 → source ≤ mt_start m2 →
  let e := mt_start m2 + mt_len m2 in
  in_window (hs_ctx st) (e - 4) →
  wp (search3 he st m2)
     (λ '(ctx, m3) m', m' = m ∧ in_window ctx (e - 3) ∧
        (mt_len m3 = mt_len m2 ∨
         mt_len m2 < mt_len m3 ∧ match_ok m3 ∧ mt_start m2 ≤ mt_start m3 ≤ e - 3 ∧
         e + 1 ≤ mt_start m3 + mt_len m3 ∧ e + 12 < iend)) m.
Proof.
  intros [seqs P] M2 Hs e Hw. pose proof (mo_len _ M2) as L2. unfold MINMATCH in L2.
  unfold search3. fold e. rewrite (ho_mflimit HO), (ho_matchlimit HO). case_if; zbool.
  - eapply wp_mono; [apply InsertAndGetWiderMatch_spec; try lia|].
    + apply P.
    + eapply in_window_le; [done|lia].
    + apply (ho_attempts HO).
    + intros [ctx m3] m' (-> & Hw' & Hok). split; [done|]. split; [done|].
      destruct Hok as [->|(Hl & Hm & Hst & He)]; [by left|]. right. unfold MINMATCH in He.
      split_and!; (done || lia).
  - apply wp_ret. split; [done|]. split; [|by left]. eapply in_window_le; [done|lia].
Qed.

(** Reads off what a label says of a given state. *)
Ltac hc_label :=
  unfold next_ok, at_hc_label;
  cbn [hs_end hs_anchor hs_op hs_ctx cur second third saved mt_start mt_ref mt_len] in *.

Lemma step_search2_spec m (st : hc_state) :
  at_hc_label m st HSearch2 →
  wp (step_search2 he st) (λ r m', next_ok (hs_end st HSearch2) r m') m.
Proof.
  intros Hat. pose proof (search2_spec m st Hat) as Hs. cbv zeta in Hs.
  destruct Hat as (P & (M1 & M0 & H1 & H2 & H3 & H4) & Hw).
  pose proof (mo_len _ M0). pose proof (mo_len _ M1). pose proof (mo_end _ M1).
  unfold MINMATCH, LASTLITERALS in *.
  unfold step_search2. eapply wp_seq; [exact Hs|]. intros [ctx m2] m' (-> & Hw' & Hm2).
  case_if; zbool.
  - eapply encode_then_spec; [exact P|done|lia|lia|exact Hw'|lia|].
    intros m1 op Hp. hc_label.
    pose proof (iw_next _ _ Hw'). pose proof (progress_source _ _ _ P).
    split_and!; try done; try lia;
      [eapply in_window_le; [done|lia]|right; lia|by left].
  - destruct Hm2 as [?|(L2 & M2 & S2 & E2 & N2)]; [lia|].
    set (m1 := if (mt_start (saved st) <? mt_start (cur st)) &&
                  (mt_start m2 <? mt_start (cur st) + mt_len (saved st))
               then saved st else cur st).
    assert (Hm1 : m1 = cur st ∧
                  (mt_start (saved st) = mt_start (cur st) ∨ 3 ≤ mt_start m2 - mt_start (cur st)) ∨
                  m1 = saved st ∧ mt_start (saved st) < mt_start (cur st) ∧
                  mt_start m2 < mt_start (cur st) + mt_len (saved st)).
    { unfold m1. destruct (Z.ltb_spec (mt_start (saved st)) (mt_start (cur st)));
        destruct (Z.ltb_spec (mt_start m2) (mt_start (cur st) + mt_len (saved st)));
        simpl; [right|left|left|left]; split_and!; (done || lia). }
    clearbody m1. case_if; zbool; apply wp_ret;
      hc_label.
    + split; [|lia]. split; [done|]. split; [|eapply in_window_le; [done|lia]].
      unfold at_search2. destruct Hm1 as [(-> & ?)|(-> & ?)]; split_and!; try done; try lia.
    + split; [|lia]. split; [done|]. split; [|eapply in_window_le; [done|lia]].
      unfold at_search3. destruct Hm1 as [(-> & _)|(-> & ?)]; split_and!; try done; try lia.
Qed.

(** [_Search3] with a third match [m3], for the second one [m2] as corrected. *)
Definition third_ok (anchor : Z) (m1 m2 m3 : hc_match) : Prop :=
  at_search3 anchor m1 m2 ∧ 4 ≤ mt_start m2 - mt_start m1 ∧
  mt_len m2 < mt_len m3 ∧ match_ok m3 ∧
  mt_start m2 ≤ mt_start m3 ≤ mt_start m2 + mt_len m2 - 3 ∧
  mt_start m2 + mt_len m2 + 1 ≤ mt_start m3 + mt_len m3 ∧
  mt_start m2 + mt_len m2 + 12 < iend.

Lemma remove_second_spec m (st : hc_state) ctx (m2 m3 : hc_match) :
  (∃ seqs, progress m seqs (hs_anchor st) (hs_op st)) →
  third_ok (hs_anchor st) (cur st) m2 m3 → mt_start m3 < mt_start (cur st) + mt_len (cur st) + 3 →
  in_window ctx (mt_start m2 + mt_len m2 - 3) →
  wp (remove_second he st ctx m2 m3) (λ r m', next_ok (mt_start m2 + mt_len m2) r m') m.
Proof.
  intros P ((M1 & M2 & H1 & H2 & H3 & H4) & T1 & T2 & M3 & T3 & T4 & T5) Hr Hw.
  pose proof (mo_len _ M1). pose proof (mo_len _ M2). unfold MINMATCH in *.
  unfold remove_second. case_if; zbool.
  - set (e := mt_start (cur st) + mt_len (cur st)) in *.
    set (m2' := if mt_start m2 <? e then _ else m2).
    assert (Hm2' : match_ok m2' ∧ e ≤ mt_start m2' ≤ mt_start m3 ∧
                   (mt_start m2' = mt_start m3 ∧ mt_len m2' ≤ mt_len m3 ∨ mt_len m2' < mt_len m3)).
    { unfold m2'. case_if; zbool; [|split_and!; (done || lia)].
      set (p := push_match _ _). case_if; zbool; unfold MINMATCH in *; [split_and!; (done || lia)|].
      split; [apply push_match_ok; [done|lia|unfold MINMATCH; simpl in *; lia]|].
      unfold p. simpl. lia. }
    clearbody m2'. destruct Hm2' as (K1 & K2 & K3).
    eapply encode_then_spec; [exact P|done|lia|lia|exact Hw|lia|].
    intros m1 op Hp. hc_label.
    split; [|lia]. split; [done|]. split; [|eapply in_window_le; [done|lia]].
    unfold at_search2. split_and!; try done; try lia.
  - apply wp_ret. hc_label.
    split; [|lia]. split; [done|]. split; [|eapply in_window_le; [done|lia]].
    unfold at_search3. split_and!; try done; try lia.
Qed.

Lemma three_matches_spec m (st : hc_state) ctx (m2 m3 : hc_match) :
  (∃ seqs, progress m seqs (hs_anchor st) (hs_op st)) →
  third_ok (hs_anchor st) (cur st) m2 m3 → mt_start (cur st) + mt_len (cur st) + 3 ≤ mt_start m3 →
  in_window ctx (mt_start m2 + mt_len m2 - 3) →
  wp (three_matches he st ctx m2 m3) (λ r m', next_ok (mt_start m2 + mt_len m2) r m') m.
Proof.
  intros P (S3 & T1 & T2 & M3 & T3 & T4 & T5) Hr Hw.
  pose proof S3 as (M1 & M2 & H1 & H2 & H3 & H4).
  destruct (push_to_ok _ _ _ S3) as (O1 & O2 & O3 & O4).
  pose proof (mo_len _ M1). pose proof (mo_len _ M2). unfold MINMATCH in *.
  unfold three_matches.
  set (r := if mt_start m2 <? mt_start (cur st) + mt_len (cur st) then _ else _).
  assert (Hrs : 4 ≤ r.1 ≤ mt_len (cur st) ∧ match_ok r.2 ∧
    mt_start r.2 + mt_len r.2 = mt_start m2 + mt_len m2 ∧
    mt_start (cur st) + r.1 ≤ mt_start r.2 ∧
    (mt_start r.2 ≤ mt_start (cur st) + mt_len (cur st) ∨
     mt_start r.2 = mt_start (cur st) + mt_len (cur st) + 1 ∧ 6 ≤ mt_len r.2)).
  { unfold r. case_if; zbool; [case_if; zbool|]; cbn [fst snd]; split_and!; try done; try lia. }
  destruct r as [ml m2']. simpl in Hrs. destruct Hrs as (R1 & R2 & R3 & R4 & R5).
  eapply encode_then_spec; [exact P|apply shorten_ok; [done|unfold MINMATCH; lia]|simpl; lia..|exact Hw|lia|].
  intros m1 op Hp. hc_label.
  cbn [mt_start mt_len] in *. pose proof (mo_len _ R2). unfold MINMATCH in *.
  split; [|lia]. split; [done|]. split; [|eapply in_window_le; [done|lia]].
  unfold at_search3. split_and!; try done; try lia.
Qed.

(** Two sequences in a row. *)
Lemma two_matches_spec m (st : hc_state) ctx (m2 m3 : hc_match) :
  (∃ seqs, progress m seqs (hs_anchor st) (hs_op st)) →
  at_search3 (hs_anchor st) (cur st) m2 → 4 ≤ mt_start m2 - mt_start (cur st) →
  in_window ctx (mt_start m2 + mt_len m2 - 3) →
  let m1 := cur st in
  let ip := mt_start m1 in
  wp (let ml := if mt_start m2 <? ip + mt_len m1 then mt_start m2 - ip else mt_len m1 in
      let! r := encode_then he st ctx (Match ip (mt_ref m1) ml)
                  (λ op anchor, (HState ctx anchor op m1 m2 m3 (saved st), HSearch3)) in
      match r with
      | HStop ctx => ret (HStop ctx)
      | HGo st _ =>
          encode_then he st ctx m2 (λ op anchor,
            (HState ctx anchor op (Match anchor (mt_ref m1) ml) m2 m3 (saved st), HMain))
      end)
     (λ r m', next_ok (mt_start m2 + mt_len m2) r m') m.
Proof.
  intros P (M1 & M2 & H1 & H2 & H3 & H4) T1 Hw m1 ip. cbv zeta.
  pose proof (mo_len _ M1). pose proof (mo_len _ M2). pose proof (mo_end _ M2).
  unfold MINMATCH, LASTLITERALS in *. fold m1 in M1, H1, H2, H3, H4 |- *.
  set (ml := if mt_start m2 <? ip + mt_len m1 then mt_start m2 - ip else mt_len m1).
  assert (Hml : 4 ≤ ml ≤ mt_len m1 ∧ ip + ml ≤ mt_start m2) by (unfold ml, ip, m1 in *; case_if; zbool; lia).
  clearbody ml. destruct P as [seqs P]. unfold encode_then at 1. rewrite (ho_limit HO), (ho_oend HO).
  apply wp_bind.
  eapply wp_seq; [apply (encodeSequence_spec m seqs _ _ (Match ip (mt_ref m1) ml)); simpl;
    [done|apply shorten_ok; [done|unfold MINMATCH; lia]|unfold ip; lia..]|].
  intros r m' [F Hr]. apply wp_ret.
  destruct r as [[[ip' op'] anchor']|]; [|apply wp_ret; destruct Hr; split; [done|]; split; [eapply in_window_le; [done|lia]|]; split; [|done];
    pose proof (iw_next _ _ Hw); right; lia].
  destruct Hr as (-> & -> & Hp). simpl in Hp.
  eapply encode_then_spec; [exact Hp|done|simpl; lia|lia|exact Hw|lia|].
  intros m3' op Hp'. hc_label.
  pose proof (iw_next _ _ Hw). pose proof (progress_source _ _ _ Hp).
  split_and!; try done; try lia;
    [eapply in_window_le; [done|lia]|right; lia|by left].
Qed.

Lemma step_search3_spec m (st : hc_state) :
  at_hc_label m st HSearch3 →
  wp (step_search3 he st) (λ r m', next_ok (hs_end st HSearch3) r m') m.
Proof.
  intros (P & S3 & Hw). hc_label. pose proof S3 as (M1 & M2 & H1 & H2 & H3 & H4).
  destruct (push_to_ok _ _ _ S3) as (O1 & O2 & O3 & O4).
  unfold step_search3.
  set (m2 := if mt_start (second st) - mt_start (cur st) <? OPTIMAL_ML then _ else second st).
  assert (Hm2 : match_ok m2 ∧ mt_start m2 + mt_len m2 = mt_start (second st) + mt_len (second st) ∧
    4 ≤ mt_start m2 - mt_start (cur st) ∧ at_search3 (hs_anchor st) (cur st) m2).
  { unfold m2, OPTIMAL_ML, ML_MASK, ML_BITS, MINMATCH. case_if; zbool.
    - pose proof (mo_len _ O2). unfold MINMATCH in *. split_and!; try done; try lia.
      unfold at_search3. split_and!; try done; try lia.
    - split_and!; try done; lia. }
  clearbody m2. destruct Hm2 as (K1 & K2 & K3 & K4). rewrite <- K2.
  pose proof K4 as (_ & _ & J1 & J2 & J3 & J4). destruct P as [seqs P].
  pose proof (pg_anchor _ _ _ _ _ _ _ _ _ _ P) as Ha.
  eapply wp_seq; [apply (search3_spec m st m2); [by exists seqs|done|lia|by rewrite K2]|].
  intros [ctx m3] m' (-> & Hw' & Hm3). case_if; zbool.
  - apply two_matches_spec; (done || by exists seqs).
  - destruct Hm3 as [?|(L1 & L2 & L3 & L4 & L5)]; [lia|].
    assert (T : third_ok (hs_anchor st) (cur st) m2 m3) by (unfold third_ok; split_and!; (done || lia)).
    case_if; zbool.
    + apply remove_second_spec; (done || by exists seqs).
    + apply three_matches_spec; (done || by exists seqs).
Qed.

(** What the main loop ends with. *)
Definition hc_post m (r : LZ4HC_Data_Structure * Z) : Prop :=
  frame dest (dest + cap) m0 m ∧ in_window r.1 iend ∧ seen r.1 ∧ hc_outcome m r.2.

Definition hc_weight (pc : hc_label) : Z := match pc with HMain => 0 | _ => 1 end.

(** The main loop produces a block, or gives up on a limited output. *)
Lemma hc_loop_spec (fuel : nat) m (st : hc_state) (pc : hc_label) :
  at_hc_label m st pc → 2 * (iend + 1 - hs_end st pc) + hc_weight pc < Z.of_nat fuel →
  wp (hc_loop fuel he st pc) (λ r m', hc_post m' r) m.
Proof.
  revert m st pc. induction fuel as [|fuel IH]; intros m st pc Hat Hf.
  { destruct Hat as [_ Hat]. unfold at_search2, at_search3 in Hat.
    destruct pc; [|destruct Hat as (([_ Hm _ _] & _) & _)|destruct Hat as ((_ & [_ Hm _ _] & _) & _)];
      unfold LASTLITERALS in *; simpl in *; lia. }
  assert (Hstep : ∀ (c : prog hc_next), wp c (λ r m', next_ok (hs_end st pc) r m') m → pc ≠ HMain →
    wp (let! r := c in match r with HStop ctx => ret (ctx, 0) | HGo st pc => hc_loop fuel he st pc end)
       (λ r m', hc_post m' r) m).
  { intros c Hc Hpc. eapply wp_seq; [exact Hc|]. intros [ctx|st' pc'] m' Hn.
    - destruct Hn as (F & Hw & Hs & Hl). apply wp_ret. split_and!; try done. by left.
    - destruct Hn as (Hat' & He & Hp). apply IH; [done|].
      destruct Hp as [->|Hp], pc; try done; try destruct pc'; simpl in *; lia. }
  destruct pc; cbn [hc_loop]; [|by apply Hstep; [apply step_search2_spec|]
                              |by apply Hstep; [apply step_search3_spec|]].
  clear Hstep. destruct Hat as ([seqs P] & Ha & Hsrc & Hw & Hseen). simpl in Hf.
  pose proof (pg_anchor _ _ _ _ _ _ _ _ _ _ P) as Hanc.
  rewrite (ho_mflimit HO), (ho_matchlimit HO). case_if; zbool.
  - wp_apply InsertAndFindBestMatch_spec; [apply P|done|lia|lia|apply (ho_attempts HO)|].
    intros [[ctx ml] ref] m' (-> & Hw' & Hok). pose proof (iw_next _ _ Hw').
    case_if; zbool.
    + apply IH; [|simpl; lia]. hc_label. split; [by exists seqs|].
      split_and!; try lia; [eapply in_window_le; [done|lia]|right; lia].
    + destruct Hok as [?|M]; [done|]. pose proof (mo_len _ M). unfold MINMATCH in *. simpl in *.
      apply IH; [|simpl; lia]. hc_label. split; [by exists seqs|].
      split; [|eapply in_window_le; [done|lia]].
      unfold at_search2. simpl. split_and!; try done; try lia.
  - wp_apply (hc_finish m he seqs); try done; try apply HO. intros n m' [F Ho]. apply wp_ret.
    split; [done|]. split; [|done]. simpl. destruct Hw. constructor; try done.
    destruct Hseen; lia.
Qed.

End hc_block.

(** * The generic compressor *)

Section hc_generic.
Context {arch : Arch}.
Implicit Types (m : mem) (hc : LZ4HC_Data_Structure).

Lemma hc_generic_spec m hc (source dest maxOut level cap B D dl : Z)
    (lim : limitedOutput_directive) (hist x : list byte) :
  window source dest hist x m cap B D dl → hc_end hc = source →
  in_window source hist x B D dl (with_window hc (source + zlen x) (hc_base hc) (dictBase hc)
    (dictLimit hc) (lowLimit hc) (nextToUpdate hc)) source →
  hc_room dest x cap lim (dest + maxOut) →
  (is_limited lim = true → maxOut = cap ∧ 0 ≤ cap < 2 ^ 31) →
  wp (LZ4HC_compress_generic hc source dest (zlen x) maxOut level lim)
     (λ '(hc', n) m', frame dest (dest + cap) m m' ∧
        in_window source hist x B D dl hc' (source + zlen x) ∧
        seen source x B (nextToUpdate hc) hc' ∧ hc_outcome dest hist x cap lim m' n) m.
Proof.
  intros W He Hw R Hmax. unfold LZ4HC_compress_generic. rewrite He.
  set (lv := if level >? g_maxCompressionLevel then g_maxCompressionLevel else level).
  set (lv' := if lv <? 1 then LZ4HC_compressionLevel_default else lv).
  set (he := HEnv _ _ _ _ _ _ _ _).
  assert (Hlv : 1 ≤ lv' ≤ 16).
  { unfold lv', lv, g_maxCompressionLevel, LZ4HC_compressionLevel_default.
    destruct (level >? 16) eqn:Hg; zbool; case_if; zbool; lia. }
  assert (HO : he_ok source dest x cap lim (dest + maxOut) he).
  { constructor; try done. simpl. rewrite Z.shiftl_mul_pow2 by lia. lia. }
  pose proof (iw_next _ _ _ _ _ _ _ _ Hw) as Hn. simpl in Hn.
  eapply wp_mono; [eapply (hc_loop_spec source dest hist x m cap B D dl W lim (dest + maxOut) R
    (nextToUpdate hc) ltac:(lia) he HO)|].
  - unfold at_hc_label. cbn [hs_end hs_anchor hs_op hs_ctx cur mt_start]. split; [exists []; by apply progress_start|]. simpl. split_and!; try lia.
    + eapply in_window_le; [done|lia].
    + by left.
  - simpl. lia.
  - intros [hc' n] m' Hp. exact Hp.
Qed.

End hc_generic.
