(* ===== verification/Lz4HcApi.v ===== *)
(** The theorems about the entry points of LZ4 HC: one-shot compression and its
    round trip, and blocks of a stream with their dictionaries. *)

From Stdlib Require Import ZArith Lia Strings.Byte.
From stdpp Require Import base gmap list fin_maps numbers.
From S2P Require Import Prelude Mem Lz4Common Lz4Format Lz4Decompress Lz4DecompressApi Lz4Compress Lz4Text Lz4CompressProofs Lz4CompressApi Lz4Hc Lz4HcProofs.

(** * Valid contexts *)

(** The window and the tables of a context fit together. *)
Record hc_valid (hc : LZ4HC_Data_Structure) : Prop := {
  hv_low : KB 64 ≤ lowLimit hc ≤ dictLimit hc;
  hv_end : dictLimit hc ≤ hc_end hc - hc_base hc < 2 ^ 32;
  hv_next : dictLimit hc ≤ nextToUpdate hc ≤ hc_end hc - hc_base hc;
  hv_hashed : nextToUpdate hc = dictLimit hc ∨ nextToUpdate hc + 3 ≤ hc_end hc - hc_base hc;
  hv_chains : chains (lowLimit hc) (dictLimit hc) (nextToUpdate hc) (hc_hashTable hc) (chainTable hc)
}.

(** The history of a context: the external dictionary, then the prefix. *)
Definition hc_hist (m : mem) (hc : LZ4HC_Data_Structure) (hist : list byte) : Prop :=
  ∃ d p, hist = d ++ p ∧
    zlen d = dictLimit hc - lowLimit hc ∧ bytes_at m (dictBase hc + lowLimit hc) d ∧
    zlen p = hc_end hc - hc_base hc - dictLimit hc ∧ bytes_at m (hc_base hc + dictLimit hc) p.

(** A block of input [x] for a context with history [hist], and a destination
    apart from both. *)
Record hc_args (m : mem) (hc : LZ4HC_Data_Structure) (source dest : Z) (hist x : list byte)
    (cap : Z) : Prop := {
  hg_comp : comp_args m source dest x cap;
  hg_hist : hc_hist m hc hist;
  hg_dict : apart (dictBase hc + lowLimit hc) (dictLimit hc - lowLimit hc) dest cap;
  hg_prefix : apart (hc_base hc + dictLimit hc) (hc_end hc - hc_base hc - dictLimit hc) dest cap
}.

(** The address of a context is aligned for pointers. *)
Definition aligned_state {arch : Arch} (state : Z) : Prop :=
  Z.land (usize state) (STEPSIZE - 1) = 0.

Section hc_api.
Context {arch : Arch}.
Implicit Types (m : mem) (hc : LZ4HC_Data_Structure).

Lemma hc_init_valid hc (start : Z) : hc_valid (LZ4HC_init hc start).
Proof.
  constructor; simpl; unfold KB; try lia. apply chains_empty; lia.
Qed.

Lemma hc_init_hist m hc (start : Z) : hc_hist m (LZ4HC_init hc start) [].
Proof. exists [], []. simpl. split_and!; (done || lia). Qed.

(** * Compressing a block *)

Lemma hc_args_window m hc (source dest cap : Z) (hist x : list byte) :
  hc_valid hc → hc_end hc = source → hc_args m hc source dest hist x cap →
  source - hc_base hc ≤ GB 2 →
  window source dest hist x m cap (hc_base hc) (dictBase hc) (dictLimit hc) ∧
  in_window source hist x (hc_base hc) (dictBase hc) (dictLimit hc)
    (with_window hc (source + zlen x) (hc_base hc) (dictBase hc) (dictLimit hc) (lowLimit hc)
       (nextToUpdate hc)) source.
Proof.
  intros [V1 V2 V3 V4 V5] He [[A1 A2 A3 A4 A5 A6] (d & p & -> & D1 & D2 & P1 & P2) G1 G2] Hsz.
  unfold apart, GB, LZ4_MAX_INPUT_SIZE in *. rewrite He in *.
  assert (Hlow : source - zlen (d ++ p) = hc_base hc + lowLimit hc) by (rewrite length_app; lia).
  split.
  - constructor; rewrite ?Hlow; try lia. constructor; rewrite ?Hlow; try done.
    + intros v Hv. unfold hloc. destruct (Z.ltb_spec v (hc_base hc + dictLimit hc)); lia.
    + intros v Hv. unfold hloc, txt. rewrite Hlow. rewrite <- app_assoc.
      destruct (Z.ltb_spec v (hc_base hc + dictLimit hc)).
      * rewrite lookup_app_l by lia. rewrite (bytes_at_index m _ d) by (done || lia). f_equal. lia.
      * rewrite lookup_app_r by lia. destruct (decide (v < source)).
        -- rewrite lookup_app_l by lia. rewrite (bytes_at_index m _ p) by (done || lia). f_equal. lia.
        -- rewrite lookup_app_r by lia. rewrite (bytes_at_index m _ x) by (done || lia). f_equal. lia.
    + intros v Hv. unfold hloc. destruct (Z.ltb_spec v (hc_base hc + dictLimit hc)); lia.
  - constructor; simpl; rewrite ?Hlow; try done; try lia.
    replace (hc_base hc + lowLimit hc - hc_base hc) with (lowLimit hc) by lia. done.
Qed.

(** A block on a valid context: its history is the one of the window. *)
Lemma hc_block_spec m hc (source dest maxOut level : Z) (lim : limitedOutput_directive)
    (hist x : list byte) :
  hc_valid hc → hc_end hc = source → hc_args m hc source dest hist x maxOut →
  source - hc_base hc ≤ GB 2 → maxOut < 2 ^ 31 →
  LZ4_compressBound (zlen x) ≤ maxOut ∨ is_limited lim = true ∧ zlen x ≤ HC_SMALL_INPUT →
  wp (LZ4HC_compress_generic hc source dest (zlen x) maxOut level lim)
     (λ '(hc', n) m', frame dest (dest + maxOut) m m' ∧
        (n = 0 ∧ maxOut < LZ4_compressBound (zlen x) ∨ block_at m' dest maxOut hist x n) ∧
        hc_valid hc' ∧ hc_end hc' = source + zlen x ∧ hc_hist m' hc' (hist ++ x)) m.
Proof.
  intros V He A Hsz Hmax Hroom. destruct (hc_args_window m hc source dest maxOut hist x V He A Hsz) as [W Hw].
  pose proof A as [[A1 A2 A3 A4 A5 A6] (d & p & Hh & D1 & D2 & P1 & P2) G1 G2].
  pose proof V as [V1 V2 V3 V4 V5].
  destruct (compressBound_roomy (zlen x)) as [Hbd Hro]; [lia|].
  eapply wp_mono; [apply (hc_generic_spec m hc source dest maxOut level maxOut _ _ _ lim hist x W He Hw)|].
  - constructor; [|done]. destruct Hroom as [Hb|Hl]; [left|by right]. unfold roomy in *. lia.
  - done.
  - intros [hc' n] m' (F & [W0 W1 W2 W3 W4 W5 W6] & Hs & Ho). split; [done|].
    assert (Hlow : source - zlen hist - hc_base hc = lowLimit hc) by (subst hist; rewrite length_app; lia).
    rewrite Hlow in *. unfold GB, LZ4_MAX_INPUT_SIZE, apart in *. split; [|split; [|split; [done|]]].
    + destruct Ho as [(-> & Hl & Hn)|Hb]; [left; split; [done|]|by right].
      destruct (decide (maxOut < LZ4_compressBound (zlen x))); [done|]. exfalso. apply Hn.
      unfold roomy in *. lia.
    + constructor; rewrite ?W0, ?W1, ?W3, ?W4; try done; try lia.
      destruct Hs as [Hs|Hs]; rewrite ?Hs; lia.
    + exists d, (p ++ x). rewrite W0, W1, W2, W3, W4, length_app, bytes_at_app, Hh, app_assoc.
      split_and!; try done; try lia.
      * eapply bytes_at_frame; [exact F|lia|done].
      * eapply bytes_at_frame; [exact F|lia|done].
      * eapply bytes_at_frame; [exact F|lia|].
        by replace (hc_base hc + dictLimit hc + zlen p) with source by lia.
Qed.

(** * One-shot compression *)

Lemma compress_HC_spec m (state : Z) hc (src dst maxDst level : Z) (x : list byte) :
  aligned_state state →
  comp_args m src dst x maxDst → maxDst < 2 ^ 31 →
  LZ4_compressBound (zlen x) ≤ maxDst ∨ zlen x ≤ HC_SMALL_INPUT →
  wp (LZ4_compress_HC state hc src dst (zlen x) maxDst level)
     (λ n m', frame dst (dst + maxDst) m m' ∧
        (n = 0 ∧ maxDst < LZ4_compressBound (zlen x) ∨ block_at m' dst maxDst [] x n)) m.
Proof.
  intros Hst A Hmax Hroom. unfold aligned_state in Hst.
  unfold LZ4_compress_HC, LZ4_compress_HC_extStateHC. rewrite Hst. simpl.
  assert (G : hc_args m (LZ4HC_init hc src) src dst [] x maxDst).
  { pose proof (ca_apart _ _ _ _ _ A). constructor; [done|apply hc_init_hist| |]; simpl; unfold apart in *; lia. }
  assert (Hblock : ∀ lim,
    LZ4_compressBound (zlen x) ≤ maxDst ∨ is_limited lim = true ∧ zlen x ≤ HC_SMALL_INPUT →
    wp (let! (_, n) := LZ4HC_compress_generic (LZ4HC_init hc src) src dst (zlen x) maxDst level lim in
        ret n)
     (λ n m', frame dst (dst + maxDst) m m' ∧
        (n = 0 ∧ maxDst < LZ4_compressBound (zlen x) ∨ block_at m' dst maxDst [] x n)) m).
  { intros lim Hl. eapply wp_seq; [apply (hc_block_spec m _ src dst maxDst level lim [] x);
      try done; [apply hc_init_valid|simpl; unfold KB, GB; lia]|].
    intros [hc' n] m' (F & Ho & _). by apply wp_ret. }
  case_if; zbool; apply Hblock; [right; split; [done|lia]|by left].
Qed.

(** given room for [LZ4_compressBound] bytes, [LZ4_compress_HC] always
    succeeds at every level: it returns the size of a well-formed block at
    the destination whose text is the input, and writes nothing else. *)
Theorem LZ4_compress_HC_complete m (state : Z) hc (src dst maxDstSize level : Z) (x : list byte) :
  aligned_state state →
  comp_args m src dst x maxDstSize → maxDstSize < 2 ^ 31 →
  LZ4_compressBound (zlen x) ≤ maxDstSize →
  ∃ n m', LZ4_compress_HC state hc src dst (zlen x) maxDstSize level m = Ret n m' ∧
    frame dst (dst + maxDstSize) m m' ∧ 0 < n ≤ maxDstSize ∧
    ∃ seqs l, end_ok seqs l ∧ block_text [] seqs l = Some x ∧
      n = zlen (block seqs l) ∧ bytes_at m' dst (block seqs l).
Proof.
  intros Hst A Hmax Hb.
  pose proof (compress_HC_spec m state hc src dst maxDstSize level x Hst A Hmax (or_introl Hb)) as H.
  apply wp_result in H as (n & m' & Hr & F & [[_ ?]|(seqs & l & H1 & H2 & H3 & H4 & H5)]); [lia|].
  exists n, m'. split; [done|]. pose proof (length_block_pos seqs l).
  split; [done|]. split; [lia|]. by exists seqs, l.
Qed.

(** with a smaller destination and an input of at most 4 KB,
    [LZ4_compress_HC] stays within the destination and returns 0, or the size
    of a well-formed block that fits in it and whose text is the input. *)
Theorem LZ4_compress_HC_limited m (state : Z) hc (src dst maxDstSize level : Z) (x : list byte) :
  aligned_state state →
  comp_args m src dst x maxDstSize → maxDstSize < LZ4_compressBound (zlen x) → zlen x ≤ KB 4 →
  ∃ n m', LZ4_compress_HC state hc src dst (zlen x) maxDstSize level m = Ret n m' ∧
    frame dst (dst + maxDstSize) m m' ∧
    (n = 0 ∨ 0 < n ≤ maxDstSize ∧
     ∃ seqs l, end_ok seqs l ∧ block_text [] seqs l = Some x ∧
       n = zlen (block seqs l) ∧ bytes_at m' dst (block seqs l)).
Proof.
  intros Hst A Hmax Hb. destruct (compressBound_roomy (zlen x)) as [Hbd _]; [destruct A; lia|].
  assert (Hmax' : maxDstSize < 2 ^ 31) by (unfold KB in Hb; zdiv).
  pose proof (compress_HC_spec m state hc src dst maxDstSize level x Hst A Hmax' (or_intror Hb)) as H.
  apply wp_result in H as (n & m' & Hr & F & [[Hn _]|(seqs & l & H1 & H2 & H3 & H4 & H5)]);
    exists n, m'; (split; [done|]); (split; [done|]); [by left|right].
  pose proof (length_block_pos seqs l). split; [lia|]. by exists seqs, l.
Qed.

(** C18: round trip of the high compression mode: what [LZ4_compress_HC] writes
    into [LZ4_compressBound] bytes, at any level, [LZ4_decompress_safe] turns
    back into the input. *)
Theorem LZ4_compress_HC_roundtrip m (state : Z) hc (src dst back level : Z) (x : list byte) :
  let bound := LZ4_compressBound (zlen x) in
  aligned_state state → comp_args m src dst x bound →
  addressable dst back bound (zlen x + 1) → mapped m back (zlen x + 1) →
  apart dst bound back (zlen x + 1) →
  ∃ n m1 m2,
    LZ4_compress_HC state hc src dst (zlen x) bound level m = Ret n m1 ∧
    LZ4_decompress_safe dst back n (zlen x + 1) m1 = Ret (zlen x) m2 ∧
    bytes_at m2 back x.
Proof.
  intros bound Hst A Ha Hm Hap. destruct (compressBound_roomy (zlen x)) as [Hbd _]; [destruct A; lia|].
  fold bound in Hbd. pose proof (ca_size _ _ _ _ _ A) as HN. unfold LZ4_MAX_INPUT_SIZE in HN.
  pose proof (compress_HC_spec m state hc src dst bound level x Hst A ltac:(zdiv)
    (or_introl (Z.le_refl _))) as H. fold bound in H.
  apply wp_result in H as (n & m1 & Hr & F & [[_ ?]|Hb]); [lia|].
  assert (Hn : n ≤ bound) by (destruct Hb as (? & ? & ? & ? & ? & ? & ?); done).
  pose proof (decompress_block_at m1 dst back bound n (zlen x + 1) x Hb) as H.
  apply wp_result in H as (r & m2 & Hr2 & -> & F2 & Hb2); try lia; try done.
  - by exists n, m1, m2.
  - unfold addressable in *. lia.
  - by eapply frame_mapped.
Qed.

(** * Streams *)

(** The prefix of a context is in memory. *)
Definition prefix_mapped m hc : Prop :=
  mapped m (hc_base hc + dictLimit hc) (hc_end hc - hc_base hc - dictLimit hc).

Lemma loadDictHC_spec m hc (dictionary dictSize : Z) :
  0 ≤ dictSize → mapped m dictionary dictSize →
  wp (LZ4_loadDictHC hc dictionary dictSize)
     (λ '(hc', n) m', m' = m ∧ hc_valid hc' ∧ n = Z.min dictSize (KB 64) ∧
        hc_end hc' = dictionary + dictSize ∧ hc_base hc' = hc_end hc' - n - KB 64 ∧
        dictLimit hc' = KB 64 ∧ lowLimit hc' = KB 64 ∧ dictBase hc' = hc_base hc') m.
Proof.
  intros Hn Hm. unfold LZ4_loadDictHC.
  set (r := if dictSize >? KB 64 then _ else _).
  assert (Hr : r = (dictionary + (dictSize - Z.min dictSize (KB 64)), Z.min dictSize (KB 64))).
  { unfold r. case_if; zbool; [rewrite Z.min_r by lia|rewrite Z.min_l by lia]; f_equal; lia. }
  clearbody r. subst r. set (n := Z.min dictSize (KB 64)) in *.
  set (d := dictionary + (dictSize - n)) in *.
  assert (Hk : 0 ≤ n ≤ KB 64 ∧ n ≤ dictSize) by (unfold n, KB; lia). unfold KB in *.
  assert (Hd : mapped m d n) by (unfold d; solve_mapped).
  assert (Hde : d + n = dictionary + dictSize) by (unfold d; lia). clearbody d n.
  assert (Hi : wp (if n >=? 4 then LZ4HC_Insert (LZ4HC_init hc d) (d + (n - 3))
                   else ret (LZ4HC_init hc d))
    (λ hc' m', m' = m ∧ ∃ tbl chain next,
       hc' = with_tables (LZ4HC_init hc d) tbl chain next ∧ 65536 ≤ next ∧
       (next = 65536 ∨ next + 3 ≤ n + 65536) ∧ next ≤ n + 65536 ∧
       chains 65536 65536 next tbl chain) m).
  { case_if; zbool.
    - eapply wp_mono; [apply (Insert_chains m _ 65536 65536); simpl; unfold KB; try lia|].
      + solve_mapped.
      + apply chains_empty; lia.
      + intros hc' m' (-> & tbl & chain & -> & Hc). split; [done|].
        exists tbl, chain, (d + (n - 3) - hc_base (LZ4HC_init hc d)). simpl. unfold KB.
        split_and!; try done; lia.
    - apply wp_ret. split; [done|]. exists ∅, ∅, 65536.
      split_and!; try done; try lia. apply chains_empty; lia. }
  eapply wp_seq; [exact Hi|]. intros hc' m' (-> & tbl & chain & next & -> & K1 & K2 & K3 & K4).
  apply wp_ret. split; [done|]. split; [|simpl; unfold KB; split_and!; lia].
  constructor; simpl; unfold KB; try lia. done.
Qed.

(** A context that has grown too far keeps the last 64 KB of its prefix. *)
Lemma check_overflow_spec m hc :
  hc_valid hc → prefix_mapped m hc →
  wp (hc_check_overflow hc)
     (λ hc' m', m' = m ∧ hc_valid hc' ∧ hc_end hc' = hc_end hc ∧ hc_end hc' - hc_base hc' ≤ GB 2 ∧
        (hc' = hc ∨
         lowLimit hc' = dictLimit hc' ∧ dictBase hc' = hc_base hc' ∧
         hc_base hc' + dictLimit hc' =
           hc_end hc - Z.min (hc_end hc - hc_base hc - dictLimit hc) (KB 64))) m.
Proof.
  intros V Hm. pose proof V as [V1 V2 V3 V4 V5]. unfold hc_check_overflow, prefix_mapped in *.
  assert (Hu : ∀ z, 0 ≤ z < 2 ^ 32 → usize z = z).
  { intros z Hz. unfold usize, ptr_bits. pose proof STEPSIZE_range. apply wrap_small. split; [lia|].
    apply Z.lt_le_trans with (2 ^ 32); [lia|]. apply Z.pow_le_mono_r; lia. }
  unfold KB in V1. rewrite (Hu (hc_end hc - hc_base hc)) by lia.
  case_if; zbool; [|by apply wp_ret; split_and!; [..|left]].
  rewrite Hu by lia. set (p := hc_end hc - hc_base hc - dictLimit hc) in *.
  assert (Hn : (if p >? KB 64 then KB 64 else p) = Z.min p (KB 64)) by (case_if; zbool; lia).
  rewrite Hn. set (n := Z.min p (KB 64)) in *. assert (0 ≤ n ≤ KB 64 ∧ n ≤ p) by (unfold n, KB; lia).
  clearbody n. unfold KB, GB in *.
  wp_apply (loadDictHC_spec m hc (hc_end hc - n) n); [lia|unfold p in *; solve_mapped|].
  intros [hc' k] m' (-> & V' & -> & E1 & E2 & E3 & E4 & E5). apply wp_ret.
  unfold KB in *. split_and!; try done; try lia.
Qed.

Lemma setExternalDict_spec m hc (newBlock : Z) :
  hc_valid hc → prefix_mapped m hc →
  wp (LZ4HC_setExternalDict hc newBlock)
     (λ hc' m', m' = m ∧ hc_valid hc' ∧ hc_end hc' = newBlock ∧
        hc_base hc' = newBlock - (hc_end hc - hc_base hc) ∧ dictBase hc' = hc_base hc ∧
        lowLimit hc' = dictLimit hc ∧ dictLimit hc' = hc_end hc - hc_base hc) m.
Proof.
  intros [V1 V2 V3 V4 V5] Hm. unfold prefix_mapped, KB in *. unfold LZ4HC_setExternalDict.
  set (L := hc_end hc - hc_base hc) in *.
  assert (Hi : wp (if hc_end hc >=? hc_base hc + 4 then LZ4HC_Insert hc (hc_end hc - 3) else ret hc)
    (λ hc' m', m' = m ∧ ∃ tbl chain next, hc' = with_tables hc tbl chain next ∧
       chains (dictLimit hc) L L tbl chain) m).
  { case_if; zbool; [|lia]. destruct (decide (nextToUpdate hc ≤ L - 3)).
    - eapply wp_mono; [apply (Insert_chains m hc (lowLimit hc) (dictLimit hc)); try done; try lia|].
      + unfold L in *. solve_mapped.
      + intros hc' m' (-> & tbl & chain & -> & Hc). split; [done|].
        exists tbl, chain, (hc_end hc - 3 - hc_base hc). split; [done|].
        eapply chains_narrow; [exact Hc|lia| |lia|];
          intros v; unfold live, MINMATCH; unfold L in *; lia.
    - unfold LZ4HC_Insert. rewrite (u32_small (hc_end hc - 3 - _)) by lia.
      replace (Z.to_nat (hc_end hc - 3 - hc_base hc - nextToUpdate hc)) with O by lia.
      simpl. destruct (Z.ltb_spec (nextToUpdate hc) (hc_end hc - 3 - hc_base hc)); [lia|].
      apply wp_bind, wp_ret, wp_ret. split; [done|].
      exists (hc_hashTable hc), (chainTable hc), (hc_end hc - 3 - hc_base hc). split; [done|].
      eapply chains_narrow; [exact V5|lia| |lia|]; intros v; unfold live, MINMATCH; lia. }
  eapply wp_seq; [exact Hi|]. intros hc' m' (-> & tbl & chain & next & -> & Hc). apply wp_ret.
  cbn [with_tables with_window hc_end hc_base dictBase dictLimit lowLimit nextToUpdate
    hc_hashTable chainTable]. fold L. rewrite (u32_small L) by lia.
  split; [done|]. split; [|split_and!; (done || lia)].
  constructor; simpl; unfold KB; try done; try lia.
Qed.

(** The part of the dictionary that the input runs over is given up. *)
Lemma check_overlap_spec hc (source N : Z) :
  hc_valid hc → 0 ≤ N →
  let hc' := hc_check_overlap hc source N in
  hc_valid hc' ∧ hc_end hc' = hc_end hc ∧ hc_base hc' = hc_base hc ∧ dictBase hc' = dictBase hc ∧
  dictLimit hc' = dictLimit hc ∧ lowLimit hc ≤ lowLimit hc' ≤ dictLimit hc ∧
  (lowLimit hc' = dictLimit hc' ∨
   apart (dictBase hc' + lowLimit hc') (dictLimit hc' - lowLimit hc') source N).
Proof.
  intros V HN. pose proof V as [V1 V2 V3 V4 V5]. unfold hc_check_overlap, KB, apart in *.
  case_if; zbool; [|split_and!; try done; lia].
  set (e := if source + N >? dictBase hc + dictLimit hc then dictBase hc + dictLimit hc else source + N).
  assert (He : dictBase hc + lowLimit hc ≤ e ≤ dictBase hc + dictLimit hc ∧
               (source + N ≤ e ∨ e = dictBase hc + dictLimit hc))
    by (unfold e; case_if; zbool; lia).
  clearbody e. rewrite (u32_small (e - dictBase hc)), u32_small by lia.
  set (l := if dictLimit hc - (e - dictBase hc) <? 4 then dictLimit hc else e - dictBase hc).
  assert (Hl : lowLimit hc ≤ l ≤ dictLimit hc ∧ (e - dictBase hc ≤ l))
    by (unfold l; case_if; zbool; lia).
  clearbody l. simpl. split_and!; try done; try lia.
  constructor; simpl; unfold KB; try done; try lia.
  eapply chains_narrow; [exact V5|lia| |lia|]; intros v; unfold live; lia.
Qed.

(** The texts [d] and [p] of the external dictionary and of the prefix of a context,
    over which the [n] bytes at [source] may have been written, and a destination
    apart from where they are. *)
Record hc_regions m hc (source n dest cap : Z) (d p : list byte) : Prop := {
  hr_dict_size : zlen d = dictLimit hc - lowLimit hc;
  hr_dict : intact m (dictBase hc + lowLimit hc) d source n;
  hr_prefix_size : zlen p = hc_end hc - hc_base hc - dictLimit hc;
  hr_prefix : intact m (hc_base hc + dictLimit hc) p source n;
  hr_dict_dst : apart (dictBase hc + lowLimit hc) (zlen d) dest cap;
  hr_prefix_dst : apart (hc_base hc + dictLimit hc) (zlen p) dest cap
}.

Section prepare.
Context (m : mem) (source dest cap : Z) (x : list byte).
Context (A : comp_args m source dest x cap).
Implicit Types (d p : list byte).

Abbreviation regions hc d p := (hc_regions m hc source (zlen x) dest cap d p).

Lemma regions_mapped hc d p : regions hc d p → prefix_mapped m hc.
Proof.
  intros [R1 R2 R3 R4 R5 R6]. unfold prefix_mapped. rewrite <- R3.
  eapply intact_mapped; [exact R4|apply (ca_input _ _ _ _ _ A)].
Qed.

Lemma init_regions hc : regions (LZ4HC_init hc source) [] [].
Proof.
  pose proof (ca_apart _ _ _ _ _ A). unfold apart in *.
  constructor; unfold apart; simpl; try lia; apply intact_nil.
Qed.

(** What the first step leaves: the prefix, or its last 64 KB. *)
Lemma overflow_regions hc d p :
  hc_valid hc → regions hc d p →
  wp (hc_check_overflow hc)
     (λ hc' m', m' = m ∧ hc_valid hc' ∧ hc_end hc' = hc_end hc ∧ hc_end hc' - hc_base hc' ≤ GB 2 ∧
        ∃ older d' p', d ++ p = older ++ d' ++ p' ∧ regions hc' d' p' ∧
          (∃ k, p' = drop k p) ∧ Z.min (zlen p) (KB 64) ≤ zlen p') m.
Proof.
  intros V R. pose proof R as [R1 R2 R3 R4 R5 R6].
  eapply wp_mono; [apply check_overflow_spec; [done|by eapply regions_mapped]|].
  intros hc' m' (-> & V' & E1 & E2 & Hor). split_and!; try done. destruct Hor as [->|(L1 & L2 & L3)].
  - exists [], d, p. split_and!; try done; [by exists 0%nat|lia].
  - rewrite <- R3 in L3. set (n := Z.min (zlen p) (KB 64)) in *. set (k := Z.to_nat (zlen p - n)).
    assert (Hn : 0 ≤ n ≤ zlen p) by (unfold n, KB; lia).
    assert (Hl : zlen (drop k p) = n) by (rewrite length_drop; unfold k; lia).
    exists (d ++ take k p), [], (drop k p). rewrite <- app_assoc, app_nil_l, take_drop, Hl.
    split; [done|]. split; [|split; [by exists k|lia]].
    assert (Hb : hc_base hc' + dictLimit hc' = hc_base hc + dictLimit hc + Z.of_nat k) by (unfold k; lia).
    unfold apart in *. constructor; unfold apart; rewrite ?L2, ?L1, ?Hb, ?Hl; simpl; try lia.
    + apply intact_nil.
    + by apply intact_suffix.
Qed.

(** A block elsewhere makes the prefix the external dictionary. *)
Lemma external_regions hc d p :
  hc_valid hc → regions hc d p →
  wp (if negb (source =? hc_end hc) then LZ4HC_setExternalDict hc source else ret hc)
     (λ hc' m', m' = m ∧ hc_valid hc' ∧ hc_end hc' = source ∧
        source - hc_base hc' = hc_end hc - hc_base hc ∧
        (regions hc' d p ∨ regions hc' p [] ∧ dictBase hc' + lowLimit hc' = hc_base hc + dictLimit hc)) m.
Proof.
  intros V R. pose proof R as [R1 R2 R3 R4 R5 R6]. destruct (Z.eqb_spec source (hc_end hc)) as [Hs|Hs]; cbn [negb].
  - apply wp_ret. split_and!; try done; [lia|]. by left.
  - eapply wp_mono; [apply setExternalDict_spec; [done|by eapply regions_mapped]|].
    intros hc' m' (-> & V' & E1 & E2 & E3 & E4 & E5). split_and!; try done; [lia|right].
    split; [|lia]. pose proof (ca_apart _ _ _ _ _ A). unfold apart in *.
    constructor; unfold apart; rewrite ?E1, ?E2, ?E3, ?E4, ?E5; simpl; try done; lia.
Qed.

(** What the block was written over is given up, and the rest is in memory. *)
Lemma overlap_args hc d p :
  hc_valid hc → hc_end hc = source → regions hc d p →
  let hc' := hc_check_overlap hc source (zlen x) in
  hc_valid hc' ∧ hc_end hc' = source ∧ hc_base hc' = hc_base hc ∧
  ∃ k, hc_args m hc' source dest (drop k d ++ p) x cap ∧
    (apart (dictBase hc + lowLimit hc) (zlen d) source (zlen x) → k = 0%nat).
Proof.
  intros V He [R1 R2 R3 R4 R5 R6] hc'.
  destruct (check_overlap_spec hc source (zlen x) V ltac:(lia)) as (V' & E1 & E2 & E3 & E4 & E5 & E6).
  fold hc' in V', E1, E2, E3, E4, E5, E6. split; [done|]. split; [congruence|]. split; [done|].
  set (k := Z.to_nat (lowLimit hc' - lowLimit hc)). exists k. split.
  - assert (Hl : zlen (drop k d) = dictLimit hc' - lowLimit hc') by (rewrite length_drop; unfold k; lia).
    assert (Hb : dictBase hc' + lowLimit hc' = dictBase hc + lowLimit hc + Z.of_nat k) by (unfold k; lia).
    constructor; [done| |rewrite Hb, <- Hl, length_drop; unfold apart in *; lia|rewrite E1, E2, E4, <- R3; done].
    exists (drop k d), p. rewrite E1, E2, E4. split_and!; try done; try lia.
    + rewrite Hb. destruct E6 as [E6|E6].
      * assert (drop k d = []) as -> by (apply nil_length_inv; lia). done.
      * eapply intact_drop; [exact R2|]. by rewrite Hl, <- Hb.
    + assert (H0 := intact_drop m _ p source (zlen x) 0 R4). rewrite drop_0, Z.add_0_r in H0. apply H0.
      left. lia.
  - intros Ha. unfold k, hc', hc_check_overlap. destruct V as [V1 V2 V3 V4 V5]. unfold apart in Ha.
    case_if; zbool; [|lia]. lia.
Qed.

(** The context a block is compressed with remembers the end of what it came with. *)
Lemma hc_prepare_spec hc d p :
  hc_base hc = NULL ∧ d = [] ∧ p = [] ∨ hc_valid hc ∧ regions hc d p →
  wp (hc_prepare hc source (zlen x))
     (λ hc1 m', m' = m ∧ hc_valid hc1 ∧ hc_end hc1 = source ∧ source - hc_base hc1 ≤ GB 2 ∧
        ∃ older hist, d ++ p = older ++ hist ∧ hc_args m hc1 source dest hist x cap ∧
          (hc_base hc ≠ NULL → apart (hc_base hc + dictLimit hc) (zlen p) source (zlen x) →
           Z.min (zlen p) (KB 64) ≤ zlen hist)) m.
Proof.
  intros Hv. unfold hc_prepare.
  set (hc0 := if hc_base hc =? NULL then LZ4HC_init hc source else hc).
  assert (V0 : hc_valid hc0 ∧ ∃ older0 d0 p0, d ++ p = older0 ++ d0 ++ p0 ∧ regions hc0 d0 p0 ∧
    (hc_base hc ≠ NULL → hc0 = hc ∧ p0 = p)).
  { unfold hc0. destruct (Z.eqb_spec (hc_base hc) NULL) as [Hn|Hn].
    - split; [apply hc_init_valid|]. exists (d ++ p), [], []. split; [by rewrite !app_nil_r|].
      split; [apply init_regions|done].
    - destruct Hv as [[? _]|[V R]]; [done|]. split; [done|]. by exists [], d, p. }
  clearbody hc0. destruct V0 as (V0 & older0 & d0 & p0 & Hh0 & R0 & Hp0).
  eapply wp_seq; [by apply overflow_regions|].
  intros hc2 m' (-> & V2 & E2 & S2 & older & d2 & p2 & Hh & R2 & (k & Hk) & Hlen).
  eapply wp_seq; [by apply external_regions|]. intros hc3 m' (-> & V3 & E3 & S3 & Hor). apply wp_ret.
  rewrite Hh0, Hh. destruct Hor as [R3|[R3 Hdb]];
    destruct (overlap_args _ _ _ V3 E3 R3) as (V4 & E4 & B4 & j & G & Hj);
    (split; [done|]); (split; [done|]); (split; [done|]); (split; [lia|]).
  - exists (older0 ++ older ++ take j d2), (drop j d2 ++ p2).
    split; [by rewrite <- !app_assoc, (app_assoc (take j d2)), take_drop|].
    split; [done|]. intros Hn _. destruct (Hp0 Hn) as [-> ->]. rewrite length_app. lia.
  - exists (older0 ++ older ++ d2 ++ take j p2), (drop j p2 ++ []).
    split; [by rewrite app_nil_r, <- !app_assoc, take_drop|]. split; [done|]. intros Hn Ha.
    destruct (Hp0 Hn) as [-> ->]. rewrite app_nil_r.
    pose proof (hr_prefix_size _ _ _ _ _ _ _ _ R0). pose proof (hr_prefix_size _ _ _ _ _ _ _ _ R2).
    assert (zlen p2 ≤ zlen p) by (rewrite Hk, length_drop; lia).
    rewrite Hj; [by rewrite drop_0|]. unfold apart in *. lia.
Qed.

End prepare.

(** C38: [LZ4_compress_HC_continue] on a fresh context, or on a valid one whose
    external dictionary and prefix hold the texts [d] and [p], writes a well-formed
    block with text [x] after [d ++ p], or returns 0 when the destination is smaller
    than [LZ4_compressBound]; it stays in the destination.  The block may have been
    written anywhere over [d] and [p]: what it covers is not referred to.  The
    context that is left is valid and its history, in its external dictionary and
    its prefix, is the end of [d ++ p ++ x]: at least [x], and up to 64 KB of [p]
    before it when the block was not written over [p].  A destination smaller than
    [LZ4_compressBound] is for blocks of at most 4 KB. *)
Theorem LZ4_compress_HC_continue_block m hc (source dest maxOutputSize : Z) (d p x : list byte) :
  comp_args m source dest x maxOutputSize →
  hc_base hc = NULL ∧ d = [] ∧ p = [] ∨
    hc_valid hc ∧ hc_regions m hc source (zlen x) dest maxOutputSize d p →
  maxOutputSize < 2 ^ 31 → LZ4_compressBound (zlen x) ≤ maxOutputSize ∨ zlen x ≤ KB 4 →
  ∃ hc' n m',
    LZ4_compress_HC_continue hc source dest (zlen x) maxOutputSize m = Ret (hc', n) m' ∧
    frame dest (dest + maxOutputSize) m m' ∧
    (n = 0 ∧ maxOutputSize < LZ4_compressBound (zlen x) ∨ block_at m' dest maxOutputSize (d ++ p) x n) ∧
    hc_valid hc' ∧ hc_end hc' = source + zlen x ∧
    ∃ older hist : list byte, d ++ p = older ++ hist ∧ hc_hist m' hc' (hist ++ x) ∧
      (hc_base hc ≠ NULL → apart (hc_base hc + dictLimit hc) (zlen p) source (zlen x) →
       Z.min (zlen p) (KB 64) ≤ zlen hist).
Proof.
  intros A Hv Hmax Hroom. pose proof (hc_prepare_spec m source dest maxOutputSize x A hc d p Hv) as Hp.
  apply wp_result in Hp as (hc1 & m1 & Hr & -> & V1 & E1 & S1 & older & hist & Hh & G & Hlong).
  assert (Hblock : ∀ lim,
    LZ4_compressBound (zlen x) ≤ maxOutputSize ∨ is_limited lim = true ∧ zlen x ≤ HC_SMALL_INPUT →
    ∃ hc' n m', LZ4_compressHC_continue_generic hc source dest (zlen x) maxOutputSize lim m
        = Ret (hc', n) m' ∧
      frame dest (dest + maxOutputSize) m m' ∧
      (n = 0 ∧ maxOutputSize < LZ4_compressBound (zlen x) ∨ block_at m' dest maxOutputSize hist x n) ∧
      hc_valid hc' ∧ hc_end hc' = source + zlen x ∧ hc_hist m' hc' (hist ++ x)).
  { intros lim Hl. unfold LZ4_compressHC_continue_generic, bind. rewrite Hr.
    pose proof (hc_block_spec m hc1 source dest maxOutputSize (s32 (compressionLevel hc1)) lim hist x
      V1 E1 G S1 Hmax Hl) as Hb.
    apply wp_result in Hb as ([hc' n] & m' & Hrun & Hpost). by exists hc', n, m'. }
  assert (Hrun : ∃ lim, LZ4_compress_HC_continue hc source dest (zlen x) maxOutputSize =
      LZ4_compressHC_continue_generic hc source dest (zlen x) maxOutputSize lim ∧
    (LZ4_compressBound (zlen x) ≤ maxOutputSize ∨ is_limited lim = true ∧ zlen x ≤ HC_SMALL_INPUT)).
  { unfold LZ4_compress_HC_continue. case_if; zbool; eexists; (split; [reflexivity|]);
      [right; split; [done|unfold HC_SMALL_INPUT; lia]|left; lia]. }
  destruct Hrun as (lim & -> & Hl). destruct (Hblock lim Hl) as (hc' & n & m' & H1 & H2 & H3 & H4 & H5 & H6).
  exists hc', n, m'. split_and!; try done; [|by exists older, hist].
  destruct H3 as [H3|H3]; [by left|right]. rewrite Hh. by apply block_at_extend.
Qed.

(** [LZ4_loadDictHC] makes the last 64 KB of the dictionary given the history
    of a valid context, and returns its size. *)
Theorem LZ4_loadDictHC_ok m hc (d : Z) (dict : list byte) :
  bytes_at m d dict →
  ∃ hc' n, LZ4_loadDictHC hc d (zlen dict) m = Ret (hc', n) m ∧ hc_valid hc' ∧
    n = Z.min (zlen dict) (KB 64) ∧ hc_end hc' = d + zlen dict ∧
    hc_hist m hc' (drop (Z.to_nat (zlen dict - n)) dict).
Proof.
  intros Hb. pose proof (loadDictHC_spec m hc d (zlen dict) ltac:(lia) (bytes_at_mapped _ _ _ Hb)) as H.
  apply wp_result in H as ([hc' n] & m' & Hr & -> & V & Hn & E1 & E2 & E3 & E4 & _).
  exists hc', n. split_and!; try done. unfold KB in *.
  exists [], (drop (Z.to_nat (zlen dict - n)) dict). rewrite E1, E2, E3, E4, E1, length_drop.
  split_and!; try done; simpl; try lia.
  rewrite <- (take_drop (Z.to_nat (zlen dict - n)) dict) in Hb.
  apply bytes_at_app in Hb as [_ Hb]. rewrite length_take_le in Hb by lia.
  by replace (d + zlen dict - n - 64 * 1024 + 64 * 1024) with (d + Z.of_nat (Z.to_nat (zlen dict - n))) by lia.
Qed.

(** [LZ4_saveDictHC] copies the end of the prefix, at most 64 KB and at most
    what is asked for, to the buffer given; that is the history of the context
    it leaves, which stays valid. *)
Theorem LZ4_saveDictHC_ok m hc (safeBuffer dictSize : Z) (p : list byte) :
  let n := Z.min (if dictSize <? 4 then 0 else Z.min dictSize (KB 64)) (zlen p) in
  hc_valid hc → zlen p = hc_end hc - hc_base hc - dictLimit hc → zlen p < 2 ^ 31 →
  bytes_at m (hc_base hc + dictLimit hc) p → mapped m safeBuffer n →
  ∃ hc' m', LZ4_saveDictHC hc safeBuffer dictSize m = Ret (hc', n) m' ∧
    frame safeBuffer (safeBuffer + n) m m' ∧ hc_valid hc' ∧
    hc_end hc' = safeBuffer + n ∧ hc_hist m' hc' (drop (Z.to_nat (zlen p - n)) p).
Proof.
  intros n [V1 V2 V3 V4 V5] Hp Hsz Hb Hm. unfold LZ4_saveDictHC.
  rewrite s32_small by lia.
  replace (hc_end hc - (hc_base hc + dictLimit hc)) with (zlen p) by lia.
  assert (Hn : ∀ k, k = (if dictSize >? KB 64 then KB 64 else dictSize) →
    (if (if k <? 4 then 0 else k) >? zlen p then zlen p else if k <? 4 then 0 else k) = n).
  { intros k ->. unfold n, KB. destruct (dictSize >? 64 * 1024) eqn:E1; zbool;
      destruct (Z.ltb_spec dictSize 4); simpl; repeat case_if; zbool; lia. }
  rewrite (Hn _ eq_refl). assert (Hn0 : 0 ≤ n ≤ zlen p) by (unfold n, KB; case_if; zbool; lia).
  clearbody n. unfold KB in *.
  assert (Hs : bytes_at m (hc_end hc - n) (drop (Z.to_nat (zlen p - n)) p)).
  { rewrite <- (take_drop (Z.to_nat (zlen p - n)) p) in Hb.
    apply bytes_at_app in Hb as [_ Hb]. rewrite length_take_le in Hb by lia.
    by replace (hc_base hc + dictLimit hc + Z.of_nat (Z.to_nat (zlen p - n)))
      with (hc_end hc - n) in Hb by lia. }
  pose proof (memmove_spec safeBuffer (hc_end hc - n) n m ltac:(lia)) as Hmv.
  apply wp_result in Hmv as ([] & m' & Hrun & F & Hc);
    [|apply (mapped_sub _ _ _ _ _ (bytes_at_mapped _ _ _ Hs)); rewrite ?length_drop; lia|done].
  unfold bind. rewrite Hrun. do 2 eexists. split; [reflexivity|]. split; [done|].
  rewrite !u32_small by lia. set (L := hc_end hc - hc_base hc) in *.
  set (next := if nextToUpdate hc <? L - n then L - n else nextToUpdate hc).
  assert (Hnx : next = Z.max (nextToUpdate hc) (L - n)) by (unfold next; case_if; zbool; lia).
  split; [|split; [done|]].
  - constructor; simpl; unfold KB; fold next; try lia.
    eapply chains_narrow; [exact V5|lia| |lia|]; intros v; unfold live; lia.
  - exists [], (drop (Z.to_nat (zlen p - n)) p). simpl. rewrite length_drop.
    split_and!; try done; try lia.
    replace (safeBuffer + n - L + (L - n)) with safeBuffer by lia.
    eapply bytes_at_copy; [|exact Hs]. intros i Hi. apply Hc. rewrite length_drop in Hi. lia.
Qed.

End hc_api.
