(* ===== verification/Lz4HcExamples.v ===== *)
(** Concrete runs of LZ4 HC: instances of the theorems of [Lz4HcApi], and the
    lengths for which the test on the output limit is too weak. *)

From Stdlib Require Import ZArith Lia Strings.Byte.
From stdpp Require Import base gmap list fin_maps numbers.
From S2P Require Import Prelude Mem Lz4Common Lz4Format Lz4Decompress Lz4DecompressApi Lz4Compress Lz4Text Lz4CompressProofs Lz4CompressApi Lz4Hc Lz4HcProofs Lz4HcApi.

(** Three letters repeated, 30 bytes, at 70000; 100 bytes of destination at
    80000 and 64 bytes at 90000. *)
Definition hx_text : list byte := concat (replicate 10 (bytes_of [97; 98; 99])).

Definition hx_mem : mem :=
  place 70000 hx_text
    (place 80000 (replicate 100 x00) (place 90000 (replicate 64 x00) ∅)).

(** A context that was never used. *)
Definition hx_ctx : LZ4HC_Data_Structure := HC ∅ ∅ 0 0 0 0 0 0 0 0.

Lemma hx_args (cap : Z) : 0 ≤ cap ≤ 100 → comp_args hx_mem 70000 80000 hx_text cap.
Proof.
  intros Hc. constructor.
  - ground.
  - apply (mapped_sub hx_mem 80000 100); [ground|lia|lia].
  - left. change (zlen hx_text) with 30. lia.
  - lia.
  - ground.
  - ground.
Qed.

Lemma LZ4_compress_HC_complete_witness :
  ∃ n m', @LZ4_compress_HC x86_64 8 hx_ctx 70000 80000 (zlen hx_text) 100 9 hx_mem = Ret n m' ∧
    frame 80000 (80000 + 100) hx_mem m' ∧ 0 < n ≤ 100 ∧
    ∃ seqs l, end_ok seqs l ∧ block_text [] seqs l = Some hx_text ∧
      n = zlen (block seqs l) ∧ bytes_at m' 80000 (block seqs l).
Proof.
  apply (@LZ4_compress_HC_complete x86_64 hx_mem 8 hx_ctx 70000 80000 100 9 hx_text);
    [ground|apply hx_args; lia|ground|ground].
Defined.

Lemma LZ4_compress_HC_limited_witness :
  ∃ n m', @LZ4_compress_HC x86_64 8 hx_ctx 70000 80000 (zlen hx_text) 20 9 hx_mem = Ret n m' ∧
    frame 80000 (80000 + 20) hx_mem m' ∧
    (n = 0 ∨ 0 < n ≤ 20 ∧
     ∃ seqs l, end_ok seqs l ∧ block_text [] seqs l = Some hx_text ∧
       n = zlen (block seqs l) ∧ bytes_at m' 80000 (block seqs l)).
Proof.
  apply (@LZ4_compress_HC_limited x86_64 hx_mem 8 hx_ctx 70000 80000 20 9 hx_text);
    [ground|apply hx_args; lia|ground|ground].
Defined.

Lemma LZ4_compress_HC_roundtrip_witness :
  ∃ n m1 m2,
    @LZ4_compress_HC x86_64 8 hx_ctx 70000 80000 (zlen hx_text) (LZ4_compressBound (zlen hx_text)) 9
      hx_mem = Ret n m1 ∧
    @LZ4_decompress_safe x86_64 80000 90000 n (zlen hx_text + 1) m1 = Ret (zlen hx_text) m2 ∧
    bytes_at m2 90000 hx_text.
Proof.
  apply (@LZ4_compress_HC_roundtrip x86_64 hx_mem 8 hx_ctx 70000 80000 90000 9 hx_text);
    [ground|apply hx_args; split; ground|ground..].
Defined.

Lemma LZ4_loadDictHC_ok_witness :
  ∃ hc' n, @LZ4_loadDictHC x86_64 hx_ctx 70000 (zlen hx_text) hx_mem = Ret (hc', n) hx_mem ∧
    hc_valid hc' ∧ n = Z.min (zlen hx_text) (KB 64) ∧ hc_end hc' = 70000 + zlen hx_text ∧
    hc_hist hx_mem hc' (drop (Z.to_nat (zlen hx_text - n)) hx_text).
Proof. apply (@LZ4_loadDictHC_ok x86_64 hx_mem hx_ctx 70000 hx_text). ground. Defined.

(** A context whose prefix is the text. *)
Definition hx_prefix : LZ4HC_Data_Structure :=
  with_window (LZ4HC_init hx_ctx 70000) 70030 (70000 - KB 64) (70000 - KB 64) (KB 64) (KB 64) (KB 64).

Lemma hx_prefix_valid : hc_valid hx_prefix.
Proof. constructor; simpl; unfold KB; try lia. apply chains_empty; lia. Qed.

Lemma LZ4_saveDictHC_ok_witness :
  ∃ hc' m', LZ4_saveDictHC hx_prefix 90000 20 hx_mem = Ret (hc', 20) m' ∧
    frame 90000 (90000 + 20) hx_mem m' ∧ hc_valid hc' ∧ hc_end hc' = 90000 + 20 ∧
    hc_hist m' hc' (drop (Z.to_nat (zlen hx_text - 20)) hx_text).
Proof.
  apply (LZ4_saveDictHC_ok hx_mem hx_prefix 90000 20 hx_text hx_prefix_valid); ground.
Defined.

(** The next block of such a stream: 15 bytes that were written over the first
    half of the prefix. *)
Definition hx_block : list byte := drop 15 hx_text.

Definition hx_smem : mem := place 70000 hx_block hx_mem.

Lemma hx_block_args : comp_args hx_smem 70000 80000 hx_block 100.
Proof. constructor; ground. Qed.

Lemma hx_block_regions : hc_regions hx_smem hx_prefix 70000 (zlen hx_block) 80000 100 [] hx_text.
Proof.
  constructor; [ground|apply intact_nil|ground| |left; ground|left; ground].
  change hx_text with (take 15 hx_text ++ drop 15 hx_text). apply intact_over; ground.
Qed.

Lemma LZ4_compress_HC_continue_block_witness :
  ∃ hc' n m',
    @LZ4_compress_HC_continue x86_64 hx_prefix 70000 80000 (zlen hx_block) 100 hx_smem = Ret (hc', n) m' ∧
    frame 80000 (80000 + 100) hx_smem m' ∧
    (n = 0 ∧ 100 < LZ4_compressBound (zlen hx_block) ∨ block_at m' 80000 100 ([] ++ hx_text) hx_block n) ∧
    hc_valid hc' ∧ hc_end hc' = 70000 + zlen hx_block ∧
    ∃ older hist : list byte, [] ++ hx_text = older ++ hist ∧ hc_hist m' hc' (hist ++ hx_block) ∧
      (hc_base hx_prefix ≠ NULL →
       apart (hc_base hx_prefix + dictLimit hx_prefix) (zlen hx_text) 70000 (zlen hx_block) →
       Z.min (zlen hx_text) (KB 64) ≤ zlen hist).
Proof.
  apply (@LZ4_compress_HC_continue_block x86_64 hx_smem hx_prefix 70000 80000 100 [] hx_text hx_block);
    [apply hx_block_args|right; split; [apply hx_prefix_valid|apply hx_block_regions]|ground|left; ground].
Defined.

(** * The test on the output limit *)

(** 5640 bytes to encode, and 5655 bytes of output. *)
Definition hx_long : mem :=
  place 100000 (replicate 5640 x00) (place 200000 (replicate 5655 x00) ∅).

(** With a limited output, [LZ4HC_encodeSequence] may write past the limit:
    its test counts one byte for 256 literals where the format takes one for
    255.  A run of 5625 literals for which the test is just met is copied one
    byte past the end of the output. *)
Theorem LZ4HC_encodeSequence_overrun :
  (200000 + 1 + Z.shiftr 5625 8 + 5625 + (2 + 1 + LASTLITERALS) >? 200000 + 5655) = false ∧
  mapped hx_long 200000 5655 ∧ mapped hx_long 100000 5640 ∧ hx_long !! 205655 = None ∧
  @LZ4HC_encodeSequence x86_64 105625 200000 100000 4 100000 limitedOutput 205655 hx_long = Fault.
Proof. ground. Qed.
