(* ===== verification/Xxhash.v ===== *)
(** xxHash, the checksum of LZ4 frames (src/src/lz4/lib/xxhash.c): the one-shot
    functions [XXH32] and [XXH64] and the incremental ones ([_reset],
    [_update], [_digest]).

    The input is read from memory.  The state of the incremental functions is
    a record; its buffer [mem32] or [mem64] is the list of its bytes. *)

From Stdlib Require Import ZArith Lia Strings.Byte.
From stdpp Require Import base gmap list fin_maps numbers.
From S2P Require Import Prelude Mem Lz4Common.

(** * Words *)

Definition XXH_rotl32 (x r : Z) : Z := Z.lor (u32 (Z.shiftl x r)) (Z.shiftr x (32 - r)).
Definition XXH_rotl64 (x r : Z) : Z := Z.lor (u64 (Z.shiftl x r)) (Z.shiftr x (64 - r)).

Definition XXH_swap32 (x : Z) : Z :=
  Z.lor (Z.lor (Z.lor (Z.land (Z.shiftl x 24) 0xff000000)
                      (Z.land (Z.shiftl x 8) 0x00ff0000))
               (Z.land (Z.shiftr x 8) 0x0000ff00))
        (Z.land (Z.shiftr x 24) 0x000000ff).

Definition XXH_swap64 (x : Z) : Z :=
  Z.lor (Z.lor (Z.lor (Z.lor (Z.lor (Z.lor (Z.lor
    (Z.land (Z.shiftl x 56) 0xff00000000000000)
    (Z.land (Z.shiftl x 40) 0x00ff000000000000))
    (Z.land (Z.shiftl x 24) 0x0000ff0000000000))
    (Z.land (Z.shiftl x 8) 0x000000ff00000000))
    (Z.land (Z.shiftr x 8) 0x00000000ff000000))
    (Z.land (Z.shiftr x 24) 0x0000000000ff0000))
    (Z.land (Z.shiftr x 40) 0x000000000000ff00))
    (Z.land (Z.shiftr x 56) 0x00000000000000ff).

Inductive XXH_endianess : Type := XXH_bigEndian | XXH_littleEndian.
Inductive XXH_alignment : Type := XXH_aligned | XXH_unaligned.

Definition is_little (e : XXH_endianess) : bool :=
  match e with XXH_littleEndian => true | XXH_bigEndian => false end.

Definition PRIME32_1 : Z := 2654435761.
Definition PRIME32_2 : Z := 2246822519.
Definition PRIME32_3 : Z := 3266489917.
Definition PRIME32_4 : Z := 668265263.
Definition PRIME32_5 : Z := 374761393.

Definition PRIME64_1 : Z := 11400714785074694791.
Definition PRIME64_2 : Z := 14029467366897019727.
Definition PRIME64_3 : Z := 1609587929392839161.
Definition PRIME64_4 : Z := 9650029242287828579.
Definition PRIME64_5 : Z := 2870177450012600261.

(** The accumulators [v1] to [v4]. *)
Record lanes : Type := Lanes { v1 : Z; v2 : Z; v3 : Z; v4 : Z }.

(** [v += input * PRIME_2; v = rotl(v, r); v *= PRIME_1] *)
Definition round32 (v input : Z) : Z :=
  let v := u32 (v + input * PRIME32_2) in
  let v := XXH_rotl32 v 13 in
  u32 (v * PRIME32_1).

Definition round64 (v input : Z) : Z :=
  let v := u64 (v + u64 (input * PRIME64_2)) in
  let v := XXH_rotl64 v 31 in
  u64 (v * PRIME64_1).

Definition init32 (seed : Z) : lanes :=
  {| v1 := u32 (seed + PRIME32_1 + PRIME32_2); v2 := u32 (seed + PRIME32_2);
     v3 := u32 (seed + 0); v4 := u32 (seed - PRIME32_1) |}.

Definition init64 (seed : Z) : lanes :=
  {| v1 := u64 (seed + PRIME64_1 + PRIME64_2); v2 := u64 (seed + PRIME64_2);
     v3 := u64 (seed + 0); v4 := u64 (seed - PRIME64_1) |}.

(** [rotl(v1, 1) + rotl(v2, 7) + rotl(v3, 12) + rotl(v4, 18)] *)
Definition converge32 (v : lanes) : Z :=
  u32 (XXH_rotl32 (v1 v) 1 + XXH_rotl32 (v2 v) 7 + XXH_rotl32 (v3 v) 12 + XXH_rotl32 (v4 v) 18).

(** [v *= PRIME64_2; v = rotl(v, 31); v *= PRIME64_1; h64 ^= v;
     h64 = h64 * PRIME64_1 + PRIME64_4] *)
Definition merge64 (h64 v : Z) : Z :=
  let v := u64 (v * PRIME64_2) in
  let v := XXH_rotl64 v 31 in
  let v := u64 (v * PRIME64_1) in
  let h64 := Z.lxor h64 v in
  u64 (h64 * PRIME64_1 + PRIME64_4).

Definition converge64 (v : lanes) : Z :=
  let h64 := u64 (XXH_rotl64 (v1 v) 1 + XXH_rotl64 (v2 v) 7
                  + XXH_rotl64 (v3 v) 12 + XXH_rotl64 (v4 v) 18) in
  let h64 := merge64 h64 (v1 v) in
  let h64 := merge64 h64 (v2 v) in
  let h64 := merge64 h64 (v3 v) in
  merge64 h64 (v4 v).

(** The last steps, which mix all the bits. *)
Definition avalanche32 (h32 : Z) : Z :=
  let h32 := Z.lxor h32 (Z.shiftr h32 15) in
  let h32 := u32 (h32 * PRIME32_2) in
  let h32 := Z.lxor h32 (Z.shiftr h32 13) in
  let h32 := u32 (h32 * PRIME32_3) in
  Z.lxor h32 (Z.shiftr h32 16).

Definition avalanche64 (h64 : Z) : Z :=
  let h64 := Z.lxor h64 (Z.shiftr h64 33) in
  let h64 := u64 (h64 * PRIME64_2) in
  let h64 := Z.lxor h64 (Z.shiftr h64 29) in
  let h64 := u64 (h64 * PRIME64_3) in
  Z.lxor h64 (Z.shiftr h64 32).

(** One word or byte of the rest of the input. *)
Definition step32_word (h32 k : Z) : Z :=
  let h32 := u32 (h32 + k * PRIME32_3) in u32 (XXH_rotl32 h32 17 * PRIME32_4).

Definition step32_byte (h32 k : Z) : Z :=
  let h32 := u32 (h32 + k * PRIME32_5) in u32 (XXH_rotl32 h32 11 * PRIME32_1).

Definition step64_word (h64 k1 : Z) : Z :=
  let k1 := u64 (k1 * PRIME64_2) in
  let k1 := XXH_rotl64 k1 31 in
  let k1 := u64 (k1 * PRIME64_1) in
  let h64 := Z.lxor h64 k1 in
  u64 (XXH_rotl64 h64 27 * PRIME64_1 + PRIME64_4).

Definition step64_half (h64 k : Z) : Z :=
  let h64 := Z.lxor h64 (u64 (k * PRIME64_1)) in
  u64 (XXH_rotl64 h64 23 * PRIME64_2 + PRIME64_3).

Definition step64_byte (h64 k : Z) : Z :=
  let h64 := Z.lxor h64 (u64 (k * PRIME64_5)) in
  u64 (XXH_rotl64 h64 11 * PRIME64_1).

Section xxh.
Context {arch : Arch}.

(** * Memory reads *)

Definition XXH_read32 (memPtr : Z) : prog Z :=
  let! l := load_bytes memPtr 4 in ret (native l).

Definition XXH_read64 (memPtr : Z) : prog Z :=
  let! l := load_bytes memPtr 8 in ret (native l).

(** The aligned read is an access through a [U32*], the unaligned one a
    [memcpy]; both give the word the target reads there. *)
Definition XXH_readLE32_align (ptr : Z) (endian : XXH_endianess) (align : XXH_alignment) : prog Z :=
  match align with
  | XXH_unaligned | XXH_aligned =>
      let! v := XXH_read32 ptr in
      ret (if is_little endian then v else XXH_swap32 v)
  end.

Definition XXH_readLE32 (ptr : Z) (endian : XXH_endianess) : prog Z :=
  XXH_readLE32_align ptr endian XXH_unaligned.

Definition XXH_readLE64_align (ptr : Z) (endian : XXH_endianess) (align : XXH_alignment) : prog Z :=
  match align with
  | XXH_unaligned | XXH_aligned =>
      let! v := XXH_read64 ptr in
      ret (if is_little endian then v else XXH_swap64 v)
  end.

Definition XXH_readLE64 (ptr : Z) (endian : XXH_endianess) : prog Z :=
  XXH_readLE64_align ptr endian XXH_unaligned.

(** The same reads in the buffer of a state. *)
Definition buf_readLE32 (buf : list byte) (i : nat) (endian : XXH_endianess) : Z :=
  let v := native (take 4 (drop i buf)) in if is_little endian then v else XXH_swap32 v.

Definition buf_readLE64 (buf : list byte) (i : nat) (endian : XXH_endianess) : Z :=
  let v := native (take 8 (drop i buf)) in if is_little endian then v else XXH_swap64 v.

(** * One-shot functions *)

(** The body of the [do .. while] loops: four words of input. *)
Definition stripe32 (p : Z) (v : lanes) (endian : XXH_endianess) (align : XXH_alignment) :
    prog lanes :=
  let! k1 := XXH_readLE32_align p endian align in
  let! k2 := XXH_readLE32_align (p + 4) endian align in
  let! k3 := XXH_readLE32_align (p + 8) endian align in
  let! k4 := XXH_readLE32_align (p + 12) endian align in
  ret {| v1 := round32 (v1 v) k1; v2 := round32 (v2 v) k2;
         v3 := round32 (v3 v) k3; v4 := round32 (v4 v) k4 |}.

Definition stripe64 (p : Z) (v : lanes) (endian : XXH_endianess) (align : XXH_alignment) :
    prog lanes :=
  let! k1 := XXH_readLE64_align p endian align in
  let! k2 := XXH_readLE64_align (p + 8) endian align in
  let! k3 := XXH_readLE64_align (p + 16) endian align in
  let! k4 := XXH_readLE64_align (p + 24) endian align in
  ret {| v1 := round64 (v1 v) k1; v2 := round64 (v2 v) k2;
         v3 := round64 (v3 v) k3; v4 := round64 (v4 v) k4 |}.

(** [do { .. p += width; } while (p<=limit);] *)
Fixpoint stripe_loop (fuel : nat) (stripe : Z → lanes → prog lanes) (width p limit : Z)
    (v : lanes) : prog (Z * lanes) :=
  match fuel with
  | O => nofuel
  | S fuel =>
      let! v := stripe p v in
      let p := p + width in
      if p <=? limit then stripe_loop fuel stripe width p limit v else ret (p, v)
  end.

(** [while (p+width<=bEnd) { .. p+=width; }] *)
Fixpoint word_loop (fuel : nat) (read : Z → prog Z) (step : Z → Z → Z) (width p bEnd h : Z) :
    prog (Z * Z) :=
  match fuel with
  | O => nofuel
  | S fuel =>
      if p + width <=? bEnd then
        let! k := read p in
        word_loop fuel read step width (p + width) bEnd (step h k)
      else ret (p, h)
  end.

Definition XXH32_endian_align (input len seed : Z) (endian : XXH_endianess)
    (align : XXH_alignment) : prog Z :=
  let p := input in
  let bEnd := p + len in
  let fuel := S (Z.to_nat len) in
  let! (p, h32) :=
    (if len >=? 16 then
       let limit := bEnd - 16 in
       let! (p, v) := stripe_loop fuel (λ p v, stripe32 p v endian align) 16 p limit (init32 seed) in
       ret (p, converge32 v)
     else ret (p, u32 (seed + PRIME32_5))) in
  let h32 := u32 (h32 + u32 len) in
  let! (p, h32) := word_loop fuel (λ p, XXH_readLE32_align p endian align) step32_word 4 p bEnd h32 in
  let! (p, h32) := word_loop fuel load8 step32_byte 1 p bEnd h32 in
  ret (avalanche32 h32).

Definition XXH64_endian_align (input len seed : Z) (endian : XXH_endianess)
    (align : XXH_alignment) : prog Z :=
  let p := input in
  let bEnd := p + len in
  let fuel := S (Z.to_nat len) in
  let! (p, h64) :=
    (if len >=? 32 then
       let limit := bEnd - 32 in
       let! (p, v) := stripe_loop fuel (λ p v, stripe64 p v endian align) 32 p limit (init64 seed) in
       ret (p, converge64 v)
     else ret (p, u64 (seed + PRIME64_5))) in
  let h64 := u64 (h64 + len) in
  let! (p, h64) := word_loop fuel (λ p, XXH_readLE64_align p endian align) step64_word 8 p bEnd h64 in
  let! (p, h64) :=
    (if p + 4 <=? bEnd then
       let! k := XXH_readLE32_align p endian align in ret (p + 4, step64_half h64 k)
     else ret (p, h64)) in
  let! (p, h64) := word_loop fuel load8 step64_byte 1 p bEnd h64 in
  ret (avalanche64 h64).

(** [XXH_CPU_LITTLE_ENDIAN] *)
Definition endian_detected : XXH_endianess :=
  if LZ4_isLittleEndian then XXH_littleEndian else XXH_bigEndian.

(** [unaligned_access] is [XXH_USE_UNALIGNED_ACCESS]. *)
Definition XXH32 (unaligned_access : bool) (input len seed : Z) : prog Z :=
  if negb unaligned_access && (Z.land input 3 =? 0)
  then XXH32_endian_align input len seed endian_detected XXH_aligned
  else XXH32_endian_align input len seed endian_detected XXH_unaligned.

Definition XXH64 (unaligned_access : bool) (input len seed : Z) : prog Z :=
  if negb unaligned_access && (Z.land input 7 =? 0)
  then XXH64_endian_align input len seed endian_detected XXH_aligned
  else XXH64_endian_align input len seed endian_detected XXH_unaligned.

(** * Incremental functions *)

(** [XXH_istate32_t] and [XXH_istate64_t]; the buffer is [mem32] or [mem64]. *)
Record XXH_istate : Type := IState {
  total_len : Z;
  seed : Z;
  vs : lanes;
  buf : list byte;
  memsize : Z
}.

Definition XXH32_reset (state : XXH_istate) (sd : Z) : XXH_istate :=
  {| total_len := 0; seed := sd; vs := init32 sd; buf := buf state; memsize := 0 |}.

Definition XXH64_reset (state : XXH_istate) (sd : Z) : XXH_istate :=
  {| total_len := 0; seed := sd; vs := init64 sd; buf := buf state; memsize := 0 |}.

(** [XXH_memcpy((BYTE* )buf + i, input, n)] *)
Definition copy_in (b : list byte) (i input n : Z) : prog (list byte) :=
  if (0 <=? i) && (i + n <=? zlen b) then
    let! l := load_bytes input (Z.to_nat n) in
    ret (take (Z.to_nat i) b ++ l ++ drop (Z.to_nat (i + n)) b)
  else fault.

Definition buf_stripe32 (b : list byte) (v : lanes) (endian : XXH_endianess) : lanes :=
  {| v1 := round32 (v1 v) (buf_readLE32 b 0 endian); v2 := round32 (v2 v) (buf_readLE32 b 4 endian);
     v3 := round32 (v3 v) (buf_readLE32 b 8 endian); v4 := round32 (v4 v) (buf_readLE32 b 12 endian) |}.

Definition buf_stripe64 (b : list byte) (v : lanes) (endian : XXH_endianess) : lanes :=
  {| v1 := round64 (v1 v) (buf_readLE64 b 0 endian); v2 := round64 (v2 v) (buf_readLE64 b 8 endian);
     v3 := round64 (v3 v) (buf_readLE64 b 16 endian);
     v4 := round64 (v4 v) (buf_readLE64 b 24 endian) |}.

Definition XXH32_update_endian (state : XXH_istate) (input len : Z) (endian : XXH_endianess) :
    prog XXH_istate :=
  let p := input in
  let bEnd := p + len in
  let total := u64 (total_len state + len) in
  if usize (memsize state + len) <? 16 then
    let! b := copy_in (buf state) (memsize state) input len in
    ret {| total_len := total; seed := seed state; vs := vs state; buf := b;
           memsize := u32 (memsize state + u32 len) |}
  else
    let! (p, v, b) :=
      (if negb (memsize state =? 0) then
         let! b := copy_in (buf state) (memsize state) input (16 - memsize state) in
         ret (p + (16 - memsize state), buf_stripe32 b (vs state) endian, b)
       else ret (p, vs state, buf state)) in
    let! (p, v) :=
      (if p <=? bEnd - 16 then
         stripe_loop (S (Z.to_nat len)) (λ p v, stripe32 p v endian XXH_unaligned) 16 p (bEnd - 16) v
       else ret (p, v)) in
    if p <? bEnd then
      let! b := copy_in b 0 p (bEnd - p) in
      ret {| total_len := total; seed := seed state; vs := v; buf := b; memsize := bEnd - p |}
    else ret {| total_len := total; seed := seed state; vs := v; buf := b; memsize := 0 |}.

Definition XXH64_update_endian (state : XXH_istate) (input len : Z) (endian : XXH_endianess) :
    prog XXH_istate :=
  let p := input in
  let bEnd := p + len in
  let total := u64 (total_len state + len) in
  if usize (memsize state + len) <? 32 then
    let! b := copy_in (buf state) (memsize state) input len in
    ret {| total_len := total; seed := seed state; vs := vs state; buf := b;
           memsize := u32 (memsize state + u32 len) |}
  else
    let! (p, v, b) :=
      (if negb (memsize state =? 0) then
         let! b := copy_in (buf state) (memsize state) input (32 - memsize state) in
         ret (p + (32 - memsize state), buf_stripe64 b (vs state) endian, b)
       else ret (p, vs state, buf state)) in
    let! (p, v) :=
      (if p + 32 <=? bEnd then
         stripe_loop (S (Z.to_nat len)) (λ p v, stripe64 p v endian XXH_unaligned) 32 p (bEnd - 32) v
       else ret (p, v)) in
    if p <? bEnd then
      let! b := copy_in b 0 p (bEnd - p) in
      ret {| total_len := total; seed := seed state; vs := v; buf := b; memsize := bEnd - p |}
    else ret {| total_len := total; seed := seed state; vs := v; buf := b; memsize := 0 |}.

Definition XXH32_update (state : XXH_istate) (input len : Z) : prog XXH_istate :=
  XXH32_update_endian state input len endian_detected.

Definition XXH64_update (state : XXH_istate) (input len : Z) : prog XXH_istate :=
  XXH64_update_endian state input len endian_detected.

(** The same loop over the first [n] bytes of a buffer, from [i] on: the index
    it stops at and the hash. *)
Fixpoint buf_word_loop (fuel : nat) (read : nat → Z) (step : Z → Z → Z) (width i n : nat) (h : Z) :
    nat * Z :=
  match fuel with
  | O => (i, h)
  | S fuel =>
      if (i + width <=? n)%nat then
        buf_word_loop fuel read step width (i + width) n (step h (read i))
      else (i, h)
  end.

Definition buf_byte (b : list byte) (i : nat) : Z := b2z (b !!! i).

Definition XXH32_digest_endian (state : XXH_istate) (endian : XXH_endianess) : Z :=
  let b := buf state in
  let n := Z.to_nat (memsize state) in
  let h32 := if total_len state >=? 16 then converge32 (vs state)
             else u32 (seed state + PRIME32_5) in
  let h32 := u32 (h32 + u32 (total_len state)) in
  let '(i, h32) := buf_word_loop n (λ i, buf_readLE32 b i endian) step32_word 4 0 n h32 in
  let '(_, h32) := buf_word_loop n (buf_byte b) step32_byte 1 i n h32 in
  avalanche32 h32.

Definition XXH64_digest_endian (state : XXH_istate) (endian : XXH_endianess) : Z :=
  let b := buf state in
  let n := Z.to_nat (memsize state) in
  let h64 := if total_len state >=? 32 then converge64 (vs state)
             else u64 (seed state + PRIME64_5) in
  let h64 := u64 (h64 + total_len state) in
  let '(i, h64) := buf_word_loop n (λ i, buf_readLE64 b i endian) step64_word 8 0 n h64 in
  let '(i, h64) := if (i + 4 <=? n)%nat then ((i + 4)%nat, step64_half h64 (buf_readLE32 b i endian))
                   else (i, h64) in
  let '(_, h64) := buf_word_loop n (buf_byte b) step64_byte 1 i n h64 in
  avalanche64 h64.

Definition XXH32_digest (state : XXH_istate) : Z := XXH32_digest_endian state endian_detected.
Definition XXH64_digest (state : XXH_istate) : Z := XXH64_digest_endian state endian_detected.

End xxh.
