(* ===== verification/XxhashProofs.v ===== *)
(** xxHash computes the same function of the bytes on every target, in one call
    or fed piece by piece.

    [xxh32] and [xxh64] are that function, on lists of bytes: the stripes of
    16 or 32 bytes update four accumulators, the rest is hashed in words and
    then in bytes. *)

From Stdlib Require Import ZArith Lia Strings.Byte.
From stdpp Require Import base gmap list fin_maps numbers.
From S2P Require Import Prelude Mem Lz4Common Xxhash.

(** * The hash function *)

(** Four words of [w] bytes, one for each accumulator. *)
Definition absorb (w : nat) (round : Z → Z → Z) (v : lanes) (l : list byte) : lanes :=
  {| v1 := round (v1 v) (le_val (take w l));
     v2 := round (v2 v) (le_val (take w (drop w l)));
     v3 := round (v3 v) (le_val (take w (drop (2 * w) l)));
     v4 := round (v4 v) (le_val (take w (drop (3 * w) l))) |}.

(** [n] stripes of [4 * w] bytes. *)
Fixpoint absorb_all (w : nat) (round : Z → Z → Z) (n : nat) (v : lanes) (l : list byte) : lanes :=
  match n with
  | O => v
  | S n => absorb_all w round n (absorb w round v l) (drop (4 * w) l)
  end.

(** [n] words of [w] bytes. *)
Fixpoint hash_words (w : nat) (step : Z → Z → Z) (n : nat) (h : Z) (l : list byte) : Z :=
  match n with
  | O => h
  | S n => hash_words w step n (step h (le_val (take w l))) (drop w l)
  end.

(** All the words of [w] bytes that [l] has, and what is left. *)
Definition hash_all_words (w : nat) (step : Z → Z → Z) (h : Z) (l : list byte) : Z * list byte :=
  (hash_words w step (length l / w) h l, drop (w * (length l / w)) l).

Definition tail32 (h : Z) (l : list byte) : Z :=
  let '(h, l) := hash_all_words 4 step32_word h l in
  let '(h, _) := hash_all_words 1 step32_byte h l in
  avalanche32 h.

Definition tail64 (h : Z) (l : list byte) : Z :=
  let '(h, l) := hash_all_words 8 step64_word h l in
  let '(h, l) := if (4 <=? length l)%nat then (step64_half h (le_val (take 4 l)), drop 4 l)
                 else (h, l) in
  let '(h, _) := hash_all_words 1 step64_byte h l in
  avalanche64 h.

Definition xxh32 (seed : Z) (l : list byte) : Z :=
  let n := (length l / 16)%nat in
  let h := if (16 <=? length l)%nat then converge32 (absorb_all 4 round32 n (init32 seed) l)
           else u32 (seed + PRIME32_5) in
  tail32 (u32 (h + u32 (zlen l))) (drop (16 * n) l).

Definition xxh64 (seed : Z) (l : list byte) : Z :=
  let n := (length l / 32)%nat in
  let h := if (32 <=? length l)%nat then converge64 (absorb_all 8 round64 n (init64 seed) l)
           else u64 (seed + PRIME64_5) in
  tail64 (u64 (h + zlen l)) (drop (32 * n) l).

(** * Byte order *)

(** The byte that a shift and a mask take from a word, and where they put it. *)
Lemma pick_left (x s k : Z) :
  0 ≤ s ≤ k → Z.land (Z.shiftl x s) (Z.shiftl 255 k) = (x / 2 ^ (k - s)) mod 256 * 2 ^ k.
Proof.
  intros Hs. rewrite land_byte, Z.shiftr_shiftl_r, Z.shiftr_div_pow2 by lia. done.
Qed.

Lemma pick_right (x s k : Z) :
  0 ≤ s → 0 ≤ k → Z.land (Z.shiftr x s) (Z.shiftl 255 k) = (x / 2 ^ (s + k)) mod 256 * 2 ^ k.
Proof.
  intros Hs Hk. rewrite land_byte, Z.shiftr_shiftr, Z.shiftr_div_pow2 by lia. done.
Qed.

Lemma le_val_byte (l : list byte) (i : nat) (b : byte) :
  l !! i = Some b → (le_val l / 2 ^ (8 * Z.of_nat i)) mod 256 = b2z b.
Proof.
  revert i. induction l as [|a l IH]; intros i Hi; [done|]. simpl le_val.
  pose proof (b2z_range a). destruct i as [|i]; simpl in Hi.
  - injection Hi as <-. rewrite Z.div_1_r, (Z.mul_comm 256), Z_mod_plus_full, Z.mod_small by lia. done.
  - rewrite <- (IH i Hi). replace (8 * Z.of_nat (S i)) with (8 + 8 * Z.of_nat i) by lia.
    rewrite Z.pow_add_r, <- Z.div_div by lia. change (2 ^ 8) with 256.
    rewrite (Z.mul_comm 256), Z.div_add, (Z.div_small (b2z a)) by lia. done.
Qed.

(** A word read in the other byte order and swapped is the word in the right
    order. *)
Lemma swap32_be (l : list byte) : length l = 4%nat → XXH_swap32 (be_val l) = le_val l.
Proof.
  destruct l as [|a [|b [|c [|d []]]]]; try done. intros _. unfold be_val.
  assert (HB : ∀ i y k, reverse [a; b; c; d] !! i = Some y → k = 8 * Z.of_nat i →
    (le_val (reverse [a; b; c; d]) / 2 ^ k) mod 256 = b2z y).
  { intros i y k Hi ->. by apply le_val_byte. }
  set (x := le_val (reverse [a; b; c; d])) in *. unfold XXH_swap32.
  change 0xff000000 with (Z.shiftl 255 24). change 0x00ff0000 with (Z.shiftl 255 16).
  change 0x0000ff00 with (Z.shiftl 255 8). change 0x000000ff with (Z.shiftl 255 0).
  rewrite !pick_left, !pick_right by lia.
  rewrite (HB 0%nat d (24 - 24)), (HB 1%nat c (16 - 8)), (HB 2%nat b (8 + 8)),
    (HB 3%nat a (24 + 0)) by done.
  pose proof (b2z_range a). pose proof (b2z_range b). pose proof (b2z_range c).
  rewrite (lor_byte 24 (b2z d) (b2z c) 16), (lor_byte 16 _ (b2z b) 8), (lor_byte 8 _ (b2z a) 0) by lia.
  simpl le_val. lia.
Qed.

Lemma swap64_be (l : list byte) : length l = 8%nat → XXH_swap64 (be_val l) = le_val l.
Proof.
  destruct l as [|a [|b [|c [|d [|e [|f [|g [|h []]]]]]]]]; try done. intros _. unfold be_val.
  assert (HB : ∀ i y k, reverse [a; b; c; d; e; f; g; h] !! i = Some y → k = 8 * Z.of_nat i →
    (le_val (reverse [a; b; c; d; e; f; g; h]) / 2 ^ k) mod 256 = b2z y).
  { intros i y k Hi ->. by apply le_val_byte. }
  set (x := le_val (reverse [a; b; c; d; e; f; g; h])) in *. unfold XXH_swap64.
  change 0xff00000000000000 with (Z.shiftl 255 56). change 0x00ff000000000000 with (Z.shiftl 255 48).
  change 0x0000ff0000000000 with (Z.shiftl 255 40). change 0x000000ff00000000 with (Z.shiftl 255 32).
  change 0x00000000ff000000 with (Z.shiftl 255 24). change 0x0000000000ff0000 with (Z.shiftl 255 16).
  change 0x000000000000ff00 with (Z.shiftl 255 8). change 0x00000000000000ff with (Z.shiftl 255 0).
  rewrite !pick_left, !pick_right by lia.
  rewrite (HB 0%nat h (56 - 56)), (HB 1%nat g (48 - 40)), (HB 2%nat f (40 - 24)),
    (HB 3%nat e (32 - 8)), (HB 4%nat d (8 + 24)), (HB 5%nat c (24 + 16)),
    (HB 6%nat b (40 + 8)), (HB 7%nat a (56 + 0)) by done.
  pose proof (b2z_range a). pose proof (b2z_range b). pose proof (b2z_range c).
  pose proof (b2z_range d). pose proof (b2z_range e). pose proof (b2z_range f).
  pose proof (b2z_range g).
  rewrite (lor_byte 56 (b2z h) (b2z g) 48), (lor_byte 48 _ (b2z f) 40), (lor_byte 40 _ (b2z e) 32),
    (lor_byte 32 _ (b2z d) 24), (lor_byte 24 _ (b2z c) 16), (lor_byte 16 _ (b2z b) 8),
    (lor_byte 8 _ (b2z a) 0) by lia.
  simpl le_val. lia.
Qed.

(** * Reading memory and buffers *)

Section reads.
Context {arch : Arch}.
Implicit Types (m : mem).

Lemma native_swap32 (l : list byte) :
  length l = 4%nat →
  (if is_little endian_detected then native l else XXH_swap32 (native l)) = le_val l.
Proof.
  intros Hl. unfold endian_detected, native. destruct LZ4_isLittleEndian; simpl; [done|].
  by apply swap32_be.
Qed.

Lemma native_swap64 (l : list byte) :
  length l = 8%nat →
  (if is_little endian_detected then native l else XXH_swap64 (native l)) = le_val l.
Proof.
  intros Hl. unfold endian_detected, native. destruct LZ4_isLittleEndian; simpl; [done|].
  by apply swap64_be.
Qed.

(** The first [w] of the bytes at an address. *)
Lemma load_bytes_take (a : Z) (l : list byte) (w : nat) (Q : list byte → mem → Prop) m :
  bytes_at m a l → (w ≤ length l)%nat → Q (take w l) m → wp (load_bytes a w) Q m.
Proof.
  intros Hb Hw HQ. rewrite <- (take_drop w l) in Hb. apply bytes_at_app in Hb as [Hb _].
  pose proof (wp_load_bytes a (take w l) Q m Hb HQ) as H. by rewrite length_take_le in H.
Qed.

Lemma bytes_at_drop (a : Z) (l : list byte) (w : nat) m :
  bytes_at m a l → (w ≤ length l)%nat → bytes_at m (a + Z.of_nat w) (drop w l).
Proof.
  intros Hb Hw. rewrite <- (take_drop w l) in Hb. apply bytes_at_app in Hb as [_ Hb].
  by rewrite length_take_le in Hb.
Qed.

Lemma readLE32_at (p : Z) (l : list byte) (al : XXH_alignment) m :
  bytes_at m p l → (4 ≤ length l)%nat →
  XXH_readLE32_align p endian_detected al m = Ret (le_val (take 4 l)) m.
Proof.
  intros Hb Hl.
  assert (H : wp (XXH_readLE32_align p endian_detected al)
                 (λ v m', v = le_val (take 4 l) ∧ m' = m) m).
  { unfold XXH_readLE32_align, XXH_read32.
    destruct al; apply wp_bind, wp_bind; (eapply load_bytes_take; [done..|]); apply wp_ret, wp_ret;
      (split; [|done]); apply native_swap32; rewrite length_take_le; lia. }
  apply wp_result in H as (v & m' & Hr & -> & ->). done.
Qed.

Lemma readLE64_at (p : Z) (l : list byte) (al : XXH_alignment) m :
  bytes_at m p l → (8 ≤ length l)%nat →
  XXH_readLE64_align p endian_detected al m = Ret (le_val (take 8 l)) m.
Proof.
  intros Hb Hl.
  assert (H : wp (XXH_readLE64_align p endian_detected al)
                 (λ v m', v = le_val (take 8 l) ∧ m' = m) m).
  { unfold XXH_readLE64_align, XXH_read64.
    destruct al; apply wp_bind, wp_bind; (eapply load_bytes_take; [done..|]); apply wp_ret, wp_ret;
      (split; [|done]); apply native_swap64; rewrite length_take_le; lia. }
  apply wp_result in H as (v & m' & Hr & -> & ->). done.
Qed.

Lemma load8_at (p : Z) (l : list byte) m :
  bytes_at m p l → (1 ≤ length l)%nat → load8 p m = Ret (le_val (take 1 l)) m.
Proof.
  destruct l as [|b l]; [simpl; lia|]. intros [Hb _] _. unfold load8. rewrite Hb.
  simpl. by rewrite Z.add_0_r.
Qed.

End reads.

(** * The loops *)

(** Equations on the number of whole pieces. *)
Lemma div_step (n k : nat) : (0 < k ≤ n)%nat → (n / k = S ((n - k) / k))%nat.
Proof.
  intros Hk. replace n with (1 * k + (n - k))%nat at 1 by lia. rewrite Nat.div_add_l by lia. lia.
Qed.

Section loops.
Context {arch : Arch}.
Implicit Types (m : mem).

Lemma stripe_loop_at (fuel : nat) (stripe : Z → lanes → prog lanes) (w : nat)
    (round : Z → Z → Z) (W p limit : Z) (v : lanes) (l : list byte) m :
  W = 4 * Z.of_nat w →
  (∀ p v l, bytes_at m p l → (4 * w ≤ length l)%nat → stripe p v m = Ret (absorb w round v l) m) →
  (0 < w)%nat → bytes_at m p l → (4 * w ≤ length l)%nat →
  limit = p + zlen l - 4 * Z.of_nat w → (length l ≤ fuel)%nat →
  let n := (length l / (4 * w))%nat in
  stripe_loop fuel stripe W p limit v m =
    Ret (p + Z.of_nat (4 * w * n), absorb_all w round n v l) m.
Proof.
  intros -> Hs Hw. revert p v l. induction fuel as [|fuel IH]; intros p v l Hb Hl -> Hf; [lia|].
  cbv zeta. cbn [stripe_loop]. unfold bind. rewrite (Hs p v l) by done.
  rewrite (div_step (length l) (4 * w)) by lia. cbn [absorb_all].
  pose proof (bytes_at_drop p l (4 * w) m Hb Hl) as Hb'.
  case_if; zbool.
  - replace (p + 4 * Z.of_nat w) with (p + Z.of_nat (4 * w)) by lia.
    rewrite (IH (p + Z.of_nat (4 * w)) _ (drop (4 * w) l)); rewrite ?length_drop; try done; try lia.
    do 2 f_equal. lia.
  - rewrite (Nat.div_small (length l - 4 * w)) by lia. cbn [absorb_all]. do 2 f_equal. lia.
Qed.

Lemma word_loop_at (fuel : nat) (read : Z → prog Z) (step : Z → Z → Z) (w : nat)
    (W p bEnd h : Z) (l : list byte) m :
  W = Z.of_nat w →
  (∀ p l, bytes_at m p l → (w ≤ length l)%nat → read p m = Ret (le_val (take w l)) m) →
  (0 < w)%nat → bytes_at m p l → bEnd = p + zlen l → (length l < fuel)%nat →
  word_loop fuel read step W p bEnd h m =
    Ret (bEnd - zlen (hash_all_words w step h l).2, (hash_all_words w step h l).1) m.
Proof.
  intros -> Hr Hw. unfold hash_all_words. simpl. revert p h l.
  induction fuel as [|fuel IH]; intros p h l Hb -> Hf; [lia|]. cbn [word_loop].
  case_if; zbool.
  - unfold bind. rewrite (Hr p l) by (done || lia).
    pose proof (bytes_at_drop p l w m Hb ltac:(lia)) as Hb'.
    rewrite (IH (p + Z.of_nat w) _ (drop w l)); rewrite ?length_drop; try done; try lia.
    rewrite (div_step (length l) w) by lia. cbn [hash_words]. rewrite ?length_drop, Nat.mul_succ_r.
    do 2 f_equal. lia.
  - unfold ret. rewrite (Nat.div_small (length l) w) by lia. simpl.
    rewrite Nat.mul_0_r. rewrite drop_0. do 2 f_equal. lia.
Qed.

Lemma stripe32_at (al : XXH_alignment) (p : Z) (v : lanes) (l : list byte) m :
  bytes_at m p l → (16 ≤ length l)%nat →
  stripe32 p v endian_detected al m = Ret (absorb 4 round32 v l) m.
Proof.
  intros Hb Hl. unfold stripe32, bind.
  rewrite (readLE32_at p l al m) by (done || lia).
  rewrite (readLE32_at (p + 4) (drop 4 l) al m)
    by (rewrite ?length_drop; try lia; by apply (bytes_at_drop p l 4); [|lia]).
  rewrite (readLE32_at (p + 8) (drop 8 l) al m)
    by (rewrite ?length_drop; try lia; by apply (bytes_at_drop p l 8); [|lia]).
  rewrite (readLE32_at (p + 12) (drop 12 l) al m)
    by (rewrite ?length_drop; try lia; by apply (bytes_at_drop p l 12); [|lia]).
  done.
Qed.

Lemma stripe64_at (al : XXH_alignment) (p : Z) (v : lanes) (l : list byte) m :
  bytes_at m p l → (32 ≤ length l)%nat →
  stripe64 p v endian_detected al m = Ret (absorb 8 round64 v l) m.
Proof.
  intros Hb Hl. unfold stripe64, bind.
  rewrite (readLE64_at p l al m) by (done || lia).
  rewrite (readLE64_at (p + 8) (drop 8 l) al m)
    by (rewrite ?length_drop; try lia; by apply (bytes_at_drop p l 8); [|lia]).
  rewrite (readLE64_at (p + 16) (drop 16 l) al m)
    by (rewrite ?length_drop; try lia; by apply (bytes_at_drop p l 16); [|lia]).
  rewrite (readLE64_at (p + 24) (drop 24 l) al m)
    by (rewrite ?length_drop; try lia; by apply (bytes_at_drop p l 24); [|lia]).
  done.
Qed.

(** What is left after the words of a text is at the end of it. *)
Lemma hash_all_words_rest (w : nat) (step : Z → Z → Z) (p h : Z) (l : list byte) m :
  (0 < w)%nat → bytes_at m p l →
  let r := (hash_all_words w step h l).2 in
  bytes_at m (p + zlen l - zlen r) r ∧ (length r ≤ length l)%nat ∧ (length r < w)%nat.
Proof.
  intros Hw Hb. unfold hash_all_words. simpl.
  pose proof (Nat.Div0.mul_div_le (length l) w).
  pose proof (Nat.mul_succ_div_gt (length l) w ltac:(lia)).
  rewrite length_drop. split; [|lia].
  replace (p + zlen l - Z.of_nat (length l - w * (length l / w)))
    with (p + Z.of_nat (w * (length l / w))) by lia.
  by apply bytes_at_drop.
Qed.

(** The end of the one-shot functions, from [p] on. *)
Lemma tail32_at (fuel : nat) (al : XXH_alignment) (p bEnd h : Z) (l : list byte) m :
  bytes_at m p l → bEnd = p + zlen l → (length l < fuel)%nat →
  (let! (p, h32) := word_loop fuel (λ p, XXH_readLE32_align p endian_detected al)
                      step32_word 4 p bEnd h in
   let! (p, h32) := word_loop fuel load8 step32_byte 1 p bEnd h32 in
   ret (avalanche32 h32)) m = Ret (tail32 h l) m.
Proof.
  intros Hb -> Hf. unfold bind.
  rewrite (word_loop_at fuel _ step32_word 4 4 p (p + zlen l) h l m) by
    (try done; try lia; intros; by apply readLE32_at).
  destruct (hash_all_words_rest 4 step32_word p h l m ltac:(lia) Hb) as (H1 & H2 & H3).
  unfold tail32. destruct (hash_all_words 4 step32_word h l) as [h1 l1]. simpl in H1, H2, H3. cbn [fst snd].
  rewrite (word_loop_at fuel _ step32_byte 1 1 _ (p + zlen l) h1 l1 m) by
    (try done; try lia; intros; by apply load8_at).
  by destruct (hash_all_words 1 step32_byte h1 l1).
Qed.

Lemma tail64_at (fuel : nat) (al : XXH_alignment) (p bEnd h : Z) (l : list byte) m :
  bytes_at m p l → bEnd = p + zlen l → (length l < fuel)%nat →
  (let! (p, h64) := word_loop fuel (λ p, XXH_readLE64_align p endian_detected al)
                      step64_word 8 p bEnd h in
   let! (p, h64) :=
     (if p + 4 <=? bEnd then
        let! k := XXH_readLE32_align p endian_detected al in ret (p + 4, step64_half h64 k)
      else ret (p, h64)) in
   let! (p, h64) := word_loop fuel load8 step64_byte 1 p bEnd h64 in
   ret (avalanche64 h64)) m = Ret (tail64 h l) m.
Proof.
  intros Hb -> Hf. unfold bind at 1.
  rewrite (word_loop_at fuel _ step64_word 8 8 p (p + zlen l) h l m) by
    (try done; try lia; intros; by apply readLE64_at).
  destruct (hash_all_words_rest 8 step64_word p h l m ltac:(lia) Hb) as (H1 & H2 & H3).
  unfold tail64. destruct (hash_all_words 8 step64_word h l) as [h1 l1]. simpl in H1, H2, H3. cbn [fst snd].
  set (p1 := p + zlen l - zlen l1) in *. unfold bind.
  destruct (Nat.leb_spec 4 (length l1)); destruct (Z.leb_spec (p1 + 4) (p + zlen l)); try lia.
  - rewrite (readLE32_at p1 l1 al m) by done. unfold ret.
    pose proof (bytes_at_drop p1 l1 4 m H1 ltac:(lia)) as H4.
    rewrite (word_loop_at fuel _ step64_byte 1 1 (p1 + 4) (p + zlen l) _ (drop 4 l1) m) by
      (try done; rewrite ?length_drop; try lia; intros; by apply load8_at).
    by destruct (hash_all_words 1 step64_byte _ (drop 4 l1)).
  - unfold ret.
    rewrite (word_loop_at fuel _ step64_byte 1 1 p1 (p + zlen l) _ l1 m) by
      (try done; try lia; intros; by apply load8_at).
    by destruct (hash_all_words 1 step64_byte h1 l1).
Qed.

Lemma XXH32_endian_align_at (input sd : Z) (al : XXH_alignment) (l : list byte) m :
  bytes_at m input l →
  XXH32_endian_align input (zlen l) sd endian_detected al m = Ret (xxh32 sd l) m.
Proof.
  intros Hb. unfold XXH32_endian_align, xxh32. rewrite Nat2Z.id.
  pose proof (Nat.Div0.mul_div_le (length l) 16).
  destruct (Nat.leb_spec 16 (length l)).
  - assert ((zlen l >=? 16) = true) as -> by (rewrite Z.geb_leb; apply Z.leb_le; lia).
    unfold bind at 1. unfold bind at 1.
    rewrite (stripe_loop_at _ _ 4 round32 16 _ _ _ l) by
      (try done; try lia; intros; by apply stripe32_at).
    unfold ret at 1. cbv iota beta zeta. change (4 * 4)%nat with 16%nat.
    apply tail32_at; rewrite ?length_drop; try lia. by apply bytes_at_drop.
  - assert ((zlen l >=? 16) = false) as -> by (rewrite Z.geb_leb; apply Z.leb_gt; lia).
    unfold bind at 1. unfold ret at 1. cbv iota beta zeta. rewrite (Nat.div_small (length l) 16) by done.
    rewrite Nat.mul_0_r, drop_0. apply tail32_at; (done || lia).
Qed.

Lemma XXH64_endian_align_at (input sd : Z) (al : XXH_alignment) (l : list byte) m :
  bytes_at m input l →
  XXH64_endian_align input (zlen l) sd endian_detected al m = Ret (xxh64 sd l) m.
Proof.
  intros Hb. unfold XXH64_endian_align, xxh64. rewrite Nat2Z.id.
  pose proof (Nat.Div0.mul_div_le (length l) 32).
  destruct (Nat.leb_spec 32 (length l)).
  - assert ((zlen l >=? 32) = true) as -> by (rewrite Z.geb_leb; apply Z.leb_le; lia).
    unfold bind at 1. unfold bind at 1.
    rewrite (stripe_loop_at _ _ 8 round64 32 _ _ _ l) by
      (try done; try lia; intros; by apply stripe64_at).
    unfold ret at 1. cbv iota beta zeta. change (4 * 8)%nat with 32%nat.
    apply tail64_at; rewrite ?length_drop; try lia. by apply bytes_at_drop.
  - assert ((zlen l >=? 32) = false) as -> by (rewrite Z.geb_leb; apply Z.leb_gt; lia).
    unfold bind at 1. unfold ret at 1. cbv iota beta zeta. rewrite (Nat.div_small (length l) 32) by done.
    rewrite Nat.mul_0_r, drop_0. apply tail64_at; (done || lia).
Qed.

End loops.

(** * Incremental hashing *)

Lemma absorb_app (w : nat) (round : Z → Z → Z) (v : lanes) (l1 l2 : list byte) :
  (4 * w ≤ length l1)%nat → absorb w round v (l1 ++ l2) = absorb w round v l1.
Proof.
  intros Hl. unfold absorb.
  rewrite !drop_app_le, !take_app_le by (rewrite ?length_drop; lia). done.
Qed.

Lemma absorb_all_app (w : nat) (round : Z → Z → Z) (n : nat) (v : lanes) (l1 l2 : list byte) :
  (4 * w * n ≤ length l1)%nat → absorb_all w round n v (l1 ++ l2) = absorb_all w round n v l1.
Proof.
  revert v l1. induction n as [|n IH]; intros v l1 Hl; [done|]. cbn [absorb_all].
  rewrite absorb_app, drop_app_le by lia. apply IH. rewrite length_drop. lia.
Qed.

Lemma absorb_all_add (w : nat) (round : Z → Z → Z) (n k : nat) (v : lanes) (l : list byte) :
  absorb_all w round (n + k) v l =
    absorb_all w round k (absorb_all w round n v l) (drop (4 * w * n) l).
Proof.
  revert v l. induction n as [|n IH]; intros v l; cbn [absorb_all Nat.add].
  - by rewrite Nat.mul_0_r, drop_0.
  - rewrite IH, drop_drop. do 2 f_equal. lia.
Qed.

(** The state after hashing the text [t]. *)
Record hashed (w : nat) (round : Z → Z → Z) (init : Z → lanes) (sd : Z)
    (st : XXH_istate) (t : list byte) : Prop := {
  hd_total : total_len st = zlen t;
  hd_bound : zlen t < 2 ^ 64;
  hd_seed : seed st = sd;
  hd_vs : vs st = absorb_all w round (length t / (4 * w)) (init sd) t;
  hd_size : memsize st = zlen (drop (4 * w * (length t / (4 * w))) t);
  hd_buf : length (buf st) = (4 * w)%nat;
  hd_rest : take (Z.to_nat (memsize st)) (buf st) = drop (4 * w * (length t / (4 * w))) t
}.

(** The accumulators and the buffered bytes decide the state after more text. *)
Lemma hashed_more (w : nat) (round : Z → Z → Z) (init : Z → lanes) (sd : Z)
    (st st' : XXH_istate) (t l : list byte) :
  (0 < w)%nat → hashed w round init sd st t →
  let r := drop (4 * w * (length t / (4 * w))) t ++ l in
  let k := (length r / (4 * w))%nat in
  zlen (t ++ l) < 2 ^ 64 → total_len st' = zlen (t ++ l) → seed st' = sd →
  vs st' = absorb_all w round k (vs st) r →
  memsize st' = zlen (drop (4 * w * k) r) → length (buf st') = (4 * w)%nat →
  take (Z.to_nat (memsize st')) (buf st') = drop (4 * w * k) r →
  hashed w round init sd st' (t ++ l).
Proof.
  intros Hw [H1 H2 H3 H4 H5 H6 H7] r k Hb E1 E2 E3 E4 E5 E6.
  set (n := (length t / (4 * w))%nat) in *.
  pose proof (Nat.Div0.mul_div_le (length t) (4 * w)) as Hn. fold n in Hn.
  assert (Hsplit : t ++ l = take (4 * w * n) t ++ r).
  { unfold r. by rewrite app_assoc, take_drop. }
  assert (Hlt : length (take (4 * w * n) t) = (4 * w * n)%nat) by (rewrite length_take_le; lia).
  assert (Hq : (length (t ++ l) / (4 * w) = n + k)%nat).
  { rewrite Hsplit, length_app, Hlt. unfold k.
    rewrite (Nat.mul_comm (4 * w) n), Nat.div_add_l by lia. done. }
  assert (Hd : drop (4 * w * (n + k)) (t ++ l) = drop (4 * w * k) r).
  { rewrite Hsplit, drop_app_ge by lia. f_equal. lia. }
  constructor; rewrite ?Hq, ?Hd; try done.
  rewrite E3, H4, absorb_all_add, absorb_all_app by done. f_equal. unfold r.
  by rewrite drop_app_le.
Qed.

(** Both update functions are this one. *)
Definition update_gen (W : Z) (full : Z → Z → bool) (stripe : Z → lanes → prog lanes)
    (bstripe : list byte → lanes → lanes) {arch : Arch} (state : XXH_istate) (input len : Z) :
    prog XXH_istate :=
  let p := input in
  let bEnd := p + len in
  let total := u64 (total_len state + len) in
  if usize (memsize state + len) <? W then
    let! b := copy_in (buf state) (memsize state) input len in
    ret {| total_len := total; seed := seed state; vs := vs state; buf := b;
           memsize := u32 (memsize state + u32 len) |}
  else
    let! (p, v, b) :=
      (if negb (memsize state =? 0) then
         let! b := copy_in (buf state) (memsize state) input (W - memsize state) in
         ret (p + (W - memsize state), bstripe b (vs state), b)
       else ret (p, vs state, buf state)) in
    let! (p, v) :=
      (if full p bEnd then stripe_loop (S (Z.to_nat len)) stripe W p (bEnd - W) v
       else ret (p, v)) in
    if p <? bEnd then
      let! b := copy_in b 0 p (bEnd - p) in
      ret {| total_len := total; seed := seed state; vs := v; buf := b; memsize := bEnd - p |}
    else ret {| total_len := total; seed := seed state; vs := v; buf := b; memsize := 0 |}.

Section incremental.
Context {arch : Arch}.
Implicit Types (m : mem).

Lemma update32_gen :
  XXH32_update = update_gen 16 (λ p e, p <=? e - 16)
    (λ p v, stripe32 p v endian_detected XXH_unaligned) (λ b v, buf_stripe32 b v endian_detected).
Proof. reflexivity. Qed.

Lemma update64_gen :
  XXH64_update = update_gen 32 (λ p e, p + 32 <=? e)
    (λ p v, stripe64 p v endian_detected XXH_unaligned) (λ b v, buf_stripe64 b v endian_detected).
Proof. reflexivity. Qed.

(** [XXH_memcpy] into the buffer. *)
Lemma copy_in_at (b : list byte) (i : nat) (input : Z) (l : list byte) m :
  (i + length l ≤ length b)%nat → bytes_at m input l →
  copy_in b (Z.of_nat i) input (zlen l) m =
    Ret (take i b ++ l ++ drop (i + length l) b) m.
Proof.
  intros Hl Hb. unfold copy_in.
  assert ((0 <=? Z.of_nat i) && (Z.of_nat i + zlen l <=? zlen b) = true) as ->.
  { apply andb_true_iff. split; apply Z.leb_le; lia. }
  unfold bind, load_bytes. rewrite Nat2Z.id, (proj2 (read_bytes_at m input (length l) l)) by done.
  unfold ret. do 3 f_equal; [lia|]. f_equal. lia.
Qed.

Lemma copy_in_length (b : list byte) (i : nat) (l : list byte) :
  (i + length l ≤ length b)%nat → length (take i b ++ l ++ drop (i + length l) b) = length b.
Proof. intros Hl. rewrite !length_app, length_take_le, length_drop by lia. lia. Qed.

(** The second half of an update: whole stripes from memory, and the rest into
    the buffer. *)
Lemma update_rest (w : nat) (round : Z → Z → Z) (full : Z → Z → bool)
    (stripe : Z → lanes → prog lanes) (fuel : nat) (total sd p1 bEnd : Z) (v : lanes)
    (b l1 : list byte) m :
  let W := 4 * Z.of_nat w in
  let k := (length l1 / (4 * w))%nat in
  (0 < w)%nat → (∀ p e, full p e = (p <=? e - W)) →
  (∀ p v l, bytes_at m p l → (4 * w ≤ length l)%nat → stripe p v m = Ret (absorb w round v l) m) →
  bytes_at m p1 l1 → bEnd = p1 + zlen l1 → length b = (4 * w)%nat → (length l1 ≤ fuel)%nat →
  ∃ st', (let! (p, v) :=
        (if full p1 bEnd then stripe_loop fuel stripe W p1 (bEnd - W) v else ret (p1, v)) in
      if p <? bEnd then
        let! b := copy_in b 0 p (bEnd - p) in
        ret {| total_len := total; seed := sd; vs := v; buf := b; memsize := bEnd - p |}
      else ret {| total_len := total; seed := sd; vs := v; buf := b; memsize := 0 |}) m = Ret st' m ∧
    total_len st' = total ∧ seed st' = sd ∧
    vs st' = absorb_all w round k v l1 ∧ memsize st' = zlen (drop (4 * w * k) l1) ∧
    length (buf st') = (4 * w)%nat ∧
    take (Z.to_nat (memsize st')) (buf st') = drop (4 * w * k) l1.
Proof.
  intros W k Hw Hfull Hstripe Hb1 -> Hlb Hf.
  assert (Hloop : (if full p1 (p1 + zlen l1) then
                     stripe_loop fuel stripe W p1 (p1 + zlen l1 - W) v else ret (p1, v)) m =
                  Ret (p1 + Z.of_nat (4 * w * k), absorb_all w round k v l1) m).
  { rewrite Hfull. destruct (Z.leb_spec p1 (p1 + zlen l1 - W)).
    - apply stripe_loop_at; try done; lia.
    - unfold k. rewrite Nat.div_small by lia. rewrite Nat.mul_0_r. simpl.
      unfold ret. do 2 f_equal. lia. }
  unfold bind. rewrite Hloop. clear Hloop.
  pose proof (Nat.Div0.mul_div_le (length l1) (4 * w)) as Hk1. fold k in Hk1.
  pose proof (Nat.mul_succ_div_gt (length l1) (4 * w) ltac:(lia)) as Hk2. fold k in Hk2.
  set (rest := drop (4 * w * k) l1).
  assert (Hr : zlen rest = zlen l1 - Z.of_nat (4 * w * k)) by (unfold rest; rewrite length_drop; lia).
  case_if; zbool.
  - pose proof (copy_in_at b 0 (p1 + Z.of_nat (4 * w * k)) rest m) as Hc.
    replace (p1 + zlen l1 - (p1 + Z.of_nat (4 * w * k))) with (zlen rest) by lia.
    change 0 with (Z.of_nat 0). rewrite Hc; [|lia|by apply bytes_at_drop].
    eexists. split; [reflexivity|]. simpl. split_and!; try done.
    + rewrite length_app, length_drop. lia.
    + by rewrite Nat2Z.id, take_app_length.
  - eexists. split; [reflexivity|]. simpl. assert (rest = []) as -> by (apply length_zero_iff_nil; lia).
    done.
Qed.

(** The first half: the buffered bytes and enough of the input for a stripe. *)
Lemma update_first (w : nat) (round : Z → Z → Z) (bstripe : list byte → lanes → lanes)
    (st : XXH_istate) (r0 l : list byte) (input : Z) m :
  (0 < w)%nat → (∀ b v, length b = (4 * w)%nat → bstripe b v = absorb w round v b) →
  bytes_at m input l → (length r0 < 4 * w ≤ length r0 + length l)%nat →
  length (buf st) = (4 * w)%nat → take (length r0) (buf st) = r0 →
  ∃ p1 v b l1,
    (if negb (zlen r0 =? 0) then
       let! b := copy_in (buf st) (zlen r0) input (4 * Z.of_nat w - zlen r0) in
       ret (input + (4 * Z.of_nat w - zlen r0), bstripe b (vs st), b)
     else ret (input, vs st, buf st)) m = Ret (p1, v, b) m ∧
    bytes_at m p1 l1 ∧ input + zlen l = p1 + zlen l1 ∧ (length l1 ≤ length l)%nat ∧
    length b = (4 * w)%nat ∧
    absorb_all w round (length (r0 ++ l) / (4 * w)) (vs st) (r0 ++ l) =
      absorb_all w round (length l1 / (4 * w)) v l1 ∧
    drop (4 * w * (length (r0 ++ l) / (4 * w))) (r0 ++ l) =
      drop (4 * w * (length l1 / (4 * w))) l1.
Proof.
  intros Hw Hbs Hb Hr0 H6 H7.
  destruct (Z.eqb_spec (zlen r0) 0) as [E0|E0]; cbn [negb].
  - exists input, (vs st), (buf st), l. assert (r0 = []) as -> by (apply length_zero_iff_nil; lia).
    done.
  - set (c := (4 * w - length r0)%nat). replace (4 * Z.of_nat w - zlen r0) with (zlen (take c l))
      by (rewrite length_take_le; lia).
    exists (input + zlen (take c l)), (absorb w round (vs st) (r0 ++ l)), (r0 ++ take c l), (drop c l).
    assert (Hc : length (take c l) = c) by (rewrite length_take_le; lia).
    assert (Hbt : bytes_at m input (take c l) ∧ bytes_at m (input + zlen (take c l)) (drop c l)).
    { rewrite <- bytes_at_app, take_drop. done. }
    destruct Hbt as [Hb1 Hb2]. unfold bind.
    rewrite (copy_in_at (buf st) (length r0) input (take c l) m) by (done || lia).
    rewrite H7. replace (length r0 + length (take c l))%nat with (4 * w)%nat by lia.
    rewrite (drop_ge (buf st)), app_nil_r by lia.
    split. { unfold ret. do 3 f_equal. rewrite Hbs by (rewrite length_app; lia).
      replace (r0 ++ l) with ((r0 ++ take c l) ++ drop c l)
        by (by rewrite <- app_assoc, take_drop).
      rewrite (absorb_app _ _ _ (r0 ++ take c l)); [done|]. rewrite length_app. lia. }
    split; [done|]. split; [rewrite Hc, length_drop; lia|]. split; [rewrite length_drop; lia|].
    split; [rewrite length_app; lia|].
    assert (Hdrop : drop (4 * w) (r0 ++ l) = drop c l).
    { rewrite drop_app_ge by lia. done. }
    assert (Hq : (length (r0 ++ l) / (4 * w) = S (length (drop c l) / (4 * w)))%nat).
    { rewrite div_step, length_app, length_drop by (rewrite ?length_app; lia).
      do 2 f_equal. lia. }
    rewrite Hq. cbn [absorb_all]. rewrite Hdrop. split; [done|].
    rewrite Nat.mul_succ_r, Nat.add_comm, <- drop_drop, Hdrop. done.
Qed.

Lemma update_gen_hashed (w : nat) (round : Z → Z → Z) (init : Z → lanes) (sd : Z)
    (full : Z → Z → bool) (stripe : Z → lanes → prog lanes) (bstripe : list byte → lanes → lanes)
    (W : Z) (st : XXH_istate) (t l : list byte) (input : Z) m :
  W = 4 * Z.of_nat w → (0 < w ≤ 8)%nat → (∀ p e, full p e = (p <=? e - W)) →
  (∀ p v l, bytes_at m p l → (4 * w ≤ length l)%nat → stripe p v m = Ret (absorb w round v l) m) →
  (∀ b v, length b = (4 * w)%nat → bstripe b v = absorb w round v b) →
  hashed w round init sd st t → bytes_at m input l → zlen (t ++ l) < 2 ^ 64 →
  zlen l < 2 ^ ptr_bits - 32 →
  ∃ st', update_gen W full stripe bstripe st input (zlen l) m = Ret st' m ∧
    hashed w round init sd st' (t ++ l).
Proof.
  intros HWw Hw Hfull Hstripe Hbs Hh Hb Hbd Hsz. pose proof Hh as [H1 H2 H3 H4 H5 H6 H7].
  set (r0 := drop (4 * w * (length t / (4 * w))) t) in *.
  assert (Hr0 : (length r0 < 4 * w)%nat).
  { unfold r0. rewrite length_drop.
    pose proof (Nat.mul_succ_div_gt (length t) (4 * w) ltac:(lia)). lia. }
  rewrite H5, Nat2Z.id in H7. unfold update_gen. rewrite H5, H1, H3.
  assert (u64 (zlen t + zlen l) = zlen (t ++ l)) as ->.
  { rewrite length_app, Nat2Z.inj_add in *. apply u64_small. lia. }
  rewrite Nat2Z.id. assert (usize (zlen r0 + zlen l) = zlen r0 + zlen l) as ->.
  { unfold usize. apply wrap_small. lia. }
  case_if; zbool.
  - unfold bind. rewrite (copy_in_at (buf st) (length r0) input l m) by (done || lia).
    eexists. split; [reflexivity|]. rewrite H7.
    assert (Hk : (length (r0 ++ l) / (4 * w) = 0)%nat)
      by (apply Nat.div_small; rewrite length_app; lia).
    assert (Hms : u32 (zlen r0 + u32 (zlen l)) = zlen (r0 ++ l)).
    { rewrite length_app, !u32_small by (rewrite ?u32_small; lia). lia. }
    eapply hashed_more; [lia|exact Hh|done| | |..]; cbn [total_len seed vs buf memsize]; fold r0;
      rewrite ?Hk, ?Nat.mul_0_r, ?drop_0, ?Hms; try done.
    + pose proof (copy_in_length (buf st) (length r0) l ltac:(lia)) as Hc. rewrite H7 in Hc. lia.
    + by rewrite Nat2Z.id, app_assoc, take_app_length.
  - subst W.
    destruct (update_first w round bstripe st r0 l input m) as
      (p1 & v & b & l1 & Hrun & Hb1 & He & Hl1 & Hlb & Habs & Hdr); try done; try lia.
    unfold bind at 1. rewrite Hrun. cbv iota beta.
    destruct (update_rest w round full stripe (S (length l)) (zlen (t ++ l)) sd p1
      (input + zlen l) v b l1 m) as (st' & Hrun' & U1 & U2 & U3 & U4 & U5 & U6); try done; try lia.
    exists st'. split; [exact Hrun'|].
    eapply hashed_more; [lia|exact Hh|done|done|done|..]; fold r0; rewrite ?Hdr; try done.
    by rewrite Habs.
Qed.

(** ** The digest *)

Lemma buf_readLE32_eq (b : list byte) (i : nat) :
  (i + 4 ≤ length b)%nat → buf_readLE32 b i endian_detected = le_val (take 4 (drop i b)).
Proof. intros H. apply native_swap32. rewrite length_take_le; [done|]. rewrite length_drop. lia. Qed.

Lemma buf_readLE64_eq (b : list byte) (i : nat) :
  (i + 8 ≤ length b)%nat → buf_readLE64 b i endian_detected = le_val (take 8 (drop i b)).
Proof. intros H. apply native_swap64. rewrite length_take_le; [done|]. rewrite length_drop. lia. Qed.

Lemma buf_byte_eq (b : list byte) (i : nat) :
  (i + 1 ≤ length b)%nat → buf_byte b i = le_val (take 1 (drop i b)).
Proof.
  intros H. destruct (lookup_lt_is_Some_2 b i) as [x Hx]; [lia|].
  unfold buf_byte. rewrite (list_lookup_total_correct _ _ _ Hx), (drop_S _ _ _ Hx). simpl. lia.
Qed.

Lemma buf_word_loop_eq (fuel : nat) (read : nat → Z) (step : Z → Z → Z) (w i n : nat) (h : Z)
    (b : list byte) :
  (0 < w)%nat → (n ≤ length b)%nat → (i ≤ n)%nat → (n - i ≤ fuel)%nat →
  (∀ j, (j + w ≤ length b)%nat → read j = le_val (take w (drop j b))) →
  let '(h', r) := hash_all_words w step h (drop i (take n b)) in
  buf_word_loop fuel read step w i n h = ((n - length r)%nat, h') ∧ r = drop (n - length r) (take n b)
    ∧ (length r ≤ n)%nat.
Proof.
  intros Hw Hn Hi Hf Hr. unfold hash_all_words. revert i h Hi Hf.
  assert (Hlen : ∀ i, length (drop i (take n b)) = (n - i)%nat).
  { intros i. rewrite length_drop, length_take_le by lia. done. }
  induction fuel as [|fuel IH]; intros i h Hi Hf; rewrite Hlen in *.
  - replace (n - i)%nat with 0%nat by lia. rewrite Nat.Div0.div_0_l, Nat.mul_0_r, drop_0, Hlen. simpl.
    replace (n - (n - i))%nat with i by lia. split; [done|]. split; [done|lia].
  - cbn [buf_word_loop]. destruct (Nat.leb_spec (i + w) n).
    + rewrite (div_step (n - i) w) by lia. cbn [hash_words].
      specialize (IH (i + w)%nat (step h (read i)) ltac:(lia) ltac:(lia)). rewrite Hlen in IH.
      replace (n - (i + w))%nat with (n - i - w)%nat in IH by lia.
      assert (take w (drop i (take n b)) = take w (drop i b)) as Ht.
      { rewrite skipn_firstn_comm, take_take. f_equal. lia. }
      rewrite Ht, <- Hr by lia. rewrite !drop_drop in *.
      replace (i + w * S ((n - i - w) / w))%nat with (i + w + w * ((n - i - w) / w))%nat by lia.
      exact IH.
    + rewrite Nat.div_small by lia. rewrite Nat.mul_0_r, drop_0, Hlen. simpl.
      replace (n - (n - i))%nat with i by lia. split; [done|]. split; [done|lia].
Qed.

(** The rest of the text, in the first [n] bytes of the buffer, is hashed like the
    end of the one-shot functions does. *)
Lemma buf_tail32 (b : list byte) (n : nat) (h : Z) :
  (n ≤ length b)%nat →
  (let '(i, h32) := buf_word_loop n (λ i, buf_readLE32 b i endian_detected) step32_word 4 0 n h in
   let '(_, h32) := buf_word_loop n (buf_byte b) step32_byte 1 i n h32 in
   avalanche32 h32) = tail32 h (take n b).
Proof.
  intros Hn. unfold tail32.
  pose proof (buf_word_loop_eq n (λ i, buf_readLE32 b i endian_detected) step32_word 4 0 n h b
    ltac:(lia) Hn ltac:(lia) ltac:(lia) (buf_readLE32_eq b)) as H1. rewrite drop_0 in H1.
  destruct (hash_all_words 4 step32_word h (take n b)) as [h1 r1]. destruct H1 as (-> & H1 & L1).
  pose proof (buf_word_loop_eq n (buf_byte b) step32_byte 1 (n - length r1) n h1 b
    ltac:(lia) Hn ltac:(lia) ltac:(lia) (buf_byte_eq b)) as H2. rewrite <- H1 in H2.
  destruct (hash_all_words 1 step32_byte h1 r1) as [h2 r2]. by destruct H2 as (-> & _).
Qed.

Lemma buf_tail64 (b : list byte) (n : nat) (h : Z) :
  (n ≤ length b)%nat →
  (let '(i, h64) := buf_word_loop n (λ i, buf_readLE64 b i endian_detected) step64_word 8 0 n h in
   let '(i, h64) := if (i + 4 <=? n)%nat
                    then ((i + 4)%nat, step64_half h64 (buf_readLE32 b i endian_detected))
                    else (i, h64) in
   let '(_, h64) := buf_word_loop n (buf_byte b) step64_byte 1 i n h64 in
   avalanche64 h64) = tail64 h (take n b).
Proof.
  intros Hn. unfold tail64.
  pose proof (buf_word_loop_eq n (λ i, buf_readLE64 b i endian_detected) step64_word 8 0 n h b
    ltac:(lia) Hn ltac:(lia) ltac:(lia) (buf_readLE64_eq b)) as H1. rewrite drop_0 in H1.
  destruct (hash_all_words 8 step64_word h (take n b)) as [h1 r1]. destruct H1 as (-> & H1 & L1).
  destruct (Nat.leb_spec 4 (length r1)); destruct (Nat.leb_spec (n - length r1 + 4) n); try lia.
  - rewrite buf_readLE32_eq by lia.
    assert (take 4 (drop (n - length r1) b) = take 4 r1) as ->.
    { rewrite H1 at 2. rewrite skipn_firstn_comm, take_take. f_equal. lia. }
    pose proof (buf_word_loop_eq n (buf_byte b) step64_byte 1 (n - length r1 + 4) n
      (step64_half h1 (le_val (take 4 r1))) b
      ltac:(lia) Hn ltac:(lia) ltac:(lia) (buf_byte_eq b)) as H2.
    rewrite <- drop_drop, <- H1 in H2.
    destruct (hash_all_words 1 step64_byte _ (drop 4 r1)) as [h2 r2]. by destruct H2 as (-> & _).
  - pose proof (buf_word_loop_eq n (buf_byte b) step64_byte 1 (n - length r1) n h1 b
      ltac:(lia) Hn ltac:(lia) ltac:(lia) (buf_byte_eq b)) as H2. rewrite <- H1 in H2.
    destruct (hash_all_words 1 step64_byte h1 r1) as [h2 r2]. by destruct H2 as (-> & _).
Qed.

Abbreviation hashed32 := (hashed 4 round32 init32).
Abbreviation hashed64 := (hashed 8 round64 init64).

Lemma hashed_size (w : nat) (round : Z → Z → Z) (init : Z → lanes) (sd : Z) (st : XXH_istate)
    (t : list byte) :
  (0 < w)%nat → hashed w round init sd st t → (Z.to_nat (memsize st) ≤ length (buf st))%nat.
Proof.
  intros Hw [H1 H2 H3 H4 H5 H6 H7]. rewrite H5, H6, Nat2Z.id, length_drop.
  pose proof (Nat.mul_succ_div_gt (length t) (4 * w) ltac:(lia)). lia.
Qed.

Lemma digest32_hashed (sd : Z) (st : XXH_istate) (t : list byte) :
  hashed32 sd st t → XXH32_digest st = xxh32 sd t.
Proof.
  intros Hh. pose proof (hashed_size 4 _ _ _ _ _ ltac:(lia) Hh) as Hn.
  pose proof Hh as [H1 H2 H3 H4 H5 H6 H7].
  unfold XXH32_digest, XXH32_digest_endian. rewrite buf_tail32 by done.
  unfold xxh32. rewrite H7, H1, H3, H4. change (4 * 4)%nat with 16%nat. do 2 f_equal. f_equal.
  destruct (Nat.leb_spec 16 (length t)); [|]; case_if; zbool; (done || lia).
Qed.

Lemma digest64_hashed (sd : Z) (st : XXH_istate) (t : list byte) :
  hashed64 sd st t → XXH64_digest st = xxh64 sd t.
Proof.
  intros Hh. pose proof (hashed_size 8 _ _ _ _ _ ltac:(lia) Hh) as Hn.
  pose proof Hh as [H1 H2 H3 H4 H5 H6 H7].
  unfold XXH64_digest, XXH64_digest_endian. rewrite buf_tail64 by done.
  unfold xxh64. rewrite H7, H1, H3, H4. change (4 * 8)%nat with 32%nat. do 2 f_equal. f_equal.
  destruct (Nat.leb_spec 32 (length t)); [|]; case_if; zbool; (done || lia).
Qed.

Lemma reset32_hashed (sd : Z) (st : XXH_istate) :
  length (buf st) = 16%nat → hashed32 sd (XXH32_reset st sd) [].
Proof. intros Hb. by constructor. Qed.

Lemma reset64_hashed (sd : Z) (st : XXH_istate) :
  length (buf st) = 32%nat → hashed64 sd (XXH64_reset st sd) [].
Proof. intros Hb. by constructor. Qed.

Lemma update32_hashed (sd : Z) (st : XXH_istate) (t l : list byte) (input : Z) m :
  hashed32 sd st t → bytes_at m input l → zlen (t ++ l) < 2 ^ 64 → zlen l < 2 ^ ptr_bits - 32 →
  ∃ st', XXH32_update st input (zlen l) m = Ret st' m ∧ hashed32 sd st' (t ++ l).
Proof.
  intros. rewrite update32_gen. apply update_gen_hashed; try done; try lia.
  - intros. by apply stripe32_at.
  - intros b v Hb. unfold buf_stripe32, absorb. by rewrite !buf_readLE32_eq, drop_0 by lia.
Qed.

Lemma update64_hashed (sd : Z) (st : XXH_istate) (t l : list byte) (input : Z) m :
  hashed64 sd st t → bytes_at m input l → zlen (t ++ l) < 2 ^ 64 → zlen l < 2 ^ ptr_bits - 32 →
  ∃ st', XXH64_update st input (zlen l) m = Ret st' m ∧ hashed64 sd st' (t ++ l).
Proof.
  intros. rewrite update64_gen. apply update_gen_hashed; try done; try lia.
  - intros. by apply stripe64_at.
  - intros b v Hb. unfold buf_stripe64, absorb. by rewrite !buf_readLE64_eq, drop_0 by lia.
Qed.

(** A state of the right shape, whatever it has been fed. *)
Record shaped (w : nat) (st : XXH_istate) : Prop := {
  sh_buf : length (buf st) = (4 * w)%nat;
  sh_size : 0 ≤ memsize st < 4 * Z.of_nat w
}.

Lemma hashed_shaped (w : nat) (round : Z → Z → Z) (init : Z → lanes) (sd : Z) (st : XXH_istate)
    (t : list byte) :
  (0 < w)%nat → hashed w round init sd st t → shaped w st.
Proof.
  intros Hw [H1 H2 H3 H4 H5 H6 H7]. constructor; [done|]. rewrite H5, length_drop.
  pose proof (Nat.mul_succ_div_gt (length t) (4 * w) ltac:(lia)). lia.
Qed.

(** An update reads its input and keeps the shape. *)
Lemma update32_shaped (st : XXH_istate) (l : list byte) (input : Z) m :
  shaped 4 st → bytes_at m input l → zlen l < 2 ^ ptr_bits - 32 →
  ∃ st', XXH32_update st input (zlen l) m = Ret st' m ∧ shaped 4 st'.
Proof.
  intros [H1 H2] Hb Hsz. rewrite update32_gen. unfold update_gen.
  set (r0 := take (Z.to_nat (memsize st)) (buf st)).
  assert (Hr0 : zlen r0 = memsize st) by (unfold r0; rewrite length_take_le; lia).
  rewrite <- Hr0. assert (usize (zlen r0 + zlen l) = zlen r0 + zlen l) as ->.
  { unfold usize. apply wrap_small. lia. }
  case_if; zbool.
  - unfold bind. rewrite (copy_in_at (buf st) (length r0) input l m) by (done || lia).
    eexists. split; [reflexivity|]. constructor; cbn [buf memsize].
    + rewrite copy_in_length; lia.
    + rewrite !u32_small by (rewrite ?u32_small; lia). lia.
  - destruct (update_first 4 round32 (λ b v, buf_stripe32 b v endian_detected) st r0 l input m) as
      (p1 & v & b & l1 & Hrun & Hb1 & He & Hl1 & Hlb & _ & _); try done; try lia.
    { intros b v Hbl. unfold buf_stripe32, absorb. by rewrite !buf_readLE32_eq, drop_0 by lia. }
    { unfold r0. by rewrite length_take_le by lia. }
    unfold bind at 1. change (4 * Z.of_nat 4) with 16 in Hrun. rewrite Hrun. cbv iota beta.
    rewrite Nat2Z.id.
    destruct (update_rest 4 round32 (λ p e, p <=? e - 16)
      (λ p v, stripe32 p v endian_detected XXH_unaligned) (S (length l)) (u64 (total_len st + zlen l))
      (seed st) p1 (input + zlen l) v b l1 m) as (st' & Hrun' & _ & _ & _ & U4 & U5 & _); try done; try lia.
    { intros. by apply stripe32_at. }
    exists st'. split; [exact Hrun'|]. constructor; [done|]. rewrite U4, length_drop.
    pose proof (Nat.mul_succ_div_gt (length l1) (4 * 4) ltac:(lia)). lia.
Qed.

(** * Theorems *)

(** on every target, [XXH32] is the function [xxh32] of the bytes it is
    given: the value depends neither on the byte order of the target nor on
    the alignment of the input. *)
Theorem XXH32_is_xxh32 m (unaligned_access : bool) (input sd : Z) (l : list byte) :
  bytes_at m input l → XXH32 unaligned_access input (zlen l) sd m = Ret (xxh32 sd l) m.
Proof. intros Hb. unfold XXH32. case_if; by apply XXH32_endian_align_at. Qed.

(** the same for [XXH64]. *)
Theorem XXH64_is_xxh64 m (unaligned_access : bool) (input sd : Z) (l : list byte) :
  bytes_at m input l → XXH64 unaligned_access input (zlen l) sd m = Ret (xxh64 sd l) m.
Proof. intros Hb. unfold XXH64. case_if; by apply XXH64_endian_align_at. Qed.

(** Feeding the pieces [ls], each at its address, one after the other. *)
Fixpoint feed (update : XXH_istate → Z → Z → prog XXH_istate) (st : XXH_istate)
    (ls : list (Z * list byte)) : prog XXH_istate :=
  match ls with
  | [] => ret st
  | (a, l) :: ls => let! st := update st a (zlen l) in feed update st ls
  end.

Lemma feed_hashed (w : nat) (round : Z → Z → Z) (init : Z → lanes) (sd : Z)
    (update : XXH_istate → Z → Z → prog XXH_istate) (ls : list (Z * list byte)) m
    (st : XXH_istate) (t : list byte) :
  (∀ st t l a, hashed w round init sd st t → bytes_at m a l → zlen (t ++ l) < 2 ^ 64 →
     zlen l < 2 ^ ptr_bits - 32 → ∃ st', update st a (zlen l) m = Ret st' m ∧
       hashed w round init sd st' (t ++ l)) →
  hashed w round init sd st t →
  Forall (λ p, bytes_at m p.1 p.2 ∧ zlen p.2 < 2 ^ ptr_bits - 32) ls →
  zlen (t ++ concat ls.*2) < 2 ^ 64 →
  ∃ st', feed update st ls m = Ret st' m ∧ hashed w round init sd st' (t ++ concat ls.*2).
Proof.
  intros Hu. revert st t. induction ls as [|[a l] ls IH]; intros st t Hh HF Hsz; simpl.
  - exists st. by rewrite app_nil_r.
  - apply Forall_cons_1 in HF as [[Hb Hl] HF]. simpl in Hb, Hl, Hsz.
    rewrite app_assoc in Hsz. destruct (Hu st t l a) as (st1 & Hr & Hh1); try done.
    { rewrite length_app in Hsz. lia. }
    unfold bind. rewrite Hr, app_assoc. by apply IH.
Qed.

(** hashing a text piece by piece with [XXH32_reset], [XXH32_update] and
    [XXH32_digest] gives the same value as hashing it at once, however it is
    cut into pieces. *)
Theorem XXH32_incremental m (st : XXH_istate) (sd : Z) (ls : list (Z * list byte)) :
  length (buf st) = 16%nat →
  Forall (λ p, bytes_at m p.1 p.2 ∧ zlen p.2 < 2 ^ ptr_bits - 32) ls →
  zlen (concat ls.*2) < 2 ^ 64 →
  ∃ st', feed XXH32_update (XXH32_reset st sd) ls m = Ret st' m ∧
    XXH32_digest st' = xxh32 sd (concat ls.*2).
Proof.
  intros Hb HF Hsz.
  destruct (feed_hashed 4 round32 init32 sd XXH32_update ls m (XXH32_reset st sd) []) as (st' & Hr & Hh);
    [intros; by apply update32_hashed|by apply reset32_hashed|done|done|].
  exists st'. split; [done|]. by apply digest32_hashed.
Qed.

(** C39: the same for the 64-bit functions. *)
Theorem XXH64_incremental m (st : XXH_istate) (sd : Z) (ls : list (Z * list byte)) :
  length (buf st) = 32%nat →
  Forall (λ p, bytes_at m p.1 p.2 ∧ zlen p.2 < 2 ^ ptr_bits - 32) ls →
  zlen (concat ls.*2) < 2 ^ 64 →
  ∃ st', feed XXH64_update (XXH64_reset st sd) ls m = Ret st' m ∧
    XXH64_digest st' = xxh64 sd (concat ls.*2).
Proof.
  intros Hb HF Hsz.
  destruct (feed_hashed 8 round64 init64 sd XXH64_update ls m (XXH64_reset st sd) []) as (st' & Hr & Hh);
    [intros; by apply update64_hashed|by apply reset64_hashed|done|done|].
  exists st'. split; [done|]. by apply digest64_hashed.
Qed.

End incremental.
