(* ===== verification/XxhashExamples.v ===== *)
(** Concrete runs of xxHash. *)

From Stdlib Require Import ZArith Lia Strings.Byte.
From stdpp Require Import base gmap list fin_maps numbers.
From S2P Require Import Prelude Mem Lz4Common Xxhash XxhashProofs.

(** A text of 40 bytes at 1000, in pieces of 7 and 33 bytes. *)
Definition hx_text : list byte := bytes_of (Z.of_nat <$> seq 1 40).
Definition hx_mem : mem := place 1000 hx_text ∅.
Definition hx_pieces : list (Z * list byte) := [(1000, take 7 hx_text); (1007, drop 7 hx_text)].

(** A state with something in its buffer. *)
Definition hx_state (n : nat) : XXH_istate :=
  {| total_len := 5; seed := 1; vs := init32 7; buf := replicate n xff; memsize := 3 |}.

(** A big-endian 32-bit target. *)
Definition ppc : Arch := {| LZ4_64bits := false; LZ4_isLittleEndian := false |}.

Lemma XXH32_is_xxh32_witness : @XXH32 ppc true 1000 (zlen hx_text) 0 hx_mem = Ret (xxh32 0 hx_text) hx_mem.
Proof. apply (@XXH32_is_xxh32 ppc hx_mem true 1000 0 hx_text). ground. Defined.

Lemma XXH64_is_xxh64_witness : @XXH64 ppc true 1000 (zlen hx_text) 0 hx_mem = Ret (xxh64 0 hx_text) hx_mem.
Proof. apply (@XXH64_is_xxh64 ppc hx_mem true 1000 0 hx_text). ground. Defined.

Lemma XXH32_incremental_witness :
  ∃ st', feed (@XXH32_update x86_64) (XXH32_reset (hx_state 16) 0) hx_pieces hx_mem = Ret st' hx_mem ∧
    @XXH32_digest x86_64 st' = xxh32 0 (concat hx_pieces.*2).
Proof.
  apply (@XXH32_incremental x86_64 hx_mem (hx_state 16) 0 hx_pieces); [ground| |ground].
  repeat (constructor; [split; ground|]). constructor.
Defined.

Lemma XXH64_incremental_witness :
  ∃ st', feed (@XXH64_update x86_64) (XXH64_reset (hx_state 32) 0) hx_pieces hx_mem = Ret st' hx_mem ∧
    @XXH64_digest x86_64 st' = xxh64 0 (concat hx_pieces.*2).
Proof.
  apply (@XXH64_incremental x86_64 hx_mem (hx_state 32) 0 hx_pieces); [ground| |ground].
  repeat (constructor; [split; ground|]). constructor.
Defined.
