(* ===== verification/Lz4Frame.v ===== *)
(** The LZ4 frame format, compression side: error codes, the frame header,
    blocks, and the functions that write a frame in one or in many calls
    (src/src/lz4/lib/lz4frame.c, up to "Decompression functions").

    The enumerations of the interface are integers, as the code computes with
    them and does not check them.  A function that allocates takes the address
    the allocator returns as an argument; [free] leaves the memory as it is. *)

From Stdlib Require Import ZArith Lia Strings.Byte Strings.String.
From stdpp Require Import base gmap list fin_maps numbers.
From S2P Require Import Prelude Mem Lz4Common Lz4Decompress Lz4Compress Lz4Stream Lz4Hc Xxhash.

(** * Error codes *)

Inductive LZ4F_errorCodes : Type :=
| OK_NoError | ERROR_GENERIC | ERROR_maxBlockSize_invalid | ERROR_blockMode_invalid
| ERROR_contentChecksumFlag_invalid | ERROR_compressionLevel_invalid | ERROR_headerVersion_wrong
| ERROR_blockChecksum_unsupported | ERROR_reservedFlag_set | ERROR_allocation_failed
| ERROR_srcSize_tooLarge | ERROR_dstMaxSize_tooSmall | ERROR_frameHeader_incomplete
| ERROR_frameType_unknown | ERROR_frameSize_wrong | ERROR_srcPtr_wrong | ERROR_decompressionFailed
| ERROR_headerChecksum_invalid | ERROR_contentChecksum_invalid | ERROR_maxCode.

(** The value of the enumerator. *)
Definition error_number (e : LZ4F_errorCodes) : Z :=
  match e with
  | OK_NoError => 0 | ERROR_GENERIC => 1 | ERROR_maxBlockSize_invalid => 2
  | ERROR_blockMode_invalid => 3 | ERROR_contentChecksumFlag_invalid => 4
  | ERROR_compressionLevel_invalid => 5 | ERROR_headerVersion_wrong => 6
  | ERROR_blockChecksum_unsupported => 7 | ERROR_reservedFlag_set => 8
  | ERROR_allocation_failed => 9 | ERROR_srcSize_tooLarge => 10 | ERROR_dstMaxSize_tooSmall => 11
  | ERROR_frameHeader_incomplete => 12 | ERROR_frameType_unknown => 13
  | ERROR_frameSize_wrong => 14 | ERROR_srcPtr_wrong => 15 | ERROR_decompressionFailed => 16
  | ERROR_headerChecksum_invalid => 17 | ERROR_contentChecksum_invalid => 18
  | ERROR_maxCode => 19
  end.

Definition LZ4F_errorStrings : list string :=
  [ "OK_NoError"; "ERROR_GENERIC"; "ERROR_maxBlockSize_invalid"; "ERROR_blockMode_invalid";
    "ERROR_contentChecksumFlag_invalid"; "ERROR_compressionLevel_invalid";
    "ERROR_headerVersion_wrong"; "ERROR_blockChecksum_unsupported"; "ERROR_reservedFlag_set";
    "ERROR_allocation_failed"; "ERROR_srcSize_tooLarge"; "ERROR_dstMaxSize_tooSmall";
    "ERROR_frameHeader_incomplete"; "ERROR_frameType_unknown"; "ERROR_frameSize_wrong";
    "ERROR_srcPtr_wrong"; "ERROR_decompressionFailed"; "ERROR_headerChecksum_invalid";
    "ERROR_contentChecksum_invalid"; "ERROR_maxCode" ]%string.

(** * Constants *)

Definition MB (n : Z) : Z := n * 2 ^ 20.
Definition _1BIT : Z := 0x01.
Definition _2BITS : Z := 0x03.
Definition _3BITS : Z := 0x07.
Definition _4BITS : Z := 0x0F.
Definition LZ4F_MAGIC_SKIPPABLE_START : Z := 0x184D2A50.
Definition LZ4F_MAGICNUMBER : Z := 0x184D2204.
Definition LZ4F_BLOCKUNCOMPRESSED_FLAG : Z := 0x80000000.
Definition minFHSize : Z := 7.
Definition maxFHSize : Z := 15.
Definition BHSize : Z := 4.
Definition minHClevel : Z := 3.
Definition LZ4F_VERSION : Z := 100.

Definition LZ4F_max64KB : Z := 4.
Definition LZ4F_BLOCKSIZEID_DEFAULT : Z := LZ4F_max64KB.
Definition LZ4F_blockLinked : Z := 0.
Definition LZ4F_blockIndependent : Z := 1.
Definition LZ4F_contentChecksumEnabled : Z := 1.
Definition LZ4F_frame : Z := 0.
Definition LZ4F_skippableFrame : Z := 1.

(** * Types *)

Record LZ4F_frameInfo_t : Type := FrameInfo {
  blockSizeID : Z;
  blockMode : Z;
  contentChecksumFlag : Z;
  frameType : Z;
  contentSize : Z
}.

Record LZ4F_preferences_t : Type := Prefs {
  frameInfo : LZ4F_frameInfo_t;
  pf_compressionLevel : Z;
  autoFlush : Z
}.

(** [memset(.., 0, ..)] *)
Definition zero_info : LZ4F_frameInfo_t := FrameInfo 0 0 0 0 0.
Definition zero_prefs : LZ4F_preferences_t := Prefs zero_info 0 0.

(** What [lz4CtxPtr] points to: nothing, or a state of one of the compressors. *)
Inductive lz4_ctx : Type :=
| NoCtx
| FastCtx (s : LZ4_stream_t_internal)
| HcCtx (hc : LZ4HC_Data_Structure).

Record LZ4F_cctx_t : Type := Cctx {
  prefs : LZ4F_preferences_t;
  c_version : Z;
  cStage : Z;
  c_maxBlockSize : Z;
  c_maxBufferSize : Z;
  tmpBuff : Z;
  c_tmpIn : Z;
  c_tmpInSize : Z;
  totalInSize : Z;
  c_xxh : XXH_istate;
  lz4CtxPtr : Z;
  lz4Ctx : lz4_ctx;
  lz4CtxLevel : Z
}.

(** A context of zeros. *)
Definition zero_xxh : XXH_istate := IState 0 0 (Lanes 0 0 0 0) (replicate 16 x00) 0.

Definition zero_cctx : LZ4F_cctx_t :=
  Cctx zero_prefs 0 0 0 0 NULL NULL 0 0 zero_xxh NULL NoCtx 0.

(** Assignments to the fields of a context. *)
Definition with_tmpIn (c : LZ4F_cctx_t) (p n : Z) : LZ4F_cctx_t :=
  Cctx (prefs c) (c_version c) (cStage c) (c_maxBlockSize c) (c_maxBufferSize c) (tmpBuff c)
       p n (totalInSize c) (c_xxh c) (lz4CtxPtr c) (lz4Ctx c) (lz4CtxLevel c).

Definition with_ctx (c : LZ4F_cctx_t) (x : lz4_ctx) : LZ4F_cctx_t :=
  Cctx (prefs c) (c_version c) (cStage c) (c_maxBlockSize c) (c_maxBufferSize c) (tmpBuff c)
       (c_tmpIn c) (c_tmpInSize c) (totalInSize c) (c_xxh c) (lz4CtxPtr c) x (lz4CtxLevel c).

Definition with_ctx_at (c : LZ4F_cctx_t) (p : Z) (x : lz4_ctx) (level : Z) : LZ4F_cctx_t :=
  Cctx (prefs c) (c_version c) (cStage c) (c_maxBlockSize c) (c_maxBufferSize c) (tmpBuff c)
       (c_tmpIn c) (c_tmpInSize c) (totalInSize c) (c_xxh c) p x level.

Definition with_prefs (c : LZ4F_cctx_t) (p : LZ4F_preferences_t) : LZ4F_cctx_t :=
  Cctx p (c_version c) (cStage c) (c_maxBlockSize c) (c_maxBufferSize c) (tmpBuff c)
       (c_tmpIn c) (c_tmpInSize c) (totalInSize c) (c_xxh c) (lz4CtxPtr c) (lz4Ctx c) (lz4CtxLevel c).

Definition with_buffer (c : LZ4F_cctx_t) (maxBlock maxBuffer buff : Z) : LZ4F_cctx_t :=
  Cctx (prefs c) (c_version c) (cStage c) maxBlock maxBuffer buff
       (c_tmpIn c) (c_tmpInSize c) (totalInSize c) (c_xxh c) (lz4CtxPtr c) (lz4Ctx c) (lz4CtxLevel c).

Definition with_hash (c : LZ4F_cctx_t) (total : Z) (h : XXH_istate) : LZ4F_cctx_t :=
  Cctx (prefs c) (c_version c) (cStage c) (c_maxBlockSize c) (c_maxBufferSize c) (tmpBuff c)
       (c_tmpIn c) (c_tmpInSize c) total h (lz4CtxPtr c) (lz4Ctx c) (lz4CtxLevel c).

Definition with_stage (c : LZ4F_cctx_t) (stage : Z) : LZ4F_cctx_t :=
  Cctx (prefs c) (c_version c) stage (c_maxBlockSize c) (c_maxBufferSize c) (tmpBuff c)
       (c_tmpIn c) (c_tmpInSize c) (totalInSize c) (c_xxh c) (lz4CtxPtr c) (lz4Ctx c) (lz4CtxLevel c).

(** Assignments to [blockSizeID], [contentSize] and [blockMode] of the preferences. *)
Definition with_info (p : LZ4F_preferences_t) (bsid mode size : Z) : LZ4F_preferences_t :=
  Prefs (FrameInfo bsid mode (contentChecksumFlag (frameInfo p)) (frameType (frameInfo p)) size)
        (pf_compressionLevel p) (autoFlush p).

Definition with_autoFlush (p : LZ4F_preferences_t) (v : Z) : LZ4F_preferences_t :=
  Prefs (frameInfo p) (pf_compressionLevel p) v.

(** [calloc]: the object at the address [p] that is returned, filled with zeros;
    [NULL] is a failure. *)
Definition calloc (p n : Z) : prog Z :=
  if p =? NULL then ret NULL else λ m, Ret p (place p (replicate (Z.to_nat n) x00) m).

Definition b2i (b : bool) : Z := if b then 1 else 0.

Section frame.
Context {arch : Arch}.

(** The build option of xxHash. *)
Context (unaligned_access : bool).

(** [(size_t)-ERROR_..] *)
Definition error (e : LZ4F_errorCodes) : Z := usize (- error_number e).

Definition LZ4F_isError (code : Z) : bool := code >? error ERROR_maxCode.

(** [None]: an access outside of the table. *)
Definition LZ4F_getErrorName (code : Z) : option string :=
  if LZ4F_isError code then
    let i := - s32 code in
    if i <? 0 then None else LZ4F_errorStrings !! Z.to_nat i
  else Some "Unspecified error code"%string.

(** * Private functions *)

Definition blockSizes : list Z := [KB 64; KB 256; MB 1; MB 4].

Definition LZ4F_getBlockSize (blockSizeID : Z) : Z :=
  let blockSizeID := if blockSizeID =? 0 then LZ4F_BLOCKSIZEID_DEFAULT else blockSizeID in
  let blockSizeID := u32 (blockSizeID - 4) in
  if blockSizeID >? 3 then error ERROR_maxBlockSize_invalid
  else nth (Z.to_nat blockSizeID) blockSizes 0.

Definition LZ4F_readLE32 (srcPtr : Z) : prog Z :=
  let! b0 := load8 srcPtr in
  let! b1 := load8 (srcPtr + 1) in
  let! b2 := load8 (srcPtr + 2) in
  let! b3 := load8 (srcPtr + 3) in
  let value32 := b0 in
  let value32 := u32 (value32 + Z.shiftl b1 8) in
  let value32 := u32 (value32 + Z.shiftl b2 16) in
  ret (u32 (value32 + u32 (Z.shiftl b3 24))).

Definition LZ4F_writeLE32 (dstPtr value32 : Z) : prog unit :=
  store8 dstPtr value32 ;!
  store8 (dstPtr + 1) (Z.shiftr value32 8) ;!
  store8 (dstPtr + 2) (Z.shiftr value32 16) ;!
  store8 (dstPtr + 3) (Z.shiftr value32 24).

Definition LZ4F_readLE64 (srcPtr : Z) : prog Z :=
  let! b0 := load8 srcPtr in
  let! b1 := load8 (srcPtr + 1) in
  let! b2 := load8 (srcPtr + 2) in
  let! b3 := load8 (srcPtr + 3) in
  let! b4 := load8 (srcPtr + 4) in
  let! b5 := load8 (srcPtr + 5) in
  let! b6 := load8 (srcPtr + 6) in
  let! b7 := load8 (srcPtr + 7) in
  let value64 := b0 in
  let value64 := u64 (value64 + Z.shiftl b1 8) in
  let value64 := u64 (value64 + Z.shiftl b2 16) in
  let value64 := u64 (value64 + u64 (Z.shiftl b3 24)) in
  let value64 := u64 (value64 + u64 (Z.shiftl b4 32)) in
  let value64 := u64 (value64 + u64 (Z.shiftl b5 40)) in
  let value64 := u64 (value64 + u64 (Z.shiftl b6 48)) in
  ret (u64 (value64 + u64 (Z.shiftl b7 56))).

Definition LZ4F_writeLE64 (dstPtr value64 : Z) : prog unit :=
  store8 dstPtr value64 ;!
  store8 (dstPtr + 1) (Z.shiftr value64 8) ;!
  store8 (dstPtr + 2) (Z.shiftr value64 16) ;!
  store8 (dstPtr + 3) (Z.shiftr value64 24) ;!
  store8 (dstPtr + 4) (Z.shiftr value64 32) ;!
  store8 (dstPtr + 5) (Z.shiftr value64 40) ;!
  store8 (dstPtr + 6) (Z.shiftr value64 48) ;!
  store8 (dstPtr + 7) (Z.shiftr value64 56).

Definition LZ4F_headerChecksum (header length : Z) : prog Z :=
  let! xxh := XXH32 unaligned_access header length 0 in
  ret (u8 (Z.shiftr xxh 8)).

(** * Sizes *)

Fixpoint optimal_loop (fuel : nat) (requestedBSID srcSize proposedBSID maxBlockSize : Z) :
    prog Z :=
  match fuel with
  | O => nofuel
  | S fuel =>
      if requestedBSID >? proposedBSID then
        if srcSize <=? maxBlockSize then ret proposedBSID
        else optimal_loop fuel requestedBSID srcSize (proposedBSID + 1)
               (usize (Z.shiftl maxBlockSize 2))
      else ret requestedBSID
  end.

Definition LZ4F_optimalBSID (requestedBSID srcSize : Z) : prog Z :=
  optimal_loop (S (Z.to_nat (requestedBSID - LZ4F_max64KB))) requestedBSID srcSize LZ4F_max64KB
    (KB 64).

Definition LZ4F_compressBound (srcSize : Z) (preferencesPtr : option LZ4F_preferences_t) : Z :=
  let prefsNull := Prefs (FrameInfo 0 0 LZ4F_contentChecksumEnabled 0 0) 0 0 in
  let prefs := default prefsNull preferencesPtr in
  let bid := blockSizeID (frameInfo prefs) in
  let blockSize := LZ4F_getBlockSize bid in
  let nbBlocks := u32 (u32 (srcSize / blockSize) + 1) in
  let lastBlockSize := if negb (autoFlush prefs =? 0) then srcSize mod blockSize else blockSize in
  let blockInfo := 4 in
  let frameEnd := usize (4 + u32 (contentChecksumFlag (frameInfo prefs) * 4)) in
  usize (blockInfo * nbBlocks + blockSize * u32 (nbBlocks - 1) + lastBlockSize + frameEnd).

Definition LZ4F_compressFrameBound (srcSize : Z) (preferencesPtr : option LZ4F_preferences_t) :
    prog Z :=
  let prefs := default zero_prefs preferencesPtr in
  let! bsid := LZ4F_optimalBSID (blockSizeID (frameInfo prefs)) srcSize in
  let prefs := with_autoFlush
    (with_info prefs bsid (blockMode (frameInfo prefs)) (contentSize (frameInfo prefs))) 1 in
  let headerSize := maxFHSize in
  ret (usize (headerSize + LZ4F_compressBound srcSize (Some prefs))).

(** * Blocks *)

(** A compression function on the state [lz4Ctx] points to. *)
Definition compressFunc_t : Type := LZ4F_cctx_t → Z → Z → Z → Z → Z → prog (LZ4F_cctx_t * Z).

Definition LZ4F_compressBlock (cctx : LZ4F_cctx_t) (dst src srcSize : Z) (compress : compressFunc_t)
    (level : Z) : prog (LZ4F_cctx_t * Z) :=
  let cSizePtr := dst in
  let! (cctx, r) := compress cctx src (cSizePtr + 4) (s32 srcSize) (s32 (srcSize - 1)) level in
  let cSize := u32 r in
  LZ4F_writeLE32 cSizePtr cSize ;!
  if cSize =? 0 then
    let cSize := u32 srcSize in
    LZ4F_writeLE32 cSizePtr (u32 (cSize + LZ4F_BLOCKUNCOMPRESSED_FLAG)) ;!
    memcpy (cSizePtr + 4) src srcSize ;!
    ret (cctx, u32 (cSize + 4))
  else ret (cctx, u32 (cSize + 4)).

(** The casts of [lz4CtxPtr]: an access through one that does not fit what was
    last stored there is not defined. *)
Definition as_stream (x : lz4_ctx) : prog LZ4_stream_t_internal :=
  match x with FastCtx s => ret s | _ => fault end.

Definition as_streamHC (x : lz4_ctx) : prog LZ4HC_Data_Structure :=
  match x with HcCtx hc => ret hc | _ => fault end.

Definition LZ4F_localLZ4_compress_limitedOutput_withState : compressFunc_t :=
  λ cctx src dst srcSize dstSize _,
    let! (s, n) := LZ4_compress_limitedOutput_withState src dst srcSize dstSize in
    ret (with_ctx cctx (FastCtx s), n).

Definition LZ4F_localLZ4_compress_limitedOutput_continue : compressFunc_t :=
  λ cctx src dst srcSize dstSize _,
    let! s := as_stream (lz4Ctx cctx) in
    let! (s, n) := LZ4_compress_limitedOutput_continue s src dst srcSize dstSize in
    ret (with_ctx cctx (FastCtx s), n).

Definition local_compress_HC_extStateHC : compressFunc_t :=
  λ cctx src dst srcSize dstSize level,
    let! hc := as_streamHC (lz4Ctx cctx) in
    let! (hc, n) := LZ4_compress_HC_extStateHC (lz4CtxPtr cctx) hc src dst srcSize dstSize level in
    ret (with_ctx cctx (HcCtx hc), n).

Definition LZ4F_localLZ4_compressHC_limitedOutput_continue : compressFunc_t :=
  λ cctx src dst srcSize dstSize _,
    let! hc := as_streamHC (lz4Ctx cctx) in
    let! (hc, n) := LZ4_compress_HC_continue hc src dst srcSize dstSize in
    ret (with_ctx cctx (HcCtx hc), n).

Definition LZ4F_selectCompression (blockMode level : Z) : compressFunc_t :=
  if level <? minHClevel then
    if blockMode =? LZ4F_blockIndependent then LZ4F_localLZ4_compress_limitedOutput_withState
    else LZ4F_localLZ4_compress_limitedOutput_continue
  else if blockMode =? LZ4F_blockIndependent then local_compress_HC_extStateHC
  else LZ4F_localLZ4_compressHC_limitedOutput_continue.

Definition LZ4F_localSaveDict (cctx : LZ4F_cctx_t) : prog (LZ4F_cctx_t * Z) :=
  if pf_compressionLevel (prefs cctx) <? minHClevel then
    let! s := as_stream (lz4Ctx cctx) in
    let! (s, n) := LZ4_saveDict s (tmpBuff cctx) (KB 64) in
    ret (with_ctx cctx (FastCtx s), n)
  else
    let! hc := as_streamHC (lz4Ctx cctx) in
    let! (hc, n) := LZ4_saveDictHC hc (tmpBuff cctx) (KB 64) in
    ret (with_ctx cctx (HcCtx hc), n).

(** * Resources *)

(** [cctxPtr]: what the allocator returns. *)
Definition LZ4F_createCompressionContext (cctxPtr version : Z) : option LZ4F_cctx_t * Z :=
  if cctxPtr =? NULL then (None, error ERROR_allocation_failed)
  else (Some (Cctx zero_prefs (u32 version) 0 0 0 NULL NULL 0 0 zero_xxh NULL NoCtx 0),
        error_number OK_NoError).

(** * The frame header *)

(** The table of the compressor, allocated at [newCtx] when there is none that
    is large enough.  [hc0] is what the memory there holds, seen as a state of
    the high compression mode: [LZ4_createStreamHC] leaves it uninitialised. *)
Definition compressBegin_ctx (cctx : LZ4F_cctx_t) (newCtx : Z) (hc0 : LZ4HC_Data_Structure) :
    prog LZ4F_cctx_t :=
  let tableID := if pf_compressionLevel (prefs cctx) <? minHClevel then 1 else 2 in
  if lz4CtxLevel cctx <? tableID then
    if pf_compressionLevel (prefs cctx) <? minHClevel then
      (if newCtx =? NULL then fault else ret (with_ctx_at cctx newCtx (FastCtx LZ4_createStream) tableID))
    else ret (with_ctx_at cctx newCtx (HcCtx hc0) tableID)
  else ret cctx.

(** The reset of the compressor, whichever of them the table was last used by. *)
Definition compressBegin_reset (cctx : LZ4F_cctx_t) (hc0 : LZ4HC_Data_Structure) :
    prog LZ4F_cctx_t :=
  if lz4CtxPtr cctx =? NULL then fault
  else if pf_compressionLevel (prefs cctx) <? minHClevel then
    ret (with_ctx cctx (FastCtx LZ4_resetStream))
  else
    let hc := match lz4Ctx cctx with HcCtx hc => hc | _ => hc0 end in
    ret (with_ctx cctx (HcCtx (LZ4_resetStreamHC hc (pf_compressionLevel (prefs cctx))))).

(** The header itself: the address after it. *)
Definition compressBegin_header (fi : LZ4F_frameInfo_t) (dstPtr : Z) : prog Z :=
  LZ4F_writeLE32 dstPtr LZ4F_MAGICNUMBER ;!
  let dstPtr := dstPtr + 4 in
  let headerStart := dstPtr in
  store8 dstPtr (Z.shiftl (Z.land 1 _2BITS) 6
                 + Z.shiftl (Z.land (blockMode fi) _1BIT) 5
                 + Z.shiftl (Z.land (contentChecksumFlag fi) _1BIT) 2
                 + Z.shiftl (b2i (contentSize fi >? 0)) 3) ;!
  let dstPtr := dstPtr + 1 in
  store8 dstPtr (Z.shiftl (Z.land (blockSizeID fi) _3BITS) 4) ;!
  let dstPtr := dstPtr + 1 in
  let! dstPtr :=
    (if negb (contentSize fi =? 0) then LZ4F_writeLE64 dstPtr (contentSize fi) ;! ret (dstPtr + 8)
     else ret dstPtr) in
  let! hc := LZ4F_headerChecksum headerStart (dstPtr - headerStart) in
  store8 dstPtr hc ;!
  ret (dstPtr + 1).

(** [newBuff]: the address of the buffer, if one is allocated. *)
Definition LZ4F_compressBegin (cctx : LZ4F_cctx_t) (dstBuffer dstMaxSize : Z)
    (preferencesPtr : option LZ4F_preferences_t) (newBuff newCtx : Z)
    (hc0 : LZ4HC_Data_Structure) : prog (LZ4F_cctx_t * Z) :=
  if dstMaxSize <? maxFHSize then ret (cctx, error ERROR_dstMaxSize_tooSmall)
  else if negb (cStage cctx =? 0) then ret (cctx, error ERROR_GENERIC)
  else
    let cctx := with_prefs cctx (default zero_prefs preferencesPtr) in
    let! cctx := compressBegin_ctx cctx newCtx hc0 in
    let fi := frameInfo (prefs cctx) in
    let bsid := if blockSizeID fi =? 0 then LZ4F_BLOCKSIZEID_DEFAULT else blockSizeID fi in
    let cctx := with_prefs cctx (with_info (prefs cctx) bsid (blockMode fi) (contentSize fi)) in
    let linked := b2i (blockMode fi =? LZ4F_blockLinked) in
    let cctx := with_buffer cctx (LZ4F_getBlockSize bsid) (c_maxBufferSize cctx) (tmpBuff cctx) in
    let requiredBuffSize :=
      if negb (autoFlush (prefs cctx) =? 0) then linked * KB 64
      else usize (c_maxBlockSize cctx + linked * KB 128) in
    let! (cctx, failed) :=
      (if c_maxBufferSize cctx <? requiredBuffSize then
         let! p := calloc newBuff requiredBuffSize in
         ret (with_buffer cctx (c_maxBlockSize cctx) requiredBuffSize p, p =? NULL)
       else ret (cctx, false)) in
    if failed : bool then ret (cctx, error ERROR_allocation_failed)
    else
      let cctx := with_tmpIn cctx (tmpBuff cctx) 0 in
      let cctx := with_hash cctx (totalInSize cctx) (XXH32_reset (c_xxh cctx) 0) in
      let! cctx := compressBegin_reset cctx hc0 in
      let cctx := if negb (contentSize (frameInfo (prefs cctx)) =? 0)
                  then with_hash cctx 0 (c_xxh cctx) else cctx in
      let! dstPtr := compressBegin_header (frameInfo (prefs cctx)) dstBuffer in
      ret (with_stage cctx 1, dstPtr - dstBuffer).

(** * Compressing a frame in many calls *)

Inductive LZ4F_lastBlockStatus : Type := notDone | fromTmpBuffer | fromSrcBuffer.

Definition is_fromSrcBuffer (s : LZ4F_lastBlockStatus) : bool :=
  match s with fromSrcBuffer => true | _ => false end.

Record LZ4F_compressOptions_t : Type := COptions { stableSrc : Z }.

Definition is_linked (cctx : LZ4F_cctx_t) : bool :=
  blockMode (frameInfo (prefs cctx)) =? LZ4F_blockLinked.

(** The data already in the buffer is completed to a block, or extended: the
    positions in the source and the destination after it, and whether a block
    was compressed. *)
Definition update_tmp (cctx : LZ4F_cctx_t) (dstPtr srcBuffer srcSize : Z) (compress : compressFunc_t) :
    prog (LZ4F_cctx_t * Z * Z * LZ4F_lastBlockStatus) :=
  let blockSize := c_maxBlockSize cctx in
  if c_tmpInSize cctx >? 0 then
    let sizeToCopy := usize (blockSize - c_tmpInSize cctx) in
    if sizeToCopy >? srcSize then
      memcpy (c_tmpIn cctx + c_tmpInSize cctx) srcBuffer srcSize ;!
      ret (with_tmpIn cctx (c_tmpIn cctx) (usize (c_tmpInSize cctx + srcSize)), srcBuffer + srcSize,
           dstPtr, notDone)
    else
      memcpy (c_tmpIn cctx + c_tmpInSize cctx) srcBuffer sizeToCopy ;!
      let! (cctx, n) := LZ4F_compressBlock cctx dstPtr (c_tmpIn cctx) blockSize compress
                          (pf_compressionLevel (prefs cctx)) in
      let tmpIn := if is_linked cctx then c_tmpIn cctx + blockSize else c_tmpIn cctx in
      ret (with_tmpIn cctx tmpIn 0, srcBuffer + sizeToCopy, dstPtr + n, fromTmpBuffer)
  else ret (cctx, srcBuffer, dstPtr, notDone).

(** Full blocks of the source. *)
Fixpoint update_loop (fuel : nat) (cctx : LZ4F_cctx_t) (dstPtr srcPtr srcEnd : Z)
    (compress : compressFunc_t) (last : LZ4F_lastBlockStatus) :
    prog (LZ4F_cctx_t * Z * Z * LZ4F_lastBlockStatus) :=
  match fuel with
  | O => nofuel
  | S fuel =>
      if usize (srcEnd - srcPtr) >=? c_maxBlockSize cctx then
        let! (cctx, n) := LZ4F_compressBlock cctx dstPtr srcPtr (c_maxBlockSize cctx) compress
                            (pf_compressionLevel (prefs cctx)) in
        update_loop fuel cctx (dstPtr + n) (srcPtr + c_maxBlockSize cctx) srcEnd compress
          fromSrcBuffer
      else ret (cctx, srcPtr, dstPtr, last)
  end.

(** With [autoFlush], what is left of the source. *)
Definition update_remaining (cctx : LZ4F_cctx_t) (dstPtr srcPtr srcEnd : Z) (compress : compressFunc_t)
    (last : LZ4F_lastBlockStatus) : prog (LZ4F_cctx_t * Z * Z * LZ4F_lastBlockStatus) :=
  if negb (autoFlush (prefs cctx) =? 0) && (srcPtr <? srcEnd) then
    let! (cctx, n) := LZ4F_compressBlock cctx dstPtr srcPtr (srcEnd - srcPtr) compress
                        (pf_compressionLevel (prefs cctx)) in
    ret (cctx, srcEnd, dstPtr + n, fromSrcBuffer)
  else ret (cctx, srcPtr, dstPtr, last).

(** The dictionary is kept, and [tmpIn] within its limits; false when the
    dictionary could not be kept. *)
Definition update_dict (cctx : LZ4F_cctx_t) (last : LZ4F_lastBlockStatus)
    (options : LZ4F_compressOptions_t) : prog (LZ4F_cctx_t * bool) :=
  let! (cctx, kept) :=
    (if is_linked cctx && is_fromSrcBuffer last then
       if negb (stableSrc options =? 0)
       then ret (with_tmpIn cctx (tmpBuff cctx) (c_tmpInSize cctx), true)
       else
         let! (cctx, realDictSize) := LZ4F_localSaveDict cctx in
         if realDictSize =? 0 then ret (cctx, false)
         else ret (with_tmpIn cctx (tmpBuff cctx + realDictSize) (c_tmpInSize cctx), true)
     else ret (cctx, true)) in
  if negb kept then ret (cctx, false)
  else if (c_tmpIn cctx + c_maxBlockSize cctx >? tmpBuff cctx + c_maxBufferSize cctx)
          && (autoFlush (prefs cctx) =? 0) then
    let! (cctx, realDictSize) := LZ4F_localSaveDict cctx in
    ret (with_tmpIn cctx (tmpBuff cctx + realDictSize) (c_tmpInSize cctx), true)
  else ret (cctx, true).

Definition LZ4F_compressUpdate (cctx : LZ4F_cctx_t) (dstBuffer dstMaxSize srcBuffer srcSize : Z)
    (compressOptionsPtr : option LZ4F_compressOptions_t) : prog (LZ4F_cctx_t * Z) :=
  let srcEnd := srcBuffer + srcSize in
  if negb (cStage cctx =? 1) then ret (cctx, error ERROR_GENERIC)
  else if dstMaxSize <? LZ4F_compressBound srcSize (Some (prefs cctx)) then
    ret (cctx, error ERROR_dstMaxSize_tooSmall)
  else
    let options := default (COptions 0) compressOptionsPtr in
    let compress := LZ4F_selectCompression (blockMode (frameInfo (prefs cctx)))
                      (pf_compressionLevel (prefs cctx)) in
    let! (cctx, srcPtr, dstPtr, last) := update_tmp cctx dstBuffer srcBuffer srcSize compress in
    let! (cctx, srcPtr, dstPtr, last) :=
      update_loop (S (Z.to_nat (srcSize / c_maxBlockSize cctx))) cctx dstPtr srcPtr srcEnd compress
        last in
    let! (cctx, srcPtr, dstPtr, last) := update_remaining cctx dstPtr srcPtr srcEnd compress last in
    let! (cctx, kept) := update_dict cctx last options in
    if negb kept then ret (cctx, error ERROR_GENERIC)
    else
      let! cctx :=
        (if srcPtr <? srcEnd then
           let sizeToCopy := srcEnd - srcPtr in
           memcpy (c_tmpIn cctx) srcPtr sizeToCopy ;!
           ret (with_tmpIn cctx (c_tmpIn cctx) sizeToCopy)
         else ret cctx) in
      let! h :=
        (if contentChecksumFlag (frameInfo (prefs cctx)) =? LZ4F_contentChecksumEnabled
         then XXH32_update (c_xxh cctx) srcBuffer srcSize
         else ret (c_xxh cctx)) in
      ret (with_hash cctx (u64 (totalInSize cctx + srcSize)) h, dstPtr - dstBuffer).

Definition LZ4F_flush (cctx : LZ4F_cctx_t) (dstBuffer dstMaxSize : Z) : prog (LZ4F_cctx_t * Z) :=
  if c_tmpInSize cctx =? 0 then ret (cctx, 0)
  else if negb (cStage cctx =? 1) then ret (cctx, error ERROR_GENERIC)
  else if dstMaxSize <? usize (c_tmpInSize cctx + 8) then
    ret (cctx, error ERROR_dstMaxSize_tooSmall)
  else
    let compress := LZ4F_selectCompression (blockMode (frameInfo (prefs cctx)))
                      (pf_compressionLevel (prefs cctx)) in
    let! (cctx, n) := LZ4F_compressBlock cctx dstBuffer (c_tmpIn cctx) (c_tmpInSize cctx) compress
                        (pf_compressionLevel (prefs cctx)) in
    let tmpIn := if is_linked cctx then c_tmpIn cctx + c_tmpInSize cctx else c_tmpIn cctx in
    let cctx := with_tmpIn cctx tmpIn 0 in
    if c_tmpIn cctx + c_maxBlockSize cctx >? tmpBuff cctx + c_maxBufferSize cctx then
      let! (cctx, realDictSize) := LZ4F_localSaveDict cctx in
      ret (with_tmpIn cctx (tmpBuff cctx + realDictSize) (c_tmpInSize cctx), n)
    else ret (cctx, n).

Definition LZ4F_compressEnd (cctx : LZ4F_cctx_t) (dstBuffer dstMaxSize : Z) : prog (LZ4F_cctx_t * Z) :=
  let! (cctx, errorCode) := LZ4F_flush cctx dstBuffer dstMaxSize in
  if LZ4F_isError errorCode then ret (cctx, errorCode)
  else
    let dstPtr := dstBuffer + errorCode in
    LZ4F_writeLE32 dstPtr 0 ;!
    let dstPtr := dstPtr + 4 in
    let fi := frameInfo (prefs cctx) in
    let! dstPtr :=
      (if contentChecksumFlag fi =? LZ4F_contentChecksumEnabled then
         LZ4F_writeLE32 dstPtr (XXH32_digest (c_xxh cctx)) ;!
         ret (dstPtr + 4)
       else ret dstPtr) in
    let cctx := with_stage cctx 0 in
    if negb (contentSize fi =? 0) && negb (contentSize fi =? totalInSize cctx) then
      ret (cctx, error ERROR_frameSize_wrong)
    else ret (cctx, dstPtr - dstBuffer).

(** * Compressing a frame in one call *)

(** [lz4ctx]: the address of the local state of the fast compressor, [s0] what
    it holds before; [newCtx] and [hc0] as for [LZ4F_compressBegin].  The buffer
    is taken to be large enough that none is allocated. *)
Definition LZ4F_compressFrame (dstBuffer dstMaxSize srcBuffer srcSize : Z)
    (preferencesPtr : option LZ4F_preferences_t) (lz4ctx : Z) (s0 : LZ4_stream_t_internal)
    (newBuff newCtx : Z) (hc0 : LZ4HC_Data_Structure) : prog Z :=
  let dstEnd := dstBuffer + dstMaxSize in
  let cctxI := Cctx zero_prefs LZ4F_VERSION 0 0 (MB 5) NULL NULL 0 0 zero_xxh NULL NoCtx 0 in
  let prefs := default zero_prefs preferencesPtr in
  let size := if negb (contentSize (frameInfo prefs) =? 0) then u64 srcSize
              else contentSize (frameInfo prefs) in
  let cctxI := if pf_compressionLevel prefs <? minHClevel
               then with_ctx_at cctxI lz4ctx (FastCtx s0) 1 else cctxI in
  let! bsid := LZ4F_optimalBSID (blockSizeID (frameInfo prefs)) srcSize in
  let mode := if srcSize <=? LZ4F_getBlockSize bsid then LZ4F_blockIndependent
              else blockMode (frameInfo prefs) in
  let prefs := with_autoFlush (with_info prefs bsid mode size) 1 in
  let options := COptions 1 in
  let! bound := LZ4F_compressFrameBound srcSize (Some prefs) in
  if dstMaxSize <? bound then ret (error ERROR_dstMaxSize_tooSmall)
  else
    let! (cctxI, errorCode) :=
      LZ4F_compressBegin cctxI dstBuffer dstMaxSize (Some prefs) newBuff newCtx hc0 in
    if LZ4F_isError errorCode then ret errorCode
    else
      let dstPtr := dstBuffer + errorCode in
      let! (cctxI, errorCode) :=
        LZ4F_compressUpdate cctxI dstPtr (dstEnd - dstPtr) srcBuffer srcSize (Some options) in
      if LZ4F_isError errorCode then ret errorCode
      else
        let dstPtr := dstPtr + errorCode in
        let! (cctxI, errorCode) := LZ4F_compressEnd cctxI dstPtr (dstEnd - dstPtr) in
        if LZ4F_isError errorCode then ret errorCode
        else ret (dstPtr + errorCode - dstBuffer).

End frame.
