(* ===== verification/Lz4FrameDec.v ===== *)
(** The LZ4 frame format, decompression side: the decoder of frame headers and
    [LZ4F_decompress], a state machine that may be fed a frame in pieces
    (src/src/lz4/lib/lz4frame.c, from "Decompression functions" on).

    [header[16]] is an array of the context that the code takes the address of:
    the context holds that address.  [newIn] and [newOut] are the addresses the
    allocator returns for the two buffers a frame may need; one call of
    [LZ4F_decompress] starts at most one frame, so it allocates them once at
    most. *)

From Stdlib Require Import ZArith Lia Strings.Byte.
From stdpp Require Import base gmap list fin_maps numbers.
From S2P Require Import Prelude Mem Lz4Common Lz4Decompress Xxhash Lz4Frame.

(** * The context *)

Inductive dStage_t : Type :=
| dstage_getHeader | dstage_storeHeader
| dstage_getCBlockSize | dstage_storeCBlockSize
| dstage_copyDirect
| dstage_getCBlock | dstage_storeCBlock
| dstage_decodeCBlock | dstage_decodeCBlock_intoDst
| dstage_decodeCBlock_intoTmp | dstage_flushOut
| dstage_getSuffix | dstage_storeSuffix
| dstage_getSFrameSize | dstage_storeSFrameSize
| dstage_skipSkippable.

(** The value of the enumerator. *)
Definition stage_number (s : dStage_t) : Z :=
  match s with
  | dstage_getHeader => 0 | dstage_storeHeader => 1
  | dstage_getCBlockSize => 2 | dstage_storeCBlockSize => 3
  | dstage_copyDirect => 4
  | dstage_getCBlock => 5 | dstage_storeCBlock => 6
  | dstage_decodeCBlock => 7 | dstage_decodeCBlock_intoDst => 8
  | dstage_decodeCBlock_intoTmp => 9 | dstage_flushOut => 10
  | dstage_getSuffix => 11 | dstage_storeSuffix => 12
  | dstage_getSFrameSize => 13 | dstage_storeSFrameSize => 14
  | dstage_skipSkippable => 15
  end.

Record LZ4F_dctx_t : Type := Dctx {
  d_frameInfo : LZ4F_frameInfo_t;
  d_version : Z;
  dStage : dStage_t;
  frameRemainingSize : Z;
  d_maxBlockSize : Z;
  d_maxBufferSize : Z;
  srcExpect : Z;
  d_tmpIn : Z;
  d_tmpInSize : Z;
  tmpInTarget : Z;
  tmpOutBuffer : Z;
  d_dict : Z;
  d_dictSize : Z;
  tmpOut : Z;
  tmpOutSize : Z;
  tmpOutStart : Z;
  d_xxh : XXH_istate;
  d_header : Z
}.

(** Assignments to the fields of a context. *)
Definition set_info (d : LZ4F_dctx_t) (fi : LZ4F_frameInfo_t) : LZ4F_dctx_t :=
  Dctx fi (d_version d) (dStage d) (frameRemainingSize d) (d_maxBlockSize d) (d_maxBufferSize d)
    (srcExpect d) (d_tmpIn d) (d_tmpInSize d) (tmpInTarget d) (tmpOutBuffer d) (d_dict d)
    (d_dictSize d) (tmpOut d) (tmpOutSize d) (tmpOutStart d) (d_xxh d) (d_header d).

Definition set_stage (d : LZ4F_dctx_t) (s : dStage_t) : LZ4F_dctx_t :=
  Dctx (d_frameInfo d) (d_version d) s (frameRemainingSize d) (d_maxBlockSize d) (d_maxBufferSize d)
    (srcExpect d) (d_tmpIn d) (d_tmpInSize d) (tmpInTarget d) (tmpOutBuffer d) (d_dict d)
    (d_dictSize d) (tmpOut d) (tmpOutSize d) (tmpOutStart d) (d_xxh d) (d_header d).

Definition set_in (d : LZ4F_dctx_t) (size target : Z) : LZ4F_dctx_t :=
  Dctx (d_frameInfo d) (d_version d) (dStage d) (frameRemainingSize d) (d_maxBlockSize d)
    (d_maxBufferSize d) (srcExpect d) (d_tmpIn d) size target (tmpOutBuffer d) (d_dict d)
    (d_dictSize d) (tmpOut d) (tmpOutSize d) (tmpOutStart d) (d_xxh d) (d_header d).

Definition set_dict (d : LZ4F_dctx_t) (dict size : Z) : LZ4F_dctx_t :=
  Dctx (d_frameInfo d) (d_version d) (dStage d) (frameRemainingSize d) (d_maxBlockSize d)
    (d_maxBufferSize d) (srcExpect d) (d_tmpIn d) (d_tmpInSize d) (tmpInTarget d) (tmpOutBuffer d)
    dict size (tmpOut d) (tmpOutSize d) (tmpOutStart d) (d_xxh d) (d_header d).

Definition set_out (d : LZ4F_dctx_t) (out size start : Z) : LZ4F_dctx_t :=
  Dctx (d_frameInfo d) (d_version d) (dStage d) (frameRemainingSize d) (d_maxBlockSize d)
    (d_maxBufferSize d) (srcExpect d) (d_tmpIn d) (d_tmpInSize d) (tmpInTarget d) (tmpOutBuffer d)
    (d_dict d) (d_dictSize d) out size start (d_xxh d) (d_header d).

Definition set_sum (d : LZ4F_dctx_t) (h : XXH_istate) (remaining : Z) : LZ4F_dctx_t :=
  Dctx (d_frameInfo d) (d_version d) (dStage d) remaining (d_maxBlockSize d)
    (d_maxBufferSize d) (srcExpect d) (d_tmpIn d) (d_tmpInSize d) (tmpInTarget d) (tmpOutBuffer d)
    (d_dict d) (d_dictSize d) (tmpOut d) (tmpOutSize d) (tmpOutStart d) h (d_header d).

Definition set_expect (d : LZ4F_dctx_t) (p : Z) : LZ4F_dctx_t :=
  Dctx (d_frameInfo d) (d_version d) (dStage d) (frameRemainingSize d) (d_maxBlockSize d)
    (d_maxBufferSize d) p (d_tmpIn d) (d_tmpInSize d) (tmpInTarget d) (tmpOutBuffer d)
    (d_dict d) (d_dictSize d) (tmpOut d) (tmpOutSize d) (tmpOutStart d) (d_xxh d) (d_header d).

Definition set_buffers (d : LZ4F_dctx_t) (maxBlock maxBuffer bin bout : Z) : LZ4F_dctx_t :=
  Dctx (d_frameInfo d) (d_version d) (dStage d) (frameRemainingSize d) maxBlock
    maxBuffer (srcExpect d) bin (d_tmpInSize d) (tmpInTarget d) bout
    (d_dict d) (d_dictSize d) (tmpOut d) (tmpOutSize d) (tmpOutStart d) (d_xxh d) (d_header d).

Record LZ4F_decompressOptions_t : Type := DOptions { stableDst : Z }.

(** The local variables of [LZ4F_decompress] that change. *)
Record dstate : Type := DState {
  ds_dctx : LZ4F_dctx_t;
  ds_src : Z;
  ds_dst : Z;
  ds_sel : Z
}.

(** What a stage leads to: another stage, the end of the loop with a hint of
    how much input to give next, or an error. *)
Inductive stage_result : Type :=
| Again (st : dstate)
| Stop (st : dstate) (nextSrcSizeHint : Z)
| Error (d : LZ4F_dctx_t) (code : Z).

Section decoder.
Context {arch : Arch}.
Context (unaligned_access : bool).

Definition LZ4F_createDecompressionContext (dctxPtr header versionNumber : Z) :
    option LZ4F_dctx_t * Z :=
  if dctxPtr =? NULL then (None, error ERROR_GENERIC)
  else (Some (Dctx zero_info (u32 versionNumber) dstage_getHeader 0 0 0 NULL NULL 0 0 NULL NULL 0
                NULL 0 0 zero_xxh header), error_number OK_NoError).

(** The result is the stage the decoder was in. *)
Definition LZ4F_freeDecompressionContext (dctx : option LZ4F_dctx_t) : Z :=
  match dctx with None => error_number OK_NoError | Some d => stage_number (dStage d) end.

Definition d_linked (d : LZ4F_dctx_t) : bool := blockMode (d_frameInfo d) =? LZ4F_blockLinked.

(** * The frame header *)

(** The buffers of a frame whose block size is known. *)
Definition decodeHeader_alloc (d : LZ4F_dctx_t) (newIn newOut : Z) : prog (LZ4F_dctx_t * bool) :=
  let bufferNeeded := usize (d_maxBlockSize d + b2i (d_linked d) * KB 128) in
  if bufferNeeded >? d_maxBufferSize d then
    let! p := calloc newIn (d_maxBlockSize d) in
    let d := set_buffers d (d_maxBlockSize d) bufferNeeded p (tmpOutBuffer d) in
    if p =? NULL then ret (d, false)
    else
      let! q := calloc newOut bufferNeeded in
      let d := set_buffers d (d_maxBlockSize d) bufferNeeded p q in
      ret (d, negb (q =? NULL))
  else ret (d, true).

(** The end of the header: it is checked and the frame started. *)
Definition decodeHeader_validate (d : LZ4F_dctx_t) (srcPtr FLG frameHeaderSize newIn newOut : Z) :
    prog (LZ4F_dctx_t * Z) :=
  let version := Z.land (Z.shiftr FLG 6) _2BITS in
  let bMode := Z.land (Z.shiftr FLG 5) _1BIT in
  let blockChecksumFlag := Z.land (Z.shiftr FLG 4) _1BIT in
  let contentSizeFlag := Z.land (Z.shiftr FLG 3) _1BIT in
  let checksumFlag := Z.land (Z.shiftr FLG 2) _1BIT in
  let! BD := load8 (srcPtr + 5) in
  let bsid := Z.land (Z.shiftr BD 4) _3BITS in
  if negb (version =? 1) then ret (d, error ERROR_headerVersion_wrong)
  else if negb (blockChecksumFlag =? 0) then ret (d, error ERROR_blockChecksum_unsupported)
  else if negb (Z.land (Z.shiftr FLG 0) _2BITS =? 0) then ret (d, error ERROR_reservedFlag_set)
  else if negb (Z.land (Z.shiftr BD 7) _1BIT =? 0) then ret (d, error ERROR_reservedFlag_set)
  else if bsid <? 4 then ret (d, error ERROR_maxBlockSize_invalid)
  else if negb (Z.land (Z.shiftr BD 0) _4BITS =? 0) then ret (d, error ERROR_reservedFlag_set)
  else
    let! HC := LZ4F_headerChecksum unaligned_access (srcPtr + 4) (frameHeaderSize - 5) in
    let! given := load8 (srcPtr + frameHeaderSize - 1) in
    if negb (HC =? given) then ret (d, error ERROR_headerChecksum_invalid)
    else
      let! size :=
        (if negb (contentSizeFlag =? 0) then LZ4F_readLE64 (srcPtr + 6)
         else ret (contentSize (d_frameInfo d))) in
      let remaining := if negb (contentSizeFlag =? 0) then size else frameRemainingSize d in
      let d := set_info d (FrameInfo bsid bMode checksumFlag (frameType (d_frameInfo d)) size) in
      let d := set_buffers d (LZ4F_getBlockSize bsid) (d_maxBufferSize d) (d_tmpIn d) (tmpOutBuffer d) in
      let d := set_sum d (if negb (checksumFlag =? 0) then XXH32_reset (d_xxh d) 0 else d_xxh d)
                 remaining in
      let! (d, allocated) := decodeHeader_alloc d newIn newOut in
      if negb allocated then ret (d, error ERROR_GENERIC)
      else
        let d := set_in d 0 0 in
        let d := set_dict d (tmpOutBuffer d) 0 in
        let d := set_out d (tmpOutBuffer d) 0 0 in
        ret (set_stage d dstage_getCBlockSize, frameHeaderSize).

Definition LZ4F_decodeHeader (d : LZ4F_dctx_t) (srcPtr srcSize newIn newOut : Z) :
    prog (LZ4F_dctx_t * Z) :=
  if srcSize <? minFHSize then ret (d, error ERROR_frameHeader_incomplete)
  else
    let d := set_info d zero_info in
    let! magic := LZ4F_readLE32 srcPtr in
    if Z.land magic 0xFFFFFFF0 =? LZ4F_MAGIC_SKIPPABLE_START then
      let d := set_info d (FrameInfo 0 0 0 LZ4F_skippableFrame 0) in
      if srcPtr =? d_header d then
        ret (set_stage (set_in d srcSize 8) dstage_storeSFrameSize, srcSize)
      else ret (set_stage d dstage_getSFrameSize, 4)
    else if negb (magic =? LZ4F_MAGICNUMBER) then ret (d, error ERROR_frameType_unknown)
    else
      let d := set_info d (FrameInfo 0 0 0 LZ4F_frame 0) in
      let! FLG := load8 (srcPtr + 4) in
      let contentSizeFlag := Z.land (Z.shiftr FLG 3) _1BIT in
      let frameHeaderSize := if negb (contentSizeFlag =? 0) then maxFHSize else minFHSize in
      if srcSize <? frameHeaderSize then
        (if negb (srcPtr =? d_header d) then memcpy (d_header d) srcPtr srcSize else ret tt) ;!
        ret (set_stage (set_in d srcSize frameHeaderSize) dstage_storeHeader, srcSize)
      else decodeHeader_validate d srcPtr FLG frameHeaderSize newIn newOut.

(** * The dictionary *)

(** The end of the old dictionary, copied in front of [tmpOut]: how much there
    is room for. *)
Definition keep_before_tmpOut (d : LZ4F_dctx_t) : prog Z :=
  let preserveSize := usize (tmpOut d - tmpOutBuffer d) in
  let copySize := usize (KB 64 - tmpOutSize d) in
  let oldDictEnd := d_dict d + d_dictSize d - tmpOutStart d in
  let copySize := if tmpOutSize d >? KB 64 then 0 else copySize in
  let copySize := if copySize >? preserveSize then preserveSize else copySize in
  memcpy (tmpOutBuffer d + preserveSize - copySize) (oldDictEnd - copySize) copySize ;!
  ret preserveSize.

Definition LZ4F_updateDict (d : LZ4F_dctx_t) (dstPtr dstSize dstPtr0 : Z) (withinTmp : bool) :
    prog LZ4F_dctx_t :=
  let d := if d_dictSize d =? 0 then set_dict d dstPtr (d_dictSize d) else d in
  if d_dict d + d_dictSize d =? dstPtr then
    ret (set_dict d (d_dict d) (usize (d_dictSize d + dstSize)))
  else if usize (dstPtr - dstPtr0 + dstSize) >=? KB 64 then
    ret (set_dict d dstPtr0 (usize (dstPtr - dstPtr0 + dstSize)))
  else if withinTmp && (d_dict d =? tmpOutBuffer d) then
    ret (set_dict d (d_dict d) (usize (d_dictSize d + dstSize)))
  else if withinTmp then
    let! preserveSize := keep_before_tmpOut d in
    ret (set_dict d (tmpOutBuffer d) (usize (preserveSize + tmpOutStart d + dstSize)))
  else if d_dict d =? tmpOutBuffer d then
    let! d :=
      (if usize (d_dictSize d + dstSize) >? d_maxBufferSize d then
         let preserveSize := usize (KB 64 - dstSize) in
         memcpy (tmpOutBuffer d) (d_dict d + d_dictSize d - preserveSize) preserveSize ;!
         ret (set_dict d (d_dict d) preserveSize)
       else ret d) in
    memcpy (tmpOutBuffer d + d_dictSize d) dstPtr dstSize ;!
    ret (set_dict d (d_dict d) (usize (d_dictSize d + dstSize)))
  else
    let preserveSize := usize (KB 64 - dstSize) in
    let preserveSize := if preserveSize >? d_dictSize d then d_dictSize d else preserveSize in
    memcpy (tmpOutBuffer d) (d_dict d + d_dictSize d - preserveSize) preserveSize ;!
    memcpy (tmpOutBuffer d + preserveSize) dstPtr dstSize ;!
    ret (set_dict d (tmpOutBuffer d) (usize (preserveSize + dstSize))).

(** With linked blocks. *)
Definition update_linked (d : LZ4F_dctx_t) (dstPtr dstSize dstPtr0 : Z) (withinTmp : bool) :
    prog LZ4F_dctx_t :=
  if d_linked d then LZ4F_updateDict d dstPtr dstSize dstPtr0 withinTmp else ret d.

(** The checksum and the remaining size after [n] bytes at [p] were produced. *)
Definition account (d : LZ4F_dctx_t) (p n : Z) : prog LZ4F_dctx_t :=
  let! h := (if negb (contentChecksumFlag (d_frameInfo d) =? 0) then XXH32_update (d_xxh d) p n
             else ret (d_xxh d)) in
  let remaining := if negb (contentSize (d_frameInfo d) =? 0)
                   then u64 (frameRemainingSize d - n) else frameRemainingSize d in
  ret (set_sum d h remaining).

Definition LZ4F_decompress_safe (source dest compressedSize maxDecompressedSize dictStart dictSize : Z) :
    prog Z :=
  LZ4_decompress_safe source dest compressedSize maxDecompressedSize.

Definition decoder_for (d : LZ4F_dctx_t) : Z → Z → Z → Z → Z → Z → prog Z :=
  if d_linked d then LZ4_decompress_safe_usingDict else LZ4F_decompress_safe.

(** * The stages *)

(** Input is copied to complete [target] bytes at [buf]; true when it is complete. *)
Definition gather (st : dstate) (buf target srcEnd : Z) : prog (dstate * bool) :=
  let d := ds_dctx st in
  let sizeToCopy := usize (target - d_tmpInSize d) in
  let sizeToCopy := if sizeToCopy >? usize (srcEnd - ds_src st) then srcEnd - ds_src st
                    else sizeToCopy in
  memcpy (buf + d_tmpInSize d) (ds_src st) sizeToCopy ;!
  let d := set_in d (usize (d_tmpInSize d + sizeToCopy)) (tmpInTarget d) in
  ret (DState d (ds_src st + sizeToCopy) (ds_dst st) (ds_sel st), negb (d_tmpInSize d <? target)).

Definition stage_storeHeader (st : dstate) (srcEnd newIn newOut : Z) : prog stage_result :=
  let target := tmpInTarget (ds_dctx st) in
  let! (st, complete) := gather st (d_header (ds_dctx st)) target srcEnd in
  let d := ds_dctx st in
  if negb complete then ret (Stop st (usize (tmpInTarget d - d_tmpInSize d + BHSize)))
  else
    let! (d, errorCode) := LZ4F_decodeHeader d (d_header d) (tmpInTarget d) newIn newOut in
    if LZ4F_isError errorCode then ret (Error d errorCode)
    else ret (Again (DState d (ds_src st) (ds_dst st) (ds_sel st))).

Definition stage_getHeader (st : dstate) (srcEnd newIn newOut : Z) : prog stage_result :=
  let d := ds_dctx st in
  if usize (srcEnd - ds_src st) >=? maxFHSize then
    let! (d, errorCode) := LZ4F_decodeHeader d (ds_src st) (srcEnd - ds_src st) newIn newOut in
    if LZ4F_isError errorCode then ret (Error d errorCode)
    else ret (Again (DState d (ds_src st + errorCode) (ds_dst st) (ds_sel st)))
  else
    let d := set_stage (set_in d 0 minFHSize) dstage_storeHeader in
    stage_storeHeader (DState d (ds_src st) (ds_dst st) (ds_sel st)) srcEnd newIn newOut.

Definition stage_decodeCBlockSize (st : dstate) (dstEnd : Z) : prog stage_result :=
  let d := ds_dctx st in
  let! field := LZ4F_readLE32 (ds_sel st) in
  let nextCBlockSize := Z.land field 0x7FFFFFFF in
  let goto d := DState d (ds_src st) (ds_dst st) (ds_sel st) in
  if nextCBlockSize =? 0 then ret (Again (goto (set_stage d dstage_getSuffix)))
  else if nextCBlockSize >? d_maxBlockSize d then ret (Error d (error ERROR_GENERIC))
  else
    let d := set_in d (d_tmpInSize d) nextCBlockSize in
    if negb (Z.land field LZ4F_BLOCKUNCOMPRESSED_FLAG =? 0) then
      ret (Again (goto (set_stage d dstage_copyDirect)))
    else
      let st := goto (set_stage d dstage_getCBlock) in
      if ds_dst st =? dstEnd then ret (Stop st (usize (nextCBlockSize + BHSize))) else ret (Again st).

Definition stage_storeCBlockSize (st : dstate) (srcEnd dstEnd : Z) : prog stage_result :=
  let! (st, complete) := gather st (d_tmpIn (ds_dctx st)) BHSize srcEnd in
  let d := ds_dctx st in
  if negb complete then ret (Stop st (BHSize - d_tmpInSize d))
  else stage_decodeCBlockSize (DState d (ds_src st) (ds_dst st) (d_tmpIn d)) dstEnd.

Definition stage_getCBlockSize (st : dstate) (srcEnd dstEnd : Z) : prog stage_result :=
  let d := ds_dctx st in
  if usize (srcEnd - ds_src st) >=? BHSize then
    stage_decodeCBlockSize (DState d (ds_src st + BHSize) (ds_dst st) (ds_src st)) dstEnd
  else
    let d := set_stage (set_in d 0 (tmpInTarget d)) dstage_storeCBlockSize in
    stage_storeCBlockSize (DState d (ds_src st) (ds_dst st) (ds_sel st)) srcEnd dstEnd.

Definition stage_copyDirect (st : dstate) (srcEnd dstStart dstEnd : Z) : prog stage_result :=
  let d := ds_dctx st in
  let sizeToCopy := tmpInTarget d in
  let sizeToCopy := if usize (srcEnd - ds_src st) <? sizeToCopy then srcEnd - ds_src st
                    else sizeToCopy in
  let sizeToCopy := if usize (dstEnd - ds_dst st) <? sizeToCopy then dstEnd - ds_dst st
                    else sizeToCopy in
  memcpy (ds_dst st) (ds_src st) sizeToCopy ;!
  let! d := account d (ds_src st) sizeToCopy in
  let! d := update_linked d (ds_dst st) sizeToCopy dstStart false in
  let goto d := DState d (ds_src st + sizeToCopy) (ds_dst st + sizeToCopy) (ds_sel st) in
  if sizeToCopy =? tmpInTarget d then ret (Again (goto (set_stage d dstage_getCBlockSize)))
  else
    let d := set_in d (d_tmpInSize d) (usize (tmpInTarget d - sizeToCopy)) in
    ret (Stop (goto d) (usize (tmpInTarget d + BHSize))).

Definition stage_getCBlock (st : dstate) (srcEnd : Z) : prog stage_result :=
  let d := ds_dctx st in
  if usize (srcEnd - ds_src st) <? tmpInTarget d then
    let d := set_stage (set_in d 0 (tmpInTarget d)) dstage_storeCBlock in
    ret (Again (DState d (ds_src st) (ds_dst st) (ds_sel st)))
  else
    ret (Again (DState (set_stage d dstage_decodeCBlock) (ds_src st + tmpInTarget d) (ds_dst st)
                  (ds_src st))).

Definition stage_storeCBlock (st : dstate) (srcEnd : Z) : prog stage_result :=
  let! (st, complete) := gather st (d_tmpIn (ds_dctx st)) (tmpInTarget (ds_dctx st)) srcEnd in
  let d := ds_dctx st in
  if negb complete then ret (Stop st (usize (tmpInTarget d - d_tmpInSize d + BHSize)))
  else ret (Again (DState (set_stage d dstage_decodeCBlock) (ds_src st) (ds_dst st) (d_tmpIn d))).

Definition stage_decodeCBlock (st : dstate) (dstEnd : Z) : prog stage_result :=
  let d := ds_dctx st in
  let d := set_stage d (if usize (dstEnd - ds_dst st) <? d_maxBlockSize d
                        then dstage_decodeCBlock_intoTmp else dstage_decodeCBlock_intoDst) in
  ret (Again (DState d (ds_src st) (ds_dst st) (ds_sel st))).

Definition stage_intoDst (st : dstate) (dstStart : Z) : prog stage_result :=
  let d := ds_dctx st in
  let! decodedSize := decoder_for d (ds_sel st) (ds_dst st) (s32 (tmpInTarget d))
                        (s32 (d_maxBlockSize d)) (d_dict d) (s32 (d_dictSize d)) in
  if decodedSize <? 0 then ret (Error d (error ERROR_GENERIC))
  else
    let! d := account d (ds_dst st) decodedSize in
    let! d := update_linked d (ds_dst st) decodedSize dstStart false in
    ret (Again (DState (set_stage d dstage_getCBlockSize) (ds_src st) (ds_dst st + decodedSize)
                  (ds_sel st))).

(** Enough place for [tmpOut]. *)
Definition place_tmpOut (d : LZ4F_dctx_t) : prog LZ4F_dctx_t :=
  if d_linked d then
    if d_dict d =? tmpOutBuffer d then
      let! d :=
        (if d_dictSize d >? KB 128 then
           memcpy (tmpOutBuffer d) (d_dict d + d_dictSize d - KB 64) (KB 64) ;!
           ret (set_dict d (d_dict d) (KB 64))
         else ret d) in
      ret (set_out d (tmpOutBuffer d + d_dictSize d) (tmpOutSize d) (tmpOutStart d))
    else
      let reservedDictSpace := if d_dictSize d >? KB 64 then KB 64 else d_dictSize d in
      ret (set_out d (tmpOutBuffer d + reservedDictSpace) (tmpOutSize d) (tmpOutStart d))
  else ret d.

Definition stage_intoTmp (st : dstate) : prog stage_result :=
  let! d := place_tmpOut (ds_dctx st) in
  let! decodedSize := decoder_for d (ds_sel st) (tmpOut d) (s32 (tmpInTarget d))
                        (s32 (d_maxBlockSize d)) (d_dict d) (s32 (d_dictSize d)) in
  if decodedSize <? 0 then ret (Error d (error ERROR_decompressionFailed))
  else
    let! d := account d (tmpOut d) decodedSize in
    let d := set_out d (tmpOut d) decodedSize 0 in
    ret (Again (DState (set_stage d dstage_flushOut) (ds_src st) (ds_dst st) (ds_sel st))).

Definition stage_flushOut (st : dstate) (dstStart dstEnd : Z) : prog stage_result :=
  let d := ds_dctx st in
  let sizeToCopy := usize (tmpOutSize d - tmpOutStart d) in
  let sizeToCopy := if sizeToCopy >? usize (dstEnd - ds_dst st) then dstEnd - ds_dst st
                    else sizeToCopy in
  memcpy (ds_dst st) (tmpOut d + tmpOutStart d) sizeToCopy ;!
  let! d := update_linked d (ds_dst st) sizeToCopy dstStart true in
  let d := set_out d (tmpOut d) (tmpOutSize d) (usize (tmpOutStart d + sizeToCopy)) in
  let goto d := DState d (ds_src st) (ds_dst st + sizeToCopy) (ds_sel st) in
  if tmpOutStart d =? tmpOutSize d then ret (Again (goto (set_stage d dstage_getCBlockSize)))
  else ret (Stop (goto d) BHSize).

Definition stage_checkSuffix (st : dstate) : prog stage_result :=
  let d := ds_dctx st in
  let! readCRC := LZ4F_readLE32 (ds_sel st) in
  let resultCRC := XXH32_digest (d_xxh d) in
  if negb (readCRC =? resultCRC) then ret (Error d (error ERROR_contentChecksum_invalid))
  else ret (Stop (DState (set_stage d dstage_getHeader) (ds_src st) (ds_dst st) (ds_sel st)) 0).

Definition stage_storeSuffix (st : dstate) (srcEnd : Z) : prog stage_result :=
  let! (st, complete) := gather st (d_tmpIn (ds_dctx st)) 4 srcEnd in
  let d := ds_dctx st in
  if negb complete then ret (Stop st (4 - d_tmpInSize d))
  else stage_checkSuffix (DState d (ds_src st) (ds_dst st) (d_tmpIn d)).

Definition stage_getSuffix (st : dstate) (srcEnd : Z) : prog stage_result :=
  let d := ds_dctx st in
  let suffixSize := u32 (contentChecksumFlag (d_frameInfo d) * 4) in
  if negb (frameRemainingSize d =? 0) then ret (Error d (error ERROR_frameSize_wrong))
  else if suffixSize =? 0 then
    ret (Stop (DState (set_stage d dstage_getHeader) (ds_src st) (ds_dst st) (ds_sel st)) 0)
  else if srcEnd - ds_src st <? 4 then
    let d := set_stage (set_in d 0 (tmpInTarget d)) dstage_storeSuffix in
    stage_storeSuffix (DState d (ds_src st) (ds_dst st) (ds_sel st)) srcEnd
  else stage_checkSuffix (DState d (ds_src st + 4) (ds_dst st) (ds_src st)).

Definition stage_decodeSFrameSize (st : dstate) : prog stage_result :=
  let d := ds_dctx st in
  let! SFrameSize := LZ4F_readLE32 (ds_sel st) in
  let fi := d_frameInfo d in
  let d := set_info d (FrameInfo (blockSizeID fi) (blockMode fi) (contentChecksumFlag fi)
                         (frameType fi) SFrameSize) in
  let d := set_in d (d_tmpInSize d) SFrameSize in
  ret (Again (DState (set_stage d dstage_skipSkippable) (ds_src st) (ds_dst st) (ds_sel st))).

Definition stage_storeSFrameSize (st : dstate) (srcEnd : Z) : prog stage_result :=
  let! (st, complete) := gather st (d_header (ds_dctx st)) (tmpInTarget (ds_dctx st)) srcEnd in
  let d := ds_dctx st in
  if negb complete then ret (Stop st (usize (tmpInTarget d - d_tmpInSize d)))
  else stage_decodeSFrameSize (DState d (ds_src st) (ds_dst st) (d_header d + 4)).

Definition stage_getSFrameSize (st : dstate) (srcEnd : Z) : prog stage_result :=
  let d := ds_dctx st in
  if srcEnd - ds_src st >=? 4 then
    stage_decodeSFrameSize (DState d (ds_src st + 4) (ds_dst st) (ds_src st))
  else
    let d := set_stage (set_in d 4 8) dstage_storeSFrameSize in
    stage_storeSFrameSize (DState d (ds_src st) (ds_dst st) (ds_sel st)) srcEnd.

Definition stage_skipSkippable (st : dstate) (srcEnd : Z) : prog stage_result :=
  let d := ds_dctx st in
  let skipSize := tmpInTarget d in
  let skipSize := if skipSize >? usize (srcEnd - ds_src st) then srcEnd - ds_src st else skipSize in
  let d := set_in d (d_tmpInSize d) (usize (tmpInTarget d - skipSize)) in
  let d := if negb (tmpInTarget d =? 0) then d else set_stage d dstage_getHeader in
  ret (Stop (DState d (ds_src st + skipSize) (ds_dst st) (ds_sel st)) (tmpInTarget d)).

(** * The state machine *)

(** The body of the loop: [switch(dctxPtr->dStage)]. *)
Definition dstep (st : dstate) (srcEnd dstStart dstEnd newIn newOut : Z) : prog stage_result :=
  match dStage (ds_dctx st) with
  | dstage_getHeader => stage_getHeader st srcEnd newIn newOut
  | dstage_storeHeader => stage_storeHeader st srcEnd newIn newOut
  | dstage_getCBlockSize => stage_getCBlockSize st srcEnd dstEnd
  | dstage_storeCBlockSize => stage_storeCBlockSize st srcEnd dstEnd
  | dstage_copyDirect => stage_copyDirect st srcEnd dstStart dstEnd
  | dstage_getCBlock => stage_getCBlock st srcEnd
  | dstage_storeCBlock => stage_storeCBlock st srcEnd
  | dstage_decodeCBlock => stage_decodeCBlock st dstEnd
  | dstage_decodeCBlock_intoDst => stage_intoDst st dstStart
  | dstage_decodeCBlock_intoTmp => stage_intoTmp st
  | dstage_flushOut => stage_flushOut st dstStart dstEnd
  | dstage_getSuffix => stage_getSuffix st srcEnd
  | dstage_storeSuffix => stage_storeSuffix st srcEnd
  | dstage_getSFrameSize => stage_getSFrameSize st srcEnd
  | dstage_storeSFrameSize => stage_storeSFrameSize st srcEnd
  | dstage_skipSkippable => stage_skipSkippable st srcEnd
  end.

Fixpoint dloop (fuel : nat) (st : dstate) (srcEnd dstStart dstEnd newIn newOut : Z) :
    prog stage_result :=
  match fuel with
  | O => nofuel
  | S fuel =>
      let! r := dstep st srcEnd dstStart dstEnd newIn newOut in
      match r with
      | Again st => dloop fuel st srcEnd dstStart dstEnd newIn newOut
      | _ => ret r
      end
  end.

(** The dictionary is kept within the context between calls. *)
Definition preserve_dict (d : LZ4F_dctx_t) (stable : Z) : prog LZ4F_dctx_t :=
  if d_linked d && negb (d_dict d =? tmpOutBuffer d) && (stable =? 0)
     && (u32 (stage_number (dStage d) - 1) <? u32 (stage_number dstage_getSuffix - 1)) then
    match dStage d with
    | dstage_flushOut =>
        let! preserveSize := keep_before_tmpOut d in
        ret (set_dict d (tmpOutBuffer d) (usize (preserveSize + tmpOutStart d)))
    | _ =>
        let newDictSize := if d_dictSize d >? KB 64 then KB 64 else d_dictSize d in
        let oldDictEnd := d_dict d + d_dictSize d in
        memcpy (tmpOutBuffer d) (oldDictEnd - newDictSize) newDictSize ;!
        let d := set_dict d (tmpOutBuffer d) newDictSize in
        ret (set_out d (tmpOutBuffer d + newDictSize) (tmpOutSize d) (tmpOutStart d))
    end
  else ret d.

(** A bound of the number of stages one call goes through. *)
Definition decompress_fuel (srcSize : Z) : nat := Z.to_nat (16 * srcSize + 32).

(** The context, [*dstSizePtr], [*srcSizePtr] and the value returned. *)
Definition LZ4F_decompress (d : LZ4F_dctx_t) (dstBuffer dstSize srcBuffer srcSize : Z)
    (decompressOptionsPtr : option LZ4F_decompressOptions_t) (newIn newOut : Z) :
    prog (LZ4F_dctx_t * Z * Z * Z) :=
  let options := default (DOptions 0) decompressOptionsPtr in
  let srcEnd := srcBuffer + srcSize in
  let dstEnd := dstBuffer + dstSize in
  if negb (srcExpect d =? NULL) && negb (srcBuffer =? srcExpect d) then
    ret (d, 0, 0, error ERROR_srcPtr_wrong)
  else
    let! r := dloop (decompress_fuel srcSize) (DState d srcBuffer dstBuffer NULL) srcEnd dstBuffer
                dstEnd newIn newOut in
    match r with
    | Stop st nextSrcSizeHint =>
        let! d := preserve_dict (ds_dctx st) (stableDst options) in
        let d := set_expect d (if ds_src st <? srcEnd then ds_src st else NULL) in
        ret (d, ds_dst st - dstBuffer, ds_src st - srcBuffer, nextSrcSizeHint)
    | Error d code => ret (d, 0, 0, code)
    | Again _ => nofuel
    end.

Definition LZ4F_getFrameInfo (d : LZ4F_dctx_t) (srcBuffer srcSize newIn newOut : Z) :
    prog (LZ4F_dctx_t * option LZ4F_frameInfo_t * Z * Z) :=
  if stage_number (dStage d) >? stage_number dstage_storeHeader then
    let info := d_frameInfo d in
    let! (d, _, _, r) := LZ4F_decompress d NULL 0 NULL 0 None newIn newOut in
    ret (d, Some info, 0, r)
  else
    let! (d, _, used, nextSrcSize) := LZ4F_decompress d NULL 0 srcBuffer srcSize None newIn newOut in
    if stage_number (dStage d) <=? stage_number dstage_storeHeader then
      ret (d, None, used, error ERROR_frameHeader_incomplete)
    else ret (d, Some (d_frameInfo d), used, nextSrcSize).

End decoder.
