(* ===== verification/Lz4FrameFormat.v ===== *)
(** The LZ4 frame format, independently of how frames are produced and
    consumed: the bytes of the header, the blocks and their text, the end mark
    and the checksum.  This is the abstract specification the frame compressor
    and the frame decoder are proved against. *)

From Stdlib Require Import ZArith Lia Strings.Byte.
From stdpp Require Import base gmap list fin_maps numbers.
From S2P Require Import Prelude Mem Lz4Common Lz4Format Lz4Decompress Xxhash XxhashProofs Lz4Frame.

(** * The header *)

(** The values of the fields the format knows. *)
Record info_ok (fi : LZ4F_frameInfo_t) : Prop := {
  io_size : 4 ≤ blockSizeID fi ≤ 7;
  io_mode : 0 ≤ blockMode fi ≤ 1;
  io_check : 0 ≤ contentChecksumFlag fi ≤ 1;
  io_type : frameType fi = LZ4F_frame;
  io_content : 0 ≤ contentSize fi < 2 ^ 64
}.

(** [sized]: the header has a field for the content size. *)
Definition flg_value (sized : bool) (fi : LZ4F_frameInfo_t) : Z :=
  64 + 32 * blockMode fi + 8 * b2i sized + 4 * contentChecksumFlag fi.

Definition bd_value (fi : LZ4F_frameInfo_t) : Z := 16 * blockSizeID fi.

Definition descriptor (sized : bool) (fi : LZ4F_frameInfo_t) : list byte :=
  [z2b (flg_value sized fi); z2b (bd_value fi)]
    ++ (if sized then le_bytes 8 (contentSize fi) else []).

Definition header_bytes (sized : bool) (fi : LZ4F_frameInfo_t) : list byte :=
  le_bytes 4 LZ4F_MAGICNUMBER ++ descriptor sized fi
    ++ [z2b (xxh32 0 (descriptor sized fi) / 256)].

Definition header_size (sized : bool) : Z := if sized then maxFHSize else minFHSize.

(** * The blocks *)

Definition block_size (fi : LZ4F_frameInfo_t) : Z := 2 ^ (8 + 2 * blockSizeID fi).

(** A block of a frame and its text: the size and the text itself, marked as
    uncompressed, or the size and an LZ4 block. *)
Inductive frame_block (maxBlock : Z) (hist : list byte) : list byte → list byte → Prop :=
| raw_block x :
    0 < zlen x ≤ maxBlock →
    frame_block maxBlock hist (le_bytes 4 (zlen x + LZ4F_BLOCKUNCOMPRESSED_FLAG) ++ x) x
| lz4_block seqs l x :
    end_ok seqs l → block_text hist seqs l = Some x →
    zlen (block seqs l) ≤ maxBlock → 0 < zlen x ≤ maxBlock →
    frame_block maxBlock hist (le_bytes 4 (zlen (block seqs l)) ++ block seqs l) x.

(** Blocks one after the other.  The history of a linked block is all the text
    before it, that of an independent one is empty. *)
Inductive frame_blocks (maxBlock : Z) (linked : bool) : list byte → list byte → list byte → Prop :=
| blocks_nil hist : frame_blocks maxBlock linked hist [] []
| blocks_cons hist d x ds xs :
    frame_block maxBlock (if linked then hist else []) d x →
    frame_blocks maxBlock linked (hist ++ x) ds xs →
    frame_blocks maxBlock linked hist (d ++ ds) (x ++ xs).

(** * Frames *)

(** A 32-bit hash state, seeded with 0, that has been fed a text. *)
Abbreviation sum32 := (hashed 4 round32 init32 0).

Definition suffix_bytes (fi : LZ4F_frameInfo_t) (x : list byte) : list byte :=
  le_bytes 4 0 ++ (if contentChecksumFlag fi =? 0 then [] else le_bytes 4 (xxh32 0 x)).

(** [bytes] is a frame with content [x], described by [fi]. *)
Record lz4_frame (fi : LZ4F_frameInfo_t) (bytes x : list byte) : Prop := {
  lf_info : info_ok fi;
  lf_content : contentSize fi = 0 ∨ contentSize fi = zlen x;
  lf_bytes : ∃ data,
    frame_blocks (block_size fi) (blockMode fi =? LZ4F_blockLinked) [] data x ∧
    bytes = header_bytes (negb (contentSize fi =? 0)) fi ++ data ++ suffix_bytes fi x
}.

(** * Properties *)

Lemma length_descriptor (sized : bool) (fi : LZ4F_frameInfo_t) :
  zlen (descriptor sized fi) = header_size sized - 5.
Proof.
  unfold descriptor, header_size. rewrite length_app. destruct sized; [|done].
  by rewrite length_le_bytes.
Qed.

Lemma length_header (sized : bool) (fi : LZ4F_frameInfo_t) :
  zlen (header_bytes sized fi) = header_size sized.
Proof.
  unfold header_bytes. rewrite !length_app, length_le_bytes.
  pose proof (length_descriptor sized fi). cbn [length]. lia.
Qed.

Lemma block_size_range (fi : LZ4F_frameInfo_t) :
  info_ok fi → KB 64 ≤ block_size fi ≤ 2 ^ 22.
Proof.
  intros [H _ _ _ _]. unfold block_size, KB.
  assert (blockSizeID fi = 4 ∨ blockSizeID fi = 5 ∨ blockSizeID fi = 6 ∨ blockSizeID fi = 7)
    as [-> | [-> | [-> | ->]]] by lia; done.
Qed.

Lemma getBlockSize_eq `{arch : Arch} (fi : LZ4F_frameInfo_t) :
  info_ok fi → LZ4F_getBlockSize (blockSizeID fi) = block_size fi.
Proof.
  intros [H _ _ _ _]. unfold block_size.
  assert (blockSizeID fi = 4 ∨ blockSizeID fi = 5 ∨ blockSizeID fi = 6 ∨ blockSizeID fi = 7)
    as [-> | [-> | [-> | ->]]] by lia; done.
Qed.

Lemma flg_range (sized : bool) (fi : LZ4F_frameInfo_t) :
  info_ok fi → 64 ≤ flg_value sized fi < 128.
Proof. intros []. unfold flg_value. destruct sized; simpl b2i; lia. Qed.

(** The fields of a header byte. *)
Lemma field_value (v k n : Z) : 0 ≤ k → 0 ≤ n →
  Z.land (Z.shiftr v k) (Z.ones n) = (v / 2 ^ k) mod 2 ^ n.
Proof. intros. rewrite Z.land_ones, Z.shiftr_div_pow2 by lia. done. Qed.

Lemma frame_block_text (maxBlock : Z) (hist d x : list byte) :
  frame_block maxBlock hist d x → zlen x ≤ maxBlock ∧ 4 < zlen d.
Proof.
  intros [? Hx|seqs l ? _ _ _ Hx]; rewrite length_app, length_le_bytes; [lia|].
  pose proof (length_block_pos seqs l). lia.
Qed.

(** A block can be added at the end. *)
Lemma frame_blocks_snoc (maxBlock : Z) (linked : bool) (hist ds xs d x : list byte) :
  frame_blocks maxBlock linked hist ds xs →
  frame_block maxBlock (if linked then hist ++ xs else []) d x →
  frame_blocks maxBlock linked hist (ds ++ d) (xs ++ x).
Proof.
  induction 1 as [hist|hist d0 x0 ds xs H0 _ IH]; intros Hd.
  - rewrite app_nil_r in Hd. rewrite <- (app_nil_r d), <- (app_nil_r x). simpl.
    apply blocks_cons; [done|]. apply blocks_nil.
  - rewrite <- !app_assoc. apply blocks_cons; [done|]. apply IH. by rewrite <- app_assoc.
Qed.

