(* ===== verification/Lz4FrameProofs.v ===== *)
(** The header of a frame: what [LZ4F_compressBegin] writes is the header of the
    format, and [LZ4F_decodeHeader] accepts the headers of the format and
    nothing else. *)

From Stdlib Require Import ZArith Lia Strings.Byte.
From stdpp Require Import base gmap list fin_maps numbers.
From S2P Require Import Prelude Mem Lz4Common Lz4Format Lz4Decompress Lz4Compress Lz4Stream Lz4Hc Xxhash XxhashProofs Lz4Frame Lz4FrameDec Lz4FrameFormat.

(** * Little-endian fields *)

Section le_fields.
Context {arch : Arch}.
Implicit Types (m : mem).

Lemma u32_byte_sum (a b c d : Z) :
  0 ≤ a < 256 → 0 ≤ b < 256 → 0 ≤ c < 256 → 0 ≤ d < 256 →
  u32 (u32 (u32 (a + Z.shiftl b 8) + Z.shiftl c 16) + u32 (Z.shiftl d 24))
    = a + 256 * (b + 256 * (c + 256 * (d + 256 * 0))).
Proof.
  intros. rewrite !Z.shiftl_mul_pow2 by lia.
  rewrite (u32_small (a + _)), (u32_small (_ + c * _)), (u32_small (d * _)), u32_small by lia. lia.
Qed.

Lemma bytes_at_cons4 (p : Z) (a b c d : byte) (l : list byte) m :
  bytes_at m p (a :: b :: c :: d :: l) ↔
    m !! p = Some a ∧ m !! (p + 1) = Some b ∧ m !! (p + 2) = Some c ∧ m !! (p + 3) = Some d ∧
    bytes_at m (p + 4) l.
Proof.
  simpl. replace (p + 1 + 1) with (p + 2) by lia. replace (p + 2 + 1) with (p + 3) by lia.
  by replace (p + 3 + 1) with (p + 4) by lia.
Qed.

Lemma readLE32_val (p : Z) (l : list byte) m :
  bytes_at m p l → length l = 4%nat → LZ4F_readLE32 p m = Ret (le_val l) m.
Proof.
  destruct l as [|a [|b [|c [|d []]]]]; try done. rewrite bytes_at_cons4.
  intros (Ha & Hb & Hc & Hd & _) _. unfold LZ4F_readLE32, bind, load8.
  rewrite Ha, Hb, Hc, Hd. unfold ret. f_equal. apply u32_byte_sum; apply b2z_range.
Qed.

Lemma readLE64_val (p : Z) (l : list byte) m :
  bytes_at m p l → length l = 8%nat → LZ4F_readLE64 p m = Ret (le_val l) m.
Proof.
  destruct l as [|a [|b [|c [|d [|e [|f [|g [|h []]]]]]]]]; try done. rewrite !bytes_at_cons4.
  replace (p + 4 + 1) with (p + 5) by lia. replace (p + 4 + 2) with (p + 6) by lia.
  replace (p + 4 + 3) with (p + 7) by lia.
  intros (Ha & Hb & Hc & Hd & He & Hf & Hg & Hh & _) _. unfold LZ4F_readLE64, bind, load8.
  rewrite Ha, Hb, Hc, Hd, He, Hf, Hg, Hh. unfold ret. f_equal. simpl le_val.
  pose proof (b2z_range a). pose proof (b2z_range b). pose proof (b2z_range c).
  pose proof (b2z_range d). pose proof (b2z_range e). pose proof (b2z_range f).
  pose proof (b2z_range g). pose proof (b2z_range h).
  rewrite !Z.shiftl_mul_pow2 by lia.
  rewrite (u64_small (b2z a + _)), (u64_small (_ + b2z c * _)), (u64_small (b2z d * _)),
    (u64_small (_ + b2z d * _)), (u64_small (b2z e * _)), (u64_small (_ + b2z e * _)),
    (u64_small (b2z f * _)), (u64_small (_ + b2z f * _)), (u64_small (b2z g * _)),
    (u64_small (_ + b2z g * _)), (u64_small (b2z h * _)), u64_small by lia.
  lia.
Qed.

Lemma store8_byte (p v : Z) : store8 p (b2z (z2b v)) = store8 p v.
Proof. unfold store8. by rewrite z2b_b2z. Qed.

Lemma shiftr_8 (v : Z) : Z.shiftr v 8 = v / 256.
Proof. by rewrite Z.shiftr_div_pow2. Qed.

Lemma shiftr_step (v k : Z) : 0 ≤ k → Z.shiftr v (k + 8) = Z.shiftr v k / 256.
Proof. intros. rewrite <- Z.shiftr_shiftr by lia. apply shiftr_8. Qed.

Lemma writeLE32_eq (p v : Z) m : LZ4F_writeLE32 p v m = store_bytes p (le_bytes 4 v) m.
Proof.
  cbn [le_bytes store_bytes]. rewrite !store8_byte. unfold LZ4F_writeLE32.
  replace (p + 1 + 1) with (p + 2) by lia. replace (p + 2 + 1) with (p + 3) by lia.
  change 24 with (16 + 8). change 16 with (8 + 8). rewrite !shiftr_step, !shiftr_8 by lia.
  unfold bind. repeat case_match; simplify_eq; try done.
  by match goal with |- Ret ?a _ = _ => destruct a end.
Qed.

Lemma writeLE64_eq (p v : Z) m : LZ4F_writeLE64 p v m = store_bytes p (le_bytes 8 v) m.
Proof.
  cbn [le_bytes store_bytes]. rewrite !store8_byte. unfold LZ4F_writeLE64.
  replace (p + 1 + 1) with (p + 2) by lia. replace (p + 2 + 1) with (p + 3) by lia.
  replace (p + 3 + 1) with (p + 4) by lia. replace (p + 4 + 1) with (p + 5) by lia.
  replace (p + 5 + 1) with (p + 6) by lia. replace (p + 6 + 1) with (p + 7) by lia.
  change 56 with (48 + 8). change 48 with (40 + 8). change 40 with (32 + 8).
  change 32 with (24 + 8). change 24 with (16 + 8). change 16 with (8 + 8).
  rewrite !shiftr_step, !shiftr_8 by lia.
  unfold bind. repeat case_match; simplify_eq; try done.
  by match goal with |- Ret ?a _ = _ => destruct a end.
Qed.

Lemma writeLE32_spec (p v : Z) m :
  mapped m p 4 →
  wp (LZ4F_writeLE32 p v) (λ _ m', frame p (p + 4) m m' ∧ bytes_at m' p (le_bytes 4 v)) m.
Proof.
  intros Hm. pose proof (store_bytes_spec (le_bytes 4 v) p m) as H.
  rewrite length_le_bytes in H. unfold wp in *. rewrite writeLE32_eq. by apply H.
Qed.

Lemma writeLE64_spec (p v : Z) m :
  mapped m p 8 →
  wp (LZ4F_writeLE64 p v) (λ _ m', frame p (p + 8) m m' ∧ bytes_at m' p (le_bytes 8 v)) m.
Proof.
  intros Hm. pose proof (store_bytes_spec (le_bytes 8 v) p m) as H.
  rewrite length_le_bytes in H. unfold wp in *. rewrite writeLE64_eq. by apply H.
Qed.

Lemma LE32_at (p v : Z) (l : list byte) m :
  bytes_at m p (le_bytes 4 v ++ l) → 0 ≤ v < 2 ^ 32 → LZ4F_readLE32 p m = Ret v m.
Proof.
  intros Hb Hv. apply bytes_at_app in Hb as [Hb _].
  rewrite (readLE32_val p _ m Hb (length_le_bytes 4 v)), le_val_le_bytes. f_equal.
  change (256 ^ Z.of_nat 4) with (2 ^ 32). by apply Z.mod_small.
Qed.

Lemma headerChecksum_at (ua : bool) (p : Z) (l : list byte) m :
  bytes_at m p l →
  LZ4F_headerChecksum ua p (zlen l) m = Ret (u8 (xxh32 0 l / 256)) m.
Proof.
  intros Hb. unfold LZ4F_headerChecksum, bind, XXH32.
  case_if; rewrite (XXH32_endian_align_at p 0 _ l m Hb); unfold ret; by rewrite shiftr_8.
Qed.

End le_fields.

(** * Writing a header *)

Section header.
Context {arch : Arch} (ua : bool).
Implicit Types (m : mem) (fi : LZ4F_frameInfo_t).

Lemma header_flags fi :
  info_ok fi →
  Z.shiftl (Z.land 1 _2BITS) 6 + Z.shiftl (Z.land (blockMode fi) _1BIT) 5
    + Z.shiftl (Z.land (contentChecksumFlag fi) _1BIT) 2 + Z.shiftl (b2i (contentSize fi >? 0)) 3
  = flg_value (negb (contentSize fi =? 0)) fi.
Proof.
  intros [_ Hm Hc _ Hs]. unfold flg_value.
  assert ((contentSize fi >? 0) = negb (contentSize fi =? 0)) as ->.
  { destruct (Z.eqb_spec (contentSize fi) 0) as [-> | H]; [done|]. simpl.
    rewrite Z.gtb_ltb. apply Z.ltb_lt. lia. }
  assert (blockMode fi = 0 ∨ blockMode fi = 1) as [-> | ->] by lia;
    (assert (contentChecksumFlag fi = 0 ∨ contentChecksumFlag fi = 1) as [-> | ->] by lia);
    by destruct (contentSize fi =? 0).
Qed.

Lemma header_bd fi : info_ok fi → Z.shiftl (Z.land (blockSizeID fi) _3BITS) 4 = bd_value fi.
Proof.
  intros [H _ _ _ _]. unfold bd_value.
  assert (blockSizeID fi = 4 ∨ blockSizeID fi = 5 ∨ blockSizeID fi = 6 ∨ blockSizeID fi = 7)
    as [-> | [-> | [-> | ->]]] by lia; done.
Qed.

Lemma store8_at (p v : Z) m :
  is_Some (m !! p) →
  wp (store8 p v) (λ _ m', frame p (p + 1) m m' ∧ bytes_at m' p [z2b v]) m.
Proof.
  intros Hp. apply wp_store8; [done|]. split; [by apply frame_insert; [|lia]|].
  simpl. by rewrite lookup_insert_eq.
Qed.

(** The optional field for the content size. *)
Lemma content_field_spec fi (p : Z) m :
  let sized := negb (contentSize fi =? 0) in
  mapped m p (header_size sized - 7) →
  wp (if negb (contentSize fi =? 0) then LZ4F_writeLE64 p (contentSize fi) ;! ret (p + 8) else ret p)
     (λ r m', r = p + (header_size sized - 7) ∧ frame p r m m' ∧
        bytes_at m' p (if sized then le_bytes 8 (contentSize fi) else [])) m.
Proof.
  intros sized Hm. unfold sized, header_size, maxFHSize, minFHSize in *.
  destruct (contentSize fi =? 0); simpl in *.
  - apply wp_ret. split; [lia|]. split; [reflexivity|done].
  - wp_apply writeLE64_spec; [done|]. intros _ m' [F Hb]. apply wp_ret. split; [lia|]. done.
Qed.

Lemma compressBegin_header_spec fi (dst : Z) m :
  let sized := negb (contentSize fi =? 0) in
  info_ok fi → mapped m dst (header_size sized) →
  wp (compressBegin_header ua fi dst)
     (λ r m', r = dst + header_size sized ∧ frame dst r m m' ∧
        bytes_at m' dst (header_bytes sized fi)) m.
Proof.
  intros sized Hok Hm. unfold compressBegin_header. rewrite header_flags, header_bd by done.
  fold sized.
  assert (Hsz : 7 ≤ header_size sized) by (destruct sized; done).
  wp_apply writeLE32_spec; [solve_mapped|]. intros _ m1 [F1 B1].
  wp_apply store8_at; [solve_mapped|]. intros _ m2 [F2 B2].
  wp_apply store8_at; [solve_mapped|]. intros _ m3 [F3 B3].
  wp_apply content_field_spec; [fold sized; solve_mapped|]. fold sized. intros r m4 (-> & F4 & B4).
  assert (Hd : bytes_at m4 (dst + 4) (descriptor sized fi)).
  { unfold descriptor. simpl. split; [|split].
    - rewrite (frame_eq _ _ _ _ F4), (frame_eq _ _ _ _ F3) by lia. apply B2.
    - rewrite (frame_eq _ _ _ _ F4) by lia. apply B3.
    - done. }
  assert (dst + 4 + 1 + 1 + (header_size sized - 7) - (dst + 4) = zlen (descriptor sized fi)) as ->
    by (rewrite length_descriptor; lia).
  apply wp_bind. unfold wp at 1. rewrite (headerChecksum_at ua _ _ _ Hd).
  wp_apply store8_at; [solve_mapped|]. intros _ m5 [F5 B5].
  pose proof (length_descriptor sized fi) as HL.
  apply wp_ret. split; [lia|]. split; [solve_frame|]. unfold header_bytes.
  rewrite !bytes_at_app, length_le_bytes. split; [|split].
  - eapply bytes_at_frame; [exact F5|rewrite length_le_bytes; lia|].
    eapply bytes_at_frame; [exact F4|rewrite length_le_bytes; lia|].
    eapply bytes_at_frame; [exact F3|rewrite length_le_bytes; lia|].
    eapply bytes_at_frame; [exact F2|rewrite length_le_bytes; lia|done].
  - eapply bytes_at_frame; [exact F5|lia|done].
  - replace (dst + Z.of_nat 4 + zlen (descriptor sized fi))
      with (dst + 4 + 1 + 1 + (header_size sized - 7)) by lia.
    unfold u8 in B5. simpl in *. destruct B5 as [B5 _]. split; [|done]. rewrite B5. f_equal.
    apply b2z_inj. rewrite !b2z_z2b. unfold u8. by rewrite wrap_wrap.
Qed.

End header.

(** * Reading a header *)

(** The buffer space a frame needs, and the buffers its decoder ends up with. *)
Definition needed (fi : LZ4F_frameInfo_t) : Z :=
  block_size fi + b2i (blockMode fi =? LZ4F_blockLinked) * KB 128.

Definition grows (d : LZ4F_dctx_t) (fi : LZ4F_frameInfo_t) : bool := needed fi >? d_maxBufferSize d.

Definition buf_in (d : LZ4F_dctx_t) (fi : LZ4F_frameInfo_t) (newIn : Z) : Z :=
  if grows d fi then newIn else d_tmpIn d.

Definition buf_out (d : LZ4F_dctx_t) (fi : LZ4F_frameInfo_t) (newOut : Z) : Z :=
  if grows d fi then newOut else tmpOutBuffer d.

Definition buf_cap (d : LZ4F_dctx_t) (fi : LZ4F_frameInfo_t) : Z :=
  if grows d fi then needed fi else d_maxBufferSize d.

(** The context at the first block of a frame described by [fi]. *)
Definition started (d : LZ4F_dctx_t) (sized : bool) (fi : LZ4F_frameInfo_t) (newIn newOut : Z) :
    LZ4F_dctx_t :=
  let bout := buf_out d fi newOut in
  Dctx fi (d_version d) dstage_getCBlockSize (if sized then contentSize fi else frameRemainingSize d)
    (block_size fi) (buf_cap d fi) (srcExpect d) (buf_in d fi newIn) 0 0 bout bout 0 bout 0 0
    (if contentChecksumFlag fi =? 0 then d_xxh d else XXH32_reset (d_xxh d) 0) (d_header d).

Definition zeros (n : Z) : list byte := replicate (Z.to_nat n) x00.

(** The memory once the buffers are allocated. *)
Definition mem_started (d : LZ4F_dctx_t) (fi : LZ4F_frameInfo_t) (newIn newOut : Z) (m : mem) : mem :=
  if grows d fi then place newOut (zeros (needed fi)) (place newIn (zeros (block_size fi)) m) else m.

(** What the descriptor [f], [b], [field] with the checksum [hc] stands for: the
    first defect, or the frame it describes. *)
Definition parse_descriptor (f b : byte) (field : list byte) (hc : byte) :
    LZ4F_errorCodes + LZ4F_frameInfo_t :=
  let F := b2z f in
  let B := b2z b in
  if negb (F / 64 mod 4 =? 1) then inl ERROR_headerVersion_wrong
  else if negb (F / 16 mod 2 =? 0) then inl ERROR_blockChecksum_unsupported
  else if negb (F mod 4 =? 0) then inl ERROR_reservedFlag_set
  else if negb (B / 128 mod 2 =? 0) then inl ERROR_reservedFlag_set
  else if B / 16 mod 8 <? 4 then inl ERROR_maxBlockSize_invalid
  else if negb (B mod 16 =? 0) then inl ERROR_reservedFlag_set
  else if negb (u8 (xxh32 0 (f :: b :: field) / 256) =? b2z hc) then inl ERROR_headerChecksum_invalid
  else inr (FrameInfo (B / 16 mod 8) (F / 32 mod 2) (F / 4 mod 2) LZ4F_frame
              (if F / 8 mod 2 =? 0 then 0 else le_val field)).

(** The content size flag of the descriptor. *)
Definition sized_flag (f : byte) : bool := negb (b2z f / 8 mod 2 =? 0).

(** Case analysis on the first test of a hypothesis. *)
Ltac case_if_in H :=
  match type of H with
  | context [if ?b then _ else _] => let E := fresh "E" in destruct b eqn:E
  end.

Lemma parse_sound (f b : byte) (field : list byte) (hc : byte) (fi : LZ4F_frameInfo_t) :
  parse_descriptor f b field hc = inr fi → length field = (if sized_flag f then 8 else 0)%nat →
  info_ok fi ∧ descriptor (sized_flag f) fi = f :: b :: field ∧
  z2b (xxh32 0 (descriptor (sized_flag f) fi) / 256) = hc ∧
  (sized_flag f = false → contentSize fi = 0).
Proof.
  unfold parse_descriptor, sized_flag. intros H Hl.
  pose proof (b2z_range f). pose proof (b2z_range b).
  do 7 (case_if_in H; zbool; [done|]). injection H as <-.
  destruct (Z.eqb_spec (b2z f / 8 mod 2) 0) as [H8|H8]; simpl in *.
  - destruct field; [|done].
    assert (Hd : descriptor false {| blockSizeID := b2z b / 16 mod 8; blockMode := b2z f / 32 mod 2;
      contentChecksumFlag := b2z f / 4 mod 2; frameType := LZ4F_frame; contentSize := 0 |} = [f; b]).
    { unfold descriptor, flg_value, bd_value. simpl. f_equal; [|f_equal];
        rewrite <- z2b_b2z; f_equal; zdiv. }
    split; [constructor; simpl; try done; zdiv|]. split; [done|]. split; [|done].
    rewrite Hd. apply b2z_inj. by rewrite b2z_z2b.
  - pose proof (le_val_range field) as Hr. rewrite Hl in Hr.
    assert (Hd : descriptor true {| blockSizeID := b2z b / 16 mod 8; blockMode := b2z f / 32 mod 2;
      contentChecksumFlag := b2z f / 4 mod 2; frameType := LZ4F_frame; contentSize := le_val field |}
      = f :: b :: field).
    { unfold descriptor, flg_value, bd_value. simpl. f_equal; [|f_equal].
      - rewrite <- z2b_b2z; f_equal; zdiv.
      - rewrite <- z2b_b2z; f_equal; zdiv.
      - transitivity (le_bytes (length field) (le_val field)); [by rewrite Hl|apply le_bytes_le_val]. }
    split; [constructor; simpl; try done; zdiv|]. split; [done|]. split; [|done].
    rewrite Hd. apply b2z_inj. by rewrite b2z_z2b.
Qed.

Lemma parse_complete (sized : bool) (fi : LZ4F_frameInfo_t) (f b : byte) (field : list byte) (hc : byte) :
  info_ok fi → (sized = false → contentSize fi = 0) →
  descriptor sized fi = f :: b :: field → z2b (xxh32 0 (descriptor sized fi) / 256) = hc →
  parse_descriptor f b field hc = inr fi ∧ sized_flag f = sized.
Proof.
  intros Hok Hs Hd Hc. pose proof (flg_range sized fi Hok) as HF. rewrite Hd in Hc.
  pose proof Hok as [H1 H2 H3 H4 H5].
  unfold descriptor in Hd. cbn [app] in Hd. injection Hd as Hf Hb Hfield.
  assert (HB : b2z b = 16 * blockSizeID fi).
  { rewrite <- Hb, b2z_z2b_small; unfold bd_value; lia. }
  assert (HFv : b2z f = flg_value sized fi) by (rewrite <- Hf, b2z_z2b_small; [done|lia]).
  assert (Hcs : u8 (xxh32 0 (f :: b :: field) / 256) = b2z hc) by (by rewrite <- Hc, b2z_z2b).
  assert (Hf8 : b2z f / 8 mod 2 = b2i sized).
  { rewrite HFv. unfold flg_value. destruct sized; simpl b2i; zdiv. }
  assert (Hle : (if b2z f / 8 mod 2 =? 0 then 0 else le_val field) = contentSize fi).
  { rewrite Hf8. destruct sized; simpl; [|by rewrite Hs].
    rewrite <- Hfield. transitivity (le_val (le_bytes 8 (contentSize fi))); [reflexivity|].
    rewrite le_val_le_bytes. change (256 ^ Z.of_nat 8) with (2 ^ 64).
    by apply Z.mod_small. }
  split; [|unfold sized_flag; rewrite Hf8; by destruct sized].
  unfold parse_descriptor. rewrite Hle, Hcs, HB, HFv, Z.eqb_refl. unfold flg_value.
  set (s := b2i sized) in *. assert (Hs01 : 0 ≤ s ≤ 1) by (destruct sized; unfold s; simpl; lia).
  do 6 (case_if; zbool; [zdiv|]). simpl negb. cbv iota.
  f_equal. destruct fi as [bs bm cc ft cs]; simpl in *. subst ft. f_equal; zdiv.
Qed.

Section decode_header.
Context {arch : Arch} (ua : bool).
Implicit Types (m : mem) (fi : LZ4F_frameInfo_t) (d : LZ4F_dctx_t).

Lemma usize_fits (z : Z) : 0 ≤ z < 2 ^ 32 → usize z = z.
Proof.
  intros Hz. apply wrap_small. split; [lia|]. unfold ptr_bits, STEPSIZE.
  destruct LZ4_64bits; simpl; lia.
Qed.

Lemma error_large (e : LZ4F_errorCodes) :
  e ≠ OK_NoError → e ≠ ERROR_maxCode → LZ4F_isError (error e) = true.
Proof.
  intros H1 H2. unfold LZ4F_isError, error, usize, ptr_bits, STEPSIZE. by destruct LZ4_64bits, e.
Qed.

Lemma isError_small (z : Z) : 0 ≤ z < 2 ^ 31 → LZ4F_isError z = false.
Proof.
  intros Hz. unfold LZ4F_isError. rewrite Z.gtb_ltb. apply Z.ltb_ge.
  unfold error, usize, ptr_bits, STEPSIZE.
  destruct LZ4_64bits; [change (wrap _ _) with (2 ^ 64 - 19)|change (wrap _ _) with (2 ^ 32 - 19)]; lia.
Qed.

Lemma needed_range fi : info_ok fi → KB 64 ≤ needed fi ≤ 2 ^ 23.
Proof.
  intros H. pose proof (block_size_range fi H). unfold needed, KB in *.
  destruct (blockMode fi =? LZ4F_blockLinked); simpl b2i; lia.
Qed.

(** The allocation of the buffers. *)
Lemma decodeHeader_alloc_run d fi (newIn newOut : Z) m :
  info_ok fi → d_frameInfo d = fi → d_maxBlockSize d = block_size fi →
  newIn ≠ NULL → newOut ≠ NULL →
  decodeHeader_alloc d newIn newOut m =
    Ret (set_buffers d (block_size fi) (buf_cap d fi) (buf_in d fi newIn) (buf_out d fi newOut), true)
        (mem_started d fi newIn newOut m).
Proof.
  intros Hok Hfi Hb Hin Hout. pose proof (needed_range fi Hok). pose proof (block_size_range fi Hok).
  unfold decodeHeader_alloc, d_linked, buf_cap, buf_in, buf_out, mem_started. rewrite Hfi, Hb.
  change (block_size fi + _ * KB 128) with (needed fi). rewrite usize_fits by (unfold KB in *; lia).
  unfold grows. destruct (needed fi >? d_maxBufferSize d); [|unfold ret; rewrite <- Hb; by destruct d].
  unfold calloc, bind, NULL in *.
  destruct (Z.eqb_spec newIn 0) as [|_]; [done|]. destruct (Z.eqb_spec newIn 0) as [|_]; [done|].
  destruct (Z.eqb_spec newOut 0) as [|_]; [done|]. destruct (Z.eqb_spec newOut 0) as [|_]; [done|].
  done.
Qed.

Lemma load8_run (p : Z) (b : byte) m : m !! p = Some b → load8 p m = Ret (b2z b) m.
Proof. intros H. unfold load8. by rewrite H. Qed.

(** The tests of the code are those of [parse_descriptor]. *)
Lemma flg_fields (F : Z) :
  Z.land (Z.shiftr F 6) _2BITS = F / 64 mod 4 ∧ Z.land (Z.shiftr F 5) _1BIT = F / 32 mod 2 ∧
  Z.land (Z.shiftr F 4) _1BIT = F / 16 mod 2 ∧ Z.land (Z.shiftr F 3) _1BIT = F / 8 mod 2 ∧
  Z.land (Z.shiftr F 2) _1BIT = F / 4 mod 2 ∧ Z.land (Z.shiftr F 0) _2BITS = F mod 4.
Proof.
  change _2BITS with (Z.ones 2). change _1BIT with (Z.ones 1). rewrite !field_value by lia.
  change (2 ^ 0) with 1. by rewrite Z.div_1_r.
Qed.

Lemma bd_fields (B : Z) :
  Z.land (Z.shiftr B 7) _1BIT = B / 128 mod 2 ∧ Z.land (Z.shiftr B 4) _3BITS = B / 16 mod 8 ∧
  Z.land (Z.shiftr B 0) _4BITS = B mod 16.
Proof.
  change _1BIT with (Z.ones 1). change _3BITS with (Z.ones 3). change _4BITS with (Z.ones 4).
  rewrite !field_value by lia. change (2 ^ 0) with 1. by rewrite Z.div_1_r.
Qed.

Lemma validate_run d (src : Z) (f b : byte) (field : list byte) (hc : byte) (newIn newOut : Z) m :
  bytes_at m (src + 4) (f :: b :: field ++ [hc]) →
  length field = (if sized_flag f then 8 else 0)%nat →
  d_frameInfo d = FrameInfo 0 0 0 LZ4F_frame 0 → newIn ≠ NULL → newOut ≠ NULL →
  decodeHeader_validate ua d src (b2z f) (header_size (sized_flag f)) newIn newOut m =
    match parse_descriptor f b field hc with
    | inl e => Ret (d, error e) m
    | inr fi => Ret (started d (sized_flag f) fi newIn newOut, header_size (sized_flag f))
                    (mem_started d fi newIn newOut m)
    end.
Proof.
  intros Hb Hl Hd0 Hin Hout. unfold decodeHeader_validate.
  destruct (flg_fields (b2z f)) as (-> & -> & -> & -> & -> & ->).
  change (f :: b :: field ++ [hc]) with ((f :: b :: field) ++ [hc]) in Hb.
  apply bytes_at_app in Hb as [Hb [Hhc _]].
  assert (Hlen : zlen (f :: b :: field) = header_size (sized_flag f) - 5).
  { cbn [length]. rewrite Hl. by destruct (sized_flag f). }
  pose proof Hb as (Hf & Hb5 & Hfield). replace (src + 4 + 1) with (src + 5) in * by lia.
  unfold bind at 1. rewrite (load8_run _ _ _ Hb5).
  destruct (bd_fields (b2z b)) as (-> & -> & ->).
  destruct (parse_descriptor f b field hc) as [e|fi] eqn:Hp; pose proof Hp as Hp'.
  - unfold parse_descriptor in Hp.
    do 6 (case_if; [by injection Hp as <-|]).
    unfold bind. rewrite <- Hlen, (headerChecksum_at ua _ _ _ Hb).
    replace (src + header_size (sized_flag f) - 1) with (src + 4 + zlen (f :: b :: field)) by lia.
    rewrite (load8_run _ _ _ Hhc). case_if; [by injection Hp as <-|done].
  - pose proof (parse_sound _ _ _ _ _ Hp Hl) as (Hok & _ & _ & Hs).
    unfold parse_descriptor in Hp.
    do 6 (case_if; [done|]).
    unfold bind at 1. rewrite <- Hlen, (headerChecksum_at ua _ _ _ Hb).
    unfold bind at 1. replace (src + header_size (sized_flag f) - 1) with (src + 4 + zlen (f :: b :: field)) by lia.
    rewrite (load8_run _ _ _ Hhc). case_if; [done|]. injection Hp as Hfi.
    assert (Hsize : (if negb (b2z f / 8 mod 2 =? 0) then LZ4F_readLE64 (src + 6)
                     else ret (contentSize (d_frameInfo d))) m = Ret (contentSize fi) m).
    { rewrite <- Hfi. unfold sized_flag in Hl. cbn [contentSize].
      destruct (b2z f / 8 mod 2 =? 0); cbn [negb] in *.
      - unfold ret. by rewrite Hd0.
      - apply readLE64_val; [|done]. by replace (src + 6) with (src + 5 + 1) by lia. }
    unfold bind at 1. rewrite Hsize. unfold bind. rewrite Hd0. cbn [frameType].
    rewrite (decodeHeader_alloc_run _ fi);
      [|done|by rewrite <- Hfi| |done|done].
    2: { cbn. rewrite <- (getBlockSize_eq fi Hok). by rewrite <- Hfi. }
    assert (Hc : (b2z f / 4) mod 2 = contentChecksumFlag fi) by (by rewrite <- Hfi).
    assert (Hfi' : FrameInfo (b2z b / 16 mod 8) (b2z f / 32 mod 2) (contentChecksumFlag fi)
                     LZ4F_frame (contentSize fi) = fi) by (by rewrite <- Hfi).
    rewrite Hc, Hfi'. unfold ret, sized_flag, started.
    destruct (b2z f / 8 mod 2 =? 0); destruct (contentChecksumFlag fi =? 0); reflexivity.
Qed.

(** The bytes of a header, field by field. *)
Lemma header_fields (sized : bool) fi :
  ∃ f b field hc, header_bytes sized fi = le_bytes 4 LZ4F_MAGICNUMBER ++ f :: b :: field ++ [hc] ∧
    descriptor sized fi = f :: b :: field ∧ z2b (xxh32 0 (descriptor sized fi) / 256) = hc ∧
    length field = (if sized then 8 else 0)%nat.
Proof.
  do 4 eexists. split; [reflexivity|]. split; [reflexivity|]. split; [reflexivity|].
  destruct sized; [apply length_le_bytes|done].
Qed.

(** The part of the code after the magic number, on any descriptor. *)
Lemma decodeHeader_frame d (src srcSize : Z) (f b : byte) (field : list byte) (hc : byte)
    (newIn newOut : Z) m :
  bytes_at m src (le_bytes 4 LZ4F_MAGICNUMBER ++ f :: b :: field ++ [hc]) →
  length field = (if sized_flag f then 8 else 0)%nat → header_size (sized_flag f) ≤ srcSize →
  newIn ≠ NULL → newOut ≠ NULL →
  LZ4F_decodeHeader ua d src srcSize newIn newOut m =
    match parse_descriptor f b field hc with
    | inl e => Ret (set_info d (FrameInfo 0 0 0 LZ4F_frame 0), error e) m
    | inr fi => Ret (started d (sized_flag f) fi newIn newOut, header_size (sized_flag f))
                    (mem_started d fi newIn newOut m)
    end.
Proof.
  intros Hb Hl Hsz Hin Hout. unfold LZ4F_decodeHeader.
  assert (H7 : 7 ≤ header_size (sized_flag f)) by (by destruct (sized_flag f)).
  destruct (Z.ltb_spec srcSize minFHSize); [unfold minFHSize in *; lia|].
  unfold bind at 1. rewrite (LE32_at _ _ _ _ Hb) by (vm_compute; intuition discriminate).
  change (Z.land LZ4F_MAGICNUMBER 0xFFFFFFF0 =? LZ4F_MAGIC_SKIPPABLE_START) with false.
  change (negb (LZ4F_MAGICNUMBER =? LZ4F_MAGICNUMBER)) with false. cbv iota.
  apply bytes_at_app in Hb as [_ Hb]. rewrite length_le_bytes in Hb. change (Z.of_nat 4) with 4 in Hb.
  pose proof Hb as [Hf _]. unfold bind at 1. rewrite (load8_run _ _ _ Hf).
  destruct (flg_fields (b2z f)) as (_ & _ & _ & -> & _ & _).
  change (negb (b2z f / 8 mod 2 =? 0)) with (sized_flag f).
  change (if sized_flag f then maxFHSize else minFHSize) with (header_size (sized_flag f)).
  destruct (Z.ltb_spec srcSize (header_size (sized_flag f))); [lia|].
  rewrite (validate_run _ src f b field hc) by done.
  by destruct (parse_descriptor f b field hc).
Qed.

(** The header of a frame is accepted. *)
Lemma decodeHeader_header d (src srcSize : Z) (sized : bool) fi (newIn newOut : Z) m :
  bytes_at m src (header_bytes sized fi) → header_size sized ≤ srcSize →
  info_ok fi → (sized = false → contentSize fi = 0) → newIn ≠ NULL → newOut ≠ NULL →
  LZ4F_decodeHeader ua d src srcSize newIn newOut m =
    Ret (started d sized fi newIn newOut, header_size sized) (mem_started d fi newIn newOut m).
Proof.
  intros Hb Hsz Hok Hs Hin Hout.
  destruct (header_fields sized fi) as (f & b & field & hc & Hh & Hd & Hc & Hl).
  destruct (parse_complete sized fi f b field hc Hok Hs Hd Hc) as [Hp Hf]. rewrite Hh in Hb.
  rewrite (decodeHeader_frame d src srcSize f b field hc) by (by rewrite ?Hf).
  by rewrite Hp, Hf.
Qed.

(** The magic number is one of the sixteen of skippable frames. *)
Definition skippable_magic (l : list byte) : Prop :=
  Z.land (le_val (take 4 l)) 0xFFFFFFF0 = LZ4F_MAGIC_SKIPPABLE_START.

(** A frame header whose FLG byte announces a content size ends before it: the
    only header that is put off, the others of 7 bytes and more being complete. *)
Definition header_cut (l : list byte) : Prop :=
  take 4 l = le_bytes 4 LZ4F_MAGICNUMBER ∧ (∃ f, l !! 4%nat = Some f ∧ sized_flag f = true) ∧
  zlen l < maxFHSize.

(** The outcomes of decoding the header at the start of [l]; no two of them fit
    the same bytes. *)
Inductive header_verdict (d : LZ4F_dctx_t) (src : Z) (l : list byte) (newIn newOut : Z) (m : mem) :
    LZ4F_dctx_t → Z → mem → Prop :=
| verdict_frame sized fi rest :
    l = header_bytes sized fi ++ rest → info_ok fi → (sized = false → contentSize fi = 0) →
    header_verdict d src l newIn newOut m
      (started d sized fi newIn newOut) (header_size sized) (mem_started d fi newIn newOut m)
| verdict_skippable d' r :
    skippable_magic l →
    (let d1 := set_info d (FrameInfo 0 0 0 LZ4F_skippableFrame 0) in
     if src =? d_header d
     then d' = set_stage (set_in d1 (zlen l) 8) dstage_storeSFrameSize ∧ r = zlen l
     else d' = set_stage d1 dstage_getSFrameSize ∧ r = 4) →
    header_verdict d src l newIn newOut m d' r m
| verdict_incomplete m' :
    header_cut l →
    frame (d_header d) (d_header d + zlen l) m m' → bytes_at m' (d_header d) l →
    header_verdict d src l newIn newOut m
      (set_stage (set_in (set_info d (FrameInfo 0 0 0 LZ4F_frame 0)) (zlen l) maxFHSize)
         dstage_storeHeader) (zlen l) m'
| verdict_refused d' e :
    LZ4F_isError (error e) = true → ¬ skippable_magic l → ¬ header_cut l →
    (∀ sized fi rest, info_ok fi → (sized = false → contentSize fi = 0) →
       l ≠ header_bytes sized fi ++ rest) →
    header_verdict d src l newIn newOut m d' (error e) m.

Lemma magic_not_skippable (l : list byte) :
  take 4 l = le_bytes 4 LZ4F_MAGICNUMBER → ¬ skippable_magic l.
Proof. unfold skippable_magic. intros ->. by vm_compute. Qed.

Lemma take4_magic_app (l : list byte) :
  take 4 (le_bytes 4 LZ4F_MAGICNUMBER ++ l) = le_bytes 4 LZ4F_MAGICNUMBER.
Proof. by apply take_app_length'. Qed.

Lemma header_cut_magic (f : byte) (l : list byte) :
  header_cut (le_bytes 4 LZ4F_MAGICNUMBER ++ f :: l) ↔ sized_flag f = true ∧ 5 + zlen l < maxFHSize.
Proof.
  unfold header_cut. rewrite take4_magic_app, length_app, length_le_bytes. cbn [length].
  rewrite lookup_app_r, length_le_bytes by done. cbn [lookup list_lookup Nat.sub].
  split.
  - intros (_ & (f' & [= <-] & Hf) & Hl). split; [done|lia].
  - intros [Hf Hl]. split_and!; [done|by exists f|lia].
Qed.

Lemma parse_errors (f b : byte) (field : list byte) (hc : byte) (e : LZ4F_errorCodes) :
  parse_descriptor f b field hc = inl e → LZ4F_isError (error e) = true.
Proof.
  intros H. apply error_large; unfold parse_descriptor in H;
    do 7 (case_if_in H; [by injection H as <-|]); done.
Qed.

(** A header that is long enough is accepted or refused. *)
Lemma decodeHeader_decides d (src : Z) (f b : byte) (field : list byte) (hc : byte) (rest : list byte)
    (newIn newOut : Z) m :
  let l := le_bytes 4 LZ4F_MAGICNUMBER ++ f :: b :: field ++ hc :: rest in
  bytes_at m src l → length field = (if sized_flag f then 8 else 0)%nat →
  newIn ≠ NULL → newOut ≠ NULL →
  ∃ d' r m', LZ4F_decodeHeader ua d src (zlen l) newIn newOut m = Ret (d', r) m' ∧
    header_verdict d src l newIn newOut m d' r m'.
Proof.
  intros l Hb Hl Hin Hout.
  assert (Hsplit : l = (le_bytes 4 LZ4F_MAGICNUMBER ++ f :: b :: field ++ [hc]) ++ rest).
  { unfold l. rewrite <- app_assoc. cbn [app]. do 3 f_equal. by rewrite <- app_assoc. }
  rewrite Hsplit in Hb. apply bytes_at_app in Hb as [Hb _].
  rewrite (decodeHeader_frame d src (zlen l) f b field hc _ _ _ Hb Hl); [|
    rewrite Hsplit, !length_app; cbn [length]; rewrite length_app, length_le_bytes, Hl;
    unfold header_size, maxFHSize, minFHSize; destruct (sized_flag f); cbn [length]; lia|done|done].
  destruct (parse_descriptor f b field hc) as [e|fi] eqn:Hp.
  - do 3 eexists. split; [reflexivity|]. apply verdict_refused;
      [by eapply parse_errors|by apply magic_not_skippable, take4_magic_app| |].
    { unfold l. rewrite header_cut_magic. intros [Hf Hlt]. rewrite Hf in Hl.
      cbn [length] in Hlt. rewrite length_app, Hl in Hlt. cbn [length] in Hlt.
      unfold maxFHSize in Hlt. lia. }
    intros sized fi rest' Hok Hs Heq.
    destruct (header_fields sized fi) as (f' & b' & field' & hc' & Hh & Hd & Hc & Hl').
    destruct (parse_complete sized fi f' b' field' hc' Hok Hs Hd Hc) as [Hp' Hf'].
    rewrite Hh, <- app_assoc in Heq. unfold l in Heq. apply app_inv_head in Heq.
    cbn [app] in Heq. injection Heq as -> -> Heq. rewrite Hf' in Hl. rewrite <- app_assoc in Heq.
    apply app_inj_1 in Heq as [-> Heq]; [|congruence]. injection Heq as -> _. congruence.
  - do 3 eexists. split; [reflexivity|].
    destruct (parse_sound f b field hc fi Hp Hl) as (Hok & Hd & Hc & Hs).
    apply (verdict_frame _ _ _ _ _ _ _ fi rest); [|done|done].
    rewrite Hsplit. f_equal. unfold header_bytes. rewrite Hc, Hd. done.
Qed.

Lemma take4_magic (l : list byte) :
  (4 ≤ length l)%nat → le_val (take 4 l) = LZ4F_MAGICNUMBER → take 4 l = le_bytes 4 LZ4F_MAGICNUMBER.
Proof. intros Hl Hm. apply le_val_inj; [by rewrite length_take_le|done]. Qed.

(** What follows a magic number that is the one of a frame. *)
Lemma decodeHeader_magic d (src : Z) (f : byte) (rest : list byte) (newIn newOut : Z) m :
  let l := le_bytes 4 LZ4F_MAGICNUMBER ++ f :: rest in
  bytes_at m src l → minFHSize ≤ zlen l → mapped m (d_header d) 16 → newIn ≠ NULL → newOut ≠ NULL →
  ∃ d' r m', LZ4F_decodeHeader ua d src (zlen l) newIn newOut m = Ret (d', r) m' ∧
    header_verdict d src l newIn newOut m d' r m'.
Proof.
  intros l Hb Hlen Hh Hin Hout.
  assert (Hl : zlen l = 5 + zlen rest).
  { unfold l. rewrite length_app, length_le_bytes. cbn [length]. lia. }
  destruct (decide (header_size (sized_flag f) ≤ zlen l)) as [Hsz|Hsz].
  - (* long enough *)
    destruct rest as [|b rest]; [unfold minFHSize in *; cbn [length] in *; lia|].
    set (n := (if sized_flag f then 8 else 0)%nat).
    assert (Hn : (n < length rest)%nat).
    { cbn [length] in Hl. unfold header_size, maxFHSize, minFHSize, n in *.
      destruct (sized_flag f); lia. }
    destruct (drop n rest) as [|hc rest'] eqn:Hdr.
    { apply (f_equal length) in Hdr. rewrite length_drop in Hdr. simpl in Hdr. lia. }
    assert (Hr : ∃ field, length field = n ∧ rest = field ++ hc :: rest').
    { exists (take n rest). rewrite length_take_le by lia. by rewrite <- Hdr, take_drop. }
    destruct Hr as (field & Hn' & ->). by apply decodeHeader_decides.
  - (* incomplete *)
    assert (Hs : sized_flag f = true).
    { destruct (sized_flag f); [done|]. unfold header_size in Hsz. lia. }
    rewrite Hs in Hsz. unfold header_size in Hsz.
    assert (Hf : m !! (src + 4) = Some f).
    { apply bytes_at_app in Hb as [_ [Hf _]]. by rewrite length_le_bytes in Hf. }
    unfold LZ4F_decodeHeader.
    destruct (Z.ltb_spec (zlen l) minFHSize); [lia|].
    unfold bind at 1. rewrite (LE32_at _ _ _ _ Hb) by (vm_compute; intuition discriminate).
    change (Z.land LZ4F_MAGICNUMBER 0xFFFFFFF0 =? LZ4F_MAGIC_SKIPPABLE_START) with false.
    change (negb (LZ4F_MAGICNUMBER =? LZ4F_MAGICNUMBER)) with false. cbv iota.
    unfold bind at 1. rewrite (load8_run _ _ _ Hf).
    destruct (flg_fields (b2z f)) as (_ & _ & _ & -> & _ & _).
    change (negb (b2z f / 8 mod 2 =? 0)) with (sized_flag f). rewrite Hs.
    destruct (Z.ltb_spec (zlen l) maxFHSize); [|lia].
    change (d_header (set_info (set_info d zero_info) (FrameInfo 0 0 0 LZ4F_frame 0)))
      with (d_header d).
    assert (Hcopy : ∃ m', (if negb (src =? d_header d) then memcpy (d_header d) src (zlen l)
                           else ret tt) m = Ret tt m' ∧
              frame (d_header d) (d_header d + zlen l) m m' ∧ bytes_at m' (d_header d) l).
    { destruct (Z.eqb_spec src (d_header d)) as [<-|_]; cbn [negb].
      - exists m. split_and!; [done|reflexivity|done].
      - unfold maxFHSize in *.
        pose proof (memcpy_spec (d_header d) src (zlen l) m ltac:(lia) (bytes_at_mapped _ _ _ Hb)
          ltac:(solve_mapped)) as Hc.
        apply wp_result in Hc as ([] & m' & Hc & F & Hcp). exists m'. split_and!; try done.
        eapply bytes_at_copy; [|done]. done. }
    destruct Hcopy as (m' & Hc & F & Hbm). unfold bind at 1. rewrite Hc.
    do 3 eexists. split; [reflexivity|].
    refine (verdict_incomplete d src l newIn newOut m m' _ _ _); [|done|done].
    apply header_cut_magic. split; [done|lia].
Qed.

(** The header decoder always comes to a verdict. *)
Lemma decodeHeader_total d (src : Z) (l : list byte) (newIn newOut : Z) m :
  bytes_at m src l → minFHSize ≤ zlen l → mapped m (d_header d) 16 → newIn ≠ NULL → newOut ≠ NULL →
  ∃ d' r m', LZ4F_decodeHeader ua d src (zlen l) newIn newOut m = Ret (d', r) m' ∧
    header_verdict d src l newIn newOut m d' r m'.
Proof.
  intros Hb Hlen Hh Hin Hout. unfold minFHSize in *.
  assert (H4 : (4 ≤ length l)%nat) by lia. rewrite <- (take_drop 4 l) in Hb.
  pose proof Hb as [Hb4 _]%bytes_at_app.
  pose proof (readLE32_val src (take 4 l) m Hb4 ltac:(by apply length_take_le)) as Hmagic.
  destruct (decide (le_val (take 4 l) = LZ4F_MAGICNUMBER)) as [Hm|Hm].
  { destruct (drop 4 l) as [|f rest] eqn:Hdr.
    { apply (f_equal length) in Hdr. rewrite length_drop in Hdr. simpl in Hdr. lia. }
    pose proof (take4_magic l H4 Hm) as Ht.
    assert (Hl : l = le_bytes 4 LZ4F_MAGICNUMBER ++ f :: rest) by (by rewrite <- Ht, <- Hdr, take_drop).
    rewrite Ht, <- Hl in Hb. rewrite Hl in *. by apply decodeHeader_magic. }
  unfold LZ4F_decodeHeader. change minFHSize with 7. destruct (Z.ltb_spec (zlen l) 7); [lia|].
  unfold bind at 1. rewrite Hmagic.
  destruct (Z.eqb_spec (Z.land (le_val (take 4 l)) 0xFFFFFFF0) LZ4F_MAGIC_SKIPPABLE_START) as [Hk|Hk].
  - change (d_header (set_info (set_info d zero_info) _)) with (d_header d).
    destruct (src =? d_header d) eqn:Hsrc; (do 3 eexists; split; [reflexivity|]);
      (apply verdict_skippable; [done|by rewrite Hsrc]).
  - destruct (Z.eqb_spec (le_val (take 4 l)) LZ4F_MAGICNUMBER) as [|_]; [done|]. cbn [negb].
    do 3 eexists. split; [reflexivity|]. apply verdict_refused; [by apply error_large|done| |].
    { intros [Ht _]. apply Hm. by rewrite Ht. }
    intros sized fi rest _ _ Heq. apply Hm. rewrite Heq.
    pose proof (length_header sized fi) as HL.
    assert (7 ≤ header_size sized) by (by destruct sized).
    rewrite take_app_le by lia.
    unfold header_bytes. rewrite take_app_le by (by rewrite length_le_bytes).
    rewrite take_ge by (by rewrite length_le_bytes). done.
Qed.

(** C17: [LZ4F_decodeHeader] on any input of at least 7 bytes stays within it
    and comes to the one verdict that fits it: the header of a format-conforming
    frame is accepted, and the context then describes that frame; a skippable
    frame is recognised; a header whose FLG byte announces a content size and
    that has fewer than 15 bytes, and no other, is kept for the next call; every
    other input is refused with an error code. *)
Theorem LZ4F_decodeHeader_verdict d (src : Z) (l : list byte) (newIn newOut : Z) m :
  bytes_at m src l → minFHSize ≤ zlen l → mapped m (d_header d) 16 → newIn ≠ NULL → newOut ≠ NULL →
  ∃ d' r m', LZ4F_decodeHeader ua d src (zlen l) newIn newOut m = Ret (d', r) m' ∧
    header_verdict d src l newIn newOut m d' r m'.
Proof. apply decodeHeader_total. Qed.

End decode_header.
