(* ===== verification/Lz4FrameBegin.v ===== *)
(** [LZ4F_compressBegin]: the context it leaves, the header it writes, and the
    round trip of the header through [LZ4F_decodeHeader]. *)

From Stdlib Require Import ZArith Lia Strings.Byte.
From stdpp Require Import base gmap list fin_maps numbers.
From S2P Require Import Prelude Mem Lz4Common Lz4Format Lz4Decompress Lz4DecompressApi Lz4Compress Lz4Stream Lz4Hc Xxhash XxhashProofs Lz4Frame Lz4FrameDec Lz4FrameFormat Lz4FrameProofs.

(** * The context at the start of a frame *)

(** The description of the frame the preferences ask for. *)
Definition begin_info (p : LZ4F_preferences_t) : LZ4F_frameInfo_t :=
  let fi := frameInfo p in
  FrameInfo (if blockSizeID fi =? 0 then LZ4F_BLOCKSIZEID_DEFAULT else blockSizeID fi)
    (blockMode fi) (contentChecksumFlag fi) (frameType fi) (contentSize fi).

(** The buffer a frame needs. *)
Definition begin_need (p : LZ4F_preferences_t) : Z :=
  let linked := b2i (blockMode (frameInfo p) =? LZ4F_blockLinked) in
  if negb (autoFlush p =? 0) then linked * KB 64 else block_size (begin_info p) + linked * KB 128.

Definition is_fast (p : LZ4F_preferences_t) : bool := pf_compressionLevel p <? minHClevel.

(** The table is allocated, or the one of the context is used again. *)
Definition new_table (c : LZ4F_cctx_t) (p : LZ4F_preferences_t) : bool :=
  lz4CtxLevel c <? (if is_fast p then 1 else 2).

Definition begun (c : LZ4F_cctx_t) (p : LZ4F_preferences_t) (newBuff newCtx : Z)
    (hc0 : LZ4HC_Data_Structure) : LZ4F_cctx_t :=
  let grow := c_maxBufferSize c <? begin_need p in
  let buff := if grow then newBuff else tmpBuff c in
  let hc := if new_table c p then hc0 else match lz4Ctx c with HcCtx hc => hc | _ => hc0 end in
  Cctx (Prefs (begin_info p) (pf_compressionLevel p) (autoFlush p)) (c_version c) 1
    (block_size (begin_info p)) (if grow then begin_need p else c_maxBufferSize c)
    buff buff 0 (if contentSize (frameInfo p) =? 0 then totalInSize c else 0)
    (XXH32_reset (c_xxh c) 0) (if new_table c p then newCtx else lz4CtxPtr c)
    (if is_fast p then FastCtx LZ4_resetStream
     else HcCtx (LZ4_resetStreamHC hc (pf_compressionLevel p)))
    (if new_table c p then (if is_fast p then 1 else 2) else lz4CtxLevel c).

(** What a start needs: valid preferences, the allocations that are made
    succeed, and the new buffer lies apart from the destination. *)
Record begin_args (c : LZ4F_cctx_t) (p : LZ4F_preferences_t) (m : mem) (dst dstMax newBuff newCtx : Z) :
    Prop := {
  ba_stage : cStage c = 0;
  ba_info : info_ok (begin_info p);
  ba_max : maxFHSize ≤ dstMax;
  ba_dst : mapped m dst maxFHSize;
  ba_buff : c_maxBufferSize c < begin_need p → newBuff ≠ NULL ∧ apart newBuff (begin_need p) dst maxFHSize;
  ba_ctx : if new_table c p then newCtx ≠ NULL else lz4CtxPtr c ≠ NULL
}.

Section begin.
Context {arch : Arch} (ua : bool).
Implicit Types (m : mem) (c : LZ4F_cctx_t) (p : LZ4F_preferences_t).

(** * Allocation *)

Lemma place_lookup (a : Z) (l : list byte) m (i : Z) :
  i < a ∨ a + zlen l ≤ i → place a l m !! i = m !! i.
Proof.
  revert a. induction l as [|b l IH]; intros a Hi; [done|]. cbn [place length] in *.
  rewrite lookup_insert_ne by lia. apply IH. lia.
Qed.

Lemma place_at (a : Z) (l : list byte) m : bytes_at (place a l m) a l.
Proof.
  revert a. induction l as [|b l IH]; intros a; [done|]. cbn [place bytes_at].
  rewrite lookup_insert_eq. split; [done|].
  apply (bytes_at_copy (place (a + 1) l m) _ (a + 1)); [|apply IH].
  intros i Hi. rewrite lookup_insert_ne by lia. done.
Qed.

Lemma place_mono (a : Z) (l : list byte) m (i : Z) : is_Some (m !! i) → is_Some (place a l m !! i).
Proof.
  revert a. induction l as [|b l IH]; intros a Hi; [done|]. cbn [place].
  destruct (decide (a = i)) as [->|]; [rewrite lookup_insert_eq; by eexists|].
  rewrite lookup_insert_ne by done. by apply IH.
Qed.

Lemma place_mapped (a : Z) (l : list byte) m (b n : Z) : mapped m b n → mapped (place a l m) b n.
Proof. intros H i Hi. apply place_mono. by apply H. Qed.

Lemma place_bytes_at (a : Z) (l : list byte) m (b : Z) (x : list byte) :
  apart a (zlen l) b (zlen x) → bytes_at m b x → bytes_at (place a l m) b x.
Proof.
  unfold apart. intros Ha. apply bytes_at_copy. intros i Hi. apply place_lookup. lia.
Qed.

Lemma length_zeros (n : Z) : 0 ≤ n → zlen (zeros n) = n.
Proof. intros. unfold zeros. rewrite length_replicate. lia. Qed.

Lemma begin_need_range p : info_ok (begin_info p) → 0 ≤ begin_need p ≤ 2 ^ 23.
Proof.
  intros H. pose proof (block_size_range _ H). unfold begin_need, KB in *.
  unfold b2i. repeat case_if; lia.
Qed.

(** * The run of [LZ4F_compressBegin] *)

(** The memory once the buffer is allocated. *)
Definition mem_begun c p (newBuff : Z) m : mem :=
  if c_maxBufferSize c <? begin_need p then place newBuff (zeros (begin_need p)) m else m.

Lemma compressBegin_ctx_run c (newCtx : Z) (hc0 : LZ4HC_Data_Structure) m :
  let p := prefs c in
  (if new_table c p then newCtx ≠ NULL else lz4CtxPtr c ≠ NULL) →
  compressBegin_ctx c newCtx hc0 m =
    Ret (if new_table c p then
           with_ctx_at c newCtx (if is_fast p then FastCtx LZ4_createStream else HcCtx hc0)
             (if is_fast p then 1 else 2)
         else c) m.
Proof.
  intros p Hn. unfold compressBegin_ctx, new_table, is_fast in *. fold p.
  destruct (pf_compressionLevel p <? minHClevel).
  - destruct (lz4CtxLevel c <? 1); [|done]. by destruct (Z.eqb_spec newCtx NULL).
  - by destruct (lz4CtxLevel c <? 2).
Qed.

Lemma compressBegin_spec c (prefsPtr : option LZ4F_preferences_t) (dst dstMax newBuff newCtx : Z)
    (hc0 : LZ4HC_Data_Structure) m :
  let p := default zero_prefs prefsPtr in
  let sized := negb (contentSize (begin_info p) =? 0) in
  begin_args c p m dst dstMax newBuff newCtx →
  wp (LZ4F_compressBegin ua c dst dstMax prefsPtr newBuff newCtx hc0)
     (λ '(c', r) m', c' = begun c p newBuff newCtx hc0 ∧ r = header_size sized ∧
        frame dst (dst + maxFHSize) (mem_begun c p newBuff m) m' ∧
        bytes_at m' dst (header_bytes sized (begin_info p))) m.
Proof.
  intros p sized [B1 B2 B3 B4 B5 B6]. unfold LZ4F_compressBegin, maxFHSize in *.
  destruct (Z.ltb_spec dstMax 15); [lia|]. rewrite B1. cbn [negb Z.eqb]. fold p.
  pose proof (begin_need_range p B2) as Hneed. pose proof (block_size_range _ B2) as Hbs.
  set (c1 := with_prefs c p).
  apply wp_bind. unfold wp at 1. rewrite compressBegin_ctx_run by exact B6.
  set (c2 := if new_table c1 (prefs c1) then _ else c1).
  assert (Hp2 : prefs c2 = p) by (unfold c2; by case_if).
  assert (Hbuf2 : c_maxBufferSize c2 = c_maxBufferSize c) by (unfold c2; by case_if).
  rewrite Hp2.
  assert (Hbid : LZ4F_getBlockSize (if blockSizeID (frameInfo p) =? 0 then LZ4F_BLOCKSIZEID_DEFAULT
                   else blockSizeID (frameInfo p)) = block_size (begin_info p))
    by apply (getBlockSize_eq _ B2).
  rewrite Hbid. cbv zeta.
  match goal with |- context [if c_maxBufferSize ?c <? ?n then _ else _] =>
    assert (Hn : n = begin_need p); [|rewrite Hn; set (c3 := c)] end.
  { cbn [with_prefs with_buffer with_info prefs autoFlush c_maxBlockSize]. unfold begin_need.
    destruct (negb (autoFlush p =? 0)); [done|]. apply usize_fits.
    destruct (blockMode (frameInfo p) =? LZ4F_blockLinked); simpl b2i; unfold KB in *; lia. }
  assert (Hbuf3 : c_maxBufferSize c3 = c_maxBufferSize c) by exact Hbuf2.
  rewrite Hbuf3.
  apply (wp_seq _ _ (λ r m', r = (if c_maxBufferSize c <? begin_need p
    then with_buffer c3 (c_maxBlockSize c3) (begin_need p) newBuff else c3, false) ∧
    m' = mem_begun c p newBuff m)).
  { unfold mem_begun. destruct (Z.ltb_spec (c_maxBufferSize c) (begin_need p)) as [Hg|Hg].
    - destruct (B5 Hg) as [Hnn _]. unfold calloc. destruct (Z.eqb_spec newBuff NULL); [done|].
      unfold wp, bind, ret. by destruct (Z.eqb_spec newBuff NULL).
    - by apply wp_ret. }
  intros [c4 failed] m1 [[= -> ->] ->].
  set (c4 := if c_maxBufferSize c <? begin_need p then _ else c3).
  set (c5 := with_hash _ _ _).
  assert (Hreset : compressBegin_reset c5 hc0 (mem_begun c p newBuff m) =
    Ret (with_ctx c5 (if is_fast p then FastCtx LZ4_resetStream
      else HcCtx (LZ4_resetStreamHC
             (if new_table c p then hc0 else match lz4Ctx c with HcCtx hc => hc | _ => hc0 end)
             (pf_compressionLevel p)))) (mem_begun c p newBuff m)).
  { assert (Hpt : lz4CtxPtr c5 = lz4CtxPtr c2)
      by (unfold c5, c4; destruct (c_maxBufferSize c <? begin_need p); reflexivity).
    assert (Hct : lz4Ctx c5 = lz4Ctx c2)
      by (unfold c5, c4; destruct (c_maxBufferSize c <? begin_need p); reflexivity).
    assert (Hpf : pf_compressionLevel (prefs c5) = pf_compressionLevel p).
    { unfold c5, c4. destruct (c_maxBufferSize c <? begin_need p); reflexivity. }
    unfold compressBegin_reset. rewrite Hpt, Hct, Hpf. fold (is_fast p). unfold c2.
    change (new_table c1 (prefs c1)) with (new_table c p). change (is_fast (prefs c1)) with (is_fast p).
    destruct (new_table c p); cbn [with_ctx_at lz4CtxPtr lz4Ctx].
    - destruct (Z.eqb_spec newCtx NULL); [done|]. by destruct (is_fast p).
    - change (lz4CtxPtr c1) with (lz4CtxPtr c). change (lz4Ctx c1) with (lz4Ctx c).
      destruct (Z.eqb_spec (lz4CtxPtr c) NULL); [done|]. by destruct (is_fast p). }
  apply wp_bind. unfold wp at 1. rewrite Hreset.
  set (c6 := with_ctx c5 _).
  assert (Hfi : ∀ c', prefs c' = Prefs (begin_info p) (pf_compressionLevel p) (autoFlush p) →
                frameInfo (prefs c') = begin_info p) by (by intros c' ->).
  assert (Hp6 : prefs c6 = Prefs (begin_info p) (pf_compressionLevel p) (autoFlush p)).
  { unfold c6, c5, c4. destruct (c_maxBufferSize c <? begin_need p); reflexivity. }
  rewrite (Hfi c6 Hp6).
  set (c7 := if negb (contentSize (begin_info p) =? 0) then _ else c6).
  assert (Hp7 : prefs c7 = Prefs (begin_info p) (pf_compressionLevel p) (autoFlush p)).
  { rewrite <- Hp6. unfold c7. by destruct (contentSize (begin_info p) =? 0). }
  rewrite (Hfi c7 Hp7).
  assert (Hm : mapped (mem_begun c p newBuff m) dst 15).
  { unfold mem_begun. case_if; [|done]. by apply place_mapped. }
  assert (Hhs : 7 ≤ header_size sized ≤ 15) by (by destruct sized).
  eapply wp_seq; [apply (compressBegin_header_spec ua (begin_info p)); [done|fold sized; solve_mapped]|].
  fold sized. intros r m' (-> & F & Hb). apply wp_ret. split_and!; [|lia|solve_frame|done].
  unfold begun. unfold c7, c6, c5, c4, c3, c2.
  change (new_table c1 (prefs c1)) with (new_table c p). change (is_fast (prefs c1)) with (is_fast p).
  change (contentSize (begin_info p)) with (contentSize (frameInfo p)).
  destruct (c_maxBufferSize c <? begin_need p), (new_table c p), (is_fast p),
    (contentSize (frameInfo p) =? 0); reflexivity.
Qed.

(** the header of a frame round-trips.  [LZ4F_compressBegin] writes a header
    of 7 or 15 bytes, and [LZ4F_decodeHeader] reads back the frame information
    the preferences asked for. *)
Theorem LZ4F_header_roundtrip c (prefsPtr : option LZ4F_preferences_t) d
    (dst dstMax newBuff newCtx newIn newOut : Z) (hc0 : LZ4HC_Data_Structure) m :
  let p := default zero_prefs prefsPtr in
  begin_args c p m dst dstMax newBuff newCtx → newIn ≠ NULL → newOut ≠ NULL →
  ∃ c' d' n m' m'',
    LZ4F_compressBegin ua c dst dstMax prefsPtr newBuff newCtx hc0 m = Ret (c', n) m' ∧
    7 ≤ n ≤ maxFHSize ∧ cStage c' = 1 ∧
    LZ4F_decodeHeader ua d dst n newIn newOut m' = Ret (d', n) m'' ∧
    d_frameInfo d' = begin_info p ∧ dStage d' = dstage_getCBlockSize ∧
    d_maxBlockSize d' = c_maxBlockSize c'.
Proof.
  intros p A Hin Hout.
  pose proof (compressBegin_spec c prefsPtr dst dstMax newBuff newCtx hc0 m A) as H.
  apply wp_result in H as ([c' r] & m' & Hrun & -> & -> & F & Hb). fold p in F, Hb.
  set (sized := negb (contentSize (begin_info p) =? 0)) in *.
  exists (begun c p newBuff newCtx hc0), (started d sized (begin_info p) newIn newOut),
    (header_size sized), m', (mem_started d (begin_info p) newIn newOut m').
  split; [done|]. split; [by destruct sized|]. split; [done|]. split; [|done].
  apply decodeHeader_header; [done|done|apply (ba_info _ _ _ _ _ _ _ A)| |done|done].
  unfold sized. by destruct (Z.eqb_spec (contentSize (begin_info p)) 0).
Qed.

End begin.
