(* ===== verification/Lz4FrameBlock.v ===== *)
(** The blocks of a frame: what the frame compressor needs of a block
    compressor, the two fast compressors that provide it, and
    [LZ4F_compressBlock] against that interface. *)

From Stdlib Require Import ZArith Lia Strings.Byte.
From stdpp Require Import base gmap list fin_maps numbers.
From S2P Require Import Prelude Mem Lz4Common Lz4Format Lz4Decompress Lz4DecompressApi Lz4Compress Lz4CompressProofs Lz4CompressApi Lz4Stream Lz4Hc Xxhash XxhashProofs Lz4Frame Lz4FrameFormat Lz4FrameProofs.

(** * The interface *)

(** The largest block of a frame. *)
Definition MAX_BLOCK : Z := 2 ^ 22.

(** [x] at [src], at least 64 KB into the address space, and a destination of
    [n] bytes apart from it and from the [k] bytes before it. *)
Record block_args (m : mem) (src dst n k : Z) (x : list byte) : Prop := {
  bk_src : bytes_at m src x;
  bk_dst : mapped m dst n;
  bk_size : 0 < zlen x ≤ MAX_BLOCK;
  bk_room : zlen x ≤ n;
  bk_apart : apart (src - k) (k + zlen x) dst n;
  bk_low : KB 64 ≤ src;
  bk_pos : 0 ≤ dst
}.

(** What a frame needs of the function that compresses its blocks, one after
    the other in memory: it is ready for the block after [hist], leaves a
    block of at most [|x| - 1] bytes whose text is [x], or nothing, and is then
    ready for the block after [hist ++ x].  [linked] blocks refer to [hist];
    their first one may not be shorter than a match. *)
Class BlockCompressor {arch : Arch} (compress : compressFunc_t) (linked : bool) : Type := {
  bc_ready : LZ4F_cctx_t → Z → list byte → mem → Prop;
  bc_frame : ∀ c src hist m m' lo hi,
    bc_ready c src hist m → frame lo hi m m' → apart (src - zlen hist) (zlen hist) lo (hi - lo) →
    bc_ready c src hist m';
  bc_ctx : ∀ c c' src hist m, bc_ready c src hist m → lz4Ctx c' = lz4Ctx c → bc_ready c' src hist m;
  bc_run : ∀ c src hist x dst n level m,
    bc_ready c src hist m → block_args m src dst n (zlen hist) x →
    (linked = true → hist = [] → MINMATCH ≤ zlen x) →
    wp (compress c src dst (zlen x) (zlen x - 1) level)
       (λ '(c', r) m', frame dst (dst + (zlen x - 1)) m m' ∧
          (r = 0 ∨ block_at m' dst (zlen x - 1) (if linked then hist else []) x r) ∧
          (∃ st, c' = with_ctx c st) ∧
          bc_ready c' (src + zlen x) (hist ++ x) m') m
}.

(** * The fast compressor on independent blocks *)

Section fast_independent.
Context {arch : Arch}.

#[export] Program Instance fast_independent :
    BlockCompressor LZ4F_localLZ4_compress_limitedOutput_withState false :=
  {| bc_ready _ _ _ _ := True |}.
Next Obligation. done. Qed.
Next Obligation. done. Qed.
Next Obligation.
  intros c src hist x dst n level m _ [K1 K2 K3 K4 K5 K6 K7] _. unfold MAX_BLOCK in *.
  unfold LZ4F_localLZ4_compress_limitedOutput_withState, LZ4_compress_limitedOutput_withState.
  destruct (compressBound_roomy (zlen x)) as [Hbd _]; [unfold LZ4_MAX_INPUT_SIZE; lia|].
  assert (Hmin : zlen x - 1 < LZ4_compressBound (zlen x)) by zdiv.
  eapply wp_seq; [apply (compress_extState_spec m src dst (zlen x - 1) 1 x)|].
  - constructor; [done|solve_mapped|unfold apart in *; lia|lia|unfold LZ4_MAX_INPUT_SIZE; lia|].
    unfold MAX_DISTANCE, MAXD_LOG, KB in *. lia.
  - lia.
  - lia.
  - right. right. unfold LARGE_INPUT, KB. lia.
  - intros [s r] m' [F Hr]. rewrite Z.min_l in F, Hr by lia. apply wp_ret.
    split; [done|]. split; [|split; [by eexists|done]].
    destruct Hr as [[-> _]|Hr]; [by left|by right].
Qed.

End fast_independent.

(** * The fast compressor on linked blocks *)

Section fast_linked.
Context {arch : Arch}.
Implicit Types (m : mem) (c : LZ4F_cctx_t).

(** A stream that was just reset, or one whose dictionary is the end of the text
    before [src]. *)
Definition stream_ready c (src : Z) (hist : list byte) m : Prop :=
  ∃ s, lz4Ctx c = FastCtx s ∧ stream_ok s ∧
    (s = LZ4_resetStream ∧ hist = [] ∨
     0 < currentOffset s ∧ ∃ a h, hist = a ++ h ∧ dictSize s = zlen h ∧
       dictionary s + dictSize s = src ∧ bytes_at m (dictionary s) h).

Lemma stream_ready_frame c (src : Z) (hist : list byte) m m' (lo hi : Z) :
  stream_ready c src hist m → frame lo hi m m' → apart (src - zlen hist) (zlen hist) lo (hi - lo) →
  stream_ready c src hist m'.
Proof.
  intros (s & Hc & Hs & Hr) F Ha. exists s. split; [done|]. split; [done|].
  destruct Hr as [Hr|(Ho & a & h & -> & Hd & He & Hb)]; [by left|right].
  split; [done|]. exists a, h. split_and!; try done.
  rewrite length_app in Ha. eapply bytes_at_frame; [exact F| |done]. unfold apart in Ha. lia.
Qed.

(** The dictionary of the prepared stream is still the end of the text. *)
Lemma prepared_dict m s (src N : Z) (h : list byte) :
  stream_ok s → KB 64 ≤ src → dictSize s = zlen h → dictionary s + dictSize s = src →
  bytes_at m (dictionary s) h →
  let s1 := prepare_stream s src N in
  ∃ h0 h1, h = h0 ++ h1 ∧ dictSize s1 = zlen h1 ∧ dictionary s1 + dictSize s1 = src ∧
    bytes_at m (dictionary s1) h1.
Proof.
  intros Hs Hsrc Hd He Hb s1.
  destruct (prepare_ok s src N Hs Hsrc ltac:(lia)) as (P1 & _ & _ & P4 & P5 & _).
  fold s1 in P1, P4, P5. pose proof (so_size _ P1) as P6.
  exists (take (Z.to_nat (dictSize s - dictSize s1)) h), (drop (Z.to_nat (dictSize s - dictSize s1)) h).
  rewrite take_drop, length_drop. split; [done|]. split; [lia|]. split; [lia|].
  replace (dictionary s1) with (dictionary s + Z.of_nat (Z.to_nat (dictSize s - dictSize s1))) by lia.
  apply bytes_at_drop; [done|lia].
Qed.

Lemma stream_ready_args m s (src dst n : Z) (hist h x : list byte) :
  block_args m src dst n (zlen hist) x → dictSize s = zlen h → zlen h ≤ zlen hist →
  bytes_at m (dictionary s) h → (dictionary s = NULL ∧ h = [] ∨ dictionary s + dictSize s = src) →
  stream_args m s src dst h x (zlen x - 1).
Proof.
  intros [K1 K2 K3 K4 K5 K6 K7] Hd Hh Hb Hloc. unfold MAX_BLOCK, apart, KB, NULL in *.
  assert (C : comp_args m src dst x (zlen x - 1)).
  { constructor; [done|solve_mapped|unfold apart; lia|lia|unfold LZ4_MAX_INPUT_SIZE; lia|].
    unfold MAX_DISTANCE, MAXD_LOG. lia. }
  destruct Hloc as [[Hnull ->]|He].
  - cbn [length] in *. constructor; unfold apart; try done; lia.
  - constructor; unfold apart; try done; lia.
Qed.

Lemma stream_run c (src : Z) (hist x : list byte) (dst n level : Z) m :
  stream_ready c src hist m → block_args m src dst n (zlen hist) x →
  (true = true → hist = [] → MINMATCH ≤ zlen x) →
  wp (LZ4F_localLZ4_compress_limitedOutput_continue c src dst (zlen x) (zlen x - 1) level)
     (λ '(c', r) m', frame dst (dst + (zlen x - 1)) m m' ∧
        (r = 0 ∨ block_at m' dst (zlen x - 1) hist x r) ∧
        (∃ st, c' = with_ctx c st) ∧ stream_ready c' (src + zlen x) (hist ++ x) m') m.
Proof.
  intros (s & Hc & Hs & Hr) A Hfirst. specialize (Hfirst eq_refl).
  pose proof A as [K1 K2 K3 K4 K5 K6 K7]. set (s1 := prepare_stream s src (zlen x)).
  assert (Hd : ∃ a h1, hist = a ++ h1 ∧ stream_args m s1 src dst h1 x (zlen x - 1) ∧
    (0 < dictSize s → KB 64 ≤ dictionary s + dictSize s) ∧ (currentOffset s = 0 → hist = []) ∧
    hist ++ x = a ++ next_hist s src h1 x).
  { destruct Hr as [[-> ->]|(Ho & a & h & -> & Hd & He & Hb)].
    - exists [], []. unfold next_hist. split; [done|].
      assert (Hs1 : s1 = LZ4_resetStream).
      { unfold s1, prepare_stream, check_overlap, LZ4_renormDictT. cbn [dictSize LZ4_resetStream].
        cbn. destruct (Z.ltb_spec 0 (src + zlen x)); [|unfold KB in *; lia].
        repeat case_if; zbool; try done; unfold KB in *; lia. }
      rewrite Hs1. split; [eapply stream_ready_args; try done; by left|].
      split; [done|]. split; [done|]. by case_if.
    - destruct (prepared_dict m s src (zlen x) h Hs K6 Hd He Hb) as (h0 & h1 & -> & D1 & D2 & D3).
      fold s1 in D1, D2, D3. exists (a ++ h0), h1. rewrite <- app_assoc. split; [done|].
      split; [|split; [lia|split; [lia|]]].
      + eapply stream_ready_args; try done; [rewrite !length_app; lia|by right].
      + unfold next_hist. rewrite He, Z.eqb_refl. by rewrite <- !app_assoc. }
  destruct Hd as (a & h1 & -> & SA & Hlow & Hoff & Hnext).
  unfold LZ4F_localLZ4_compress_limitedOutput_continue. apply wp_bind. unfold wp at 1.
  rewrite Hc. cbn [as_stream ret]. unfold MAX_BLOCK in *.
  destruct (fast_continue_spec m s src dst (zlen x - 1) 1 h1 x Hs K6 Hlow SA)
    as (s' & r & m' & Hrun & F & Ho & Hs' & Hb' & Hd' & He' & Hco'); [auto|lia|lia| |].
  { right. right. unfold LARGE_INPUT, KB. lia. }
  apply wp_bind. unfold wp at 1, LZ4_compress_limitedOutput_continue. rewrite Hrun. apply wp_ret.
  split; [done|]. split; [|split; [by eexists|]].
  - destruct Ho as [[-> _]|Ho]; [by left|right]. by apply block_at_extend.
  - exists s'. split; [done|]. split; [done|]. right. split; [done|].
    exists a, (next_hist s src h1 x). split_and!; (done || lia).
Qed.

Lemma stream_ready_ctx c c' (src : Z) (hist : list byte) m :
  stream_ready c src hist m → lz4Ctx c' = lz4Ctx c → stream_ready c' src hist m.
Proof. intros (s & Hs & H) Hc. exists s. by rewrite Hc. Qed.

#[export] Instance fast_linked :
    BlockCompressor LZ4F_localLZ4_compress_limitedOutput_continue true :=
  {| bc_ready := stream_ready; bc_frame := stream_ready_frame; bc_ctx := stream_ready_ctx;
     bc_run := stream_run |}.

End fast_linked.

(** * [LZ4F_compressBlock] *)

Section block.
Context {arch : Arch} {compress : compressFunc_t} {linked : bool}.
Context {BC : BlockCompressor compress linked}.
Implicit Types (m : mem) (c : LZ4F_cctx_t).

(** A block is written, compressed when that saves at least a byte, and the
    compressor is ready for the next one. *)
Lemma compressBlock_spec c (src dst maxBlock level : Z) (hist x : list byte) m :
  bc_ready c src hist m → block_args m src dst (zlen x + 4) (zlen hist) x → zlen x ≤ maxBlock →
  (linked = true → hist = [] → MINMATCH ≤ zlen x) →
  wp (LZ4F_compressBlock c dst src (zlen x) compress level)
     (λ '(c', r) m', frame dst (dst + zlen x + 4) m m' ∧
        (∃ data, frame_block maxBlock (if linked then hist else []) data x ∧ r = zlen data ∧
           r ≤ zlen x + 4 ∧ bytes_at m' dst data) ∧
        (∃ st, c' = with_ctx c st) ∧ bc_ready c' (src + zlen x) (hist ++ x) m') m.
Proof.
  intros Hr A Hmax Hfirst. pose proof A as [K1 K2 K3 K4 K5 K6 K7].
  unfold LZ4F_compressBlock, MAX_BLOCK, apart, KB in *. rewrite !s32_small by lia.
  eapply wp_seq; [apply (bc_run c src hist x (dst + 4) (zlen x)); [done| |done]|].
  { constructor; unfold MAX_BLOCK, apart, KB; try done; try lia. solve_mapped. }
  intros [c1 r] m1 (F1 & Hblock & Hctx & Hr1).
  wp_apply writeLE32_spec; [solve_mapped|]. intros _ m2 [F2 B2].
  assert (Hx2 : bytes_at m2 src x).
  { eapply bytes_at_frame; [exact F2|lia|]. eapply bytes_at_frame; [exact F1|lia|done]. }
  destruct Hblock as [-> |(seqs & l & E1 & E2 & -> & E4 & E5)].
  - change (u32 0 =? 0) with true. cbv iota. rewrite (u32_small (zlen x)) by lia.
    wp_apply writeLE32_spec; [solve_mapped|]. intros _ m3 [F3 B3].
    assert (Hx3 : bytes_at m3 src x) by (eapply bytes_at_frame; [exact F3|lia|done]).
    eapply wp_seq; [apply (memcpy_spec (dst + 4) src (zlen x)); [lia|solve_mapped|solve_mapped]|].
    intros _ m4 [F4 C4]. apply wp_ret. split; [solve_frame|].
    rewrite !u32_small in * by (unfold LZ4F_BLOCKUNCOMPRESSED_FLAG; lia). split; [|split; [done|]].
    + exists (le_bytes 4 (zlen x + LZ4F_BLOCKUNCOMPRESSED_FLAG) ++ x).
      rewrite length_app, length_le_bytes. split; [constructor; lia|]. split; [lia|]. split; [lia|].
      apply bytes_at_app. rewrite length_le_bytes. split.
      * eapply bytes_at_frame; [exact F4|rewrite length_le_bytes; lia|done].
      * apply (bytes_at_copy m3 _ src); [|done]. exact C4.
    + eapply (bc_frame _ _ _ m1 m4 dst (dst + zlen x + 4)); [done|solve_frame|].
      unfold apart. rewrite length_app. lia.
  - pose proof (length_block_pos seqs l) as Hpos.
    rewrite (u32_small (zlen (block seqs l))) in * by lia.
    destruct (Z.eqb_spec (zlen (block seqs l)) 0); [lia|]. rewrite u32_small by lia.
    apply wp_ret. split; [solve_frame|]. split; [|split; [done|]].
    + exists (le_bytes 4 (zlen (block seqs l)) ++ block seqs l).
      rewrite length_app, length_le_bytes. split; [constructor; (done || lia)|].
      split; [lia|]. split; [lia|]. apply bytes_at_app. rewrite length_le_bytes.
      split; [done|]. eapply bytes_at_frame; [exact F2|lia|done].
    + eapply (bc_frame _ _ _ m1 m2 dst (dst + 4)); [done|done|]. unfold apart. rewrite length_app. lia.
Qed.

End block.
