(* ===== verification/Lz4FrameUpdate.v ===== *)
(** The frame compressor: the blocks [LZ4F_compressUpdate] writes when it is
    given the whole input at once. *)

From Stdlib Require Import ZArith Lia Strings.Byte.
From stdpp Require Import base gmap list fin_maps numbers.
From S2P Require Import Prelude Mem Lz4Common Lz4Format Lz4Decompress Lz4DecompressApi Lz4Compress Lz4CompressApi Lz4Stream Lz4Hc Xxhash XxhashProofs Lz4Frame Lz4FrameDec Lz4FrameFormat Lz4FrameProofs Lz4FrameBegin Lz4FrameBlock.

(** The text [r] at [src] with [k] bytes of text before it, and [n] bytes of
    destination apart from both. *)
Record update_args (m : mem) (src dst n k : Z) (r : list byte) : Prop := {
  ua_src : bytes_at m src r;
  ua_dst : mapped m dst n;
  ua_apart : apart (src - k) (k + zlen r) dst n;
  ua_low : KB 64 ≤ src;
  ua_pos : 0 ≤ dst;
  ua_hist : 0 ≤ k
}.

(** * Whole blocks *)

Section update.
Context {arch : Arch} {compress : compressFunc_t} {linked : bool}.
Context {BC : BlockCompressor compress linked}.
Implicit Types (m : mem) (c : LZ4F_cctx_t).

(** What has been written for the text [x] that followed [hist]. *)
Record written (bs : Z) (hist x : list byte) c c' (src dst dst' room : Z) m m' : Prop := {
  wr_frame : frame dst (dst + room) m m';
  wr_blocks : ∃ ds, frame_blocks bs linked hist ds x ∧ bytes_at m' dst ds ∧ dst' = dst + zlen ds ∧
                zlen ds ≤ room;
  wr_ctx : ∃ st, c' = with_ctx c st;
  wr_ready : bc_ready c' (src + zlen x) (hist ++ x) m'
}.

Lemma written_nil (bs : Z) (hist : list byte) c (src dst : Z) m :
  bc_ready c src hist m → written bs hist [] c c src dst dst 0 m m.
Proof.
  intros H. constructor.
  - reflexivity.
  - exists []. split; [apply blocks_nil|]. cbn. split_and!; [done|lia|lia].
  - exists (lz4Ctx c). by destruct c.
  - rewrite app_nil_r. cbn [length]. by rewrite Z.add_0_r.
Qed.

(** One more block. *)
Lemma written_block (bs : Z) (hist xs x : list byte) c c' (src dst dst' room level : Z) m m' :
  written bs hist xs c c' src dst dst' room m m' → 0 ≤ room →
  update_args m src dst (room + zlen x + 4) (zlen hist) (xs ++ x) →
  0 < zlen x ≤ bs → bs ≤ MAX_BLOCK → (linked = true → hist ++ xs = [] → MINMATCH ≤ zlen x) →
  wp (LZ4F_compressBlock c' dst' (src + zlen xs) (zlen x) compress level)
     (λ '(c'', n) m'', written bs hist (xs ++ x) c c'' src dst (dst' + n) (room + zlen x + 4) m m'') m'.
Proof.
  intros [W1 (ds & W2 & W3 & -> & W5) (st & ->) W7] Hroom [A1 A2 A3 A4 A5 A6] Hx Hbs Hfirst.
  rewrite length_app in A3. unfold MAX_BLOCK, apart, KB in *.
  assert (B1 : bytes_at m' (src + zlen xs) x).
  { apply bytes_at_app in A1 as [_ A1]. eapply bytes_at_frame; [exact W1|lia|done]. }
  eapply wp_mono; [apply (compressBlock_spec _ _ _ bs _ (hist ++ xs) x); [exact W7| |lia|done]|].
  { constructor; unfold MAX_BLOCK, apart, KB; try done; try lia; [solve_mapped|].
    rewrite length_app. lia. }
  intros [c2 n] m2 (F2 & (d & D1 & -> & D3 & D4) & (st2 & ->) & R2). constructor.
  - solve_frame.
  - exists (ds ++ d). split; [by apply frame_blocks_snoc|]. rewrite length_app.
    split; [|split; lia]. apply bytes_at_app. split; [|done].
    eapply bytes_at_frame; [exact F2|lia|done].
  - by exists st2.
  - rewrite length_app, app_assoc. by replace (src + Z.of_nat (length xs + length x))
      with (src + zlen xs + zlen x) by lia.
Qed.

(** The room the blocks of [n] bytes of text take, with [extra] more blocks. *)
Definition blocks_room (bs n extra : Z) : Z := n + 4 * (n / bs + extra).

Lemma blocks_room_step (bs n : Z) :
  0 < bs → 0 ≤ n → (n + bs) / bs = n / bs + 1.
Proof. intros Hb Hn. replace (n + bs) with (n + 1 * bs) by lia. rewrite Z.div_add by lia. done. Qed.

(** The loop over the full blocks of the source. *)
Lemma update_loop_spec (fuel : nat) (bs : Z) (hist xs r : list byte) c c' (src dst dst' room n : Z)
    (last : LZ4F_lastBlockStatus) m m' :
  written bs hist xs c c' src dst dst' room m m' → 0 ≤ room →
  update_args m src dst n (zlen hist) (xs ++ r) → zlen r < 2 ^ 31 →
  room + zlen r + 4 * (zlen r / bs) ≤ n →
  c_maxBlockSize c = bs → KB 64 ≤ bs ≤ MAX_BLOCK → (Z.to_nat (zlen r / bs) < fuel)%nat →
  wp (update_loop fuel c' dst' (src + zlen xs) (src + zlen xs + zlen r) compress last)
     (λ '(c2, srcPtr, dstPtr, last') m2, ∃ x r', r = x ++ r' ∧ zlen r' < bs ∧
        srcPtr = src + zlen xs + zlen x ∧ zlen r / bs = zlen x / bs ∧
        written bs hist (xs ++ x) c c2 src dst dstPtr (room + zlen x + 4 * (zlen x / bs)) m m2 ∧
        (last' = last ∧ x = [] ∨ last' = fromSrcBuffer ∧ x ≠ [])) m'.
Proof.
  revert xs r c' dst' room last m'.
  induction fuel as [|fuel IH]; intros xs r c' dst' room last m' W Hroom A Hr Hn Hbs Hrange Hf; [lia|].
  cbn [update_loop]. pose proof (wr_ctx _ _ _ _ _ _ _ _ _ _ _ W) as (st & Hc').
  assert (Hmb : c_maxBlockSize c' = bs) by (by rewrite Hc'). rewrite Hmb.
  replace (src + zlen xs + zlen r - (src + zlen xs)) with (zlen r) by lia.
  rewrite usize_fits by lia. unfold MAX_BLOCK, KB in *.
  destruct (zlen r >=? bs) eqn:Hge; zbool.
  - rewrite <- (take_drop (Z.to_nat bs) r) in A. set (x := take (Z.to_nat bs) r) in *.
    set (r1 := drop (Z.to_nat bs) r) in *.
    assert (Hx : zlen x = bs) by (unfold x; rewrite length_take_le; lia).
    assert (Hr1 : zlen r = bs + zlen r1) by (unfold r1; rewrite length_drop; lia).
    assert (Hdiv : zlen r / bs = zlen r1 / bs + 1).
    { rewrite Hr1, Z.add_comm. apply blocks_room_step; lia. }
    pose proof (Z.div_pos (zlen r1) bs ltac:(lia) ltac:(lia)) as Hdp.
    assert (A' : update_args m src dst (room + zlen x + 4) (zlen hist) (xs ++ x)).
    { destruct A as [A1 A2 A3 A4 A5 A6]. rewrite app_assoc in A1. apply bytes_at_app in A1 as [A1 _].
      rewrite !length_app in A3. constructor; try done; [solve_mapped|].
      rewrite length_app. unfold apart in *. lia. }
    pose proof (written_block bs hist xs x c c' src dst dst' room
      (pf_compressionLevel (prefs c')) m m' W Hroom A' ltac:(lia) ltac:(unfold MAX_BLOCK; lia)
      ltac:(unfold MINMATCH; lia)) as Hwb. rewrite Hx in Hwb.
    eapply wp_seq; [apply Hwb|]. intros [c2 n2] m2 W2'.
    assert (W2 : written bs hist (xs ++ x) c c2 src dst (dst' + n2) (room + zlen x + 4) m m2)
      by (by rewrite Hx).
    assert (Hmb2 : c_maxBlockSize c2 = zlen x).
    { destruct (wr_ctx _ _ _ _ _ _ _ _ _ _ _ W2) as (st2 & ->). cbn. lia. }
    rewrite Hmb2.
    replace (src + zlen xs + zlen x) with (src + zlen (xs ++ x)) by (rewrite length_app; lia).
    replace (src + zlen xs + zlen r) with (src + zlen (xs ++ x) + zlen r1)
      by (rewrite length_app; lia).
    eapply wp_mono; [apply (IH (xs ++ x) r1 c2 (dst' + n2) (room + zlen x + 4)); try done; try lia|].
    { by rewrite <- app_assoc. }
    intros [[[c3 sp] dp] last'] m3 (x' & r' & Hr1' & Hr' & -> & Hq & W3 & Hlast).
    exists (x ++ x'), r'. rewrite <- app_assoc. split; [rewrite <- Hr1'; unfold x, r1; by rewrite take_drop|].
    split; [done|]. rewrite !length_app. split; [lia|].
    assert (Hq' : Z.of_nat (length x + length x') / bs = zlen x' / bs + 1).
    { replace (Z.of_nat (length x + length x')) with (zlen x' + bs) by lia.
      apply blocks_room_step; lia. }
    split; [lia|]. split.
    + rewrite Hq'. rewrite <- app_assoc in W3.
      replace (room + Z.of_nat (length x + length x') + 4 * (zlen x' / bs + 1))
        with (room + zlen x + 4 + zlen x' + 4 * (zlen x' / bs)) by lia. done.
    + right. split; [by destruct Hlast as [[-> _]|[-> _]]|]. destruct x; [cbn in Hx; lia|done].
  - apply wp_ret. exists [], r. rewrite app_nil_r. cbn [length]. change (Z.of_nat 0) with 0.
    rewrite (Z.div_small 0) by lia.
    split; [done|]. split; [lia|]. split; [lia|]. split; [rewrite Z.div_small; lia|].
    split; [by replace (room + 0 + 4 * 0) with room by lia|by left].
Qed.

(** * Bounds *)

(** The bound of the output for [n] bytes of input, when every call flushes. *)
Lemma compressBound_auto p (n : Z) :
  info_ok (frameInfo p) → autoFlush p ≠ 0 → 0 ≤ n < 2 ^ 31 - 2 ^ 24 →
  LZ4F_compressBound n (Some p) =
    blocks_room (block_size (frameInfo p)) n 1 + 4 + 4 * contentChecksumFlag (frameInfo p).
Proof.
  intros Hok Hauto Hn. unfold LZ4F_compressBound, blocks_room.
  change (default _ (Some p)) with p.
  rewrite (getBlockSize_eq _ Hok). pose proof (block_size_range _ Hok) as Hbs.
  destruct Hok as [_ _ Hc _ _]. unfold KB in *. set (bs := block_size (frameInfo p)) in *.
  assert (Hq : 0 ≤ n / bs < 2 ^ 31) by (split; [apply Z.div_pos; lia|apply Z.div_lt_upper_bound; lia]).
  destruct (Z.eqb_spec (autoFlush p) 0); [done|]. cbn [negb].
  rewrite (u32_small (n / bs)), (u32_small (n / bs + 1)), (u32_small (n / bs + 1 - 1)),
    (u32_small (_ * 4)) by lia.
  rewrite (usize_fits (4 + _)) by lia. pose proof (Z.div_mod n bs ltac:(lia)) as Hdm.
  replace (n / bs + 1 - 1) with (n / bs) by lia.
  assert (Hq' : n / bs * 65536 ≤ n) by (rewrite Hdm at 2; pose proof (Z.mod_pos_bound n bs); nia).
  rewrite usize_fits; [lia|]. split; [|lia]. pose proof (Z.mod_pos_bound n bs). nia.
Qed.

(** * A call that flushes everything it is given *)

(** The checksum of the text so far, if there is one. *)
Definition summed c (t : list byte) : Prop :=
  contentChecksumFlag (frameInfo (prefs c)) = 1 → sum32 (c_xxh c) t.

(** The rest of the source, with [autoFlush]. *)
Lemma update_remaining_spec (bs : Z) (hist xs r : list byte) c c' (src dst dst' room : Z)
    (last : LZ4F_lastBlockStatus) m m' :
  written bs hist xs c c' src dst dst' room m m' → 0 ≤ room →
  update_args m src dst (room + zlen r + 4) (zlen hist) (xs ++ r) →
  autoFlush (prefs c) ≠ 0 → zlen r ≤ bs → bs ≤ MAX_BLOCK →
  (linked = true → hist ++ xs = [] → r = [] ∨ MINMATCH ≤ zlen r) →
  wp (update_remaining c' dst' (src + zlen xs) (src + zlen xs + zlen r) compress last)
     (λ '(c2, srcPtr, dstPtr, last') m2, srcPtr = src + zlen xs + zlen r ∧
        (last' = last ∨ last' = fromSrcBuffer) ∧
        written bs hist (xs ++ r) c c2 src dst dstPtr (room + zlen r + 4) m m2) m'.
Proof.
  intros W Hroom A Hauto Hr Hbs Hfirst. unfold update_remaining.
  pose proof (wr_ctx _ _ _ _ _ _ _ _ _ _ _ W) as (st & Hc').
  assert (autoFlush (prefs c') = autoFlush (prefs c)) as -> by (by rewrite Hc').
  destruct (Z.eqb_spec (autoFlush (prefs c)) 0); [done|]. cbn [negb andb].
  destruct r as [|b r0] eqn:Er.
  - cbn [length] in *. change (Z.of_nat 0) with 0 in *. rewrite Z.add_0_r, Z.ltb_irrefl.
    apply wp_ret. split; [lia|]. split; [by left|]. rewrite app_nil_r.
    destruct W as [W1 (ds & D1 & D2 & D3 & D4) W3 W4]. constructor; try done; [solve_frame|].
    exists ds. split_and!; (done || lia).
  - rewrite <- Er in *. assert (Hpos : 0 < zlen r) by (rewrite Er; cbn [length]; lia).
    destruct (Z.ltb_spec (src + zlen xs) (src + zlen xs + zlen r)); [|lia].
    replace (src + zlen xs + zlen r - (src + zlen xs)) with (zlen r) by lia.
    eapply wp_seq; [apply (written_block bs hist xs r c); try done|].
    { intros Hl Hh. destruct (Hfirst Hl Hh) as [->|]; [cbn in Hpos; lia|done]. }
    intros [c2 n2] m2 W2. apply wp_ret. split; [done|]. split; [by right|done].
Qed.

(** The dictionary is not copied when the source stays, or is not needed. *)
Lemma update_dict_stable c (last : LZ4F_lastBlockStatus) (options : LZ4F_compressOptions_t) m :
  autoFlush (prefs c) ≠ 0 → (is_linked c = true → stableSrc options ≠ 0) →
  ∃ tIn, update_dict c last options m = Ret (with_tmpIn c tIn (c_tmpInSize c), true) m.
Proof.
  intros Hauto Hst. unfold update_dict.
  destruct (is_linked c && is_fromSrcBuffer last) eqn:E.
  - apply andb_true_iff in E as [E1 E2]. specialize (Hst E1).
    destruct (Z.eqb_spec (stableSrc options) 0); [done|]. cbn [negb]. unfold bind, ret.
    cbn [negb with_tmpIn prefs]. destruct (Z.eqb_spec (autoFlush (prefs c)) 0); [done|].
    rewrite andb_false_r. by eexists.
  - unfold bind, ret. cbn [negb]. destruct (Z.eqb_spec (autoFlush (prefs c)) 0); [done|].
    rewrite andb_false_r. exists (c_tmpIn c). by destruct c.
Qed.

(** The context a call leaves differs in the compressor, the buffer and the
    checksum. *)
Definition advanced c c' (n : Z) : Prop :=
  ∃ st tIn h, c' = with_hash (with_tmpIn (with_ctx c st) tIn 0) (u64 (totalInSize c + n)) h.

(** What a call needs that flushes all of the text [r], after the text [t]. *)
Record auto_args c (hist t r : list byte) (src dst dstMax : Z) (options : LZ4F_compressOptions_t) m :
    Prop := {
  au_stage : cStage c = 1;
  au_info : info_ok (frameInfo (prefs c));
  au_select : LZ4F_selectCompression (blockMode (frameInfo (prefs c))) (pf_compressionLevel (prefs c))
              = compress;
  au_linked : is_linked c = linked;
  au_bs : c_maxBlockSize c = block_size (frameInfo (prefs c));
  au_tmp : c_tmpInSize c = 0;
  au_flush : autoFlush (prefs c) ≠ 0;
  au_stable : linked = true → stableSrc options ≠ 0;
  au_ready : bc_ready c src hist m;
  au_mem : update_args m src dst dstMax (zlen hist) r;
  au_size : zlen r < 2 ^ 31 - 2 ^ 24;
  au_room : LZ4F_compressBound (zlen r) (Some (prefs c)) ≤ dstMax;
  au_sum : summed c t;
  au_total : zlen (t ++ r) < 2 ^ 64;
  au_first : linked = true → hist = [] → r = [] ∨ MINMATCH ≤ zlen r
}.

Lemma sum_step c (t r : list byte) (src : Z) m :
  summed c t → bytes_at m src r → zlen (t ++ r) < 2 ^ 64 → zlen r < 2 ^ 31 →
  info_ok (frameInfo (prefs c)) →
  ∃ h, (if contentChecksumFlag (frameInfo (prefs c)) =? LZ4F_contentChecksumEnabled
        then XXH32_update (c_xxh c) src (zlen r) else ret (c_xxh c)) m = Ret h m ∧
       (contentChecksumFlag (frameInfo (prefs c)) = 1 → sum32 h (t ++ r)).
Proof.
  intros Hs Hb Ht Hr Hok. destruct (Z.eqb_spec (contentChecksumFlag (frameInfo (prefs c)))
    LZ4F_contentChecksumEnabled) as [E|E].
  - destruct (update32_hashed 0 (c_xxh c) t r src m (Hs E) Hb Ht) as (h & Hh & Hs'); [|by exists h].
    unfold ptr_bits, STEPSIZE. destruct LZ4_64bits; simpl; lia.
  - exists (c_xxh c). split; [done|]. intros E'. by rewrite E' in E.
Qed.

Lemma compressUpdate_auto_spec c (hist t r : list byte) (src dst dstMax : Z)
    (opts : option LZ4F_compressOptions_t) m :
  let bs := block_size (frameInfo (prefs c)) in
  auto_args c hist t r src dst dstMax (default (COptions 0) opts) m →
  wp (LZ4F_compressUpdate c dst dstMax src (zlen r) opts)
     (λ '(c', n) m', frame dst (dst + blocks_room bs (zlen r) 1) m m' ∧
        (∃ ds, frame_blocks bs linked hist ds r ∧ bytes_at m' dst ds ∧ n = zlen ds ∧
           zlen ds ≤ blocks_room bs (zlen r) 1) ∧
        advanced c c' (zlen r) ∧ bc_ready c' (src + zlen r) (hist ++ r) m' ∧ summed c' (t ++ r)) m.
Proof.
  intros bs [U1 U2 U3 U4 U5 U6 U7 U8 U9 U10 U11 U12 U13 U14 U15].
  pose proof (block_size_range _ U2) as Hbs. fold bs in Hbs, U5.
  rewrite (compressBound_auto _ _ U2 U7) in U12 by lia. fold bs in U12.
  pose proof U2 as [_ _ Hcc _ _]. unfold blocks_room in *.
  pose proof (Z.div_pos (zlen r) bs ltac:(lia) ltac:(unfold KB in *; lia)) as Hq.
  unfold LZ4F_compressUpdate. rewrite U1. cbn [negb Z.eqb Pos.eqb].
  rewrite (compressBound_auto _ _ U2 U7) by lia. fold bs. unfold blocks_room.
  destruct (Z.ltb_spec dstMax (zlen r + 4 * (zlen r / bs + 1) + 4
    + 4 * contentChecksumFlag (frameInfo (prefs c)))); [lia|]. rewrite U3.
  apply wp_bind. unfold update_tmp at 1. rewrite U6. cbn [Z.gtb Z.compare]. apply wp_ret. rewrite U5.
  replace (src + zlen r) with (src + zlen (@nil byte) + zlen r) by (cbn [length]; lia).
  replace src with (src + zlen (@nil byte)) at 1 by (cbn [length]; lia).
  eapply wp_seq; [apply (update_loop_spec _ bs hist [] r c c src dst dst 0 dstMax); try done|].
  { by apply written_nil. }
  { unfold KB in *. lia. }
  { lia. }
  { unfold MAX_BLOCK. lia. }
  intros [[[c1 sp] dp] last1] m1 (x & r' & -> & Hr' & -> & Hdiv & W & _).
  cbn [app length] in *. rewrite Z.add_0_r in *. rewrite !length_app in *.
  assert (Hxdiv : 4 * (zlen x / bs) = 4 * (Z.of_nat (length x + length r') / bs)) by lia.
  assert (Hp1 : prefs c1 = prefs c) by (destruct (wr_ctx _ _ _ _ _ _ _ _ _ _ _ W) as (? & ->); done).
  replace (src + Z.of_nat (length x + length r')) with (src + zlen x + zlen r') by lia.
  eapply wp_seq; [apply (update_remaining_spec bs hist x r' c c1 src dst dp
                   (0 + zlen x + 4 * (zlen x / bs)) last1 m m1); try done; try lia|].
  { destruct U10 as [A1 A2 A3 A4 A5 A6]. constructor; try done; [solve_mapped|].
    rewrite !length_app in *. unfold apart in *. lia. }
  { unfold MAX_BLOCK. lia. }
  { intros Hl Hh. apply app_nil in Hh as [-> ->]. by apply U15. }
  intros [[[c2 sp] dp2] last2] m2 (-> & _ & W2).
  pose proof W2 as [F2 (ds & D1 & D2 & -> & D4) (st & ->) R2].
  destruct (update_dict_stable (with_ctx c st) last2 (default (COptions 0) opts) m2) as (tIn & Hud);
    [done|intros Hl; apply U8; rewrite <- U4; exact Hl|].
  apply wp_bind. unfold wp at 1. rewrite Hud. cbn [negb].
  apply wp_bind. rewrite Z.ltb_irrefl. apply wp_ret.
  set (c3 := with_tmpIn (with_ctx c st) tIn (c_tmpInSize (with_ctx c st))).
  assert (Hsrc2 : bytes_at m2 src (x ++ r')).
  { destruct U10 as [A1 A2 A3 A4 A5 A6]. rewrite length_app in A3.
    eapply bytes_at_frame; [exact F2| |done]. rewrite length_app. unfold apart in A3. lia. }
  destruct (sum_step c3 t (x ++ r') src m2 U13 Hsrc2) as (h & Hh & Hs);
    [by rewrite !length_app|rewrite length_app; lia|done|].
  rewrite length_app in Hh. apply wp_bind. unfold wp at 1. rewrite Hh. apply wp_ret.
  split; [solve_frame|]. split; [|split; [|split]].
  - exists ds. split_and!; (done || lia).
  - exists st, tIn, h. unfold c3. cbn. by rewrite U6.
  - apply (bc_ctx (with_ctx c st)); [|reflexivity]. rewrite length_app in R2.
    by replace (src + zlen x + zlen r') with (src + Z.of_nat (length x + length r')) by lia.
  - exact Hs.
Qed.

End update.
