(* ===== verification/Lz4FrameCompress.v ===== *)
(** Whole frames: [LZ4F_compressEnd], and [LZ4F_compressFrame] with the fast
    compressor, which writes a frame of the format with its input as content,
    within [LZ4F_compressFrameBound]. *)

From Stdlib Require Import ZArith Lia Strings.Byte.
From stdpp Require Import base gmap list fin_maps numbers.
From S2P Require Import Prelude Mem Lz4Common Lz4Format Lz4Decompress Lz4DecompressApi Lz4Compress Lz4CompressApi Lz4Stream Lz4Hc Xxhash XxhashProofs Lz4Frame Lz4FrameDec Lz4FrameFormat Lz4FrameProofs Lz4FrameBegin Lz4FrameBlock Lz4FrameUpdate.

Section frames.
Context {arch : Arch} (ua : bool).
Implicit Types (m : mem) (c : LZ4F_cctx_t).

(** * The end of a frame *)

Lemma length_suffix (fi : LZ4F_frameInfo_t) (x : list byte) :
  info_ok fi → zlen (suffix_bytes fi x) = 4 + 4 * contentChecksumFlag fi.
Proof.
  intros [_ _ Hc _ _]. unfold suffix_bytes. rewrite length_app, length_le_bytes.
  destruct (Z.eqb_spec (contentChecksumFlag fi) 0) as [->|]; [done|].
  rewrite length_le_bytes. lia.
Qed.

(** With nothing left in the buffer, the end mark and the checksum are written
    and the context can be used again. *)
Lemma compressEnd_spec c (t : list byte) (dst dstMax : Z) m :
  let fi := frameInfo (prefs c) in
  c_tmpInSize c = 0 → info_ok fi → summed c t →
  (contentSize fi = 0 ∨ contentSize fi = totalInSize c) →
  mapped m dst (4 + 4 * contentChecksumFlag fi) →
  wp (LZ4F_compressEnd c dst dstMax)
     (λ '(c', n) m', c' = with_stage c 0 ∧ n = zlen (suffix_bytes fi t) ∧
        frame dst (dst + n) m m' ∧ bytes_at m' dst (suffix_bytes fi t)) m.
Proof.
  intros fi Hin Hok Hsum Hsize Hm. pose proof (length_suffix fi t Hok) as HL.
  pose proof Hok as [_ _ Hcc _ _].
  unfold LZ4F_compressEnd, LZ4F_flush. rewrite Hin. cbn [Z.eqb]. apply wp_bind, wp_ret.
  rewrite (isError_small 0) by lia. rewrite Z.add_0_r.
  wp_apply writeLE32_spec; [solve_mapped|]. intros _ m1 [F1 B1]. fold fi.
  assert (Hend : negb (contentSize fi =? 0) && negb (contentSize fi =? totalInSize (with_stage c 0)) = false).
  { cbn [with_stage totalInSize]. destruct Hsize as [->|Hsize]; [done|].
    destruct (Z.eqb_spec (contentSize fi) (totalInSize c)); [|done]. apply andb_false_r. }
  unfold suffix_bytes in *. destruct (Z.eqb_spec (contentChecksumFlag fi) LZ4F_contentChecksumEnabled)
    as [E|E]; unfold LZ4F_contentChecksumEnabled in E.
  - apply wp_bind. wp_apply writeLE32_spec; [solve_mapped|]. intros _ m2 [F2 B2]. apply wp_ret.
    rewrite Hend. apply wp_ret. split; [done|]. rewrite E in *. cbn [Z.eqb] in *.
    split; [lia|]. split; [solve_frame|]. apply bytes_at_app. rewrite length_le_bytes.
    split; [eapply bytes_at_frame; [exact F2|rewrite length_le_bytes; lia|done]|].
    by rewrite <- (digest32_hashed 0 (c_xxh c) t) by (by apply Hsum).
  - apply wp_bind, wp_ret. rewrite Hend. apply wp_ret. split; [done|].
    assert (E0 : contentChecksumFlag fi = 0) by lia. rewrite E0 in *. cbn [Z.eqb] in *.
    split; [lia|]. split; [solve_frame|]. by rewrite app_nil_r.
Qed.

(** * The choice of the block size *)

(** The block size identifier for [n] bytes of text. *)
Definition optimal_id (requested n : Z) : Z :=
  if requested <=? 4 then requested
  else if n <=? KB 64 then 4
  else if requested <=? 5 then requested
  else if n <=? KB 256 then 5
  else if requested <=? 6 then requested
  else if n <=? MB 1 then 6 else requested.

(** Decides the tests on constants. *)
Ltac ground_tests :=
  repeat match goal with
  | |- context [?a >? ?b] => let v := eval vm_compute in (a >? b) in
      lazymatch v with true => idtac | false => idtac end; change (a >? b) with v
  end; cbn [Z.leb Z.compare Pos.compare Pos.compare_cont].

Lemma optimalBSID_run (requested n : Z) m :
  0 ≤ requested ≤ 7 → LZ4F_optimalBSID requested n m = Ret (optimal_id requested n) m.
Proof.
  intros Hr.
  assert (H256 : usize (Z.shiftl (KB 64) 2) = KB 256) by (apply (usize_fits (KB 256)); done).
  assert (H1 : usize (Z.shiftl (KB 256) 2) = MB 1) by (apply (usize_fits (MB 1)); done).
  assert (Hcase : requested ≤ 4 ∨ requested = 5 ∨ requested = 6 ∨ requested = 7) by lia.
  unfold LZ4F_optimalBSID, optimal_id. destruct Hcase as [Hcase|[-> |[-> | ->]]].
  - destruct (Z.leb_spec requested 4); [|lia]. cbn [optimal_loop]. rewrite Z.gtb_ltb.
    destruct (Z.ltb_spec LZ4F_max64KB requested); [unfold LZ4F_max64KB in *; lia|done].
  - change (S (Z.to_nat (5 - LZ4F_max64KB))) with 2%nat. cbn [optimal_loop].
    ground_tests. by destruct (n <=? KB 64).
  - change (S (Z.to_nat (6 - LZ4F_max64KB))) with 3%nat. cbn [optimal_loop]. rewrite H256.
    ground_tests. destruct (n <=? KB 64); [done|]. by destruct (n <=? KB 256).
  - change (S (Z.to_nat (7 - LZ4F_max64KB))) with 4%nat. cbn [optimal_loop]. rewrite H256, H1.
    ground_tests. destruct (n <=? KB 64); [done|]. destruct (n <=? KB 256); [done|].
    by destruct (n <=? MB 1).
Qed.

Lemma optimal_id_range (requested n : Z) :
  requested = 0 ∨ 4 ≤ requested ≤ 7 → optimal_id requested n = 0 ∨ 4 ≤ optimal_id requested n ≤ 7.
Proof. unfold optimal_id. intros H. repeat case_if; zbool; lia. Qed.

Lemma optimal_id_idem (requested n : Z) :
  0 ≤ requested ≤ 7 → optimal_id (optimal_id requested n) n = optimal_id requested n.
Proof.
  intros Hr. unfold optimal_id. unfold KB, MB. repeat (case_if; zbool; try lia).
Qed.

Lemma getBlockSize_min (b : Z) : b = 0 ∨ 4 ≤ b ≤ 7 → KB 64 ≤ LZ4F_getBlockSize b.
Proof.
  intros H. assert (b = 0 ∨ b = 4 ∨ b = 5 ∨ b = 6 ∨ b = 7) as [-> |[-> |[-> |[-> | ->]]]] by lia;
    vm_compute; discriminate.
Qed.

(** * Frames in one call *)

(** The preferences [LZ4F_compressFrame] settles on for [n] bytes of text. *)
Definition frame_prefs (p : LZ4F_preferences_t) (n : Z) : LZ4F_preferences_t :=
  let fi := frameInfo p in
  let bsid := optimal_id (blockSizeID fi) n in
  with_autoFlush
    (with_info p bsid
       (if n <=? LZ4F_getBlockSize bsid then LZ4F_blockIndependent else blockMode fi)
       (if negb (contentSize fi =? 0) then u64 n else contentSize fi)) 1.

(** The description of the frame. *)
Definition frame_info (p : LZ4F_preferences_t) (n : Z) : LZ4F_frameInfo_t :=
  begin_info (frame_prefs p n).

(** Valid preferences with a fast compression level: [LZ4F_selectCompression] takes
    the high compression mode from [minHClevel] on. *)
Record fast_prefs (p : LZ4F_preferences_t) : Prop := {
  fp_size : blockSizeID (frameInfo p) = 0 ∨ 4 ≤ blockSizeID (frameInfo p) ≤ 7;
  fp_mode : 0 ≤ blockMode (frameInfo p) ≤ 1;
  fp_check : 0 ≤ contentChecksumFlag (frameInfo p) ≤ 1;
  fp_type : frameType (frameInfo p) = LZ4F_frame;
  fp_content : 0 ≤ contentSize (frameInfo p) < 2 ^ 64;
  fp_level : pf_compressionLevel p < minHClevel
}.

(** The text [x] and a destination apart from it. *)
Record frame_call m (dst dstMax src : Z) (x : list byte) : Prop := {
  fc_src : bytes_at m src x;
  fc_dst : mapped m dst dstMax;
  fc_apart : apart src (zlen x) dst dstMax;
  fc_low : KB 64 ≤ src;
  fc_pos : 0 ≤ dst;
  fc_size : zlen x < 2 ^ 31 - 2 ^ 24
}.

Lemma frame_info_ok (p : LZ4F_preferences_t) (n : Z) :
  fast_prefs p → 0 ≤ n < 2 ^ 31 → info_ok (frame_info p n).
Proof.
  intros [P1 P2 P3 P4 P5 P6] Hn. pose proof (optimal_id_range _ n P1) as Hid.
  constructor; cbn.
  - case_if; zbool; [done|]. lia.
  - case_if; unfold LZ4F_blockIndependent; lia.
  - done.
  - done.
  - case_if; [|done]. rewrite u64_small; lia.
Qed.

(** The bound is the same before and after the default block size is filled in. *)
Lemma compressBound_begin (p : LZ4F_preferences_t) (n : Z) :
  LZ4F_compressBound n (Some p) =
    LZ4F_compressBound n (Some (Prefs (begin_info p) (pf_compressionLevel p) (autoFlush p))).
Proof.
  unfold LZ4F_compressBound.
  change (default _ (Some p)) with p. set (q := Prefs _ _ _). change (default _ (Some q)) with q.
  unfold q, begin_info. cbn [frameInfo blockSizeID autoFlush contentChecksumFlag].
  destruct (Z.eqb_spec (blockSizeID (frameInfo p)) 0) as [->|]; done.
Qed.

Lemma frame_bound_run (p : LZ4F_preferences_t) (n : Z) m :
  fast_prefs p → 0 ≤ n < 2 ^ 31 - 2 ^ 24 →
  LZ4F_compressFrameBound n (Some (frame_prefs p n)) m =
    Ret (maxFHSize + LZ4F_compressBound n (Some (frame_prefs p n))) m.
Proof.
  intros P Hn. pose proof P as [P1 P2 P3 P4 P5 P6]. unfold LZ4F_compressFrameBound.
  change (default zero_prefs (Some (frame_prefs p n))) with (frame_prefs p n).
  unfold bind at 1. pose proof (optimal_id_range _ n P1) as Hid.
  rewrite optimalBSID_run by (cbn; lia).
  assert (Hsame : with_autoFlush (with_info (frame_prefs p n)
      (optimal_id (blockSizeID (frameInfo (frame_prefs p n))) n)
      (blockMode (frameInfo (frame_prefs p n))) (contentSize (frameInfo (frame_prefs p n)))) 1
    = frame_prefs p n).
  { unfold frame_prefs, with_autoFlush, with_info. cbn. rewrite optimal_id_idem by lia. done. }
  rewrite Hsame. unfold ret. f_equal. apply usize_fits.
  rewrite compressBound_begin, compressBound_auto; [|by apply frame_info_ok; [|lia]|done|done].
  pose proof (frame_info_ok p n P ltac:(lia)) as Hok. pose proof (block_size_range _ Hok).
  pose proof (io_check _ Hok). unfold frame_info, blocks_room, maxFHSize, KB in *.
  cbn [frameInfo]. set (bs := block_size _) in *.
  pose proof (Z.div_pos n bs ltac:(lia) ltac:(lia)).
  assert (n / bs * 65536 ≤ n) by (pose proof (Z.mul_div_le n bs ltac:(lia)); nia). lia.
Qed.

(** The body of [LZ4F_compressFrame] once the compressor is chosen. *)
Lemma frame_body_spec {compress : compressFunc_t} {linked : bool} {BC : BlockCompressor compress linked}
    c (dst0 dst dstMax dstEnd src : Z) (x : list byte) m :
  let fi := frameInfo (prefs c) in
  dstEnd = dst + dstMax → auto_args c [] [] x src dst dstMax (COptions 1) m → totalInSize c = 0 →
  contentSize fi = 0 ∨ contentSize fi = zlen x →
  wp (let! (c, n) := LZ4F_compressUpdate c dst (dstEnd - dst) src (zlen x) (Some (COptions 1)) in
      if LZ4F_isError n then ret n
      else
        let dstPtr := dst + n in
        let! (c, k) := LZ4F_compressEnd c dstPtr (dstEnd - dstPtr) in
        if LZ4F_isError k then ret k else ret (dstPtr + k - dst0))
     (λ r m', ∃ ds, r = dst + zlen (ds ++ suffix_bytes fi x) - dst0 ∧
        frame_blocks (block_size fi) linked [] ds x ∧ bytes_at m' dst (ds ++ suffix_bytes fi x) ∧
        zlen (ds ++ suffix_bytes fi x) ≤ dstMax ∧ frame dst (dst + dstMax) m m') m.
Proof.
  intros fi -> A Htot Hsize. replace (dst + dstMax - dst) with dstMax by lia.
  pose proof A as [U1 U2 U3 U4 U5 U6 U7 U8 U9 U10 U11 U12 U13 U14 U15].
  rewrite (compressBound_auto _ _ U2 U7) in U12 by lia.
  pose proof (block_size_range _ U2) as Hbs. fold fi in Hbs, U12, U2.
  assert (Hroom : 0 ≤ blocks_room (block_size fi) (zlen x) 1 < 2 ^ 31).
  { unfold blocks_room, KB in *. pose proof (Z.div_pos (zlen x) (block_size fi) ltac:(lia) ltac:(lia)).
    pose proof (Z.mul_div_le (zlen x) (block_size fi) ltac:(lia)). nia. }
  eapply wp_seq; [apply (compressUpdate_auto_spec c [] [] x src dst dstMax (Some (COptions 1)) m A)|].
  intros [c1 n] m1 (F1 & (ds & D1 & D2 & -> & D4) & (st & tIn & h & ->) & _ & Hsum).
  fold fi in F1, D1, D4. rewrite isError_small by lia.
  pose proof (length_suffix fi x U2) as HL. destruct U10 as [A1 A2 A3 A4 A5 A6].
  eapply wp_seq; [apply (compressEnd_spec _ x); try done|].
  - rewrite Htot. cbn [with_hash with_tmpIn with_ctx totalInSize]. rewrite u64_small by lia.
    cbn. fold fi. lia.
  - cbn. fold fi. solve_mapped.
  - cbn [with_hash with_tmpIn with_ctx prefs]. fold fi. intros [c2 k] m2 (-> & -> & F2 & B2).
    pose proof (io_check _ U2). rewrite isError_small by lia.
    apply wp_ret. exists ds. rewrite length_app. split; [lia|]. split; [done|].
    split; [|split; [lia|solve_frame]]. apply bytes_at_app. split; [|done].
    eapply bytes_at_frame; [exact F2|lia|done].
Qed.

(** The context after the header: ready for the first block. *)
Lemma frame_begun (p : LZ4F_preferences_t) (lz4ctx newBuff newCtx src dst dstMax : Z)
    (s0 : LZ4_stream_t_internal) (hc0 : LZ4HC_Data_Structure) (x : list byte)
    {compress : compressFunc_t} {linked : bool} {BC : BlockCompressor compress linked} m :
  let q := frame_prefs p (zlen x) in
  let c0 := Cctx zero_prefs LZ4F_VERSION 0 0 (MB 5) NULL NULL 0 0 zero_xxh lz4ctx (FastCtx s0) 1 in
  let c := begun c0 q newBuff newCtx hc0 in
  fast_prefs p → zlen x < 2 ^ 31 - 2 ^ 24 →
  LZ4F_selectCompression (blockMode (frameInfo q)) (pf_compressionLevel q) = compress →
  linked = (blockMode (frameInfo q) =? LZ4F_blockLinked) →
  bc_ready c src [] m → update_args m src dst dstMax 0 x →
  LZ4F_compressBound (zlen x) (Some q) ≤ dstMax →
  auto_args c [] [] x src dst dstMax (COptions 1) m ∧ totalInSize c = 0.
Proof.
  intros q c0 c P Hx Hsel Hlink Hready Hmem Hroom.
  pose proof (frame_info_ok p (zlen x) P ltac:(lia)) as Hok.
  split; [|unfold c, begun; cbn [totalInSize]; by case_if]. constructor; try done.
  - exact (eq_ind _ (λ b, b ≤ dstMax) Hroom _ (compressBound_begin q (zlen x))).
  - cbn [app]. lia.
  - intros Hl _. right. rewrite Hlink in Hl. zbool. revert Hl. unfold q, frame_prefs. cbn.
    case_if; zbool; [done|]. intros _. unfold MINMATCH.
    pose proof (optimal_id_range _ (zlen x) (fp_size _ P)) as Hid.
    pose proof (getBlockSize_min _ Hid). unfold KB in *. lia.
Qed.

(** The context of [LZ4F_compressFrame] before the header. *)
Definition local_cctx (lz4ctx : Z) (s0 : LZ4_stream_t_internal) : LZ4F_cctx_t :=
  Cctx zero_prefs LZ4F_VERSION 0 0 (MB 5) NULL NULL 0 0 zero_xxh lz4ctx (FastCtx s0) 1.

Lemma frame_level (p : LZ4F_preferences_t) (n : Z) :
  fast_prefs p → (pf_compressionLevel (frame_prefs p n) <? minHClevel) = true.
Proof. intros P. apply Z.ltb_lt. exact (fp_level _ P). Qed.

Lemma frame_content (p : LZ4F_preferences_t) (n : Z) :
  0 ≤ n < 2 ^ 31 → contentSize (frame_info p n) = 0 ∨ contentSize (frame_info p n) = n.
Proof.
  intros Hn. cbn. destruct (Z.eqb_spec (contentSize (frameInfo p)) 0); cbn; [by left|right].
  apply u64_small. lia.
Qed.

(** The blocks and the end of the frame, whichever fast compressor is used. *)
Lemma frame_tail_spec (p : LZ4F_preferences_t) (lz4ctx newBuff newCtx src dst0 dst dstMax dstEnd : Z)
    (s0 : LZ4_stream_t_internal) (hc0 : LZ4HC_Data_Structure) (x : list byte) m :
  let fi := frame_info p (zlen x) in
  let c := begun (local_cctx lz4ctx s0) (frame_prefs p (zlen x)) newBuff newCtx hc0 in
  fast_prefs p → zlen x < 2 ^ 31 - 2 ^ 24 → dstEnd = dst + dstMax →
  update_args m src dst dstMax 0 x →
  LZ4F_compressBound (zlen x) (Some (frame_prefs p (zlen x))) ≤ dstMax →
  wp (let! (c, n) := LZ4F_compressUpdate c dst (dstEnd - dst) src (zlen x) (Some (COptions 1)) in
      if LZ4F_isError n then ret n
      else
        let dstPtr := dst + n in
        let! (c, k) := LZ4F_compressEnd c dstPtr (dstEnd - dstPtr) in
        if LZ4F_isError k then ret k else ret (dstPtr + k - dst0))
     (λ r m', ∃ ds, r = dst + zlen (ds ++ suffix_bytes fi x) - dst0 ∧
        frame_blocks (block_size fi) (blockMode fi =? LZ4F_blockLinked) [] ds x ∧
        bytes_at m' dst (ds ++ suffix_bytes fi x) ∧ zlen (ds ++ suffix_bytes fi x) ≤ dstMax ∧
        frame dst (dst + dstMax) m m') m.
Proof.
  intros fi c P Hx He Hmem Hroom. pose proof (frame_info_ok p (zlen x) P ltac:(lia)) as Hok.
  pose proof (frame_content p (zlen x) ltac:(lia)) as Hsz. pose proof (frame_level p (zlen x) P) as Hlv.
  assert (Hsel : LZ4F_selectCompression (blockMode fi) (pf_compressionLevel (frame_prefs p (zlen x)))
    = if blockMode fi =? LZ4F_blockLinked then LZ4F_localLZ4_compress_limitedOutput_continue
      else LZ4F_localLZ4_compress_limitedOutput_withState).
  { unfold LZ4F_selectCompression. rewrite Hlv. pose proof (io_mode _ Hok) as Hm. fold fi in Hm.
    assert (blockMode fi = 0 ∨ blockMode fi = 1) as [-> | ->] by lia; done. }
  destruct (blockMode fi =? LZ4F_blockLinked) eqn:Hmode.
  - destruct (frame_begun p lz4ctx newBuff newCtx src dst dstMax s0 hc0 x (BC := fast_linked) m P Hx)
      as [A Ht]; try done.
    + exists LZ4_resetStream. split; [|split; [apply resetStream_ok|by left]].
      unfold begun, is_fast. cbn [lz4Ctx]. by rewrite Hlv.
    + eapply frame_body_spec; [done|exact A|exact Ht|exact Hsz].
  - destruct (frame_begun p lz4ctx newBuff newCtx src dst dstMax s0 hc0 x (BC := fast_independent) m P Hx)
      as [A Ht]; try done.
    eapply frame_body_spec; [done|exact A|exact Ht|exact Hsz].
Qed.

(** The size of destination that is always enough. *)
Definition frame_bound (p : LZ4F_preferences_t) (n : Z) : Z :=
  maxFHSize + LZ4F_compressBound n (Some (frame_prefs p n)).

Lemma frame_bound_pos (p : LZ4F_preferences_t) (n : Z) :
  fast_prefs p → 0 ≤ n < 2 ^ 31 - 2 ^ 24 →
  frame_bound p n = 15 + (n + 4 * (n / block_size (frame_info p n) + 1)) + 4
                    + 4 * contentChecksumFlag (frameInfo p) ∧
  15 ≤ frame_bound p n < 2 ^ 31.
Proof.
  intros P Hn. pose proof (frame_info_ok p n P ltac:(lia)) as Hok.
  pose proof (block_size_range _ Hok) as Hbs. pose proof (io_check _ Hok) as Hck.
  unfold frame_bound. rewrite compressBound_begin, compressBound_auto by (done || lia).
  cbn [frameInfo]. fold (frame_info p n). unfold blocks_room, maxFHSize, KB in *.
  pose proof (Z.div_pos n (block_size (frame_info p n)) ltac:(lia) ltac:(lia)).
  pose proof (Z.mul_div_le n (block_size (frame_info p n)) ltac:(lia)).
  change (contentChecksumFlag (frame_info p n)) with (contentChecksumFlag (frameInfo p)) in *.
  split; [lia|]. nia.
Qed.

(** The header, with nothing to allocate. *)
Lemma frame_header_spec (p : LZ4F_preferences_t) (n lz4ctx newBuff newCtx dst dstMax : Z)
    (s0 : LZ4_stream_t_internal) (hc0 : LZ4HC_Data_Structure) m :
  let fi := frame_info p n in
  let sized := negb (contentSize fi =? 0) in
  fast_prefs p → 0 ≤ n < 2 ^ 31 → lz4ctx ≠ NULL → 15 ≤ dstMax → mapped m dst dstMax →
  wp (LZ4F_compressBegin ua (local_cctx lz4ctx s0) dst dstMax (Some (frame_prefs p n)) newBuff newCtx hc0)
     (λ '(c, r) m', c = begun (local_cctx lz4ctx s0) (frame_prefs p n) newBuff newCtx hc0 ∧
        r = header_size sized ∧ frame dst (dst + 15) m m' ∧ bytes_at m' dst (header_bytes sized fi)) m.
Proof.
  intros fi sized P Hn Hctx Hmax Hd. set (q := frame_prefs p n). set (c0 := local_cctx lz4ctx s0).
  assert (Hneed : (c_maxBufferSize c0 <? begin_need q) = false).
  { apply Z.ltb_ge. unfold begin_need, q. cbn. unfold b2i, KB, MB. repeat case_if; lia. }
  assert (Htab : new_table c0 q = false).
  { unfold new_table, is_fast, q. by rewrite (frame_level p n P). }
  eapply wp_mono; [apply (compressBegin_spec ua c0 (Some q) dst dstMax newBuff newCtx hc0)|].
  - change (default zero_prefs (Some q)) with q.
    constructor; [done|apply (frame_info_ok p n P); lia|done|unfold maxFHSize; solve_mapped| |].
    + apply Z.ltb_ge in Hneed. lia.
    + by rewrite Htab.
  - intros [c1 n1] m1 (-> & -> & F1 & B1). unfold mem_begun in F1.
    change (default zero_prefs (Some q)) with q in *. rewrite Hneed in F1. done.
Qed.

(** A destination below the bound is refused. *)
Lemma frame_too_small (dst dstMax src n : Z) (prefsPtr : option LZ4F_preferences_t)
    (lz4ctx newBuff newCtx : Z) (s0 : LZ4_stream_t_internal) (hc0 : LZ4HC_Data_Structure) m :
  let p := default zero_prefs prefsPtr in
  fast_prefs p → 0 ≤ n < 2 ^ 31 - 2 ^ 24 → dstMax < frame_bound p n →
  LZ4F_compressFrame ua dst dstMax src n prefsPtr lz4ctx s0 newBuff newCtx hc0 m
    = Ret (error ERROR_dstMaxSize_tooSmall) m.
Proof.
  intros p P Hn Hsmall. unfold LZ4F_compressFrame. fold p. pose proof (fp_size _ P).
  destruct (Z.ltb_spec (pf_compressionLevel p) minHClevel); [|pose proof (fp_level _ P); lia].
  unfold bind at 1. rewrite optimalBSID_run by lia.
  match goal with |- context [LZ4F_compressFrameBound _ (Some ?q')] =>
    change q' with (frame_prefs p n) end.
  unfold bind at 1. rewrite frame_bound_run by done. fold (frame_bound p n).
  destruct (Z.ltb_spec dstMax (frame_bound p n)); [done|lia].
Qed.

Lemma compressFrame_spec (dst dstMax src : Z) (prefsPtr : option LZ4F_preferences_t) (x : list byte)
    (lz4ctx newBuff newCtx : Z) (s0 : LZ4_stream_t_internal) (hc0 : LZ4HC_Data_Structure) m :
  let p := default zero_prefs prefsPtr in
  fast_prefs p → frame_call m dst dstMax src x → lz4ctx ≠ NULL →
  frame_bound p (zlen x) ≤ dstMax →
  wp (LZ4F_compressFrame ua dst dstMax src (zlen x) prefsPtr lz4ctx s0 newBuff newCtx hc0)
     (λ n m', frame dst (dst + dstMax) m m' ∧
        ∃ bytes, lz4_frame (frame_info p (zlen x)) bytes x ∧ n = zlen bytes ∧
          n ≤ dstMax ∧ bytes_at m' dst bytes) m.
Proof.
  intros p P [C1 C2 C3 C4 C5 C6] Hctx Hmax.
  destruct (frame_bound_pos p (zlen x) P ltac:(lia)) as [_ Hpos]. unfold LZ4F_compressFrame. fold p.
  destruct (Z.ltb_spec (pf_compressionLevel p) minHClevel); [|pose proof (fp_level _ P); lia].
  pose proof (frame_info_ok p (zlen x) P ltac:(lia)) as Hok. pose proof (fp_size _ P).
  apply wp_bind. unfold wp at 1. rewrite optimalBSID_run by lia.
  match goal with |- context [LZ4F_compressFrameBound _ (Some ?q')] =>
    change q' with (frame_prefs p (zlen x)) end.
  apply wp_bind. unfold wp at 1. rewrite frame_bound_run by (done || lia).
  fold (frame_bound p (zlen x)). destruct (Z.ltb_spec dstMax (frame_bound p (zlen x))); [lia|].
  change (with_ctx_at _ lz4ctx (FastCtx s0) 1) with (local_cctx lz4ctx s0).
  eapply wp_seq; [apply frame_header_spec; (done || lia)|].
  set (sized := negb (contentSize (frame_info p (zlen x)) =? 0)).
  intros [c1 n1] m1 (-> & -> & F1 & B1).
  pose proof (length_header sized (frame_info p (zlen x))) as HL.
  assert (Hh : 7 ≤ header_size sized ≤ 15) by (by destruct sized).
  rewrite isError_small by lia. unfold frame_bound, maxFHSize in Hmax.
  eapply wp_mono; [apply (frame_tail_spec p _ _ _ _ _ _ (dstMax - header_size sized)); try done; try lia|].
  { unfold apart, KB in *. constructor; unfold apart, KB; try lia; [|solve_mapped].
    eapply bytes_at_frame; [exact F1|lia|done]. }
  intros r m' (ds & -> & D1 & D2 & D3 & F2). split; [solve_frame|].
  exists (header_bytes sized (frame_info p (zlen x)) ++ ds ++ suffix_bytes (frame_info p (zlen x)) x).
  split; [constructor; [done|apply frame_content; lia|by exists ds]|]. split; [rewrite (length_app (header_bytes _ _)); lia|]. split; [lia|].
  apply bytes_at_app. rewrite HL. split; [|done]. eapply bytes_at_frame; [exact F2|lia|done].
Qed.

(** C16: [LZ4F_compressFrame] at a fast level, a [compressionLevel] below 3, and for
    a source of less than [2^31 - 2^24] bytes writes a frame of the format whose
    content is the source, returns its size, which is within the destination,
    and changes nothing else, whenever the destination has the size of
    [LZ4F_compressFrameBound]; a smaller one is refused.  The levels of the high
    compression mode are not covered, since its limited output, by which the blocks
    are compressed, may leave its destination (lz4hc.c, [LZ4HC_encodeSequence]). *)
Theorem LZ4F_compressFrame_frame (dst dstMax src : Z) (prefsPtr : option LZ4F_preferences_t)
    (x : list byte) (lz4ctx newBuff newCtx : Z) (s0 : LZ4_stream_t_internal)
    (hc0 : LZ4HC_Data_Structure) m :
  let p := default zero_prefs prefsPtr in
  fast_prefs p → frame_call m dst dstMax src x → lz4ctx ≠ NULL →
  ∃ n m', LZ4F_compressFrame ua dst dstMax src (zlen x) prefsPtr lz4ctx s0 newBuff newCtx hc0 m
            = Ret n m' ∧
    if dstMax <? frame_bound p (zlen x) then n = error ERROR_dstMaxSize_tooSmall ∧ m' = m
    else frame dst (dst + dstMax) m m' ∧
         ∃ bytes, lz4_frame (frame_info p (zlen x)) bytes x ∧ n = zlen bytes ∧ n ≤ dstMax ∧
           bytes_at m' dst bytes.
Proof.
  intros p P C Hctx. destruct (Z.ltb_spec dstMax (frame_bound p (zlen x))) as [Hsmall|Hroom].
  - do 2 eexists. split; [|done]. apply frame_too_small; [done|pose proof (fc_size _ _ _ _ _ C); lia|done].
  - apply wp_result. eapply wp_mono; [by apply compressFrame_spec|]. done.
Qed.

End frames.
