(* ===== verification/Lz4FrameDict.v ===== *)
(** The dictionary of the frame decoder.  With linked blocks, a block refers to
    the last 64 KB of text, which lie in the caller's destination or, once the
    call is over, in the decoder's own buffer.  [LZ4F_updateDict], the placing
    of [tmpOut] and the saving of the dictionary at the end of a call keep
    those bytes where the next block will look for them. *)

From Stdlib Require Import ZArith Lia Strings.Byte.
From stdpp Require Import base gmap list fin_maps numbers.
From S2P Require Import Prelude Mem Lz4Common Lz4Format Lz4Decompress Lz4DecompressApi Xxhash Lz4Frame Lz4FrameDec Lz4FrameFormat Lz4FrameProofs.

(** * The end of a text in memory *)

(** The last [k] bytes of [t], or all of it, end at the address [e]. *)
Definition tail_at (m : mem) (e k : Z) (t : list byte) : Prop :=
  ∀ j b, t !! j = Some b → zlen t - k ≤ Z.of_nat j → m !! (e - zlen t + Z.of_nat j) = Some b.

Section tails.
Implicit Types (m : mem) (t u : list byte).

Lemma tail_at_nil m (e k : Z) : tail_at m e k [].
Proof. done. Qed.

Lemma tail_at_le m (e k k' : Z) t : k' ≤ k → tail_at m e k t → tail_at m e k' t.
Proof. intros Hk H j b Hj Hle. apply H; [done|lia]. Qed.

(** New text right after it. *)
Lemma tail_at_app m (e k : Z) t u :
  tail_at m e k t → bytes_at m e u → tail_at m (e + zlen u) (k + zlen u) (t ++ u).
Proof.
  intros H Hu j b Hj Hle. rewrite length_app in *.
  apply lookup_app_Some in Hj as [Hj|[Hge Hj]].
  - rewrite <- (H j b Hj) by lia. f_equal. lia.
  - rewrite bytes_at_lookup in Hu. rewrite <- (Hu _ _ Hj). f_equal. lia.
Qed.

(** A stored text that is long enough. *)
Lemma tail_at_stored m (e k : Z) t u :
  bytes_at m (e - zlen u) u → k ≤ zlen u → tail_at m e k (t ++ u).
Proof.
  intros Hu Hk j b Hj Hle. rewrite length_app in *.
  apply lookup_app_Some in Hj as [Hj|[Hge Hj]]; [apply lookup_lt_Some in Hj; lia|].
  rewrite bytes_at_lookup in Hu. rewrite <- (Hu _ _ Hj). f_equal. lia.
Qed.

Lemma tail_at_all m (e k : Z) u : bytes_at m (e - zlen u) u → tail_at m e k u.
Proof. intros Hu j b Hj _. rewrite bytes_at_lookup in Hu. by apply Hu. Qed.

(** Only what was there before the last part of the text. *)
Lemma tail_at_drop m (e k : Z) t u :
  tail_at m e k (t ++ u) → tail_at m (e - zlen u) (k - zlen u) t.
Proof.
  intros H j b Hj Hle. pose proof (lookup_lt_Some _ _ _ Hj).
  rewrite <- (H j b); [|by rewrite lookup_app_l|]; rewrite length_app; [f_equal|]; lia.
Qed.

Lemma tail_at_frame m m' (lo hi e k : Z) t :
  frame lo hi m m' → (hi ≤ e - k ∨ hi ≤ e - zlen t ∨ e ≤ lo) → tail_at m e k t → tail_at m' e k t.
Proof.
  intros F Hd H j b Hj Hle. pose proof (lookup_lt_Some _ _ _ Hj).
  rewrite (frame_eq _ _ _ _ F) by lia. by apply H.
Qed.

(** A copy of the bytes before [e] to before [e']. *)
Lemma tail_at_copy m m' (e e' n k : Z) t :
  (∀ i, 0 ≤ i < n → m' !! (e' - n + i) = m !! (e - n + i)) →
  Z.min (zlen t) k ≤ n → tail_at m e k t → tail_at m' e' k t.
Proof.
  intros Hc Hn H j b Hj Hle. pose proof (lookup_lt_Some _ _ _ Hj).
  rewrite <- (H j b Hj Hle). specialize (Hc (n - zlen t + Z.of_nat j) ltac:(lia)).
  replace (e' - zlen t + Z.of_nat j) with (e' - n + (n - zlen t + Z.of_nat j)) by lia.
  rewrite Hc. f_equal. lia.
Qed.

(** The part of the history a block can refer to. *)
Definition recent t : list byte := drop (length t - Z.to_nat (KB 64)) t.

Lemma length_recent t : zlen (recent t) = Z.min (zlen t) (KB 64).
Proof. unfold recent. rewrite length_drop. unfold KB. lia. Qed.

Lemma block_text_recent (seqs : list sequence) (l : list byte) t (y : list byte) :
  block_text t seqs l = Some y → block_text (recent t) seqs l = Some y.
Proof.
  intros H. destruct (decide (length t ≤ Z.to_nat (KB 64))%nat) as [Hs|Hs].
  - unfold recent. replace (length t - Z.to_nat (KB 64))%nat with 0%nat by lia. done.
  - apply (block_text_suffix seqs l (take (length t - Z.to_nat (KB 64)) t)).
    + rewrite length_recent. unfold MAX_DISTANCE, MAXD_LOG, KB in *. simpl. lia.
    + unfold recent. by rewrite take_drop.
Qed.

Lemma tail_at_recent m (e : Z) t :
  tail_at m e (KB 64) t → bytes_at m (e - zlen (recent t)) (recent t).
Proof.
  intros H. apply bytes_at_lookup. intros i b Hi.
  rewrite length_recent. unfold recent in Hi. rewrite lookup_drop in Hi.
  rewrite <- (H _ _ Hi) by (unfold KB; lia). f_equal. unfold KB. lia.
Qed.

End tails.

(** * Decoding a block after a history *)

Section using_dict.
Context {arch : Arch}.
Implicit Types (m : mem).

(** The history may be longer than the dictionary: what matters of it is at
    the end of the dictionary, which may start with other bytes. *)
Lemma usingDict_spec m (source dest maxOutputSize dictStart dictSize : Z)
    (t : list byte) (seqs : list sequence) (l text : list byte) :
  addressable source dest (zlen (block seqs l)) maxOutputSize →
  bytes_at m source (block seqs l) → end_ok seqs l → block_text t seqs l = Some text →
  tail_at m (dictStart + dictSize) (KB 64) t → Z.min (zlen t) (KB 64) ≤ dictSize →
  mapped m dest maxOutputSize → apart source (zlen (block seqs l)) dest maxOutputSize →
  (dictStart + dictSize = dest ∨ apart dest maxOutputSize dictStart dictSize) →
  zlen text ≤ maxOutputSize → 0 < maxOutputSize →
  wp (LZ4_decompress_safe_usingDict source dest (zlen (block seqs l)) maxOutputSize dictStart dictSize)
     (λ r m', frame dest (dest + maxOutputSize) m m' ∧ bytes_at m' dest text ∧ r = zlen text) m.
Proof.
  intros Ha Hb Hok Ht Htail Hsize Hd Hap Hplace Hsz Hpos.
  pose proof (block_text_recent _ _ _ _ Ht) as Hr. pose proof (length_recent t) as HL.
  apply tail_at_recent in Htail.
  unfold LZ4_decompress_safe_usingDict, LZ4_decompress_usingDict_generic.
  pose proof Ha as (_ & Hd0 & _). unfold KB in *.
  case_if; zbool; [|case_if; zbool; [case_if; zbool|]].
  - subst dictSize. assert (Hnil : recent t = []).
    { destruct (recent t); [done|]. cbn [length] in HL. lia. }
    rewrite Hnil in Hr.
    apply (decompress_generic_block m source dest (zlen (block seqs l)) maxOutputSize
      endOnInputSize noDict dest NULL 0 [] seqs l text Ha); try done; lia.
  - apply (decompress_generic_block m source dest (zlen (block seqs l)) maxOutputSize
      endOnInputSize withPrefix64k (dest - KB 64) NULL 0 (recent t) seqs l text Ha); try done;
      unfold KB; try lia.
    apply hist_at_prefix; [by subst dest|done].
  - apply (decompress_generic_block m source dest (zlen (block seqs l)) maxOutputSize
      endOnInputSize noDict (dest - dictSize) NULL 0 (recent t) seqs l text Ha); try done; try lia.
    apply hist_at_prefix; [by subst dest|done].
  - destruct Hplace as [|Hplace]; [done|].
    apply (decompress_generic_block m source dest (zlen (block seqs l)) maxOutputSize
      endOnInputSize usingExtDict dest dictStart dictSize (recent t) seqs l text Ha); try done; try lia.
    + intros j b Hj. pose proof (lookup_lt_Some _ _ _ Hj). rewrite bytes_at_lookup in Htail.
      apply Htail in Hj. cbv zeta. simpl.
      destruct (Z.ltb_spec (dest - zlen (recent t) + Z.of_nat j) dest); [|lia].
      rewrite <- Hj. f_equal. lia.
    + intros _. unfold apart in *. lia.
Qed.

End using_dict.

(** * Where the dictionary lies *)

(** The decoder's output buffer and the destination of the current call, which
    spans [dst0 .. dstEnd - 1] and of which [out] is filled. *)
Record dict_layout (d : LZ4F_dctx_t) (m : mem) (dst0 dstEnd : Z) (out : list byte) : Prop := {
  dl_out : mapped m (tmpOutBuffer d) (d_maxBufferSize d);
  dl_dst : mapped m dst0 (dstEnd - dst0);
  dl_apart : tmpOutBuffer d + d_maxBufferSize d < dst0 ∨ dstEnd ≤ tmpOutBuffer d;
  dl_cap : d_maxBlockSize d + KB 128 ≤ d_maxBufferSize d < 2 ^ 24;
  dl_block : KB 64 ≤ d_maxBlockSize d;
  dl_size : dstEnd - dst0 < 2 ^ 31 - 2 ^ 25;
  dl_filled : bytes_at m dst0 out;
  dl_room : dst0 + zlen out ≤ dstEnd
}.

(** The dictionary after the text [t], which ends with [out]: in the buffer, or
    up to the current position [dst0 + zlen out] of the destination. *)
Record dict_ok (d : LZ4F_dctx_t) (m : mem) (dst0 : Z) (t out : list byte) : Prop := {
  dk_tail : tail_at m (d_dict d + d_dictSize d) (KB 64) t;
  dk_room : Z.min (zlen t) (KB 64) ≤ d_dictSize d;
  dk_pos : 0 ≤ d_dictSize d;
  dk_out : out `suffix_of` t;
  dk_place : d_dict d = tmpOutBuffer d ∧ d_dictSize d ≤ d_maxBufferSize d ∨
             dst0 ≤ d_dict d ∧ d_dict d + d_dictSize d = dst0 + zlen out
}.

(** A context up to its dictionary. *)
Definition dict_changed (d d' : LZ4F_dctx_t) : Prop := ∃ p n, d' = set_dict d p n.

Section dictionary.
Context {arch : Arch}.
Implicit Types (m : mem) (d : LZ4F_dctx_t) (t u out : list byte).

Lemma dict_layout_frame d d' m m' (lo hi dst0 dstEnd : Z) out :
  dict_layout d m dst0 dstEnd out → frame lo hi m m' → (hi ≤ dst0 ∨ dst0 + zlen out ≤ lo) →
  tmpOutBuffer d' = tmpOutBuffer d → d_maxBufferSize d' = d_maxBufferSize d →
  d_maxBlockSize d' = d_maxBlockSize d → dict_layout d' m' dst0 dstEnd out.
Proof.
  intros [L1 L2 L3 L4 L5 L6 L7 L8] F Hd E1 E2 E3. constructor; rewrite ?E1, ?E2, ?E3; try done.
  - solve_mapped.
  - solve_mapped.
  - eapply bytes_at_frame; [exact F|lia|done].
Qed.

(** The layout with more of the destination filled. *)
Lemma dict_layout_grow d m (dst0 dstEnd : Z) out u :
  dict_layout d m dst0 dstEnd out → bytes_at m (dst0 + zlen out) u → dst0 + zlen (out ++ u) ≤ dstEnd →
  dict_layout d m dst0 dstEnd (out ++ u).
Proof.
  intros [L1 L2 L3 L4 L5 L6 L7 L8] Hu Hr. constructor; try done. by apply bytes_at_app.
Qed.

(** At the beginning of a frame. *)
Lemma dict_ok_nil d m (dst0 : Z) :
  d_dict d = tmpOutBuffer d → d_dictSize d = 0 → 0 ≤ d_maxBufferSize d → dict_ok d m dst0 [] [].
Proof.
  intros H1 H2 H3. constructor; rewrite ?H2; try done. left. lia.
Qed.

Lemma suffix_grow out t u : out `suffix_of` t → out ++ u `suffix_of` t ++ u.
Proof. intros [k ->]. exists k. by rewrite app_assoc. Qed.

(** The dictionary that starts with the destination of the call. *)
Lemma dict_whole_dst d m (dst0 dstEnd : Z) t out u :
  dict_layout d m dst0 dstEnd (out ++ u) → out `suffix_of` t → KB 64 ≤ zlen (out ++ u) →
  dict_ok (set_dict d dst0 (zlen (out ++ u))) m dst0 (t ++ u) (out ++ u).
Proof.
  intros L Hs Hl. pose proof (suffix_grow _ _ u Hs) as [k Hk].
  constructor; cbn [set_dict d_dict d_dictSize].
  - rewrite Hk. apply tail_at_stored; [|done].
    replace (dst0 + zlen (out ++ u) - zlen (out ++ u)) with dst0 by lia. apply (dl_filled _ _ _ _ _ L).
  - lia.
  - lia.
  - by exists k.
  - right. lia.
Qed.

(** New output right after the dictionary. *)
Lemma dict_contiguous d m (p dst0 : Z) t out u :
  tail_at m (p + d_dictSize d) (KB 64) t → Z.min (zlen t) (KB 64) ≤ d_dictSize d → 0 ≤ d_dictSize d →
  out `suffix_of` t → dst0 ≤ p → p + d_dictSize d = dst0 + zlen out → bytes_at m (dst0 + zlen out) u →
  dict_ok (set_dict d p (d_dictSize d + zlen u)) m dst0 (t ++ u) (out ++ u).
Proof.
  intros Ht Hr Hp Hs Hlo He Hu. constructor; cbn [set_dict d_dict d_dictSize]; rewrite ?length_app.
  - rewrite Z.add_assoc. eapply tail_at_le, tail_at_app; [|done|by rewrite He]. lia.
  - lia.
  - lia.
  - by apply suffix_grow.
  - right. lia.
Qed.

(** The text [u] of the destination is copied after [s] bytes of the buffer that
    end with enough of [t]. *)
Lemma append_to_buffer d m m1 (dst0 dstEnd s : Z) t out u :
  dict_layout d m dst0 dstEnd (out ++ u) → out `suffix_of` t →
  frame (tmpOutBuffer d) (tmpOutBuffer d + d_maxBufferSize d) m m1 →
  0 ≤ s → s + zlen u ≤ d_maxBufferSize d → Z.min (zlen t) (KB 64 - zlen u) ≤ s →
  tail_at m1 (tmpOutBuffer d + s) (KB 64 - zlen u) t → zlen u ≤ KB 64 →
  wp (memcpy (tmpOutBuffer d + s) (dst0 + zlen out) (zlen u) ;!
      ret (set_dict d (tmpOutBuffer d) (usize (s + zlen u))))
     (λ d' m', dict_changed d d' ∧ frame (tmpOutBuffer d) (tmpOutBuffer d + d_maxBufferSize d) m m' ∧
        dict_ok d' m' dst0 (t ++ u) (out ++ u)) m1.
Proof.
  intros [L1 L2 L3 L4 L5 L6 L7 L8] Hsuf F1 Hs0 Hs Hmin Ht Hu. rewrite length_app in *.
  apply bytes_at_app in L7 as [_ Lu].
  wp_apply memcpy_spec; [lia|solve_mapped|solve_mapped|]. intros _ m2 [F2 C2]. apply wp_ret.
  split; [by eexists _, _|]. split; [solve_frame|]. rewrite usize_fits by lia.
  constructor; cbn [set_dict d_dict d_dictSize tmpOutBuffer d_maxBufferSize];
    rewrite ?length_app; try lia.
  - rewrite Z.add_assoc. apply (tail_at_le _ _ (KB 64 - zlen u + zlen u)); [lia|].
    apply tail_at_app; [eapply tail_at_frame; [exact F2|lia|exact Ht]|].
    eapply bytes_at_copy; [exact C2|]. eapply bytes_at_frame; [exact F1|lia|done].
  - by apply suffix_grow.
Qed.

Lemma dict_to_buffer d m (dst0 dstEnd : Z) t out u :
  dict_layout d m dst0 dstEnd (out ++ u) → dict_ok d m dst0 t out → d_dict d = tmpOutBuffer d →
  d_dictSize d ≤ d_maxBufferSize d → zlen (out ++ u) < KB 64 →
  wp (let! d :=
        (if usize (d_dictSize d + zlen u) >? d_maxBufferSize d then
           let preserveSize := usize (KB 64 - zlen u) in
           memcpy (tmpOutBuffer d) (d_dict d + d_dictSize d - preserveSize) preserveSize ;!
           ret (set_dict d (d_dict d) preserveSize)
         else ret d) in
      memcpy (tmpOutBuffer d + d_dictSize d) (dst0 + zlen out) (zlen u) ;!
      ret (set_dict d (d_dict d) (usize (d_dictSize d + zlen u))))
     (λ d' m', dict_changed d d' ∧ frame (tmpOutBuffer d) (tmpOutBuffer d + d_maxBufferSize d) m m' ∧
        dict_ok d' m' dst0 (t ++ u) (out ++ u)) m.
Proof.
  intros L [K1 K2 K3 K4 K5] Hbuf Hcap Hsmall. pose proof L as [L1 L2 L3 L4 L5 L6 L7 L8].
  rewrite length_app in *. unfold KB in *.
  rewrite usize_fits by lia. rewrite usize_fits by lia. rewrite Z.gtb_ltb.
  destruct (Z.ltb_spec (d_maxBufferSize d) (d_dictSize d + zlen u)) as [Hbig|Hfit].
  - apply wp_bind. wp_apply memcpy_spec; [lia|solve_mapped|solve_mapped|]. intros _ m1 [F1 C1].
    apply wp_ret. cbn [set_dict d_dict d_dictSize tmpOutBuffer]. rewrite Hbuf in *.
    apply (append_to_buffer d m m1 dst0 dstEnd); unfold KB; try done; try lia; [solve_frame|].
    eapply (tail_at_copy m m1 (tmpOutBuffer d + d_dictSize d) _ (64 * 1024 - zlen u)); [|lia|].
    + intros i Hi. replace (tmpOutBuffer d + (64 * 1024 - zlen u) - (64 * 1024 - zlen u) + i)
        with (tmpOutBuffer d + i) by lia. rewrite C1 by lia. f_equal.
    + eapply tail_at_le; [|exact K1]. unfold KB. lia.
  - apply wp_bind, wp_ret. rewrite Hbuf in *.
    apply (append_to_buffer d m m dst0 dstEnd); unfold KB; try done; try lia.
    eapply tail_at_le; [|exact K1]. unfold KB. lia.
Qed.

(** [LZ4F_updateDict] after output that went straight to the destination. *)
Lemma updateDict_spec d m (dst0 dstEnd : Z) t out u :
  dict_layout d m dst0 dstEnd (out ++ u) → dict_ok d m dst0 t out →
  wp (LZ4F_updateDict d (dst0 + zlen out) (zlen u) dst0 false)
     (λ d' m', dict_changed d d' ∧ frame (tmpOutBuffer d) (tmpOutBuffer d + d_maxBufferSize d) m m' ∧
        dict_ok d' m' dst0 (t ++ u) (out ++ u)) m.
Proof.
  intros L K. pose proof K as [K1 K2 K3 K4 K5]. pose proof L as [L1 L2 L3 L4 L5 L6 L7 L8].
  pose proof (proj1 (bytes_at_app _ _ _ _) L7) as [_ Lu]. rewrite length_app in *.
  unfold LZ4F_updateDict. destruct (Z.eqb_spec (d_dictSize d) 0) as [H0|H0].
  { (* an empty dictionary starts at the destination *)
    cbn [set_dict d_dict d_dictSize]. rewrite H0, Z.add_0_r, Z.eqb_refl. apply wp_ret.
    assert (t = []) as -> by (destruct t; [done|cbn [length] in *; unfold KB in *; lia]).
    apply suffix_nil_inv in K4 as ->. cbn [length app] in *. rewrite Z.add_0_r in *.
    rewrite usize_fits by lia. split; [by eexists _, _|]. split; [reflexivity|].
    constructor; cbn [set_dict d_dict d_dictSize]; try lia; [|done].
    apply tail_at_all. by replace (dst0 + (0 + zlen u) - zlen u) with dst0 by lia. }
  destruct (Z.eqb_spec (d_dict d + d_dictSize d) (dst0 + zlen out)) as [Hc|Hc].
  { destruct K5 as [[K5 K6]|[K5 K6]]; [lia|]. apply wp_ret. rewrite usize_fits by lia.
    split; [by eexists _, _|]. split; [reflexivity|]. by apply dict_contiguous. }
  destruct K5 as [[K5 K6]|[K5 K6]]; [|done].
  replace (dst0 + zlen out - dst0 + zlen u) with (zlen (out ++ u)) by (rewrite length_app; lia).
  rewrite usize_fits by (rewrite length_app; lia). rewrite Z.geb_leb.
  destruct (Z.leb_spec (KB 64) (zlen (out ++ u))) as [Hl|Hl].
  { apply wp_ret. split; [by eexists _, _|]. split; [reflexivity|]. by eapply dict_whole_dst. }
  cbn [andb]. assert ((d_dict d =? tmpOutBuffer d) = true) as -> by (by apply Z.eqb_eq).
  by apply dict_to_buffer with dstEnd.
Qed.

(** * A block decoded to the buffer *)

(** The dictionary while a block of [n] bytes, of which [f] is in the
    destination, is being copied out of [tmpOut]; [t] is the text before the
    block.  Either the dictionary is the buffer up to the flushed part, or the
    destination up to the current position, and then there is place for it in
    front of [tmpOut]. *)
Record flush_ok d m (dst0 : Z) t (f : list byte) (n : Z) out : Prop := {
  fo_lead : Z.min (zlen t) (KB 64) ≤ tmpOut d - tmpOutBuffer d;
  fo_high : tmpOut d + n ≤ tmpOutBuffer d + d_maxBufferSize d;
  fo_size : zlen f ≤ n;
  fo_out : out `suffix_of` t ++ f;
  fo_pos : 0 ≤ d_dictSize d;
  fo_place :
    d_dict d = tmpOutBuffer d ∧ d_dict d + d_dictSize d = tmpOut d + zlen f ∧
      tail_at m (tmpOut d) (KB 64 - n) t ∨
    dst0 ≤ d_dict d ∧ d_dict d + d_dictSize d = dst0 + zlen out ∧
      tail_at m (d_dict d + d_dictSize d) (KB 64) (t ++ f) ∧
      Z.min (zlen (t ++ f)) (KB 64) ≤ d_dictSize d ∧
      (tmpOut d - tmpOutBuffer d + zlen f ≤ d_dictSize d ∨ KB 64 ≤ d_dictSize d)
}.

(** The place for [tmpOut] leaves the dictionary as it is, or shortens it. *)
Lemma place_tmpOut_spec d m (dst0 dstEnd : Z) t out :
  d_linked d = true → dict_layout d m dst0 dstEnd out → dict_ok d m dst0 t out →
  wp (place_tmpOut d)
     (λ d' m', (∃ p n o, d' = set_out (set_dict d p n) o (tmpOutSize d) (tmpOutStart d)) ∧
        frame (tmpOutBuffer d) (tmpOutBuffer d + d_maxBufferSize d) m m' ∧
        dict_ok d' m' dst0 t out ∧ Z.min (zlen t) (KB 64) ≤ tmpOut d' - tmpOutBuffer d ∧
        tmpOut d' + d_maxBlockSize d ≤ tmpOutBuffer d + d_maxBufferSize d ∧
        (d_dict d' = tmpOutBuffer d ∧ d_dict d' + d_dictSize d' = tmpOut d' ∨
         dst0 ≤ d_dict d' ∧ d_dict d' + d_dictSize d' = dst0 + zlen out ∧
         tmpOut d' - tmpOutBuffer d ≤ d_dictSize d')) m.
Proof.
  intros Hl [L1 L2 L3 L4 L5 L6 L7 L8] K. pose proof K as [K1 K2 K3 K4 K5]. unfold place_tmpOut.
  rewrite Hl. destruct (Z.eqb_spec (d_dict d) (tmpOutBuffer d)) as [Hb|Hb].
  - rewrite Z.gtb_ltb. destruct (Z.ltb_spec (KB 128) (d_dictSize d)) as [Hbig|Hbig].
    + apply wp_bind. unfold KB in *.
      assert (d_dictSize d ≤ d_maxBufferSize d) by lia.
      wp_apply memcpy_spec; [lia|solve_mapped|solve_mapped|]. intros _ m1 [F1 C1].
      apply wp_ret, wp_ret. cbn [set_out set_dict d_dict d_dictSize tmpOut tmpOutBuffer].
      split; [by eexists _, _, _|]. split; [solve_frame|].
      split; [|rewrite Hb; split_and!; try lia; left; lia].
      constructor; cbn [set_out set_dict d_dict d_dictSize tmpOut tmpOutBuffer d_maxBufferSize];
        try done; unfold KB; try lia.
      apply (tail_at_copy m m1 (d_dict d + d_dictSize d) _ (64 * 1024)); [|lia|done].
      intros i Hi. replace (d_dict d + 64 * 1024 - 64 * 1024 + i) with (tmpOutBuffer d + i) by lia.
      rewrite C1 by lia. done.
    + apply wp_bind, wp_ret, wp_ret. cbn [set_out d_dict d_dictSize tmpOut].
      split; [exists (d_dict d), (d_dictSize d), (tmpOutBuffer d + d_dictSize d); by destruct d|].
      split; [reflexivity|]. unfold KB in *. split; [by constructor|].
      rewrite Hb in *. split_and!; lia.
  - destruct K5 as [[K5 _]|[K5 K6]]; [done|]. rewrite Z.gtb_ltb. apply wp_ret.
    cbn [set_out d_dict d_dictSize tmpOut].
    set (o := tmpOutBuffer d + _).
    split; [exists (d_dict d), (d_dictSize d), o; by destruct d|].
    split; [reflexivity|]. split; [by constructor; try done; right|]. unfold o, KB in *.
    destruct (Z.ltb_spec (64 * 1024) (d_dictSize d)); split_and!; try lia; right; lia.
Qed.

(** The dictionary once a block of [n] bytes is at [tmpOut]. *)
Lemma flush_ok_start d m m' (dst0 dstEnd n : Z) t out :
  dict_layout d m dst0 dstEnd out → dict_ok d m dst0 t out →
  Z.min (zlen t) (KB 64) ≤ tmpOut d - tmpOutBuffer d →
  tmpOut d + d_maxBlockSize d ≤ tmpOutBuffer d + d_maxBufferSize d → 0 ≤ n ≤ d_maxBlockSize d →
  (d_dict d = tmpOutBuffer d ∧ d_dict d + d_dictSize d = tmpOut d ∨
   dst0 ≤ d_dict d ∧ d_dict d + d_dictSize d = dst0 + zlen out ∧
   tmpOut d - tmpOutBuffer d ≤ d_dictSize d) →
  frame (tmpOut d) (tmpOut d + d_maxBlockSize d) m m' →
  flush_ok d m' dst0 t [] n out.
Proof.
  intros [L1 L2 L3 L4 L5 L6 L7 L8] [K1 K2 K3 K4 K5] Hlead Hhigh Hn Hpl F.
  constructor; cbn [length]; rewrite ?app_nil_r; try done; try lia.
  unfold KB in *. destruct Hpl as [[P1 P2]|(P1 & P2 & P3)].
  - left. split; [done|]. split; [lia|]. eapply tail_at_frame; [exact F|lia|].
    rewrite <- P2. eapply tail_at_le; [|exact K1]. lia.
  - right. split; [done|]. split; [done|]. split; [|lia].
    eapply tail_at_frame; [exact F| |exact K1]. lia.
Qed.

(** [LZ4F_updateDict] after a part [u] of the block was copied out. *)
Lemma updateDict_tmp d m (dst0 dstEnd n : Z) t f u out :
  dict_layout d m dst0 dstEnd (out ++ u) → flush_ok d m dst0 t f n out → zlen (f ++ u) ≤ n →
  ∃ d', LZ4F_updateDict d (dst0 + zlen out) (zlen u) dst0 true m = Ret d' m ∧
    dict_changed d d' ∧ flush_ok d' m dst0 t (f ++ u) n (out ++ u).
Proof.
  intros L [O1 O2 O3 O4 O5 O6] Hn. pose proof L as [L1 L2 L3 L4 L5 L6 L7 L8].
  pose proof (proj1 (bytes_at_app _ _ _ _) L7) as [_ Lu]. rewrite length_app in *.
  assert (Hout : out ++ u `suffix_of` t ++ f ++ u) by (rewrite app_assoc; by apply suffix_grow).
  unfold LZ4F_updateDict, KB in *. destruct (Z.eqb_spec (d_dictSize d) 0) as [H0|H0].
  { cbn [set_dict d_dict d_dictSize]. rewrite H0, Z.add_0_r, Z.eqb_refl.
    eexists. split; [reflexivity|]. rewrite usize_fits by lia. split; [by eexists _, _|].
    assert (t = []) as ->. { destruct t; [done|]. rewrite ?length_app in *. cbn [length] in *. lia. }
    assert (f = []) as ->. { destruct f; [done|]. rewrite ?length_app in *. cbn [length] in *. lia. }
    apply suffix_nil_inv in O4 as ->. cbn [length app] in *. rewrite Z.add_0_r in *.
    constructor; cbn [set_dict d_dict d_dictSize tmpOut tmpOutBuffer d_maxBufferSize length app];
      try done; unfold KB; try lia.
    right. split_and!; try lia. apply tail_at_all.
    by replace (dst0 + (0 + zlen u) - zlen u) with dst0 by lia. }
  destruct O6 as [(P1 & P2 & P3)|(P1 & P2 & P3 & P4 & P5)].
  - destruct (Z.eqb_spec (d_dict d + d_dictSize d) (dst0 + zlen out)); [lia|].
    replace (dst0 + zlen out - dst0 + zlen u) with (zlen (out ++ u)) by (rewrite length_app; lia).
    rewrite usize_fits by (rewrite length_app; lia). rewrite Z.geb_leb.
    destruct (Z.leb_spec (64 * 1024) (zlen (out ++ u))) as [Hl|Hl].
    + eexists. split; [reflexivity|]. split; [by eexists _, _|].
      destruct (dict_whole_dst d m dst0 dstEnd (t ++ f) out u L O4 Hl) as [K1 K2 K3 K4 K5].
      rewrite <- app_assoc in *.
      constructor; cbn [set_dict d_dict d_dictSize tmpOut tmpOutBuffer d_maxBufferSize] in *;
        rewrite ?length_app in *; try done; unfold KB; try lia.
      right. rewrite ?length_app in *. split_and!; try done; unfold KB in *; lia.
    + rewrite P1, Z.eqb_refl. cbn [andb].
      eexists. split; [reflexivity|]. rewrite usize_fits by (rewrite length_app in *; lia).
      split; [by eexists _, _|].
      constructor; cbn [set_dict d_dict d_dictSize tmpOut tmpOutBuffer d_maxBufferSize];
        rewrite ?length_app in *; try done; unfold KB; try lia.
      left. split; [done|]. split; [lia|done].
  - destruct (Z.eqb_spec (d_dict d + d_dictSize d) (dst0 + zlen out)); [|done].
    eexists. split; [reflexivity|]. rewrite usize_fits by lia. split; [by eexists _, _|].
    rewrite <- length_app in P4.
    destruct (dict_contiguous d m (d_dict d) dst0 (t ++ f) out u P3 P4 O5 O4 P1 P2 Lu)
      as [K1 K2 K3 K4 K5]. rewrite <- app_assoc in *.
    constructor; cbn [set_dict d_dict d_dictSize tmpOut tmpOutBuffer d_maxBufferSize] in *;
      rewrite ?length_app in *; try done; unfold KB; try lia.
    right. rewrite ?length_app in *. split_and!; try done; unfold KB in *; lia.
Qed.

(** Once the whole block is out, the dictionary is that of the next block. *)
Lemma flush_ok_end d m (dst0 : Z) t f out :
  flush_ok d m dst0 t f (zlen f) out → bytes_at m (tmpOut d) f →
  dict_ok d m dst0 (t ++ f) out.
Proof.
  intros [O1 O2 O3 O4 O5 O6] Hf.
  destruct O6 as [(P1 & P2 & P3)|(P1 & P2 & P3 & P4 & P5)]; constructor; try done.
  - rewrite P2. apply (tail_at_le _ _ (KB 64 - zlen f + zlen f)); [lia|]. by apply tail_at_app.
  - rewrite length_app. unfold KB in *. lia.
  - left. lia.
  - right. lia.
Qed.

(** * Between calls *)

(** A dictionary in the buffer does not depend on the destination. *)
Lemma dict_ok_buffer d m (dst0 dst1 dstEnd : Z) t out :
  dict_layout d m dst0 dstEnd out → dict_ok d m dst0 t out → d_dict d = tmpOutBuffer d →
  dict_ok d m dst1 t [].
Proof.
  intros [L1 L2 L3 L4 L5 L6 L7 L8] [K1 K2 K3 K4 K5] Hb. constructor; try done; [apply suffix_nil|].
  left. unfold KB in *. lia.
Qed.

Lemma flush_ok_buffer d m (dst0 dst1 dstEnd n : Z) t f out :
  dict_layout d m dst0 dstEnd out → flush_ok d m dst0 t f n out → d_dict d = tmpOutBuffer d →
  tmpOutBuffer d ≤ tmpOut d → flush_ok d m dst1 t f n [].
Proof.
  intros [L1 L2 L3 L4 L5 L6 L7 L8] [O1 O2 O3 O4 O5 O6] Hb Hlow.
  constructor; try done; [apply suffix_nil|]. left. unfold KB in *.
  destruct O6 as [(P1 & P2 & P3)|(P1 & P2 & P3 & P4 & P5)]; [done|].
  rewrite length_app in P4. assert (d_dictSize d = 0) as H0 by lia.
  assert (t = []) as -> by (destruct t; [done|cbn [length] in *; lia]).
  split; [done|]. split; [|done]. lia.
Qed.

(** Which stages keep the dictionary. *)
Definition keeps_dict (s : dStage_t) : bool :=
  u32 (stage_number s - 1) <? u32 (stage_number dstage_getSuffix - 1).

(** The end of a call between two blocks or within a block that is not
    decoded. *)
Lemma preserve_dict_spec d m (dst0 dstEnd : Z) t out :
  d_linked d = true → keeps_dict (dStage d) = true → dStage d ≠ dstage_flushOut →
  dict_layout d m dst0 dstEnd out → dict_ok d m dst0 t out →
  wp (preserve_dict d 0)
     (λ d' m', (∃ p n o, d' = set_out (set_dict d p n) o (tmpOutSize d) (tmpOutStart d)) ∧
        frame (tmpOutBuffer d) (tmpOutBuffer d + d_maxBufferSize d) m m' ∧
        ∀ dst1, dict_ok d' m' dst1 t []) m.
Proof.
  intros Hl Hs Hf L K. unfold preserve_dict. rewrite Hl. change (u32 _ <? _) with (keeps_dict (dStage d)).
  rewrite Hs. cbn [Z.eqb andb]. rewrite !andb_true_r.
  destruct (Z.eqb_spec (d_dict d) (tmpOutBuffer d)) as [Hb|Hb]; cbn [negb].
  { apply wp_ret. split; [exists (d_dict d), (d_dictSize d), (tmpOut d); by destruct d|].
    split; [reflexivity|]. intros dst1. by eapply dict_ok_buffer. }
  pose proof L as [L1 L2 L3 L4 L5 L6 L7 L8]. destruct K as [K1 K2 K3 K4 K5].
  destruct K5 as [[K5 _]|[K5 K6]]; [done|]. unfold KB in *.
  assert (Hrun : wp (let newDictSize := if d_dictSize d >? KB 64 then KB 64 else d_dictSize d in
        let oldDictEnd := d_dict d + d_dictSize d in
        memcpy (tmpOutBuffer d) (oldDictEnd - newDictSize) newDictSize ;!
        let d := set_dict d (tmpOutBuffer d) newDictSize in
        ret (set_out d (tmpOutBuffer d + newDictSize) (tmpOutSize d) (tmpOutStart d)))
     (λ d' m', (∃ p n o, d' = set_out (set_dict d p n) o (tmpOutSize d) (tmpOutStart d)) ∧
        frame (tmpOutBuffer d) (tmpOutBuffer d + d_maxBufferSize d) m m' ∧
        ∀ dst1, dict_ok d' m' dst1 t []) m); [|by destruct (dStage d)].
  cbv zeta. unfold KB. rewrite Z.gtb_ltb. set (k := if _ <? _ then _ else _).
  assert (Hk : k = Z.min (64 * 1024) (d_dictSize d)).
  { unfold k. destruct (Z.ltb_spec (64 * 1024) (d_dictSize d)); lia. }
  wp_apply memcpy_spec; [lia|solve_mapped|solve_mapped|]. intros _ m1 [F1 C1]. apply wp_ret.
  cbn [set_dict tmpOutBuffer tmpOutSize tmpOutStart].
  split; [by eexists _, _, _|]. split; [solve_frame|]. intros dst1.
  constructor; cbn [set_out set_dict d_dict d_dictSize tmpOutBuffer d_maxBufferSize]; unfold KB; try lia.
  - apply (tail_at_copy m m1 (d_dict d + d_dictSize d) _ k); [|lia|done].
    intros i Hi. replace (tmpOutBuffer d + k - k + i) with (tmpOutBuffer d + i) by lia.
    rewrite C1 by lia. f_equal.
  - apply suffix_nil.
Qed.

(** The old dictionary is copied in front of [tmpOut]. *)
Lemma keep_before_spec d m (dst0 dstEnd : Z) t f (n : Z) out :
  dict_layout d m dst0 dstEnd out → flush_ok d m dst0 t f n out →
  dst0 ≤ d_dict d → d_dict d + d_dictSize d = dst0 + zlen out →
  tail_at m (d_dict d + d_dictSize d) (KB 64) (t ++ f) →
  (tmpOut d - tmpOutBuffer d + zlen f ≤ d_dictSize d ∨ KB 64 ≤ d_dictSize d) →
  tmpOutSize d = n → tmpOutStart d = zlen f → n ≤ d_maxBlockSize d →
  wp (keep_before_tmpOut d)
     (λ k m', k = tmpOut d - tmpOutBuffer d ∧ frame (tmpOutBuffer d) (tmpOut d) m m' ∧
        tail_at m' (tmpOut d) (KB 64 - n) t) m.
Proof.
  intros [L1 L2 L3 L4 L5 L6 L7 L8] [O1 O2 O3 O4 O5 O6] P1 P2 P3 P4 Hsz Hst Hn.
  unfold keep_before_tmpOut, KB in *. rewrite Hsz, Hst. rewrite (usize_fits (tmpOut d - _)) by lia.
  set (p := tmpOut d - tmpOutBuffer d). rewrite !Z.gtb_ltb.
  set (c1 := if 64 * 1024 <? n then 0 else _).
  assert (Hc1 : c1 = Z.max 0 (64 * 1024 - n)).
  { unfold c1. destruct (Z.ltb_spec (64 * 1024) n); [lia|]. rewrite usize_fits; lia. }
  rewrite Hc1. set (c := if _ <? _ then p else _).
  assert (Hc : c = Z.min p (Z.max 0 (64 * 1024 - n))).
  { unfold c. destruct (Z.ltb_spec p (Z.max 0 (64 * 1024 - n))); lia. }
  wp_apply memcpy_spec; [lia| | |].
  - destruct (decide (c = 0)) as [->|]; [intros i Hi; lia|]. solve_mapped.
  - solve_mapped.
  - intros _ m1 [F1 C1]. apply wp_ret. split; [done|]. split; [unfold p in *; solve_frame|].
    apply tail_at_drop in P3.
    apply (tail_at_copy m m1 (d_dict d + d_dictSize d - zlen f) _ c); [|unfold p in *; lia|].
    + intros i Hi. rewrite <- C1 by lia. f_equal. unfold p. lia.
    + eapply tail_at_le; [|exact P3]. lia.
Qed.

(** The end of a call while a block is being copied out. *)
Lemma preserve_flush_spec d m (dst0 dstEnd : Z) t f (n : Z) out :
  d_linked d = true → dStage d = dstage_flushOut →
  dict_layout d m dst0 dstEnd out → flush_ok d m dst0 t f n out →
  tmpOutSize d = n → tmpOutStart d = zlen f → n ≤ d_maxBlockSize d →
  wp (preserve_dict d 0)
     (λ d' m', dict_changed d d' ∧ frame (tmpOutBuffer d) (tmpOut d) m m' ∧
        ∀ dst1, flush_ok d' m' dst1 t f n []) m.
Proof.
  intros Hl Hs L O Hsz Hst Hn. unfold preserve_dict. rewrite Hl, Hs. pose proof O as [O1 O2 O3 O4 O5 O6].
  pose proof L as [L1 L2 L3 L4 L5 L6 L7 L8].
  change (u32 (stage_number dstage_flushOut - 1) <? u32 (stage_number dstage_getSuffix - 1)) with true.
  cbn [Z.eqb andb]. rewrite !andb_true_r.
  destruct (Z.eqb_spec (d_dict d) (tmpOutBuffer d)) as [Hb|Hb]; cbn [negb].
  { apply wp_ret. split; [exists (d_dict d), (d_dictSize d); by destruct d|].
    split; [reflexivity|]. intros dst1. eapply flush_ok_buffer; [exact L|exact O|done|unfold KB in *; lia]. }
  destruct O6 as [(P1 & _)|(P1 & P2 & P3 & P4 & P5)]; [done|].
  eapply wp_seq; [by eapply keep_before_spec|].
  intros k m1 (-> & F1 & T1). apply wp_ret. split; [by eexists _, _|]. split; [done|]. intros dst1.
  unfold KB in *. rewrite usize_fits by lia.
  constructor; cbn [set_dict d_dict d_dictSize tmpOut tmpOutBuffer d_maxBufferSize];
    unfold KB; try done; try lia; [apply suffix_nil|].
  left. split; [done|]. split; [lia|done].
Qed.

End dictionary.
