(* ===== verification/Lz4FrameDecode.v ===== *)
(** The frame decoder on well-formed frames, in any pieces.

    [position] relates the context between two stages to the frame being
    decoded: how much of it has been read, how much of its content has been
    delivered and where in memory the rest of what is known lies.  Each stage
    moves the position forward; a call of [LZ4F_decompress] therefore delivers
    the next part of the content and stops when its input or its destination
    is used up, or when the frame is complete. *)

From Stdlib Require Import ZArith Lia Strings.Byte.
From stdpp Require Import base gmap list fin_maps numbers.
From S2P Require Import Prelude Mem Lz4Common Lz4Format Lz4Decompress Lz4DecompressApi Xxhash XxhashProofs Lz4Frame Lz4FrameDec Lz4FrameFormat Lz4FrameProofs Lz4FrameDict.

(** * Memory outside of some ranges *)

Definition in_ranges (rs : list (Z * Z)) (i : Z) : Prop := ∃ a n, (a, n) ∈ rs ∧ a ≤ i < a + n.

(** Everything mapped stays so, and only the ranges change. *)
Record kept (rs : list (Z * Z)) (m m' : mem) : Prop := {
  kept_dom : ∀ i, is_Some (m !! i) → is_Some (m' !! i);
  kept_eq : ∀ i, ¬ in_ranges rs i → m' !! i = m !! i
}.

Section kept.
Implicit Types (m : mem) (rs : list (Z * Z)).

#[global] Instance kept_refl rs : Reflexive (kept rs).
Proof. intros m. by constructor. Qed.

#[global] Instance kept_trans rs : Transitive (kept rs).
Proof.
  intros m1 m2 m3 [D1 E1] [D2 E2]. constructor; [auto|]. intros i Hi. by rewrite E2, E1.
Qed.

(** A write within one of the ranges. *)
Lemma frame_kept rs (a n lo hi : Z) m m' :
  frame lo hi m m' → (a, n) ∈ rs → a ≤ lo → hi ≤ a + n → kept rs m m'.
Proof.
  intros [D E] Hin Hlo Hhi. constructor; [intros i; by rewrite D|]. intros i Hi. apply E.
  destruct (decide (lo ≤ i < hi)); [|lia]. destruct Hi.
  exists a, n. split; [done|lia].
Qed.

Lemma kept_bytes_at rs (a : Z) (l : list byte) m m' :
  kept rs m m' → (∀ i, a ≤ i < a + zlen l → ¬ in_ranges rs i) → bytes_at m a l → bytes_at m' a l.
Proof.
  intros [_ E] Hd H. eapply (bytes_at_copy m m' a a); [|done].
  intros i Hi. apply E, Hd. lia.
Qed.

Lemma kept_mapped rs (a n : Z) m m' : kept rs m m' → mapped m a n → mapped m' a n.
Proof. intros [D _] H i Hi. apply D, H, Hi. Qed.

End kept.

(** A command whose result is known. *)
Lemma wp_run {A B : Type} (c : prog A) (k : A → prog B) (Q : B → mem → Prop) (m m' : mem) (a : A) :
  c m = Ret a m' → wp (k a) Q m' → wp (bind c k) Q m.
Proof. intros H HQ. unfold wp, bind in *. by rewrite H. Qed.

(** * Input *)

Lemma suffix_tail (a s c : list byte) : a ++ s `suffix_of` c → s `suffix_of` c.
Proof. intros [k ->]. exists (k ++ a). by rewrite app_assoc. Qed.

(** The beginning of a stream that is written in two ways. *)
Lemma stream_split (a s q rest : list byte) :
  a ++ s = q ++ rest → zlen a ≤ zlen q → ∃ q', q = a ++ q' ∧ s = q' ++ rest.
Proof.
  intros H Hl. rewrite <- (take_drop (length a) q), <- app_assoc in H.
  apply app_inj_1 in H as [Ha Hs]; [|rewrite length_take_le; lia].
  exists (drop (length a) q). split; [|done]. rewrite Ha at 1. by rewrite take_drop.
Qed.

Section input.
Context {arch : Arch}.
Implicit Types (m : mem) (st : dstate).

(** Input is collected in a buffer until [target] bytes are there. *)
Lemma gather_spec st m (buf target srcEnd : Z) (pre s : list byte) :
  d_tmpInSize (ds_dctx st) = zlen pre → zlen pre ≤ target < 2 ^ 31 →
  bytes_at m (ds_src st) s → srcEnd = ds_src st + zlen s → zlen s < 2 ^ 31 →
  bytes_at m buf pre → mapped m buf target → apart (ds_src st) (zlen s) buf target →
  wp (gather st buf target srcEnd)
     (λ '(st', ok) m', ∃ a s', s = a ++ s' ∧ zlen (pre ++ a) ≤ target ∧
        st' = DState (set_in (ds_dctx st) (zlen (pre ++ a)) (tmpInTarget (ds_dctx st)))
                (ds_src st + zlen a) (ds_dst st) (ds_sel st) ∧
        (if ok : bool then zlen (pre ++ a) = target else s' = [] ∧ zlen (pre ++ a) < target) ∧
        frame buf (buf + target) m m' ∧ bytes_at m' buf (pre ++ a)) m.
Proof.
  intros Hp Ht Hs He Hl Hb Hm Ha. unfold gather. rewrite Hp.
  rewrite (usize_fits (target - zlen pre)), (usize_fits (srcEnd - ds_src st)) by lia.
  rewrite Z.gtb_ltb. set (k := if _ <? _ then _ else _).
  assert (Hk : k = Z.min (target - zlen pre) (zlen s)).
  { unfold k. destruct (Z.ltb_spec (srcEnd - ds_src st) (target - zlen pre)); lia. }
  unfold apart in *. wp_apply memcpy_spec; [lia|solve_mapped|solve_mapped|].
  intros _ m1 [F1 C1]. apply wp_ret.
  assert (Hla : zlen (take (Z.to_nat k) s) = k) by (rewrite length_take_le; lia).
  exists (take (Z.to_nat k) s), (drop (Z.to_nat k) s). rewrite take_drop, length_app.
  replace (Z.of_nat (length pre + length (take (Z.to_nat k) s))) with (zlen pre + k) by lia.
  rewrite usize_fits, Hla by lia. cbn [set_in d_tmpInSize].
  split; [done|]. split; [lia|]. split; [done|]. split; [|split].
  - destruct (Z.ltb_spec (zlen pre + k) target); cbn [negb]; [|lia]. split; [|lia].
    apply length_zero_iff_nil. rewrite length_drop. lia.
  - eapply frame_weaken; [exact F1|lia..].
  - apply bytes_at_app. split; [eapply bytes_at_frame; [exact F1|lia|done]|].
    eapply bytes_at_copy; [intros i Hi; apply C1; lia|].
    rewrite <- (take_drop (Z.to_nat k) s) in Hs. by apply bytes_at_app in Hs as [Hs _].
Qed.

End input.

(** * The state of the decoder *)

Section decode.
Context {arch : Arch} (ua : bool).
Context (fi : LZ4F_frameInfo_t) (x : list byte).

(** The two buffers of the decoder, and the capacity of the second. *)
Context (bin bout cap : Z).

Implicit Types (m : mem) (d : LZ4F_dctx_t) (st : dstate).

Let bs : Z := block_size fi.
Let linked : bool := blockMode fi =? LZ4F_blockLinked.

(** The largest address in use leaves room for the sums the decoder forms. *)
Definition ADDR_MAX : Z := 2 ^ ptr_bits - 2 ^ 31.

Record buffers_ok m : Prop := {
  bo_info : info_ok fi;
  bo_cap : needed fi ≤ cap < 2 ^ 24;
  bo_in : mapped m bin bs;
  bo_out : mapped m bout cap;
  bo_apart : apart bin bs bout cap;
  bo_addr : 0 ≤ bin ∧ bin + bs ≤ ADDR_MAX ∧ 0 ≤ bout ∧ bout + cap ≤ ADDR_MAX
}.

(** The input [s] left for the current call at [src], and the destination
    [dst0 .. dstEnd - 1] of which [out] is filled. *)
Record io_ok m (src : Z) (s : list byte) (dst0 dstEnd : Z) (out : list byte) : Prop := {
  io_src : bytes_at m src s;
  io_dst : mapped m dst0 (dstEnd - dst0);
  io_filled : bytes_at m dst0 out;
  io_room : dst0 + zlen out ≤ dstEnd;
  io_src_dst : apart src (zlen s) dst0 (dstEnd - dst0);
  io_src_in : apart src (zlen s) bin bs;
  io_src_out : apart src (zlen s) bout cap;
  io_dst_in : apart dst0 (dstEnd - dst0) bin bs;
  io_dst_out : bout + cap < dst0 ∨ dstEnd ≤ bout;
  io_addr : 0 ≤ src ∧ src + zlen s ≤ ADDR_MAX ∧ 0 ≤ dst0 ∧ dstEnd ≤ ADDR_MAX;
  io_size : dstEnd - dst0 < 2 ^ 31 - 2 ^ 25 ∧ zlen s < 2 ^ 31
}.

(** The fields of the context that stay during the frame. *)
Record frame_ctx d : Prop := {
  fx_info : d_frameInfo d = fi;
  fx_block : d_maxBlockSize d = bs;
  fx_cap : d_maxBufferSize d = cap;
  fx_in : d_tmpIn d = bin;
  fx_out : tmpOutBuffer d = bout;
  fx_tmpOut : linked = false → tmpOut d = bout
}.

(** The text [a] has been counted and summed. *)
Record accounted d (a : list byte) : Prop := {
  ac_sum : contentChecksumFlag fi ≠ 0 → sum32 (d_xxh d) a;
  ac_left : frameRemainingSize d = if contentSize fi =? 0 then 0 else zlen x - zlen a;
  ac_pre : a `prefix_of` x
}.

(** After the content [done], the bytes [rest] of the frame hold [todo]. *)
Definition frame_rest (done rest todo : list byte) : Prop :=
  ∃ ds, frame_blocks bs linked done ds todo ∧ rest = ds ++ suffix_bytes fi x.

(** A compressed block with the text [y] after [done]. *)
Record cblock (done b y : list byte) : Prop := {
  cb_block : ∃ seqs l, b = block seqs l ∧ end_ok seqs l ∧
               block_text (if linked then done else []) seqs l = Some y;
  cb_size : 0 < zlen b ≤ bs;
  cb_text : 0 < zlen y ≤ bs
}.

(** The dictionary, which independent blocks do without. *)
Definition dict_at d m (dst0 : Z) (done out : list byte) : Prop :=
  linked = true → dict_ok d m dst0 done out.

(** A block at [sel] that is to be decoded. *)
Record selected m (sel : Z) (b : list byte) (dst0 dstEnd : Z) : Prop := {
  se_bytes : bytes_at m sel b;
  se_dst : apart sel (zlen b) dst0 (dstEnd - dst0);
  se_out : apart sel (zlen b) bout cap;
  se_addr : 0 ≤ sel ∧ sel + zlen b ≤ ADDR_MAX
}.

(** A decoded block: [f] of it is delivered, [pend] is not. *)
Record flushing d m (dst0 : Z) (t f pend out : list byte) : Prop := {
  fg_text : bytes_at m (tmpOut d) (f ++ pend);
  fg_size : tmpOutSize d = zlen (f ++ pend);
  fg_start : tmpOutStart d = zlen f;
  fg_low : bout ≤ tmpOut d;
  fg_high : tmpOut d + zlen (f ++ pend) ≤ bout + cap;
  fg_bs : zlen (f ++ pend) ≤ bs;
  fg_dict : linked = true → flush_ok d m dst0 t f (zlen (f ++ pend)) out
}.

(** Where the decoder is: [done] is delivered, [rest] is not read yet and
    [todo] is what remains to be delivered. *)
Inductive position d m (sel dst0 dstEnd : Z) (out : list byte) :
    list byte → list byte → list byte → Prop :=
| at_size done rest todo :
    dStage d = dstage_getCBlockSize → accounted d done → dict_at d m dst0 done out →
    frame_rest done rest todo → position d m sel dst0 dstEnd out done rest todo
| at_store_size pre done rest todo :
    dStage d = dstage_storeCBlockSize → accounted d done → dict_at d m dst0 done out →
    d_tmpInSize d = zlen pre → zlen pre < 4 → bytes_at m bin pre →
    frame_rest done (pre ++ rest) todo → position d m sel dst0 dstEnd out done rest todo
| at_direct r done rest todo :
    dStage d = dstage_copyDirect → accounted d done → dict_at d m dst0 done out →
    tmpInTarget d = zlen r → 0 < zlen r ≤ bs → frame_rest (done ++ r) rest todo →
    position d m sel dst0 dstEnd out done (r ++ rest) (r ++ todo)
| at_block b y done rest todo :
    dStage d = dstage_getCBlock → accounted d done → dict_at d m dst0 done out →
    tmpInTarget d = zlen b → cblock done b y → frame_rest (done ++ y) rest todo →
    position d m sel dst0 dstEnd out done (b ++ rest) (y ++ todo)
| at_store_block pre b y done rest todo :
    dStage d = dstage_storeCBlock → accounted d done → dict_at d m dst0 done out →
    tmpInTarget d = zlen (pre ++ b) → d_tmpInSize d = zlen pre → 0 < zlen b → bytes_at m bin pre →
    cblock done (pre ++ b) y → frame_rest (done ++ y) rest todo →
    position d m sel dst0 dstEnd out done (b ++ rest) (y ++ todo)
| at_decode b y done rest todo :
    dStage d = dstage_decodeCBlock ∨
    dStage d = dstage_decodeCBlock_intoDst ∧ bs ≤ dstEnd - (dst0 + zlen out) ∨
    dStage d = dstage_decodeCBlock_intoTmp →
    accounted d done → dict_at d m dst0 done out → tmpInTarget d = zlen b →
    selected m sel b dst0 dstEnd → cblock done b y → frame_rest (done ++ y) rest todo →
    position d m sel dst0 dstEnd out done rest (y ++ todo)
| at_flush t f pend done rest todo :
    dStage d = dstage_flushOut → accounted d (done ++ pend) → done = t ++ f → pend ≠ [] →
    flushing d m dst0 t f pend out → frame_rest (done ++ pend) rest todo →
    position d m sel dst0 dstEnd out done rest (pend ++ todo)
| at_suffix rest :
    dStage d = dstage_getSuffix → accounted d x →
    le_bytes 4 0 ++ rest = suffix_bytes fi x → position d m sel dst0 dstEnd out x rest []
| at_store_suffix pre rest :
    dStage d = dstage_storeSuffix → accounted d x → contentChecksumFlag fi ≠ 0 →
    d_tmpInSize d = zlen pre → zlen pre < 4 → bytes_at m bin pre →
    le_bytes 4 0 ++ pre ++ rest = suffix_bytes fi x → position d m sel dst0 dstEnd out x rest [].

(** The stages in the order in which they follow each other without input. *)
Definition rank (s : dStage_t) : Z :=
  match s with
  | dstage_getCBlock => 7 | dstage_storeCBlock => 6 | dstage_decodeCBlock => 5
  | dstage_decodeCBlock_intoDst | dstage_decodeCBlock_intoTmp => 4
  | dstage_flushOut => 3 | _ => 2
  end.

(** What bounds the number of stages a call goes through. *)
Definition work (srcEnd : Z) st : Z := 16 * (srcEnd - ds_src st) + rank (dStage (ds_dctx st)).

(** * The state under writes *)

(** Where a stage may write: the buffers and the free part of the destination. *)
Definition writable (dst0 dstEnd : Z) (out : list byte) (lo hi : Z) : Prop :=
  bin ≤ lo ∧ hi ≤ bin + bs ∨ bout ≤ lo ∧ hi ≤ bout + cap ∨ dst0 + zlen out ≤ lo ∧ hi ≤ dstEnd.

Lemma buffers_ok_frame m m' (lo hi : Z) : buffers_ok m → frame lo hi m m' → buffers_ok m'.
Proof. intros [B1 B2 B3 B4 B5 B6] F. constructor; try done; solve_mapped. Qed.

Lemma io_ok_frame m m' (src : Z) (s : list byte) (dst0 dstEnd : Z) (out : list byte) (lo hi : Z) :
  io_ok m src s dst0 dstEnd out → frame lo hi m m' → writable dst0 dstEnd out lo hi →
  io_ok m' src s dst0 dstEnd out.
Proof.
  intros [I1 I2 I3 I4 I5 I6 I7 I8 I9 I10 I11] F W. unfold apart, writable in *.
  constructor; unfold apart; try done.
  - eapply bytes_at_frame; [exact F|lia|done].
  - solve_mapped.
  - eapply bytes_at_frame; [exact F|lia|done].
Qed.

(** Part of the input is read. *)
Lemma io_ok_read m (src : Z) (a s : list byte) (dst0 dstEnd : Z) (out : list byte) :
  io_ok m src (a ++ s) dst0 dstEnd out → io_ok m (src + zlen a) s dst0 dstEnd out.
Proof.
  intros [I1 I2 I3 I4 I5 I6 I7 I8 I9 I10 I11]. rewrite length_app in *.
  apply bytes_at_app in I1 as [_ I1]. unfold apart in *. constructor; unfold apart; try done; lia.
Qed.

(** Part of the content is delivered. *)
Lemma io_ok_write m (src : Z) (s : list byte) (dst0 dstEnd : Z) (out u : list byte) :
  io_ok m src s dst0 dstEnd out → bytes_at m (dst0 + zlen out) u → dst0 + zlen (out ++ u) ≤ dstEnd →
  io_ok m src s dst0 dstEnd (out ++ u).
Proof.
  intros [I1 I2 I3 I4 I5 I6 I7 I8 I9 I10 I11] Hu Hr. constructor; try done. by apply bytes_at_app.
Qed.

(** What the dictionary operations need. *)
Lemma dict_layout_of d m (src : Z) (s : list byte) (dst0 dstEnd : Z) (out : list byte) :
  linked = true → frame_ctx d → buffers_ok m → io_ok m src s dst0 dstEnd out →
  dict_layout d m dst0 dstEnd out.
Proof.
  intros Hl [X1 X2 X3 X4 X5 X6] [B1 B2 B3 B4 B5 B6] [I1 I2 I3 I4 I5 I6 I7 I8 I9 I10 I11].
  pose proof (block_size_range _ B1) as Hbs. fold bs in Hbs.
  unfold needed in B2. fold bs linked in B2. rewrite Hl in B2. unfold b2i in B2.
  constructor; rewrite ?X2, ?X3, ?X5; try done; lia.
Qed.

Lemma linked_eq d : frame_ctx d → d_linked d = linked.
Proof. intros [X1 _ _ _ _ _]. unfold d_linked. by rewrite X1. Qed.

Lemma dict_ok_same d d' m (dst0 : Z) (t out : list byte) :
  d_dict d' = d_dict d → d_dictSize d' = d_dictSize d → tmpOutBuffer d' = tmpOutBuffer d →
  d_maxBufferSize d' = d_maxBufferSize d → dict_ok d m dst0 t out → dict_ok d' m dst0 t out.
Proof. intros E1 E2 E3 E4 [K1 K2 K3 K4 K5]. constructor; rewrite ?E1, ?E2, ?E3, ?E4; done. Qed.

Lemma dict_at_frame d m m' (src : Z) (s : list byte) (dst0 dstEnd : Z) (done out : list byte) (lo hi : Z) :
  dict_at d m dst0 done out → frame_ctx d → buffers_ok m → io_ok m src s dst0 dstEnd out →
  frame lo hi m m' → (bin ≤ lo ∧ hi ≤ bin + bs ∨ dst0 + zlen out ≤ lo ∧ hi ≤ dstEnd) →
  dict_at d m' dst0 done out.
Proof.
  intros D X B I F W Hl. destruct (D Hl) as [K1 K2 K3 K4 K5]. destruct X as [X1 X2 X3 X4 X5 X6].
  destruct B as [B1 B2 B3 B4 B5 B6], I as [I1 I2 I3 I4 I5 I6 I7 I8 I9 I10 I11].
  constructor; try done. eapply tail_at_frame; [exact F| |exact K1].
  unfold apart in *. rewrite X3, X5 in K5.
  assert (0 ≤ cap). { pose proof (needed_range _ B1). unfold KB in *. lia. }
  lia.
Qed.

(** * The checksum and the remaining size *)

Lemma prefix_length (a b : list byte) : a `prefix_of` b → zlen a ≤ zlen b.
Proof. intros H. apply prefix_length in H. lia. Qed.

Lemma account_run d m (p : Z) (a u : list byte) :
  frame_ctx d → info_ok fi → accounted d a → bytes_at m p u → a ++ u `prefix_of` x →
  (contentSize fi = 0 ∨ contentSize fi = zlen x) → zlen x < 2 ^ 64 → zlen u < 2 ^ 31 →
  ∃ h r, account d p (zlen u) m = Ret (set_sum d h r) m ∧ accounted (set_sum d h r) (a ++ u).
Proof.
  intros X Hok [A1 A2 A3] Hu Hpre Hsz Hx Hlen. pose proof (prefix_length _ _ Hpre) as Hl.
  rewrite length_app in Hl. unfold account. rewrite (fx_info _ X).
  assert (Hh : ∃ h, (if negb (contentChecksumFlag fi =? 0) then XXH32_update (d_xxh d) p (zlen u)
                     else ret (d_xxh d)) m = Ret h m ∧ (contentChecksumFlag fi ≠ 0 → sum32 h (a ++ u))).
  { destruct (Z.eqb_spec (contentChecksumFlag fi) 0) as [E|E]; cbn [negb]; [by eexists|].
    destruct (update32_hashed 0 (d_xxh d) a u p m (A1 E) Hu) as (h & Hh & Hs);
      [rewrite length_app; lia| |by exists h].
    unfold ptr_bits, STEPSIZE. destruct LZ4_64bits; simpl; lia. }
  destruct Hh as (h & Hrun & Hsum). unfold bind. rewrite Hrun. eexists _, _. split; [reflexivity|].
  constructor; cbn [set_sum d_xxh frameRemainingSize]; try done. rewrite A2, length_app.
  destruct (contentSize fi =? 0); [done|]. cbn [negb]. rewrite u64_small; lia.
Qed.

(** * The size field of a block *)

Lemma size_fields (n : Z) :
  0 ≤ n < 2 ^ 31 →
  Z.land n 0x7FFFFFFF = n ∧ Z.land n LZ4F_BLOCKUNCOMPRESSED_FLAG = 0 ∧
  Z.land (n + LZ4F_BLOCKUNCOMPRESSED_FLAG) 0x7FFFFFFF = n ∧
  Z.land (n + LZ4F_BLOCKUNCOMPRESSED_FLAG) LZ4F_BLOCKUNCOMPRESSED_FLAG ≠ 0.
Proof.
  intros Hn. change 0x7FFFFFFF with (Z.ones 31). change LZ4F_BLOCKUNCOMPRESSED_FLAG with (2 ^ 31).
  rewrite !Z.land_ones by lia. split; [apply Z.mod_small; lia|].
  assert (Hlow : Z.testbit n 31 = false).
  { apply Z.bits_above_log2; [lia|]. destruct (decide (n = 0)) as [->|]; [done|].
    apply Z.log2_lt_pow2; lia. }
  split; [|split].
  - apply Z.bits_inj'. intros k Hk. rewrite Z.land_spec, Z.bits_0.
    destruct (decide (k = 31)) as [->|Hne]; [by rewrite Hlow|].
    rewrite Z.pow2_bits_false by lia. apply andb_false_r.
  - rewrite <- (Z.mul_1_l (2 ^ 31)) at 1. rewrite Z_mod_plus_full. apply Z.mod_small. lia.
  - intros H. apply (f_equal (λ z, Z.testbit z 31)) in H. rewrite Z.land_spec, Z.bits_0 in H.
    rewrite Z.pow2_bits_true, andb_true_r in H by lia.
    apply Z.testbit_false in H; [|lia]. rewrite <- (Z.mul_1_l (2 ^ 31)) in H at 1.
    rewrite Z.div_add, Z.div_small in H by lia. done.
Qed.

(** The next four bytes end the blocks or start one. *)
Inductive block_start (done q rest todo : list byte) : Prop :=
| starts_end :
    q = le_bytes 4 0 → todo = [] → done = x → le_bytes 4 0 ++ rest = suffix_bytes fi x →
    block_start done q rest todo
| starts_raw r rest' todo' :
    q = le_bytes 4 (zlen r + LZ4F_BLOCKUNCOMPRESSED_FLAG) → 0 < zlen r ≤ bs →
    rest = r ++ rest' → todo = r ++ todo' → frame_rest (done ++ r) rest' todo' →
    block_start done q rest todo
| starts_block b y rest' todo' :
    q = le_bytes 4 (zlen b) → cblock done b y → rest = b ++ rest' → todo = y ++ todo' →
    frame_rest (done ++ y) rest' todo' → block_start done q rest todo.

Lemma frame_rest_start (done q rest todo : list byte) :
  done ++ todo = x → frame_rest done (q ++ rest) todo → length q = 4%nat →
  block_start done q rest todo.
Proof.
  intros Hx (ds & Hb & Hq) Hl. inversion Hb as [|? e y ds' ys He Hrest]; subst.
  - rewrite app_nil_r in *. unfold suffix_bytes in Hq. cbn [app] in Hq.
    apply app_inj_1 in Hq as [-> Hq]; [|by rewrite length_le_bytes].
    apply starts_end; try done. unfold suffix_bytes. by rewrite Hq.
  - destruct He as [y Hy|seqs l y He Ht Hbl Hy]; rewrite <- !app_assoc in Hq;
      apply app_inj_1 in Hq as [-> Hq]; try (by rewrite length_le_bytes).
    + eapply starts_raw; [done|done|exact Hq|done|]. by exists ds'.
    + eapply (starts_block _ _ _ _ (block seqs l)); [done| |exact Hq|done|by exists ds'].
      pose proof (length_block_pos seqs l). constructor; [|lia|done]. by exists seqs, l.
Qed.

Lemma frame_rest_length (done rest todo : list byte) : frame_rest done rest todo → 4 ≤ zlen rest.
Proof.
  intros (ds & _ & ->). unfold suffix_bytes. rewrite !length_app, length_le_bytes. lia.
Qed.

(** * One stage *)

Section stages.

(** The current call: what was delivered before it, its input [chunk], the input
    of [later] calls, what follows the frame, and the memory it started
    with. *)
Context (dst0 dstEnd srcEnd : Z) (prev chunk later extra : list byte) (m0 : mem).
Context (Hsize : contentSize fi = 0 ∨ contentSize fi = zlen x) (Hlen : zlen x < 2 ^ 64).

Definition call_ranges : list (Z * Z) := [(dst0, dstEnd - dst0); (bin, bs); (bout, cap)].

Record running st m (s out done rest todo : list byte) : Prop := {
  rn_buf : buffers_ok m;
  rn_io : io_ok m (ds_src st) s dst0 dstEnd out;
  rn_ctx : frame_ctx (ds_dctx st);
  rn_src : srcEnd = ds_src st + zlen s;
  rn_dst : ds_dst st = dst0 + zlen out;
  rn_in : s ++ later = rest ++ extra;
  rn_out : done = prev ++ out;
  rn_text : done ++ todo = x;
  rn_kept : kept call_ranges m0 m;
  rn_suffix : s `suffix_of` chunk
}.

Definition inv st m : Prop := ∃ s out done rest todo,
  running st m s out done rest todo ∧
  position (ds_dctx st) m (ds_sel st) dst0 dstEnd out done rest todo.

(** A call stops within the frame only when it cannot go on. *)
Definition stopped st (hint : Z) m : Prop :=
  inv st m ∧ 0 < hint ∧
  (ds_src st = srcEnd ∨
   ds_dst st = dstEnd ∧ dStage (ds_dctx st) ∈ [dstage_copyDirect; dstage_getCBlock; dstage_flushOut]) ∧
  dStage (ds_dctx st) ∈ [dstage_storeCBlockSize; dstage_copyDirect; dstage_getCBlock;
                         dstage_storeCBlock; dstage_flushOut; dstage_storeSuffix].

Definition complete st (hint : Z) m : Prop :=
  hint = 0 ∧ dStage (ds_dctx st) = dstage_getHeader ∧
  ∃ s out, running st m s out x [] [] ∧ frameRemainingSize (ds_dctx st) = 0.

Definition outcome_ok (w : Z) (r : stage_result) m : Prop :=
  match r with
  | Again st => inv st m ∧ 0 ≤ work srcEnd st < w
  | Stop st hint => stopped st hint m ∨ complete st hint m
  | Error _ _ => False
  end.

(** The parts of [running] that do not change when a stage only reads. *)
Lemma running_read st d' (sel : Z) m (a s out done rest todo : list byte) :
  running st m (a ++ s) out done (a ++ rest) todo → frame_ctx d' →
  running (DState d' (ds_src st + zlen a) (ds_dst st) sel) m s out done rest todo.
Proof.
  intros [R1 R2 R3 R4 R5 R6 R7 R8 R9 R10] X. rewrite length_app in R4.
  constructor; cbn [ds_src ds_dst ds_dctx]; try done.
  - by apply io_ok_read.
  - lia.
  - rewrite <- !app_assoc in R6. by apply app_inv_head in R6.
  - by eapply suffix_tail.
Qed.

(** ... or writes to a buffer. *)
Lemma running_frame st m m' (lo hi : Z) (s out done rest todo : list byte) :
  running st m s out done rest todo → frame lo hi m m' →
  (bin ≤ lo ∧ hi ≤ bin + bs ∨ bout ≤ lo ∧ hi ≤ bout + cap ∨ dst0 + zlen out ≤ lo ∧ hi ≤ dstEnd) →
  running st m' s out done rest todo.
Proof.
  intros [R1 R2 R3 R4 R5 R6 R7 R8 R9 R10] F W. constructor; try done.
  - by eapply buffers_ok_frame.
  - by eapply io_ok_frame.
  - etransitivity; [exact R9|]. unfold call_ranges.
    destruct W as [W|[W|W]]; [apply (frame_kept _ bin bs lo hi)|apply (frame_kept _ bout cap lo hi)|
      apply (frame_kept _ dst0 (dstEnd - dst0) lo hi)]; try done; try lia; set_solver.
Qed.

Ltac fields := cbn [ds_dctx ds_src ds_dst ds_sel set_in set_stage set_dict set_sum set_out
  d_frameInfo dStage frameRemainingSize d_maxBlockSize d_maxBufferSize d_tmpIn d_tmpInSize
  tmpInTarget tmpOutBuffer d_dict d_dictSize tmpOut tmpOutSize tmpOutStart d_xxh].

(** A record of the same shape about a context with the same fields. *)
Ltac same H := destruct H; constructor; fields; done.

Lemma accounted_same d d' (a : list byte) :
  d_xxh d' = d_xxh d → frameRemainingSize d' = frameRemainingSize d → accounted d a → accounted d' a.
Proof. intros E1 E2 [A1 A2 A3]. constructor; by rewrite ?E1, ?E2. Qed.

(** The stage that reads the size of a block at [sel]. *)
Lemma decodeCBlockSize_spec st m (w : Z) (q s out done rest todo : list byte) :
  running st m s out done rest todo → accounted (ds_dctx st) done →
  dict_at (ds_dctx st) m dst0 done out → frame_rest done (q ++ rest) todo → length q = 4%nat →
  bytes_at m (ds_sel st) q → 16 * zlen s + 7 < w →
  wp (stage_decodeCBlockSize st dstEnd) (outcome_ok w) m.
Proof.
  intros R A D Hr Hq Hb Hw. pose proof R as [R1 R2 R3 R4 R5 R6 R7 R8 R9 R10].
  pose proof (block_size_range _ (bo_info _ R1)) as Hbs. fold bs in Hbs.
  assert (HR : ∀ d', frame_ctx d' → running (DState d' (ds_src st) (ds_dst st) (ds_sel st)) m s out done rest todo).
  { intros d' X. by constructor. }
  pose proof (frame_rest_start _ _ _ _ R8 Hr Hq) as Hcase. unfold stage_decodeCBlockSize.
  rewrite <- (app_nil_r q) in Hb. pose proof (fx_block _ R3) as Hfb.
  destruct Hcase as [-> -> -> Hsuf|r rest' todo' -> Hrl -> -> Hrest|b y rest' todo' -> Hc -> -> Hrest].
  - eapply wp_run; [by apply (LE32_at _ _ _ _ Hb)|]. apply wp_ret. fields.
    destruct (HR (set_stage (ds_dctx st) dstage_getSuffix) ltac:(same R3)).
    split; [|unfold work; fields; cbn [rank]; lia].
    eexists s, out, x, rest, []. split; [by constructor|]. fields. apply at_suffix; [done|same A|done].
  - pose proof (size_fields (zlen r) ltac:(unfold KB in *; lia)) as (_ & _ & Hf1 & Hf2).
    eapply wp_run; [apply (LE32_at _ _ _ _ Hb); unfold LZ4F_BLOCKUNCOMPRESSED_FLAG; lia|].
    rewrite Hf1, Hfb. destruct (Z.eqb_spec (zlen r) 0); [lia|]. rewrite Z.gtb_ltb.
    destruct (Z.ltb_spec bs (zlen r)); [lia|].
    destruct (Z.eqb_spec (Z.land (zlen r + LZ4F_BLOCKUNCOMPRESSED_FLAG) LZ4F_BLOCKUNCOMPRESSED_FLAG) 0);
      [done|]. cbn [negb]. apply wp_ret. split; [|unfold work; fields; cbn [rank]; lia].
    eexists s, out, done, _, _. split; [apply HR; same R3|]. fields.
    apply at_direct; try done; [same A|]. intros Hl. by eapply dict_ok_same; [..|apply (D Hl)].
  - destruct Hc as [C1 C2 C3].
    pose proof (size_fields (zlen b) ltac:(unfold KB in *; lia)) as (Hf1 & Hf2 & _ & _).
    eapply wp_run; [apply (LE32_at _ _ _ _ Hb); unfold KB in *; lia|].
    rewrite Hf1, Hf2, Hfb. destruct (Z.eqb_spec (zlen b) 0); [lia|]. rewrite Z.gtb_ltb.
    destruct (Z.ltb_spec bs (zlen b)); [lia|]. cbn [negb Z.eqb]. set (d' := set_stage _ _).
    assert (Hinv : inv (DState d' (ds_src st) (ds_dst st) (ds_sel st)) m).
    { eexists s, out, done, _, _. split; [apply HR; same R3|]. unfold d'. fields.
      apply at_block; try done; [same A|]. intros Hl. by eapply dict_ok_same; [..|apply (D Hl)]. }
    fields. destruct (Z.eqb_spec (ds_dst st) dstEnd) as [Hd|Hd]; apply wp_ret.
    + left. split; [done|]. unfold BHSize. rewrite usize_fits by (unfold KB in *; lia).
      split; [lia|]. split; [right; split; [done|]|]; unfold d'; fields; set_solver.
    + split; [done|]. unfold work, d'. fields. cbn [rank]. lia.
Qed.

(** The dictionary when a context differs in other fields only. *)
Lemma dict_at_same d d' m (done out : list byte) :
  d_dict d' = d_dict d → d_dictSize d' = d_dictSize d → tmpOutBuffer d' = tmpOutBuffer d →
  d_maxBufferSize d' = d_maxBufferSize d → dict_at d m dst0 done out → dict_at d' m dst0 done out.
Proof. intros E1 E2 E3 E4 D Hl. by eapply dict_ok_same; [..|apply (D Hl)]. Qed.

Lemma storeCBlockSize_spec st m (pre s out done rest todo : list byte) :
  running st m s out done rest todo → accounted (ds_dctx st) done →
  dict_at (ds_dctx st) m dst0 done out → dStage (ds_dctx st) = dstage_storeCBlockSize →
  d_tmpInSize (ds_dctx st) = zlen pre → zlen pre < 4 → bytes_at m bin pre →
  frame_rest done (pre ++ rest) todo →
  wp (stage_storeCBlockSize st srcEnd dstEnd) (outcome_ok (16 * zlen s + 2)) m.
Proof.
  intros R A D Hst Hsz Hpre Hb Hr. pose proof R as [R1 R2 R3 R4 R5 R6 R7 R8 R9 R10].
  pose proof (block_size_range _ (bo_info _ R1)) as Hbs. fold bs in Hbs.
  pose proof (io_src_in _ _ _ _ _ _ R2) as Hap. unfold apart, KB in *.
  unfold stage_storeCBlockSize. rewrite (fx_in _ R3). pose proof (bo_in _ R1) as Hin.
  eapply wp_seq; [apply (gather_spec st m bin BHSize srcEnd pre s); try done; unfold BHSize, apart|].
  - lia.
  - apply (io_src _ _ _ _ _ _ R2).
  - apply (io_size _ _ _ _ _ _ R2).
  - solve_mapped.
  - lia.
  - intros [st' ok] m1 (a & s' & -> & Hle & -> & Hok & F1 & B1). unfold BHSize in *. fields.
    apply (running_frame _ _ m1 bin (bin + 4)) in R as R'; [|done|left; lia].
    assert (D1 : dict_at (ds_dctx st) m1 dst0 done out).
    { eapply dict_at_frame; [exact D|exact R3|exact R1|exact R2|exact F1|left; lia]. }
    pose proof (frame_rest_length _ _ _ Hr) as Hlr. rewrite (length_app pre rest) in Hlr.
    rewrite (length_app a s') in *. pose proof (length_app pre a) as Hn1.
    destruct (stream_split a (s' ++ later) rest extra) as (rest' & -> & Hs').
    { by rewrite app_assoc. }
    { lia. }
    apply (running_read _ (set_in (ds_dctx st) (zlen (pre ++ a)) (tmpInTarget (ds_dctx st)))
      (ds_sel st)) in R'; [|same R3].
    set (d1 := set_in _ _ _) in *.
    assert (A1 : accounted d1 done) by (same A).
    assert (D1' : dict_at d1 m1 dst0 done out) by (eapply dict_at_same; [..|exact D1]; done).
    rewrite app_assoc in Hr. destruct ok; cbn [negb].
    + destruct R' as [Q1 Q2 Q3 Q4 Q5 Q6 Q7 Q8 Q9 Q10].
      assert (Hin1 : d_tmpIn d1 = bin) by apply (fx_in _ Q3).
      eapply (decodeCBlockSize_spec (DState d1 (ds_src st + zlen a) (ds_dst st) (d_tmpIn d1)) m1 _ (pre ++ a));
        [by constructor|done|done|exact Hr|lia|by rewrite Hin1|lia].
    + destruct Hok as [-> Hlt]. apply wp_ret. left. split; [|split; [|split]].
      * exists [], out, done, rest', todo. split; [done|]. fields.
        by apply (at_store_size _ _ _ _ _ _ (pre ++ a)).
      * unfold d1. fields. lia.
      * left. fields. destruct R'. cbn [ds_src length] in *. lia.
      * unfold d1. fields. rewrite Hst. set_solver.
Qed.

Lemma getCBlockSize_spec st m (s out done rest todo : list byte) :
  running st m s out done rest todo → accounted (ds_dctx st) done →
  dict_at (ds_dctx st) m dst0 done out → frame_rest done rest todo →
  wp (stage_getCBlockSize st srcEnd dstEnd) (outcome_ok (16 * zlen s + 2)) m.
Proof.
  intros R A D Hr. pose proof R as [R1 R2 R3 R4 R5 R6 R7 R8 R9 R10].
  pose proof (frame_rest_length _ _ _ Hr) as Hlr. pose proof (io_size _ _ _ _ _ _ R2) as [_ Hs].
  unfold stage_getCBlockSize. rewrite usize_fits by lia. rewrite Z.geb_leb. unfold BHSize.
  destruct (Z.leb_spec 4 (srcEnd - ds_src st)) as [H4|H4].
  - assert (H4' : zlen (take 4 s) = 4) by (rewrite length_take_le; lia).
    rewrite <- (take_drop 4 s) in R, R6, R2. rewrite <- app_assoc in R6.
    destruct (stream_split _ _ _ _ R6 ltac:(lia)) as (rest' & -> & Hs').
    pose proof (io_src _ _ _ _ _ _ R2) as [Hb _]%bytes_at_app.
    apply (running_read _ (ds_dctx st) (ds_src st)) in R; [|done]. rewrite H4' in R.
    eapply (decodeCBlockSize_spec (DState (ds_dctx st) (ds_src st + 4) (ds_dst st) (ds_src st)) m _ (take 4 s));
      [exact R|done|done|done|lia|done|]. rewrite length_drop. lia.
  - eapply (storeCBlockSize_spec (DState _ _ _ _) m []); fields; try done.
    + constructor; try done. same R3.
    + same A.
    + by eapply dict_at_same; [..|exact D].
Qed.

(** The dictionary after output that went to the destination. *)
Lemma update_linked_spec d m (src : Z) (s out u done : list byte) :
  frame_ctx d → buffers_ok m → io_ok m src s dst0 dstEnd (out ++ u) → dict_at d m dst0 done out →
  wp (update_linked d (dst0 + zlen out) (zlen u) dst0 false)
     (λ d' m', dict_changed d d' ∧ frame bout (bout + cap) m m' ∧
        dict_at d' m' dst0 (done ++ u) (out ++ u)) m.
Proof.
  intros X B I D. unfold update_linked. rewrite (linked_eq d X). destruct linked eqn:Hl.
  - pose proof (dict_layout_of d m _ _ _ _ _ Hl X B I) as L.
    eapply wp_mono; [apply (updateDict_spec d m dst0 dstEnd done out u L (D Hl))|].
    intros d' m' (Hd & F & K). rewrite (fx_out _ X), (fx_cap _ X) in F.
    split; [done|]. split; [done|]. by intros _.
  - apply wp_ret. split; [exists (d_dict d), (d_dictSize d); by destruct d|].
    split; [reflexivity|]. intros H. congruence.
Qed.

Lemma frame_ctx_dict d d' : dict_changed d d' → frame_ctx d → frame_ctx d'.
Proof. intros (p & n & ->) X. same X. Qed.

Lemma accounted_dict d d' (a : list byte) : dict_changed d d' → accounted d a → accounted d' a.
Proof. intros (p & n & ->) A. same A. Qed.

(** New output [u], which is in place, has been counted and summed: the
    dictionary follows. *)
Lemma deliver_spec st d m (s out u done rest todo : list byte) :
  running st m s out done rest (u ++ todo) → frame_ctx d → dict_at d m dst0 done out →
  accounted d (done ++ u) → bytes_at m (dst0 + zlen out) u → dst0 + zlen (out ++ u) ≤ dstEnd →
  wp (update_linked d (dst0 + zlen out) (zlen u) dst0 false)
     (λ d' m', dict_changed d d' ∧ frame_ctx d' ∧ accounted d' (done ++ u) ∧
        dict_at d' m' dst0 (done ++ u) (out ++ u) ∧
        ∀ d'' sel, frame_ctx d'' →
        running (DState d'' (ds_src st) (dst0 + zlen (out ++ u)) sel) m' s (out ++ u) (done ++ u) rest todo) m.
Proof.
  intros R X D A Hu Hroom. pose proof R as [R1 R2 R3 R4 R5 R6 R7 R8 R9 R10].
  pose proof (io_ok_write _ _ _ _ _ _ _ R2 Hu Hroom) as I.
  eapply wp_mono; [by eapply (update_linked_spec d m _ s out u done)|].
  intros d' m' (Hd & F & D'). split; [done|]. split; [by eapply frame_ctx_dict|].
  split; [by eapply accounted_dict|]. split; [done|].
  apply (running_frame _ _ m' bout (bout + cap)) in R as [Q1 Q2 Q3 Q4 Q5 Q6 Q7 Q8 Q9 Q10]; [|done|lia].
  intros d'' sel X''. constructor; fields; try done.
  - eapply io_ok_frame; [exact I|exact F|]. unfold writable. lia.
  - rewrite R7. by rewrite app_assoc.
  - by rewrite <- app_assoc.
Qed.

Lemma copyDirect_spec st m (r s out done rest todo : list byte) :
  running st m s out done (r ++ rest) (r ++ todo) → accounted (ds_dctx st) done →
  dict_at (ds_dctx st) m dst0 done out → dStage (ds_dctx st) = dstage_copyDirect →
  tmpInTarget (ds_dctx st) = zlen r → 0 < zlen r ≤ bs → frame_rest (done ++ r) rest todo →
  wp (stage_copyDirect st srcEnd dst0 dstEnd) (outcome_ok (16 * zlen s + 2)) m.
Proof.
  intros R A D Hst Ht Hr Hrest. pose proof R as [R1 R2 R3 R4 R5 R6 R7 R8 R9 R10].
  pose proof R2 as [I1 I2 I3 I4 I5 I6 I7 I8 I9 I10 I11].
  pose proof (block_size_range _ (bo_info _ R1)) as Hbs. fold bs in Hbs. unfold KB in Hbs.
  unfold stage_copyDirect. rewrite Ht, R5.
  rewrite (usize_fits (srcEnd - ds_src st)), (usize_fits (dstEnd - _)) by lia.
  set (k1 := if srcEnd - ds_src st <? zlen r then _ else _).
  assert (Hk1 : k1 = Z.min (zlen r) (zlen s)).
  { unfold k1. destruct (Z.ltb_spec (srcEnd - ds_src st) (zlen r)); lia. }
  set (k := if _ <? k1 then _ else _).
  assert (Hk : k = Z.min (Z.min (zlen r) (zlen s)) (dstEnd - (dst0 + zlen out))).
  { unfold k. destruct (Z.ltb_spec (dstEnd - (dst0 + zlen out)) k1); lia. }
  clearbody k. clear k1 Hk1.
  assert (Hsplit : ∃ u s' r', s = u ++ s' ∧ r = u ++ r' ∧ k = zlen u).
  { exists (take (Z.to_nat k) s), (drop (Z.to_nat k) s), (drop (Z.to_nat k) r).
    rewrite take_drop. split; [done|]. split; [|rewrite length_take_le; lia].
    rewrite <- (take_drop (Z.to_nat k) s), <- app_assoc in R6. rewrite <- (app_assoc r) in R6.
    destruct (stream_split _ _ _ _ R6) as (q' & Hq & _); [rewrite length_take_le; lia|].
    rewrite Hq at 2. rewrite drop_app_length'; [done|]. rewrite length_take_le; lia. }
  destruct Hsplit as (u & s' & r' & -> & -> & ->). rewrite <- !app_assoc in *.
  rewrite !length_app in *.
  apply bytes_at_app in I1 as [Iu _]. unfold apart in *.
  wp_apply memcpy_spec; [lia|solve_mapped|solve_mapped|]. intros _ m1 [F1 C1].
  apply (running_frame _ _ m1 (dst0 + zlen out) (dst0 + zlen out + zlen u)) in R as R'; [|done|lia].
  assert (Hu1 : bytes_at m1 (ds_src st) u) by (eapply bytes_at_frame; [exact F1|lia|done]).
  destruct (account_run (ds_dctx st) m1 (ds_src st) done u R3 (bo_info _ R1) A Hu1)
    as (h & rem & Hacc & A1); try done.
  { exists (r' ++ todo). by rewrite <- app_assoc. }
  { lia. }
  eapply wp_run; [exact Hacc|].
  eapply wp_seq; [apply (deliver_spec st _ m1 (u ++ s') out u done (u ++ r' ++ rest) (r' ++ todo)); try done|].
  - same R3.
  - eapply dict_at_same; [..|eapply dict_at_frame; [exact D|exact R3|exact R1|exact R2|exact F1|lia]]; done.
  - eapply bytes_at_copy; [|exact Iu]. done.
  - rewrite length_app. lia.
  - intros d2 m2 ((p & n & ->) & X2 & A2 & D2 & HR).
    assert (HR' : ∀ d'' sel, frame_ctx d'' →
      running (DState d'' (ds_src st + zlen u) (dst0 + zlen out + zlen u) sel) m2 s' (out ++ u) (done ++ u)
        (r' ++ rest) (r' ++ todo)).
    { intros d'' sel X''. specialize (HR d'' sel X'').
      apply (running_read _ d'' sel) in HR; [|done]. cbn [ds_src ds_dst] in HR.
      rewrite length_app in HR. by replace (dst0 + Z.of_nat (length out + length u))
        with (dst0 + zlen out + zlen u) in HR by lia. }
    fields. rewrite Ht. destruct (Z.eqb_spec (zlen u) (Z.of_nat (length u + length r'))) as [He|He];
      apply wp_ret.
    + assert (r' = []) as -> by (destruct r'; [done|cbn [length] in He; lia]).
      rewrite app_nil_r in *. cbn [app] in *. split; [|unfold work; fields; cbn [rank]; lia].
      exists s', (out ++ u), (done ++ u), rest, todo. split; [apply HR'; same X2|]. fields.
      apply at_size; try done; [same A2|]. by eapply dict_at_same; [..|exact D2].
    + left. rewrite (usize_fits (_ - zlen u)) by lia. unfold BHSize. fields.
      rewrite usize_fits by lia. split; [|split; [lia|split]].
      * exists s', (out ++ u), (done ++ u), (r' ++ rest), (r' ++ todo). split; [apply HR'; same X2|].
        fields. apply at_direct; try done; fields; try lia.
        -- same A2.
        -- by eapply dict_at_same; [..|exact D2].
        -- by rewrite <- app_assoc.
      * fields. rewrite Hst.
        destruct (decide (ds_src st + zlen u = srcEnd)); [by left|right]. split; [lia|set_solver].
      * fields. rewrite Hst. set_solver.
Qed.

Lemma getCBlock_spec st m (b y s out done rest todo : list byte) :
  running st m s out done (b ++ rest) (y ++ todo) → accounted (ds_dctx st) done →
  dict_at (ds_dctx st) m dst0 done out → tmpInTarget (ds_dctx st) = zlen b → cblock done b y →
  frame_rest (done ++ y) rest todo →
  wp (stage_getCBlock st srcEnd) (outcome_ok (16 * zlen s + 7)) m.
Proof.
  intros R A D Ht Hc Hrest. pose proof R as [R1 R2 R3 R4 R5 R6 R7 R8 R9 R10].
  pose proof R2 as [I1 I2 I3 I4 I5 I6 I7 I8 I9 I10 I11].
  unfold stage_getCBlock. rewrite Ht, usize_fits by lia. unfold apart in *.
  destruct (Z.ltb_spec (srcEnd - ds_src st) (zlen b)) as [Hlt|Hge]; apply wp_ret.
  - split; [|unfold work; fields; cbn [rank]; lia].
    exists s, out, done, (b ++ rest), (y ++ todo). split; [constructor; try done; same R3|]. fields.
    apply (at_store_block _ _ _ _ _ _ []); try done; [same A| |apply (cb_size _ _ _ Hc)].
    by eapply dict_at_same; [..|exact D].
  - rewrite <- (app_assoc b) in R6. symmetry in R6.
    destruct (stream_split _ _ _ _ R6) as (s' & -> & Hs'); [lia|].
    apply bytes_at_app in I1 as [Ib _]. rewrite length_app in *. pose proof (cb_size _ _ _ Hc).
    split; [|unfold work; fields; cbn [rank]; lia].
    exists s', out, done, rest, (y ++ todo). split; [apply running_read; [done|same R3]|]. fields.
    apply (at_decode _ _ _ _ _ _ b); try done.
    + by left.
    + same A.
    + by eapply dict_at_same; [..|exact D].
    + constructor; unfold apart; try done; lia.
Qed.

Lemma storeCBlock_spec st m (pre b y s out done rest todo : list byte) :
  running st m s out done (b ++ rest) (y ++ todo) → accounted (ds_dctx st) done →
  dict_at (ds_dctx st) m dst0 done out → dStage (ds_dctx st) = dstage_storeCBlock →
  tmpInTarget (ds_dctx st) = zlen (pre ++ b) → d_tmpInSize (ds_dctx st) = zlen pre → 0 < zlen b →
  bytes_at m bin pre → cblock done (pre ++ b) y → frame_rest (done ++ y) rest todo →
  wp (stage_storeCBlock st srcEnd) (outcome_ok (16 * zlen s + 6)) m.
Proof.
  intros R A D Hst Ht Hsz Hpos Hb Hc Hrest. pose proof R as [R1 R2 R3 R4 R5 R6 R7 R8 R9 R10].
  pose proof R2 as [I1 I2 I3 I4 I5 I6 I7 I8 I9 I10 I11]. pose proof (cb_size _ _ _ Hc) as Hcs.
  pose proof R1 as [B1 B2 B3 B4 B5 B6]. pose proof (block_size_range _ B1) as Hbs. fold bs in Hbs.
  unfold stage_storeCBlock. rewrite (fx_in _ R3), Ht. unfold apart, KB in *.
  pose proof (length_app pre b) as Hpb.
  eapply wp_seq; [apply (gather_spec st m bin (zlen (pre ++ b)) srcEnd pre s); try done; unfold apart|].
  - lia.
  - apply I11.
  - solve_mapped.
  - lia.
  - intros [st' ok] m1 (a & s' & -> & Hle & -> & Hok & F1 & B1').
    apply (running_frame _ _ m1 bin (bin + zlen (pre ++ b))) in R as R'; [|done|lia].
    assert (D1 : dict_at (ds_dctx st) m1 dst0 done out).
    { eapply dict_at_frame; [exact D|exact R3|exact R1|exact R2|exact F1|lia]. }
    pose proof (length_app pre a) as Hpa. rewrite (length_app a s') in *.
    destruct (stream_split a (s' ++ later) b (rest ++ extra)) as (b' & -> & Hs').
    { rewrite app_assoc, R6. by rewrite app_assoc. }
    { lia. }
    rewrite <- app_assoc in R'. pose proof (length_app a b') as Hab.
    apply (running_read _ (set_in (ds_dctx st) (zlen (pre ++ a)) (tmpInTarget (ds_dctx st)))
      (ds_sel st)) in R'; [|same R3].
    fields. destruct ok; cbn [negb]; fields; apply wp_ret.
    + assert (b' = []) as -> by (destruct b'; [done|cbn [length] in *; lia]).
      rewrite app_nil_r in *. destruct R' as [Q1 Q2 Q3 Q4 Q5 Q6 Q7 Q8 Q9 Q10].
      split; [|unfold work; fields; cbn [rank]; lia].
      exists s', out, done, rest, (y ++ todo). split; [constructor; try done; same R3|]. fields.
      apply (at_decode _ _ _ _ _ _ (pre ++ a)); try done.
      * by left.
      * same A.
      * by eapply dict_at_same; [..|exact D1].
      * rewrite (fx_in _ R3). constructor; unfold apart; try done; lia.
    + destruct Hok as [-> Hlt]. left. unfold BHSize.
      rewrite usize_fits by lia. split; [|split; [lia|split]].
      * exists [], out, done, (b' ++ rest), (y ++ todo). split; [done|]. fields.
        apply (at_store_block _ _ _ _ _ _ (pre ++ a)); try done; fields.
        -- same A.
        -- by eapply dict_at_same; [..|exact D1].
        -- by rewrite <- app_assoc.
        -- lia.
        -- by rewrite <- app_assoc.
      * left. fields. cbn [length] in *. lia.
      * fields. rewrite Hst. set_solver.
Qed.

Lemma decodeCBlock_spec st m (b y s out done rest todo : list byte) :
  running st m s out done rest (y ++ todo) → accounted (ds_dctx st) done →
  dict_at (ds_dctx st) m dst0 done out → tmpInTarget (ds_dctx st) = zlen b →
  selected m (ds_sel st) b dst0 dstEnd → cblock done b y → frame_rest (done ++ y) rest todo →
  wp (stage_decodeCBlock st dstEnd) (outcome_ok (16 * zlen s + 5)) m.
Proof.
  intros R A D Ht Hsel Hc Hrest. pose proof R as [R1 R2 R3 R4 R5 R6 R7 R8 R9 R10].
  pose proof R2 as [I1 I2 I3 I4 I5 I6 I7 I8 I9 I10 I11].
  unfold stage_decodeCBlock. apply wp_ret. rewrite (fx_block _ R3), R5, usize_fits by lia.
  set (stg := if _ <? _ then _ else _).
  split; [|unfold work, stg; fields; case_if; cbn [rank]; lia].
  exists s, out, done, rest, (y ++ todo). split; [constructor; try done; same R3|]. fields.
  apply (at_decode _ _ _ _ _ _ b); try done; fields.
  - unfold stg. destruct (Z.ltb_spec (dstEnd - (dst0 + zlen out)) bs); [by right; right|].
    right. left. split; [done|lia].
  - same A.
  - by eapply dict_at_same; [..|exact D].
Qed.

(** The decoder of the frame's mode on a block of the frame. *)
Lemma decoder_for_spec d m (sel dest : Z) (b y done out : list byte) :
  frame_ctx d → info_ok fi → cblock done b y → dict_at d m dst0 done out → bytes_at m sel b →
  mapped m dest bs → apart sel (zlen b) dest bs → 0 ≤ sel ≤ ADDR_MAX → 0 ≤ dest ≤ ADDR_MAX →
  (linked = true → d_dictSize d < 2 ^ 31 ∧
     (d_dict d + d_dictSize d = dest ∨ apart dest bs (d_dict d) (d_dictSize d))) →
  wp (decoder_for d sel dest (s32 (zlen b)) (s32 (d_maxBlockSize d)) (d_dict d) (s32 (d_dictSize d)))
     (λ r m', r = zlen y ∧ frame dest (dest + bs) m m' ∧ bytes_at m' dest y) m.
Proof.
  intros X Hok [(seqs & l & -> & He & Ht) Hb Hy] D Hbytes Hm Hap Hs Hd Hdict.
  pose proof (block_size_range _ Hok) as Hbs. fold bs in Hbs. unfold KB in *.
  assert (Ha : addressable sel dest (zlen (block seqs l)) bs) by (unfold addressable, ADDR_MAX in *; lia).
  unfold decoder_for. rewrite (linked_eq d X), (fx_block _ X), (s32_small (zlen _)), (s32_small bs) by lia.
  destruct linked eqn:Hl.
  - destruct (Hdict eq_refl) as [Hsmall Hplace]. destruct (D Hl) as [K1 K2 K3 K4 K5].
    rewrite s32_small by lia.
    eapply wp_mono; [apply (usingDict_spec m sel dest bs _ _ done seqs l y); try done; lia|].
    by intros r m' (F & Hy' & ->).
  - unfold LZ4F_decompress_safe, LZ4_decompress_safe.
    eapply wp_mono; [apply (decompress_generic_block m sel dest _ bs endOnInputSize noDict dest NULL 0
      [] seqs l y Ha); try done; simpl; lia|]. by intros r m' (F & Hy' & ->).
Qed.

Lemma intoDst_spec st m (b y s out done rest todo : list byte) :
  running st m s out done rest (y ++ todo) → accounted (ds_dctx st) done →
  dict_at (ds_dctx st) m dst0 done out → tmpInTarget (ds_dctx st) = zlen b →
  selected m (ds_sel st) b dst0 dstEnd → cblock done b y → frame_rest (done ++ y) rest todo →
  bs ≤ dstEnd - (dst0 + zlen out) →
  wp (stage_intoDst st dst0) (outcome_ok (16 * zlen s + 4)) m.
Proof.
  intros R A D Ht [S1 S2 S3 S4] Hc Hrest Hroom. pose proof R as [R1 R2 R3 R4 R5 R6 R7 R8 R9 R10].
  pose proof R2 as [I1 I2 I3 I4 I5 I6 I7 I8 I9 I10 I11]. pose proof R1 as [B1 B2 B3 B4 B5 B6].
  pose proof (cb_text _ _ _ Hc) as Hy. pose proof (block_size_range _ B1) as Hbs. fold bs in Hbs.
  unfold stage_intoDst. rewrite Ht, R5. unfold apart, KB in *.
  eapply wp_seq; [apply (decoder_for_spec (ds_dctx st) m (ds_sel st) _ b y done out); try done; unfold apart|].
  - solve_mapped.
  - lia.
  - lia.
  - lia.
  - intros Hl. destruct (D Hl) as [_ _ _ _ K5]. rewrite (fx_out _ R3), (fx_cap _ R3) in K5. lia.
  - intros r m1 (-> & F1 & Hy1). destruct (Z.ltb_spec (zlen y) 0); [lia|].
    apply (running_frame _ _ m1 (dst0 + zlen out) (dst0 + zlen out + bs)) in R as R'; [|done|lia].
    destruct (account_run (ds_dctx st) m1 (dst0 + zlen out) done y R3 B1 A Hy1)
      as (h & rem & Hacc & A1); try done.
    { exists todo. by rewrite <- app_assoc. }
    { lia. }
    eapply wp_run; [exact Hacc|]. pose proof (length_app out y).
    eapply wp_seq; [apply (deliver_spec st _ m1 s out y done rest todo); try done|].
    + same R3.
    + eapply dict_at_same; [..|eapply dict_at_frame; [exact D|exact R3|exact R1|exact R2|exact F1|lia]]; done.
    + lia.
    + intros d2 m2 (_ & X2 & A2 & D2 & HR). apply wp_ret.
      split; [|unfold work; fields; cbn [rank]; lia].
      exists s, (out ++ y), (done ++ y), rest, todo.
      replace (dst0 + zlen out + zlen y) with (dst0 + zlen (out ++ y)) by lia.
      split; [apply HR; same X2|]. fields. apply at_size; try done; [same A2|].
      by eapply dict_at_same; [..|exact D2].
Qed.

(** The place of [tmpOut], in both modes. *)
Lemma place_spec d m (src : Z) (s out done : list byte) :
  frame_ctx d → buffers_ok m → io_ok m src s dst0 dstEnd out → dict_at d m dst0 done out →
  wp (place_tmpOut d)
     (λ d' m', (∃ p n o, d' = set_out (set_dict d p n) o (tmpOutSize d) (tmpOutStart d)) ∧
        (linked = false → d' = d) ∧
        frame_ctx d' ∧ frame bout (bout + cap) m m' ∧ dict_at d' m' dst0 done out ∧
        bout ≤ tmpOut d' ∧ tmpOut d' + bs ≤ bout + cap ∧
        (linked = true →
          Z.min (zlen done) (KB 64) ≤ tmpOut d' - bout ∧
          (d_dict d' = bout ∧ d_dict d' + d_dictSize d' = tmpOut d' ∨
           dst0 ≤ d_dict d' ∧ d_dict d' + d_dictSize d' = dst0 + zlen out ∧
           tmpOut d' - bout ≤ d_dictSize d'))) m.
Proof.
  clear Hsize Hlen. intros R3 R1 R2 D. destruct linked eqn:Hl.
  - pose proof (dict_layout_of _ _ _ _ _ _ _ Hl R3 R1 R2) as L.
    eapply wp_mono; [apply (place_tmpOut_spec _ m dst0 dstEnd done out); [by rewrite linked_eq|exact L|by apply D]|].
    rewrite (fx_out _ R3), (fx_cap _ R3), (fx_block _ R3).
    intros d' m' ((p & n & o & Hd) & F & K & Hlead & Hhigh & Hpl).
    split; [by exists p, n, o|]. split; [done|].
    split; [rewrite Hd; destruct R3; constructor; fields; try done; congruence|].
    unfold KB in *. split; [done|]. split; [by intros _|]. split; [lia|]. split; [lia|].
    intros _. split; [lia|done].
  - unfold place_tmpOut. rewrite (linked_eq _ R3), Hl. apply wp_ret.
    split; [exists (d_dict d), (d_dictSize d), (tmpOut d); by destruct d|]. split; [done|].
    rewrite (fx_tmpOut _ R3 Hl). pose proof (bo_cap _ R1) as Hcap. unfold needed in Hcap. fold bs linked in Hcap.
    rewrite Hl in Hcap. simpl b2i in Hcap. split_and!; (done || lia || reflexivity).
Qed.

Lemma intoTmp_spec st m (b y s out done rest todo : list byte) :
  running st m s out done rest (y ++ todo) → accounted (ds_dctx st) done →
  dict_at (ds_dctx st) m dst0 done out → tmpInTarget (ds_dctx st) = zlen b →
  selected m (ds_sel st) b dst0 dstEnd → cblock done b y → frame_rest (done ++ y) rest todo →
  wp (stage_intoTmp st) (outcome_ok (16 * zlen s + 4)) m.
Proof.
  intros R A D Ht [S1 S2 S3 S4] Hc Hrest. unfold stage_intoTmp.
  eapply wp_seq; [by apply (place_spec _ m _ s out done (rn_ctx _ _ _ _ _ _ _ R) (rn_buf _ _ _ _ _ _ _ R)
    (rn_io _ _ _ _ _ _ _ R))|].
  intros d1 m1 ((p & n & o & Hd1) & _ & X1 & F1 & D1 & Hlow & Hhigh & Hlead).
  apply (running_frame _ _ m1 bout (bout + cap)) in R as R'; [|done|lia].
  pose proof R' as [R1 R2 R3 R4 R5 R6 R7 R8 R9 R10]. pose proof R1 as [B1 B2 B3 B4 B5 B6].
  pose proof R2 as [I1 I2 I3 I4 I5 I6 I7 I8 I9 I10 I11].
  pose proof (cb_text _ _ _ Hc) as Hy. pose proof (block_size_range _ B1) as Hbs. fold bs in Hbs.
  assert (A1 : accounted d1 done) by (rewrite Hd1; same A).
  assert (Ht1 : tmpInTarget d1 = zlen b) by (by rewrite Hd1).
  rewrite Ht1. unfold apart, KB in *.
  eapply wp_seq; [apply (decoder_for_spec d1 m1 (ds_sel st) (tmpOut d1) b y done out); try done; unfold apart|].
  - eapply bytes_at_frame; [exact F1|lia|done].
  - solve_mapped.
  - lia.
  - lia.
  - lia.
  - intros Hl. destruct (Hlead Hl) as [_ Hpl]. destruct (D1 Hl) as [_ _ K3 _ K5].
    rewrite (fx_out _ X1), (fx_cap _ X1) in K5. lia.
  - intros r m2 (-> & F2 & Hy2). destruct (Z.ltb_spec (zlen y) 0); [lia|].
    apply (running_frame _ _ m2 (tmpOut d1) (tmpOut d1 + bs)) in R' as R''; [|done|lia].
    destruct (account_run d1 m2 (tmpOut d1) done y X1 B1 A1 Hy2) as (h & rem & Hacc & A2); try done.
    { exists todo. by rewrite <- app_assoc. }
    { lia. }
    eapply wp_run; [exact Hacc|]. apply wp_ret. fields.
    split; [|unfold work; fields; cbn [rank]; lia].
    exists s, out, done, rest, (y ++ todo). destruct R'' as [Q1 Q2 Q3 Q4 Q5 Q6 Q7 Q8 Q9 Q10].
    split; [constructor; try done; same X1|]. fields.
    apply (at_flush _ _ _ _ _ _ done []); try done.
    + same A2.
    + by rewrite app_nil_r.
    + intros ->. cbn [length] in *. lia.
    + constructor; fields; cbn [app length]; try done; try lia. intros Hl.
      destruct (Hlead Hl) as [Hmin Hpl].
      pose proof (dict_layout_of d1 m1 _ _ _ _ _ Hl X1 R1 R2) as L.
      destruct (flush_ok_start d1 m1 m2 dst0 dstEnd (zlen y) done out L (D1 Hl)) as [O1 O2 O3 O4 O5 O6];
        rewrite ?(fx_out _ X1), ?(fx_cap _ X1), ?(fx_block _ X1); unfold KB; try done; try lia.
Qed.

(** A part [u] of the decoded block is in the destination. *)
Lemma flush_step d m (src : Z) (s t f u pend out : list byte) :
  frame_ctx d → buffers_ok m → io_ok m src s dst0 dstEnd (out ++ u) →
  flushing d m dst0 t f (u ++ pend) out →
  ∃ d', update_linked d (dst0 + zlen out) (zlen u) dst0 true m = Ret d' m ∧ dict_changed d d' ∧
    (linked = true → flush_ok d' m dst0 t (f ++ u) (zlen (f ++ u ++ pend)) (out ++ u)).
Proof.
  clear Hsize Hlen. intros X B I [G1 G2 G3 G4 G5 G6 G7]. unfold update_linked. rewrite (linked_eq d X).
  destruct linked eqn:Hl.
  - pose proof (dict_layout_of d m _ _ _ _ _ Hl X B I) as L.
    destruct (updateDict_tmp d m dst0 dstEnd (zlen (f ++ u ++ pend)) t f u out L (G7 eq_refl))
      as (d' & Hrun & Hd & O); [rewrite !length_app; lia|]. by exists d'.
  - exists d. split; [done|]. split; [exists (d_dict d), (d_dictSize d); by destruct d|done].
Qed.

(** Writes to the free part of the destination do not disturb it. *)
Lemma flushing_frame d m m' (src lo hi : Z) (s t f pend out : list byte) :
  flushing d m dst0 t f pend out → frame_ctx d → buffers_ok m → io_ok m src s dst0 dstEnd out →
  frame lo hi m m' → dst0 + zlen out ≤ lo → hi ≤ dstEnd → flushing d m' dst0 t f pend out.
Proof.
  clear Hsize Hlen. intros [G1 G2 G3 G4 G5 G6 G7] X [B1 B2 B3 B4 B5 B6] [I1 I2 I3 I4 I5 I6 I7 I8 I9 I10 I11] F Hlo Hhi.
  constructor; try done.
  - eapply bytes_at_frame; [exact F|lia|done].
  - intros Hl. destruct (G7 Hl) as [O1 O2 O3 O4 O5 O6]. constructor; try done.
    rewrite (fx_out _ X), (fx_cap _ X) in *.
    destruct O6 as [(P1 & P2 & P3)|(P1 & P2 & P3 & P4 & P5)]; [left|right].
    + split; [done|]. split; [done|]. eapply tail_at_frame; [exact F| |exact P3]. unfold KB in *. lia.
    + split; [done|]. split; [done|]. split; [|done]. eapply tail_at_frame; [exact F| |exact P3]. lia.
Qed.

Lemma flushOut_spec st m (t f pend s out done rest todo : list byte) :
  running st m s out done rest (pend ++ todo) → accounted (ds_dctx st) (done ++ pend) →
  dStage (ds_dctx st) = dstage_flushOut → done = t ++ f → pend ≠ [] →
  flushing (ds_dctx st) m dst0 t f pend out → frame_rest (done ++ pend) rest todo →
  wp (stage_flushOut st dst0 dstEnd) (outcome_ok (16 * zlen s + 3)) m.
Proof.
  intros R A Hst Hdone Hne G Hrest. pose proof R as [R1 R2 R3 R4 R5 R6 R7 R8 R9 R10].
  pose proof R2 as [I1 I2 I3 I4 I5 I6 I7 I8 I9 I10 I11]. pose proof R1 as [B1 B2 B3 B4 B5 B6].
  pose proof (block_size_range _ B1) as Hbs. fold bs in Hbs. unfold KB in Hbs.
  pose proof G as [G1 G2 G3 G4 G5 G6 G7]. pose proof (length_app f pend) as Hfp.
  unfold stage_flushOut. rewrite G2, G3, R5.
  rewrite (usize_fits (_ - zlen f)), (usize_fits (dstEnd - _)) by lia. rewrite Z.gtb_ltb.
  set (k := if _ <? _ then _ else _).
  assert (Hk : k = Z.min (zlen pend) (dstEnd - (dst0 + zlen out))).
  { unfold k. destruct (Z.ltb_spec (dstEnd - (dst0 + zlen out)) (zlen (f ++ pend) - zlen f)); lia. }
  clearbody k.
  assert (Hsplit : ∃ u pend', pend = u ++ pend' ∧ k = zlen u).
  { exists (take (Z.to_nat k) pend), (drop (Z.to_nat k) pend). rewrite take_drop. split; [done|].
    rewrite length_take_le; lia. }
  destruct Hsplit as (u & pend' & -> & ->). rewrite (length_app u pend') in *.
  pose proof (length_app out u) as Hou. pose proof (length_app f u) as Hfu.
  apply bytes_at_app in G1 as [_ G1]. apply bytes_at_app in G1 as [Gu _].
  wp_apply memcpy_spec; [lia|solve_mapped|solve_mapped|]. intros _ m1 [F1 C1].
  apply (running_frame _ _ m1 (dst0 + zlen out) (dst0 + zlen out + zlen u)) in R as R'; [|done|lia].
  destruct R' as [Q1 Q2 Q3 Q4 Q5 Q6 Q7 Q8 Q9 Q10].
  assert (Hu1 : bytes_at m1 (dst0 + zlen out) u) by (eapply bytes_at_copy; [|exact Gu]; done).
  pose proof (io_ok_write _ _ _ _ _ _ _ Q2 Hu1 ltac:(lia)) as I'.
  assert (G' : flushing (ds_dctx st) m1 dst0 t f (u ++ pend') out).
  { eapply flushing_frame; [exact G|exact R3|exact R1|exact R2|exact F1|lia|lia]. }
  destruct (flush_step _ _ _ _ _ _ _ _ _ Q3 Q1 I' G') as (d2 & Hrun & (p & n & Hd2) & O2).
  eapply wp_run; [exact Hrun|]. set (d3 := set_out _ _ _ _).
  assert (X3 : frame_ctx d3) by (unfold d3; rewrite Hd2; same R3).
  assert (A3 : accounted d3 (done ++ u ++ pend')) by (unfold d3; rewrite Hd2; same A).
  assert (E3 : tmpOut d3 = tmpOut (ds_dctx st) ∧ tmpOutSize d3 = zlen (f ++ u ++ pend') ∧
               tmpOutStart d3 = zlen (f ++ u)).
  { unfold d3. rewrite Hd2. fields. rewrite G2, G3, usize_fits by lia. split_and!; (done || lia). }
  destruct E3 as (Eo & Es & Et). pose proof (length_app (f ++ u) pend') as Hl3.
  assert (HR : ∀ d'' sel, frame_ctx d'' → running (DState d'' (ds_src st) (dst0 + zlen out + zlen u) sel)
    m1 s (out ++ u) (done ++ u) rest (pend' ++ todo)).
  { intros d'' sel X''. constructor; fields; try done; [lia|by rewrite R7, app_assoc|].
    by rewrite <- !app_assoc in *. }
  assert (G3' : flushing d3 m1 dst0 t (f ++ u) pend' (out ++ u)).
  { destruct G' as [G1' _ _ _ _ _ _].
    constructor; rewrite <- ?app_assoc, ?Eo; try done. intros Hl. destruct (O2 Hl) as [O21 O22 O23 O24 O25 O26].
    constructor; fields; done. }
  rewrite Es, Et. destruct (Z.eqb_spec (zlen (f ++ u)) (zlen (f ++ u ++ pend'))) as [He|He]; apply wp_ret.
  - assert (pend' = []) as ->.
    { rewrite (app_assoc f) in He. destruct pend'; [done|]. cbn [length] in Hl3. lia. }
    rewrite app_nil_r in *. split; [|unfold work; fields; cbn [rank]; lia].
    exists s, (out ++ u), (done ++ u), rest, todo. split; [apply HR; same X3|]. fields.
    apply at_size; [done|same A3| |done]. intros Hl. destruct G3' as [G31 _ _ _ _ _ G37].
    rewrite app_nil_r in G31, G37. eapply dict_ok_same; [..|subst done; rewrite <- app_assoc;
      apply (flush_ok_end d3 m1 dst0 t (f ++ u) (out ++ u) (G37 Hl) G31)]; done.
  - left. rewrite (app_assoc f) in He. split; [|split; [unfold BHSize; lia|split]].
    + exists s, (out ++ u), (done ++ u), rest, (pend' ++ todo). split; [by apply HR|]. fields.
      apply (at_flush _ _ _ _ _ _ t (f ++ u)); try done.
      * unfold d3. rewrite Hd2. by fields.
      * by rewrite <- app_assoc.
      * subst done. by rewrite app_assoc.
      * intros ->. by rewrite app_nil_r in He.
      * by rewrite <- app_assoc.
    + right. fields. unfold d3. rewrite Hd2. fields. rewrite Hst. split; [lia|set_solver].
    + unfold d3. rewrite Hd2. fields. rewrite Hst. set_solver.
Qed.

(** * The end of a frame *)

Lemma avalanche32_range (h : Z) : 0 ≤ avalanche32 h < 2 ^ 32.
Proof.
  unfold avalanche32. set (g := u32 (_ * PRIME32_3)).
  assert (Hg : 0 ≤ g < 2 ^ 32) by apply u32_range.
  apply lxor_range; [lia|done|]. rewrite Z.shiftr_div_pow2 by lia.
  split; [apply Z.div_pos; lia|]. apply Z.div_lt_upper_bound; lia.
Qed.

Lemma xxh32_range (sd : Z) (l : list byte) : 0 ≤ xxh32 sd l < 2 ^ 32.
Proof.
  unfold xxh32, tail32. set (h := u32 _). set (l' := drop _ _).
  destruct (hash_all_words 4 step32_word h l') as [h1 l1].
  destruct (hash_all_words 1 step32_byte h1 l1) as [h2 l2]. apply avalanche32_range.
Qed.

(** The checksum at the end of the frame. *)
Definition sum_bytes : list byte := le_bytes 4 (xxh32 0 x).

Lemma suffix_flag (rest : list byte) :
  le_bytes 4 0 ++ rest = suffix_bytes fi x →
  rest = if contentChecksumFlag fi =? 0 then [] else sum_bytes.
Proof. unfold suffix_bytes. apply app_inv_head. Qed.

(** The end of the frame is reached. *)
Lemma complete_ok st m (s out : list byte) (w : Z) :
  running st m s out x [] [] → accounted (ds_dctx st) x →
  outcome_ok w (Stop (DState (set_stage (ds_dctx st) dstage_getHeader) (ds_src st) (ds_dst st)
                        (ds_sel st)) 0) m.
Proof.
  intros [R1 R2 R3 R4 R5 R6 R7 R8 R9 R10] A. right. split; [done|]. split; [done|].
  exists s, out. split; [constructor; try done; same R3|]. fields. rewrite (ac_left _ _ A).
  destruct (contentSize fi =? 0); lia.
Qed.

Lemma checkSuffix_spec st m (s out : list byte) (w : Z) :
  running st m s out x [] [] → accounted (ds_dctx st) x → contentChecksumFlag fi ≠ 0 →
  bytes_at m (ds_sel st) sum_bytes →
  wp (stage_checkSuffix st) (outcome_ok w) m.
Proof.
  intros R A Hf Hb. unfold stage_checkSuffix. rewrite <- (app_nil_r sum_bytes) in Hb.
  eapply wp_run; [apply (LE32_at _ _ _ _ Hb), xxh32_range|].
  rewrite (digest32_hashed 0 _ x (ac_sum _ _ A Hf)), Z.eqb_refl. cbn [negb]. apply wp_ret.
  by apply complete_ok with s out.
Qed.

Lemma storeSuffix_spec st m (pre s out rest : list byte) :
  running st m s out x rest [] → accounted (ds_dctx st) x → contentChecksumFlag fi ≠ 0 →
  dStage (ds_dctx st) = dstage_storeSuffix →
  d_tmpInSize (ds_dctx st) = zlen pre → zlen pre < 4 → bytes_at m bin pre → pre ++ rest = sum_bytes →
  wp (stage_storeSuffix st srcEnd) (outcome_ok (16 * zlen s + 2)) m.
Proof.
  intros R A Hf Hst Hsz Hpre Hb Hsum. pose proof R as [R1 R2 R3 R4 R5 R6 R7 R8 R9 R10].
  pose proof (block_size_range _ (bo_info _ R1)) as Hbs. fold bs in Hbs.
  pose proof (io_src_in _ _ _ _ _ _ R2) as Hap. unfold apart, KB in *.
  unfold stage_storeSuffix. rewrite (fx_in _ R3). pose proof (bo_in _ R1) as Hin.
  assert (H4 : zlen (pre ++ rest) = 4) by (rewrite Hsum; unfold sum_bytes; by rewrite length_le_bytes).
  rewrite (length_app pre rest) in H4.
  eapply wp_seq; [apply (gather_spec st m bin 4 srcEnd pre s); try done; unfold apart|].
  - lia.
  - apply (io_src _ _ _ _ _ _ R2).
  - apply (io_size _ _ _ _ _ _ R2).
  - solve_mapped.
  - lia.
  - intros [st' ok] m1 (a & s' & -> & Hle & -> & Hok & F1 & B1).
    apply (running_frame _ _ m1 bin (bin + 4)) in R as R'; [|done|left; lia].
    rewrite (length_app a s') in *. pose proof (length_app pre a) as Hn1.
    destruct (stream_split a (s' ++ later) rest extra) as (rest' & -> & Hs').
    { by rewrite app_assoc. }
    { lia. }
    apply (running_read _ (set_in (ds_dctx st) (zlen (pre ++ a)) (tmpInTarget (ds_dctx st)))
      (ds_sel st)) in R'; [|same R3].
    set (d1 := set_in _ _ _) in *. assert (A1 : accounted d1 x) by (same A).
    rewrite (length_app a rest') in H4. fields. destruct ok; cbn [negb].
    + assert (rest' = []) as -> by (destruct rest'; [done|cbn [length] in *; lia]).
      rewrite app_nil_r in Hsum. destruct R' as [Q1 Q2 Q3 Q4 Q5 Q6 Q7 Q8 Q9 Q10].
      assert (Hin1 : d_tmpIn d1 = bin) by apply (fx_in _ Q3).
      apply (checkSuffix_spec (DState d1 (ds_src st + zlen a) (ds_dst st) (d_tmpIn d1)) m1 s' out); try done.
      fields. by rewrite Hin1, <- Hsum.
    + destruct Hok as [-> Hlt]. apply wp_ret. left. split; [|split; [|split]].
      * exists [], out, x, rest', []. split; [done|]. fields.
        apply (at_store_suffix _ _ _ _ _ _ (pre ++ a)); try done.
        rewrite <- app_assoc, Hsum. unfold suffix_bytes. by destruct (Z.eqb_spec (contentChecksumFlag fi) 0).
      * unfold d1. fields. lia.
      * left. fields. destruct R'. cbn [ds_src length] in *. lia.
      * unfold d1. fields. rewrite Hst. set_solver.
Qed.

Lemma getSuffix_spec st m (s out rest : list byte) :
  running st m s out x rest [] → accounted (ds_dctx st) x → le_bytes 4 0 ++ rest = suffix_bytes fi x →
  wp (stage_getSuffix st srcEnd) (outcome_ok (16 * zlen s + 2)) m.
Proof.
  intros R A Hs. apply suffix_flag in Hs. pose proof R as [R1 R2 R3 R4 R5 R6 R7 R8 R9 R10].
  unfold stage_getSuffix. rewrite (fx_info _ R3), (ac_left _ _ A). pose proof (bo_info _ R1) as Hok.
  pose proof (io_check _ Hok) as Hcc.
  assert ((if contentSize fi =? 0 then 0 else zlen x - zlen x) = 0) as -> by (case_if; lia).
  cbn [Z.eqb negb]. destruct (Z.eqb_spec (contentChecksumFlag fi) 0) as [E|E].
  - rewrite E, Hs in *. cbn. apply wp_ret. by apply complete_ok with s out.
  - assert (contentChecksumFlag fi = 1) as E1 by lia.
    assert ((u32 (contentChecksumFlag fi * 4) =? 0) = false) as -> by (by rewrite E1).
    pose proof (length_le_bytes 4 (xxh32 0 x)) as Hl4. fold sum_bytes in Hl4.
    destruct (Z.ltb_spec (srcEnd - ds_src st) 4) as [Hlt|Hge].
    + apply (storeSuffix_spec (DState _ _ _ _) m [] s out rest); fields; try done.
      * constructor; try done. same R3.
      * same A.
    + subst rest. symmetry in R6.
      destruct (stream_split sum_bytes extra s later) as (s' & -> & Hs'); [done|lia|].
      pose proof (io_src _ _ _ _ _ _ R2) as [Hb _]%bytes_at_app.
      rewrite <- (app_nil_r sum_bytes) in R at 2.
      apply (running_read _ (ds_dctx st) (ds_src st)) in R; [|done]. rewrite Hl4 in R.
      by apply (checkSuffix_spec (DState _ _ _ _) m s' out).
Qed.

(** * The state machine *)

(** Every stage on a block of the frame moves on, stops for lack of input or of
    room, or completes the frame. *)
Lemma dstep_spec st m (newIn newOut : Z) :
  inv st m → wp (dstep ua st srcEnd dst0 dstEnd newIn newOut) (outcome_ok (work srcEnd st)) m.
Proof.
  intros (s & out & done & rest & todo & R & P). unfold work.
  replace (srcEnd - ds_src st) with (zlen s) by (pose proof (rn_src _ _ _ _ _ _ _ R); lia).
  unfold dstep. inversion P as [? ? ? Hst|? ? ? ? Hst|? ? ? ? Hst|? ? ? ? ? Hst|? ? ? ? ? ? Hst|
    ? ? ? ? ? [Hst|[[Hst Hroom]|Hst]]|? ? ? ? ? ? Hst|? Hst|? ? Hst]; subst; rewrite Hst; cbn [rank].
  - by apply getCBlockSize_spec with out done rest todo.
  - by apply storeCBlockSize_spec with pre out done rest todo.
  - by eapply copyDirect_spec.
  - by eapply getCBlock_spec.
  - by eapply storeCBlock_spec.
  - by eapply decodeCBlock_spec.
  - by eapply intoDst_spec.
  - by eapply intoTmp_spec.
  - by eapply flushOut_spec.
  - by eapply getSuffix_spec.
  - match goal with H : le_bytes 4 0 ++ pre ++ rest = _ |- _ => apply suffix_flag in H end.
    eapply storeSuffix_spec; try done. by destruct (Z.eqb_spec (contentChecksumFlag fi) 0).
Qed.

End stages.
End decode.
