(* ===== verification/Lz4FrameCall.v ===== *)
(** One call of [LZ4F_decompress] on part of a well-formed frame: the header,
    the loop over the stages, and the state that is kept between two calls. *)

From Stdlib Require Import ZArith Lia Strings.Byte.
From stdpp Require Import base gmap list fin_maps numbers.
From S2P Require Import Prelude Mem Lz4Common Lz4Format Lz4Decompress Lz4DecompressApi Xxhash XxhashProofs Lz4Frame Lz4FrameDec Lz4FrameFormat Lz4FrameProofs Lz4FrameBegin Lz4FrameDict Lz4FrameDecode.

#[global] Instance dStage_eqdec : EqDecision dStage_t.
Proof. solve_decision. Defined.

(** * Loops *)

Lemma rank_small (s : dStage_t) : 0 ≤ rank s ≤ 7.
Proof. by destruct s. Qed.

Section loops.
Context {arch : Arch} (ua : bool).
Context (srcEnd dst0 dstEnd newIn newOut : Z).

(** The loop of the state machine: an invariant that every stage keeps, and a
    measure that every stage decreases. *)
Lemma dloop_rule (I : dstate → mem → Prop) (Q : stage_result → mem → Prop) (fuel : nat) st m :
  (∀ st m, I st m →
     wp (dstep ua st srcEnd dst0 dstEnd newIn newOut)
        (λ r m', match r with
                 | Again st' => I st' m' ∧ 0 ≤ work srcEnd st' < work srcEnd st
                 | _ => Q r m'
                 end) m) →
  I st m → 0 ≤ work srcEnd st < Z.of_nat fuel →
  wp (dloop ua fuel st srcEnd dst0 dstEnd newIn newOut) Q m.
Proof.
  intros Hstep. revert st m. induction fuel as [|fuel IH]; intros st m HI Hw; [lia|]. cbn [dloop].
  eapply wp_seq; [by apply Hstep|]. intros [st'|st' hint|d code] m' H; [|by apply wp_ret..].
  destruct H as [HI' Hlt]. apply IH; [done|lia].
Qed.

End loops.

(** * Allocation *)

Lemma place_kept (a : Z) (l : list byte) (rs : list (Z * Z)) (m : mem) :
  (a, zlen l) ∈ rs → kept rs m (place a l m).
Proof.
  intros Hin. constructor; [intros i; apply place_mono|]. intros i Hi. apply place_lookup.
  destruct (decide (a ≤ i < a + zlen l)); [|lia]. destruct Hi. by exists a, (zlen l).
Qed.

(** The buffers a frame needs, when those of the context are too small. *)
Lemma mem_started_grown (d : LZ4F_dctx_t) (fi : LZ4F_frameInfo_t) (newIn newOut : Z) (m : mem)
    (rs : list (Z * Z)) :
  let m' := mem_started d fi newIn newOut m in
  info_ok fi → grows d fi = true → (newIn, block_size fi) ∈ rs → (newOut, needed fi) ∈ rs →
  kept rs m m' ∧ mapped m' newIn (block_size fi) ∧ mapped m' newOut (needed fi).
Proof.
  intros m' Hok Hg Hi Ho. pose proof (block_size_range _ Hok) as Hbs. pose proof (needed_range _ Hok) as Hn.
  unfold m', mem_started. rewrite Hg. unfold KB in *. set (bs := block_size fi) in *.
  assert (Lb : zlen (zeros bs) = bs) by (apply length_zeros; lia).
  assert (Lo : zlen (zeros (needed fi)) = needed fi) by (apply length_zeros; lia).
  split; [|split].
  - transitivity (place newIn (zeros bs) m); apply place_kept; by rewrite ?Lb, ?Lo.
  - apply place_mapped. pose proof (bytes_at_mapped _ _ _ (place_at newIn (zeros bs) m)) as Hm.
    by rewrite Lb in Hm.
  - pose proof (bytes_at_mapped _ _ _ (place_at newOut (zeros (needed fi)) (place newIn (zeros bs) m))) as Hm.
    by rewrite Lo in Hm.
Qed.

(** * Between two calls *)

Section parked.
Context {arch : Arch}.
Context (fi : LZ4F_frameInfo_t) (x : list byte) (bin bout cap : Z).
Implicit Types (m : mem) (d : LZ4F_dctx_t).

Let bs : Z := block_size fi.
Let linked : bool := blockMode fi =? LZ4F_blockLinked.

(** The stages a call can stop in. *)
Definition resting_stages : list dStage_t :=
  [dstage_storeCBlockSize; dstage_copyDirect; dstage_getCBlock; dstage_storeCBlock;
   dstage_flushOut; dstage_storeSuffix].

(** The position does not depend on the destination of the call. *)
Definition parked d m (done rest todo : list byte) : Prop :=
  ∀ sel dst0 dstEnd, position fi x bin bout cap d m sel dst0 dstEnd [] done rest todo.

Ltac fields := cbn [ds_dctx ds_src ds_dst ds_sel set_in set_stage set_dict set_sum set_out set_expect
  d_frameInfo dStage frameRemainingSize d_maxBlockSize d_maxBufferSize d_tmpIn d_tmpInSize
  tmpInTarget tmpOutBuffer d_dict d_dictSize tmpOut tmpOutSize tmpOutStart d_xxh].

Ltac same H := destruct H; constructor; fields; done.

(** What a stage other than [dstage_flushOut] needs when it is resumed. *)
Lemma parked_same d d' m m' (sel dst0 dstEnd : Z) (out done rest todo : list byte) :
  position fi x bin bout cap d m sel dst0 dstEnd out done rest todo → dStage d ∈ resting_stages →
  dStage d ≠ dstage_flushOut →
  (∃ p n o, d' = set_out (set_dict d p n) o (tmpOutSize d) (tmpOutStart d)) →
  (∀ pre, zlen pre ≤ bs → bytes_at m bin pre → bytes_at m' bin pre) → KB 64 ≤ bs →
  (dStage d ≠ dstage_storeSuffix → ∀ dst1, dict_at fi d' m' dst1 done []) →
  parked d' m' done rest todo.
Proof.
  intros P Hs Hf (p & n & o & ->) Hb Hbs D sel1 dst1 dstEnd1. unfold resting_stages, KB in *.
  inversion P as [? ? ? Hst|pre ? ? ? Hst ? ? ? ? ? ?|? ? ? ? Hst|? ? ? ? ? Hst|pre b y ? ? ? Hst ? ? ? ? ? ? Hc ?|
    ? ? ? ? ? Hst|? ? ? ? ? ? Hst|? Hst|pre ? Hst ? ? ? ? ? ?]; subst.
  - rewrite Hst in Hs. set_solver.
  - apply (at_store_size _ _ _ _ _ _ _ _ _ _ _ pre); fields; try done.
    + match goal with A : accounted _ _ d _ |- _ => same A end.
    + apply D. by rewrite Hst.
    + apply Hb; [lia|done].
  - apply (at_direct _ _ _ _ _ _ _ _ _ _ _ r); fields; try done.
    + match goal with A : accounted _ _ d _ |- _ => same A end.
    + apply D. by rewrite Hst.
  - apply (at_block _ _ _ _ _ _ _ _ _ _ _ b y); fields; try done.
    + match goal with A : accounted _ _ d _ |- _ => same A end.
    + apply D. by rewrite Hst.
  - apply (at_store_block _ _ _ _ _ _ _ _ _ _ _ pre b y); fields; try done.
    + match goal with A : accounted _ _ d _ |- _ => same A end.
    + apply D. by rewrite Hst.
    + apply Hb; [|done]. pose proof (cb_size _ _ _ _ Hc) as Hcs. rewrite length_app in Hcs.
      fold bs in Hcs. lia.
  - destruct Hst as [Hst|[[Hst _]|Hst]]; rewrite Hst in Hs; set_solver.
  - done.
  - rewrite Hst in Hs. set_solver.
  - apply (at_store_suffix _ _ _ _ _ _ _ _ _ _ _ pre); fields; try done.
    + match goal with A : accounted _ _ d _ |- _ => same A end.
    + apply Hb; [lia|done].
Qed.

Lemma position_flush d m (sel dst0 dstEnd : Z) (out done rest todo : list byte) :
  position fi x bin bout cap d m sel dst0 dstEnd out done rest todo → dStage d = dstage_flushOut →
  ∃ t f pend todo', done = t ++ f ∧ todo = pend ++ todo' ∧ accounted fi x d (done ++ pend) ∧ pend ≠ [] ∧
    flushing fi bout cap d m dst0 t f pend out ∧ frame_rest fi x (done ++ pend) rest todo'.
Proof.
  intros P Hf. inversion P as [? ? ? Hst|? ? ? ? Hst|? ? ? ? Hst|? ? ? ? ? Hst|? ? ? ? ? ? Hst|
    ? ? ? ? ? [Hst|[[Hst _]|Hst]]|t f pend ? ? ? Hst A Hd Hne G Hr|? Hst|? ? Hst];
    try (rewrite Hf in Hst; discriminate Hst). by exists t, f, pend, todo0.
Qed.

(** The stages that go on with blocks have the dictionary of the next block. *)
Lemma position_dict d m (sel dst0 dstEnd : Z) (out done rest todo : list byte) :
  position fi x bin bout cap d m sel dst0 dstEnd out done rest todo → dStage d ≠ dstage_flushOut →
  dStage d ≠ dstage_storeSuffix → dStage d ≠ dstage_getSuffix → linked = true →
  dict_ok d m dst0 done out.
Proof. intros P H1 H2 H3 Hl. destruct P; try done; auto. Qed.

(** The end of a call: the dictionary is saved and the position is kept. *)
Lemma park_spec (dst0 dstEnd srcEnd : Z) (prev chunk later extra : list byte) m0 st m
    (s out done rest todo : list byte) :
  running fi x bin bout cap dst0 dstEnd srcEnd prev chunk later extra m0 st m s out done rest todo →
  position fi x bin bout cap (ds_dctx st) m (ds_sel st) dst0 dstEnd out done rest todo →
  dStage (ds_dctx st) ∈ resting_stages →
  wp (preserve_dict (ds_dctx st) 0)
     (λ d' m', parked d' m' done rest todo ∧ dStage d' = dStage (ds_dctx st) ∧
        frame_ctx fi bin bout cap d' ∧ frame bout (bout + cap) m m' ∧
        d_header d' = d_header (ds_dctx st)) m.
Proof.
  intros R P Hs. pose proof R as [R1 R2 R3 R4 R5 R6 R7 R8 R9 R10].
  pose proof (block_size_range _ (bo_info _ _ _ _ _ R1)) as Hbs. fold bs in Hbs.
  pose proof (bo_apart _ _ _ _ _ R1) as Hap. unfold apart in Hap. fold bs in Hap.
  assert (Hkeep : ∀ m', frame bout (bout + cap) m m' →
    ∀ pre, zlen pre ≤ bs → bytes_at m bin pre → bytes_at m' bin pre).
  { intros m' F pre Hl Hb. eapply bytes_at_frame; [exact F|lia|done]. }
  assert (Hself : ∃ p n o, ds_dctx st = set_out (set_dict (ds_dctx st) p n) o (tmpOutSize (ds_dctx st))
                                          (tmpOutStart (ds_dctx st))).
  { exists (d_dict (ds_dctx st)), (d_dictSize (ds_dctx st)), (tmpOut (ds_dctx st)). by destruct (ds_dctx st). }
  assert (Hfin : ∀ d' m', dStage (ds_dctx st) ≠ dstage_flushOut →
    (∃ p n o, d' = set_out (set_dict (ds_dctx st) p n) o (tmpOutSize (ds_dctx st)) (tmpOutStart (ds_dctx st))) →
    frame bout (bout + cap) m m' → frame_ctx fi bin bout cap d' →
    (dStage (ds_dctx st) ≠ dstage_storeSuffix → ∀ dst1, dict_at fi d' m' dst1 done []) →
    parked d' m' done rest todo ∧ dStage d' = dStage (ds_dctx st) ∧ frame_ctx fi bin bout cap d' ∧
    frame bout (bout + cap) m m' ∧ d_header d' = d_header (ds_dctx st)).
  { intros d' m' Hf Hd F X D. split; [eapply parked_same; [exact P|done|done|exact Hd|by apply Hkeep|apply Hbs|done]|].
    destruct Hd as (p & n & o & ->). done. }
  destruct (decide (linked = true)) as [Hl|Hl].
  - pose proof (dict_layout_of _ _ _ _ _ _ _ _ _ _ _ Hl R3 R1 R2) as L.
    assert (Hdl : d_linked (ds_dctx st) = true) by (by rewrite (linked_eq _ _ _ _ _ R3)).
    destruct (decide (dStage (ds_dctx st) = dstage_flushOut)) as [Hf|Hf].
    + destruct (position_flush _ _ _ _ _ _ _ _ _ P Hf) as (t & f & pend & todo' & -> & -> & A & Hne & G & Hr).
      pose proof G as [G1 G2 G3 G4 G5 G6 G7].
      eapply wp_mono; [apply (preserve_flush_spec _ m dst0 dstEnd t f (zlen (f ++ pend)) out); try done;
        [by apply G7|by rewrite (fx_block _ _ _ _ _ R3)]|].
      rewrite (fx_out _ _ _ _ _ R3). intros d' m' ((p & n & ->) & F & O).
      split; [|split; [done|split; [same R3|split; [|done]]]].
      * intros sel1 dst1 dstEnd1. apply (at_flush _ _ _ _ _ _ _ _ _ _ _ t f); fields; try done.
        { same A. }
        constructor; fields; try done. eapply bytes_at_frame; [exact F|lia|done].
      * eapply frame_weaken; [exact F|lia|]. lia.
    + destruct (decide (dStage (ds_dctx st) = dstage_storeSuffix)) as [Hsuf|Hsuf].
      * assert (Hrun : preserve_dict (ds_dctx st) 0 m = Ret (ds_dctx st) m)
          by (unfold preserve_dict; by rewrite Hsuf, andb_false_r).
        apply wp_result. eexists _, _. split; [exact Hrun|]. by apply Hfin.
      * assert (Hkd : keeps_dict (dStage (ds_dctx st)) = true).
        { unfold resting_stages in Hs. destruct (dStage (ds_dctx st)); set_solver || done. }
        assert (Hgs : dStage (ds_dctx st) ≠ dstage_getSuffix) by (intros E; by rewrite E in Hkd).
        pose proof (position_dict _ _ _ _ _ _ _ _ _ P Hf Hsuf Hgs Hl) as K0.
        eapply wp_mono; [by apply (preserve_dict_spec _ m dst0 dstEnd done out)|].
        rewrite (fx_out _ _ _ _ _ R3), (fx_cap _ _ _ _ _ R3). intros d' m' (Hd & F & K).
        apply Hfin; [done|done|done| |by intros _ dst1 _].
        destruct Hd as (p & n & o & ->). destruct R3; constructor; fields; try done. intros Hn. unfold linked in Hl. by rewrite Hn in Hl.
  - unfold preserve_dict. rewrite (linked_eq _ _ _ _ _ R3). fold linked. destruct linked eqn:El; [done|].
    cbn [andb]. apply wp_ret. destruct (decide (dStage (ds_dctx st) = dstage_flushOut)) as [Hf|Hf].
    + destruct (position_flush _ _ _ _ _ _ _ _ _ P Hf) as (t & f & pend & todo' & -> & -> & A & Hne & G & Hr).
      split; [|split_and!; (done || reflexivity)].
      intros sel1 dst1 dstEnd1. apply (at_flush _ _ _ _ _ _ _ _ _ _ _ t f); try done.
      destruct G; constructor; try done. intros Hn. unfold linked in El. by rewrite Hn in El.
    + apply Hfin; try done. intros _ dst1 Hn. unfold linked in El. by rewrite Hn in El.
Qed.

(** [srcExpect] plays no part in it. *)
Lemma parked_expect d m (done rest todo : list byte) (e : Z) :
  parked d m done rest todo → parked (set_expect d e) m done rest todo.
Proof.
  intros P sel dst0 dstEnd.
  assert (HA : ∀ a, accounted fi x d a → accounted fi x (set_expect d e) a).
  { intros a A. same A. }
  assert (HD : ∀ t, dict_at fi d m dst0 t [] → dict_at fi (set_expect d e) m dst0 t []).
  { intros t D Hl. specialize (D Hl). same D. }
  assert (HG : ∀ t f p, flushing fi bout cap d m dst0 t f p [] →
    flushing fi bout cap (set_expect d e) m dst0 t f p []).
  { intros t f p [G1 G2 G3 G4 G5 G6 G7]. constructor; fields; try done. intros Hl. specialize (G7 Hl). same G7. }
  destruct (P sel dst0 dstEnd); [eapply at_size|eapply at_store_size|eapply at_direct|eapply at_block|
    eapply at_store_block|eapply at_decode|eapply at_flush|eapply at_suffix|eapply at_store_suffix]; eauto.
Qed.

End parked.

(** * The header *)

Section heads.
Context {arch : Arch} (ua : bool).
Context (fi : LZ4F_frameInfo_t) (x : list byte) (bin bout cap newIn newOut : Z).
Implicit Types (m : mem) (d : LZ4F_dctx_t).

Let bs : Z := block_size fi.
Let sized : bool := negb (contentSize fi =? 0).

(** A context ready for a frame described by [fi]: its buffers are large enough
    or will be allocated at [newIn] and [newOut], and no dictionary is left
    from before. *)
Record head_ctx d m : Prop := {
  hc_info : info_ok fi;
  hc_dict : d_dict d = tmpOutBuffer d;
  hc_left : frameRemainingSize d = 0;
  hc_hash : length (buf (d_xxh d)) = 16%nat;
  hc_bufs : buf_in d fi newIn = bin ∧ buf_out d fi newOut = bout ∧ buf_cap d fi = cap;
  hc_new : newIn ≠ NULL ∧ newOut ≠ NULL;
  hc_cap : needed fi ≤ cap < 2 ^ 24;
  hc_mapped : grows d fi = false → mapped m bin bs ∧ mapped m bout cap;
  hc_hdr : mapped m (d_header d) 16;
  hc_apart : apart bin bs bout cap;
  hc_addr : 0 ≤ bin ∧ bin + bs ≤ ADDR_MAX ∧ 0 ≤ bout ∧ bout + cap ≤ ADDR_MAX
}.

(** The allocation of the buffers. *)
Lemma mem_started_ok d m rs :
  head_ctx d m → (bin, bs) ∈ rs → (bout, cap) ∈ rs →
  kept rs m (mem_started d fi newIn newOut m) ∧ buffers_ok fi bin bout cap (mem_started d fi newIn newOut m).
Proof.
  intros [H1 H2 H3 H4 (E1 & E2 & E3) H6 H7 H8 H9 H10 H11] Hi Ho.
  unfold buf_in, buf_out, buf_cap in *. destruct (grows d fi) eqn:Hg.
  - subst newIn newOut cap. destruct (mem_started_grown d fi bin bout m rs H1 Hg Hi Ho) as (K & Mi & Mo).
    split; [done|]. by constructor.
  - unfold mem_started. rewrite Hg. split; [reflexivity|]. destruct (H8 eq_refl). by constructor.
Qed.

(** The beginning of a header that says that there is more of it. *)
Lemma decodeHeader_short d m (pre rest : list byte) :
  info_ok fi → sized = true → bytes_at m (d_header d) pre → zlen pre = minFHSize →
  pre ++ rest = header_bytes true fi →
  LZ4F_decodeHeader ua d (d_header d) minFHSize newIn newOut m =
    Ret (set_stage (set_in (set_info (set_info d zero_info) (FrameInfo 0 0 0 LZ4F_frame 0)) minFHSize
           maxFHSize) dstage_storeHeader, minFHSize) m.
Proof.
  intros Hok Hs Hb Hl Hpre. unfold sized in Hs. rewrite negb_true_iff in Hs. zbool.
  destruct (header_fields true fi) as (f & b & field & hc & Hh & Hd & Hc & Hfl).
  destruct (parse_complete true fi f b field hc Hok ltac:(done) Hd Hc) as [_ Hf].
  rewrite Hh in Hpre. symmetry in Hpre. change (f :: b :: field ++ [hc]) with ([f] ++ b :: field ++ [hc]) in Hpre.
  rewrite app_assoc in Hpre. unfold minFHSize in *.
  destruct (stream_split _ _ _ _ Hpre) as (q & -> & _); [rewrite length_app, length_le_bytes; cbn [length]; lia|].
  rewrite <- app_assoc in Hb. unfold LZ4F_decodeHeader. cbn [Z.ltb Z.compare Pos.compare Pos.compare_cont minFHSize].
  unfold bind at 1. rewrite (LE32_at _ _ _ _ Hb) by (vm_compute; intuition discriminate).
  change (Z.land LZ4F_MAGICNUMBER 0xFFFFFFF0 =? LZ4F_MAGIC_SKIPPABLE_START) with false.
  change (negb (LZ4F_MAGICNUMBER =? LZ4F_MAGICNUMBER)) with false. cbv iota.
  apply bytes_at_app in Hb as [_ [Hb _]]. rewrite length_le_bytes in Hb. change (Z.of_nat 4) with 4 in Hb.
  unfold bind at 1. rewrite (load8_run _ _ _ Hb).
  destruct (flg_fields (b2z f)) as (_ & _ & _ & -> & _ & _).
  change (negb (b2z f / 8 mod 2 =? 0)) with (sized_flag f). rewrite Hf.
  change (7 <? maxFHSize) with true. cbv iota.
  change (d_header (set_info (set_info d zero_info) _)) with (d_header d). by rewrite Z.eqb_refl.
Qed.

(** The rest of the call, once the header is read. *)
Context (dst0 dstEnd srcEnd : Z) (chunk later extra : list byte).
Context (Hsize : contentSize fi = 0 ∨ contentSize fi = zlen x).

Lemma io_ok_kept m m' (src : Z) (s : list byte) :
  io_ok fi bin bout cap m src s dst0 dstEnd [] → kept [(bin, bs); (bout, cap)] m m' →
  io_ok fi bin bout cap m' src s dst0 dstEnd [].
Proof.
  intros [I1 I2 I3 I4 I5 I6 I7 I8 I9 I10 I11] K. fold bs in I6, I8. constructor; try done.
  - eapply kept_bytes_at; [exact K| |done]. unfold apart in *.
    intros i Hi (a & n & Hin & Hr). set_unfold in Hin. destruct Hin as [[= -> ->]|[[= -> ->]|[]]]; lia.
  - by eapply kept_mapped.
Qed.

Lemma started_inv d m (src sel : Z) (s body : list byte) :
  let m1 := mem_started d fi newIn newOut m in
  head_ctx d m → io_ok fi bin bout cap m src s dst0 dstEnd [] → srcEnd = src + zlen s →
  s ++ later = body ++ extra → s `suffix_of` chunk → frame_rest fi x [] body x →
  inv fi x bin bout cap dst0 dstEnd srcEnd [] chunk later extra m1
    (DState (started d sized fi newIn newOut) src dst0 sel) m1.
Proof.
  intros m1 H I He Hin Hsuf Hr.
  destruct (mem_started_ok d m [(bin, bs); (bout, cap)] H ltac:(set_solver) ltac:(set_solver)) as [K B].
  fold m1 in K, B. pose proof H as [H1 H2 H3 H4 (E1 & E2 & E3) H6 H7 H8 H9 H10 H11].
  exists s, [], [], body, x. split.
  - constructor; cbn [ds_src ds_dst ds_dctx]; try done.
    + by eapply io_ok_kept.
    + cbn [length]. lia.
  - apply at_size; cbn [ds_dctx]; try done.
    + constructor; unfold started; cbn [d_xxh frameRemainingSize].
      * intros Hc. destruct (Z.eqb_spec (contentChecksumFlag fi) 0); [done|]. by apply reset32_hashed.
      * unfold sized. destruct (Z.eqb_spec (contentSize fi) 0); cbn [negb length]; [done|lia].
      * apply prefix_nil.
    + intros _. apply dict_ok_nil; unfold started; cbn; try done. rewrite E3.
      pose proof (needed_range _ H1). unfold KB in *. lia.
Qed.

(** The frame: its header and [body].  The call started with the memory [m0]. *)
Context (body : list byte) (Hbody : frame_rest fi x [] body x) (hdr : Z) (m0 : mem).

Definition frame_ranges : list (Z * Z) := (hdr, 16) :: call_ranges fi bin bout cap dst0 dstEnd.

(** A call before the blocks: [s] is the input left and [rest] what has not been
    read of the frame. *)
Record heading st m (s rest : list byte) : Prop := {
  hd_io : io_ok fi bin bout cap m (ds_src st) s dst0 dstEnd [];
  hd_ctx : head_ctx (ds_dctx st) m;
  hd_hdr : d_header (ds_dctx st) = hdr;
  hd_apart : apart (ds_src st) (zlen s) hdr 16;
  hd_src : srcEnd = ds_src st + zlen s;
  hd_dst : ds_dst st = dst0;
  hd_in : s ++ later = rest ++ extra;
  hd_kept : kept frame_ranges m0 m;
  hd_place : apart hdr 16 dst0 (dstEnd - dst0);
  hd_suffix : s `suffix_of` chunk
}.

(** How much of the header has been collected. *)
Inductive head_pos d m (rest : list byte) : Prop :=
| head_start :
    dStage d = dstage_getHeader → rest = header_bytes sized fi ++ body → head_pos d m rest
| head_store pre :
    dStage d = dstage_storeHeader → bytes_at m hdr pre → pre ++ rest = header_bytes sized fi ++ body →
    d_tmpInSize d = zlen pre → zlen pre < tmpInTarget d →
    tmpInTarget d = minFHSize ∨ tmpInTarget d = maxFHSize ∧ sized = true → head_pos d m rest.

Definition head_inv st m : Prop := ∃ s rest, heading st m s rest ∧ head_pos (ds_dctx st) m rest.

Definition block_inv (prev : list byte) st m : Prop :=
  ∃ m1, kept frame_ranges m0 m1 ∧
    inv fi x bin bout cap dst0 dstEnd srcEnd prev chunk later extra m1 st m.

Definition head_outcome (w : Z) (r : stage_result) m : Prop :=
  match r with
  | Again st => (head_inv st m ∨ block_inv [] st m) ∧ 0 ≤ work srcEnd st < w
  | Stop st hint => head_inv st m ∧ 0 < hint ∧ ds_src st = srcEnd ∧ ds_dst st = dst0 ∧
                    dStage (ds_dctx st) = dstage_storeHeader
  | Error _ _ => False
  end.

Lemma head_ctx_frame d d' m m' (lo hi : Z) :
  head_ctx d m → frame lo hi m m' →
  d_dict d' = d_dict d → tmpOutBuffer d' = tmpOutBuffer d → d_tmpIn d' = d_tmpIn d →
  frameRemainingSize d' = frameRemainingSize d → d_xxh d' = d_xxh d → d_header d' = d_header d →
  d_maxBufferSize d' = d_maxBufferSize d → head_ctx d' m'.
Proof.
  intros [H1 H2 H3 H4 H5 H6 H7 H8 H9 H10 H11] F E1 E2 E3 E4 E5 E6 E7.
  unfold buf_in, buf_out, buf_cap, grows in *.
  constructor; unfold buf_in, buf_out, buf_cap, grows; rewrite ?E1, ?E2, ?E3, ?E4, ?E5, ?E6, ?E7; try done.
  - intros Hg. destruct (H8 Hg) as [Ha Hb]. split; eapply frame_mapped; done.
  - eapply frame_mapped; done.
Qed.

(** The input and an empty destination, when something else is written. *)
Lemma io_ok_away m m' (src lo hi : Z) (s : list byte) :
  io_ok fi bin bout cap m src s dst0 dstEnd [] → frame lo hi m m' → apart src (zlen s) lo (hi - lo) →
  io_ok fi bin bout cap m' src s dst0 dstEnd [].
Proof.
  intros [I1 I2 I3 I4 I5 I6 I7 I8 I9 I10 I11] F Ha. unfold apart in Ha. constructor; try done.
  - eapply bytes_at_frame; [exact F|lia|done].
  - eapply frame_mapped; done.
Qed.

(** The header has been read from [p]. *)
Lemma header_read d m (p n src sel : Z) (s : list byte) :
  head_ctx d m → bytes_at m p (header_bytes sized fi) → header_size sized ≤ n →
  io_ok fi bin bout cap m src s dst0 dstEnd [] → srcEnd = src + zlen s →
  s ++ later = body ++ extra → s `suffix_of` chunk → kept frame_ranges m0 m →
  wp (LZ4F_decodeHeader ua d p n newIn newOut)
     (λ '(d', r) m', r = header_size sized ∧ block_inv [] (DState d' src dst0 sel) m' ∧
        dStage d' = dstage_getCBlockSize) m.
Proof.
  intros H Hb Hn I He Hin Hsuf K. pose proof H as [H1 _ _ _ _ [H6 H6'] _ _ _ _ _].
  apply wp_result. eexists _, _. split; [apply decodeHeader_header; try done|].
  - unfold sized. destruct (Z.eqb_spec (contentSize fi) 0); [done|]. cbn. done.
  - split; [done|]. split; [|done].
    exists (mem_started d fi newIn newOut m). split.
    + etransitivity; [exact K|].
      apply (mem_started_ok d m); [done|unfold frame_ranges, call_ranges; set_solver..].
    + by apply started_inv with s body.
Qed.

Lemma header_small : 7 ≤ header_size sized ≤ 15.
Proof. by destruct sized. Qed.

Lemma storeHeader_spec st m (pre s rest : list byte) :
  heading st m s rest → dStage (ds_dctx st) = dstage_storeHeader → bytes_at m hdr pre →
  pre ++ rest = header_bytes sized fi ++ body → d_tmpInSize (ds_dctx st) = zlen pre →
  zlen pre < tmpInTarget (ds_dctx st) →
  (tmpInTarget (ds_dctx st) = minFHSize ∨ tmpInTarget (ds_dctx st) = maxFHSize ∧ sized = true) →
  wp (stage_storeHeader ua st srcEnd newIn newOut) (head_outcome (16 * zlen s + 2)) m.
Proof.
  intros H Hst Hb Hpre Hsz Hlt Ht. pose proof H as [D1 D2 D3 D4 D5 D6 D7 D8 D9 D10].
  unfold stage_storeHeader. rewrite D3. set (T := tmpInTarget (ds_dctx st)) in *.
  pose proof (hc_hdr _ _ D2) as Hm. rewrite D3 in Hm. pose proof header_small as Hh.
  pose proof (length_header sized fi) as HL. pose proof (frame_rest_length _ _ _ _ _ Hbody) as Hbl.
  pose proof (f_equal length Hpre) as Hlen. rewrite !length_app in Hlen.
  assert (HT : T = minFHSize ∧ sized = true ∨ T = header_size sized).
  { destruct sized; [|right; destruct Ht as [->|[_ ?]]; done]. destruct Ht as [->|[-> _]]; [by left|by right]. }
  unfold minFHSize, maxFHSize, apart in *.
  eapply wp_seq; [apply (gather_spec st m hdr T srcEnd pre s); try done; unfold apart; try lia|].
  - apply (io_src _ _ _ _ _ _ _ _ _ _ D1).
  - apply (io_size _ _ _ _ _ _ _ _ _ _ D1).
  - solve_mapped.
  - intros [st' ok] m1 (a & s' & -> & Hle & -> & Hok & F1 & B1).
    rewrite (length_app a s') in *. pose proof (length_app pre a) as Hpa.
    destruct (stream_split a (s' ++ later) rest extra) as (rest' & -> & Hs').
    { by rewrite app_assoc. }
    { lia. }
    rewrite app_assoc in Hpre. rewrite (length_app a rest') in *.
    pose proof (suffix_tail _ _ _ D10) as Hsuf.
    set (d1 := set_in (ds_dctx st) (zlen (pre ++ a)) (tmpInTarget (ds_dctx st))).
    assert (X1 : head_ctx d1 m1) by (by eapply head_ctx_frame; [exact D2|exact F1|..]).
    assert (I1 : io_ok fi bin bout cap m1 (ds_src st + zlen a) s' dst0 dstEnd []).
    { apply io_ok_read. eapply io_ok_away; [exact D1|exact F1|]. unfold apart. rewrite length_app. lia. }
    assert (K1 : kept frame_ranges m0 m1).
    { etransitivity; [exact D8|]. eapply (frame_kept _ hdr 16); [exact F1| |lia|lia].
      unfold frame_ranges. set_solver. }
    assert (HR : ∀ d' sel, head_ctx d' m1 → d_header d' = hdr →
      heading (DState d' (ds_src st + zlen a) (ds_dst st) sel) m1 s' rest').
    { intros d' sel X' Hd'. constructor; cbn [ds_src ds_dst ds_dctx]; try done; unfold apart; lia. }
    destruct ok; cbn [negb ds_dctx ds_src ds_dst ds_sel].
    + fold d1 T. change (d_header d1) with (d_header (ds_dctx st)). rewrite D3.
      change (tmpInTarget d1) with T. destruct HT as [[HT Hsd]|HT].
      * (* the header goes on *)
        destruct (stream_split (pre ++ a) rest' (header_bytes sized fi) body Hpre ltac:(lia))
          as (q & Hq & _). rewrite Hsd in Hq.
        rewrite HT. pose proof (decodeHeader_short d1 m1 (pre ++ a) q (hc_info _ _ D2) Hsd) as Hrun.
        change (d_header d1) with (d_header (ds_dctx st)) in Hrun. rewrite D3 in Hrun.
        eapply wp_run; [apply Hrun; [done|unfold minFHSize; lia|done]|].
        cbv beta iota. rewrite isError_small by done.
        apply wp_ret. split; [|unfold work; cbn; lia]. left. exists s', rest'.
        split; [apply HR; [|done]; by eapply (head_ctx_frame _ _ _ _ 0 0); [exact X1|reflexivity|..]|].
        apply (head_store _ _ _ (pre ++ a)); cbn; try done; unfold minFHSize, maxFHSize; try lia. by right.
      * (* the header is complete *)
        destruct (app_inj_1 (pre ++ a) (header_bytes sized fi) rest' body) as [Hpa' ->]; [lia|done|].
        eapply wp_seq; [apply (header_read d1 m1 hdr T (ds_src st + zlen a) (ds_sel st) s'); try done|].
        { by rewrite <- Hpa'. }
        { lia. }
        { lia. }
        intros [d2 r] m2 (-> & Hinv & Hst2). rewrite isError_small by lia. apply wp_ret.
        rewrite D6. split; [by right|]. unfold work. cbn. rewrite Hst2. cbn [rank]. lia.
    + destruct Hok as [-> Hlt']. apply wp_ret.
      change (tmpInTarget d1) with T. change (d_tmpInSize d1) with (zlen (pre ++ a)).
      rewrite usize_fits by (unfold BHSize; lia). cbn [length] in *.
      split; [|unfold BHSize; cbn; split_and!; (done || lia)]. exists [], rest'.
      split; [by apply HR|]. cbn [ds_dctx].
      by apply (head_store _ _ _ (pre ++ a)).
Qed.

Lemma getHeader_spec st m (s rest : list byte) :
  heading st m s rest → rest = header_bytes sized fi ++ body →
  wp (stage_getHeader ua st srcEnd newIn newOut) (head_outcome (16 * zlen s + 2)) m.
Proof.
  intros H Hrest. pose proof H as [D1 D2 D3 D4 D5 D6 D7 D8 D9 D10]. pose proof header_small as Hh.
  pose proof (length_header sized fi) as HL. pose proof (io_size _ _ _ _ _ _ _ _ _ _ D1) as [_ Hs].
  unfold stage_getHeader. rewrite usize_fits by lia. rewrite Z.geb_leb. unfold maxFHSize.
  destruct (Z.leb_spec 15 (srcEnd - ds_src st)) as [Hge|Hlt].
  - subst rest. rewrite <- app_assoc in D7. symmetry in D7.
    destruct (stream_split _ _ _ _ D7) as (s' & -> & Hs'); [lia|].
    pose proof (io_src _ _ _ _ _ _ _ _ _ _ D1) as [Hb _]%bytes_at_app.
    rewrite length_app in *. pose proof (suffix_tail _ _ _ D10) as Hsuf.
    eapply wp_seq; [apply (header_read _ m (ds_src st) _ (ds_src st + header_size sized) (ds_sel st) s'); try done|].
    + lia.
    + rewrite <- HL. by apply io_ok_read.
    + lia.
    + intros [d2 r] m2 (-> & Hinv & Hst2). rewrite isError_small by lia. apply wp_ret.
      rewrite D6. split; [by right|]. unfold work. cbn. rewrite Hst2. cbn [rank]. lia.
  - apply (storeHeader_spec (DState _ _ _ _) m [] s rest); cbn; try done.
    + constructor; cbn; try done. by eapply (head_ctx_frame _ _ _ _ 0 0); [exact D2|reflexivity|..].
    + by left.
Qed.

Lemma head_step st m :
  head_inv st m →
  wp (dstep ua st srcEnd dst0 dstEnd newIn newOut) (head_outcome (work srcEnd st)) m.
Proof.
  intros (s & rest & H & P). unfold work.
  replace (srcEnd - ds_src st) with (zlen s) by (pose proof (hd_src _ _ _ _ H); lia).
  unfold dstep. destruct P as [Hst Hrest|pre Hst Hb Hpre Hsz Hlt Ht]; rewrite Hst; cbn [rank].
  - by apply getHeader_spec with rest.
  - by apply storeHeader_spec with pre rest.
Qed.

End heads.
