(* ===== verification/Lz4FrameResume.v ===== *)
(** [LZ4F_decompress] on well-formed frames: what one call does with part of a
    frame, that a call which is given all of it completes it, and the round
    trip with [LZ4F_compressFrame]. *)

From Stdlib Require Import ZArith Lia Strings.Byte.
From stdpp Require Import base gmap list fin_maps numbers.
From S2P Require Import Prelude Mem Lz4Common Lz4Format Lz4Decompress Lz4DecompressApi Lz4Compress Lz4Stream Lz4Hc Xxhash XxhashProofs Lz4Frame Lz4FrameDec Lz4FrameFormat Lz4FrameProofs Lz4FrameBegin Lz4FrameUpdate Lz4FrameCompress Lz4FrameDict Lz4FrameDecode Lz4FrameCall.

(** What stays the same while a frame is decoded: its description, content and
    the bytes after its header, the two buffers of the decoder, the addresses
    the allocator returns and the header buffer of the context. *)
Record session : Type := Session {
  ss_info : LZ4F_frameInfo_t;
  ss_content : list byte;
  ss_body : list byte;
  ss_in : Z;
  ss_out : Z;
  ss_cap : Z;
  ss_newIn : Z;
  ss_newOut : Z;
  ss_hdr : Z
}.

Definition ss_sized (S : session) : bool := negb (contentSize (ss_info S) =? 0).

(** The bytes of the frame. *)
Definition ss_bytes (S : session) : list byte :=
  header_bytes (ss_sized S) (ss_info S) ++ ss_body S.

Record session_ok {arch : Arch} (S : session) : Prop := {
  so_size : contentSize (ss_info S) = 0 ∨ contentSize (ss_info S) = zlen (ss_content S);
  so_len : zlen (ss_content S) < 2 ^ 64;
  so_body : frame_rest (ss_info S) (ss_content S) [] (ss_body S) (ss_content S)
}.

(** The decoder between two calls, before the end of the header: [rest] is what
    has not been read of the frame. *)
Record in_header {arch : Arch} (S : session) (d : LZ4F_dctx_t) (m : mem) (rest : list byte) : Prop := {
  ih_ctx : head_ctx (ss_info S) (ss_in S) (ss_out S) (ss_cap S) (ss_newIn S) (ss_newOut S) d m;
  ih_hdr : d_header d = ss_hdr S;
  ih_pos : head_pos (ss_info S) (ss_body S) (ss_hdr S) d m rest
}.

(** ... and after it: [done] has been delivered, [todo] not yet. *)
Record in_blocks {arch : Arch} (S : session) (d : LZ4F_dctx_t) (m : mem) (done rest todo : list byte) :
    Prop := {
  ib_buf : buffers_ok (ss_info S) (ss_in S) (ss_out S) (ss_cap S) m;
  ib_ctx : frame_ctx (ss_info S) (ss_in S) (ss_out S) (ss_cap S) d;
  ib_stage : dStage d ∈ resting_stages;
  ib_pos : parked (ss_info S) (ss_content S) (ss_in S) (ss_out S) (ss_cap S) d m done rest todo;
  ib_text : done ++ todo = ss_content S
}.

Definition decoding {arch : Arch} (S : session) (d : LZ4F_dctx_t) (m : mem) (done rest todo : list byte) :
    Prop :=
  done = [] ∧ todo = ss_content S ∧ in_header S d m rest ∨ in_blocks S d m done rest todo.

(** The input and the destination of a call. *)
Record io_call {arch : Arch} (fi : LZ4F_frameInfo_t) (bin bout cap hdr : Z) (d : LZ4F_dctx_t) (m : mem)
    (dst dstSize src : Z) (chunk : list byte) : Prop := {
  ca_io : io_ok fi bin bout cap m src chunk dst (dst + dstSize) [];
  ca_hdr_src : apart src (zlen chunk) hdr 16;
  ca_hdr_dst : apart hdr 16 dst dstSize;
  ca_expect : srcExpect d = NULL ∨ srcExpect d = src
}.

Definition call_ok {arch : Arch} (S : session) : LZ4F_dctx_t → mem → Z → Z → Z → list byte → Prop :=
  io_call (ss_info S) (ss_in S) (ss_out S) (ss_cap S) (ss_hdr S).

(** What a call may change. *)
Definition ss_ranges (S : session) (dst dstSize : Z) : list (Z * Z) :=
  [(ss_hdr S, 16); (dst, dstSize); (ss_in S, block_size (ss_info S)); (ss_out S, ss_cap S)].

(** The result of a call: [out] is delivered. *)
Record call_result {arch : Arch} (S : session) (m : mem) (dst dstSize src : Z)
    (chunk done rest todo : list byte) (d' : LZ4F_dctx_t) (n k hint : Z) (m' : mem)
    (out rest' todo' : list byte) : Prop := {
  cr_out : todo = out ++ todo';
  cr_size : n = zlen out;
  cr_bytes : bytes_at m' dst out;
  cr_read : ∃ read, rest = read ++ rest' ∧ k = zlen read;
  cr_used : k ≤ zlen chunk;
  cr_kept : kept (ss_ranges S dst dstSize) m m';
  cr_expect : srcExpect d' = if k <? zlen chunk then src + k else NULL;
  cr_next :
    (* the frame is complete *)
    hint = 0 ∧ rest' = [] ∧ todo' = [] ∧ dStage d' = dstage_getHeader ∧ frameRemainingSize d' = 0 ∨
    (* more input or more room is needed *)
    0 < hint ∧ decoding S d' m' (done ++ out) rest' todo' ∧ rest' ≠ [] ∧
      (k = zlen chunk ∨ n = dstSize ∧ todo' ≠ [])
}.

Section resume.
Context {arch : Arch} (ua : bool).
Implicit Types (m : mem) (d : LZ4F_dctx_t) (S : session).

(** The bytes that have been read are those at the start of what was left. *)
Lemma read_split (chunk later rest extra s rest' : list byte) :
  chunk ++ later = rest ++ extra → s ++ later = rest' ++ extra → s `suffix_of` chunk →
  zlen s ≤ zlen chunk → ∃ read, rest = read ++ rest' ∧ zlen chunk = zlen read + zlen s.
Proof.
  intros H1 H2 [a ->] Hl. exists a. rewrite <- app_assoc, H2, app_assoc in H1.
  apply app_inv_tail in H1 as <-. split; [done|]. rewrite length_app. lia.
Qed.

(** A call that stops has something left to read, and when it stopped for lack
    of room it has something left to deliver. *)
Lemma position_rest fi (x : list byte) (bin bout cap : Z) d m (sel dst0 dstEnd : Z)
    (out done rest todo : list byte) :
  position fi x bin bout cap d m sel dst0 dstEnd out done rest todo → dStage d ∈ resting_stages →
  rest ≠ [] ∧
  (dStage d ∈ [dstage_copyDirect; dstage_getCBlock; dstage_flushOut] → todo ≠ []).
Proof.
  intros P Hs. unfold resting_stages in Hs.
  destruct P as [? ? ? Hst|pre ? ? ? Hst _ _ _ Hp _ Hr|r ? ? ? Hst _ _ _ Hr _|b y ? ? ? Hst _ _ _ Hc _|
    pre b y ? ? ? Hst _ _ _ _ Hb _ _ _|? ? ? ? ? Hst|t f pend ? ? ? Hst _ _ Hne _ Hr|? Hst|
    pre ? Hst _ Hf _ Hp _ Hsum]; rewrite ?Hst in Hs |- *.
  - set_solver.
  - apply frame_rest_length in Hr. rewrite length_app in Hr.
    split; [intros ->; cbn [length] in *; lia|set_solver].
  - split; intros; (destruct r; [cbn [length] in *; lia|done]).
  - split; intros; [pose proof (cb_size _ _ _ _ Hc); destruct b; [cbn [length] in *; lia|done]|
      pose proof (cb_text _ _ _ _ Hc); destruct y; [cbn [length] in *; lia|done]].
  - split; [destruct b; [cbn [length] in *; lia|done]|set_solver].
  - destruct Hst as [Hst|[[Hst _]|Hst]]; rewrite Hst in Hs; set_solver.
  - apply frame_rest_length in Hr. split; [intros ->; cbn [length] in *; lia|].
    intros _ Hn. apply app_eq_nil in Hn as [? _]. done.
  - set_solver.
  - apply suffix_flag in Hsum. destruct (Z.eqb_spec (contentChecksumFlag fi) 0); [done|].
    apply (f_equal length) in Hsum. unfold sum_bytes in Hsum. rewrite length_app, length_le_bytes in Hsum.
    split; [intros ->; cbn [length] in *; lia|set_solver].
Qed.

(** * The loop of a call *)

Section loop.
Context S (HS : session_ok S) (dst dstSize src : Z) (chunk later extra done : list byte) (m0 : mem).

Let srcEnd : Z := src + zlen chunk.
Let dstEnd : Z := dst + dstSize.

Abbreviation in_head := (head_inv (ss_info S) (ss_in S) (ss_out S) (ss_cap S) (ss_newIn S) (ss_newOut S)
  dst dstEnd srcEnd chunk later extra (ss_body S) (ss_hdr S) m0).
Abbreviation in_block := (block_inv (ss_info S) (ss_content S) (ss_in S) (ss_out S) (ss_cap S)
  dst dstEnd srcEnd chunk later extra (ss_hdr S) m0 done).

Definition loop_inv (st : dstate) m : Prop := (done = [] ∧ in_head st m) ∨ in_block st m.

(** How the loop of a call ends. *)
Definition loop_result (r : stage_result) m : Prop :=
  match r with
  | Stop st hint =>
      done = [] ∧ in_head st m ∧ 0 < hint ∧ ds_src st = srcEnd ∧ ds_dst st = dst ∧
        dStage (ds_dctx st) = dstage_storeHeader ∨
      ∃ m1, kept (frame_ranges (ss_info S) (ss_in S) (ss_out S) (ss_cap S) dst dstEnd (ss_hdr S)) m0 m1 ∧
        (stopped (ss_info S) (ss_content S) (ss_in S) (ss_out S) (ss_cap S) dst dstEnd srcEnd done chunk
           later extra m1 st hint m ∨
         complete (ss_info S) (ss_content S) (ss_in S) (ss_out S) (ss_cap S) dst dstEnd srcEnd done chunk
           later extra m1 st hint m)
  | _ => False
  end.

Lemma call_loop st m :
  loop_inv st m → 0 ≤ work srcEnd st < 16 * zlen chunk + 32 →
  wp (dloop ua (decompress_fuel (zlen chunk)) st srcEnd dst dstEnd (ss_newIn S) (ss_newOut S)) loop_result m.
Proof.
  intros HI Hw. destruct HS as [H1 H2 H3]. eapply dloop_rule; [|exact HI|unfold decompress_fuel; lia].
  clear st m HI Hw. intros st m [[Hd H]|(m1 & K & H)].
  - eapply wp_mono; [by eapply (head_step ua (ss_info S) (ss_content S))|].
    intros [st'|st' hint|d' code] m' Hr; [|by left|done].
    destruct Hr as [[Hr|Hr] Hw]; (split; [|done]); [by left|right; by subst done].
  - eapply wp_mono; [by apply dstep_spec|].
    intros [st'|st' hint|d' code] m' Hr; [|right; by exists m1|done].
    destruct Hr as [Hr Hw]. split; [|done]. right. by exists m1.
Qed.

(** A call starts in the loop's invariant ... *)
Lemma call_start d (rest todo : list byte) :
  decoding S d m0 done rest todo → call_ok S d m0 dst dstSize src chunk →
  chunk ++ later = rest ++ extra → loop_inv (DState d src dst NULL) m0.
Proof.
  intros HD [C1 C2 C3 C4] Hin. destruct HD as [(Hd & _ & [H1 H2 H3])|[H1 H2 H3 H4 H5]].
  - left. split; [done|]. exists chunk, rest. split; [|done].
    constructor; cbn [ds_src ds_dst ds_dctx]; try done.
    by replace (dstEnd - dst) with dstSize by (unfold dstEnd; lia).
  - right. exists m0. split; [reflexivity|]. exists chunk, [], done, rest, todo. split; [|apply H4].
    constructor; cbn [ds_src ds_dst ds_dctx]; try done; [cbn [length]; lia|by rewrite app_nil_r].
Qed.

Lemma ranges_eq :
  frame_ranges (ss_info S) (ss_in S) (ss_out S) (ss_cap S) dst dstEnd (ss_hdr S) = ss_ranges S dst dstSize.
Proof.
  unfold frame_ranges, call_ranges, ss_ranges. by replace (dstEnd - dst) with dstSize by (unfold dstEnd; lia).
Qed.

(** ... and ends in one of three ways. *)
Lemma end_in_header st (hint : Z) m (rest todo : list byte) :
  done = [] → todo = ss_content S → chunk ++ later = rest ++ extra →
  in_head st m → 0 < hint → ds_src st = srcEnd → ds_dst st = dst →
  dStage (ds_dctx st) = dstage_storeHeader →
  wp (let! d := preserve_dict (ds_dctx st) 0 in
      let d := set_expect d (if ds_src st <? srcEnd then ds_src st else NULL) in
      ret (d, ds_dst st - dst, ds_src st - src, hint))
     (λ '(d', n, k, h) m', ∃ out rest' todo',
        call_result S m0 dst dstSize src chunk done rest todo d' n k h m' out rest' todo') m.
Proof.
  intros Hdone -> Hin (s & rest' & H & P) Hh Hsrc Hdst Hst.
  destruct H as [D1 D2 D3 D4 D5 D6 D7 D8 D9 D10].
  assert (Hrun : preserve_dict (ds_dctx st) 0 m = Ret (ds_dctx st) m).
  { unfold preserve_dict. rewrite (hc_dict _ _ _ _ _ _ _ _ D2), Z.eqb_refl. cbn [negb]. by rewrite andb_false_r. }
  eapply wp_run; [exact Hrun|]. apply wp_ret. exists [], rest', (ss_content S).
  assert (s = []) as -> by (destruct s; [done|cbn [length] in D5; lia]).
  destruct (read_split _ _ _ _ _ _ Hin D7 D10 ltac:(cbn [length]; lia)) as (read & -> & Hrd).
  rewrite Hsrc, Z.ltb_irrefl. cbn [length] in Hrd. unfold srcEnd in *.
  constructor; try done.
  - cbn [length]. lia.
  - exists read. split; [done|lia].
  - lia.
  - by rewrite ranges_eq in D8.
  - destruct (Z.ltb_spec (src + zlen chunk - src) (zlen chunk)); [lia|done].
  - right. split; [done|]. split; [|split; [|left; lia]].
    + left. rewrite Hdone. split; [done|]. split; [done|]. constructor; [destruct D2; by constructor|done|].
      destruct P as [P1 P2|pre P1 P2 P3 P4 P5 P6]; [by apply head_start|].
      by apply (head_store _ _ _ _ _ _ pre).
    + destruct P as [P1 P2|pre P1 P2 P3 P4 P5 P6]; [by rewrite P1 in Hst|]. intros ->.
      rewrite app_nil_r in P3. apply (f_equal length) in P3. rewrite length_app in P3.
      pose proof (length_header (negb (contentSize (ss_info S) =? 0)) (ss_info S)) as HL.
      pose proof (frame_rest_length _ _ _ _ _ (so_body _ HS)).
      pose proof (header_small (ss_info S)) as Hhs. unfold minFHSize in *.
      destruct P6 as [P6|[P6 Hs]]; [lia|]. rewrite Hs in *. unfold header_size, maxFHSize in *. lia.
Qed.

(** What the call did, in the terms of its result. *)
Lemma running_result st m m1 (s out x' rest rest' todo todo' : list byte) :
  kept (ss_ranges S dst dstSize) m0 m1 → chunk ++ later = rest ++ extra → done ++ todo = ss_content S →
  running (ss_info S) (ss_content S) (ss_in S) (ss_out S) (ss_cap S) dst dstEnd srcEnd done chunk later
    extra m1 st m s out x' rest' todo' →
  x' = done ++ out ∧ todo = out ++ todo' ∧ ds_dst st - dst = zlen out ∧ bytes_at m dst out ∧
  kept (ss_ranges S dst dstSize) m0 m ∧
  ∃ read, rest = read ++ rest' ∧ ds_src st - src = zlen read ∧ zlen chunk = zlen read + zlen s.
Proof.
  intros K Hin Htext [R1 R2 R3 R4 R5 R6 R7 R8 R9 R10]. split; [done|]. split.
  { subst x'. rewrite <- Htext, <- app_assoc in R8. by apply app_inv_head in R8. }
  split; [lia|]. split; [apply (io_filled _ _ _ _ _ _ _ _ _ _ R2)|]. split.
  { etransitivity; [exact K|]. destruct R9 as [E1 E2]. constructor; [done|]. intros i Hi. apply E2.
    intros (a & n & Ha & Hr). apply Hi. exists a, n. split; [|done]. rewrite <- ranges_eq.
    unfold frame_ranges. set_solver. }
  pose proof (suffix_length _ _ R10).
  destruct (read_split _ _ _ _ _ _ Hin R6 R10 ltac:(lia)) as (read & -> & Hrd).
  exists read. unfold srcEnd in R4. split; [done|]. split; lia.
Qed.

Lemma end_in_blocks st (hint : Z) m m1 (rest todo : list byte) :
  kept (ss_ranges S dst dstSize) m0 m1 → chunk ++ later = rest ++ extra → done ++ todo = ss_content S →
  stopped (ss_info S) (ss_content S) (ss_in S) (ss_out S) (ss_cap S) dst dstEnd srcEnd done chunk
    later extra m1 st hint m →
  wp (let! d := preserve_dict (ds_dctx st) 0 in
      let d := set_expect d (if ds_src st <? srcEnd then ds_src st else NULL) in
      ret (d, ds_dst st - dst, ds_src st - src, hint))
     (λ '(d', n, k, h) m', ∃ out rest' todo',
        call_result S m0 dst dstSize src chunk done rest todo d' n k h m' out rest' todo') m.
Proof.
  intros K Hin Htext ((s & out & x' & rest' & todo' & R & P) & Hh & Hwhy & Hst).
  change (dStage (ds_dctx st) ∈ resting_stages) in Hst.
  destruct (position_rest _ _ _ _ _ _ _ _ _ _ _ _ _ _ P Hst) as [Hrest Htodo].
  pose proof (running_result st m m1 s out x' rest rest' todo todo' K Hin Htext R)
    as (Hx' & Ht & Hn & Hb & K' & read & Hrd & Hk & Hck).
  eapply wp_seq; [eapply park_spec; [exact R|exact P|exact Hst]|].
  intros d' m' (P' & Hst' & X' & F & _). apply wp_ret. exists out, rest', todo'.
  pose proof R as [R1 R2 R3 R4 R5 R6 R7 R8 R9 R10].
  constructor; try done.
  - pose proof (io_dst_out _ _ _ _ _ _ _ _ _ _ R2). pose proof (io_room _ _ _ _ _ _ _ _ _ _ R2).
    eapply bytes_at_frame; [exact F|lia|done].
  - by exists read.
  - lia.
  - etransitivity; [exact K'|]. eapply (frame_kept _ (ss_out S) (ss_cap S)); [exact F| |lia|lia].
    unfold ss_ranges. set_solver.
  - cbn [set_expect srcExpect]. unfold srcEnd in *.
    destruct (Z.ltb_spec (ds_src st) (src + zlen chunk)), (Z.ltb_spec (ds_src st - src) (zlen chunk)); lia.
  - right. split; [done|]. split; [|split; [done|]].
    + right. constructor; cbn [set_expect dStage].
      * by eapply buffers_ok_frame.
      * destruct X'; by constructor.
      * by rewrite Hst'.
      * rewrite <- Hx'. by apply parked_expect.
      * by rewrite <- Hx'.
    + unfold srcEnd, dstEnd in *. destruct Hwhy as [Hw|[Hw Hw']]; [left; lia|right; split; [lia|by apply Htodo]].
Qed.

Lemma end_complete st (hint : Z) m m1 (rest todo : list byte) :
  kept (ss_ranges S dst dstSize) m0 m1 → chunk ++ later = rest ++ extra → done ++ todo = ss_content S →
  complete (ss_info S) (ss_content S) (ss_in S) (ss_out S) (ss_cap S) dst dstEnd srcEnd done chunk
    later extra m1 st hint m →
  wp (let! d := preserve_dict (ds_dctx st) 0 in
      let d := set_expect d (if ds_src st <? srcEnd then ds_src st else NULL) in
      ret (d, ds_dst st - dst, ds_src st - src, hint))
     (λ '(d', n, k, h) m', ∃ out rest' todo',
        call_result S m0 dst dstSize src chunk done rest todo d' n k h m' out rest' todo') m.
Proof.
  intros K Hin Htext (-> & Hst & s & out & R & Hleft).
  pose proof (running_result st m m1 s out _ rest [] todo [] K Hin Htext R)
    as (Hx' & Ht & Hn & Hb & K' & read & Hrd & Hk & Hck).
  assert (Hrun : preserve_dict (ds_dctx st) 0 m = Ret (ds_dctx st) m).
  { unfold preserve_dict. by rewrite Hst, andb_false_r. }
  eapply wp_run; [exact Hrun|]. apply wp_ret. exists out, [], [].
  constructor; try done.
  - by exists read.
  - lia.
  - cbn [set_expect srcExpect]. unfold srcEnd in *.
    destruct (Z.ltb_spec (ds_src st) (src + zlen chunk)), (Z.ltb_spec (ds_src st - src) (zlen chunk)); lia.
  - by left.
Qed.

(** A call that is given the next part of the input. *)
Lemma decompress_call d (rest todo : list byte) (opts : option LZ4F_decompressOptions_t) :
  decoding S d m0 done rest todo → call_ok S d m0 dst dstSize src chunk →
  chunk ++ later = rest ++ extra → stableDst (default (DOptions 0) opts) = 0 →
  wp (LZ4F_decompress ua d dst dstSize src (zlen chunk) opts (ss_newIn S) (ss_newOut S))
     (λ '(d', n, k, h) m', ∃ out rest' todo',
        call_result S m0 dst dstSize src chunk done rest todo d' n k h m' out rest' todo') m0.
Proof.
  intros HD C Hin Hopt. pose proof (call_start d rest todo HD C Hin) as HI.
  assert (Htext : done ++ todo = ss_content S).
  { destruct HD as [(-> & -> & _)|HB]; [done|apply (ib_text _ _ _ _ _ _ HB)]. }
  unfold LZ4F_decompress. rewrite Hopt.
  assert (Hexp : negb (srcExpect d =? NULL) && negb (src =? srcExpect d) = false).
  { destruct (ca_expect _ _ _ _ _ _ _ _ _ _ _ C) as [-> | ->]; [done|]. rewrite Z.eqb_refl. apply andb_false_r. }
  rewrite Hexp. fold srcEnd dstEnd.
  eapply wp_seq; [apply call_loop; [exact HI|]|].
  - unfold work, srcEnd. cbn [ds_src ds_dctx]. pose proof (rank_small (dStage d)). lia.
  - intros [st|st hint|d' code] m Hr; [done| |done].
    destruct Hr as [(Hd & H & Hh & Hs & Hdst & Hst)|(m1 & K & Hr)].
    + apply end_in_header; try done. by rewrite Hd in Htext.
    + rewrite ranges_eq in K. destruct Hr as [Hr|Hr]; [by eapply end_in_blocks|by eapply end_complete].
Qed.

End loop.
(** * Whole frames *)

(** The session of a frame with the buffers its decoder will use. *)
Definition frame_session fi (x data : list byte) (newIn newOut : Z) d : session :=
  Session fi x (data ++ suffix_bytes fi x) (buf_in d fi newIn) (buf_out d fi newOut) (buf_cap d fi)
    newIn newOut (d_header d).

(** A context that is ready for a frame described by [fi]. *)
Record ready fi (newIn newOut : Z) d m : Prop := {
  rd_ctx : head_ctx fi (buf_in d fi newIn) (buf_out d fi newOut) (buf_cap d fi) newIn newOut d m;
  rd_stage : dStage d = dstage_getHeader;
  rd_expect : srcExpect d = NULL
}.

Lemma ready_decoding fi (x data : list byte) (newIn newOut : Z) d m :
  let S := frame_session fi x data newIn newOut d in
  ready fi newIn newOut d m → decoding S d m [] (ss_bytes S) x.
Proof.
  intros S [R1 R2 R3]. left. split; [done|]. split; [done|]. constructor; [done|done|].
  by apply head_start.
Qed.

Lemma frame_session_ok fi (x data : list byte) (newIn newOut : Z) d :
  frame_blocks (block_size fi) (blockMode fi =? LZ4F_blockLinked) [] data x →
  contentSize fi = 0 ∨ contentSize fi = zlen x → zlen x < 2 ^ 64 →
  session_ok (frame_session fi x data newIn newOut d).
Proof. intros Hb Hs Hl. constructor; try done. by exists data. Qed.

(** A frame that is given as a whole, with room for its content. *)
Lemma decompress_whole fi (bytes x data : list byte) (newIn newOut dst dstSize src : Z) d m
    (opts : option LZ4F_decompressOptions_t) :
  let S := frame_session fi x data newIn newOut d in
  frame_blocks (block_size fi) (blockMode fi =? LZ4F_blockLinked) [] data x →
  contentSize fi = 0 ∨ contentSize fi = zlen x → zlen x < 2 ^ 64 →
  bytes = ss_bytes S → ready fi newIn newOut d m → call_ok S d m dst dstSize src bytes →
  zlen x ≤ dstSize → stableDst (default (DOptions 0) opts) = 0 →
  wp (LZ4F_decompress ua d dst dstSize src (zlen bytes) opts newIn newOut)
     (λ '(d', n, k, h) m', n = zlen x ∧ k = zlen bytes ∧ h = 0 ∧ dStage d' = dstage_getHeader ∧
        bytes_at m' dst x ∧ kept (ss_ranges S dst dstSize) m m') m.
Proof.
  intros S Hb Hs Hl Hbytes R C Hroom Hopt.
  pose proof (frame_session_ok fi x data newIn newOut d Hb Hs Hl) as HS. fold S in HS.
  eapply wp_mono; [apply (decompress_call S HS dst dstSize src bytes [] [] [] m d (ss_bytes S) x opts)|];
    try done; [by apply ready_decoding|by rewrite Hbytes|].
  intros [[[d' n] k] h] m' (out & rest' & todo' & [T1 T2 T3 (read & T4 & T5) T6 T7 T8 T9]).
  destruct T9 as [(-> & -> & -> & Hst & _)|(_ & _ & Hrest & Hwhy)].
  - rewrite app_nil_r in *. rewrite Hbytes, T4. subst. done.
  - exfalso. rewrite Hbytes in *. rewrite T4, length_app in *. rewrite T1, length_app in Hroom.
    destruct rest'; [done|]. destruct Hwhy as [Hw|[Hw Ht]]; [cbn [length] in *; lia|].
    destruct todo'; [done|]. cbn [length] in *. lia.
Qed.


(** one call that is given a whole frame and enough room for its content
    delivers exactly the content, reads exactly the frame, and is ready for the
    next frame. *)
Theorem LZ4F_decompress_frame fi (bytes x : list byte) (newIn newOut dst dstSize src : Z) d m :
  lz4_frame fi bytes x → zlen x < 2 ^ 64 → ready fi newIn newOut d m →
  io_call fi (buf_in d fi newIn) (buf_out d fi newOut) (buf_cap d fi) (d_header d) d m dst dstSize src bytes →
  zlen x ≤ dstSize →
  ∃ d' m', LZ4F_decompress ua d dst dstSize src (zlen bytes) None newIn newOut m
             = Ret (d', zlen x, zlen bytes, 0) m' ∧
    bytes_at m' dst x ∧ dStage d' = dstage_getHeader.
Proof.
  intros [F1 F2 (data & F3 & F4)] Hl R C Hroom.
  pose proof (decompress_whole fi bytes x data newIn newOut dst dstSize src d m None F3 F2 Hl F4 R C
    Hroom eq_refl) as H.
  apply wp_result in H as ([[[d' n] k] h] & m' & Hrun & -> & -> & -> & Hst & Hb & _). by exists d', m'.
Qed.



End resume.
