(* ===== verification/Lz4FrameSafe.v ===== *)
(** The frame decoder on every input, however malformed: the stages that read
    blocks and the end of a frame stay within the buffers, make progress, and
    leave a context from which the next call is safe again.

    What the blocks decode to is not known here.  The dictionary lemmas of
    [Lz4FrameDict] are used with whatever text the decoder has produced. *)

From Stdlib Require Import ZArith Lia Strings.Byte.
From stdpp Require Import base gmap list fin_maps numbers.
From S2P Require Import Prelude Mem Lz4Common Lz4Format Lz4Decompress Lz4DecompressProofs Lz4DecompressApi Xxhash XxhashProofs Lz4Frame Lz4FrameDec Lz4FrameFormat Lz4FrameProofs Lz4FrameDict Lz4FrameDecode Lz4FrameCall.

Lemma kept_mono (rs rs' : list (Z * Z)) (m m' : mem) :
  (∀ i, in_ranges rs i → in_ranges rs' i) → kept rs m m' → kept rs' m m'.
Proof. intros Hi [D E]. constructor; [done|]. intros i Hn. apply E. auto. Qed.

(** Some bytes of a mapped range. *)
Lemma mapped_bytes (m : mem) (a n : Z) :
  0 ≤ n → mapped m a n → ∃ l, zlen l = n ∧ bytes_at m a l.
Proof.
  intros Hn Hm. destruct (mapped_bytes_at m a (Z.to_nat n)) as (l & Hl & Hb).
  - by rewrite Z2Nat.id.
  - exists l. split; [lia|done].
Qed.

(** A dictionary outside of the decoder's buffer has a size. *)
Definition dict_sized (d : LZ4F_dctx_t) : Prop := d_dict d = tmpOutBuffer d ∨ 0 ≤ d_dictSize d.

Section safe.
Context {arch : Arch} (ua : bool).
Context (fi : LZ4F_frameInfo_t) (bin bout cap hdr : Z).
Implicit Types (m : mem) (d : LZ4F_dctx_t) (st : dstate) (s out t : list byte).

Let bs : Z := block_size fi.
Let linked : bool := blockMode fi =? LZ4F_blockLinked.

(** * The state between two stages *)

Record block_ctx d : Prop := {
  bc_frame : frame_ctx fi bin bout cap d;
  bc_hash : shaped 4 (d_xxh d);
  bc_dict : linked = false → d_dict d = bout;
  bc_hdr : d_header d = hdr
}.

Lemma block_ctx_same d d' :
  d_frameInfo d' = d_frameInfo d → d_maxBlockSize d' = d_maxBlockSize d →
  d_maxBufferSize d' = d_maxBufferSize d → d_tmpIn d' = d_tmpIn d → tmpOutBuffer d' = tmpOutBuffer d →
  (linked = false → tmpOut d' = tmpOut d) → d_xxh d' = d_xxh d →
  (linked = false → d_dict d' = d_dict d) → d_header d' = d_header d →
  block_ctx d → block_ctx d'.
Proof.
  intros E1 E2 E3 E4 E5 E6 E7 E8 E9 [[X1 X2 X3 X4 X5 X6] B2 B3 B4].
  constructor; rewrite ?E7, ?E9; try done.
  - constructor; rewrite ?E1, ?E2, ?E3, ?E4, ?E5; try done. intros Hl. rewrite E6; auto.
  - intros Hl. rewrite E8; auto.
Qed.

(** The current call. *)
Context (dst0 dstEnd srcStart srcEnd : Z) (rs : list (Z * Z)) (m0 : mem).
Context (Hrs : ∀ i, in_ranges (call_ranges fi bin bout cap dst0 dstEnd) i → in_ranges rs i).

Record going st m s out : Prop := {
  go_buf : buffers_ok fi bin bout cap m;
  go_io : io_ok fi bin bout cap m (ds_src st) s dst0 dstEnd out;
  go_ctx : block_ctx (ds_dctx st);
  go_src : srcEnd = ds_src st + zlen s;
  go_dst : ds_dst st = dst0 + zlen out;
  go_pad : is_Some (m !! srcEnd);
  go_kept : kept rs m0 m;
  go_lo : srcStart ≤ ds_src st
}.

Abbreviation dict d m t out := (dict_at fi d m dst0 t out).

(** What each stage relies on. *)
Definition spot d m (sel : Z) out t : Prop :=
  match dStage d with
  | dstage_getCBlockSize => dict d m t out
  | dstage_storeCBlockSize => dict d m t out ∧ 0 ≤ d_tmpInSize d < 4
  | dstage_copyDirect | dstage_getCBlock => dict d m t out ∧ 0 < tmpInTarget d ≤ bs
  | dstage_storeCBlock => dict d m t out ∧ 0 ≤ d_tmpInSize d < tmpInTarget d ∧ tmpInTarget d ≤ bs
  | dstage_decodeCBlock | dstage_decodeCBlock_intoTmp | dstage_decodeCBlock_intoDst =>
      dict d m t out ∧ 0 < tmpInTarget d ≤ bs ∧ mapped m sel (Z.max 2 (tmpInTarget d)) ∧
      (0 ≤ sel ≤ ADDR_MAX) ∧
      (dStage d = dstage_decodeCBlock_intoDst → bs ≤ dstEnd - (dst0 + zlen out))
  | dstage_flushOut => ∃ f pend, flushing fi bout cap d m dst0 t f pend out
  | dstage_getSuffix => dict_sized d
  | dstage_storeSuffix => dict_sized d ∧ 0 ≤ d_tmpInSize d < 4
  | _ => False
  end.

Definition safe_inv st m : Prop :=
  ∃ s out t, going st m s out ∧ spot (ds_dctx st) m (ds_sel st) out t.

Definition safe_end st m : Prop :=
  dStage (ds_dctx st) = dstage_getHeader ∧ dict_sized (ds_dctx st) ∧ ∃ s out, going st m s out.

Definition settled (w : Z) (r : stage_result) m : Prop :=
  match r with
  | Again st => safe_inv st m ∧ 0 ≤ work srcEnd st < w
  | Stop st _ => safe_inv st m ∧ dStage (ds_dctx st) ∈ resting_stages ∨ safe_end st m
  | Error _ code => LZ4F_isError code = true ∧ kept rs m0 m
  end.

Ltac fields := cbn [ds_dctx ds_src ds_dst ds_sel set_in set_stage set_dict set_sum set_out
  d_frameInfo dStage frameRemainingSize d_maxBlockSize d_maxBufferSize d_tmpIn d_tmpInSize
  tmpInTarget tmpOutBuffer d_dict d_dictSize tmpOut tmpOutSize tmpOutStart d_xxh].

(** The context changes. *)
Lemma going_ctx st d' (sel : Z) m s out :
  going st m s out → block_ctx d' → going (DState d' (ds_src st) (ds_dst st) sel) m s out.
Proof. intros [G1 G2 G3 G4 G5 G6 G7 G8] X. by constructor. Qed.

(** Input is read. *)
Lemma going_read st d' (sel : Z) m (a : list byte) s out :
  going st m (a ++ s) out → block_ctx d' →
  going (DState d' (ds_src st + zlen a) (ds_dst st) sel) m s out.
Proof.
  intros [G1 G2 G3 G4 G5 G6 G7 G8] X. rewrite length_app in G4. constructor; fields; try done; try lia.
  by apply io_ok_read.
Qed.

(** A stage writes to a buffer, or to the free part of the destination. *)
Lemma going_frame st m m' (lo hi : Z) s out :
  going st m s out → frame lo hi m m' → writable fi bin bout cap dst0 dstEnd out lo hi →
  going st m' s out.
Proof.
  intros [G1 G2 G3 G4 G5 G6 G7 G8] F W. constructor; try done.
  - by eapply buffers_ok_frame.
  - by eapply io_ok_frame.
  - by apply (frame_dom _ _ _ _ F).
  - etransitivity; [exact G7|]. apply (kept_mono _ _ _ _ Hrs). unfold call_ranges, writable in *. fold bs in W.
    pose proof (io_room _ _ _ _ _ _ _ _ _ _ G2).
    destruct W as [W|[W|W]]; [apply (frame_kept _ bin bs lo hi)|apply (frame_kept _ bout cap lo hi)|
      apply (frame_kept _ dst0 (dstEnd - dst0) lo hi)]; try done; try lia; set_solver.
Qed.

(** Output is delivered. *)
Lemma going_write st m s out (u : list byte) :
  going st m s out → bytes_at m (dst0 + zlen out) u → dst0 + zlen (out ++ u) ≤ dstEnd →
  going (DState (ds_dctx st) (ds_src st) (dst0 + zlen out + zlen u) (ds_sel st)) m s (out ++ u).
Proof.
  intros [G1 G2 G3 G4 G5 G6 G7 G8] Hu Hr. constructor; fields; try done; [by apply io_ok_write|].
  rewrite length_app. lia.
Qed.

Lemma going_dict st d m s out t :
  going st m s out → block_ctx d → dict d m t out → dict_sized d.
Proof.
  intros G X D. destruct linked eqn:Hl.
  - right. apply (D Hl).
  - left. rewrite (bc_dict _ X Hl). by rewrite (fx_out _ _ _ _ _ (bc_frame _ X)).
Qed.

(** * Input *)

Lemma block_sizes m : buffers_ok fi bin bout cap m → KB 64 ≤ bs ≤ 2 ^ 22 ∧ needed fi ≤ cap < 2 ^ 24.
Proof. intros [B1 B2 B3 B4 B5 B6]. split; [by apply block_size_range|done]. Qed.

(** The stages that collect input do so within their buffer. *)
Lemma safe_gather st m s out (n : Z) :
  going st m s out → 0 ≤ d_tmpInSize (ds_dctx st) ≤ n → n ≤ bs →
  wp (gather st (d_tmpIn (ds_dctx st)) n srcEnd)
     (λ '(st', ok) m', ∃ (a : list byte) s' k, s = a ++ s' ∧ k = d_tmpInSize (ds_dctx st) + zlen a ∧
        st' = DState (set_in (ds_dctx st) k (tmpInTarget (ds_dctx st)))
                (ds_src st + zlen a) (ds_dst st) (ds_sel st) ∧
        (if ok : bool then k = n else k < n) ∧ frame bin (bin + bs) m m' ∧ going st' m' s' out) m.
Proof.
  intros G Hk Hn. pose proof G as [G1 G2 G3 G4 G5 G6 G7 G8]. pose proof (block_sizes m G1) as [Hbs _].
  pose proof G1 as [B1 B2 B3 B4 B5 B6]. pose proof G2 as [I1 I2 I3 I4 I5 I6 I7 I8 I9 I10 I11].
  fold bs in I6, B3. rewrite (fx_in _ _ _ _ _ (bc_frame _ G3)). unfold apart in *.
  destruct (mapped_bytes m bin (d_tmpInSize (ds_dctx st))) as (pre & Hl & Hp); [lia|solve_mapped|].
  eapply wp_mono; [apply (gather_spec st m bin n srcEnd pre s); try done; unfold apart; try lia|].
  - solve_mapped.
  - intros [st' ok] m1 (a & s' & -> & Hle & -> & Hok & F1 & _). rewrite (length_app pre a) in *.
    exists a, s', (zlen pre + zlen a). rewrite Nat2Z.inj_add.
    assert (F : frame bin (bin + bs) m m1) by (eapply frame_weaken; [exact F1|lia..]).
    split; [done|]. split; [lia|]. split; [done|]. split; [destruct ok; lia|]. split; [done|].
    apply going_read; [|by eapply block_ctx_same; [..|exact G3]].
    eapply going_frame; [exact G|exact F|]. left. fold bs. lia.
Qed.

(** The size of a block. *)
Lemma safe_decodeCBlockSize st m (w : Z) s out t :
  going st m s out → dict (ds_dctx st) m t out → mapped m (ds_sel st) 4 → 16 * zlen s + 7 < w →
  wp (stage_decodeCBlockSize st dstEnd) (settled w) m.
Proof.
  intros G D Hm Hw. unfold stage_decodeCBlockSize. pose proof G as [G1 G2 G3 G4 G5 G6 G7 G8].
  destruct (mapped_bytes m (ds_sel st) 4 ltac:(lia) Hm) as (q & Hq & Hb).
  eapply wp_run; [apply (readLE32_val _ q); [done|lia]|].
  rewrite (fx_block _ _ _ _ _ (bc_frame _ G3)). fold bs.
  set (n := Z.land (le_val q) 0x7FFFFFFF).
  assert (Hn : 0 ≤ n) by (apply Z.land_nonneg; right; done).
  assert (Hwork : ∀ d sel, rank (dStage d) ≤ 7 → 0 ≤ rank (dStage d) →
    0 ≤ work srcEnd (DState d (ds_src st) (ds_dst st) sel) < w) by (intros; unfold work; fields; lia).
  destruct (Z.eqb_spec n 0) as [E|E].
  { apply wp_ret. split; [|by apply Hwork]. exists s, out, t.
    split; [apply going_ctx; [done|by eapply block_ctx_same; [..|exact G3]]|].
    apply (going_dict st _ m s out t); [done|by eapply block_ctx_same; [..|exact G3]|].
    by eapply dict_at_same; [..|exact D]. }
  rewrite Z.gtb_ltb. destruct (Z.ltb_spec bs n); [apply wp_ret; split; [by apply error_large|done]|].
  assert (Hinv : ∀ stg, stg = dstage_copyDirect ∨ stg = dstage_getCBlock →
    safe_inv (DState (set_stage (set_in (ds_dctx st) (d_tmpInSize (ds_dctx st)) n) stg)
                (ds_src st) (ds_dst st) (ds_sel st)) m).
  { intros stg Hs. exists s, out, t.
    split; [apply going_ctx; [done|by eapply block_ctx_same; [..|exact G3]]|].
    assert (D' : dict (set_stage (set_in (ds_dctx st) (d_tmpInSize (ds_dctx st)) n) stg) m t out)
      by (by eapply dict_at_same; [..|exact D]).
    destruct Hs as [-> | ->]; (split; [exact D'|]; fields; lia). }
  destruct (Z.land (le_val q) LZ4F_BLOCKUNCOMPRESSED_FLAG =? 0); cbn [negb];
    [|apply wp_ret; split; [by apply Hinv; left|by apply Hwork]].
  fields. destruct (ds_dst st =? dstEnd); apply wp_ret.
  - left. split; [by apply Hinv; right|]. fields. unfold resting_stages. set_solver.
  - split; [by apply Hinv; right|by apply Hwork].
Qed.

Lemma safe_storeCBlockSize st m s out t :
  going st m s out → dict (ds_dctx st) m t out → 0 ≤ d_tmpInSize (ds_dctx st) < 4 →
  dStage (ds_dctx st) = dstage_storeCBlockSize →
  wp (stage_storeCBlockSize st srcEnd dstEnd) (settled (16 * zlen s + 2)) m.
Proof.
  intros G D Hk Hst. pose proof G as [G1 G2 G3 G4 G5 G6 G7 G8]. pose proof (block_sizes m G1) as [Hbs _].
  unfold stage_storeCBlockSize, KB, BHSize in *.
  eapply wp_seq; [apply (safe_gather st m s out 4 G); lia|].
  intros [st' ok] m1 (a & s' & k & -> & -> & -> & Hok & F & G'). rewrite length_app. fields.
  assert (D' : dict (set_in (ds_dctx st) (d_tmpInSize (ds_dctx st) + zlen a) (tmpInTarget (ds_dctx st))) m1 t out).
  { eapply dict_at_same; [..|eapply dict_at_frame;
      [exact D|exact (bc_frame _ G3)|exact G1|exact G2|exact F|left; fold bs; lia]]; done. }
  destruct ok; cbn [negb].
  - apply safe_decodeCBlockSize with s' out t; [|exact D'| |lia].
    + by apply (going_ctx _ _ _ _ _ _ G'), (go_ctx _ _ _ _ G').
    + fields. rewrite (fx_in _ _ _ _ _ (bc_frame _ G3)). pose proof (bo_in _ _ _ _ _ (go_buf _ _ _ _ G')) as Hin.
      fold bs in Hin. solve_mapped.
  - apply wp_ret. left. split; [|fields; rewrite Hst; unfold resting_stages; set_solver].
    exists s', out, t. split; [done|]. unfold spot. fields. rewrite Hst. split; [exact D'|lia].
Qed.

Lemma safe_getCBlockSize st m s out t :
  going st m s out → dict (ds_dctx st) m t out →
  wp (stage_getCBlockSize st srcEnd dstEnd) (settled (16 * zlen s + 2)) m.
Proof.
  intros G D. pose proof G as [G1 G2 G3 G4 G5 G6 G7 G8].
  pose proof (io_size _ _ _ _ _ _ _ _ _ _ G2) as [_ Hs].
  unfold stage_getCBlockSize. rewrite usize_fits by lia. rewrite Z.geb_leb. unfold BHSize.
  destruct (Z.leb_spec 4 (srcEnd - ds_src st)) as [H4|H4].
  - assert (H4' : zlen (take 4 s) = 4) by (rewrite length_take_le; lia).
    pose proof (bytes_at_mapped _ _ _ (io_src _ _ _ _ _ _ _ _ _ _ G2)) as Hm.
    rewrite <- (take_drop 4 s) in G.
    apply (going_read _ (ds_dctx st) (ds_src st)) in G; [|done]. rewrite H4' in G.
    apply (safe_decodeCBlockSize (DState (ds_dctx st) (ds_src st + 4) (ds_dst st) (ds_src st)) m _ (drop 4 s) out t);
      [exact G|done|fields; solve_mapped|]. rewrite length_drop. lia.
  - apply (safe_storeCBlockSize (DState _ _ _ _) m s out t); fields; try done.
    + apply going_ctx; [done|]. by eapply block_ctx_same; [..|exact G3].
    + by eapply dict_at_same; [..|exact D].
Qed.

Lemma safe_getCBlock st m s out t :
  going st m s out → dict (ds_dctx st) m t out → 0 < tmpInTarget (ds_dctx st) ≤ bs →
  wp (stage_getCBlock st srcEnd) (settled (16 * zlen s + 7)) m.
Proof.
  intros G D Ht. pose proof G as [G1 G2 G3 G4 G5 G6 G7 G8]. pose proof (block_sizes m G1) as [Hbs _].
  pose proof G2 as [I1 I2 I3 I4 I5 I6 I7 I8 I9 I10 I11]. unfold KB in *.
  unfold stage_getCBlock. rewrite usize_fits by lia. set (n := tmpInTarget (ds_dctx st)) in *.
  destruct (Z.ltb_spec (srcEnd - ds_src st) n) as [Hlt|Hge]; apply wp_ret.
  - split; [|unfold work; fields; cbn [rank]; lia]. exists s, out, t.
    split; [apply going_ctx; [done|by eapply block_ctx_same; [..|exact G3]]|].
    split; [by eapply dict_at_same; [..|exact D]|]. fields. fold n. lia.
  - assert (Hl : zlen (take (Z.to_nat n) s) = n) by (rewrite length_take_le; lia).
    pose proof (bytes_at_mapped _ _ _ I1) as Hm. rewrite <- (take_drop (Z.to_nat n) s) in G.
    assert (X : block_ctx (set_stage (ds_dctx st) dstage_decodeCBlock))
      by (by eapply block_ctx_same; [..|exact G3]).
    apply (going_read _ _ (ds_src st) _ _ _ _ G) in X as G'. rewrite Hl in G'.
    split; [|unfold work; fields; cbn [rank]; lia]. exists (drop (Z.to_nat n) s), out, t.
    split; [exact G'|]. split; [by eapply dict_at_same; [..|exact D]|]. fields. fold n.
    split; [lia|]. split; [|split; [lia|done]].
    intros i Hi. destruct (decide (i = srcEnd)) as [->|]; [done|]. apply Hm. lia.
Qed.

Lemma safe_storeCBlock st m s out t :
  going st m s out → dict (ds_dctx st) m t out → dStage (ds_dctx st) = dstage_storeCBlock →
  0 ≤ d_tmpInSize (ds_dctx st) < tmpInTarget (ds_dctx st) → tmpInTarget (ds_dctx st) ≤ bs →
  wp (stage_storeCBlock st srcEnd) (settled (16 * zlen s + 6)) m.
Proof.
  intros G D Hst Hk Ht. pose proof G as [G1 G2 G3 G4 G5 G6 G7 G8]. pose proof (block_sizes m G1) as [Hbs _].
  unfold stage_storeCBlock, KB in *. set (n := tmpInTarget (ds_dctx st)) in *.
  eapply wp_seq; [apply (safe_gather st m s out n G); lia|].
  intros [st' ok] m1 (a & s' & k & -> & -> & -> & Hok & F & G'). rewrite length_app. fields.
  assert (D' : dict (ds_dctx st) m1 t out).
  { eapply dict_at_frame; [exact D|exact (bc_frame _ G3)|exact G1|exact G2|exact F|left; fold bs; lia]. }
  pose proof (go_buf _ _ _ _ G') as [B1 B2 B3 B4 B5 B6]. fold bs in B3, B6.
  destruct ok; cbn [negb]; apply wp_ret.
  - split; [|unfold work; fields; cbn [rank]; destruct G' as [_ _ _ G4' _ _ _ _]; cbn [ds_src] in G4'; lia].
    exists s', out, t. split.
    { eapply (going_ctx (DState _ _ _ _)); [exact G'|]. by eapply block_ctx_same; [..|exact G3]. }
    split; [by eapply dict_at_same; [..|exact D']|]. fields. fold n.
    rewrite (fx_in _ _ _ _ _ (bc_frame _ G3)). split; [lia|]. split; [solve_mapped|]. split; [lia|done].
  - left. split; [|fields; rewrite Hst; unfold resting_stages; set_solver].
    exists s', out, t. split; [done|]. unfold spot. fields. rewrite Hst.
    split; [by eapply dict_at_same; [..|exact D']|]. fold n. lia.
Qed.

(** * Output *)

Lemma safe_decodeCBlock st m s out t :
  going st m s out → dict (ds_dctx st) m t out → 0 < tmpInTarget (ds_dctx st) ≤ bs →
  mapped m (ds_sel st) (Z.max 2 (tmpInTarget (ds_dctx st))) → 0 ≤ ds_sel st ≤ ADDR_MAX →
  wp (stage_decodeCBlock st dstEnd) (settled (16 * zlen s + 5)) m.
Proof.
  intros G D Ht Hm Hs. pose proof G as [G1 G2 G3 G4 G5 G6 G7 G8].
  pose proof G2 as [I1 I2 I3 I4 I5 I6 I7 I8 I9 I10 I11].
  unfold stage_decodeCBlock. apply wp_ret.
  rewrite (fx_block _ _ _ _ _ (bc_frame _ G3)), G5, usize_fits by lia. fold bs.
  assert (HG : ∀ stg, going (DState (set_stage (ds_dctx st) stg) (ds_src st) (dst0 + zlen out) (ds_sel st)) m s out).
  { intros stg. rewrite <- G5. apply going_ctx; [done|]. by eapply block_ctx_same; [..|exact G3]. }
  assert (HD : ∀ stg, dict (set_stage (ds_dctx st) stg) m t out) by (intros; by eapply dict_at_same; [..|exact D]).
  destruct (Z.ltb_spec (dstEnd - (dst0 + zlen out)) bs);
    (split; [|unfold work; fields; cbn [rank]; lia]); exists s, out, t; (split; [apply HG|]);
    (split; [apply HD|]); (split; [done|]); (split; [done|]); (split; [done|]); [done|intros _; lia].
Qed.

(** A block that may hold anything is decoded within its place. *)
Lemma safe_decoder d m (sel dest n : Z) :
  block_ctx d → info_ok fi → 0 < n ≤ bs → mapped m sel (Z.max 2 n) → mapped m dest bs →
  0 ≤ sel ≤ ADDR_MAX → 0 ≤ dest ≤ ADDR_MAX →
  (linked = true → 0 ≤ d_dictSize d < 2 ^ 31 ∧ mapped m (d_dict d) (d_dictSize d)) →
  wp (decoder_for d sel dest (s32 n) (s32 (d_maxBlockSize d)) (d_dict d) (s32 (d_dictSize d)))
     (λ r m', r ≤ bs ∧ frame dest (dest + bs) m m') m.
Proof.
  intros X Hok Hn Hs Hd Ha1 Ha2 Hdict. pose proof (block_size_range _ Hok) as Hbs. fold bs in Hbs.
  unfold KB in *. assert (Ha : addressable sel dest n bs) by (unfold addressable, ADDR_MAX in *; lia).
  unfold decoder_for. rewrite (linked_eq _ _ _ _ _ (bc_frame _ X)), (fx_block _ _ _ _ _ (bc_frame _ X)).
  fold bs linked. rewrite (s32_small n), (s32_small bs) by lia. destruct linked eqn:Hl.
  - destruct (Hdict eq_refl) as [Hsize Hm]. rewrite s32_small by lia.
    eapply wp_mono; [apply usingDict_safe; try done; lia|]. intros r m' [F Hr].
    rewrite (Z.max_r 0) in F, Hr by lia. split; [lia|done].
  - unfold LZ4F_decompress_safe, LZ4_decompress_safe.
    eapply wp_mono; [apply decompress_generic_safe; try done; try lia; unfold MAX_DISTANCE, MAXD_LOG|].
    + by left.
    + solve_mapped.
    + intros r m' [F Hr]. rewrite (Z.max_r 0) in F, Hr by lia. split; [lia|done].
Qed.

(** Output that is in place is counted and summed. *)
Lemma safe_account d m (p : Z) (u : list byte) :
  block_ctx d → bytes_at m p u → zlen u < 2 ^ 31 →
  ∃ h r, account d p (zlen u) m = Ret (set_sum d h r) m ∧ block_ctx (set_sum d h r).
Proof.
  intros X Hu Hl. unfold account. rewrite (fx_info _ _ _ _ _ (bc_frame _ X)).
  assert (Hh : ∃ h, (if negb (contentChecksumFlag fi =? 0) then XXH32_update (d_xxh d) p (zlen u)
                     else ret (d_xxh d)) m = Ret h m ∧ shaped 4 h).
  { pose proof (bc_hash _ X) as Hs. destruct (contentChecksumFlag fi =? 0); cbn [negb]; [by eexists|].
    destruct (update32_shaped (d_xxh d) u p m Hs Hu) as (h & Hh & Hs'); [|by exists h].
    unfold ptr_bits, STEPSIZE. destruct LZ4_64bits; simpl; lia. }
  destruct Hh as (h & Hrun & Hs). unfold bind. rewrite Hrun. eexists _, _. split; [reflexivity|].
  destruct X as [[X1 X2 X3 X4 X5 X6] X7 X8 X9]. constructor; [by constructor|done..].
Qed.

(** ... and the dictionary follows. *)
Lemma safe_deliver st d m s out t (u : list byte) :
  going st m s out → block_ctx d → dict d m t out → bytes_at m (dst0 + zlen out) u →
  dst0 + zlen (out ++ u) ≤ dstEnd →
  wp (update_linked d (dst0 + zlen out) (zlen u) dst0 false)
     (λ d' m', dict_changed d d' ∧ dict d' m' (t ++ u) (out ++ u) ∧ block_ctx d' ∧
        ∀ d'' sel, block_ctx d'' →
        going (DState d'' (ds_src st) (dst0 + zlen out + zlen u) sel) m' s (out ++ u)) m.
Proof.
  intros G X D Hu Hr. apply (going_write _ _ _ _ _ G Hu) in Hr as G'.
  destruct linked eqn:Hl.
  - pose proof G' as [G1 G2 G3 G4 G5 G6 G7 G8].
    eapply wp_mono; [by apply (update_linked_spec fi bin bout cap dst0 dstEnd d m _ s out u t (bc_frame _ X) G1 G2)|].
    intros d' m' ((p & n & ->) & F & D'). split; [by exists p, n|]. split; [done|].
    split; [eapply block_ctx_same; [..|exact X]; (done || congruence)|]. intros d'' sel X''.
    eapply going_frame; [by apply (going_ctx _ d'' sel _ _ _ G')|exact F|]. unfold writable. lia.
  - unfold update_linked. rewrite (linked_eq _ _ _ _ _ (bc_frame _ X)). fold linked. rewrite Hl.
    apply wp_ret. split; [exists (d_dict d), (d_dictSize d); by destruct d|].
    split; [intros E; fold linked in E; congruence|]. split; [done|].
    intros d'' sel X''. by apply (going_ctx _ d'' sel _ _ _ G').
Qed.

(** Input that is copied as it is. *)
Lemma safe_copyDirect st m s out t :
  going st m s out → dict (ds_dctx st) m t out → dStage (ds_dctx st) = dstage_copyDirect →
  0 < tmpInTarget (ds_dctx st) ≤ bs →
  wp (stage_copyDirect st srcEnd dst0 dstEnd) (settled (16 * zlen s + 2)) m.
Proof.
  intros G D Hst Ht. pose proof G as [G1 G2 G3 G4 G5 G6 G7 G8]. pose proof (block_sizes m G1) as [Hbs _].
  pose proof G2 as [I1 I2 I3 I4 I5 I6 I7 I8 I9 I10 I11]. unfold KB in Hbs.
  unfold stage_copyDirect. set (n := tmpInTarget (ds_dctx st)) in *. rewrite G5.
  rewrite (usize_fits (srcEnd - ds_src st)), (usize_fits (dstEnd - _)) by lia.
  set (k1 := if srcEnd - ds_src st <? n then _ else _).
  assert (Hk1 : k1 = Z.min n (zlen s)).
  { unfold k1. destruct (Z.ltb_spec (srcEnd - ds_src st) n); lia. }
  set (k := if _ <? k1 then _ else _).
  assert (Hk : k = Z.min (Z.min n (zlen s)) (dstEnd - (dst0 + zlen out))).
  { unfold k. destruct (Z.ltb_spec (dstEnd - (dst0 + zlen out)) k1); lia. }
  clearbody k. clear k1 Hk1.
  assert (Hsplit : ∃ u s', s = u ++ s' ∧ k = zlen u).
  { exists (take (Z.to_nat k) s), (drop (Z.to_nat k) s). rewrite take_drop, length_take_le by lia.
    split; [done|lia]. }
  destruct Hsplit as (u & s' & -> & ->). rewrite length_app in *.
  apply bytes_at_app in I1 as [Iu _]. unfold apart in *.
  wp_apply memcpy_spec; [lia|solve_mapped|solve_mapped|]. intros _ m1 [F1 C1].
  assert (W : writable fi bin bout cap dst0 dstEnd out (dst0 + zlen out) (dst0 + zlen out + zlen u))
    by (right; right; lia).
  pose proof (going_frame _ _ _ _ _ _ _ G F1 W) as G'.
  destruct (safe_account (ds_dctx st) m1 (ds_src st) u G3) as (h & r & Hacc & X1);
    [eapply bytes_at_frame; [exact F1|lia|done]|lia|].
  eapply wp_run; [exact Hacc|].
  eapply wp_seq; [apply (safe_deliver st _ m1 (u ++ s') out t u G' X1)|].
  - eapply dict_at_same; [..|eapply dict_at_frame;
      [exact D|exact (bc_frame _ G3)|exact G1|exact G2|exact F1|lia]]; done.
  - eapply bytes_at_copy; [|exact Iu]. done.
  - rewrite length_app. lia.
  - intros d2 m2 ((p & q & ->) & D2 & X2 & HG).
    assert (HR : ∀ d'' sel, block_ctx d'' →
      going (DState d'' (ds_src st + zlen u) (dst0 + zlen out + zlen u) sel) m2 s' (out ++ u)).
    { intros d'' sel X''. by apply (going_read _ d'' sel _ _ _ _ (HG d'' sel X'')). }
    fields. fold n. destruct (Z.eqb_spec (zlen u) n) as [He|He]; apply wp_ret.
    + split; [|unfold work; fields; cbn [rank]; lia]. exists s', (out ++ u), (t ++ u).
      split; [apply HR; by eapply block_ctx_same; [..|exact X2]|]. by eapply dict_at_same; [..|exact D2].
    + left. split; [|fields; rewrite Hst; unfold resting_stages; set_solver].
      exists s', (out ++ u), (t ++ u). split; [apply HR; by eapply block_ctx_same; [..|exact X2]|].
      unfold spot. fields. rewrite Hst. split; [by eapply dict_at_same; [..|exact D2]|].
      rewrite usize_fits by lia. lia.
Qed.

(** The dictionary is readable as a whole. *)
Lemma dict_mapped st m s out t :
  going st m s out → dict (ds_dctx st) m t out → linked = true →
  0 ≤ d_dictSize (ds_dctx st) < 2 ^ 31 ∧ mapped m (d_dict (ds_dctx st)) (d_dictSize (ds_dctx st)).
Proof.
  intros [G1 G2 G3 G4 G5 G6 G7 G8] D Hl. pose proof G2 as [I1 I2 I3 I4 I5 I6 I7 I8 I9 I10 I11].
  pose proof G1 as [B1 B2 B3 B4 B5 B6]. destruct (D Hl) as [K1 K2 K3 K4 K5].
  rewrite (fx_out _ _ _ _ _ (bc_frame _ G3)), (fx_cap _ _ _ _ _ (bc_frame _ G3)) in K5.
  split; [lia|]. destruct K5 as [[K5 K6]|[K5 K6]]; [rewrite K5|]; solve_mapped.
Qed.

Lemma safe_intoDst st m s out t :
  going st m s out → dict (ds_dctx st) m t out → 0 < tmpInTarget (ds_dctx st) ≤ bs →
  mapped m (ds_sel st) (Z.max 2 (tmpInTarget (ds_dctx st))) → 0 ≤ ds_sel st ≤ ADDR_MAX →
  bs ≤ dstEnd - (dst0 + zlen out) →
  wp (stage_intoDst st dst0) (settled (16 * zlen s + 4)) m.
Proof.
  intros G D Ht Hm Hsel Hroom. pose proof G as [G1 G2 G3 G4 G5 G6 G7 G8].
  pose proof (block_sizes m G1) as [Hbs _]. pose proof G2 as [I1 I2 I3 I4 I5 I6 I7 I8 I9 I10 I11].
  unfold stage_intoDst. rewrite G5. unfold apart, KB in *.
  eapply wp_seq; [apply (safe_decoder (ds_dctx st) m (ds_sel st) _ _ G3 (bo_info _ _ _ _ _ G1) Ht Hm)|].
  - solve_mapped.
  - done.
  - lia.
  - by eapply dict_mapped.
  - intros r m1 [Hr F1]. destruct (Z.ltb_spec r 0); [apply wp_ret|].
    { split; [by apply error_large|]. eapply (go_kept st m1 s out), going_frame; [exact G|exact F1|].
      right; right. lia. }
    assert (W : writable fi bin bout cap dst0 dstEnd out (dst0 + zlen out) (dst0 + zlen out + bs))
      by (right; right; lia).
    pose proof (going_frame _ _ _ _ _ _ _ G F1 W) as G'.
    destruct (mapped_bytes m1 (dst0 + zlen out) r) as (u & Hu & Hb); [lia|solve_mapped|].
    rewrite <- Hu. destruct (safe_account (ds_dctx st) m1 _ u G3 Hb) as (h & rem & Hacc & X1); [lia|].
    eapply wp_run; [exact Hacc|]. eapply wp_seq; [apply (safe_deliver st _ m1 s out t u G' X1)|].
    + eapply dict_at_same; [..|eapply dict_at_frame;
        [exact D|exact (bc_frame _ G3)|exact G1|exact G2|exact F1|lia]]; done.
    + done.
    + rewrite length_app. lia.
    + intros d2 m2 (_ & D2 & X2 & HG). apply wp_ret. split; [|unfold work; fields; cbn [rank]; lia].
      exists s, (out ++ u), (t ++ u). split; [apply HG; by eapply block_ctx_same; [..|exact X2]|].
      by eapply dict_at_same; [..|exact D2].
Qed.

(** A block is decoded to the buffer. *)
Lemma safe_intoTmp st m s out t :
  going st m s out → dict (ds_dctx st) m t out → 0 < tmpInTarget (ds_dctx st) ≤ bs →
  mapped m (ds_sel st) (Z.max 2 (tmpInTarget (ds_dctx st))) → 0 ≤ ds_sel st ≤ ADDR_MAX →
  wp (stage_intoTmp st) (settled (16 * zlen s + 4)) m.
Proof.
  intros G D Ht Hm Hsel. pose proof (block_sizes m (go_buf _ _ _ _ G)) as [Hbs _]. unfold stage_intoTmp, KB in *.
  eapply wp_seq; [by apply (place_spec fi bin bout cap dst0 dstEnd _ m _ s out t
    (bc_frame _ (go_ctx _ _ _ _ G)) (go_buf _ _ _ _ G) (go_io _ _ _ _ G))|].
  intros d1 m1 ((p & n & o & Hd1) & Hind & X1 & F1 & D1 & Hlow & Hhigh & Hlead).
  fold bs in Hhigh. fold linked in Hind, Hlead.
  assert (B1 : block_ctx d1).
  { eapply block_ctx_same; [..|exact (go_ctx _ _ _ _ G)]; try (by rewrite Hd1); intros Hl; by rewrite (Hind Hl). }
  assert (W1 : writable fi bin bout cap dst0 dstEnd out bout (bout + cap)) by (right; left; lia).
  pose proof (going_ctx _ _ (ds_sel st) _ _ _ (going_frame _ _ _ _ _ _ _ G F1 W1) B1) as G'.
  pose proof G' as [R1 R2 _ R4 R5 _ _ _]. pose proof R1 as [Bi B2 B3 B4 B5 B6]. cbn [ds_src ds_dst] in R2, R4, R5.
  pose proof R2 as [I1 I2 I3 I4 I5 I6 I7 I8 I9 I10 I11]. unfold apart, KB in *.
  assert (tmpInTarget d1 = tmpInTarget (ds_dctx st)) as -> by (by rewrite Hd1).
  eapply wp_seq; [apply (safe_decoder d1 m1 (ds_sel st) (tmpOut d1) _ B1 Bi Ht)|].
  - solve_mapped.
  - solve_mapped.
  - done.
  - lia.
  - intros Hl. by apply (dict_mapped _ _ _ _ t G').
  - intros r m2 [Hr F2].
    assert (W2 : writable fi bin bout cap dst0 dstEnd out (tmpOut d1) (tmpOut d1 + bs)) by (right; left; lia).
    pose proof (going_frame _ _ _ _ _ _ _ G' F2 W2) as G2.
    destruct (Z.ltb_spec r 0); [apply wp_ret; split; [by apply error_large|apply (go_kept _ _ _ _ G2)]|].
    destruct (mapped_bytes m2 (tmpOut d1) r) as (y & Hy & Hb); [lia|solve_mapped|]. rewrite <- Hy.
    destruct (safe_account d1 m2 _ y B1 Hb) as (h & rem & Hacc & X2); [lia|].
    eapply wp_run; [exact Hacc|]. apply wp_ret. fields. split; [|unfold work; fields; cbn [rank]; lia].
    exists s, out, t. split; [eapply (going_ctx (DState _ _ _ _)); [exact G2|by eapply block_ctx_same; [..|exact X2]]|].
    exists [], y. constructor; fields; cbn [app length]; try done; try lia; fold bs; try lia.
    fold linked. intros Hl. destruct (Hlead Hl) as [Hmin Hpl].
    pose proof (dict_layout_of _ _ _ _ _ _ _ _ _ _ _ Hl (bc_frame _ B1) R1 R2) as L.
    destruct (flush_ok_start d1 m1 m2 dst0 dstEnd (zlen y) t out L (D1 Hl)) as [O1 O2 O3 O4 O5 O6];
      rewrite ?(fx_out _ _ _ _ _ X1), ?(fx_cap _ _ _ _ _ X1), ?(fx_block _ _ _ _ _ X1); unfold KB; try done; try lia.
Qed.

(** Part of a decoded block is copied out. *)
Lemma safe_flushOut st m s out t (f pend : list byte) :
  going st m s out → flushing fi bout cap (ds_dctx st) m dst0 t f pend out →
  dStage (ds_dctx st) = dstage_flushOut →
  wp (stage_flushOut st dst0 dstEnd) (settled (16 * zlen s + 3)) m.
Proof.
  intros G L Hst. pose proof G as [G1 G2 G3 G4 G5 G6 G7 G8]. pose proof (block_sizes m G1) as [Hbs Hcap].
  pose proof G2 as [I1 I2 I3 I4 I5 I6 I7 I8 I9 I10 I11]. pose proof G1 as [B1 B2 B3 B4 B5 B6].
  pose proof L as [L1 L2 L3 L4 L5 L6 L7]. unfold KB in Hbs. fold bs in L6. pose proof (length_app f pend) as Hfp.
  unfold stage_flushOut. rewrite L2, L3, G5.
  rewrite (usize_fits (_ - zlen f)), (usize_fits (dstEnd - _)) by lia. rewrite Z.gtb_ltb.
  set (k := if _ <? _ then _ else _).
  assert (Hk : k = Z.min (zlen pend) (dstEnd - (dst0 + zlen out))).
  { unfold k. destruct (Z.ltb_spec (dstEnd - (dst0 + zlen out)) (zlen (f ++ pend) - zlen f)); lia. }
  clearbody k.
  assert (Hsplit : ∃ u pend', pend = u ++ pend' ∧ k = zlen u).
  { exists (take (Z.to_nat k) pend), (drop (Z.to_nat k) pend). rewrite take_drop. split; [done|].
    rewrite length_take_le; lia. }
  destruct Hsplit as (u & pend' & -> & ->). rewrite (length_app u pend') in *.
  pose proof (length_app out u) as Hou. pose proof (length_app f u) as Hfu.
  apply bytes_at_app in L1 as [_ L1]. apply bytes_at_app in L1 as [Lu _].
  wp_apply memcpy_spec; [lia|solve_mapped|solve_mapped|]. intros _ m1 [F1 C1].
  assert (W : writable fi bin bout cap dst0 dstEnd out (dst0 + zlen out) (dst0 + zlen out + zlen u))
    by (right; right; lia).
  assert (Hu1 : bytes_at m1 (dst0 + zlen out) u) by (eapply bytes_at_copy; [|exact Lu]; done).
  pose proof (going_write _ _ _ _ _ (going_frame _ _ _ _ _ _ _ G F1 W) Hu1 ltac:(lia)) as G'.
  assert (L' : flushing fi bout cap (ds_dctx st) m1 dst0 t f (u ++ pend') out).
  { eapply flushing_frame; [exact L|exact (bc_frame _ G3)|exact G1|exact G2|exact F1|lia|lia]. }
  destruct (flush_step fi bin bout cap dst0 dstEnd _ m1 _ s t f u pend' out (bc_frame _ G3) (go_buf _ _ _ _ G')
    (go_io _ _ _ _ G') L') as (d2 & Hrun & (p & n & Hd2) & O2).
  eapply wp_run; [exact Hrun|]. set (d3 := set_out _ _ _ _).
  assert (Hd : linked = false → d_dict d3 = d_dict (ds_dctx st)).
  { intros Hl. unfold update_linked in Hrun. rewrite (linked_eq _ _ _ _ _ (bc_frame _ G3)) in Hrun.
    fold linked in Hrun. rewrite Hl in Hrun. injection Hrun as <-. done. }
  assert (X3 : block_ctx d3).
  { eapply block_ctx_same; [..|exact G3]; try done; unfold d3; by rewrite Hd2. }
  assert (E3 : tmpOut d3 = tmpOut (ds_dctx st) ∧ tmpOutSize d3 = zlen (f ++ u ++ pend') ∧
               tmpOutStart d3 = zlen (f ++ u)).
  { unfold d3. rewrite Hd2. fields. rewrite L2, L3, usize_fits by lia. split_and!; (done || lia). }
  assert (Hst3 : dStage d3 = dstage_flushOut) by (unfold d3; by rewrite Hd2).
  destruct E3 as (Eo & Es & Et). pose proof (length_app (f ++ u) pend') as Hl3.
  assert (L3' : flushing fi bout cap d3 m1 dst0 t (f ++ u) pend' (out ++ u)).
  { destruct L' as [L1' _ _ _ _ _ _].
    constructor; rewrite <- ?app_assoc, ?Eo; try done. intros Hl. destruct (O2 Hl) as [O21 O22 O23 O24 O25 O26].
    constructor; fields; done. }
  rewrite Es, Et. destruct (Z.eqb_spec (zlen (f ++ u)) (zlen (f ++ u ++ pend'))) as [He|He]; apply wp_ret.
  - assert (pend' = []) as ->.
    { rewrite (app_assoc f) in He. destruct pend'; [done|]. cbn [length] in Hl3. lia. }
    rewrite app_nil_r in *. split; [|unfold work; fields; cbn [rank]; lia].
    exists s, (out ++ u), (t ++ f ++ u).
    split; [apply (going_ctx _ _ _ _ _ _ G'); by eapply block_ctx_same; [..|exact X3]|].
    intros Hl. destruct L3' as [L31 _ _ _ _ _ L37]. rewrite app_nil_r in L31, L37.
    eapply dict_ok_same; [..|apply (flush_ok_end d3 m1 dst0 t (f ++ u) (out ++ u) (L37 Hl) L31)]; done.
  - left. split.
    + exists s, (out ++ u), t. split; [by apply (going_ctx _ _ _ _ _ _ G')|].
      unfold spot. fields. rewrite Hst3. by exists (f ++ u), pend'.
    + fields. rewrite Hst3. unfold resting_stages. set_solver.
Qed.

(** * The end of the frame *)

Lemma safe_complete st m s out (w : Z) :
  going st m s out → dict_sized (ds_dctx st) →
  settled w (Stop (DState (set_stage (ds_dctx st) dstage_getHeader) (ds_src st) (ds_dst st) (ds_sel st)) 0) m.
Proof.
  intros G D. right. split; [done|]. split; [done|]. exists s, out.
  apply going_ctx; [done|]. by eapply block_ctx_same; [..|exact (go_ctx _ _ _ _ G)].
Qed.

Lemma safe_checkSuffix st m s out (w : Z) :
  going st m s out → dict_sized (ds_dctx st) → mapped m (ds_sel st) 4 →
  wp (stage_checkSuffix st) (settled w) m.
Proof.
  intros G D Hm. unfold stage_checkSuffix.
  destruct (mapped_bytes m (ds_sel st) 4 ltac:(lia) Hm) as (q & Hq & Hb).
  eapply wp_run; [apply (readLE32_val _ q); [done|lia]|].
  destruct (le_val q =? XXH32_digest (d_xxh (ds_dctx st))); cbn [negb]; apply wp_ret.
  - by apply safe_complete with s out.
  - split; [by apply error_large|apply (go_kept _ _ _ _ G)].
Qed.

Lemma safe_storeSuffix st m s out :
  going st m s out → dict_sized (ds_dctx st) → 0 ≤ d_tmpInSize (ds_dctx st) < 4 →
  dStage (ds_dctx st) = dstage_storeSuffix →
  wp (stage_storeSuffix st srcEnd) (settled (16 * zlen s + 2)) m.
Proof.
  intros G D Hk Hst. pose proof G as [G1 G2 G3 G4 G5 G6 G7 G8]. pose proof (block_sizes m G1) as [Hbs _].
  unfold stage_storeSuffix, KB in *.
  eapply wp_seq; [apply (safe_gather st m s out 4 G); lia|].
  intros [st' ok] m1 (a & s' & k & -> & -> & -> & Hok & F & G').
  fields. destruct ok; cbn [negb].
  - apply safe_checkSuffix with s' out; [|done|].
    + by apply (going_ctx _ _ _ _ _ _ G'), (go_ctx _ _ _ _ G').
    + fields. rewrite (fx_in _ _ _ _ _ (bc_frame _ G3)). pose proof (bo_in _ _ _ _ _ (go_buf _ _ _ _ G')) as Hin.
      fold bs in Hin. solve_mapped.
  - apply wp_ret. left. split; [|fields; rewrite Hst; unfold resting_stages; set_solver].
    exists s', out, []. split; [done|]. unfold spot. fields. rewrite Hst. split; [exact D|lia].
Qed.

Lemma safe_getSuffix st m s out :
  going st m s out → dict_sized (ds_dctx st) →
  wp (stage_getSuffix st srcEnd) (settled (16 * zlen s + 2)) m.
Proof.
  intros G D. pose proof G as [G1 G2 G3 G4 G5 G6 G7 G8]. unfold stage_getSuffix.
  destruct (frameRemainingSize (ds_dctx st) =? 0); cbn [negb];
    [|apply wp_ret; split; [by apply error_large|done]].
  destruct (u32 (contentChecksumFlag (d_frameInfo (ds_dctx st)) * 4) =? 0);
    [apply wp_ret; by apply safe_complete with s out|].
  destruct (Z.ltb_spec (srcEnd - ds_src st) 4) as [H4|H4].
  - apply safe_storeSuffix with out; try done.
    apply going_ctx; [done|]. by eapply block_ctx_same; [..|exact G3].
  - assert (H4' : zlen (take 4 s) = 4) by (rewrite length_take_le; lia).
    pose proof (bytes_at_mapped _ _ _ (io_src _ _ _ _ _ _ _ _ _ _ G2)) as Hm.
    rewrite <- (take_drop 4 s) in G.
    apply (going_read _ (ds_dctx st) (ds_src st)) in G; [|done]. rewrite H4' in G.
    apply (safe_checkSuffix (DState _ _ _ _) m (drop 4 s) out); [exact G|done|fields; solve_mapped].
Qed.

(** Every stage within a frame, on whatever it finds there. *)
Lemma safe_step st m (newIn newOut : Z) :
  safe_inv st m → wp (dstep ua st srcEnd dst0 dstEnd newIn newOut) (settled (work srcEnd st)) m.
Proof.
  intros (s & out & t & G & P). unfold work.
  replace (srcEnd - ds_src st) with (zlen s) by (pose proof (go_src _ _ _ _ G); lia).
  unfold dstep, spot in *. destruct (dStage (ds_dctx st)) eqn:Hst; cbn [rank]; try done.
  - by apply safe_getCBlockSize with out t.
  - destruct P. by apply safe_storeCBlockSize with out t.
  - destruct P. by apply safe_copyDirect with out t.
  - destruct P. by apply safe_getCBlock with out t.
  - destruct P as (? & ? & ?). by apply safe_storeCBlock with out t.
  - destruct P as (? & ? & ? & ? & _). by apply safe_decodeCBlock with out t.
  - destruct P as (? & ? & ? & ? & H). apply safe_intoDst with out t; auto.
  - destruct P as (? & ? & ? & ? & _). by apply safe_intoTmp with out t.
  - destruct P as (f & pend & L). by apply safe_flushOut with out t f pend.
  - by apply safe_getSuffix with out.
  - destruct P. by apply safe_storeSuffix with out.
Qed.

End safe.
