(* ===== verification/Lz4FrameSafeCall.v ===== *)
(** One call of [LZ4F_decompress] on any input whatsoever: the stages that read a
    header or a skippable frame, the call as a whole, and the theorem that it is
    safe and keeps the invariant of the context. *)

From Stdlib Require Import ZArith Lia Strings.Byte.
From stdpp Require Import base gmap list fin_maps numbers.
From S2P Require Import Prelude Mem Lz4Common Lz4Format Lz4Decompress Lz4DecompressApi Xxhash XxhashProofs Lz4Frame Lz4FrameDec Lz4FrameFormat Lz4FrameProofs Lz4FrameDict Lz4FrameDecode Lz4FrameCall Lz4FrameSafe.

(** * The end of a call within a frame *)

Section park.
Context {arch : Arch}.
Context (fi : LZ4F_frameInfo_t) (bin bout cap hdr dst0 dstEnd srcStart srcEnd : Z) (rs : list (Z * Z)) (m0 : mem).
Implicit Types (m : mem) (d : LZ4F_dctx_t) (st : dstate) (s out t : list byte).

Let linked : bool := blockMode fi =? LZ4F_blockLinked.

(** The position does not depend on the destination of the call. *)
Definition resumable d m : Prop :=
  dStage d ∈ resting_stages ∧ ∃ t, ∀ dst1 dstEnd1 sel, spot fi bout cap dst1 dstEnd1 d m sel [] t.

(** Saving the dictionary moves it to the buffer. *)
Lemma safe_resume d d' m m' (sel : Z) out t :
  spot fi bout cap dst0 dstEnd d m sel out t → dStage d ∈ resting_stages → dStage d ≠ dstage_flushOut →
  (∃ p n o, d' = set_out (set_dict d p n) o (tmpOutSize d) (tmpOutStart d)) →
  (dStage d ≠ dstage_storeSuffix → ∀ dst1, dict_at fi d' m' dst1 t []) →
  (dStage d = dstage_storeSuffix → dict_sized d') → resumable d' m'.
Proof.
  intros P Hs Hf (p & n & o & ->) D Dr. split; [exact Hs|]. exists t. intros dst1 dstEnd1 sel1.
  unfold spot, resting_stages in *. cbn [set_out set_dict dStage d_tmpInSize tmpInTarget].
  destruct (dStage d) eqn:Hst; try (set_solver); naive_solver.
Qed.

(** A context is the same up to where its dictionary and [tmpOut] are. *)
Abbreviation moved d d' := (∃ p n o, d' = set_out (set_dict d p n) o (tmpOutSize d) (tmpOutStart d)).

Lemma moved_self d : moved d d.
Proof. exists (d_dict d), (d_dictSize d), (tmpOut d). by destruct d. Qed.

Lemma block_ctx_moved d d' :
  linked = true → moved d d' → block_ctx fi bin bout cap hdr d → block_ctx fi bin bout cap hdr d'.
Proof.
  intros Hl (p & n & o & ->) X. eapply block_ctx_same; [..|exact X]; try done; fold linked; congruence.
Qed.

(** The dictionary stays where it is. *)
Lemma safe_park_still d m (sel : Z) out t :
  block_ctx fi bin bout cap hdr d → spot fi bout cap dst0 dstEnd d m sel out t →
  dStage d ∈ resting_stages → dict_sized d →
  (dStage d = dstage_storeSuffix ∨ linked = false) → resumable d m.
Proof.
  intros X P Hs Dr Hor. destruct (decide (dStage d = dstage_flushOut)) as [Hf|Hf].
  - destruct Hor as [Hor|Hl]; [congruence|]. split; [done|]. exists t. intros dst1 dstEnd1 sel1.
    unfold spot in *. rewrite Hf in *. destruct P as (f & pend & [L1 L2 L3 L4 L5 L6 L7]). exists f, pend.
    constructor; try done. fold linked. congruence.
  - eapply (safe_resume d d); [exact P|done|done|apply moved_self| |done].
    intros Hne dst1 E. fold linked in E. destruct Hor; congruence.
Qed.

Lemma safe_park_flush st m s out t :
  going fi bin bout cap hdr dst0 dstEnd srcStart srcEnd rs m0 st m s out →
  spot fi bout cap dst0 dstEnd (ds_dctx st) m (ds_sel st) out t →
  dStage (ds_dctx st) = dstage_flushOut → linked = true →
  wp (preserve_dict (ds_dctx st) 0)
     (λ d' m', moved (ds_dctx st) d' ∧ resumable d' m' ∧ d_dict d' = tmpOutBuffer d' ∧
        frame bout (bout + cap) m m') m.
Proof.
  intros G P Hf Hl. set (d := ds_dctx st) in *. pose proof G as [G1 G2 G3 G4 G5 G6 G7 G8]. fold d in G3.
  unfold spot in P. rewrite Hf in P. destruct P as (f & pend & L). pose proof L as [L1 L2 L3 L4 L5 L6 L7].
  pose proof (dict_layout_of _ _ _ _ _ _ _ _ _ _ _ Hl (bc_frame _ _ _ _ _ _ G3) G1 G2) as Lay.
  assert (Hdl : d_linked d = true) by (by rewrite (linked_eq _ _ _ _ _ (bc_frame _ _ _ _ _ _ G3))).
  eapply wp_mono; [apply (preserve_flush_spec d m dst0 dstEnd t f (zlen (f ++ pend)) out); try done;
    [by apply L7|by rewrite (fx_block _ _ _ _ _ (bc_frame _ _ _ _ _ _ G3))]|].
  rewrite (fx_out _ _ _ _ _ (bc_frame _ _ _ _ _ _ G3)). intros d' m' ((p & n & ->) & F & O).
  split; [exists p, n, (tmpOut d); by destruct d|]. split; [|split].
  - split; [unfold resting_stages; cbn; rewrite Hf; set_solver|]. exists t. intros dst1 dstEnd1 sel1.
    unfold spot. cbn [set_dict dStage]. rewrite Hf. exists f, pend.
    constructor; cbn [set_dict tmpOut tmpOutSize tmpOutStart]; try done.
    eapply bytes_at_frame; [exact F|lia|done].
  - destruct (O (d_dict (set_dict d p n) + 1)) as [_ _ _ _ _ [(H & _)|(H & _)]]; [done|lia].
  - eapply frame_weaken; [exact F|lia|]. lia.
Qed.

Lemma safe_park_blocks st m s out t :
  going fi bin bout cap hdr dst0 dstEnd srcStart srcEnd rs m0 st m s out →
  spot fi bout cap dst0 dstEnd (ds_dctx st) m (ds_sel st) out t → dStage (ds_dctx st) ∈ resting_stages →
  dStage (ds_dctx st) ≠ dstage_flushOut → dStage (ds_dctx st) ≠ dstage_storeSuffix → linked = true →
  wp (preserve_dict (ds_dctx st) 0)
     (λ d' m', moved (ds_dctx st) d' ∧ resumable d' m' ∧ d_dict d' = tmpOutBuffer d' ∧
        frame bout (bout + cap) m m') m.
Proof.
  intros G P Hs Hf Hsuf Hl. set (d := ds_dctx st) in *. pose proof G as [G1 G2 G3 G4 G5 G6 G7 G8]. fold d in G3.
  pose proof (dict_layout_of _ _ _ _ _ _ _ _ _ _ _ Hl (bc_frame _ _ _ _ _ _ G3) G1 G2) as Lay.
  assert (Hdl : d_linked d = true) by (by rewrite (linked_eq _ _ _ _ _ (bc_frame _ _ _ _ _ _ G3))).
  assert (Hkd : keeps_dict (dStage d) = true ∧ dict_ok d m dst0 t out).
  { unfold spot, resting_stages in *. destruct (dStage d); try (set_solver || done);
      (split; [done|]); by apply P. }
  destruct Hkd as [Hkd K].
  eapply wp_mono; [by apply (preserve_dict_spec d m dst0 dstEnd t out)|].
  rewrite (fx_out _ _ _ _ _ (bc_frame _ _ _ _ _ _ G3)), (fx_cap _ _ _ _ _ (bc_frame _ _ _ _ _ _ G3)).
  intros d' m' (Hd & F & K'). split; [done|]. split; [|split; [|done]].
  - eapply safe_resume; [exact P|done|done|exact Hd|by intros _ dst1 _|done].
  - destruct (K' (d_dict d' + 1)) as [_ _ _ _ [[H _]|[H _]]]; [done|lia].
Qed.

(** The end of a call within a frame. *)
Lemma safe_park st m s out t :
  going fi bin bout cap hdr dst0 dstEnd srcStart srcEnd rs m0 st m s out →
  spot fi bout cap dst0 dstEnd (ds_dctx st) m (ds_sel st) out t → dStage (ds_dctx st) ∈ resting_stages →
  wp (preserve_dict (ds_dctx st) 0)
     (λ d' m', resumable d' m' ∧ block_ctx fi bin bout cap hdr d' ∧ dict_sized d' ∧
        frame bout (bout + cap) m m') m.
Proof.
  intros G P Hs. pose proof (go_ctx _ _ _ _ _ _ _ _ _ _ _ _ _ _ _ G) as X.
  destruct (decide (dStage (ds_dctx st) = dstage_storeSuffix ∨ linked = false)) as [Hor|Hor].
  - assert (Hrun : preserve_dict (ds_dctx st) 0 m = Ret (ds_dctx st) m).
    { unfold preserve_dict. destruct Hor as [-> | Hl]; [by rewrite andb_false_r|].
      rewrite (linked_eq _ _ _ _ _ (bc_frame _ _ _ _ _ _ X)). fold linked. by rewrite Hl. }
    assert (Dr : dict_sized (ds_dctx st)).
    { destruct Hor as [Hsuf|Hl]; [unfold spot in P; rewrite Hsuf in P; by apply P|]. left.
      rewrite (bc_dict _ _ _ _ _ _ X Hl). by rewrite (fx_out _ _ _ _ _ (bc_frame _ _ _ _ _ _ X)). }
    apply wp_result. eexists _, _. split; [exact Hrun|]. split; [by eapply safe_park_still|].
    split; [done|]. split; [done|]. reflexivity.
  - assert (Hl : linked = true) by (destruct linked; [done|]; destruct Hor; by right).
    eapply wp_mono.
    + destruct (decide (dStage (ds_dctx st) = dstage_flushOut)) as [Hf|Hf];
        [by eapply safe_park_flush|eapply safe_park_blocks; try done]. intros E. destruct Hor. by left.
    + intros d' m' (Hm & R & Hd & F). split; [done|]. split; [by eapply block_ctx_moved|].
      split; [by left|done].
Qed.

End park.

(** * The buffers of a context *)

(** The size of the input buffer of a context whose output buffer has [cap]
    bytes: both were allocated for the same block size. *)
Definition in_size (cap : Z) : Z :=
  if cap <? KB 64 then 0 else if cap <? KB 256 then KB 64 else if cap <? MB 1 then KB 256
  else if cap <? MB 4 then MB 1 else MB 4.

Lemma info_sizes (fi : LZ4F_frameInfo_t) :
  info_ok fi →
  (block_size fi = KB 64 ∨ block_size fi = KB 256 ∨ block_size fi = MB 1 ∨ block_size fi = MB 4) ∧
  (needed fi = block_size fi ∨ needed fi = block_size fi + KB 128).
Proof.
  intros [H _ _ _ _]. split.
  - unfold block_size, KB, MB.
    assert (blockSizeID fi = 4 ∨ blockSizeID fi = 5 ∨ blockSizeID fi = 6 ∨ blockSizeID fi = 7)
      as [-> | [-> | [-> | ->]]] by lia; [left|right; left|right; right; left|right; right; right]; done.
  - unfold needed. destruct (blockMode fi =? LZ4F_blockLinked); cbn [b2i]; [right|left]; lia.
Qed.

Lemma in_size_needed (fi : LZ4F_frameInfo_t) : info_ok fi → in_size (needed fi) = block_size fi.
Proof.
  intros Hok. destruct (info_sizes fi Hok) as [Hb Hn]. unfold in_size, KB, MB in *.
  repeat match goal with |- context [if ?a <? ?b then _ else _] => destruct (Z.ltb_spec a b) end; lia.
Qed.

(** A buffer that is large enough for the output is so for the input. *)
Lemma needed_fits (fi fi' : LZ4F_frameInfo_t) :
  info_ok fi → info_ok fi' → needed fi ≤ needed fi' → block_size fi ≤ block_size fi'.
Proof.
  intros H H'. destruct (info_sizes fi H) as [Hb Hn], (info_sizes fi' H') as [Hb' Hn'].
  unfold KB, MB in *. lia.
Qed.

Record owns {arch : Arch} (d : LZ4F_dctx_t) (m : mem) : Prop := {
  ow_cap : d_maxBufferSize d = 0 ∨ ∃ fi, info_ok fi ∧ d_maxBufferSize d = needed fi;
  ow_in : mapped m (d_tmpIn d) (in_size (d_maxBufferSize d));
  ow_out : mapped m (tmpOutBuffer d) (d_maxBufferSize d);
  ow_apart : apart (d_tmpIn d) (in_size (d_maxBufferSize d)) (tmpOutBuffer d) (d_maxBufferSize d);
  ow_hdr : mapped m (d_header d) 16;
  ow_hdr_out : apart (d_header d) 16 (tmpOutBuffer d) (d_maxBufferSize d);
  ow_hash : shaped 4 (d_xxh d);
  ow_dict : dict_sized d;
  ow_none : d_maxBufferSize d = 0 → d_dict d = tmpOutBuffer d
}.

(** * Contexts between two calls *)

(** What the stages before the blocks rely on. *)
Definition head_stage (d : LZ4F_dctx_t) (m : mem) : Prop :=
  match dStage d with
  | dstage_getHeader | dstage_getSFrameSize => True
  | dstage_storeHeader =>
      0 ≤ d_tmpInSize d < tmpInTarget d ∧
      (tmpInTarget d = minFHSize ∨
       tmpInTarget d = maxFHSize ∧ 4 ≤ d_tmpInSize d ∧
       bytes_at m (d_header d) (le_bytes 4 LZ4F_MAGICNUMBER))
  | dstage_storeSFrameSize => tmpInTarget d = 8 ∧ 4 ≤ d_tmpInSize d < 8
  | dstage_skipSkippable => 0 ≤ tmpInTarget d < 2 ^ 32
  | _ => False
  end.

(** A context within a frame. *)
Definition frame_stage {arch : Arch} (d : LZ4F_dctx_t) (m : mem) : Prop :=
  ∃ fi, info_ok fi ∧ needed fi ≤ d_maxBufferSize d ∧
    block_ctx fi (d_tmpIn d) (tmpOutBuffer d) (d_maxBufferSize d) (d_header d) d ∧
    resumable fi (tmpOutBuffer d) (d_maxBufferSize d) d m.

Record dctx_ok {arch : Arch} (d : LZ4F_dctx_t) (m : mem) : Prop := {
  do_owns : owns d m;
  do_stage : head_stage d m ∨ frame_stage d m
}.

(** The memory a call may write besides its destination: the header, the
    buffers, and those the allocator would return. *)
Definition rooms (d : LZ4F_dctx_t) (newIn newOut : Z) : list (Z * Z) :=
  [(d_header d, 16); (d_tmpIn d, in_size (d_maxBufferSize d)); (tmpOutBuffer d, d_maxBufferSize d);
   (newIn, MB 4); (newOut, MB 4 + KB 128)].

(** The last 64 KB of a dictionary that is not in the buffer of the decoder. *)
Definition dict_readable (d : LZ4F_dctx_t) (m : mem) : Prop :=
  d_dict d = tmpOutBuffer d ∨
  mapped m (d_dict d + d_dictSize d - Z.min (d_dictSize d) (KB 64)) (Z.min (d_dictSize d) (KB 64)).

(** The stages between two frames, those of skippable frames included. *)
Definition between_frames (d : LZ4F_dctx_t) : Prop :=
  match dStage d with
  | dstage_getHeader | dstage_storeHeader
  | dstage_getSFrameSize | dstage_storeSFrameSize | dstage_skipSkippable => True
  | _ => False
  end.

(** A call with the input [chunk].  One byte after the input is readable.  Between
    two frames, the end of the dictionary of the previous one is readable where it
    is: the decoder may still save it then. *)
Record call_safe {arch : Arch} (d : LZ4F_dctx_t) (m : mem) (dst dstSize src : Z) (chunk : list byte)
    (newIn newOut : Z) : Prop := {
  cs_src : bytes_at m src chunk;
  cs_pad : is_Some (m !! (src + zlen chunk));
  cs_dst : mapped m dst dstSize;
  cs_src_dst : apart src (zlen chunk) dst dstSize;
  cs_rooms : ∀ a n, (a, n) ∈ rooms d newIn newOut →
    apart src (zlen chunk) a n ∧ (a + n < dst ∨ dst + dstSize ≤ a) ∧ 0 ≤ a ∧ a + n ≤ ADDR_MAX;
  cs_new : newIn ≠ NULL ∧ newOut ≠ NULL;
  cs_new_apart : apart newIn (MB 4) newOut (MB 4 + KB 128);
  cs_hdr_new : apart (d_header d) 16 newOut (MB 4 + KB 128);
  cs_addr : 0 ≤ src ∧ src + zlen chunk ≤ ADDR_MAX ∧ 0 ≤ dst ∧ dst + dstSize ≤ ADDR_MAX;
  cs_size : 0 ≤ dstSize < 2 ^ 31 - 2 ^ 25 ∧ zlen chunk < 2 ^ 31;
  cs_dict : between_frames d → dict_readable d m
}.

(** * A call *)

Section call.
Context {arch : Arch} (ua : bool).
Context (d0 : LZ4F_dctx_t) (m0 : mem) (dst dstSize src : Z) (chunk : list byte) (newIn newOut : Z).
Context (C : call_safe d0 m0 dst dstSize src chunk newIn newOut).
Implicit Types (m : mem) (d : LZ4F_dctx_t) (st : dstate) (s out t : list byte).

Let srcEnd : Z := src + zlen chunk.
Let dstEnd : Z := dst + dstSize.
Let hdr : Z := d_header d0.

Definition call_rooms : list (Z * Z) := (dst, dstSize) :: rooms d0 newIn newOut.

(** The buffers of a frame, the context's own or new ones. *)
Record frame_room (fi : LZ4F_frameInfo_t) (bin bout cap : Z) : Prop := {
  fr_info : info_ok fi;
  fr_need : needed fi ≤ cap;
  fr_cap : ∃ fi', info_ok fi' ∧ cap = needed fi';
  fr_in : ∃ n, (bin, n) ∈ rooms d0 newIn newOut ∧ in_size cap ≤ n;
  fr_out : ∃ n, (bout, n) ∈ rooms d0 newIn newOut ∧ cap ≤ n;
  fr_apart : apart bin (in_size cap) bout cap;
  fr_hdr : apart hdr 16 bout cap
}.

Lemma room_sizes (fi : LZ4F_frameInfo_t) (bin bout cap : Z) :
  frame_room fi bin bout cap → KB 64 ≤ block_size fi ≤ in_size cap ∧ cap < 2 ^ 24.
Proof.
  intros [H1 H2 (fi' & Hok & ->) _ _ _ _]. rewrite in_size_needed by done.
  pose proof (needed_fits _ _ H1 Hok H2). pose proof (block_size_range _ H1). pose proof (needed_range _ Hok). lia.
Qed.

Lemma room_ranges (fi : LZ4F_frameInfo_t) (bin bout cap i : Z) :
  frame_room fi bin bout cap → in_ranges (call_ranges fi bin bout cap dst dstEnd) i → in_ranges call_rooms i.
Proof.
  intros R (a & n & Hin & Hi). pose proof (room_sizes _ _ _ _ R) as [Hs _].
  destruct R as [H1 H2 H3 (n1 & Hn1 & Hl1) (n2 & Hn2 & Hl2) H6 H7]. unfold call_ranges, call_rooms in *.
  set_unfold in Hin. destruct Hin as [[= -> ->]|[[= -> ->]|[[= -> ->]|[]]]].
  - exists dst, dstSize. split; [by left|unfold dstEnd in *; lia].
  - exists bin, n1. split; [by right|lia].
  - exists bout, n2. split; [by right|lia].
Qed.

Lemma room_buffers (fi : LZ4F_frameInfo_t) (bin bout cap : Z) m :
  frame_room fi bin bout cap → mapped m bin (in_size cap) → mapped m bout cap →
  buffers_ok fi bin bout cap m.
Proof.
  intros R Hi Ho. pose proof (room_sizes _ _ _ _ R) as [Hs Hc].
  destruct R as [H1 H2 H3 (n1 & Hn1 & Hl1) (n2 & Hn2 & Hl2) H6 H7]. unfold apart in *.
  destruct (cs_rooms _ _ _ _ _ _ _ _ C _ _ Hn1) as (_ & _ & A1).
  destruct (cs_rooms _ _ _ _ _ _ _ _ C _ _ Hn2) as (_ & _ & A2).
  constructor; unfold apart; try done; try lia. solve_mapped.
Qed.

Lemma room_io (fi : LZ4F_frameInfo_t) (bin bout cap src' : Z) m s :
  frame_room fi bin bout cap → bytes_at m src' s → src ≤ src' → srcEnd = src' + zlen s →
  mapped m dst dstSize → io_ok fi bin bout cap m src' s dst dstEnd [].
Proof.
  intros R Hb Hlo He Hd. pose proof (room_sizes _ _ _ _ R) as [Hs Hc].
  destruct R as [H1 H2 H3 (n1 & Hn1 & Hl1) (n2 & Hn2 & Hl2) H6 H7]. unfold srcEnd, dstEnd in *.
  destruct (cs_rooms _ _ _ _ _ _ _ _ C _ _ Hn1) as (A1 & A2 & A3).
  destruct (cs_rooms _ _ _ _ _ _ _ _ C _ _ Hn2) as (A4 & A5 & A6).
  pose proof (cs_src_dst _ _ _ _ _ _ _ _ C). pose proof (cs_addr _ _ _ _ _ _ _ _ C).
  pose proof (cs_size _ _ _ _ _ _ _ _ C). unfold apart in *.
  constructor; unfold apart; cbn [length bytes_at]; try done; try lia.
  by replace (dst + dstSize - dst) with dstSize by lia.
Qed.

(** ** Before the blocks *)

(** The buffers are those of the beginning of the call. *)
Record kin d : Prop := {
  kn_cap : d_maxBufferSize d = d_maxBufferSize d0;
  kn_in : d_tmpIn d = d_tmpIn d0;
  kn_out : tmpOutBuffer d = tmpOutBuffer d0;
  kn_hdr : d_header d = hdr
}.

Record owned d m : Prop := {
  od_owns :> owns d m;
  od_dict : dict_readable d m
}.

Record at_head st m s : Prop := {
  ah_owns : owned (ds_dctx st) m;
  ah_kin : kin (ds_dctx st);
  ah_src : bytes_at m (ds_src st) s;
  ah_lo : src ≤ ds_src st;
  ah_end : srcEnd = ds_src st + zlen s;
  ah_dst : ds_dst st = dst;
  ah_kept : kept call_rooms m0 m
}.

Definition head_inv st m : Prop := ∃ s, at_head st m s ∧ head_stage (ds_dctx st) m.

(** Within a frame, whose buffers were there in the memory [m1]. *)
Definition in_frame (P : LZ4F_frameInfo_t → Z → Z → Z → mem → Prop) : Prop :=
  ∃ fi bin bout cap m1, frame_room fi bin bout cap ∧ kept call_rooms m0 m1 ∧
    mapped m1 bin (in_size cap) ∧ P fi bin bout cap m1.

Definition frame_inv st m : Prop :=
  in_frame (λ fi bin bout cap m1, safe_inv fi bin bout cap hdr dst dstEnd src srcEnd call_rooms m1 st m).

Definition frame_end st m : Prop :=
  in_frame (λ fi bin bout cap m1, safe_end fi bin bout cap hdr dst dstEnd src srcEnd call_rooms m1 st m).

Definition call_settled (w : Z) (r : stage_result) m : Prop :=
  match r with
  | Again st => (head_inv st m ∨ frame_inv st m) ∧ 0 ≤ work srcEnd st < w
  | Stop st _ => head_inv st m ∨ frame_inv st m ∧ dStage (ds_dctx st) ∈ resting_stages ∨ frame_end st m
  | Error _ code => LZ4F_isError code = true ∧ kept call_rooms m0 m
  end.

Lemma owned_same d d' m m' rs :
  d_maxBufferSize d' = d_maxBufferSize d → d_tmpIn d' = d_tmpIn d → tmpOutBuffer d' = tmpOutBuffer d →
  d_header d' = d_header d → d_xxh d' = d_xxh d → d_dict d' = d_dict d → d_dictSize d' = d_dictSize d →
  kept rs m m' → owned d m → owned d' m'.
Proof.
  intros E1 E2 E3 E4 E5 E6 E7 K [[H1 H2 H3 H4 H5 H6 H7 H8 H9] H10]. constructor.
  - constructor; rewrite ?E1, ?E2, ?E3, ?E4, ?E5, ?E6; try done; try (by eapply kept_mapped).
    unfold dict_sized. by rewrite E3, E6, E7.
  - unfold dict_readable. rewrite E3, E6, E7. destruct H10 as [H10|H10]; [by left|right].
    by eapply kept_mapped.
Qed.

Lemma kin_same d d' :
  d_maxBufferSize d' = d_maxBufferSize d → d_tmpIn d' = d_tmpIn d → tmpOutBuffer d' = tmpOutBuffer d →
  d_header d' = d_header d → kin d → kin d'.
Proof. intros E1 E2 E3 E4 [H1 H2 H3 H4]. constructor; congruence. Qed.

(** Memory that was mapped before the call. *)
Lemma call_mapped m (a n : Z) : kept call_rooms m0 m → mapped m0 a n → mapped m a n.
Proof. apply kept_mapped. Qed.

(** A frame starts: its buffers are there. *)
Lemma start_room fi d m :
  owns d m → kin d → info_ok fi → kept call_rooms m0 m →
  let m1 := mem_started d fi newIn newOut m in
  let cap := buf_cap d fi in
  frame_room fi (buf_in d fi newIn) (buf_out d fi newOut) cap ∧ kept call_rooms m0 m1 ∧
  mapped m1 (buf_in d fi newIn) (in_size cap) ∧ mapped m1 (buf_out d fi newOut) cap ∧
  (∀ a n, 0 ≤ n → apart a n newIn (MB 4) → apart a n newOut (MB 4 + KB 128) →
    ∀ i, a ≤ i < a + n → m1 !! i = m !! i).
Proof.
  intros O [K1 K2 K3 K4] Hok K m1 cap. unfold cap, buf_cap, buf_in, buf_out.
  destruct (info_sizes fi Hok) as [Hb Hn]. pose proof (in_size_needed fi Hok) as Hi.
  destruct (grows d fi) eqn:Hg.
  - pose proof (cs_hdr_new _ _ _ _ _ _ _ _ C) as Hh. pose proof (cs_new_apart _ _ _ _ _ _ _ _ C) as Hap.
    fold hdr in Hh. unfold apart, KB, MB in *.
    destruct (mem_started_grown d fi newIn newOut m [(newIn, block_size fi); (newOut, needed fi)] Hok Hg)
      as (Km & M1 & M2); [set_solver..|]. fold m1 in Km, M1, M2.
    split; [|split; [|split; [by rewrite Hi|split; [done|]]]].
    + constructor; rewrite ?Hi; unfold apart; try done; try lia.
      * by exists fi.
      * exists (MB 4). split; [unfold rooms; set_solver|unfold MB; lia].
      * exists (MB 4 + KB 128). split; [unfold rooms; set_solver|unfold MB, KB; lia].
    + etransitivity; [exact K|]. eapply kept_mono; [|exact Km]. intros i (a & n & Hin & Hr). set_unfold in Hin.
      destruct Hin as [[= -> ->]|[[= -> ->]|[]]]; [exists newIn, (MB 4)|exists newOut, (MB 4 + KB 128)];
        (split; [unfold call_rooms, rooms; set_solver|unfold MB, KB; lia]).
    + intros a n Hn0 A1 A2 i Hr. apply (kept_eq _ _ _ Km). intros (a' & n' & Hin & Hr'). set_unfold in Hin.
      destruct Hin as [[= -> ->]|[[= -> ->]|[]]]; lia.
  - assert (Hm1 : m1 = m) by (unfold m1, mem_started; by rewrite Hg). rewrite Hm1.
    destruct O as [O1 O2 O3 O4 O5 O6 O7 O8 O9].
    unfold grows in Hg. rewrite Z.gtb_ltb in Hg. apply Z.ltb_ge in Hg.
    assert (Hex : ∃ fi', info_ok fi' ∧ d_maxBufferSize d = needed fi').
    { destruct O1 as [O1|]; [|done]. unfold KB, MB in *. lia. }
    split; [|by split_and!]. constructor; try done.
    + exists (in_size (d_maxBufferSize d)). split; [|lia]. rewrite K2, K1. unfold rooms. set_solver.
    + exists (d_maxBufferSize d). split; [|lia]. rewrite K3, K1. unfold rooms. set_solver.
    + by rewrite <- K4.
Qed.

Lemma started_frame fi (sized : bool) d m (src' sel : Z) s :
  owns d m → kin d → info_ok fi → kept call_rooms m0 m →
  bytes_at m src' s → src ≤ src' → srcEnd = src' + zlen s →
  frame_inv (DState (started d sized fi newIn newOut) src' dst sel) (mem_started d fi newIn newOut m).
Proof.
  intros O Kn Hok K Hb Hlo He. destruct (start_room fi d m O Kn Hok K) as (R & K1 & M1 & M2 & Hsame).
  set (m1 := mem_started d fi newIn newOut m) in *.
  exists fi, (buf_in d fi newIn), (buf_out d fi newOut), (buf_cap d fi), m1.
  split; [done|]. split; [done|]. split; [done|]. exists s, [], [].
  assert (Hb1 : bytes_at m1 src' s).
  { destruct (cs_rooms _ _ _ _ _ _ _ _ C newIn (MB 4)) as (A1 & _); [unfold rooms; set_solver|].
    destruct (cs_rooms _ _ _ _ _ _ _ _ C newOut (MB 4 + KB 128)) as (A2 & _); [unfold rooms; set_solver|].
    unfold apart, srcEnd in *. apply (bytes_at_copy m m1 src' src'); [|done].
    intros i Hi. apply (Hsame src' (zlen s)); unfold apart; lia. }
  split.
  - constructor; cbn [ds_src ds_dst ds_dctx]; try done.
    + by apply room_buffers.
    + apply room_io; try done. eapply call_mapped; [done|apply (cs_dst _ _ _ _ _ _ _ _ C)].
    + constructor; [by constructor| |done|apply (kn_hdr _ Kn)].
      cbn [started d_xxh]. pose proof (ow_hash _ _ O) as Hs.
      destruct (contentChecksumFlag fi =? 0); [done|]. destruct Hs as [Hs _]. constructor; [exact Hs|cbn; lia].
    + cbn [length]. lia.
    + apply (kept_dom _ _ _ K1), (cs_pad _ _ _ _ _ _ _ _ C).
  - intros Hl. apply dict_ok_nil; cbn; try done.
    pose proof (needed_range _ Hok). pose proof (fr_need _ _ _ _ R). unfold KB in *. lia.
Qed.

(** The context changes, and some of the input is read. *)
Lemma at_head_read st d' (sel : Z) m (a : list byte) s :
  at_head st m (a ++ s) → owned d' m → kin d' →
  at_head (DState d' (ds_src st + zlen a) (ds_dst st) sel) m s.
Proof.
  intros [H1 H2 H3 H4 H5 H6 H7] O K. apply bytes_at_app in H3 as [_ H3]. rewrite length_app in *.
  constructor; cbn [ds_src ds_dst ds_dctx]; try done; lia.
Qed.

Lemma at_head_ctx st d' (sel : Z) m s :
  at_head st m s → owned d' m → kin d' → at_head (DState d' (ds_src st) (ds_dst st) sel) m s.
Proof. intros [H1 H2 H3 H4 H5 H6 H7] O K. by constructor. Qed.

(** The header is written. *)
Lemma at_head_frame st m m' (lo hi : Z) s :
  at_head st m s → frame lo hi m m' → hdr ≤ lo → hi ≤ hdr + 16 → at_head st m' s.
Proof.
  intros [H1 H2 H3 H4 H5 H6 H7] F Hlo Hhi.
  destruct (cs_rooms _ _ _ _ _ _ _ _ C hdr 16) as (A1 & _); [unfold rooms; set_solver|].
  unfold apart, srcEnd in *.
  assert (K : kept [(hdr, 16)] m m') by (eapply (frame_kept _ hdr 16); [exact F|set_solver|lia|lia]).
  constructor; try done.
  - by eapply owned_same; [..|exact K|exact H1].
  - eapply bytes_at_frame; [exact F|lia|done].
  - etransitivity; [exact H7|]. eapply kept_mono; [|exact K]. intros i (x & y & Hin & Hi). set_unfold in Hin.
    destruct Hin as [[= -> ->]|[]]. exists hdr, 16. split; [unfold call_rooms, rooms; set_solver|done].
Qed.

(** Input is collected in the header. *)
Lemma head_gather st m s (n : Z) (pre : list byte) :
  at_head st m s → d_tmpInSize (ds_dctx st) = zlen pre → bytes_at m hdr pre → zlen pre ≤ n → n ≤ 16 →
  wp (gather st (d_header (ds_dctx st)) n srcEnd)
     (λ '(st', ok) m', ∃ (a : list byte) s', s = a ++ s' ∧
        st' = DState (set_in (ds_dctx st) (zlen (pre ++ a)) (tmpInTarget (ds_dctx st)))
                (ds_src st + zlen a) (ds_dst st) (ds_sel st) ∧
        (if ok : bool then zlen (pre ++ a) = n else zlen (pre ++ a) < n) ∧
        bytes_at m' hdr (pre ++ a) ∧ at_head st' m' s') m.
Proof.
  intros H Hsz Hpre Hn H16. pose proof H as [H1 H2 H3 H4 H5 H6 H7]. rewrite (kn_hdr _ H2).
  destruct (cs_rooms _ _ _ _ _ _ _ _ C hdr 16) as (A1 & _); [unfold rooms; set_solver|].
  pose proof (cs_size _ _ _ _ _ _ _ _ C) as [_ Hc]. pose proof (ow_hdr _ _ H1) as Hm. rewrite (kn_hdr _ H2) in Hm.
  unfold apart, srcEnd in *.
  eapply wp_mono; [apply (gather_spec st m hdr n (src + zlen chunk) pre s); try done; unfold apart; try lia|].
  - solve_mapped.
  - intros [st' ok] m1 (a & s' & -> & Hle & -> & Hok & F & Hb). exists a, s'.
    split; [done|]. split; [done|]. split; [destruct ok; [done|lia]|]. split; [done|].
    apply (at_head_frame _ _ _ _ _ _ H) in F as H'; [|lia|lia].
    apply (at_head_read _ _ _ _ _ _ H'); destruct H' as [O' K' _ _ _ _ _].
    + by eapply owned_same; [..|apply (kept_refl [])|exact O'].
    + by eapply kin_same; [..|exact K'].
Qed.

(** The first bytes of a header that is being collected. *)
Lemma magic_take (l : list byte) m :
  bytes_at m hdr l → (4 ≤ length l)%nat → bytes_at m hdr (le_bytes 4 LZ4F_MAGICNUMBER) →
  take 4 l = le_bytes 4 LZ4F_MAGICNUMBER.
Proof.
  intros Hb Hl Hm. rewrite <- (take_drop 4 l) in Hb. apply bytes_at_app in Hb as [Hb _].
  eapply bytes_at_inj; [exact Hb|exact Hm|]. by rewrite length_take_le, length_le_bytes.
Qed.

Lemma head_storeHeader st m s :
  at_head st m s → head_stage (ds_dctx st) m → dStage (ds_dctx st) = dstage_storeHeader →
  wp (stage_storeHeader ua st srcEnd newIn newOut) (call_settled (16 * zlen s + 2)) m.
Proof.
  intros H P Hst. unfold head_stage in P. rewrite Hst in P. destruct P as [Hk HT].
  pose proof H as [H1 H2 H3 H4 H5 H6 H7]. pose proof (ow_hdr _ _ H1) as Hm. pose proof (kn_hdr _ H2) as Hh.
  unfold stage_storeHeader. rewrite Hh in Hm, HT. set (T := tmpInTarget (ds_dctx st)) in *.
  unfold minFHSize, maxFHSize in *.
  destruct (mapped_bytes m hdr (d_tmpInSize (ds_dctx st))) as (pre & Hl & Hb); [lia|solve_mapped|].
  eapply wp_seq; [apply (head_gather st m s T pre H); (done || lia)|].
  intros [st' ok] m1 (a & s' & -> & -> & Hok & Hb1 & H'). set (l := pre ++ a) in *.
  assert (Hlen : zlen l = zlen pre + zlen a) by (unfold l; rewrite length_app; lia). rewrite length_app.
  pose proof H' as [O' K' S' L' E' D' Kp'].
  cbn [ds_dctx ds_src ds_dst ds_sel set_in tmpInTarget d_tmpInSize d_header] in *.
  set (d1 := set_in (ds_dctx st) (zlen l) T) in *. fold T. destruct ok; cbn [negb].
  - rewrite Hh. assert (Hmg : T = 15 → take 4 l = le_bytes 4 LZ4F_MAGICNUMBER).
    { intros ET. destruct HT as [HT|(_ & H4' & Hmagic)]; [lia|]. apply (magic_take _ _ Hb1); [lia|].
      pose proof (magic_take _ _ Hb ltac:(lia) Hmagic) as Htk. rewrite <- Htk.
      assert (take 4 pre = take 4 l) as -> by (unfold l; rewrite take_app_le; [done|lia]).
      rewrite <- (take_drop 4 l) in Hb1. by apply bytes_at_app in Hb1 as [Hb1 _]. }
    destruct (decodeHeader_total ua d1 hdr l newIn newOut m1) as (d' & r & m' & Hrun & V);
      [done|unfold minFHSize; lia|apply (ow_hdr _ _ O')|apply (cs_new _ _ _ _ _ _ _ _ C)..|].
    rewrite Hok in Hrun. eapply wp_run; [exact Hrun|]. cbv beta iota.
    destruct V as [sized fi rest Hfr Hinfo Hsz|d' r Hsk Hd'|m' Hcut F Hbm|d' e He _ _ _].
    + rewrite isError_small by (destruct sized; done). apply wp_ret. rewrite H6.
      split; [|unfold work; cbn [ds_src ds_dctx]; cbn [started dStage rank]; lia].
      right. apply od_owns in O'. by apply started_frame with s'.
    + change (d_header d1) with (d_header (ds_dctx st)) in Hd'. rewrite Hh, Z.eqb_refl in Hd'.
      destruct Hd' as [-> ->]. rewrite isError_small by lia. apply wp_ret.
      assert (ET : T = 7).
      { destruct HT as [|[HT _]]; [done|]. by apply (magic_not_skippable l (Hmg HT)) in Hsk. }
      split; [|unfold work; cbn; lia]. left. exists s'. split; [|cbn; lia].
      eapply (at_head_ctx (DState _ _ _ _)); [exact H'| |].
      * by eapply owned_same; [..|apply (kept_refl [])|exact O'].
      * by eapply kin_same; [..|exact K'].
    + destruct Hcut as (Hmagic & _ & Hlt). unfold maxFHSize in Hlt.
      rewrite isError_small by lia. apply wp_ret. split; [|unfold work; cbn; lia]. left. exists s'.
      change (d_header d1) with (d_header (ds_dctx st)) in F, Hbm. rewrite Hh in F, Hbm.
      apply (at_head_frame _ _ _ _ _ _ H') in F as H''; [|lia|lia]. split.
      * eapply (at_head_ctx (DState _ _ _ _)); [exact H''|..]; destruct H'' as [O'' K'' _ _ _ _ _].
        -- by eapply owned_same; [..|apply (kept_refl [])|exact O''].
        -- by eapply kin_same; [..|exact K''].
      * cbn [ds_dctx]. unfold head_stage. cbn [set_stage set_in set_info dStage tmpInTarget d_tmpInSize d_header].
        change (d_header d1) with (d_header (ds_dctx st)). rewrite Hh. unfold maxFHSize in *. split; [lia|]. right. split; [done|]. split; [lia|].
        rewrite <- (take_drop 4 l), Hmagic in Hbm. by apply bytes_at_app in Hbm as [Hbm _].
    + rewrite He. apply wp_ret. by split.
  - apply wp_ret. left. exists s'. split; [done|]. unfold head_stage. cbn [ds_dctx].
    unfold d1. cbn [set_in dStage tmpInTarget d_tmpInSize d_header]. rewrite Hst, Hh. fold T. split; [lia|].
    destruct HT as [HT|(HT & H4' & Hmagic)]; [by left|right]. split; [done|]. split; [lia|].
    pose proof (magic_take _ _ Hb ltac:(lia) Hmagic) as Htk. rewrite <- Htk.
    unfold l in Hb1. rewrite <- (take_drop 4 pre), <- app_assoc in Hb1. by apply bytes_at_app in Hb1 as [Hb1 _].
Qed.

Lemma head_getHeader st m s :
  at_head st m s → wp (stage_getHeader ua st srcEnd newIn newOut) (call_settled (16 * zlen s + 2)) m.
Proof.
  intros H. pose proof H as [H1 H2 H3 H4 H5 H6 H7]. pose proof (cs_size _ _ _ _ _ _ _ _ C) as [_ Hc].
  unfold stage_getHeader. rewrite usize_fits by (unfold srcEnd in *; lia). rewrite Z.geb_leb. unfold maxFHSize.
  destruct (Z.leb_spec 15 (srcEnd - ds_src st)) as [Hge|Hlt].
  - replace (srcEnd - ds_src st) with (zlen s) by lia.
    destruct (decodeHeader_total ua (ds_dctx st) (ds_src st) s newIn newOut m) as (d' & r & m' & Hrun & V);
      [done|unfold minFHSize; lia|apply (ow_hdr _ _ H1)|apply (cs_new _ _ _ _ _ _ _ _ C)..|].
    eapply wp_run; [exact Hrun|]. cbv beta iota.
    destruct V as [sized fi rest -> Hinfo Hsz|d' r Hsk Hd'|m' Hcut F Hbm|d' e He _ _ _].
    + assert (HL : 7 ≤ header_size sized ≤ 15) by (by destruct sized). rewrite isError_small by lia. apply wp_ret.
      pose proof (length_header sized fi) as Hlen. rewrite length_app in *. rewrite H6.
      split; [|unfold work; cbn [ds_src ds_dctx]; cbn [started dStage rank]; lia].
      apply bytes_at_app in H3 as [_ H3]. rewrite Hlen in H3. right.
      apply od_owns in H1. apply started_frame with rest; (done || lia).
    + destruct (cs_rooms _ _ _ _ _ _ _ _ C hdr 16) as (A1 & _); [unfold rooms; set_solver|].
      rewrite (kn_hdr _ H2) in Hd'. unfold apart, srcEnd in *.
      destruct (Z.eqb_spec (ds_src st) hdr); [lia|]. destruct Hd' as [-> ->].
      rewrite isError_small by lia. apply wp_ret.
      assert (H4' : zlen (take 4 s) = 4) by (rewrite length_take_le; lia).
      split; [|unfold work; cbn; lia]. left. exists (drop 4 s). split; [|done].
      rewrite <- (take_drop 4 s) in H. rewrite <- H4' at 1. apply (at_head_read _ _ _ _ _ _ H).
      * by eapply owned_same; [..|apply (kept_refl [])|exact H1].
      * by eapply kin_same; [..|exact H2].
    + destruct Hcut as (_ & _ & Hcut). unfold maxFHSize in *. lia.
    + rewrite He. apply wp_ret. by split.
  - apply head_storeHeader; [|cbn; unfold minFHSize; split; [lia|by left]|done].
    apply at_head_ctx; [done|..].
    + by eapply owned_same; [..|apply (kept_refl [])|exact H1].
    + by eapply kin_same; [..|exact H2].
Qed.

(** ** Skippable frames *)

Lemma head_decodeSFrameSize st m (w : Z) s :
  at_head st m s → mapped m (ds_sel st) 4 → 16 * zlen s + 2 < w →
  wp (stage_decodeSFrameSize st) (call_settled w) m.
Proof.
  intros H Hm Hw. unfold stage_decodeSFrameSize. pose proof H as [H1 H2 H3 H4 H5 H6 H7].
  destruct (mapped_bytes m (ds_sel st) 4 ltac:(lia) Hm) as (q & Hq & Hb).
  eapply wp_run; [apply (readLE32_val _ q); [done|lia]|]. apply wp_ret.
  split; [|unfold work; cbn; lia]. left. exists s. split.
  - apply at_head_ctx; [done|..].
    + by eapply owned_same; [..|apply (kept_refl [])|exact H1].
    + by eapply kin_same; [..|exact H2].
  - pose proof (le_val_range q) as Hv. rewrite Hq in Hv. cbn. exact Hv.
Qed.

Lemma head_storeSFrameSize st m s :
  at_head st m s → dStage (ds_dctx st) = dstage_storeSFrameSize → head_stage (ds_dctx st) m →
  wp (stage_storeSFrameSize st srcEnd) (call_settled (16 * zlen s + 2)) m.
Proof.
  intros H Hst P. unfold head_stage in P. rewrite Hst in P. destruct P as [HT Hk].
  pose proof H as [H1 H2 H3 H4 H5 H6 H7]. pose proof (ow_hdr _ _ H1) as Hm. pose proof (kn_hdr _ H2) as Hh.
  unfold stage_storeSFrameSize. rewrite HT. rewrite Hh in Hm.
  destruct (mapped_bytes m hdr (d_tmpInSize (ds_dctx st))) as (pre & Hl & Hb); [lia|solve_mapped|].
  eapply wp_seq; [apply (head_gather st m s 8 pre H); (done || lia)|].
  intros [st' ok] m1 (a & s' & -> & -> & Hok & _ & H'). rewrite !length_app in *.
  destruct ok; cbn [negb ds_dctx ds_src ds_dst ds_sel set_in tmpInTarget d_tmpInSize d_header].
  - apply head_decodeSFrameSize with s'; [|cbn [ds_sel]; rewrite Hh|lia].
    + by apply (at_head_ctx _ _ _ _ _ H'); destruct H'.
    + pose proof (ow_hdr _ _ (ah_owns _ _ _ H')) as Hm1. cbn [ds_dctx set_in d_header] in Hm1. rewrite Hh in Hm1.
      solve_mapped.
  - apply wp_ret. left. exists s'. split; [done|]. unfold head_stage.
    cbn [ds_dctx set_in dStage tmpInTarget d_tmpInSize]. rewrite Hst. lia.
Qed.

Lemma head_getSFrameSize st m s :
  at_head st m s → wp (stage_getSFrameSize st srcEnd) (call_settled (16 * zlen s + 2)) m.
Proof.
  intros H. pose proof H as [H1 H2 H3 H4 H5 H6 H7]. unfold stage_getSFrameSize. rewrite Z.geb_leb.
  destruct (Z.leb_spec 4 (srcEnd - ds_src st)) as [Hge|Hlt].
  - assert (H4' : zlen (take 4 s) = 4) by (rewrite length_take_le; lia).
    pose proof (bytes_at_mapped _ _ _ H3) as Hm. rewrite <- (take_drop 4 s) in H.
    apply (at_head_read _ (ds_dctx st) (ds_src st)) in H as H'; [|done|done]. rewrite H4' in H'.
    eapply head_decodeSFrameSize; [exact H'|cbn; solve_mapped|]. rewrite length_drop. lia.
  - apply head_storeSFrameSize; [|done|cbn; lia]. apply at_head_ctx; [done|..].
    + by eapply owned_same; [..|apply (kept_refl [])|exact H1].
    + by eapply kin_same; [..|exact H2].
Qed.

Lemma head_skip st m s (w : Z) :
  at_head st m s → 0 ≤ tmpInTarget (ds_dctx st) < 2 ^ 32 → dStage (ds_dctx st) = dstage_skipSkippable →
  wp (stage_skipSkippable st srcEnd) (call_settled w) m.
Proof.
  intros H Ht Hst. pose proof H as [H1 H2 H3 H4 H5 H6 H7]. pose proof (cs_size _ _ _ _ _ _ _ _ C) as [_ Hc].
  unfold stage_skipSkippable. apply wp_ret. set (n := tmpInTarget (ds_dctx st)) in *.
  rewrite !(usize_fits (srcEnd - ds_src st)) by (unfold srcEnd in *; lia). rewrite !Z.gtb_ltb.
  set (k := if _ <? n then _ else _).
  assert (Hk : k = Z.min n (zlen s)).
  { unfold k. destruct (Z.ltb_spec (srcEnd - ds_src st) n); lia. }
  clearbody k. rewrite usize_fits by lia.
  assert (Hl : zlen (take (Z.to_nat k) s) = k) by (rewrite length_take_le; lia).
  rewrite <- (take_drop (Z.to_nat k) s) in H. left. exists (drop (Z.to_nat k) s).
  set (d1 := set_in (ds_dctx st) (d_tmpInSize (ds_dctx st)) (n - k)).
  change (tmpInTarget d1) with (n - k).
  split.
  - rewrite <- Hl at 2.
    destruct (n - k =? 0); cbn [negb]; apply (at_head_read _ _ _ _ _ _ H);
      ((by eapply owned_same; [..|apply (kept_refl [])|exact H1]) || (by eapply kin_same; [..|exact H2])).
  - unfold head_stage. cbn [ds_dctx]. destruct (n - k =? 0); cbn [negb]; [done|].
    change (dStage d1) with (dStage (ds_dctx st)). rewrite Hst. change (tmpInTarget d1) with (n - k). lia.
Qed.

(** ** The loop *)

Lemma call_step st m :
  head_inv st m ∨ frame_inv st m →
  wp (dstep ua st srcEnd dst dstEnd newIn newOut) (call_settled (work srcEnd st)) m.
Proof.
  intros [(s & H & P)|(fi & bin & bout & cap & m1 & R & K & Mi & I)].
  - unfold work. replace (srcEnd - ds_src st) with (zlen s) by (pose proof (ah_end _ _ _ H); lia).
    unfold dstep. pose proof P as P'. unfold head_stage in P.
    destruct (dStage (ds_dctx st)) eqn:Hst; cbn [rank]; try done.
    + by apply head_getHeader.
    + by apply head_storeHeader.
    + by apply head_getSFrameSize.
    + by apply head_storeSFrameSize.
    + by apply head_skip with s.
  - eapply wp_mono; [eapply (safe_step ua fi bin bout cap hdr dst dstEnd src srcEnd call_rooms m1); [|exact I]|].
    + intros i. by apply room_ranges.
    + intros [st'|st' hint|d code] m'; cbn [settled call_settled].
      * intros [I' Hw]. split; [|done]. right. by exists fi, bin, bout, cap, m1.
      * intros [[I' Hs]|E]; right; [left; split; [|done]|right]; by exists fi, bin, bout, cap, m1.
      * intros [He K']. split; [done|]. by etransitivity.
Qed.

(** ** The end of the call *)

Context (O0 : owns d0 m0).

Lemma frame_owns (fi : LZ4F_frameInfo_t) (bin bout cap : Z) d m m1 :
  frame_room fi bin bout cap → kept call_rooms m0 m → mapped m bin (in_size cap) → mapped m bout cap →
  block_ctx fi bin bout cap hdr d → dict_sized d → owns d m.
Proof.
  intros R K Mi Mo [[X1 X2 X3 X4 X5 X6] X7 X8 X9] Dr. pose proof (needed_range _ (fr_info _ _ _ _ R)) as Hn.
  destruct R as [R1 R2 R3 R4 R5 R6 R7].
  constructor; rewrite ?X3, ?X4, ?X5, ?X9; try done; try (by right).
  - eapply call_mapped; [done|]. apply (ow_hdr _ _ O0).
  - unfold KB in *. lia.
Qed.

(** What is known at the end of the loop. *)
Lemma finish_frame st m (fi : LZ4F_frameInfo_t) (bin bout cap : Z) m1 s out :
  frame_room fi bin bout cap → kept call_rooms m0 m1 → mapped m1 bin (in_size cap) →
  going fi bin bout cap hdr dst dstEnd src srcEnd call_rooms m1 st m s out →
  kept call_rooms m0 m ∧ mapped m bin (in_size cap) ∧ mapped m bout cap ∧
  src ≤ ds_src st ≤ srcEnd ∧ dst ≤ ds_dst st ≤ dstEnd.
Proof.
  intros R K Mi [G1 G2 G3 G4 G5 G6 G7 G8]. split; [by etransitivity|]. split; [by eapply kept_mapped|].
  split; [apply (bo_out _ _ _ _ _ G1)|]. pose proof (io_room _ _ _ _ _ _ _ _ _ _ G2). lia.
Qed.

(** A call that stops before the blocks may still save a dictionary that is left
    from the frame before. *)
Lemma finish_head st m s :
  at_head st m s → head_stage (ds_dctx st) m →
  wp (preserve_dict (ds_dctx st) 0) (λ d' m', dctx_ok d' m' ∧ kept call_rooms m0 m') m.
Proof.
  intros [[H1 HD] H2 H3 H4 H5 H6 H7] P. unfold preserve_dict. set (d := ds_dctx st) in *.
  destruct (d_linked d && negb (d_dict d =? tmpOutBuffer d) && (0 =? 0) && _) eqn:Hc;
    [|apply wp_ret; split; [by constructor; [|left]|done]].
  rewrite !andb_true_iff, negb_true_iff in Hc. destruct Hc as [[[_ Hne] _] Hs]. apply Z.eqb_neq in Hne.
  assert (Hst : dStage d = dstage_storeHeader) by (unfold head_stage in P; destruct (dStage d); done).
  rewrite Hst. pose proof H1 as [O1 O2 O3 O4 O5 O6 O7 O8 O9].
  destruct O8 as [|O8]; [done|]. destruct HD as [|HD]; [done|].
  assert (Hcap : KB 64 ≤ d_maxBufferSize d).
  { destruct O1 as [O1|(fi & Hok & ->)]; [by apply O9 in O1|]. by apply needed_range. }
  rewrite Z.gtb_ltb. set (k := if _ <? _ then _ else _).
  assert (Hk : k = Z.min (d_dictSize d) (KB 64)).
  { unfold k. destruct (Z.ltb_spec (KB 64) (d_dictSize d)); lia. }
  unfold KB in *. wp_apply memcpy_spec; [lia|by rewrite Hk|solve_mapped|]. intros _ m1 [F _]. apply wp_ret.
  assert (Kr : kept [(tmpOutBuffer d, d_maxBufferSize d)] m m1).
  { eapply (frame_kept _ (tmpOutBuffer d) (d_maxBufferSize d)); [exact F|set_solver|lia|lia]. }
  split; [|etransitivity; [exact H7|]; eapply kept_mono; [|exact Kr]].
  - constructor; [constructor; cbn; try done; try (by eapply kept_mapped)|].
    + by left.
    + left. unfold head_stage in *. cbn [set_out set_dict dStage tmpInTarget d_tmpInSize d_header]. rewrite Hst in *.
      destruct P as [P1 P2]. split; [done|]. destruct P2 as [P2|(P2 & P3 & P4)]; [by left|right].
      split; [done|]. split; [done|]. eapply bytes_at_frame; [exact F| |done].
      rewrite length_le_bytes. unfold apart in O6. lia.
  - intros i (x & y & Hin & Hi). set_unfold in Hin. destruct Hin as [[= -> ->]|[]].
    exists (tmpOutBuffer d), (d_maxBufferSize d). split; [|done].
    rewrite (kn_out _ H2), (kn_cap _ H2). unfold call_rooms, rooms. set_solver.
Qed.

(** The loop ends in a state from which the context can be kept. *)
Lemma finish_call st (hint : Z) m :
  call_settled 0 (Stop st hint) m →
  wp (preserve_dict (ds_dctx st) 0) (λ d' m', dctx_ok d' m' ∧ kept call_rooms m0 m') m ∧
  src ≤ ds_src st ≤ srcEnd ∧ dst ≤ ds_dst st ≤ dstEnd.
Proof.
  pose proof (cs_size _ _ _ _ _ _ _ _ C) as [Hd _].
  intros [(s & H & P)|[[(fi & bin & bout & cap & m1 & R & K & Mi & s & out & t & G & P) Hs]|
    (fi & bin & bout & cap & m1 & R & K & Mi & Hst & Dr & s & out & G)]].
  - split; [by eapply finish_head|]. destruct H as [H1 H2 H3 H4 H5 H6 H7]. unfold dstEnd. lia.
  - destruct (finish_frame _ _ _ _ _ _ _ _ _ R K Mi G) as (K' & Mi' & Mo & Hsrc & Hdst). split; [|done].
    eapply wp_mono; [by eapply safe_park|]. intros d' m' (Hr & X & Dr & F).
    assert (Kf : kept call_rooms m m').
    { apply (kept_mono (call_ranges fi bin bout cap dst dstEnd)); [intros i; by apply room_ranges|].
      eapply (frame_kept _ bout cap); [exact F|unfold call_ranges; set_solver|lia|lia]. }
    split; [|by etransitivity]. constructor.
    + apply (frame_owns fi bin bout cap); try done; [by etransitivity|by eapply kept_mapped..].
    + right. exists fi. pose proof X as [[X1 X2 X3 X4 X5 X6] X7 X8 X9]. rewrite X3, X4, X5, X9.
      split; [apply (fr_info _ _ _ _ R)|]. split; [apply (fr_need _ _ _ _ R)|done].
  - destruct (finish_frame _ _ _ _ _ _ _ _ _ R K Mi G) as (K' & Mi' & Mo & Hsrc & Hdst). split; [|done].
    unfold preserve_dict. rewrite Hst, andb_false_r. apply wp_ret. split; [|done]. constructor.
    + by apply (frame_owns fi bin bout cap); try done; apply (go_ctx _ _ _ _ _ _ _ _ _ _ _ _ _ _ _ G).
    + left. unfold head_stage. by rewrite Hst.
Qed.

(** The context the call starts with. *)
Lemma call_begin :
  dctx_ok d0 m0 →
  let st := DState d0 src dst NULL in
  (head_inv st m0 ∨ frame_inv st m0) ∧ 0 ≤ work srcEnd st < Z.of_nat (decompress_fuel (zlen chunk)).
Proof.
  intros [_ P] st. split; [|unfold work, decompress_fuel, st, srcEnd; cbn [ds_src ds_dctx];
    pose proof (rank_small (dStage d0)); lia].
  destruct P as [P|(fi & Hok & Hneed & X & Hs & t & P)].
  - left. exists chunk. split; [|done]. constructor; cbn [st ds_src ds_dst ds_dctx]; try done.
    + constructor; [done|]. apply (cs_dict _ _ _ _ _ _ _ _ C). unfold between_frames, head_stage in *.
      by destruct (dStage d0).
    + apply (cs_src _ _ _ _ _ _ _ _ C).
  - right. exists fi, (d_tmpIn d0), (tmpOutBuffer d0), (d_maxBufferSize d0), m0.
    pose proof O0 as [O1 O2 O3 O4 O5 O6 O7 O8 O9]. pose proof (needed_range _ Hok) as Hn.
    assert (R : frame_room fi (d_tmpIn d0) (tmpOutBuffer d0) (d_maxBufferSize d0)).
    { constructor; try done.
      - destruct O1 as [O1|]; [|done]. unfold KB in *. lia.
      - exists (in_size (d_maxBufferSize d0)). split; [unfold rooms; set_solver|lia].
      - exists (d_maxBufferSize d0). split; [unfold rooms; set_solver|lia]. }
    split; [done|]. split; [reflexivity|]. split; [done|]. exists chunk, [], t. split; [|apply P].
    constructor; cbn [st ds_src ds_dst ds_dctx length]; try done; try lia.
    + by apply room_buffers.
    + apply room_io; try done; [apply (cs_src _ _ _ _ _ _ _ _ C)|apply (cs_dst _ _ _ _ _ _ _ _ C)].
    + apply (cs_pad _ _ _ _ _ _ _ _ C).
Qed.

End call.

(** * The theorem *)

Section theorem.
Context {arch : Arch} (ua : bool).

Lemma dctx_ok_expect (d : LZ4F_dctx_t) (e : Z) (m : mem) : dctx_ok d m → dctx_ok (set_expect d e) m.
Proof.
  intros [[O1 O2 O3 O4 O5 O6 O7 O8 O9] S]. constructor; [by constructor|].
  destruct S as [S|(fi & Hok & Hn & [[X1 X2 X3 X4 X5 X6] X7 X8 X9] & Hs & t & P)]; [by left|right].
  exists fi. split; [done|]. split; [done|]. split; [by constructor; [constructor|..]|].
  split; [done|]. exists t. intros dst1 dstEnd1 sel. specialize (P dst1 dstEnd1 sel).
  assert (D : dict_at fi d m dst1 t [] → dict_at fi (set_expect d e) m dst1 t []).
  { intros D. by eapply dict_at_same; [..|exact D]. }
  unfold spot in *. change (dStage (set_expect d e)) with (dStage d). destruct (dStage d);
    first [exact P|by apply D|by destruct P as [P1 P2]; split; [apply D|exact P2]|idtac].
  destruct P as (f & pend & [L1 L2 L3 L4 L5 L6 L7]). exists f, pend. constructor; try done.
  intros Hl. destruct (L7 Hl). by constructor.
Qed.

(** A new context. *)
Lemma created_ok (dctxPtr header version : Z) (d : LZ4F_dctx_t) (code : Z) (m : mem) :
  LZ4F_createDecompressionContext dctxPtr header version = (Some d, code) → 0 ≤ header →
  mapped m header 16 → dctx_ok d m.
Proof.
  unfold LZ4F_createDecompressionContext. destruct (dctxPtr =? NULL); [done|]. intros [= <- _] Hh Hm.
  constructor; [|by left]. constructor;
    cbn [d_maxBufferSize d_tmpIn tmpOutBuffer d_header d_xxh d_dict]; unfold apart, NULL; try done.
  - by left.
  - intros i Hi. change (in_size 0) with 0 in Hi. lia.
  - intros i Hi. lia.
  - change (in_size 0) with 0. lia.
  - lia.
  - by left.
Qed.

(** C5: [LZ4F_decompress], called without [stableDst], is safe on every input.
    Whatever bytes a call is given, in whatever stage the decoder is, it returns: it
    reads its input and at most one byte after it (which must be readable), writes
    only its destination, the header and the buffers of the context, and consumes
    and produces no more than it was given.  Unless it reports an error, the context
    it leaves satisfies the invariant [dctx_ok] again, which is about the buffers
    of the context only: within a frame the next call is safe whatever became of the
    destinations of the earlier ones.  For a call between two frames it is needed
    that the end of the dictionary of the previous frame is still readable if it is
    not in the decoder's buffer ([dict_readable]): the code may save it even then,
    and [LZ4F_decompress_stale_dict] shows that the call faults otherwise. *)
Theorem LZ4F_decompress_any_input (d : LZ4F_dctx_t) (m : mem) (dst dstSize src : Z) (chunk : list byte)
    (opts : option LZ4F_decompressOptions_t) (newIn newOut : Z) :
  dctx_ok d m → call_safe d m dst dstSize src chunk newIn newOut →
  stableDst (default (DOptions 0) opts) = 0 →
  ∃ d' n k r m',
    LZ4F_decompress ua d dst dstSize src (zlen chunk) opts newIn newOut m = Ret (d', n, k, r) m' ∧
    0 ≤ n ≤ dstSize ∧ 0 ≤ k ≤ zlen chunk ∧ kept (call_rooms d dst dstSize newIn newOut) m m' ∧
    (LZ4F_isError r = false → dctx_ok d' m').
Proof.
  intros D C Hopt. pose proof (cs_size _ _ _ _ _ _ _ _ C) as [Hds _].
  enough (H : wp (LZ4F_decompress ua d dst dstSize src (zlen chunk) opts newIn newOut)
    (λ '(d', n, k, r) m', 0 ≤ n ≤ dstSize ∧ 0 ≤ k ≤ zlen chunk ∧
       kept (call_rooms d dst dstSize newIn newOut) m m' ∧ (LZ4F_isError r = false → dctx_ok d' m')) m).
  { apply wp_result in H as ([[[d' n] k] r] & m' & Hrun & H). by exists d', n, k, r, m'. }
  unfold LZ4F_decompress. rewrite Hopt.
  assert (Herr : ∀ e : LZ4F_errorCodes, e ≠ OK_NoError → e ≠ ERROR_maxCode →
    LZ4F_isError (error e) = false → dctx_ok d m) by (intros e H1 H2; by rewrite error_large).
  destruct (negb (srcExpect d =? NULL) && negb (src =? srcExpect d)).
  { apply wp_ret. split_and!; try lia; [reflexivity|by apply Herr]. }
  destruct (call_begin d m dst dstSize src chunk newIn newOut C (do_owns _ _ D) D) as [I Hw].
  eapply wp_seq.
  { eapply (dloop_rule ua _ _ _ newIn newOut
      (λ st m', head_inv d m dst dstSize src chunk newIn newOut st m' ∨
                frame_inv d m dst dstSize src chunk newIn newOut st m')
      (λ r m', match r with Again _ => False
               | _ => call_settled d m dst dstSize src chunk newIn newOut 0 r m' end));
      [|exact I|exact Hw].
    intros st m1 Hinv. eapply wp_mono; [by apply (call_step ua d m dst dstSize src chunk newIn newOut C)|].
    by intros [st'|st' hint|d' code] m2 H. }
  intros [st|st hint|d' code] m1 H; [done| |].
  - destruct (finish_call d m dst dstSize src chunk newIn newOut C (do_owns _ _ D) st hint m1 H) as (Hp & Hs & Hdd).
    eapply wp_seq; [exact Hp|]. intros d' m2 [Hd' K]. apply wp_ret.
    split_and!; try lia; [done|]. intros _. by apply dctx_ok_expect.
  - destruct H as [He K]. apply wp_ret. rewrite He. split_and!; try lia; done.
Qed.

End theorem.
