(* ===== verification/Lz4FrameErrors.v ===== *)
(** Error paths of the frame functions: the names of the error codes, and inputs
    on which the code departs from what its interface promises. *)

From Stdlib Require Import ZArith Lia Strings.Byte Strings.String.
From stdpp Require Import base gmap list fin_maps numbers.
From S2P Require Import Prelude Mem Lz4Common Lz4Format Lz4Decompress Lz4DecompressApi Lz4Compress Lz4Stream Lz4Hc Xxhash XxhashProofs Lz4Frame Lz4FrameDec Lz4FrameFormat Lz4FrameProofs Lz4FrameBegin Lz4FrameUpdate Lz4FrameCompress Lz4FrameDict Lz4FrameDecode Lz4FrameCall Lz4FrameResume.

Section errors.
Context {arch : Arch} (ua : bool).
Implicit Types (m : mem) (d : LZ4F_dctx_t) (c : LZ4F_cctx_t).

(** * Error codes *)

(** The identifier of an error code. *)
Definition error_name (e : LZ4F_errorCodes) : string :=
  match e with
  | OK_NoError => "OK_NoError"
  | ERROR_GENERIC => "ERROR_GENERIC"
  | ERROR_maxBlockSize_invalid => "ERROR_maxBlockSize_invalid"
  | ERROR_blockMode_invalid => "ERROR_blockMode_invalid"
  | ERROR_contentChecksumFlag_invalid => "ERROR_contentChecksumFlag_invalid"
  | ERROR_compressionLevel_invalid => "ERROR_compressionLevel_invalid"
  | ERROR_headerVersion_wrong => "ERROR_headerVersion_wrong"
  | ERROR_blockChecksum_unsupported => "ERROR_blockChecksum_unsupported"
  | ERROR_reservedFlag_set => "ERROR_reservedFlag_set"
  | ERROR_allocation_failed => "ERROR_allocation_failed"
  | ERROR_srcSize_tooLarge => "ERROR_srcSize_tooLarge"
  | ERROR_dstMaxSize_tooSmall => "ERROR_dstMaxSize_tooSmall"
  | ERROR_frameHeader_incomplete => "ERROR_frameHeader_incomplete"
  | ERROR_frameType_unknown => "ERROR_frameType_unknown"
  | ERROR_frameSize_wrong => "ERROR_frameSize_wrong"
  | ERROR_srcPtr_wrong => "ERROR_srcPtr_wrong"
  | ERROR_decompressionFailed => "ERROR_decompressionFailed"
  | ERROR_headerChecksum_invalid => "ERROR_headerChecksum_invalid"
  | ERROR_contentChecksum_invalid => "ERROR_contentChecksum_invalid"
  | ERROR_maxCode => "ERROR_maxCode"
  end%string.

(** The codes that [LZ4F_isError] recognises. *)
Definition real_errors : list LZ4F_errorCodes :=
  [ ERROR_GENERIC; ERROR_maxBlockSize_invalid; ERROR_blockMode_invalid; ERROR_contentChecksumFlag_invalid; ERROR_compressionLevel_invalid; ERROR_headerVersion_wrong; ERROR_blockChecksum_unsupported; ERROR_reservedFlag_set; ERROR_allocation_failed; ERROR_srcSize_tooLarge; ERROR_dstMaxSize_tooSmall; ERROR_frameHeader_incomplete; ERROR_frameType_unknown; ERROR_frameSize_wrong; ERROR_srcPtr_wrong; ERROR_decompressionFailed; ERROR_headerChecksum_invalid; ERROR_contentChecksum_invalid ].

Lemma error_codes (code : Z) :
  0 ≤ code < 2 ^ ptr_bits → LZ4F_isError code = true → ∃ e, e ∈ real_errors ∧ code = error e.
Proof.
  intros Hc He. unfold LZ4F_isError in He. rewrite Z.gtb_ltb in He. zbool.
  assert (Hk : 1 ≤ 2 ^ ptr_bits - code ≤ 18).
  { revert Hc He. unfold error, usize, wrap, ptr_bits, STEPSIZE.
    destruct LZ4_64bits; [change ((- error_number ERROR_maxCode) mod 2 ^ (8 * 8)) with (2 ^ 64 - 19)|
      change ((- error_number ERROR_maxCode) mod 2 ^ (8 * 4)) with (2 ^ 32 - 19)]; lia. }
  exists (nth (Z.to_nat (2 ^ ptr_bits - code - 1)) real_errors OK_NoError).
  assert (Hcase : ∃ j, (j < 18)%nat ∧ code = 2 ^ ptr_bits - 1 - Z.of_nat j).
  { exists (Z.to_nat (2 ^ ptr_bits - code - 1)). lia. }
  destruct Hcase as (j & Hj & ->).
  replace (Z.to_nat (2 ^ ptr_bits - (2 ^ ptr_bits - 1 - Z.of_nat j) - 1)) with j by lia.
  split; [apply list_elem_of_In, nth_In; done|]. clear Hc He Hk.
  unfold error, usize, wrap, ptr_bits, STEPSIZE.
  do 18 (destruct j as [|j]; [by destruct LZ4_64bits|]). lia.
Qed.

(** [LZ4F_getErrorName] never reads outside of its table, for any value of
    its argument; every error code the library returns is recognised by
    [LZ4F_isError] and gets the name of its own enumerator. *)
Theorem LZ4F_getErrorName_in_table (code : Z) :
  0 ≤ code < 2 ^ ptr_bits →
  if LZ4F_isError code
  then ∃ e, e ∈ real_errors ∧ code = error e ∧ LZ4F_getErrorName code = Some (error_name e)
  else LZ4F_getErrorName code = Some "Unspecified error code"%string.
Proof.
  intros Hc. destruct (LZ4F_isError code) eqn:He; [|unfold LZ4F_getErrorName; by rewrite He].
  destruct (error_codes code Hc He) as (e & Hin & ->). exists e. split; [done|]. split; [done|].
  unfold LZ4F_getErrorName. rewrite He. clear He Hc Hin. unfold error, usize, wrap, ptr_bits, STEPSIZE.
  by destruct LZ4_64bits, e.
Qed.

(** * The end of a frame *)

(** [LZ4F_compressEnd] does not look at the size of its destination when
    nothing is buffered: even with a destination of no bytes it writes the end
    mark and the checksum, 4 or 8 bytes, and reports them as its result. *)
Theorem LZ4F_compressEnd_ignores_room c (t : list byte) (dst dstMax : Z) m :
  let fi := frameInfo (prefs c) in
  c_tmpInSize c = 0 → info_ok fi → summed c t → contentSize fi = 0 ∨ contentSize fi = totalInSize c →
  mapped m dst (4 + 4 * contentChecksumFlag fi) → dstMax < 4 →
  ∃ c' n m', LZ4F_compressEnd c dst dstMax m = Ret (c', n) m' ∧ dstMax < n ∧
    LZ4F_isError n = false ∧ bytes_at m' dst (suffix_bytes fi t).
Proof.
  intros fi Hin Hok Hsum Hsz Hm Hmax. pose proof (io_check _ Hok). pose proof (length_suffix fi t Hok) as HL.
  pose proof (compressEnd_spec c t dst dstMax m Hin Hok Hsum Hsz Hm) as H'.
  apply wp_result in H' as ([c' n] & m' & Hrun & _ & -> & _ & Hb).
  fold fi in Hrun, Hb.
  eexists _, _, _. split; [exact Hrun|]. split; [lia|]. split; [|done]. apply isError_small. lia.
Qed.

(** * [LZ4F_getFrameInfo] *)

(** in the middle of a frame, when the last call left part of its input,
    [LZ4F_getFrameInfo] reports an error along with the frame information: it
    passes no input to [LZ4F_decompress], which insists on the address it
    expects. *)
Theorem LZ4F_getFrameInfo_after_start d (src srcSize newIn newOut : Z) m :
  stage_number dstage_storeHeader < stage_number (dStage d) → srcExpect d ≠ NULL →
  LZ4F_getFrameInfo ua d src srcSize newIn newOut m
    = Ret (d, Some (d_frameInfo d), 0, error ERROR_srcPtr_wrong) m.
Proof.
  intros Hst He. unfold LZ4F_getFrameInfo. rewrite Z.gtb_ltb.
  destruct (Z.ltb_spec (stage_number dstage_storeHeader) (stage_number (dStage d))); [|lia].
  unfold bind, LZ4F_decompress. destruct (Z.eqb_spec (srcExpect d) NULL) as [|_]; [done|].
  destruct (Z.eqb_spec NULL (srcExpect d)) as [E|_]; [by rewrite <- E in He|]. done.
Qed.

(** given a whole frame without content, [LZ4F_getFrameInfo] reads all of it
    and then answers that the header is incomplete: the decoder is back at the
    stage of the header. *)
Theorem LZ4F_getFrameInfo_empty_frame fi (bytes : list byte) (src newIn newOut : Z) d m :
  lz4_frame fi bytes [] → ready fi newIn newOut d m →
  io_call fi (buf_in d fi newIn) (buf_out d fi newOut) (buf_cap d fi) (d_header d) d m NULL 0 src bytes →
  ∃ d' m', LZ4F_getFrameInfo ua d src (zlen bytes) newIn newOut m
             = Ret (d', None, zlen bytes, error ERROR_frameHeader_incomplete) m'.
Proof.
  intros [F1 F2 (data & F3 & F4)] R C.
  pose proof (decompress_whole ua fi bytes [] data newIn newOut NULL 0 src d m None F3 F2 ltac:(done) F4 R C
    ltac:(done) eq_refl) as H.
  apply wp_result in H as ([[[d' n] k] h] & m' & Hrun & -> & -> & -> & Hst & _ & _).
  exists d', m'. unfold LZ4F_getFrameInfo. rewrite (rd_stage _ _ _ _ _ R). cbn [stage_number Z.gtb Z.compare].
  unfold bind. rewrite Hrun, Hst. done.
Qed.

(** * A dictionary that is kept too long *)

(** The first bytes of a header, fewer than the smallest header. *)
Lemma first_bytes d m (src : Z) (chunk : list byte) (dst newIn newOut : Z) :
  dStage d = dstage_getHeader → bytes_at m src chunk → 0 < zlen chunk < minFHSize →
  mapped m (d_header d) 16 → apart src (zlen chunk) (d_header d) 16 →
  wp (dloop ua (decompress_fuel (zlen chunk)) (DState d src dst NULL) (src + zlen chunk) dst dst newIn newOut)
     (λ r m', ∃ st hint, r = Stop st hint ∧ frame (d_header d) (d_header d + minFHSize) m m' ∧
        ds_dctx st = set_in (set_stage (set_in d 0 minFHSize) dstage_storeHeader) (zlen chunk) minFHSize) m.
Proof.
  intros Hst Hb Hl Hm Ha. unfold minFHSize, apart in *.
  assert (Hf : ∃ f, decompress_fuel (zlen chunk) = S f).
  { exists (Z.to_nat (16 * zlen chunk + 31)). unfold decompress_fuel. lia. }
  destruct Hf as [f ->]. cbn [dloop]. unfold dstep. cbn [ds_dctx]. rewrite Hst. unfold stage_getHeader.
  cbn [ds_src ds_dst ds_sel ds_dctx]. replace (src + zlen chunk - src) with (zlen chunk) by lia.
  rewrite usize_fits by lia. rewrite Z.geb_leb. unfold maxFHSize.
  destruct (Z.leb_spec 15 (zlen chunk)); [lia|]. unfold stage_storeHeader. apply wp_bind. cbn [ds_dctx].
  eapply wp_seq; [apply (gather_spec _ m _ _ _ [] chunk); cbn; try done; unfold apart, minFHSize; try lia; solve_mapped|].
  intros [st' ok] m1 (a & s' & -> & Hle & -> & Hok & F1 & _). unfold minFHSize in *. cbn [app] in *.
  rewrite length_app in *. destruct ok; [cbn in Hok; lia|]. destruct Hok as [-> _]. cbn [negb].
  apply wp_ret, wp_ret. eexists _, _. split; [reflexivity|]. split; [exact F1|].
  cbn [ds_dctx length]. by replace (Z.of_nat (length a + 0)) with (zlen a) by lia.
Qed.

(** after a frame of linked blocks, the next call still saves the dictionary
    of that frame when it is given only the first bytes of another frame.  If the
    caller has released the buffer the previous content was delivered to, the call
    reads released memory. *)
Theorem LZ4F_decompress_stale_dict d m (src dst newIn newOut : Z) (chunk : list byte) :
  dStage d = dstage_getHeader → srcExpect d = NULL →
  bytes_at m src chunk → 0 < zlen chunk < minFHSize →
  mapped m (d_header d) 16 → apart src (zlen chunk) (d_header d) 16 →
  d_linked d = true → d_dict d ≠ tmpOutBuffer d → 0 < d_dictSize d →
  m !! (d_dict d + d_dictSize d - 1) = None →
  LZ4F_decompress ua d dst 0 src (zlen chunk) None newIn newOut m = Fault.
Proof.
  intros Hst He Hb Hl Hm Ha Hlk Hd Hds Hnone. unfold LZ4F_decompress. rewrite He. cbn [Z.eqb negb andb NULL].
  rewrite Z.add_0_r. pose proof (first_bytes d m src chunk dst newIn newOut Hst Hb Hl Hm Ha) as H.
  apply wp_result in H as (r & m' & Hrun & st & hint & -> & F & Hctx). unfold bind at 1. rewrite Hrun.
  rewrite Hctx. set (d' := set_in _ _ _).
  assert (Hp : preserve_dict d' 0 m' = Fault).
  { unfold preserve_dict. change (d_linked d') with (d_linked d). change (d_dict d') with (d_dict d).
    change (tmpOutBuffer d') with (tmpOutBuffer d). change (dStage d') with dstage_storeHeader.
    change (d_dictSize d') with (d_dictSize d). rewrite Hlk.
    destruct (Z.eqb_spec (d_dict d) (tmpOutBuffer d)); [done|]. cbn [negb andb Z.eqb].
    change (u32 (stage_number dstage_storeHeader - 1) <? u32 (stage_number dstage_getSuffix - 1)) with true.
    cbv iota. rewrite Z.gtb_ltb. set (k := if _ <? _ then _ else _).
    assert (Hk : 0 < k ≤ d_dictSize d).
    { unfold k. destruct (Z.ltb_spec (KB 64) (d_dictSize d)); unfold KB in *; lia. }
    unfold bind at 1, memcpy, bind at 1, load_bytes.
    destruct (read_bytes m' (d_dict d + d_dictSize d - k) (Z.to_nat k)) as [l|] eqn:Hr; [|done].
    apply read_bytes_at in Hr as [Hl' Hat]. pose proof (bytes_at_mapped _ _ _ Hat) as Hmp.
    destruct (Hmp (d_dict d + d_dictSize d - 1)) as [b Hb']; [lia|].
    pose proof (proj1 (frame_dom _ _ _ _ F _) (ex_intro _ b Hb')) as [b' Hb'']. congruence. }
  unfold bind. change (stableDst (default (DOptions 0) None)) with 0. by rewrite Hp.
Qed.

End errors.
