(* ===== verification/Lz4FrameExamples.v ===== *)
(** Concrete frames: instances of the theorems about frame headers, frame
    compression, frame decompression and the error paths. *)

From Stdlib Require Import ZArith Lia Strings.Byte Strings.String.
From stdpp Require Import base gmap list fin_maps numbers.
From S2P Require Import Prelude Mem Lz4Common Lz4Format Lz4Decompress Lz4DecompressApi Lz4Compress Lz4Stream Lz4Hc Xxhash XxhashProofs Lz4Frame Lz4FrameDec Lz4FrameFormat Lz4FrameProofs Lz4FrameBegin Lz4FrameUpdate Lz4FrameCompress Lz4FrameDict Lz4FrameDecode Lz4FrameCall Lz4FrameResume Lz4FrameSafe Lz4FrameSafeCall Lz4FrameErrors.

#[local] Existing Instance x86_64.

(** * A frame with one uncompressed block *)

Definition fx_text : list byte := bytes_of [104; 101; 108; 108; 111].

(** 64 KB blocks, independent, with a checksum and the content size. *)
Definition fx_info : LZ4F_frameInfo_t := FrameInfo 4 1 1 LZ4F_frame 5.

Definition fx_data : list byte := le_bytes 4 (5 + LZ4F_BLOCKUNCOMPRESSED_FLAG) ++ fx_text.

Definition fx_bytes : list byte := header_bytes true fx_info ++ fx_data ++ suffix_bytes fx_info fx_text.

(** A new context; its header buffer is at 95000. *)
Definition fx_dctx : LZ4F_dctx_t :=
  Dctx zero_info LZ4F_VERSION dstage_getHeader 0 0 0 NULL NULL 0 0 NULL NULL 0 NULL 0 0 zero_xxh 95000.

(** The frame is at 70000, and there are 20 bytes of destination at 90000. *)
Definition fx_mem : mem :=
  place 70000 fx_bytes (place 90000 (replicate 20 x00) (place 95000 (replicate 16 x00) ∅)).

Lemma fx_blocks : frame_blocks (block_size fx_info) (blockMode fx_info =? LZ4F_blockLinked) [] fx_data fx_text.
Proof.
  rewrite <- (app_nil_r fx_data), <- (app_nil_r fx_text). apply blocks_cons; [|apply blocks_nil].
  apply (raw_block _ _ fx_text). ground.
Qed.

Lemma fx_info_ok : info_ok fx_info.
Proof. constructor; ground. Qed.

Lemma fx_frame : lz4_frame fx_info fx_bytes fx_text.
Proof. constructor; [apply fx_info_ok|by right|]. exists fx_data. split; [apply fx_blocks|done]. Qed.

Lemma fx_ready : ready fx_info 1000000 2000000 fx_dctx fx_mem.
Proof.
  constructor; [|done|done]. constructor; try done; ground.
Qed.

Lemma fx_call (src n dstSize : Z) (chunk : list byte) :
  bytes_at fx_mem src chunk → 70000 ≤ src → n = zlen chunk → src + n ≤ 80000 → 0 ≤ dstSize ≤ 20 →
  io_call fx_info 1000000 2000000 65536 95000 fx_dctx fx_mem 90000 dstSize src chunk.
Proof.
  intros Hb Hs -> He Hd.
  assert (Ha : ADDR_MAX = 2 ^ 64 - 2 ^ 31) by reflexivity.
  assert (Hbs : block_size fx_info = 65536) by reflexivity.
  assert (Hm : mapped fx_mem 90000 20) by ground.
  constructor; unfold apart; try lia; [|by left].
  constructor; unfold apart; rewrite ?Ha, ?Hbs; cbn [length]; try done; try lia.
  apply (mapped_sub _ _ _ _ _ Hm); lia.
Qed.

Lemma LZ4F_decompress_frame_witness :
  ∃ d' m', LZ4F_decompress true fx_dctx 90000 20 70000 (zlen fx_bytes) None 1000000 2000000 fx_mem
             = Ret (d', zlen fx_text, zlen fx_bytes, 0) m' ∧
    bytes_at m' 90000 fx_text ∧ dStage d' = dstage_getHeader.
Proof.
  apply (LZ4F_decompress_frame true fx_info); [apply fx_frame|ground|apply fx_ready| |ground].
  apply (fx_call _ (zlen fx_bytes)); [ground|done|done|ground|done].
Defined.



(** * A malformed frame *)

(** A header, and a compressed block of one byte that announces 15 literals and
    more. *)
Definition fx_bad : list byte :=
  header_bytes false (FrameInfo 4 1 0 LZ4F_frame 0) ++ le_bytes 4 1 ++ bytes_of [240].

(** The memory, with [pad] after the frame. *)
Definition fx_mem_bad (pad : list byte) : mem :=
  place 70000 (fx_bad ++ pad) (place 90000 (replicate 20 x00) (place 95000 (replicate 16 x00) ∅)).

Lemma fx_bad_call : call_safe fx_dctx (fx_mem_bad [x00]) 90000 20 70000 fx_bad 10000000 20000000.
Proof.
  assert (Ha : ADDR_MAX = 2 ^ 64 - 2 ^ 31) by reflexivity.
  assert (Hl : zlen fx_bad = 12) by reflexivity.
  constructor; unfold apart; rewrite ?Hl, ?Ha; [ground|by eexists|ground|lia| |done|
    unfold MB, KB; lia|cbn [fx_dctx d_header]; unfold MB, KB; lia|lia|lia|by intros _; left].
  intros a n Hin. unfold rooms in Hin. change (in_size (d_maxBufferSize fx_dctx)) with 0 in Hin.
  cbn [fx_dctx d_header d_tmpIn tmpOutBuffer d_maxBufferSize] in Hin. set_unfold in Hin.
  destruct Hin as [[= -> ->]|[[= -> ->]|[[= -> ->]|[[= -> ->]|[[= -> ->]|[]]]]]]; unfold apart, NULL, MB, KB; lia.
Qed.

Lemma LZ4F_decompress_any_input_witness :
  ∃ d' n k r m',
    LZ4F_decompress true fx_dctx 90000 20 70000 (zlen fx_bad) None 10000000 20000000 (fx_mem_bad [x00])
      = Ret (d', n, k, r) m' ∧
    0 ≤ n ≤ 20 ∧ 0 ≤ k ≤ zlen fx_bad ∧
    kept (call_rooms fx_dctx 90000 20 10000000 20000000) (fx_mem_bad [x00]) m' ∧
    (LZ4F_isError r = false → dctx_ok d' m').
Proof.
  apply (LZ4F_decompress_any_input true); [|apply fx_bad_call|done].
  apply (created_ok 1 95000 LZ4F_VERSION fx_dctx 0); ground.
Defined.

(** Without a byte after it, the decoder reads past the end of its input. *)
Lemma LZ4F_decompress_overread :
  LZ4F_decompress true fx_dctx 90000 20 70000 (zlen fx_bad) None 10000000 20000000 (fx_mem_bad []) = Fault.
Proof. vm_compute. reflexivity. Qed.

(** * Headers *)

Lemma LZ4F_decodeHeader_verdict_witness :
  ∃ d' r m', LZ4F_decodeHeader true fx_dctx 70000 (zlen fx_bytes) 1000000 2000000 fx_mem = Ret (d', r) m' ∧
    header_verdict fx_dctx 70000 fx_bytes 1000000 2000000 fx_mem d' r m'.
Proof. apply (LZ4F_decodeHeader_verdict true); ground. Defined.

(** Preferences: linked blocks of 256 KB with a checksum and a content size. *)
Definition fx_prefs : LZ4F_preferences_t := Prefs (FrameInfo 5 0 1 LZ4F_frame 72) 0 1.

Definition fx_hc : LZ4HC_Data_Structure := HC ∅ ∅ 0 0 0 0 0 0 0 0.

(** A text of 72 bytes at 70000 and 200 bytes of destination at 80000. *)
Definition fx_long : list byte := concat (replicate 12 (bytes_of [1; 2; 3; 4; 5; 6])).

Definition fx_mem2 : mem :=
  place 70000 fx_long (place 80000 (replicate 200 x00) (place 90000 (replicate 72 x00)
    (place 95000 (replicate 16 x00) ∅))).

Lemma LZ4F_header_roundtrip_witness :
  ∃ c' d' n m' m'',
    LZ4F_compressBegin true zero_cctx 80000 200 (Some fx_prefs) 3000000 4000000 fx_hc fx_mem2 = Ret (c', n) m' ∧
    7 ≤ n ≤ maxFHSize ∧ cStage c' = 1 ∧
    LZ4F_decodeHeader true fx_dctx 80000 n 1000000 2000000 m' = Ret (d', n) m'' ∧
    d_frameInfo d' = begin_info fx_prefs ∧ dStage d' = dstage_getCBlockSize ∧
    d_maxBlockSize d' = c_maxBlockSize c'.
Proof.
  apply (LZ4F_header_roundtrip true zero_cctx (Some fx_prefs)); [|ground|ground].
  constructor; [ground|constructor; ground|ground..].
Defined.

(** * Compression in one call *)

Lemma fx_fast : fast_prefs fx_prefs.
Proof. constructor; ground. Qed.

Lemma fx_frame_call (cap : Z) : 0 ≤ cap ≤ 200 → frame_call fx_mem2 80000 cap 70000 fx_long.
Proof.
  intros Hc. assert (Hm : mapped fx_mem2 80000 200) by ground.
  constructor; [ground|apply (mapped_sub _ _ _ _ _ Hm); lia|left; ground|ground|ground|ground].
Qed.

Lemma LZ4F_compressFrame_frame_witness :
  ∃ n m', LZ4F_compressFrame true 80000 200 70000 (zlen fx_long) (Some fx_prefs) 4000000 LZ4_resetStream
            3000000 4000000 fx_hc fx_mem2 = Ret n m' ∧
    if 200 <? frame_bound fx_prefs (zlen fx_long)
    then n = error ERROR_dstMaxSize_tooSmall ∧ m' = fx_mem2
    else frame 80000 (80000 + 200) fx_mem2 m' ∧
         ∃ bytes, lz4_frame (frame_info fx_prefs (zlen fx_long)) bytes fx_long ∧ n = zlen bytes ∧ n ≤ 200 ∧
           bytes_at m' 80000 bytes.
Proof.
  apply (LZ4F_compressFrame_frame true 80000 200 70000 (Some fx_prefs));
    [apply fx_fast|apply fx_frame_call; lia|ground].
Defined.

(** * The round trip *)


(** * Error paths *)

Lemma LZ4F_getErrorName_in_table_witness :
  LZ4F_isError (2 ^ 64 - 12) = true ∧
  if LZ4F_isError (2 ^ 64 - 12)
  then ∃ e, e ∈ real_errors ∧ 2 ^ 64 - 12 = error e ∧ LZ4F_getErrorName (2 ^ 64 - 12) = Some (error_name e)
  else LZ4F_getErrorName (2 ^ 64 - 12) = Some "Unspecified error code"%string.
Proof. split; [done|]. apply LZ4F_getErrorName_in_table. ground. Defined.

Definition fx_cctx : LZ4F_cctx_t :=
  Cctx (Prefs (FrameInfo 4 1 0 LZ4F_frame 0) 0 0) LZ4F_VERSION 1 65536 65536 3000000 3000000 0 0 zero_xxh
    4000000 (FastCtx LZ4_resetStream) 1.

Lemma LZ4F_compressEnd_ignores_room_witness :
  ∃ c' n m', LZ4F_compressEnd fx_cctx 80000 0 fx_mem2 = Ret (c', n) m' ∧ 0 < n ∧ LZ4F_isError n = false ∧
    bytes_at m' 80000 (suffix_bytes (frameInfo (prefs fx_cctx)) []).
Proof.
  apply (LZ4F_compressEnd_ignores_room fx_cctx []); [done|constructor; ground|done|by left|ground|done].
Defined.

Lemma LZ4F_getFrameInfo_after_start_witness :
  let d := set_expect (set_stage fx_dctx dstage_getCBlock) 70015 in
  LZ4F_getFrameInfo true d 70015 10 1000000 2000000 fx_mem
    = Ret (d, Some (d_frameInfo d), 0, error ERROR_srcPtr_wrong) fx_mem.
Proof. apply (LZ4F_getFrameInfo_after_start true); ground. Defined.

(** A frame without content: the header and the end mark. *)
Definition fx_empty_info : LZ4F_frameInfo_t := FrameInfo 4 1 0 LZ4F_frame 0.
Definition fx_empty : list byte := header_bytes false fx_empty_info ++ le_bytes 4 0.

Definition fx_mem3 : mem := place 70000 fx_empty (place 95000 (replicate 16 x00) ∅).

Lemma LZ4F_getFrameInfo_empty_frame_witness :
  ∃ d' m', LZ4F_getFrameInfo true fx_dctx 70000 (zlen fx_empty) 1000000 2000000 fx_mem3
             = Ret (d', None, zlen fx_empty, error ERROR_frameHeader_incomplete) m'.
Proof.
  apply (LZ4F_getFrameInfo_empty_frame true fx_empty_info).
  - constructor; [constructor; ground|by left|]. exists []. split; [apply blocks_nil|done].
  - constructor; [constructor; try done; ground|done|done].
  - constructor; [constructor; ground|ground|ground|by left].
Defined.

(** The context after a linked frame whose 20 bytes of content went to 60000, and
    three bytes of the next frame. *)
Definition fx_after : LZ4F_dctx_t :=
  Dctx (FrameInfo 4 0 0 LZ4F_frame 0) LZ4F_VERSION dstage_getHeader 0 65536 196608 NULL 1000000 0 0
    2000000 60000 20 2000000 0 0 zero_xxh 95000.

Lemma LZ4F_decompress_stale_dict_witness :
  LZ4F_decompress true fx_after 90000 0 70000 (zlen (take 3 fx_bytes)) None 1000000 2000000 fx_mem = Fault.
Proof. apply (LZ4F_decompress_stale_dict true fx_after); ground. Defined.
