(* ===== verification/Primality.v ===== *)
(** Certificates of primality in the style of Pocklington, with a checker.

    The inverses of secp256k1 are powers, [x^(n-2)] modulo the group order and
    [x^(p-2)] modulo the field prime.  That such a power is the inverse of [x]
    is Fermat's little theorem, which the Standard Library has, and that these
    two numbers are prime, which the certificates show. *)

From Stdlib Require Import ZArith Lia Znumtheory Zdivisibility ZmodInv.
From stdpp Require Import base list sets numbers.
From S2P Require Import Prelude.

(** * Powers *)

(** [x] less a multiple of [n] that is near [x]: with [n] below [2^k] and [mu]
    near [2^(2k) / n], Barrett's reduction. *)
Definition loose_mod (n k mu x : Z) : Z := x - Z.shiftr (Z.shiftr x (k - 1) * mu) (k + 1) * n.

Section Power.
Context (n : Z) (red : Z → Z) (Hred : ∀ x, red x mod n = x mod n).

Fixpoint power_by (a : Z) (e : positive) : Z :=
  match e with
  | xH => red a
  | xO e => let r := power_by a e in red (r * r)
  | xI e => let r := power_by a e in red (red (r * r) * a)
  end.

Lemma power_by_spec (a : Z) (e : positive) : power_by a e mod n = a ^ Zpos e mod n.
Proof using Hred.
  assert (Hsq : ∀ e, power_by a e mod n = a ^ Zpos e mod n →
    (power_by a e * power_by a e) mod n = a ^ (Zpos e + Zpos e) mod n).
  { intros f IH. rewrite Z.pow_add_r by lia. by rewrite Zmult_mod, IH, <- Zmult_mod. }
  induction e as [e IH|e IH|]; cbn [power_by].
  - replace (Zpos (xI e)) with (Zpos e + Zpos e + 1) by lia.
    rewrite (Z.pow_add_r _ (_ + _)), Z.pow_1_r by lia.
    by rewrite Hred, <- Zmult_mod_idemp_l, Hred, Hsq, Zmult_mod_idemp_l.
  - replace (Zpos (xO e)) with (Zpos e + Zpos e) by lia. by rewrite Hred, Hsq.
  - by rewrite Hred, Z.pow_1_r.
Qed.
End Power.

Definition powm (a n : Z) (e : positive) : Z :=
  let k := Z.log2 n + 3 in
  let mu := 2 ^ (2 * k) / n in
  power_by (loose_mod n k mu) a e mod n.

Lemma powm_spec (a n : Z) (e : positive) : powm a n e = a ^ Zpos e mod n.
Proof.
  unfold powm. apply power_by_spec. intros x. unfold loose_mod.
  rewrite <- (Z_mod_plus_full x (- Z.shiftr (Z.shiftr x (Z.log2 n + 3 - 1) *
    (2 ^ (2 * (Z.log2 n + 3)) / n)) (Z.log2 n + 3 + 1))).
  f_equal. ring.
Qed.

(** * Pocklington's criterion *)

Section Divisor.
Context (p : Z) (Hp : Z.prime p).

Lemma pow_mul_1 (b e k : Z) : 0 ≤ e → 0 ≤ k → b ^ e mod p = 1 → b ^ (e * k) mod p = 1.
Proof.
  intros He Hk H. rewrite Z.pow_mul_r, <- Z.mod_pow_l, H, Z.pow_1_l by done.
  apply Z.mod_small. pose proof (Z.prime_ge_2 p Hp). lia.
Qed.

(** An element other than 1 whose order divides a prime [q]: [q] divides the order
    of the group. *)
Lemma prime_order (b q : Z) :
  Z.prime q → b ^ q mod p = 1 → b mod p ≠ 1 → (q | p - 1).
Proof.
  intros Hq Hbq Hb. pose proof (Z.prime_ge_2 p Hp). pose proof (Z.prime_ge_2 q Hq).
  assert (Hnz : b mod p ≠ 0).
  { intros E. rewrite <- Z.mod_pow_l, E, Z.pow_0_l in Hbq by lia. done. }
  pose proof (Z.fermat_nz p b Hp Hnz) as Hf.
  destruct (Z.BoolSpec_divide q (p - 1)) as [Hd|Hd]; [done|]. exfalso. apply Hb.
  apply Z.coprime_prime_l in Hd; [|done].
  destruct (Z.extgcd q (p - 1)) as [[u v] g] eqn:E. apply Z.extgcd_correct in E as [E ->].
  rewrite Hd in E.
  (* u * q = 1 + k * (p - 1) with u and k not negative *)
  set (w := Z.abs u + Z.abs v). assert (0 ≤ w) by lia.
  assert (Hu : 0 ≤ u + w * (p - 1)) by (assert (w ≤ w * (p - 1)) by nia; lia).
  assert (Hk : 0 ≤ w * q - v) by (assert (w ≤ w * q) by nia; lia).
  assert (Heq : q * (u + w * (p - 1)) = 1 + (p - 1) * (w * q - v)) by nia.
  assert (0 ≤ (p - 1) * (w * q - v)) by nia.
  pose proof (pow_mul_1 b q _ ltac:(lia) Hu Hbq) as Hone.
  rewrite Heq, Z.pow_add_r, Z.pow_1_r, Zmult_mod, pow_mul_1, Z.mul_1_r, Zmod_mod in Hone by (done || lia).
  done.
Qed.
End Divisor.

(** A prime factor [q] of [n - 1] with its witness [a] divides [p - 1] for every
    prime divisor [p] of [n]. *)
Lemma pocklington_factor (n a q p : Z) :
  1 < n → Z.prime q → (q | n - 1) → Z.prime p → (p | n) →
  a ^ (n - 1) mod n = 1 → Z.gcd (a ^ ((n - 1) / q) mod n - 1) n = 1 → (q | p - 1).
Proof.
  intros Hn Hq Hqd Hp Hpd Ha Hg. pose proof (Z.prime_ge_2 p Hp). pose proof (Z.prime_ge_2 q Hq).
  set (b := a ^ ((n - 1) / q)) in *.
  assert (Hmod : ∀ x, x mod n mod p = x mod p) by (intros x; apply Z.mod_mod_divide; done).
  apply (prime_order p Hp b); [done| |].
  - unfold b. rewrite <- Z.pow_mul_r by (try apply Z.div_pos; lia).
    destruct Hqd as [k Hk]. rewrite Hk, Z.div_mul by lia. rewrite <- Hk, <- Hmod, Ha.
    apply Z.mod_small. lia.
  - intros Hb. assert (Hd : (p | Z.gcd (b mod n - 1) n)).
    { apply Z.gcd_greatest; [|done]. apply Z.mod_divide; [lia|].
      rewrite Zminus_mod, Hmod, Hb. by rewrite (Z.mod_small 1) by lia. }
    rewrite Hg in Hd. apply Z.divide_1_r_nonneg in Hd; lia.
Qed.

Definition product (l : list Z) : Z := foldr Z.mul 1 l.

(** Distinct primes that divide a number, divide it together. *)
Lemma product_divides (qs : list Z) (m : Z) :
  NoDup qs → (∀ q, q ∈ qs → Z.prime q ∧ (q | m)) → (product qs | m).
Proof.
  intros Hd. revert m. induction Hd as [|q qs Hq _ IH]; intros m H; simpl; [apply Z.divide_1_l|].
  destruct (H q ltac:(set_solver)) as [Hp [k Hk]]. subst m. rewrite Z.mul_comm.
  apply Z.mul_divide_mono_r, IH. intros q' Hq'. destruct (H q' ltac:(set_solver)) as [Hp' Hd'].
  split; [done|]. apply Z.divide_prime_mul in Hd' as [?|Hd']; [done| |done].
  apply Z.divide_prime_prime in Hd'; [|done..]. by subst.
Qed.

(** The small divisor of a composite number. *)
Lemma prime_divisor (n : Z) : 1 < n → ∃ p, Z.prime p ∧ (p | n).
Proof.
  intros Hn. assert (H0 : 0 ≤ n) by lia. revert Hn. pattern n. apply Z_lt_induction; [|done].
  clear n H0. intros n IH Hn. destruct (prime_dec n) as [Hp|Hp].
  - exists n. split; [by apply prime_alt|done].
  - apply not_prime_divide in Hp as (d & Hd & Hdn); [|done].
    destruct (IH d) as (p & Hp & Hpd); [lia..|]. exists p. split; [done|]. by transitivity d.
Qed.

Lemma prime_by_small_divisors (n : Z) :
  1 < n → (∀ p, Z.prime p → (p | n) → n < p * p) → Z.prime n.
Proof.
  intros Hn H. split; [done|]. intros d Hd [e He].
  assert (1 < e) by nia.
  assert (Hm : ∃ m, 1 < m ∧ (m | n) ∧ m * m ≤ n).
  { destruct (decide (d ≤ e)).
    - exists d. split_and!; [lia|by exists e|nia].
    - exists e. split_and!; [lia|exists d; lia|nia]. }
  destruct Hm as (m & Hm1 & Hmn & Hmm). destruct (prime_divisor m Hm1) as (p & Hp & Hpm).
  specialize (H p Hp ltac:(by transitivity m)).
  pose proof (Z.prime_ge_2 p Hp). apply Z.divide_pos_le in Hpm; nia.
Qed.

(** * Certificates *)

(** [n], a witness [a], and prime factors of [n - 1] whose product exceeds the
    square root of [n]; without factors, [n] is small and checked by division. *)
Record step := Step { subject : Z; base_of : Z; factors : list Z }.

Definition factor_ok (n a q : Z) : bool :=
  ((n - 1) mod q =? 0) &&
  (let b := powm a n (Z.to_pos ((n - 1) / q)) in
   (powm b n (Z.to_pos q) =? 1) && (Z.gcd (b - 1) n =? 1)).

Fixpoint no_divisor (n d : Z) (fuel : nat) : bool :=
  match fuel with
  | O => true
  | S fuel => negb (n mod d =? 0) && no_divisor n (d + 1) fuel
  end.

Definition step_ok (known : list Z) (s : step) : bool :=
  let n := subject s in
  (1 <? n) &&
  match factors s with
  | [] => no_divisor n 2 (Z.to_nat (Z.sqrt n - 1))
  | qs => forallb (λ q, existsb (Z.eqb q) known && factor_ok n (base_of s) q) qs &&
          bool_decide (NoDup qs) && (n <? product qs * product qs)
  end.

(** The steps of a certificate, each with the primes shown before it. *)
Fixpoint certificate_ok (known : list Z) (steps : list step) : bool :=
  match steps with
  | [] => true
  | s :: steps => step_ok known s && certificate_ok (subject s :: known) steps
  end.

Lemma no_divisor_spec (n d : Z) (fuel : nat) :
  no_divisor n d fuel = true → ∀ k, d ≤ k < d + Z.of_nat fuel → n mod k ≠ 0.
Proof.
  revert d. induction fuel as [|fuel IH]; intros d H k Hk; [lia|].
  cbn [no_divisor] in H. zbool. destruct (decide (k = d)) as [->|]; [done|].
  apply (IH (d + 1)); [done|lia].
Qed.

Lemma factor_ok_spec (n a q p : Z) :
  1 < n → Z.prime q → factor_ok n a q = true → Z.prime p → (p | n) → (q | p - 1).
Proof.
  intros Hn Hq H Hp Hpn. unfold factor_ok in H. zbool. rewrite !powm_spec in *.
  pose proof (Z.prime_ge_2 q Hq).
  assert (Hd : (q | n - 1)) by (apply Z.mod_divide; [lia|done]).
  assert (0 < (n - 1) / q) by (apply Z.div_str_pos; apply Z.divide_pos_le in Hd; lia).
  rewrite !Z2Pos.id in * by lia.
  apply (pocklington_factor n a q p); [done..| |done].
  rewrite Z.mod_pow_l, <- Z.pow_mul_r in H0 by lia. destruct Hd as [k Hk].
  rewrite Hk, Z.div_mul in H0 by lia. by rewrite Hk.
Qed.

Lemma step_ok_spec (known : list Z) (s : step) :
  Forall Z.prime known → step_ok known s = true → Z.prime (subject s).
Proof.
  intros Hk H. unfold step_ok in H. apply andb_true_iff in H as [Hn H]. zbool.
  apply prime_by_small_divisors; [done|]. intros p Hp Hpn. pose proof (Z.prime_ge_2 p Hp).
  destruct (factors s) as [|q qs].
  - apply Z.lt_nge. intros Hle. apply (no_divisor_spec _ _ _ H p).
    + apply Z.sqrt_le_square in Hle; lia.
    + by apply Z.mod_divide; [lia|].
  - remember (q :: qs) as l. apply andb_true_iff in H as [H Hlt].
    apply andb_true_iff in H as [Hqs Hnd]. apply bool_decide_eq_true in Hnd. zbool.
    assert (Hall : ∀ q, q ∈ l → Z.prime q ∧ (q | p - 1)).
    { intros r Hr. rewrite forallb_forall in Hqs. apply list_elem_of_In, Hqs in Hr.
      apply andb_true_iff in Hr as [Hr Hf]. apply existsb_exists in Hr as (r' & Hr' & E).
      apply Z.eqb_eq in E. subst r'. rewrite Forall_forall in Hk.
      split; [by apply Hk|]. eapply factor_ok_spec; [done|by apply Hk|done..]. }
    pose proof (product_divides l (p - 1) Hnd Hall) as Hd. apply Z.divide_pos_le in Hd; [|lia].
    assert (0 ≤ product l); [|nia]. clear - Hall. induction l as [|r l IH]; simpl; [lia|].
    destruct (Hall r ltac:(set_solver)) as [Hr _]. pose proof (Z.prime_ge_2 r Hr).
    assert (0 ≤ product l) by (apply IH; intros r2 Hr2; apply Hall; set_solver). nia.
Qed.

Theorem certificate_ok_spec (known : list Z) (steps : list step) :
  Forall Z.prime known → certificate_ok known steps = true →
  Forall (λ s, Z.prime (subject s)) steps.
Proof.
  revert known. induction steps as [|s steps IH]; intros known Hk H; [constructor|].
  cbn [certificate_ok] in H. zbool. pose proof (step_ok_spec known s Hk H) as Hs.
  constructor; [done|]. eapply IH; [|done]. by constructor.
Qed.

(** * The two primes of secp256k1 *)

Definition secp256k1_group_order : Z :=
  0xFFFFFFFFFFFFFFFFFFFFFFFFFFFFFFFEBAAEDCE6AF48A03BBFD25E8CD0364141.

Definition secp256k1_field_prime : Z := 2 ^ 256 - 2 ^ 32 - 977.

Definition order_certificate : list step :=
  [ Step 120233 0 []; Step 44706919 0 [];
    Step 174723607534414371449 3 [120233; 44706919];
    Step 1627771 0 []; Step 297159362677 2 [1627771];
    Step 545358713 0 [];
    Step 29047611873442575647497758179 2 [545358713; 297159362677];
    Step 341948486974166000522343609283189 2 [29047611873442575647497758179];
    Step secp256k1_group_order 7
      [174723607534414371449; 341948486974166000522343609283189] ].

Definition field_certificate : list step :=
  [ Step 96557 0 []; Step 7240687 0 []; Step 107590001 0 [];
    Step 255515944373312847190720520512484175977 3 [96557; 7240687; 107590001];
    Step 205115282021455665897114700593932402728804164701536103180137503955397371 2
      [255515944373312847190720520512484175977];
    Step secp256k1_field_prime 3
      [205115282021455665897114700593932402728804164701536103180137503955397371] ].

(** The subjects of a certificate without assumptions are prime. *)
Lemma certified (steps : list step) (n : Z) :
  certificate_ok [] steps = true → existsb (Z.eqb n) (map subject steps) = true → Z.prime n.
Proof.
  intros H E. pose proof (certificate_ok_spec [] steps ltac:(constructor) H) as Hs.
  apply existsb_exists in E as (m & Hm & E). apply Z.eqb_eq in E. subst m.
  apply in_map_iff in Hm as (s & <- & Hin). rewrite List.Forall_forall in Hs. by apply Hs.
Qed.

Lemma group_order_prime : Z.prime secp256k1_group_order.
Proof. apply (certified order_certificate); vm_compute; reflexivity. Qed.

Lemma field_prime_prime : Z.prime secp256k1_field_prime.
Proof. apply (certified field_certificate); vm_compute; reflexivity. Qed.
