(* ===== verification/Secp256k1Scalar.v ===== *)
(** Integers modulo the group order of secp256k1, as the node computes with them:
    src/src/secp256k1/src/scalar_8x32_impl.h and the part of scalar_impl.h that
    the configuration of the node selects (eight limbs of 32 bits, the built-in
    inverse, no endomorphism).

    A scalar is an array of eight 32-bit limbs, the least significant first.
    The functions return the scalar that the C functions leave in [r]; each of
    them reads what it needs of its arguments at an index before it writes [r]
    there, so that [r] may be one of the arguments. *)

From Stdlib Require Import ZArith Lia Strings.Byte.
From stdpp Require Import base gmap list fin_maps numbers.
From S2P Require Import Prelude.

(** * Data *)

Record secp256k1_scalar := Scalar { d : list Z }.

(** [a->d[i]] *)
Definition limb (a : secp256k1_scalar) (i : nat) : Z := d a !!! i.

(** The limbs of the order, of [2^256] minus the order, of half the order. *)
Definition SECP256K1_N_0 : Z := 0xD0364141.
Definition SECP256K1_N_1 : Z := 0xBFD25E8C.
Definition SECP256K1_N_2 : Z := 0xAF48A03B.
Definition SECP256K1_N_3 : Z := 0xBAAEDCE6.
Definition SECP256K1_N_4 : Z := 0xFFFFFFFE.
Definition SECP256K1_N_5 : Z := 0xFFFFFFFF.
Definition SECP256K1_N_6 : Z := 0xFFFFFFFF.
Definition SECP256K1_N_7 : Z := 0xFFFFFFFF.

Definition SECP256K1_N_C_0 : Z := u32 (u32 (Z.lnot SECP256K1_N_0) + 1).
Definition SECP256K1_N_C_1 : Z := u32 (Z.lnot SECP256K1_N_1).
Definition SECP256K1_N_C_2 : Z := u32 (Z.lnot SECP256K1_N_2).
Definition SECP256K1_N_C_3 : Z := u32 (Z.lnot SECP256K1_N_3).
Definition SECP256K1_N_C_4 : Z := 1.

Definition SECP256K1_N_H_0 : Z := 0x681B20A0.
Definition SECP256K1_N_H_1 : Z := 0xDFE92F46.
Definition SECP256K1_N_H_2 : Z := 0x57A4501D.
Definition SECP256K1_N_H_3 : Z := 0x5D576E73.
Definition SECP256K1_N_H_4 : Z := 0xFFFFFFFF.
Definition SECP256K1_N_H_5 : Z := 0xFFFFFFFF.
Definition SECP256K1_N_H_6 : Z := 0xFFFFFFFF.
Definition SECP256K1_N_H_7 : Z := 0x7FFFFFFF.

(** The value of a C comparison. *)
Definition truth (b : bool) : Z := if b then 1 else 0.

(** * Constants and bits *)

Definition secp256k1_scalar_clear : secp256k1_scalar := Scalar [0; 0; 0; 0; 0; 0; 0; 0].

Definition secp256k1_scalar_set_int (v : Z) : secp256k1_scalar :=
  Scalar [v; 0; 0; 0; 0; 0; 0; 0].

Definition secp256k1_scalar_get_bits (a : secp256k1_scalar) (offset count : Z) : Z :=
  Z.land (Z.shiftr (limb a (Z.to_nat (Z.shiftr offset 5))) (Z.land offset 0x1F))
         (u32 (s32 (s32 (Z.shiftl 1 count) - 1))).

Definition secp256k1_scalar_get_bits_var (a : secp256k1_scalar) (offset count : Z) : Z :=
  if Z.shiftr (u32 (u32 (offset + count) - 1)) 5 =? Z.shiftr offset 5 then
    secp256k1_scalar_get_bits a offset count
  else
    Z.land
      (Z.lor (Z.shiftr (limb a (Z.to_nat (Z.shiftr offset 5))) (Z.land offset 0x1F))
             (u32 (Z.shiftl (limb a (Z.to_nat (Z.shiftr offset 5 + 1))) (32 - Z.land offset 0x1F))))
      (u32 (u32 (Z.shiftl 1 count) - 1)).

(** * Comparisons without branches *)

Definition secp256k1_scalar_check_overflow (a : secp256k1_scalar) : Z :=
  let yes := 0 in
  let no := 0 in
  let no := Z.lor no (truth (limb a 7 <? SECP256K1_N_7)) in
  let no := Z.lor no (truth (limb a 6 <? SECP256K1_N_6)) in
  let no := Z.lor no (truth (limb a 5 <? SECP256K1_N_5)) in
  let no := Z.lor no (truth (limb a 4 <? SECP256K1_N_4)) in
  let yes := Z.lor yes (Z.land (truth (limb a 4 >? SECP256K1_N_4)) (Z.lnot no)) in
  let no := Z.lor no (Z.land (truth (limb a 3 <? SECP256K1_N_3)) (Z.lnot yes)) in
  let yes := Z.lor yes (Z.land (truth (limb a 3 >? SECP256K1_N_3)) (Z.lnot no)) in
  let no := Z.lor no (Z.land (truth (limb a 2 <? SECP256K1_N_2)) (Z.lnot yes)) in
  let yes := Z.lor yes (Z.land (truth (limb a 2 >? SECP256K1_N_2)) (Z.lnot no)) in
  let no := Z.lor no (Z.land (truth (limb a 1 <? SECP256K1_N_1)) (Z.lnot yes)) in
  let yes := Z.lor yes (Z.land (truth (limb a 1 >? SECP256K1_N_1)) (Z.lnot no)) in
  let yes := Z.lor yes (Z.land (truth (limb a 0 >=? SECP256K1_N_0)) (Z.lnot no)) in
  yes.

Definition secp256k1_scalar_is_high (a : secp256k1_scalar) : Z :=
  let yes := 0 in
  let no := 0 in
  let no := Z.lor no (truth (limb a 7 <? SECP256K1_N_H_7)) in
  let yes := Z.lor yes (Z.land (truth (limb a 7 >? SECP256K1_N_H_7)) (Z.lnot no)) in
  let no := Z.lor no (Z.land (truth (limb a 6 <? SECP256K1_N_H_6)) (Z.lnot yes)) in
  let no := Z.lor no (Z.land (truth (limb a 5 <? SECP256K1_N_H_5)) (Z.lnot yes)) in
  let no := Z.lor no (Z.land (truth (limb a 4 <? SECP256K1_N_H_4)) (Z.lnot yes)) in
  let no := Z.lor no (Z.land (truth (limb a 3 <? SECP256K1_N_H_3)) (Z.lnot yes)) in
  let yes := Z.lor yes (Z.land (truth (limb a 3 >? SECP256K1_N_H_3)) (Z.lnot no)) in
  let no := Z.lor no (Z.land (truth (limb a 2 <? SECP256K1_N_H_2)) (Z.lnot yes)) in
  let yes := Z.lor yes (Z.land (truth (limb a 2 >? SECP256K1_N_H_2)) (Z.lnot no)) in
  let no := Z.lor no (Z.land (truth (limb a 1 <? SECP256K1_N_H_1)) (Z.lnot yes)) in
  let yes := Z.lor yes (Z.land (truth (limb a 1 >? SECP256K1_N_H_1)) (Z.lnot no)) in
  let yes := Z.lor yes (Z.land (truth (limb a 0 >? SECP256K1_N_H_0)) (Z.lnot no)) in
  yes.

Definition secp256k1_scalar_is_zero (a : secp256k1_scalar) : Z :=
  truth (Z.lor (Z.lor (Z.lor (Z.lor (Z.lor (Z.lor (Z.lor (limb a 0) (limb a 1)) (limb a 2))
    (limb a 3)) (limb a 4)) (limb a 5)) (limb a 6)) (limb a 7) =? 0).

Definition secp256k1_scalar_is_one (a : secp256k1_scalar) : Z :=
  truth (Z.lor (Z.lor (Z.lor (Z.lor (Z.lor (Z.lor (Z.lor (Z.lxor (limb a 0) 1) (limb a 1))
    (limb a 2)) (limb a 3)) (limb a 4)) (limb a 5)) (limb a 6)) (limb a 7) =? 0).

Definition secp256k1_scalar_eq (a b : secp256k1_scalar) : Z :=
  let x i := Z.lxor (limb a i) (limb b i) in
  truth (Z.lor (Z.lor (Z.lor (Z.lor (Z.lor (Z.lor (Z.lor (x 0%nat) (x 1%nat)) (x 2%nat))
    (x 3%nat)) (x 4%nat)) (x 5%nat)) (x 6%nat)) (x 7%nat) =? 0).

Definition secp256k1_scalar_is_even (a : secp256k1_scalar) : Z :=
  truth (Z.land (limb a 0) 1 =? 0).

(** * Chains of additions with carry

    The statements [t += x; r->d[i] = t & mask; t >>= 32;] of one limb after the
    other, on a 64-bit [t]: the limbs, and what is left in [t]. *)

Fixpoint carry_chain (mask t : Z) (terms : list Z) : list Z * Z :=
  match terms with
  | [] => ([], t)
  | x :: terms =>
      let t := u64 (t + x) in
      let '(r, t') := carry_chain mask (Z.shiftr t 32) terms in
      (Z.land t mask :: r, t')
  end.

(** The scalar after the reduction; the C function also returns [overflow]. *)
Definition secp256k1_scalar_reduce (r : secp256k1_scalar) (overflow : Z) : secp256k1_scalar :=
  Scalar (carry_chain 0xFFFFFFFF 0
    [ u64 (limb r 0 + u32 (overflow * SECP256K1_N_C_0));
      u64 (limb r 1 + u32 (overflow * SECP256K1_N_C_1));
      u64 (limb r 2 + u32 (overflow * SECP256K1_N_C_2));
      u64 (limb r 3 + u32 (overflow * SECP256K1_N_C_3));
      u64 (limb r 4 + u32 (overflow * SECP256K1_N_C_4));
      limb r 5; limb r 6; limb r 7 ]).1.

(** The sum, and the flag that is returned. *)
Definition secp256k1_scalar_add (a b : secp256k1_scalar) : secp256k1_scalar * Z :=
  let '(r, t) := carry_chain 0xFFFFFFFF 0
    [ u64 (limb a 0 + limb b 0); u64 (limb a 1 + limb b 1);
      u64 (limb a 2 + limb b 2); u64 (limb a 3 + limb b 3);
      u64 (limb a 4 + limb b 4); u64 (limb a 5 + limb b 5);
      u64 (limb a 6 + limb b 6); u64 (limb a 7 + limb b 7) ] in
  let overflow := s32 (u64 (t + secp256k1_scalar_check_overflow (Scalar r))) in
  (secp256k1_scalar_reduce (Scalar r) (u32 overflow), overflow).

Definition secp256k1_scalar_cadd_bit (r : secp256k1_scalar) (bit flag : Z) : secp256k1_scalar :=
  let bit := u32 (bit + Z.land (u32 (u32 flag - 1)) 0x100) in
  let x i := u64 (limb r i + u32 (Z.shiftl (truth (Z.shiftr bit 5 =? Z.of_nat i)) (Z.land bit 0x1F))) in
  Scalar (carry_chain 0xFFFFFFFF 0
    [x 0%nat; x 1%nat; x 2%nat; x 3%nat; x 4%nat; x 5%nat; x 6%nat; x 7%nat]).1.

Definition secp256k1_scalar_negate (a : secp256k1_scalar) : secp256k1_scalar :=
  let nonzero := u32 (0xFFFFFFFF * truth (secp256k1_scalar_is_zero a =? 0)) in
  Scalar (carry_chain nonzero 0
    [ u64 (u64 (u32 (Z.lnot (limb a 0)) + SECP256K1_N_0) + 1);
      u64 (u32 (Z.lnot (limb a 1)) + SECP256K1_N_1);
      u64 (u32 (Z.lnot (limb a 2)) + SECP256K1_N_2);
      u64 (u32 (Z.lnot (limb a 3)) + SECP256K1_N_3);
      u64 (u32 (Z.lnot (limb a 4)) + SECP256K1_N_4);
      u64 (u32 (Z.lnot (limb a 5)) + SECP256K1_N_5);
      u64 (u32 (Z.lnot (limb a 6)) + SECP256K1_N_6);
      u64 (u32 (Z.lnot (limb a 7)) + SECP256K1_N_7) ]).1.

(** The scalar, and the sign that is returned. *)
Definition secp256k1_scalar_cond_negate (r : secp256k1_scalar) (flag : Z) : secp256k1_scalar * Z :=
  let mask := u32 (truth (flag =? 0) - 1) in
  let nonzero := u32 (0xFFFFFFFF * truth (secp256k1_scalar_is_zero r =? 0)) in
  (Scalar (carry_chain nonzero 0
    [ u64 (Z.lxor (limb r 0) mask + Z.land (u32 (SECP256K1_N_0 + 1)) mask);
      u64 (Z.lxor (limb r 1) mask + Z.land SECP256K1_N_1 mask);
      u64 (Z.lxor (limb r 2) mask + Z.land SECP256K1_N_2 mask);
      u64 (Z.lxor (limb r 3) mask + Z.land SECP256K1_N_3 mask);
      u64 (Z.lxor (limb r 4) mask + Z.land SECP256K1_N_4 mask);
      u64 (Z.lxor (limb r 5) mask + Z.land SECP256K1_N_5 mask);
      u64 (Z.lxor (limb r 6) mask + Z.land SECP256K1_N_6 mask);
      u64 (Z.lxor (limb r 7) mask + Z.land SECP256K1_N_7 mask) ]).1,
   2 * truth (mask =? 0) - 1).

(** * Big-endian byte strings *)

(** [(uint32_t)b32[i+3] | (uint32_t)b32[i+2] << 8 | ...] *)
Definition be32_at (b32 : list byte) (i : nat) : Z :=
  Z.lor (Z.lor (Z.lor (b2z (b32 !!! (i + 3)%nat))
    (Z.shiftl (b2z (b32 !!! (i + 2)%nat)) 8))
    (Z.shiftl (b2z (b32 !!! (i + 1)%nat)) 16))
    (Z.shiftl (b2z (b32 !!! i)) 24).

(** The scalar, and [over], which is stored in [*overflow] if that is not NULL. *)
Definition secp256k1_scalar_set_b32 (b32 : list byte) : secp256k1_scalar * Z :=
  let r := Scalar [be32_at b32 28; be32_at b32 24; be32_at b32 20; be32_at b32 16;
                   be32_at b32 12; be32_at b32 8; be32_at b32 4; be32_at b32 0] in
  let over := secp256k1_scalar_check_overflow r in
  (secp256k1_scalar_reduce r over, over).

Definition be32_bytes (x : Z) : list byte :=
  [z2b (Z.shiftr x 24); z2b (Z.shiftr x 16); z2b (Z.shiftr x 8); z2b x].

Definition secp256k1_scalar_get_b32 (a : secp256k1_scalar) : list byte :=
  be32_bytes (limb a 7) ++ be32_bytes (limb a 6) ++ be32_bytes (limb a 5) ++
  be32_bytes (limb a 4) ++ be32_bytes (limb a 3) ++ be32_bytes (limb a 2) ++
  be32_bytes (limb a 1) ++ be32_bytes (limb a 0).

(** * The accumulator of 96 bits

    The macros work on the variables [c0], [c1] and [c2] of the function that
    uses them.  A macro is an operation of [acc_op], and a sequence of macro
    calls is a list of them; [extract] and [extract_fast] give a limb of the
    result. *)

Record acc := Acc { c0 : Z; c1 : Z; c2 : Z }.

Inductive acc_op :=
  | muladd (a b : Z)
  | muladd_fast (a b : Z)
  | muladd2 (a b : Z)
  | sumadd (a : Z)
  | sumadd_fast (a : Z)
  | extract
  | extract_fast.

Definition do_muladd (a b : Z) (c : acc) : acc :=
  let t := u64 (a * b) in
  let th := u32 (Z.shiftr t 32) in
  let tl := u32 t in
  let c0' := u32 (c0 c + tl) in
  let th := u32 (th + truth (c0' <? tl)) in
  let c1' := u32 (c1 c + th) in
  let c2' := u32 (c2 c + truth (c1' <? th)) in
  Acc c0' c1' c2'.

Definition do_muladd_fast (a b : Z) (c : acc) : acc :=
  let t := u64 (a * b) in
  let th := u32 (Z.shiftr t 32) in
  let tl := u32 t in
  let c0' := u32 (c0 c + tl) in
  let th := u32 (th + truth (c0' <? tl)) in
  let c1' := u32 (c1 c + th) in
  Acc c0' c1' (c2 c).

Definition do_muladd2 (a b : Z) (c : acc) : acc :=
  let t := u64 (a * b) in
  let th := u32 (Z.shiftr t 32) in
  let tl := u32 t in
  let th2 := u32 (th + th) in
  let c2' := u32 (c2 c + truth (th2 <? th)) in
  let tl2 := u32 (tl + tl) in
  let th2 := u32 (th2 + truth (tl2 <? tl)) in
  let c0' := u32 (c0 c + tl2) in
  let th2 := u32 (th2 + truth (c0' <? tl2)) in
  let c2' := u32 (c2' + Z.land (truth (c0' <? tl2)) (truth (th2 =? 0))) in
  let c1' := u32 (c1 c + th2) in
  let c2' := u32 (c2' + truth (c1' <? th2)) in
  Acc c0' c1' c2'.

Definition do_sumadd (a : Z) (c : acc) : acc :=
  let c0' := u32 (c0 c + a) in
  let over := truth (c0' <? a) in
  let c1' := u32 (c1 c + over) in
  let c2' := u32 (c2 c + truth (c1' <? over)) in
  Acc c0' c1' c2'.

Definition do_sumadd_fast (a : Z) (c : acc) : acc :=
  let c0' := u32 (c0 c + a) in
  let c1' := u32 (c1 c + truth (c0' <? a)) in
  Acc c0' c1' (c2 c).

Fixpoint acc_run (ops : list acc_op) (c : acc) : list Z * acc :=
  match ops with
  | [] => ([], c)
  | muladd a b :: ops => acc_run ops (do_muladd a b c)
  | muladd_fast a b :: ops => acc_run ops (do_muladd_fast a b c)
  | muladd2 a b :: ops => acc_run ops (do_muladd2 a b c)
  | sumadd a :: ops => acc_run ops (do_sumadd a c)
  | sumadd_fast a :: ops => acc_run ops (do_sumadd_fast a c)
  | extract :: ops =>
      let '(r, c') := acc_run ops (Acc (c1 c) (c2 c) 0) in (c0 c :: r, c')
  | extract_fast :: ops =>
      let '(r, c') := acc_run ops (Acc (c1 c) 0 (c2 c)) in (c0 c :: r, c')
  end.

(** * Products *)

Definition mul_512_ops (a b : secp256k1_scalar) : list acc_op := [
  muladd_fast (limb a 0) (limb b 0); extract_fast;
  muladd (limb a 0) (limb b 1); muladd (limb a 1) (limb b 0); extract;
  muladd (limb a 0) (limb b 2); muladd (limb a 1) (limb b 1); muladd (limb a 2) (limb b 0);
    extract;
  muladd (limb a 0) (limb b 3); muladd (limb a 1) (limb b 2); muladd (limb a 2) (limb b 1);
    muladd (limb a 3) (limb b 0); extract;
  muladd (limb a 0) (limb b 4); muladd (limb a 1) (limb b 3); muladd (limb a 2) (limb b 2);
    muladd (limb a 3) (limb b 1); muladd (limb a 4) (limb b 0); extract;
  muladd (limb a 0) (limb b 5); muladd (limb a 1) (limb b 4); muladd (limb a 2) (limb b 3);
    muladd (limb a 3) (limb b 2); muladd (limb a 4) (limb b 1); muladd (limb a 5) (limb b 0);
    extract;
  muladd (limb a 0) (limb b 6); muladd (limb a 1) (limb b 5); muladd (limb a 2) (limb b 4);
    muladd (limb a 3) (limb b 3); muladd (limb a 4) (limb b 2); muladd (limb a 5) (limb b 1);
    muladd (limb a 6) (limb b 0); extract;
  muladd (limb a 0) (limb b 7); muladd (limb a 1) (limb b 6); muladd (limb a 2) (limb b 5);
    muladd (limb a 3) (limb b 4); muladd (limb a 4) (limb b 3); muladd (limb a 5) (limb b 2);
    muladd (limb a 6) (limb b 1); muladd (limb a 7) (limb b 0); extract;
  muladd (limb a 1) (limb b 7); muladd (limb a 2) (limb b 6); muladd (limb a 3) (limb b 5);
    muladd (limb a 4) (limb b 4); muladd (limb a 5) (limb b 3); muladd (limb a 6) (limb b 2);
    muladd (limb a 7) (limb b 1); extract;
  muladd (limb a 2) (limb b 7); muladd (limb a 3) (limb b 6); muladd (limb a 4) (limb b 5);
    muladd (limb a 5) (limb b 4); muladd (limb a 6) (limb b 3); muladd (limb a 7) (limb b 2);
    extract;
  muladd (limb a 3) (limb b 7); muladd (limb a 4) (limb b 6); muladd (limb a 5) (limb b 5);
    muladd (limb a 6) (limb b 4); muladd (limb a 7) (limb b 3); extract;
  muladd (limb a 4) (limb b 7); muladd (limb a 5) (limb b 6); muladd (limb a 6) (limb b 5);
    muladd (limb a 7) (limb b 4); extract;
  muladd (limb a 5) (limb b 7); muladd (limb a 6) (limb b 6); muladd (limb a 7) (limb b 5);
    extract;
  muladd (limb a 6) (limb b 7); muladd (limb a 7) (limb b 6); extract;
  muladd_fast (limb a 7) (limb b 7); extract_fast ].

Definition secp256k1_scalar_mul_512 (a b : secp256k1_scalar) : list Z :=
  let '(l, c) := acc_run (mul_512_ops a b) (Acc 0 0 0) in l ++ [c0 c].

Definition sqr_512_ops (a : secp256k1_scalar) : list acc_op := [
  muladd_fast (limb a 0) (limb a 0); extract_fast;
  muladd2 (limb a 0) (limb a 1); extract;
  muladd2 (limb a 0) (limb a 2); muladd (limb a 1) (limb a 1); extract;
  muladd2 (limb a 0) (limb a 3); muladd2 (limb a 1) (limb a 2); extract;
  muladd2 (limb a 0) (limb a 4); muladd2 (limb a 1) (limb a 3); muladd (limb a 2) (limb a 2);
    extract;
  muladd2 (limb a 0) (limb a 5); muladd2 (limb a 1) (limb a 4); muladd2 (limb a 2) (limb a 3);
    extract;
  muladd2 (limb a 0) (limb a 6); muladd2 (limb a 1) (limb a 5); muladd2 (limb a 2) (limb a 4);
    muladd (limb a 3) (limb a 3); extract;
  muladd2 (limb a 0) (limb a 7); muladd2 (limb a 1) (limb a 6); muladd2 (limb a 2) (limb a 5);
    muladd2 (limb a 3) (limb a 4); extract;
  muladd2 (limb a 1) (limb a 7); muladd2 (limb a 2) (limb a 6); muladd2 (limb a 3) (limb a 5);
    muladd (limb a 4) (limb a 4); extract;
  muladd2 (limb a 2) (limb a 7); muladd2 (limb a 3) (limb a 6); muladd2 (limb a 4) (limb a 5);
    extract;
  muladd2 (limb a 3) (limb a 7); muladd2 (limb a 4) (limb a 6); muladd (limb a 5) (limb a 5);
    extract;
  muladd2 (limb a 4) (limb a 7); muladd2 (limb a 5) (limb a 6); extract;
  muladd2 (limb a 5) (limb a 7); muladd (limb a 6) (limb a 6); extract;
  muladd2 (limb a 6) (limb a 7); extract;
  muladd_fast (limb a 7) (limb a 7); extract_fast ].

Definition secp256k1_scalar_sqr_512 (a : secp256k1_scalar) : list Z :=
  let '(l, c) := acc_run (sqr_512_ops a) (Acc 0 0 0) in l ++ [c0 c].

(** * Reduction of 512 bits *)

(** 512 bits into 385: [m0] to [m11], and [m12] is left in [c0]. *)
Definition reduce_512_385_ops (l : list Z) : list acc_op :=
  let n0 := l !!! 8%nat in let n1 := l !!! 9%nat in
  let n2 := l !!! 10%nat in let n3 := l !!! 11%nat in
  let n4 := l !!! 12%nat in let n5 := l !!! 13%nat in
  let n6 := l !!! 14%nat in let n7 := l !!! 15%nat in [
  muladd_fast n0 SECP256K1_N_C_0; extract_fast;
  sumadd_fast (l !!! 1%nat); muladd n1 SECP256K1_N_C_0; muladd n0 SECP256K1_N_C_1; extract;
  sumadd (l !!! 2%nat); muladd n2 SECP256K1_N_C_0; muladd n1 SECP256K1_N_C_1;
    muladd n0 SECP256K1_N_C_2; extract;
  sumadd (l !!! 3%nat); muladd n3 SECP256K1_N_C_0; muladd n2 SECP256K1_N_C_1;
    muladd n1 SECP256K1_N_C_2; muladd n0 SECP256K1_N_C_3; extract;
  sumadd (l !!! 4%nat); muladd n4 SECP256K1_N_C_0; muladd n3 SECP256K1_N_C_1;
    muladd n2 SECP256K1_N_C_2; muladd n1 SECP256K1_N_C_3; sumadd n0; extract;
  sumadd (l !!! 5%nat); muladd n5 SECP256K1_N_C_0; muladd n4 SECP256K1_N_C_1;
    muladd n3 SECP256K1_N_C_2; muladd n2 SECP256K1_N_C_3; sumadd n1; extract;
  sumadd (l !!! 6%nat); muladd n6 SECP256K1_N_C_0; muladd n5 SECP256K1_N_C_1;
    muladd n4 SECP256K1_N_C_2; muladd n3 SECP256K1_N_C_3; sumadd n2; extract;
  sumadd (l !!! 7%nat); muladd n7 SECP256K1_N_C_0; muladd n6 SECP256K1_N_C_1;
    muladd n5 SECP256K1_N_C_2; muladd n4 SECP256K1_N_C_3; sumadd n3; extract;
  muladd n7 SECP256K1_N_C_1; muladd n6 SECP256K1_N_C_2; muladd n5 SECP256K1_N_C_3; sumadd n4;
    extract;
  muladd n7 SECP256K1_N_C_2; muladd n6 SECP256K1_N_C_3; sumadd n5; extract;
  muladd n7 SECP256K1_N_C_3; sumadd n6; extract;
  sumadd_fast n7; extract_fast ].

(** 385 bits into 258: [p0] to [p7]. *)
Definition reduce_385_258_ops (m : list Z) : list acc_op :=
  let m1 := m !!! 1%nat in let m2 := m !!! 2%nat in let m3 := m !!! 3%nat in
  let m4 := m !!! 4%nat in let m5 := m !!! 5%nat in let m6 := m !!! 6%nat in
  let m7 := m !!! 7%nat in let m8 := m !!! 8%nat in let m9 := m !!! 9%nat in
  let m10 := m !!! 10%nat in let m11 := m !!! 11%nat in let m12 := m !!! 12%nat in [
  muladd_fast m8 SECP256K1_N_C_0; extract_fast;
  sumadd_fast m1; muladd m9 SECP256K1_N_C_0; muladd m8 SECP256K1_N_C_1; extract;
  sumadd m2; muladd m10 SECP256K1_N_C_0; muladd m9 SECP256K1_N_C_1; muladd m8 SECP256K1_N_C_2;
    extract;
  sumadd m3; muladd m11 SECP256K1_N_C_0; muladd m10 SECP256K1_N_C_1; muladd m9 SECP256K1_N_C_2;
    muladd m8 SECP256K1_N_C_3; extract;
  sumadd m4; muladd m12 SECP256K1_N_C_0; muladd m11 SECP256K1_N_C_1; muladd m10 SECP256K1_N_C_2;
    muladd m9 SECP256K1_N_C_3; sumadd m8; extract;
  sumadd m5; muladd m12 SECP256K1_N_C_1; muladd m11 SECP256K1_N_C_2; muladd m10 SECP256K1_N_C_3;
    sumadd m9; extract;
  sumadd m6; muladd m12 SECP256K1_N_C_2; muladd m11 SECP256K1_N_C_3; sumadd m10; extract;
  sumadd_fast m7; muladd_fast m12 SECP256K1_N_C_3; sumadd_fast m11; extract_fast ].

(** 258 bits into 256: the limbs of [r], and the carry in [c]. *)
Definition reduce_258_256 (p : list Z) : list Z * Z :=
  let p8 := p !!! 8%nat in
  carry_chain 0xFFFFFFFF 0
    [ u64 (p !!! 0%nat + u64 (SECP256K1_N_C_0 * p8));
      u64 (p !!! 1%nat + u64 (SECP256K1_N_C_1 * p8));
      u64 (p !!! 2%nat + u64 (SECP256K1_N_C_2 * p8));
      u64 (p !!! 3%nat + u64 (SECP256K1_N_C_3 * p8));
      u64 (p !!! 4%nat + p8);
      p !!! 5%nat; p !!! 6%nat; p !!! 7%nat ].

Definition secp256k1_scalar_reduce_512 (l : list Z) : secp256k1_scalar :=
  let '(m, c) := acc_run (reduce_512_385_ops l) (Acc (l !!! 0%nat) 0 0) in
  let m := m ++ [c0 c] in
  let '(p, c) := acc_run (reduce_385_258_ops m) (Acc (m !!! 0%nat) 0 0) in
  let p := p ++ [u32 (c0 c + m !!! 12%nat)] in
  let '(r, c) := reduce_258_256 p in
  secp256k1_scalar_reduce (Scalar r) (u32 (u64 (c + secp256k1_scalar_check_overflow (Scalar r)))).

Definition secp256k1_scalar_mul (a b : secp256k1_scalar) : secp256k1_scalar :=
  secp256k1_scalar_reduce_512 (secp256k1_scalar_mul_512 a b).

Definition secp256k1_scalar_sqr (a : secp256k1_scalar) : secp256k1_scalar :=
  secp256k1_scalar_reduce_512 (secp256k1_scalar_sqr_512 a).

(** * Shifts *)

(** The scalar, and the bits shifted out, which are returned. *)
Definition secp256k1_scalar_shr_int (r : secp256k1_scalar) (n : Z) : secp256k1_scalar * Z :=
  let x i := u32 (Z.shiftr (limb r i) n + u32 (Z.shiftl (limb r (S i)) (32 - n))) in
  (Scalar [x 0%nat; x 1%nat; x 2%nat; x 3%nat; x 4%nat; x 5%nat; x 6%nat; Z.shiftr (limb r 7) n],
   Z.land (limb r 0) (s32 (Z.shiftl 1 n) - 1)).

Definition secp256k1_scalar_mul_shift_var (a b : secp256k1_scalar) (shift : Z) : secp256k1_scalar :=
  let l := secp256k1_scalar_mul_512 a b in
  let shiftlimbs := Z.to_nat (Z.shiftr shift 5) in
  let shiftlow := Z.land shift 0x1F in
  let shifthigh := u32 (32 - shiftlow) in
  let high bound i :=
    if (shift <? bound) && negb (shiftlow =? 0)
    then u32 (Z.shiftl (l !!! (i + shiftlimbs)%nat) shifthigh) else 0 in
  let low i := Z.shiftr (l !!! (i + shiftlimbs)%nat) shiftlow in
  let r := Scalar
    [ if shift <? 512 then Z.lor (low 0%nat) (high 480 1%nat) else 0;
      if shift <? 480 then Z.lor (low 1%nat) (high 448 2%nat) else 0;
      if shift <? 448 then Z.lor (low 2%nat) (high 416 3%nat) else 0;
      if shift <? 416 then Z.lor (low 3%nat) (high 384 4%nat) else 0;
      if shift <? 384 then Z.lor (low 4%nat) (high 352 5%nat) else 0;
      if shift <? 352 then Z.lor (low 5%nat) (high 320 6%nat) else 0;
      if shift <? 320 then Z.lor (low 6%nat) (high 288 7%nat) else 0;
      if shift <? 288 then low 7%nat else 0 ] in
  let last := u32 (shift - 1) in
  secp256k1_scalar_cadd_bit r 0
    (Z.land (Z.shiftr (l !!! Z.to_nat (Z.shiftr last 5)) (Z.land last 0x1f)) 1).

(** * Inverse *)

(** [n] squarings in place, the loops of [secp256k1_scalar_inverse]. *)
Definition sqr_times (n : nat) (t : secp256k1_scalar) : secp256k1_scalar :=
  Nat.iter n secp256k1_scalar_sqr t.

Definition secp256k1_scalar_inverse (x : secp256k1_scalar) : secp256k1_scalar :=
  let x2 := secp256k1_scalar_sqr x in let x2 := secp256k1_scalar_mul x2 x in
  let x3 := secp256k1_scalar_sqr x2 in let x3 := secp256k1_scalar_mul x3 x in
  let x4 := secp256k1_scalar_sqr x3 in let x4 := secp256k1_scalar_mul x4 x in
  let x6 := secp256k1_scalar_sqr x4 in let x6 := secp256k1_scalar_sqr x6 in
  let x6 := secp256k1_scalar_mul x6 x2 in
  let x7 := secp256k1_scalar_sqr x6 in let x7 := secp256k1_scalar_mul x7 x in
  let x8 := secp256k1_scalar_sqr x7 in let x8 := secp256k1_scalar_mul x8 x in
  let x15 := secp256k1_scalar_sqr x8 in let x15 := sqr_times 6 x15 in
  let x15 := secp256k1_scalar_mul x15 x7 in
  let x30 := secp256k1_scalar_sqr x15 in let x30 := sqr_times 14 x30 in
  let x30 := secp256k1_scalar_mul x30 x15 in
  let x60 := secp256k1_scalar_sqr x30 in let x60 := sqr_times 29 x60 in
  let x60 := secp256k1_scalar_mul x60 x30 in
  let x120 := secp256k1_scalar_sqr x60 in let x120 := sqr_times 59 x120 in
  let x120 := secp256k1_scalar_mul x120 x60 in
  let x127 := secp256k1_scalar_sqr x120 in let x127 := sqr_times 6 x127 in
  let x127 := secp256k1_scalar_mul x127 x7 in
  let t := x127 in
  let t := sqr_times 2 t in let t := secp256k1_scalar_mul t x in
  let t := sqr_times 4 t in let t := secp256k1_scalar_mul t x3 in
  let t := sqr_times 2 t in let t := secp256k1_scalar_mul t x in
  let t := sqr_times 2 t in let t := secp256k1_scalar_mul t x in
  let t := sqr_times 2 t in let t := secp256k1_scalar_mul t x in
  let t := sqr_times 4 t in let t := secp256k1_scalar_mul t x3 in
  let t := sqr_times 3 t in let t := secp256k1_scalar_mul t x2 in
  let t := sqr_times 4 t in let t := secp256k1_scalar_mul t x3 in
  let t := sqr_times 5 t in let t := secp256k1_scalar_mul t x3 in
  let t := sqr_times 4 t in let t := secp256k1_scalar_mul t x2 in
  let t := sqr_times 2 t in let t := secp256k1_scalar_mul t x in
  let t := sqr_times 2 t in let t := secp256k1_scalar_mul t x in
  let t := sqr_times 5 t in let t := secp256k1_scalar_mul t x4 in
  let t := sqr_times 2 t in let t := secp256k1_scalar_mul t x in
  let t := sqr_times 3 t in let t := secp256k1_scalar_mul t x in
  let t := sqr_times 4 t in let t := secp256k1_scalar_mul t x in
  let t := sqr_times 2 t in let t := secp256k1_scalar_mul t x in
  let t := sqr_times 10 t in let t := secp256k1_scalar_mul t x3 in
  let t := sqr_times 4 t in let t := secp256k1_scalar_mul t x3 in
  let t := sqr_times 9 t in let t := secp256k1_scalar_mul t x8 in
  let t := sqr_times 2 t in let t := secp256k1_scalar_mul t x in
  let t := sqr_times 3 t in let t := secp256k1_scalar_mul t x in
  let t := sqr_times 3 t in let t := secp256k1_scalar_mul t x in
  let t := sqr_times 5 t in let t := secp256k1_scalar_mul t x4 in
  let t := sqr_times 2 t in let t := secp256k1_scalar_mul t x in
  let t := sqr_times 5 t in let t := secp256k1_scalar_mul t x2 in
  let t := sqr_times 4 t in let t := secp256k1_scalar_mul t x2 in
  let t := sqr_times 2 t in let t := secp256k1_scalar_mul t x in
  let t := sqr_times 8 t in let t := secp256k1_scalar_mul t x2 in
  let t := sqr_times 3 t in let t := secp256k1_scalar_mul t x2 in
  let t := sqr_times 3 t in let t := secp256k1_scalar_mul t x in
  let t := sqr_times 6 t in let t := secp256k1_scalar_mul t x in
  let t := sqr_times 8 t in
  secp256k1_scalar_mul t x6.

Definition secp256k1_scalar_inverse_var (x : secp256k1_scalar) : secp256k1_scalar :=
  secp256k1_scalar_inverse x.
