(* ===== verification/Secp256k1ScalarProofs.v ===== *)
(** Scalars compute in the integers modulo the group order.

    [scalar_val] is the integer a scalar stands for.  A scalar is well formed if
    it has eight limbs of 32 bits, and canonical ([scalar_ok]) if its value is
    below the order as well.  Every operation maps canonical scalars to
    canonical ones. *)

From Stdlib Require Import ZArith Lia Strings.Byte.
From stdpp Require Import base gmap list fin_maps numbers.
From S2P Require Import Prelude Secp256k1Scalar.

(** The order of the group, as SEC 2 gives it. *)
Definition group_order : Z := 0xFFFFFFFFFFFFFFFFFFFFFFFFFFFFFFFEBAAEDCE6AF48A03BBFD25E8CD0364141.

(** * Strings of limbs *)

Fixpoint limbs_val (l : list Z) : Z :=
  match l with
  | [] => 0
  | x :: l => x + 2 ^ 32 * limbs_val l
  end.

Abbreviation is_limb := (λ x, 0 ≤ x < 2 ^ 32).
Abbreviation limbs_ok := (Forall is_limb).

Definition scalar_val (a : secp256k1_scalar) : Z := limbs_val (d a).
Definition scalar_wf (a : secp256k1_scalar) : Prop := length (d a) = 8%nat ∧ limbs_ok (d a).
Definition scalar_ok (a : secp256k1_scalar) : Prop := scalar_wf a ∧ scalar_val a < group_order.

(** The limbs of a number. *)
Fixpoint limbs_of (n : nat) (z : Z) : list Z :=
  match n with
  | O => []
  | S n => z mod 2 ^ 32 :: limbs_of n (z / 2 ^ 32)
  end.

Definition scalar_of (z : Z) : secp256k1_scalar := Scalar (limbs_of 8 z).

Lemma limbs_val_range (l : list Z) : limbs_ok l → 0 ≤ limbs_val l < 2 ^ (32 * zlen l).
Proof.
  induction 1 as [|x l Hx _ IH]; simpl limbs_val; [simpl; lia|].
  replace (32 * zlen (x :: l)) with (32 + 32 * zlen l) by (simpl length; lia).
  rewrite Z.pow_add_r by lia. nia.
Qed.

Lemma limbs_val_app (l k : list Z) :
  limbs_val (l ++ k) = limbs_val l + 2 ^ (32 * zlen l) * limbs_val k.
Proof.
  induction l as [|x l IH]; simpl app; simpl limbs_val; [simpl length; lia|].
  replace (32 * zlen (x :: l)) with (32 + 32 * zlen l) by (simpl length; lia).
  rewrite IH, Z.pow_add_r by lia. ring.
Qed.

Lemma limbs_of_ok (n : nat) (z : Z) :
  length (limbs_of n z) = n ∧ limbs_ok (limbs_of n z) ∧
  limbs_val (limbs_of n z) = z mod 2 ^ (32 * Z.of_nat n).
Proof.
  revert z. induction n as [|n IH]; intros z; simpl.
  - repeat split; [constructor|]. by rewrite Z.mod_1_r.
  - destruct (IH (z / 2 ^ 32)) as (Hl & Hok & Hv). split_and!; [lia| |].
    + constructor; [|done]. apply Z.mod_pos_bound. lia.
    + rewrite Hv. replace (32 * Z.of_nat (S n)) with (32 + 32 * Z.of_nat n) by lia.
      rewrite Z.pow_add_r by lia. rewrite Z.rem_mul_r by lia. done.
Qed.

Lemma limbs_val_inj (l k : list Z) :
  limbs_ok l → limbs_ok k → length l = length k → limbs_val l = limbs_val k → l = k.
Proof.
  intros Hl. revert k. induction Hl as [|x l Hx _ IH]; intros [|y k] Hk Hlen Hv; try done.
  apply Forall_cons_iff in Hk as [Hy Hk]. cbn [limbs_val] in Hv. simpl in Hlen. cbn beta in *.
  assert (x = y ∧ limbs_val l = limbs_val k) as [-> Hv'] by lia.
  f_equal. apply IH; [done|lia|done].
Qed.

(** A well-formed scalar is eight limbs. *)
Lemma scalar_wf_limbs (a : secp256k1_scalar) :
  scalar_wf a → ∃ x0 x1 x2 x3 x4 x5 x6 x7, a = Scalar [x0; x1; x2; x3; x4; x5; x6; x7] ∧
    is_limb x0 ∧ is_limb x1 ∧ is_limb x2 ∧ is_limb x3 ∧
    is_limb x4 ∧ is_limb x5 ∧ is_limb x6 ∧ is_limb x7.
Proof.
  destruct a as [l]. intros [Hlen Hok]. cbn [d] in *.
  do 9 (destruct l as [|? l]; try done).
  rewrite !Forall_cons_iff in Hok. naive_solver.
Qed.

Lemma scalar_wf_val (a : secp256k1_scalar) : scalar_wf a → 0 ≤ scalar_val a < 2 ^ 256.
Proof. intros [Hlen Hok]. pose proof (limbs_val_range _ Hok) as H. by rewrite Hlen in H. Qed.

Lemma scalar_val_inj (a b : secp256k1_scalar) :
  scalar_wf a → scalar_wf b → scalar_val a = scalar_val b → a = b.
Proof.
  destruct a as [l], b as [k]. intros [Ha1 Ha2] [Hb1 Hb2] Hv. f_equal.
  apply limbs_val_inj; [done..| |done]. cbn [d] in *. congruence.
Qed.

Lemma scalar_of_wf (z : Z) : 0 ≤ z < 2 ^ 256 → scalar_wf (scalar_of z) ∧ scalar_val (scalar_of z) = z.
Proof.
  intros Hz. destruct (limbs_of_ok 8 z) as (Hl & Hok & Hv). split; [done|].
  unfold scalar_val, scalar_of. cbn [d]. rewrite Hv. by apply Z.mod_small.
Qed.

(** Replaces the well-formed scalar [a] by its limbs. *)
Ltac open_scalar a :=
  match goal with
  | H : scalar_wf a |- _ =>
      let E := fresh in
      destruct (scalar_wf_limbs a H) as (? & ? & ? & ? & ? & ? & ? & ? & E & ? & ? & ? & ? & ? & ? & ? & ?);
      cbn beta in *; subst a
  end.

(** Reads limbs of explicit arrays. *)
Ltac read_limbs := unfold limb; cbn [d lookup_total list_lookup_total].

(** * Chains of additions with carry *)

Lemma land_mask32 (t : Z) : Z.land t 0xFFFFFFFF = t mod 2 ^ 32.
Proof. change 0xFFFFFFFF with (Z.ones 32). by apply Z.land_ones. Qed.

Lemma carry_chain_spec (t : Z) (terms : list Z) :
  0 ≤ t < 2 ^ 32 → Forall (λ x, 0 ≤ x < 2 ^ 63) terms →
  let '(r, t') := carry_chain 0xFFFFFFFF t terms in
  length r = length terms ∧ limbs_ok r ∧ 0 ≤ t' < 2 ^ 32 ∧
  limbs_val r + 2 ^ (32 * zlen terms) * t' = t + limbs_val terms.
Proof.
  intros Ht Hterms. revert t Ht. induction Hterms as [|x terms Hx _ IH]; intros t Ht; cbn [carry_chain].
  - simpl. fin.
  - assert (Hu : u64 (t + x) = t + x) by (apply u64_small; lia). rewrite Hu.
    specialize (IH (Z.shiftr (t + x) 32)). rewrite Z.shiftr_div_pow2 in IH |- * by lia.
    destruct (carry_chain _ _ terms) as [r t'].
    destruct IH as (Hl & Hok & Ht' & Hv); [zdiv|]. rewrite land_mask32. split_and!.
    + simpl. lia.
    + constructor; [apply Z.mod_pos_bound; lia|done].
    + lia.
    + lia.
    + replace (32 * zlen (x :: terms)) with (32 + 32 * zlen terms) by (simpl length; lia).
      rewrite Z.pow_add_r by lia. cbn [limbs_val].
      pose proof (Z.div_mod (t + x) (2 ^ 32) ltac:(lia)). nia.
Qed.

(** The form in which the chains of eight limbs are used. *)
Lemma carry_chain_scalar (terms : list Z) (r : list Z) (t : Z) :
  carry_chain 0xFFFFFFFF 0 terms = (r, t) → length terms = 8%nat →
  Forall (λ x, 0 ≤ x < 2 ^ 63) terms →
  scalar_wf (Scalar r) ∧ 0 ≤ t < 2 ^ 32 ∧
  scalar_val (Scalar r) + 2 ^ 256 * t = limbs_val terms.
Proof.
  intros E Hlen Ht. pose proof (carry_chain_spec 0 terms ltac:(lia) Ht) as H. rewrite E in H.
  destruct H as (Hl & Hok & Ht' & Hv). rewrite Hlen in Hv. unfold scalar_wf, scalar_val. cbn [d].
  split_and!; [congruence|done|lia|lia|exact Hv].
Qed.

(** * The accumulator *)

Definition acc_val (c : acc) : Z := c0 c + 2 ^ 32 * (c1 c + 2 ^ 32 * c2 c).
Definition acc_ok (c : acc) : Prop := is_limb (c0 c) ∧ is_limb (c1 c) ∧ is_limb (c2 c).

(** The comparison after an addition tells the carry. *)
Lemma add_carry (x y : Z) :
  0 ≤ x < 2 ^ 32 → 0 ≤ y < 2 ^ 32 →
  u32 (x + y) = x + y - 2 ^ 32 * truth (u32 (x + y) <? y) ∧ 0 ≤ u32 (x + y) < 2 ^ 32.
Proof.
  intros Hx Hy. pose proof (u32_range (x + y)). unfold u32, wrap in *.
  destruct (_ <? _) eqn:E; zbool; cbn [truth]; zdiv.
Qed.

Lemma truth_range (b : bool) : 0 ≤ truth b ≤ 1.
Proof. destruct b; cbn; lia. Qed.

(** The two halves of a product. *)
Lemma product_halves (a b : Z) :
  0 ≤ a < 2 ^ 32 → 0 ≤ b < 2 ^ 32 →
  a * b = u32 (u64 (a * b)) + 2 ^ 32 * u32 (Z.shiftr (u64 (a * b)) 32) ∧
  0 ≤ u32 (u64 (a * b)) < 2 ^ 32 ∧ 0 ≤ u32 (Z.shiftr (u64 (a * b)) 32) ≤ 2 ^ 32 - 2.
Proof.
  intros Ha Hb. assert (0 ≤ a * b ≤ (2 ^ 32 - 1) * (2 ^ 32 - 1)) by nia.
  rewrite u64_small by lia. rewrite Z.shiftr_div_pow2 by lia.
  rewrite (u32_small (_ / _)) by zdiv. unfold u32, wrap. zdiv.
Qed.

(** Names the sum of an addition that may carry, with its equation. *)
Ltac split_sum x y :=
  let H := fresh "Hc" in let s := fresh "s" in let E := fresh "E" in
  pose proof (add_carry x y ltac:(lia) ltac:(lia)) as [H ?];
  pose proof (truth_range (u32 (x + y) <? y));
  remember (u32 (x + y)) as s eqn:E; clear E.

(** Names the halves of a product, with their equation. *)
Ltac split_product a b :=
  let Hp := fresh "Hp" in let El := fresh "El" in let Eh := fresh "Eh" in
  pose proof (product_halves a b ltac:(lia) ltac:(lia)) as (Hp & ? & ?);
  remember (u32 (Z.shiftr (u64 (a * b)) 32)) as th eqn:Eh;
  remember (u32 (u64 (a * b))) as tl eqn:El; clear El Eh.

Ltac open_acc := intros (H0 & H1 & H2) Hfit; unfold acc_val, acc_ok in *; cbn beta in *.

Lemma do_muladd_spec (a b : Z) (c : acc) :
  0 ≤ a < 2 ^ 32 → 0 ≤ b < 2 ^ 32 → acc_ok c → acc_val c + a * b < 2 ^ 96 →
  acc_ok (do_muladd a b c) ∧ acc_val (do_muladd a b c) = acc_val c + a * b.
Proof.
  intros Ha Hb. open_acc. unfold do_muladd. split_product a b. cbn [c0 c1 c2].
  split_sum (c0 c) tl. rewrite (u32_small (th + _)) by lia.
  split_sum (c1 c) (th + truth (s <? tl)).
  rewrite u32_small; lia.
Qed.

Lemma do_muladd_fast_spec (a b : Z) (c : acc) :
  0 ≤ a < 2 ^ 32 → 0 ≤ b < 2 ^ 32 → acc_ok c → acc_val c + a * b < 2 ^ 64 →
  acc_ok (do_muladd_fast a b c) ∧ acc_val (do_muladd_fast a b c) = acc_val c + a * b.
Proof.
  intros Ha Hb. open_acc. unfold do_muladd_fast. split_product a b. cbn [c0 c1 c2].
  split_sum (c0 c) tl. rewrite (u32_small (th + _)) by lia.
  rewrite u32_small; lia.
Qed.

Lemma do_sumadd_spec (a : Z) (c : acc) :
  0 ≤ a < 2 ^ 32 → acc_ok c → acc_val c + a < 2 ^ 96 →
  acc_ok (do_sumadd a c) ∧ acc_val (do_sumadd a c) = acc_val c + a.
Proof.
  intros Ha. open_acc. unfold do_sumadd. cbn [c0 c1 c2].
  split_sum (c0 c) a. split_sum (c1 c) (truth (s <? a)). rewrite u32_small; lia.
Qed.

Lemma do_sumadd_fast_spec (a : Z) (c : acc) :
  0 ≤ a < 2 ^ 32 → acc_ok c → acc_val c + a < 2 ^ 64 →
  acc_ok (do_sumadd_fast a c) ∧ acc_val (do_sumadd_fast a c) = acc_val c + a.
Proof.
  intros Ha. open_acc. unfold do_sumadd_fast. cbn [c0 c1 c2].
  split_sum (c0 c) a. rewrite u32_small; lia.
Qed.

Lemma do_muladd2_spec (a b : Z) (c : acc) :
  0 ≤ a < 2 ^ 32 → 0 ≤ b < 2 ^ 32 → acc_ok c → acc_val c + 2 * (a * b) < 2 ^ 96 →
  acc_ok (do_muladd2 a b c) ∧ acc_val (do_muladd2 a b c) = acc_val c + 2 * (a * b).
Proof.
  intros Ha Hb. open_acc. unfold do_muladd2. split_product a b. cbn [c0 c1 c2].
  split_sum th th. rewrite (u32_small (c2 c + _)) by lia.
  split_sum tl tl. rewrite (u32_small (s + truth _)) by lia.
  split_sum (c0 c) s0.
  assert (Hth : u32 (s + truth (s0 <? tl) + truth (s1 <? s0)) =
    s + truth (s0 <? tl) + truth (s1 <? s0) - 2 ^ 32 * Z.land (truth (s1 <? s0))
      (truth (u32 (s + truth (s0 <? tl) + truth (s1 <? s0)) =? 0))).
  { remember (s + truth (s0 <? tl)) as y. assert (0 ≤ y < 2 ^ 32) by lia.
    destruct (s1 <? s0); cbn [truth]; rewrite ?Z.add_0_r, ?Z.land_0_l.
    - destruct (decide (y = 2 ^ 32 - 1)) as [->|]; [reflexivity|].
      rewrite u32_small by lia. destruct (Z.eqb_spec (y + 1) 0); [lia|].
      cbn [truth]. rewrite Z.land_0_r. lia.
    - rewrite u32_small by lia. lia. }
  remember (u32 (s + _ + _)) as th2 eqn:Eth.
  assert (0 ≤ th2 < 2 ^ 32) by (rewrite Eth; apply u32_range). clear Eth.
  assert (0 ≤ Z.land (truth (s1 <? s0)) (truth (th2 =? 0)) ≤ 1)
    by (destruct (s1 <? s0), (th2 =? 0); split; by vm_compute).
  remember (Z.land _ _) as k. clear Heqk.
  split_sum (c1 c) th2.
  rewrite (u32_small (c2 c + truth _ + k)) by lia. rewrite u32_small; lia.
Qed.

(** What a sequence of operations adds to the accumulator, an extraction moving
    what follows it by 32 bits. *)
Fixpoint total (ops : list acc_op) : Z :=
  match ops with
  | [] => 0
  | muladd a b :: ops | muladd_fast a b :: ops => a * b + total ops
  | muladd2 a b :: ops => 2 * (a * b) + total ops
  | sumadd a :: ops | sumadd_fast a :: ops => a + total ops
  | extract :: ops | extract_fast :: ops => 2 ^ 32 * total ops
  end.

(** A bound of the accumulator after an operation that is within its contract:
    [muladd], [muladd2] and [sumadd] have 96 bits, the fast ones 64. *)
Definition op_bound (o : acc_op) (B : Z) : option Z :=
  let limb x := (0 <=? x) && (x <? 2 ^ 32) in
  match o with
  | muladd a b => if limb a && limb b && (B + a * b <? 2 ^ 96) then Some (B + a * b) else None
  | muladd_fast a b => if limb a && limb b && (B + a * b <? 2 ^ 64) then Some (B + a * b) else None
  | muladd2 a b =>
      if limb a && limb b && (B + 2 * (a * b) <? 2 ^ 96) then Some (B + 2 * (a * b)) else None
  | sumadd a => if limb a && (B + a <? 2 ^ 96) then Some (B + a) else None
  | sumadd_fast a => if limb a && (B + a <? 2 ^ 64) then Some (B + a) else None
  | extract => Some (B / 2 ^ 32)
  | extract_fast => if B <? 2 ^ 64 then Some (B / 2 ^ 32) else None
  end.

Fixpoint run_bound (ops : list acc_op) (B : Z) : option Z :=
  match ops with
  | [] => Some B
  | o :: ops => match op_bound o B with Some B => run_bound ops B | None => None end
  end.

(** The same operation on smaller numbers. *)
Inductive op_le : acc_op → acc_op → Prop :=
  | le_muladd a b a' b' : 0 ≤ a ≤ a' → 0 ≤ b ≤ b' → op_le (muladd a b) (muladd a' b')
  | le_muladd_fast a b a' b' : 0 ≤ a ≤ a' → 0 ≤ b ≤ b' → op_le (muladd_fast a b) (muladd_fast a' b')
  | le_muladd2 a b a' b' : 0 ≤ a ≤ a' → 0 ≤ b ≤ b' → op_le (muladd2 a b) (muladd2 a' b')
  | le_sumadd a a' : 0 ≤ a ≤ a' → op_le (sumadd a) (sumadd a')
  | le_sumadd_fast a a' : 0 ≤ a ≤ a' → op_le (sumadd_fast a) (sumadd_fast a')
  | le_extract : op_le extract extract
  | le_extract_fast : op_le extract_fast extract_fast.

(** If operations on the greatest arguments stay within their contracts, then the
    accumulator never overflows and the limbs have the value of the sum. *)
Lemma acc_run_spec (ops max : list acc_op) (c : acc) (B B' : Z) :
  Forall2 op_le ops max → run_bound max B = Some B' → acc_ok c → acc_val c ≤ B →
  let '(r, c') := acc_run ops c in
  limbs_ok r ∧ acc_ok c' ∧ acc_val c' ≤ B' ∧
  limbs_val r + 2 ^ (32 * zlen r) * acc_val c' = acc_val c + total ops.
Proof.
  intros Hle. revert c B. induction Hle as [|o o' ops max Ho _ IH]; intros c B HB Hc Hv.
  - simpl in *. simplify_eq. fin.
  - cbn [run_bound] in HB. destruct (op_bound o' B) as [B1|] eqn:E; [|done].
    assert (Hstep : ∀ c1 x, acc_ok c1 ∧ acc_val c1 = acc_val c + x → acc_val c + x ≤ B1 →
      total (o :: ops) = x + total ops → acc_run (o :: ops) c = acc_run ops c1 →
      let '(r, c') := acc_run (o :: ops) c in
      limbs_ok r ∧ acc_ok c' ∧ acc_val c' ≤ B' ∧
      limbs_val r + 2 ^ (32 * zlen r) * acc_val c' = acc_val c + total (o :: ops)).
    { intros c1 x [Hok1 Hv1] HB1 -> ->. specialize (IH c1 B1 HB Hok1 ltac:(lia)).
      destruct (acc_run ops c1) as [r c']. destruct IH as (? & ? & ? & ?). split_and!; [done..|lia]. }
    assert (Hshift : ∀ c1, acc_ok c1 ∧ acc_val c = c0 c + 2 ^ 32 * acc_val c1 → acc_val c1 ≤ B1 →
      let '(r, c') := let '(r, c') := acc_run ops c1 in (c0 c :: r, c') in
      limbs_ok r ∧ acc_ok c' ∧ acc_val c' ≤ B' ∧
      limbs_val r + 2 ^ (32 * zlen r) * acc_val c' = acc_val c + 2 ^ 32 * total ops).
    { intros c1 [Hok1 Hv1] HB1. specialize (IH c1 B1 HB Hok1 HB1).
      destruct (acc_run ops c1) as [r c']. destruct IH as (? & ? & ? & ?).
      replace (32 * zlen (c0 c :: r)) with (32 + 32 * zlen r) by (simpl length; lia).
      rewrite Z.pow_add_r by lia. cbn [limbs_val]. destruct Hc as (? & _ & _).
      split_and!; [by constructor|done|done|lia]. }
    destruct Ho; cbn [op_bound] in E; 
      try (match type of E with (if ?b then _ else _) = _ => destruct b eqn:? end; [|done]);
      simplify_eq; zbool.
    all: try (eapply Hstep; [| |reflexivity|reflexivity]; [|nia]).
    + apply do_muladd_spec; [lia|lia|done|nia].
    + apply do_muladd_fast_spec; [lia|lia|done|nia].
    + apply do_muladd2_spec; [lia|lia|done|nia].
    + apply do_sumadd_spec; [lia|done|nia].
    + apply do_sumadd_fast_spec; [lia|done|nia].
    + apply Hshift; unfold acc_ok, acc_val in *; cbn [c0 c1 c2]; [fin|zdiv].
    + apply Hshift; unfold acc_ok, acc_val in *; cbn [c0 c1 c2]; [fin|zdiv].
Qed.

(** * Products *)

Lemma lookup_limb (l : list Z) (i : nat) : limbs_ok l → is_limb (l !!! i).
Proof.
  intros Hok. destruct (decide (i < length l)%nat) as [Hi|Hi].
  - destruct (lookup_lt_is_Some_2 l i Hi) as [x Hx].
    rewrite (list_lookup_total_correct _ _ _ Hx). by apply (Forall_lookup_1 _ _ _ _ Hok Hx).
  - rewrite list_lookup_total_alt, lookup_ge_None_2 by lia. simpl. lia.
Qed.

Lemma limb_range (a : secp256k1_scalar) (i : nat) : scalar_wf a → 0 ≤ limb a i < 2 ^ 32.
Proof. intros [_ Hok]. by apply (lookup_limb (d a) i). Qed.

(** The greatest arguments. *)
Definition top : secp256k1_scalar := Scalar (replicate 8 (2 ^ 32 - 1)).

(** A sequence that ends with a carry of one limb gives the limbs of the sum. *)
Lemma acc_run_limbs (ops max : list acc_op) (x B B' : Z) (r : list Z) (c : acc) :
  acc_run ops (Acc x 0 0) = (r, c) → Forall2 op_le ops max →
  run_bound max B = Some B' → 0 ≤ x ≤ B → B < 2 ^ 32 → B' < 2 ^ 32 →
  limbs_ok (r ++ [c0 c]) ∧ limbs_val (r ++ [c0 c]) = x + total ops ∧ 0 ≤ c0 c ≤ B'.
Proof.
  intros E Hle Hb Hx HB HB'.
  pose proof (acc_run_spec ops max (Acc x 0 0) B B' Hle Hb) as H. rewrite E in H.
  unfold acc_ok, acc_val in H. cbn [c0 c1 c2] in H. cbn beta in *.
  destruct H as (Hr & (H0 & H1 & H2) & Hc & Hv); [lia|lia|].
  assert (c1 c = 0 ∧ c2 c = 0) as [H1' H2'] by lia. rewrite H1', H2' in *.
  rewrite limbs_val_app. cbn [limbs_val]. split_and!; [|lia|lia|lia].
  apply Forall_app. split; [done|]. constructor; [done|constructor].
Qed.

Fixpoint extractions (ops : list acc_op) : nat :=
  match ops with
  | [] => 0
  | (extract | extract_fast) :: ops => S (extractions ops)
  | _ :: ops => extractions ops
  end.

Lemma acc_run_length (ops : list acc_op) (c : acc) (r : list Z) (c' : acc) :
  acc_run ops c = (r, c') → length r = extractions ops.
Proof.
  revert c r. induction ops as [|o ops IH]; intros c r; [by intros [= <-]|].
  destruct o; cbn [acc_run extractions]; try apply IH.
  all: destruct (acc_run ops _) eqn:E; intros [= <- <-]; simpl; f_equal; by apply IH in E.
Qed.

(** What [mul_512] and [sqr_512] leave in [l]: the product in 16 limbs. *)
Definition product_limbs (l : list Z) (z : Z) : Prop :=
  length l = 16%nat ∧ limbs_ok l ∧ limbs_val l = z.

Lemma limb_top (a : secp256k1_scalar) (i : nat) :
  scalar_wf a → (i < 8)%nat → 0 ≤ limb a i ≤ limb top i.
Proof.
  intros Ha Hi. pose proof (limb_range a i Ha).
  replace (limb top i) with (2 ^ 32 - 1); [lia|].
  unfold limb, top. cbn [d]. by rewrite lookup_total_replicate_2.
Qed.

(** Compares the operations of two lists, the arguments with [tac]. *)
Ltac op_bounds tac :=
  repeat (apply List.Forall2_cons; [constructor; tac|]); apply List.Forall2_nil.

Lemma mul_512_product (a b : secp256k1_scalar) :
  scalar_wf a → scalar_wf b →
  product_limbs (secp256k1_scalar_mul_512 a b) (scalar_val a * scalar_val b).
Proof.
  intros Ha Hb. unfold secp256k1_scalar_mul_512.
  destruct (acc_run (mul_512_ops a b) (Acc 0 0 0)) as [l c] eqn:E.
  pose proof (acc_run_length _ _ _ _ E) as Hlen. simpl in Hlen.
  eapply (acc_run_limbs _ (mul_512_ops top top) 0 0) in E as (Hok & Hv & _);
    [|op_bounds ltac:(apply limb_top; [done|lia])|vm_compute; reflexivity|done..].
  split_and!; [rewrite length_app; simpl; lia|done|]. rewrite Hv.
  open_scalar a. open_scalar b. unfold scalar_val, mul_512_ops. read_limbs.
  cbn [total limbs_val]. ring.
Qed.

Lemma sqr_512_product (a : secp256k1_scalar) :
  scalar_wf a → product_limbs (secp256k1_scalar_sqr_512 a) (scalar_val a * scalar_val a).
Proof.
  intros Ha. unfold secp256k1_scalar_sqr_512.
  destruct (acc_run (sqr_512_ops a) (Acc 0 0 0)) as [l c] eqn:E.
  pose proof (acc_run_length _ _ _ _ E) as Hlen. simpl in Hlen.
  eapply (acc_run_limbs _ (sqr_512_ops top) 0 0) in E as (Hok & Hv & _);
    [|op_bounds ltac:(apply limb_top; [done|lia])|vm_compute; reflexivity|done..].
  split_and!; [rewrite length_app; simpl; lia|done|]. rewrite Hv.
  open_scalar a. unfold scalar_val, sqr_512_ops. read_limbs.
  cbn [total limbs_val]. ring.
Qed.

(** * Comparisons *)

Lemma land_not_0 (b : bool) : Z.land (truth b) (Z.lnot 0) = truth b.
Proof. by destruct b. Qed.

Lemma land_not_1 (b : bool) : Z.land (truth b) (Z.lnot 1) = 0.
Proof. by destruct b. Qed.

Lemma lor_1_truth (b : bool) : Z.lor 1 (truth b) = 1.
Proof. by destruct b. Qed.

(** Simplifies the flags of a comparison whose state is known. *)
Ltac flags :=
  cbn [truth]; repeat first
  [ rewrite land_not_0 | rewrite land_not_1 | rewrite lor_1_truth
  | rewrite Z.lor_0_l | rewrite Z.lor_0_r | rewrite Z.land_0_l ].

(** Compares the limbs [x] and [n]: if they differ, the flags keep their values
    and arithmetic decides; otherwise the comparison goes on. *)
Ltac compare_limb x n tac :=
  let H := fresh in
  destruct (Z.lt_trichotomy x n) as [H|[H|H]];
  [ rewrite ?(proj2 (Z.ltb_lt x n) H), ?(Z.gtb_ltb x n), ?(Z.geb_leb x n),
      ?(proj2 (Z.ltb_ge n x) ltac:(lia)), ?(proj2 (Z.leb_gt n x) H); flags; tac
  | rewrite ?(proj2 (Z.ltb_ge x n) ltac:(lia)), ?(Z.gtb_ltb x n), ?(Z.geb_leb x n),
      ?(proj2 (Z.ltb_ge n x) ltac:(lia)), ?(proj2 (Z.leb_le n x) ltac:(lia)); flags
  | rewrite ?(proj2 (Z.ltb_ge x n) ltac:(lia)), ?(Z.gtb_ltb x n), ?(Z.geb_leb x n),
      ?(proj2 (Z.ltb_lt n x) H), ?(proj2 (Z.leb_le n x) ltac:(lia)); flags; tac ].

Ltac decided :=
  solve [ lia
        | symmetry; apply (f_equal truth (y := false)), Z.leb_gt || apply (f_equal truth (y := false)), Z.ltb_ge;
          unfold scalar_val, group_order; cbn [d limbs_val]; lia
        | symmetry; apply (f_equal truth (y := true)), Z.leb_le || apply (f_equal truth (y := true)), Z.ltb_lt;
          unfold scalar_val, group_order; cbn [d limbs_val]; lia ].

Lemma scalar_check_overflow_spec (a : secp256k1_scalar) :
  scalar_wf a → secp256k1_scalar_check_overflow a = truth (group_order <=? scalar_val a).
Proof.
  intros Ha. open_scalar a. unfold secp256k1_scalar_check_overflow. read_limbs.
  unfold SECP256K1_N_0, SECP256K1_N_1, SECP256K1_N_2, SECP256K1_N_3, SECP256K1_N_4,
    SECP256K1_N_5, SECP256K1_N_6, SECP256K1_N_7.
  compare_limb x6 0xFFFFFFFF decided. compare_limb x5 0xFFFFFFFF decided.
  compare_limb x4 0xFFFFFFFF decided. compare_limb x3 0xFFFFFFFE decided.
  compare_limb x2 0xBAAEDCE6 decided. compare_limb x1 0xAF48A03B decided.
  compare_limb x0 0xBFD25E8C decided. compare_limb x 0xD0364141 decided. decided.
Qed.

Lemma is_high_spec (a : secp256k1_scalar) :
  scalar_wf a → secp256k1_scalar_is_high a = truth (group_order <? 2 * scalar_val a).
Proof.
  intros Ha. open_scalar a. unfold secp256k1_scalar_is_high. read_limbs.
  unfold SECP256K1_N_H_0, SECP256K1_N_H_1, SECP256K1_N_H_2, SECP256K1_N_H_3, SECP256K1_N_H_4,
    SECP256K1_N_H_5, SECP256K1_N_H_6, SECP256K1_N_H_7.
  compare_limb x6 0x7FFFFFFF decided. compare_limb x5 0xFFFFFFFF decided.
  compare_limb x4 0xFFFFFFFF decided. compare_limb x3 0xFFFFFFFF decided.
  compare_limb x2 0x5D576E73 decided. compare_limb x1 0x57A4501D decided.
  compare_limb x0 0xDFE92F46 decided. compare_limb x 0x681B20A0 decided. decided.
Qed.

(** * Reduction *)

Lemma reduce_spec (r : secp256k1_scalar) (overflow : Z) :
  scalar_wf r → 0 ≤ overflow ≤ 1 →
  scalar_wf (secp256k1_scalar_reduce r overflow) ∧
  scalar_val (secp256k1_scalar_reduce r overflow) =
    (scalar_val r + overflow * (2 ^ 256 - group_order)) mod 2 ^ 256.
Proof.
  intros Hr Ho. unfold secp256k1_scalar_reduce.
  destruct (carry_chain _ _ _) as [l t] eqn:E. cbn [fst].
  open_scalar r. revert E. read_limbs. intros E.
  change SECP256K1_N_C_0 with 0x2FC9BEBF in E. change SECP256K1_N_C_1 with 0x402DA173 in E.
  change SECP256K1_N_C_2 with 0x50B75FC4 in E. change SECP256K1_N_C_3 with 0x45512319 in E.
  change SECP256K1_N_C_4 with 1 in E.
  rewrite !(u32_small (overflow * _)) in E by lia. rewrite !u64_small in E by lia.
  apply carry_chain_scalar in E as (Hwf & Ht & Hv); [|done|repeat constructor; lia].
  split; [done|]. apply (Z.mod_unique_pos _ _ t); [by apply scalar_wf_val|].
  unfold scalar_val in *. cbn [d limbs_val] in *. unfold group_order. lia.
Qed.

(** The last step of a sum or a product: eight limbs and a carry, less than twice
    the order. *)
Lemma final_reduction (r : secp256k1_scalar) (c : Z) :
  scalar_wf r → 0 ≤ c → scalar_val r + 2 ^ 256 * c < 2 * group_order →
  let v := scalar_val r + 2 ^ 256 * c in
  let overflow := c + secp256k1_scalar_check_overflow r in
  overflow = truth (group_order <=? v) ∧
  scalar_ok (secp256k1_scalar_reduce r overflow) ∧
  scalar_val (secp256k1_scalar_reduce r overflow) = v mod group_order.
Proof.
  intros Hr Hc Hlt v overflow. pose proof (scalar_wf_val r Hr) as Hv.
  assert (Ho : overflow = truth (group_order <=? v)).
  { unfold overflow, v. rewrite scalar_check_overflow_spec by done.
    destruct (Z.leb_spec group_order (scalar_val r)), (Z.leb_spec group_order (scalar_val r + 2 ^ 256 * c));
      unfold group_order in *; cbn [truth]; lia. }
  destruct (reduce_spec r overflow Hr) as [Hwf Hval]; [rewrite Ho; apply truth_range|].
  assert (Hm : scalar_val (secp256k1_scalar_reduce r overflow) = v - overflow * group_order).
  { rewrite Hval. symmetry. apply (Z.mod_unique_pos _ _ (overflow - c)); [|lia].
    rewrite Ho. destruct (Z.leb_spec group_order v); cbn [truth]; unfold v, group_order in *; lia. }
  assert (0 ≤ v - overflow * group_order < group_order).
  { rewrite Ho. destruct (Z.leb_spec group_order v); cbn [truth]; unfold v, group_order in *; lia. }
  split_and!; [done|split; [done|lia]|]. rewrite Hm.
  apply (Z.mod_unique_pos _ _ overflow); lia.
Qed.

(** [secp256k1_scalar_add] adds modulo the order, and tells whether the sum
    reached it. *)
Lemma add_spec (a b : secp256k1_scalar) :
  scalar_ok a → scalar_ok b →
  scalar_ok (secp256k1_scalar_add a b).1 ∧
  scalar_val (secp256k1_scalar_add a b).1 = (scalar_val a + scalar_val b) mod group_order ∧
  (secp256k1_scalar_add a b).2 = truth (group_order <=? scalar_val a + scalar_val b).
Proof.
  intros [Ha Hlta] [Hb Hltb]. unfold secp256k1_scalar_add.
  destruct (carry_chain _ _ _) as [l t] eqn:E. cbn [fst snd].
  open_scalar a. open_scalar b. revert E. read_limbs. intros E.
  rewrite !u64_small in E by lia.
  apply carry_chain_scalar in E as (Hwf & Ht & Hv); [|done|repeat constructor; lia].
  assert (Hsum : scalar_val (Scalar [x; x0; x1; x2; x3; x4; x5; x6]) +
      scalar_val (Scalar [x7; x8; x9; x10; x11; x12; x13; x14]) = scalar_val (Scalar l) + 2 ^ 256 * t).
  { rewrite Hv. unfold scalar_val. cbn [d limbs_val]. lia. }
  rewrite Hsum. destruct (final_reduction (Scalar l) t Hwf) as (Ho & Hok & Hval); [lia|lia|].
  rewrite Ho in *. pose proof (truth_range (group_order <=? scalar_val (Scalar l) + 2 ^ 256 * t)).
  rewrite u64_small, s32_small, u32_small by lia. done.
Qed.

(** * Reduction of products *)

(** [2^256 - order] *)
Definition order_complement : Z := 2 ^ 256 - group_order.

Ltac order_limbs :=
  change SECP256K1_N_C_0 with 0x2FC9BEBF in *; change SECP256K1_N_C_1 with 0x402DA173 in *;
  change SECP256K1_N_C_2 with 0x50B75FC4 in *; change SECP256K1_N_C_3 with 0x45512319 in *;
  change SECP256K1_N_C_4 with 1 in *.

Definition top_limb : Z := 2 ^ 32 - 1.

Lemma limb_le_top (l : list Z) (i k : nat) :
  limbs_ok l → (i < k)%nat → 0 ≤ l !!! i ≤ replicate k top_limb !!! i.
Proof.
  intros Hl Hi. pose proof (lookup_limb l i Hl) as H. cbn beta in H.
  rewrite lookup_total_replicate_2 by lia. unfold top_limb. lia.
Qed.

(** Compares operations on limbs and on constants. *)
Ltac reduce_bounds Hl :=
  op_bounds ltac:(first [apply (limb_le_top _ _ _ Hl); lia | split; by vm_compute]).

Lemma reduce_512_385 (l : list Z) (z : Z) (m : list Z) (c : acc) :
  product_limbs l z → acc_run (reduce_512_385_ops l) (Acc (l !!! 0%nat) 0 0) = (m, c) →
  length (m ++ [c0 c]) = 13%nat ∧ limbs_ok (m ++ [c0 c]) ∧
  limbs_val (m ++ [c0 c]) = limbs_val (take 8 l) + order_complement * limbs_val (drop 8 l).
Proof.
  intros (Hlen & Hok & _) E. pose proof (acc_run_length _ _ _ _ E) as Hm. simpl in Hm.
  pose proof (lookup_limb l 0 Hok) as H0. cbn beta in H0.
  assert (Hle : Forall2 op_le (reduce_512_385_ops l) (reduce_512_385_ops (replicate 16 top_limb)))
    by reduce_bounds Hok.
  eapply (acc_run_limbs _ _ _ top_limb) in E as (Hok' & Hv & _);
    [|exact Hle|vm_compute; reflexivity|unfold top_limb; lia|done..].
  split_and!; [rewrite length_app; simpl; lia|done|]. rewrite Hv. clear - Hlen.
  do 17 (destruct l as [|? l]; try done).
  unfold reduce_512_385_ops. cbn [lookup_total list_lookup_total take drop total limbs_val].
  order_limbs. change order_complement with 0x14551231950B75FC4402DA1732FC9BEBF. ring.
Qed.

Lemma limb_le_top_1 (m : list Z) (i : nat) :
  limbs_ok m → m !!! 12%nat ≤ 1 → (i < 13)%nat →
  0 ≤ m !!! i ≤ (replicate 12 top_limb ++ [1]) !!! i.
Proof.
  intros Hm H12 Hi. pose proof (lookup_limb m i Hm) as H. cbn beta in H.
  destruct (decide (i = 12)%nat) as [->|]; [simpl; lia|].
  rewrite lookup_total_app_l by (rewrite length_replicate; lia).
  apply (limb_le_top m i 12 Hm). lia.
Qed.

Lemma reduce_385_258 (m : list Z) (p : list Z) (c : acc) :
  length m = 13%nat → limbs_ok m → m !!! 12%nat ≤ 1 →
  acc_run (reduce_385_258_ops m) (Acc (m !!! 0%nat) 0 0) = (p, c) →
  length p = 8%nat ∧ limbs_ok p ∧ 0 ≤ c0 c ≤ 2 ∧
  limbs_val p + 2 ^ 256 * (c0 c + m !!! 12%nat) =
    limbs_val (take 8 m) + order_complement * limbs_val (drop 8 m).
Proof.
  intros Hlen Hok H12 E. pose proof (acc_run_length _ _ _ _ E) as Hp. simpl in Hp.
  pose proof (lookup_limb m 0 Hok) as H0. pose proof (lookup_limb m 12 Hok) as H12'. cbn beta in *.
  assert (Hle : Forall2 op_le (reduce_385_258_ops m)
    (reduce_385_258_ops (replicate 12 top_limb ++ [1]))).
  { op_bounds ltac:(first [apply (limb_le_top_1 m _ Hok H12); lia | split; by vm_compute]). }
  eapply (acc_run_limbs _ _ _ top_limb) in E as (Hok' & Hv & Hc);
    [|exact Hle|vm_compute; reflexivity|unfold top_limb; lia|done..].
  rewrite limbs_val_app, Hp in Hv. cbn [limbs_val] in Hv.
  apply Forall_app in Hok' as [Hok' _]. split_and!; [done|done|lia|lia|].
  revert Hv. clear - Hlen. do 14 (destruct m as [|? m]; try done).
  unfold reduce_385_258_ops. cbn [lookup_total list_lookup_total take drop total limbs_val].
  order_limbs. change order_complement with 0x14551231950B75FC4402DA1732FC9BEBF.
  change (2 ^ (32 * Z.of_nat 8)) with (2 ^ 256). intros Hv. lia.
Qed.

Lemma limbs_val_split (l : list Z) (k : nat) :
  (k ≤ length l)%nat →
  limbs_val l = limbs_val (take k l) + 2 ^ (32 * Z.of_nat k) * limbs_val (drop k l).
Proof.
  intros Hk. rewrite <- (take_drop k l) at 1. rewrite limbs_val_app, length_take.
  by replace (k `min` length l)%nat with k by lia.
Qed.

(** One step of the reduction: the high part is multiplied by [2^256 - order]
    instead of [2^256]. *)
Lemma fold_mod (l : list Z) (v : Z) :
  (8 ≤ length l)%nat → v = limbs_val (take 8 l) + order_complement * limbs_val (drop 8 l) →
  v mod group_order = limbs_val l mod group_order.
Proof.
  intros Hl ->. rewrite (limbs_val_split l 8 Hl). change (2 ^ (32 * Z.of_nat 8)) with (2 ^ 256).
  rewrite <- (Z_mod_plus_full (_ + order_complement * _) (limbs_val (drop 8 l))).
  apply (f_equal (λ x, x mod group_order)). unfold order_complement. ring.
Qed.

Lemma reduce_258_256_spec (p : list Z) (p8 : Z) (r : list Z) (c : Z) :
  length p = 8%nat → limbs_ok p → 0 ≤ p8 ≤ 4 → reduce_258_256 (p ++ [p8]) = (r, c) →
  scalar_wf (Scalar r) ∧ 0 ≤ c < 2 ^ 32 ∧
  scalar_val (Scalar r) + 2 ^ 256 * c = limbs_val p + order_complement * p8.
Proof.
  intros Hlen Hok Hp8 E. do 9 (destruct p as [|? p]; try done).
  rewrite !Forall_cons_iff in Hok. destruct Hok as (? & ? & ? & ? & ? & ? & ? & ? & _). cbn beta in *.
  unfold reduce_258_256 in E. cbn [lookup_total list_lookup_total app] in E. order_limbs.
  rewrite !(u64_small (_ * p8)) in E by lia. rewrite !u64_small in E by lia.
  apply carry_chain_scalar in E as (Hwf & Ht & Hv); [|done|repeat constructor; lia].
  split_and!; [done|lia|lia|]. rewrite Hv. cbn [limbs_val].
  change order_complement with 0x14551231950B75FC4402DA1732FC9BEBF. lia.
Qed.

Lemma high_limbs_13 (m : list Z) :
  length m = 13%nat → limbs_ok m → 2 ^ 128 * m !!! 12%nat ≤ limbs_val (drop 8 m).
Proof.
  intros Hlen Hok. do 14 (destruct m as [|? m]; try done).
  rewrite !Forall_cons_iff in Hok. cbn beta in Hok. simpl drop. simpl lookup_total. cbn [limbs_val]. lia.
Qed.

(** The values of the two halves of limbs. *)
Lemma halves_range (l : list Z) (k : nat) :
  limbs_ok l → length l = k → (8 ≤ k)%nat →
  0 ≤ limbs_val (take 8 l) < 2 ^ 256 ∧ 0 ≤ limbs_val (drop 8 l) < 2 ^ (32 * Z.of_nat (k - 8)) ∧
  limbs_val l = limbs_val (take 8 l) + 2 ^ 256 * limbs_val (drop 8 l).
Proof.
  intros Hok Hlen Hk.
  pose proof (limbs_val_range (take 8 l) ltac:(by apply Forall_take)) as R1.
  pose proof (limbs_val_range (drop 8 l) ltac:(by apply Forall_drop)) as R2.
  rewrite length_take, Hlen, Nat.min_l in R1 by lia. rewrite length_drop, Hlen in R2.
  split_and!; [lia..|]. apply (limbs_val_split l 8). lia.
Qed.

(** The last 258 bits and the final subtraction. *)
Lemma reduce_512_end (p : list Z) (p8 : Z) (r : list Z) (t : Z) :
  length p = 8%nat → limbs_ok p → 0 ≤ p8 ≤ 2 → reduce_258_256 (p ++ [p8]) = (r, t) →
  let s := secp256k1_scalar_reduce (Scalar r) (u32 (u64 (t + secp256k1_scalar_check_overflow (Scalar r)))) in
  scalar_ok s ∧ scalar_val s = (limbs_val p + 2 ^ 256 * p8) mod group_order.
Proof.
  intros Hpl Hpok Hp8 E3 s. unfold s.
  pose proof (limbs_val_range p Hpok) as Rp. rewrite Hpl in Rp.
  change (2 ^ (32 * Z.of_nat 8)) with (2 ^ 256) in Rp.
  apply reduce_258_256_spec in E3 as (Hr & Ht & Hrv); [|done|done|lia].
  assert (Hmod : (limbs_val p + 2 ^ 256 * p8) mod group_order =
    (scalar_val (Scalar r) + 2 ^ 256 * t) mod group_order).
  { rewrite Hrv, <- (Z_mod_plus_full (_ + order_complement * _) p8).
    apply (f_equal (λ x, x mod group_order)). unfold order_complement. ring. }
  rewrite Hmod. destruct (final_reduction (Scalar r) t Hr) as (Ho & Hfin); [lia| |].
  { rewrite Hrv. change order_complement with 0x14551231950B75FC4402DA1732FC9BEBF.
    unfold group_order. lia. }
  rewrite Ho in *. pose proof (truth_range (group_order <=? scalar_val (Scalar r) + 2 ^ 256 * t)).
  rewrite u64_small, u32_small by lia. done.
Qed.

(** The reduction of any number of 512 bits. *)
Lemma reduce_512_spec (l : list Z) (z : Z) :
  product_limbs l z →
  scalar_ok (secp256k1_scalar_reduce_512 l) ∧
  scalar_val (secp256k1_scalar_reduce_512 l) = z mod group_order.
Proof.
  intros Hl. pose proof Hl as (Hlen & Hok & <-). unfold secp256k1_scalar_reduce_512.
  destruct (acc_run (reduce_512_385_ops l) _) as [m c] eqn:E1.
  destruct (reduce_512_385 l _ m c Hl E1) as (Hml & Hmok & Hmv). remember (m ++ [c0 c]) as M eqn:EM.
  rewrite <- (fold_mod l (limbs_val M) ltac:(lia) Hmv).
  destruct (halves_range l 16 Hok Hlen ltac:(lia)) as (Rl & Rh & _).
  destruct (halves_range M 13 Hmok Hml ltac:(lia)) as (Ml & Mh & HM).
  pose proof (high_limbs_13 M Hml Hmok) as Htop. pose proof (lookup_limb M 12 Hmok) as Hm12. cbn beta in Hm12.
  change order_complement with 0x14551231950B75FC4402DA1732FC9BEBF in *.
  change (2 ^ (32 * Z.of_nat (16 - 8))) with (2 ^ 256) in *. clear Mh.
  assert (Hbnd : limbs_val (drop 8 M) ≤ 0x14551231950B75FC4402DA1732FC9BEBF) by lia.
  destruct (acc_run (reduce_385_258_ops M) _) as [p c'] eqn:E2.
  destruct (reduce_385_258 M p c' Hml Hmok ltac:(lia) E2) as (Hpl & Hpok & Hc & Hpv).
  rewrite <- (fold_mod M _ ltac:(lia) Hpv).
  pose proof (limbs_val_range p Hpok) as Rp. rewrite Hpl in Rp.
  change (2 ^ (32 * Z.of_nat 8)) with (2 ^ 256) in Rp.
  change order_complement with 0x14551231950B75FC4402DA1732FC9BEBF in *.
  rewrite (u32_small (c0 c' + _)) by lia. set (p8 := c0 c' + M !!! 12%nat) in *.
  assert (0 ≤ p8 ≤ 2) by lia.
  destruct (reduce_258_256 (p ++ [p8])) as [r t] eqn:E3. by apply reduce_512_end.
Qed.

Lemma mul_spec (a b : secp256k1_scalar) :
  scalar_wf a → scalar_wf b →
  scalar_ok (secp256k1_scalar_mul a b) ∧
  scalar_val (secp256k1_scalar_mul a b) = (scalar_val a * scalar_val b) mod group_order.
Proof. intros Ha Hb. by apply reduce_512_spec, mul_512_product. Qed.

Lemma sqr_spec (a : secp256k1_scalar) :
  scalar_wf a →
  scalar_ok (secp256k1_scalar_sqr a) ∧
  scalar_val (secp256k1_scalar_sqr a) = (scalar_val a * scalar_val a) mod group_order.
Proof. intros Ha. by apply reduce_512_spec, sqr_512_product. Qed.

(** * Inverse *)

(** [y] is a power of [x]. *)
Definition is_power (x y : secp256k1_scalar) (e : Z) : Prop :=
  scalar_ok y ∧ 0 ≤ e ∧ scalar_val y = scalar_val x ^ e mod group_order.

#[local] Opaque secp256k1_scalar_mul secp256k1_scalar_sqr scalar_val.

Section Powers.
Context (x : secp256k1_scalar) (Hx : scalar_ok x).

Lemma power_self : is_power x x 1.
Proof.
  split_and!; [done|lia|]. rewrite Z.pow_1_r. symmetry. apply Z.mod_small.
  destruct Hx as [Hwf ?]. pose proof (scalar_wf_val x Hwf). lia.
Qed.

Lemma power_mul (y z : secp256k1_scalar) (e f : Z) :
  is_power x y e → is_power x z f → is_power x (secp256k1_scalar_mul y z) (e + f).
Proof.
  intros ([Hy _] & He & Vy) ([Hz _] & Hf & Vz). destruct (mul_spec y z Hy Hz) as [Hok Hv].
  split_and!; [done|lia|]. rewrite Hv, Vy, Vz, Z.pow_add_r by lia. symmetry. apply Zmult_mod.
Qed.

Lemma power_sqr (y : secp256k1_scalar) (e : Z) :
  is_power x y e → is_power x (secp256k1_scalar_sqr y) (2 * e).
Proof.
  intros ([Hy _] & He & Vy). destruct (sqr_spec y Hy) as [Hok Hv].
  split_and!; [done|lia|]. rewrite Hv, Vy. replace (2 * e) with (e + e) by lia.
  rewrite Z.pow_add_r by lia. symmetry. apply Zmult_mod.
Qed.

Lemma power_sqr_times (n : nat) (y : secp256k1_scalar) (e : Z) :
  is_power x y e → is_power x (sqr_times n y) (2 ^ Z.of_nat n * e).
Proof.
  intros Hy. unfold sqr_times. induction n as [|n IH].
  - replace (2 ^ Z.of_nat 0 * e) with e by lia. exact Hy.
  - rewrite Nat.iter_succ. apply power_sqr in IH.
    replace (2 ^ Z.of_nat (S n) * e) with (2 * (2 ^ Z.of_nat n * e)); [exact IH|].
    rewrite Nat2Z.inj_succ, Z.pow_succ_r by lia. ring.
Qed.

Lemma power_eq (y : secp256k1_scalar) (e f : Z) : is_power x y e → e = f → is_power x y f.
Proof. by intros ? <-. Qed.

Lemma power_let (v : secp256k1_scalar) (body : secp256k1_scalar → secp256k1_scalar) (e f : Z) :
  is_power x v e → (∀ y, is_power x y e → is_power x (body y) f) →
  is_power x (let y := v in body y) f.
Proof. intros Hv Hbody. by apply Hbody. Qed.

(** Proves that a squaring or a product of known powers is a power. *)
Ltac power :=
  lazymatch goal with
  | |- is_power _ (secp256k1_scalar_mul ?a ?b) _ =>
      match goal with
      | Ha : is_power _ a ?e, Hb : is_power _ b ?f |- _ => exact (power_mul a b e f Ha Hb)
      end
  | Ha : is_power _ ?a ?e |- is_power _ (secp256k1_scalar_sqr ?a) _ => exact (power_sqr a e Ha)
  | Ha : is_power _ ?a ?e |- is_power _ (sqr_times ?n ?a) _ => exact (power_sqr_times n a e Ha)
  | Ha : is_power _ ?a ?e |- is_power _ ?a _ => exact Ha
  end.

(** The chain of squarings and products ends at the exponent [order - 2]. *)
Lemma inverse_power : is_power x (secp256k1_scalar_inverse x) (group_order - 2).
Proof.
  pose proof power_self as H. cbv beta delta [secp256k1_scalar_inverse].
  repeat match goal with
  | |- is_power x (let y := ?v in @?b y) ?f =>
      refine (power_let v b _ f ltac:(power) _);
      let y := fresh "y" in let H := fresh "H" in
      intros y H; match type of H with is_power _ _ ?e =>
        let e' := eval vm_compute in e in change e with e' in H end; cbv beta
  end.
  eapply power_eq; [power|]. vm_compute. reflexivity.
Qed.
End Powers.
