(* ===== verification/Secp256k1ScalarOps.v ===== *)
(** The remaining operations on scalars: negation, comparisons, bits, shifts and
    byte strings. *)

From Stdlib Require Import ZArith Lia Strings.Byte Zdivisibility ZmodInv.
From stdpp Require Import base gmap list fin_maps numbers.
From S2P Require Import Prelude Primality Secp256k1Scalar Secp256k1ScalarProofs.

(** * Tests *)

Lemma is_zero_spec (a : secp256k1_scalar) :
  scalar_wf a → secp256k1_scalar_is_zero a = truth (scalar_val a =? 0).
Proof.
  intros Ha. open_scalar a. unfold secp256k1_scalar_is_zero, scalar_val. read_limbs.
  rewrite !lor_eqb_0. f_equal. apply eq_true_iff_eq. rewrite !andb_true_iff, !Z.eqb_eq.
  cbn [limbs_val]. lia.
Qed.

Lemma is_one_spec (a : secp256k1_scalar) :
  scalar_wf a → secp256k1_scalar_is_one a = truth (scalar_val a =? 1).
Proof.
  intros Ha. open_scalar a. unfold secp256k1_scalar_is_one, scalar_val. read_limbs.
  rewrite !lor_eqb_0, lxor_eq_0_eqb. f_equal. apply eq_true_iff_eq.
  rewrite !andb_true_iff, !Z.eqb_eq. cbn [limbs_val]. lia.
Qed.

Lemma scalar_eq_spec (a b : secp256k1_scalar) :
  scalar_wf a → scalar_wf b → secp256k1_scalar_eq a b = truth (scalar_val a =? scalar_val b).
Proof.
  intros Ha Hb. pose proof (scalar_val_inj a b Ha Hb) as Hinj.
  open_scalar a. open_scalar b. unfold secp256k1_scalar_eq. read_limbs.
  rewrite !lor_eqb_0, !lxor_eq_0_eqb. f_equal. apply eq_true_iff_eq.
  rewrite !andb_true_iff, !Z.eqb_eq. split.
  - intros (((((((-> & ->) & ->) & ->) & ->) & ->) & ->) & ->). reflexivity.
  - intros E. apply Hinj in E. by simplify_eq.
Qed.

Lemma is_even_spec (a : secp256k1_scalar) :
  scalar_wf a → secp256k1_scalar_is_even a = truth (Z.even (scalar_val a)).
Proof.
  intros Ha. open_scalar a. unfold secp256k1_scalar_is_even, scalar_val. read_limbs.
  cbn [limbs_val]. f_equal. rewrite Z.even_add_mul_even by (by exists (2 ^ 31)).
  change 1 with (Z.ones 1). rewrite Z.land_ones by lia. rewrite Zmod_even. by destruct (Z.even x).
Qed.

(** * Negation *)

Lemma u32_lnot (x : Z) : 0 ≤ x < 2 ^ 32 → u32 (Z.lnot x) = 2 ^ 32 - 1 - x.
Proof.
  intros Hx. unfold u32, wrap, Z.lnot. symmetry. apply (Z.mod_unique_pos _ _ (-1)); lia.
Qed.

Lemma lxor_ones (x : Z) : 0 ≤ x < 2 ^ 32 → Z.lxor x 0xFFFFFFFF = 2 ^ 32 - 1 - x.
Proof.
  intros Hx. rewrite <- u32_lnot by done. unfold u32, wrap. rewrite <- Z.land_ones by lia.
  change 0xFFFFFFFF with (Z.ones 32). apply Z.bits_inj'. intros n Hn.
  rewrite Z.lxor_spec, Z.land_spec, Z.lnot_spec by done.
  destruct (decide (n < 32)).
  - rewrite Z.ones_spec_low by lia. by rewrite xorb_true_r, andb_true_r.
  - rewrite Z.ones_spec_high by lia. rewrite xorb_false_r, andb_false_r.
    rewrite <- (Z.mod_small x (2 ^ 32)) by lia. apply Z.mod_pow2_bits_high. lia.
Qed.

Lemma land_ones32 (x : Z) : 0 ≤ x < 2 ^ 32 → Z.land x 0xFFFFFFFF = x.
Proof. intros. rewrite land_mask32. by apply Z.mod_small. Qed.

(** A chain whose limbs are all masked out. *)
Lemma carry_chain_masked (t : Z) (terms : list Z) :
  (carry_chain 0 t terms).1 = replicate (length terms) 0.
Proof.
  revert t. induction terms as [|y terms IH]; intros t; cbn [carry_chain length replicate]; [done|].
  specialize (IH (Z.shiftr (u64 (t + y)) 32)). destruct (carry_chain _ _ _) as [r t'].
  cbn [fst] in *. by rewrite IH, Z.land_0_r.
Qed.

Lemma zero_scalar : scalar_ok (Scalar (replicate 8 0)) ∧ scalar_val (Scalar (replicate 8 0)) = 0.
Proof. split; [|done]. split; [|done]. split; [done|]. repeat constructor; lia. Qed.

(** The value of the chains of the two negations. *)
Lemma negated (r : list Z) (t v : Z) :
  scalar_wf (Scalar r) → 0 ≤ t → scalar_val (Scalar r) + 2 ^ 256 * t = 2 ^ 256 + group_order - v →
  0 < v < group_order →
  scalar_ok (Scalar r) ∧ scalar_val (Scalar r) = (- v) mod group_order.
Proof.
  intros Hwf Ht Hv Hr. pose proof (scalar_wf_val _ Hwf) as Hb.
  assert (t = 1) as -> by (unfold group_order in *; lia).
  split; [split; [done|lia]|]. apply (Z.mod_unique_pos _ _ (-1)); lia.
Qed.

Ltac order_words :=
  unfold SECP256K1_N_0, SECP256K1_N_1, SECP256K1_N_2, SECP256K1_N_3, SECP256K1_N_4,
    SECP256K1_N_5, SECP256K1_N_6, SECP256K1_N_7 in *.

Lemma negate_spec (a : secp256k1_scalar) :
  scalar_ok a →
  scalar_ok (secp256k1_scalar_negate a) ∧
  scalar_val (secp256k1_scalar_negate a) = (- scalar_val a) mod group_order.
Proof.
  intros [Ha Hlt]. pose proof (scalar_wf_val a Ha) as Hr. unfold secp256k1_scalar_negate.
  rewrite is_zero_spec by done. destruct (Z.eqb_spec (scalar_val a) 0) as [E|E]; cbn [truth Z.eqb].
  - change (u32 (0xFFFFFFFF * 0)) with 0. rewrite carry_chain_masked, E. cbn [length].
    change ((- 0) mod group_order) with 0. apply zero_scalar.
  - change (u32 (0xFFFFFFFF * 1)) with 0xFFFFFFFF.
    destruct (carry_chain _ _ _) as [r t] eqn:Ec. cbn [fst].
    apply carry_chain_scalar in Ec as (Hwf & Ht & Hv); [|done|].
    + apply (negated r t); [done|lia| |lia]. rewrite Hv. clear Hv.
      open_scalar a. unfold scalar_val. read_limbs. order_words.
      rewrite !u32_lnot, (u64_small (_ + 0xD0364141)), !u64_small by lia. cbn [limbs_val]. unfold group_order. lia.
    + open_scalar a. read_limbs. order_words. rewrite !u32_lnot, (u64_small (_ + 0xD0364141)), !u64_small by lia.
      repeat constructor; lia.
Qed.

(** [secp256k1_scalar_cond_negate] negates if its flag is set, and returns the sign. *)
Lemma cond_negate_spec (a : secp256k1_scalar) (flag : Z) :
  scalar_ok a →
  let sign := if flag =? 0 then 1 else -1 in
  scalar_ok (secp256k1_scalar_cond_negate a flag).1 ∧
  (secp256k1_scalar_cond_negate a flag).2 = sign ∧
  scalar_val (secp256k1_scalar_cond_negate a flag).1 = (sign * scalar_val a) mod group_order.
Proof.
  intros [Ha Hlt] sign. pose proof (scalar_wf_val a Ha) as Hr.
  unfold secp256k1_scalar_cond_negate, sign.
  rewrite is_zero_spec by done. destruct (Z.eqb_spec (scalar_val a) 0) as [E|E]; cbn [truth Z.eqb fst snd].
  { change (u32 (0xFFFFFFFF * 0)) with 0. rewrite carry_chain_masked, E. cbn [length].
    destruct zero_scalar as [Hz ->].
    split_and!; [done|by destruct (flag =? 0)|by destruct (flag =? 0)]. }
  change (u32 (0xFFFFFFFF * 1)) with 0xFFFFFFFF.
  destruct (flag =? 0); cbn [truth].
  - change (u32 (1 - 1)) with 0. rewrite !Z.land_0_r, !Z.lxor_0_r.
    destruct (carry_chain _ _ _) as [r t] eqn:Ec. cbn [fst].
    open_scalar a. revert Ec. read_limbs. intros Ec. rewrite !u64_small in Ec by lia.
    apply carry_chain_scalar in Ec as (Hwf & Ht & Hv); [|done|repeat constructor; lia].
    assert (Hv' : scalar_val (Scalar r) = scalar_val (Scalar [x; x0; x1; x2; x3; x4; x5; x6])).
    { pose proof (scalar_wf_val _ Hwf). unfold scalar_val in *. cbn [d limbs_val] in *. lia. }
    split_and!; [split; [done|lia]|done|]. rewrite Hv', Z.mul_1_l. symmetry. apply Z.mod_small. lia.
  - change (u32 (0 - 1)) with 0xFFFFFFFF.
    destruct (carry_chain _ _ _) as [r t] eqn:Ec. cbn [fst].
    apply carry_chain_scalar in Ec as (Hwf & Ht & Hv); [|done|].
    + replace (-1 * scalar_val a) with (- scalar_val a) by lia.
      destruct (negated r t (scalar_val a)) as [Hok Hval]; [done|lia| |lia|done].
      rewrite Hv. clear Hv.
      open_scalar a. unfold scalar_val. read_limbs. order_words.
      rewrite !(u32_small (_ + 1)), !land_ones32, !lxor_ones, !u64_small by lia.
      cbn [limbs_val]. unfold group_order. lia.
    + open_scalar a. read_limbs. order_words.
      rewrite !(u32_small (_ + 1)), !land_ones32, !lxor_ones, !u64_small by lia.
      repeat constructor; lia.
Qed.

(** * Bits *)

Lemma testbit_limb (x v n : Z) :
  0 ≤ x < 2 ^ 32 → 0 ≤ n →
  Z.testbit (x + 2 ^ 32 * v) n = if n <? 32 then Z.testbit x n else Z.testbit v (n - 32).
Proof.
  intros Hx Hn. destruct (Z.ltb_spec n 32).
  - rewrite <- (Z.mod_pow2_bits_low _ 32 n) by lia. f_equal.
    rewrite (Z.mul_comm _ v), Z_mod_plus_full. by apply Z.mod_small.
  - replace n with (n - 32 + 32) at 1 by lia. rewrite <- Z.div_pow2_bits by lia. f_equal.
    rewrite (Z.mul_comm _ v), Z.div_add, Z.div_small by lia. lia.
Qed.

(** A limb has the bits of the number at its place. *)
Lemma limbs_testbit (l : list Z) (i : nat) (j : Z) :
  limbs_ok l → (i < length l)%nat → 0 ≤ j < 32 →
  Z.testbit (limbs_val l) (32 * Z.of_nat i + j) = Z.testbit (l !!! i) j.
Proof.
  intros Hl. revert i. induction Hl as [|x l Hx _ IH]; intros i Hi Hj; [simpl in Hi; lia|].
  cbn [limbs_val]. rewrite testbit_limb by lia. destruct i as [|i].
  - destruct (Z.ltb_spec (32 * Z.of_nat 0 + j) 32); [f_equal; lia|lia].
  - destruct (Z.ltb_spec (32 * Z.of_nat (S i) + j) 32); [lia|].
    simpl in Hi. change ((x :: l) !!! S i) with (l !!! i). rewrite <- (IH i) by lia. f_equal. lia.
Qed.

(** The bits of a limb end at 32. *)
Lemma limb_bits_high (x n : Z) : 0 ≤ x < 2 ^ 32 → 32 ≤ n → Z.testbit x n = false.
Proof. intros Hx Hn. rewrite <- (Z.mod_small x (2 ^ 32)) by done. apply Z.mod_pow2_bits_high. lia. Qed.

(** An offset in a scalar is a limb and a place in it. *)
Lemma offset_split (offset : Z) :
  0 ≤ offset →
  offset = 32 * Z.of_nat (Z.to_nat (Z.shiftr offset 5)) + Z.land offset 0x1F ∧
  0 ≤ Z.land offset 0x1F < 32 ∧ Z.shiftr offset 5 = offset / 32 ∧ 0 ≤ offset / 32.
Proof.
  intros Ho. change 0x1F with (Z.ones 5). rewrite Z.land_ones, Z.shiftr_div_pow2 by lia.
  change (2 ^ 5) with 32. rewrite Z2Nat.id by zdiv. zdiv.
Qed.

(** Which bits [secp256k1_scalar_get_bits] reads; with [count = 31] the shift
    [1 << count] would reach the sign bit. *)
Lemma get_bits_spec (a : secp256k1_scalar) (offset count : Z) :
  scalar_wf a → 0 ≤ offset < 256 → 0 < count < 31 → offset mod 32 + count ≤ 32 →
  secp256k1_scalar_get_bits a offset count = (scalar_val a / 2 ^ offset) mod 2 ^ count.
Proof.
  intros [Hlen Hok] Ho Hc Hfit. destruct (offset_split offset ltac:(lia)) as (Hs & Hr & _).
  unfold secp256k1_scalar_get_bits. rewrite Z.shiftl_1_l.
  assert (2 ^ count ≤ 2 ^ 30) by (apply Z.pow_le_mono_r; lia). assert (0 < 2 ^ count) by lia.
  rewrite (s32_small (2 ^ count)), (s32_small (_ - 1)), u32_small by lia.
  replace (2 ^ count - 1) with (Z.ones count) by (rewrite Z.ones_equiv; lia).
  set (s := Z.land offset 0x1F) in *. set (i := Z.to_nat (Z.shiftr offset 5)) in *.
  apply Z.bits_inj'. intros n Hn. rewrite Z.land_spec, Z.shiftr_spec by lia.
  destruct (decide (n < count)).
  - rewrite Z.ones_spec_low, andb_true_r, Z.mod_pow2_bits_low, Z.div_pow2_bits by lia.
    unfold limb, scalar_val. assert (offset mod 32 = s) by zdiv.
    rewrite <- limbs_testbit by (done || lia). f_equal. lia.
  - by rewrite Z.ones_spec_high, andb_false_r, Z.mod_pow2_bits_high by lia.
Qed.

Lemma get_bits_var_spec (a : secp256k1_scalar) (offset count : Z) :
  scalar_wf a → 0 ≤ offset → 0 < count < 31 → offset + count ≤ 256 →
  secp256k1_scalar_get_bits_var a offset count = (scalar_val a / 2 ^ offset) mod 2 ^ count.
Proof.
  intros Ha Ho Hc Hfit. destruct (offset_split offset Ho) as (Hs & Hr & Hd & Hd0).
  unfold secp256k1_scalar_get_bits_var. rewrite (u32_small (offset + _)), (u32_small (_ - 1)) by lia.
  destruct (Z.eqb_spec (Z.shiftr (offset + count - 1) 5) (Z.shiftr offset 5)) as [E|E].
  - apply get_bits_spec; [done|lia|done|]. rewrite !Z.shiftr_div_pow2 in E by lia. zdiv.
  - rewrite Hd in *. destruct Ha as [Hlen Hok]. rewrite Z.shiftl_1_l.
    assert (2 ^ count ≤ 2 ^ 30) by (apply Z.pow_le_mono_r; lia). assert (0 < 2 ^ count) by lia.
    rewrite (u32_small (2 ^ count)), (u32_small (_ - 1)) by lia.
    replace (2 ^ count - 1) with (Z.ones count) by (rewrite Z.ones_equiv; lia).
    set (s := Z.land offset 0x1F) in *. replace (Z.to_nat (offset / 32 + 1)) with (S (Z.to_nat (offset / 32))) by lia.
    set (i := Z.to_nat (offset / 32)) in *.
    pose proof (limb_range a i (conj Hlen Hok)) as Hi. pose proof (limb_range a (S i) (conj Hlen Hok)) as Hi'.
    apply Z.bits_inj'. intros n Hn. rewrite Z.land_spec, Z.lor_spec, Z.shiftr_spec by lia.
    destruct (decide (n < count)).
    + rewrite Z.ones_spec_low, andb_true_r, Z.mod_pow2_bits_low, Z.div_pow2_bits by lia.
      unfold u32, wrap. rewrite Z.mod_pow2_bits_low, Z.shiftl_spec by lia. unfold scalar_val.
      destruct (decide (n + s < 32)).
      * rewrite (Z.testbit_neg_r _ (n - _)), orb_false_r by lia.
        unfold limb. rewrite <- limbs_testbit by (done || lia). f_equal. lia.
      * rewrite (limb_bits_high (limb a i)), orb_false_l by lia.
        unfold limb. rewrite <- limbs_testbit by (done || lia). f_equal. lia.
    + by rewrite Z.ones_spec_high, andb_false_r, Z.mod_pow2_bits_high by lia.
Qed.

(** The words that [secp256k1_scalar_cadd_bit] adds, together. *)
Lemma single_bit (q s : Z) :
  0 ≤ q → 0 ≤ s < 32 →
  limbs_val (map (λ i, truth (q =? Z.of_nat i) * 2 ^ s) (seq 0 8)) =
  truth (q <? 8) * 2 ^ (32 * q + s).
Proof.
  intros Hq Hs. rewrite Z.pow_add_r by lia. destruct (Z.ltb_spec q 8) as [H|H].
  - assert (q = 0 ∨ q = 1 ∨ q = 2 ∨ q = 3 ∨ q = 4 ∨ q = 5 ∨ q = 6 ∨ q = 7) as Hcases by lia.
    repeat destruct Hcases as [->|Hcases]; [..|subst q]; cbn [seq map truth Z.eqb limbs_val Z.of_nat]; simpl; lia.
  - assert (Hne : ∀ i, (i < 8)%nat → truth (q =? Z.of_nat i) * 2 ^ s = 0).
    { intros i Hi. destruct (Z.eqb_spec q (Z.of_nat i)); cbn [truth]; lia. }
    cbn [seq map limbs_val]. rewrite !Hne by lia. done.
Qed.

(** Adding a bit, if the flag is set and the sum fits. *)
Lemma cadd_bit_spec (a : secp256k1_scalar) (bit flag : Z) :
  scalar_wf a → 0 ≤ bit < 256 → 0 ≤ flag ≤ 1 → scalar_val a + flag * 2 ^ bit < 2 ^ 256 →
  scalar_wf (secp256k1_scalar_cadd_bit a bit flag) ∧
  scalar_val (secp256k1_scalar_cadd_bit a bit flag) = scalar_val a + flag * 2 ^ bit.
Proof.
  intros Ha Hbit Hflag Hfit. unfold secp256k1_scalar_cadd_bit.
  assert (Hu : u32 (bit + Z.land (u32 (u32 flag - 1)) 0x100) = bit + 256 * (1 - flag)).
  { assert (flag = 0 ∨ flag = 1) as [->| ->] by lia.
    - change (Z.land (u32 (u32 0 - 1)) 0x100) with 256. apply u32_small. lia.
    - change (Z.land (u32 (u32 1 - 1)) 0x100) with 0. apply u32_small. lia. }
  rewrite Hu. clear Hu. set (b := bit + 256 * (1 - flag)) in *.
  destruct (offset_split b ltac:(lia)) as (Hs & Hr & Hd & Hd0). rewrite Hd in *.
  set (s := Z.land b 0x1F) in *. set (q := b / 32) in *. rewrite Z2Nat.id in Hs by lia.
  assert (Hp : 0 < 2 ^ s < 2 ^ 32) by (split; [lia|apply Z.pow_lt_mono_r; lia]).
  set (w := λ i, truth (q =? Z.of_nat i) * 2 ^ s).
  assert (Hx : ∀ i, u32 (Z.shiftl (truth (q =? Z.of_nat i)) s) = w i ∧ 0 ≤ w i < 2 ^ 32).
  { intros i. unfold w. rewrite Z.shiftl_mul_pow2 by lia.
    destruct (q =? _); cbn [truth]; split; [apply u32_small| |apply u32_small|]; lia. }
  assert (Hsum : limbs_val (map w (seq 0 8)) = flag * 2 ^ bit).
  { unfold w. rewrite single_bit by lia. rewrite <- Hs. unfold b in *.
    assert (flag = 0 ∨ flag = 1) as [->| ->] by lia.
    - destruct (Z.ltb_spec q 8); cbn [truth]; lia.
    - destruct (Z.ltb_spec q 8); cbn [truth]; [f_equal; f_equal; lia|lia]. }
  rewrite !(λ i, proj1 (Hx i)). destruct (carry_chain _ _ _) as [r t] eqn:E. cbn [fst].
  pose proof (λ i, proj2 (Hx i)) as Hw. clearbody w. clear Hx.
  cbn [seq map] in Hsum.
  pose proof (Hw 0%nat); pose proof (Hw 1%nat); pose proof (Hw 2%nat); pose proof (Hw 3%nat).
  pose proof (Hw 4%nat); pose proof (Hw 5%nat); pose proof (Hw 6%nat); pose proof (Hw 7%nat).
  open_scalar a. revert E. read_limbs. intros E. rewrite !u64_small in E by lia.
  apply carry_chain_scalar in E as (Hwf & Ht & Hv); [|done|repeat constructor; lia].
  pose proof (scalar_wf_val _ Hwf). split; [done|].
  unfold scalar_val in *. cbn [d limbs_val] in *. lia.
Qed.

(** * Shifts *)

(** Eight words that are the parts of a number are a scalar with its value. *)
Lemma scalar_of_words (l : list Z) (z : Z) :
  0 ≤ z < 2 ^ 256 → length l = 8%nat →
  (∀ i, (i < 8)%nat → l !!! i = (z / 2 ^ (32 * Z.of_nat i)) mod 2 ^ 32) →
  scalar_wf (Scalar l) ∧ scalar_val (Scalar l) = z.
Proof.
  intros Hz Hlen Hl. do 9 (destruct l as [|? l]; try done).
  pose proof (Hl 0%nat ltac:(lia)) as E0. pose proof (Hl 1%nat ltac:(lia)) as E1.
  pose proof (Hl 2%nat ltac:(lia)) as E2. pose proof (Hl 3%nat ltac:(lia)) as E3.
  pose proof (Hl 4%nat ltac:(lia)) as E4. pose proof (Hl 5%nat ltac:(lia)) as E5.
  pose proof (Hl 6%nat ltac:(lia)) as E6. pose proof (Hl 7%nat ltac:(lia)) as E7. clear Hl.
  cbn in E0, E1, E2, E3, E4, E5, E6, E7.
  destruct (scalar_of_wf z Hz) as [Hwf Hval].
  replace (Scalar _) with (scalar_of z); [done|]. unfold scalar_of. cbn [limbs_of].
  rewrite !Z.div_div by lia. subst. rewrite Z.div_1_r. done.
Qed.

Lemma limbs_val_drop (l : list Z) (i : nat) :
  limbs_ok l → limbs_val l / 2 ^ (32 * Z.of_nat i) = limbs_val (drop i l).
Proof.
  intros Hl. destruct (decide (i ≤ length l)%nat) as [Hi|Hi].
  - rewrite (limbs_val_split l i Hi).
    pose proof (limbs_val_range (take i l) ltac:(by apply Forall_take)) as H.
    rewrite length_take, Nat.min_l in H by lia.
    rewrite (Z.mul_comm (2 ^ _)), Z.div_add, Z.div_small by lia. lia.
  - rewrite drop_ge by lia. simpl. apply Z.div_small.
    pose proof (limbs_val_range l Hl). split; [lia|].
    apply (Z.lt_le_trans _ (2 ^ (32 * zlen l))); [lia|]. apply Z.pow_le_mono_r; lia.
Qed.

Lemma drop_limb (l : list Z) (i : nat) :
  (i < length l)%nat → limbs_val (drop i l) = l !!! i + 2 ^ 32 * limbs_val (drop (S i) l).
Proof.
  intros Hi. destruct (lookup_lt_is_Some_2 l i Hi) as [x Hx].
  by rewrite (drop_S l x i Hx), (list_lookup_total_correct _ _ _ Hx).
Qed.

(** A word shifted right, with the low bits of the next one above it. *)
Lemma shr_word (x y w n : Z) :
  0 < n < 32 → 0 ≤ x < 2 ^ 32 → 0 ≤ y < 2 ^ 32 →
  u32 (Z.shiftr x n + u32 (Z.shiftl y (32 - n))) = ((x + 2 ^ 32 * (y + 2 ^ 32 * w)) / 2 ^ n) mod 2 ^ 32.
Proof.
  intros Hn Hx Hy. rewrite Z.shiftr_div_pow2, Z.shiftl_mul_pow2 by lia.
  unfold u32, wrap. rewrite Zplus_mod_idemp_r.
  replace (x + 2 ^ 32 * (y + 2 ^ 32 * w)) with (x + (y + 2 ^ 32 * w) * 2 ^ (32 - n) * 2 ^ n).
  - rewrite Z.div_add by lia.
    replace (x / 2 ^ n + (y + 2 ^ 32 * w) * 2 ^ (32 - n)) with
      (x / 2 ^ n + y * 2 ^ (32 - n) + (w * 2 ^ (32 - n)) * 2 ^ 32) by ring.
    by rewrite Z_mod_plus_full.
  - rewrite <- Z.mul_assoc, <- Z.pow_add_r by lia. replace (32 - n + n) with 32 by lia. ring.
Qed.

Lemma and_regroup (A B C : Prop) : A ∧ B → C → A ∧ B ∧ C.
Proof. tauto. Qed.

Lemma shr_int_spec (a : secp256k1_scalar) (n : Z) :
  scalar_wf a → 0 < n < 16 →
  scalar_wf (secp256k1_scalar_shr_int a n).1 ∧
  scalar_val (secp256k1_scalar_shr_int a n).1 = scalar_val a / 2 ^ n ∧
  (secp256k1_scalar_shr_int a n).2 = scalar_val a mod 2 ^ n.
Proof.
  intros Ha Hn. pose proof (scalar_wf_val a Ha) as Hr. pose proof Ha as [Hlen Hok].
  assert (0 < 2 ^ n ≤ 2 ^ 16) by (split; [lia|apply Z.pow_le_mono_r; lia]).
  unfold secp256k1_scalar_shr_int. cbn [fst snd]. apply and_regroup.
  - apply scalar_of_words; [split; [apply Z.div_pos; lia|]|done|].
    { apply Z.div_lt_upper_bound; lia. }
    intros i Hi. rewrite Z.div_div, Z.mul_comm, <- Z.div_div by lia.
    unfold scalar_val. rewrite limbs_val_drop by done.
    assert (Hw : i ≠ 7%nat → u32 (Z.shiftr (limb a i) n + u32 (Z.shiftl (limb a (S i)) (32 - n))) =
      (limbs_val (drop i (d a)) / 2 ^ n) mod 2 ^ 32).
    { intros. rewrite !drop_limb by lia. apply shr_word; [lia|apply limb_range, Ha..]. }
    do 7 (destruct i as [|i]; [by apply Hw|]). assert (i = 0%nat) as -> by lia.
    rewrite drop_limb, drop_ge by lia. cbn [limbs_val]. rewrite Z.mul_0_r, Z.add_0_r.
    change (Z.shiftr (limb a 7) n = (limb a 7 / 2 ^ n) mod 2 ^ 32).
    pose proof (limb_range a 7 Ha). rewrite Z.shiftr_div_pow2 by lia. rewrite Z.mod_small; [done|].
    split; [apply Z.div_pos; lia|apply Z.div_lt_upper_bound; nia].
  - rewrite Z.shiftl_1_l, s32_small by lia.
    replace (2 ^ n - 1) with (Z.ones n) by (rewrite Z.ones_equiv; lia).
    rewrite Z.land_ones by lia. unfold scalar_val. rewrite <- (drop_0 (d a)), drop_limb by lia.
    replace (2 ^ 32) with (2 ^ (32 - n) * 2 ^ n) by (rewrite <- Z.pow_add_r by lia; f_equal; lia).
    rewrite <- Z.mul_assoc, (Z.mul_comm (2 ^ n)), Z.mul_assoc, Z_mod_plus_full. done.
Qed.

(** A word of a shifted product: the bits of two limbs, as far as there are. *)
Lemma shift_word (l : list Z) (shift : Z) (i : nat) :
  length l = 16%nat → limbs_ok l → 256 ≤ shift → (i < 8)%nat →
  let limbs := Z.to_nat (Z.shiftr shift 5) in
  let low := Z.land shift 0x1F in
  (if shift <? 512 - 32 * Z.of_nat i then
     Z.lor (Z.shiftr (l !!! (i + limbs)%nat) low)
       (if (shift <? 480 - 32 * Z.of_nat i) && negb (low =? 0)
        then u32 (Z.shiftl (l !!! (S i + limbs)%nat) (u32 (32 - low))) else 0)
   else 0) = (limbs_val l / 2 ^ shift / 2 ^ (32 * Z.of_nat i)) mod 2 ^ 32.
Proof.
  intros Hlen Hok Hshift Hi limbs low.
  destruct (offset_split shift ltac:(lia)) as (Hs & Hr & _). fold limbs low in Hs, Hr.
  rewrite Z.div_div, <- Z.pow_add_r by lia. pose proof (limbs_val_range l Hok) as Hv. rewrite Hlen in Hv.
  apply Z.bits_inj'. intros n Hn.
  assert (Hhigh : ∀ m, 512 ≤ m → Z.testbit (limbs_val l) m = false).
  { intros m Hm. rewrite <- (Z.mod_small _ (2 ^ 512)) by lia. apply Z.mod_pow2_bits_high. lia. }
  destruct (decide (n < 32)) as [Hn'|Hn'].
  - rewrite Z.mod_pow2_bits_low, Z.div_pow2_bits by lia.
    destruct (Z.ltb_spec shift (512 - 32 * Z.of_nat i)); [|rewrite Z.testbit_0_l, Hhigh by lia; done].
    rewrite Z.lor_spec, Z.shiftr_spec by lia. destruct (decide (n + low < 32)) as [Hl|Hl].
    + rewrite <- limbs_testbit by (done || lia).
      replace (32 * Z.of_nat (i + limbs) + (n + low)) with (n + (shift + 32 * Z.of_nat i)) by lia.
      case_if; [|by rewrite Z.testbit_0_l, orb_false_r].
      unfold u32 at 1, wrap. rewrite (u32_small (32 - low)), Z.mod_pow2_bits_low, Z.shiftl_spec by lia.
      rewrite (Z.testbit_neg_r _ (n - _)), orb_false_r by lia. done.
    + rewrite (limb_bits_high (l !!! _)), orb_false_l by (apply lookup_limb, Hok || lia).
      destruct (Z.eqb_spec low 0); [lia|]. cbn [negb]. rewrite andb_true_r.
      destruct (Z.ltb_spec shift (480 - 32 * Z.of_nat i)); [|rewrite Z.testbit_0_l, Hhigh by lia; done].
      unfold u32 at 1, wrap. rewrite (u32_small (32 - low)), Z.mod_pow2_bits_low, Z.shiftl_spec by lia.
      rewrite <- limbs_testbit by (done || lia). f_equal. lia.
  - rewrite Z.mod_pow2_bits_high by lia. case_if; [|by rewrite Z.testbit_0_l].
    rewrite Z.lor_spec, Z.shiftr_spec by lia.
    rewrite (limb_bits_high (l !!! _)), orb_false_l by (apply lookup_limb, Hok || lia).
    case_if; [|by rewrite Z.testbit_0_l]. apply limb_bits_high; [apply u32_range|lia].
Qed.

(** Half of the last bit rounds. *)
Lemma div_round (v k : Z) :
  0 < k → 0 ≤ v → (v + 2 ^ (k - 1)) / 2 ^ k = v / 2 ^ k + (v / 2 ^ (k - 1)) mod 2.
Proof.
  intros Hk Hv. assert (Hp : 2 ^ k = 2 ^ (k - 1) * 2)
    by (rewrite Z.mul_comm, <- Z.pow_succ_r by lia; f_equal; lia).
  rewrite Hp, <- !Z.div_div by lia.
  replace (v + 2 ^ (k - 1)) with (v + 1 * 2 ^ (k - 1)) by lia. rewrite Z.div_add by lia. zdiv.
Qed.

Lemma mul_shift_var_spec (a b : secp256k1_scalar) (shift : Z) :
  scalar_wf a → scalar_wf b → 256 ≤ shift ≤ 512 →
  scalar_wf (secp256k1_scalar_mul_shift_var a b shift) ∧
  scalar_val (secp256k1_scalar_mul_shift_var a b shift) =
    (scalar_val a * scalar_val b + 2 ^ (shift - 1)) / 2 ^ shift.
Proof.
  intros Ha Hb Hshift. destruct (mul_512_product a b Ha Hb) as (Hlen & Hok & Hv).
  unfold secp256k1_scalar_mul_shift_var. set (l := secp256k1_scalar_mul_512 a b) in *.
  pose proof (scalar_wf_val a Ha). pose proof (scalar_wf_val b Hb).
  set (p := scalar_val a * scalar_val b) in *.
  assert (Hp : 0 ≤ p ≤ (2 ^ 256 - 1) * (2 ^ 256 - 1)) by (unfold p; nia).
  assert (Hpow : 2 ^ 256 ≤ 2 ^ shift) by (apply Z.pow_le_mono_r; lia).
  assert (Hq : 0 ≤ p / 2 ^ shift < 2 ^ 256 - 1).
  { split; [apply Z.div_pos; lia|]. apply Z.div_lt_upper_bound; [lia|]. nia. }
  match goal with |- context [Scalar ?r] => set (words := r) end.
  destruct (scalar_of_words words (p / 2 ^ shift)) as [Hwf Hval]; [lia|done| |].
  { intros i Hi. rewrite <- Hv, <- shift_word by (done || lia). unfold words.
    do 7 (destruct i as [|i]; [reflexivity|]). assert (i = 0%nat) as -> by lia.
    change (512 - 32 * Z.of_nat 7) with 288. change (480 - 32 * Z.of_nat 7) with 256.
    destruct (Z.ltb_spec shift 256); [lia|]. cbn [andb]. by rewrite Z.lor_0_r. }
  rewrite div_round by lia. rewrite u32_small by lia.
  destruct (offset_split (shift - 1) ltac:(lia)) as (Hs & Hr & Hd & Hd0).
  set (i := Z.to_nat (Z.shiftr (shift - 1) 5)) in *. set (s := Z.land (shift - 1) 0x1f) in *.
  assert (Hbit : Z.land (Z.shiftr (l !!! i) s) 1 = (p / 2 ^ (shift - 1)) mod 2).
  { rewrite (Z.land_ones _ 1 ltac:(lia) : Z.land _ 1 = _ mod 2). rewrite <- Hv, <- !Z.bit0_mod, !Z.shiftr_spec, Z.div_pow2_bits by lia.
    rewrite <- limbs_testbit by (done || lia). f_equal. f_equal. lia. }
  pose proof (Z.mod_pos_bound (p / 2 ^ (shift - 1)) 2 ltac:(lia)).
  destruct (cadd_bit_spec (Scalar words) 0 (Z.land (Z.shiftr (l !!! i) s) 1)) as [Hwf' Hval'];
    [done|lia|lia|lia|]. split; [done|]. rewrite Hval', Hval, Hbit. lia.
Qed.

(** * Byte strings *)

Lemma lor_shiftl (k a b : Z) : 0 ≤ k → 0 ≤ a < 2 ^ k → Z.lor a (Z.shiftl b k) = a + 2 ^ k * b.
Proof.
  intros Hk Ha. rewrite Z.shiftl_mul_pow2, (Z.mul_comm (2 ^ k)) by done.
  rewrite Z.add_nocarry_lxor, Z.lxor_lor; [done|..].
  all: apply Z.bits_inj'; intros n Hn; rewrite Z.land_spec, Z.testbit_0_l.
  all: destruct (decide (n < k)); [rewrite Z.mul_pow2_bits_low by done; by rewrite andb_false_r|].
  all: rewrite <- (Z.mod_small a (2 ^ k)) by done; rewrite Z.mod_pow2_bits_high by lia; done.
Qed.

Lemma be32_at_val (b : list byte) (i : nat) :
  be32_at b i = b2z (b !!! (i + 3)%nat) + 256 * (b2z (b !!! (i + 2)%nat) +
    256 * (b2z (b !!! (i + 1)%nat) + 256 * b2z (b !!! i))).
Proof.
  unfold be32_at. pose proof (b2z_range (b !!! (i + 3)%nat)). pose proof (b2z_range (b !!! (i + 2)%nat)).
  pose proof (b2z_range (b !!! (i + 1)%nat)).
  rewrite (lor_shiftl 8), (lor_shiftl 16), (lor_shiftl 24) by lia. lia.
Qed.

Lemma be32_at_range (b : list byte) (i : nat) : 0 ≤ be32_at b i < 2 ^ 32.
Proof.
  rewrite be32_at_val. pose proof (b2z_range (b !!! (i + 3)%nat)). pose proof (b2z_range (b !!! (i + 2)%nat)).
  pose proof (b2z_range (b !!! (i + 1)%nat)). pose proof (b2z_range (b !!! i)). lia.
Qed.

Lemma be_val_words (b : list byte) :
  length b = 32%nat →
  limbs_val [be32_at b 28; be32_at b 24; be32_at b 20; be32_at b 16;
             be32_at b 12; be32_at b 8; be32_at b 4; be32_at b 0] = be_val b.
Proof.
  intros Hlen. do 33 (destruct b as [|? b]; try done).
  rewrite !be32_at_val. unfold be_val, reverse. simpl rev_append. cbn [lookup_total list_lookup_total Nat.add].
  cbn [limbs_val le_val]. lia.
Qed.

(** Reading 32 bytes gives their big-endian value modulo the order, and tells
    whether it had to be reduced. *)
Lemma set_b32_spec (b32 : list byte) :
  length b32 = 32%nat →
  let '(r, overflow) := secp256k1_scalar_set_b32 b32 in
  scalar_ok r ∧ scalar_val r = be_val b32 mod group_order ∧
  overflow = truth (group_order <=? be_val b32).
Proof.
  intros Hlen. unfold secp256k1_scalar_set_b32.
  set (r := Scalar _).
  assert (Hwf : scalar_wf r) by (split; [done|]; repeat constructor; apply be32_at_range).
  assert (Hv : scalar_val r = be_val b32) by (by apply be_val_words).
  pose proof (scalar_wf_val r Hwf) as Hr.
  destruct (final_reduction r 0 Hwf) as (Ho & Hok & Hval); [lia|unfold group_order; lia|].
  rewrite Z.mul_0_r, Z.add_0_r, Hv, Z.add_0_l in *. done.
Qed.

Lemma be_val_app (l1 l2 : list byte) : be_val (l1 ++ l2) = be_val l2 + 256 ^ zlen l2 * be_val l1.
Proof. unfold be_val. by rewrite reverse_app, le_val_app, length_reverse. Qed.

Lemma be32_bytes_val (x : Z) : 0 ≤ x < 2 ^ 32 → be_val (be32_bytes x) = x.
Proof.
  intros Hx. unfold be_val, be32_bytes, reverse. simpl rev_append. cbn [le_val].
  rewrite !b2z_z2b, !Z.shiftr_div_pow2 by lia. unfold u8, wrap. zdiv.
Qed.

Lemma get_b32_spec (a : secp256k1_scalar) :
  scalar_wf a →
  length (secp256k1_scalar_get_b32 a) = 32%nat ∧ be_val (secp256k1_scalar_get_b32 a) = scalar_val a.
Proof.
  intros Ha. split; [done|]. unfold secp256k1_scalar_get_b32. rewrite !be_val_app.
  rewrite !length_app. cbn [length be32_bytes]. rewrite !be32_bytes_val by (by apply limb_range).
  open_scalar a. unfold scalar_val. read_limbs. cbn [limbs_val]. simpl Nat.add.
  change (256 ^ Z.of_nat 4) with (2 ^ 32). lia.
Qed.

(** A canonical scalar survives being written and read, and 32 bytes below the
    order survive being read and written. *)
Lemma b32_roundtrip (a : secp256k1_scalar) :
  scalar_ok a → secp256k1_scalar_set_b32 (secp256k1_scalar_get_b32 a) = (a, 0).
Proof.
  intros [Ha Hlt]. destruct (get_b32_spec a Ha) as [Hlen Hv].
  pose proof (set_b32_spec _ Hlen) as H. pose proof (scalar_wf_val a Ha).
  destruct (secp256k1_scalar_set_b32 _) as [r o]. destruct H as ([Hr _] & Hval & Ho).
  rewrite Hv in *. destruct (Z.leb_spec group_order (scalar_val a)); [lia|]. subst o.
  f_equal. apply scalar_val_inj; [done..|]. rewrite Hval. apply Z.mod_small. lia.
Qed.

Lemma b32_roundtrip' (b32 : list byte) :
  length b32 = 32%nat → be_val b32 < group_order →
  secp256k1_scalar_get_b32 (secp256k1_scalar_set_b32 b32).1 = b32.
Proof.
  intros Hlen Hlt. pose proof (set_b32_spec _ Hlen) as H.
  destruct (secp256k1_scalar_set_b32 _) as [r o]. destruct H as ([Hr _] & Hval & _). cbn [fst].
  destruct (get_b32_spec r Hr) as [Hl Hv]. apply be_val_inj; [congruence|].
  rewrite Hv, Hval. apply Z.mod_small. split; [|done]. unfold be_val. apply le_val_range.
Qed.

(** * Inverse *)

(** The power that [secp256k1_scalar_inverse] computes is the inverse, since the
    order is prime; zero is mapped to zero. *)
Lemma inverse_spec (x : secp256k1_scalar) :
  scalar_ok x →
  scalar_ok (secp256k1_scalar_inverse x) ∧
  (scalar_val (secp256k1_scalar_inverse x) * scalar_val x) mod group_order =
    (if scalar_val x =? 0 then 0 else 1).
Proof.
  intros Hx. destruct (inverse_power x Hx) as (Hok & _ & Hv). destruct Hx as [Hwf Hlt].
  pose proof (scalar_wf_val x Hwf) as Hr. split; [done|].
  rewrite Hv, Zmult_mod_idemp_l. destruct (Z.eqb_spec (scalar_val x) 0) as [->|Hnz].
  - by rewrite Z.mul_0_r.
  - replace (scalar_val x ^ (group_order - 2) * scalar_val x) with (scalar_val x ^ (group_order - 1)).
    + apply Z.fermat_nz; [apply group_order_prime|]. rewrite Z.mod_small by lia. done.
    + replace (group_order - 1) with (group_order - 2 + 1) by lia.
      rewrite Z.pow_add_r, Z.pow_1_r by (unfold group_order; lia). done.
Qed.
