(* ===== verification/Secp256k1ScalarApi.v ===== *)
(** The theorems about scalars: they implement the field of the integers modulo the
    group order.  [scalar_of x] is the canonical scalar with the value [x]. *)

From Stdlib Require Import ZArith Lia Strings.Byte.
From stdpp Require Import base gmap list fin_maps numbers.
From S2P Require Import Prelude Secp256k1Scalar Secp256k1ScalarProofs Secp256k1ScalarOps.

Lemma scalar_of_ok (x : Z) :
  0 ≤ x < group_order → scalar_ok (scalar_of x) ∧ scalar_val (scalar_of x) = x.
Proof.
  intros Hx. destruct (scalar_of_wf x) as [Hwf Hv]; [unfold group_order in *; lia|].
  split; [split; [done|lia]|done].
Qed.

Lemma scalar_of_val (a : secp256k1_scalar) (x : Z) : scalar_ok a → scalar_val a = x → a = scalar_of x.
Proof.
  intros [Ha Hlt] <-. pose proof (scalar_wf_val a Ha).
  destruct (scalar_of_wf (scalar_val a)) as [Hwf Hv]; [lia|]. by apply scalar_val_inj.
Qed.

Section Refinement.
Context (x y : Z) (Hx : 0 ≤ x < group_order) (Hy : 0 ≤ y < group_order).

(** C27: Scalars refine the ring of integers modulo the group order: on canonical
    scalars addition, negation, multiplication and squaring give the canonical
    scalar of the result, and addition tells whether the sum reached the order. *)
Theorem secp256k1_scalar_arithmetic :
  secp256k1_scalar_add (scalar_of x) (scalar_of y) =
    (scalar_of ((x + y) mod group_order), truth (group_order <=? x + y)) ∧
  secp256k1_scalar_negate (scalar_of x) = scalar_of ((- x) mod group_order) ∧
  secp256k1_scalar_mul (scalar_of x) (scalar_of y) = scalar_of ((x * y) mod group_order) ∧
  secp256k1_scalar_sqr (scalar_of x) = scalar_of ((x * x) mod group_order).
Proof using Hx Hy.
  destruct (scalar_of_ok x Hx) as [Ox Vx], (scalar_of_ok y Hy) as [Oy Vy].
  pose proof (add_spec _ _ Ox Oy) as (A1 & A2 & A3). pose proof (negate_spec _ Ox) as [N1 N2].
  pose proof (mul_spec _ _ (proj1 Ox) (proj1 Oy)) as [M1 M2]. pose proof (sqr_spec _ (proj1 Ox)) as [S1 S2].
  rewrite Vx, ?Vy in *. split_and!; try by apply scalar_of_val.
  destruct (secp256k1_scalar_add _ _) as [r o]. cbn [fst snd] in *. subst o. f_equal.
  by apply scalar_of_val.
Qed.

(** C28: The chain of squarings and products of secp256k1_scalar_inverse gives the
    multiplicative inverse of every scalar but zero, which it maps to zero. *)
Theorem secp256k1_scalar_inverse_correct :
  secp256k1_scalar_mul (secp256k1_scalar_inverse (scalar_of x)) (scalar_of x) =
    scalar_of (if x =? 0 then 0 else 1) ∧
  scalar_ok (secp256k1_scalar_inverse (scalar_of x)) ∧
  secp256k1_scalar_inverse_var (scalar_of x) = secp256k1_scalar_inverse (scalar_of x).
Proof using Hx.
  destruct (scalar_of_ok x Hx) as [Ox Vx]. destruct (inverse_spec _ Ox) as [Hok Hv].
  split_and!; [|done|reflexivity].
  destruct (mul_spec _ _ (proj1 Hok) (proj1 Ox)) as [M1 M2].
  apply scalar_of_val; [done|]. by rewrite M2, Hv, Vx.
Qed.

(** Making a scalar low: negating it if secp256k1_scalar_is_high says so leaves
    the lesser of x and n - x, which is not high, and returns the sign. *)
Theorem secp256k1_scalar_low :
  let '(r, sign) :=
    secp256k1_scalar_cond_negate (scalar_of x) (secp256k1_scalar_is_high (scalar_of x)) in
  r = scalar_of (Z.min x (group_order - x)) ∧ secp256k1_scalar_is_high r = 0 ∧
  sign = (if group_order <? 2 * x then -1 else 1).
Proof using Hx.
  destruct (scalar_of_ok x Hx) as [Ox Vx].
  rewrite (is_high_spec _ (proj1 Ox)), Vx.
  pose proof (cond_negate_spec (scalar_of x) (truth (group_order <? 2 * x)) Ox) as (C1 & C2 & C3).
  destruct (secp256k1_scalar_cond_negate _ _) as [r sign]. cbn [fst snd] in *. rewrite Vx in C3.
  assert (Hv : scalar_val r = Z.min x (group_order - x)).
  { rewrite C3. destruct (Z.ltb_spec group_order (2 * x)); cbn [truth Z.eqb].
    - rewrite Z.min_r by lia. symmetry. apply (Z.mod_unique_pos _ _ (-1)); lia.
    - rewrite Z.min_l, Z.mul_1_l, Z.mod_small by lia. done. }
  split_and!; [by apply scalar_of_val| |].
  - rewrite (is_high_spec _ (proj1 C1)), Hv. destruct (Z.ltb_spec group_order (2 * Z.min x (group_order - x))); [|done].
    unfold group_order in *. lia.
  - rewrite C2. by destruct (group_order <? 2 * x).
Qed.
End Refinement.

(** Scalars and 32 big-endian bytes: reading reduces modulo the order and tells
    so, writing a canonical scalar and reading it gives it back, and bytes below
    the order are written as they were read. *)
Theorem secp256k1_scalar_b32_roundtrip (a : secp256k1_scalar) (b32 : list byte) :
  scalar_ok a → length b32 = 32%nat →
  secp256k1_scalar_set_b32 (secp256k1_scalar_get_b32 a) = (a, 0) ∧
  secp256k1_scalar_set_b32 b32 =
    (scalar_of (be_val b32 mod group_order), truth (group_order <=? be_val b32)) ∧
  (be_val b32 < group_order → secp256k1_scalar_get_b32 (secp256k1_scalar_set_b32 b32).1 = b32).
Proof.
  intros Ha Hb. split_and!; [by apply b32_roundtrip| |by apply b32_roundtrip'].
  pose proof (set_b32_spec b32 Hb) as H. destruct (secp256k1_scalar_set_b32 b32) as [r o].
  destruct H as (Hok & Hv & ->). f_equal. by apply scalar_of_val.
Qed.

(** Bits of a scalar: windows of up to 30 bits that may cross a limb, shifts with
    the bits shifted out, addition of a bit, and products shifted right with rounding. *)
Theorem secp256k1_scalar_bits (a b : secp256k1_scalar) (offset count n shift : Z) :
  scalar_wf a → scalar_wf b → 0 ≤ offset → 0 < count < 31 → offset + count ≤ 256 →
  0 < n < 16 → 256 ≤ shift ≤ 512 →
  secp256k1_scalar_get_bits_var a offset count = (scalar_val a / 2 ^ offset) mod 2 ^ count ∧
  secp256k1_scalar_shr_int a n = (scalar_of (scalar_val a / 2 ^ n), scalar_val a mod 2 ^ n) ∧
  scalar_val (secp256k1_scalar_mul_shift_var a b shift) =
    (scalar_val a * scalar_val b + 2 ^ (shift - 1)) / 2 ^ shift.
Proof.
  intros Ha Hb Ho Hc Hf Hn Hs. split_and!; [by apply get_bits_var_spec| |by apply mul_shift_var_spec].
  destruct (shr_int_spec a n Ha Hn) as (W & V & R). destruct (secp256k1_scalar_shr_int a n) as [r o].
  cbn [fst snd] in *. subst o. f_equal. pose proof (scalar_wf_val r W).
  destruct (scalar_of_wf (scalar_val a / 2 ^ n)) as [Hwf Hv]; [lia|]. apply scalar_val_inj; [done..|congruence].
Qed.
