(* ===== verification/Secp256k1Hash.v ===== *)
(** SHA-256, HMAC-SHA-256 and the generator of RFC 6979 nonces:
    src/src/secp256k1/src/hash_impl.h.

    A hash context has eight words, a buffer of 64 bytes that is read as words of
    the target, and the number of bytes hashed so far, a [size_t].  Byte strings
    that the C functions are given with their length are lists. *)

From Stdlib Require Import ZArith Lia Strings.Byte.
From stdpp Require Import base gmap list fin_maps numbers.
From S2P Require Import Prelude Lz4Common.

(** * Macros *)

Definition Ch (x y z : Z) : Z := Z.lxor z (Z.land x (Z.lxor y z)).
Definition Maj (x y z : Z) : Z := Z.lor (Z.land x y) (Z.land z (Z.lor x y)).

(** [(x) >> n | (x) << (32 - n)] *)
Definition rot (n x : Z) : Z := Z.lor (Z.shiftr x n) (u32 (Z.shiftl x (32 - n))).

Definition Sigma0 (x : Z) : Z := Z.lxor (Z.lxor (rot 2 x) (rot 13 x)) (rot 22 x).
Definition Sigma1 (x : Z) : Z := Z.lxor (Z.lxor (rot 6 x) (rot 11 x)) (rot 25 x).
Definition sigma0 (x : Z) : Z := Z.lxor (Z.lxor (rot 7 x) (rot 18 x)) (Z.shiftr x 3).
Definition sigma1 (x : Z) : Z := Z.lxor (Z.lxor (rot 17 x) (rot 19 x)) (Z.shiftr x 10).

(** The new values of [d] and [h]. *)
Definition Round (a b c d e f g h k w : Z) : Z * Z :=
  let t1 := u32 (u32 (u32 (u32 (h + Sigma1 e) + Ch e f g) + k) + w) in
  let t2 := u32 (Sigma0 a + Maj a b c) in
  (u32 (d + t1), u32 (t1 + t2)).

(** [w += s1 + v + s0] *)
Definition schedule (w s1 v s0 : Z) : Z := u32 (w + u32 (u32 (s1 + v) + s0)).

Section Target.
Context `{Arch}.

(** [BE32]; [WORDS_BIGENDIAN] is set on targets that are. *)
Definition BE32 (p : Z) : Z :=
  if LZ4_isLittleEndian then
    Z.lor (Z.lor (Z.lor (Z.shiftl (Z.land p 0xFF) 24) (Z.shiftl (Z.land p 0xFF00) 8))
      (Z.shiftr (Z.land p 0xFF0000) 8)) (Z.shiftr (Z.land p 0xFF000000) 24)
  else p.

(** The bytes of a word in memory, and back. *)
Definition word_of_bytes (l : list byte) : Z := if LZ4_isLittleEndian then le_val l else be_val l.
Definition bytes_of_word (x : Z) : list byte := if LZ4_isLittleEndian then le_bytes 4 x else be_bytes 4 x.

(** * SHA-256 *)

Record secp256k1_sha256_t := Sha256 { s : list Z; buf : list byte; bytes : Z }.

Definition init_words : list Z :=
  [0x6a09e667; 0xbb67ae85; 0x3c6ef372; 0xa54ff53a; 0x510e527f; 0x9b05688c; 0x1f83d9ab; 0x5be0cd19].

(** The buffer keeps what it had. *)
Definition secp256k1_sha256_initialize (hash : secp256k1_sha256_t) : secp256k1_sha256_t :=
  Sha256 init_words (buf hash) 0.

Definition secp256k1_sha256_transform (s chunk : list Z) : list Z :=
  let a := s !!! 0%nat in let b := s !!! 1%nat in let c := s !!! 2%nat in let d := s !!! 3%nat in
  let e := s !!! 4%nat in let f := s !!! 5%nat in let g := s !!! 6%nat in let h := s !!! 7%nat in
  let w0 := BE32 (chunk !!! 0%nat) in let '(d, h) := Round a b c d e f g h 0x428a2f98 w0 in
  let w1 := BE32 (chunk !!! 1%nat) in let '(c, g) := Round h a b c d e f g 0x71374491 w1 in
  let w2 := BE32 (chunk !!! 2%nat) in let '(b, f) := Round g h a b c d e f 0xb5c0fbcf w2 in
  let w3 := BE32 (chunk !!! 3%nat) in let '(a, e) := Round f g h a b c d e 0xe9b5dba5 w3 in
  let w4 := BE32 (chunk !!! 4%nat) in let '(h, d) := Round e f g h a b c d 0x3956c25b w4 in
  let w5 := BE32 (chunk !!! 5%nat) in let '(g, c) := Round d e f g h a b c 0x59f111f1 w5 in
  let w6 := BE32 (chunk !!! 6%nat) in let '(f, b) := Round c d e f g h a b 0x923f82a4 w6 in
  let w7 := BE32 (chunk !!! 7%nat) in let '(e, a) := Round b c d e f g h a 0xab1c5ed5 w7 in
  let w8 := BE32 (chunk !!! 8%nat) in let '(d, h) := Round a b c d e f g h 0xd807aa98 w8 in
  let w9 := BE32 (chunk !!! 9%nat) in let '(c, g) := Round h a b c d e f g 0x12835b01 w9 in
  let w10 := BE32 (chunk !!! 10%nat) in let '(b, f) := Round g h a b c d e f 0x243185be w10 in
  let w11 := BE32 (chunk !!! 11%nat) in let '(a, e) := Round f g h a b c d e 0x550c7dc3 w11 in
  let w12 := BE32 (chunk !!! 12%nat) in let '(h, d) := Round e f g h a b c d 0x72be5d74 w12 in
  let w13 := BE32 (chunk !!! 13%nat) in let '(g, c) := Round d e f g h a b c 0x80deb1fe w13 in
  let w14 := BE32 (chunk !!! 14%nat) in let '(f, b) := Round c d e f g h a b 0x9bdc06a7 w14 in
  let w15 := BE32 (chunk !!! 15%nat) in let '(e, a) := Round b c d e f g h a 0xc19bf174 w15 in
  let w0 := schedule w0 (sigma1 w14) w9 (sigma0 w1) in let '(d, h) := Round a b c d e f g h 0xe49b69c1 w0 in
  let w1 := schedule w1 (sigma1 w15) w10 (sigma0 w2) in let '(c, g) := Round h a b c d e f g 0xefbe4786 w1 in
  let w2 := schedule w2 (sigma1 w0) w11 (sigma0 w3) in let '(b, f) := Round g h a b c d e f 0x0fc19dc6 w2 in
  let w3 := schedule w3 (sigma1 w1) w12 (sigma0 w4) in let '(a, e) := Round f g h a b c d e 0x240ca1cc w3 in
  let w4 := schedule w4 (sigma1 w2) w13 (sigma0 w5) in let '(h, d) := Round e f g h a b c d 0x2de92c6f w4 in
  let w5 := schedule w5 (sigma1 w3) w14 (sigma0 w6) in let '(g, c) := Round d e f g h a b c 0x4a7484aa w5 in
  let w6 := schedule w6 (sigma1 w4) w15 (sigma0 w7) in let '(f, b) := Round c d e f g h a b 0x5cb0a9dc w6 in
  let w7 := schedule w7 (sigma1 w5) w0 (sigma0 w8) in let '(e, a) := Round b c d e f g h a 0x76f988da w7 in
  let w8 := schedule w8 (sigma1 w6) w1 (sigma0 w9) in let '(d, h) := Round a b c d e f g h 0x983e5152 w8 in
  let w9 := schedule w9 (sigma1 w7) w2 (sigma0 w10) in let '(c, g) := Round h a b c d e f g 0xa831c66d w9 in
  let w10 := schedule w10 (sigma1 w8) w3 (sigma0 w11) in let '(b, f) := Round g h a b c d e f 0xb00327c8 w10 in
  let w11 := schedule w11 (sigma1 w9) w4 (sigma0 w12) in let '(a, e) := Round f g h a b c d e 0xbf597fc7 w11 in
  let w12 := schedule w12 (sigma1 w10) w5 (sigma0 w13) in let '(h, d) := Round e f g h a b c d 0xc6e00bf3 w12 in
  let w13 := schedule w13 (sigma1 w11) w6 (sigma0 w14) in let '(g, c) := Round d e f g h a b c 0xd5a79147 w13 in
  let w14 := schedule w14 (sigma1 w12) w7 (sigma0 w15) in let '(f, b) := Round c d e f g h a b 0x06ca6351 w14 in
  let w15 := schedule w15 (sigma1 w13) w8 (sigma0 w0) in let '(e, a) := Round b c d e f g h a 0x14292967 w15 in
  let w0 := schedule w0 (sigma1 w14) w9 (sigma0 w1) in let '(d, h) := Round a b c d e f g h 0x27b70a85 w0 in
  let w1 := schedule w1 (sigma1 w15) w10 (sigma0 w2) in let '(c, g) := Round h a b c d e f g 0x2e1b2138 w1 in
  let w2 := schedule w2 (sigma1 w0) w11 (sigma0 w3) in let '(b, f) := Round g h a b c d e f 0x4d2c6dfc w2 in
  let w3 := schedule w3 (sigma1 w1) w12 (sigma0 w4) in let '(a, e) := Round f g h a b c d e 0x53380d13 w3 in
  let w4 := schedule w4 (sigma1 w2) w13 (sigma0 w5) in let '(h, d) := Round e f g h a b c d 0x650a7354 w4 in
  let w5 := schedule w5 (sigma1 w3) w14 (sigma0 w6) in let '(g, c) := Round d e f g h a b c 0x766a0abb w5 in
  let w6 := schedule w6 (sigma1 w4) w15 (sigma0 w7) in let '(f, b) := Round c d e f g h a b 0x81c2c92e w6 in
  let w7 := schedule w7 (sigma1 w5) w0 (sigma0 w8) in let '(e, a) := Round b c d e f g h a 0x92722c85 w7 in
  let w8 := schedule w8 (sigma1 w6) w1 (sigma0 w9) in let '(d, h) := Round a b c d e f g h 0xa2bfe8a1 w8 in
  let w9 := schedule w9 (sigma1 w7) w2 (sigma0 w10) in let '(c, g) := Round h a b c d e f g 0xa81a664b w9 in
  let w10 := schedule w10 (sigma1 w8) w3 (sigma0 w11) in let '(b, f) := Round g h a b c d e f 0xc24b8b70 w10 in
  let w11 := schedule w11 (sigma1 w9) w4 (sigma0 w12) in let '(a, e) := Round f g h a b c d e 0xc76c51a3 w11 in
  let w12 := schedule w12 (sigma1 w10) w5 (sigma0 w13) in let '(h, d) := Round e f g h a b c d 0xd192e819 w12 in
  let w13 := schedule w13 (sigma1 w11) w6 (sigma0 w14) in let '(g, c) := Round d e f g h a b c 0xd6990624 w13 in
  let w14 := schedule w14 (sigma1 w12) w7 (sigma0 w15) in let '(f, b) := Round c d e f g h a b 0xf40e3585 w14 in
  let w15 := schedule w15 (sigma1 w13) w8 (sigma0 w0) in let '(e, a) := Round b c d e f g h a 0x106aa070 w15 in
  let w0 := schedule w0 (sigma1 w14) w9 (sigma0 w1) in let '(d, h) := Round a b c d e f g h 0x19a4c116 w0 in
  let w1 := schedule w1 (sigma1 w15) w10 (sigma0 w2) in let '(c, g) := Round h a b c d e f g 0x1e376c08 w1 in
  let w2 := schedule w2 (sigma1 w0) w11 (sigma0 w3) in let '(b, f) := Round g h a b c d e f 0x2748774c w2 in
  let w3 := schedule w3 (sigma1 w1) w12 (sigma0 w4) in let '(a, e) := Round f g h a b c d e 0x34b0bcb5 w3 in
  let w4 := schedule w4 (sigma1 w2) w13 (sigma0 w5) in let '(h, d) := Round e f g h a b c d 0x391c0cb3 w4 in
  let w5 := schedule w5 (sigma1 w3) w14 (sigma0 w6) in let '(g, c) := Round d e f g h a b c 0x4ed8aa4a w5 in
  let w6 := schedule w6 (sigma1 w4) w15 (sigma0 w7) in let '(f, b) := Round c d e f g h a b 0x5b9cca4f w6 in
  let w7 := schedule w7 (sigma1 w5) w0 (sigma0 w8) in let '(e, a) := Round b c d e f g h a 0x682e6ff3 w7 in
  let w8 := schedule w8 (sigma1 w6) w1 (sigma0 w9) in let '(d, h) := Round a b c d e f g h 0x748f82ee w8 in
  let w9 := schedule w9 (sigma1 w7) w2 (sigma0 w10) in let '(c, g) := Round h a b c d e f g 0x78a5636f w9 in
  let w10 := schedule w10 (sigma1 w8) w3 (sigma0 w11) in let '(b, f) := Round g h a b c d e f 0x84c87814 w10 in
  let w11 := schedule w11 (sigma1 w9) w4 (sigma0 w12) in let '(a, e) := Round f g h a b c d e 0x8cc70208 w11 in
  let w12 := schedule w12 (sigma1 w10) w5 (sigma0 w13) in let '(h, d) := Round e f g h a b c d 0x90befffa w12 in
  let w13 := schedule w13 (sigma1 w11) w6 (sigma0 w14) in let '(g, c) := Round d e f g h a b c 0xa4506ceb w13 in
  let '(f, b) := Round c d e f g h a b 0xbef9a3f7 (schedule w14 (sigma1 w12) w7 (sigma0 w15)) in
  let '(e, a) := Round b c d e f g h a 0xc67178f2 (schedule w15 (sigma1 w13) w8 (sigma0 w0)) in
  [u32 (s !!! 0%nat + a); u32 (s !!! 1%nat + b); u32 (s !!! 2%nat + c); u32 (s !!! 3%nat + d);
   u32 (s !!! 4%nat + e); u32 (s !!! 5%nat + f); u32 (s !!! 6%nat + g); u32 (s !!! 7%nat + h)].

(** [hash->buf] read as sixteen words. *)
Definition buf_words (l : list byte) : list Z :=
  map (λ i, word_of_bytes (take 4 (drop (4 * i) l))) (seq 0 16).

(** [size_t] arithmetic. *)
Definition usz (z : Z) : Z := if LZ4_64bits then u64 z else u32 z.

(** The loop of [secp256k1_sha256_write]: the words and the buffer after it, what is
    left of the data, and [bufsize].  An iteration uses up data unless [bufsize]
    is 64, which it is not. *)
Fixpoint write_loop (fuel : nat) (s : list Z) (buf data : list byte) (bufsize : Z)
    : list Z * list byte * list byte * Z :=
  match fuel with
  | O => (s, buf, data, bufsize)
  | S fuel =>
      if usz (bufsize + zlen data) >=? 64 then
        let room := Z.to_nat (64 - bufsize) in
        let buf := take (Z.to_nat bufsize) buf ++ take room data in
        write_loop fuel (secp256k1_sha256_transform s (buf_words buf)) buf (drop room data) 0
      else (s, buf, data, bufsize)
  end.

Definition secp256k1_sha256_write (hash : secp256k1_sha256_t) (data : list byte) : secp256k1_sha256_t :=
  let bufsize := Z.land (bytes hash) 0x3F in
  let bytes' := usz (bytes hash + zlen data) in
  let '(s', buf', rest, bufsize) := write_loop (S (length data)) (s hash) (buf hash) data bufsize in
  let n := Z.to_nat bufsize in
  Sha256 s' (take n buf' ++ rest ++ drop (n + length rest) buf') bytes'.

Definition pad : list byte := z2b 0x80 :: replicate 63 x00.

(** The context after it, and the 32 bytes written to [out32]. *)
Definition secp256k1_sha256_finalize (hash : secp256k1_sha256_t) : secp256k1_sha256_t * list byte :=
  let sizedesc := [u32 (BE32 (Z.shiftr (bytes hash) 29)); u32 (BE32 (usz (Z.shiftl (bytes hash) 3)))] in
  let n := usz (1 + (119 - bytes hash mod 64) mod 64) in
  let hash := secp256k1_sha256_write hash (take (Z.to_nat n) pad) in
  let hash := secp256k1_sha256_write hash (mjoin (bytes_of_word <$> sizedesc)) in
  (Sha256 (replicate 8 0) (buf hash) (bytes hash),
   mjoin (bytes_of_word ∘ BE32 <$> s hash)).

(** * HMAC *)

Record secp256k1_hmac_sha256_t := Hmac { inner : secp256k1_sha256_t; outer : secp256k1_sha256_t }.

Definition xor_byte (c : Z) (b : byte) : byte := z2b (Z.lxor (b2z b) c).

(** [rkey], the key in a block; [local] is the variable [sha256] before it is
    initialised. *)
Definition hmac_rkey (local : secp256k1_sha256_t) (key : list byte) : list byte :=
  if zlen key <=? 64 then key ++ replicate (64 - length key) x00
  else
    let sha256 := secp256k1_sha256_initialize local in
    let sha256 := secp256k1_sha256_write sha256 key in
    (secp256k1_sha256_finalize sha256).2 ++ replicate 32 x00.

Definition secp256k1_hmac_sha256_initialize (local : secp256k1_sha256_t)
    (hash : secp256k1_hmac_sha256_t) (key : list byte) : secp256k1_hmac_sha256_t :=
  let rkey := hmac_rkey local key in
  let outer' := secp256k1_sha256_initialize (outer hash) in
  let rkey := map (xor_byte 0x5c) rkey in
  let outer' := secp256k1_sha256_write outer' rkey in
  let inner' := secp256k1_sha256_initialize (inner hash) in
  let rkey := map (xor_byte (Z.lxor 0x5c 0x36)) rkey in
  let inner' := secp256k1_sha256_write inner' rkey in
  Hmac inner' outer'.

Definition secp256k1_hmac_sha256_write (hash : secp256k1_hmac_sha256_t) (data : list byte)
    : secp256k1_hmac_sha256_t :=
  Hmac (secp256k1_sha256_write (inner hash) data) (outer hash).

Definition secp256k1_hmac_sha256_finalize (hash : secp256k1_hmac_sha256_t)
    : secp256k1_hmac_sha256_t * list byte :=
  let '(inner', temp) := secp256k1_sha256_finalize (inner hash) in
  let outer' := secp256k1_sha256_write (outer hash) temp in
  let '(outer', out32) := secp256k1_sha256_finalize outer' in
  (Hmac inner' outer', out32).

(** * The generator of RFC 6979 *)

Record secp256k1_rfc6979_hmac_sha256_t := Rng { v : list byte; k : list byte; retry : Z }.

(** Initialises a local [hmac] with [key], writes [pieces] and finalises it; the
    sequences of calls that the generator is made of.  [local] is what the
    variables of the stack frames hold before. *)
Definition hmac_of (local : secp256k1_sha256_t) (key : list byte) (pieces : list (list byte)) : list byte :=
  let hmac := secp256k1_hmac_sha256_initialize local (Hmac local local) key in
  (secp256k1_hmac_sha256_finalize (foldl secp256k1_hmac_sha256_write hmac pieces)).2.

Definition secp256k1_rfc6979_hmac_sha256_initialize (local : secp256k1_sha256_t) (key : list byte)
    : secp256k1_rfc6979_hmac_sha256_t :=
  let v := replicate 32 x01 in
  let k := replicate 32 x00 in
  let k := hmac_of local k [v; [x00]; key] in
  let v := hmac_of local k [v] in
  let k := hmac_of local k [v; [x01]; key] in
  let v := hmac_of local k [v] in
  Rng v k 0.

(** The loop of [secp256k1_rfc6979_hmac_sha256_generate]: [v] after it and the bytes
    written to [out]. *)
Fixpoint generate_loop (fuel : nat) (local : secp256k1_sha256_t) (k v : list byte) (outlen : Z)
    : list byte * list byte :=
  match fuel with
  | O => (v, [])
  | S fuel =>
      if outlen >? 0 then
        let v := hmac_of local k [v] in
        let now := s32 outlen in
        let now := if now >? 32 then 32 else now in
        let '(v', out) := generate_loop fuel local k v (usz (outlen - now)) in
        (v', take (Z.to_nat now) v ++ out)
      else (v, [])
  end.

Definition secp256k1_rfc6979_hmac_sha256_generate (local : secp256k1_sha256_t)
    (rng : secp256k1_rfc6979_hmac_sha256_t) (outlen : Z)
    : secp256k1_rfc6979_hmac_sha256_t * list byte :=
  let '(k, v) :=
    if negb (retry rng =? 0) then
      let k := hmac_of local (k rng) [v rng; [x00]] in
      (k, hmac_of local k [v rng])
    else (k rng, v rng) in
  let '(v, out) := generate_loop (S (Z.to_nat outlen)) local k v outlen in
  (Rng v k 1, out).

Definition secp256k1_rfc6979_hmac_sha256_finalize (rng : secp256k1_rfc6979_hmac_sha256_t)
    : secp256k1_rfc6979_hmac_sha256_t :=
  Rng (replicate 32 x00) (replicate 32 x00) 0.
End Target.
