(* ===== verification/Secp256k1HashProofs.v ===== *)
(** SHA-256, HMAC and the generator of nonces compute what FIPS 180-4, RFC 2104 and
    RFC 6979 define.

    [sha256] is the hash of FIPS 180-4 as a function of a byte string. *)

From Stdlib Require Import ZArith Lia Strings.Byte.
From stdpp Require Import base gmap list fin_maps numbers.
From S2P Require Import Prelude Lz4Common Secp256k1Hash.

(** * FIPS 180-4 *)

Module Fips.

(** Section 4.1.2: functions of words.  [ROTR^n x] is [(x >> n) \/ (x << 32 - n)]. *)
Definition ROTR (n x : Z) : Z := Z.lor (Z.shiftr x n) (Z.shiftl x (32 - n) mod 2 ^ 32).
Definition Ch (x y z : Z) : Z := Z.lxor (Z.land x y) (Z.land (Z.lnot x) z).
Definition Maj (x y z : Z) : Z := Z.lxor (Z.lxor (Z.land x y) (Z.land x z)) (Z.land y z).
Definition Sigma0 (x : Z) : Z := Z.lxor (Z.lxor (ROTR 2 x) (ROTR 13 x)) (ROTR 22 x).
Definition Sigma1 (x : Z) : Z := Z.lxor (Z.lxor (ROTR 6 x) (ROTR 11 x)) (ROTR 25 x).
Definition sigma0 (x : Z) : Z := Z.lxor (Z.lxor (ROTR 7 x) (ROTR 18 x)) (Z.shiftr x 3).
Definition sigma1 (x : Z) : Z := Z.lxor (Z.lxor (ROTR 17 x) (ROTR 19 x)) (Z.shiftr x 10).

(** Sections 4.2.2 and 5.3.3: the constants are the first 32 bits of the fractional
    parts of the cube roots of the first 64 primes, and the initial hash value
    those of the square roots of the first eight. *)
Definition is_prime (p : nat) : bool :=
  (1 <? p)%nat && forallb (fun d => negb (p mod d =? 0)%nat) (seq 2 (p - 2)).
Definition primes : list Z := map Z.of_nat (List.filter is_prime (seq 0 312)).

(** The greatest [r] below [acc + 2 ^ bits] with [r ^ 3 <= x], bit by bit from [acc] up. *)
Fixpoint cube_root (bits : nat) (x acc : Z) : Z :=
  match bits with
  | O => acc
  | S bits =>
      let r := acc + 2 ^ Z.of_nat bits in
      cube_root bits x (if r ^ 3 <=? x then r else acc)
  end.

Definition K : list Z := map (fun p => cube_root 35 (p * 2 ^ 96) 0 mod 2 ^ 32) primes.
Definition H0 : list Z := map (fun p => Z.sqrt (p * 2 ^ 64) mod 2 ^ 32) (take 8 primes).

(** Section 6.2.2, step 1: the words [W_16] to [W_63], from the last sixteen. *)
Definition next_word (win : list Z) : Z :=
  (sigma1 (win !!! 14%nat) + win !!! 9%nat + sigma0 (win !!! 1%nat) + win !!! 0%nat) mod 2 ^ 32.

Fixpoint extend (n : nat) (win : list Z) : list Z :=
  match n with
  | O => []
  | S n => let w := next_word win in w :: extend n (tail win ++ [w])
  end.

(** Step 3: a round on the working variables [a] to [h]. *)
Definition round (st : list Z) (k w : Z) : list Z :=
  match st with
  | [a; b; c; d; e; f; g; h] =>
      let T1 := (h + Sigma1 e + Ch e f g + k + w) mod 2 ^ 32 in
      let T2 := (Sigma0 a + Maj a b c) mod 2 ^ 32 in
      [(T1 + T2) mod 2 ^ 32; a; b; c; (d + T1) mod 2 ^ 32; e; f; g]
  | _ => st
  end.

Fixpoint rounds (st ks ws : list Z) : list Z :=
  match ks, ws with
  | k :: ks, w :: ws => rounds (round st k w) ks ws
  | _, _ => st
  end.

(** The hash value after a block of sixteen words. *)
Definition compress (H block : list Z) : list Z :=
  zip_with (λ x y, (x + y) mod 2 ^ 32) H (rounds H K (block ++ extend 48 block)).
End Fips.

(** [cube_root] is what it says. *)
Lemma cube_root_spec (bits : nat) (x acc : Z) :
  0 ≤ acc → acc ^ 3 ≤ x < (acc + 2 ^ Z.of_nat bits) ^ 3 →
  let r := Fips.cube_root bits x acc in 0 ≤ r ∧ r ^ 3 ≤ x < (r + 1) ^ 3.
Proof.
  revert acc. induction bits as [|bits IH]; intros acc Ha Hx; [done|]. cbn [Fips.cube_root].
  assert (0 < 2 ^ Z.of_nat bits) by (apply Z.pow_pos_nonneg; lia).
  assert (2 ^ Z.of_nat (S bits) = 2 ^ Z.of_nat bits + 2 ^ Z.of_nat bits) as E
    by (rewrite Nat2Z.inj_succ, Z.pow_succ_r by lia; lia).
  rewrite E, Z.add_assoc in Hx.
  destruct (Z.leb_spec ((acc + 2 ^ Z.of_nat bits) ^ 3) x); apply IH; lia.
Qed.

(** The constants of the code are those of the standard. *)
Lemma init_words_fips : init_words = Fips.H0.
Proof. vm_compute. reflexivity. Qed.

(** * The transformation *)

Lemma Ch_fips (x y z : Z) : Ch x y z = Fips.Ch x y z.
Proof.
  unfold Ch, Fips.Ch. apply Z.bits_inj'. intros n Hn.
  rewrite !Z.lxor_spec, !Z.land_spec, Z.lxor_spec, Z.lnot_spec by done.
  by destruct (Z.testbit x n), (Z.testbit y n), (Z.testbit z n).
Qed.

Lemma Maj_fips (x y z : Z) : Maj x y z = Fips.Maj x y z.
Proof.
  unfold Maj, Fips.Maj. apply Z.bits_inj'. intros n Hn.
  rewrite !Z.lxor_spec, !Z.lor_spec, !Z.land_spec, Z.lor_spec.
  by destruct (Z.testbit x n), (Z.testbit y n), (Z.testbit z n).
Qed.

Lemma u32_add_l (x y : Z) : u32 (u32 x + y) = u32 (x + y).
Proof. apply Zplus_mod_idemp_l. Qed.

Lemma Round_fips (a b c d e f g h k w d' h' : Z) :
  Round a b c d e f g h k w = (d', h') →
  Fips.round [a; b; c; d; e; f; g; h] k w = [h'; a; b; c; d'; e; f; g].
Proof.
  unfold Round, Fips.round. intros [= <- <-]. rewrite <- Ch_fips, <- Maj_fips.
  change (Fips.Sigma1 e) with (Sigma1 e). change (Fips.Sigma0 a) with (Sigma0 a).
  assert (Ht1 : u32 (u32 (u32 (u32 (h + Sigma1 e) + Ch e f g) + k) + w) =
    (h + Sigma1 e + Ch e f g + k + w) mod 2 ^ 32).
  { by rewrite (u32_add_l (h + _)), (u32_add_l (h + _ + _)), (u32_add_l (h + _ + _ + _)). }
  by rewrite <- Ht1.
Qed.

Lemma schedule_fips (w0 w1 w9 w14 : Z) (win : list Z) :
  win !!! 0%nat = w0 → win !!! 1%nat = w1 → win !!! 9%nat = w9 → win !!! 14%nat = w14 →
  Fips.next_word win = schedule w0 (sigma1 w14) w9 (sigma0 w1).
Proof.
  intros E0 E1 E9 E14. unfold Fips.next_word, schedule. rewrite E0, E1, E9, E14.
  unfold u32, wrap. rewrite Zplus_mod_idemp_l, Zplus_mod_idemp_r. f_equal.
  change (Fips.sigma1 w14) with (sigma1 w14). change (Fips.sigma0 w1) with (sigma0 w1). ring.
Qed.

Lemma rounds_cons (st ks ws : list Z) (k w : Z) :
  Fips.rounds st (k :: ks) (w :: ws) = Fips.rounds (Fips.round st k w) ks ws.
Proof. reflexivity. Qed.

Lemma extend_S (n : nat) (x : Z) (win : list Z) :
  Fips.extend (S n) (x :: win) =
  Fips.next_word (x :: win) :: Fips.extend n (win ++ [Fips.next_word (x :: win)]).
Proof. reflexivity. Qed.

(** Unfolds the next round of the specification. *)
Ltac spec_round E :=
  rewrite rounds_cons; match type of E with Round ?a ?b ?c ?d ?e ?f ?g ?h ?k ?w = (?d', ?h') =>
    rewrite (Round_fips a b c d e f g h k w d' h' E) end; clear E.

(** A line of the code: a word of the message, and a round.  The word becomes a
    variable, here and in the specification. *)
Ltac let_value tac :=
  lazymatch goal with |- (let w := ?v in @?body w) = ?r =>
    let v' := eval cbn [lookup_total list_lookup_total] in v in
    change (body v' = r); cbv beta; tac v' end.

Ltac code_round :=
  lazymatch goal with |- (let '(_, _) := ?r in _) = _ =>
    let E := fresh "E" in let d' := fresh "d" in let h' := fresh "h" in
    destruct r as [d' h'] eqn:E; spec_round E end.

Ltac first_line :=
  let_value ltac:(fun v => let w := fresh "w" in generalize v; intros w); code_round.

Ltac later_line :=
  rewrite extend_S;
  lazymatch goal with
  | |- (let w := schedule ?w0 (sigma1 ?w14) ?w9 (sigma0 ?w1) in _) = _ =>
      rewrite (schedule_fips w0 w1 w9 w14) by reflexivity;
      let_value ltac:(fun v => let w := fresh "w" in generalize v; intros w)
  | |- (let '(_, _) := Round _ _ _ _ _ _ _ _ _ (schedule ?w0 (sigma1 ?w14) ?w9 (sigma0 ?w1)) in _) = _ =>
      rewrite (schedule_fips w0 w1 w9 w14) by reflexivity;
      generalize (schedule w0 (sigma1 w14) w9 (sigma0 w1)); intros ?
  end; cbn [app]; code_round.

Section Target.
Context `{Arch}.

Lemma transform_fips (s chunk : list Z) :
  length s = 8%nat → length chunk = 16%nat →
  secp256k1_sha256_transform s chunk = Fips.compress s (map BE32 chunk).
Proof.
  intros Hs Hc. do 8 (destruct s as [|? s]; [discriminate Hs|]). destruct s; [clear Hs|discriminate Hs].
  do 16 (destruct chunk as [|? chunk]; [discriminate Hc|]). destruct chunk; [clear Hc|discriminate Hc].
  unfold Fips.compress.
  let k := eval vm_compute in Fips.K in replace Fips.K with k by (vm_compute; reflexivity).
  cbn [map app]. cbv beta delta [secp256k1_sha256_transform].
  do 8 let_value ltac:(fun v => idtac).
  do 16 first_line. do 48 later_line.
  cbn [Fips.rounds Fips.extend zip_with lookup_total list_lookup_total]. reflexivity.
Qed.
End Target.
