(* ===== verification/Secp256k1HashApi.v ===== *)
(** Hash contexts: what they stand for while they are fed, and what the functions on
    them compute.  [hashes hash msg] says that the context [hash] has been given
    the bytes [msg]. *)

From Stdlib Require Import ZArith Lia Strings.Byte.
From stdpp Require Import base gmap list fin_maps numbers.
From S2P Require Import Prelude Lz4Common Secp256k1Hash Secp256k1HashProofs.

(** * FIPS 180-4, messages *)

(** The sixteen words of a block of 64 bytes. *)
Definition block_words (l : list byte) : list Z :=
  map (λ i, be_val (take 4 (drop (4 * i) l))) (seq 0 16).

(** The hash value after [n] blocks (section 6.2.2). *)
Fixpoint hash_blocks (n : nat) (H : list Z) (l : list byte) : list Z :=
  match n with
  | O => H
  | S n => hash_blocks n (Fips.compress H (block_words (take 64 l))) (drop 64 l)
  end.

(** The padding of a message of [n] bytes (section 5.1.1): a bit 1, zeros up to 8
    bytes before the end of a block, and the length in bits. *)
Definition padding (n : Z) : list byte :=
  z2b 0x80 :: replicate (Z.to_nat ((55 - n) mod 64)) x00 ++ be_bytes 8 (8 * n).

Definition sha256 (msg : list byte) : list byte :=
  let l := msg ++ padding (zlen msg) in
  mjoin (be_bytes 4 <$> hash_blocks (length l / 64) Fips.H0 l).

(** * Lists of bytes *)

Lemma le_bytes_mod (n : nat) (z : Z) : le_bytes n (z mod 256 ^ Z.of_nat n) = le_bytes n z.
Proof.
  apply le_val_inj; [by rewrite !length_le_bytes|]. rewrite !le_val_le_bytes. apply Zmod_mod.
Qed.

Lemma le_bytes_add (n m : nat) (z : Z) :
  le_bytes (n + m) z = le_bytes n z ++ le_bytes m (z / 256 ^ Z.of_nat n).
Proof.
  revert z. induction n as [|n IH]; intros z; cbn [le_bytes Nat.add app].
  - by rewrite Z.div_1_r.
  - rewrite IH, Z.div_div by lia. by rewrite Nat2Z.inj_succ, Z.pow_succ_r by lia.
Qed.

Lemma be_bytes_split (z : Z) : be_bytes 8 z = be_bytes 4 (z / 2 ^ 32) ++ be_bytes 4 z.
Proof.
  unfold be_bytes. rewrite <- reverse_app. f_equal. apply (le_bytes_add 4 4).
Qed.

Lemma length_be_bytes (n : nat) (z : Z) : length (be_bytes n z) = n.
Proof. unfold be_bytes. by rewrite length_reverse, length_le_bytes. Qed.

Lemma mjoin_cons (l : list byte) (ls : list (list byte)) : mjoin (l :: ls) = l ++ mjoin ls.
Proof. reflexivity. Qed.

Lemma mjoin_1 (l : list byte) : mjoin [l] = l.
Proof. apply app_nil_r. Qed.

Lemma mjoin_3 (l k : list byte) (c : byte) : mjoin [l; [c]; k] = l ++ c :: k.
Proof. by rewrite !mjoin_cons, app_nil_r. Qed.

(** * Blocks *)

Lemma length_round (st : list Z) (k w : Z) : length st = 8%nat → length (Fips.round st k w) = 8%nat.
Proof. intros H. by do 9 (destruct st as [|? st]; try done). Qed.

Lemma length_rounds (st ks ws : list Z) : length st = 8%nat → length (Fips.rounds st ks ws) = 8%nat.
Proof.
  revert st ws. induction ks as [|k ks IH]; intros st [|w ws] H; [done..|].
  cbn [Fips.rounds]. by apply IH, length_round.
Qed.

Lemma length_compress (H b : list Z) : length H = 8%nat → length (Fips.compress H b) = 8%nat.
Proof.
  intros HH. unfold Fips.compress. rewrite length_zip_with, length_rounds by done. lia.
Qed.

#[local] Opaque Fips.compress.

Lemma length_hash_blocks (n : nat) (H : list Z) (l : list byte) :
  length H = 8%nat → length (hash_blocks n H l) = 8%nat.
Proof.
  revert H l. induction n as [|n IH]; intros H l HH; [done|]. cbn [hash_blocks].
  by apply IH, length_compress.
Qed.

Lemma hash_blocks_S (n : nat) (H : list Z) (l : list byte) :
  hash_blocks (S n) H l = hash_blocks n (Fips.compress H (block_words (take 64 l))) (drop 64 l).
Proof. reflexivity. Qed.

Lemma hash_blocks_snoc (n : nat) (H : list Z) (l : list byte) :
  hash_blocks (S n) H l =
  Fips.compress (hash_blocks n H l) (block_words (take 64 (drop (64 * n) l))).
Proof.
  revert H l. induction n as [|n IH]; intros H l; [by rewrite drop_0|].
  rewrite hash_blocks_S, IH, drop_drop, hash_blocks_S.
  by replace (64 + 64 * n)%nat with (64 * S n)%nat by lia.
Qed.

(** Bytes after the blocks do not matter. *)
Lemma hash_blocks_app (n : nat) (H : list Z) (l r : list byte) :
  (64 * n ≤ length l)%nat → hash_blocks n H (l ++ r) = hash_blocks n H l.
Proof.
  revert H l. induction n as [|n IH]; intros H l Hl; [done|]. cbn [hash_blocks].
  rewrite take_app_le, drop_app_le by lia. apply IH. rewrite length_drop. lia.
Qed.

Section Target.
Context `{Arch}.

(** * Words *)

Lemma BE32_bytes (p : Z) :
  BE32 p = if LZ4_isLittleEndian then be_val (le_bytes 4 p) else p.
Proof.
  unfold BE32. destruct LZ4_isLittleEndian; [|done].
  change 0xFF with (Z.shiftl 255 0) at 1. change 0xFF00 with (Z.shiftl 255 8).
  change 0xFF0000 with (Z.shiftl 255 16). change 0xFF000000 with (Z.shiftl 255 24).
  rewrite !land_byte by lia.
  set (a := Z.shiftr p 0 mod 256). set (b := Z.shiftr p 8 mod 256).
  set (c := Z.shiftr p 16 mod 256). set (e := Z.shiftr p 24 mod 256).
  assert (0 ≤ a < 256 ∧ 0 ≤ b < 256 ∧ 0 ≤ c < 256 ∧ 0 ≤ e < 256) as (Ha & Hb & Hc & He)
    by (split_and!; apply Z.mod_pos_bound; lia).
  rewrite !Z.shiftl_mul_pow2, !Z.shiftr_div_pow2 by lia.
  replace (a * 2 ^ 0 * 2 ^ 24) with (a * 2 ^ 24) by lia.
  replace (b * 2 ^ 8 * 2 ^ 8) with (b * 2 ^ 16) by lia.
  replace (c * 2 ^ 16 / 2 ^ 8) with (c * 2 ^ 8) 
    by (replace (c * 2 ^ 16) with (c * 2 ^ 8 * 2 ^ 8) by lia; rewrite Z.div_mul by lia; done).
  replace (e * 2 ^ 24 / 2 ^ 24) with (e * 2 ^ 0) by (rewrite Z.div_mul by lia; lia).
  rewrite (lor_byte 24 a b 16), (lor_byte 16 _ c 8), (lor_byte 8 _ e 0) by lia.
  unfold be_val. cbn [le_bytes]. unfold reverse. simpl rev_append. cbn [le_val].
  rewrite !b2z_z2b, !Z.div_div by lia. unfold a, b, c, e, u8, wrap. rewrite !Z.shiftr_div_pow2 by lia.
  change (2 ^ 8) with 256. change (2 ^ 16) with (256 * 256). change (2 ^ 24) with (256 * (256 * 256)).
  change (2 ^ 0) with 1. rewrite Z.div_1_r. lia.
Qed.

(** A word of memory, read as big-endian. *)
Lemma BE32_word (l : list byte) : length l = 4%nat → BE32 (word_of_bytes l) = be_val l.
Proof.
  intros Hl. rewrite BE32_bytes. unfold word_of_bytes. destruct LZ4_isLittleEndian; [|done].
  rewrite <- Hl at 1. by rewrite le_bytes_le_val.
Qed.

(** A word written as big-endian. *)
Lemma bytes_of_BE32 (p : Z) : bytes_of_word (BE32 p) = be_bytes 4 p.
Proof.
  rewrite BE32_bytes. unfold bytes_of_word. destruct LZ4_isLittleEndian; [|done].
  unfold be_val, be_bytes.
  replace 4%nat with (length (reverse (le_bytes 4 p))) at 1 by (by rewrite length_reverse, length_le_bytes).
  apply le_bytes_le_val.
Qed.

Lemma bytes_of_word_u32 (x : Z) : bytes_of_word (u32 x) = bytes_of_word x.
Proof.
  unfold bytes_of_word, be_bytes. change (u32 x) with (x mod 256 ^ Z.of_nat 4).
  by rewrite le_bytes_mod.
Qed.

Lemma buf_words_block (l : list byte) :
  length l = 64%nat → map BE32 (buf_words l) = block_words l.
Proof.
  intros Hl. unfold buf_words, block_words. rewrite map_map. apply map_ext_in.
  intros i Hi. apply in_seq in Hi. apply BE32_word. rewrite length_take, length_drop. lia.
Qed.

(** * Contexts *)

(** How many bytes a context can be given: their number in bits is a 64-bit number,
    and the sum of a length and the buffer's fill fits [size_t]. *)
Definition size_limit : Z := if LZ4_64bits then 2 ^ 61 - 128 else 2 ^ 32 - 128.

Lemma usz_small (z : Z) : 0 ≤ z < size_limit + 128 → usz z = z.
Proof.
  unfold usz, size_limit. destruct LZ4_64bits; intros; [apply u64_small|apply u32_small]; lia.
Qed.

Lemma size_limit_large : 2 ^ 31 < size_limit.
Proof. unfold size_limit. destruct LZ4_64bits; lia. Qed.

(** The words and the buffer of a context that has been given [msg]. *)
Definition absorbed (ws : list Z) (b msg : list byte) : Prop :=
  length b = 64%nat ∧ ws = hash_blocks (length msg / 64) Fips.H0 msg ∧
  take (length msg mod 64) b = drop (64 * (length msg / 64)) msg.

Definition hashes (hash : secp256k1_sha256_t) (msg : list byte) : Prop :=
  bytes hash = zlen msg ∧ zlen msg < size_limit ∧ absorbed (s hash) (buf hash) msg.

(** A block is completed and transformed. *)
Lemma absorbed_block (ws : list Z) (b msg pre : list byte) :
  absorbed ws b msg → length pre = (64 - length msg mod 64)%nat →
  let b' := take (length msg mod 64) b ++ pre in
  absorbed (secp256k1_sha256_transform ws (buf_words b')) b' (msg ++ pre) ∧
  (length (msg ++ pre) mod 64 = 0)%nat.
Proof.
  intros (Hb & -> & Ht) Hp b'.
  pose proof (Nat.div_mod_eq (length msg) 64) as Hdm.
  pose proof (Nat.mod_upper_bound (length msg) 64 ltac:(lia)) as Hm.
  assert (Hlen : length (msg ++ pre) = (64 * S (length msg / 64))%nat) by (rewrite length_app; lia).
  assert (Hdiv : (length (msg ++ pre) / 64 = S (length msg / 64))%nat)
    by (rewrite Hlen, Nat.mul_comm; apply Nat.div_mul; lia).
  assert (Hmod : (length (msg ++ pre) mod 64 = 0)%nat)
    by (rewrite Hlen, Nat.mul_comm; apply Nat.Div0.mod_mul).
  assert (Hb' : length b' = 64%nat) by (unfold b'; rewrite length_app, length_take; lia).
  assert (Heq : b' = drop (64 * (length msg / 64)) (msg ++ pre))
    by (unfold b'; rewrite Ht, drop_app_le by lia; done).
  split; [|done]. split_and!; [done| |].
  - rewrite Hdiv, hash_blocks_snoc, hash_blocks_app by lia.
    rewrite <- Heq, take_ge by lia.
    rewrite transform_fips, buf_words_block by (done || by apply length_hash_blocks). done.
  - rewrite Hmod, Hdiv, take_0. symmetry. apply drop_ge. lia.
Qed.
#[local] Opaque secp256k1_sha256_transform.

(** The loop takes all the blocks there are. *)
Lemma write_loop_spec (fuel : nat) (ws : list Z) (b msg data : list byte) :
  (length data < fuel)%nat → zlen msg + zlen data < size_limit → absorbed ws b msg →
  let '(ws', b', rest, bufsize) := write_loop fuel ws b data (zlen msg mod 64) in
  ∃ pre, data = pre ++ rest ∧ absorbed ws' b' (msg ++ pre) ∧
    bufsize = zlen (msg ++ pre) mod 64 ∧ bufsize + zlen rest < 64.
Proof.
  revert ws b msg data. induction fuel as [|fuel IH]; intros ws b msg data Hf Hs Ha; [lia|].
  pose proof (Z.mod_pos_bound (zlen msg) 64 ltac:(lia)) as Hm.
  assert (Hmn : Z.to_nat (zlen msg mod 64) = (length msg mod 64)%nat)
    by (rewrite <- (Nat2Z.inj_mod _ 64); lia).
  cbn [write_loop]. rewrite usz_small by lia. rewrite Z.geb_leb.
  destruct (Z.leb_spec 64 (zlen msg mod 64 + zlen data)) as [Hle|Hgt].
  - set (room := Z.to_nat (64 - zlen msg mod 64)).
    assert (Hroom : room = (64 - length msg mod 64)%nat) by lia.
    assert (Hpre : length (take room data) = room) by (rewrite length_take; lia).
    rewrite Hmn. destruct (absorbed_block ws b msg (take room data) Ha ltac:(lia)) as [Ha' Hz].
    specialize (λ H1 H2, IH _ _ (msg ++ take room data) (drop room data) H1 H2 Ha') as IH'.
    clear IH. rename IH' into IH.
    replace (zlen (msg ++ take room data) mod 64) with 0 in IH
      by (rewrite <- (Nat2Z.inj_mod _ 64), Hz; done).
    destruct (write_loop fuel _ _ (drop room data) 0) as [[[ws' b'] rest] bs].
    destruct IH as (pre & Hd & Hab & Hbs & Hlt); [rewrite length_drop; lia| |].
    { rewrite length_app, length_drop. lia. }
    exists (take room data ++ pre). rewrite <- (assoc_L app), <- Hd, take_drop.
    rewrite (assoc_L app). done.
  - exists []. rewrite app_nil_r. split_and!; [done|done|done|lia].
Qed.

Lemma write_hashes (hash : secp256k1_sha256_t) (msg data : list byte) :
  hashes hash msg → zlen msg + zlen data < size_limit →
  hashes (secp256k1_sha256_write hash data) (msg ++ data).
Proof.
  intros (Hb & Hl & Ha) Hs. unfold secp256k1_sha256_write.
  assert (Hbs : Z.land (bytes hash) 0x3F = zlen msg mod 64)
    by (rewrite Hb; exact (Z.land_ones (zlen msg) 6 ltac:(lia))).
  rewrite Hbs. pose proof (write_loop_spec (S (length data)) _ _ msg data ltac:(lia) Hs Ha) as Hloop.
  destruct (write_loop _ _ _ data _) as [[[ws b] rest] bufsize].
  destruct Hloop as (pre & -> & (Hb64 & Hws & Htake) & -> & Hlt).
  assert (Hn : Z.to_nat (zlen (msg ++ pre) mod 64) = (length (msg ++ pre) mod 64)%nat)
    by (rewrite <- (Nat2Z.inj_mod _ 64); lia).
  rewrite Hn. set (M := msg ++ pre) in *.
  pose proof (Nat.div_mod_eq (length M) 64) as Hdm. pose proof (Nat2Z.inj_mod (length M) 64) as Hzm.
  assert (Hq : ((length M + length rest) / 64 = length M / 64)%nat).
  { symmetry. apply (Nat.div_unique _ _ _ (length M mod 64 + length rest)); lia. }
  assert (Hr : ((length M + length rest) mod 64 = length M mod 64 + length rest)%nat).
  { symmetry. apply (Nat.mod_unique _ _ (length M / 64)); lia. }
  split_and!; cbn [bytes s buf].
  - rewrite Hb, usz_small by lia. rewrite !length_app. lia.
  - rewrite length_app. lia.
  - rewrite (assoc_L app msg pre rest). fold M. split_and!.
    + rewrite !length_app, length_take, length_drop. lia.
    + rewrite length_app, Hq, hash_blocks_app by lia. done.
    + rewrite length_app, Hq, Hr, drop_app_le by lia. rewrite <- Htake, (assoc_L app).
      rewrite take_app_length' by (rewrite length_app, length_take; lia). done.
Qed.

Lemma initialize_hashes (hash : secp256k1_sha256_t) :
  length (buf hash) = 64%nat → hashes (secp256k1_sha256_initialize hash) [].
Proof.
  intros Hb. split_and!; [done|unfold size_limit; destruct LZ4_64bits; simpl; lia|].
  by split_and!.
Qed.

(** The two writes of [finalize] are the padding. *)
Lemma padding_pieces (n : Z) :
  0 ≤ n < size_limit →
  take (Z.to_nat (usz (1 + (119 - n mod 64) mod 64))) pad ++
  mjoin (bytes_of_word <$> [u32 (BE32 (Z.shiftr n 29)); u32 (BE32 (usz (Z.shiftl n 3)))]) = padding n.
Proof.
  intros Hn. assert (Hlim : size_limit + 128 ≤ 2 ^ 61) by (unfold size_limit; destruct LZ4_64bits; lia).
  assert (Hmod : (119 - n mod 64) mod 64 = (55 - n) mod 64) by zdiv.
  pose proof (Z.mod_pos_bound (55 - n) 64 ltac:(lia)).
  rewrite Hmod, usz_small by (unfold size_limit in *; destruct LZ4_64bits; lia).
  unfold padding. cbn [fmap list_fmap mjoin list_join].
  rewrite !bytes_of_word_u32, !bytes_of_BE32, app_nil_r.
  replace (Z.to_nat (1 + (55 - n) mod 64)) with (S (Z.to_nat ((55 - n) mod 64))) by lia.
  unfold pad. cbn [take app]. f_equal. rewrite take_replicate, Nat.min_l by lia. f_equal.
  rewrite be_bytes_split, Z.shiftr_div_pow2, Z.shiftl_mul_pow2 by lia. f_equal.
  - f_equal. replace (2 ^ 32) with (8 * 2 ^ 29) by lia. rewrite <- Z.div_div by lia.
    rewrite Z.mul_comm, Z.div_mul by lia. done.
  - unfold be_bytes. f_equal. rewrite <- (le_bytes_mod 4), <- (le_bytes_mod 4 (8 * n)).
    f_equal. change (256 ^ Z.of_nat 4) with (2 ^ 32). rewrite (Z.mul_comm n).
    unfold usz, u64, u32, wrap. destruct LZ4_64bits; [|apply Zmod_mod].
    apply Z.mod_mod_divide. by exists (2 ^ 32).
Qed.

(** A finalised context has written the hash of what it was given. *)
Lemma finalize_sha256 (hash : secp256k1_sha256_t) (msg : list byte) :
  hashes hash msg → zlen msg + 128 < size_limit →
  (secp256k1_sha256_finalize hash).2 = sha256 msg ∧
  length (buf (secp256k1_sha256_finalize hash).1) = 64%nat.
Proof.
  intros Hh Hl. unfold secp256k1_sha256_finalize. pose proof Hh as (Hb & _). rewrite Hb.
  pose proof (padding_pieces (zlen msg) ltac:(lia)) as Hp.
  set (p1 := take _ pad) in *. set (p2 := mjoin (bytes_of_word <$> _)) in *.
  assert (Hlen : zlen (padding (zlen msg)) ≤ 72 ∧ (zlen msg + zlen (padding (zlen msg))) mod 64 = 0).
  { unfold padding. cbn [length]. rewrite length_app, length_replicate, length_be_bytes.
    pose proof (Z.mod_pos_bound (55 - zlen msg) 64 ltac:(lia)). zdiv. }
  assert (Hsum : zlen p1 + zlen p2 = zlen (padding (zlen msg))) by (rewrite <- Hp, length_app; lia).
  assert (H1 := write_hashes hash msg p1 Hh ltac:(lia)).
  assert (H2 := write_hashes _ (msg ++ p1) p2 H1 ltac:(rewrite length_app; lia)).
  rewrite <- (assoc_L app), Hp in H2. destruct H2 as (_ & _ & Hb64 & Hs & _).
  cbn [fst snd buf]. split; [|done]. rewrite Hs. unfold sha256. f_equal.
  apply list_fmap_ext. intros i x _. apply bytes_of_BE32.
Qed.

Lemma writes_hash (pieces : list (list byte)) (hash : secp256k1_sha256_t) (msg : list byte) :
  hashes hash msg → zlen msg + zlen (mjoin pieces) < size_limit →
  hashes (foldl secp256k1_sha256_write hash pieces) (msg ++ mjoin pieces).
Proof.
  revert hash msg. induction pieces as [|p pieces IH]; intros hash msg Hh Hs.
  - by rewrite app_nil_r.
  - cbn [foldl]. rewrite mjoin_cons in *. rewrite length_app in Hs. rewrite (assoc_L app).
    apply IH; [apply write_hashes; [done|lia]|rewrite length_app; lia].
Qed.

(** * HMAC *)

Lemma xor_pads (b : byte) : xor_byte (Z.lxor 0x5c 0x36) (xor_byte 0x5c b) = xor_byte 0x36 b.
Proof. by destruct b. Qed.
End Target.

Lemma length_sha256 (msg : list byte) : length (sha256 msg) = 32%nat.
Proof.
  unfold sha256. pose proof (length_hash_blocks (length (msg ++ padding (zlen msg)) / 64) Fips.H0
    (msg ++ padding (zlen msg)) eq_refl) as H.
  remember (hash_blocks _ _ _) as ws. clear Heqws. do 9 (destruct ws as [|? ws]; try done).
Qed.

(** RFC 2104, with blocks of 64 bytes. *)
Definition hmac_key (key : list byte) : list byte :=
  let key := if zlen key <=? 64 then key else sha256 key in
  key ++ replicate (64 - length key) x00.

Definition hmac_sha256 (key msg : list byte) : list byte :=
  sha256 (map (xor_byte 0x5c) (hmac_key key) ++ sha256 (map (xor_byte 0x36) (hmac_key key) ++ msg)).

Lemma length_hmac_key (key : list byte) : length (hmac_key key) = 64%nat.
Proof.
  unfold hmac_key. rewrite length_app, length_replicate.
  destruct (Z.leb_spec (zlen key) 64); [|rewrite length_sha256]; lia.
Qed.

Section Target.
Context `{Arch}.
Context (local : secp256k1_sha256_t) (Hlocal : length (buf local) = 64%nat).

Lemma hmac_rkey_key (key : list byte) :
  zlen key + 128 < size_limit → hmac_rkey local key = hmac_key key.
Proof using Hlocal.
  intros Hk. unfold hmac_rkey, hmac_key. destruct (zlen key <=? 64); [done|].
  rewrite length_sha256. f_equal.
  assert (H0 := initialize_hashes local Hlocal).
  apply (finalize_sha256 _ key); [|done].
  apply (write_hashes _ [] key); [done|]. simpl. lia.
Qed.

(** The contexts of an HMAC that has been given [msg]. *)
Definition hmac_hashes (hash : secp256k1_hmac_sha256_t) (key msg : list byte) : Prop :=
  hashes (inner hash) (map (xor_byte 0x36) (hmac_key key) ++ msg) ∧
  hashes (outer hash) (map (xor_byte 0x5c) (hmac_key key)).

Lemma hmac_initialize_hashes (hash : secp256k1_hmac_sha256_t) (key : list byte) :
  length (buf (inner hash)) = 64%nat → length (buf (outer hash)) = 64%nat →
  zlen key + 128 < size_limit →
  hmac_hashes (secp256k1_hmac_sha256_initialize local hash key) key [].
Proof using Hlocal.
  intros Hi Ho Hk. unfold secp256k1_hmac_sha256_initialize. rewrite hmac_rkey_key by done.
  pose proof size_limit_large. pose proof (length_hmac_key key).
  assert (Hlen : ∀ c, zlen (map (xor_byte c) (hmac_key key)) = 64) by (intros; rewrite length_map; lia).
  split; cbn [inner outer].
  - rewrite map_map, (map_ext _ _ xor_pads), app_nil_r.
    apply (write_hashes _ [] (map _ _)); [by apply initialize_hashes|]. rewrite Hlen. simpl. lia.
  - apply (write_hashes _ [] (map _ _)); [by apply initialize_hashes|]. rewrite Hlen. simpl. lia.
Qed.

Lemma hmac_writes (pieces : list (list byte)) (hash : secp256k1_hmac_sha256_t) (key msg : list byte) :
  hmac_hashes hash key msg → zlen msg + zlen (mjoin pieces) + 64 < size_limit →
  hmac_hashes (foldl secp256k1_hmac_sha256_write hash pieces) key (msg ++ mjoin pieces).
Proof.
  revert hash msg. induction pieces as [|p pieces IH]; intros hash msg Hh Hs.
  - by rewrite app_nil_r.
  - cbn [foldl]. rewrite mjoin_cons in *. rewrite length_app in Hs. rewrite (assoc_L app).
    apply IH; [|rewrite length_app; lia]. destruct Hh as [Hi Ho]. split; [|done].
    cbn [inner secp256k1_hmac_sha256_write]. rewrite (assoc_L app).
    apply write_hashes; [done|]. rewrite length_app, length_map, length_hmac_key. lia.
Qed.

Lemma hmac_finalize (hash : secp256k1_hmac_sha256_t) (key msg : list byte) :
  hmac_hashes hash key msg → zlen msg + 192 < size_limit →
  (secp256k1_hmac_sha256_finalize hash).2 = hmac_sha256 key msg.
Proof.
  intros [Hi Ho] Hs. pose proof size_limit_large. unfold secp256k1_hmac_sha256_finalize.
  destruct (finalize_sha256 _ _ Hi) as [Ei _].
  { rewrite length_app, length_map, length_hmac_key. lia. }
  destruct (secp256k1_sha256_finalize (inner hash)) as [i temp]. cbn [snd] in Ei. subst temp.
  set (temp := sha256 _).
  assert (Hw : hashes (secp256k1_sha256_write (outer hash) temp)
    (map (xor_byte 0x5c) (hmac_key key) ++ temp)).
  { apply write_hashes; [done|]. unfold temp. rewrite length_map, length_hmac_key, length_sha256. lia. }
  destruct (finalize_sha256 _ _ Hw) as [Eo _].
  { unfold temp. rewrite length_app, length_map, length_hmac_key, length_sha256. lia. }
  destruct (secp256k1_sha256_finalize _) as [o out]. exact Eo.
Qed.

Lemma hmac_of_spec (key : list byte) (pieces : list (list byte)) :
  zlen key + 128 < size_limit → zlen (mjoin pieces) + 192 < size_limit →
  hmac_of local key pieces = hmac_sha256 key (mjoin pieces).
Proof using Hlocal.
  intros Hk Hp. unfold hmac_of. apply hmac_finalize; [|done].
  apply (hmac_writes pieces _ key []); [by apply hmac_initialize_hashes|]. simpl. lia.
Qed.
End Target.

(** * RFC 6979 *)

(** The generator of section 3.2 with HMAC-SHA-256: a key, a value, and whether the
    next request is preceded by an update (step h.3). *)
Record drbg := Drbg { dK : list byte; dV : list byte; again : bool }.

Definition drbg_update (K V data : list byte) : list byte * list byte :=
  let K := hmac_sha256 K (V ++ data) in
  (K, hmac_sha256 K V).

(** Steps b to g. *)
Definition drbg_init (key : list byte) : drbg :=
  let '(K, V) := drbg_update (replicate 32 x00) (replicate 32 x01) (x00 :: key) in
  let '(K, V) := drbg_update K V (x01 :: key) in
  Drbg K V false.

(** The values [V] of step h.2. *)
Fixpoint drbg_blocks (K V : list byte) (n : nat) : list (list byte) :=
  match n with
  | O => []
  | S n => let V := hmac_sha256 K V in V :: drbg_blocks K V n
  end.

Definition drbg_generate (st : drbg) (len : Z) : drbg * list byte :=
  let '(K, V) := if again st then drbg_update (dK st) (dV st) [x00] else (dK st, dV st) in
  let bs := drbg_blocks K V (Z.to_nat ((len + 31) / 32)) in
  (Drbg K (List.last bs V) true, take (Z.to_nat len) (mjoin bs)).

(** The outputs of a sequence of requests. *)
Fixpoint drbg_outputs (st : drbg) (lens : list Z) : list (list byte) :=
  match lens with
  | [] => []
  | n :: lens => let '(st, out) := drbg_generate st n in out :: drbg_outputs st lens
  end.

Lemma length_hmac_sha256 (key msg : list byte) : length (hmac_sha256 key msg) = 32%nat.
Proof. apply length_sha256. Qed.

Lemma last_cons_default {A} (l : list A) (x y : A) : List.last (x :: l) y = List.last l x.
Proof.
  revert x y. induction l as [|z l IH]; intros x y; [done|].
  change (List.last (z :: l) y = List.last (z :: l) x). by rewrite !IH.
Qed.

Lemma drbg_blocks_last (K V : list byte) (n : nat) :
  length V = 32%nat → length (List.last (drbg_blocks K V n) V) = 32%nat.
Proof.
  revert V. induction n as [|n IH]; intros V HV; [done|]. cbn [drbg_blocks].
  rewrite last_cons_default. apply IH, length_hmac_sha256.
Qed.

Section Target.
Context `{Arch}.
Context (local : secp256k1_sha256_t) (Hlocal : length (buf local) = 64%nat).

#[local] Opaque hmac_of hmac_sha256.

(** A generator and the one it implements. *)
Definition rng_is (rng : secp256k1_rfc6979_hmac_sha256_t) (st : drbg) : Prop :=
  k rng = dK st ∧ v rng = dV st ∧ (retry rng =? 0) = negb (again st) ∧
  length (dK st) = 32%nat ∧ length (dV st) = 32%nat.

(** The calls with a key and pieces of a few bytes. *)
Lemma hmac_of_short (key : list byte) (pieces : list (list byte)) :
  zlen key < 2 ^ 30 → zlen (mjoin pieces) < 2 ^ 30 →
  hmac_of local key pieces = hmac_sha256 key (mjoin pieces).
Proof using Hlocal.
  intros Hk Hp. pose proof size_limit_large. apply hmac_of_spec; [done|lia|lia].
Qed.

Lemma rfc6979_initialize (key : list byte) :
  zlen key < 2 ^ 29 →
  rng_is (secp256k1_rfc6979_hmac_sha256_initialize local key) (drbg_init key).
Proof using Hlocal.
  intros Hk. unfold secp256k1_rfc6979_hmac_sha256_initialize, drbg_init, drbg_update.
  assert (Hp : ∀ V c, length V = 32%nat → zlen (mjoin [V; [c]; key]) < 2 ^ 30 ∧
    mjoin [V; [c]; key] = V ++ c :: key).
  { intros V c HV. rewrite mjoin_3, length_app. simpl length. split; [lia|done]. }
  assert (Hv : ∀ V : list byte, length V = 32%nat → zlen (mjoin [V]) < 2 ^ 30 ∧ mjoin [V] = V).
  { intros V HV. rewrite mjoin_1. split; [lia|done]. }
  assert (H32 : ∀ K V : list byte, zlen (hmac_sha256 K V) = 32) by (intros; by rewrite length_hmac_sha256).
  destruct (Hp (replicate 32 x01) x00 eq_refl) as [L1 E1].
  destruct (Hv (replicate 32 x01) eq_refl) as [L2 E2].
  rewrite (hmac_of_short (replicate 32 x00) [replicate 32 x01; [x00]; key]), E1 by (done || (simpl; lia)).
  rewrite (hmac_of_short _ [replicate 32 x01]), E2 by (rewrite ?H32; done || lia).
  set (K1 := hmac_sha256 (replicate 32 x00) _). set (V1 := hmac_sha256 K1 _).
  destruct (Hp V1 x01 (length_hmac_sha256 _ _)) as [L3 E3].
  destruct (Hv V1 (length_hmac_sha256 _ _)) as [L4 E4].
  rewrite (hmac_of_short K1 [V1; [x01]; key]), E3 by (unfold K1; rewrite ?H32; done || lia).
  rewrite (hmac_of_short _ [V1]), E4 by (rewrite ?H32; done || lia).
  split_and!; [done|done|done|apply length_hmac_sha256..].
Qed.

Lemma generate_loop_spec (fuel : nat) (K V : list byte) (len : Z) :
  0 ≤ len < 2 ^ 31 → (Z.to_nat len < fuel)%nat → length K = 32%nat → length V = 32%nat →
  let bs := drbg_blocks K V (Z.to_nat ((len + 31) / 32)) in
  generate_loop fuel local K V len = (List.last bs V, take (Z.to_nat len) (mjoin bs)).
Proof using Hlocal.
  revert V len. induction fuel as [|fuel IH]; intros V len Hlen Hf HK HV; [lia|].
  cbn [generate_loop]. rewrite Z.gtb_ltb. destruct (Z.ltb_spec 0 len) as [Hpos|Hz].
  - rewrite s32_small, Z.gtb_ltb by lia. set (now := if 32 <? len then 32 else len).
    assert (Hnow : now = Z.min 32 len) by (unfold now; destruct (Z.ltb_spec 32 len); lia).
    rewrite (hmac_of_short K [V]), mjoin_1 by (rewrite ?mjoin_1; lia). set (V' := hmac_sha256 K V).
    assert (HV' : length V' = 32%nat) by apply length_hmac_sha256.
    pose proof size_limit_large. rewrite usz_small by lia. rewrite (IH V') by (done || lia).
    replace (Z.to_nat ((len + 31) / 32)) with (S (Z.to_nat ((len - now + 31) / 32))) by zdiv.
    cbn [drbg_blocks]. fold V'. rewrite last_cons_default. f_equal. rewrite mjoin_cons.
    destruct (Z.ltb_spec 32 len) as [Hbig|Hsmall].
    + rewrite (take_ge V') by lia. rewrite take_app_ge by lia. do 2 f_equal. lia.
    + replace (len - now) with 0 by lia. rewrite take_0, app_nil_r, take_app_le by lia. f_equal; lia.
  - assert (len = 0) as -> by lia. done.
Qed.

Lemma rfc6979_generate (rng : secp256k1_rfc6979_hmac_sha256_t) (st : drbg) (len : Z) :
  rng_is rng st → 0 ≤ len < 2 ^ 31 →
  let '(rng', out) := secp256k1_rfc6979_hmac_sha256_generate local rng len in
  let '(st', out') := drbg_generate st len in
  rng_is rng' st' ∧ out = out'.
Proof using Hlocal.
  intros (Hk & Hv & Hr & LK & LV) Hlen. unfold secp256k1_rfc6979_hmac_sha256_generate, drbg_generate.
  rewrite Hr, Hk, Hv, negb_involutive. unfold drbg_update.
  rewrite (hmac_of_short (dK st) [dV st; [x00]]), mjoin_cons, mjoin_1
    by (rewrite ?mjoin_cons, ?mjoin_1, ?length_app; simpl; lia). set (K' := hmac_sha256 (dK st) _).
  assert (LK' : length K' = 32%nat) by apply length_hmac_sha256.
  rewrite (hmac_of_short K' [dV st]), mjoin_1 by (rewrite ?mjoin_1; lia).
  destruct (again st); rewrite generate_loop_spec by (done || lia || apply length_hmac_sha256).
  - split; [|done]. split_and!; [done|done|done|done|]. apply drbg_blocks_last, length_hmac_sha256.
  - split; [|done]. split_and!; [done|done|done|done|]. by apply drbg_blocks_last.
Qed.

(** The outputs of a sequence of calls of [generate]. *)
Fixpoint generate_all (rng : secp256k1_rfc6979_hmac_sha256_t) (lens : list Z) : list (list byte) :=
  match lens with
  | [] => []
  | n :: lens =>
      let '(rng, out) := secp256k1_rfc6979_hmac_sha256_generate local rng n in
      out :: generate_all rng lens
  end.

Lemma generate_all_spec (lens : list Z) (rng : secp256k1_rfc6979_hmac_sha256_t) (st : drbg) :
  rng_is rng st → Forall (λ n, 0 ≤ n < 2 ^ 31) lens → generate_all rng lens = drbg_outputs st lens.
Proof using Hlocal.
  intros Hr Hl. revert rng st Hr. induction Hl as [|n lens Hn _ IH]; intros rng st Hr; [done|].
  cbn [generate_all drbg_outputs]. pose proof (rfc6979_generate rng st n Hr Hn) as Hg.
  destruct (secp256k1_rfc6979_hmac_sha256_generate _ _ _), (drbg_generate _ _).
  destruct Hg as [Hr' ->]. f_equal. by apply IH.
Qed.
End Target.

(** * Results *)

(** C33: Fed with any pieces of a message, on either byte order and whatever the context
    held before, the context gives the SHA-256 of FIPS 180-4 of the message. *)
Theorem secp256k1_sha256_incremental `{Arch} (hash : secp256k1_sha256_t) (pieces : list (list byte)) :
  length (buf hash) = 64%nat → zlen (mjoin pieces) + 128 < size_limit →
  (secp256k1_sha256_finalize
    (foldl secp256k1_sha256_write (secp256k1_sha256_initialize hash) pieces)).2 = sha256 (mjoin pieces).
Proof.
  intros Hb Hs. apply finalize_sha256; [|done].
  apply (writes_hash pieces _ []); [by apply initialize_hashes|]. simpl. lia.
Qed.

(** A keyed context fed with any pieces of a message gives the HMAC of RFC 2104 of
    the message, for keys shorter and longer than a block. *)
Theorem secp256k1_hmac_incremental `{Arch} (local : secp256k1_sha256_t)
    (hash : secp256k1_hmac_sha256_t) (key : list byte) (pieces : list (list byte)) :
  length (buf local) = 64%nat → length (buf (inner hash)) = 64%nat → length (buf (outer hash)) = 64%nat →
  zlen key + 128 < size_limit → zlen (mjoin pieces) + 192 < size_limit →
  (secp256k1_hmac_sha256_finalize
    (foldl secp256k1_hmac_sha256_write (secp256k1_hmac_sha256_initialize local hash key) pieces)).2 =
  hmac_sha256 key (mjoin pieces).
Proof.
  intros Hl Hi Ho Hk Hp. eapply hmac_finalize; [done| |done].
  apply (hmac_writes local Hl pieces _ key []); [by apply hmac_initialize_hashes|]. simpl. lia.
Qed.

(** C34: The nonce generator, asked for any sequence of lengths, gives the output of the
    generator of RFC 6979, section 3.2, seeded with the same bytes. *)
Theorem secp256k1_rfc6979_refines `{Arch} (local : secp256k1_sha256_t) (key : list byte) (lens : list Z) :
  length (buf local) = 64%nat → zlen key < 2 ^ 29 → Forall (λ n, 0 ≤ n < 2 ^ 31) lens →
  generate_all local (secp256k1_rfc6979_hmac_sha256_initialize local key) lens =
  drbg_outputs (drbg_init key) lens.
Proof.
  intros Hl Hk Hn. apply (generate_all_spec local Hl); [|done]. by apply rfc6979_initialize.
Qed.
