(* ===== verification/Secp256k1Field.v ===== *)
(** Integers modulo the field prime of secp256k1, as the node computes with them:
    src/src/secp256k1/src/field_10x26_impl.h and field_impl.h, in the
    configuration of the node (ten limbs of 26 bits, the built-in inverse).

    A field element is an array of ten 32-bit limbs, the least significant
    first, which stand for the sum of [n[i] * 2 ^ (26 i)].  Limbs may be larger
    than 26 bits: how much larger is the magnitude of the element, which the
    callers keep track of (and [secp256k1_fe_verify] checks in test builds).
    The functions return the element that the C functions leave in [r]; they
    read what they need of their arguments before they overwrite it, so that [r]
    may be an argument where the callers make it one. *)

From Stdlib Require Import ZArith Lia Strings.Byte.
From stdpp Require Import base gmap list fin_maps numbers.
From S2P Require Import Prelude Secp256k1Scalar.

(** * Data *)

Record secp256k1_fe := Fe { fe_n : list Z }.
Record secp256k1_fe_storage := FeStorage { st_n : list Z }.

(** [a->n[i]] *)
Definition fe_limb (a : secp256k1_fe) (i : nat) : Z := fe_n a !!! i.
Definition st_limb (a : secp256k1_fe_storage) (i : nat) : Z := st_n a !!! i.

(** The mask of a limb, and of the highest one. *)
Definition M26 : Z := 0x3FFFFFF.
Definition M22 : Z := 0x03FFFFF.

(** [SECP256K1_FE_CONST] *)
Definition SECP256K1_FE_CONST (d7 d6 d5 d4 d3 d2 d1 d0 : Z) : secp256k1_fe := Fe [
  Z.land d0 M26;
  Z.lor (Z.shiftr d0 26) (u32 (Z.shiftl (Z.land d1 0xFFFFF) 6));
  Z.lor (Z.shiftr d1 20) (u32 (Z.shiftl (Z.land d2 0x3FFF) 12));
  Z.lor (Z.shiftr d2 14) (u32 (Z.shiftl (Z.land d3 0xFF) 18));
  Z.lor (Z.shiftr d3 8) (u32 (Z.shiftl (Z.land d4 0x3) 24));
  Z.land (Z.shiftr d4 2) M26;
  Z.lor (Z.shiftr d4 28) (u32 (Z.shiftl (Z.land d5 0x3FFFFF) 4));
  Z.lor (Z.shiftr d5 22) (u32 (Z.shiftl (Z.land d6 0xFFFF) 10));
  Z.lor (Z.shiftr d6 16) (u32 (Z.shiftl (Z.land d7 0x3FF) 16));
  Z.shiftr d7 10 ].

Definition SECP256K1_FE_STORAGE_CONST (d7 d6 d5 d4 d3 d2 d1 d0 : Z) : secp256k1_fe_storage :=
  FeStorage [d0; d1; d2; d3; d4; d5; d6; d7].

(** What test builds check after each operation, given the magnitude and the
    flag that they keep beside the limbs. *)
Definition secp256k1_fe_verify (a : secp256k1_fe) (magnitude : Z) (normalized : bool) : bool :=
  let m := if normalized then 1 else 2 * magnitude in
  let r :=
    (fe_limb a 0 <=? M26 * m) && (fe_limb a 1 <=? M26 * m) && (fe_limb a 2 <=? M26 * m) &&
    (fe_limb a 3 <=? M26 * m) && (fe_limb a 4 <=? M26 * m) && (fe_limb a 5 <=? M26 * m) &&
    (fe_limb a 6 <=? M26 * m) && (fe_limb a 7 <=? M26 * m) && (fe_limb a 8 <=? M26 * m) &&
    (fe_limb a 9 <=? M22 * m) && (magnitude >=? 0) && (magnitude <=? 32) in
  if normalized then
    let r := r && (magnitude <=? 1) in
    if r && (fe_limb a 9 =? M22) then
      let mid := Z.land (Z.land (Z.land (Z.land (Z.land (Z.land (fe_limb a 8) (fe_limb a 7))
        (fe_limb a 6)) (fe_limb a 5)) (fe_limb a 4)) (fe_limb a 3)) (fe_limb a 2) in
      if mid =? M26 then
        r && (fe_limb a 1 + 0x40 + Z.shiftr (fe_limb a 0 + 0x3D1) 26 <=? M26)
      else r
    else r
  else r.

(** * Normalization *)

(** The statements [t1 += (t0 >> 26); t0 &= 0x3FFFFFF;] and so on, of one limb after
    the other: each limb is added what is carried in, and all but the last one
    are cut to 26 bits. *)
Fixpoint carry26 (c : Z) (t : list Z) : list Z :=
  match t with
  | [] => []
  | [x] => [u32 (x + c)]
  | x :: t => let s := u32 (x + c) in Z.land s M26 :: carry26 (Z.shiftr s 26) t
  end.

(** Adds [x] times [2^256 - p], that is, [t0 += x * 0x3D1; t1 += (x << 6)], and carries. *)
Definition add_fold (x : Z) (t : list Z) : list Z :=
  match t with
  | t0 :: t1 :: t => carry26 0 (u32 (t0 + u32 (x * 0x3D1)) :: u32 (t1 + u32 (Z.shiftl x 6)) :: t)
  | _ => []
  end.

(** The first pass of all normalizations: what is above bit 256 is folded in. *)
Definition first_pass (r : secp256k1_fe) : list Z :=
  let t9 := fe_limb r 9 in
  let x := Z.shiftr t9 22 in
  add_fold x (<[9%nat := Z.land t9 M22]> (fe_n r)).

(** Whether the number is at least the prime, for limbs within 26 bits:
    [m] is the conjunction of [t2] to [t8].  The sums do not exceed 27 bits. *)
Definition needs_reduction (t : list Z) : Z :=
  let m := Z.land (Z.land (Z.land (Z.land (Z.land (Z.land (t !!! 2%nat) (t !!! 3%nat))
    (t !!! 4%nat)) (t !!! 5%nat)) (t !!! 6%nat)) (t !!! 7%nat)) (t !!! 8%nat) in
  Z.lor (Z.shiftr (t !!! 9%nat) 22)
    (Z.land (Z.land (truth (t !!! 9%nat =? M22)) (truth (m =? M26)))
       (truth (t !!! 1%nat + 0x40 + Z.shiftr (t !!! 0%nat + 0x3D1) 26 >? M26))).

Definition secp256k1_fe_normalize (r : secp256k1_fe) : secp256k1_fe :=
  let t := first_pass r in
  let x := needs_reduction t in
  let t := add_fold x t in
  Fe (<[9%nat := Z.land (t !!! 9%nat) M22]> t).

Definition secp256k1_fe_normalize_weak (r : secp256k1_fe) : secp256k1_fe := Fe (first_pass r).

Definition secp256k1_fe_normalize_var (r : secp256k1_fe) : secp256k1_fe :=
  let t := first_pass r in
  let x := needs_reduction t in
  if negb (x =? 0) then
    let t := carry26 0 (u32 (t !!! 0%nat + 0x3D1) :: u32 (t !!! 1%nat + u32 (Z.shiftl x 6)) :: drop 2 t) in
    Fe (<[9%nat := Z.land (t !!! 9%nat) M22]> t)
  else Fe t.

Definition secp256k1_fe_normalizes_to_zero (r : secp256k1_fe) : Z :=
  match first_pass r with
  | [t0; t1; t2; t3; t4; t5; t6; t7; t8; t9] =>
      let z0 := Z.lor (Z.lor (Z.lor (Z.lor (Z.lor (Z.lor (Z.lor (Z.lor (Z.lor t0 t1) t2) t3) t4) t5)
        t6) t7) t8) t9 in
      let z1 := Z.land (Z.land (Z.land (Z.land (Z.land (Z.land (Z.land (Z.land (Z.land
        (Z.lxor t0 0x3D0) (Z.lxor t1 0x40)) t2) t3) t4) t5) t6) t7) t8) (Z.lxor t9 0x3C00000) in
      Z.lor (truth (z0 =? 0)) (truth (z1 =? M26))
  | _ => 0
  end.

Definition secp256k1_fe_normalizes_to_zero_var (r : secp256k1_fe) : Z :=
  let t0 := fe_limb r 0 in
  let t9 := fe_limb r 9 in
  let x := Z.shiftr t9 22 in
  let t0 := u32 (t0 + u32 (x * 0x3D1)) in
  let z0 := Z.land t0 M26 in
  let z1 := Z.lxor z0 0x3D0 in
  if negb (z0 =? 0) && negb (z1 =? M26) then 0
  else
    let t9 := Z.land t9 M22 in
    let t1 := u32 (fe_limb r 1 + u32 (Z.shiftl x 6)) in
    match carry26 (Z.shiftr t0 26) [t1; fe_limb r 2; fe_limb r 3; fe_limb r 4; fe_limb r 5;
                                    fe_limb r 6; fe_limb r 7; fe_limb r 8; t9] with
    | [t1; t2; t3; t4; t5; t6; t7; t8; t9] =>
        let z0 := Z.lor (Z.lor (Z.lor (Z.lor (Z.lor (Z.lor (Z.lor (Z.lor (Z.lor z0 t1) t2) t3) t4) t5)
          t6) t7) t8) t9 in
        let z1 := Z.land (Z.land (Z.land (Z.land (Z.land (Z.land (Z.land (Z.land (Z.land
          z1 (Z.lxor t1 0x40)) t2) t3) t4) t5) t6) t7) t8) (Z.lxor t9 0x3C00000) in
        Z.lor (truth (z0 =? 0)) (truth (z1 =? M26))
    | _ => 0
    end.

(** * Constants, tests and comparisons *)

Definition secp256k1_fe_set_int (a : Z) : secp256k1_fe := Fe [u32 a; 0; 0; 0; 0; 0; 0; 0; 0; 0].

Definition secp256k1_fe_clear : secp256k1_fe := Fe [0; 0; 0; 0; 0; 0; 0; 0; 0; 0].

Definition secp256k1_fe_is_zero (a : secp256k1_fe) : Z :=
  truth (Z.lor (Z.lor (Z.lor (Z.lor (Z.lor (Z.lor (Z.lor (Z.lor (Z.lor (fe_limb a 0) (fe_limb a 1))
    (fe_limb a 2)) (fe_limb a 3)) (fe_limb a 4)) (fe_limb a 5)) (fe_limb a 6)) (fe_limb a 7))
    (fe_limb a 8)) (fe_limb a 9) =? 0).

Definition secp256k1_fe_is_odd (a : secp256k1_fe) : Z := Z.land (fe_limb a 0) 1.

(** The loop, from limb [i - 1] down. *)
Fixpoint cmp_loop (a b : secp256k1_fe) (i : nat) : Z :=
  match i with
  | O => 0
  | S i =>
      if fe_limb a i >? fe_limb b i then 1
      else if fe_limb a i <? fe_limb b i then -1
      else cmp_loop a b i
  end.

Definition secp256k1_fe_cmp_var (a b : secp256k1_fe) : Z := cmp_loop a b 10.

(** * Bytes *)

(** The two bits of byte [a[31-i]] at [2 j], at their place; [k] is [4 i + j], the
    number of the iteration of the two nested loops. *)
Definition set_b32_step (a : list byte) (r : list Z) (k : nat) : list Z :=
  let i := (k / 4)%nat in
  let j := (k mod 4)%nat in
  let limb := ((8 * i + 2 * j) / 26)%nat in
  let shift := ((8 * i + 2 * j) mod 26)%nat in
  <[limb := Z.lor (r !!! limb)
              (u32 (Z.shiftl (Z.land (Z.shiftr (b2z (a !!! (31 - i)%nat)) (2 * Z.of_nat j)) 0x3)
                             (Z.of_nat shift)))]> r.

Definition secp256k1_fe_set_b32 (a : list byte) : secp256k1_fe * Z :=
  let r := foldl (set_b32_step a) [0; 0; 0; 0; 0; 0; 0; 0; 0; 0] (seq 0 128) in
  if (r !!! 9%nat =? M22) &&
     (Z.land (Z.land (Z.land (Z.land (Z.land (Z.land (r !!! 8%nat) (r !!! 7%nat)) (r !!! 6%nat))
        (r !!! 5%nat)) (r !!! 4%nat)) (r !!! 3%nat)) (r !!! 2%nat) =? M26) &&
     (r !!! 1%nat + 0x40 + Z.shiftr (r !!! 0%nat + 0x3D1) 26 >? M26)
  then (Fe r, 0) else (Fe r, 1).

(** [c] after the inner loop: the byte [r[31-i]]. *)
Definition get_b32_byte (a : secp256k1_fe) (i : nat) : Z :=
  foldl (λ c j,
    let limb := ((8 * i + 2 * j) / 26)%nat in
    let shift := ((8 * i + 2 * j) mod 26)%nat in
    Z.lor c (Z.shiftl (Z.land (Z.shiftr (fe_limb a limb) (Z.of_nat shift)) 0x3) (2 * Z.of_nat j)))
    0 (seq 0 4).

Definition secp256k1_fe_get_b32 (a : secp256k1_fe) : list byte :=
  map (λ k, z2b (get_b32_byte a (31 - k))) (seq 0 32).

(** * Additions *)

Definition secp256k1_fe_negate (a : secp256k1_fe) (m : Z) : secp256k1_fe := Fe [
  u32 (0x3FFFC2F * 2 * (m + 1) - fe_limb a 0);
  u32 (0x3FFFFBF * 2 * (m + 1) - fe_limb a 1);
  u32 (0x3FFFFFF * 2 * (m + 1) - fe_limb a 2);
  u32 (0x3FFFFFF * 2 * (m + 1) - fe_limb a 3);
  u32 (0x3FFFFFF * 2 * (m + 1) - fe_limb a 4);
  u32 (0x3FFFFFF * 2 * (m + 1) - fe_limb a 5);
  u32 (0x3FFFFFF * 2 * (m + 1) - fe_limb a 6);
  u32 (0x3FFFFFF * 2 * (m + 1) - fe_limb a 7);
  u32 (0x3FFFFFF * 2 * (m + 1) - fe_limb a 8);
  u32 (0x03FFFFF * 2 * (m + 1) - fe_limb a 9) ].

Definition secp256k1_fe_mul_int (r : secp256k1_fe) (a : Z) : secp256k1_fe :=
  Fe (map (λ x, u32 (x * a)) (fe_n r)).

Definition secp256k1_fe_add (r a : secp256k1_fe) : secp256k1_fe :=
  Fe (zip_with (λ x y, u32 (x + y)) (fe_n r) (fe_n a)).

(** * Products

    [mul_inner] and [sqr_inner] are the same code but for the terms of the columns
    [p0] to [p18] of the product, which are sums of 64-bit products (modulo [2^64],
    as all of them are added to 64-bit accumulators). *)

Definition mul_columns (a b : list Z) : list Z :=
  match a, b with
  | [a0; a1; a2; a3; a4; a5; a6; a7; a8; a9], [b0; b1; b2; b3; b4; b5; b6; b7; b8; b9] => [
      a0 * b0;
      a0 * b1 + a1 * b0;
      a0 * b2 + a1 * b1 + a2 * b0;
      a0 * b3 + a1 * b2 + a2 * b1 + a3 * b0;
      a0 * b4 + a1 * b3 + a2 * b2 + a3 * b1 + a4 * b0;
      a0 * b5 + a1 * b4 + a2 * b3 + a3 * b2 + a4 * b1 + a5 * b0;
      a0 * b6 + a1 * b5 + a2 * b4 + a3 * b3 + a4 * b2 + a5 * b1 + a6 * b0;
      a0 * b7 + a1 * b6 + a2 * b5 + a3 * b4 + a4 * b3 + a5 * b2 + a6 * b1 + a7 * b0;
      a0 * b8 + a1 * b7 + a2 * b6 + a3 * b5 + a4 * b4 + a5 * b3 + a6 * b2 + a7 * b1 + a8 * b0;
      a0 * b9 + a1 * b8 + a2 * b7 + a3 * b6 + a4 * b5 + a5 * b4 + a6 * b3 + a7 * b2 + a8 * b1 + a9 * b0;
      a1 * b9 + a2 * b8 + a3 * b7 + a4 * b6 + a5 * b5 + a6 * b4 + a7 * b3 + a8 * b2 + a9 * b1;
      a2 * b9 + a3 * b8 + a4 * b7 + a5 * b6 + a6 * b5 + a7 * b4 + a8 * b3 + a9 * b2;
      a3 * b9 + a4 * b8 + a5 * b7 + a6 * b6 + a7 * b5 + a8 * b4 + a9 * b3;
      a4 * b9 + a5 * b8 + a6 * b7 + a7 * b6 + a8 * b5 + a9 * b4;
      a5 * b9 + a6 * b8 + a7 * b7 + a8 * b6 + a9 * b5;
      a6 * b9 + a7 * b8 + a8 * b7 + a9 * b6;
      a7 * b9 + a8 * b8 + a9 * b7;
      a8 * b9 + a9 * b8;
      a9 * b9 ]
  | _, _ => []
  end.

(** Doubled limbs are 32-bit products. *)
Definition sqr_columns (a : list Z) : list Z :=
  match a with
  | [a0; a1; a2; a3; a4; a5; a6; a7; a8; a9] => [
      a0 * a0;
      u32 (a0 * 2) * a1;
      u32 (a0 * 2) * a2 + a1 * a1;
      u32 (a0 * 2) * a3 + u32 (a1 * 2) * a2;
      u32 (a0 * 2) * a4 + u32 (a1 * 2) * a3 + a2 * a2;
      u32 (a0 * 2) * a5 + u32 (a1 * 2) * a4 + u32 (a2 * 2) * a3;
      u32 (a0 * 2) * a6 + u32 (a1 * 2) * a5 + u32 (a2 * 2) * a4 + a3 * a3;
      u32 (a0 * 2) * a7 + u32 (a1 * 2) * a6 + u32 (a2 * 2) * a5 + u32 (a3 * 2) * a4;
      u32 (a0 * 2) * a8 + u32 (a1 * 2) * a7 + u32 (a2 * 2) * a6 + u32 (a3 * 2) * a5 + a4 * a4;
      u32 (a0 * 2) * a9 + u32 (a1 * 2) * a8 + u32 (a2 * 2) * a7 + u32 (a3 * 2) * a6 + u32 (a4 * 2) * a5;
      u32 (a1 * 2) * a9 + u32 (a2 * 2) * a8 + u32 (a3 * 2) * a7 + u32 (a4 * 2) * a6 + a5 * a5;
      u32 (a2 * 2) * a9 + u32 (a3 * 2) * a8 + u32 (a4 * 2) * a7 + u32 (a5 * 2) * a6;
      u32 (a3 * 2) * a9 + u32 (a4 * 2) * a8 + u32 (a5 * 2) * a7 + a6 * a6;
      u32 (a4 * 2) * a9 + u32 (a5 * 2) * a8 + u32 (a6 * 2) * a7;
      u32 (a5 * 2) * a9 + u32 (a6 * 2) * a8 + a7 * a7;
      u32 (a6 * 2) * a9 + u32 (a7 * 2) * a8;
      u32 (a7 * 2) * a9 + a8 * a8;
      u32 (a8 * 2) * a9;
      a9 * a9 ]
  | _ => []
  end.

Definition R0 : Z := 0x3D10.
Definition R1 : Z := 0x400.

(** One row of the code, for column [k] (in [c]) and column [10 + k] (in [d]): [u_k] and [t_k],
    and the accumulators after it. *)
Definition mul_row (c d pk p10k : Z) : Z * Z * Z :=
  let c := u64 (c + pk) in
  let d := u64 (d + p10k) in
  let u := Z.land d M26 in
  let d := Z.shiftr d 26 in
  let c := u64 (c + u64 (u * R0)) in
  let t := Z.land c M26 in
  let c := Z.shiftr c 26 in
  let c := u64 (c + u64 (u * R1)) in
  (t, c, d).

(** The nine rows: [t0] to [t8], and the accumulators. *)
Fixpoint mul_rows (c d : Z) (ps qs : list Z) : list Z * Z * Z :=
  match ps, qs with
  | p :: ps, q :: qs =>
      let '(t, c, d) := mul_row c d p q in
      let '(ts, c, d) := mul_rows c d ps qs in
      (t :: ts, c, d)
  | _, _ => ([], c, d)
  end.

Definition fold_columns (p : list Z) : list Z :=
  let d := u64 (p !!! 9%nat) in
  let t9 := Z.land d M26 in
  let d := Z.shiftr d 26 in
  let '(ts, c, d) := mul_rows 0 d (take 9 p) (drop 10 p) in
  let c := u64 (c + u64 (u64 (d * R0) + t9)) in
  let r9 := Z.land c (Z.shiftr M26 4) in
  let c := Z.shiftr c 22 in
  let c := u64 (c + u64 (d * u32 (Z.shiftl R1 4))) in
  let d := u64 (u64 (c * Z.shiftr R0 4) + ts !!! 0%nat) in
  let r0 := Z.land d M26 in
  let d := Z.shiftr d 26 in
  let d := u64 (d + u64 (u64 (c * Z.shiftr R1 4) + ts !!! 1%nat)) in
  let r1 := Z.land d M26 in
  let d := Z.shiftr d 26 in
  let d := u64 (d + ts !!! 2%nat) in
  let r2 := u32 d in
  r0 :: r1 :: r2 :: drop 3 ts ++ [r9].

Definition secp256k1_fe_mul_inner (a b : list Z) : list Z := fold_columns (mul_columns a b).
Definition secp256k1_fe_sqr_inner (a : list Z) : list Z := fold_columns (sqr_columns a).

Definition secp256k1_fe_mul (a b : secp256k1_fe) : secp256k1_fe :=
  Fe (secp256k1_fe_mul_inner (fe_n a) (fe_n b)).

Definition secp256k1_fe_sqr (a : secp256k1_fe) : secp256k1_fe :=
  Fe (secp256k1_fe_sqr_inner (fe_n a)).

(** * Moves and storage *)

(** [(x & mask0) | (y & mask1)] of each limb, with the masks of [flag]. *)
Definition cmov_limbs (r a : list Z) (flag : Z) : list Z :=
  let mask0 := u32 (flag + 0xFFFFFFFF) in
  let mask1 := u32 (Z.lnot mask0) in
  zip_with (λ x y, Z.lor (Z.land x mask0) (Z.land y mask1)) r a.

Definition secp256k1_fe_cmov (r a : secp256k1_fe) (flag : Z) : secp256k1_fe :=
  Fe (cmov_limbs (fe_n r) (fe_n a) flag).

Definition secp256k1_fe_storage_cmov (r a : secp256k1_fe_storage) (flag : Z) : secp256k1_fe_storage :=
  FeStorage (cmov_limbs (st_n r) (st_n a) flag).

Definition secp256k1_fe_to_storage (a : secp256k1_fe) : secp256k1_fe_storage := FeStorage [
  Z.lor (fe_limb a 0) (u32 (Z.shiftl (fe_limb a 1) 26));
  Z.lor (Z.shiftr (fe_limb a 1) 6) (u32 (Z.shiftl (fe_limb a 2) 20));
  Z.lor (Z.shiftr (fe_limb a 2) 12) (u32 (Z.shiftl (fe_limb a 3) 14));
  Z.lor (Z.shiftr (fe_limb a 3) 18) (u32 (Z.shiftl (fe_limb a 4) 8));
  Z.lor (Z.lor (Z.shiftr (fe_limb a 4) 24) (u32 (Z.shiftl (fe_limb a 5) 2)))
        (u32 (Z.shiftl (fe_limb a 6) 28));
  Z.lor (Z.shiftr (fe_limb a 6) 4) (u32 (Z.shiftl (fe_limb a 7) 22));
  Z.lor (Z.shiftr (fe_limb a 7) 10) (u32 (Z.shiftl (fe_limb a 8) 16));
  Z.lor (Z.shiftr (fe_limb a 8) 16) (u32 (Z.shiftl (fe_limb a 9) 10)) ].

Definition secp256k1_fe_from_storage (a : secp256k1_fe_storage) : secp256k1_fe := Fe [
  Z.land (st_limb a 0) M26;
  Z.lor (Z.shiftr (st_limb a 0) 26) (Z.land (u32 (Z.shiftl (st_limb a 1) 6)) M26);
  Z.lor (Z.shiftr (st_limb a 1) 20) (Z.land (u32 (Z.shiftl (st_limb a 2) 12)) M26);
  Z.lor (Z.shiftr (st_limb a 2) 14) (Z.land (u32 (Z.shiftl (st_limb a 3) 18)) M26);
  Z.lor (Z.shiftr (st_limb a 3) 8) (Z.land (u32 (Z.shiftl (st_limb a 4) 24)) M26);
  Z.land (Z.shiftr (st_limb a 4) 2) M26;
  Z.lor (Z.shiftr (st_limb a 4) 28) (Z.land (u32 (Z.shiftl (st_limb a 5) 4)) M26);
  Z.lor (Z.shiftr (st_limb a 5) 22) (Z.land (u32 (Z.shiftl (st_limb a 6) 10)) M26);
  Z.lor (Z.shiftr (st_limb a 6) 16) (Z.land (u32 (Z.shiftl (st_limb a 7) 16)) M26);
  Z.shiftr (st_limb a 7) 10 ].

(** * Equality, square roots and inverses *)

Definition secp256k1_fe_equal (a b : secp256k1_fe) : Z :=
  let na := secp256k1_fe_negate a 1 in
  let na := secp256k1_fe_add na b in
  secp256k1_fe_normalizes_to_zero na.

Definition secp256k1_fe_equal_var (a b : secp256k1_fe) : Z :=
  let na := secp256k1_fe_negate a 1 in
  let na := secp256k1_fe_add na b in
  secp256k1_fe_normalizes_to_zero_var na.

(** [for (j=0; j<n; j++) secp256k1_fe_sqr(&x, &x);] *)
Definition fe_sqr_times (n : nat) (x : secp256k1_fe) : secp256k1_fe := Nat.iter n secp256k1_fe_sqr x.

Definition secp256k1_fe_sqrt (a : secp256k1_fe) : secp256k1_fe * Z :=
  let x2 := secp256k1_fe_sqr a in
  let x2 := secp256k1_fe_mul x2 a in
  let x3 := secp256k1_fe_sqr x2 in
  let x3 := secp256k1_fe_mul x3 a in
  let x6 := fe_sqr_times 3 x3 in
  let x6 := secp256k1_fe_mul x6 x3 in
  let x9 := fe_sqr_times 3 x6 in
  let x9 := secp256k1_fe_mul x9 x3 in
  let x11 := fe_sqr_times 2 x9 in
  let x11 := secp256k1_fe_mul x11 x2 in
  let x22 := fe_sqr_times 11 x11 in
  let x22 := secp256k1_fe_mul x22 x11 in
  let x44 := fe_sqr_times 22 x22 in
  let x44 := secp256k1_fe_mul x44 x22 in
  let x88 := fe_sqr_times 44 x44 in
  let x88 := secp256k1_fe_mul x88 x44 in
  let x176 := fe_sqr_times 88 x88 in
  let x176 := secp256k1_fe_mul x176 x88 in
  let x220 := fe_sqr_times 44 x176 in
  let x220 := secp256k1_fe_mul x220 x44 in
  let x223 := fe_sqr_times 3 x220 in
  let x223 := secp256k1_fe_mul x223 x3 in
  let t1 := fe_sqr_times 23 x223 in
  let t1 := secp256k1_fe_mul t1 x22 in
  let t1 := fe_sqr_times 6 t1 in
  let t1 := secp256k1_fe_mul t1 x2 in
  let t1 := secp256k1_fe_sqr t1 in
  let r := secp256k1_fe_sqr t1 in
  let t1 := secp256k1_fe_sqr r in
  (r, secp256k1_fe_equal t1 a).

Definition secp256k1_fe_inv (a : secp256k1_fe) : secp256k1_fe :=
  let x2 := secp256k1_fe_sqr a in
  let x2 := secp256k1_fe_mul x2 a in
  let x3 := secp256k1_fe_sqr x2 in
  let x3 := secp256k1_fe_mul x3 a in
  let x6 := fe_sqr_times 3 x3 in
  let x6 := secp256k1_fe_mul x6 x3 in
  let x9 := fe_sqr_times 3 x6 in
  let x9 := secp256k1_fe_mul x9 x3 in
  let x11 := fe_sqr_times 2 x9 in
  let x11 := secp256k1_fe_mul x11 x2 in
  let x22 := fe_sqr_times 11 x11 in
  let x22 := secp256k1_fe_mul x22 x11 in
  let x44 := fe_sqr_times 22 x22 in
  let x44 := secp256k1_fe_mul x44 x22 in
  let x88 := fe_sqr_times 44 x44 in
  let x88 := secp256k1_fe_mul x88 x44 in
  let x176 := fe_sqr_times 88 x88 in
  let x176 := secp256k1_fe_mul x176 x88 in
  let x220 := fe_sqr_times 44 x176 in
  let x220 := secp256k1_fe_mul x220 x44 in
  let x223 := fe_sqr_times 3 x220 in
  let x223 := secp256k1_fe_mul x223 x3 in
  let t1 := fe_sqr_times 23 x223 in
  let t1 := secp256k1_fe_mul t1 x22 in
  let t1 := fe_sqr_times 5 t1 in
  let t1 := secp256k1_fe_mul t1 a in
  let t1 := fe_sqr_times 3 t1 in
  let t1 := secp256k1_fe_mul t1 x2 in
  let t1 := fe_sqr_times 2 t1 in
  secp256k1_fe_mul a t1.

Definition secp256k1_fe_inv_var (a : secp256k1_fe) : secp256k1_fe := secp256k1_fe_inv a.

Definition secp256k1_fe_is_quad_var (a : secp256k1_fe) : Z := (secp256k1_fe_sqrt a).2.

(** Inverting many elements with one inversion.  [r] and [a] are arrays of [len] elements apart
    from each other; an element is read where the code reads it. *)
#[global] Instance fe_inhabited : Inhabited secp256k1_fe := populate secp256k1_fe_clear.

(** [while (++i < len)] *)
Definition inv_all_forward (a r : list secp256k1_fe) (len : nat) : list secp256k1_fe :=
  foldl (λ r i, <[i := secp256k1_fe_mul (r !!! (i - 1)%nat) (a !!! i)]> r) r (seq 1 (len - 1)).

(** [while (i > 0)] *)
Fixpoint inv_all_backward (a r : list secp256k1_fe) (u : secp256k1_fe) (i : nat) :
  list secp256k1_fe * secp256k1_fe :=
  match i with
  | O => (r, u)
  | S i' =>
      let r := <[i := secp256k1_fe_mul (r !!! i') u]> r in
      let u := secp256k1_fe_mul u (a !!! i) in
      inv_all_backward a r u i'
  end.

Definition secp256k1_fe_inv_all_var (r a : list secp256k1_fe) (len : nat) : list secp256k1_fe :=
  if (len <? 1)%nat then r
  else
    let r := <[0%nat := a !!! 0%nat]> r in
    let r := inv_all_forward a r len in
    let u := secp256k1_fe_inv_var (r !!! (len - 1)%nat) in
    let '(r, u) := inv_all_backward a r u (len - 1) in
    <[0%nat := u]> r.
