(* ===== verification/Secp256k1FieldProofs.v ===== *)
(** Field elements compute in the integers modulo the field prime.

    [fe_val] is the integer the limbs of an element stand for, and two elements
    are the same number if their values are congruent modulo [field_prime].
    [fe_mag m] bounds the limbs of an element of magnitude [m], and [fe_norm] is
    the canonical form.  The operations are correct on every element within the
    magnitude they ask for, and state the magnitude of their result. *)

From Stdlib Require Import ZArith Lia Strings.Byte.
From stdpp Require Import base gmap list fin_maps numbers.
From S2P Require Import Prelude Secp256k1Scalar Secp256k1Field.

(** The prime of the field, as SEC 2 gives it. *)
Definition field_prime : Z := 2 ^ 256 - 2 ^ 32 - 977.

(** * Values and magnitudes *)

Fixpoint val26 (l : list Z) : Z :=
  match l with
  | [] => 0
  | x :: l => x + 2 ^ 26 * val26 l
  end.

Definition fe_val (a : secp256k1_fe) : Z := val26 (fe_n a).

(** The largest limbs of a number below [2^256]. *)
Definition limb_max : list Z := [M26; M26; M26; M26; M26; M26; M26; M26; M26; M22].

(** Ten limbs, at most [k] times as large. *)
Definition limbs_le (k : Z) (l : list Z) : Prop := Forall2 (λ x b, 0 ≤ x ≤ k * b) l limb_max.

Definition fe_mag (m : Z) (a : secp256k1_fe) : Prop := limbs_le (2 * m) (fe_n a).
Definition fe_norm (a : secp256k1_fe) : Prop := limbs_le 1 (fe_n a) ∧ fe_val a < field_prime.

(** Equality of numbers modulo the prime. *)
Definition eqp (x y : Z) : Prop := x mod field_prime = y mod field_prime.
Infix "≡ₚ" := eqp (at level 70, no associativity) : Z_scope.

#[global] Instance eqp_equiv : Equivalence eqp.
Proof. unfold eqp. split; red; congruence. Qed.
#[global] Instance eqp_add : Proper (eqp ==> eqp ==> eqp) Z.add.
Proof. intros x x' Hx y y' Hy. unfold eqp in *. by rewrite Z.add_mod, Hx, Hy, <- Z.add_mod. Qed.
#[global] Instance eqp_sub : Proper (eqp ==> eqp ==> eqp) Z.sub.
Proof. intros x x' Hx y y' Hy. unfold eqp in *. by rewrite Zminus_mod, Hx, Hy, <- Zminus_mod. Qed.
#[global] Instance eqp_mul : Proper (eqp ==> eqp ==> eqp) Z.mul.
Proof. intros x x' Hx y y' Hy. unfold eqp in *. by rewrite Z.mul_mod, Hx, Hy, <- Z.mul_mod. Qed.
#[global] Instance eqp_opp : Proper (eqp ==> eqp) Z.opp.
Proof. intros x x' Hx. rewrite <- !Z.sub_0_l. by rewrite Hx. Qed.

(** Adding a multiple of the prime. *)
Lemma eqp_multiple (k x y : Z) : x = y + k * field_prime → x ≡ₚ y.
Proof. intros ->. unfold eqp. apply Z_mod_plus_full. Qed.

Lemma eqp_divide (x y : Z) : x ≡ₚ y ↔ (field_prime | x - y).
Proof.
  unfold eqp. rewrite Z.cong_iff_0. split.
  - intros H. by apply Z.mod_divide in H.
  - intros H. by apply Z.mod_divide.
Qed.

Lemma eqp_mod (x : Z) : x mod field_prime ≡ₚ x.
Proof. unfold eqp. apply Zmod_mod. Qed.

Lemma val26_app (l k : list Z) : val26 (l ++ k) = val26 l + 2 ^ (26 * zlen l) * val26 k.
Proof.
  induction l as [|x l IH]; simpl app; simpl val26; [simpl length; lia|].
  replace (26 * zlen (x :: l)) with (26 + 26 * zlen l) by (simpl length; lia).
  rewrite IH, Z.pow_add_r by lia. ring.
Qed.

Lemma val26_range (l : list Z) : Forall (λ x, 0 ≤ x ≤ M26) l → 0 ≤ val26 l < 2 ^ (26 * zlen l).
Proof.
  unfold M26. induction 1 as [|x l Hx _ IH]; simpl val26; [simpl; lia|].
  replace (26 * zlen (x :: l)) with (26 + 26 * zlen l) by (simpl length; lia).
  rewrite Z.pow_add_r by lia. nia.
Qed.

Lemma limbs_le_inv (k : Z) (l : list Z) :
  limbs_le k l → ∃ x0 x1 x2 x3 x4 x5 x6 x7 x8 x9, l = [x0; x1; x2; x3; x4; x5; x6; x7; x8; x9] ∧
    0 ≤ x0 ≤ k * M26 ∧ 0 ≤ x1 ≤ k * M26 ∧ 0 ≤ x2 ≤ k * M26 ∧ 0 ≤ x3 ≤ k * M26 ∧ 0 ≤ x4 ≤ k * M26 ∧
    0 ≤ x5 ≤ k * M26 ∧ 0 ≤ x6 ≤ k * M26 ∧ 0 ≤ x7 ≤ k * M26 ∧ 0 ≤ x8 ≤ k * M26 ∧ 0 ≤ x9 ≤ k * M22.
Proof.
  intros H. pose proof (Forall2_length H) as Hlen. cbn [length limb_max] in Hlen.
  do 10 (destruct l as [|? l]; [discriminate Hlen|]). destruct l; [|discriminate Hlen].
  unfold limbs_le, limb_max in H. rewrite !Forall2_cons_iff in H. naive_solver.
Qed.

Lemma limbs_le_mono (k k' : Z) (l : list Z) : limbs_le k l → k ≤ k' → limbs_le k' l.
Proof.
  intros H Hk. destruct (limbs_le_inv _ _ H) as (x0&x1&x2&x3&x4&x5&x6&x7&x8&x9&->&Hb).
  unfold M26, M22 in Hb. repeat (constructor; [unfold M26, M22; lia|]). constructor.
Qed.

(** Replaces the limb list of [H : limbs_le k l] by its limbs. *)
Ltac open_limbs H :=
  let E := fresh in
  destruct (limbs_le_inv _ _ H) as (?&?&?&?&?&?&?&?&?&?&E&?&?&?&?&?&?&?&?&?&?);
  unfold M26, M22 in *; rewrite ?E in *.

(** Replaces the element [a] of a known magnitude by its limbs. *)
Ltac open_fe a :=
  let x := fresh "l" in
  destruct a as [x];
  match goal with
  | H : fe_mag _ (Fe x) |- _ => unfold fe_mag in H; cbn [fe_n] in H; open_limbs H; subst x
  | H : limbs_le _ (fe_n (Fe x)) |- _ => cbn [fe_n] in H; open_limbs H; subst x
  end.

(** Proves bounds of explicit limbs. *)
Ltac limbs_bound := repeat (constructor; [unfold M26, M22; lia|]); constructor.

Lemma fe_mag_mono (m m' : Z) (a : secp256k1_fe) : fe_mag m a → m ≤ m' → fe_mag m' a.
Proof. intros H ?. apply (limbs_le_mono _ _ _ H). lia. Qed.

Lemma fe_norm_mag (a : secp256k1_fe) : fe_norm a → fe_mag 1 a.
Proof. intros [H _]. apply (limbs_le_mono _ _ _ H). lia. Qed.

Lemma limbs_le_val (l : list Z) : limbs_le 1 l → 0 ≤ val26 l < 2 ^ 256.
Proof. intros H. open_limbs H. cbn [val26]. lia. Qed.

Lemma land_M26 (x : Z) : Z.land x M26 = x mod 2 ^ 26.
Proof. change M26 with (Z.ones 26). by apply Z.land_ones. Qed.
Lemma land_M22 (x : Z) : Z.land x M22 = x mod 2 ^ 22.
Proof. change M22 with (Z.ones 22). by apply Z.land_ones. Qed.

(** * Carries *)

Lemma carry26_spec (c : Z) (t : list Z) (x : Z) :
  0 ≤ c ≤ 64 → Forall (λ x, 0 ≤ x ≤ 2 ^ 32 - 65) t → 0 ≤ x ≤ 2 ^ 32 - 65 →
  ∃ r e, carry26 c (t ++ [x]) = r ++ [x + e] ∧ length r = length t ∧
    Forall (λ x, 0 ≤ x ≤ M26) r ∧ 0 ≤ e ≤ 64 ∧ val26 r + 2 ^ (26 * zlen t) * e = c + val26 t.
Proof.
  intros Hc Ht Hx. revert c Hc. induction Ht as [|y t Hy _ IH]; intros c Hc.
  - exists [], c. cbn [app carry26 length val26]. rewrite u32_small by lia.
    split_and!; [done|done|constructor|lia..].
  - cbn beta in Hy. change ((y :: t) ++ [x]) with (y :: (t ++ [x])).
    assert (carry26 c (y :: (t ++ [x])) =
      Z.land (u32 (y + c)) M26 :: carry26 (Z.shiftr (u32 (y + c)) 26) (t ++ [x])) as -> by (by destruct t).
    rewrite u32_small, land_M26, Z.shiftr_div_pow2 by lia.
    destruct (IH ((y + c) / 2 ^ 26)) as (r & e & -> & Hl & Hr & He & Hv); [zdiv|].
    exists ((y + c) mod 2 ^ 26 :: r), e. split_and!; [done|simpl; lia| |lia..|].
    + constructor; [|done]. unfold M26. pose proof (Z.mod_pos_bound (y + c) (2 ^ 26)). lia.
    + cbn [val26]. replace (26 * zlen (y :: t)) with (26 + 26 * zlen t) by (simpl length; lia).
      rewrite Z.pow_add_r by lia. pose proof (Z.div_mod (y + c) (2 ^ 26)). lia.
Qed.

(** The limbs after the first pass. *)
Definition weak_limbs (t : list Z) : Prop :=
  Forall2 (λ x b, 0 ≤ x ≤ b) t [M26; M26; M26; M26; M26; M26; M26; M26; M26; M22 + 64].

Lemma weak_limbs_app (r : list Z) (x : Z) :
  length r = 9%nat → Forall (λ x, 0 ≤ x ≤ M26) r → 0 ≤ x ≤ M22 + 64 → weak_limbs (r ++ [x]).
Proof.
  intros Hl Hr Hx. do 10 (destruct r as [|? r]; try discriminate Hl).
  rewrite !Forall_cons_iff in Hr. destruct_and!. repeat (constructor; [done|]). constructor.
Qed.

Lemma weak_limbs_inv (t : list Z) :
  weak_limbs t → ∃ x0 x1 x2 x3 x4 x5 x6 x7 x8 x9, t = [x0; x1; x2; x3; x4; x5; x6; x7; x8; x9] ∧
    0 ≤ x0 ≤ M26 ∧ 0 ≤ x1 ≤ M26 ∧ 0 ≤ x2 ≤ M26 ∧ 0 ≤ x3 ≤ M26 ∧ 0 ≤ x4 ≤ M26 ∧
    0 ≤ x5 ≤ M26 ∧ 0 ≤ x6 ≤ M26 ∧ 0 ≤ x7 ≤ M26 ∧ 0 ≤ x8 ≤ M26 ∧ 0 ≤ x9 ≤ M22 + 64.
Proof.
  intros H. pose proof (Forall2_length H) as Hlen. cbn [length] in Hlen.
  do 10 (destruct t as [|? t]; [discriminate Hlen|]). destruct t; [|discriminate Hlen].
  unfold weak_limbs in H. rewrite !Forall2_cons_iff in H. naive_solver.
Qed.

Ltac open_weak H :=
  let E := fresh in
  destruct (weak_limbs_inv _ H) as (?&?&?&?&?&?&?&?&?&?&E&?&?&?&?&?&?&?&?&?&?);
  rewrite ?E in *; clear E.

(** Adding [x] times [2^256 - p] to limbs that leave room for it. *)
Lemma add_fold_spec (x : Z) (t0 t1 : Z) (t : list Z) (t9 : Z) :
  0 ≤ x < 2 ^ 16 → 0 ≤ t0 → t0 + x * 977 ≤ 2 ^ 32 - 65 → 0 ≤ t1 → t1 + x * 64 ≤ 2 ^ 32 - 65 →
  Forall (λ x, 0 ≤ x ≤ 2 ^ 32 - 65) t → 0 ≤ t9 ≤ M22 + 64 →
  ∃ r e, add_fold x (t0 :: t1 :: t ++ [t9]) = r ++ [t9 + e] ∧ length r = S (S (length t)) ∧
    Forall (λ x, 0 ≤ x ≤ M26) r ∧ 0 ≤ e ≤ 64 ∧
    val26 (r ++ [t9 + e]) = val26 (t0 :: t1 :: t ++ [t9]) + x * (2 ^ 32 + 977).
Proof.
  intros Hx H0 H0' H1 H1' Ht H9. unfold add_fold, M22 in *.
  rewrite Z.shiftl_mul_pow2 by done. change (2 ^ 6) with 64.
  rewrite (u32_small (x * 0x3D1)), (u32_small (x * 64)), !u32_small by lia.
  change (t0 + x * 0x3D1 :: t1 + x * 64 :: t ++ [t9]) with ((t0 + x * 977 :: t1 + x * 64 :: t) ++ [t9]).
  destruct (carry26_spec 0 (t0 + x * 977 :: t1 + x * 64 :: t) t9) as (r & e & -> & Hl & Hr & He & Hv);
    [lia|by repeat (constructor; [lia|])|lia|].
  exists r, e. split_and!; [done|done|done|lia..|].
  change (t0 :: t1 :: t ++ [t9]) with ((t0 :: t1 :: t) ++ [t9]).
  rewrite !val26_app, Hl. cbn [val26 length] in *. lia.
Qed.

Section First_pass.
Context (a : secp256k1_fe).
Hypothesis Ha : fe_mag 31 a.

(** Below magnitude 32, the first pass leaves an element of magnitude 1 that is less than two primes. *)
Lemma first_pass_spec :
  weak_limbs (first_pass a) ∧ val26 (first_pass a) ≡ₚ fe_val a.
Proof using Ha.
  destruct a as [l]. unfold fe_mag, fe_val, first_pass in *. cbn [fe_n] in *.
  destruct (limbs_le_inv _ _ Ha) as (x0&x1&x2&x3&x4&x5&x6&x7&x8&x9&->&Hb). unfold M26 in Hb.
  unfold fe_limb. cbn [fe_n lookup_total list_lookup_total insert list_insert].
  rewrite land_M22, Z.shiftr_div_pow2 by done. unfold M22 in Hb.
  assert (0 ≤ x9 / 2 ^ 22 ≤ 61 ∧ 0 ≤ x9 mod 2 ^ 22 < 2 ^ 22 ∧
    x9 = 2 ^ 22 * (x9 / 2 ^ 22) + x9 mod 2 ^ 22) as (Hq & Hm & E) by zdiv.
  destruct (add_fold_spec (x9 / 2 ^ 22) x0 x1 [x2; x3; x4; x5; x6; x7; x8] (x9 mod 2 ^ 22))
    as (r & e & Hr & Hl & Hok & He & Hv); [lia..|repeat (constructor; [lia|]); constructor|unfold M22; lia|].
  cbn [app] in Hr. rewrite Hr. split; [apply weak_limbs_app; [done..|unfold M22; lia]|].
  apply (eqp_multiple (- (x9 / 2 ^ 22))). rewrite Hv. cbn [val26 app]. unfold field_prime. lia.
Qed.
End First_pass.

Lemma weak_limbs_val (t : list Z) : weak_limbs t → 0 ≤ val26 t < 2 * field_prime.
Proof. intros H. open_weak H. cbn [val26]. unfold M26, M22, field_prime in *. lia. Qed.

Lemma weak_limbs_mag (t : list Z) : weak_limbs t → fe_mag 1 (Fe t).
Proof. intros H. open_weak H. unfold fe_mag, M22, M26 in *. cbn [fe_n]. limbs_bound. Qed.

(** * Full limbs *)

Lemma land_below (k x y : Z) : 0 ≤ k → 0 ≤ x < 2 ^ k → 0 ≤ y → 0 ≤ Z.land x y < 2 ^ k.
Proof.
  intros Hk Hx Hy. split; [apply Z.land_nonneg; lia|].
  rewrite <- (Z.mod_small x (2 ^ k)) by done. rewrite <- Z.land_ones by done.
  rewrite <- Z.land_assoc, (Z.land_comm _ y), Z.land_assoc, Z.land_ones by lia.
  apply Z.mod_pos_bound, Z.pow_pos_nonneg; lia.
Qed.

Lemma land_full (k x y : Z) :
  0 ≤ k → 0 ≤ x ≤ Z.ones k → 0 ≤ y ≤ Z.ones k → Z.land x y = Z.ones k ↔ x = Z.ones k ∧ y = Z.ones k.
Proof.
  intros Hk Hx Hy. split; [|by intros [-> ->]; rewrite Z.land_diag]. intros H.
  assert (∀ z, 0 ≤ z ≤ Z.ones k → (∀ i, 0 ≤ i < k → Z.testbit z i = true) → z = Z.ones k) as Hall.
  { intros z Hz Hi. apply Z.bits_inj'. intros i Hi0. rewrite Z.ones_equiv in Hz. destruct (decide (i < k)).
    - rewrite Hi, Z.ones_spec_low by lia. done.
    - rewrite Z.ones_spec_high by lia. destruct (decide (z = 0)) as [->|]; [apply Z.bits_0|].
      rewrite Z.bits_above_log2; [done|lia|]. apply Z.log2_lt_pow2; [lia|].
      pose proof (Z.pow_le_mono_r 2 k i). lia. }
  split; apply Hall; [done| |done|]; intros i Hi; apply (f_equal (λ z, Z.testbit z i)) in H;
    rewrite Z.land_spec, Z.ones_spec_low in H by lia; apply andb_prop in H as [? ?]; done.
Qed.

Lemma land_M26_range (x y : Z) : 0 ≤ x ≤ M26 → 0 ≤ y ≤ M26 → 0 ≤ Z.land x y ≤ M26.
Proof. unfold M26. intros Hx Hy. pose proof (land_below 26 x y). lia. Qed.

(** Limbs conjoined are full iff each of them is. *)
Lemma land_M26_eqb (x y : Z) :
  0 ≤ x ≤ M26 → 0 ≤ y ≤ M26 → (Z.land x y =? M26) = (x =? M26) && (y =? M26).
Proof.
  intros Hx Hy. apply eq_true_iff_eq. rewrite andb_true_iff, !Z.eqb_eq. by apply (land_full 26).
Qed.

Ltac full_range := repeat apply land_M26_range; lia.
Ltac full_limbs := repeat (rewrite land_M26_eqb by full_range).

Lemma truth_land (b c : bool) : Z.land (truth b) (truth c) = truth (b && c).
Proof. by destruct b, c. Qed.

(** The test of the normalizations compares with the prime. *)
Lemma at_least_prime (x0 x1 x2 x3 x4 x5 x6 x7 x8 x9 : Z) :
  0 ≤ x0 ≤ M26 → 0 ≤ x1 ≤ M26 → 0 ≤ x2 ≤ M26 → 0 ≤ x3 ≤ M26 → 0 ≤ x4 ≤ M26 →
  0 ≤ x5 ≤ M26 → 0 ≤ x6 ≤ M26 → 0 ≤ x7 ≤ M26 → 0 ≤ x8 ≤ M26 → 0 ≤ x9 ≤ M22 →
  field_prime ≤ val26 [x0; x1; x2; x3; x4; x5; x6; x7; x8; x9] ↔
  x9 = M22 ∧ (x2 = M26 ∧ x3 = M26 ∧ x4 = M26 ∧ x5 = M26 ∧ x6 = M26 ∧ x7 = M26 ∧ x8 = M26) ∧
  M26 < x1 + 0x40 + Z.shiftr (x0 + 0x3D1) 26.
Proof.
  intros. rewrite Z.shiftr_div_pow2 by done. cbn [val26]. unfold field_prime, M26, M22 in *.
  assert (0 ≤ (x0 + 977) - 2 ^ 26 * ((x0 + 977) / 2 ^ 26) < 2 ^ 26) by zdiv. split.
  - intros. assert (x9 = 4194303) as -> by lia. assert (x8 = 67108863) as -> by lia.
    assert (x7 = 67108863) as -> by lia. assert (x6 = 67108863) as -> by lia.
    assert (x5 = 67108863) as -> by lia. assert (x4 = 67108863) as -> by lia.
    assert (x3 = 67108863) as -> by lia. assert (x2 = 67108863) as -> by lia.
    split_and!; [done..|lia].
  - intros (-> & (-> & -> & -> & -> & -> & -> & ->) & ?). lia.
Qed.

Lemma needs_reduction_spec (t : list Z) :
  weak_limbs t → needs_reduction t = truth (field_prime <=? val26 t).
Proof.
  intros H. open_weak H. unfold needs_reduction. cbn [lookup_total list_lookup_total].
  full_limbs. rewrite !truth_land. rewrite (Z.shiftr_div_pow2 x8) by done.
  destruct (Z.leb_spec x8 M22).
  - replace (x8 / 2 ^ 22) with 0 by (unfold M22 in *; zdiv). rewrite Z.lor_0_l. f_equal.
    apply eq_true_iff_eq. rewrite Z.leb_le, at_least_prime by lia.
    rewrite !andb_true_iff, !Z.eqb_eq, Z.gtb_lt. naive_solver.
  - unfold M22, M26 in *. replace (x8 / 2 ^ 22) with 1 by zdiv.
    rewrite (proj2 (Z.eqb_neq _ _)) by lia. cbn [val26 truth andb].
    rewrite (proj2 (Z.leb_le _ _)) by (unfold field_prime; lia). done.
Qed.

(** ** The normal form *)

Lemma norm_of_weak (r : list Z) (x9 v : Z) :
  length r = 9%nat → Forall (λ x, 0 ≤ x ≤ M26) r → 0 ≤ x9 →
  val26 (r ++ [x9]) = v → v mod 2 ^ 256 < field_prime →
  fe_norm (Fe (<[9%nat := Z.land ((r ++ [x9]) !!! 9%nat) M22]> (r ++ [x9]))) ∧
  fe_val (Fe (<[9%nat := Z.land ((r ++ [x9]) !!! 9%nat) M22]> (r ++ [x9]))) = v mod 2 ^ 256.
Proof.
  intros Hl Hr H9 Hv Hlt. do 10 (destruct r as [|? r]; try discriminate Hl).
  rewrite !Forall_cons_iff in Hr. destruct_and!. unfold fe_norm, fe_val.
  cbn [fe_n app lookup_total list_lookup_total insert list_insert].
  rewrite land_M22. cbn [app] in Hv.
  assert (val26 [z; z0; z1; z2; z3; z4; z5; z6; z7; x9 mod 2 ^ 22] = v mod 2 ^ 256) as E.
  { apply (Z.mod_unique_pos _ _ (x9 / 2 ^ 22)).
    - cbn [val26]. unfold M26 in *. pose proof (Z.mod_pos_bound x9 (2 ^ 22)). lia.
    - rewrite <- Hv. cbn [val26]. pose proof (Z.div_mod x9 (2 ^ 22)). lia. }
  rewrite E. split_and!; [|lia|done]. pose proof (Z.mod_pos_bound x9 (2 ^ 22)). unfold M26 in *. limbs_bound.
Qed.

Lemma limbs_le_val_inj (l k : list Z) : limbs_le 1 l → limbs_le 1 k → val26 l = val26 k → l = k.
Proof.
  intros Hl Hk. assert (∀ l, limbs_le 1 l → Forall (λ x, 0 ≤ x ≤ M26) l ∧ length l = 10%nat) as Hf.
  { intros l' H. open_limbs H. split; [|done]. limbs_bound. }
  apply Hf in Hl as [Hl El], Hk as [Hk Ek]. rewrite <- El in Ek. clear El Hf. unfold M26 in *. revert k Hk Ek.
  induction Hl as [|x l Hx _ IH]; intros [|y k] Hk Ek Hv; try done.
  apply Forall_cons_iff in Hk as [Hy Hk]. cbn [val26] in Hv. simpl in Ek. cbn beta in *.
  assert (x = y ∧ val26 l = val26 k) as [-> Hv'] by lia. f_equal. apply IH; [done|lia|done].
Qed.

Lemma fe_val_inj (a b : secp256k1_fe) : fe_norm a → fe_norm b → fe_val a = fe_val b → a = b.
Proof. destruct a, b. intros [Ha _] [Hb _] Hv. f_equal. by apply limbs_le_val_inj. Qed.

Lemma fe_norm_val (a : secp256k1_fe) : fe_norm a → 0 ≤ fe_val a < field_prime.
Proof. intros [Ha Hlt]. pose proof (limbs_le_val _ Ha). unfold fe_val in *. lia. Qed.

(** Reducing a number below two primes once. *)
Lemma reduce_once (v : Z) :
  0 ≤ v < 2 * field_prime →
  (v + truth (field_prime <=? v) * (2 ^ 32 + 977)) mod 2 ^ 256 = v mod field_prime.
Proof.
  unfold field_prime. intros Hv. destruct (Z.leb_spec (2 ^ 256 - 2 ^ 32 - 977) v) as [?|?]; cbn [truth].
  - rewrite <- (Z.mod_unique_pos v (2 ^ 256 - 2 ^ 32 - 977) 1 (v - (2 ^ 256 - 2 ^ 32 - 977))) by lia.
    symmetry. apply (Z.mod_unique_pos _ _ 1); lia.
  - rewrite !Z.mod_small; lia.
Qed.

Lemma weak_add_fold (t : list Z) (x : Z) :
  weak_limbs t → 0 ≤ x ≤ 1 →
  ∃ r x9, add_fold x t = r ++ [x9] ∧ length r = 9%nat ∧ Forall (λ x, 0 ≤ x ≤ M26) r ∧ 0 ≤ x9 ∧
    val26 (r ++ [x9]) = val26 t + x * (2 ^ 32 + 977).
Proof.
  intros Ht Hx. destruct (weak_limbs_inv t Ht) as (x0&x1&x2&x3&x4&x5&x6&x7&x8&x9&->&Hb).
  destruct (add_fold_spec x x0 x1 [x2; x3; x4; x5; x6; x7; x8] x9) as (r & e & Hr & Hl & Hok & He & Hv);
    unfold M26, M22 in *; [lia..|repeat (constructor; [lia|]); constructor|lia|].
  exists r, (x9 + e). split_and!; [done..|lia|done].
Qed.

Section Normalize.
Context (a : secp256k1_fe).
Hypothesis Ha : fe_mag 31 a.

Lemma normalize_spec :
  fe_norm (secp256k1_fe_normalize a) ∧ fe_val (secp256k1_fe_normalize a) = fe_val a mod field_prime.
Proof using Ha.
  destruct (first_pass_spec a Ha) as [Ht Hv]. unfold secp256k1_fe_normalize. cbv zeta.
  rewrite needs_reduction_spec by done. pose proof (weak_limbs_val _ Ht) as Hr.
  destruct (weak_add_fold (first_pass a) (truth (field_prime <=? val26 (first_pass a))))
    as (r & x9 & -> & Hl & Hok & H9 & Hval); [done|by destruct (_ <=? _)|].
  pose proof (reduce_once _ Hr) as Hm. rewrite <- Hval, Hv in Hm.
  destruct (norm_of_weak r x9 _ Hl Hok H9 eq_refl) as [Hn Hn'].
  - rewrite Hm. by apply Z.mod_pos_bound.
  - split; [done|]. by rewrite Hn', Hm.
Qed.

Lemma normalize_weak_spec :
  fe_mag 1 (secp256k1_fe_normalize_weak a) ∧ fe_val (secp256k1_fe_normalize_weak a) ≡ₚ fe_val a.
Proof using Ha. destruct (first_pass_spec a Ha). by split; [apply weak_limbs_mag|]. Qed.

(** The variant with a branch gives the same element. *)
Lemma normalize_var_eq : secp256k1_fe_normalize_var a = secp256k1_fe_normalize a.
Proof using Ha.
  destruct normalize_spec as [Hn Hval]. destruct (first_pass_spec a Ha) as [Ht Hv].
  unfold secp256k1_fe_normalize_var, secp256k1_fe_normalize in *. cbv zeta in *.
  rewrite needs_reduction_spec in * by done.
  destruct (Z.leb_spec field_prime (val26 (first_pass a))) as [Hp|Hp]; cbn [truth Z.eqb negb] in *.
  - destruct (weak_limbs_inv _ Ht) as (x0&x1&x2&x3&x4&x5&x6&x7&x8&x9&->&Hb). reflexivity.
  - pose proof (weak_limbs_val _ Ht). apply fe_val_inj; [|done|].
    + split; [|done]. cbn [fe_n]. clear Hn Hval Hv. open_weak Ht.
      cbn [val26] in *. unfold M26, M22, field_prime in *. limbs_bound.
    + rewrite Hval, <- Hv. unfold fe_val. cbn [fe_n]. rewrite Z.mod_small by lia. done.
Qed.

Lemma lxor_eqb (x k m : Z) : (Z.lxor x k =? m) = (x =? Z.lxor m k).
Proof.
  apply eq_true_iff_eq. rewrite !Z.eqb_eq. split; [intros <-|intros ->];
    by rewrite Z.lxor_assoc, Z.lxor_nilpotent, Z.lxor_0_r.
Qed.

Lemma lxor_M26_range (x k : Z) : 0 ≤ x ≤ M26 → 0 ≤ k ≤ M26 → 0 ≤ Z.lxor x k ≤ M26.
Proof. unfold M26. intros. pose proof (lxor_range 26 x k). lia. Qed.

Lemma truth_lor (b c : bool) : Z.lor (truth b) (truth c) = truth (b || c).
Proof. by destruct b, c. Qed.

(** The value after the first pass is a multiple of the prime iff it is 0 or the prime. *)
Lemma weak_zero (t0 t1 t2 t3 t4 t5 t6 t7 t8 t9 : Z) :
  weak_limbs [t0; t1; t2; t3; t4; t5; t6; t7; t8; t9] →
  (let z0 := Z.lor (Z.lor (Z.lor (Z.lor (Z.lor (Z.lor (Z.lor (Z.lor (Z.lor t0 t1) t2) t3) t4) t5)
     t6) t7) t8) t9 in
   let z1 := Z.land (Z.land (Z.land (Z.land (Z.land (Z.land (Z.land (Z.land (Z.land
     (Z.lxor t0 0x3D0) (Z.lxor t1 0x40)) t2) t3) t4) t5) t6) t7) t8) (Z.lxor t9 0x3C00000) in
   Z.lor (truth (z0 =? 0)) (truth (z1 =? M26))) =
  truth (val26 [t0; t1; t2; t3; t4; t5; t6; t7; t8; t9] mod field_prime =? 0).
Proof.
  intros H. pose proof (weak_limbs_val _ H) as Hv. cbv zeta. rewrite truth_lor. f_equal. rewrite !lor_eqb_0.
  destruct (weak_limbs_inv _ H) as (x0&x1&x2&x3&x4&x5&x6&x7&x8&x9&[= -> -> -> -> -> -> -> -> -> ->]&Hb).
  destruct_and!.
  assert (0 ≤ Z.lxor x0 0x3D0 ≤ M26) by (apply lxor_M26_range; unfold M26 in *; lia).
  assert (0 ≤ Z.lxor x1 0x40 ≤ M26) by (apply lxor_M26_range; unfold M26 in *; lia).
  assert (0 ≤ Z.lxor x9 0x3C00000 ≤ M26) by (apply lxor_M26_range; unfold M22, M26 in *; lia).
  full_limbs. rewrite !lxor_eqb. apply eq_true_iff_eq.
  rewrite orb_true_iff, !andb_true_iff, !Z.eqb_eq.
  change (Z.lxor M26 0x3D0) with 0x3FFFC2F. change (Z.lxor M26 0x40) with 0x3FFFFBF.
  change (Z.lxor M26 0x3C00000) with 0x03FFFFF.
  transitivity (val26 [x0; x1; x2; x3; x4; x5; x6; x7; x8; x9] = 0 ∨
                val26 [x0; x1; x2; x3; x4; x5; x6; x7; x8; x9] = field_prime).
  - cbn [val26] in *. unfold field_prime, M26, M22 in *. lia.
  - generalize dependent (val26 [x0; x1; x2; x3; x4; x5; x6; x7; x8; x9]). intros v Hv.
    clear -Hv. unfold field_prime in *. zdiv.
Qed.

Lemma to_zero_spec :
  secp256k1_fe_normalizes_to_zero a = truth (fe_val a mod field_prime =? 0).
Proof using Ha.
  destruct (first_pass_spec a Ha) as [Ht Hv]. unfold secp256k1_fe_normalizes_to_zero.
  unfold eqp in Hv. rewrite <- Hv. clear Hv.
  destruct (weak_limbs_inv _ Ht) as (x0&x1&x2&x3&x4&x5&x6&x7&x8&x9&E&_). rewrite E in *.
  by apply weak_zero.
Qed.

(** The variant that looks at the lowest limb first gives the same answer. *)
Lemma first_pass_unfold :
  first_pass a =
    let x := Z.shiftr (fe_limb a 9) 22 in
    let t0 := u32 (fe_limb a 0 + u32 (x * 0x3D1)) in
    Z.land t0 M26 :: carry26 (Z.shiftr t0 26)
      [u32 (fe_limb a 1 + u32 (Z.shiftl x 6)); fe_limb a 2; fe_limb a 3; fe_limb a 4; fe_limb a 5;
       fe_limb a 6; fe_limb a 7; fe_limb a 8; Z.land (fe_limb a 9) M22].
Proof using Ha.
  destruct a as [l]. destruct (limbs_le_inv _ _ Ha) as (x0&x1&x2&x3&x4&x5&x6&x7&x8&x9&E&_).
  cbn [fe_n] in E. subst l. unfold first_pass, fe_limb, add_fold.
  cbn [fe_n lookup_total list_lookup_total insert list_insert]. cbv zeta.
  generalize (x0 + u32 (Z.shiftr x9 22 * 0x3D1)). intros t0.
  generalize (u32 (x1 + u32 (Z.shiftl (Z.shiftr x9 22) 6))). intros t1.
  generalize (Z.land x9 M22). intros t9.
  cbn [carry26]. rewrite Z.add_0_r, (u32_small (u32 t0)) by apply u32_range. done.
Qed.

Lemma to_zero_var_eq :
  secp256k1_fe_normalizes_to_zero_var a = secp256k1_fe_normalizes_to_zero a.
Proof using Ha.
  destruct (first_pass_spec a Ha) as [Ht _].
  unfold secp256k1_fe_normalizes_to_zero_var, secp256k1_fe_normalizes_to_zero.
  rewrite first_pass_unfold in *. cbv zeta in *.
  generalize dependent (u32 (fe_limb a 0 + u32 (Z.shiftr (fe_limb a 9) 22 * 0x3D1))). intros s Ht.
  generalize dependent (carry26 (Z.shiftr s 26) [u32 (fe_limb a 1 + u32 (Z.shiftl (Z.shiftr (fe_limb a 9) 22) 6));
    fe_limb a 2; fe_limb a 3; fe_limb a 4; fe_limb a 5; fe_limb a 6; fe_limb a 7; fe_limb a 8;
    Z.land (fe_limb a 9) M22]). generalize (Z.land s M26). intros t r Ht.
  destruct (weak_limbs_inv _ Ht) as (t0&t1&t2&t3&t4&t5&t6&t7&t8&t9&[= -> ->]&Hb).
  destruct (negb (t0 =? 0) && negb (Z.lxor t0 0x3D0 =? M26)) eqn:Hf; [|done].
  apply andb_prop in Hf as [Hf0 Hf1]. apply negb_true_iff in Hf0, Hf1.
  destruct_and!.
  rewrite truth_lor, !lor_eqb_0, Hf0. cbn [andb orb].
  rewrite !land_M26_eqb, Hf1; [done|..]; repeat apply land_M26_range;
    first [apply lxor_M26_range|idtac]; unfold M26, M22 in *; lia.
Qed.
End Normalize.

(** * Products *)

(** One row: what is above 26 bits is carried, and the low 26 bits of [d], which are
    worth [2 ^ 260] more than [c], are folded in. *)
Lemma mul_row_spec (c d p q : Z) :
  0 ≤ c < 2 ^ 40 → 0 ≤ d < 2 ^ 40 → 0 ≤ p ≤ 10 * 2 ^ 60 → 0 ≤ q ≤ 10 * 2 ^ 60 →
  ∃ t u c' d', mul_row c d p q = (t, c', d') ∧ 0 ≤ t ≤ M26 ∧ 0 ≤ u ≤ M26 ∧
    0 ≤ c' < 2 ^ 40 ∧ 0 ≤ d' < 2 ^ 40 ∧
    d + q = u + 2 ^ 26 * d' ∧ c + p + (R0 + 2 ^ 26 * R1) * u = t + 2 ^ 26 * c'.
Proof.
  intros Hc Hd Hp Hq. unfold mul_row, R0, R1, M26. rewrite (u64_small (d + q)) by lia.
  change 0x3FFFFFF with M26. rewrite !land_M26, !Z.shiftr_div_pow2 by done.
  set (u := (d + q) mod 2 ^ 26). set (d' := (d + q) / 2 ^ 26).
  assert (0 ≤ u < 2 ^ 26 ∧ d + q = u + 2 ^ 26 * d') as [Hu Ed] by (subst u d'; zdiv).
  clearbody u d'. rewrite (u64_small (c + p)), (u64_small (u * 0x3D10)), (u64_small (u * 0x400)) by lia.
  rewrite (u64_small (c + p + u * 0x3D10)) by lia.
  set (t := (c + p + u * 0x3D10) mod 2 ^ 26). set (c' := (c + p + u * 0x3D10) / 2 ^ 26).
  assert (0 ≤ t < 2 ^ 26 ∧ c + p + u * 0x3D10 = t + 2 ^ 26 * c') as [Ht Ec] by (subst t c'; zdiv).
  clearbody t c'. rewrite u64_small by lia.
  exists t, u, (c' + u * 0x400), d'. split_and!; [done|unfold M26; lia..].
Qed.

Lemma mul_rows_spec (ps qs : list Z) (c d : Z) :
  length ps = length qs →
  Forall (λ p, 0 ≤ p ≤ 10 * 2 ^ 60) ps → Forall (λ q, 0 ≤ q ≤ 10 * 2 ^ 60) qs →
  0 ≤ c < 2 ^ 40 → 0 ≤ d < 2 ^ 40 →
  ∃ ts U c' d', mul_rows c d ps qs = (ts, c', d') ∧ length ts = length ps ∧
    Forall (λ t, 0 ≤ t ≤ M26) ts ∧ 0 ≤ c' < 2 ^ 40 ∧ 0 ≤ d' < 2 ^ 40 ∧
    0 ≤ U < 2 ^ (26 * zlen ps) ∧
    d + val26 qs = U + 2 ^ (26 * zlen ps) * d' ∧
    c + val26 ps + (R0 + 2 ^ 26 * R1) * U = val26 ts + 2 ^ (26 * zlen ps) * c'.
Proof.
  intros Hlen Hp. revert qs c d Hlen. induction Hp as [|p ps Hp _ IH]; intros [|q qs] c d Hlen Hq Hc Hd; try done.
  - exists [], 0, c, d. cbn. split_and!; [done|done|constructor|lia..].
  - apply Forall_cons_iff in Hq as [Hq Hqs]. cbn beta in *. cbn [mul_rows].
    destruct (mul_row_spec c d p q) as (t & u & c1 & d1 & -> & Ht & Hu & Hc1 & Hd1 & Ed & Ec); [lia..|].
    destruct (IH qs c1 d1) as (ts & U & c' & d' & -> & Hl & Hts & Hc' & Hd' & HU & Ed' & Ec'); [simpl in *; lia|done..|].
    exists (t :: ts), (u + 2 ^ 26 * U), c', d'.
    replace (26 * zlen (p :: ps)) with (26 + 26 * zlen ps) by (simpl length; lia).
    rewrite Z.pow_add_r by lia. cbn [val26]. unfold M26 in *.
    split_and!; [done|simpl; lia|by constructor|lia..|nia|nia|nia|nia].
Qed.

(** The end of the high columns. *)
Lemma high_end (qs : list Z) (d U d' : Z) :
  length qs = 9%nat → Forall (λ q, 0 ≤ q ≤ 10 * 2 ^ 60) qs → qs !!! 8%nat ≤ 2 ^ 52 →
  0 ≤ d < 2 ^ 40 → 0 ≤ U → d + val26 qs = U + 2 ^ 234 * d' → d' < 2 ^ 27.
Proof.
  intros Hl Hq Hq8 Hd HU E. do 10 (destruct qs as [|? qs]; try discriminate Hl).
  cbn [lookup_total list_lookup_total] in Hq8. rewrite !Forall_cons_iff in Hq. destruct_and!. cbn [val26] in E. lia.
Qed.

(** The end of the code: what is above 256 bits is folded in once more. *)
Definition fold_end (ts : list Z) (t9 c d : Z) : list Z :=
  let c := u64 (c + u64 (u64 (d * R0) + t9)) in
  let r9 := Z.land c (Z.shiftr M26 4) in
  let c := Z.shiftr c 22 in
  let c := u64 (c + u64 (d * u32 (Z.shiftl R1 4))) in
  let d := u64 (u64 (c * Z.shiftr R0 4) + ts !!! 0%nat) in
  let r0 := Z.land d M26 in
  let d := Z.shiftr d 26 in
  let d := u64 (d + u64 (u64 (c * Z.shiftr R1 4) + ts !!! 1%nat)) in
  let r1 := Z.land d M26 in
  let d := Z.shiftr d 26 in
  let d := u64 (d + ts !!! 2%nat) in
  let r2 := u32 d in
  r0 :: r1 :: r2 :: drop 3 ts ++ [r9].

Lemma fold_end_spec (ts : list Z) (t9 c d : Z) :
  length ts = 9%nat → Forall (λ t, 0 ≤ t ≤ M26) ts → 0 ≤ t9 ≤ M26 → 0 ≤ c < 2 ^ 40 → 0 ≤ d < 2 ^ 27 →
  limbs_le 2 (fold_end ts t9 c d) ∧
  val26 (fold_end ts t9 c d) ≡ₚ val26 ts + 2 ^ 234 * (c + t9 + (R0 + 2 ^ 26 * R1) * d).
Proof.
  intros Hl Hts H9 Hc Hd. unfold M26 in *. do 10 (destruct ts as [|? ts]; try discriminate Hl).
  rewrite !Forall_cons_iff in Hts. unfold fold_end, R0, R1.
  cbn [lookup_total list_lookup_total drop app]. change (Z.shiftr M26 4) with M22.
  change (Z.shiftr 0x3D10 4) with 977. change (Z.shiftr 0x400 4) with 64.
  change (u32 (Z.shiftl 0x400 4)) with 16384. rewrite !land_M26, land_M22, !Z.shiftr_div_pow2 by done.
  rewrite (u64_small (d * 0x3D10)), (u64_small (d * 0x3D10 + t9)), (u64_small (c + _)),
    (u64_small (d * 16384)) by lia.
  set (e := c + (d * 0x3D10 + t9)).
  set (r9 := e mod 2 ^ 22). set (q := e / 2 ^ 22).
  assert (0 ≤ r9 < 2 ^ 22 ∧ e = r9 + 2 ^ 22 * q) as [H9' E9] by (subst r9 q; zdiv). clearbody r9 q. subst e.
  rewrite (u64_small (q + d * 16384)) by lia. set (k := q + d * 16384).
  assert (0 ≤ k < 2 ^ 42) as Hk by lia.
  rewrite (u64_small (k * 977)), (u64_small (k * 977 + z)), (u64_small (k * 64)), (u64_small (k * 64 + z0)) by lia.
  set (r0 := (k * 977 + z) mod 2 ^ 26). set (q0 := (k * 977 + z) / 2 ^ 26).
  assert (0 ≤ r0 < 2 ^ 26 ∧ k * 977 + z = r0 + 2 ^ 26 * q0) as [H0 E0] by (subst r0 q0; zdiv). clearbody r0 q0.
  rewrite (u64_small (q0 + (k * 64 + z0))) by lia.
  set (r1 := (q0 + (k * 64 + z0)) mod 2 ^ 26). set (q1 := (q0 + (k * 64 + z0)) / 2 ^ 26).
  assert (0 ≤ r1 < 2 ^ 26 ∧ q0 + (k * 64 + z0) = r1 + 2 ^ 26 * q1) as [H1 E1] by (subst r1 q1; zdiv).
  clearbody r1 q1. rewrite u64_small, u32_small by lia. split.
  - limbs_bound.
  - apply (eqp_multiple (- k)). subst k. cbn [val26]. unfold field_prime. lia.
Qed.

(** The columns of a product are folded to an element of magnitude 1. *)
Lemma fold_columns_spec (ps qs : list Z) (p9 : Z) :
  length ps = 9%nat → Forall (λ p, 0 ≤ p ≤ 10 * 2 ^ 60) ps →
  length qs = 9%nat → Forall (λ q, 0 ≤ q ≤ 10 * 2 ^ 60) qs → qs !!! 8%nat ≤ 2 ^ 52 →
  0 ≤ p9 ≤ 10 * 2 ^ 60 →
  limbs_le 2 (fold_columns (ps ++ p9 :: qs)) ∧
  val26 (fold_columns (ps ++ p9 :: qs)) ≡ₚ val26 (ps ++ p9 :: qs).
Proof.
  intros Hl Hp Hl' Hq Hq8 Hp9. unfold fold_columns.
  assert ((ps ++ p9 :: qs) !!! 9%nat = p9) as ->.
  { rewrite lookup_total_app_r by lia. by rewrite Hl. }
  replace (take 9 (ps ++ p9 :: qs)) with ps by (by rewrite take_app_length').
  replace (drop 10 (ps ++ p9 :: qs)) with qs
    by (rewrite drop_app_ge by lia; by replace (10 - length ps)%nat with 1%nat by lia).
  rewrite (u64_small p9), land_M26, (Z.shiftr_div_pow2 p9) by lia.
  set (t9 := p9 mod 2 ^ 26). set (d0 := p9 / 2 ^ 26).
  assert (0 ≤ t9 < 2 ^ 26 ∧ p9 = t9 + 2 ^ 26 * d0) as [Ht9 E9] by (subst t9 d0; zdiv). clearbody t9 d0.
  destruct (mul_rows_spec ps qs 0 d0) as (ts & U & c & d & -> & Hlt & Hts & Hc & Hd & HU & Ed & Ec);
    [lia|done|done|lia|lia|].
  rewrite Hl in Ed, Ec. change (2 ^ (26 * Z.of_nat 9)) with (2 ^ 234) in *.
  assert (d < 2 ^ 27) as Hd27 by (apply (high_end qs d0 U); lia || done).
  destruct (fold_end_spec ts t9 c d) as [Hb Hv]; [lia|done|unfold M26; lia|lia|lia|].
  split; [exact Hb|]. etransitivity; [exact Hv|].
  rewrite val26_app, Hl. cbn [val26]. change (2 ^ (26 * Z.of_nat 9)) with (2 ^ 234).
  apply (eqp_multiple (- 16 * (U + 2 ^ 234 * d))). unfold field_prime, R0, R1 in *. lia.
Qed.

Lemma product_bound (k j x y : Z) : 0 ≤ k → 0 ≤ j → 0 ≤ x ≤ 2 ^ k → 0 ≤ y ≤ 2 ^ j → 0 ≤ x * y ≤ 2 ^ (k + j).
Proof. intros Hk Hj Hx Hy. rewrite Z.pow_add_r by done. nia. Qed.

(** Proves the bounds of a column from those of its products. *)
Ltac column :=
  repeat match goal with
  | |- context [?x * ?y] =>
      lazymatch y with
      | 2 ^ _ => fail
      | _ => let p := fresh "p" in
             pose proof (product_bound 30 30 x y ltac:(lia) ltac:(lia) ltac:(lia) ltac:(lia));
             set (p := x * y) in *; clearbody p
      end
  end; lia.

Ltac columns := repeat (constructor; [cbn beta; column|]); constructor.

Lemma fold_product (p : list Z) (v : Z) :
  length p = 19%nat → Forall (λ x, 0 ≤ x ≤ 10 * 2 ^ 60) p → p !!! 18%nat ≤ 2 ^ 52 → val26 p = v →
  limbs_le 2 (fold_columns p) ∧ val26 (fold_columns p) ≡ₚ v.
Proof.
  intros Hl Hp H18 <-. assert (p = take 9 p ++ p !!! 9%nat :: drop 10 p) as E.
  { do 20 (destruct p as [|? p]; try discriminate Hl). reflexivity. }
  rewrite E. rewrite <- (take_drop 9 p) in Hp. apply Forall_app in Hp as [Hp1 Hp2].
  assert (drop 9 p = p !!! 9%nat :: drop 10 p) as E' by (do 20 (destruct p as [|? p]; try discriminate Hl); reflexivity).
  rewrite E' in Hp2. apply Forall_cons_iff in Hp2 as [Hp9 Hp2].
  apply fold_columns_spec; [rewrite length_take; lia|done|rewrite length_drop; lia|done| |done].
  by rewrite lookup_total_drop.
Qed.

Section Products.
Context (a b : secp256k1_fe).
Hypothesis Ha : fe_mag 8 a.
Hypothesis Hb : fe_mag 8 b.

Lemma fe_mul_spec :
  fe_mag 1 (secp256k1_fe_mul a b) ∧ fe_val (secp256k1_fe_mul a b) ≡ₚ fe_val a * fe_val b.
Proof using Ha Hb.
  open_fe a. open_fe b. unfold fe_mag, fe_val, secp256k1_fe_mul, secp256k1_fe_mul_inner. cbn [fe_n].
  apply fold_product; [done|unfold mul_columns; columns| |].
  - unfold mul_columns. cbn [lookup_total list_lookup_total]. apply (product_bound 26 26); lia.
  - unfold mul_columns. cbn [val26]. ring.
Qed.

(** The squaring is the product with itself, with the doubled terms computed once. *)
Lemma fe_sqr_mul : secp256k1_fe_sqr a = secp256k1_fe_mul a a.
Proof using Ha.
  open_fe a. unfold secp256k1_fe_sqr, secp256k1_fe_mul, secp256k1_fe_sqr_inner, secp256k1_fe_mul_inner.
  cbn [fe_n]. do 2 f_equal. unfold sqr_columns, mul_columns. rewrite !u32_small by lia.
  repeat (apply (f_equal2 cons); [ring|]). done.
Qed.
End Products.

Lemma fe_sqr_spec (a : secp256k1_fe) :
  fe_mag 8 a → fe_mag 1 (secp256k1_fe_sqr a) ∧ fe_val (secp256k1_fe_sqr a) ≡ₚ fe_val a * fe_val a.
Proof. intros Ha. rewrite fe_sqr_mul by done. by apply fe_mul_spec. Qed.

(** * Sums *)

Lemma fe_add_spec (a b : secp256k1_fe) (m k : Z) :
  fe_mag m a → fe_mag k b → 0 ≤ m → 0 ≤ k → m + k ≤ 32 →
  fe_mag (m + k) (secp256k1_fe_add a b) ∧ fe_val (secp256k1_fe_add a b) = fe_val a + fe_val b.
Proof.
  intros Ha Hb Hm Hk Hmk. open_fe a. open_fe b. unfold fe_mag, fe_val, secp256k1_fe_add. cbn [fe_n zip_with].
  rewrite !u32_small by lia. split; [limbs_bound|cbn [val26]; lia].
Qed.

Lemma fe_mul_int_spec (a : secp256k1_fe) (m k : Z) :
  fe_mag m a → 0 ≤ m → 0 ≤ k → m * k ≤ 32 →
  fe_mag (m * k) (secp256k1_fe_mul_int a k) ∧ fe_val (secp256k1_fe_mul_int a k) = fe_val a * k.
Proof.
  intros Ha Hm Hk Hmk. open_fe a. unfold fe_mag, fe_val, secp256k1_fe_mul_int. cbn [fe_n map].
  rewrite !u32_small by nia. split; [|cbn [val26]; ring].
  repeat (constructor; [unfold M26, M22; nia|]); constructor.
Qed.

Lemma fe_negate_spec (a : secp256k1_fe) (m : Z) :
  fe_mag m a → 0 ≤ m ≤ 31 →
  fe_mag (m + 1) (secp256k1_fe_negate a m) ∧ fe_val (secp256k1_fe_negate a m) ≡ₚ - fe_val a.
Proof.
  intros Ha Hm. open_fe a. unfold fe_mag, fe_val, secp256k1_fe_negate, fe_limb.
  cbn [fe_n lookup_total list_lookup_total]. rewrite !u32_small by lia. split; [limbs_bound|].
  apply (eqp_multiple (2 * (m + 1))). cbn [val26]. unfold field_prime. lia.
Qed.
