(* ===== verification/Secp256k1FieldOps.v ===== *)
(** The other operations on field elements: tests and comparisons, bytes, storage,
    moves, and what [secp256k1_fe_verify] checks. *)

From Stdlib Require Import ZArith Lia Strings.Byte.
From stdpp Require Import base gmap list fin_maps numbers.
From S2P Require Import Prelude Secp256k1Scalar Secp256k1ScalarProofs Secp256k1Field Secp256k1FieldProofs.

(** * Tests *)

(** Reads limbs of explicit arrays. *)
Ltac read_fe := unfold fe_limb, st_limb; cbn [fe_n st_n lookup_total list_lookup_total].

Section Tests.
Context (a b : secp256k1_fe).
Hypothesis Ha : fe_norm a.
Hypothesis Hb : fe_norm b.

Lemma fe_is_zero_spec : secp256k1_fe_is_zero a = truth (fe_val a =? 0).
Proof using Ha.
  destruct Ha as [Hl _]. open_fe a. unfold secp256k1_fe_is_zero, fe_val. read_fe. f_equal.
  rewrite !lor_eqb_0. apply eq_true_iff_eq. rewrite !andb_true_iff, !Z.eqb_eq. cbn [val26]. lia.
Qed.

Lemma fe_is_odd_spec : secp256k1_fe_is_odd a = fe_val a mod 2.
Proof using Ha.
  destruct Ha as [Hl _]. open_fe a. unfold secp256k1_fe_is_odd, fe_val. read_fe. cbn [val26].
  change 1 with (Z.ones 1). rewrite Z.land_ones by done. change (2 ^ 1) with 2.
  generalize (x0 + 2 ^ 26 * (x1 + 2 ^ 26 * (x2 + 2 ^ 26 * (x3 + 2 ^ 26 * (x4 + 2 ^ 26 * (x5 + 2 ^ 26 *
    (x6 + 2 ^ 26 * (x7 + 2 ^ 26 * (x8 + 2 ^ 26 * 0))))))))). intros v.
  replace (x + 2 ^ 26 * v) with (x + 2 ^ 25 * v * 2) by lia. by rewrite Z.mod_add.
Qed.
End Tests.

(** Comparing from the highest limb down compares the values. *)
Lemma cmp_loop_spec (a b : secp256k1_fe) (i : nat) :
  (i ≤ length (fe_n a))%nat → (i ≤ length (fe_n b))%nat →
  Forall (λ x, 0 ≤ x ≤ M26) (fe_n a) → Forall (λ x, 0 ≤ x ≤ M26) (fe_n b) →
  cmp_loop a b i = match val26 (take i (fe_n a)) ?= val26 (take i (fe_n b)) with Lt => -1 | Eq => 0 | Gt => 1 end.
Proof.
  intros Hla Hlb Fa Fb. induction i as [|i IH]; [done|]. cbn [cmp_loop].
  assert (∀ l, (S i ≤ length l)%nat → Forall (λ x, 0 ≤ x ≤ M26) l →
    val26 (take (S i) l) = val26 (take i l) + 2 ^ (26 * Z.of_nat i) * (l !!! i) ∧
    0 ≤ val26 (take i l) < 2 ^ (26 * Z.of_nat i)) as Htake.
  { intros l Hl Hf. destruct (lookup_lt_is_Some_2 l i) as [x Hx]; [lia|].
    rewrite (take_S_r _ _ _ Hx), val26_app, (list_lookup_total_correct _ _ _ Hx). cbn [val26].
    pose proof (val26_range (take i l) ltac:(by apply Forall_take)) as Hr. rewrite length_take in *.
    replace (i `min` length l)%nat with i in * by lia. split; [lia|done]. }
  destruct (Htake (fe_n a) Hla Fa) as [-> Ra], (Htake (fe_n b) Hlb Fb) as [-> Rb]. clear Htake.
  rewrite IH by lia. unfold fe_limb. set (x := fe_n a !!! i). set (y := fe_n b !!! i).
  case_if; [rewrite (proj2 (Z.compare_gt_iff _ _)); [done|nia]|].
  case_if; [rewrite (proj2 (Z.compare_lt_iff _ _)); [done|nia]|].
  assert (x = y) as -> by lia. by rewrite !(Z.add_comm (val26 _)), Z.add_compare_mono_l.
Qed.

Lemma limbs_le_26 (l : list Z) : limbs_le 1 l → length l = 10%nat ∧ Forall (λ x, 0 ≤ x ≤ M26) l.
Proof. intros H. open_limbs H. split; [done|limbs_bound]. Qed.

Lemma fe_cmp_spec (a b : secp256k1_fe) :
  fe_norm a → fe_norm b →
  secp256k1_fe_cmp_var a b = match fe_val a ?= fe_val b with Lt => -1 | Eq => 0 | Gt => 1 end.
Proof.
  intros [Ha _] [Hb _]. apply limbs_le_26 in Ha as [La Fa], Hb as [Lb Fb].
  unfold secp256k1_fe_cmp_var, fe_val. rewrite cmp_loop_spec by (lia || done).
  by rewrite !take_ge by lia.
Qed.

(** What test builds verify of an element with ten unsigned limbs is its magnitude and,
    for a normalized one, the canonical form. *)
Lemma fe_verify_spec (a : secp256k1_fe) (m : Z) (normalized : bool) :
  length (fe_n a) = 10%nat → Forall (λ x, 0 ≤ x) (fe_n a) →
  secp256k1_fe_verify a m normalized = true ↔
  if normalized then fe_norm a ∧ 0 ≤ m ≤ 1 else fe_mag m a ∧ 0 ≤ m ≤ 32.
Proof.
  destruct a as [l]. cbn [fe_n]. intros Hl Hf. do 11 (destruct l as [|? l]; try discriminate Hl).
  rewrite !Forall_cons_iff in Hf. unfold secp256k1_fe_verify, fe_norm, fe_mag, fe_val. read_fe.
  destruct normalized.
  - rewrite !Z.mul_1_r.
    match goal with |- context [if (?q && ?k) && _ then _ else _] => set (r := q && k) end.
    assert (r = true ↔ limbs_le 1 [z; z0; z1; z2; z3; z4; z5; z6; z7; z8] ∧ 0 ≤ m ≤ 1) as Hr.
    { subst r. unfold limbs_le, limb_max. rewrite !Forall2_cons_iff, !andb_true_iff, !Z.leb_le, Z.geb_le.
      split; [intros; split_and!; (constructor || lia)|intros; split_and!; lia]. }
    clearbody r. destruct r; [|cbn [andb]; naive_solver].
    destruct Hr as [[Hb Hm] _]; [done|]. cbn [andb].
    pose proof (limbs_le_inv _ _ Hb) as (y0&y1&y2&y3&y4&y5&y6&y7&y8&y9&[= <- <- <- <- <- <- <- <- <- <-]&Hi).
    rewrite !Z.mul_1_l in Hi. destruct_and! Hi.
    transitivity (¬ field_prime ≤ val26 [z; z0; z1; z2; z3; z4; z5; z6; z7; z8]); [|naive_solver lia].
    rewrite at_least_prime by lia. full_limbs.
    destruct (z8 =? M22) eqn:?; [|naive_solver lia].
    destruct (_ && _) eqn:E; rewrite ?andb_true_iff, ?andb_false_iff, ?Z.eqb_eq, ?Z.eqb_neq in E;
      [rewrite Z.leb_le|]; naive_solver lia.
  - unfold limbs_le, limb_max. rewrite !Forall2_cons_iff, !andb_true_iff, !Z.leb_le, Z.geb_le.
    split; [intros; split_and!; (constructor || lia)|intros; split_and!; lia].
Qed.

(** * Moves *)

Lemma land_u32_ones (x : Z) : 0 ≤ x < 2 ^ 32 → Z.land x 0xFFFFFFFF = x.
Proof. intros. rewrite land_mask32. by apply Z.mod_small. Qed.

(** A flag of 1 moves, a flag of 0 does not. *)
Lemma cmov_limbs_spec (r a : list Z) (flag : bool) :
  limbs_ok r → limbs_ok a → length r = length a →
  cmov_limbs r a (truth flag) = if flag then a else r.
Proof.
  intros Hr Ha Hl. unfold cmov_limbs. revert a Ha Hl.
  induction Hr as [|x r Hx _ IH]; intros [|y a] Ha Hl; try done; [by destruct flag|].
  apply Forall_cons_iff in Ha as [Hy Ha]. cbn [zip_with]. rewrite IH by (done || by injection Hl).
  destruct flag; cbn [truth]; f_equal.
  - change (u32 (1 + 0xFFFFFFFF)) with 0. change (u32 (Z.lnot 0)) with 0xFFFFFFFF.
    by rewrite Z.land_0_r, land_u32_ones.
  - change (u32 (0 + 0xFFFFFFFF)) with 0xFFFFFFFF. change (u32 (Z.lnot 0xFFFFFFFF)) with 0.
    by rewrite Z.land_0_r, land_u32_ones, Z.lor_0_r.
Qed.

Lemma fe_mag_limbs (m : Z) (a : secp256k1_fe) : fe_mag m a → m ≤ 32 → limbs_ok (fe_n a) ∧ length (fe_n a) = 10%nat.
Proof. intros H Hm. open_fe a. cbn [fe_n]. split; [|done]. repeat (constructor; [lia|]); constructor. Qed.

Lemma fe_cmov_spec (r a : secp256k1_fe) (m k : Z) (flag : bool) :
  fe_mag m r → fe_mag k a → m ≤ 32 → k ≤ 32 → secp256k1_fe_cmov r a (truth flag) = if flag then a else r.
Proof.
  intros Hr Ha Hm Hk. apply fe_mag_limbs in Hr as [Hr Lr], Ha as [Ha La]; [|done..].
  unfold secp256k1_fe_cmov. rewrite cmov_limbs_spec by (done || congruence). by destruct flag, r, a.
Qed.

(** * Storage *)

Definition st_val (a : secp256k1_fe_storage) : Z := limbs_val (st_n a).
Definition st_wf (a : secp256k1_fe_storage) : Prop := length (st_n a) = 8%nat ∧ limbs_ok (st_n a).

(** Disjoint bits add up. *)
Lemma lor_add (k x y : Z) : 0 ≤ k → 0 ≤ x < 2 ^ k → Z.lor x (y * 2 ^ k) = x + y * 2 ^ k.
Proof.
  intros Hk Hx. symmetry. rewrite <- Z.lxor_lor; [rewrite Z.add_nocarry_lxor; [done|]|];
    apply Z.bits_inj'; intros i Hi; rewrite Z.land_spec, Z.bits_0;
    (destruct (decide (i < k)); [rewrite Z.mul_pow2_bits_low by done; apply andb_false_r|];
     rewrite <- (Z.mod_small x (2 ^ k)) by done; rewrite Z.mod_pow2_bits_high by lia; done).
Qed.

Lemma lor_shl (k x y : Z) :
  0 ≤ k ≤ 32 → 0 ≤ x < 2 ^ k → Z.lor x (u32 (Z.shiftl y k)) = x + (y mod 2 ^ (32 - k)) * 2 ^ k.
Proof.
  intros Hk Hx. rewrite Z.shiftl_mul_pow2 by lia. unfold u32, wrap.
  replace (2 ^ 32) with (2 ^ (32 - k) * 2 ^ k) by (rewrite <- Z.pow_add_r by lia; f_equal; lia).
  rewrite Z.mul_mod_distr_r by (try apply Z.pow_nonzero; lia). by rewrite lor_add by lia.
Qed.

Lemma lor_shl_26 (k x y : Z) :
  0 ≤ k ≤ 26 → 0 ≤ x < 2 ^ k →
  Z.lor x (Z.land (u32 (Z.shiftl y k)) M26) = x + (y mod 2 ^ (26 - k)) * 2 ^ k.
Proof.
  intros Hk Hx. rewrite land_M26, Z.shiftl_mul_pow2 by lia. unfold u32, wrap.
  change (2 ^ 32) with (2 ^ 26 * 2 ^ 6). rewrite <- Znumtheory.Zmod_div_mod; [|done|done|by exists (2 ^ 6)].
  replace (2 ^ 26) with (2 ^ (26 - k) * 2 ^ k) by (rewrite <- Z.pow_add_r by lia; f_equal; lia).
  rewrite Z.mul_mod_distr_r by (try apply Z.pow_nonzero; lia). by rewrite lor_add by lia.
Qed.

(** Splits the limb [x] at bit [k] into a quotient and a remainder. *)
Ltac split_limb x k :=
  let q := fresh "q" in let r := fresh "r" in
  let Hq := fresh in let Hr := fresh in
  assert (0 ≤ x - 2 ^ k * (x / 2 ^ k) < 2 ^ k ∧ x mod 2 ^ k = x - 2 ^ k * (x / 2 ^ k)) as [Hq Hr] by zdiv;
  rewrite ?Hr in *; clear Hr; set (q := x / 2 ^ k) in *; clearbody q.

Lemma to_storage_spec (a : secp256k1_fe) :
  limbs_le 1 (fe_n a) →
  st_wf (secp256k1_fe_to_storage a) ∧ st_val (secp256k1_fe_to_storage a) = fe_val a.
Proof.
  intros Ha. open_fe a. unfold st_wf, st_val, fe_val, secp256k1_fe_to_storage. read_fe.
  rewrite !Z.shiftr_div_pow2 by done.
  rewrite (lor_shl 26), (lor_shl 20), (lor_shl 14), (lor_shl 8), (lor_shl 2), (lor_shl 28), (lor_shl 22),
    (lor_shl 16), (lor_shl 10) by zdiv.
  change (32 - 26) with 6. change (32 - 20) with 12. change (32 - 14) with 18. change (32 - 8) with 24.
  change (32 - 28) with 4. change (32 - 22) with 10. change (32 - 16) with 16.
  rewrite (Z.mod_small x4), (Z.mod_small x8) by lia.
  split_limb x0 6. split_limb x1 12. split_limb x2 18. split_limb x3 24. split_limb x5 4.
  split_limb x6 10. split_limb x7 16.
  split; [split; [done|]; repeat (constructor; [lia|]); constructor|]. cbn [limbs_val val26]. lia.
Qed.

Lemma st_wf_limbs (a : secp256k1_fe_storage) :
  st_wf a → ∃ x0 x1 x2 x3 x4 x5 x6 x7, a = FeStorage [x0; x1; x2; x3; x4; x5; x6; x7] ∧
    is_limb x0 ∧ is_limb x1 ∧ is_limb x2 ∧ is_limb x3 ∧
    is_limb x4 ∧ is_limb x5 ∧ is_limb x6 ∧ is_limb x7.
Proof.
  destruct a as [l]. intros [Hl Hok]. cbn [st_n] in *.
  do 9 (destruct l as [|? l]; try discriminate Hl). rewrite !Forall_cons_iff in Hok. naive_solver.
Qed.

Lemma from_storage_spec (a : secp256k1_fe_storage) :
  st_wf a →
  limbs_le 1 (fe_n (secp256k1_fe_from_storage a)) ∧ fe_val (secp256k1_fe_from_storage a) = st_val a.
Proof.
  intros Ha. destruct (st_wf_limbs a Ha) as (x0&x1&x2&x3&x4&x5&x6&x7&->&?&?&?&?&?&?&?&?). cbn beta in *.
  unfold st_val, fe_val, secp256k1_fe_from_storage. read_fe.
  rewrite !Z.shiftr_div_pow2 by done.
  rewrite (lor_shl_26 6), (lor_shl_26 12), (lor_shl_26 18), (lor_shl_26 24), (lor_shl_26 4), (lor_shl_26 10),
    (lor_shl_26 16) by zdiv.
  rewrite !land_M26. change (26 - 6) with 20. change (26 - 12) with 14. change (26 - 18) with 8.
  change (26 - 24) with 2. change (26 - 4) with 22. change (26 - 10) with 16. change (26 - 16) with 10.
  replace ((x4 / 2 ^ 2) mod 2 ^ 26) with ((x4 - x4 mod 2 ^ 2) / 2 ^ 2 - 2 ^ 26 * (x4 / 2 ^ 28)) by zdiv.
  replace ((x4 - x4 mod 2 ^ 2) / 2 ^ 2) with (x4 / 2 ^ 2) by zdiv.
  assert (2 ^ 26 * (x4 / 2 ^ 28) ≤ x4 / 2 ^ 2 < 2 ^ 26 * (x4 / 2 ^ 28) + 2 ^ 26) by zdiv.
  assert (0 ≤ x4 / 2 ^ 28 < 2 ^ 4) by zdiv. set (h := x4 / 2 ^ 28) in *. clearbody h.
  split_limb x0 26. split_limb x1 20. split_limb x2 14. split_limb x3 8. split_limb x4 2.
  split_limb x5 22. split_limb x6 16. split_limb x7 10.
  split; [limbs_bound|]. cbn [limbs_val val26]. lia.
Qed.

(** Storing and loading a normalized element gives it back, and so does loading and
    storing 256 bits. *)
Lemma storage_roundtrip (a : secp256k1_fe) :
  limbs_le 1 (fe_n a) → secp256k1_fe_from_storage (secp256k1_fe_to_storage a) = a.
Proof.
  intros Ha. destruct (to_storage_spec a Ha) as [Hw Hv]. destruct (from_storage_spec _ Hw) as [Hl Hv'].
  destruct a as [l], (secp256k1_fe_from_storage _) as [k]. f_equal. apply limbs_le_val_inj; [done..|].
  unfold fe_val in *. cbn [fe_n] in *. congruence.
Qed.

Lemma storage_roundtrip' (a : secp256k1_fe_storage) :
  st_wf a → secp256k1_fe_to_storage (secp256k1_fe_from_storage a) = a.
Proof.
  intros Ha. destruct (from_storage_spec a Ha) as [Hl Hv]. destruct (to_storage_spec _ Hl) as [[Hw Hok] Hv'].
  destruct a as [l], (secp256k1_fe_to_storage _) as [k], Ha as [Hl' Hok'].
  f_equal. unfold st_val in *. cbn [st_n] in *. apply limbs_val_inj; [done..|congruence|congruence].
Qed.

(** * Bytes *)

(** A byte of a number. *)
Lemma le_val_nth_byte (l : list byte) (i : nat) :
  (i < length l)%nat → b2z (l !!! i) = (le_val l / 256 ^ Z.of_nat i) mod 256.
Proof.
  revert i. induction l as [|b l IH]; intros i Hi; [simpl in Hi; lia|].
  pose proof (b2z_range b). cbn [le_val]. destruct i as [|i].
  - cbn [lookup_total list_lookup_total]. change (256 ^ Z.of_nat 0) with 1. rewrite Z.div_1_r. zdiv.
  - cbn [lookup_total list_lookup_total]. rewrite IH by (simpl in Hi; lia).
    replace (256 ^ Z.of_nat (S i)) with (256 * 256 ^ Z.of_nat i) by (rewrite <- Z.pow_succ_r by lia; f_equal; lia).
    rewrite <- Z.div_div by lia. do 2 f_equal. zdiv.
Qed.

Lemma be_val_byte (a : list byte) (i : nat) :
  length a = 32%nat → (i < 32)%nat → b2z (a !!! (31 - i)%nat) = (be_val a / 2 ^ (8 * Z.of_nat i)) mod 2 ^ 8.
Proof.
  intros Hl Hi. rewrite Z.pow_mul_r by lia. change (2 ^ 8) with 256.
  unfold be_val. rewrite <- le_val_nth_byte by (rewrite length_reverse; lia). f_equal.
  rewrite !list_lookup_total_alt, reverse_lookup, Hl by lia. do 2 f_equal.
Qed.

(** Two bits of a number. *)
Lemma two_bits (v k e : Z) :
  0 ≤ k → 0 ≤ e → Z.testbit ((v / 2 ^ k) mod 2 ^ 2) e = (e <? 2) && Z.testbit v (k + e).
Proof.
  intros Hk He. destruct (Z.ltb_spec e 2); cbn [andb].
  - rewrite Z.mod_pow2_bits_low, Z.div_pow2_bits by lia. f_equal. lia.
  - rewrite Z.mod_pow2_bits_high by lia. done.
Qed.

(** The two bits of the number that iteration [k] stores, and where it stores them. *)
Lemma set_b32_step_eq (a : list byte) (r : list Z) (k : nat) :
  length a = 32%nat → (k < 128)%nat →
  set_b32_step a r k =
    let p := (2 * k)%nat in
    <[(p / 26)%nat := Z.lor (r !!! (p / 26)%nat)
      (Z.shiftl ((be_val a / 2 ^ Z.of_nat p) mod 2 ^ 2) (Z.of_nat (p mod 26)))]> r.
Proof.
  intros Hl Hk. unfold set_b32_step. cbv zeta.
  pose proof (Nat.div_mod k 4 ltac:(lia)) as E. pose proof (Nat.mod_upper_bound k 4 ltac:(lia)).
  set (i := (k / 4)%nat) in *. set (j := (k mod 4)%nat) in *. clearbody i j.
  replace (8 * i + 2 * j)%nat with (2 * k)%nat by lia.
  rewrite be_val_byte by lia. f_equal. f_equal. change 0x3 with (Z.ones 2).
  rewrite Z.land_ones, Z.shiftr_div_pow2 by lia. set (v := be_val a).
  assert (((v / 2 ^ (8 * Z.of_nat i)) mod 2 ^ 8 / 2 ^ (2 * Z.of_nat j)) mod 2 ^ 2 =
    (v / 2 ^ Z.of_nat (2 * k)) mod 2 ^ 2) as ->.
  { replace (Z.of_nat (2 * k)) with (8 * Z.of_nat i + 2 * Z.of_nat j) by lia. rewrite Z.pow_add_r by lia.
    rewrite <- Z.div_div by lia. generalize (v / 2 ^ (8 * Z.of_nat i)). intros w.
    assert (j = 0 ∨ j = 1 ∨ j = 2 ∨ j = 3)%nat as [->|[->|[->| ->]]] by lia; cbn [Z.of_nat]; simpl Z.mul; zdiv. }
  apply u32_small. pose proof (Nat.mod_upper_bound (2 * k) 26 ltac:(lia)).
  rewrite Z.shiftl_mul_pow2 by lia. pose proof (Z.mod_pos_bound (v / 2 ^ Z.of_nat (2 * k)) (2 ^ 2) ltac:(lia)).
  pose proof (Z.pow_le_mono_r 2 (Z.of_nat ((2 * k) mod 26)) 25 ltac:(lia) ltac:(lia)).
  pose proof (Z.pow_pos_nonneg 2 (Z.of_nat ((2 * k) mod 26)) ltac:(lia) ltac:(lia)). nia.
Qed.

(** The limbs after [k] iterations have the lowest [2 k] bits of the number. *)
Definition bits_set (v : Z) (k : nat) (r : list Z) : Prop :=
  length r = 10%nat ∧ ∀ (i : nat) s, (i < 10)%nat → 0 ≤ s →
  Z.testbit (r !!! i) s =
    (s <? 26) && (26 * Z.of_nat i + s <? 2 * Z.of_nat k) && Z.testbit v (26 * Z.of_nat i + s).

Lemma set_b32_step_bits (a : list byte) (r : list Z) (k : nat) :
  length a = 32%nat → (k < 128)%nat → bits_set (be_val a) k r → bits_set (be_val a) (S k) (set_b32_step a r k).
Proof.
  intros Hl Hk [Hr Hb]. rewrite set_b32_step_eq by done. cbv zeta.
  pose proof (Nat.div_mod (2 * k) 26 ltac:(lia)) as E. pose proof (Nat.mod_upper_bound (2 * k) 26 ltac:(lia)).
  assert ((2 * k) mod 26 ≠ 25)%nat by (intros E'; rewrite E' in E; lia).
  set (L := ((2 * k) / 26)%nat) in *. set (sh := ((2 * k) mod 26)%nat) in *. clearbody L sh.
  assert (L < 10)%nat by lia. split; [by rewrite length_insert|]. intros i s Hi Hs.
  destruct (decide (i = L)) as [->|Hne].
  - rewrite list_lookup_total_insert_eq by lia. rewrite Z.lor_spec, Z.shiftl_spec, Hb by lia.
    destruct (Z.ltb_spec s (Z.of_nat sh)).
    + rewrite (Z.testbit_neg_r _ (s - _)) by lia. rewrite orb_false_r.
      rewrite (proj2 (Z.ltb_lt (26 * Z.of_nat L + s) (2 * Z.of_nat k))) by lia.
      rewrite (proj2 (Z.ltb_lt (26 * Z.of_nat L + s) (2 * Z.of_nat (S k)))) by lia. done.
    + rewrite two_bits by lia.
      replace (Z.of_nat (2 * k) + (s - Z.of_nat sh)) with (26 * Z.of_nat L + s) by lia.
      rewrite (proj2 (Z.ltb_ge (26 * Z.of_nat L + s) (2 * Z.of_nat k))) by lia.
      rewrite andb_false_r. cbn [andb orb].
      destruct (Z.ltb_spec (s - Z.of_nat sh) 2).
      * rewrite (proj2 (Z.ltb_lt s 26)), (proj2 (Z.ltb_lt (26 * Z.of_nat L + s) (2 * Z.of_nat (S k)))) by lia. done.
      * rewrite (proj2 (Z.ltb_ge (26 * Z.of_nat L + s) (2 * Z.of_nat (S k)))) by lia. by rewrite andb_false_r.
  - rewrite list_lookup_total_insert_ne by done. rewrite Hb by done.
    destruct (Z.ltb_spec s 26); [|done]. cbn [andb]. f_equal. apply eq_true_iff_eq. rewrite !Z.ltb_lt. lia.
Qed.

Lemma set_b32_loop (a : list byte) (n : nat) :
  length a = 32%nat → (n ≤ 128)%nat →
  bits_set (be_val a) n (foldl (set_b32_step a) [0; 0; 0; 0; 0; 0; 0; 0; 0; 0] (seq 0 n)).
Proof.
  intros Hl. induction n as [|n IH]; intros Hn.
  - split; [done|]. intros i s Hi Hs. cbn [seq foldl].
    rewrite (proj2 (Z.ltb_ge (26 * Z.of_nat i + s) _)), andb_false_r by lia.
    do 10 (destruct i as [|i]; [apply Z.bits_0|]). lia.
  - rewrite seq_S, foldl_app. cbn [foldl Nat.add]. apply set_b32_step_bits; [done|lia|]. apply IH. lia.
Qed.

(** The digits of a number in base [2^26]. *)
Lemma val26_digits (n : nat) (v : Z) :
  val26 (map (λ i, (v / 2 ^ (26 * Z.of_nat i)) mod 2 ^ 26) (seq 0 n)) = v mod 2 ^ (26 * Z.of_nat n).
Proof.
  induction n as [|n IH]; [by rewrite Z.mod_1_r|].
  rewrite seq_S, map_app, val26_app, IH, length_map, length_seq. cbn [map val26 Nat.add].
  replace (26 * Z.of_nat (S n)) with (26 * Z.of_nat n + 26) by lia.
  rewrite Z.pow_add_r, Z.rem_mul_r by lia. lia.
Qed.

Lemma bits_set_digits (v : Z) (r : list Z) :
  0 ≤ v < 2 ^ 256 → bits_set v 128 r → limbs_le 1 r ∧ val26 r = v.
Proof.
  intros Hv [Hl Hb].
  assert (r = map (λ i, (v / 2 ^ (26 * Z.of_nat i)) mod 2 ^ 26) (seq 0 10)) as ->.
  { assert (∀ i, (i < 10)%nat → r !!! i = (v / 2 ^ (26 * Z.of_nat i)) mod 2 ^ 26) as Hi.
    { intros i Hi. apply Z.bits_inj'. intros s Hs. rewrite Hb by done.
      destruct (Z.ltb_spec s 26).
      - rewrite Z.mod_pow2_bits_low, Z.div_pow2_bits by lia. rewrite Z.add_comm.
        destruct (Z.ltb_spec (s + 26 * Z.of_nat i) (2 * Z.of_nat 128)); [done|].
        rewrite <- (Z.mod_small v (2 ^ 256)), Z.mod_pow2_bits_high by lia. done.
      - by rewrite Z.mod_pow2_bits_high by lia. }
    do 11 (destruct r as [|? r]; try discriminate Hl). cbn [map seq].
    rewrite <- !Hi by lia. reflexivity. }
  rewrite val26_digits, Z.mod_small by (cbn; lia). split; [|done]. cbn [map seq].
  assert (∀ i, 0 ≤ (v / 2 ^ (26 * Z.of_nat i)) mod 2 ^ 26 ≤ 1 * M26).
  { intros i. unfold M26. pose proof (Z.mod_pos_bound (v / 2 ^ (26 * Z.of_nat i)) (2 ^ 26)). lia. }
  do 9 (constructor; [done|]). constructor; [|constructor]. clear -Hv. change (26 * Z.of_nat 9) with 234. unfold M22. zdiv.
Qed.

Lemma be_val_range32 (a : list byte) : length a = 32%nat → 0 ≤ be_val a < 2 ^ 256.
Proof.
  intros Hl. unfold be_val. pose proof (le_val_range (reverse a)) as H. by rewrite length_reverse, Hl in H.
Qed.

(** Reading 32 bytes: the number they stand for, refused if it is not below the prime. *)
Lemma fe_set_b32_spec (a : list byte) :
  length a = 32%nat →
  let '(r, ok) := secp256k1_fe_set_b32 a in
  limbs_le 1 (fe_n r) ∧ fe_val r = be_val a ∧ ok = truth (be_val a <? field_prime).
Proof.
  intros Hl. pose proof (set_b32_loop a 128 Hl ltac:(lia)) as Hb.
  apply (bits_set_digits _ _ (be_val_range32 a Hl)) in Hb as [Hr Hv].
  unfold secp256k1_fe_set_b32. cbv zeta.
  generalize dependent (foldl (set_b32_step a) [0; 0; 0; 0; 0; 0; 0; 0; 0; 0] (seq 0 128)). intros r Hr Hv.
  pose proof (limbs_le_inv _ _ Hr) as (y0&y1&y2&y3&y4&y5&y6&y7&y8&y9&->&Hi). rewrite !Z.mul_1_l in Hi.
  destruct_and! Hi. cbn [lookup_total list_lookup_total]. full_limbs.
  match goal with |- context [if ?c then _ else _] => assert (c = (field_prime <=? be_val a)) as -> end.
  { apply eq_true_iff_eq. rewrite Z.leb_le, <- Hv, at_least_prime by lia.
    rewrite !andb_true_iff, !Z.eqb_eq, Z.gtb_lt. naive_solver. }
  rewrite Z.leb_antisym. by destruct (be_val a <? field_prime).
Qed.

Lemma val26_digit (l : list Z) (i : nat) :
  Forall (λ x, 0 ≤ x ≤ M26) l → (i < length l)%nat → l !!! i = (val26 l / 2 ^ (26 * Z.of_nat i)) mod 2 ^ 26.
Proof.
  intros Hl. revert i. unfold M26 in Hl. induction Hl as [|x l Hx _ IH]; intros i Hi; [simpl in Hi; lia|].
  cbn [val26]. destruct i as [|i].
  - cbn [lookup_total list_lookup_total]. change (2 ^ (26 * Z.of_nat 0)) with 1. rewrite Z.div_1_r. zdiv.
  - change ((x :: l) !!! S i) with (l !!! i). rewrite IH by (simpl in Hi; lia).
    replace (26 * Z.of_nat (S i)) with (26 + 26 * Z.of_nat i) by lia. rewrite Z.pow_add_r by lia.
    rewrite <- Z.div_div by lia. do 2 f_equal. zdiv.
Qed.

(** Two bits that do not cross limbs. *)
Lemma get_b32_bits (a : secp256k1_fe) (p : nat) :
  limbs_le 1 (fe_n a) → (p < 256)%nat → Nat.Even p →
  Z.land (Z.shiftr (fe_limb a (p / 26)) (Z.of_nat (p mod 26))) 0x3 = (fe_val a / 2 ^ Z.of_nat p) mod 2 ^ 2.
Proof.
  intros Ha Hp [h Hh]. apply limbs_le_26 in Ha as [Hl Hf].
  pose proof (Nat.div_mod p 26 ltac:(lia)) as E. pose proof (Nat.mod_upper_bound p 26 ltac:(lia)).
  assert (p mod 26 ≠ 25)%nat by (intros E'; rewrite E' in E; lia).
  set (L := (p / 26)%nat) in *. set (s := (p mod 26)%nat) in *. clearbody L s.
  unfold fe_limb, fe_val. rewrite val26_digit by (done || lia). set (v := val26 (fe_n a)).
  change 0x3 with (Z.ones 2). rewrite Z.land_ones, Z.shiftr_div_pow2 by lia.
  apply Z.bits_inj'. intros e He. rewrite !two_bits by lia.
  destruct (Z.ltb_spec e 2); [|done]. cbn [andb].
  rewrite Z.mod_pow2_bits_low, Z.div_pow2_bits by lia. f_equal. lia.
Qed.

Lemma get_b32_byte_spec (a : secp256k1_fe) (i : nat) :
  limbs_le 1 (fe_n a) → (i < 32)%nat → get_b32_byte a i = (fe_val a / 256 ^ Z.of_nat i) mod 256.
Proof.
  intros Ha Hi. unfold get_b32_byte. cbn [seq foldl].
  rewrite !get_b32_bits by (try done; try lia; [..]; (exists (4 * i)%nat + exists (4 * i + 1)%nat +
    exists (4 * i + 2)%nat + exists (4 * i + 3)%nat); lia).
  replace (256 ^ Z.of_nat i) with (2 ^ (8 * Z.of_nat i)) by (by rewrite Z.pow_mul_r by lia).
  assert (∀ j : nat, fe_val a / 2 ^ Z.of_nat (8 * i + 2 * j) = fe_val a / 2 ^ (8 * Z.of_nat i) / 2 ^ (2 * Z.of_nat j)) as E.
  { intros j. rewrite Z.div_div by lia. rewrite <- Z.pow_add_r by lia. do 2 f_equal. lia. }
  rewrite !E. generalize (fe_val a / 2 ^ (8 * Z.of_nat i)). intros w. clear.
  rewrite !Z.shiftl_mul_pow2 by lia. rewrite Z.lor_0_l.
  change (2 ^ (2 * Z.of_nat 0)) with 1. change (2 ^ (2 * Z.of_nat 1)) with (2 ^ 2).
  change (2 ^ (2 * Z.of_nat 2)) with (2 ^ 4). change (2 ^ (2 * Z.of_nat 3)) with (2 ^ 6).
  rewrite Z.mul_1_r, (lor_add 2), (lor_add 4), (lor_add 6) by zdiv. zdiv.
Qed.

Lemma fe_get_b32_spec (a : secp256k1_fe) :
  limbs_le 1 (fe_n a) → secp256k1_fe_get_b32 a = be_bytes 32 (fe_val a).
Proof.
  intros Ha.
  assert (∀ n v, le_bytes n v = map (λ k, z2b ((v / 256 ^ Z.of_nat k) mod 256)) (seq 0 n)) as Hle.
  { induction n as [|n IH]; intros v; [done|]. cbn [le_bytes seq map]. f_equal.
    - change (256 ^ Z.of_nat 0) with 1. rewrite Z.div_1_r. unfold z2b, u8, wrap. by rewrite Zmod_mod.
    - rewrite IH, <- seq_shift, map_map. apply map_ext. intros k.
      replace (256 ^ Z.of_nat (S k)) with (256 * 256 ^ Z.of_nat k) by (rewrite <- Z.pow_succ_r by lia; f_equal; lia).
      by rewrite <- Z.div_div by lia. }
  unfold be_bytes. rewrite Hle. unfold secp256k1_fe_get_b32.
  transitivity (reverse (map (λ k, z2b (get_b32_byte a k)) (seq 0 32))); [reflexivity|].
  f_equal. apply map_ext_in. intros k Hk%in_seq. by rewrite get_b32_byte_spec by (done || lia).
Qed.

Lemma be_val_be_bytes32 (v : Z) : 0 ≤ v < 2 ^ 256 → be_val (be_bytes 32 v) = v.
Proof.
  intros Hv. unfold be_val, be_bytes. rewrite reverse_involutive, le_val_le_bytes. by apply Z.mod_small.
Qed.

(** Writing and reading bytes. *)
Lemma fe_b32_roundtrip (a : secp256k1_fe) :
  fe_norm a → secp256k1_fe_set_b32 (secp256k1_fe_get_b32 a) = (a, 1).
Proof.
  intros Ha. pose proof (fe_norm_val a Ha) as Hr. destruct Ha as [Ha Hlt]. rewrite fe_get_b32_spec by done.
  pose proof (fe_set_b32_spec (be_bytes 32 (fe_val a))) as H. destruct (secp256k1_fe_set_b32 _) as [r ok].
  destruct H as (Hl & Hv & ->); [unfold be_bytes; by rewrite length_reverse, length_le_bytes|].
  rewrite be_val_be_bytes32 in * by (unfold field_prime in *; lia).
  rewrite (proj2 (Z.ltb_lt _ _)) by lia. f_equal. destruct a, r. f_equal. by apply limbs_le_val_inj.
Qed.

Lemma fe_b32_roundtrip' (b : list byte) :
  length b = 32%nat → secp256k1_fe_get_b32 (secp256k1_fe_set_b32 b).1 = b.
Proof.
  intros Hb. pose proof (fe_set_b32_spec b Hb) as H. destruct (secp256k1_fe_set_b32 b) as [r ok].
  destruct H as (Hl & Hv & _). cbn [fst]. rewrite fe_get_b32_spec, Hv by done.
  apply be_val_inj; [unfold be_bytes; by rewrite length_reverse, length_le_bytes|].
  apply be_val_be_bytes32. by apply be_val_range32.
Qed.
