(* ===== verification/Secp256k1FieldApi.v ===== *)
(** Roots and inverses of field elements, and the theorems about the field.

    Inverses and square roots are powers, computed by chains of squarings and
    products; that these powers are what they should be is Fermat's theorem for
    the field prime, whose primality is certified in [Primality]. *)

From Stdlib Require Import ZArith Lia Strings.Byte.
From Stdlib Require Import Zmod.
From stdpp Require Import base gmap list fin_maps numbers.
From S2P Require Import Prelude Primality Secp256k1Scalar Secp256k1Field Secp256k1FieldProofs Secp256k1FieldOps.

(** * Equality *)

Lemma eqp_sub_0 (x y : Z) : ((y - x) mod field_prime =? 0) = (x mod field_prime =? y mod field_prime).
Proof.
  apply eq_true_iff_eq. rewrite !Z.eqb_eq. rewrite <- (Z.cong_iff_0 y x). split; congruence.
Qed.

Section Equal.
Context (a b : secp256k1_fe).
Hypothesis Ha : fe_mag 1 a.
Hypothesis Hb : fe_mag 29 b.

Lemma fe_equal_spec :
  secp256k1_fe_equal a b = truth (fe_val a mod field_prime =? fe_val b mod field_prime) ∧
  secp256k1_fe_equal_var a b = secp256k1_fe_equal a b.
Proof using Ha Hb.
  unfold secp256k1_fe_equal, secp256k1_fe_equal_var. cbv zeta.
  destruct (fe_negate_spec a 1 Ha ltac:(lia)) as [Hn Vn].
  destruct (fe_add_spec (secp256k1_fe_negate a 1) b 2 29 Hn Hb) as [Hs Vs]; [lia..|].
  split; [|by apply to_zero_var_eq].
  rewrite to_zero_spec, Vs by done. rewrite <- eqp_sub_0. do 2 f_equal.
  change (fe_val (secp256k1_fe_negate a 1) + fe_val b ≡ₚ fe_val b - fe_val a). rewrite Vn.
  unfold eqp. f_equal. lia.
Qed.
End Equal.

(** * Powers *)

(** [y], of magnitude [m], is a power of [x]. *)
Definition fe_power (m : Z) (x y : secp256k1_fe) (e : Z) : Prop :=
  fe_mag m y ∧ 0 ≤ e ∧ fe_val y ≡ₚ fe_val x ^ e.

#[local] Opaque secp256k1_fe_mul secp256k1_fe_sqr secp256k1_fe_equal fe_val.

Section Powers.
Context (x : secp256k1_fe) (Hx : fe_mag 8 x).

Lemma fe_power_self : fe_power 8 x x 1.
Proof using Hx. split_and!; [done|lia|]. by rewrite Z.pow_1_r. Qed.

Lemma fe_power_mul (m k : Z) (y z : secp256k1_fe) (e f : Z) :
  fe_power m x y e → fe_power k x z f → m ≤ 8 → k ≤ 8 → fe_power 1 x (secp256k1_fe_mul y z) (e + f).
Proof.
  intros (Hy & He & Vy) (Hz & Hf & Vz) Hm Hk.
  destruct (fe_mul_spec y z) as [Hok Hv]; [by apply (fe_mag_mono m)|by apply (fe_mag_mono k)|].
  split_and!; [done|lia|]. rewrite Z.pow_add_r by lia. by rewrite Hv, Vy, Vz.
Qed.

Lemma fe_power_sqr (m : Z) (y : secp256k1_fe) (e : Z) :
  fe_power m x y e → m ≤ 8 → fe_power 1 x (secp256k1_fe_sqr y) (2 * e).
Proof.
  intros Hy Hm. rewrite fe_sqr_mul by (apply (fe_mag_mono m); [apply Hy|done]).
  replace (2 * e) with (e + e) by lia. by apply (fe_power_mul m m).
Qed.

Lemma fe_power_sqr_times (n : nat) (y : secp256k1_fe) (e : Z) :
  fe_power 1 x y e → fe_power 1 x (fe_sqr_times n y) (2 ^ Z.of_nat n * e).
Proof.
  intros Hy. unfold fe_sqr_times. induction n as [|n IH].
  - replace (2 ^ Z.of_nat 0 * e) with e by lia. exact Hy.
  - rewrite Nat.iter_succ. apply (fe_power_sqr 1) in IH; [|lia].
    replace (2 ^ Z.of_nat (S n) * e) with (2 * (2 ^ Z.of_nat n * e)); [exact IH|].
    rewrite Nat2Z.inj_succ, Z.pow_succ_r by lia. ring.
Qed.

Lemma fe_power_let {T : Type} (v : secp256k1_fe) (body : secp256k1_fe → T) (e : Z) (Q : T → Prop) :
  fe_power 1 x v e → (∀ y, fe_power 1 x y e → Q (body y)) → Q (let y := v in body y).
Proof. intros Hv Hbody. by apply Hbody. Qed.

Lemma fe_power_eq (y : secp256k1_fe) (e f : Z) : fe_power 1 x y e → e = f → fe_power 1 x y f.
Proof. by intros ? <-. Qed.

(** Proves that a squaring or a product of known powers is a power. *)
Ltac fe_power_step :=
  lazymatch goal with
  | |- fe_power _ _ (secp256k1_fe_mul ?a ?b) _ =>
      match goal with
      | Ha : fe_power ?m _ a ?e, Hb : fe_power ?k _ b ?f |- _ =>
          exact (fe_power_mul m k a b e f Ha Hb ltac:(lia) ltac:(lia))
      end
  | Ha : fe_power ?m _ ?a ?e |- fe_power _ _ (secp256k1_fe_sqr ?a) _ =>
      exact (fe_power_sqr m a e Ha ltac:(lia))
  | Ha : fe_power _ _ ?a ?e |- fe_power _ _ (fe_sqr_times ?n ?a) _ => exact (fe_power_sqr_times n a e Ha)
  end.

(** Goes through a chain of powers. *)
Ltac fe_chain :=
  repeat match goal with
  | |- ?Q (let y := ?v in @?b y) =>
      refine (fe_power_let v b _ Q ltac:(fe_power_step) _);
      let y := fresh "y" in let H := fresh "H" in
      intros y H; match type of H with fe_power _ _ _ ?e =>
        let e' := eval vm_compute in e in change e with e' in H end; cbv beta
  end.

Lemma fe_inv_power : fe_power 1 x (secp256k1_fe_inv x) (field_prime - 2).
Proof using Hx.
  enough (∀ Q : secp256k1_fe → Prop,
    (∀ r, fe_power 1 x r (field_prime - 2) → Q r) → Q (secp256k1_fe_inv x)) as HQ by (by apply HQ).
  intros Q HQ. pose proof fe_power_self as H. cbv beta delta [secp256k1_fe_inv]. fe_chain.
  apply HQ. eapply fe_power_eq; [fe_power_step|]. vm_compute. reflexivity.
Qed.

Lemma fe_sqrt_power :
  ∃ r t, secp256k1_fe_sqrt x = (r, secp256k1_fe_equal t x) ∧
    fe_power 1 x r (2 * ((field_prime + 1) / 8)) ∧ fe_power 1 x t (4 * ((field_prime + 1) / 8)).
Proof using Hx.
  enough (∀ Q : secp256k1_fe * Z → Prop,
    (∀ r t, fe_power 1 x r (2 * ((field_prime + 1) / 8)) → fe_power 1 x t (4 * ((field_prime + 1) / 8)) →
      Q (r, secp256k1_fe_equal t x)) → Q (secp256k1_fe_sqrt x)) as HQ.
  { apply HQ. intros r t Hr Ht. exists r, t. split_and!; [reflexivity|exact Hr|exact Ht]. }
  intros Q HQ. pose proof fe_power_self as H. cbv beta delta [secp256k1_fe_sqrt]. fe_chain.
  apply HQ; (eapply fe_power_eq; [eassumption|]); vm_compute; reflexivity.
Qed.
End Powers.

(** * Inverses and square roots *)

Lemma fermat_eqp (v : Z) : ¬ v ≡ₚ 0 → v ^ (field_prime - 1) ≡ₚ 1.
Proof. intros Hv. apply Z.fermat_nz; [apply field_prime_prime|done]. Qed.

#[global] Instance eqp_pow : Proper (eqp ==> (=) ==> eqp) Z.pow.
Proof. intros v w Hv e _ <-. unfold eqp in *. by rewrite <- Z.mod_pow_l, Hv, Z.mod_pow_l. Qed.

Lemma fe_inv_spec (a : secp256k1_fe) :
  fe_mag 8 a →
  fe_mag 1 (secp256k1_fe_inv a) ∧
  fe_val (secp256k1_fe_inv a) * fe_val a ≡ₚ (if fe_val a mod field_prime =? 0 then 0 else 1).
Proof.
  intros Ha. destruct (fe_inv_power a Ha) as (Hok & _ & Hv). split; [done|]. rewrite Hv.
  destruct (Z.eqb_spec (fe_val a mod field_prime) 0) as [E|E].
  - change 0 with (0 mod field_prime) in E. change (fe_val a ≡ₚ 0) in E. rewrite E at 2.
    by rewrite Z.mul_0_r.
  - rewrite <- (fermat_eqp (fe_val a)) by done.
    replace (field_prime - 1) with (field_prime - 2 + 1) by lia. rewrite Z.pow_add_r, Z.pow_1_r by done. done.
Qed.

(** The power [(p+1)/4] is a square root of every square: its square is the power [(p+1)/2]. *)
Lemma square_root_power (v s : Z) : s * s ≡ₚ v → v ^ (4 * ((field_prime + 1) / 8)) ≡ₚ v.
Proof.
  intros E. rewrite <- E. clear E v. rewrite <- Z.pow_2_r, <- Z.pow_mul_r by (unfold field_prime; zdiv).
  replace (2 * (4 * ((field_prime + 1) / 8))) with (field_prime - 1 + 2) by (by vm_compute).
  rewrite Z.pow_add_r by done. destruct (decide (s mod field_prime = 0 mod field_prime)) as [Hs|Hs].
  - change (s ≡ₚ 0) in Hs. rewrite Hs. by rewrite Z.mul_0_r.
  - rewrite fermat_eqp by done. by rewrite Z.mul_1_l.
Qed.

(** [secp256k1_fe_sqrt] finds a square root, itself a square, exactly of the squares. *)
Lemma fe_sqrt_spec (a : secp256k1_fe) :
  fe_mag 8 a →
  let '(r, ok) := secp256k1_fe_sqrt a in
  fe_mag 1 r ∧ (∃ h, fe_val r ≡ₚ h * h) ∧ (ok = 0 ∨ ok = 1) ∧
  (ok = 1 ↔ ∃ s, s * s ≡ₚ fe_val a) ∧ (ok = 1 ↔ fe_val r * fe_val r ≡ₚ fe_val a).
Proof.
  intros Ha. destruct (fe_sqrt_power a Ha) as (r & t & E & (Hr & _ & Vr) & (Ht & _ & Vt)).
  rewrite E. clear E. destruct (fe_equal_spec t a Ht) as [-> _]; [by apply (fe_mag_mono 8)|].
  set (q := (field_prime + 1) / 8) in *. assert (0 ≤ q) by (subst q; unfold field_prime; zdiv).
  assert (fe_val t ≡ₚ fe_val r * fe_val r) as Etr.
  { rewrite Vt, Vr, <- Z.pow_add_r by lia. replace (2 * q + 2 * q) with (4 * q) by lia. reflexivity. }
  assert (truth (fe_val t mod field_prime =? fe_val a mod field_prime) = 1 ↔ fe_val r * fe_val r ≡ₚ fe_val a) as Hok.
  { rewrite <- Etr. unfold eqp. clear. destruct (Z.eqb_spec (fe_val t mod field_prime) (fe_val a mod field_prime)); cbn [truth]; lia. }
  split_and!; [done| | | |done].
  - exists (fe_val a ^ q). rewrite Vr, <- Z.pow_add_r by lia. replace (q + q) with (2 * q) by lia. reflexivity.
  - destruct (_ =? _); [by right|by left].
  - rewrite Hok. split; [eauto|]. intros [s Hs]. rewrite <- Etr, Vt. exact (square_root_power _ s Hs).
Qed.

(** * Many inverses at once *)

(** The product of the first [n + 1] elements. *)
Fixpoint fe_prefix (a : list secp256k1_fe) (n : nat) : Z :=
  match n with
  | O => fe_val (a !!! 0%nat)
  | S n => fe_prefix a n * fe_val (a !!! S n)
  end.

Section Inv_all.
Context (a : list secp256k1_fe).
Hypothesis Ha : ∀ i, (i < length a)%nat → fe_mag 8 (a !!! i).
Hypothesis Hnz : ∀ i, (i < length a)%nat → ¬ fe_val (a !!! i) ≡ₚ 0.

(** After the first loop, element [i] is the product of the elements up to [i]. *)
Lemma inv_all_forward_spec (r : list secp256k1_fe) (n : nat) :
  length r = length a → (n < length a)%nat → r !!! 0%nat = a !!! 0%nat →
  let r' := foldl (λ r i, <[i := secp256k1_fe_mul (r !!! (i - 1)%nat) (a !!! i)]> r) r (seq 1 n) in
  length r' = length a ∧ ∀ i, (i ≤ n)%nat → fe_mag 8 (r' !!! i) ∧ fe_val (r' !!! i) ≡ₚ fe_prefix a i.
Proof using Ha.
  intros Hl Hn H0. cbv zeta. induction n as [|n IH].
  - split; [done|]. intros i Hi. replace i with 0%nat by lia. cbn [seq foldl fe_prefix]. rewrite H0.
    split; [apply Ha; lia|reflexivity].
  - rewrite seq_S, foldl_app. cbn [foldl Nat.add]. destruct IH as [Hl' IH]; [lia|].
    set (r' := foldl _ r (seq 1 n)) in *. clearbody r'. split; [by rewrite length_insert|]. intros i Hi.
    destruct (decide (i = S n)) as [->|].
    + rewrite list_lookup_total_insert_eq by lia. cbn [Nat.sub fe_prefix]. rewrite Nat.sub_0_r.
      destruct (IH n) as [Hm Hv]; [lia|].
      destruct (fe_mul_spec (r' !!! n) (a !!! S n)) as [Hm' Hv']; [done|apply Ha; lia|].
      split; [apply (fe_mag_mono 1); [done|lia]|]. by rewrite Hv', Hv.
    + rewrite list_lookup_total_insert_ne by done. apply IH. lia.
Qed.

(** The second loop: [u] is the inverse of the product up to [i], and the elements after [i]
    are the inverses. *)
Lemma inv_all_backward_spec (r : list secp256k1_fe) (u : secp256k1_fe) (i : nat) :
  length r = length a → (i < length a)%nat → fe_mag 8 u → fe_val u * fe_prefix a i ≡ₚ 1 →
  (∀ j, (j ≤ i)%nat → fe_mag 8 (r !!! j) ∧ fe_val (r !!! j) ≡ₚ fe_prefix a j) →
  (∀ j, (i < j < length a)%nat → fe_mag 8 (r !!! j) ∧ fe_val (r !!! j) * fe_val (a !!! j) ≡ₚ 1) →
  let '(r', u') := inv_all_backward a r u i in
  length r' = length a ∧ fe_mag 8 u' ∧ fe_val u' * fe_val (a !!! 0%nat) ≡ₚ 1 ∧
  ∀ j, (0 < j < length a)%nat → fe_mag 8 (r' !!! j) ∧ fe_val (r' !!! j) * fe_val (a !!! j) ≡ₚ 1.
Proof using Ha.
  revert r u. induction i as [|i IH]; intros r u Hl Hi Hu Vu Hlow Hhigh; cbn [inv_all_backward]; [done|].
  cbn [fe_prefix] in Vu. destruct (Hlow i) as [Hm Hv]; [lia|].
  destruct (fe_mul_spec (r !!! i) u Hm Hu) as [Hm1 Hv1].
  destruct (fe_mul_spec u (a !!! S i) Hu) as [Hm2 Hv2]; [apply Ha; lia|].
  apply IH; [by rewrite length_insert|lia|by apply (fe_mag_mono 1); [|lia]| | |].
  - rewrite Hv2, <- Vu. apply eq_subrelation; [typeclasses eauto|ring].
  - intros j Hj. rewrite list_lookup_total_insert_ne by lia. apply Hlow. lia.
  - intros j Hj. destruct (decide (j = S i)) as [->|].
    + rewrite list_lookup_total_insert_eq by lia. split; [by apply (fe_mag_mono 1); [|lia]|].
      rewrite Hv1, Hv, <- Vu. apply eq_subrelation; [typeclasses eauto|ring].
    + rewrite list_lookup_total_insert_ne by done. apply Hhigh. lia.
Qed.
End Inv_all.

Lemma eqp_mul_nonzero (x y : Z) : ¬ x ≡ₚ 0 → ¬ y ≡ₚ 0 → ¬ x * y ≡ₚ 0.
Proof.
  intros Hx%fermat_eqp Hy%fermat_eqp Hxy.
  assert ((x * y) ^ (field_prime - 1) ≡ₚ 1) as H1 by (by rewrite Z.pow_mul_l, Hx, Hy).
  rewrite Hxy, Z.pow_0_l in H1 by done. discriminate H1.
Qed.

Lemma fe_prefix_nonzero (a : list secp256k1_fe) (n : nat) :
  (∀ i, (i ≤ n)%nat → ¬ fe_val (a !!! i) ≡ₚ 0) → ¬ fe_prefix a n ≡ₚ 0.
Proof.
  induction n as [|n IH]; intros H; cbn [fe_prefix]; [apply H; lia|].
  apply eqp_mul_nonzero; [apply IH; intros; apply H; lia|apply H; lia].
Qed.

Lemma fe_inv_nonzero (a : secp256k1_fe) :
  fe_mag 8 a → ¬ fe_val a ≡ₚ 0 → fe_val (secp256k1_fe_inv a) * fe_val a ≡ₚ 1.
Proof.
  intros Ha Hnz. destruct (fe_inv_spec a Ha) as [_ H].
  destruct (Z.eqb_spec (fe_val a mod field_prime) 0) as [E|E]; [|exact H]. by destruct Hnz.
Qed.

Lemma fe_inv_all_spec (r a : list secp256k1_fe) :
  length r = length a →
  (∀ i, (i < length a)%nat → fe_mag 8 (a !!! i) ∧ ¬ fe_val (a !!! i) ≡ₚ 0) →
  let r' := secp256k1_fe_inv_all_var r a (length a) in
  length r' = length a ∧
  ∀ i, (i < length a)%nat → fe_mag 8 (r' !!! i) ∧ fe_val (r' !!! i) * fe_val (a !!! i) ≡ₚ 1.
Proof.
  intros Hl Ha. cbv zeta. unfold secp256k1_fe_inv_all_var, inv_all_forward.
  destruct (Nat.ltb_spec (length a) 1) as [Hn|Hn]; [split; [done|intros; lia]|].
  destruct (inv_all_forward_spec a (λ i Hi, proj1 (Ha i Hi)) (<[0%nat := a !!! 0%nat]> r) (length a - 1))
    as [Hlf Hf]; [by rewrite length_insert|lia|by rewrite list_lookup_total_insert_eq by lia|].
  set (rf := foldl _ _ _) in *. clearbody rf. destruct (Hf (length a - 1)%nat) as [Hm Hv]; [lia|].
  assert (¬ fe_prefix a (length a - 1) ≡ₚ 0) as Hnz by (apply fe_prefix_nonzero; intros; apply Ha; lia).
  destruct (fe_inv_spec _ Hm) as [Hu _].
  pose proof (inv_all_backward_spec a (λ i Hi, proj1 (Ha i Hi)) rf
    (secp256k1_fe_inv_var (rf !!! (length a - 1)%nat)) (length a - 1)) as Hb.
  destruct (inv_all_backward _ _ _ _) as [r' u']. destruct Hb as (Hl' & Hu' & Vu' & Hr').
  - done.
  - lia.
  - apply (fe_mag_mono 1); [exact Hu|lia].
  - rewrite <- Hv. apply fe_inv_nonzero; [done|by rewrite Hv].
  - intros j Hj. apply Hf. lia.
  - intros; lia.
  - split; [by rewrite length_insert|]. intros i Hi. destruct (decide (i = 0%nat)) as [->|].
    + by rewrite list_lookup_total_insert_eq by lia.
    + rewrite list_lookup_total_insert_ne by done. apply Hr'. lia.
Qed.

(** * The theorems *)

(** C29: The field operations compute modulo the prime: within the magnitudes they ask for,
    products, squares, sums, differences and small multiples of the limbs stand for those of
    the numbers, whatever representations of the numbers they are given. *)
Theorem secp256k1_fe_ring (a b : secp256k1_fe) (m k c : Z) :
  fe_mag m a → fe_mag k b → 0 ≤ m → 0 ≤ k → 0 ≤ c →
  (m ≤ 8 → k ≤ 8 → fe_val (secp256k1_fe_mul a b) ≡ₚ fe_val a * fe_val b) ∧
  (m ≤ 8 → fe_val (secp256k1_fe_sqr a) ≡ₚ fe_val a * fe_val a) ∧
  (m + k ≤ 32 → fe_val (secp256k1_fe_add a b) ≡ₚ fe_val a + fe_val b) ∧
  (m ≤ 31 → fe_val (secp256k1_fe_negate a m) ≡ₚ - fe_val a) ∧
  (m * c ≤ 32 → fe_val (secp256k1_fe_mul_int a c) ≡ₚ fe_val a * c).
Proof.
  intros Ha Hb Hm Hk Hc. split_and!.
  - intros. by apply fe_mul_spec; [apply (fe_mag_mono m)|apply (fe_mag_mono k)].
  - intros. by apply fe_sqr_spec, (fe_mag_mono m).
  - intros. destruct (fe_add_spec a b m k) as [_ ->]; done.
  - intros. by apply fe_negate_spec.
  - intros. destruct (fe_mul_int_spec a m c) as [_ ->]; done.
Qed.

(** Elements whose limbs are unsigned. *)
Definition fe_wf (a : secp256k1_fe) : Prop := length (fe_n a) = 10%nat ∧ Forall (λ x, 0 ≤ x) (fe_n a).

Lemma limbs_le_wf (k : Z) (l : list Z) : limbs_le k l → fe_wf (Fe l).
Proof. intros H. open_limbs H. split; [done|]. repeat (constructor; [lia|]); constructor. Qed.

Lemma fe_verify_mag (a : secp256k1_fe) (m : Z) :
  fe_mag m a → 0 ≤ m ≤ 32 → secp256k1_fe_verify a m false = true.
Proof. intros Ha Hm. destruct a. destruct (limbs_le_wf _ _ Ha). by apply fe_verify_spec. Qed.

Lemma fe_verify_norm (a : secp256k1_fe) : fe_norm a → secp256k1_fe_verify a 1 true = true.
Proof. intros Ha. destruct a. destruct (limbs_le_wf _ _ (proj1 Ha)). apply fe_verify_spec; [done..|]. split; [done|lia]. Qed.

(** The magnitudes are a type: an operation whose arguments pass the checks of
    secp256k1_fe_verify at their magnitudes gives an element that passes it at the
    magnitude the code states for it, and the normalizations give normalized ones. *)
Theorem secp256k1_fe_verified (a b : secp256k1_fe) (m k c : Z) :
  fe_wf a → fe_wf b → secp256k1_fe_verify a m false = true → secp256k1_fe_verify b k false = true → 0 ≤ c →
  (m ≤ 8 → k ≤ 8 → secp256k1_fe_verify (secp256k1_fe_mul a b) 1 false = true) ∧
  (m ≤ 8 → secp256k1_fe_verify (secp256k1_fe_sqr a) 1 false = true) ∧
  (m + k ≤ 32 → secp256k1_fe_verify (secp256k1_fe_add a b) (m + k) false = true) ∧
  (m ≤ 31 → secp256k1_fe_verify (secp256k1_fe_negate a m) (m + 1) false = true) ∧
  (m * c ≤ 32 → secp256k1_fe_verify (secp256k1_fe_mul_int a c) (m * c) false = true) ∧
  (m ≤ 31 → secp256k1_fe_verify (secp256k1_fe_normalize a) 1 true = true ∧
    secp256k1_fe_verify (secp256k1_fe_normalize_weak a) 1 false = true).
Proof.
  intros [La Fa] [Lb Fb] Ha Hb Hc. apply fe_verify_spec in Ha as [Ha Hm], Hb as [Hb Hk]; [|done..].
  split_and!; intros.
  - apply fe_verify_mag; [|lia]. by apply fe_mul_spec; [apply (fe_mag_mono m)|apply (fe_mag_mono k)].
  - apply fe_verify_mag; [|lia]. by apply fe_sqr_spec, (fe_mag_mono m).
  - apply fe_verify_mag; [|lia]. apply fe_add_spec; (done || lia).
  - apply fe_verify_mag; [|lia]. apply fe_negate_spec; (done || lia).
  - apply fe_verify_mag; [|nia]. apply fe_mul_int_spec; (done || lia).
  - split; [apply fe_verify_norm, normalize_spec|apply fe_verify_mag; [apply normalize_weak_spec|lia]];
      by apply (fe_mag_mono m).
Qed.

(** C30: Normal forms are canonical: up to magnitude 31, the normalization gives the limbs of
    the number modulo the prime, so that two elements stand for the same number iff they
    have the same normal form; the variant with a branch gives the same, and the tests for
    zero are right without normalizing. *)
Theorem secp256k1_fe_normalize_canonical (a b : secp256k1_fe) :
  fe_mag 31 a → fe_mag 31 b →
  fe_norm (secp256k1_fe_normalize a) ∧
  fe_val (secp256k1_fe_normalize a) = fe_val a mod field_prime ∧
  (secp256k1_fe_normalize a = secp256k1_fe_normalize b ↔ fe_val a ≡ₚ fe_val b) ∧
  secp256k1_fe_normalize_var a = secp256k1_fe_normalize a ∧
  fe_val (secp256k1_fe_normalize_weak a) ≡ₚ fe_val a ∧
  secp256k1_fe_normalizes_to_zero a = truth (fe_val a mod field_prime =? 0) ∧
  secp256k1_fe_normalizes_to_zero_var a = truth (fe_val a mod field_prime =? 0).
Proof.
  intros Ha Hb. destruct (normalize_spec a Ha) as [Na Va], (normalize_spec b Hb) as [Nb Vb].
  split_and!; [done|done| |by apply normalize_var_eq|by apply normalize_weak_spec|by apply to_zero_spec|].
  - split; [intros E; unfold eqp; by rewrite <- Va, E|].
    intros E. apply fe_val_inj; [done..|]. by rewrite Va, Vb.
  - rewrite to_zero_var_eq by done. by apply to_zero_spec.
Qed.

(** C31: The addition chain of the inverse gives the inverse modulo the prime, and 0 for 0;
    inverting an array of nonzero elements with one inversion gives the inverse of each. *)
Theorem secp256k1_fe_inverses (a : secp256k1_fe) (r l : list secp256k1_fe) :
  fe_mag 8 a → length r = length l →
  (∀ i, (i < length l)%nat → fe_mag 8 (l !!! i) ∧ ¬ fe_val (l !!! i) ≡ₚ 0) →
  fe_mag 1 (secp256k1_fe_inv a) ∧
  fe_val (secp256k1_fe_inv a) * fe_val a ≡ₚ (if fe_val a mod field_prime =? 0 then 0 else 1) ∧
  secp256k1_fe_inv_var a = secp256k1_fe_inv a ∧
  ∀ i, (i < length l)%nat →
    fe_val (secp256k1_fe_inv_all_var r l (length l) !!! i) * fe_val (l !!! i) ≡ₚ 1.
Proof.
  intros Ha Hl Hall. destruct (fe_inv_spec a Ha) as [H1 H2]. destruct (fe_inv_all_spec r l Hl Hall) as [_ H].
  split_and!; [done..|]. intros i Hi. by apply H.
Qed.

(** C32: Square roots: secp256k1_fe_sqrt and secp256k1_fe_is_quad_var answer 1 exactly for the
    squares modulo the prime; the root is then a root, and it is itself a square always. *)
Theorem secp256k1_fe_square_roots (a : secp256k1_fe) :
  fe_mag 8 a →
  let '(r, ok) := secp256k1_fe_sqrt a in
  fe_mag 1 r ∧ (∃ h, fe_val r ≡ₚ h * h) ∧ (ok = 0 ∨ ok = 1) ∧
  (ok = 1 ↔ ∃ s, s * s ≡ₚ fe_val a) ∧ (ok = 1 ↔ fe_val r * fe_val r ≡ₚ fe_val a) ∧
  secp256k1_fe_is_quad_var a = ok.
Proof.
  intros Ha. pose proof (fe_sqrt_spec a Ha) as H. unfold secp256k1_fe_is_quad_var.
  destruct (secp256k1_fe_sqrt a) as [r ok]. destruct H as (H1 & H2 & H3 & H4 & H5).
  split_and!; [exact H1|exact H2|exact H3|exact H4|exact H5|reflexivity].
Qed.

(** Bytes and storage: 32 bytes are read as the number they stand for, refused if it is not
    below the prime, and written back; a normalized element survives both encodings. *)
Theorem secp256k1_fe_roundtrips (a : secp256k1_fe) (b : list byte) (st : secp256k1_fe_storage) :
  fe_norm a → length b = 32%nat → st_wf st →
  secp256k1_fe_get_b32 a = be_bytes 32 (fe_val a) ∧
  secp256k1_fe_set_b32 (secp256k1_fe_get_b32 a) = (a, 1) ∧
  fe_val (secp256k1_fe_set_b32 b).1 = be_val b ∧
  (secp256k1_fe_set_b32 b).2 = truth (be_val b <? field_prime) ∧
  secp256k1_fe_get_b32 (secp256k1_fe_set_b32 b).1 = b ∧
  secp256k1_fe_from_storage (secp256k1_fe_to_storage a) = a ∧
  secp256k1_fe_to_storage (secp256k1_fe_from_storage st) = st.
Proof.
  intros Ha Hb Hst. pose proof (fe_set_b32_spec b Hb) as H.
  split_and!; [apply fe_get_b32_spec, Ha|by apply fe_b32_roundtrip|..|by apply fe_b32_roundtrip'|
    apply storage_roundtrip, Ha|by apply storage_roundtrip'];
  destruct (secp256k1_fe_set_b32 b) as [r ok]; apply H.
Qed.

(** Comparisons: equality of two elements in any representation (the first of magnitude 1),
    order and parity of normalized ones, and the conditional move. *)
Theorem secp256k1_fe_comparisons (a b x y : secp256k1_fe) (flag : bool) :
  fe_mag 1 a → fe_mag 29 b → fe_norm x → fe_norm y →
  secp256k1_fe_equal a b = truth (fe_val a mod field_prime =? fe_val b mod field_prime) ∧
  secp256k1_fe_equal_var a b = secp256k1_fe_equal a b ∧
  secp256k1_fe_cmp_var x y = match fe_val x ?= fe_val y with Lt => -1 | Eq => 0 | Gt => 1 end ∧
  secp256k1_fe_is_zero x = truth (fe_val x =? 0) ∧
  secp256k1_fe_is_odd x = fe_val x mod 2 ∧
  secp256k1_fe_cmov b a (truth flag) = if flag then a else b.
Proof.
  intros Ha Hb Hx Hy. destruct (fe_equal_spec a b Ha Hb) as [H1 H2].
  split_and!; [done|done|by apply fe_cmp_spec|by apply fe_is_zero_spec|by apply fe_is_odd_spec|].
  apply (fe_cmov_spec b a 29 1); (done || lia).
Qed.
