(* ===== verification/Secp256k1Curve.v ===== *)
(** The curve [y^2 = x^3 + 7] over the integers modulo the field prime, and its addition, as
    SEC 1 defines them: the specification of the code for points.

    A point is the point at infinity or two coordinates, which are compared modulo the
    prime ([≡ₚ] of [Secp256k1FieldProofs]). *)

From Stdlib Require Import ZArith Lia.
From Stdlib Require Import Zmod.
From stdpp Require Import base gmap list fin_maps numbers.
From S2P Require Import Prelude Primality Secp256k1FieldProofs Secp256k1FieldApi.

(** * Points *)

Definition point : Type := option (Z * Z).

Definition on_curve (P : point) : Prop :=
  match P with
  | None => True
  | Some (x, y) => y * y ≡ₚ x * x * x + 7
  end.

(** Equality of points: of their coordinates modulo the prime. *)
Definition point_eq (P Q : point) : Prop :=
  match P, Q with
  | None, None => True
  | Some (x1, y1), Some (x2, y2) => x1 ≡ₚ x2 ∧ y1 ≡ₚ y2
  | _, _ => False
  end.

#[global] Instance point_eq_equiv : Equivalence point_eq.
Proof.
  split.
  - intros [[x y]|]; done.
  - intros [[x y]|] [[x' y']|]; cbn; try done. by intros [-> ->].
  - intros [[x1 y1]|] [[x2 y2]|] [[x3 y3]|]; cbn; try done. by intros [-> ->] [-> ->].
Qed.

#[global] Instance eqp_dec (x y : Z) : Decision (x ≡ₚ y) := decide (x mod field_prime = y mod field_prime).

(** The inverse modulo the prime. *)
Definition fp_inv (x : Z) : Z := powm x field_prime (Z.to_pos (field_prime - 2)).

(** * The group law *)

(** The third point on the line of slope [l] through [(x1, y1)] and a point with first coordinate
    [x2], reflected. *)
Definition third_point (l x1 y1 x2 : Z) : point :=
  let x3 := (l * l - x1 - x2) mod field_prime in
  Some (x3, (l * (x1 - x3) - y1) mod field_prime).

Definition point_double (P : point) : point :=
  match P with
  | None => None
  | Some (x, y) => if decide (y ≡ₚ 0) then None else third_point (3 * (x * x) * fp_inv (2 * y)) x y x
  end.

Definition point_add (P Q : point) : point :=
  match P, Q with
  | None, _ => Q
  | _, None => P
  | Some (x1, y1), Some (x2, y2) =>
      if decide (x1 ≡ₚ x2) then
        if decide (y1 ≡ₚ y2) then point_double P else None
      else third_point ((y2 - y1) * fp_inv (x2 - x1)) x1 y1 x2
  end.

Definition point_neg (P : point) : point :=
  match P with
  | None => None
  | Some (x, y) => Some (x, (- y) mod field_prime)
  end.

(** * Field arithmetic *)

Lemma fp_inv_spec (x : Z) : ¬ x ≡ₚ 0 → fp_inv x * x ≡ₚ 1.
Proof.
  intros Hx. unfold fp_inv. rewrite powm_spec. rewrite eqp_mod.
  replace (Z.pos (Z.to_pos (field_prime - 2))) with (field_prime - 2) by (by vm_compute).
  rewrite <- (fermat_eqp x Hx). replace (field_prime - 1) with (field_prime - 2 + 1) by lia.
  rewrite Z.pow_add_r, Z.pow_1_r by done. reflexivity.
Qed.

#[global] Opaque fp_inv.

(** A consequence of congruences: the difference is a combination of theirs. *)
Lemma eqp_comb1 (c l r a b : Z) : l ≡ₚ r → a - b = c * (l - r) → a ≡ₚ b.
Proof.
  intros H E. apply eqp_divide in H as [k H]. apply eqp_divide. exists (c * k). rewrite E, H. ring.
Qed.

Lemma eqp_comb2 (c d l r l' r' a b : Z) :
  l ≡ₚ r → l' ≡ₚ r' → a - b = c * (l - r) + d * (l' - r') → a ≡ₚ b.
Proof.
  intros H H' E. apply eqp_divide in H as [k H], H' as [k' H']. apply eqp_divide. exists (c * k + d * k').
  rewrite E, H, H'. ring.
Qed.

Lemma eqp_comb3 (c d e l r l' r' l'' r'' a b : Z) :
  l ≡ₚ r → l' ≡ₚ r' → l'' ≡ₚ r'' → a - b = c * (l - r) + d * (l' - r') + e * (l'' - r'') → a ≡ₚ b.
Proof.
  intros H H' H'' E. apply eqp_divide in H as [k H], H' as [k' H'], H'' as [k'' H''].
  apply eqp_divide. exists (c * k + d * k' + e * k''). rewrite E, H, H', H''. ring.
Qed.

Lemma eqp_sub_zero (a b : Z) : a ≡ₚ b ↔ a - b ≡ₚ 0.
Proof. rewrite !eqp_divide. by rewrite Z.sub_0_r. Qed.

(** Nonzero factors cancel. *)
Lemma eqp_cancel (c a b : Z) : ¬ c ≡ₚ 0 → c * a ≡ₚ c * b → a ≡ₚ b.
Proof.
  intros Hc H. apply (eqp_comb2 (fp_inv c) (b - a) _ _ _ _ _ _ H (fp_inv_spec c Hc)). ring.
Qed.

Lemma eqp_mul_zero (a b : Z) : a * b ≡ₚ 0 → a ≡ₚ 0 ∨ b ≡ₚ 0.
Proof.
  intros H. destruct (decide (a ≡ₚ 0)) as [|Ha]; [by left|]. right. apply (eqp_cancel a); [done|].
  by rewrite H, Z.mul_0_r.
Qed.

(** Small numbers are not zero modulo the prime. *)
Lemma small_nonzero (n : Z) : 0 < n < field_prime → ¬ n ≡ₚ 0.
Proof. intros Hn H. unfold eqp in H. rewrite Z.mod_small, Z.mod_0_l in H; [lia|done|lia]. Qed.

Lemma minus_7_power : powm (-7) field_prime (Z.to_pos ((field_prime - 1) / 3)) ≠ 1 mod field_prime.
Proof. vm_compute. discriminate. Qed.

(** No point of the curve has [y = 0], since -7 is not a cube modulo the prime: its power
    [(p - 1) / 3] would be 1. *)
Lemma no_point_of_order_2 (x y : Z) : on_curve (Some (x, y)) → ¬ y ≡ₚ 0.
Proof.
  cbn [on_curve]. intros Hc Hy. rewrite Hy in Hc.
  assert (x * x * x ≡ₚ -7) as Hx.
  { apply (eqp_comb1 (-1) _ _ _ _ Hc). ring. }
  assert (¬ x ≡ₚ 0) as Hnz.
  { intros E. rewrite E in Hx. discriminate Hx. }
  pose proof (fermat_eqp x Hnz) as Hf.
  replace (field_prime - 1) with (3 * ((field_prime - 1) / 3)) in Hf by (by vm_compute).
  rewrite Z.pow_mul_r in Hf by (apply Z.leb_le; vm_compute; reflexivity).
  replace (x ^ 3) with (x * x * x) in Hf by ring. rewrite Hx in Hf. unfold eqp in Hf.
  replace ((field_prime - 1) / 3) with (Z.pos (Z.to_pos ((field_prime - 1) / 3))) in Hf by (by vm_compute).
  rewrite <- powm_spec in Hf. by apply minus_7_power.
Qed.

(** A point that is not its own opposite: its double is given by the tangent. *)
Definition regular (P : point) : Prop :=
  match P with None => True | Some (_, y) => ¬ y ≡ₚ 0 end.

Lemma on_curve_regular (P : point) : on_curve P → regular P.
Proof. destruct P as [[x y]|]; [apply no_point_of_order_2|done]. Qed.

(** * The law stays on the curve *)

Lemma slope_eq (n d : Z) : ¬ d ≡ₚ 0 → n * fp_inv d * d ≡ₚ n.
Proof. intros Hd. by rewrite <- Z.mul_assoc, fp_inv_spec, Z.mul_1_r. Qed.

Lemma chord_slope (x1 y1 x2 y2 : Z) :
  ¬ x1 ≡ₚ x2 → (y2 - y1) * fp_inv (x2 - x1) * (x2 - x1) ≡ₚ y2 - y1.
Proof. intros Hx. apply slope_eq. intros E. apply Hx. symmetry. by apply eqp_sub_zero. Qed.

Lemma tangent_slope (x y : Z) :
  ¬ y ≡ₚ 0 → 3 * (x * x) * fp_inv (2 * y) * (2 * y) ≡ₚ 3 * (x * x).
Proof. intros Hy. apply slope_eq. apply eqp_mul_nonzero; [by apply small_nonzero|done]. Qed.

(** A line meets the curve in a third point: [f] is the cubic along the line. *)
Lemma chord_third (l x1 y1 x2 y2 x3 : Z) :
  ¬ x1 ≡ₚ x2 → y1 * y1 ≡ₚ x1 * x1 * x1 + 7 → y2 * y2 ≡ₚ x2 * x2 * x2 + 7 →
  l * (x2 - x1) ≡ₚ y2 - y1 → x3 ≡ₚ l * l - x1 - x2 →
  (l * (x1 - x3) - y1) * (l * (x1 - x3) - y1) ≡ₚ x3 * x3 * x3 + 7.
Proof.
  intros Hx H1 H2 Hl H3. rewrite H3. clear H3 x3.
  apply (eqp_cancel (x2 - x1)); [intros E; apply Hx; symmetry; by apply eqp_sub_zero|].
  apply (eqp_comb3 (x2 - (l * l - x1 - x2)) (l * l - x1 - x2 - x1)
    ((l * l - x1 - x2 - x1) * (l * (x2 - x1) + y1 + y2)) _ _ _ _ _ _ _ _ H1 H2 Hl). ring.
Qed.

Lemma tangent_third (l x1 y1 x3 : Z) :
  y1 * y1 ≡ₚ x1 * x1 * x1 + 7 → l * (2 * y1) ≡ₚ 3 * (x1 * x1) → x3 ≡ₚ l * l - x1 - x1 →
  (l * (x1 - x3) - y1) * (l * (x1 - x3) - y1) ≡ₚ x3 * x3 * x3 + 7.
Proof.
  intros H1 Hl H3. rewrite H3. clear H3 x3.
  apply (eqp_comb2 1 (l * l - x1 - x1 - x1) _ _ _ _ _ _ H1 Hl). ring.
Qed.

Lemma point_double_on_curve (P : point) : on_curve P → on_curve (point_double P).
Proof.
  destruct P as [[x y]|]; [|done]. intros HP. cbn [point_double].
  destruct (decide (y ≡ₚ 0)) as [|Hy]; [done|]. unfold third_point. cbv zeta. cbn [on_curve] in *. rewrite !eqp_mod.
  apply tangent_third; [done|by apply tangent_slope|reflexivity].
Qed.

Lemma point_add_on_curve (P Q : point) : on_curve P → on_curve Q → on_curve (point_add P Q).
Proof.
  destruct P as [[x1 y1]|], Q as [[x2 y2]|]; try done. intros HP HQ. unfold point_add.
  destruct (decide (x1 ≡ₚ x2)) as [Hx|Hx].
  - destruct (decide (y1 ≡ₚ y2)); [by apply point_double_on_curve|done].
  - unfold third_point. cbv zeta. cbn [on_curve] in *. rewrite !eqp_mod.
    apply (chord_third _ _ _ x2 y2); [done..|by apply chord_slope|reflexivity].
Qed.

(** * Laws *)

#[global] Instance fp_inv_proper : Proper (eqp ==> eqp) fp_inv.
Proof.
  intros x y H. Local Transparent fp_inv. unfold fp_inv. rewrite !powm_spec, !eqp_mod. by rewrite H.
Qed.
#[global] Opaque fp_inv.

Lemma eqp_mod_both (x y : Z) : x ≡ₚ y → x mod field_prime ≡ₚ y mod field_prime.
Proof. intros H. unfold eqp in *. by rewrite !Zmod_mod. Qed.

Lemma third_point_eq (l l' x1 y1 x2 x1' y1' x2' : Z) :
  l ≡ₚ l' → x1 + x2 ≡ₚ x1' + x2' → l * x1 - y1 ≡ₚ l' * x1' - y1' →
  point_eq (third_point l x1 y1 x2) (third_point l' x1' y1' x2').
Proof.
  intros Hl Hx Hy. unfold third_point. cbv zeta.
  assert ((l * l - x1 - x2) mod field_prime ≡ₚ (l' * l' - x1' - x2') mod field_prime) as E.
  { apply eqp_mod_both. apply (eqp_comb2 (l + l') (-1) _ _ _ _ _ _ Hl Hx). ring. }
  set (x3 := (l * l - x1 - x2) mod field_prime) in *. set (x3' := (l' * l' - x1' - x2') mod field_prime) in *.
  clearbody x3 x3'. split; [done|]. apply eqp_mod_both.
  apply (eqp_comb3 (- x3) (- l') 1 _ _ _ _ _ _ _ _ Hl E Hy). ring.
Qed.

#[global] Instance point_double_proper : Proper (point_eq ==> point_eq) point_double.
Proof.
  intros [[x1 y1]|] [[x2 y2]|]; cbn [point_eq]; try done. intros [Hx Hy]. unfold point_double.
  destruct (decide (y1 ≡ₚ 0)) as [E|E], (decide (y2 ≡ₚ 0)) as [E'|E']; rewrite Hy in E; try done.
  apply third_point_eq; [by rewrite Hx, Hy|by rewrite Hx|by rewrite Hx, Hy].
Qed.

#[global] Instance point_add_proper : Proper (point_eq ==> point_eq ==> point_eq) point_add.
Proof.
  intros [[x1 y1]|] [[x2 y2]|]; try done; intros HP [[x3 y3]|] [[x4 y4]|]; try done; intros HQ.
  destruct HP as [Hx Hy], HQ as [Hx' Hy']. unfold point_add.
  destruct (decide (x1 ≡ₚ x3)) as [E|E], (decide (x2 ≡ₚ x4)) as [E'|E']; rewrite Hx, Hx' in E; try done.
  - destruct (decide (y1 ≡ₚ y3)) as [F|F], (decide (y2 ≡ₚ y4)) as [F'|F']; rewrite Hy, Hy' in F; try done.
    by apply point_double_proper.
  - apply third_point_eq; [by rewrite Hx, Hy, Hx', Hy'|by rewrite Hx, Hx'|by rewrite Hx, Hy, Hx', Hy'].
Qed.

Lemma point_add_comm (P Q : point) : point_eq (point_add P Q) (point_add Q P).
Proof.
  destruct P as [[x1 y1]|], Q as [[x2 y2]|]; try done. unfold point_add.
  destruct (decide (x1 ≡ₚ x2)) as [E|E], (decide (x2 ≡ₚ x1)) as [E'|E']; try done; [|].
  - destruct (decide (y1 ≡ₚ y2)) as [F|F], (decide (y2 ≡ₚ y1)) as [F'|F']; try done.
    by apply point_double_proper.
  - pose proof (chord_slope x1 y1 x2 y2 E) as S1. pose proof (chord_slope x2 y2 x1 y1 E') as S2.
    assert ((y2 - y1) * fp_inv (x2 - x1) ≡ₚ (y1 - y2) * fp_inv (x1 - x2)) as Hl.
    { apply (eqp_cancel (x2 - x1)); [intros H; apply E'; by apply eqp_sub_zero|].
      apply (eqp_comb2 1 1 _ _ _ _ _ _ S1 S2). ring. }
    apply third_point_eq; [done|by rewrite Z.add_comm|].
    apply (eqp_comb2 x2 (-1) _ _ _ _ _ _ Hl S1). ring.
Qed.

Lemma point_neg_on_curve (P : point) : on_curve P → on_curve (point_neg P).
Proof. destruct P as [[x y]|]; [|done]. cbn. rewrite !eqp_mod. intros <-. by rewrite Z.mul_opp_opp. Qed.

Lemma point_add_neg (P : point) : on_curve P → point_add P (point_neg P) = None.
Proof.
  destruct P as [[x y]|]; [|done]. intros HP%no_point_of_order_2. cbn [point_neg]. unfold point_add.
  rewrite decide_True by done. rewrite decide_False; [done|]. rewrite eqp_mod. intros E. apply HP.
  apply (eqp_cancel 2); [by apply small_nonzero|]. apply (eqp_comb1 1 _ _ _ _ E). ring.
Qed.

(** * Square roots and parity *)

(** Two square roots are equal or opposite. *)
Lemma square_roots_opposite (y w : Z) : y * y ≡ₚ w * w → y ≡ₚ w ∨ y ≡ₚ - w.
Proof.
  intros H. destruct (eqp_mul_zero (y - w) (y + w)) as [E|E].
  - apply (eqp_comb1 1 _ _ _ _ H). ring.
  - left. by apply eqp_sub_zero.
  - right. apply (eqp_comb1 1 _ _ _ _ E). ring.
Qed.

(** Negation changes the parity of a nonzero element. *)
Lemma parity_neg (y w : Z) : 0 ≤ y < field_prime → 0 ≤ w < field_prime → ¬ y ≡ₚ 0 → w ≡ₚ - y → w mod 2 = 1 - y mod 2.
Proof.
  intros Hy Hw Hnz [k Hk]%eqp_divide. assert (y ≠ 0) by (by intros ->).
  assert (k = 1) as -> by (unfold field_prime in *; nia).
  assert (field_prime = 2 * (field_prime / 2) + 1) as Ep by (by vm_compute).
  assert (w = field_prime - y) as -> by lia. rewrite Ep. clear. generalize (field_prime / 2). intros q. zdiv.
Qed.
