(* ===== verification/Secp256k1GroupLaw.v ===== *)
(** The points of the curve are a commutative group.

    Where two points are not opposite, there is a line through them ([line]): its
    slope satisfies the equation of the chord and that of the tangent, so that no case
    is made of equal points.  That the sum is associative is then, for points of which no
    sum on the way is at infinity, a consequence of polynomial identities, whose coefficients are
    written out ([assoc_x] and so on) and checked by [ring]; the other cases
    follow from [point_add_cancel]. *)

From Stdlib Require Import ZArith Lia.
From stdpp Require Import base gmap list fin_maps numbers.
From S2P Require Import Prelude Secp256k1FieldProofs Secp256k1FieldApi Secp256k1Curve.

(** Points with the same first coordinate are equal or opposite. *)
Lemma point_add_same_x (x1 y1 x2 y2 : Z) :
  x1 ≡ₚ x2 → ¬ y1 ≡ₚ y2 → point_add (Some (x1, y1)) (Some (x2, y2)) = None.
Proof. intros Hx Hy. unfold point_add. by rewrite decide_True, decide_False. Qed.

Lemma point_add_same (x1 y1 x2 y2 : Z) :
  x1 ≡ₚ x2 → y1 ≡ₚ y2 → point_add (Some (x1, y1)) (Some (x2, y2)) = point_double (Some (x1, y1)).
Proof. intros Hx Hy. unfold point_add. by rewrite !decide_True. Qed.

(** * Lines *)

(** The slope of the unified formula, where it is defined, is that of the chord or of the tangent. *)
Lemma unified_chord (x1 y1 x2 y2 l : Z) :
  y1 * y1 ≡ₚ x1 * x1 * x1 + 7 → y2 * y2 ≡ₚ x2 * x2 * x2 + 7 → ¬ y1 + y2 ≡ₚ 0 →
  l * (y1 + y2) ≡ₚ x1 * x1 + x1 * x2 + x2 * x2 → l * (x2 - x1) ≡ₚ y2 - y1.
Proof.
  intros C1 C2 Hm Hl. apply (eqp_cancel (y1 + y2) _ _ Hm).
  apply (eqp_comb3 (x2 - x1) (-1) 1 _ _ _ _ _ _ _ _ Hl C2 C1). ring.
Qed.

Lemma unified_slope (x1 y1 x2 y2 l : Z) :
  on_curve (Some (x1, y1)) → on_curve (Some (x2, y2)) → ¬ y1 + y2 ≡ₚ 0 →
  l * (y1 + y2) ≡ₚ x1 * x1 + x1 * x2 + x2 * x2 →
  point_eq (point_add (Some (x1, y1)) (Some (x2, y2))) (third_point l x1 y1 x2).
Proof.
  cbn [on_curve]. intros C1 C2 Hm Hl. pose proof (unified_chord _ _ _ _ _ C1 C2 Hm Hl) as Hc.
  destruct (decide (x1 ≡ₚ x2)) as [Hx|Hx].
  - assert (y1 ≡ₚ y2) as Hy.
    { symmetry. apply eqp_sub_zero. rewrite <- Hc, Hx, Z.sub_diag. by rewrite Z.mul_0_r. }
    rewrite point_add_same by done. pose proof (no_point_of_order_2 _ _ C1) as Hy1.
    unfold point_double. rewrite decide_False by done. pose proof (tangent_slope x1 y1 Hy1) as Ht.
    assert (3 * (x1 * x1) * fp_inv (2 * y1) ≡ₚ l) as El.
    { apply (eqp_cancel (2 * y1)); [apply eqp_mul_nonzero; [by apply small_nonzero|done]|].
      rewrite (Z.mul_comm (2 * y1)), Ht. rewrite <- Hx, <- Hy in Hl.
      apply (eqp_comb1 (-1) _ _ _ _ Hl). ring. }
    apply third_point_eq; [done|by rewrite Hx|by rewrite El].
  - unfold point_add. rewrite decide_False by done. pose proof (chord_slope x1 y1 x2 y2 Hx) as Ht.
    assert ((y2 - y1) * fp_inv (x2 - x1) ≡ₚ l) as El.
    { apply (eqp_cancel (x2 - x1)); [intros E; apply Hx; symmetry; by apply eqp_sub_zero|].
      rewrite (Z.mul_comm (x2 - x1)), Ht, <- Hc. by rewrite Z.mul_comm. }
    apply third_point_eq; [done|done|by rewrite El].
Qed.

(** Where the unified slope is [R / 0] with [R] nonzero, the points are opposite. *)
Lemma unified_opposite (x1 y1 x2 y2 : Z) :
  on_curve (Some (x1, y1)) → on_curve (Some (x2, y2)) → y1 + y2 ≡ₚ 0 →
  ¬ x1 * x1 + x1 * x2 + x2 * x2 ≡ₚ 0 ∨ x1 ≡ₚ x2 →
  point_add (Some (x1, y1)) (Some (x2, y2)) = None.
Proof.
  cbn [on_curve]. intros C1 C2 Hm HR. apply point_add_same_x.
  - destruct HR as [HR|?]; [|done]. apply (eqp_cancel _ _ _ HR). apply eqp_sub_zero.
    apply (eqp_comb3 (-1) 1 (y1 - y2) _ _ _ _ _ _ _ _ C1 C2 Hm). ring.
  - intros Hy. apply (no_point_of_order_2 _ _ C1). apply (eqp_cancel 2); [by apply small_nonzero|].
    apply (eqp_comb2 1 1 _ _ _ _ _ _ Hm Hy). ring.
Qed.

#[global] Instance on_curve_proper : Proper (point_eq ==> iff) on_curve.
Proof. intros [[x1 y1]|] [[x2 y2]|]; try done. intros [Hx Hy]. cbn [on_curve]. by rewrite Hx, Hy. Qed.

#[global] Instance point_neg_proper : Proper (point_eq ==> point_eq) point_neg.
Proof.
  intros [[x1 y1]|] [[x2 y2]|]; try done. intros [Hx Hy]. split; [done|]. apply eqp_mod_both. by rewrite Hy.
Qed.

Definition opposite (x1 y1 x2 y2 : Z) : Prop := x1 ≡ₚ x2 ∧ y1 + y2 ≡ₚ 0.

Definition line (l x1 y1 x2 y2 : Z) : Prop :=
  l * (x2 - x1) ≡ₚ y2 - y1 ∧ l * (y1 + y2) ≡ₚ x1 * x1 + x1 * x2 + x2 * x2.

(** The third point of a line, reflected. *)
Definition chord_x (l x1 x2 : Z) : Z := l * l - x1 - x2.
Definition chord_y (l x1 y1 x2 : Z) : Z := l * (x1 - chord_x l x1 x2) - y1.

Lemma third_point_chord (l x1 y1 x2 : Z) :
  point_eq (third_point l x1 y1 x2) (Some (chord_x l x1 x2, chord_y l x1 y1 x2)).
Proof.
  unfold third_point, chord_y. cbv zeta. fold (chord_x l x1 x2). pose proof (eqp_mod (chord_x l x1 x2)) as E.
  split; [done|]. rewrite eqp_mod. by rewrite E.
Qed.

Section Lines.
Context (x1 y1 x2 y2 : Z).
Hypothesis C1 : on_curve (Some (x1, y1)).
Hypothesis C2 : on_curve (Some (x2, y2)).

Lemma add_opposite : opposite x1 y1 x2 y2 → point_add (Some (x1, y1)) (Some (x2, y2)) = None.
Proof using C1 C2. intros [Hx Hy]. apply unified_opposite; [done..|by right]. Qed.

Lemma line_exists :
  ¬ opposite x1 y1 x2 y2 →
  ∃ l, line l x1 y1 x2 y2 ∧ point_eq (point_add (Some (x1, y1)) (Some (x2, y2))) (third_point l x1 y1 x2).
Proof using C1 C2.
  intros Hn. destruct (decide (y1 + y2 ≡ₚ 0)) as [Hy|Hy].
  - assert (¬ x1 ≡ₚ x2) as Hx by (by intros Hx; apply Hn).
    exists ((y2 - y1) * fp_inv (x2 - x1)). pose proof (chord_slope x1 y1 x2 y2 Hx) as Hc. split; [split; [done|]|].
    + set (l := (y2 - y1) * fp_inv (x2 - x1)) in *. clearbody l.
      apply (eqp_cancel (x1 - x2)); [by rewrite <- eqp_sub_zero|]. cbn [on_curve] in C1, C2.
      apply (eqp_comb3 (l * (x1 - x2) - (y1 - y2)) 1 (-1) _ _ _ _ _ _ _ _ Hy C1 C2). ring.
    + unfold point_add. by rewrite decide_False.
  - pose proof (slope_eq (x1 * x1 + x1 * x2 + x2 * x2) (y1 + y2) Hy) as Hl.
    set (l := (x1 * x1 + x1 * x2 + x2 * x2) * fp_inv (y1 + y2)) in *. clearbody l. exists l.
    split; [split; [by apply unified_chord|done]|by apply unified_slope].
Qed.

Lemma line_unique (l k : Z) : ¬ opposite x1 y1 x2 y2 → line l x1 y1 x2 y2 → line k x1 y1 x2 y2 → l ≡ₚ k.
Proof.
  intros Hn [L1 L2] [K1 K2]. destruct (decide (y1 + y2 ≡ₚ 0)) as [Hy|Hy].
  - apply (eqp_cancel (x2 - x1)); [rewrite <- eqp_sub_zero; intros Hx; by apply Hn|].
    apply (eqp_comb2 1 (-1) _ _ _ _ _ _ L1 K1). ring.
  - apply (eqp_cancel (y1 + y2)); [done|]. apply (eqp_comb2 1 (-1) _ _ _ _ _ _ L2 K2). ring.
Qed.

Lemma line_add (l : Z) :
  ¬ opposite x1 y1 x2 y2 → line l x1 y1 x2 y2 →
  point_eq (point_add (Some (x1, y1)) (Some (x2, y2))) (Some (chord_x l x1 x2, chord_y l x1 y1 x2)).
Proof using C1 C2.
  intros Hn Hl. destruct (line_exists Hn) as (k & Hk & ->). rewrite <- third_point_chord.
  assert (k ≡ₚ l) as E by (by apply line_unique). apply third_point_eq; [done|done|by rewrite E].
Qed.
End Lines.

(** * Negation *)

Lemma point_add_None (P : point) : point_add P None = P.
Proof. by destruct P as [[x y]|]. Qed.

Lemma point_neg_eq (x y : Z) : point_eq (point_neg (Some (x, y))) (Some (x, - y)).
Proof. split; [done|apply eqp_mod]. Qed.

Lemma point_neg_involutive (P : point) : point_eq (point_neg (point_neg P)) P.
Proof. destruct P as [[x y]|]; [|done]. split; [done|]. rewrite !eqp_mod. by rewrite Z.opp_involutive. Qed.

Lemma on_curve_opp (x y : Z) : on_curve (Some (x, y)) → on_curve (Some (x, - y)).
Proof. cbn [on_curve]. by rewrite Z.mul_opp_opp. Qed.

Lemma opposite_dec (x1 y1 x2 y2 : Z) : opposite x1 y1 x2 y2 ∨ ¬ opposite x1 y1 x2 y2.
Proof.
  unfold opposite. destruct (decide (x1 ≡ₚ x2)), (decide (y1 + y2 ≡ₚ 0)); [by left|right; by intros []..].
Qed.

Lemma point_neg_add (P Q : point) :
  on_curve P → on_curve Q → point_eq (point_neg (point_add P Q)) (point_add (point_neg P) (point_neg Q)).
Proof.
  destruct P as [[x1 y1]|]; [|done]. destruct Q as [[x2 y2]|]; [|intros; by rewrite !point_add_None].
  intros C1 C2. rewrite (point_neg_eq x1 y1), (point_neg_eq x2 y2).
  pose proof (on_curve_opp _ _ C1) as N1. pose proof (on_curve_opp _ _ C2) as N2.
  destruct (opposite_dec x1 y1 x2 y2) as [Ho|Hn].
  - rewrite !add_opposite; [done|done|done| |done|done|done]. destruct Ho as [Hx Hy]. split; [done|].
    apply (eqp_comb1 (-1) _ _ _ _ Hy). ring.
  - destruct (line_exists _ _ _ _ C1 C2 Hn) as (l & [L1 L2] & E). rewrite E, third_point_chord, point_neg_eq.
    rewrite (line_add x1 (- y1) x2 (- y2) N1 N2 (- l)).
    + unfold chord_y, chord_x. split; apply eq_subrelation; try typeclasses eauto; ring.
    + intros [Hx Hy]. apply Hn. split; [done|]. apply (eqp_comb1 (-1) _ _ _ _ Hy). ring.
    + split; [apply (eqp_comb1 (-1) _ _ _ _ L1)|apply (eqp_comb1 1 _ _ _ _ L2)]; ring.
Qed.

(** Adding a point and its opposite to a point gives the point back. *)
Lemma point_add_cancel (P R : point) :
  on_curve P → on_curve R → point_eq (point_add P (point_add (point_neg P) R)) R.
Proof.
  destruct P as [[x1 y1]|]; [|done]. destruct R as [[x3 y3]|].
  2:{ intros C1 _. rewrite point_add_None. by rewrite point_add_neg. }
  intros C1 C3. rewrite (point_neg_eq x1 y1). pose proof (on_curve_opp _ _ C1) as N1.
  destruct (opposite_dec x1 (- y1) x3 y3) as [Ho|Hn].
  - rewrite (add_opposite _ _ _ _ N1 C3 Ho), point_add_None. destruct Ho as [Hx Hy]. split; [done|].
    apply (eqp_comb1 (-1) _ _ _ _ Hy). ring.
  - destruct (line_exists _ _ _ _ N1 C3 Hn) as (n & [L1 L2] & E).
    pose proof (point_add_on_curve _ _ N1 C3) as CS. rewrite E, third_point_chord in CS. rewrite E, third_point_chord.
    rewrite (line_add x1 y1 _ _ C1 CS (- n)).
    + unfold chord_y, chord_x. split; [apply eq_subrelation; [typeclasses eauto|ring]|].
      apply (eqp_comb1 1 _ _ _ _ L1). ring.
    + intros [Hx Hy]. apply (no_point_of_order_2 _ _ C1). apply (eqp_cancel 2); [by apply small_nonzero|].
      unfold chord_y in Hy. apply (eqp_comb2 1 (- n) _ _ _ _ _ _ Hy Hx). ring.
    + split.
      * apply eq_subrelation; [typeclasses eauto|]. unfold chord_y, chord_x. ring.
      * unfold chord_y, chord_x. apply (eqp_comb2 1 n _ _ _ _ _ _ L2 L1). ring.
Qed.

(** * Associativity *)

(** Removing a multiple of a congruence from one side of another. *)
Lemma eqp_lin (c l r a b : Z) : l ≡ₚ r → a - c * (l - r) ≡ₚ b → a ≡ₚ b.
Proof. intros H E. apply (eqp_comb2 c 1 _ _ _ _ _ _ H E). ring. Qed.

Lemma eqp_exact (a b : Z) : a = b → a ≡ₚ b.
Proof. by intros ->. Qed.

(** A congruence between expressions that are equal to those of a known one. *)
Lemma eqp_of_eq (v w v' w' : Z) : v ≡ₚ w → v' = v → w' = w → v' ≡ₚ w'.
Proof. by intros ? -> ->. Qed.

(** [l] and [m] are the slopes of the lines through the first two and the last two of three points,
    [u] and [v] those of the lines through one point and the sum of the others. *)
Section Generic.
Context (x1 y1 x2 x3 l m u v : Z).
Local Notation y2 := (y1 + l * (x2 - x1)).
Local Notation y3 := (y2 + m * (x3 - x2)).
Local Notation x4 := (chord_x l x1 x2).
Local Notation y4 := (chord_y l x1 y1 x2).
Local Notation x5 := (chord_x m x2 x3).
Local Notation y5 := (chord_y m x2 y2 x3).
Hypothesis Ra : l * (y1 + y2) ≡ₚ x1 * x1 + x1 * x2 + x2 * x2.
Hypothesis Rb : m * (y2 + y3) ≡ₚ x2 * x2 + x2 * x3 + x3 * x3.
Hypothesis U1 : u * (x3 - x4) ≡ₚ y3 - y4.
Hypothesis U2 : u * (y4 + y3) ≡ₚ x4 * x4 + x4 * x3 + x3 * x3.
Hypothesis V1 : v * (x5 - x1) ≡ₚ y5 - y1.
Hypothesis Hx4 : ¬ x4 ≡ₚ x3.
Hypothesis Hx5 : ¬ x5 ≡ₚ x1.

Lemma assoc_den (c : Z) : 0 < c < 8 → ¬ c * ((x4 - x3) * (x5 - x1)) ≡ₚ 0.
Proof using Hx4 Hx5.
  intros Hc. repeat apply eqp_mul_nonzero; [apply small_nonzero; unfold field_prime; lia|by rewrite <- eqp_sub_zero..].
Qed.

Lemma assoc_x : chord_x u x4 x3 ≡ₚ chord_x v x1 x5.
Proof using Ra Rb U1 V1 Hx4 Hx5.
  apply (eqp_cancel _ _ _ (assoc_den 1 ltac:(lia))). unfold chord_y, chord_x in *.
  apply (eqp_lin (- 2 * x3 - 2 * x2 - 2 * x1 + m ^ 2 + m * u + m * v + l ^ 2 + l * u + l * v) _ _ _ _ Ra).
  apply (eqp_lin (2 * x3 + 2 * x2 + 2 * x1 - m ^ 2 - m * u - m * v - l ^ 2 - l * u - l * v) _ _ _ _ Rb).
  apply (eqp_lin (- x3 * l + x3 * u - x2 * m + x2 * u + x1 * m - 2 * x1 * l + x1 * u + 2 * y1 + m ^ 2 * l - m ^
    2 * u) _ _ _ _ U1).
  apply (eqp_lin (x3 * l + x3 * v - 2 * x2 * m + x2 * l + x2 * v - x1 * m - 2 * x1 * l + x1 * v + 2 * y1 + m * l
    ^ 2 - l ^ 2 * v) _ _ _ _ V1).
  apply eqp_exact. ring.
Qed.

Lemma assoc_y : chord_y u x4 y4 x3 ≡ₚ chord_y v x1 y1 x5.
Proof using Ra Rb U1 U2 V1 Hx4 Hx5.
  unfold chord_y at 1 3. rewrite <- assoc_x.
  apply (eqp_cancel _ _ _ (assoc_den 4 ltac:(lia))). unfold chord_y, chord_x in *.
  apply (eqp_lin (- 12 * x3 * m + 12 * x3 * u - 8 * x3 * v - 6 * x2 * m + 10 * x2 * u - 4 * x2 * v + 3 * x1 * m
    + 12 * x1 * l + 11 * x1 * u - 6 * x1 * v + 8 * m ^ 3 + 4 * m ^ 2 * l - 4 * m ^ 2 * u + 8 * m ^ 2 * v + m * l
    ^ 2 - 4 * m * u ^ 2 - 4 * l ^ 3 - 7 * l ^ 2 * u - 2 * l ^ 2 * v - 4 * l * u ^ 2) _ _ _ _ Ra).
  apply (eqp_lin (- 4 * x3 * u + 4 * x3 * v + 6 * x2 * m + 6 * x2 * l - 2 * x2 * u + 9 * x1 * l - 3 * x1 * u + 2
    * x1 * v - 6 * y1 - 2 * m ^ 3 - 4 * m ^ 2 * l + 4 * m ^ 2 * u - 2 * m ^ 2 * v - 4 * m * l ^ 2 + 4 * m * u ^
    2 - 5 * l ^ 3 - l ^ 2 * u + 4 * l * u ^ 2) _ _ _ _ Rb).
  apply (eqp_lin (- 6 * x3 * x2 - 3 * x3 * x1 + 4 * x3 * m ^ 2 + 4 * x3 * m * l + 4 * x3 * m * v + 3 * x3 * l ^
    2 + 4 * x3 * l * u - 4 * x3 * u ^ 2 + 4 * x3 * u * v - 6 * x2 * x1 + 10 * x2 * m ^ 2 + 6 * x2 * m * l + 4 *
    x2 * m * u - 2 * x2 * l ^ 2 + 4 * x2 * l * v - 4 * x2 * u ^ 2 + 4 * x2 * u * v + 3 * x1 ^ 2 + 4 * x1 * m ^ 2
    + 11 * x1 * m * l - 4 * x1 * m * u + 2 * x1 * m * v + 14 * x1 * l ^ 2 + 8 * x1 * l * u + 2 * x1 * l * v - 4
    * x1 * u ^ 2 + 4 * x1 * u * v - 6 * y1 * m - 16 * y1 * l - 8 * y1 * u - 2 * m ^ 4 - 4 * m ^ 3 * l - 2 * m ^
    3 * v - 4 * m ^ 2 * l ^ 2 - 4 * m ^ 2 * l * u + 4 * m ^ 2 * u ^ 2 - 4 * m ^ 2 * u * v - 3 * m * l ^ 3 - l ^
    4 - 2 * l ^ 3 * v) _ _ _ _ U1).
  apply (eqp_lin (- 2 * x2 * l - 3 * x1 * m - x1 * l - 2 * y1 - 2 * m ^ 3 - 2 * m ^ 2 * v + 3 * m * l ^ 2 + l ^
    3 + 2 * l ^ 2 * v) _ _ _ _ U2).
  apply (eqp_lin (6 * x3 * x1 - 2 * x3 * l ^ 2 + 4 * x2 * m * l + 4 * x2 * m * u + 4 * x2 * l ^ 2 + 4 * x2 * l *
    u + 6 * x1 ^ 2 + 2 * x1 * m * l + 2 * x1 * m * u + 16 * x1 * l ^ 2 + 14 * x1 * l * u - 16 * y1 * l - 8 * y1
    * u - 2 * m * l ^ 3 - 2 * m * l ^ 2 * u - 6 * l ^ 4 - 6 * l ^ 3 * u) _ _ _ _ V1).
  apply eqp_exact. ring.
Qed.
End Generic.

(** The same where the third point is the sum of the first two. *)
Section Double.
Context (x1 y1 x2 l m u v : Z).
Local Notation y2 := (y1 + l * (x2 - x1)).
Local Notation x3 := (chord_x l x1 x2).
Local Notation y3 := (chord_y l x1 y1 x2).
Local Notation x5 := (chord_x m x2 x3).
Local Notation y5 := (chord_y m x2 y2 x3).
Hypothesis Ra : l * (y1 + y2) ≡ₚ x1 * x1 + x1 * x2 + x2 * x2.
Hypothesis M1 : m * (x3 - x2) ≡ₚ y3 - y2.
Hypothesis U3 : u * (y3 + y3) ≡ₚ x3 * x3 + x3 * x3 + x3 * x3.
Hypothesis V1 : v * (x5 - x1) ≡ₚ y5 - y1.
Hypothesis Hy3 : ¬ y3 ≡ₚ 0.

Lemma assoc_den' : ¬ x5 ≡ₚ x1 → ¬ 2 * (y3 * (x5 - x1)) ≡ₚ 0.
Proof using Hy3.
  intros Hx5. repeat apply eqp_mul_nonzero; [by apply small_nonzero|done|by rewrite <- eqp_sub_zero].
Qed.

Lemma assoc_double_x : ¬ x5 ≡ₚ x1 → chord_x u x3 x3 ≡ₚ chord_x v x1 x5.
Proof using Ra M1 U3 V1 Hy3.
  intros Hx5. apply (eqp_cancel _ _ _ (assoc_den' Hx5)). unfold chord_y, chord_x in *.
  apply (eqp_lin (- m ^ 3 + m ^ 2 * l - m ^ 2 * u - m ^ 2 * v + m * l ^ 2 - l ^ 3 + l ^ 2 * u + l ^ 2 * v) _ _ _
    _ Ra).
  apply (eqp_lin (- x2 * m ^ 2 - x2 * m * l - x2 * m * u - x2 * m * v + 2 * x2 * l ^ 2 + x2 * l * u + x2 * l * v
    - 2 * x1 * m ^ 2 - 5 * x1 * m * l - 2 * x1 * m * u - 2 * x1 * m * v + 7 * x1 * l ^ 2 + 2 * x1 * l * u + 2 *
    x1 * l * v + 2 * y1 * m - 4 * y1 * l - 2 * y1 * u - 2 * y1 * v - m ^ 3 * l + m ^ 2 * l ^ 2 - m ^ 2 * l * v +
    3 * m * l ^ 3 + m * l ^ 2 * u + m * l ^ 2 * v - 3 * l ^ 4 - l ^ 3 * u) _ _ _ _ M1).
  apply (eqp_lin (m ^ 3 - m ^ 2 * l + m ^ 2 * u + m ^ 2 * v - m * l ^ 2 + l ^ 3 - l ^ 2 * u - l ^ 2 * v) _ _ _ _
    U3).
  apply (eqp_lin (- 2 * x2 * l ^ 2 - 2 * x2 * l * u - 2 * x2 * l * v + 3 * x1 * m * l - 7 * x1 * l ^ 2 - 4 * x1
    * l * u - 4 * x1 * l * v - 2 * y1 * m + 4 * y1 * l + 2 * y1 * u + 2 * y1 * v - m * l ^ 3 + 3 * l ^ 4 + 2 * l
    ^ 3 * u + 2 * l ^ 3 * v) _ _ _ _ V1).
  apply eqp_exact. ring.
Qed.

Lemma assoc_double_y : ¬ x5 ≡ₚ x1 → chord_y u x3 y3 x3 ≡ₚ chord_y v x1 y1 x5.
Proof using Ra M1 U3 V1 Hy3.
  intros Hx5. unfold chord_y at 1 3. rewrite <- assoc_double_x by done.
  apply (eqp_cancel _ _ _ (assoc_den' Hx5)). unfold chord_y, chord_x in *.
  apply (eqp_lin (- 6 * x2 * l ^ 2 - 3 * x1 * m ^ 2 - 9 * x1 * m * l - 6 * y1 * l - 2 * m ^ 4 - 5 * m ^ 3 * l +
    m ^ 3 * u - 2 * m ^ 3 * v + 3 * m ^ 2 * l ^ 2 - m ^ 2 * l * u - 4 * m ^ 2 * l * v + m ^ 2 * u ^ 2 + 8 * m *
    l ^ 3 - m * l ^ 2 * u + 2 * m * l ^ 2 * v + 2 * l ^ 4 + l ^ 3 * u + 4 * l ^ 3 * v - l ^ 2 * u ^ 2) _ _ _ _
    Ra).
  apply (eqp_lin (- 3 * x2 * x1 * m - 2 * x2 * m ^ 3 + x2 * m ^ 2 * l + x2 * m ^ 2 * u - 2 * x2 * m ^ 2 * v + 4
    * x2 * m * l ^ 2 + 2 * x2 * m * l * u + x2 * m * u ^ 2 - x2 * l ^ 2 * u + 2 * x2 * l ^ 2 * v - x2 * l * u ^
    2 - 6 * x1 ^ 2 * m + 6 * x1 ^ 2 * l - 6 * x1 * y1 - 4 * x1 * m ^ 3 + 2 * x1 * m ^ 2 * l + 2 * x1 * m ^ 2 * u
    - 4 * x1 * m ^ 2 * v + 17 * x1 * m * l ^ 2 + 10 * x1 * m * l * u + 2 * x1 * m * u ^ 2 - 6 * x1 * l ^ 3 - 8 *
    x1 * l ^ 2 * u + 4 * x1 * l ^ 2 * v - 2 * x1 * l * u ^ 2 - 2 * y1 * m ^ 2 - 4 * y1 * m * l - 4 * y1 * m * u
    + 4 * y1 * l ^ 2 + 6 * y1 * l * u + 2 * y1 * u ^ 2 + 4 * m ^ 3 * l ^ 2 + 2 * m ^ 3 * l * u - m ^ 2 * l ^ 3 -
    m ^ 2 * l ^ 2 * u + 4 * m ^ 2 * l ^ 2 * v + 2 * m ^ 2 * l * u * v - 8 * m * l ^ 4 - 6 * m * l ^ 3 * u - m *
    l ^ 2 * u ^ 2 + 2 * l ^ 5 + 3 * l ^ 4 * u - 4 * l ^ 4 * v + l ^ 3 * u ^ 2 - 2 * l ^ 3 * u * v) _ _ _ _ M1).
  apply (eqp_lin (2 * x2 * l ^ 2 + 3 * x1 * m ^ 2 + 3 * x1 * m * l - 2 * x1 * l ^ 2 + 2 * y1 * l + 2 * m ^ 4 + m
    ^ 3 * l - m ^ 3 * u + 2 * m ^ 3 * v - 3 * m ^ 2 * l ^ 2 + m ^ 2 * l * u - m ^ 2 * u ^ 2 - 2 * m * l ^ 3 + m
    * l ^ 2 * u - 2 * m * l ^ 2 * v - l ^ 3 * u + l ^ 2 * u ^ 2) _ _ _ _ U3).
  apply (eqp_lin (- 2 * x2 * l ^ 3 + 2 * x2 * l * u ^ 2 - 12 * x1 ^ 2 * l + 6 * x1 * y1 - 6 * x1 * m * l ^ 2 - 6
    * x1 * m * l * u + 2 * x1 * l ^ 3 + 6 * x1 * l ^ 2 * u + 4 * x1 * l * u ^ 2 + 4 * y1 * m * l + 4 * y1 * m *
    u + 4 * y1 * l ^ 2 - 4 * y1 * l * u - 2 * y1 * u ^ 2 + 2 * m * l ^ 4 + 2 * m * l ^ 3 * u - 2 * l ^ 4 * u - 2
    * l ^ 3 * u ^ 2) _ _ _ _ V1).
  apply eqp_exact. ring.
Qed.

(** If the first point is the sum of the others as well, one of them is its own opposite. *)
Lemma assoc_order_2 : x5 ≡ₚ x1 → y5 ≡ₚ y1 → y1 * y2 ≡ₚ 0.
Proof using M1.
  intros B1 B2. apply (eqp_cancel 4); [by apply small_nonzero|]. unfold chord_y, chord_x in *.
  apply (eqp_lin (- 3 * x1 * m + 3 * x1 * l - 2 * y1 + m * l ^ 2 - l ^ 3) _ _ _ _ M1).
  apply (eqp_lin (- 6 * x2 * x1 + 2 * x2 * l ^ 2 - 3 * x1 ^ 2 + 6 * x1 * m * l + 4 * x1 * l ^ 2 - 4 * y1 * m - 2
    * m * l ^ 3 - l ^ 4) _ _ _ _ B1).
  apply (eqp_lin (6 * x1 * l - 4 * y1 - 2 * l ^ 3) _ _ _ _ B2).
  apply eqp_exact. ring.
Qed.
End Double.

(** Three points of which no two, nor one and the sum of the others, are opposite. *)
Section Finite.
Context (x1 y1 x2 y2 x3 y3 : Z).
Local Notation P := (Some (x1, y1)).
Local Notation Q := (Some (x2, y2)).
Local Notation R := (Some (x3, y3)).
Hypothesis C1 : on_curve P.
Hypothesis C2 : on_curve Q.
Hypothesis C3 : on_curve R.
Context (l m u v : Z).
Local Notation x4 := (chord_x l x1 x2).
Local Notation y4 := (chord_y l x1 y1 x2).
Local Notation x5 := (chord_x m x2 x3).
Local Notation y5 := (chord_y m x2 y2 x3).
Hypothesis L : line l x1 y1 x2 y2.
Hypothesis M : line m x2 y2 x3 y3.
Hypothesis U : line u x4 y4 x3 y3.
Hypothesis V : line v x1 y1 x5 y5.
Hypothesis C4 : on_curve (Some (x4, y4)).
Hypothesis C5 : on_curve (Some (x5, y5)).

Lemma second_point : y2 ≡ₚ y1 + l * (x2 - x1).
Proof using L. apply (eqp_comb1 (-1) _ _ _ _ (proj1 L)). ring. Qed.

Lemma third_point_y : y3 ≡ₚ y1 + l * (x2 - x1) + m * (x3 - x2).
Proof using L M. apply (eqp_comb2 (-1) (-1) _ _ _ _ _ _ (proj1 L) (proj1 M)). ring. Qed.

Lemma assoc_generic :
  ¬ x4 ≡ₚ x3 → ¬ x5 ≡ₚ x1 →
  point_eq (Some (chord_x u x4 x3, chord_y u x4 y4 x3)) (Some (chord_x v x1 x5, chord_y v x1 y1 x5)).
Proof using L M U V.
  intros Hx4 Hx5. destruct L as [_ L2], M as [_ M2], U as [U1 U2], V as [V1 _].
  unfold chord_y in V1 at 1. rewrite second_point in L2, V1. rewrite third_point_y in M2, U1, U2.
  rewrite second_point in M2. split.
  - by apply (assoc_x x1 y1 x2 x3 l m u v).
  - by apply (assoc_y x1 y1 x2 x3 l m u v).
Qed.
End Finite.

Lemma same_x (x1 y1 x2 y2 : Z) :
  on_curve (Some (x1, y1)) → on_curve (Some (x2, y2)) → ¬ opposite x1 y1 x2 y2 → x1 ≡ₚ x2 → y1 ≡ₚ y2.
Proof.
  cbn [on_curve]. intros C1 C2 Hn Hx. destruct (eqp_mul_zero (y1 - y2) (y1 + y2)) as [H|H].
  - rewrite Hx in C1. apply (eqp_comb2 1 (-1) _ _ _ _ _ _ C1 C2). ring.
  - by apply eqp_sub_zero.
  - by destruct Hn.
Qed.

(** The sum of two points that are not opposite, with the line through them. *)
Lemma add_line (x1 y1 x2 y2 : Z) :
  on_curve (Some (x1, y1)) → on_curve (Some (x2, y2)) → ¬ opposite x1 y1 x2 y2 →
  ∃ l, line l x1 y1 x2 y2 ∧
    point_eq (point_add (Some (x1, y1)) (Some (x2, y2))) (Some (chord_x l x1 x2, chord_y l x1 y1 x2)) ∧
    on_curve (Some (chord_x l x1 x2, chord_y l x1 y1 x2)).
Proof.
  intros C1 C2 Hn. destruct (line_exists _ _ _ _ C1 C2 Hn) as (l & Hl & E). exists l. split; [done|].
  rewrite third_point_chord in E. split; [done|]. rewrite <- E. by apply point_add_on_curve.
Qed.

Definition finite (P : point) : Prop := match P with None => False | Some _ => True end.

#[global] Instance finite_proper : Proper (point_eq ==> iff) finite.
Proof. by intros [[??]|] [[??]|]. Qed.

Lemma finite_dec (P : point) : P = None ∨ finite P.
Proof. destruct P; [by right|by left]. Qed.

Lemma add_None (P Q : point) :
  on_curve P → on_curve Q → point_add P Q = None → point_eq Q (point_neg P).
Proof.
  destruct P as [[x1 y1]|]; [|by cbn [point_add]; intros _ _ ->]. destruct Q as [[x2 y2]|]; [|done]. intros C1 C2 E.
  destruct (opposite_dec x1 y1 x2 y2) as [[Hx Hy]|Hn].
  - rewrite point_neg_eq. split; [done|]. apply (eqp_comb1 1 _ _ _ _ Hy). ring.
  - destruct (add_line _ _ _ _ C1 C2 Hn) as (l & _ & H & _). by rewrite E in H.
Qed.

(** The sum of finite points that is finite, with the line through them. *)
Lemma add_Some (x1 y1 x2 y2 : Z) :
  on_curve (Some (x1, y1)) → on_curve (Some (x2, y2)) → finite (point_add (Some (x1, y1)) (Some (x2, y2))) →
  ∃ l, line l x1 y1 x2 y2 ∧ ¬ opposite x1 y1 x2 y2 ∧
    point_eq (point_add (Some (x1, y1)) (Some (x2, y2))) (Some (chord_x l x1 x2, chord_y l x1 y1 x2)) ∧
    on_curve (Some (chord_x l x1 x2, chord_y l x1 y1 x2)).
Proof.
  intros C1 C2 Hf. assert (¬ opposite x1 y1 x2 y2) as Hn by (intros H; by rewrite add_opposite in Hf).
  destruct (add_line _ _ _ _ C1 C2 Hn) as (l & Hl & E & Cl). exists l. split_and!; assumption.
Qed.

(** A sum that is added to one of its terms and then to the other. *)
Lemma assoc_self (P Q : point) :
  on_curve P → on_curve Q → finite (point_add P Q) → finite (point_add Q (point_add P Q)) →
  finite (point_add P (point_add Q (point_add P Q))) →
  point_eq (point_add (point_add P Q) (point_add P Q)) (point_add P (point_add Q (point_add P Q))).
Proof.
  destruct P as [[x1 y1]|]; [|done]. destruct Q as [[x2 y2]|]; [|intros; rewrite !point_add_None; reflexivity].
  intros C1 C2 H4 H5 H7. destruct (add_Some _ _ _ _ C1 C2 H4) as (l & [L1 L2] & _ & E4 & C4). rewrite E4 in *.
  destruct (add_Some _ _ _ _ C2 C4 H5) as (m & [M1 M2] & H24 & E5 & C5). rewrite E5 in *.
  destruct (add_Some _ _ _ _ C1 C5 H7) as (v & [V1 V2] & H15 & E7 & _). rewrite E7.
  set (x4 := chord_x l x1 x2) in *. set (y4 := chord_y l x1 y1 x2) in *.
  pose proof (no_point_of_order_2 _ _ C1) as Hy1. pose proof (no_point_of_order_2 _ _ C2) as Hy2.
  pose proof (no_point_of_order_2 _ _ C4) as Hy4.
  assert (¬ opposite x4 y4 x4 y4) as H44.
  { intros [_ Hy]. apply Hy4. apply (eqp_cancel 2); [by apply small_nonzero|]. apply (eqp_comb1 1 _ _ _ _ Hy). ring. }
  destruct (add_line _ _ _ _ C4 C4 H44) as (u & [_ U2] & E6 & _). rewrite E6. clear E4 E5 E6 E7.
  assert (y2 ≡ₚ y1 + l * (x2 - x1)) as Y2 by (apply (eqp_comb1 (-1) _ _ _ _ L1); ring).
  destruct (decide (chord_x m x2 x4 ≡ₚ x1)) as [E|E].
  - pose proof (same_x _ _ _ _ C1 C5 H15 (symmetry E)) as Ey. symmetry in Ey. unfold chord_y in Ey at 1.
    rewrite Y2 in M1, Ey. apply assoc_order_2 in M1; [|done|done].
    rewrite <- Y2 in M1. by apply eqp_mul_zero in M1 as [?|?].
  - unfold chord_y in V1 at 1. rewrite Y2 in L2, M1, V1. split.
    + by apply (assoc_double_x x1 y1 x2 l m u v).
    + by apply (assoc_double_y x1 y1 x2 l m u v).
Qed.

(** [P + R - R = P], and what is left of a sum without one of its terms. *)
Lemma point_sub_add (P R : point) :
  on_curve P → on_curve R → point_eq (point_add (point_add P R) (point_neg R)) P.
Proof.
  intros CP CR. pose proof (point_neg_on_curve _ CR) as CN.
  rewrite point_add_comm, (point_add_comm P R). rewrite <- (point_neg_involutive R) at 2.
  by apply point_add_cancel.
Qed.

Lemma point_add_neg_sum (P Q : point) :
  on_curve P → on_curve Q → point_eq (point_add Q (point_neg (point_add P Q))) (point_neg P).
Proof.
  intros CP CQ. rewrite point_neg_add by done. rewrite (point_add_comm (point_neg P)).
  apply point_add_cancel; [done|by apply point_neg_on_curve].
Qed.

Lemma point_add_assoc_finite (P Q R : point) :
  on_curve P → on_curve Q → on_curve R → finite (point_add P Q) → finite (point_add Q R) →
  finite (point_add (point_add P Q) R) → finite (point_add P (point_add Q R)) →
  point_eq (point_add (point_add P Q) R) (point_add P (point_add Q R)).
Proof.
  destruct P as [[x1 y1]|]; [|done]. destruct Q as [[x2 y2]|]; [|by rewrite point_add_None].
  destruct R as [[x3 y3]|]; [|by rewrite !point_add_None]. intros C1 C2 C3 H4 H5 H6 H7.
  pose proof (assoc_self (Some (x1, y1)) (Some (x2, y2)) C1 C2 H4) as A1.
  pose proof (assoc_self (Some (x3, y3)) (Some (x2, y2)) C3 C2) as A2.
  rewrite (point_add_comm (Some (x3, y3)) (Some (x2, y2))) in A2. specialize (A2 H5).
  destruct (add_Some _ _ _ _ C1 C2 H4) as (l & L & _ & E4 & C4).
  destruct (add_Some _ _ _ _ C2 C3 H5) as (m & M & _ & E5 & C5). rewrite E4, E5 in *.
  destruct (add_Some _ _ _ _ C4 C3 H6) as (u & U & H43 & E6 & _).
  destruct (add_Some _ _ _ _ C1 C5 H7) as (v & V & H15 & E7 & _).
  destruct (decide (chord_x l x1 x2 ≡ₚ x3)) as [Ex|Hx4].
  - assert (point_eq (Some (x3, y3)) (Some (chord_x l x1 x2, chord_y l x1 y1 x2))) as E.
    { symmetry. split; [done|]. by apply (same_x _ _ _ _ C4 C3). }
    clear A2. rewrite <- E in A1 |- *. rewrite E5 in A1. by apply A1.
  - destruct (decide (chord_x m x2 x3 ≡ₚ x1)) as [Ex|Hx5].
    + assert (point_eq (Some (x1, y1)) (Some (chord_x m x2 x3, chord_y m x2 y2 x3))) as E.
      { symmetry in Ex. split; [done|]. by apply (same_x _ _ _ _ C1 C5). }
      clear A1. rewrite <- E in A2 |- *. rewrite (point_add_comm (Some (x2, y2))), E4 in A2.
      rewrite (point_add_comm (Some (x3, y3))) in A2. symmetry. by apply A2.
    + rewrite E6, E7. by apply (assoc_generic x1 y1 x2 y2 x3 y3).
Qed.

Theorem point_add_assoc (P Q R : point) :
  on_curve P → on_curve Q → on_curve R →
  point_eq (point_add (point_add P Q) R) (point_add P (point_add Q R)).
Proof.
  intros CP CQ CR. pose proof (point_neg_on_curve _ CQ) as CN.
  destruct (finite_dec (point_add P Q)) as [E4|H4].
  { rewrite E4. rewrite (add_None P Q CP CQ E4). rewrite point_add_cancel by done. done. }
  destruct (finite_dec (point_add Q R)) as [E5|H5].
  { rewrite E5, point_add_None. rewrite (add_None Q R CQ CR E5). by apply point_sub_add. }
  pose proof (point_add_on_curve _ _ CP CQ) as C4. pose proof (point_add_on_curve _ _ CQ CR) as C5.
  destruct (finite_dec (point_add (point_add P Q) R)) as [E6|H6].
  { rewrite E6. pose proof (add_None _ _ C4 CR E6) as E. rewrite E. rewrite point_add_neg_sum by done.
    by rewrite point_add_neg. }
  destruct (finite_dec (point_add P (point_add Q R))) as [E7|H7].
  { rewrite E7. pose proof (add_None _ _ CP C5 E7) as E.
    assert (point_eq P (point_neg (point_add R Q))) as EP by (by rewrite (point_add_comm R), E, point_neg_involutive).
    rewrite EP. rewrite (point_add_comm _ Q), point_add_neg_sum by done.
    rewrite point_add_comm. by rewrite point_add_neg. }
  by apply point_add_assoc_finite.
Qed.

(** * The formulas in Jacobian coordinates *)

Lemma jac_double (x y z l X Y : Z) :
  X ≡ₚ x * (z * z) → Y ≡ₚ y * (z * z * z) → l * (2 * y) ≡ₚ 3 * (x * x) →
  let Z3 := 2 * Y * z in
  9 * (X * X * X * X) - 8 * (X * (Y * Y)) ≡ₚ (l * l - x - x) * (Z3 * Z3) ∧
  36 * (X * X * X * (Y * Y)) - 27 * (X * X * X * X * X * X) - 8 * (Y * Y * Y * Y) ≡ₚ
    (l * (x - (l * l - x - x)) - y) * (Z3 * Z3 * Z3).
Proof.
  intros HX HY Hl. cbv zeta. rewrite HX, HY. clear X Y HX HY. split.
  - apply (eqp_comb1 (- (l * (2 * y) + 3 * (x * x)) * z ^ 8) _ _ _ _ Hl). ring.
  - set (w := l * (2 * y)) in *. set (u := 3 * (x * x)) in *.
    apply (eqp_comb1 ((u * u + u * w + w * w - 12 * x * y * y) * z ^ 12) _ _ _ _ Hl). subst w u. ring.
Qed.

Lemma jac_add (x1 y1 x2 y2 z l u1 s1 u2 s2 : Z) :
  u1 ≡ₚ x1 * (z * z) → u2 ≡ₚ x2 * (z * z) → s1 ≡ₚ y1 * (z * z * z) → s2 ≡ₚ y2 * (z * z * z) →
  l * (x2 - x1) ≡ₚ y2 - y1 →
  let h := u2 - u1 in
  let i := s2 - s1 in
  let Z3 := z * h in
  let X3 := i * i - h * h * h - 2 * (u1 * (h * h)) in
  X3 ≡ₚ (l * l - x1 - x2) * (Z3 * Z3) ∧
  i * (u1 * (h * h) - X3) - s1 * (h * h * h) ≡ₚ (l * (x1 - (l * l - x1 - x2)) - y1) * (Z3 * Z3 * Z3).
Proof.
  intros H1 H2 H3 H4 Hl. cbv zeta. rewrite H1, H2, H3, H4. clear u1 u2 s1 s2 H1 H2 H3 H4. split.
  - apply (eqp_comb1 (- (l * (x2 - x1) + (y2 - y1)) * z ^ 6) _ _ _ _ Hl). ring.
  - set (w := l * (x2 - x1)) in *. set (e := y2 - y1) in *.
    apply (eqp_comb1 ((e * e + e * w + w * w - (2 * x1 + x2) * (x2 - x1) ^ 2) * z ^ 9) _ _ _ _ Hl).
    subst w e. ring.
Qed.
