(* ===== verification/Secp256k1Order.v ===== *)
(** Multiples of points, and the order of the curve.

    [point_mul] multiplies by doubling and adding.  The multiples of the generator are computed
    once, in Jacobian coordinates, to see that [n G] is the point at infinity, where [n] is
    the modulus of the scalars.  As [n] is prime, the multiples of [G] below [n] are different,
    and as there are at most [2 p + 1] points and none of order 2, they are all the
    points there are ([curve_cyclic]): every point has order [n] or is at infinity. *)

From Stdlib Require Import ZArith Lia.
From Stdlib Require Import Zmod.
From stdpp Require Import base gmap list fin_maps numbers.
From S2P Require Import Prelude Primality Secp256k1Scalar Secp256k1ScalarProofs Secp256k1FieldProofs Secp256k1FieldApi Secp256k1Curve Secp256k1GroupLaw.

Create HintDb curve.
#[export] Hint Resolve point_add_on_curve point_neg_on_curve : curve.

Ltac curve := eauto 10 with curve.

(** * Multiples *)

Fixpoint point_mul_pos (n : positive) (P : point) : point :=
  match n with
  | xH => P
  | xO n => let Q := point_mul_pos n P in point_add Q Q
  | xI n => let Q := point_mul_pos n P in point_add P (point_add Q Q)
  end.

Definition point_mul (n : Z) (P : point) : point :=
  match n with
  | Z0 => None
  | Zpos n => point_mul_pos n P
  | Zneg n => point_neg (point_mul_pos n P)
  end.

Lemma point_mul_pos_on_curve (n : positive) (P : point) : on_curve P → on_curve (point_mul_pos n P).
Proof. intros HP. induction n; cbn [point_mul_pos]; curve. Qed.
#[export] Hint Resolve point_mul_pos_on_curve : curve.

Lemma point_mul_on_curve (n : Z) (P : point) : on_curve P → on_curve (point_mul n P).
Proof. intros HP. destruct n; cbn [point_mul]; [done|curve..]. Qed.
#[export] Hint Resolve point_mul_on_curve : curve.

#[global] Instance point_mul_proper : Proper ((=) ==> point_eq ==> point_eq) point_mul.
Proof.
  intros n _ <- P Q E.
  assert (∀ k, point_eq (point_mul_pos k P) (point_mul_pos k Q)) as H.
  { intros k. induction k as [k IH|k IH|]; cbn [point_mul_pos]; [|by rewrite IH|done]. by rewrite IH, E. }
  destruct n; cbn [point_mul]; [done|apply H|by rewrite H].
Qed.

Section Multiples.
Context (P : point).
Hypothesis HP : on_curve P.

Lemma point_mul_pos_succ (n : positive) :
  point_eq (point_mul_pos (Pos.succ n) P) (point_add P (point_mul_pos n P)).
Proof using HP.
  induction n as [n IH|n IH|]; [|done|done]. change (Pos.succ n~1)%positive with (Pos.succ n)~0%positive.
  cbn [point_mul_pos]. rewrite !IH. rewrite <- !point_add_assoc by curve.
  rewrite (point_add_comm (point_add P (point_mul_pos n P)) P). by rewrite <- !point_add_assoc by curve.
Qed.

Lemma point_mul_succ (n : Z) : point_eq (point_mul (n + 1) P) (point_add P (point_mul n P)).
Proof using HP.
  destruct n as [|n|n].
  - by rewrite point_add_None.
  - rewrite Z.add_1_r, <- Pos2Z.inj_succ. apply point_mul_pos_succ.
  - destruct (Pos.eq_dec n 1%positive) as [->|Hn]; [cbn [point_mul point_mul_pos]; by rewrite point_add_neg|].
    rewrite <- (Pos.succ_pred n Hn). replace (Z.neg (Pos.succ (Pos.pred n)) + 1) with (Z.neg (Pos.pred n)) by lia.
    cbn [point_mul]. rewrite point_mul_pos_succ, point_neg_add by curve.
    rewrite <- point_add_assoc, point_add_neg by curve. done.
Qed.

Lemma point_mul_pred (n : Z) : point_eq (point_mul (n - 1) P) (point_add (point_neg P) (point_mul n P)).
Proof using HP.
  rewrite <- (Z.sub_add 1 n) at 2. rewrite point_mul_succ, <- point_add_assoc by curve.
  rewrite (point_add_comm (point_neg P)), point_add_neg by curve. done.
Qed.

Lemma point_mul_add (n m : Z) : point_eq (point_mul (n + m) P) (point_add (point_mul n P) (point_mul m P)).
Proof using HP.
  induction n as [|n IH|n IH] using Z.peano_ind; [done|..].
  - rewrite Z.add_succ_l, <- !Z.add_1_r, !point_mul_succ, IH. by rewrite point_add_assoc by curve.
  - rewrite Z.add_pred_l, <- !Z.sub_1_r, !point_mul_pred, IH. by rewrite point_add_assoc by curve.
Qed.

Lemma point_mul_opp (n : Z) : point_eq (point_mul (- n) P) (point_neg (point_mul n P)).
Proof using HP. destruct n; cbn [Z.opp point_mul]; [done..|by rewrite point_neg_involutive]. Qed.

Lemma point_mul_sub (n m : Z) :
  point_eq (point_mul (n - m) P) (point_add (point_mul n P) (point_neg (point_mul m P))).
Proof using HP. by rewrite <- point_mul_opp, <- point_mul_add. Qed.

Lemma point_mul_1 : point_mul 1 P = P.
Proof. done. Qed.
End Multiples.

Lemma point_mul_None (n : Z) : point_mul n None = None.
Proof.
  assert (∀ k, point_mul_pos k None = None) as H by (induction k; cbn [point_mul_pos]; by rewrite ?IHk).
  destruct n; cbn [point_mul]; [done|apply H|by rewrite H].
Qed.

Lemma point_mul_mul (n m : Z) (P : point) : on_curve P → point_eq (point_mul (n * m) P) (point_mul n (point_mul m P)).
Proof.
  intros HP. induction n as [|n IH|n IH] using Z.peano_ind; [done|..].
  - rewrite <- !Z.add_1_r, Z.mul_add_distr_r, Z.mul_1_l, point_mul_add, IH by done.
    rewrite point_mul_succ by curve. apply point_add_comm.
  - rewrite <- !Z.sub_1_r, Z.mul_sub_distr_r, Z.mul_1_l, point_mul_sub, IH by done.
    rewrite point_mul_pred by curve. apply point_add_comm.
Qed.

Lemma point_mul_dist (n : Z) (P Q : point) :
  on_curve P → on_curve Q → point_eq (point_mul n (point_add P Q)) (point_add (point_mul n P) (point_mul n Q)).
Proof.
  intros HP HQ. induction n as [|n IH|n IH] using Z.peano_ind; [done|..].
  - rewrite <- !Z.add_1_r, !point_mul_succ, IH by curve. rewrite !point_add_assoc by curve.
    rewrite <- (point_add_assoc Q), (point_add_comm Q (point_mul n P)) by curve. by rewrite !point_add_assoc by curve.
  - rewrite <- !Z.sub_1_r, !point_mul_pred, IH by curve. rewrite point_neg_add, !point_add_assoc by curve.
    rewrite <- (point_add_assoc (point_neg Q)), (point_add_comm (point_neg Q) (point_mul n P)) by curve.
    by rewrite !point_add_assoc by curve.
Qed.

(** * The generator *)

Definition gen_x : Z := 0x79BE667EF9DCBBAC55A06295CE870B07029BFCDB2DCE28D959F2815B16F81798.
Definition gen_y : Z := 0x483ADA7726A3C4655DA4FBFC0E1108A8FD17B448A68554199C47D08FFB10D4B8.
Definition generator : point := Some (gen_x, gen_y).

Lemma generator_on_curve : on_curve generator.
Proof. by vm_compute. Qed.
#[export] Hint Resolve generator_on_curve : curve.

(** Numbers modulo the prime, not reduced completely: [2^256] is [2^32 + 977]. *)
Definition fp_red (x : Z) : Z := Z.shiftr x 256 * (2 ^ 32 + 977) + Z.land x (Z.ones 256).

Lemma fp_red_eqp (x : Z) : fp_red x ≡ₚ x.
Proof.
  unfold fp_red. rewrite Z.shiftr_div_pow2, Z.land_ones by lia. apply (eqp_multiple (- (x / 2 ^ 256))).
  unfold field_prime. pose proof (Z.div_mod x (2 ^ 256)). lia.
Qed.

Definition fp_mul (x y : Z) : Z := fp_red (fp_red (x * y)).

Lemma fp_mul_eqp (x y : Z) : fp_mul x y ≡ₚ x * y.
Proof. unfold fp_mul. by rewrite !fp_red_eqp. Qed.

Lemma fp_mul_is (x y v w : Z) : x ≡ₚ v → y ≡ₚ w → fp_mul x y ≡ₚ v * w.
Proof. intros Hx Hy. rewrite fp_mul_eqp. by rewrite Hx, Hy. Qed.

Lemma eqp_sub_is (x y v w : Z) : x ≡ₚ v → y ≡ₚ w → x - y ≡ₚ v - w.
Proof. by intros -> ->. Qed.

Lemma eqp_scale_is (c x v : Z) : x ≡ₚ v → c * x ≡ₚ c * v.
Proof. by intros ->. Qed.

(** Replaces the products of numbers modulo the prime by products. *)
Ltac fp :=
  lazymatch goal with
  | |- fp_mul _ _ ≡ₚ _ => eapply fp_mul_is; [fp|fp]
  | |- _ - _ ≡ₚ _ => eapply eqp_sub_is; [fp|fp]
  | |- Z.pos _ * _ ≡ₚ _ => eapply eqp_scale_is; fp
  | |- _ => reflexivity
  end.

Lemma fp_chain (a v w b : Z) : a ≡ₚ v → v ≡ₚ w → b ≡ₚ w → a ≡ₚ b.
Proof. by intros -> -> ->. Qed.

Definition jac_dbl (J : Z * Z * Z) : Z * Z * Z :=
  let '(X, Y, T) := J in
  let YY := fp_mul Y Y in
  let S := fp_mul X YY in
  let M := 3 * fp_mul X X in
  let X3 := fp_mul M M - 8 * S in
  (X3, fp_mul M (4 * S - X3) - 8 * fp_mul YY YY, fp_mul (2 * Y) T).

(** Adding a point with affine coordinates. *)
Definition jac_madd (x2 y2 : Z) (J : Z * Z * Z) : option (Z * Z * Z) :=
  let '(X, Y, T) := J in
  let TT := fp_mul T T in
  let h := fp_mul x2 TT - X in
  let i := fp_mul y2 (fp_mul T TT) - Y in
  if h mod field_prime =? 0 then None
  else
    let hh := fp_mul h h in
    let hhh := fp_mul h hh in
    let v := fp_mul X hh in
    let X3 := fp_mul i i - hhh - 2 * v in
    Some (X3, fp_mul i (v - X3) - fp_mul Y hhh, fp_mul T h).

Fixpoint jac_mul (x y : Z) (n : positive) : option (Z * Z * Z) :=
  match n with
  | xH => Some (x, y, 1)
  | xO n => match jac_mul x y n with Some J => Some (jac_dbl J) | None => None end
  | xI n => match jac_mul x y n with Some J => jac_madd x y (jac_dbl J) | None => None end
  end.

Definition jac_is (J : Z * Z * Z) (P : point) : Prop :=
  let '(X, Y, T) := J in
  ∃ x y, point_eq P (Some (x, y)) ∧ ¬ T ≡ₚ 0 ∧ X ≡ₚ x * (T * T) ∧ Y ≡ₚ y * (T * T * T).

Lemma jac_dbl_spec (J : Z * Z * Z) (P : point) : on_curve P → jac_is J P → jac_is (jac_dbl J) (point_add P P).
Proof.
  destruct J as [[X Y] T]. intros HP (x & y & E & HT & HX & HY). rewrite E in HP.
  pose proof (no_point_of_order_2 _ _ HP) as Hy. unfold jac_dbl, jac_is. cbv zeta.
  assert (point_eq (point_add P P) (third_point (3 * (x * x) * fp_inv (2 * y)) x y x)) as ES.
  { rewrite E, point_add_same by done. unfold point_double. by rewrite decide_False. }
  rewrite third_point_chord in ES. pose proof (tangent_slope x y Hy) as Hl.
  set (l := 3 * (x * x) * fp_inv (2 * y)) in *. clearbody l. eexists _, _. split; [exact ES|].
  destruct (jac_double x y T l X Y HX HY Hl) as [EX EY]. split_and!.
  - rewrite fp_mul_eqp, HY. repeat apply eqp_mul_nonzero; try done; by apply small_nonzero.
  - eapply fp_chain; [fp|eapply eqp_of_eq; [exact EX|ring|reflexivity]|]. by rewrite fp_mul_eqp.
  - eapply fp_chain; [fp|eapply eqp_of_eq; [exact EY|ring|reflexivity]|]. by rewrite fp_mul_eqp.
Qed.

Lemma jac_madd_spec (x2 y2 : Z) (J J' : Z * Z * Z) (P : point) :
  on_curve P → jac_is J P → jac_madd x2 y2 J = Some J' → jac_is J' (point_add (Some (x2, y2)) P).
Proof.
  destruct J as [[X Y] T]. intros HP (x & y & E & HT & HX & HY). unfold jac_madd. cbv zeta.
  destruct (Z.eqb_spec ((fp_mul x2 (fp_mul T T) - X) mod field_prime) 0) as [Eh|Eh]; [done|]. intros [= <-].
  assert (¬ x ≡ₚ x2) as Hx.
  { intros Ex. apply Eh. change (fp_mul x2 (fp_mul T T) - X ≡ₚ 0). rewrite !fp_mul_eqp, HX, Ex.
    by rewrite Z.sub_diag. }
  assert (point_eq (point_add (Some (x2, y2)) P) (third_point ((y2 - y) * fp_inv (x2 - x)) x y x2)) as ES.
  { rewrite point_add_comm, E. unfold point_add. by rewrite decide_False. }
  rewrite third_point_chord in ES. pose proof (chord_slope x y x2 y2 Hx) as Hl.
  set (l := (y2 - y) * fp_inv (x2 - x)) in *. clearbody l. unfold jac_is. eexists _, _. split; [exact ES|].
  destruct (jac_add x y x2 y2 T l X Y (x2 * (T * T)) (y2 * (T * T * T)) HX (reflexivity _) HY
    (reflexivity _) Hl) as [EX EY].
  assert (fp_mul T (fp_mul x2 (fp_mul T T) - X) ≡ₚ T * (x2 * (T * T) - X)) as Z3 by fp. split_and!.
  - rewrite fp_mul_eqp. apply eqp_mul_nonzero; [done|exact Eh].
  - eapply fp_chain; [fp|eapply eqp_of_eq; [exact EX|ring|reflexivity]|]. by rewrite Z3.
  - eapply fp_chain; [fp|eapply eqp_of_eq; [exact EY|ring|reflexivity]|]. by rewrite Z3.
Qed.

Lemma jac_mul_spec (x y : Z) (n : positive) (J : Z * Z * Z) :
  on_curve (Some (x, y)) → jac_mul x y n = Some J → jac_is J (point_mul_pos n (Some (x, y))).
Proof.
  intros HP. revert J. induction n as [n IH|n IH|]; intros J; cbn [jac_mul point_mul_pos].
  - destruct (jac_mul x y n) as [J'|]; [|done]. intros H. eapply jac_madd_spec; [curve| |exact H].
    apply jac_dbl_spec; [curve|by apply IH].
  - destruct (jac_mul x y n) as [J'|]; [|done]. intros [= <-]. apply jac_dbl_spec; [curve|by apply IH].
  - intros [= <-]. exists x, y. split_and!; [done|by apply small_nonzero|apply eqp_exact; ring..].
Qed.

Lemma order_by_last (P : point) (n : Z) :
  on_curve P → point_eq (point_mul (n - 1) P) (point_neg P) → point_mul n P = None.
Proof.
  intros HP H. pose proof (point_mul_succ P HP (n - 1)) as E. rewrite H, (point_add_neg P HP), Z.sub_add in E.
  by destruct (point_mul n P) as [[??]|].
Qed.

(** The last multiple of the generator is its opposite. *)
Definition is_opposite_gen (J : option (Z * Z * Z)) : bool :=
  match J with
  | Some (X, Y, T) =>
      ((X - gen_x * (T * T)) mod field_prime =? 0) && ((Y + gen_y * (T * T * T)) mod field_prime =? 0)
  | None => false
  end.

Lemma is_opposite_gen_spec (k : positive) :
  is_opposite_gen (jac_mul gen_x gen_y k) = true → point_eq (point_mul (Z.pos k) generator) (point_neg generator).
Proof.
  pose proof (jac_mul_spec gen_x gen_y k) as HJ. destruct (jac_mul gen_x gen_y k) as [[[X Y] T]|]; [|done].
  destruct (HJ _ generator_on_curve eq_refl) as (x & y & E & HT & HX & HY). clear HJ. cbn [is_opposite_gen point_mul].
  unfold generator. rewrite E, point_neg_eq, andb_true_iff, !Z.eqb_eq. intros [H1 H2].
  change (X - gen_x * (T * T) ≡ₚ 0) in H1. change (Y + gen_y * (T * T * T) ≡ₚ 0) in H2. split.
  - apply (eqp_cancel (T * T)); [by apply eqp_mul_nonzero|]. apply (eqp_comb2 1 (-1) _ _ _ _ _ _ H1 HX). ring.
  - apply (eqp_cancel (T * T * T)); [by repeat apply eqp_mul_nonzero|].
    apply (eqp_comb2 1 (-1) _ _ _ _ _ _ H2 HY). ring.
Qed.

Lemma last_multiple : is_opposite_gen (jac_mul gen_x gen_y (Z.to_pos (group_order - 1))) = true.
Proof. vm_compute. reflexivity. Qed.

Lemma generator_order : point_mul group_order generator = None.
Proof.
  apply order_by_last; [curve|]. rewrite <- (Z2Pos.id (group_order - 1)) by reflexivity.
  exact (is_opposite_gen_spec _ last_multiple).
Qed.

(** * Every point is a multiple of the generator *)

#[local] Opaque group_order.

Lemma point_eq_None (P : point) : point_eq P None → P = None.
Proof. by destruct P as [[??]|]. Qed.

Lemma point_eq_sub (P Q : point) : on_curve Q → point_eq P Q → point_add P (point_neg Q) = None.
Proof. intros HQ E. apply point_eq_None. rewrite E. by rewrite point_add_neg. Qed.

Lemma point_sub_eq (P Q : point) : on_curve P → on_curve Q → point_add P (point_neg Q) = None → point_eq P Q.
Proof.
  intros HP HQ E. apply (add_None _ _ HP) in E; [|curve]. rewrite <- (point_neg_involutive P), <- E.
  by rewrite point_neg_involutive.
Qed.

Lemma no_double_None (P : point) : on_curve P → point_add P P = None → P = None.
Proof.
  destruct P as [[x y]|]; [|done]. intros HP. pose proof (no_point_of_order_2 _ _ HP).
  rewrite point_add_same by done. unfold point_double. by rewrite decide_False.
Qed.

Lemma multiple_None (P : point) (k : Z) :
  on_curve P → point_mul group_order P = None → 0 < k < group_order → point_mul k P = None → P = None.
Proof.
  intros HP Hn Hk Ek. apply point_eq_None.
  destruct (Z.Bezout_coprime group_order k) as (u & v & E).
  { apply Z.coprime_prime_small; [apply group_order_prime|lia]. }
  rewrite <- (point_mul_1 P), <- E, point_mul_add, !point_mul_mul, Hn, Ek by done. by rewrite !point_mul_None.
Qed.

Lemma generator_multiple_mod (k : Z) :
  point_eq (point_mul (k mod group_order) generator) (point_mul k generator).
Proof.
  rewrite (Z.div_mod k group_order) at 2 by (by vm_compute). rewrite (Z.mul_comm group_order).
  rewrite point_mul_add, point_mul_mul, generator_order, point_mul_None by curve. done.
Qed.

Lemma multiples_lt (i j : Z) :
  0 ≤ i < j → j < group_order → ¬ point_eq (point_mul j generator) (point_mul i generator).
Proof.
  intros Hi Hj E. apply point_eq_sub in E; [|curve].
  assert (point_mul (j - i) generator = None) as H.
  { apply point_eq_None. rewrite point_mul_sub by curve. by rewrite E. }
  apply multiple_None in H; [done|curve|apply generator_order|lia].
Qed.

Lemma multiples_distinct (i j : Z) :
  0 ≤ i < group_order → 0 ≤ j < group_order →
  point_eq (point_mul i generator) (point_mul j generator) → i = j.
Proof.
  intros Hi Hj E. destruct (Z.lt_trichotomy i j) as [H|[H|H]]; [|done|].
  - symmetry in E. by apply multiples_lt in E; [|lia..].
  - by apply multiples_lt in E; [|lia..].
Qed.

(** A number for each point: the first coordinate and the parity of the second. *)
Definition point_code (P : point) : Z :=
  match P with
  | None => 0
  | Some (x, y) => 1 + 2 * (x mod field_prime) + (y mod field_prime) mod 2
  end.

Lemma point_code_range (P : point) : 0 ≤ point_code P < 2 * field_prime + 1.
Proof.
  destruct P as [[x y]|]; cbn [point_code]; [|by vm_compute].
  pose proof (Z.mod_pos_bound x field_prime ltac:(done)). pose proof (Z.mod_pos_bound (y mod field_prime) 2). lia.
Qed.

Lemma point_code_inj (P Q : point) :
  on_curve P → on_curve Q → point_code P = point_code Q → point_eq P Q.
Proof.
  destruct P as [[x1 y1]|], Q as [[x2 y2]|]; cbn [point_code]; [|intros _ _..|done].
  2:{ pose proof (Z.mod_pos_bound x1 field_prime ltac:(done)). pose proof (Z.mod_pos_bound (y1 mod field_prime) 2). lia. }
  2:{ pose proof (Z.mod_pos_bound x2 field_prime ltac:(done)). pose proof (Z.mod_pos_bound (y2 mod field_prime) 2). lia. }
  intros C1 C2 E. pose proof (Z.mod_pos_bound (y1 mod field_prime) 2) as B1.
  pose proof (Z.mod_pos_bound (y2 mod field_prime) 2) as B2.
  assert (x1 ≡ₚ x2) as Hx by (unfold eqp; lia). split; [done|].
  assert (y1 * y1 ≡ₚ y2 * y2) as Hyy by (cbn [on_curve] in C1, C2; by rewrite C1, C2, Hx).
  destruct (square_roots_opposite _ _ Hyy) as [?|Hy]; [done|]. pose proof (no_point_of_order_2 _ _ C2) as Hnz.
  assert (y1 mod field_prime mod 2 = 1 - y2 mod field_prime mod 2).
  { apply parity_neg; [by apply Z.mod_pos_bound..|by rewrite eqp_mod|by rewrite !eqp_mod]. }
  unfold eqp in Hx. lia.
Qed.

Lemma pigeonhole (f : Z → Z) (N M : Z) :
  0 ≤ M < N → (∀ i, 0 ≤ i < N → 0 ≤ f i < M) →
  (∀ i j, 0 ≤ i < N → 0 ≤ j < N → f i = f j → i = j) → False.
Proof.
  intros HM Hr Hi. set (l := map (λ i, f (Z.of_nat i)) (seq 0 (Z.to_nat N))).
  assert (length l ≤ length (map Z.of_nat (seq 0 (Z.to_nat M))))%nat as H.
  { apply List.NoDup_incl_length.
    - apply Lists.Finite.Injective_map_NoDup_in; [|apply List.seq_NoDup].
      intros i j [_ Ha]%List.in_seq [_ Hb]%List.in_seq E. apply Hi in E; lia.
    - intros y Hy. apply List.in_map_iff in Hy as (i & <- & Ha%List.in_seq). specialize (Hr (Z.of_nat i) ltac:(lia)).
      apply List.in_map_iff. exists (Z.to_nat (f (Z.of_nat i))). split; [lia|]. apply List.in_seq. lia. }
  unfold l in H. rewrite !length_map, !length_seq in H. lia.
Qed.

Lemma point_add_swap (A B C D : point) :
  on_curve A → on_curve B → on_curve C → on_curve D →
  point_eq (point_add (point_add A B) (point_add C D)) (point_add (point_add A C) (point_add B D)).
Proof.
  intros HA HB HC HD. rewrite !point_add_assoc by curve.
  rewrite <- (point_add_assoc B C D), (point_add_comm B C), (point_add_assoc C B D) by curve. done.
Qed.

(** Moving terms to the other side. *)
Lemma point_add_transpose (A B C D : point) :
  on_curve A → on_curve B → on_curve C → on_curve D →
  point_eq (point_add A B) (point_add C D) → point_eq (point_add A (point_neg C)) (point_add D (point_neg B)).
Proof.
  intros HA HB HC HD E. apply point_sub_eq; [curve..|]. apply point_eq_None.
  rewrite point_neg_add, point_neg_involutive, (point_add_comm (point_neg D)), point_add_swap by curve.
  rewrite <- point_neg_add, E by curve. by rewrite point_add_neg by curve.
Qed.

#[global] Instance point_eq_dec (P Q : point) : Decision (point_eq P Q).
Proof. destruct P as [[x1 y1]|], Q as [[x2 y2]|]; cbn; apply _. Defined.

Definition is_multiple (P : point) : Prop := ∃ k, point_eq P (point_mul k generator).

Lemma is_multiple_dec (P : point) : is_multiple P ∨ ¬ is_multiple P.
Proof.
  destruct (decide (Exists (λ i, point_eq P (point_mul (Z.of_nat i) generator)) (seq 0 (Z.to_nat group_order))))
    as [H|H].
  - left. apply Exists_exists in H as (i & _ & E). by exists (Z.of_nat i).
  - right. intros [k E]. apply H. apply Exists_exists. exists (Z.to_nat (k mod group_order)).
    pose proof (Z.mod_pos_bound k group_order ltac:(by vm_compute)). split.
    + apply List.in_seq. lia.
    + rewrite Z2Nat.id, generator_multiple_mod by lia. exact E.
Qed.

(** As there are no points of order 2, a point whose double is a multiple is one itself. *)
Lemma half_multiple (P : point) (k : Z) :
  on_curve P → point_eq (point_add P P) (point_mul k generator) → is_multiple P.
Proof.
  intros HP E. set (h := (group_order + 1) / 2). exists (h * k). apply point_sub_eq; [curve..|].
  set (Q := point_mul (h * k) generator). assert (on_curve Q) as HQ by curve.
  assert (point_eq (point_add Q Q) (point_mul k generator)) as E2.
  { unfold Q. rewrite <- point_mul_add by curve. replace (h * k + h * k) with (k * group_order + k).
    - rewrite point_mul_add, point_mul_mul, generator_order, point_mul_None by curve. done.
    - assert (2 * h = group_order + 1) by (by vm_compute). nia. }
  apply no_double_None; [curve|]. apply point_eq_None. rewrite point_add_swap, E, <- point_neg_add, E2 by curve.
  by rewrite point_add_neg by curve.
Qed.

Section Coset.
Context (P : point).
Hypothesis HP : on_curve P.
Hypothesis Hout : ¬ is_multiple P.

Lemma not_multiple (d k : Z) : -2 ≤ d ≤ 2 → point_eq (point_mul d P) (point_mul k generator) → d = 0.
Proof using HP Hout.
  assert (∀ k, ¬ point_eq P (point_mul k generator)) as H1 by (intros j Ej; apply Hout; by exists j).
  assert (∀ k, ¬ point_eq (point_mul 2 P) (point_mul k generator)) as H2.
  { intros j Ej. apply Hout. by apply (half_multiple P j). }
  assert (∀ d, point_eq (point_mul (- d) P) (point_mul k generator) →
    point_eq (point_mul d P) (point_mul (- k) generator)) as Hneg.
  { intros e Ee. rewrite point_mul_opp in Ee |- * by curve. by rewrite <- Ee, point_neg_involutive. }
  intros Hd E. destruct (decide (d = 0)) as [|Hd0]; [done|]. exfalso.
  assert (d = 1 ∨ d = 2 ∨ d = - (1) ∨ d = - (2)) as [->|[->|[->| ->]]] by lia.
  - by apply (H1 k).
  - by apply (H2 k).
  - by apply Hneg, H1 in E.
  - by apply Hneg, H2 in E.
Qed.

(** Three cosets of the multiples have more points than the curve. *)
Definition coset_code (t : Z) : Z :=
  point_code (point_add (point_mul (t / group_order) P) (point_mul (t mod group_order) generator)).

Lemma coset_code_inj (t s : Z) :
  0 ≤ t < 3 * group_order → 0 ≤ s < 3 * group_order → coset_code t = coset_code s → t = s.
Proof using HP Hout.
  intros Ht Hs E. assert (0 < group_order) as Hn by (by vm_compute).
  pose proof (Z.div_mod t group_order ltac:(lia)) as Dt. pose proof (Z.div_mod s group_order ltac:(lia)) as Ds.
  pose proof (Z.mod_pos_bound t group_order Hn) as Bt. pose proof (Z.mod_pos_bound s group_order Hn) as Bs.
  assert (0 ≤ t / group_order < 3 ∧ 0 ≤ s / group_order < 3) as [Qt Qs]
    by (split; split; (apply Z.div_pos + apply Z.div_lt_upper_bound); lia).
  unfold coset_code in E. set (i := t / group_order) in *. set (j := t mod group_order) in *.
  set (i' := s / group_order) in *. set (j' := s mod group_order) in *. clearbody i j i' j'.
  apply point_code_inj in E; [|curve..].
  assert (point_eq (point_mul (i - i') P) (point_mul (j' - j) generator)) as E'.
  { rewrite !point_mul_sub by curve. apply point_add_transpose; [curve..|done]. }
  assert (i = i') as <-. { apply not_multiple in E'; lia. }
  rewrite Z.sub_diag in E'. symmetry in E'. cbn [point_mul] in E'.
  assert (j' = j) as <-; [|lia]. apply multiples_distinct; [lia..|]. apply point_sub_eq; [curve..|].
  apply point_eq_None. by rewrite <- point_mul_sub by curve.
Qed.

Lemma coset_contradiction : False.
Proof using HP Hout.
  apply (pigeonhole coset_code (3 * group_order) (2 * field_prime + 1)); [by vm_compute| |apply coset_code_inj].
  intros t _. apply point_code_range.
Qed.
End Coset.

(** Every point of the curve is a multiple of the generator, and has its order. *)
Theorem curve_cyclic (P : point) : on_curve P → ∃ k, 0 ≤ k < group_order ∧ point_eq P (point_mul k generator).
Proof.
  intros HP. destruct (is_multiple_dec P) as [[k E]|H]; [|by destruct (coset_contradiction P)].
  exists (k mod group_order). split; [apply Z.mod_pos_bound; by vm_compute|]. by rewrite generator_multiple_mod.
Qed.

Theorem curve_order (P : point) : on_curve P → point_mul group_order P = None.
Proof.
  intros (k & _ & E)%curve_cyclic. apply point_eq_None. rewrite E, <- point_mul_mul, Z.mul_comm by curve.
  rewrite point_mul_mul, generator_order by curve. by rewrite point_mul_None.
Qed.

Lemma point_mul_mod (k : Z) (P : point) : on_curve P → point_eq (point_mul (k mod group_order) P) (point_mul k P).
Proof.
  intros HP. rewrite (Z.div_mod k group_order) at 2 by (by vm_compute). rewrite (Z.mul_comm group_order).
  rewrite point_mul_add, point_mul_mul, (curve_order P HP), point_mul_None by curve. done.
Qed.

(** A multiple of a finite point is at infinity for multiples of the order only. *)
Lemma point_mul_finite (k : Z) (P : point) :
  on_curve P → finite P → k mod group_order ≠ 0 → finite (point_mul k P).
Proof.
  intros HP Hf Hk. destruct (finite_dec (point_mul k P)) as [E|]; [|done]. exfalso.
  pose proof (Z.mod_pos_bound k group_order ltac:(by vm_compute)) as Hb.
  assert (point_mul (k mod group_order) P = None) as E'.
  { apply point_eq_None. rewrite point_mul_mod by done. by rewrite E. }
  apply multiple_None in E'; [by subst P|done|by apply curve_order|lia].
Qed.
