(* ===== verification/Secp256k1Group.v ===== *)
(** Points of the curve, as the node computes with them: src/src/secp256k1/src/group_impl.h,
    without the endomorphism.

    A point is affine ([secp256k1_ge]) or in Jacobian coordinates ([secp256k1_gej]: [x / z^2] and
    [y / z^3]), with a flag for the point at infinity.  The functions take the
    structure [r] they write to where they leave some of its members as they are,
    and return what they leave in it.  They read the members of their arguments
    before they overwrite them, so that [r] may be the first argument.  A pointer [rzr] that
    may be NULL is a flag here, and what is stored through it is returned. *)

From Stdlib Require Import ZArith Lia Strings.Byte.
From stdpp Require Import base gmap list fin_maps numbers.
From S2P Require Import Prelude Secp256k1Scalar Secp256k1Field.

(** * Data *)

Record secp256k1_ge := Ge { ge_x : secp256k1_fe; ge_y : secp256k1_fe; ge_infinity : Z }.

Record secp256k1_gej :=
  Gej { gej_x : secp256k1_fe; gej_y : secp256k1_fe; gej_z : secp256k1_fe; gej_infinity : Z }.

Record secp256k1_ge_storage :=
  GeStorage { gs_x : secp256k1_fe_storage; gs_y : secp256k1_fe_storage }.

(** The generator and the constant of the curve. *)
Definition secp256k1_ge_const_g : secp256k1_ge := Ge
  (SECP256K1_FE_CONST 0x79BE667E 0xF9DCBBAC 0x55A06295 0xCE870B07
                      0x029BFCDB 0x2DCE28D9 0x59F2815B 0x16F81798)
  (SECP256K1_FE_CONST 0x483ADA77 0x26A3C465 0x5DA4FBFC 0x0E1108A8
                      0xFD17B448 0xA6855419 0x9C47D08F 0xFB10D4B8)
  0.

Definition CURVE_B : Z := 7.

#[global] Instance ge_inhabited : Inhabited secp256k1_ge := populate (Ge inhabitant inhabitant 0).
#[global] Instance gej_inhabited : Inhabited secp256k1_gej :=
  populate (Gej inhabitant inhabitant inhabitant 0).

(** [if (x)] of an int. *)
Definition nonzero (x : Z) : bool := negb (x =? 0).

(** * Conversions *)

Definition secp256k1_ge_set_gej_zinv (a : secp256k1_gej) (zi : secp256k1_fe) : secp256k1_ge :=
  let zi2 := secp256k1_fe_sqr zi in
  let zi3 := secp256k1_fe_mul zi2 zi in
  let x := secp256k1_fe_mul (gej_x a) zi2 in
  let y := secp256k1_fe_mul (gej_y a) zi3 in
  Ge x y (gej_infinity a).

Definition secp256k1_ge_set_xy (x y : secp256k1_fe) : secp256k1_ge := Ge x y 0.

Definition secp256k1_ge_is_infinity (a : secp256k1_ge) : Z := ge_infinity a.

Definition secp256k1_ge_neg (a : secp256k1_ge) : secp256k1_ge :=
  let y := secp256k1_fe_normalize_weak (ge_y a) in
  let y := secp256k1_fe_negate y 1 in
  Ge (ge_x a) y (ge_infinity a).

(** The affine point, and [a], which is scaled to [z = 1] in place. *)
Definition secp256k1_ge_set_gej (a : secp256k1_gej) : secp256k1_ge * secp256k1_gej :=
  let z := secp256k1_fe_inv (gej_z a) in
  let z2 := secp256k1_fe_sqr z in
  let z3 := secp256k1_fe_mul z z2 in
  let x := secp256k1_fe_mul (gej_x a) z2 in
  let y := secp256k1_fe_mul (gej_y a) z3 in
  let z := secp256k1_fe_set_int 1 in
  (Ge x y (gej_infinity a), Gej x y z (gej_infinity a)).

Definition secp256k1_ge_set_gej_var (r : secp256k1_ge) (a : secp256k1_gej) :
  secp256k1_ge * secp256k1_gej :=
  if nonzero (gej_infinity a) then (Ge (ge_x r) (ge_y r) (gej_infinity a), a)
  else
    let z := secp256k1_fe_inv_var (gej_z a) in
    let z2 := secp256k1_fe_sqr z in
    let z3 := secp256k1_fe_mul z z2 in
    let x := secp256k1_fe_mul (gej_x a) z2 in
    let y := secp256k1_fe_mul (gej_y a) z3 in
    let z := secp256k1_fe_set_int 1 in
    (Ge x y (gej_infinity a), Gej x y z (gej_infinity a)).

(** The second loop of [secp256k1_ge_set_all_gej_var], over the points that are left, with the
    inverses that are left; points at infinity keep the coordinates of [r]. *)
Fixpoint set_all_loop (r : list secp256k1_ge) (a : list secp256k1_gej) (azi : list secp256k1_fe) :
  list secp256k1_ge :=
  match r, a with
  | r0 :: r, a0 :: a =>
      if nonzero (gej_infinity a0) then
        Ge (ge_x r0) (ge_y r0) (gej_infinity a0) :: set_all_loop r a azi
      else
        match azi with
        | zi :: azi => secp256k1_ge_set_gej_zinv a0 zi :: set_all_loop r a azi
        | [] => []
        end
  | _, _ => []
  end.

(** [mem] is what the memory for the inverses holds when it is allocated. *)
Definition secp256k1_ge_set_all_gej_var (r : list secp256k1_ge) (a : list secp256k1_gej)
  (mem : nat → list secp256k1_fe) : list secp256k1_ge :=
  let az := map gej_z (List.filter (λ p, negb (nonzero (gej_infinity p))) a) in
  let azi := secp256k1_fe_inv_all_var (mem (length az)) az (length az) in
  set_all_loop r a azi.

(** [while (i > 0)] of [secp256k1_ge_set_table_gej_var]. *)
Fixpoint set_table_loop (a : list secp256k1_gej) (zr : list secp256k1_fe) (r : list secp256k1_ge)
  (zi : secp256k1_fe) (i : nat) : list secp256k1_ge :=
  match i with
  | O => r
  | S i' =>
      let zi := secp256k1_fe_mul zi (zr !!! i) in
      let r := <[i' := secp256k1_ge_set_gej_zinv (a !!! i') zi]> r in
      set_table_loop a zr r zi i'
  end.

Definition secp256k1_ge_set_table_gej_var (r : list secp256k1_ge) (a : list secp256k1_gej)
  (zr : list secp256k1_fe) (len : nat) : list secp256k1_ge :=
  if (0 <? len)%nat then
    let i := (len - 1)%nat in
    let zi := secp256k1_fe_inv (gej_z (a !!! i)) in
    let r := <[i := secp256k1_ge_set_gej_zinv (a !!! i) zi]> r in
    set_table_loop a zr r zi i
  else r.

(** [while (i > 0)] of [secp256k1_ge_globalz_set_table_gej]. *)
Fixpoint globalz_loop (len : nat) (a : list secp256k1_gej) (zr : list secp256k1_fe)
  (r : list secp256k1_ge) (zs : secp256k1_fe) (i : nat) : list secp256k1_ge :=
  match i with
  | O => r
  | S i' =>
      let zs := if (i =? len - 1)%nat then zs else secp256k1_fe_mul zs (zr !!! i) in
      let r := <[i' := secp256k1_ge_set_gej_zinv (a !!! i') zs]> r in
      globalz_loop len a zr r zs i'
  end.

Definition secp256k1_ge_globalz_set_table_gej (len : nat) (r : list secp256k1_ge)
  (globalz : secp256k1_fe) (a : list secp256k1_gej) (zr : list secp256k1_fe) :
  list secp256k1_ge * secp256k1_fe :=
  if (0 <? len)%nat then
    let i := (len - 1)%nat in
    let r := <[i := Ge (gej_x (a !!! i)) (gej_y (a !!! i)) 0]> r in
    let globalz := gej_z (a !!! i) in
    let zs := zr !!! i in
    (globalz_loop len a zr r zs i, globalz)
  else (r, globalz).

Definition secp256k1_gej_set_infinity : secp256k1_gej :=
  Gej secp256k1_fe_clear secp256k1_fe_clear secp256k1_fe_clear 1.

Definition secp256k1_gej_clear : secp256k1_gej :=
  Gej secp256k1_fe_clear secp256k1_fe_clear secp256k1_fe_clear 0.

Definition secp256k1_ge_clear : secp256k1_ge := Ge secp256k1_fe_clear secp256k1_fe_clear 0.

(** * Points with a given coordinate *)

Definition secp256k1_ge_set_xquad (x : secp256k1_fe) : secp256k1_ge * Z :=
  let x2 := secp256k1_fe_sqr x in
  let x3 := secp256k1_fe_mul x x2 in
  let c := secp256k1_fe_set_int CURVE_B in
  let c := secp256k1_fe_add c x3 in
  let '(y, ret) := secp256k1_fe_sqrt c in
  (Ge x y 0, ret).

Definition secp256k1_ge_set_xo_var (x : secp256k1_fe) (odd : Z) : secp256k1_ge * Z :=
  let '(r, ret) := secp256k1_ge_set_xquad x in
  if ret =? 0 then (r, 0)
  else
    let y := secp256k1_fe_normalize_var (ge_y r) in
    let y := if negb (secp256k1_fe_is_odd y =? odd) then secp256k1_fe_negate y 1 else y in
    (Ge (ge_x r) y (ge_infinity r), 1).

Definition secp256k1_gej_set_ge (a : secp256k1_ge) : secp256k1_gej :=
  Gej (ge_x a) (ge_y a) (secp256k1_fe_set_int 1) (ge_infinity a).

Definition secp256k1_gej_eq_x_var (x : secp256k1_fe) (a : secp256k1_gej) : Z :=
  let r := secp256k1_fe_sqr (gej_z a) in
  let r := secp256k1_fe_mul r x in
  let r2 := secp256k1_fe_normalize_weak (gej_x a) in
  secp256k1_fe_equal_var r r2.

Definition secp256k1_gej_neg (a : secp256k1_gej) : secp256k1_gej :=
  let y := secp256k1_fe_normalize_weak (gej_y a) in
  let y := secp256k1_fe_negate y 1 in
  Gej (gej_x a) y (gej_z a) (gej_infinity a).

Definition secp256k1_gej_is_infinity (a : secp256k1_gej) : Z := gej_infinity a.

Definition secp256k1_gej_is_valid_var (a : secp256k1_gej) : Z :=
  if nonzero (gej_infinity a) then 0
  else
    let y2 := secp256k1_fe_sqr (gej_y a) in
    let x3 := secp256k1_fe_sqr (gej_x a) in
    let x3 := secp256k1_fe_mul x3 (gej_x a) in
    let z2 := secp256k1_fe_sqr (gej_z a) in
    let z6 := secp256k1_fe_sqr z2 in
    let z6 := secp256k1_fe_mul z6 z2 in
    let z6 := secp256k1_fe_mul_int z6 CURVE_B in
    let x3 := secp256k1_fe_add x3 z6 in
    let x3 := secp256k1_fe_normalize_weak x3 in
    secp256k1_fe_equal_var y2 x3.

Definition secp256k1_ge_is_valid_var (a : secp256k1_ge) : Z :=
  if nonzero (ge_infinity a) then 0
  else
    let y2 := secp256k1_fe_sqr (ge_y a) in
    let x3 := secp256k1_fe_sqr (ge_x a) in
    let x3 := secp256k1_fe_mul x3 (ge_x a) in
    let c := secp256k1_fe_set_int CURVE_B in
    let x3 := secp256k1_fe_add x3 c in
    let x3 := secp256k1_fe_normalize_weak x3 in
    secp256k1_fe_equal_var y2 x3.

(** * Doubling and addition *)

(** The result, and what is stored through [rzr] if it is not NULL. *)
Definition secp256k1_gej_double_var (r a : secp256k1_gej) (rzr : bool) :
  secp256k1_gej * option secp256k1_fe :=
  if nonzero (gej_infinity a) then
    (Gej (gej_x r) (gej_y r) (gej_z r) (gej_infinity a),
     if rzr then Some (secp256k1_fe_set_int 1) else None)
  else
    let ratio := secp256k1_fe_normalize_weak (gej_y a) in
    let ratio := secp256k1_fe_mul_int ratio 2 in
    let rz := secp256k1_fe_mul (gej_z a) (gej_y a) in
    let rz := secp256k1_fe_mul_int rz 2 in
    let t1 := secp256k1_fe_sqr (gej_x a) in
    let t1 := secp256k1_fe_mul_int t1 3 in
    let t2 := secp256k1_fe_sqr t1 in
    let t3 := secp256k1_fe_sqr (gej_y a) in
    let t3 := secp256k1_fe_mul_int t3 2 in
    let t4 := secp256k1_fe_sqr t3 in
    let t4 := secp256k1_fe_mul_int t4 2 in
    let t3 := secp256k1_fe_mul t3 (gej_x a) in
    let rx := secp256k1_fe_mul_int t3 4 in
    let rx := secp256k1_fe_negate rx 4 in
    let rx := secp256k1_fe_add rx t2 in
    let t2 := secp256k1_fe_negate t2 1 in
    let t3 := secp256k1_fe_mul_int t3 6 in
    let t3 := secp256k1_fe_add t3 t2 in
    let ry := secp256k1_fe_mul t1 t3 in
    let t2 := secp256k1_fe_negate t4 2 in
    let ry := secp256k1_fe_add ry t2 in
    (Gej rx ry rz (gej_infinity a), if rzr then Some ratio else None).

Definition secp256k1_gej_double_nonzero (r a : secp256k1_gej) (rzr : bool) :
  secp256k1_gej * option secp256k1_fe := secp256k1_gej_double_var r a rzr.

Definition secp256k1_gej_add_var (r a b : secp256k1_gej) (rzr : bool) :
  secp256k1_gej * option secp256k1_fe :=
  if nonzero (gej_infinity a) then (b, None)
  else if nonzero (gej_infinity b) then
    (a, if rzr then Some (secp256k1_fe_set_int 1) else None)
  else
    let z22 := secp256k1_fe_sqr (gej_z b) in
    let z12 := secp256k1_fe_sqr (gej_z a) in
    let u1 := secp256k1_fe_mul (gej_x a) z22 in
    let u2 := secp256k1_fe_mul (gej_x b) z12 in
    let s1 := secp256k1_fe_mul (gej_y a) z22 in
    let s1 := secp256k1_fe_mul s1 (gej_z b) in
    let s2 := secp256k1_fe_mul (gej_y b) z12 in
    let s2 := secp256k1_fe_mul s2 (gej_z a) in
    let h := secp256k1_fe_negate u1 1 in
    let h := secp256k1_fe_add h u2 in
    let i := secp256k1_fe_negate s1 1 in
    let i := secp256k1_fe_add i s2 in
    if nonzero (secp256k1_fe_normalizes_to_zero_var h) then
      if nonzero (secp256k1_fe_normalizes_to_zero_var i) then secp256k1_gej_double_var r a rzr
      else (Gej (gej_x r) (gej_y r) (gej_z r) 1, if rzr then Some (secp256k1_fe_set_int 0) else None)
    else
      let i2 := secp256k1_fe_sqr i in
      let h2 := secp256k1_fe_sqr h in
      let h3 := secp256k1_fe_mul h h2 in
      let h := secp256k1_fe_mul h (gej_z b) in
      let rz := secp256k1_fe_mul (gej_z a) h in
      let t := secp256k1_fe_mul u1 h2 in
      let rx := secp256k1_fe_mul_int t 2 in
      let rx := secp256k1_fe_add rx h3 in
      let rx := secp256k1_fe_negate rx 3 in
      let rx := secp256k1_fe_add rx i2 in
      let ry := secp256k1_fe_negate rx 5 in
      let ry := secp256k1_fe_add ry t in
      let ry := secp256k1_fe_mul ry i in
      let h3 := secp256k1_fe_mul h3 s1 in
      let h3 := secp256k1_fe_negate h3 1 in
      let ry := secp256k1_fe_add ry h3 in
      (Gej rx ry rz 0, if rzr then Some h else None).

Definition secp256k1_gej_add_ge_var (r a : secp256k1_gej) (b : secp256k1_ge) (rzr : bool) :
  secp256k1_gej * option secp256k1_fe :=
  if nonzero (gej_infinity a) then (secp256k1_gej_set_ge b, None)
  else if nonzero (ge_infinity b) then
    (a, if rzr then Some (secp256k1_fe_set_int 1) else None)
  else
    let z12 := secp256k1_fe_sqr (gej_z a) in
    let u1 := secp256k1_fe_normalize_weak (gej_x a) in
    let u2 := secp256k1_fe_mul (ge_x b) z12 in
    let s1 := secp256k1_fe_normalize_weak (gej_y a) in
    let s2 := secp256k1_fe_mul (ge_y b) z12 in
    let s2 := secp256k1_fe_mul s2 (gej_z a) in
    let h := secp256k1_fe_negate u1 1 in
    let h := secp256k1_fe_add h u2 in
    let i := secp256k1_fe_negate s1 1 in
    let i := secp256k1_fe_add i s2 in
    if nonzero (secp256k1_fe_normalizes_to_zero_var h) then
      if nonzero (secp256k1_fe_normalizes_to_zero_var i) then secp256k1_gej_double_var r a rzr
      else (Gej (gej_x r) (gej_y r) (gej_z r) 1, if rzr then Some (secp256k1_fe_set_int 0) else None)
    else
      let i2 := secp256k1_fe_sqr i in
      let h2 := secp256k1_fe_sqr h in
      let h3 := secp256k1_fe_mul h h2 in
      let rz := secp256k1_fe_mul (gej_z a) h in
      let t := secp256k1_fe_mul u1 h2 in
      let rx := secp256k1_fe_mul_int t 2 in
      let rx := secp256k1_fe_add rx h3 in
      let rx := secp256k1_fe_negate rx 3 in
      let rx := secp256k1_fe_add rx i2 in
      let ry := secp256k1_fe_negate rx 5 in
      let ry := secp256k1_fe_add ry t in
      let ry := secp256k1_fe_mul ry i in
      let h3 := secp256k1_fe_mul h3 s1 in
      let h3 := secp256k1_fe_negate h3 1 in
      let ry := secp256k1_fe_add ry h3 in
      (Gej rx ry rz 0, if rzr then Some h else None).

Definition secp256k1_gej_add_zinv_var (r a : secp256k1_gej) (b : secp256k1_ge)
  (bzinv : secp256k1_fe) : secp256k1_gej :=
  if nonzero (ge_infinity b) then a
  else if nonzero (gej_infinity a) then
    let bzinv2 := secp256k1_fe_sqr bzinv in
    let bzinv3 := secp256k1_fe_mul bzinv2 bzinv in
    let rx := secp256k1_fe_mul (ge_x b) bzinv2 in
    let ry := secp256k1_fe_mul (ge_y b) bzinv3 in
    Gej rx ry (secp256k1_fe_set_int 1) (ge_infinity b)
  else
    let az := secp256k1_fe_mul (gej_z a) bzinv in
    let z12 := secp256k1_fe_sqr az in
    let u1 := secp256k1_fe_normalize_weak (gej_x a) in
    let u2 := secp256k1_fe_mul (ge_x b) z12 in
    let s1 := secp256k1_fe_normalize_weak (gej_y a) in
    let s2 := secp256k1_fe_mul (ge_y b) z12 in
    let s2 := secp256k1_fe_mul s2 az in
    let h := secp256k1_fe_negate u1 1 in
    let h := secp256k1_fe_add h u2 in
    let i := secp256k1_fe_negate s1 1 in
    let i := secp256k1_fe_add i s2 in
    if nonzero (secp256k1_fe_normalizes_to_zero_var h) then
      if nonzero (secp256k1_fe_normalizes_to_zero_var i) then (secp256k1_gej_double_var r a false).1
      else Gej (gej_x r) (gej_y r) (gej_z r) 1
    else
      let i2 := secp256k1_fe_sqr i in
      let h2 := secp256k1_fe_sqr h in
      let h3 := secp256k1_fe_mul h h2 in
      let rz := secp256k1_fe_mul (gej_z a) h in
      let t := secp256k1_fe_mul u1 h2 in
      let rx := secp256k1_fe_mul_int t 2 in
      let rx := secp256k1_fe_add rx h3 in
      let rx := secp256k1_fe_negate rx 3 in
      let rx := secp256k1_fe_add rx i2 in
      let ry := secp256k1_fe_negate rx 5 in
      let ry := secp256k1_fe_add ry t in
      let ry := secp256k1_fe_mul ry i in
      let h3 := secp256k1_fe_mul h3 s1 in
      let h3 := secp256k1_fe_negate h3 1 in
      let ry := secp256k1_fe_add ry h3 in
      Gej rx ry rz 0.

(** The addition without branches. *)
Definition secp256k1_gej_add_ge (a : secp256k1_gej) (b : secp256k1_ge) : secp256k1_gej :=
  let fe_1 := SECP256K1_FE_CONST 0 0 0 0 0 0 0 1 in
  let zz := secp256k1_fe_sqr (gej_z a) in
  let u1 := secp256k1_fe_normalize_weak (gej_x a) in
  let u2 := secp256k1_fe_mul (ge_x b) zz in
  let s1 := secp256k1_fe_normalize_weak (gej_y a) in
  let s2 := secp256k1_fe_mul (ge_y b) zz in
  let s2 := secp256k1_fe_mul s2 (gej_z a) in
  let t := secp256k1_fe_add u1 u2 in
  let m := secp256k1_fe_add s1 s2 in
  let rr := secp256k1_fe_sqr t in
  let m_alt := secp256k1_fe_negate u2 1 in
  let tt := secp256k1_fe_mul u1 m_alt in
  let rr := secp256k1_fe_add rr tt in
  let degenerate := Z.land (secp256k1_fe_normalizes_to_zero m) (secp256k1_fe_normalizes_to_zero rr) in
  let rr_alt := secp256k1_fe_mul_int s1 2 in
  let m_alt := secp256k1_fe_add m_alt u1 in
  let rr_alt := secp256k1_fe_cmov rr_alt rr (truth (degenerate =? 0)) in
  let m_alt := secp256k1_fe_cmov m_alt m (truth (degenerate =? 0)) in
  let n := secp256k1_fe_sqr m_alt in
  let q := secp256k1_fe_mul n t in
  let n := secp256k1_fe_sqr n in
  let n := secp256k1_fe_cmov n m degenerate in
  let t := secp256k1_fe_sqr rr_alt in
  let rz := secp256k1_fe_mul (gej_z a) m_alt in
  let infinity := secp256k1_fe_normalizes_to_zero rz * (1 - gej_infinity a) in
  let rz := secp256k1_fe_mul_int rz 2 in
  let q := secp256k1_fe_negate q 1 in
  let t := secp256k1_fe_add t q in
  let t := secp256k1_fe_normalize_weak t in
  let rx := t in
  let t := secp256k1_fe_mul_int t 2 in
  let t := secp256k1_fe_add t q in
  let t := secp256k1_fe_mul t rr_alt in
  let t := secp256k1_fe_add t n in
  let ry := secp256k1_fe_negate t 3 in
  let ry := secp256k1_fe_normalize_weak ry in
  let rx := secp256k1_fe_mul_int rx 4 in
  let ry := secp256k1_fe_mul_int ry 4 in
  let rx := secp256k1_fe_cmov rx (ge_x b) (gej_infinity a) in
  let ry := secp256k1_fe_cmov ry (ge_y b) (gej_infinity a) in
  let rz := secp256k1_fe_cmov rz fe_1 (gej_infinity a) in
  Gej rx ry rz infinity.

Definition secp256k1_gej_rescale (r : secp256k1_gej) (s : secp256k1_fe) : secp256k1_gej :=
  let zz := secp256k1_fe_sqr s in
  let x := secp256k1_fe_mul (gej_x r) zz in
  let y := secp256k1_fe_mul (gej_y r) zz in
  let y := secp256k1_fe_mul y s in
  let z := secp256k1_fe_mul (gej_z r) s in
  Gej x y z (gej_infinity r).

(** * Storage *)

Definition secp256k1_ge_to_storage (a : secp256k1_ge) : secp256k1_ge_storage :=
  let x := secp256k1_fe_normalize (ge_x a) in
  let y := secp256k1_fe_normalize (ge_y a) in
  GeStorage (secp256k1_fe_to_storage x) (secp256k1_fe_to_storage y).

Definition secp256k1_ge_from_storage (a : secp256k1_ge_storage) : secp256k1_ge :=
  Ge (secp256k1_fe_from_storage (gs_x a)) (secp256k1_fe_from_storage (gs_y a)) 0.

Definition secp256k1_ge_storage_cmov (r a : secp256k1_ge_storage) (flag : Z) : secp256k1_ge_storage :=
  GeStorage (secp256k1_fe_storage_cmov (gs_x r) (gs_x a) flag)
            (secp256k1_fe_storage_cmov (gs_y r) (gs_y a) flag).

Definition secp256k1_gej_has_quad_y_var (a : secp256k1_gej) : Z :=
  if nonzero (gej_infinity a) then 0
  else
    let yz := secp256k1_fe_mul (gej_y a) (gej_z a) in
    secp256k1_fe_is_quad_var yz.
