(* ===== verification/Secp256k1GroupProofs.v ===== *)
(** The code for points implements the addition of the curve.

    [ge_is] and [gej_is] say which point a structure stands for, in affine and in
    Jacobian coordinates.  The formulas of the code are shown to be those of the group law by
    congruences modulo the prime ([jac_double] and so on); that the limbs stay
    within the magnitudes follows step by step through the code. *)

From Stdlib Require Import ZArith Lia Strings.Byte.
From stdpp Require Import base gmap list fin_maps numbers.
From S2P Require Import Prelude Secp256k1Scalar Secp256k1Field Secp256k1FieldProofs Secp256k1FieldOps Secp256k1FieldApi Secp256k1Curve Secp256k1GroupLaw Secp256k1Group.

(** * Elements and the numbers they stand for *)

Definition fe_is (m : Z) (f : secp256k1_fe) (v : Z) : Prop := fe_mag m f ∧ fe_val f ≡ₚ v.

Lemma fe_is_self (m : Z) (f : secp256k1_fe) : fe_mag m f → fe_is m f (fe_val f).
Proof. by split. Qed.

Lemma fe_is_mono (m k : Z) (f : secp256k1_fe) (v : Z) : fe_is m f v → m ≤ k → fe_is k f v.
Proof. intros [H1 H2] Hk. split; [by apply (fe_mag_mono m)|done]. Qed.

Section Steps.
Context (m k : Z) (f g : secp256k1_fe) (v w : Z).
Hypothesis Hf : fe_is m f v.
Hypothesis Hg : fe_is k g w.

Lemma fe_is_mul : m ≤ 8 → k ≤ 8 → fe_is 1 (secp256k1_fe_mul f g) (v * w).
Proof using Hf Hg.
  destruct Hf as [F1 F2], Hg as [G1 G2]. intros.
  destruct (fe_mul_spec f g) as [E1 E2]; [by apply (fe_mag_mono m)|by apply (fe_mag_mono k)|].
  split; [done|]. by rewrite E2, F2, G2.
Qed.

Lemma fe_is_sqr : m ≤ 8 → fe_is 1 (secp256k1_fe_sqr f) (v * v).
Proof using Hf.
  destruct Hf as [F1 F2]. intros. destruct (fe_sqr_spec f) as [E1 E2]; [by apply (fe_mag_mono m)|].
  split; [done|]. by rewrite E2, F2.
Qed.

Lemma fe_is_add : 0 ≤ m → 0 ≤ k → m + k ≤ 32 → fe_is (m + k) (secp256k1_fe_add f g) (v + w).
Proof using Hf Hg.
  destruct Hf as [F1 F2], Hg as [G1 G2]. intros. destruct (fe_add_spec f g m k) as [E1 E2]; [done..|].
  split; [done|]. by rewrite E2, F2, G2.
Qed.

Lemma fe_is_negate (j : Z) : m ≤ j → 0 ≤ j ≤ 31 → fe_is (j + 1) (secp256k1_fe_negate f j) (- v).
Proof using Hf.
  destruct Hf as [F1 F2]. intros. destruct (fe_negate_spec f j) as [E1 E2]; [by apply (fe_mag_mono m)|done|].
  split; [done|]. by rewrite E2, F2.
Qed.

Lemma fe_is_mul_int (c : Z) : 0 ≤ m → 0 ≤ c → m * c ≤ 32 → fe_is (m * c) (secp256k1_fe_mul_int f c) (v * c).
Proof using Hf.
  destruct Hf as [F1 F2]. intros. destruct (fe_mul_int_spec f m c) as [E1 E2]; [done..|].
  split; [done|]. by rewrite E2, F2.
Qed.

Lemma fe_is_weak : m ≤ 31 → fe_is 1 (secp256k1_fe_normalize_weak f) v.
Proof using Hf.
  destruct Hf as [F1 F2]. intros. destruct (normalize_weak_spec f) as [E1 E2]; [by apply (fe_mag_mono m)|].
  split; [done|]. by rewrite E2.
Qed.

Lemma fe_is_zero_var : m ≤ 31 → nonzero (secp256k1_fe_normalizes_to_zero_var f) = true ↔ v ≡ₚ 0.
Proof using Hf.
  destruct Hf as [F1 F2]. intros. assert (fe_mag 31 f) by (by apply (fe_mag_mono m)).
  rewrite to_zero_var_eq, to_zero_spec by done. rewrite <- F2. unfold eqp. rewrite (Z.mod_0_l field_prime) by done.
  destruct (Z.eqb_spec (fe_val f mod field_prime) 0); by cbn.
Qed.
End Steps.

Lemma fe_is_cmov (m k : Z) (f g : secp256k1_fe) (v w : Z) :
  fe_is m f v → fe_is k g w → m ≤ 32 → k ≤ 32 →
  fe_is m (secp256k1_fe_cmov f g 0) v ∧ fe_is k (secp256k1_fe_cmov f g 1) w.
Proof.
  intros Hf Hg Hm Hk.
  pose proof (fe_cmov_spec f g m k false (proj1 Hf) (proj1 Hg) Hm Hk) as E0.
  pose proof (fe_cmov_spec f g m k true (proj1 Hf) (proj1 Hg) Hm Hk) as E1.
  cbn [truth] in E0, E1. by rewrite E0, E1.
Qed.

Lemma fe_is_zero_test (m : Z) (f : secp256k1_fe) (v : Z) :
  fe_is m f v → m ≤ 31 → secp256k1_fe_normalizes_to_zero f = truth (bool_decide (v mod field_prime = 0)).
Proof.
  intros [F1 F2] Hm. rewrite to_zero_spec by (by apply (fe_mag_mono m)). unfold eqp in F2. rewrite F2. f_equal.
  apply eq_true_iff_eq. by rewrite Z.eqb_eq, bool_decide_eq_true.
Qed.

Lemma fe_is_set_int (c : Z) : 0 ≤ c ≤ M26 → fe_is 1 (secp256k1_fe_set_int c) c.
Proof.
  intros Hc. unfold fe_is, fe_mag, fe_val, secp256k1_fe_set_int, M26 in *. cbn [fe_n val26].
  rewrite u32_small by lia. split; [limbs_bound|]. apply eq_subrelation; [typeclasses eauto|lia].
Qed.

Lemma fe_is_let {T : Type} (m : Z) (f : secp256k1_fe) (v : Z) (body : secp256k1_fe → T) (Q : T → Prop) :
  fe_is m f v → (∀ y, fe_is m y v → Q (body y)) → Q (let y := f in body y).
Proof. intros Hf Hbody. by apply Hbody. Qed.

(** Proves what the result of an operation on known elements stands for. *)
Ltac fe_op :=
  lazymatch goal with
  | |- fe_is _ (secp256k1_fe_mul ?f ?g) _ =>
      match goal with
      | Hf : fe_is ?m f ?v, Hg : fe_is ?k g ?w |- _ => exact (fe_is_mul m k f g v w Hf Hg ltac:(lia) ltac:(lia))
      end
  | Hf : fe_is ?m ?f ?v |- fe_is _ (secp256k1_fe_sqr ?f) _ => exact (fe_is_sqr m f v Hf ltac:(lia))
  | |- fe_is _ (secp256k1_fe_add ?f ?g) _ =>
      match goal with
      | Hf : fe_is ?m f ?v, Hg : fe_is ?k g ?w |- _ =>
          exact (fe_is_add m k f g v w Hf Hg ltac:(lia) ltac:(lia) ltac:(lia))
      end
  | Hf : fe_is ?m ?f ?v |- fe_is _ (secp256k1_fe_negate ?f ?j) _ =>
      exact (fe_is_negate m f v Hf j ltac:(lia) ltac:(lia))
  | Hf : fe_is ?m ?f ?v |- fe_is _ (secp256k1_fe_mul_int ?f ?c) _ =>
      exact (fe_is_mul_int m f v Hf c ltac:(lia) ltac:(lia) ltac:(lia))
  | Hf : fe_is ?m ?f ?v |- fe_is _ (secp256k1_fe_normalize_weak ?f) _ => exact (fe_is_weak m f v Hf ltac:(lia))
  | |- fe_is _ (secp256k1_fe_cmov ?f ?g 0) _ =>
      match goal with
      | Hf : fe_is ?m f ?v, Hg : fe_is ?k g ?w |- _ =>
          exact (proj1 (fe_is_cmov m k f g v w Hf Hg ltac:(lia) ltac:(lia)))
      end
  | |- fe_is _ (secp256k1_fe_cmov ?f ?g 1) _ =>
      match goal with
      | Hf : fe_is ?m f ?v, Hg : fe_is ?k g ?w |- _ =>
          exact (proj2 (fe_is_cmov m k f g v w Hf Hg ltac:(lia) ltac:(lia)))
      end
  | Hf : fe_is ?m ?f ?v |- fe_is _ ?f _ => exact Hf
  end.

(** Goes through a sequence of operations; the goal is a predicate variable of the rest. *)
Ltac fe_run :=
  repeat match goal with
  | |- ?Q (let y := ?f in @?b y) =>
      refine (fe_is_let _ f _ b Q ltac:(fe_op) _);
      let y := fresh y in let H := fresh "F" in
      intros y H; lazymatch type of H with fe_is ?m _ _ =>
        let m' := eval vm_compute in m in change m with m' in H end; cbv beta
  end.

(** * The points that structures stand for *)

Definition ge_is (a : secp256k1_ge) (P : point) : Prop :=
  match P with
  | None => ge_infinity a = 1
  | Some (x, y) => ge_infinity a = 0 ∧ fe_is 8 (ge_x a) x ∧ fe_is 8 (ge_y a) y
  end.

Definition gej_is (a : secp256k1_gej) (P : point) : Prop :=
  match P with
  | None => gej_infinity a = 1
  | Some (x, y) => gej_infinity a = 0 ∧ ∃ z, ¬ z ≡ₚ 0 ∧
      fe_is 8 (gej_z a) z ∧ fe_is 8 (gej_x a) (x * (z * z)) ∧ fe_is 8 (gej_y a) (y * (z * z * z))
  end.

Lemma fe_is_proper (m : Z) (f : secp256k1_fe) (v w : Z) : fe_is m f v → v ≡ₚ w → fe_is m f w.
Proof. intros [H1 H2] E. split; [done|]. by rewrite H2. Qed.

(** The same element, with its value written in another way. *)
Lemma fe_is_eq (m : Z) (f : secp256k1_fe) (v w : Z) : fe_is m f v → v = w → fe_is m f w.
Proof. by intros H <-. Qed.

#[global] Instance gej_is_proper (a : secp256k1_gej) : Proper (point_eq ==> iff) (gej_is a).
Proof.
  assert (∀ P Q, point_eq P Q → gej_is a P → gej_is a Q) as H.
  { intros [[x1 y1]|] [[x2 y2]|]; try done. intros [Hx Hy] (H1 & z & Hz & H2 & H3 & H4).
    split; [done|]. exists z. split_and!; [done|done|by eapply fe_is_proper; [|rewrite <- Hx]|
      by eapply fe_is_proper; [|rewrite <- Hy]]. }
  intros P Q E. split; [by apply H|]. symmetry in E. by apply H.
Qed.

Lemma third_point_gej (l x1 y1 x2 : Z) (rx ry rz : secp256k1_fe) (m k j X3 Y3 Z3 : Z) :
  fe_is m rx X3 → fe_is k ry Y3 → fe_is j rz Z3 → m ≤ 8 → k ≤ 8 → j ≤ 8 → ¬ Z3 ≡ₚ 0 →
  X3 ≡ₚ (l * l - x1 - x2) * (Z3 * Z3) →
  Y3 ≡ₚ (l * (x1 - (l * l - x1 - x2)) - y1) * (Z3 * Z3 * Z3) →
  gej_is (Gej rx ry rz 0) (third_point l x1 y1 x2).
Proof.
  intros Hx Hy Hz Hm Hk Hj Hnz EX EY. unfold third_point. cbv zeta. cbn [gej_is gej_x gej_y gej_z gej_infinity].
  pose proof (eqp_mod (l * l - x1 - x2)) as E3. set (x3 := (l * l - x1 - x2) mod field_prime) in *. clearbody x3.
  pose proof (eqp_mod (l * (x1 - x3) - y1)) as E4. set (y3 := (l * (x1 - x3) - y1) mod field_prime) in *. clearbody y3.
  split; [done|]. exists Z3. split_and!; [done|by apply (fe_is_mono j)|..].
  - apply (fe_is_proper _ _ X3); [by apply (fe_is_mono m)|]. by rewrite EX, E3.
  - apply (fe_is_proper _ _ Y3); [by apply (fe_is_mono k)|]. by rewrite EY, E4, E3.
Qed.

Lemma gej_set_ge_spec (a : secp256k1_ge) (P : point) : ge_is a P → gej_is (secp256k1_gej_set_ge a) P.
Proof.
  destruct P as [[x y]|]; cbn [ge_is gej_is gej_infinity secp256k1_gej_set_ge]; [|done].
  intros (Hi & Hx & Hy). split; [done|]. exists 1. cbn [gej_x gej_y gej_z].
  split_and!; [by apply small_nonzero|apply (fe_is_mono 1); [by apply fe_is_set_int|lia]|..];
    (eapply fe_is_eq; [eassumption|ring]).
Qed.

(** * Doubling *)

Section Double.
Context (r a : secp256k1_gej) (rzr : bool) (P : point).
Hypothesis HP : gej_is a P.
Hypothesis HC : regular P.

(** The double, and the ratio of the new [z] to the old one. *)
Lemma gej_double_spec :
  gej_is (secp256k1_gej_double_var r a rzr).1 (point_double P) ∧
  (rzr = true → ∃ f v, (secp256k1_gej_double_var r a rzr).2 = Some f ∧ fe_is 2 f v ∧
    (P ≠ None → fe_val (gej_z (secp256k1_gej_double_var r a rzr).1) ≡ₚ fe_val (gej_z a) * v)).
Proof using HP HC.
  enough (∀ Q : secp256k1_gej * option secp256k1_fe → Prop,
    (∀ g o, gej_is g (point_double P) →
      (rzr = true → ∃ f v, o = Some f ∧ fe_is 2 f v ∧ (P ≠ None → fe_val (gej_z g) ≡ₚ fe_val (gej_z a) * v)) →
      Q (g, o)) → Q (secp256k1_gej_double_var r a rzr)) as HQ by (by apply HQ).
  intros Q HQ. cbv beta delta [secp256k1_gej_double_var]. destruct P as [[x y]|]; cbn [gej_is] in HP.
  - destruct HP as (Hi & z & Hz & Fz & Fx & Fy). rewrite Hi. change (nonzero 0) with false. cbv iota.
    pose proof HC as Hy. cbn [regular] in Hy.
    fe_run. apply HQ.
    + unfold point_double. rewrite decide_False by done.
      pose proof (tangent_slope x y Hy) as Hl. set (l := 3 * (x * x) * fp_inv (2 * y)) in *. clearbody l.
      destruct (jac_double x y z l _ _ (reflexivity _) (reflexivity _) Hl) as [EX EY].
      eapply third_point_gej; [eassumption..|lia|lia|lia| |eapply eqp_of_eq; [exact EX|ring|ring]|
        eapply eqp_of_eq; [exact EY|ring|ring]].
      repeat apply eqp_mul_nonzero; try done; by apply small_nonzero.
    + intros ->. eexists ratio0, _. split_and!; [done|done|]. intros _. cbn [gej_z].
      rewrite (proj2 F2), (proj2 Fz). apply eq_subrelation; [typeclasses eauto|ring].
  - rewrite HP. change (nonzero 1) with true. cbv iota. apply HQ; [done|]. intros ->.
    eexists _, 1. split_and!; [done| |done]. apply (fe_is_mono 1); [by apply fe_is_set_int|lia].
Qed.
End Double.

(** * Addition *)

(** Comparing scaled coordinates. *)
Lemma scaled_difference (w x1 x2 v : Z) : ¬ w ≡ₚ 0 → v = w * (x2 - x1) → v ≡ₚ 0 ↔ x1 ≡ₚ x2.
Proof.
  intros Hw ->. split.
  - intros [?|H]%eqp_mul_zero; [done|]. symmetry. by apply eqp_sub_zero.
  - intros H. rewrite H, Z.sub_diag. by rewrite Z.mul_0_r.
Qed.

(** The end of an addition of points with different first coordinates. *)
Lemma add_generic (x1 y1 x2 y2 z u1 s1 h i X3 Y3 Z3 : Z) (rx ry rz : secp256k1_fe) (m k j : Z) :
  ¬ x1 ≡ₚ x2 → ¬ z ≡ₚ 0 → fe_is m rx X3 → fe_is k ry Y3 → fe_is j rz Z3 → m ≤ 8 → k ≤ 8 → j ≤ 8 →
  u1 = x1 * (z * z) → s1 = y1 * (z * z * z) → h = x2 * (z * z) - u1 → i = y2 * (z * z * z) - s1 →
  Z3 = z * h → X3 = i * i - h * h * h - 2 * (u1 * (h * h)) →
  Y3 = i * (u1 * (h * h) - X3) - s1 * (h * h * h) →
  gej_is (Gej rx ry rz 0) (point_add (Some (x1, y1)) (Some (x2, y2))).
Proof.
  intros Hx Hz Fx Fy Fz Hm Hk Hj Eu Es Eh Ei EZ EX EY. unfold point_add. rewrite decide_False by done.
  pose proof (chord_slope x1 y1 x2 y2 Hx) as Hl. set (l := (y2 - y1) * fp_inv (x2 - x1)) in *. clearbody l.
  destruct (jac_add x1 y1 x2 y2 z l u1 s1 (x2 * (z * z)) (y2 * (z * z * z))) as [JX JY];
    [by rewrite Eu|done|by rewrite Es|done|done|].
  cbv zeta in JX, JY. rewrite <- Eh in JX, JY. rewrite <- Ei in JX, JY.
  rewrite <- EX in JX, JY. rewrite <- EY in JY. rewrite <- EZ in JX, JY.
  eapply third_point_gej; [eassumption..|exact Hm|exact Hk|exact Hj| |exact JX|exact JY].
  rewrite EZ. apply eqp_mul_nonzero; [done|]. rewrite Eh, Eu. intros H. apply Hx.
  eapply scaled_difference; [| |exact H]; [apply (eqp_mul_nonzero z z Hz Hz)|ring].
Qed.

(** What an addition leaves: the sum, and the ratio of the new [z] to the old one unless one
    of the points or their sum is at infinity. *)
Definition adds (a : secp256k1_gej) (P Q : point) (rzr : bool) (res : secp256k1_gej * option secp256k1_fe) : Prop :=
  gej_is res.1 (point_add P Q) ∧
  (rzr = true → P ≠ None → point_add P Q ≠ None →
    ∃ f v, res.2 = Some f ∧ fe_is 3 f v ∧ fe_val (gej_z res.1) ≡ₚ fe_val (gej_z a) * v).

(** Adding a point to the point at infinity and the other way round. *)
Lemma adds_infinity (a : secp256k1_gej) (Q : point) (rzr : bool) (res : secp256k1_gej * option secp256k1_fe) :
  gej_is res.1 Q → adds a None Q rzr res.
Proof. intros H. split; [exact H|done]. Qed.

Lemma adds_infinity' (a : secp256k1_gej) (P : point) (rzr : bool) :
  gej_is a P → adds a P None rzr (a, if rzr then Some (secp256k1_fe_set_int 1) else None).
Proof.
  intros HP. split; [cbn [fst]; by destruct P as [[x y]|]|]. intros -> _ _.
  eexists _, 1. split_and!; [done|apply (fe_is_mono 1); [by apply fe_is_set_int|lia]|].
  cbn [fst]. by rewrite Z.mul_1_r.
Qed.

(** The same point, and opposite points. *)
Lemma adds_double (r a : secp256k1_gej) (rzr : bool) (x1 y1 x2 y2 : Z) :
  gej_is a (Some (x1, y1)) → regular (Some (x1, y1)) → x1 ≡ₚ x2 → y1 ≡ₚ y2 →
  adds a (Some (x1, y1)) (Some (x2, y2)) rzr (secp256k1_gej_double_var r a rzr).
Proof.
  intros HP CP Hx Hy. pose proof (gej_double_spec r a rzr _ HP CP) as [H1 H2]. unfold adds.
  rewrite point_add_same by done. split; [done|]. intros Hr _ _.
  destruct (H2 Hr) as (f & v & E & Hf & Hv). exists f, v.
  split_and!; [done|by apply (fe_is_mono 2); [|lia]|by apply Hv].
Qed.

Lemma adds_opposite (r a : secp256k1_gej) (rzr : bool) (x1 y1 x2 y2 : Z) (o : option secp256k1_fe) :
  x1 ≡ₚ x2 → ¬ y1 ≡ₚ y2 → adds a (Some (x1, y1)) (Some (x2, y2)) rzr (Gej (gej_x r) (gej_y r) (gej_z r) 1, o).
Proof. intros Hx Hy. unfold adds. rewrite point_add_same_x by done. by split. Qed.

(** The three cases after [h] and [i] are computed, from coordinates scaled by [z]. *)
Lemma add_cases {T : Type} (R : T → Prop) (dbl opp rest : T) (h i : secp256k1_fe) (m k x1 y1 x2 y2 z vh vi : Z) :
  ¬ z ≡ₚ 0 → fe_is m h vh → fe_is k i vi → m ≤ 31 → k ≤ 31 →
  vh = z * z * (x2 - x1) → vi = z * z * z * (y2 - y1) →
  (x1 ≡ₚ x2 → y1 ≡ₚ y2 → R dbl) → (x1 ≡ₚ x2 → ¬ y1 ≡ₚ y2 → R opp) → (¬ x1 ≡ₚ x2 → R rest) →
  R (if nonzero (secp256k1_fe_normalizes_to_zero_var h) then
       if nonzero (secp256k1_fe_normalizes_to_zero_var i) then dbl else opp
     else rest).
Proof.
  intros Hz Fh Fi Hm Hk Eh Ei Hd Ho Hr.
  assert (nonzero (secp256k1_fe_normalizes_to_zero_var h) = true ↔ x1 ≡ₚ x2) as Th.
  { rewrite (fe_is_zero_var _ _ _ Fh) by lia.
    apply (scaled_difference (z * z)); [by apply eqp_mul_nonzero|done]. }
  assert (nonzero (secp256k1_fe_normalizes_to_zero_var i) = true ↔ y1 ≡ₚ y2) as Ti.
  { rewrite (fe_is_zero_var _ _ _ Fi) by lia.
    apply (scaled_difference (z * z * z)); [by repeat apply eqp_mul_nonzero|done]. }
  destruct (nonzero (secp256k1_fe_normalizes_to_zero_var h)); [|apply Hr; by rewrite <- Th].
  destruct (nonzero (secp256k1_fe_normalizes_to_zero_var i)); [apply Hd|apply Ho]; try (by apply Th);
    [by apply Ti|by rewrite <- Ti].
Qed.

Lemma gej_add_spec (r a b : secp256k1_gej) (rzr : bool) (P Q : point) :
  gej_is a P → regular P → gej_is b Q → adds a P Q rzr (secp256k1_gej_add_var r a b rzr).
Proof.
  intros HP CP HQ. cbv beta delta [secp256k1_gej_add_var]. pose proof HP as HP'.
  destruct P as [[x1 y1]|]; cbn [gej_is] in HP;
    [|rewrite HP; change (nonzero 1) with true; cbv iota; by apply adds_infinity].
  destruct HP as (Hi & z1 & Hz1 & Fz1 & Fx1 & Fy1). rewrite Hi. change (nonzero 0) with false. cbv iota.
  destruct Q as [[x2 y2]|]; cbn [gej_is] in HQ;
    [|rewrite HQ; change (nonzero 1) with true; cbv iota; by apply adds_infinity'].
  destruct HQ as (Hj & z2 & Hz2 & Fz2 & Fx2 & Fy2). rewrite Hj. change (nonzero 0) with false. cbv iota.
  fe_run. pose proof (eqp_mul_nonzero _ _ Hz1 Hz2) as Hz.
  eapply (add_cases _ _ _ _ _ _ _ _ x1 y1 x2 y2 (z1 * z2)); [exact Hz|eassumption|eassumption|lia|lia|ring|ring|
    by apply adds_double|by apply adds_opposite|intros Hx]. fe_run. split.
  - eapply (add_generic x1 y1 x2 y2 (z1 * z2)); [exact Hx|exact Hz|eassumption..|lia|lia|lia|
      reflexivity|reflexivity|reflexivity|reflexivity|ring|ring|ring].
  - intros -> _ _. eexists _, _. split_and!; [reflexivity|eapply fe_is_mono; [eassumption|lia]|].
    cbn [fst gej_z]. match goal with F : fe_is _ rz _ |- _ => by rewrite (proj2 F), (proj2 Fz1) end.
Qed.

Lemma gej_add_ge_var_spec (r a : secp256k1_gej) (b : secp256k1_ge) (rzr : bool) (P Q : point) :
  gej_is a P → regular P → ge_is b Q → adds a P Q rzr (secp256k1_gej_add_ge_var r a b rzr).
Proof.
  intros HP CP HQ. cbv beta delta [secp256k1_gej_add_ge_var]. pose proof HP as HP'.
  destruct P as [[x1 y1]|]; cbn [gej_is] in HP.
  2:{ rewrite HP. change (nonzero 1) with true. cbv iota. apply adds_infinity. by apply gej_set_ge_spec. }
  destruct HP as (Hi & z1 & Hz1 & Fz1 & Fx1 & Fy1). rewrite Hi. change (nonzero 0) with false. cbv iota.
  destruct Q as [[x2 y2]|]; cbn [ge_is] in HQ;
    [|rewrite HQ; change (nonzero 1) with true; cbv iota; by apply adds_infinity'].
  destruct HQ as (Hj & Fx2 & Fy2). rewrite Hj. change (nonzero 0) with false. cbv iota. fe_run.
  eapply (add_cases _ _ _ _ _ _ _ _ x1 y1 x2 y2 z1); [exact Hz1|eassumption|eassumption|lia|lia|ring|ring|
    by apply adds_double|by apply adds_opposite|intros Hx]. fe_run. split.
  - eapply (add_generic x1 y1 x2 y2 z1); [exact Hx|exact Hz1|eassumption..|lia|lia|lia|
      reflexivity|reflexivity|reflexivity|reflexivity|ring|ring|ring].
  - intros -> _ _. eexists _, _. split_and!; [reflexivity|eapply fe_is_mono; [eassumption|lia]|].
    cbn [fst gej_z]. match goal with F : fe_is _ rz _ |- _ => by rewrite (proj2 F), (proj2 Fz1) end.
Qed.

(** The point that an affine structure stands for if it is scaled by [bzinv]. *)
Definition ge_zinv_is (b : secp256k1_ge) (bzinv : secp256k1_fe) (Q : point) : Prop :=
  match Q with
  | None => ge_infinity b = 1
  | Some (x, y) => ge_infinity b = 0 ∧ ∃ w bx by_, ¬ w ≡ₚ 0 ∧ fe_is 8 bzinv w ∧
      fe_is 8 (ge_x b) bx ∧ fe_is 8 (ge_y b) by_ ∧ x = bx * (w * w) ∧ y = by_ * (w * w * w)
  end.

Lemma gej_add_zinv_spec (r a : secp256k1_gej) (b : secp256k1_ge) (bzinv : secp256k1_fe) (P Q : point) :
  gej_is a P → regular P → ge_zinv_is b bzinv Q →
  gej_is (secp256k1_gej_add_zinv_var r a b bzinv) (point_add P Q).
Proof.
  intros HP CP HQ. change ((λ g, gej_is g (point_add P Q)) (secp256k1_gej_add_zinv_var r a b bzinv)).
  set (R := λ g, gej_is g (point_add P Q)). cbv beta delta [secp256k1_gej_add_zinv_var].
  destruct Q as [[x2 y2]|]; cbn [ge_zinv_is] in HQ.
  2:{ rewrite HQ. change (nonzero 1) with true. cbv iota. subst R. by destruct P as [[x1 y1]|]. }
  destruct HQ as (Hj & w & bx & by_ & Hw & Fw & Fx2 & Fy2 & -> & ->). rewrite Hj. change (nonzero 0) with false. cbv iota.
  pose proof HP as HP'. destruct P as [[x1 y1]|]; cbn [gej_is] in HP.
  - destruct HP as (Hi & z1 & Hz1 & Fz1 & Fx1 & Fy1). rewrite Hi. change (nonzero 0) with false. cbv iota. fe_run.
    eapply (add_cases _ _ _ _ _ _ _ _ x1 y1 (bx * (w * w)) (by_ * (w * w * w)) z1);
      [exact Hz1|eassumption|eassumption|lia|lia|ring|ring| | |intros Hx].
    + intros. subst R. cbv beta. rewrite point_add_same by done. by apply gej_double_spec.
    + intros. subst R. cbv beta. by rewrite point_add_same_x.
    + fe_run. subst R. cbv beta.
      eapply (add_generic x1 y1 (bx * (w * w)) (by_ * (w * w * w)) z1); [exact Hx|exact Hz1|eassumption..|lia|lia|lia|
        reflexivity|reflexivity|reflexivity|reflexivity|ring|ring|ring].
  - rewrite HP. change (nonzero 1) with true. cbv iota. fe_run. subst R. cbv beta.
    cbn [point_add gej_is gej_infinity gej_x gej_y gej_z]. split; [done|]. exists 1.
    split_and!; [by apply small_nonzero|apply (fe_is_mono 1); [by apply fe_is_set_int|lia]|..];
      (eapply fe_is_mono; [|apply (Z.le_trans _ 1); [reflexivity|lia]]); eapply fe_is_eq; [eassumption|ring|eassumption|ring].
Qed.

(** * Addition without branches *)

(** The unified formulas: [R] and [M] are [x1^2 + x1 x2 + x2^2] and [y1 + y2], scaled. *)
Lemma jac_unified (x1 y1 x2 y2 z l R M T : Z) :
  l * (y1 + y2) ≡ₚ x1 * x1 + x1 * x2 + x2 * x2 → l * (x2 - x1) ≡ₚ y2 - y1 →
  R = (x1 * x1 + x1 * x2 + x2 * x2) * (z * z * z * z) → M = (y1 + y2) * (z * z * z) → T = (x1 + x2) * (z * z) →
  let Q := M * M * T in
  let Z3 := z * M * 2 in
  (R * R - Q) * 4 ≡ₚ (l * l - x1 - x2) * (Z3 * Z3) ∧
  - (((R * R - Q) * 2 - Q) * R + M * M * (M * M)) * 4 ≡ₚ
    (l * (x1 - (l * l - x1 - x2)) - y1) * (Z3 * Z3 * Z3).
Proof.
  intros Hl Hc -> -> ->. cbv zeta. set (m := y1 + y2) in *. set (R0 := x1 * x1 + x1 * x2 + x2 * x2) in *. split.
  - apply (eqp_comb1 (- 4 * z ^ 8 * (R0 + l * m)) _ _ _ _ Hl). ring.
  - apply (eqp_comb2 (4 * z ^ 12 * (2 * (R0 * R0 + R0 * (l * m) + l * m * (l * m)) - 3 * (x1 + x2) * m * m))
      (4 * m ^ 3 * z ^ 12) _ _ _ _ _ _ Hl Hc). subst m. ring.
Qed.

(** The other slope, [2 y1 / (x1 - x2)], where [y1 + y2 = 0]. *)
Lemma jac_degenerate (x1 y1 x2 y2 z l R M T N : Z) :
  l * (x2 - x1) ≡ₚ y2 - y1 → y1 + y2 ≡ₚ 0 →
  R = 2 * y1 * (z * z * z) → M = (x1 - x2) * (z * z) → T = (x1 + x2) * (z * z) → N = (y1 + y2) * (z * z * z) →
  let Q := M * M * T in
  let Z3 := z * M * 2 in
  (R * R - Q) * 4 ≡ₚ (l * l - x1 - x2) * (Z3 * Z3) ∧
  - (((R * R - Q) * 2 - Q) * R + N) * 4 ≡ₚ (l * (x1 - (l * l - x1 - x2)) - y1) * (Z3 * Z3 * Z3).
Proof.
  intros Hc Hm -> -> -> ->. cbv zeta. split.
  - apply (eqp_comb2 (4 * z ^ 6 * (2 * y1 + l * (x1 - x2))) (4 * z ^ 6 * (2 * y1 + l * (x1 - x2)))
      _ _ _ _ _ _ Hc Hm). ring.
  - set (K := 4 * z ^ 9 * (3 * (x1 + x2) * (x1 - x2) ^ 2 + (x1 - x2) ^ 3 -
      2 * ((2 * y1) ^ 2 + 2 * y1 * (l * (x1 - x2)) + (l * (x1 - x2)) ^ 2))).
    apply (eqp_comb2 K (K - 4 * z ^ 3) _ _ _ _ _ _ Hc Hm). subst K. ring.
Qed.

(** What the addition without branches needs of a point: the coordinates of the point at infinity
    are computed with too. *)
Definition gej_mag (a : secp256k1_gej) : Prop :=
  fe_mag 8 (gej_x a) ∧ fe_mag 8 (gej_y a) ∧ fe_mag 8 (gej_z a).

Lemma let_intro {T U : Type} (e : U) (body : U → T) (Q : T → Prop) :
  (∀ y, y = e → Q (body y)) → Q (let y := e in body y).
Proof. intros H. by apply H. Qed.

Ltac let_any H :=
  match goal with
  | |- ?Q (let y := ?e in @?b y) => refine (let_intro e b Q _); let y := fresh y in intros y H; cbv beta
  end.

Lemma fe_is_zero_dec (m : Z) (f : secp256k1_fe) (v : Z) : fe_is m f v → m ≤ 31 →
  v ≡ₚ 0 ∧ secp256k1_fe_normalizes_to_zero f = 1 ∨ ¬ v ≡ₚ 0 ∧ secp256k1_fe_normalizes_to_zero f = 0.
Proof.
  intros F Hm. rewrite (fe_is_zero_test _ _ _ F Hm). unfold eqp. rewrite (Z.mod_0_l field_prime) by done.
  case_bool_decide; [by left|by right].
Qed.

Lemma fe_is_one : fe_is 1 (SECP256K1_FE_CONST 0 0 0 0 0 0 0 1) 1.
Proof.
  split; [|by vm_compute]. repeat (constructor; [vm_compute; split; discriminate|]); constructor.
Qed.

(** The last steps of the addition without branches, for a finite sum with slope [l]. *)
Lemma unified_sum (x1 y1 x2 y2 l X3 Y3 Z3 : Z) (rx ry rz : secp256k1_fe) (m k j : Z) (P : point) :
  fe_is m rx X3 → fe_is k ry Y3 → fe_is j rz Z3 → m ≤ 8 → k ≤ 8 → j ≤ 8 → ¬ Z3 ≡ₚ 0 →
  point_eq P (third_point l x1 y1 x2) →
  X3 ≡ₚ (l * l - x1 - x2) * (Z3 * Z3) ∧ Y3 ≡ₚ (l * (x1 - (l * l - x1 - x2)) - y1) * (Z3 * Z3 * Z3) →
  gej_is (Gej rx ry rz 0) P.
Proof. intros ??????? -> [??]. by eapply third_point_gej. Qed.

Lemma scaled_zero (w x v : Z) : ¬ w ≡ₚ 0 → v = w * x → v ≡ₚ 0 ↔ x ≡ₚ 0.
Proof.
  intros Hw ->. split; [by intros [?|H]%eqp_mul_zero|]. intros H. rewrite H. by rewrite Z.mul_0_r.
Qed.

Lemma degenerate_dec (m k : Z) (f g : secp256k1_fe) (v w : Z) : fe_is m f v → fe_is k g w → m ≤ 31 → k ≤ 31 →
  let d := Z.land (secp256k1_fe_normalizes_to_zero f) (secp256k1_fe_normalizes_to_zero g) in
  v ≡ₚ 0 ∧ w ≡ₚ 0 ∧ d = 1 ∨ (v ≡ₚ 0 → ¬ w ≡ₚ 0) ∧ d = 0.
Proof.
  intros Hf Hg Hm Hk. destruct (fe_is_zero_dec _ _ _ Hf Hm) as [[? ->]|[? ->]],
    (fe_is_zero_dec _ _ _ Hg Hk) as [[? ->]|[? ->]]; [by left|by right..].
Qed.

(** The sum of finite points, by either slope. *)
Lemma gej_add_ge_finite (a : secp256k1_gej) (b : secp256k1_ge) (x1 y1 x2 y2 : Z) :
  gej_is a (Some (x1, y1)) → on_curve (Some (x1, y1)) → ge_is b (Some (x2, y2)) → on_curve (Some (x2, y2)) →
  gej_is (secp256k1_gej_add_ge a b) (point_add (Some (x1, y1)) (Some (x2, y2))).
Proof.
  intros (Hi & z & Hz & Fz & Fx1 & Fy1) CP (_ & Fx2 & Fy2) CQ.
  set (S := point_add (Some (x1, y1)) (Some (x2, y2))).
  change ((λ g, gej_is g S) (secp256k1_gej_add_ge a b)). set (R := λ g, gej_is g S).
  cbv beta delta [secp256k1_gej_add_ge]. rewrite Hi. let_any E1. pose proof fe_is_one as F1. rewrite <- E1 in F1.
  clear E1. fe_run. let_any Ed.
  assert (¬ z * z * z ≡ₚ 0) as Hz3 by (by repeat apply eqp_mul_nonzero).
  assert (¬ z * z ≡ₚ 0) as Hz2 by (by repeat apply eqp_mul_nonzero).
  assert (¬ z * z * z * z ≡ₚ 0) as Hz4 by (by repeat apply eqp_mul_nonzero).
  pose proof (scaled_zero (z * z * z) (y1 + y2) (y1 * (z * z * z) + y2 * (z * z) * z) Hz3 ltac:(ring)) as Zm.
  destruct (degenerate_dec _ _ _ _ _ _ F7 F11 ltac:(lia) ltac:(lia)) as [(Em & Er & Td)|(Er & Td)];
    cbv zeta in Td; rewrite Td in Ed; rewrite Ed; clear Ed Td; rewrite Zm in *;
    [change (truth (1 =? 0)) with 0|change (truth (0 =? 0)) with 1]; fe_run; let_any Ei;
    match type of Ei with _ = _ ?rz * _ =>
      match goal with F : fe_is _ rz _ |- _ =>
        destruct (fe_is_zero_dec _ _ _ F ltac:(lia)) as [[Ez Tz]|[Ez Tz]]
      end
    end; rewrite Tz in Ei; vm_compute in Ei; rewrite Ei; clear Ei Tz; fe_run; subst R; cbv beta.
  - subst S. rewrite unified_opposite; [done|done|done|done|]. right. symmetry.
    apply (scaled_difference (z * z * z) x2 x1 _ Hz3) in Ez; [done|ring].
  - assert (¬ x1 ≡ₚ x2) as Hx.
    { intros E. apply Ez. apply (scaled_difference (z * z * z) x2 x1 _ Hz3); [ring|done]. }
    set (l := (y2 - y1) * fp_inv (x2 - x1)).
    eapply (unified_sum x1 y1 x2 y2 l); [eassumption..|lia|lia|lia| | |].
    + apply eqp_mul_nonzero; [done|by apply small_nonzero].
    + subst S. unfold point_add. by rewrite decide_False.
    + destruct (jac_degenerate x1 y1 x2 y2 z l _ _ _ _ (chord_slope x1 y1 x2 y2 Hx) Em
        eq_refl eq_refl eq_refl eq_refl) as [EX EY].
      split; [eapply eqp_of_eq; [exact EX|ring|ring]|eapply eqp_of_eq; [exact EY|ring|ring]].
  - subst S. apply (scaled_zero (z * (z * z * z)) (y1 + y2)) in Ez; [|by apply eqp_mul_nonzero|ring].
    rewrite unified_opposite; [done|done|done|done|]. left. intros E. apply (Er Ez).
    apply (scaled_zero (z * z * z * z) (x1 * x1 + x1 * x2 + x2 * x2) _ Hz4); [ring|done].
  - assert (¬ y1 + y2 ≡ₚ 0) as Hy.
    { intros E. apply Ez. apply (scaled_zero (z * (z * z * z)) (y1 + y2)); [by apply eqp_mul_nonzero|ring|done]. }
    set (l := (x1 * x1 + x1 * x2 + x2 * x2) * fp_inv (y1 + y2)).
    assert (l * (y1 + y2) ≡ₚ x1 * x1 + x1 * x2 + x2 * x2) as Hl by (by apply slope_eq).
    clearbody l. eapply (unified_sum x1 y1 x2 y2 l); [eassumption..|lia|lia|lia| | |].
    + apply eqp_mul_nonzero; [done|by apply small_nonzero].
    + subst S. by apply unified_slope.
    + pose proof CP as CP'. pose proof CQ as CQ'. cbn [on_curve] in CP', CQ'.
      destruct (jac_unified x1 y1 x2 y2 z l _ _ _ Hl (unified_chord _ _ _ _ _ CP' CQ' Hy Hl)
        eq_refl eq_refl eq_refl) as [EX EY].
      split; [eapply eqp_of_eq; [exact EX|ring|ring]|eapply eqp_of_eq; [exact EY|ring|ring]].
Qed.

Lemma gej_add_ge_spec (a : secp256k1_gej) (b : secp256k1_ge) (P : point) (x2 y2 : Z) :
  gej_is a P → gej_mag a → on_curve P → ge_is b (Some (x2, y2)) → on_curve (Some (x2, y2)) →
  gej_is (secp256k1_gej_add_ge a b) (point_add P (Some (x2, y2))).
Proof.
  intros HP (Mx & My & Mz) CP HQ CQ. destruct P as [[x1 y1]|]; [by apply gej_add_ge_finite|].
  destruct HQ as (_ & Fx2 & Fy2). cbn [gej_is] in HP. cbn [point_add].
  apply fe_is_self in Mx, My, Mz.
  change ((λ g, gej_is g (Some (x2, y2))) (secp256k1_gej_add_ge a b)).
  set (R := λ g, gej_is g (Some (x2, y2))). cbv beta delta [secp256k1_gej_add_ge]. rewrite HP.
  let_any E1. pose proof fe_is_one as F1. rewrite <- E1 in F1. clear E1. fe_run. let_any Ed.
  destruct (degenerate_dec _ _ _ _ _ _ F7 F11 ltac:(lia) ltac:(lia)) as [(_ & _ & Td)|(_ & Td)];
    cbv zeta in Td; rewrite Td in Ed; rewrite Ed; clear Ed Td;
    [change (truth (1 =? 0)) with 0|change (truth (0 =? 0)) with 1]; fe_run; let_any Ei;
    rewrite Z.mul_0_r in Ei; rewrite Ei; clear Ei; fe_run; subst R; cbv beta;
    cbn [gej_is gej_infinity gej_x gej_y gej_z]; (split; [done|]); exists 1;
    (split_and!; [by apply small_nonzero|eapply fe_is_mono; [eassumption|lia]|
      eapply fe_is_eq; [eassumption|ring]..]).
Qed.
