(* ===== verification/Secp256k1GroupApi.v ===== *)
(** Conversions between the coordinates of points, points with a given coordinate, tests and storage.

    The lemmas say which point ([ge_is], [gej_is]) each function of group_impl.h leaves in
    its result; the theorems at the end gather them. *)

From Stdlib Require Import ZArith Lia Strings.Byte.
From stdpp Require Import base gmap list fin_maps numbers.
From S2P Require Import Prelude Secp256k1Scalar Secp256k1Field Secp256k1FieldProofs Secp256k1FieldOps Secp256k1FieldApi Secp256k1Curve Secp256k1GroupLaw Secp256k1Group Secp256k1GroupProofs.

(** * To affine coordinates *)

Section Inverse.
Context (x y z w : Z).
Hypothesis Hzw : w * z ≡ₚ 1.

Lemma affine_x : x * (z * z) * (w * w) ≡ₚ x.
Proof using Hzw. apply (eqp_comb1 (x * (z * w + 1)) _ _ _ _ Hzw). ring. Qed.

Lemma affine_y : y * (z * z * z) * (w * w * w) ≡ₚ y.
Proof using Hzw. apply (eqp_comb1 (y * (z * w * (z * w) + z * w + 1)) _ _ _ _ Hzw). ring. Qed.
End Inverse.

(** The coordinates of a structure stand for a point with [z], whatever its own [z] is. *)
Definition coords_are (a : secp256k1_gej) (z : Z) (Q : Z * Z) : Prop :=
  gej_infinity a = 0 ∧ ¬ z ≡ₚ 0 ∧ fe_is 8 (gej_x a) (Q.1 * (z * z)) ∧ fe_is 8 (gej_y a) (Q.2 * (z * z * z)).

Lemma gej_is_coords (a : secp256k1_gej) (x y : Z) :
  gej_is a (Some (x, y)) ↔ fe_mag 8 (gej_z a) ∧ coords_are a (fe_val (gej_z a)) (x, y).
Proof.
  unfold coords_are. cbn [fst snd]. split.
  - intros (Hi & z & Hz & Fz & Fx & Fy). pose proof (proj2 Fz) as Ez. split_and!; [apply Fz|done|by rewrite Ez| |];
      (eapply fe_is_proper; [eassumption|by rewrite Ez]).
  - intros (Mz & Hi & Hz & Fx & Fy). split; [done|]. exists (fe_val (gej_z a)). split_and!; [done|by apply fe_is_self|done..].
Qed.

Lemma set_gej_zinv_coords (a : secp256k1_gej) (zi : secp256k1_fe) (z : Z) (Q : Z * Z) :
  coords_are a z Q → fe_mag 8 zi → fe_val zi * z ≡ₚ 1 → ge_is (secp256k1_ge_set_gej_zinv a zi) (Some Q).
Proof.
  destruct Q as [x y]. intros (Hi & Hz & Fx & Fy) Hzi Hinv. cbn [fst snd] in Fx, Fy. apply fe_is_self in Hzi.
  change ((λ g, ge_is g (Some (x, y))) (secp256k1_ge_set_gej_zinv a zi)). set (R := λ g, ge_is g _).
  cbv beta delta [secp256k1_ge_set_gej_zinv]. fe_run. subst R. cbv beta. cbn [ge_is ge_infinity ge_x ge_y].
  split_and!; [done|..]; (eapply fe_is_mono; [|apply (Z.le_trans _ 1); [reflexivity|lia]]);
    (eapply fe_is_proper; [eassumption|]); [by apply affine_x|by apply affine_y].
Qed.

Lemma ge_set_gej_zinv_spec (a : secp256k1_gej) (zi : secp256k1_fe) (P : point) :
  gej_is a P → fe_mag 8 zi → fe_val zi * fe_val (gej_z a) ≡ₚ 1 → ge_is (secp256k1_ge_set_gej_zinv a zi) P.
Proof.
  intros HP Hzi Hinv. destruct P as [[x y]|]; [|exact HP]. apply gej_is_coords in HP as [_ HP].
  by apply (set_gej_zinv_coords _ _ (fe_val (gej_z a))).
Qed.

Lemma gej_one_spec (a : secp256k1_gej) (x y : Z) :
  gej_infinity a = 0 → fe_is 1 (gej_z a) 1 → fe_is 8 (gej_x a) x → fe_is 8 (gej_y a) y → gej_is a (Some (x, y)).
Proof.
  intros Hi Hz Hx Hy. split; [done|]. exists 1.
  split_and!; [by apply small_nonzero|by apply (fe_is_mono 1)|eapply fe_is_eq; [eassumption|ring]..].
Qed.

Lemma ge_set_gej_spec (a : secp256k1_gej) (P : point) :
  gej_is a P → ge_is (secp256k1_ge_set_gej a).1 P ∧ gej_is (secp256k1_ge_set_gej a).2 P.
Proof.
  intros HP. destruct P as [[x y]|]; [|by split]. destruct HP as (Hi & z & Hz & Fz & Fx & Fy).
  change ((λ g, ge_is g.1 (Some (x, y)) ∧ gej_is g.2 (Some (x, y))) (secp256k1_ge_set_gej a)).
  set (R := λ g, _). cbv beta delta [secp256k1_ge_set_gej].
  pose proof (fe_inv_nonzero _ (proj1 Fz)) as Hinv. rewrite (proj2 Fz) in Hinv. specialize (Hinv Hz).
  destruct (fe_inv_spec _ (proj1 Fz)) as [Mw _]. apply fe_is_self in Mw.
  pose proof (fe_is_set_int 1 ltac:(unfold M26; lia)) as F1. fe_run. subst R. cbv beta. cbn [fst snd].
  assert (fe_is 8 x0 x) as Gx by (eapply fe_is_mono; [eapply fe_is_proper; [eassumption|exact (affine_x _ _ _ Hinv)]|lia]).
  assert (fe_is 8 y0 y) as Gy.
  { eapply fe_is_mono; [eapply fe_is_proper; [eassumption|]|lia]. rewrite (Z.mul_assoc (fe_val _)). exact (affine_y _ _ _ Hinv). }
  split; [done|by apply gej_one_spec].
Qed.

Lemma ge_set_gej_var_spec (r : secp256k1_ge) (a : secp256k1_gej) (P : point) :
  gej_is a P → ge_is (secp256k1_ge_set_gej_var r a).1 P ∧ gej_is (secp256k1_ge_set_gej_var r a).2 P.
Proof.
  intros HP. pose proof (ge_set_gej_spec a P HP) as H.
  destruct P as [[x y]|]; cbn [gej_is] in HP; unfold secp256k1_ge_set_gej_var.
  - assert (nonzero (gej_infinity a) = false) as -> by (by rewrite (proj1 HP)). exact H.
  - assert (nonzero (gej_infinity a) = true) as -> by (by rewrite HP). by split.
Qed.

(** * Batches *)

Definition is_inverse (z zi : secp256k1_fe) : Prop := fe_mag 8 zi ∧ fe_val zi * fe_val z ≡ₚ 1.

Lemma set_all_loop_spec (r : list secp256k1_ge) (a : list secp256k1_gej) (azi : list secp256k1_fe) (P : list point) :
  Forall2 gej_is a P → length r = length a →
  Forall2 is_inverse (map gej_z (List.filter (λ p, negb (nonzero (gej_infinity p))) a)) azi →
  Forall2 ge_is (set_all_loop r a azi) P.
Proof.
  intros HP. revert r azi. induction HP as [|a0 P0 a P H0 HP IH]; intros [|r0 r] azi Hl Hz; try discriminate; [constructor|].
  cbn [List.filter] in Hz. cbn [set_all_loop]. injection Hl as Hl. destruct P0 as [[x y]|].
  - assert (gej_infinity a0 = 0) as Hi by apply H0. rewrite Hi in *. cbn [nonzero negb Z.eqb map] in Hz |- *.
    inversion Hz as [|? zi ? azi' [Mi Hi'] Hz']; subst. constructor; [by apply ge_set_gej_zinv_spec|by apply IH].
  - cbn [gej_is] in H0. rewrite H0 in *. cbn [nonzero negb Z.eqb] in Hz |- *. constructor; [done|by apply IH].
Qed.

Lemma gej_z_finite (a : secp256k1_gej) (P : point) :
  gej_is a P → gej_infinity a = 0 → fe_mag 8 (gej_z a) ∧ ¬ fe_val (gej_z a) ≡ₚ 0.
Proof.
  destruct P as [[x y]|]; cbn [gej_is]; [|congruence]. intros (_ & z & Hz & Fz & _) _.
  split; [apply Fz|]. by rewrite (proj2 Fz).
Qed.

Lemma finite_z_spec (a : list secp256k1_gej) (P : list point) (z : secp256k1_fe) :
  Forall2 gej_is a P → z ∈ map gej_z (List.filter (λ p, negb (nonzero (gej_infinity p))) a) →
  fe_mag 8 z ∧ ¬ fe_val z ≡ₚ 0.
Proof.
  intros HP Hz. apply list_elem_of_In, in_map_iff in Hz as (p & <- & Hp). apply filter_In in Hp as [Hp Hf].
  apply list_elem_of_In, list_elem_of_lookup in Hp as [i Hi].
  destruct (Forall2_lookup_l _ _ _ _ _ HP Hi) as (Q & _ & HQ). apply (gej_z_finite _ _ HQ).
  unfold nonzero in Hf. destruct (Z.eqb_spec (gej_infinity p) 0); [done|discriminate].
Qed.

Lemma ge_set_all_spec (r : list secp256k1_ge) (a : list secp256k1_gej) (mem : nat → list secp256k1_fe)
  (P : list point) :
  Forall2 gej_is a P → length r = length a → (∀ n, length (mem n) = n) →
  Forall2 ge_is (secp256k1_ge_set_all_gej_var r a mem) P.
Proof.
  intros HP Hl Hmem. unfold secp256k1_ge_set_all_gej_var. cbv zeta. apply set_all_loop_spec; [done..|].
  pose proof (finite_z_spec a P) as Hf. set (az := map gej_z _) in *. clearbody az.
  destruct (fe_inv_all_spec (mem (length az)) az) as [Hla Ha]; [apply Hmem| |].
  { intros i Hi. apply Hf; [done|]. by apply list_elem_of_lookup_total_2. }
  apply Forall2_same_length_lookup_2; [done|]. intros i z zi E1 E2.
  assert (i < length az)%nat as Hi by (by eapply lookup_lt_Some).
  destruct (Ha i Hi) as [H1 H2]. rewrite (list_lookup_total_correct _ _ _ E2) in H1, H2.
  rewrite (list_lookup_total_correct _ _ _ E1) in H2. done.
Qed.

(** * Tables of points whose ratios of [z] are known *)

Section Table.
Context (len : nat) (a : list secp256k1_gej) (zr : list secp256k1_fe) (P : nat → Z * Z) (z : nat → Z).
Hypothesis HP : ∀ i, (i < len)%nat → coords_are (a !!! i) (z i) (P i).
Hypothesis Hlast : fe_is 8 (gej_z (a !!! (len - 1)%nat)) (z (len - 1)%nat).
Hypothesis Hzr : ∀ i, (S i < len)%nat → fe_mag 8 (zr !!! S i) ∧ z i * fe_val (zr !!! S i) ≡ₚ z (S i).

Lemma table_z (i : nat) : (i < len)%nat → ¬ z i ≡ₚ 0.
Proof using HP. intros Hi. by apply HP. Qed.

(** One step back in the table keeps the product of [zi] and the [z] of the point. *)
Lemma table_step (zi : secp256k1_fe) (i : nat) (g : Z) :
  (S i < len)%nat → fe_mag 8 zi → fe_val zi * z (S i) ≡ₚ g →
  let zi' := secp256k1_fe_mul zi (zr !!! S i) in
  fe_mag 8 zi' ∧ fe_val zi' * z i ≡ₚ g.
Proof using Hzr.
  intros Hi Hm Hg. cbv zeta. destruct (Hzr i Hi) as [Mr Er].
  destruct (fe_mul_spec zi (zr !!! S i) Hm Mr) as [Mz Ez].
  split; [by apply (fe_mag_mono 1)|]. rewrite Ez, <- Hg, <- Er. apply eqp_exact. ring.
Qed.

Lemma set_table_loop_spec (r : list secp256k1_ge) (zi : secp256k1_fe) (i : nat) :
  (i < len)%nat → length r = len → fe_mag 8 zi → fe_val zi * z i ≡ₚ 1 →
  (∀ j, (i ≤ j < len)%nat → ge_is (r !!! j) (Some (P j))) →
  let r' := set_table_loop a zr r zi i in
  length r' = len ∧ ∀ j, (j < len)%nat → ge_is (r' !!! j) (Some (P j)).
Proof using HP Hzr.
  cbv zeta. revert r zi. induction i as [|i IH]; intros r zi Hi Hl Mz Ez Hr.
  - split; [done|]. intros j Hj. apply Hr. lia.
  - cbn [set_table_loop]. cbv zeta. destruct (table_step zi i 1 Hi Mz Ez) as [Mz' Ez'].
    set (zi' := secp256k1_fe_mul zi (zr !!! S i)) in *. clearbody zi'.
    apply IH; [lia|by rewrite length_insert|done|done|]. intros j Hj. destruct (decide (j = i)) as [->|Hne].
    + rewrite list_lookup_total_insert_eq by lia. apply (set_gej_zinv_coords _ _ (z i)); [apply HP; lia|done..].
    + rewrite list_lookup_total_insert_ne by done. apply Hr. lia.
Qed.

Lemma set_table_spec (r : list secp256k1_ge) :
  length r = len →
  let r' := secp256k1_ge_set_table_gej_var r a zr len in
  length r' = len ∧ ∀ j, (j < len)%nat → ge_is (r' !!! j) (Some (P j)).
Proof using HP Hlast Hzr.
  intros Hl. cbv zeta. unfold secp256k1_ge_set_table_gej_var. destruct (Nat.ltb_spec 0 len) as [H0|H0].
  2:{ split; [done|]. intros j Hj. lia. }
  cbv zeta. destruct Hlast as [Mz Ez]. destruct (fe_inv_spec _ Mz) as [Mi _].
  pose proof (fe_inv_nonzero _ Mz) as Ei. rewrite Ez in Ei. specialize (Ei (table_z (len - 1)%nat ltac:(lia))).
  apply (fe_mag_mono 1 8) in Mi; [|lia]. set (zi := secp256k1_fe_inv _) in *. clearbody zi.
  apply set_table_loop_spec; [lia|by rewrite length_insert|done|done|]. intros j Hj.
  assert (j = len - 1)%nat as -> by lia. rewrite list_lookup_total_insert_eq by lia.
  apply (set_gej_zinv_coords _ _ (z (len - 1)%nat)); [apply HP; lia|done..].
Qed.

(** An affine structure that stands for a point with the common [z] of the table. *)
Definition globalz_is (g : secp256k1_fe) (r : secp256k1_ge) (Q : Z * Z) : Prop :=
  ge_infinity r = 0 ∧ gej_is (Gej (ge_x r) (ge_y r) g 0) (Some Q).

Lemma set_gej_zinv_scaled (b : secp256k1_gej) (zs g : secp256k1_fe) (w : Z) (Q : Z * Z) :
  coords_are b w Q → fe_mag 8 zs → fe_mag 8 g → ¬ fe_val g ≡ₚ 0 →
  fe_val zs * w ≡ₚ fe_val g → globalz_is g (secp256k1_ge_set_gej_zinv b zs) Q.
Proof.
  destruct Q as [x y]. intros (Hi & Hw & Fx & Fy) Ms Mg Hg Hs. cbn [fst snd] in Fx, Fy. apply fe_is_self in Ms.
  change ((λ r, globalz_is g r (x, y)) (secp256k1_ge_set_gej_zinv b zs)). set (R := λ r, globalz_is g r _).
  cbv beta delta [secp256k1_ge_set_gej_zinv]. fe_run. subst R. cbv beta.
  split; [done|]. split; [done|]. exists (fe_val g). cbn [gej_x gej_y gej_z ge_x ge_y].
  split_and!; [done|by apply fe_is_self|..]; (eapply fe_is_mono; [|apply (Z.le_trans _ 1); [reflexivity|lia]]);
    (eapply fe_is_proper; [eassumption|]); set (gv := fe_val g) in *; set (u := fe_val zs) in *.
  - apply (eqp_comb1 (x * (u * w + gv)) _ _ _ _ Hs). ring.
  - apply (eqp_comb1 (y * (u * w * (u * w) + u * w * gv + gv * gv)) _ _ _ _ Hs). ring.
Qed.

Lemma globalz_loop_spec (r : list secp256k1_ge) (zs g : secp256k1_fe) (i : nat) :
  (i < len)%nat → length r = len → g = gej_z (a !!! (len - 1)%nat) → fe_mag 8 zs ∨ i = O →
  (if (i =? len - 1)%nat then i ≠ O → zs = zr !!! i else fe_val zs * z i ≡ₚ fe_val g) →
  (∀ j, (i ≤ j < len)%nat → globalz_is g (r !!! j) (P j)) →
  let r' := globalz_loop len a zr r zs i in
  length r' = len ∧ ∀ j, (j < len)%nat → globalz_is g (r' !!! j) (P j).
Proof using HP Hlast Hzr.
  intros Hi Hl Eg. cbv zeta. revert r zs Hi Hl. induction i as [|i IH]; intros r zs Hi Hl Mz Ez Hr.
  - split; [done|]. intros j Hj. apply Hr. lia.
  - destruct Mz as [Mz|?]; [|done]. cbn [globalz_loop]. cbv zeta. destruct Hlast as [Mg Vg].
    pose proof (table_z (len - 1) ltac:(lia)) as Hg. rewrite <- Vg in Hg.
    set (zs' := if (S i =? len - 1)%nat then zs else secp256k1_fe_mul zs (zr !!! S i)).
    assert (fe_mag 8 zs' ∧ fe_val zs' * z i ≡ₚ fe_val g) as [Mz' Ez'].
    { subst zs'. destruct (Nat.eqb_spec (S i) (len - 1)) as [E|E].
      - destruct (Hzr i Hi) as [Mr Er]. rewrite Ez by done. split; [done|]. rewrite Z.mul_comm, Er.
        by rewrite Eg, Vg, E.
      - by apply table_step. }
    clearbody zs'. apply IH; [lia|by rewrite length_insert|by left| |].
    { destruct (Nat.eqb_spec i (len - 1)); [lia|done]. }
    intros j Hj. destruct (decide (j = i)) as [->|Hne].
    + rewrite list_lookup_total_insert_eq by lia. subst g.
      apply (set_gej_zinv_scaled _ _ _ (z i)); [apply HP; lia|done..].
    + rewrite list_lookup_total_insert_ne by done. apply Hr. lia.
Qed.

Lemma globalz_set_table_spec (r : list secp256k1_ge) (g : secp256k1_fe) :
  length r = len → (0 < len)%nat →
  let '(r', g') := secp256k1_ge_globalz_set_table_gej len r g a zr in
  length r' = len ∧ (∀ j, (j < len)%nat → globalz_is g' (r' !!! j) (P j)) ∧ fe_is 8 g' (z (len - 1)%nat).
Proof using HP Hlast Hzr.
  intros Hl H0. unfold secp256k1_ge_globalz_set_table_gej. destruct (Nat.ltb_spec 0 len); [|lia].
  cbv zeta. assert (∀ A B C : Prop, A ∧ B → C → A ∧ B ∧ C) as Hand by tauto. apply Hand; [|exact Hlast].
  apply globalz_loop_spec; [lia|by rewrite length_insert|done| | |].
  - destruct len as [|[|n]]; [lia|by right|]. left. apply (Hzr n). lia.
  - by rewrite Nat.eqb_refl.
  - intros j Hj. assert (j = len - 1)%nat as -> by lia. rewrite list_lookup_total_insert_eq by lia.
    split; [done|]. cbn [ge_x ge_y]. destruct (HP (len - 1)%nat ltac:(lia)) as (_ & Hz & Fx & Fy).
    destruct (P (len - 1)%nat) as [x y]. split; [done|]. by exists (z (len - 1)%nat).
Qed.
End Table.

(** * Negation and rescaling *)

Lemma ge_neg_spec (a : secp256k1_ge) (P : point) : ge_is a P → ge_is (secp256k1_ge_neg a) (point_neg P).
Proof.
  destruct P as [[x y]|]; [|done]. intros (Hi & Fx & Fy).
  change ((λ g, ge_is g (point_neg (Some (x, y)))) (secp256k1_ge_neg a)). set (R := λ g, ge_is g _).
  cbv beta delta [secp256k1_ge_neg]. fe_run. subst R. cbv beta. cbn [point_neg ge_is ge_x ge_y ge_infinity].
  split_and!; [done|done|]. eapply fe_is_mono; [eapply fe_is_proper; [eassumption|]|lia]. symmetry. apply eqp_mod.
Qed.

Lemma gej_neg_spec (a : secp256k1_gej) (P : point) : gej_is a P → gej_is (secp256k1_gej_neg a) (point_neg P).
Proof.
  destruct P as [[x y]|]; [|done]. intros (Hi & z & Hz & Fz & Fx & Fy).
  change ((λ g, gej_is g (point_neg (Some (x, y)))) (secp256k1_gej_neg a)). set (R := λ g, gej_is g _).
  cbv beta delta [secp256k1_gej_neg]. fe_run. subst R. cbv beta. cbn [point_neg gej_is gej_x gej_y gej_z gej_infinity].
  split; [done|]. exists z. split_and!; [done..|].
  eapply fe_is_mono; [eapply fe_is_proper; [eassumption|]|lia]. rewrite (eqp_mod (- y)).
  apply eq_subrelation; [typeclasses eauto|ring].
Qed.

Lemma gej_rescale_spec (r : secp256k1_gej) (s : secp256k1_fe) (P : point) :
  gej_is r P → fe_mag 8 s → ¬ fe_val s ≡ₚ 0 → gej_is (secp256k1_gej_rescale r s) P.
Proof.
  intros HP Ms Hs. destruct P as [[x y]|]; [|exact HP]. destruct HP as (Hi & z & Hz & Fz & Fx & Fy).
  apply fe_is_self in Ms. change ((λ g, gej_is g (Some (x, y))) (secp256k1_gej_rescale r s)).
  set (R := λ g, gej_is g _). cbv beta delta [secp256k1_gej_rescale]. fe_run. subst R. cbv beta.
  cbn [gej_is gej_x gej_y gej_z gej_infinity]. split; [done|]. exists (z * fe_val s).
  split_and!; [by apply eqp_mul_nonzero|eapply fe_is_mono; [eassumption|lia]|
    eapply fe_is_mono; [eapply fe_is_eq; [eassumption|ring]|lia]..].
Qed.

(** * Tests *)

Lemma fe_is_equal_var (m k : Z) (f g : secp256k1_fe) (v w : Z) :
  fe_is m f v → fe_is k g w → m ≤ 1 → k ≤ 29 → secp256k1_fe_equal_var f g = truth (bool_decide (v ≡ₚ w)).
Proof.
  intros [Mf Ef] [Mg Eg] Hm Hk. destruct (fe_equal_spec f g) as [E1 E2];
    [by apply (fe_mag_mono m)|by apply (fe_mag_mono k)|]. rewrite E2, E1. f_equal. apply eq_true_iff_eq.
  rewrite Z.eqb_eq, bool_decide_eq_true. change (fe_val f ≡ₚ fe_val g ↔ v ≡ₚ w). by rewrite Ef, Eg.
Qed.

Lemma gej_eq_x_spec (f : secp256k1_fe) (a : secp256k1_gej) (x y : Z) :
  fe_mag 8 f → gej_is a (Some (x, y)) →
  secp256k1_gej_eq_x_var f a = truth (bool_decide (fe_val f ≡ₚ x)).
Proof.
  intros Mf (Hi & z & Hz & Fz & Fx & Fy). apply fe_is_self in Mf. set (v := fe_val f) in *.
  change ((λ k, k = truth (bool_decide (v ≡ₚ x))) (secp256k1_gej_eq_x_var f a)). set (R := λ k, k = _).
  cbv beta delta [secp256k1_gej_eq_x_var]. fe_run. subst R. cbv beta.
  erewrite fe_is_equal_var; [|eassumption|eassumption|lia|lia]. f_equal. apply bool_decide_ext. split.
  - intros H. apply (eqp_cancel (z * z)); [by apply eqp_mul_nonzero|]. by rewrite H, Z.mul_comm.
  - intros H. rewrite H. by rewrite Z.mul_comm.
Qed.

Lemma scaled_curve (x y z : Z) :
  ¬ z ≡ₚ 0 →
  (y * (z * z * z) * (y * (z * z * z)) ≡ₚ
     x * (z * z) * (x * (z * z)) * (x * (z * z)) + z * z * (z * z) * (z * z) * 7) ↔ y * y ≡ₚ x * x * x + 7.
Proof.
  intros Hz. split; intros H.
  - apply (eqp_cancel (z * z * z * (z * z * z))); [by repeat apply eqp_mul_nonzero|].
    eapply eqp_of_eq; [exact H|ring|ring].
  - apply (eqp_comb1 (z * z * z * (z * z * z)) _ _ _ _ H). ring.
Qed.

#[global] Instance on_curve_dec (P : point) : Decision (on_curve P).
Proof. destruct P as [[x y]|]; cbn; apply _. Defined.

(** The points that pass the checks: finite points on the curve. *)
Definition point_valid (P : point) : bool :=
  match P with None => false | Some _ => bool_decide (on_curve P) end.

Lemma gej_is_valid_spec (a : secp256k1_gej) (P : point) :
  gej_is a P → secp256k1_gej_is_valid_var a = truth (point_valid P).
Proof.
  destruct P as [[x y]|].
  - intros (Hi & z & Hz & Fz & Fx & Fy).
    change ((λ k, k = truth (point_valid (Some (x, y)))) (secp256k1_gej_is_valid_var a)). set (R := λ k, k = _).
    cbv beta delta [secp256k1_gej_is_valid_var]. rewrite Hi. change (nonzero 0) with false. cbv iota. fe_run.
    change CURVE_B with 7. fe_run. subst R. cbv beta.
    erewrite fe_is_equal_var; [|eassumption|eassumption|lia|lia]. f_equal.
    apply bool_decide_ext. by apply scaled_curve.
  - cbn [gej_is]. intros Hi. unfold secp256k1_gej_is_valid_var. by rewrite Hi.
Qed.

Lemma ge_is_valid_spec (a : secp256k1_ge) (P : point) :
  ge_is a P → secp256k1_ge_is_valid_var a = truth (point_valid P).
Proof.
  destruct P as [[x y]|].
  - intros (Hi & Fx & Fy). pose proof (fe_is_set_int CURVE_B ltac:(unfold CURVE_B, M26; lia)) as F7.
    change ((λ k, k = truth (point_valid (Some (x, y)))) (secp256k1_ge_is_valid_var a)). set (R := λ k, k = _).
    cbv beta delta [secp256k1_ge_is_valid_var]. rewrite Hi. change (nonzero 0) with false. cbv iota. fe_run.
    subst R. cbv beta. erewrite fe_is_equal_var; [|eassumption|eassumption|lia|lia]. by f_equal.
  - cbn [ge_is]. intros Hi. unfold secp256k1_ge_is_valid_var. by rewrite Hi.
Qed.

(** * Points with a given first coordinate *)

Definition is_square (v : Z) : Prop := ∃ s, s * s ≡ₚ v.

Lemma ge_set_xquad_spec (f : secp256k1_fe) :
  fe_mag 8 f →
  let '(r, ok) := secp256k1_ge_set_xquad f in
  (ok = 0 ∨ ok = 1) ∧ (ok = 1 ↔ ∃ y, on_curve (Some (fe_val f, y))) ∧
  ge_x r = f ∧ ge_infinity r = 0 ∧ fe_mag 1 (ge_y r) ∧ is_square (fe_val (ge_y r)) ∧
  (ok = 1 → on_curve (Some (fe_val f, fe_val (ge_y r)))).
Proof.
  intros Mf. apply fe_is_self in Mf. set (x := fe_val f) in *.
  pose proof (fe_is_set_int CURVE_B ltac:(unfold CURVE_B, M26; lia)) as F7.
  match goal with |- match _ with (r, ok) => @?B r ok end =>
    change ((λ p, let '(r, ok) := p in B r ok) (secp256k1_ge_set_xquad f)); set (R := λ p : secp256k1_ge * Z, _)
  end. cbv beta delta [secp256k1_ge_set_xquad]. fe_run.
  pose proof (fe_sqrt_spec c0 (fe_mag_mono 2 8 _ (proj1 F2) ltac:(lia))) as Hs.
  destruct (secp256k1_fe_sqrt c0) as [y ok]. destruct Hs as (My & [h Hh] & Hok & Hex & Hy).
  setoid_rewrite (proj2 F2) in Hex. rewrite (proj2 F2) in Hy.
  subst R. cbv beta iota. cbn [ge_x ge_y ge_infinity on_curve].
  assert (∀ v, v * v ≡ₚ CURVE_B + x * (x * x) ↔ v * v ≡ₚ x * x * x + 7) as Ec.
  { intros v. by replace (CURVE_B + x * (x * x)) with (x * x * x + 7) by (unfold CURVE_B; ring). }
  split_and!; [done| |done|done|done|by exists h; rewrite Hh|by intros ?%Hy%Ec].
  rewrite Hex. split; intros [v Hv]; exists v; by apply Ec.
Qed.

Lemma ge_set_xo_spec (f : secp256k1_fe) (odd : Z) :
  fe_mag 8 f → odd = 0 ∨ odd = 1 →
  let '(r, ok) := secp256k1_ge_set_xo_var f odd in
  (ok = 0 ∨ ok = 1) ∧ (ok = 1 ↔ ∃ y, on_curve (Some (fe_val f, y))) ∧
  (ok = 1 → ∃ y, 0 ≤ y < field_prime ∧ y mod 2 = odd ∧ on_curve (Some (fe_val f, y)) ∧
    ge_is r (Some (fe_val f, y))).
Proof.
  intros Mf Hodd. unfold secp256k1_ge_set_xo_var. pose proof (ge_set_xquad_spec f Mf) as H.
  destruct (secp256k1_ge_set_xquad f) as [r ok]. destruct H as (Hok & Hex & Ex & Ei & My & _ & Hy).
  destruct Hok as [-> | ->]; change (0 =? 0) with true; change (1 =? 0) with false; cbv iota zeta.
  { split_and!; [by left|done|done]. }
  specialize (Hy eq_refl). set (x := fe_val f) in *. clear Hex. apply (fe_mag_mono 1 31) in My; [|lia].
  rewrite normalize_var_eq by done. destruct (normalize_spec (ge_y r) My) as [Hn Hv].
  set (g := secp256k1_fe_normalize (ge_y r)) in *. clearbody g. pose proof (fe_norm_val g Hn) as Hr.
  assert (on_curve (Some (x, fe_val g))) as Hg.
  { cbn [on_curve] in Hy |- *. rewrite Hv, eqp_mod. exact Hy. }
  rewrite Ex, Ei. rewrite fe_is_odd_spec by done.
  split_and!; [by right|by split; [intros _; by exists (fe_val g)|]|intros _].
  assert (fe_is 8 f x) as Fx by (by apply fe_is_self).
  assert (fe_is 1 g (fe_val g)) as Fg by (split; [by apply fe_norm_mag|reflexivity]).
  destruct (Z.eqb_spec (fe_val g mod 2) odd) as [E|E]; cbn [negb].
  - exists (fe_val g). split_and!; [lia|lia|done|done|]. cbn [ge_is ge_x ge_y ge_infinity].
    split_and!; [done|done|by apply (fe_is_mono 1)].
  - pose proof (Z.mod_pos_bound (- fe_val g) field_prime ltac:(done)) as Hb.
    exists ((- fe_val g) mod field_prime). split_and!; [lia|lia| | |].
    + rewrite (parity_neg (fe_val g)); [|done|done|by apply (no_point_of_order_2 x)|apply eqp_mod].
      assert (fe_val g mod 2 = 0 ∨ fe_val g mod 2 = 1) by zdiv. lia.
    + cbn [on_curve] in Hg |- *. rewrite !eqp_mod, <- Hg. apply eq_subrelation; [typeclasses eauto|ring].
    + cbn [ge_is ge_x ge_y ge_infinity]. split_and!; [done|done|].
      apply (fe_is_mono 2); [|lia]. eapply fe_is_proper; [exact (fe_is_negate 1 _ _ Fg 1 ltac:(lia) ltac:(lia))|]. symmetry. apply eqp_mod.
Qed.

Lemma gej_has_quad_y_spec (a : secp256k1_gej) (x y : Z) :
  gej_is a (Some (x, y)) → secp256k1_gej_has_quad_y_var a = 1 ↔ is_square y.
Proof.
  intros (Hi & z & Hz & Fz & Fx & Fy).
  change ((λ k, k = 1 ↔ is_square y) (secp256k1_gej_has_quad_y_var a)). set (R := λ k, k = 1 ↔ _).
  cbv beta delta [secp256k1_gej_has_quad_y_var]. rewrite Hi. change (nonzero 0) with false. cbv iota. fe_run.
  subst R. cbv beta. unfold secp256k1_fe_is_quad_var.
  pose proof (fe_sqrt_spec yz (fe_mag_mono 1 8 _ (proj1 F) ltac:(lia))) as Hs.
  destruct (secp256k1_fe_sqrt yz) as [w ok]. destruct Hs as (_ & _ & _ & Hex & _). cbn [snd].
  setoid_rewrite (proj2 F) in Hex.
  rewrite Hex. split; intros [s Hs].
  - exists (s * fp_inv (z * z)). pose proof (fp_inv_spec (z * z) (eqp_mul_nonzero _ _ Hz Hz)) as Hinv.
    set (i := fp_inv (z * z)) in *. apply (eqp_comb2 (i * i) (y * (i * (z * z) + 1)) _ _ _ _ _ _ Hs Hinv). ring.
  - exists (s * (z * z)). apply (eqp_comb1 (z * z * (z * z)) _ _ _ _ Hs). ring.
Qed.

(** * Storage *)

Lemma ge_storage_spec (a : secp256k1_ge) (x y : Z) :
  ge_is a (Some (x, y)) →
  ge_is (secp256k1_ge_from_storage (secp256k1_ge_to_storage a)) (Some (x, y)).
Proof.
  intros (Hi & Fx & Fy). unfold secp256k1_ge_from_storage, secp256k1_ge_to_storage. cbv zeta. cbn [gs_x gs_y].
  assert (∀ f v, fe_is 8 f v →
    fe_is 8 (secp256k1_fe_from_storage (secp256k1_fe_to_storage (secp256k1_fe_normalize f))) v) as H.
  { intros f v [Mf Ef]. destruct (normalize_spec f) as [Hn Hv]; [by apply (fe_mag_mono 8)|].
    rewrite storage_roundtrip by apply Hn. split; [apply (fe_mag_mono 1); [by apply fe_norm_mag|lia]|].
    by rewrite Hv, eqp_mod. }
  split_and!; [done|by apply H..].
Qed.

(** The stored form depends on the point only, and is what is read back. *)
Lemma ge_storage_canonical (a b : secp256k1_ge) (x y : Z) :
  ge_is a (Some (x, y)) → ge_is b (Some (x, y)) → secp256k1_ge_to_storage a = secp256k1_ge_to_storage b.
Proof.
  intros (_ & Ax & Ay) (_ & Bx & By). unfold secp256k1_ge_to_storage. cbv zeta.
  assert (∀ f g v, fe_is 8 f v → fe_is 8 g v → secp256k1_fe_normalize f = secp256k1_fe_normalize g) as H.
  { intros f g v [Mf Ef] [Mg Eg]. destruct (normalize_spec f) as [[Hn _] Hv]; [by apply (fe_mag_mono 8)|].
    destruct (normalize_spec g) as [[Hn' _] Hv']; [by apply (fe_mag_mono 8)|].
    destruct (secp256k1_fe_normalize f) as [l], (secp256k1_fe_normalize g) as [k]. f_equal.
    apply limbs_le_val_inj; [done..|]. unfold fe_val in Hv, Hv'. cbn [fe_n] in *. rewrite Hv, Hv'.
    change (fe_val f ≡ₚ fe_val g). by rewrite Ef, Eg. }
  by rewrite (H _ _ _ Ax Bx), (H _ _ _ Ay By).
Qed.
