(* ===== verification/Secp256k1Ecmult.v ===== *)
(** Multiplication of points: src/src/secp256k1/src/ecmult_impl.h, without the endomorphism.

    [secp256k1_ecmult] computes [na A + ng G] by one pass over the digits of both
    numbers in the notation that [secp256k1_ecmult_wnaf] gives, with tables of
    the odd multiples of the points.  Memory for tables is represented by lists of the right length;
    what it holds before it is written is [inhabitant] here, and is not read. *)

From Stdlib Require Import ZArith Lia Strings.Byte.
From stdpp Require Import base gmap list fin_maps numbers.
From S2P Require Import Prelude Secp256k1Scalar Secp256k1Field Secp256k1Group.

Definition WINDOW_A : Z := 5.
Definition WINDOW_G : Z := 16.

(** [ECMULT_TABLE_SIZE(w)]: [1 << (w - 2)]. *)
Definition ECMULT_TABLE_SIZE (w : Z) : nat := Z.to_nat (Z.shiftl 1 (w - 2)).

#[global] Instance ge_storage_inhabited : Inhabited secp256k1_ge_storage :=
  populate (GeStorage (FeStorage []) (FeStorage [])).

(** * Tables of odd multiples *)

(** A step of the loop: [prej[i]] and [zr[i]]. *)
Definition odd_multiples_step (d_ge : secp256k1_ge) (t : list secp256k1_gej * list secp256k1_fe) (i : nat) :
  list secp256k1_gej * list secp256k1_fe :=
  let '(prej, zr) := t in
  let '(p, z) := secp256k1_gej_add_ge_var (prej !!! i) (prej !!! (i - 1)%nat) d_ge true in
  (<[i := p]> prej, match z with Some z => <[i := z]> zr | None => zr end).

Definition secp256k1_ecmult_odd_multiples_table (n : nat) (prej : list secp256k1_gej) (zr : list secp256k1_fe)
  (a : secp256k1_gej) : list secp256k1_gej * list secp256k1_fe :=
  let d := (secp256k1_gej_double_var inhabitant a false).1 in
  let d_ge := Ge (gej_x d) (gej_y d) 0 in
  let a_ge := secp256k1_ge_set_gej_zinv a (gej_z d) in
  let prej := <[0%nat := Gej (ge_x a_ge) (ge_y a_ge) (gej_z a) 0]> prej in
  let zr := <[0%nat := gej_z d]> zr in
  let '(prej, zr) := foldl (odd_multiples_step d_ge) (prej, zr) (seq 1 (n - 1)) in
  let last := prej !!! (n - 1)%nat in
  (<[(n - 1)%nat := Gej (gej_x last) (gej_y last) (secp256k1_fe_mul (gej_z last) (gej_z d)) (gej_infinity last)]> prej,
   zr).

(** The table for [WINDOW_A], with a common [z], which is returned too. *)
Definition secp256k1_ecmult_odd_multiples_table_globalz_windowa (a : secp256k1_gej) :
  list secp256k1_ge * secp256k1_fe :=
  let n := ECMULT_TABLE_SIZE WINDOW_A in
  let '(prej, zr) :=
    secp256k1_ecmult_odd_multiples_table n (replicate n inhabitant) (replicate n inhabitant) a in
  secp256k1_ge_globalz_set_table_gej n (replicate n inhabitant) inhabitant prej zr.

Definition secp256k1_ecmult_odd_multiples_table_storage_var (n : nat) (a : secp256k1_gej) :
  list secp256k1_ge_storage :=
  let '(prej, zr) :=
    secp256k1_ecmult_odd_multiples_table n (replicate n inhabitant) (replicate n inhabitant) a in
  let prea := secp256k1_ge_set_table_gej_var (replicate n inhabitant) prej zr n in
  map secp256k1_ge_to_storage prea.

(** [ECMULT_TABLE_GET_GE(r,pre,n,w)]. *)
Definition ECMULT_TABLE_GET_GE (pre : list secp256k1_ge) (n : Z) : secp256k1_ge :=
  if n >? 0 then pre !!! Z.to_nat ((n - 1) / 2)
  else secp256k1_ge_neg (pre !!! Z.to_nat ((- n - 1) / 2)).

Definition ECMULT_TABLE_GET_GE_STORAGE (pre : list secp256k1_ge_storage) (n : Z) : secp256k1_ge :=
  if n >? 0 then secp256k1_ge_from_storage (pre !!! Z.to_nat ((n - 1) / 2))
  else secp256k1_ge_neg (secp256k1_ge_from_storage (pre !!! Z.to_nat ((- n - 1) / 2))).

(** * The context: the table for the generator, or NULL *)

Record secp256k1_ecmult_context := EcmultContext { pre_g : option (list secp256k1_ge_storage) }.

Definition secp256k1_ecmult_context_init : secp256k1_ecmult_context := EcmultContext None.

Definition secp256k1_ecmult_context_build (ctx : secp256k1_ecmult_context) : secp256k1_ecmult_context :=
  match pre_g ctx with
  | Some _ => ctx
  | None =>
      let gj := secp256k1_gej_set_ge secp256k1_ge_const_g in
      EcmultContext (Some (secp256k1_ecmult_odd_multiples_table_storage_var (ECMULT_TABLE_SIZE WINDOW_G) gj))
  end.

Definition secp256k1_ecmult_context_clone (src : secp256k1_ecmult_context) : secp256k1_ecmult_context :=
  match pre_g src with
  | None => EcmultContext None
  | Some t => EcmultContext (Some (take (ECMULT_TABLE_SIZE WINDOW_G) t))
  end.

Definition secp256k1_ecmult_context_is_built (ctx : secp256k1_ecmult_context) : bool :=
  match pre_g ctx with Some _ => true | None => false end.

Definition secp256k1_ecmult_context_clear (ctx : secp256k1_ecmult_context) : secp256k1_ecmult_context :=
  secp256k1_ecmult_context_init.

(** * Digits *)

(** [while (bit < len)]: the digits and the last bit that is set. *)
Fixpoint wnaf_loop (fuel : nat) (s : secp256k1_scalar) (len w sign : Z) (wnaf : list Z)
  (last_set_bit bit carry : Z) : list Z * Z :=
  match fuel with
  | O => (wnaf, last_set_bit)
  | S fuel =>
      if bit <? len then
        if secp256k1_scalar_get_bits s bit 1 =? carry then
          wnaf_loop fuel s len w sign wnaf last_set_bit (bit + 1) carry
        else
          let now := w in
          let now := if now >? len - bit then len - bit else now in
          let word := secp256k1_scalar_get_bits_var s bit now + carry in
          let carry := Z.land (Z.shiftr word (w - 1)) 1 in
          let word := word - Z.shiftl carry w in
          let wnaf := <[Z.to_nat bit := sign * word]> wnaf in
          wnaf_loop fuel s len w sign wnaf bit (bit + now) carry
      else (wnaf, last_set_bit)
  end.

(** The digits and their number. *)
Definition secp256k1_ecmult_wnaf (len : Z) (a : secp256k1_scalar) (w : Z) : list Z * Z :=
  let s := a in
  let wnaf := replicate (Z.to_nat len) 0 in
  let '(s, sign) :=
    if nonzero (secp256k1_scalar_get_bits s 255 1) then (secp256k1_scalar_negate s, -1) else (s, 1) in
  let '(wnaf, last_set_bit) := wnaf_loop (Z.to_nat len) s len w sign wnaf (-1) 0 0 in
  (wnaf, last_set_bit + 1).

(** * The multiplication *)

(** [for (i = bits - 1; i >= 0; i--)]: [i] digits are left. *)
Fixpoint ecmult_loop (ctx_pre_g : list secp256k1_ge_storage) (pre_a : list secp256k1_ge) (Zg : secp256k1_fe)
  (wnaf_na : list Z) (bits_na : Z) (wnaf_ng : list Z) (bits_ng : Z) (r : secp256k1_gej) (i : nat) : secp256k1_gej :=
  match i with
  | O => r
  | S i =>
      let r := (secp256k1_gej_double_var r r false).1 in
      let r :=
        if (Z.of_nat i <? bits_na) && nonzero (wnaf_na !!! i) then
          let tmpa := ECMULT_TABLE_GET_GE pre_a (wnaf_na !!! i) in
          (secp256k1_gej_add_ge_var r r tmpa false).1
        else r in
      let r :=
        if (Z.of_nat i <? bits_ng) && nonzero (wnaf_ng !!! i) then
          let tmpa := ECMULT_TABLE_GET_GE_STORAGE ctx_pre_g (wnaf_ng !!! i) in
          secp256k1_gej_add_zinv_var r r tmpa Zg
        else r in
      ecmult_loop ctx_pre_g pre_a Zg wnaf_na bits_na wnaf_ng bits_ng r i
  end.

(** [na A + ng G].  The table of [ctx] is read whether it is built or not; callers check. *)
Definition secp256k1_ecmult (ctx : secp256k1_ecmult_context) (a : secp256k1_gej) (na ng : secp256k1_scalar) :
  secp256k1_gej :=
  let '(wnaf_na, bits_na) := secp256k1_ecmult_wnaf 256 na WINDOW_A in
  let bits := bits_na in
  let '(pre_a, Zg) := secp256k1_ecmult_odd_multiples_table_globalz_windowa a in
  let '(wnaf_ng, bits_ng) := secp256k1_ecmult_wnaf 256 ng WINDOW_G in
  let bits := if bits_ng >? bits then bits_ng else bits in
  let r := secp256k1_gej_set_infinity in
  let r := ecmult_loop (default [] (pre_g ctx)) pre_a Zg wnaf_na bits_na wnaf_ng bits_ng r (Z.to_nat bits) in
  if negb (nonzero (gej_infinity r)) then
    Gej (gej_x r) (gej_y r) (secp256k1_fe_mul (gej_z r) Zg) (gej_infinity r)
  else r.
