(* ===== verification/Secp256k1Wnaf.v ===== *)
(** The digits that [secp256k1_ecmult_wnaf] gives for a scalar.

    They are zero or odd and small, a nonzero digit is followed by zeros, and their value
    is that of the scalar, or of the scalar less the group order: no carry is left
    after the last digit. *)

From Stdlib Require Import ZArith Lia.
From stdpp Require Import base gmap list fin_maps numbers.
From S2P Require Import Prelude Secp256k1Scalar Secp256k1ScalarProofs Secp256k1ScalarOps Secp256k1Group Secp256k1Ecmult.

(** The number that digits stand for, least significant first. *)
Fixpoint digits_val (l : list Z) : Z :=
  match l with
  | [] => 0
  | x :: l => x + 2 * digits_val l
  end.

Lemma digits_val_insert (l : list Z) (i : nat) (x : Z) :
  (i < length l)%nat → digits_val (<[i := x]> l) = digits_val l + 2 ^ Z.of_nat i * (x - l !!! i).
Proof.
  revert i. induction l as [|y l IH]; intros i Hi; [simpl in Hi; lia|]. destruct i as [|i].
  - cbn. lia.
  - simpl in Hi. change (<[S i := x]> (y :: l)) with (y :: <[i := x]> l). cbn [digits_val].
    rewrite IH by lia. change ((y :: l) !!! S i) with (l !!! i). rewrite Nat2Z.inj_succ, Z.pow_succ_r by lia. lia.
Qed.

Lemma digits_val_zeros (n : nat) : digits_val (replicate n 0) = 0.
Proof. induction n; cbn [replicate digits_val]; lia. Qed.

Definition digit_ok (w x : Z) : Prop := x = 0 ∨ Z.Odd x ∧ - 2 ^ (w - 1) < x < 2 ^ (w - 1).

(** What holds before bit [bit] of [S], with digits of sign [sign]; [V] is what is left. *)
Record wnaf_inv (S w sign bit carry last V : Z) (wnaf : list Z) : Prop := WnafInv {
  wi_len : length wnaf = 256%nat;
  wi_bit : 0 ≤ bit ≤ 256;
  wi_carry : carry = 0 ∨ carry = 1;
  wi_rest : V = S / 2 ^ bit + carry;
  wi_bound : V * 2 ^ bit ≤ 2 ^ 255;
  wi_val : digits_val wnaf = sign * (S - V * 2 ^ bit);
  wi_digits : ∀ i, (i < 256)%nat → digit_ok w (wnaf !!! i);
  wi_last : -1 ≤ last < bit;
  wi_zero : ∀ i, last < Z.of_nat i < 256 → wnaf !!! i = 0;
  wi_spaced : ∀ i j, (i < j < 256)%nat → wnaf !!! i ≠ 0 → wnaf !!! j ≠ 0 → Z.of_nat i + w ≤ Z.of_nat j;
  wi_next : ∀ i, (i < 256)%nat → wnaf !!! i ≠ 0 → Z.of_nat i + w ≤ bit ∨ bit = 256 }.

Section Wnaf.
Context (s : secp256k1_scalar) (w sign : Z).
Hypothesis Hs : scalar_wf s.
Hypothesis Hsmall : scalar_val s < 2 ^ 255.
Hypothesis Hw : 2 ≤ w < 31.
Hypothesis Hsign : sign = 1 ∨ sign = -1.
Local Notation Sv := (scalar_val s).

Lemma bit_value (bit : Z) : 0 ≤ bit < 256 → secp256k1_scalar_get_bits s bit 1 = (Sv / 2 ^ bit) mod 2.
Proof using Hs. intros Hb. rewrite get_bits_spec; [done|done|done|lia|]. zdiv. Qed.

(** A bit that is equal to the carry. *)
Lemma wnaf_skip (bit carry last V : Z) (wnaf : list Z) :
  wnaf_inv Sv w sign bit carry last V wnaf → bit < 256 → (Sv / 2 ^ bit) mod 2 = carry →
  wnaf_inv Sv w sign (bit + 1) carry last (V / 2) wnaf.
Proof using Hsign Hsmall.
  intros [Hlen Hbit Hc HV HB Hval Hd Hl Hz Hsp Hn] Hlt Hbc.
  assert (Sv / 2 ^ (bit + 1) = Sv / 2 ^ bit / 2) as Hdiv.
  { rewrite Z.pow_add_r, Zdiv_Zdiv by lia. done. }
  set (q := Sv / 2 ^ bit) in *. clearbody q.
  assert (V = 2 * (V / 2)) as HE by (subst V; zdiv).
  assert (V * 2 ^ bit = V / 2 * 2 ^ (bit + 1)) as HP by (rewrite Z.pow_add_r by lia; lia).
  split; try done; try lia.
  - rewrite Hdiv. subst V. zdiv.
  - intros i Hi Hne. destruct (Hn i Hi Hne); lia.
Qed.

Lemma odd_word (q c now : Z) :
  0 ≤ q → c = 0 ∨ c = 1 → q mod 2 ≠ c → 1 ≤ now → Z.Odd (q mod 2 ^ now + c) ∧ 0 < q mod 2 ^ now + c < 2 ^ now.
Proof.
  intros Hq Hc Hne Hnow. pose proof (Z.mod_pos_bound q (2 ^ now) ltac:(lia)) as Hb.
  assert (q mod 2 ^ now mod 2 = q mod 2) as Hm.
  { replace now with (1 + (now - 1)) by lia. rewrite Z.pow_add_r by lia. change (2 ^ 1) with 2.
    rewrite Z.rem_mul_r by lia. rewrite Z.mul_comm, Z.mod_add by lia. apply Zmod_mod. }
  set (r := q mod 2 ^ now) in *. clearbody r.
  assert (2 ^ now = 2 * 2 ^ (now - 1)) as Hp by (rewrite <- Z.pow_succ_r by lia; f_equal; lia).
  set (h := 2 ^ (now - 1)) in *. clearbody h.
  assert ((r + c) mod 2 = 1) as Ho by zdiv. split; [exists ((r + c) / 2); zdiv|]. zdiv.
Qed.

Lemma land_1 (x : Z) : Z.land x 1 = x mod 2.
Proof. change 1 with (Z.ones 1). by rewrite Z.land_ones. Qed.

(** The digit of a word of [now] bits, and the carry. *)
Lemma word_digit (word now : Z) :
  Z.Odd word → 0 < word < 2 ^ now → 1 ≤ now ≤ w →
  let carry := Z.land (Z.shiftr word (w - 1)) 1 in
  let digit := word - Z.shiftl carry w in
  (carry = 0 ∨ carry = 1) ∧ Z.Odd digit ∧ - 2 ^ (w - 1) < digit < 2 ^ (w - 1) ∧
  word = digit + 2 ^ w * carry ∧ (now < w → carry = 0) ∧ (word < 2 ^ (w - 1) → carry = 0).
Proof using Hw.
  intros Ho Hb Hnow. cbv zeta. assert (2 ^ w = 2 * 2 ^ (w - 1)) as Hp by (rewrite <- Z.pow_succ_r by lia; f_equal; lia).
  assert (word < 2 ^ w) as Hlt by (apply Z.lt_le_trans with (2 ^ now); [lia|apply Z.pow_le_mono_r; lia]).
  assert (now < w → 2 ^ now ≤ 2 ^ (w - 1)) as Hle by (intros; apply Z.pow_le_mono_r; lia).
  assert (Z.Even (2 ^ w)) as He by (exists (2 ^ (w - 1)); done).
  assert (word ≠ 2 ^ (w - 1)) as Hne.
  { intros ->. apply (Z.Even_Odd_False (2 ^ (w - 1))); [|done]. exists (2 ^ (w - 2)).
    rewrite <- Z.pow_succ_r by lia. f_equal. lia. }
  rewrite Z.shiftr_div_pow2, land_1 by lia.
  destruct (Z.lt_ge_cases word (2 ^ (w - 1))) as [Hc|Hc].
  - rewrite (Z.div_small word) by lia. change (0 mod 2) with 0. rewrite Z.shiftl_0_l, Z.sub_0_r. split_and!; [by left|done|lia..].
  - rewrite <- (Z.div_unique word (2 ^ (w - 1)) 1 (word - 2 ^ (w - 1))) by lia. change (1 mod 2) with 1.
    rewrite Z.shiftl_mul_pow2, Z.mul_1_l by lia. split_and!; [by right| |lia..].
    destruct Ho as [a ->], He as [b ->]. exists (a - b). lia.
Qed.

(** What is left after a word fits. *)
Lemma wnaf_rest (V V' bit now digit : Z) :
  0 ≤ bit → 1 ≤ now ≤ w → bit + now ≤ 256 → V * 2 ^ bit ≤ 2 ^ 255 → - 2 ^ (w - 1) < digit →
  (now = w → V = digit + 2 ^ w * V') → (now < w → V' = 0) → (bit + w = 256 → V' = 0) →
  V' * 2 ^ (bit + now) ≤ 2 ^ 255.
Proof using Hw.
  intros Hbit Hnow Hend HB Hdig HV H0 H1. destruct (decide (now < w)) as [Hlt|Hge]; [rewrite H0 by done; lia|].
  assert (now = w) as -> by lia. destruct (decide (bit + w = 256)) as [E|E]; [rewrite H1 by done; lia|].
  specialize (HV eq_refl).
  assert (2 ^ 255 = 2 ^ (255 - bit - w) * (2 ^ w * 2 ^ bit)) as E255 by (rewrite <- !Z.pow_add_r by lia; f_equal; lia).
  assert (2 ^ w = 2 * 2 ^ (w - 1)) as Hp by (rewrite <- Z.pow_succ_r by lia; f_equal; lia).
  rewrite Z.pow_add_r by lia. assert (0 < 2 ^ bit ∧ 0 < 2 ^ (w - 1)) as [Hpb Hpw] by lia. rewrite Hp in E255, HV |- *.
  rewrite E255 in HB |- *. clear E255 Hp.
  revert HB HV Hdig Hpb Hpw. generalize (2 ^ (255 - bit - w)) (2 ^ bit) (2 ^ (w - 1)). intros A B C HB HV Hdig Hpb Hpw.
  assert (V ≤ A * (2 * C)) by (apply (Z.mul_le_mono_pos_r _ _ B); lia).
  assert (V' ≤ A) by (apply Z.lt_succ_r, (Z.mul_lt_mono_pos_l (2 * C)); lia).
  rewrite (Z.mul_comm B). apply Z.mul_le_mono_nonneg_r; [nia|done].
Qed.

Lemma wnaf_word (bit carry last V : Z) (wnaf : list Z) :
  wnaf_inv Sv w sign bit carry last V wnaf → bit < 256 → (Sv / 2 ^ bit) mod 2 ≠ carry →
  let now := if w >? 256 - bit then 256 - bit else w in
  let word := (Sv / 2 ^ bit) mod 2 ^ now + carry in
  let carry' := Z.land (Z.shiftr word (w - 1)) 1 in
  let digit := word - Z.shiftl carry' w in
  wnaf_inv Sv w sign (bit + now) carry' bit (Sv / 2 ^ (bit + now) + carry') (<[Z.to_nat bit := sign * digit]> wnaf).
Proof using Hs Hsmall Hw Hsign.
  intros [Hlen Hbit Hc HV HB Hval Hd Hl Hz Hsp Hn] Hlt Hbc now word.
  pose proof (scalar_wf_val s Hs) as HS.
  assert (1 ≤ now ≤ w ∧ bit + now ≤ 256 ∧ (now < w → bit + now = 256)) as (Hnow & Hend & Hshort).
  { unfold now. destruct (Z.gtb_spec w (256 - bit)); lia. }
  assert (0 ≤ Sv / 2 ^ bit) as Hq0 by (apply Z.div_pos; lia).
  destruct (odd_word (Sv / 2 ^ bit) carry now Hq0 Hc Hbc ltac:(lia)) as [Ho Hwb]. fold word in Ho, Hwb.
  destruct (word_digit word now Ho Hwb Hnow) as (Hc' & Hodd & Hdb & Heq & Hcs & Hcw). cbv zeta.
  set (carry' := Z.land (Z.shiftr word (w - 1)) 1) in *. set (digit := word - Z.shiftl carry' w) in *.
  assert (Sv / 2 ^ (bit + now) = Sv / 2 ^ bit / 2 ^ now) as Hdiv by (by rewrite Z.pow_add_r, Zdiv_Zdiv by lia).
  assert (V = word + 2 ^ now * (Sv / 2 ^ (bit + now))) as HVw.
  { rewrite HV, Hdiv. unfold word. pose proof (Z.div_mod (Sv / 2 ^ bit) (2 ^ now) ltac:(lia)). lia. }
  assert (bit + now = 256 → Sv / 2 ^ (bit + now) = 0) as Hq256.
  { intros ->. apply Z.div_small. lia. }
  remember (Sv / 2 ^ (bit + now)) as q' eqn:Eq'.
  assert (now < w → q' = 0) as Hq' by auto.
  assert (V * 2 ^ bit = digit * 2 ^ bit + (q' + carry') * 2 ^ (bit + now)) as HVd.
  { rewrite HVw, Z.pow_add_r by lia. destruct (decide (now < w)) as [Hs'|Hs'].
    - rewrite Hq', Hcs by done. rewrite Hcs in Heq by done. lia.
    - assert (now = w) as -> by lia. rewrite Heq. ring. }
  assert ((q' + carry') * 2 ^ (bit + now) ≤ 2 ^ 255) as HB'.
  { apply (wnaf_rest V _ bit now digit); [lia|lia|lia|done|lia|..].
    - intros ->. rewrite HVw, Heq. ring.
    - intros Hs'. rewrite (Hq' Hs'), (Hcs Hs'). reflexivity.
    - intros E. assert (q' = 0) as Hz' by (destruct (decide (now < w)); [by apply Hq'|apply Hq256; lia]).
      rewrite Hz'. rewrite Hcw; [done|]. replace 255 with ((w - 1) + bit) in HB by lia. rewrite Z.pow_add_r in HB by lia.
      rewrite HVw, Hz' in HB. assert (0 < 2 ^ bit) by lia. assert (word ≤ 2 ^ (w - 1)) by nia.
      assert (word ≠ 2 ^ (w - 1)); [|lia]. intros Ew. rewrite Ew in Ho.
      apply (Z.Even_Odd_False (2 ^ (w - 1))); [|done]. exists (2 ^ (w - 2)). rewrite <- Z.pow_succ_r by lia. f_equal. lia. }
  assert (sign * digit ≠ 0) as Hnz by (destruct Hodd; lia).
  split; [by rewrite length_insert|lia|done|by rewrite Eq'|done| | |lia| | |].
  - rewrite digits_val_insert by lia. rewrite Z2Nat.id, (Hz (Z.to_nat bit)), Hval by lia. nia.
  - intros i Hi. destruct (decide (i = Z.to_nat bit)) as [->|Hne].
    + rewrite list_lookup_total_insert_eq by lia. right. destruct Hodd as [a Ha]. split; [|lia].
      destruct Hsign as [->| ->]; [exists a|exists (- a - 1)]; lia.
    + rewrite list_lookup_total_insert_ne by done. by apply Hd.
  - intros i Hi. rewrite list_lookup_total_insert_ne by lia. apply Hz. lia.
  - intros i j Hij. destruct (decide (j = Z.to_nat bit)) as [->|Hne].
    + rewrite list_lookup_total_insert_ne by lia. intros Hi _. destruct (Hn i ltac:(lia) Hi); lia.
    + intros Hi Hj. rewrite list_lookup_total_insert_ne in Hj by done.
      destruct (decide (Z.of_nat j ≤ last)); [|by rewrite Hz in Hj by lia].
      rewrite list_lookup_total_insert_ne in Hi by lia. by apply Hsp.
  - intros i Hi Hnz'. destruct (decide (i = Z.to_nat bit)) as [->|Hne]; [lia|].
    rewrite list_lookup_total_insert_ne in Hnz' by done. destruct (Hn i Hi Hnz'); lia.
Qed.

Lemma wnaf_loop_spec (fuel : nat) (bit carry last V : Z) (wnaf : list Z) :
  wnaf_inv Sv w sign bit carry last V wnaf → 256 - bit ≤ Z.of_nat fuel →
  let '(wnaf', last') := wnaf_loop fuel s 256 w sign wnaf last bit carry in
  ∃ carry' V', wnaf_inv Sv w sign 256 carry' last' V' wnaf'.
Proof using Hs Hsmall Hw Hsign.
  revert bit carry last V wnaf. induction fuel as [|fuel IH]; intros bit carry last V wnaf HI Hf.
  - cbn [wnaf_loop]. pose proof (wi_bit _ _ _ _ _ _ _ _ HI). assert (bit = 256) as -> by lia. by exists carry, V.
  - cbn [wnaf_loop]. pose proof (wi_bit _ _ _ _ _ _ _ _ HI) as Hb. destruct (Z.ltb_spec bit 256) as [Hlt|Hge].
    2:{ assert (bit = 256) as -> by lia. by exists carry, V. }
    rewrite bit_value by lia. destruct (Z.eqb_spec ((Sv / 2 ^ bit) mod 2) carry) as [E|E].
    + apply (IH _ _ _ (V / 2)); [by apply wnaf_skip|lia].
    + cbv zeta. set (now := if w >? 256 - bit then 256 - bit else w).
      assert (1 ≤ now ≤ w ∧ bit + now ≤ 256) as [Hn1 Hn2] by (unfold now; destruct (Z.gtb_spec w (256 - bit)); lia).
      rewrite get_bits_var_spec; [|done|lia|lia|lia].
      eapply IH; [by apply (wnaf_word bit carry last V)|fold now; lia].
Qed.

Lemma wnaf_loop_value :
  let '(wnaf, last) := wnaf_loop 256 s 256 w sign (replicate 256 0) (-1) 0 0 in
  length wnaf = 256%nat ∧ digits_val wnaf = sign * Sv ∧ (∀ i, (i < 256)%nat → digit_ok w (wnaf !!! i)) ∧
  -1 ≤ last < 256 ∧ (∀ i, last < Z.of_nat i < 256 → wnaf !!! i = 0) ∧
  (∀ i j, (i < j < 256)%nat → wnaf !!! i ≠ 0 → wnaf !!! j ≠ 0 → Z.of_nat i + w ≤ Z.of_nat j).
Proof using Hs Hsmall Hw Hsign.
  pose proof (wnaf_loop_spec 256 0 0 (-1) Sv (replicate 256 0)) as H.
  destruct (wnaf_loop 256 s 256 w sign (replicate 256 0) (-1) 0 0) as [wnaf last].
  assert (∀ i, (i < 256)%nat → replicate 256 0 !!! i = 0) as H0 by (intros; by apply lookup_total_replicate_2).
  destruct H as (carry & V & HI); [|lia|].
  - pose proof (scalar_wf_val s Hs) as HS. split; try done; try lia.
    + rewrite Z.pow_0_r, Z.div_1_r. lia.
    + change (digits_val (replicate 256 0)) with 0. lia.
    + intros i Hi. left. by apply H0.
    + intros i Hi. apply H0. lia.
    + intros i j Hij Hi. rewrite H0 in Hi by lia. done.
    + intros i Hi Hne. by rewrite H0 in Hne.
  - destruct HI as [Hlen _ Hc HV HB Hval Hd Hl Hz Hsp _]. split_and!; try done; try lia.
    rewrite Hval. assert (0 ≤ V) by (rewrite HV; pose proof (Z.div_pos Sv (2 ^ 256)); pose proof (scalar_wf_val s Hs); lia).
    assert (V = 0) as ->; lia.
Qed.
End Wnaf.

(** The digits of a scalar, and how many there are. *)
Lemma ecmult_wnaf_spec (a : secp256k1_scalar) (w : Z) :
  scalar_ok a → 2 ≤ w < 31 →
  let '(wnaf, bits) := secp256k1_ecmult_wnaf 256 a w in
  length wnaf = 256%nat ∧
  (digits_val wnaf = scalar_val a ∨ digits_val wnaf = scalar_val a - group_order) ∧
  (∀ i, (i < 256)%nat → digit_ok w (wnaf !!! i)) ∧ 0 ≤ bits ≤ 256 ∧ (∀ i, bits ≤ Z.of_nat i < 256 → wnaf !!! i = 0) ∧
  (∀ i j, (i < j < 256)%nat → wnaf !!! i ≠ 0 → wnaf !!! j ≠ 0 → Z.of_nat i + w ≤ Z.of_nat j).
Proof.
  intros [Ha Hlt] Hw. unfold secp256k1_ecmult_wnaf. cbv zeta. change (Z.to_nat 256) with 256%nat.
  pose proof (scalar_wf_val a Ha) as Hr. rewrite bit_value by (done || lia).
  assert (∀ s sign, scalar_wf s → scalar_val s < 2 ^ 255 → sign = 1 ∨ sign = -1 →
    sign * scalar_val s = scalar_val a ∨ sign * scalar_val s = scalar_val a - group_order →
    let '(wnaf, last_set_bit) := wnaf_loop 256 s 256 w sign (replicate 256 0) (-1) 0 0 in
    length wnaf = 256%nat ∧
    (digits_val wnaf = scalar_val a ∨ digits_val wnaf = scalar_val a - group_order) ∧
    (∀ i, (i < 256)%nat → digit_ok w (wnaf !!! i)) ∧ 0 ≤ last_set_bit + 1 ≤ 256 ∧
    (∀ i, last_set_bit + 1 ≤ Z.of_nat i < 256 → wnaf !!! i = 0) ∧
    (∀ i j, (i < j < 256)%nat → wnaf !!! i ≠ 0 → wnaf !!! j ≠ 0 → Z.of_nat i + w ≤ Z.of_nat j)) as H.
  { intros s sign Hs Hsmall Hsign Hv. pose proof (wnaf_loop_value s w sign Hs Hsmall Hw Hsign) as HL.
    destruct (wnaf_loop 256 s 256 w sign (replicate 256 0) (-1) 0 0) as [wnaf last].
    destruct HL as (H1 & H2 & H3 & H4 & H5 & H6). rewrite H2. split_and!; try done; try lia.
    intros i Hi. apply H5. lia. }
  destruct (Z.lt_ge_cases (scalar_val a) (2 ^ 255)) as [Hs|Hs].
  - rewrite (Z.div_small (scalar_val a)) by lia. change (nonzero (0 mod 2)) with false. cbv iota.
    specialize (H a 1 Ha Hs (or_introl eq_refl) ltac:(lia)).
    destruct (wnaf_loop 256 a 256 w 1 (replicate 256 0) (-1) 0 0) as [wnaf last]. done.
  - rewrite <- (Z.div_unique (scalar_val a) (2 ^ 255) 1 (scalar_val a - 2 ^ 255)) by lia.
    change (nonzero (1 mod 2)) with true. cbv iota. destruct (negate_spec a (conj Ha Hlt)) as [[Hn _] Hnv].
    assert (scalar_val (secp256k1_scalar_negate a) = group_order - scalar_val a) as Hneg.
    { rewrite Hnv. symmetry. apply Z.mod_unique with (-1); unfold group_order in *; lia. }
    specialize (H (secp256k1_scalar_negate a) (-1) Hn ltac:(unfold group_order in *; lia) (or_intror eq_refl)
      ltac:(right; lia)).
    destruct (wnaf_loop 256 _ 256 w (-1) (replicate 256 0) (-1) 0 0) as [wnaf last]. done.
Qed.
