(* ===== verification/Secp256k1EcmultProofs.v ===== *)
(** [secp256k1_ecmult] computes [na A + ng G].

    The tables are built, and the sum is computed, with points whose coordinates are scaled
    ([point_scale]): the code drops a common [z] and multiplies it back at the end.  Scaling
    respects addition, as the formulas do not use the constant of the curve.  No entry of a table is
    at infinity, because the order of the curve is prime and larger than the multiples that
    the tables hold. *)

From Stdlib Require Import ZArith Lia.
From stdpp Require Import base gmap list fin_maps numbers.
From S2P Require Import Prelude Secp256k1Scalar Secp256k1ScalarProofs Secp256k1ScalarOps Secp256k1Field Secp256k1FieldProofs Secp256k1FieldApi Secp256k1Curve Secp256k1GroupLaw Secp256k1Order Secp256k1Group Secp256k1GroupProofs Secp256k1GroupApi Secp256k1Ecmult Secp256k1Wnaf.

#[local] Opaque group_order.

(** * Scaling *)

Definition point_scale (g : Z) (P : point) : point :=
  match P with None => None | Some (x, y) => Some (x * (g * g), y * (g * g * g)) end.

#[global] Instance point_scale_proper (g : Z) : Proper (point_eq ==> point_eq) (point_scale g).
Proof. intros [[x1 y1]|] [[x2 y2]|]; try done. intros [Hx Hy]. cbn [point_scale]. split; [by rewrite Hx|by rewrite Hy]. Qed.

Section Scale.
Context (g : Z).
Hypothesis Hg : ¬ g ≡ₚ 0.

Lemma scale_eqp (x y w : Z) : ¬ w ≡ₚ 0 → x * w ≡ₚ y * w ↔ x ≡ₚ y.
Proof.
  intros Hw. split; [|by intros ->]. intros H. apply (eqp_cancel w _ _ Hw). rewrite !(Z.mul_comm w). exact H.
Qed.

Lemma scale_g2 : ¬ g * g ≡ₚ 0.
Proof. by apply eqp_mul_nonzero. Qed.

Lemma scale_g3 : ¬ g * g * g ≡ₚ 0.
Proof. by repeat apply eqp_mul_nonzero. Qed.

Lemma scale_third_point (l k x1 y1 x2 : Z) :
  k ≡ₚ g * l →
  point_eq (third_point k (x1 * (g * g)) (y1 * (g * g * g)) (x2 * (g * g))) (point_scale g (third_point l x1 y1 x2)).
Proof.
  intros Hk. rewrite !third_point_chord. cbn [point_scale]. unfold chord_y, chord_x.
  split; rewrite Hk; apply eqp_exact; ring.
Qed.

(** The slope of a scaled line. *)
Lemma scale_slope (n d n' d' : Z) :
  ¬ d ≡ₚ 0 → ¬ d' ≡ₚ 0 → n' * d ≡ₚ g * n * d' → n' * fp_inv d' ≡ₚ g * (n * fp_inv d).
Proof.
  intros Hd Hd' E. apply (eqp_cancel (d * d')); [by apply eqp_mul_nonzero|].
  pose proof (fp_inv_spec d Hd) as I1. pose proof (fp_inv_spec d' Hd') as I2.
  set (i := fp_inv d) in *. set (j := fp_inv d') in *. clearbody i j.
  apply (eqp_comb3 1 (n' * d) (- (g * n * d')) _ _ _ _ _ _ _ _ E I2 I1). ring.
Qed.

Lemma scale_double (P : point) : point_eq (point_double (point_scale g P)) (point_scale g (point_double P)).
Proof.
  destruct P as [[x y]|]; [|done]. cbn [point_scale]. unfold point_double.
  assert (y * (g * g * g) ≡ₚ 0 ↔ y ≡ₚ 0) as Hy0.
  { rewrite <- (scale_eqp y 0 (g * g * g) scale_g3), Z.mul_0_l. done. }
  destruct (decide (y * (g * g * g) ≡ₚ 0)) as [E|E], (decide (y ≡ₚ 0)) as [E'|E']; try tauto; [done|].
  apply scale_third_point. apply scale_slope; [| |apply eqp_exact; ring];
    (apply eqp_mul_nonzero; [by apply small_nonzero|done]).
Qed.

Lemma scale_add (P Q : point) :
  point_eq (point_add (point_scale g P) (point_scale g Q)) (point_scale g (point_add P Q)).
Proof.
  destruct P as [[x1 y1]|]; [|done]. destruct Q as [[x2 y2]|]; [|done].
  cbn [point_scale]. unfold point_add.
  pose proof (scale_eqp x1 x2 (g * g) scale_g2) as Hx. pose proof (scale_eqp y1 y2 (g * g * g) scale_g3) as Hy.
  destruct (decide (x1 * (g * g) ≡ₚ x2 * (g * g))) as [E|E], (decide (x1 ≡ₚ x2)) as [E'|E']; try tauto.
  - destruct (decide (y1 * (g * g * g) ≡ₚ y2 * (g * g * g))) as [F|F], (decide (y1 ≡ₚ y2)) as [F'|F']; try tauto; [|done].
    apply (scale_double (Some (x1, y1))).
  - apply scale_third_point. apply scale_slope; [| |apply eqp_exact; ring];
      (intros H; (apply E' + apply E); symmetry; by apply eqp_sub_zero).
Qed.

Lemma scale_regular (P : point) : on_curve P → regular (point_scale g P).
Proof.
  destruct P as [[x y]|]; [|done]. intros HP. apply eqp_mul_nonzero; [by apply (no_point_of_order_2 x)|apply scale_g3].
Qed.

Lemma scale_neg (P : point) : point_eq (point_neg (point_scale g P)) (point_scale g (point_neg P)).
Proof.
  destruct P as [[x y]|]; [|done]. cbn [point_scale]. rewrite (point_neg_eq x y), point_neg_eq. cbn [point_scale].
  split; apply eqp_exact; ring.
Qed.

Lemma scale_finite (P : point) : finite (point_scale g P) ↔ finite P.
Proof. by destruct P as [[x y]|]. Qed.
End Scale.

(** Multiplying the coordinates without the [z] scales the point. *)
Lemma set_gej_zinv_scale (a : secp256k1_gej) (zi : secp256k1_fe) (P : point) :
  gej_is a P → finite P → fe_mag 8 zi →
  let r := secp256k1_ge_set_gej_zinv a zi in
  gej_is (Gej (ge_x r) (ge_y r) (gej_z a) 0) (point_scale (fe_val zi) P).
Proof.
  intros HP Hf Mi. destruct P as [[x y]|]; [|done]. destruct HP as (Hi & z & Hz & Fz & Fx & Fy). apply fe_is_self in Mi.
  set (R := λ r, gej_is (Gej (ge_x r) (ge_y r) (gej_z a) 0) (point_scale (fe_val zi) (Some (x, y)))).
  change (R (secp256k1_ge_set_gej_zinv a zi)). cbv beta delta [secp256k1_ge_set_gej_zinv]. fe_run. subst R. cbv beta.
  cbn [ge_x ge_y point_scale gej_is gej_infinity gej_x gej_y gej_z]. split; [done|]. exists z.
  split_and!; [done|done|(eapply fe_is_mono; [eapply fe_is_eq; [eassumption|ring]|lia])..].
Qed.

Definition coords (P : point) : Z * Z := match P with Some q => q | None => (0, 0) end.

Lemma finite_coords (P : point) : finite P → P = Some (coords P).
Proof. by destruct P. Qed.

(** A structure for a scaled point stands for the point, with a larger [z]. *)
Lemma scale_coords (a : secp256k1_gej) (g : Z) (P : point) :
  ¬ g ≡ₚ 0 → gej_is a (point_scale g P) → finite P →
  fe_mag 8 (gej_z a) ∧ coords_are a (fe_val (gej_z a) * g) (coords P).
Proof.
  intros Hg HP Hf. destruct P as [[x y]|]; [|done]. cbn [point_scale] in HP. apply gej_is_coords in HP as (Mz & Hi & Hz & Fx & Fy).
  cbn [fst snd] in *. split; [done|]. split_and!; [done|by apply eqp_mul_nonzero|..]; cbn [fst snd coords];
    (eapply fe_is_eq; [eassumption|ring]).
Qed.

(** * Odd multiples *)

(** The coordinates of [(2 i + 1) P]. *)
Definition odd_multiple (P : point) (i : nat) : point := point_mul (2 * Z.of_nat i + 1) P.

Section OddMultiples.
Context (n : nat) (P : point) (a : secp256k1_gej).
Hypothesis HP : on_curve P.
Hypothesis Hf : finite P.
Hypothesis Ha : gej_is a P.
Hypothesis Hn : (0 < n)%nat.
Hypothesis Hsmall : 2 * Z.of_nat n < group_order.

Lemma odd_multiple_on_curve (i : nat) : on_curve (odd_multiple P i).
Proof. apply point_mul_on_curve. done. Qed.

Lemma odd_multiple_finite (i : nat) : (i < n)%nat → finite (odd_multiple P i).
Proof. intros Hi. apply point_mul_finite; [done..|]. rewrite Z.mod_small; lia. Qed.

Lemma odd_multiple_succ (i : nat) : point_eq (odd_multiple P (S i)) (point_add (odd_multiple P i) (point_add P P)).
Proof.
  unfold odd_multiple. replace (2 * Z.of_nat (S i) + 1) with (2 * Z.of_nat i + 1 + 2) by lia.
  by rewrite point_mul_add by done.
Qed.

Local Notation d := (secp256k1_gej_double_var inhabitant a false).1.
Local Notation g := (fe_val (gej_z d)).

Lemma double_coords :
  ∃ x y, point_eq (point_add P P) (Some (x, y)) ∧ fe_mag 8 (gej_z d) ∧ coords_are d g (x, y).
Proof.
  destruct (gej_double_spec inhabitant a false P Ha (on_curve_regular _ HP)) as [Hd _].
  assert (point_eq (point_add P P) (point_double P)) as E.
  { destruct P as [[x y]|]; [|done]. by rewrite point_add_same. }
  assert (finite (point_double P)) as Hfd.
  { rewrite <- E. destruct (finite_dec (point_add P P)) as [E0|]; [|done]. apply no_double_None in E0; [|done].
    by rewrite E0 in Hf. }
  rewrite (finite_coords _ Hfd) in Hd, E. destruct (coords (point_double P)) as [x y].
  exists x, y. split; [done|]. by apply gej_is_coords.
Qed.

(** The tables after the step for [k]. *)
Record odd_inv (k : nat) (t : list secp256k1_gej * list secp256k1_fe) : Prop := OddInv {
  oi_prej : length t.1 = n;
  oi_zr : length t.2 = n;
  oi_point : ∀ j, (j ≤ k)%nat → gej_is (t.1 !!! j) (point_scale g (odd_multiple P j));
  oi_ratio : ∀ j, (j < k)%nat → fe_mag 8 (t.2 !!! S j) ∧
    fe_val (gej_z (t.1 !!! j)) * fe_val (t.2 !!! S j) ≡ₚ fe_val (gej_z (t.1 !!! S j)) }.

Lemma odd_multiples_step_inv (k : nat) (t : list secp256k1_gej * list secp256k1_fe) :
  (S k < n)%nat → odd_inv k t → odd_inv (S k) (odd_multiples_step (Ge (gej_x d) (gej_y d) 0) t (S k)).
Proof.
  intros Hk [Hlp Hlz Hpt Hra]. destruct t as [prej zr]. cbn [fst snd] in *.
  destruct double_coords as (x & y & ED & Mz & _ & Hgz & Fx & Fy).
  unfold odd_multiples_step. replace (S k - 1)%nat with k by lia.
  assert (ge_is (Ge (gej_x d) (gej_y d) 0) (point_scale g (Some (x, y)))) as Hge by done.
  pose proof (gej_add_ge_var_spec (prej !!! S k) (prej !!! k) _ true _ _ (Hpt k ltac:(lia))
    (scale_regular _ Hgz _ (odd_multiple_on_curve k)) Hge) as [Hsum Hrz].
  assert (point_eq (point_add (point_scale g (odd_multiple P k)) (point_scale g (Some (x, y))))
    (point_scale g (odd_multiple P (S k)))) as E.
  { rewrite scale_add by done. by rewrite odd_multiple_succ, ED. }
  destruct (secp256k1_gej_add_ge_var _ _ _ _) as [p z]. cbn [fst snd] in *.
  assert (∃ f v, z = Some f ∧ fe_is 3 f v ∧ fe_val (gej_z p) ≡ₚ fe_val (gej_z (prej !!! k)) * v)
    as (f & v & -> & [Mf Vf] & Ez).
  { apply Hrz; [done|..].
    - pose proof (odd_multiple_finite k ltac:(lia)) as H. rewrite (finite_coords _ H). by destruct (coords _).
    - intros E0. rewrite E0 in E. pose proof (odd_multiple_finite (S k) ltac:(lia)) as H.
      rewrite (finite_coords _ H) in E. by destruct (coords _). }
  rewrite E in Hsum. split; cbn [fst snd].
  - by rewrite length_insert.
  - by rewrite length_insert.
  - intros j Hj. destruct (decide (j = S k)) as [->|Hne].
    + by rewrite list_lookup_total_insert_eq by lia.
    + rewrite list_lookup_total_insert_ne by done. apply Hpt. lia.
  - intros j Hj. rewrite (list_lookup_total_insert_ne prej) by lia. destruct (decide (j = k)) as [->|Hne].
    + rewrite !list_lookup_total_insert_eq by lia. split; [by apply (fe_mag_mono 3)|]. by rewrite Ez, Vf.
    + rewrite !list_lookup_total_insert_ne by lia. apply Hra. lia.
Qed.

Lemma odd_multiples_table_spec (prej : list secp256k1_gej) (zr : list secp256k1_fe) :
  length prej = n → length zr = n →
  let '(prej', zr') := secp256k1_ecmult_odd_multiples_table n prej zr a in
  ∃ z, (∀ i, (i < n)%nat → coords_are (prej' !!! i) (z i) (coords (odd_multiple P i))) ∧
    fe_is 8 (gej_z (prej' !!! (n - 1)%nat)) (z (n - 1)%nat) ∧
    (∀ i, (S i < n)%nat → fe_mag 8 (zr' !!! S i) ∧ z i * fe_val (zr' !!! S i) ≡ₚ z (S i)).
Proof.
  intros Hlp Hlz. unfold secp256k1_ecmult_odd_multiples_table. cbv zeta.
  destruct double_coords as (x & y & ED & Mz & _ & Hgz & Fx & Fy).
  set (d_ge := Ge (gej_x d) (gej_y d) 0). set (a_ge := secp256k1_ge_set_gej_zinv a (gej_z d)).
  set (p0 := Gej (ge_x a_ge) (ge_y a_ge) (gej_z a) 0).
  assert (∀ k, (k < n)%nat → odd_inv k (foldl (odd_multiples_step d_ge) (<[0%nat := p0]> prej, <[0%nat := gej_z d]> zr) (seq 1 k))) as HI.
  { induction k as [|k IH]; intros Hk.
    - split; cbn [foldl seq fst snd]; [by rewrite length_insert..| |lia].
      intros j Hj. assert (j = O) as -> by lia. rewrite list_lookup_total_insert_eq by lia.
      by apply set_gej_zinv_scale.
    - rewrite seq_S, foldl_app. cbn [foldl]. apply odd_multiples_step_inv; [lia|apply IH; lia]. }
  specialize (HI (n - 1)%nat ltac:(lia)). destruct (foldl _ _ _) as [prej1 zr1]. destruct HI as [L1 L2 Hpt Hra].
  cbn [fst snd] in *. exists (λ i, fe_val (gej_z (prej1 !!! i)) * g).
  assert (∀ i, (i < n)%nat → fe_mag 8 (gej_z (prej1 !!! i)) ∧
    coords_are (prej1 !!! i) (fe_val (gej_z (prej1 !!! i)) * g) (coords (odd_multiple P i))) as Hc.
  { intros i Hi. apply scale_coords; [done|apply Hpt; lia|by apply odd_multiple_finite]. }
  split_and!.
  - intros i Hi. destruct (decide (i = n - 1)%nat) as [->|Hne].
    + rewrite list_lookup_total_insert_eq by lia. apply (Hc (n - 1)%nat). lia.
    + rewrite list_lookup_total_insert_ne by done. by apply Hc.
  - rewrite list_lookup_total_insert_eq by lia. cbn [gej_z]. destruct (Hc (n - 1)%nat ltac:(lia)) as [M1 _].
    destruct (fe_mul_spec _ _ M1 Mz) as [Mm Vm]. split; [by apply (fe_mag_mono 1)|done].
  - intros i Hi. destruct (Hra i ltac:(lia)) as [Mr Er]. split; [done|]. rewrite <- Er. apply eqp_exact. ring.
Qed.
End OddMultiples.

(** * Tables *)

#[global] Instance ge_is_proper (a : secp256k1_ge) : Proper (point_eq ==> iff) (ge_is a).
Proof.
  assert (∀ P Q, point_eq P Q → ge_is a P → ge_is a Q) as H.
  { intros [[x1 y1]|] [[x2 y2]|]; try done. intros [Hx Hy] (H1 & H2 & H3).
    split_and!; [done|by eapply fe_is_proper..]. }
  intros P Q E. split; [by apply H|]. symmetry in E. by apply H.
Qed.

(** The table that is left for a point, with a common [z]. *)
Definition table_scaled (w : Z) (P : point) (pre : list secp256k1_ge) (g : Z) : Prop :=
  ∀ i, (i < ECMULT_TABLE_SIZE w)%nat → ge_is (pre !!! i) (point_scale g (odd_multiple P i)).

(** The table that is stored for a point. *)
Definition table_stored (w : Z) (P : point) (pre : list secp256k1_ge_storage) : Prop :=
  length pre = ECMULT_TABLE_SIZE w ∧
  ∀ i, (i < ECMULT_TABLE_SIZE w)%nat → ge_is (secp256k1_ge_from_storage (pre !!! i)) (odd_multiple P i).

Lemma table_size (w : Z) : 2 ≤ w → Z.of_nat (ECMULT_TABLE_SIZE w) = 2 ^ (w - 2).
Proof. intros Hw. unfold ECMULT_TABLE_SIZE. rewrite Z.shiftl_1_l. lia. Qed.

Section Tables.
Context (P : point) (a : secp256k1_gej).
Hypothesis HP : on_curve P.
Hypothesis Hf : finite P.
Hypothesis Ha : gej_is a P.

Lemma globalz_windowa_spec :
  let '(pre, Zg) := secp256k1_ecmult_odd_multiples_table_globalz_windowa a in
  fe_mag 8 Zg ∧ ¬ fe_val Zg ≡ₚ 0 ∧ table_scaled WINDOW_A P pre (fe_val Zg).
Proof.
  unfold secp256k1_ecmult_odd_multiples_table_globalz_windowa, table_scaled. cbv zeta.
  set (n := ECMULT_TABLE_SIZE WINDOW_A). assert (n = 8%nat) as Hn by done.
  assert (2 * Z.of_nat n < group_order) as Hsmall by (rewrite Hn; by vm_compute).
  pose proof (odd_multiples_table_spec n P a HP Hf Ha ltac:(lia) Hsmall (replicate n inhabitant) (replicate n inhabitant)
    (length_replicate _ _) (length_replicate _ _)) as H.
  destruct (secp256k1_ecmult_odd_multiples_table _ _ _ _) as [prej zr]. destruct H as (z & H1 & H2 & H3).
  pose proof (globalz_set_table_spec n prej zr _ z H1 H2 H3 (replicate n inhabitant) inhabitant
    (length_replicate _ _) ltac:(lia)) as H.
  destruct (secp256k1_ge_globalz_set_table_gej _ _ _ _ _) as [pre Zg]. destruct H as (Hl & Hpre & [Mg Vg]).
  split_and!; [done|rewrite Vg; by apply (H1 (n - 1)%nat); lia|].
  intros i Hi. destruct (Hpre i Hi) as [Hi0 Hq]. rewrite (finite_coords _ (odd_multiple_finite n P HP Hf ltac:(lia) Hsmall i Hi)).
  destruct (coords (odd_multiple P i)) as [x y]. destruct Hq as (_ & w & Hw & [_ Ew] & Fx & Fy). cbn [gej_z gej_x gej_y] in *.
  split_and!; [done|..]; (eapply fe_is_proper; [eassumption|]); by rewrite Ew.
Qed.

Lemma table_storage_var_spec (w : Z) :
  2 ≤ w ≤ 31 → table_stored w P (secp256k1_ecmult_odd_multiples_table_storage_var (ECMULT_TABLE_SIZE w) a).
Proof.
  intros Hw. unfold secp256k1_ecmult_odd_multiples_table_storage_var, table_stored.
  pose proof (table_size w ltac:(lia)) as Hsz. set (n := ECMULT_TABLE_SIZE w) in *. clearbody n.
  assert (2 ^ (w - 2) ≤ 2 ^ 29) as Hle by (apply Z.pow_le_mono_r; lia).
  assert (2 ^ 31 < group_order) as Hord by (by vm_compute).
  assert (2 * Z.of_nat n < group_order) as Hsmall by lia.
  pose proof (odd_multiples_table_spec n P a HP Hf Ha ltac:(lia) Hsmall (replicate n inhabitant) (replicate n inhabitant)
    (length_replicate _ _) (length_replicate _ _)) as H.
  destruct (secp256k1_ecmult_odd_multiples_table _ _ _ _) as [prej zr]. destruct H as (z & H1 & H2 & H3).
  destruct (set_table_spec n prej zr _ z H1 H2 H3 (replicate n inhabitant) (length_replicate _ _)) as [Hl Hr].
  set (prea := secp256k1_ge_set_table_gej_var _ _ _ _) in *. clearbody prea. rewrite length_map. split; [done|].
  intros i Hi. rewrite (list_lookup_total_fmap secp256k1_ge_to_storage) by lia.
  rewrite (finite_coords _ (odd_multiple_finite n P HP Hf ltac:(lia) Hsmall i Hi)).
  specialize (Hr i Hi). destruct (coords (odd_multiple P i)) as [x y]. by apply ge_storage_spec.
Qed.
End Tables.

(** An odd digit selects the multiple. *)
Lemma digit_index (w x : Z) :
  2 ≤ w → digit_ok w x → 0 < x →
  (Z.to_nat ((x - 1) / 2) < ECMULT_TABLE_SIZE w)%nat ∧ 2 * Z.of_nat (Z.to_nat ((x - 1) / 2)) + 1 = x.
Proof.
  intros Hw [->|[[k ->] Hx]] Hpos; [lia|]. replace (2 * k + 1 - 1) with (k * 2) by lia. rewrite Z.div_mul by lia.
  pose proof (table_size w Hw). assert (2 ^ (w - 1) = 2 * 2 ^ (w - 2)) by (rewrite <- Z.pow_succ_r by lia; f_equal; lia).
  lia.
Qed.

Lemma digit_ok_opp (w x : Z) : digit_ok w x → digit_ok w (- x).
Proof. intros [->|[[k ->] Hx]]; [by left|right]. split; [exists (- k - 1)|]; lia. Qed.

Lemma table_get_spec (w x : Z) (P : point) (pre : list secp256k1_ge) (g : Z) :
  2 ≤ w → on_curve P → table_scaled w P pre g → digit_ok w x → x ≠ 0 →
  ge_is (ECMULT_TABLE_GET_GE pre x) (point_scale g (point_mul x P)).
Proof.
  intros Hw HP Ht Hd Hx. unfold ECMULT_TABLE_GET_GE. destruct (Z.gtb_spec x 0) as [Hpos|Hneg].
  - destruct (digit_index w x Hw Hd ltac:(lia)) as [Hi E]. specialize (Ht _ Hi). unfold odd_multiple in Ht. by rewrite E in Ht.
  - destruct (digit_index w (- x) Hw (digit_ok_opp _ _ Hd) ltac:(lia)) as [Hi E]. specialize (Ht _ Hi).
    unfold odd_multiple in Ht. rewrite E in Ht. apply ge_neg_spec in Ht. rewrite scale_neg in Ht.
    by rewrite point_mul_opp, point_neg_involutive in Ht by done.
Qed.

Lemma table_get_storage_spec (w x : Z) (P : point) (pre : list secp256k1_ge_storage) :
  2 ≤ w → on_curve P → table_stored w P pre → digit_ok w x → x ≠ 0 →
  ge_is (ECMULT_TABLE_GET_GE_STORAGE pre x) (point_mul x P).
Proof.
  intros Hw HP [_ Ht] Hd Hx. unfold ECMULT_TABLE_GET_GE_STORAGE. destruct (Z.gtb_spec x 0) as [Hpos|Hneg].
  - destruct (digit_index w x Hw Hd ltac:(lia)) as [Hi E]. specialize (Ht _ Hi). unfold odd_multiple in Ht. by rewrite E in Ht.
  - destruct (digit_index w (- x) Hw (digit_ok_opp _ _ Hd) ltac:(lia)) as [Hi E]. specialize (Ht _ Hi).
    unfold odd_multiple in Ht. rewrite E in Ht. apply ge_neg_spec in Ht.
    by rewrite point_mul_opp, point_neg_involutive in Ht by done.
Qed.

(** * The loop *)

Lemma digits_val_drop (l : list Z) (i : nat) :
  (i < length l)%nat → digits_val (drop i l) = l !!! i + 2 * digits_val (drop (S i) l).
Proof.
  intros Hi. rewrite (drop_S l (l !!! i) i) by (by apply list_lookup_lookup_total_lt). done.
Qed.

Lemma digits_val_zero (l : list Z) (n : nat) :
  (∀ i, (n ≤ i < length l)%nat → l !!! i = 0) → digits_val (drop n l) = 0.
Proof.
  intros H. remember (length l - n)%nat as m eqn:Em. revert n H Em.
  induction m as [|m IH]; intros n H Em.
  - by rewrite drop_ge by lia.
  - rewrite digits_val_drop, IH, H by (try lia; intros; apply H; lia). done.
Qed.

Section Loop.
Context (A : point) (pre_a : list secp256k1_ge) (ctx_pre_g : list secp256k1_ge_storage) (Zg : secp256k1_fe).
Hypothesis HA : on_curve A.
Hypothesis Mg : fe_mag 8 Zg.
Hypothesis Hg : ¬ fe_val Zg ≡ₚ 0.
Hypothesis Ta : table_scaled WINDOW_A A pre_a (fe_val Zg).
Hypothesis Tg : table_stored WINDOW_G generator ctx_pre_g.
Context (wnaf_na wnaf_ng : list Z) (bits_na bits_ng : Z).
Hypothesis La : length wnaf_na = 256%nat.
Hypothesis Lg : length wnaf_ng = 256%nat.
Hypothesis Da : ∀ i, (i < 256)%nat → digit_ok WINDOW_A (wnaf_na !!! i).
Hypothesis Dg : ∀ i, (i < 256)%nat → digit_ok WINDOW_G (wnaf_ng !!! i).
Hypothesis Ba : ∀ i, bits_na ≤ Z.of_nat i < 256 → wnaf_na !!! i = 0.
Hypothesis Bg : ∀ i, bits_ng ≤ Z.of_nat i < 256 → wnaf_ng !!! i = 0.

(** The sum for the digits from [i] on. *)
Definition partial_sum (i : nat) : point :=
  point_add (point_mul (digits_val (drop i wnaf_na)) A) (point_mul (digits_val (drop i wnaf_ng)) generator).

Lemma partial_sum_on_curve (i : nat) : on_curve (partial_sum i).
Proof. unfold partial_sum. curve. Qed.

Lemma partial_sum_step (i : nat) :
  (i < 256)%nat →
  point_eq (partial_sum i)
    (point_add (point_add (point_add (partial_sum (S i)) (partial_sum (S i))) (point_mul (wnaf_na !!! i) A))
       (point_mul (wnaf_ng !!! i) generator)).
Proof.
  intros Hi. unfold partial_sum. rewrite (digits_val_drop wnaf_na i), (digits_val_drop wnaf_ng i) by lia.
  set (x := digits_val (drop (S i) wnaf_na)). set (y := digits_val (drop (S i) wnaf_ng)).
  replace (wnaf_na !!! i + 2 * x) with (x + x + wnaf_na !!! i) by lia.
  replace (wnaf_ng !!! i + 2 * y) with (y + y + wnaf_ng !!! i) by lia.
  rewrite !point_mul_add by curve.
  rewrite (point_add_swap (point_mul x A) (point_mul y generator)) by curve.
  set (X := point_add (point_mul x A) (point_mul x A)). set (Y := point_add (point_mul y generator) (point_mul y generator)).
  assert (on_curve X ∧ on_curve Y) as [HX HY] by (split; curve).
  rewrite (point_add_swap X) by curve. rewrite !point_add_assoc by curve. done.
Qed.

(** Adding a digit of [A], and of the generator. *)
Lemma add_digit_a (r : secp256k1_gej) (R : point) (i : nat) :
  on_curve R → gej_is r (point_scale (fe_val Zg) R) → (i < 256)%nat →
  gej_is (if (Z.of_nat i <? bits_na) && nonzero (wnaf_na !!! i) then
            (secp256k1_gej_add_ge_var r r (ECMULT_TABLE_GET_GE pre_a (wnaf_na !!! i)) false).1
          else r) (point_scale (fe_val Zg) (point_add R (point_mul (wnaf_na !!! i) A))).
Proof.
  intros HR Hr Hi. destruct (decide (wnaf_na !!! i = 0)) as [E|E].
  - rewrite E. cbn [nonzero Z.eqb negb]. rewrite andb_false_r. cbn [point_mul]. by rewrite point_add_None.
  - assert ((Z.of_nat i <? bits_na) = true) as -> by (apply Z.ltb_lt; destruct (Z.lt_ge_cases (Z.of_nat i) bits_na); [done|];
      destruct E; apply Ba; lia).
    assert (nonzero (wnaf_na !!! i) = true) as -> by (unfold nonzero; by apply Z.eqb_neq in E as ->). cbn [andb].
    rewrite <- scale_add by done. apply gej_add_ge_var_spec; [done|by apply scale_regular|].
    apply (table_get_spec WINDOW_A); [done|done|done|by apply Da|done].
Qed.

Lemma add_digit_g (r : secp256k1_gej) (R : point) (i : nat) :
  on_curve R → gej_is r (point_scale (fe_val Zg) R) → (i < 256)%nat →
  gej_is (if (Z.of_nat i <? bits_ng) && nonzero (wnaf_ng !!! i) then
            secp256k1_gej_add_zinv_var r r (ECMULT_TABLE_GET_GE_STORAGE ctx_pre_g (wnaf_ng !!! i)) Zg
          else r) (point_scale (fe_val Zg) (point_add R (point_mul (wnaf_ng !!! i) generator))).
Proof.
  intros HR Hr Hi. destruct (decide (wnaf_ng !!! i = 0)) as [E|E].
  - rewrite E. cbn [nonzero Z.eqb negb]. rewrite andb_false_r. cbn [point_mul]. by rewrite point_add_None.
  - assert ((Z.of_nat i <? bits_ng) = true) as -> by (apply Z.ltb_lt; destruct (Z.lt_ge_cases (Z.of_nat i) bits_ng); [done|];
      destruct E; apply Bg; lia).
    assert (nonzero (wnaf_ng !!! i) = true) as -> by (unfold nonzero; by apply Z.eqb_neq in E as ->). cbn [andb].
    rewrite <- scale_add by done. apply gej_add_zinv_spec; [done|by apply scale_regular|].
    pose proof (table_get_storage_spec WINDOW_G (wnaf_ng !!! i) generator ctx_pre_g ltac:(done) generator_on_curve Tg
      (Dg i Hi) E) as Ht.
    destruct (point_mul (wnaf_ng !!! i) generator) as [[x y]|]; [|exact Ht]. destruct Ht as (H1 & H2 & H3).
    split; [done|]. exists (fe_val Zg), x, y. split_and!; [done|by apply fe_is_self|done..].
Qed.

Lemma ecmult_loop_spec (r : secp256k1_gej) (i : nat) :
  (i ≤ 256)%nat → gej_is r (point_scale (fe_val Zg) (partial_sum i)) →
  gej_is (ecmult_loop ctx_pre_g pre_a Zg wnaf_na bits_na wnaf_ng bits_ng r i)
    (point_scale (fe_val Zg) (partial_sum 0)).
Proof.
  revert r. induction i as [|i IH]; intros r Hi Hr; [done|]. cbn [ecmult_loop]. apply IH; [lia|].
  rewrite partial_sum_step by lia. pose proof (partial_sum_on_curve (S i)) as HC.
  apply add_digit_g; [curve| |lia]. apply add_digit_a; [curve| |lia].
  rewrite <- scale_add by done. destruct (gej_double_spec r r false _ Hr (scale_regular _ Hg _ HC)) as [Hd _].
  destruct (partial_sum (S i)) as [[x y]|]; [|exact Hd]. cbn [point_scale] in *. by rewrite point_add_same by done.
Qed.
End Loop.

(** [ctx] holds the table for the generator. *)
Definition ecmult_ctx_ok (ctx : secp256k1_ecmult_context) : Prop :=
  match pre_g ctx with Some t => table_stored WINDOW_G generator t | None => False end.

Lemma ecmult_spec (ctx : secp256k1_ecmult_context) (a : secp256k1_gej) (A : point) (na ng : secp256k1_scalar) :
  ecmult_ctx_ok ctx → gej_is a A → on_curve A → finite A → scalar_ok na → scalar_ok ng →
  gej_is (secp256k1_ecmult ctx a na ng)
    (point_add (point_mul (scalar_val na) A) (point_mul (scalar_val ng) generator)).
Proof.
  intros Hctx Ha HA Hf Hna Hng. unfold ecmult_ctx_ok in Hctx. unfold secp256k1_ecmult.
  destruct (pre_g ctx) as [t|]; [|done]. cbn [default from_option id].
  pose proof (ecmult_wnaf_spec na WINDOW_A Hna ltac:(done)) as W1.
  destruct (secp256k1_ecmult_wnaf 256 na WINDOW_A) as [wnaf_na bits_na]. destruct W1 as (La & Va & Da & Ra & Ba & _).
  pose proof (globalz_windowa_spec A a HA Hf Ha) as WT.
  destruct (secp256k1_ecmult_odd_multiples_table_globalz_windowa a) as [pre_a Zg]. destruct WT as (Mg & Hg & Ta).
  pose proof (ecmult_wnaf_spec ng WINDOW_G Hng ltac:(done)) as W2.
  destruct (secp256k1_ecmult_wnaf 256 ng WINDOW_G) as [wnaf_ng bits_ng]. destruct W2 as (Lg & Vg & Dg & Rg & Bg & _).
  cbv zeta. set (bits := if bits_ng >? bits_na then bits_ng else bits_na).
  assert (bits_na ≤ bits ∧ bits_ng ≤ bits ∧ 0 ≤ bits ≤ 256) as (H1 & H2 & H3)
    by (unfold bits; destruct (Z.gtb_spec bits_ng bits_na); lia).
  clearbody bits. set (r := ecmult_loop _ _ _ _ _ _ _ _ _).
  assert (gej_is r (point_scale (fe_val Zg) (partial_sum A wnaf_na wnaf_ng 0))) as Hr.
  { apply ecmult_loop_spec; try done; [lia|]. unfold partial_sum. rewrite !digits_val_zero; [done| |];
      intros i Hi; [apply Bg|apply Ba]; lia. }
  clearbody r. unfold partial_sum in Hr. rewrite !drop_0 in Hr.
  assert (∀ x k P, on_curve P → k = x ∨ k = x - group_order → point_eq (point_mul k P) (point_mul x P)) as Hmod.
  { intros x k P HP [->| ->]; [done|]. rewrite <- (point_mul_mod x), <- (point_mul_mod (x - group_order)) by done.
    replace (x - group_order) with (x + (-1) * group_order) by lia. by rewrite Z_mod_plus_full. }
  rewrite (Hmod _ _ A HA Va), (Hmod _ _ generator generator_on_curve Vg) in Hr.
  destruct (point_add _ _) as [[x y]|]; cbn [point_scale] in Hr.
  - destruct Hr as (Hi & z & Hz & Fz & Fx & Fy). rewrite Hi. change (negb (nonzero 0)) with true. cbv iota.
    split; [done|]. exists (z * fe_val Zg). cbn [gej_x gej_y gej_z].
    split_and!; [by apply eqp_mul_nonzero|..].
    + apply (fe_is_mono 1); [|lia]. exact (fe_is_mul 8 8 _ _ _ _ Fz (fe_is_self _ _ Mg) ltac:(lia) ltac:(lia)).
    + eapply fe_is_eq; [eassumption|ring].
    + eapply fe_is_eq; [eassumption|ring].
  - cbn [gej_is] in Hr. rewrite Hr. done.
Qed.

Lemma generator_ge : ge_is secp256k1_ge_const_g generator.
Proof.
  assert (∀ f v, forallb (λ '(x, b), (0 <=? x) && (x <=? 16 * b)) (zip (fe_n f) limb_max) = true →
    length (fe_n f) = 10%nat → fe_val f = v → fe_is 8 f v) as H.
  { intros f v Hb Hl <-. split; [|done]. unfold fe_mag, limbs_le. apply Forall2_same_length_lookup_2; [done|].
    intros i x b Ex Eb. rewrite forallb_forall in Hb. specialize (Hb (x, b)). cbv beta iota in Hb.
    rewrite andb_true_iff, !Z.leb_le in Hb. apply Hb. apply list_elem_of_In. apply list_elem_of_lookup. exists i.
    by rewrite lookup_zip_with, Ex, Eb. }
  split_and!; [done|apply H; by vm_compute..].
Qed.

Lemma ecmult_context_build_ok (ctx : secp256k1_ecmult_context) :
  ecmult_ctx_ok ctx ∨ pre_g ctx = None → ecmult_ctx_ok (secp256k1_ecmult_context_build ctx).
Proof.
  unfold ecmult_ctx_ok, secp256k1_ecmult_context_build. intros [H|H].
  - destruct (pre_g ctx) as [t|] eqn:E; [by rewrite E|done].
  - rewrite H. cbn [pre_g]. apply table_storage_var_spec; [apply generator_on_curve|done| |done].
    apply gej_set_ge_spec. apply generator_ge.
Qed.
