(* ===== verification/Secp256k1EcmultGen.v ===== *)
(** Multiples of the generator: src/src/secp256k1/src/ecmult_gen_impl.h, with the table
    computed when the context is built.

    [secp256k1_ecmult_gen] adds one entry of the table per four bits, without branches and
    without indexing by the number, and starts from a point that hides the number: [initial]
    is [- blind] times the generator.  The table [prec[64][16]] is one list of 1024
    entries here.  The loops of [secp256k1_ecmult_gen_blind] that draw random bytes again while they
    are out of range are bounded by [fuel]; the result is [None] if it is used up.
    [local] and [mem] are what memory holds before it is written. *)

From Stdlib Require Import ZArith Lia Strings.Byte Strings.String.
From stdpp Require Import base gmap list fin_maps numbers.
From S2P Require Import Prelude Mem Lz4Common Secp256k1Scalar Secp256k1Field Secp256k1Group Secp256k1Ecmult Secp256k1Hash.

Record secp256k1_ecmult_gen_context := EcmultGenContext {
  prec : option (list secp256k1_ge_storage); blind : secp256k1_scalar; initial : secp256k1_gej }.

Definition secp256k1_ecmult_gen_context_init (ctx : secp256k1_ecmult_gen_context) : secp256k1_ecmult_gen_context :=
  EcmultGenContext None (blind ctx) (initial ctx).

Definition secp256k1_ecmult_gen_context_is_built (ctx : secp256k1_ecmult_gen_context) : bool :=
  match prec ctx with Some _ => true | None => false end.

Definition secp256k1_ecmult_gen_context_clone (dst src : secp256k1_ecmult_gen_context) : secp256k1_ecmult_gen_context :=
  match prec src with
  | None => EcmultGenContext None (blind dst) (initial dst)
  | Some t => EcmultGenContext (Some (take 1024 t)) (blind src) (initial src)
  end.

Definition secp256k1_ecmult_gen_context_clear (ctx : secp256k1_ecmult_gen_context) : secp256k1_ecmult_gen_context :=
  EcmultGenContext None secp256k1_scalar_clear secp256k1_gej_clear.

(** * The multiplication *)

(** [for (i = 0; i < 16; i++)]: the entry number [bits] of the row. *)
Definition select_row (row : list secp256k1_ge_storage) (bits : Z) (adds : secp256k1_ge_storage) : secp256k1_ge_storage :=
  foldl (λ adds i, secp256k1_ge_storage_cmov adds (row !!! i) (truth (Z.of_nat i =? bits))) adds (seq 0 16).

(** A step of [for (j = 0; j < 64; j++)], on [r] and [adds]. *)
Definition gen_step (table : list secp256k1_ge_storage) (gnb : secp256k1_scalar)
  (st : secp256k1_gej * secp256k1_ge_storage) (j : nat) : secp256k1_gej * secp256k1_ge_storage :=
  let '(r, adds) := st in
  let bits := secp256k1_scalar_get_bits gnb (Z.of_nat j * 4) 4 in
  let adds := select_row (take 16 (drop (j * 16) table)) bits adds in
  let add := secp256k1_ge_from_storage adds in
  (secp256k1_gej_add_ge r add, adds).

Definition zero_storage : secp256k1_ge_storage :=
  GeStorage (FeStorage (replicate 8 0)) (FeStorage (replicate 8 0)).

Definition secp256k1_ecmult_gen (ctx : secp256k1_ecmult_gen_context) (gn : secp256k1_scalar) : secp256k1_gej :=
  let adds := zero_storage in
  let r := initial ctx in
  let gnb := (secp256k1_scalar_add gn (blind ctx)).1 in
  (foldl (gen_step (default [] (prec ctx)) gnb) (r, adds) (seq 0 64)).1.

(** * Blinding *)

Section Build.
Context `{Arch} (local : secp256k1_sha256_t) (mem : nat → list secp256k1_fe).

(** [do { ... } while (retry)] for the factor of the projection. *)
Fixpoint draw_fe (fuel : nat) (rng : secp256k1_rfc6979_hmac_sha256_t) :
  option (secp256k1_rfc6979_hmac_sha256_t * secp256k1_fe) :=
  match fuel with
  | O => None
  | S fuel =>
      let '(rng, nonce32) := secp256k1_rfc6979_hmac_sha256_generate local rng 32 in
      let '(s, ok) := secp256k1_fe_set_b32 nonce32 in
      let retry := truth (negb (nonzero ok)) in
      let retry := Z.lor retry (secp256k1_fe_is_zero s) in
      if nonzero retry then draw_fe fuel rng else Some (rng, s)
  end.

(** [do { ... } while (retry)] for the blinding value. *)
Fixpoint draw_scalar (fuel : nat) (rng : secp256k1_rfc6979_hmac_sha256_t) :
  option (secp256k1_rfc6979_hmac_sha256_t * secp256k1_scalar) :=
  match fuel with
  | O => None
  | S fuel =>
      let '(rng, nonce32) := secp256k1_rfc6979_hmac_sha256_generate local rng 32 in
      let '(b, retry) := secp256k1_scalar_set_b32 nonce32 in
      let retry := Z.lor retry (secp256k1_scalar_is_zero b) in
      if nonzero retry then draw_scalar fuel rng else Some (rng, b)
  end.

Definition secp256k1_ecmult_gen_blind (fuel : nat) (ctx : secp256k1_ecmult_gen_context) (seed32 : option (list byte)) :
  option secp256k1_ecmult_gen_context :=
  let ctx :=
    match seed32 with
    | None =>
        EcmultGenContext (prec ctx) (secp256k1_scalar_set_int 1)
          (secp256k1_gej_neg (secp256k1_gej_set_ge secp256k1_ge_const_g))
    | Some _ => ctx
    end in
  let nonce32 := secp256k1_scalar_get_b32 (blind ctx) in
  let keydata := match seed32 with None => nonce32 | Some seed => nonce32 ++ take 32 seed end in
  let rng := secp256k1_rfc6979_hmac_sha256_initialize local keydata in
  match draw_fe fuel rng with
  | None => None
  | Some (rng, s) =>
      let ctx := EcmultGenContext (prec ctx) (blind ctx) (secp256k1_gej_rescale (initial ctx) s) in
      match draw_scalar fuel rng with
      | None => None
      | Some (_, b) =>
          let gb := secp256k1_ecmult_gen ctx b in
          let b := secp256k1_scalar_negate b in
          Some (EcmultGenContext (prec ctx) b gb)
      end
  end.

(** * The table *)

Definition nums_b32 : list byte := list_byte_of_string "The scalar for this x is unknown".

(** The point with no known logarithm, plus the generator. *)
Definition nums_point : secp256k1_gej :=
  let nums_x := (secp256k1_fe_set_b32 nums_b32).1 in
  let nums_ge := (secp256k1_ge_set_xo_var nums_x 0).1 in
  let nums_gej := secp256k1_gej_set_ge nums_ge in
  (secp256k1_gej_add_ge_var nums_gej nums_gej secp256k1_ge_const_g false).1.

(** [precj[j*16 .. j*16+15]], from the last entry written; [n] are left. *)
Fixpoint prec_row (n : nat) (p gbase : secp256k1_gej) : list secp256k1_gej :=
  match n with
  | O => [p]
  | S n => p :: prec_row n (secp256k1_gej_add_var inhabitant p gbase false).1 gbase
  end.

Definition double_gej (a : secp256k1_gej) : secp256k1_gej := (secp256k1_gej_double_var a a false).1.

(** [for (j = 0; j < 64; j++)]: the rows from [j] on, of which [n] are left. *)
Fixpoint prec_rows (n j : nat) (nums_gej gbase numsbase : secp256k1_gej) : list secp256k1_gej :=
  match n with
  | O => []
  | S n =>
      let row := prec_row 15 numsbase gbase in
      let gbase := Nat.iter 4 double_gej gbase in
      let numsbase := double_gej numsbase in
      let numsbase :=
        if (j =? 62)%nat then
          let numsbase := secp256k1_gej_neg numsbase in
          (secp256k1_gej_add_var numsbase numsbase nums_gej false).1
        else numsbase in
      row ++ prec_rows n (S j) nums_gej gbase numsbase
  end.

Definition secp256k1_ecmult_gen_context_build (fuel : nat) (ctx : secp256k1_ecmult_gen_context) :
  option secp256k1_ecmult_gen_context :=
  match prec ctx with
  | Some _ => Some ctx
  | None =>
      let gj := secp256k1_gej_set_ge secp256k1_ge_const_g in
      let nums_gej := nums_point in
      let precj := prec_rows 64 0 nums_gej gj nums_gej in
      let prec := secp256k1_ge_set_all_gej_var (replicate 1024 inhabitant) precj mem in
      let ctx := EcmultGenContext (Some (map secp256k1_ge_to_storage prec)) (blind ctx) (initial ctx) in
      secp256k1_ecmult_gen_blind fuel ctx None
  end.
End Build.
