(* ===== verification/Secp256k1EcmultGenProofs.v ===== *)
(** [secp256k1_ecmult_gen] computes multiples of the generator, and blinding keeps it so.

    Entry [i] of row [j] of the table stands for [c U + i 16^j G], where [U] is a point with
    no known logarithm and the factors [c] ([nums_coef]) add up to 0 over the rows.  The
    entries selected by the digits of the number thus add up to the number times [G].  The sum
    starts from [- blind G] and the number is increased by [blind].  No sum needs to be
    finite on the way: the addition without branches handles all cases. *)

From Stdlib Require Import ZArith Lia Strings.Byte.
From stdpp Require Import base gmap list fin_maps numbers.
From S2P Require Import Prelude Mem Lz4Common Secp256k1Scalar Secp256k1ScalarProofs Secp256k1ScalarOps Secp256k1Field Secp256k1FieldProofs Secp256k1FieldOps Secp256k1FieldApi Secp256k1Curve Secp256k1GroupLaw Secp256k1Order Secp256k1Group Secp256k1GroupProofs Secp256k1GroupApi Secp256k1Ecmult Secp256k1EcmultProofs Secp256k1Hash Secp256k1HashProofs Secp256k1HashApi Secp256k1EcmultGen.

#[local] Opaque group_order.

(** * The addition without branches keeps the magnitudes *)

Lemma gej_add_ge_mag (a : secp256k1_gej) (b : secp256k1_ge) :
  gej_mag a → gej_infinity a = 0 ∨ gej_infinity a = 1 → fe_mag 8 (ge_x b) → fe_mag 8 (ge_y b) →
  gej_mag (secp256k1_gej_add_ge a b).
Proof.
  intros (Mx & My & Mz) Hi Bx By. apply fe_is_self in Mx, My, Mz, Bx, By. set (R := gej_mag).
  cbv beta delta [secp256k1_gej_add_ge].
  let_any E1. pose proof fe_is_one as F1. rewrite <- E1 in F1. clear E1. fe_run. let_any Ed.
  destruct (degenerate_dec _ _ _ _ _ _ F7 F11 ltac:(lia) ltac:(lia)) as [(_ & _ & Td)|(_ & Td)];
    cbv zeta in Td; rewrite Td in Ed; rewrite Ed; clear Ed Td;
    [change (truth (1 =? 0)) with 0|change (truth (0 =? 0)) with 1]; fe_run; let_any Ei; clear Ei;
    (destruct Hi as [Hi|Hi]; rewrite Hi); fe_run; subst R;
    (split_and!; cbn [gej_x gej_y gej_z];
     match goal with H : fe_is ?m ?f _ |- fe_mag 8 ?f => apply (fe_mag_mono m); [apply H|lia] end).
Qed.

(** * Selecting an entry *)

Definition ge_storage_wf (s : secp256k1_ge_storage) : Prop := st_wf (gs_x s) ∧ st_wf (gs_y s).

Lemma ge_storage_cmov_spec (r a : secp256k1_ge_storage) (flag : bool) :
  ge_storage_wf r → ge_storage_wf a → secp256k1_ge_storage_cmov r a (truth flag) = if flag then a else r.
Proof.
  intros [[Lrx Rx] [Lry Ry]] [[Lax Ax] [Lay Ay]]. unfold secp256k1_ge_storage_cmov, secp256k1_fe_storage_cmov.
  rewrite !cmov_limbs_spec by (done || congruence). by destruct flag, r as [[?] [?]], a as [[?] [?]].
Qed.

Lemma select_row_spec (row : list secp256k1_ge_storage) (bits : nat) (adds : secp256k1_ge_storage) :
  (bits < 16)%nat → ge_storage_wf adds → (∀ i, (i < 16)%nat → ge_storage_wf (row !!! i)) →
  select_row row (Z.of_nat bits) adds = row !!! bits.
Proof.
  intros Hb Hadds Hrow. unfold select_row.
  assert (∀ n, (n ≤ 16)%nat →
    foldl (λ adds i, secp256k1_ge_storage_cmov adds (row !!! i) (truth (Z.of_nat i =? Z.of_nat bits))) adds (seq 0 n) =
    if (bits <? n)%nat then row !!! bits else adds) as H.
  { intros n. induction n as [|n IH]; intros Hn; [done|]. rewrite seq_S, foldl_app, IH by lia. cbn [foldl].
    rewrite Nat.add_0_l, ge_storage_cmov_spec; [|by destruct (bits <? n)%nat; [apply Hrow|]|apply Hrow; lia].
    destruct (Z.eqb_spec (Z.of_nat n) (Z.of_nat bits)), (Nat.ltb_spec bits n), (Nat.ltb_spec bits (S n));
      try lia; [|done..]. by replace n with bits by lia. }
  rewrite H by lia. by destruct (Nat.ltb_spec bits 16); [|lia].
Qed.

(** * The table *)

Definition nums_coef (j : nat) : Z := if (j =? 63)%nat then 1 - 2 ^ 63 else 2 ^ Z.of_nat j.

(** The sum of the factors of the first rows. *)
Definition nums_sum (n : nat) : Z := if (n =? 64)%nat then 0 else 2 ^ Z.of_nat n - 1.

Lemma nums_sum_succ (j : nat) : (j < 64)%nat → nums_sum (S j) = nums_sum j + nums_coef j.
Proof.
  intros Hj. unfold nums_sum, nums_coef. destruct (Nat.eqb_spec j 64), (Nat.eqb_spec j 63), (Nat.eqb_spec (S j) 64); try lia.
  - by subst j.
  - rewrite Nat2Z.inj_succ, Z.pow_succ_r by lia. lia.
Qed.

Definition gen_entry (U : point) (j : nat) (i : Z) : point :=
  point_add (point_mul (nums_coef j) U) (point_mul (i * 16 ^ Z.of_nat j) generator).

Definition gen_table_ok (U : point) (t : list secp256k1_ge_storage) : Prop :=
  ∀ j i, (j < 64)%nat → (i < 16)%nat → ge_storage_wf (t !!! (j * 16 + i)%nat) ∧
    ge_is (secp256k1_ge_from_storage (t !!! (j * 16 + i)%nat)) (gen_entry U j (Z.of_nat i)).

Section Table.
Context (U : point) (t : list secp256k1_ge_storage).
Hypothesis HU : on_curve U.
Hypothesis Ht : gen_table_ok U t.

Lemma gen_entry_on_curve (j : nat) (i : Z) : on_curve (gen_entry U j i).
Proof. unfold gen_entry. curve. Qed.

Lemma row_entry (j i : nat) : (i < 16)%nat → take 16 (drop (j * 16) t) !!! i = t !!! (j * 16 + i)%nat.
Proof. intros Hi. rewrite !list_lookup_total_alt, lookup_take_lt, lookup_drop by done. done. Qed.

(** The digits of the number. *)
Context (gnb : secp256k1_scalar).
Hypothesis Hgnb : scalar_ok gnb.
Local Notation v := (scalar_val gnb).

Lemma digit_spec (j : nat) :
  (j < 64)%nat → ∃ b, (b < 16)%nat ∧ secp256k1_scalar_get_bits gnb (Z.of_nat j * 4) 4 = Z.of_nat b ∧
    v mod 16 ^ Z.of_nat (S j) = v mod 16 ^ Z.of_nat j + Z.of_nat b * 16 ^ Z.of_nat j.
Proof.
  intros Hj. exists (Z.to_nat ((v / 16 ^ Z.of_nat j) mod 16)).
  pose proof (Z.mod_pos_bound (v / 16 ^ Z.of_nat j) 16 ltac:(lia)). split_and!; [lia| |].
  - rewrite get_bits_spec; [|apply Hgnb|lia|lia|zdiv]. change (2 ^ 4) with 16.
    rewrite Z.mul_comm, Z.pow_mul_r by lia. change (2 ^ 4) with 16. lia.
  - rewrite Z2Nat.id by lia. rewrite Nat2Z.inj_succ, Z.pow_succ_r, (Z.mul_comm 16) by lia.
    rewrite Z.rem_mul_r by (try lia; apply Z.pow_nonzero; lia). lia.
Qed.

(** The sum before row [n], from the point [I]. *)
Definition gen_sum (I : point) (n : nat) : point :=
  point_add I (point_add (point_mul (nums_sum n) U) (point_mul (v mod 16 ^ Z.of_nat n) generator)).

Lemma gen_sum_on_curve (I : point) (n : nat) : on_curve I → on_curve (gen_sum I n).
Proof. intros HI. unfold gen_sum. curve. Qed.

Lemma gen_sum_step (I : point) (j : nat) (b : Z) :
  on_curve I → (j < 64)%nat → v mod 16 ^ Z.of_nat (S j) = v mod 16 ^ Z.of_nat j + b * 16 ^ Z.of_nat j →
  point_eq (gen_sum I (S j)) (point_add (gen_sum I j) (gen_entry U j b)).
Proof.
  intros HI Hj E. unfold gen_sum, gen_entry. rewrite nums_sum_succ, E, !point_mul_add by (done || curve).
  rewrite (point_add_assoc I) by curve. by rewrite (point_add_swap (point_mul (nums_sum j) U)) by curve.
Qed.

Lemma gen_loop_spec (I : point) (r : secp256k1_gej) (adds : secp256k1_ge_storage) (n : nat) :
  on_curve I → gej_is r I → gej_mag r → ge_storage_wf adds → (n ≤ 64)%nat →
  let '(r', adds') := foldl (gen_step t gnb) (r, adds) (seq 0 n) in
  gej_is r' (gen_sum I n) ∧ gej_mag r' ∧ ge_storage_wf adds'.
Proof.
  intros HI Hr Mr Hadds. induction n as [|n IH]; intros Hn.
  { cbn [seq foldl]. split_and!; [|done..]. unfold gen_sum, nums_sum. cbn [Nat.eqb]. change (2 ^ Z.of_nat 0 - 1) with 0.
    change (16 ^ Z.of_nat 0) with 1. rewrite Z.mod_1_r. cbn [point_mul]. by rewrite !point_add_None. }
  specialize (IH ltac:(lia)). rewrite seq_S, foldl_app. destruct (foldl _ _ (seq 0 n)) as [r1 adds1].
  destruct IH as (H1 & M1 & W1). cbn [foldl]. unfold gen_step. cbv zeta. rewrite Nat.add_0_l.
  destruct (digit_spec n ltac:(lia)) as (b & Hb & -> & Eb).
  rewrite select_row_spec; [|done|done|intros i Hi; rewrite row_entry by done; apply Ht; lia].
  rewrite row_entry by done. destruct (Ht n b ltac:(lia) Hb) as [Wb Gb].
  pose proof (gen_sum_step I n _ HI ltac:(lia) Eb) as ES. pose proof (gen_entry_on_curve n (Z.of_nat b)) as CE.
  set (s := t !!! (n * 16 + b)%nat) in *. destruct (gen_entry U n (Z.of_nat b)) as [[x y]|]; [|discriminate Gb].
  split_and!; [|apply gej_add_ge_mag|done].
  - rewrite ES. apply gej_add_ge_spec; [done|done|by apply gen_sum_on_curve|done|done].
  - done.
  - destruct (gen_sum I n) as [[??]|]; [left; apply H1|by right].
  - apply Gb.
  - apply Gb.
Qed.
End Table.

(** The table, the blinding value and the point that the sum starts from belong together. *)
Definition gen_ctx_ok (ctx : secp256k1_ecmult_gen_context) : Prop :=
  (∃ U t, on_curve U ∧ prec ctx = Some t ∧ gen_table_ok U t) ∧ scalar_ok (blind ctx) ∧
  gej_is (initial ctx) (point_mul (- scalar_val (blind ctx)) generator) ∧ gej_mag (initial ctx).

Lemma zero_storage_wf : ge_storage_wf zero_storage.
Proof. repeat split; repeat (constructor; [by split|]); constructor. Qed.

Lemma ecmult_gen_spec (ctx : secp256k1_ecmult_gen_context) (gn : secp256k1_scalar) :
  gen_ctx_ok ctx → scalar_ok gn →
  gej_is (secp256k1_ecmult_gen ctx gn) (point_mul (scalar_val gn) generator) ∧ gej_mag (secp256k1_ecmult_gen ctx gn).
Proof.
  intros ((U & t & HU & Et & Ht) & Hb & Hi & Mi) Hgn. unfold secp256k1_ecmult_gen. rewrite Et. cbn [default from_option id].
  destruct (add_spec gn (blind ctx) Hgn Hb) as (Ha & Va & _). set (gnb := (secp256k1_scalar_add gn (blind ctx)).1) in *.
  clearbody gnb. set (I := point_mul (- scalar_val (blind ctx)) generator) in *. assert (on_curve I) as HI by (unfold I; curve).
  pose proof (gen_loop_spec U t HU Ht gnb Ha I _ _ 64 HI Hi Mi zero_storage_wf ltac:(lia)) as H.
  destruct (foldl _ _ _) as [r adds]. destruct H as (Hr & Mr & _). cbn [fst]. split; [|done].
  assert (point_eq (gen_sum U gnb I 64) (point_mul (scalar_val gn) generator)) as <-; [|done].
  unfold gen_sum. change (nums_sum 64) with 0. cbn [point_mul]. rewrite Z.mod_small.
  2:{ destruct Ha as [Ha _]. apply scalar_wf_val in Ha. exact Ha. }
  change (point_add None ?P) with P. unfold I. rewrite <- point_mul_add by curve.
  rewrite Va. rewrite <- (point_mul_mod (_ + _)) by curve. rewrite Zplus_mod_idemp_r.
  replace (- _ + _) with (scalar_val gn) by lia. by rewrite point_mul_mod by curve.
Qed.

(** * Blinding *)

Section Blind.
Context `{Arch} (local : secp256k1_sha256_t).
Hypothesis Hlocal : length (buf local) = 64%nat.

Lemma generate_32 (rng : secp256k1_rfc6979_hmac_sha256_t) (st : drbg) :
  rng_is rng st →
  let '(rng', out) := secp256k1_rfc6979_hmac_sha256_generate local rng 32 in
  rng_is rng' (drbg_generate st 32).1 ∧ out = (drbg_generate st 32).2 ∧ length out = 32%nat.
Proof.
  intros Hr. pose proof (rfc6979_generate local Hlocal rng st 32 Hr ltac:(lia)) as H1.
  destruct (secp256k1_rfc6979_hmac_sha256_generate local rng 32) as [rng' out].
  assert (length (drbg_generate st 32).2 = 32%nat) as HL.
  { unfold drbg_generate. destruct (if again st then _ else _) as [K V]. cbn [snd].
    change (Z.to_nat ((32 + 31) / 32)) with 1%nat. cbn [drbg_blocks]. cbv zeta. rewrite mjoin_1, length_take, length_hmac_sha256. done. }
  destruct (drbg_generate st 32) as [st' out']. cbn [fst snd] in *. destruct H1 as [? ->]. done.
Qed.

(** A draw is a number in range that is not 0; the first output of the generator is taken
    if it is one. *)
Lemma draw_fe_spec (fuel : nat) (rng : secp256k1_rfc6979_hmac_sha256_t) (st : drbg) :
  rng_is rng st →
  match draw_fe local fuel rng with
  | Some (rng', s) => (∃ st', rng_is rng' st') ∧ fe_mag 8 s ∧ ¬ fe_val s ≡ₚ 0
  | None => True
  end.
Proof.
  revert rng st. induction fuel as [|fuel IH]; intros rng st Hr; [done|]. cbn [draw_fe].
  pose proof (generate_32 rng st Hr) as HG. destruct (secp256k1_rfc6979_hmac_sha256_generate local rng 32) as [rng' out].
  destruct HG as (Hr' & _ & HL). pose proof (fe_set_b32_spec out HL) as HB.
  destruct (secp256k1_fe_set_b32 out) as [s ok]. destruct HB as (Ms & Vs & ->). cbv zeta.
  destruct (nonzero _) eqn:ER; [by apply (IH rng' _ Hr')|]. split_and!; [by eexists|by apply (limbs_le_mono 1)|].
  destruct (Z.ltb_spec (be_val out) field_prime) as [Hlt|Hge]; cbn [truth nonzero Z.eqb negb] in ER.
  - pose proof (be_val_range32 out HL). rewrite fe_is_zero_spec in ER by (split; [done|lia]). unfold eqp.
    rewrite Vs, Z.mod_small, Z.mod_0_l by (done || lia). rewrite Vs in ER. by destruct (Z.eqb_spec (be_val out) 0).
  - unfold secp256k1_fe_is_zero in ER. by rewrite lor_1_truth in ER.
Qed.

Lemma draw_fe_first (fuel : nat) (rng : secp256k1_rfc6979_hmac_sha256_t) (st : drbg) :
  rng_is rng st → 0 < be_val (drbg_generate st 32).2 < field_prime →
  ∃ rng' s, draw_fe local (S fuel) rng = Some (rng', s) ∧ rng_is rng' (drbg_generate st 32).1.
Proof.
  intros Hr Hb. cbn [draw_fe]. pose proof (generate_32 rng st Hr) as HG.
  destruct (secp256k1_rfc6979_hmac_sha256_generate local rng 32) as [rng' out]. destruct HG as (Hr' & Eo & HL). rewrite <- Eo in Hb.
  pose proof (fe_set_b32_spec out HL) as HB. destruct (secp256k1_fe_set_b32 out) as [s ok]. destruct HB as (Ms & Vs & ->).
  cbv zeta. rewrite fe_is_zero_spec by (split; [done|lia]). rewrite Vs.
  destruct (Z.ltb_spec (be_val out) field_prime), (Z.eqb_spec (be_val out) 0); try lia. by exists rng', s.
Qed.

Lemma draw_scalar_spec (fuel : nat) (rng : secp256k1_rfc6979_hmac_sha256_t) (st : drbg) :
  rng_is rng st →
  match draw_scalar local fuel rng with Some (_, b) => scalar_ok b ∧ scalar_val b ≠ 0 | None => True end.
Proof.
  revert rng st. induction fuel as [|fuel IH]; intros rng st Hr; [done|]. cbn [draw_scalar].
  pose proof (generate_32 rng st Hr) as HG. destruct (secp256k1_rfc6979_hmac_sha256_generate local rng 32) as [rng' out].
  destruct HG as (Hr' & _ & HL). pose proof (set_b32_spec out HL) as HB.
  destruct (secp256k1_scalar_set_b32 out) as [b o]. destruct HB as (Hb & Vb & ->). cbv zeta.
  destruct (nonzero _) eqn:ER; [by apply (IH rng' _ Hr')|]. split; [done|].
  rewrite is_zero_spec in ER by apply Hb. intros E. rewrite E in ER.
  by destruct (group_order <=? be_val out).
Qed.

Lemma draw_scalar_first (fuel : nat) (rng : secp256k1_rfc6979_hmac_sha256_t) (st : drbg) :
  rng_is rng st → 0 < be_val (drbg_generate st 32).2 < group_order →
  ∃ rng' b, draw_scalar local (S fuel) rng = Some (rng', b).
Proof.
  intros Hr Hb. cbn [draw_scalar]. pose proof (generate_32 rng st Hr) as HG.
  destruct (secp256k1_rfc6979_hmac_sha256_generate local rng 32) as [rng' out]. destruct HG as (Hr' & Eo & HL). rewrite <- Eo in Hb.
  pose proof (set_b32_spec out HL) as HB. destruct (secp256k1_scalar_set_b32 out) as [b o]. destruct HB as (Ob & Vb & ->).
  cbv zeta. rewrite is_zero_spec by apply Ob. rewrite Vb, Z.mod_small by lia.
  destruct (Z.leb_spec group_order (be_val out)), (Z.eqb_spec (be_val out) 0); try lia. by exists rng', b.
Qed.

Lemma gej_is_mag (a : secp256k1_gej) (P : point) : gej_is a P → finite P → gej_mag a.
Proof. destruct P as [[x y]|]; [|done]. intros (_ & z & _ & Fz & Fx & Fy) _. split_and!; [apply Fx|apply Fy|apply Fz]. Qed.

Lemma gej_rescale_mag (r : secp256k1_gej) (s : secp256k1_fe) :
  gej_mag r → fe_mag 8 s → gej_mag (secp256k1_gej_rescale r s).
Proof.
  intros (Mx & My & Mz) Ms. apply fe_is_self in Mx, My, Mz, Ms. set (R := gej_mag).
  cbv beta delta [secp256k1_gej_rescale]. fe_run. subst R.
  split_and!; cbn [gej_x gej_y gej_z];
    match goal with H : fe_is ?m ?f _ |- fe_mag 8 ?f => apply (fe_mag_mono m); [apply H|lia] end.
Qed.

(** The values that a call without a seed starts from. *)
Lemma gen_ctx_reset (ctx : secp256k1_ecmult_gen_context) :
  (∃ U t, on_curve U ∧ prec ctx = Some t ∧ gen_table_ok U t) →
  gen_ctx_ok (EcmultGenContext (prec ctx) (secp256k1_scalar_set_int 1)
    (secp256k1_gej_neg (secp256k1_gej_set_ge secp256k1_ge_const_g))).
Proof.
  intros Ht. assert (scalar_ok (secp256k1_scalar_set_int 1) ∧ scalar_val (secp256k1_scalar_set_int 1) = 1) as [O1 V1].
  { split; [split; [split; [done|]|by vm_compute]|done]. repeat (constructor; [by split|]); constructor. }
  unfold gen_ctx_ok. cbn [prec blind initial]. rewrite V1. change (point_mul (- (1)) generator) with (point_neg generator).
  assert (gej_is (secp256k1_gej_neg (secp256k1_gej_set_ge secp256k1_ge_const_g)) (point_neg generator)) as Hg
    by (apply gej_neg_spec, gej_set_ge_spec, generator_ge).
  split_and!; [done|done|done|by eapply gej_is_mag].
Qed.

Lemma negate_opp (b : secp256k1_scalar) :
  scalar_ok b →
  point_eq (point_mul (- scalar_val (secp256k1_scalar_negate b)) generator) (point_mul (scalar_val b) generator).
Proof.
  intros Hb. rewrite point_mul_opp by curve. destruct (negate_spec b Hb) as [_ ->].
  rewrite point_mul_mod, point_mul_opp by curve. by rewrite point_neg_involutive.
Qed.

Lemma blind_from (fuel : nat) (ctx : secp256k1_ecmult_gen_context) (rng : secp256k1_rfc6979_hmac_sha256_t) (st : drbg) :
  gen_ctx_ok ctx → rng_is rng st →
  match
    match draw_fe local fuel rng with
    | None => None
    | Some (rng, s) =>
        let ctx := EcmultGenContext (prec ctx) (blind ctx) (secp256k1_gej_rescale (initial ctx) s) in
        match draw_scalar local fuel rng with
        | None => None
        | Some (_, b) =>
            let gb := secp256k1_ecmult_gen ctx b in
            let b := secp256k1_scalar_negate b in
            Some (EcmultGenContext (prec ctx) b gb)
        end
    end
  with Some ctx' => gen_ctx_ok ctx' ∧ prec ctx' = prec ctx | None => True end.
Proof.
  intros (Ht & Hb & Hi & Mi) Hr. pose proof (draw_fe_spec fuel rng st Hr) as HF.
  destruct (draw_fe local fuel rng) as [[rng' s]|]; [|done]. destruct HF as ([st' Hr'] & Ms & Hs).
  pose proof (draw_scalar_spec fuel rng' st' Hr') as HS.
  destruct (draw_scalar local fuel rng') as [[rng2 b]|]; [|done]. destruct HS as (Ob & _). cbv zeta. cbn [prec].
  destruct (ecmult_gen_spec (EcmultGenContext (prec ctx) (blind ctx) (secp256k1_gej_rescale (initial ctx) s)) b) as [Hg Mg].
  { split_and!; [done|done|by apply gej_rescale_spec|by apply gej_rescale_mag]. }
  { done. }
  split; [|done]. split_and!; [done|by apply negate_spec| |done]. cbn [initial blind]. by rewrite negate_opp.
Qed.

Lemma ecmult_gen_blind_spec (fuel : nat) (ctx ctx' : secp256k1_ecmult_gen_context) (seed32 : option (list byte)) :
  match seed32 with
  | None => ∃ U t, on_curve U ∧ prec ctx = Some t ∧ gen_table_ok U t
  | Some _ => gen_ctx_ok ctx
  end →
  secp256k1_ecmult_gen_blind local fuel ctx seed32 = Some ctx' → gen_ctx_ok ctx' ∧ prec ctx' = prec ctx.
Proof.
  intros Hctx HB. unfold secp256k1_ecmult_gen_blind in HB. cbv zeta in HB.
  assert (∀ (b : secp256k1_scalar) l, scalar_ok b → zlen (secp256k1_scalar_get_b32 b ++ take 32 l) < 2 ^ 29) as HL.
  { intros b l Ob. destruct (get_b32_spec b (proj1 Ob)) as [Lb _]. rewrite length_app, Lb, length_take. lia. }
  destruct seed32 as [seed|].
  - pose proof (HL (blind ctx) seed ltac:(apply Hctx)) as HLs.
    pose proof (blind_from fuel ctx _ _ Hctx (rfc6979_initialize local Hlocal _ HLs)) as H1. cbv zeta in H1.
    rewrite HB in H1. exact H1.
  - apply gen_ctx_reset in Hctx. set (ctx1 := EcmultGenContext _ _ _) in *.
    pose proof (HL (blind ctx1) [] ltac:(apply Hctx)) as HLs. rewrite take_nil, app_nil_r in HLs.
    pose proof (blind_from fuel ctx1 _ _ Hctx (rfc6979_initialize local Hlocal _ HLs)) as H1. cbv zeta in H1.
    rewrite HB in H1. exact H1.
Qed.

(** Without a seed the outputs of the generator are fixed, and both are in range. *)
Lemma reset_draws :
  let st := drbg_init (secp256k1_scalar_get_b32 (secp256k1_scalar_set_int 1)) in
  (0 <? be_val (drbg_generate st 32).2) && (be_val (drbg_generate st 32).2 <? field_prime) &&
  (0 <? be_val (drbg_generate (drbg_generate st 32).1 32).2) &&
  (be_val (drbg_generate (drbg_generate st 32).1 32).2 <? group_order) = true.
Proof. vm_compute. reflexivity. Qed.

Lemma ecmult_gen_blind_reset (fuel : nat) (ctx : secp256k1_ecmult_gen_context) :
  ∃ ctx', secp256k1_ecmult_gen_blind local (S fuel) ctx None = Some ctx'.
Proof.
  pose proof reset_draws as H1. cbv zeta in H1.
  unfold secp256k1_ecmult_gen_blind. cbv zeta. cbn [blind prec initial].
  assert (zlen (secp256k1_scalar_get_b32 (secp256k1_scalar_set_int 1)) < 2 ^ 29) as HL by (vm_compute; reflexivity).
  set (key := secp256k1_scalar_get_b32 (secp256k1_scalar_set_int 1)) in *. clearbody key.
  rewrite !andb_true_iff, !Z.ltb_lt in H1. destruct H1 as [[[H1 H2] H3] H4].
  pose proof (rfc6979_initialize local Hlocal key HL) as Hr.
  destruct (draw_fe_first fuel _ _ Hr (conj H1 H2)) as (rng' & s & -> & Hr').
  destruct (draw_scalar_first fuel _ _ Hr' (conj H3 H4)) as (rng2 & b & ->). by eexists.
Qed.
End Blind.
