(* ===== verification/Secp256k1EcmultGenTable.v ===== *)
(** Building the table for the generator.

    The table is stored in affine coordinates without a flag for the point at infinity, so
    it is correct only if no entry is at infinity.  This is a fact about the point that the
    code derives from a string: it is none of a few hundred small multiples of the generator.
    It is checked by computation, on Jacobian coordinates ([avoid]), after the
    conditions on the entries are divided by powers of 2. *)

From Stdlib Require Import ZArith Lia Strings.Byte.
From stdpp Require Import base gmap list fin_maps numbers.
From S2P Require Import Prelude Mem Lz4Common Primality Secp256k1Scalar Secp256k1ScalarProofs Secp256k1Field Secp256k1FieldProofs Secp256k1FieldOps Secp256k1FieldApi Secp256k1Curve Secp256k1GroupLaw Secp256k1Order Secp256k1Group Secp256k1GroupProofs Secp256k1GroupApi Secp256k1Ecmult Secp256k1EcmultProofs Secp256k1Hash Secp256k1EcmultGen Secp256k1EcmultGenProofs.

#[local] Opaque group_order.

(** * The point with no known logarithm *)

Definition nums_x : Z := 0x546865207363616c617220666f722074686973207820697320756e6b6e6f776e.
Definition nums_y : Z := 0x28ebb7e4e1f6a12e1c0faaf47e09c33305d50890856930e67e5299348ff7f20e.

(** The point that is used, and [2^63 - 1] times it. *)
Definition u_x : Z := 0x3a9ed3736eed3eec9aeb5ac021b5465256817b1f08de6cd0fbcee548ba044bb5.
Definition u_y : Z := 0x7bcc5928bdc9c023dfc663b89e4f6969ab7517988e600ec1d242010c45c7974a.
Definition w_x : Z := 0x53d772b6b18211f71478e9d33a0c061e2d23235844177867af91508de014f22d.
Definition w_y : Z := 0x4d17a5f87e9f2ce3c35cd26345fda6fbe415fc972614ec2175070af98cebcd57.

Definition nums : point := Some (nums_x, nums_y).
Definition u_point : point := Some (u_x, u_y).
Definition w_point : point := Some (w_x, w_y).

Lemma nums_on_curve : on_curve nums.
Proof. by vm_compute. Qed.

Lemma u_on_curve : on_curve u_point.
Proof. by vm_compute. Qed.

Lemma w_on_curve : on_curve w_point.
Proof. by vm_compute. Qed.
#[local] Hint Resolve nums_on_curve u_on_curve w_on_curve : curve.

(** Jacobian coordinates of a given point. *)
Definition jac_equals (J : Z * Z * Z) (x y : Z) : bool :=
  let '(X, Y, T) := J in
  ((X - x * (T * T)) mod field_prime =? 0) && ((Y - y * (T * T * T)) mod field_prime =? 0).

Lemma jac_equals_spec (J : Z * Z * Z) (x y : Z) (P : point) :
  jac_is J P → jac_equals J x y = true → point_eq P (Some (x, y)).
Proof.
  destruct J as [[X Y] T]. intros (x0 & y0 & E & HT & HX & HY). unfold jac_equals.
  rewrite andb_true_iff, !Z.eqb_eq, E. intros [H1 H2].
  change (X - x * (T * T) ≡ₚ 0) in H1. change (Y - y * (T * T * T) ≡ₚ 0) in H2. split.
  - apply (eqp_cancel (T * T)); [by apply eqp_mul_nonzero|]. apply (eqp_comb2 1 (-1) _ _ _ _ _ _ H1 HX). ring.
  - apply (eqp_cancel (T * T * T)); [by repeat apply eqp_mul_nonzero|].
    apply (eqp_comb2 1 (-1) _ _ _ _ _ _ H2 HY). ring.
Qed.

Lemma jac_affine (x y : Z) : jac_is (x, y, 1) (Some (x, y)).
Proof. exists x, y. split_and!; [done|by apply small_nonzero|apply eqp_exact; ring..]. Qed.

Lemma jac_iter_dbl (n : nat) (J : Z * Z * Z) (P : point) :
  on_curve P → jac_is J P → jac_is (Nat.iter n jac_dbl J) (point_mul (2 ^ Z.of_nat n) P).
Proof.
  intros HP HJ. induction n as [|n IH]; [exact HJ|]. rewrite Nat.iter_succ.
  assert (point_eq (point_mul (2 ^ Z.of_nat (S n)) P) (point_add (point_mul (2 ^ Z.of_nat n) P) (point_mul (2 ^ Z.of_nat n) P))) as E.
  { rewrite <- point_mul_add by done. rewrite Nat2Z.inj_succ, Z.pow_succ_r, <- Z.add_diag by lia. done. }
  pose proof (jac_dbl_spec _ _ (point_mul_on_curve _ _ HP) IH) as HD.
  destruct (jac_dbl _) as [[X Y] T]. destruct HD as (x & y & ED & HD). exists x, y. split; [by rewrite E|done].
Qed.

Definition madd_equals (J : option (Z * Z * Z)) (x y : Z) : bool :=
  match J with Some J => jac_equals J x y | None => false end.

Lemma madd_equals_spec (x2 y2 x y : Z) (J : Z * Z * Z) (P : point) :
  on_curve P → jac_is J P → madd_equals (jac_madd x2 y2 J) x y = true →
  point_eq (point_add (Some (x2, y2)) P) (Some (x, y)).
Proof.
  intros HP HJ. pose proof (jac_madd_spec x2 y2 J) as H. destruct (jac_madd x2 y2 J) as [J'|]; [|done].
  apply jac_equals_spec. by apply H.
Qed.

Lemma u_computed : madd_equals (jac_madd gen_x gen_y (nums_x, nums_y, 1)) u_x u_y = true.
Proof. vm_compute. reflexivity. Qed.

Lemma u_is : point_eq (point_add nums generator) u_point.
Proof.
  rewrite point_add_comm. unfold nums, generator, u_point.
  exact (madd_equals_spec _ _ _ _ _ _ nums_on_curve (jac_affine nums_x nums_y) u_computed).
Qed.

Lemma w_computed :
  madd_equals (jac_madd u_x (- u_y mod field_prime) (Nat.iter 63 jac_dbl (u_x, u_y, 1))) w_x w_y = true.
Proof. vm_compute. reflexivity. Qed.

Lemma w_is : point_eq (point_mul (2 ^ 63 - 1) u_point) w_point.
Proof.
  rewrite point_mul_sub by exact u_on_curve. rewrite point_add_comm. unfold w_point.
  exact (madd_equals_spec _ _ _ _ _ _ (point_mul_on_curve _ _ u_on_curve)
    (jac_iter_dbl 63 _ _ u_on_curve (jac_affine u_x u_y)) w_computed).
Qed.

(** * No entry is at infinity *)

(** The points [P] with [o P = u_point], and with [o P = w_point], for odd [o] below 16. *)
Definition u_parts : list (positive * (Z * Z)) := [
  (1%positive, (0x3a9ed3736eed3eec9aeb5ac021b5465256817b1f08de6cd0fbcee548ba044bb5,
    0x7bcc5928bdc9c023dfc663b89e4f6969ab7517988e600ec1d242010c45c7974a));
  (3%positive, (0x4284d163d3ec4ccc17121014ea40e8aee7f8c530b1092ed0bd9614c474659e5c,
    0xbb913e80b02a857a6382307ed1a9ffc91def60e7caf8552a5243a38a2539ed3f));
  (5%positive, (0xdfa5aa4a3fc50ab705cd617eb63f62d98cbd315d23f6842868b0558178614996,
    0x753e8d87fbec125bcb1323df11cff3384e2bb6d79277aaa745b0ad04ccef7580));
  (7%positive, (0x049f6439b496e17afebea767c9ea825f6cbb47e7e7823e8681290ab215551ed9,
    0x35b4a9b3eeef80cc635d27514d04e0cfe5ecad43a522b1ea54e71380a4ae08bd));
  (9%positive, (0xfeb5a68abc6ea4e9e8d6c14c74b07f80b3c59f9952ddb8aa4fb8232ed22c6775,
    0x77fb50e8f4f299dd99b71ab94d84e6a7451163ebbe66c1aafba8ed81052e56a8));
  (11%positive, (0xdb0824406f127431577f73e11d6f4b9f90e5d63ae05e42bce786c8b4c0d1b225,
    0xe0ac1b2a97820ea93ac3d2a2964ab034647155fc715d309709d84d7cb294869b));
  (13%positive, (0x3b2da54caa45f2cbcc68ef8a2323c94fa86ad3bcb15c4a08e4afccdb055b35e6,
    0x97e3ed563b08376a14cc255973dcadb3a489dccc99bae2335cf59973e2fd8394));
  (15%positive, (0x0d53415c64640da63d9f4562c2e52613e2efcf580f60556f200a58f99f3b4681,
    0xc7fa83c206341d869bf3d54eb8cc54c37b60e620d93aefcb96b6bddc6b5c8a8e))].

Definition w_parts : list (positive * (Z * Z)) := [
  (1%positive, (0x53d772b6b18211f71478e9d33a0c061e2d23235844177867af91508de014f22d,
    0x4d17a5f87e9f2ce3c35cd26345fda6fbe415fc972614ec2175070af98cebcd57));
  (3%positive, (0x57a7774e824445fb04009bca580aa18b86cbbab50fc23c0fd005f8655239390a,
    0x4c4cbc3290b0a12e4779f9b6355d0bb55877d70a312b4cdfda1bd5849b939699));
  (5%positive, (0x67164ad41d857562213870c5b6d5d7c01e1d95ca65e527cbce8b6c57288a75d1,
    0x75dbb25a54fea3c6aef30f3d13c5dbc7fd1af453c7cf0b0c41ae9f6ca3b8cc69));
  (7%positive, (0x49de75d255e43bea1b120e13fe1be050c05e6193aaca43b21f7b085031b72d0e,
    0xeee4bd1a525f662746582cdf549eb5601e2194c38d2abc814494669d597aa960));
  (9%positive, (0x611d4ad96c1572bc43ad76a3892ce9723dae3b6d90fafc46df6a9b1035c7060f,
    0x2fc6aca31132027b64349276e82bc97641684044b984503199dd8784c00ddfb5));
  (11%positive, (0x1c5c731e8cd7d668195e9e803d7c4d04cb9c475e5bc50ffafe8c4eb9353aebea,
    0xccbf5a74fc6463e222e566eccbe3806a2ffdf0454521d0de15b450aabcbe7909));
  (13%positive, (0x955d304f6f8037c995a0e408b3ee115937ca569b789fbf140d10fa266c9086f2,
    0x82fcbcff8b83e159192bbd727dd2045c8e69e72fcbbf6420c690524004f32bfa));
  (15%positive, (0x8dc1395b0593369f37aefaaa21aa3370e9fb9d30336193f4d97ab7fb6f324d0d,
    0x38f526585b936f02949b8ddbcbe223c59959a3ea6a2d2f6f18fa17a629c2f2bb))].

Definition part_ok (x y : Z) (part : positive * (Z * Z)) : bool :=
  let '(o, (vx, vy)) := part in
  bool_decide (on_curve (Some (vx, vy))) && madd_equals (jac_mul vx vy o) x y && (Z.pos o <? group_order).

Lemma u_parts_computed : forallb (part_ok u_x u_y) u_parts = true.
Proof. vm_compute. reflexivity. Qed.

Lemma w_parts_computed : forallb (part_ok w_x w_y) w_parts = true.
Proof. vm_compute. reflexivity. Qed.

Lemma part_ok_spec (x y : Z) (o : positive) (vx vy : Z) :
  part_ok x y (o, (vx, vy)) = true →
  on_curve (Some (vx, vy)) ∧ Z.pos o < group_order ∧ point_eq (point_mul (Z.pos o) (Some (vx, vy))) (Some (x, y)).
Proof.
  unfold part_ok. rewrite !andb_true_iff, bool_decide_eq_true, Z.ltb_lt. intros [[Hc Hm] Ho]. split_and!; [done|done|].
  pose proof (jac_mul_spec vx vy o) as HJ. destruct (jac_mul vx vy o) as [J|]; [|done].
  exact (jac_equals_spec J x y _ (HJ J Hc eq_refl) Hm).
Qed.

Definition avoids (xs : list Z) (J : Z * Z * Z) : bool :=
  let '(X, _, T) := J in
  let TT := fp_mul T T in
  forallb (λ x, negb ((X - fp_mul x TT) mod field_prime =? 0)) xs.

(** Doubles [n] times, if the coordinate of no point before is among [xs]. *)
Fixpoint avoid (xs : list Z) (n : nat) (J : Z * Z * Z) : option (Z * Z * Z) :=
  match n with
  | O => Some J
  | S n => if avoids xs J then avoid xs n (jac_dbl J) else None
  end.

Lemma avoids_spec (xs : list Z) (x y : Z) (J : Z * Z * Z) (P : point) :
  jac_is J P → avoids xs J = true → x ∈ xs → ¬ point_eq P (Some (x, y)).
Proof.
  destruct J as [[X Y] T]. intros (x0 & y0 & E & HT & HX & _) Ha Hin. unfold avoids in Ha.
  rewrite forallb_forall in Ha. apply list_elem_of_In in Hin. specialize (Ha x Hin). rewrite negb_true_iff, Z.eqb_neq in Ha.
  rewrite E. intros [Hx _]. apply Ha. change (X - fp_mul x (fp_mul T T) ≡ₚ 0). rewrite !fp_mul_eqp, HX, Hx.
  by rewrite Z.sub_diag.
Qed.

Lemma point_mul_pow2_succ (m : nat) (P : point) :
  on_curve P → point_eq (point_mul (2 ^ Z.of_nat (S m)) P) (point_mul (2 ^ Z.of_nat m) (point_add P P)).
Proof.
  intros HP. rewrite point_mul_dist, <- point_mul_add by done. by rewrite Nat2Z.inj_succ, Z.pow_succ_r, <- Z.add_diag by lia.
Qed.

Lemma jac_is_eq (J : Z * Z * Z) (P Q : point) : point_eq P Q → jac_is J P → jac_is J Q.
Proof. destruct J as [[X Y] T]. intros E (x & y & E' & H). exists x, y. split; [by rewrite <- E|done]. Qed.

Lemma avoid_spec (xs : list Z) (n : nat) (J J' : Z * Z * Z) (P : point) :
  on_curve P → jac_is J P → avoid xs n J = Some J' →
  jac_is J' (point_mul (2 ^ Z.of_nat n) P) ∧
  ∀ m x y, (m < n)%nat → x ∈ xs → ¬ point_eq (point_mul (2 ^ Z.of_nat m) P) (Some (x, y)).
Proof.
  revert J P. induction n as [|n IH]; intros J P HP HJ; cbn [avoid].
  - intros [= <-]. split; [exact HJ|lia].
  - destruct (avoids xs J) eqn:Ea; [|done]. intros H.
    destruct (IH _ _ (point_add_on_curve _ _ HP HP) (jac_dbl_spec _ _ HP HJ) H) as [H1 H2]. split.
    + eapply jac_is_eq; [|exact H1]. by rewrite point_mul_pow2_succ by done.
    + intros m x y Hm Hx. destruct m as [|m]; [by eapply avoids_spec|]. rewrite point_mul_pow2_succ by done.
      apply H2; [lia|done].
Qed.

Definition parts_x (parts : list (positive * (Z * Z))) : list Z := map (λ part, part.2.1) parts.

(** The first [a] powers of 2 times the generator, and the [b] next. *)
Definition powers_avoid (a b : nat) (J : Z * Z * Z) : bool :=
  match avoid (parts_x u_parts) a J with
  | Some J => match avoid (parts_x w_parts) b J with Some _ => true | None => false end
  | None => false
  end.

Lemma powers_computed : powers_avoid 190 66 (gen_x, gen_y, 1) = true.
Proof. vm_compute. reflexivity. Qed.

Lemma powers_spec (a b m : nat) (x y : Z) :
  powers_avoid a b (gen_x, gen_y, 1) = true →
  ((m < a)%nat → x ∈ parts_x u_parts → ¬ point_eq (point_mul (2 ^ Z.of_nat m) generator) (Some (x, y))) ∧
  ((a ≤ m < a + b)%nat → x ∈ parts_x w_parts → ¬ point_eq (point_mul (2 ^ Z.of_nat m) generator) (Some (x, y))).
Proof.
  unfold powers_avoid. destruct (avoid _ a _) as [J1|] eqn:E1; [|done].
  destruct (avoid _ b _) as [J2|] eqn:E2; [|done]. intros _.
  destruct (avoid_spec _ _ _ _ _ generator_on_curve (jac_affine gen_x gen_y) E1) as [H1 A1].
  destruct (avoid_spec _ _ _ _ _ (point_mul_on_curve _ _ generator_on_curve) H1 E2) as [_ A2].
  split; intros Hm Hx; [by apply A1|]. replace m with ((m - a) + a)%nat by lia.
  rewrite Nat2Z.inj_add, Z.pow_add_r, point_mul_mul by (lia || curve). apply A2; [lia|done].
Qed.

Lemma point_mul_neg (k : Z) (B : point) : on_curve B → point_eq (point_mul k (point_neg B)) (point_neg (point_mul k B)).
Proof.
  intros HB. change (point_neg B) with (point_mul (-1) B). rewrite <- point_mul_mul, Z.mul_comm by done.
  rewrite point_mul_mul by curve. done.
Qed.

(** Multiples by a number that is not divisible by the order can be cancelled. *)
Lemma point_mul_cancel (k : Z) (A B : point) :
  on_curve A → on_curve B → k mod group_order ≠ 0 → point_eq (point_mul k A) (point_mul k B) → point_eq A B.
Proof.
  intros HA HB Hk E. apply point_sub_eq; [done..|].
  destruct (finite_dec (point_add A (point_neg B))) as [|Hf]; [done|]. exfalso.
  pose proof (point_mul_finite k (point_add A (point_neg B)) ltac:(curve) Hf Hk) as H. rewrite point_mul_dist in H by curve.
  rewrite point_mul_neg, E, point_add_neg in H by curve. done.
Qed.

(** A point whose parts are avoided is no multiple, and neither is its opposite. *)
Lemma part_avoided (x y : Z) (o : positive) (vx vy k : Z) :
  part_ok x y (o, (vx, vy)) = true → (∀ y', ¬ point_eq (point_mul k generator) (Some (vx, y'))) →
  ¬ point_eq (point_mul (k * Z.pos o) generator) (Some (x, y)) ∧
  ¬ point_eq (point_mul (k * Z.pos o) generator) (point_neg (Some (x, y))).
Proof.
  intros Hp Hk. apply part_ok_spec in Hp as (Hc & Ho & E).
  assert (Z.pos o mod group_order ≠ 0) as Hm by (rewrite Z.mod_small; lia).
  split; intros H; rewrite Z.mul_comm, point_mul_mul, <- E in H by curve.
  - apply point_mul_cancel in H; [|curve|done|done]. exact (Hk _ H).
  - rewrite <- point_mul_neg in H by done. apply point_mul_cancel in H; [|curve|curve|done].
    rewrite point_neg_eq in H. exact (Hk _ H).
Qed.

Lemma digit_odd_part (i : Z) :
  0 < i < 16 → ∃ o a, o ∈ map fst u_parts ∧ o ∈ map fst w_parts ∧ (a ≤ 3)%nat ∧ i = Z.pos o * 2 ^ Z.of_nat a.
Proof.
  intros Hi. assert (map fst u_parts = [1; 3; 5; 7; 9; 11; 13; 15]%positive) as -> by done.
  assert (map fst w_parts = [1; 3; 5; 7; 9; 11; 13; 15]%positive) as -> by done.
  assert (∃ o a, (o ∈ [1; 3; 5; 7; 9; 11; 13; 15]%positive) ∧ (a ≤ 3)%nat ∧ i = Z.pos o * 2 ^ Z.of_nat a) as (o & a & H).
  { assert (i = 1 ∨ i = 2 ∨ i = 3 ∨ i = 4 ∨ i = 5 ∨ i = 6 ∨ i = 7 ∨ i = 8 ∨ i = 9 ∨ i = 10 ∨ i = 11 ∨ i = 12 ∨
      i = 13 ∨ i = 14 ∨ i = 15) as Hc by lia.
    destruct_or! Hc; subst i;
      [exists 1%positive, 0%nat|exists 1%positive, 1%nat|exists 3%positive, 0%nat|exists 1%positive, 2%nat|
       exists 5%positive, 0%nat|exists 3%positive, 1%nat|exists 7%positive, 0%nat|exists 1%positive, 3%nat|
       exists 9%positive, 0%nat|exists 5%positive, 1%nat|exists 11%positive, 0%nat|exists 3%positive, 2%nat|
       exists 13%positive, 0%nat|exists 7%positive, 1%nat|exists 15%positive, 0%nat];
      (split_and!; [repeat constructor|lia|done]). }
  exists o, a. tauto.
Qed.

#[local] Opaque u_parts w_parts part_ok powers_avoid.

Lemma part_of (x y : Z) (o : positive) (parts : list (positive * (Z * Z))) :
  forallb (part_ok x y) parts = true → o ∈ map fst parts →
  ∃ vx vy, part_ok x y (o, (vx, vy)) = true ∧ vx ∈ parts_x parts.
Proof.
  intros Hp Ho. rewrite forallb_forall in Hp. apply list_elem_of_In, in_map_iff in Ho as ([o' [vx vy]] & <- & Hin).
  exists vx, vy. split; [by apply Hp|]. apply list_elem_of_In, in_map_iff. by exists (o', (vx, vy)).
Qed.

Lemma small_multiples_avoided (i : Z) (j : nat) :
  0 < i < 16 →
  ((j < 63)%nat → ¬ point_eq (point_mul (i * 8 ^ Z.of_nat j) generator) (point_neg u_point)) ∧
  ¬ point_eq (point_mul (i * 16 ^ 63) generator) w_point.
Proof.
  intros Hi. destruct (digit_odd_part i Hi) as (o & a & Hu & Hw & Ha & ->).
  destruct (part_of _ _ _ _ u_parts_computed Hu) as (ux & uy & Ou & Iu).
  destruct (part_of _ _ _ _ w_parts_computed Hw) as (wx & wy & Ow & Iw).
  assert (∃ n b, n = 190%nat ∧ b = 66%nat ∧ powers_avoid n b (gen_x, gen_y, 1) = true) as (n & b & Hn & Hb & HP)
    by (exists 190%nat, 66%nat; exact (conj eq_refl (conj eq_refl powers_computed))).
  split.
  - intros Hj. replace (Z.pos o * 2 ^ Z.of_nat a * 8 ^ Z.of_nat j) with (2 ^ Z.of_nat (a + 3 * j) * Z.pos o).
    2:{ rewrite Nat2Z.inj_add, Nat2Z.inj_mul, Z.pow_add_r, Z.pow_mul_r by lia. change (2 ^ Z.of_nat 3) with 8. ring. }
    apply (part_avoided _ _ _ _ _ _ Ou). intros y'. apply (proj1 (powers_spec n b _ ux y' HP)); [lia|done].
  - replace (Z.pos o * 2 ^ Z.of_nat a * 16 ^ 63) with (2 ^ Z.of_nat (a + 252) * Z.pos o).
    2:{ rewrite Nat2Z.inj_add, Z.pow_add_r by lia. change (2 ^ Z.of_nat 252) with (16 ^ 63). ring. }
    apply (part_avoided _ _ _ _ _ _ Ow). intros y'. apply (proj2 (powers_spec n b _ wx y' HP)); [lia|done].
Qed.

Lemma nums_coef_nonzero (j : nat) : (j < 64)%nat → nums_coef j mod group_order ≠ 0.
Proof.
  intros Hj. unfold nums_coef. destruct (Nat.eqb_spec j 63) as [->|Hne]; [by vm_compute|].
  assert (2 ^ 63 < group_order) by (by vm_compute). assert (2 ^ Z.of_nat j ≤ 2 ^ 63) by (apply Z.pow_le_mono_r; lia).
  rewrite Z.mod_small; lia.
Qed.

Lemma gen_entry_finite (j : nat) (i : Z) : (j < 64)%nat → 0 ≤ i < 16 → finite (gen_entry u_point j i).
Proof.
  intros Hj Hi. destruct (finite_dec (gen_entry u_point j i)) as [E|]; [|done]. exfalso. unfold gen_entry in E.
  pose proof (nums_coef_nonzero j Hj) as Hc.
  apply add_None in E; [|curve..]. destruct (decide (i = 0)) as [->|Hi0].
  { rewrite Z.mul_0_l in E. pose proof (point_mul_finite _ u_point u_on_curve ltac:(done) Hc) as Hf.
    rewrite <- (point_neg_involutive (point_mul _ u_point)), <- E in Hf. done. }
  destruct (small_multiples_avoided i j ltac:(lia)) as [A1 A2]. unfold nums_coef in *.
  destruct (Nat.eqb_spec j 63) as [->|Hne].
  - apply A2. pose proof w_is as Hw. replace (2 ^ 63 - 1) with (- (1 - 2 ^ 63)) in Hw by lia.
    etransitivity; [exact E|]. etransitivity; [|exact Hw]. symmetry. exact (point_mul_opp u_point u_on_curve _).
  - apply (A1 ltac:(lia)). apply (point_mul_cancel (2 ^ Z.of_nat j)); [curve|curve|done|].
    rewrite point_mul_neg, <- E, <- point_mul_mul by curve.
    replace (2 ^ Z.of_nat j * (i * 8 ^ Z.of_nat j)) with (i * 16 ^ Z.of_nat j); [done|].
    change 16 with (2 * 8). rewrite Z.pow_mul_l. ring.
Qed.

(** * The rows *)

#[local] Opaque u_x u_y nums_x nums_y gen_x gen_y.

Lemma nums_point_spec : gej_is nums_point u_point.
Proof.
  unfold nums_point. assert (length nums_b32 = 32%nat) as HL by done.
  assert (be_val nums_b32 = nums_x) as Hv by (vm_compute; reflexivity).
  pose proof (fe_set_b32_spec nums_b32 HL) as HB. destruct (secp256k1_fe_set_b32 nums_b32) as [f ok].
  destruct HB as (Mf & Vf & _). cbn [fst]. rewrite Hv in Vf.
  pose proof (ge_set_xo_spec f 0 (limbs_le_mono 1 16 _ Mf ltac:(lia)) ltac:(by left)) as HX.
  destruct (secp256k1_ge_set_xo_var f 0) as [g ok']. destruct HX as (_ & Hex & Hy). cbn [fst]. cbv zeta. rewrite Vf in *.
  destruct (Hy (proj2 Hex (ex_intro _ nums_y nums_on_curve))) as (y & Ry & Py & Cy & Gy).
  assert (point_eq (Some (nums_x, y)) nums) as E.
  { apply point_code_inj; [done|exact nums_on_curve|]. unfold nums. cbn [point_code]. rewrite (Z.mod_small y) by done.
    rewrite Py. vm_compute. reflexivity. }
  rewrite <- u_is, <- E. apply gej_add_ge_var_spec; [by apply gej_set_ge_spec|exact (no_point_of_order_2 _ _ Cy)|exact generator_ge].
Qed.

(** The sum of a point and multiples of another. *)
Lemma prec_row_spec (n : nat) (p gbase : secp256k1_gej) (P B : point) :
  on_curve P → on_curve B → gej_is p P → gej_is gbase B →
  length (prec_row n p gbase) = S n ∧
  ∀ i, (i ≤ n)%nat → gej_is (prec_row n p gbase !!! i) (point_add P (point_mul (Z.of_nat i) B)).
Proof.
  intros HP HB Hp Hg. revert p P HP Hp. induction n as [|n IH]; intros p P HP Hp; cbn [prec_row].
  - split; [done|]. intros i Hi. assert (i = O) as -> by lia. cbn [point_mul Z.of_nat]. by rewrite point_add_None.
  - destruct (gej_add_spec inhabitant p gbase false P B Hp (on_curve_regular _ HP) Hg) as [Hs _].
    destruct (IH _ _ (point_add_on_curve _ _ HP HB) Hs) as [HL HI]. split; [cbn [length]; by rewrite HL|].
    intros [|i] Hi; [cbn [point_mul Z.of_nat]; by rewrite point_add_None|].
    cbn [lookup_total list_lookup_total]. rewrite Nat2Z.inj_succ, <- Z.add_1_r, point_mul_succ, <- point_add_assoc by curve.
    apply HI. lia.
Qed.

Lemma double_gej_spec (a : secp256k1_gej) (P : point) : on_curve P → gej_is a P → gej_is (double_gej a) (point_add P P).
Proof.
  intros HP Ha. destruct (gej_double_spec a a false P Ha (on_curve_regular _ HP)) as [Hd _].
  destruct P as [[x y]|]; [|exact Hd]. by rewrite point_add_same.
Qed.

Lemma double_iter_spec (n : nat) (a : secp256k1_gej) (P : point) :
  on_curve P → gej_is a P → gej_is (Nat.iter n double_gej a) (point_mul (2 ^ Z.of_nat n) P).
Proof.
  intros HP Ha. induction n as [|n IH]; [exact Ha|]. rewrite Nat.iter_succ, point_mul_pow2_succ, point_mul_dist by done.
  apply double_gej_spec; [curve|done].
Qed.

Lemma prec_rows_spec (U : point) (nums_gej : secp256k1_gej) (n j : nat) (gbase numsbase : secp256k1_gej) :
  on_curve U → gej_is nums_gej U → (j + n = 64)%nat →
  gej_is gbase (point_mul (16 ^ Z.of_nat j) generator) → ((j < 64)%nat → gej_is numsbase (point_mul (nums_coef j) U)) →
  length (prec_rows n j nums_gej gbase numsbase) = (n * 16)%nat ∧
  ∀ j' i, (j' < n)%nat → (i < 16)%nat →
    gej_is (prec_rows n j nums_gej gbase numsbase !!! (j' * 16 + i)%nat) (gen_entry U (j + j') (Z.of_nat i)).
Proof.
  intros HU Hnums. revert j gbase numsbase. induction n as [|n IH]; intros j gbase numsbase Hjn Hg Hb; [split; [done|lia]|].
  cbn [prec_rows]. cbv zeta. specialize (Hb ltac:(lia)).
  destruct (prec_row_spec 15 numsbase gbase _ _ (point_mul_on_curve _ _ HU) (point_mul_on_curve _ _ generator_on_curve) Hb Hg)
    as [HL HI].
  pose proof (double_iter_spec 4 gbase _ (point_mul_on_curve _ _ generator_on_curve) Hg) as Hg'.
  rewrite <- point_mul_mul in Hg' by curve.
  replace (2 ^ Z.of_nat 4 * 16 ^ Z.of_nat j) with (16 ^ Z.of_nat (S j)) in Hg'
    by (rewrite Nat2Z.inj_succ, Z.pow_succ_r by lia; done).
  pose proof (double_gej_spec numsbase _ (point_mul_on_curve _ _ HU) Hb) as Hb'. rewrite <- point_mul_add in Hb' by done.
  set (row := prec_row 15 numsbase gbase) in *. clearbody row. set (gbase' := Nat.iter 4 double_gej gbase) in *. clearbody gbase'.
  set (d := double_gej numsbase) in *. clearbody d.
  set (numsbase' := if (j =? 62)%nat then _ else _).
  assert ((S j < 64)%nat → gej_is numsbase' (point_mul (nums_coef (S j)) U)) as Hb2.
  { intros Hj. unfold numsbase'. unfold nums_coef in Hb' |- *.
    destruct (Nat.eqb_spec j 62), (Nat.eqb_spec j 63), (Nat.eqb_spec (S j) 63); try lia.
    - assert (2 ^ Z.of_nat j + 2 ^ Z.of_nat j = 2 ^ 63) as E63 by (subst j; vm_compute; reflexivity).
      rewrite E63 in Hb'. set (c := 2 ^ 63) in *. clearbody c. apply gej_neg_spec in Hb'.
      destruct (gej_add_spec (secp256k1_gej_neg d) (secp256k1_gej_neg d) nums_gej false _ _ Hb'
        (on_curve_regular _ (point_neg_on_curve _ (point_mul_on_curve _ _ HU))) Hnums) as [Hs _].
      rewrite point_mul_sub by done. rewrite point_add_comm. exact Hs.
    - rewrite Nat2Z.inj_succ, Z.pow_succ_r, <- Z.add_diag by lia. exact Hb'. }
  clearbody numsbase'. destruct (IH (S j) gbase' numsbase' ltac:(lia) Hg' Hb2) as [HL' HI']. split.
  - rewrite length_app, HL, HL'. lia.
  - intros [|j'] i Hj' Hi.
    + rewrite lookup_total_app_l by lia. cbn [Nat.mul Nat.add]. rewrite Nat.add_0_r. specialize (HI i ltac:(lia)).
      rewrite <- point_mul_mul in HI by curve. exact HI.
    + rewrite lookup_total_app_r by lia. rewrite HL. replace (S j' * 16 + i - 16)%nat with (j' * 16 + i)%nat by lia.
      replace (j + S j')%nat with (S j + j')%nat by lia. apply HI'; lia.
Qed.

(** * The context *)

Section Build.
Context `{Arch} (local : secp256k1_sha256_t) (mem : nat → list secp256k1_fe).
Hypothesis Hlocal : length (buf local) = 64%nat.
Hypothesis Hmem : ∀ n, length (mem n) = n.

Lemma table_of_rows (U : point) (precj : list secp256k1_gej) (r : list secp256k1_ge) :
  length precj = (64 * 16)%nat → length r = length precj →
  (∀ j i, (j < 64)%nat → (i < 16)%nat → gej_is (precj !!! (j * 16 + i)%nat) (gen_entry U j (Z.of_nat i)) ∧
    finite (gen_entry U j (Z.of_nat i))) →
  gen_table_ok U (map secp256k1_ge_to_storage (secp256k1_ge_set_all_gej_var r precj mem)).
Proof.
  intros HL HR HI. set (entries := map (λ k, gen_entry U (k / 16) (Z.of_nat (k mod 16))) (seq 0 (length precj))).
  assert (Forall2 gej_is precj entries) as HF.
  { apply Forall2_same_length_lookup_2; [by unfold entries; rewrite length_map, length_seq|].
    intros k a P Ea EP. pose proof (lookup_lt_Some _ _ _ Ea) as Hk.
    unfold entries in EP. rewrite list_lookup_fmap, lookup_seq_lt in EP by lia. injection EP as <-.
    apply list_lookup_total_correct in Ea. pose proof (Nat.div_mod_eq k 16) as Ek.
    pose proof (Nat.mod_upper_bound k 16 ltac:(lia)) as Em.
    destruct (HI (k / 16)%nat (k mod 16)%nat ltac:(lia) Em) as [HI' _].
    replace (k / 16 * 16 + k mod 16)%nat with k in HI' by lia. rewrite Ea in HI'. exact HI'. }
  pose proof (ge_set_all_spec r precj mem entries HF HR Hmem) as HG.
  set (prec := secp256k1_ge_set_all_gej_var _ _ _) in *. clearbody prec. intros j i Hj Hi.
  assert (entries !! (j * 16 + i)%nat = Some (gen_entry U j (Z.of_nat i))) as Ee.
  { unfold entries. rewrite list_lookup_fmap, lookup_seq_lt by lia. cbn [fmap option_fmap option_map]. f_equal.
    rewrite Nat.add_0_l, Nat.div_add_l, Nat.div_small, Nat.add_0_r by lia.
    rewrite Nat.add_comm, Nat.Div0.mod_add, Nat.mod_small by lia. done. }
  destruct (Forall2_lookup_r _ _ _ _ _ HG Ee) as (a & Ea & Ha).
  rewrite !list_lookup_total_alt, list_lookup_fmap, Ea. cbn [default from_option fmap option_fmap option_map id].
  destruct (HI j i Hj Hi) as [_ Hf].
  destruct (gen_entry U j (Z.of_nat i)) as [[x y]|]; [|done]. split; [|by apply ge_storage_spec].
  destruct Ha as (_ & Fx & Fy). unfold secp256k1_ge_to_storage, ge_storage_wf. cbv zeta. cbn [gs_x gs_y].
  split; apply to_storage_spec; (eapply proj1, normalize_spec, fe_mag_mono; [apply Fx || apply Fy|lia]).
Qed.

Lemma gen_table_built (r : list secp256k1_ge) (g : secp256k1_gej) :
  length r = (64 * 16)%nat → gej_is g generator →
  gen_table_ok u_point (map secp256k1_ge_to_storage
    (secp256k1_ge_set_all_gej_var r (prec_rows 64 0 nums_point g nums_point) mem)).
Proof.
  intros HR Hg. pose proof nums_point_spec as Hn. generalize dependent nums_point. intros np Hn.
  destruct (prec_rows_spec u_point np 64 0 g np u_on_curve Hn eq_refl Hg (λ _, Hn)) as [HL HI].
  set (precj := prec_rows _ _ _ _ _) in *. clearbody precj. apply table_of_rows; [done|by rewrite HL|].
  intros j i Hj Hi. split; [by apply HI|]. apply gen_entry_finite; [done|lia].
Qed.

Lemma ecmult_gen_context_build_ok (fuel : nat) (ctx : secp256k1_ecmult_gen_context) :
  prec ctx = None ∨ gen_ctx_ok ctx →
  ∃ ctx', secp256k1_ecmult_gen_context_build local mem (S fuel) ctx = Some ctx' ∧ gen_ctx_ok ctx'.
Proof.
  unfold secp256k1_ecmult_gen_context_build. intros [E|Hc].
  - rewrite E. cbv zeta. set (t := map secp256k1_ge_to_storage _).
    pose proof (gen_table_built (replicate 1024 inhabitant) _ eq_refl (gej_set_ge_spec _ _ generator_ge)) as Ht.
    fold t in Ht. clearbody t.
    set (c := EcmultGenContext (Some t) _ _). destruct (ecmult_gen_blind_reset local Hlocal fuel c) as [ctx' Hb].
    exists ctx'. split; [done|]. eapply (ecmult_gen_blind_spec local Hlocal _ c _ None); [|exact Hb].
    exists u_point, t. split_and!; [exact u_on_curve|done|done].
  - pose proof Hc as ((U & t & _ & E & _) & _). rewrite E. by exists ctx.
Qed.
End Build.
