(* ===== verification/Secp256k1GroupTheorems.v ===== *)
(** What the code for points and their multiples computes: the theorems about group_impl.h,
    ecmult_impl.h and ecmult_gen_impl.h, put together from the lemmas on their functions. *)

From Stdlib Require Import ZArith Lia Strings.Byte.
From stdpp Require Import base gmap list fin_maps numbers.
From S2P Require Import Prelude Mem Lz4Common Secp256k1Scalar Secp256k1ScalarProofs Secp256k1ScalarOps Secp256k1ScalarApi Secp256k1Field Secp256k1FieldProofs Secp256k1FieldOps Secp256k1FieldApi Secp256k1Curve Secp256k1GroupLaw Secp256k1Order Secp256k1Group Secp256k1GroupProofs Secp256k1GroupApi Secp256k1Ecmult Secp256k1Wnaf Secp256k1EcmultProofs Secp256k1Hash Secp256k1EcmultGen Secp256k1EcmultGenProofs Secp256k1EcmultGenTable.

#[local] Opaque group_order field_prime.

(** * Points *)

(** A structure stands for one point. *)
Lemma gej_is_unique (a : secp256k1_gej) (P Q : point) : gej_is a P → gej_is a Q → point_eq P Q.
Proof.
  destruct P as [[x1 y1]|], Q as [[x2 y2]|]; cbn [gej_is point_eq].
  - intros (_ & z & Hz & [_ Fz] & [_ Fx] & [_ Fy]) (_ & w & Hw & [_ Gz] & [_ Gx] & [_ Gy]).
    assert (z ≡ₚ w) as E by (by rewrite <- Fz). rewrite Fx in Gx. rewrite Fy in Gy. rewrite <- E in Gx, Gy. clear - Hz Gx Gy. split.
    + apply (eqp_cancel (z * z)); [by apply eqp_mul_nonzero|]. eapply eqp_of_eq; [exact Gx|ring|ring].
    + apply (eqp_cancel (z * z * z)); [by repeat apply eqp_mul_nonzero|]. eapply eqp_of_eq; [exact Gy|ring|ring].
  - intros [E _] E'. rewrite E in E'. discriminate E'.
  - intros E' [E _]. rewrite E in E'. discriminate E'.
  - done.
Qed.

(** C9: Points are added by the group law of the curve: for structures that stand for points of the
    curve, the two additions that branch, the one that does not, the doubling and the negation give structures
    that stand for the sum, the double and the opposite, equal, opposite and infinite points included; the addition
    without branches, secp256k1_gej_add_ge, asserts that its second point is finite, and only its first may be at
    infinity (with coordinates of magnitude at most 8, which it computes with then too). *)
Theorem secp256k1_group_operations (r a b : secp256k1_gej) (e : secp256k1_ge) (rzr : bool) (P Q : point) :
  on_curve P → on_curve Q → gej_is a P → gej_is b Q → ge_is e Q →
  (gej_is (secp256k1_gej_add_var r a b rzr).1 (point_add P Q) ∧ gej_is (secp256k1_gej_add_ge_var r a e rzr).1 (point_add P Q)) ∧
  (gej_mag a → finite Q → gej_is (secp256k1_gej_add_ge a e) (point_add P Q)) ∧
  gej_is (secp256k1_gej_double_var r a rzr).1 (point_add P P) ∧
  gej_is (secp256k1_gej_neg a) (point_neg P) ∧ ge_is (secp256k1_ge_neg e) (point_neg Q) ∧
  on_curve (point_add P Q) ∧ on_curve (point_neg P).
Proof.
  intros HP HQ Ha Hb He. pose proof (on_curve_regular _ HP) as RP. split; [split|split_and!].
  - by apply gej_add_spec.
  - by apply gej_add_ge_var_spec.
  - intros Hm Hf. destruct Q as [[x y]|]; [|destruct Hf]. by apply gej_add_ge_spec.
  - pose proof (gej_double_spec r a rzr P Ha RP) as [Hd _]. destruct P as [[x y]|]; [|exact Hd]. by rewrite point_add_same.
  - by apply gej_neg_spec.
  - by apply ge_neg_spec.
  - curve.
  - curve.
Qed.

(** Both structures stand for one point of the curve. *)
Definition same_point (a b : secp256k1_gej) : Prop := ∃ P, on_curve P ∧ gej_is a P ∧ gej_is b P.

Lemma add_is (r a b : secp256k1_gej) (P Q : point) :
  on_curve P → gej_is a P → gej_is b Q → gej_is (secp256k1_gej_add_var r a b false).1 (point_add P Q).
Proof. intros HP Ha Hb. apply gej_add_spec; [done|by apply on_curve_regular|done]. Qed.

(** C10: The points form an abelian group under the addition of the code: secp256k1_gej_add_var is associative and
    commutative, the point at infinity is neutral, and a point and its negation add up to it. *)
Theorem secp256k1_gej_add_var_group (r a b c : secp256k1_gej) (P Q R : point) :
  on_curve P → on_curve Q → on_curve R → gej_is a P → gej_is b Q → gej_is c R →
  let add x y := (secp256k1_gej_add_var r x y false).1 in
  same_point (add (add a b) c) (add a (add b c)) ∧ same_point (add a b) (add b a) ∧
  same_point (add a secp256k1_gej_set_infinity) a ∧ secp256k1_gej_is_infinity (add a (secp256k1_gej_neg a)) = 1.
Proof.
  intros HP HQ HR Ha Hb Hc. cbv zeta. split_and!.
  - exists (point_add P (point_add Q R)). split; [curve|]. split; [|apply add_is; [done|done|by apply add_is]].
    rewrite <- point_add_assoc by done. apply add_is; [curve|by apply add_is|done].
  - exists (point_add P Q). split; [curve|]. split; [by apply add_is|]. rewrite point_add_comm. by apply add_is.
  - exists P. split; [done|]. split; [|done]. pose proof (add_is r a secp256k1_gej_set_infinity P None HP Ha eq_refl) as H.
    by rewrite point_add_None in H.
  - pose proof (add_is r a _ P _ HP Ha (gej_neg_spec _ _ Ha)) as H. rewrite (point_add_neg P HP) in H. exact H.
Qed.

(** C26: Conversions keep points: projective points are made affine one at a time or many with one inversion,
    stored and loaded, and what secp256k1_ge_to_storage makes of a finite point is the same for all
    structures that stand for it. *)
Theorem secp256k1_ge_conversions (r : secp256k1_ge) (rs : list secp256k1_ge) (a : secp256k1_gej) (l : list secp256k1_gej)
  (mem : nat → list secp256k1_fe) (P : point) (Ps : list point) :
  gej_is a P → Forall2 gej_is l Ps → length rs = length l → (∀ n, length (mem n) = n) →
  (ge_is (secp256k1_ge_set_gej a).1 P ∧ ge_is (secp256k1_ge_set_gej_var r a).1 P) ∧
  Forall2 ge_is (secp256k1_ge_set_all_gej_var rs l mem) Ps ∧
  ∀ e, ge_is e P → gej_is (secp256k1_gej_set_ge e) P ∧
    (finite P → ge_is (secp256k1_ge_from_storage (secp256k1_ge_to_storage e)) P ∧
      secp256k1_ge_to_storage (secp256k1_ge_set_gej a).1 = secp256k1_ge_to_storage e).
Proof.
  intros Ha Hl HL Hmem. split; [split; [by apply ge_set_gej_spec|by apply ge_set_gej_var_spec]|].
  split; [by apply ge_set_all_spec|]. intros e He. split; [by apply gej_set_ge_spec|]. intros Hf.
  destruct P as [[x y]|]; [|destruct Hf]. split; [by apply ge_storage_spec|].
  apply (ge_storage_canonical _ _ x y); [by apply ge_set_gej_spec|done].
Qed.

(** C24: Decompression: secp256k1_ge_set_xo_var succeeds exactly for the first coordinates of points of the curve, and gives the
    one whose second coordinate has the parity asked for; secp256k1_ge_is_valid_var and secp256k1_gej_is_valid_var accept
    exactly the finite points of the curve. *)
Theorem secp256k1_ge_decompression (x : secp256k1_fe) (odd : Z) (e : secp256k1_ge) (a : secp256k1_gej) (P : point) :
  fe_mag 8 x → odd = 0 ∨ odd = 1 → ge_is e P → gej_is a P →
  (let '(r, ok) := secp256k1_ge_set_xo_var x odd in
   (ok = 1 ↔ ∃ y, on_curve (Some (fe_val x, y))) ∧ (ok = 0 ∨ ok = 1) ∧
   (ok = 1 → ∃ y, 0 ≤ y < field_prime ∧ y mod 2 = odd ∧ on_curve (Some (fe_val x, y)) ∧ ge_is r (Some (fe_val x, y)) ∧
      secp256k1_ge_is_valid_var r = 1)) ∧
  secp256k1_ge_is_valid_var e = truth (point_valid P) ∧ secp256k1_gej_is_valid_var a = truth (point_valid P).
Proof.
  intros Mx Ho He Ha. split; [|split; [by apply ge_is_valid_spec|by apply gej_is_valid_spec]].
  pose proof (ge_set_xo_spec x odd Mx Ho) as H. destruct (secp256k1_ge_set_xo_var x odd) as [r ok].
  destruct H as (H01 & Hiff & H1). split; [done|]. split; [done|]. intros Hok. destruct (H1 Hok) as (y & Ry & Hp & HC & HG).
  exists y. split_and!; [lia|lia|done|done|done|]. rewrite (ge_is_valid_spec _ _ HG). unfold point_valid. by rewrite bool_decide_true.
Qed.

(** * Multiples *)

(** C25: The windowed form: the 256 digits that secp256k1_ecmult_wnaf gives are 0 or odd and below [2^(w-1)], any two
    that are not 0 are at least [w] places apart, those from the returned length on are 0, and they
    add up to the scalar modulo the order. *)
Theorem secp256k1_ecmult_wnaf_correct (a : secp256k1_scalar) (w : Z) :
  scalar_ok a → 2 ≤ w < 31 →
  let '(wnaf, bits) := secp256k1_ecmult_wnaf 256 a w in
  length wnaf = 256%nat ∧ (digits_val wnaf = scalar_val a ∨ digits_val wnaf = scalar_val a - group_order) ∧
  (∀ i, (i < 256)%nat → digit_ok w (wnaf !!! i)) ∧ 0 ≤ bits ≤ 256 ∧ (∀ i, bits ≤ Z.of_nat i < 256 → wnaf !!! i = 0) ∧
  (∀ i j, (i < j < 256)%nat → wnaf !!! i ≠ 0 → wnaf !!! j ≠ 0 → Z.of_nat i + w ≤ Z.of_nat j).
Proof. apply ecmult_wnaf_spec. Qed.

(** C8: Linear combinations: with the tables of a context that secp256k1_ecmult_context_build made, secp256k1_ecmult
    computes [na * A + ng * G] for every finite point [A] of the curve and all scalars. *)
Theorem secp256k1_ecmult_correct (a : secp256k1_gej) (A : point) (na ng : secp256k1_scalar) :
  on_curve A → finite A → gej_is a A → scalar_ok na → scalar_ok ng →
  let ctx := secp256k1_ecmult_context_build secp256k1_ecmult_context_init in
  gej_is (secp256k1_ecmult ctx a na ng) (point_add (point_mul (scalar_val na) A) (point_mul (scalar_val ng) generator)) ∧
  gej_is (secp256k1_ecmult (secp256k1_ecmult_context_clone ctx) a na ng)
    (point_add (point_mul (scalar_val na) A) (point_mul (scalar_val ng) generator)).
Proof.
  intros HA Hf Ha Hna Hng. cbv zeta.
  assert (ecmult_ctx_ok (secp256k1_ecmult_context_build secp256k1_ecmult_context_init)) as HC by (apply ecmult_context_build_ok; by right).
  set (ctx := secp256k1_ecmult_context_build _) in *. clearbody ctx. split; apply ecmult_spec; try done.
  unfold ecmult_ctx_ok, secp256k1_ecmult_context_clone in *. destruct (pre_g ctx) as [t|]; [|done]. cbn [pre_g].
  rewrite take_ge; [exact HC|]. destruct HC as [-> _]. reflexivity.
Qed.

Section Target.
Context `{Arch} (local : secp256k1_sha256_t) (mem : nat → list secp256k1_fe).

(** C7: Multiples of the generator: secp256k1_ecmult_gen_context_build returns a context with which secp256k1_ecmult_gen computes [k * G]
    for every scalar, 0 included, and so does every context that secp256k1_ecmult_gen_blind makes of it, whatever
    the seed: the blinding does not show in the result. *)
Theorem secp256k1_ecmult_gen_correct (fuel n : nat) (ctx0 : secp256k1_ecmult_gen_context) (seed : option (list byte)) (k : secp256k1_scalar) :
  length (buf local) = 64%nat → (∀ n, length (mem n) = n) → scalar_ok k →
  let ctx1 := secp256k1_ecmult_gen_context_init ctx0 in
  ∃ ctx, secp256k1_ecmult_gen_context_build local mem (S fuel) ctx1 = Some ctx ∧
    gej_is (secp256k1_ecmult_gen ctx k) (point_mul (scalar_val k) generator) ∧
    (seed = None → secp256k1_ecmult_gen_blind local (S n) ctx seed ≠ None) ∧
    ∀ ctx', secp256k1_ecmult_gen_blind local (S n) ctx seed = Some ctx' →
      prec ctx' = prec ctx ∧ gej_is (secp256k1_ecmult_gen ctx' k) (point_mul (scalar_val k) generator).
Proof.
  intros Hl Hm Hk. cbv zeta.
  destruct (ecmult_gen_context_build_ok local mem Hl Hm fuel (secp256k1_ecmult_gen_context_init ctx0)) as (ctx & -> & Hc); [by left|].
  exists ctx. split; [reflexivity|]. split; [by apply ecmult_gen_spec|]. split.
  - intros ->. destruct (ecmult_gen_blind_reset local Hl n ctx) as [c ->]. discriminate.
  - intros ctx' Hb. destruct (ecmult_gen_blind_spec local Hl (S n) ctx ctx' seed) as [Hc' Hp]; [|exact Hb|].
    + destruct seed; [exact Hc|apply Hc].
    + split; [exact Hp|]. by apply ecmult_gen_spec.
Qed.
End Target.

(** C11: The order of the curve: each point of the curve is what secp256k1_ecmult_gen computes for one scalar and
    for no other, so that the generator generates the whole curve and the curve has as many points as there are scalars. *)
Theorem secp256k1_ecmult_gen_bijective (ctx : secp256k1_ecmult_gen_context) (P : point) :
  gen_ctx_ok ctx → on_curve P →
  ∃ k, scalar_ok k ∧ gej_is (secp256k1_ecmult_gen ctx k) P ∧
    ∀ k', scalar_ok k' → gej_is (secp256k1_ecmult_gen ctx k') P → k' = k.
Proof.
  intros Hc HP. destruct (curve_cyclic P HP) as (v & Hv & E).
  destruct (scalar_of_ok v Hv) as [Ok Vk]. set (k := scalar_of v) in *. clearbody k.
  destruct (ecmult_gen_spec ctx k Hc Ok) as [HG _]. rewrite Vk, <- E in HG. exists k. split; [done|]. split; [exact HG|].
  intros k' Ok' HG'. destruct (ecmult_gen_spec ctx k' Hc Ok') as [HG2 _].
  pose proof (gej_is_unique _ _ _ HG' HG2) as E2. rewrite E in E2.
  apply scalar_val_inj; [apply Ok'|apply Ok|]. rewrite Vk. symmetry.
  apply multiples_distinct; [done| |exact E2]. destruct Ok' as [W L]. apply scalar_wf_val in W. lia.
Qed.
