(* ===== verification/Secp256k1Ecdsa.v ===== *)
(** Signatures: src/src/secp256k1/src/ecdsa_impl.h.

    A pointer into the input that is advanced up to [sigend] is the list of the bytes
    that are left, and is returned with the result: [*sigp >= sigend] says that it is empty,
    and [sigend - *sigp] is its length.  [usz] wraps around numbers of type size_t.  A pointer
    [recid] that may be NULL is an option. *)

From Stdlib Require Import ZArith Lia Strings.Byte.
From stdpp Require Import base gmap list fin_maps numbers.
From S2P Require Import Prelude Mem Lz4Common Secp256k1Scalar Secp256k1Field Secp256k1Group Secp256k1Ecmult Secp256k1Hash Secp256k1EcmultGen.

Definition secp256k1_ecdsa_const_order_as_fe : secp256k1_fe :=
  SECP256K1_FE_CONST 0xFFFFFFFF 0xFFFFFFFF 0xFFFFFFFF 0xFFFFFFFE 0xBAAEDCE6 0xAF48A03B 0xBFD25E8C 0xD0364141.

Definition secp256k1_ecdsa_const_p_minus_order : secp256k1_fe :=
  SECP256K1_FE_CONST 0 0 0 1 0x45512319 0x50B75FC4 0x402DA172 0x2FC9BAEE.

(** * DER *)

Section Der.
Context `{Arch}.

(** [sizeof(size_t)] *)
Definition sizeof_size_t : Z := if LZ4_64bits then 8 else 4.

(** [while (lenleft > 0)]: the length, or [None] if it exceeds the input. *)
Fixpoint read_len_loop (lenleft : nat) (ret : Z) (sig : list byte) : option Z * list byte :=
  match lenleft with
  | O => (Some ret, sig)
  | S n =>
      let ret := Z.lor (usz (Z.shiftl ret 8)) (b2z (sig !!! 0%nat)) in
      if usz (ret + Z.of_nat lenleft) >? zlen sig then (None, sig)
      else read_len_loop n ret (drop 1 sig)
  end.

Definition secp256k1_der_read_len (sig : list byte) : Z * list byte :=
  match sig with
  | [] => (-1, sig)
  | b :: sig =>
      let b1 := b2z b in
      if b1 =? 0xFF then (-1, sig)
      else if Z.land b1 0x80 =? 0 then (b1, sig)
      else if b1 =? 0x80 then (-1, sig)
      else
        let lenleft := Z.land b1 0x7F in
        if lenleft >? zlen sig then (-1, sig)
        else if b2z (sig !!! 0%nat) =? 0 then (-1, sig)
        else if lenleft >? sizeof_size_t then (-1, sig)
        else
          match read_len_loop (Z.to_nat lenleft) 0 sig with
          | (None, sig) => (-1, sig)
          | (Some ret, sig) => if ret <? 128 then (-1, sig) else (s32 ret, sig)
          end
  end.

(** [while (rlen > 0 && **sig == 0)] *)
Fixpoint skip_zeros (rlen : nat) (sig : list byte) : nat * list byte :=
  match rlen with
  | O => (O, sig)
  | S n => if b2z (sig !!! 0%nat) =? 0 then skip_zeros n (drop 1 sig) else (rlen, sig)
  end.

(** The scalar [r] afterwards, the rest of the input, and the result. *)
Definition secp256k1_der_parse_integer (r : secp256k1_scalar) (sig : list byte) :
  secp256k1_scalar * list byte * Z :=
  match sig with
  | [] => (r, sig, 0)
  | b :: rest =>
      if negb (b2z b =? 0x02) then (r, sig, 0)
      else
        let '(rlen, sig) := secp256k1_der_read_len rest in
        if (rlen <=? 0) || (rlen >? zlen sig) then (r, sig, 0)
        else if (b2z (sig !!! 0%nat) =? 0x00) && (rlen >? 1) && (Z.land (b2z (sig !!! 1%nat)) 0x80 =? 0x00) then (r, sig, 0)
        else if (b2z (sig !!! 0%nat) =? 0xFF) && (rlen >? 1) && (Z.land (b2z (sig !!! 1%nat)) 0x80 =? 0x80) then (r, sig, 0)
        else
          let overflow := truth (Z.land (b2z (sig !!! 0%nat)) 0x80 =? 0x80) in
          let '(rlen, sig) := skip_zeros (Z.to_nat rlen) sig in
          let overflow := if (32 <? rlen)%nat then 1 else overflow in
          let '(r, overflow) :=
            if overflow =? 0 then secp256k1_scalar_set_b32 (replicate (32 - rlen) x00 ++ take rlen sig)
            else (r, overflow) in
          let r := if nonzero overflow then secp256k1_scalar_set_int 0 else r in
          (r, drop rlen sig, 1)
  end.

Definition secp256k1_ecdsa_sig_parse (rr rs : secp256k1_scalar) (sig : list byte) :
  secp256k1_scalar * secp256k1_scalar * Z :=
  match sig with
  | [] => (rr, rs, 0)
  | b :: sig =>
      if negb (b2z b =? 0x30) then (rr, rs, 0)
      else
        let '(rlen, sig) := secp256k1_der_read_len sig in
        if (rlen <? 0) || (rlen >? zlen sig) then (rr, rs, 0)
        else if negb (rlen =? zlen sig) then (rr, rs, 0)
        else
          let '(rr, sig, ok) := secp256k1_der_parse_integer rr sig in
          if negb (nonzero ok) then (rr, rs, 0)
          else
            let '(rs, sig, ok) := secp256k1_der_parse_integer rs sig in
            if negb (nonzero ok) then (rr, rs, 0)
            else match sig with [] => (rr, rs, 1) | _ => (rr, rs, 0) end
  end.

(** [while (lenR > 1 && rp[0] == 0 && rp[1] < 0x80) { lenR--; rp++; }] *)
Fixpoint shortest (rp : list byte) : list byte :=
  match rp with
  | x :: ((y :: _) as rest) => if (b2z x =? 0) && (b2z y <? 0x80) then shortest rest else rp
  | _ => rp
  end.

(** The buffer [sig] afterwards, [*size], and the result. *)
Definition secp256k1_ecdsa_sig_serialize (sig : list byte) (size : Z) (ar as_ : secp256k1_scalar) : list byte * Z * Z :=
  let rp := shortest (x00 :: secp256k1_scalar_get_b32 ar) in
  let sp := shortest (x00 :: secp256k1_scalar_get_b32 as_) in
  let lenR := zlen rp in
  let lenS := zlen sp in
  if size <? 6 + lenS + lenR then (sig, 6 + lenS + lenR, 0)
  else
    let out := [x30; z2b (4 + lenS + lenR); x02; z2b lenR] ++ rp ++ [x02; z2b lenS] ++ sp in
    (out ++ drop (length out) sig, 6 + lenS + lenR, 1).
End Der.

(** * Verification and signing *)

Definition secp256k1_ecdsa_sig_verify (ctx : secp256k1_ecmult_context) (sigr sigs : secp256k1_scalar)
  (pubkey : secp256k1_ge) (message : secp256k1_scalar) : Z :=
  if nonzero (secp256k1_scalar_is_zero sigr) || nonzero (secp256k1_scalar_is_zero sigs) then 0
  else
    let sn := secp256k1_scalar_inverse_var sigs in
    let u1 := secp256k1_scalar_mul sn message in
    let u2 := secp256k1_scalar_mul sn sigr in
    let pubkeyj := secp256k1_gej_set_ge pubkey in
    let pr := secp256k1_ecmult ctx pubkeyj u2 u1 in
    if nonzero (secp256k1_gej_is_infinity pr) then 0
    else
      let c := secp256k1_scalar_get_b32 sigr in
      let xr := (secp256k1_fe_set_b32 c).1 in
      if nonzero (secp256k1_gej_eq_x_var xr pr) then 1
      else if secp256k1_fe_cmp_var xr secp256k1_ecdsa_const_p_minus_order >=? 0 then 0
      else
        let xr := secp256k1_fe_add xr secp256k1_ecdsa_const_order_as_fe in
        if nonzero (secp256k1_gej_eq_x_var xr pr) then 1 else 0.

(** [sigr], [sigs], [*recid] and the result. *)
Definition secp256k1_ecdsa_sig_sign (ctx : secp256k1_ecmult_gen_context) (seckey message nonce : secp256k1_scalar)
  (recid : option Z) : secp256k1_scalar * secp256k1_scalar * option Z * Z :=
  let rp := secp256k1_ecmult_gen ctx nonce in
  let r := (secp256k1_ge_set_gej rp).1 in
  let rx := secp256k1_fe_normalize (ge_x r) in
  let ry := secp256k1_fe_normalize (ge_y r) in
  let b := secp256k1_fe_get_b32 rx in
  let '(sigr, overflow) := secp256k1_scalar_set_b32 b in
  let recid :=
    match recid with
    | Some _ => Some (Z.lor (if nonzero overflow then 2 else 0) (if nonzero (secp256k1_fe_is_odd ry) then 1 else 0))
    | None => None
    end in
  let n := secp256k1_scalar_mul sigr seckey in
  let n := (secp256k1_scalar_add n message).1 in
  let sigs := secp256k1_scalar_inverse nonce in
  let sigs := secp256k1_scalar_mul sigs n in
  if nonzero (secp256k1_scalar_is_zero sigs) then (sigr, sigs, recid, 0)
  else if nonzero (secp256k1_scalar_is_high sigs) then
    let sigs := secp256k1_scalar_negate sigs in
    (sigr, sigs, match recid with Some id => Some (Z.lxor id 1) | None => None end, 1)
  else (sigr, sigs, recid, 1).
