(* ===== verification/Secp256k1EcdsaProofs.v ===== *)
(** Verification decides the ECDSA equation, and signing gives signatures that verify.

    [ecdsa_valid] is the condition of the standard (SEC 1, section 4.1.4): the sum of two
    multiples, by the inverse of [s], is a finite point whose first coordinate is [r]
    modulo the order.  The code never computes that coordinate: it compares
    both numbers below the prime that are [r] modulo the order with it. *)

From Stdlib Require Import ZArith Lia Strings.Byte.
From stdpp Require Import base gmap list fin_maps numbers.
From S2P Require Import Prelude Mem Lz4Common Secp256k1Scalar Secp256k1ScalarProofs Secp256k1ScalarOps Secp256k1Field Secp256k1FieldProofs Secp256k1FieldOps Secp256k1FieldApi Secp256k1Curve Secp256k1GroupLaw Secp256k1Order Secp256k1Group Secp256k1GroupProofs Secp256k1GroupApi Secp256k1Ecmult Secp256k1EcmultProofs Secp256k1Hash Secp256k1HashApi Secp256k1EcmultGen Secp256k1EcmultGenProofs Secp256k1Ecdsa.

#[local] Opaque group_order field_prime.

Definition ecdsa_valid (r s z : Z) (Q : point) : Prop :=
  0 < r < group_order ∧ 0 < s < group_order ∧
  ∃ w x y, (w * s) mod group_order = 1 ∧
    point_eq (point_add (point_mul (z * w) generator) (point_mul (r * w) Q)) (Some (x, y)) ∧
    (x mod field_prime) mod group_order = r.

Lemma order_bounds : group_order < field_prime < 2 * group_order.
Proof. by vm_compute. Qed.

Lemma order_pos : 1 < group_order.
Proof. by vm_compute. Qed.

(** Multiples depend on the number modulo the order. *)
Lemma point_mul_cong (a b : Z) (P : point) :
  on_curve P → a mod group_order = b mod group_order → point_eq (point_mul a P) (point_mul b P).
Proof. intros HP E. rewrite <- (point_mul_mod a P HP), E. by apply point_mul_mod. Qed.

(** Inverses are unique modulo the order. *)
Lemma inverse_unique (s v w : Z) :
  (v * s) mod group_order = 1 → (w * s) mod group_order = 1 → v mod group_order = w mod group_order.
Proof.
  intros Hv Hw. pose proof order_pos. set (n := group_order) in *. clearbody n.
  assert ((v * (w * s)) mod n = (w * (v * s)) mod n) as E by (f_equal; ring).
  rewrite <- (Z.mul_mod_idemp_r v (w * s)), <- (Z.mul_mod_idemp_r w (v * s)), Hv, Hw, !Z.mul_1_r in E by lia. done.
Qed.

Lemma scalar_range (a : secp256k1_scalar) : scalar_ok a → 0 ≤ scalar_val a < group_order.
Proof. intros [Ha Hv]. apply scalar_wf_val in Ha. lia. Qed.

(** * Comparing with the coordinate *)

Lemma order_fe : fe_norm secp256k1_ecdsa_const_order_as_fe ∧ fe_val secp256k1_ecdsa_const_order_as_fe = group_order.
Proof. split; [split; [|by vm_compute]|by vm_compute]. repeat (constructor; [vm_compute; split; discriminate|]); constructor. Qed.

Lemma p_minus_order_fe :
  fe_norm secp256k1_ecdsa_const_p_minus_order ∧ fe_val secp256k1_ecdsa_const_p_minus_order = field_prime - group_order.
Proof. split; [split; [|by vm_compute]|by vm_compute]. repeat (constructor; [vm_compute; split; discriminate|]); constructor. Qed.

Lemma coordinate_cases (r x : Z) :
  0 ≤ r < group_order → 0 ≤ x < field_prime → x mod group_order = r ↔ x = r ∨ x = r + group_order.
Proof.
  intros Hr Hx. pose proof order_bounds. set (n := group_order) in *. set (p := field_prime) in *. clearbody n p. split.
  - intros <-. pose proof (Z.div_mod x n ltac:(lia)) as E. assert (x / n < 2) by (apply Z.div_lt_upper_bound; lia).
    assert (0 ≤ x / n) by (apply Z.div_pos; lia). assert (x / n = 0 ∨ x / n = 1) as [D|D] by lia; rewrite D in E; lia.
  - intros [-> | ->]; [by apply Z.mod_small|]. rewrite <- (Z.mul_1_l n) at 1. rewrite Z_mod_plus_full. by apply Z.mod_small.
Qed.

Lemma eqp_small (v x : Z) : 0 ≤ v < field_prime → v ≡ₚ x ↔ x mod field_prime = v.
Proof. intros Hv. unfold eqp. rewrite (Z.mod_small v) by done. done. Qed.

(** The two tests at the end of the verification. *)
Lemma coordinate_tests (sigr : secp256k1_scalar) (pr : secp256k1_gej) (x y : Z) :
  scalar_ok sigr → gej_is pr (Some (x, y)) →
  (let xr := (secp256k1_fe_set_b32 (secp256k1_scalar_get_b32 sigr)).1 in
   if nonzero (secp256k1_gej_eq_x_var xr pr) then 1
   else if secp256k1_fe_cmp_var xr secp256k1_ecdsa_const_p_minus_order >=? 0 then 0
   else
     let xr := secp256k1_fe_add xr secp256k1_ecdsa_const_order_as_fe in
     if nonzero (secp256k1_gej_eq_x_var xr pr) then 1 else 0) =
  truth (bool_decide ((x mod field_prime) mod group_order = scalar_val sigr)).
Proof.
  intros Hr Hp. pose proof (scalar_range sigr Hr) as Rr. destruct (get_b32_spec sigr (proj1 Hr)) as [Lb Vb].
  pose proof (fe_set_b32_spec _ Lb) as HB. destruct (secp256k1_fe_set_b32 _) as [xr ok]. destruct HB as (Mx & Vx & _).
  cbn [fst]. cbv zeta. rewrite Vb in Vx. pose proof order_bounds as HO.
  assert (fe_mag 1 xr) as M1 by (apply (limbs_le_mono 1); [done|lia]).
  assert (fe_norm xr) as Nx by (split; [done|lia]).
  rewrite (gej_eq_x_spec xr pr x y (fe_mag_mono 1 8 _ M1 ltac:(lia)) Hp).
  rewrite fe_cmp_spec; [|done|apply p_minus_order_fe]. rewrite (proj2 p_minus_order_fe), Vx.
  destruct order_fe as [Nn Vn]. destruct (fe_add_spec xr secp256k1_ecdsa_const_order_as_fe 1 1 M1 (fe_norm_mag _ Nn)) as [Ma Va]; [lia..|].
  rewrite (gej_eq_x_spec _ pr x y (fe_mag_mono _ 8 _ Ma ltac:(lia)) Hp), Va, Vx, Vn.
  pose proof (Z.mod_pos_bound x field_prime ltac:(lia)) as Rx.
  rewrite (bool_decide_ext _ _ (eqp_small _ x (conj (proj1 Rr) (Z.lt_trans _ _ _ (proj2 Rr) (proj1 HO))))).
  rewrite (bool_decide_ext _ _ (coordinate_cases _ _ Rr Rx)).
  set (v := scalar_val sigr) in *. set (c := x mod field_prime) in *.
  destruct (decide (c = v)) as [E|E].
  { rewrite (bool_decide_true (c = v)), (bool_decide_true (c = v ∨ _)) by tauto. reflexivity. }
  rewrite (bool_decide_false (c = v)) by done. change (nonzero (truth false)) with false. cbv iota.
  destruct (Z.compare_spec v (field_prime - group_order)); cbn [Z.geb Z.compare].
  - rewrite (bool_decide_false (c = v ∨ _)) by lia. reflexivity.
  - assert (v + group_order ≡ₚ x ↔ c = v + group_order) as Ec by (apply eqp_small; lia).
    rewrite (bool_decide_ext _ _ Ec). destruct (decide (c = v + group_order)) as [E'|E'].
    + rewrite (bool_decide_true (c = v + _)), (bool_decide_true (c = v ∨ _)) by tauto. reflexivity.
    + rewrite (bool_decide_false (c = v + _)), (bool_decide_false (c = v ∨ _)) by tauto. reflexivity.
  - rewrite (bool_decide_false (c = v ∨ _)) by lia. reflexivity.
Qed.

Lemma inverse_var_spec (x : secp256k1_scalar) :
  scalar_ok x → scalar_val x ≠ 0 →
  scalar_ok (secp256k1_scalar_inverse_var x) ∧
  (scalar_val (secp256k1_scalar_inverse_var x) * scalar_val x) mod group_order = 1.
Proof.
  intros Hx H0. unfold secp256k1_scalar_inverse_var. destruct (inverse_spec x Hx) as [Oi Ei]. split; [exact Oi|].
  apply Z.eqb_neq in H0. rewrite H0 in Ei. exact Ei.
Qed.

(** * Verification *)

Section Verify.
Context (ctx : secp256k1_ecmult_context) (sigr sigs message : secp256k1_scalar) (pubkey : secp256k1_ge) (Q : point).
Hypothesis Hctx : ecmult_ctx_ok ctx.
Hypothesis Hr : scalar_ok sigr.
Hypothesis Hs : scalar_ok sigs.
Hypothesis Hm : scalar_ok message.
Hypothesis Hpub : ge_is pubkey Q.
Hypothesis HQ : on_curve Q.
Hypothesis HfQ : finite Q.

Local Notation r := (scalar_val sigr).
Local Notation s := (scalar_val sigs).
Local Notation z := (scalar_val message).

(** The point that the verification computes, for the inverse [sn]. *)
Lemma verify_point (sn : secp256k1_scalar) :
  scalar_ok sn →
  gej_is (secp256k1_ecmult ctx (secp256k1_gej_set_ge pubkey) (secp256k1_scalar_mul sn sigr) (secp256k1_scalar_mul sn message))
    (point_add (point_mul (z * scalar_val sn) generator) (point_mul (r * scalar_val sn) Q)).
Proof.
  intros Oi.
  destruct (mul_spec sn message (proj1 Oi) (proj1 Hm)) as [O1 V1]. destruct (mul_spec sn sigr (proj1 Oi) (proj1 Hr)) as [O2 V2].
  pose proof (ecmult_spec ctx _ Q _ _ Hctx (gej_set_ge_spec _ _ Hpub) HQ HfQ O2 O1) as H.
  rewrite V1, V2 in H.
  rewrite (point_mul_mod _ Q HQ), (point_mul_mod _ generator generator_on_curve), point_add_comm in H.
  rewrite (Z.mul_comm z), (Z.mul_comm r). exact H.
Qed.

Lemma ecdsa_sig_verify_spec :
  (secp256k1_ecdsa_sig_verify ctx sigr sigs pubkey message = 1 ↔ ecdsa_valid r s z Q) ∧
  (secp256k1_ecdsa_sig_verify ctx sigr sigs pubkey message = 0 ∨
   secp256k1_ecdsa_sig_verify ctx sigr sigs pubkey message = 1).
Proof.
  unfold secp256k1_ecdsa_sig_verify. rewrite !is_zero_spec by apply Hr || apply Hs.
  pose proof (scalar_range _ Hr) as Rr. pose proof (scalar_range _ Hs) as Rs.
  destruct (Z.eqb_spec r 0) as [Er|Er]; [cbn [truth nonzero Z.eqb negb orb]; split; [|by left];
    split; [done|intros (? & _); lia]|].
  destruct (Z.eqb_spec s 0) as [Es|Es]; [cbn [truth nonzero Z.eqb negb orb]; split; [|by left];
    split; [done|intros (_ & ? & _); lia]|].
  cbn [truth nonzero Z.eqb negb orb]. cbv zeta. destruct (inverse_var_spec sigs Hs Es) as [Oi Ew]. pose proof (verify_point _ Oi) as Hp.
  set (w := scalar_val (secp256k1_scalar_inverse_var sigs)) in *. clearbody w.
  set (pr := secp256k1_ecmult _ _ _ _) in *. clearbody pr.
  assert (∀ w', (w' * s) mod group_order = 1 →
    point_eq (point_add (point_mul (z * w') generator) (point_mul (r * w') Q))
      (point_add (point_mul (z * w) generator) (point_mul (r * w) Q))) as Hw.
  { intros w' Ew'. pose proof (inverse_unique _ _ _ Ew' Ew) as E. pose proof order_pos.
    rewrite (point_mul_cong (z * w') (z * w)), (point_mul_cong (r * w') (r * w)); [done|done| |curve|];
      by rewrite <- Z.mul_mod_idemp_r, E, Z.mul_mod_idemp_r by lia. }
  set (P := point_add (point_mul (z * w) generator) (point_mul (r * w) Q)) in *.
  destruct P as [[x y]|] eqn:EP.
  - unfold secp256k1_gej_is_infinity. rewrite (proj1 Hp). change (nonzero 0) with false. cbv iota.
    pose proof (coordinate_tests sigr pr x y Hr Hp) as HT. cbv zeta in HT. rewrite HT. clear HT.
    assert (ecdsa_valid r s z Q ↔ (x mod field_prime) mod group_order = r) as ->.
    { split.
      - intros (_ & _ & w' & x' & y' & Ew' & E' & Ex). rewrite (Hw w' Ew') in E'. destruct E' as [E' _]. unfold eqp in E'.
        by rewrite E'.
      - intros Ex. split; [lia|]. split; [lia|]. exists w, x, y. split_and!; [done| |done]. fold P. by rewrite EP. }
    case_bool_decide as Ex; cbn [truth].
    + split; [split; [intros _; exact Ex|reflexivity]|right; reflexivity].
    + split; [split; [discriminate|intros Ex'; by destruct (Ex Ex')]|left; reflexivity].
  - unfold secp256k1_gej_is_infinity. cbn [gej_is] in Hp. rewrite Hp. change (nonzero 1) with true. cbv iota.
    split; [|by left]. split; [done|]. intros (_ & _ & w' & x' & y' & Ew' & E' & _). by rewrite (Hw w' Ew') in E'.
Qed.
End Verify.

(** * Signing *)

(** Congruences modulo the order that make a signature valid: [s] is [e / k (z + r d)]. *)
Lemma sign_congruence (n k z r d i s0 s w e : Z) :
  1 < n → (i * k) mod n = 1 → s0 = (i * (r * d + z)) mod n → s mod n = (e * s0) mod n → e * e = 1 →
  (w * s) mod n = 1 → (z * w + r * w * d) mod n = (e * k) mod n.
Proof.
  intros Hn Hi Hs0 Hs He Hw.
  assert (∀ a b, a mod n = b mod n → ∃ q, a = b + n * q) as Hq.
  { intros a b E. exists (a / n - b / n). pose proof (Z.div_mod a n ltac:(lia)). pose proof (Z.div_mod b n ltac:(lia)). nia. }
  rewrite <- (Z.mod_small 1 n) in Hi, Hw by lia. apply Hq in Hi as [q1 Hi], Hw as [q3 Hw], Hs as [q4 Hs].
  assert (s0 mod n = (i * (r * d + z)) mod n) as Hs0' by (rewrite Hs0; apply Z.mod_mod; lia). apply Hq in Hs0' as [q2 H2].
  clear Hs0 Hq.
  replace (z * w + r * w * d) with (e * k + (e * k * q3 - w * q4 * e * k - w * (r * d + z) * q1 - w * k * q2) * n);
    [by rewrite Z_mod_plus_full|]. set (T := r * d + z) in *. replace (z * w + r * w * d) with (w * T) by (unfold T; ring).
  clearbody T.
  assert (w * T * (i * k) = w * T * (1 + n * q1)) as A1 by (by rewrite Hi).
  assert (w * k * s0 = w * k * (i * T + n * q2)) as A2 by (by rewrite H2).
  assert (e * k * (w * s) = e * k * (1 + n * q3)) as A3 by (by rewrite Hw).
  assert (e * k * w * s = e * k * w * (e * s0 + n * q4)) as A4 by (by rewrite Hs).
  assert (e * k * w * (e * s0) = k * w * s0) as A5 by (transitivity (e * e * (k * w * s0)); [ring|rewrite He; ring]).
  lia.
Qed.

(** What normalizing a coordinate leaves. *)
Lemma normalize_is (m : Z) (f : secp256k1_fe) (v : Z) :
  fe_is m f v → m ≤ 31 → fe_norm (secp256k1_fe_normalize f) ∧ fe_val (secp256k1_fe_normalize f) = v mod field_prime.
Proof.
  intros [Mf Ef] Hm. destruct (normalize_spec f) as [Hn Hv]; [by apply (fe_mag_mono m)|]. split; [done|]. rewrite Hv. exact Ef.
Qed.

(** The number modulo the order that the code makes of a coordinate. *)
Lemma coordinate_scalar (f : secp256k1_fe) :
  fe_norm f →
  let '(r, overflow) := secp256k1_scalar_set_b32 (secp256k1_fe_get_b32 f) in
  scalar_ok r ∧ scalar_val r = fe_val f mod group_order ∧ overflow = truth (group_order <=? fe_val f).
Proof.
  intros Hf. destruct (fe_norm_val f Hf) as [H0 H1].
  assert (length (secp256k1_fe_get_b32 f) = 32%nat ∧ be_val (secp256k1_fe_get_b32 f) = fe_val f) as [Lb Vb].
  { rewrite fe_get_b32_spec by apply Hf. split; [apply length_be_bytes|]. apply be_val_be_bytes32.
    apply limbs_le_val. apply Hf. }
  pose proof (set_b32_spec _ Lb) as H. rewrite Vb in H. exact H.
Qed.

Definition sign_base (k : Z) (z r d s0 : Z) : Prop := ∃ i, (i * k) mod group_order = 1 ∧ s0 = (i * (r * d + z)) mod group_order.

Lemma ecdsa_sig_sign_spec (ctx : secp256k1_ecmult_gen_context) (seckey message nonce : secp256k1_scalar) (recid : option Z) :
  gen_ctx_ok ctx → scalar_ok seckey → scalar_ok message → scalar_ok nonce → scalar_val nonce ≠ 0 →
  let '(sigr, sigs, id, ret) := secp256k1_ecdsa_sig_sign ctx seckey message nonce recid in
  ∃ x y s0, point_eq (point_mul (scalar_val nonce) generator) (Some (x, y)) ∧ 0 ≤ x < field_prime ∧ 0 ≤ y < field_prime ∧
  scalar_ok sigr ∧ scalar_val sigr = x mod group_order ∧
  sign_base (scalar_val nonce) (scalar_val message) (scalar_val sigr) (scalar_val seckey) s0 ∧
  scalar_ok sigs ∧ scalar_val sigs = (if group_order <? 2 * s0 then group_order - s0 else s0) ∧
  ret = truth (negb (s0 =? 0)) ∧
  id = match recid with
       | Some _ => Some (Z.lxor (Z.lor (if group_order <=? x then 2 else 0) (y mod 2)) (truth (group_order <? 2 * s0)))
       | None => None
       end.
Proof.
  intros Hctx Hd Hz Hk Hk0. destruct (ecmult_gen_spec ctx nonce Hctx Hk) as [Hrp _].
  pose proof (scalar_range _ Hk) as Rk. set (P := point_mul (scalar_val nonce) generator) in *.
  assert (finite P) as Hf by (apply point_mul_finite; [curve|done|rewrite Z.mod_small; lia]).
  cbv beta delta [secp256k1_ecdsa_sig_sign]. set (rp := secp256k1_ecmult_gen ctx nonce) in *. clearbody rp. cbv zeta.
  destruct (ge_set_gej_spec rp P Hrp) as [Hge _]. set (g := (secp256k1_ge_set_gej rp).1) in *. clearbody g. clearbody P.
  destruct P as [[x0 y0]|]; [|exfalso; exact Hf]. destruct Hge as (_ & Fx & Fy).
  destruct (normalize_is _ _ _ Fx ltac:(lia)) as [Nx Vx]. destruct (normalize_is _ _ _ Fy ltac:(lia)) as [Ny Vy].
  set (rx := secp256k1_fe_normalize (ge_x g)) in *. set (ry := secp256k1_fe_normalize (ge_y g)) in *. clearbody rx ry.
  pose proof (fe_norm_val rx Nx) as Rx. pose proof (fe_norm_val ry Ny) as Ry.
  pose proof (coordinate_scalar rx Nx) as HB. destruct (secp256k1_scalar_set_b32 _) as [sigr overflow]. destruct HB as (Or & Vr & Eo).
  rewrite Vx in *. rewrite fe_is_odd_spec by done. rewrite Vy in *. set (x := x0 mod field_prime) in *. set (y := y0 mod field_prime) in *.
  assert (point_eq (Some (x0, y0)) (Some (x, y))) as EP by (split; symmetry; apply eqp_mod).
  assert (Z.lor (if nonzero overflow then 2 else 0) (if nonzero (y mod 2) then 1 else 0) =
          Z.lor (if group_order <=? x then 2 else 0) (y mod 2)) as Eid.
  { rewrite Eo. assert (y mod 2 = 0 ∨ y mod 2 = 1) as [-> | ->] by (pose proof (Z.mod_pos_bound y 2); lia);
      by destruct (group_order <=? x). }
  rewrite Eid. remember (Z.lor (if group_order <=? x then 2 else 0) (y mod 2)) as id eqn:Hid. clear Eid.
  destruct (mul_spec sigr seckey (proj1 Or) (proj1 Hd)) as [O1 V1].
  destruct (add_spec _ message O1 Hz) as (O2 & V2 & _).
  set (n1 := (secp256k1_scalar_add (secp256k1_scalar_mul sigr seckey) message).1) in *. clearbody n1.
  destruct (inverse_spec nonce Hk) as [Oi Ei]. apply Z.eqb_neq in Hk0. rewrite Hk0 in Ei.
  set (inv := secp256k1_scalar_inverse nonce) in *. clearbody inv.
  destruct (mul_spec inv n1 (proj1 Oi) (proj1 O2)) as [O3 V3]. set (s0 := secp256k1_scalar_mul inv n1) in *. clearbody s0.
  assert (sign_base (scalar_val nonce) (scalar_val message) (scalar_val sigr) (scalar_val seckey) (scalar_val s0)) as HS.
  { exists (scalar_val inv). split; [done|]. pose proof order_pos.
    rewrite V3, V2, V1, Z.mul_mod_idemp_r by lia. rewrite <- Z.mul_mod_idemp_r, Z.add_mod_idemp_l, Z.mul_mod_idemp_r by lia. done. }
  rewrite is_zero_spec, is_high_spec by apply O3. pose proof (scalar_range _ O3) as R3. pose proof order_pos.
  destruct (negate_spec s0 O3) as [On Vn].
  destruct (Z.eqb_spec (scalar_val s0) 0) as [E0|E0]; [|destruct (Z.ltb_spec group_order (2 * scalar_val s0)) as [Eh|Eh]];
    cbn [truth nonzero Z.eqb negb]; exists x, y, (scalar_val s0).
  - destruct (Z.ltb_spec group_order (2 * scalar_val s0)); [lia|]. rewrite E0 in *.
    repeat (split; [solve [assumption|lia|reflexivity]|]). destruct recid; [|reflexivity]. by rewrite <- Hid, Z.lxor_0_r.
  - assert ((- scalar_val s0) mod group_order = group_order - scalar_val s0) as En
      by (symmetry; apply (Z.mod_unique_pos _ _ (-1)); lia). rewrite En in Vn.
    destruct (Z.ltb_spec group_order (2 * scalar_val s0)), (Z.eqb_spec (scalar_val s0) 0); try lia.
    repeat (split; [solve [assumption|lia|reflexivity]|]). destruct recid; [|reflexivity]. by rewrite <- Hid.
  - destruct (Z.ltb_spec group_order (2 * scalar_val s0)), (Z.eqb_spec (scalar_val s0) 0); try lia.
    repeat (split; [solve [assumption|lia|reflexivity]|]). destruct recid; [|reflexivity]. by rewrite <- Hid, Z.lxor_0_r.
Qed.

Lemma low_or_negated (s0 : Z) :
  0 ≤ s0 < group_order →
  let s := if group_order <? 2 * s0 then group_order - s0 else s0 in
  0 ≤ s < group_order ∧ 2 * s ≤ group_order ∧ (s = 0 ↔ s0 = 0) ∧
  ∃ e, (e = 1 ∨ e = -1) ∧ s mod group_order = (e * s0) mod group_order.
Proof.
  intros Hs. pose proof order_pos. set (n := group_order) in *. clearbody n. cbv zeta. destruct (Z.ltb_spec n (2 * s0)).
  - split_and!; [lia..|]. exists (-1). split; [by right|]. rewrite <- (Z_mod_plus_full (-1 * s0) 1). f_equal. lia.
  - split_and!; [lia..|]. exists 1. split; [by left|]. f_equal. lia.
Qed.

(** The opposite point has the same first coordinate. *)
Lemma sign_multiple (e k x y : Z) :
  e = 1 ∨ e = -1 → point_eq (point_mul k generator) (Some (x, y)) →
  ∃ y', point_eq (point_mul (e * k) generator) (Some (x, y')).
Proof.
  intros [-> | ->] E.
  - exists y. by rewrite Z.mul_1_l.
  - exists (- y). replace (-1 * k) with (- k) by lia. rewrite point_mul_opp, E by curve. by rewrite point_neg_eq.
Qed.

Section SignVerify.
Context (ctx : secp256k1_ecmult_gen_context) (seckey message nonce : secp256k1_scalar) (recid : option Z).
Hypothesis Hctx : gen_ctx_ok ctx.
Hypothesis Hd : scalar_ok seckey.
Hypothesis Hz : scalar_ok message.
Hypothesis Hk : scalar_ok nonce.
Hypothesis Hk0 : scalar_val nonce ≠ 0.

(** What is signed satisfies the equation, for the key [d G]. *)
Lemma sign_valid :
  let '(sigr, sigs, id, ret) := secp256k1_ecdsa_sig_sign ctx seckey message nonce recid in
  scalar_ok sigr ∧ scalar_ok sigs ∧ 2 * scalar_val sigs ≤ group_order ∧ (ret = 0 ∨ ret = 1) ∧
  (ret = 1 → scalar_val sigr ≠ 0 →
   ecdsa_valid (scalar_val sigr) (scalar_val sigs) (scalar_val message) (point_mul (scalar_val seckey) generator)).
Proof.
  pose proof (ecdsa_sig_sign_spec ctx seckey message nonce recid Hctx Hd Hz Hk Hk0) as H.
  destruct (secp256k1_ecdsa_sig_sign _ _ _ _ _) as [[[sigr sigs] id] ret].
  destruct H as (x & y & s0 & EP & Rx & Ry & Or & Vr & (i & Ei & Es0) & Os & Vs & Eret & _).
  pose proof order_pos as Hn. assert (0 ≤ s0 < group_order) as R0 by (rewrite Es0; apply Z.mod_pos_bound; lia).
  destruct (low_or_negated s0 R0) as (Rs & Ls & Zs & e & He & Ee). rewrite <- Vs in *.
  split_and!; [done|done|done|rewrite Eret; by destruct (s0 =? 0); [left|right]|].
  intros Hret Hr0. assert (s0 ≠ 0) as Hs0 by (intros E; rewrite Eret, E in Hret; discriminate Hret).
  pose proof (scalar_range _ Or) as Rr.
  destruct (inverse_var_spec sigs Os ltac:(tauto)) as [_ Ew]. set (w := scalar_val (secp256k1_scalar_inverse_var sigs)) in *.
  clearbody w. split; [lia|]. split; [lia|].
  destruct (sign_multiple e _ _ _ He EP) as [y' EP']. exists w, x, y'. split; [done|].
  split; [|rewrite (Z.mod_small x) by done; by rewrite Vr]. rewrite <- EP', <- point_mul_mul, <- point_mul_add by curve. apply point_mul_cong; [curve|].
  eapply sign_congruence; [done|exact Ei|exact Es0|exact Ee|destruct He as [-> | ->]; reflexivity|exact Ew].
Qed.
End SignVerify.
