(* ===== verification/Secp256k1Der.v ===== *)
(** The encoding of signatures: reading is strict.

    What [secp256k1_ecdsa_sig_serialize] writes is read back, and it is the only input that
    is read as the same two numbers, unless one of them is 0: numbers that are
    negative or too large are read as 0. *)

From Stdlib Require Import ZArith Lia Strings.Byte.
From stdpp Require Import base gmap list fin_maps numbers.
From S2P Require Import Prelude Mem Lz4Common Secp256k1Scalar Secp256k1ScalarProofs Secp256k1ScalarOps Secp256k1Group Secp256k1Hash Secp256k1HashProofs Secp256k1Ecdsa.

(** * Numbers as bytes *)

Lemma be_val_zeros (k : nat) (l : list byte) : be_val (replicate k x00 ++ l) = be_val l.
Proof.
  assert (be_val (replicate k x00) = 0) as E.
  { unfold be_val. rewrite reverse_replicate. induction k as [|k IH]; [done|]. cbn [replicate le_val]. rewrite IH. done. }
  rewrite be_val_app, E. lia.
Qed.

Lemma be_val_cons_zero (l : list byte) : be_val (x00 :: l) = be_val l.
Proof. exact (be_val_zeros 1 l). Qed.

(** The shortest encodings of numbers that are not negative. *)
Definition minimal (l : list byte) : Prop :=
  match l with
  | [] => False
  | x :: rest => b2z x < 0x80 ∧ match rest with [] => True | y :: _ => b2z x = 0 → 0x80 ≤ b2z y end
  end.

Lemma shortest_spec (l : list byte) :
  l ≠ [] → b2z (l !!! 0%nat) < 0x80 →
  ∃ k, l = replicate k x00 ++ shortest l ∧ minimal (shortest l) ∧ (length (shortest l) ≤ length l)%nat.
Proof.
  intros Hne Hf. induction l as [|x rest IH]; [done|]. cbn [shortest]. destruct rest as [|y rest]; [by exists O|].
  destruct (Z.eqb_spec (b2z x) 0) as [Ex|Ex]; cbn [andb].
  2:{ exists O. split_and!; [done| |done]. by split. }
  destruct (Z.ltb_spec (b2z y) 0x80) as [Hy|Hy].
  - destruct (IH ltac:(done) Hy) as (k & E & Hm & Hl). exists (S k). split_and!; [|done|cbn [length] in *; lia].
    cbn [replicate app]. rewrite <- E. f_equal. apply b2z_inj. exact Ex.
  - exists O. split_and!; [done| |done]. split; [exact Hf|done].
Qed.

Lemma shortest_minimal (k : nat) (l : list byte) : minimal l → shortest (replicate k x00 ++ l) = l.
Proof.
  intros Hm. induction k as [|k IH]; cbn [replicate app].
  - destruct l as [|x [|y rest]]; [done..|]. destruct Hm as [H1 H2]. cbn [shortest].
    destruct (Z.eqb_spec (b2z x) 0) as [Ex|Ex]; cbn [andb]; [|done]. destruct (Z.ltb_spec (b2z y) 0x80); [|done]. specialize (H2 Ex). lia.
  - destruct (replicate k x00 ++ l) as [|y rest] eqn:E; [by destruct k, l|]. cbn [shortest].
    assert (b2z y < 0x80) as Hy.
    { destruct k; [|by injection E as <- _]. cbn [replicate app] in E. rewrite E in Hm. apply Hm. }
    change (b2z x00 =? 0) with true. apply Z.ltb_lt in Hy. rewrite Hy. exact IH.
Qed.

(** The bytes of a number. *)
Definition der_integer (a : secp256k1_scalar) : list byte := shortest (x00 :: secp256k1_scalar_get_b32 a).

Lemma der_integer_spec (a : secp256k1_scalar) :
  scalar_ok a →
  minimal (der_integer a) ∧ (1 ≤ length (der_integer a) ≤ 33)%nat ∧ be_val (der_integer a) = scalar_val a.
Proof.
  intros [Ha _]. destruct (get_b32_spec a Ha) as [Lb Vb]. unfold der_integer.
  destruct (shortest_spec (x00 :: secp256k1_scalar_get_b32 a)) as (k & E & Hm & Hl); [done|done|].
  split; [done|]. split.
  - cbn [length] in Hl. rewrite Lb in Hl. split; [|lia]. destruct (shortest _); [done|cbn [length]; lia].
  - rewrite <- (be_val_zeros k), <- E. by rewrite be_val_cons_zero.
Qed.

Lemma der_integer_unique (a : secp256k1_scalar) (l : list byte) :
  scalar_wf a → minimal l → (length l ≤ 33)%nat → be_val l = scalar_val a → l = der_integer a.
Proof.
  intros Ha Hm Hl Hv. destruct (get_b32_spec a Ha) as [Lb Vb]. unfold der_integer.
  replace (x00 :: secp256k1_scalar_get_b32 a) with (replicate (33 - length l) x00 ++ l); [by rewrite shortest_minimal|].
  apply be_val_inj.
  - rewrite length_app, length_replicate. cbn [length]. rewrite Lb. lia.
  - rewrite be_val_zeros, be_val_cons_zero. congruence.
Qed.

(** * Lengths *)

Section Target.
Context `{Arch}.

(** A bit above a small number. *)
Lemma land_pow2_small (x k : Z) : 0 ≤ k → 0 ≤ x < 2 ^ k → Z.land x (2 ^ k) = 0.
Proof.
  intros Hk Hx. apply Z.bits_inj'. intros i Hi. rewrite Z.land_spec, Z.bits_0, Z.pow2_bits_eqb by done.
  destruct (Z.eqb_spec k i) as [<-|]; [|apply andb_false_r]. rewrite Z.testbit_eqb by lia. by rewrite Z.div_small by lia.
Qed.

Lemma read_len_short (b : byte) (sig : list byte) : b2z b < 0x80 → secp256k1_der_read_len (b :: sig) = (b2z b, sig).
Proof.
  intros Hb. unfold secp256k1_der_read_len. cbv zeta. pose proof (b2z_range b).
  destruct (Z.eqb_spec (b2z b) 0xFF); [lia|].
  assert (Z.land (b2z b) 0x80 = 0) as ->; [|done].
  apply (land_pow2_small _ 7); lia.
Qed.

Lemma read_len_loop_bound (n : nat) (ret : Z) (sig : list byte) :
  0 ≤ ret → ret + Z.of_nat n ≤ zlen sig → zlen sig < 2 ^ 24 → (n ≤ 8)%nat →
  match read_len_loop n ret sig with (Some r, rest) => 0 ≤ r ≤ zlen rest ∧ zlen rest < 2 ^ 24 | _ => True end.
Proof.
  revert ret sig. induction n as [|n IH]; intros ret sig H0 Hr Hs Hn; cbn [read_len_loop]; [lia|].
  assert (∀ x, 0 ≤ x < 2 ^ 32 → usz x = x) as Hu by (intros x Hx; unfold usz, u64, u32, wrap; destruct LZ4_64bits; apply Z.mod_small; lia).
  pose proof (b2z_range (sig !!! 0%nat)) as Hb. rewrite (Hu (Z.shiftl ret 8)) by (rewrite Z.shiftl_mul_pow2 by lia; lia).
  assert (Z.lor (Z.shiftl ret 8) (b2z (sig !!! 0%nat)) = b2z (sig !!! 0%nat) + 2 ^ 8 * ret) as ->.
  { rewrite Z.lor_comm. apply lor_shiftl; lia. }
  rewrite Hu by lia. rewrite Z.gtb_ltb. destruct (Z.ltb_spec (zlen sig) (b2z (sig !!! 0%nat) + 2 ^ 8 * ret + Z.of_nat (S n))); [done|].
  assert (zlen (drop 1 sig) = zlen sig - 1) by (rewrite length_drop; lia).
  apply IH; lia.
Qed.

Lemma read_len_spec (sig : list byte) :
  zlen sig < 2 ^ 24 →
  let '(rlen, rest) := secp256k1_der_read_len sig in
  rlen < 0 ∨ (∃ b, sig = b :: rest ∧ rlen = b2z b ∧ rlen < 0x80) ∨ 0x80 ≤ rlen ∧ zlen rest < 2 ^ 24.
Proof.
  intros Hs. destruct sig as [|b sig]; [by left|]. pose proof (b2z_range b) as Hb.
  destruct (decide (b2z b < 0x80)) as [Hlt|Hge].
  { rewrite read_len_short by done. right. left. by exists b. }
  unfold secp256k1_der_read_len. cbv zeta. destruct (b2z b =? 0xFF); [by left|].
  destruct (Z.eqb_spec (Z.land (b2z b) 0x80) 0) as [E|E].
  { cbn [length] in Hs. right. right. lia. }
  destruct (b2z b =? 0x80); [by left|]. rewrite !Z.gtb_ltb.
  destruct (Z.ltb_spec (zlen sig) (Z.land (b2z b) 0x7F)) as [|H1]; [by left|]. destruct (_ =? 0); [by left|].
  destruct (Z.ltb_spec sizeof_size_t (Z.land (b2z b) 0x7F)) as [|H2]; [by left|].
  assert (0 ≤ Z.land (b2z b) 0x7F) by (apply Z.land_nonneg; lia).
  assert (sizeof_size_t ≤ 8) by (unfold sizeof_size_t; by destruct LZ4_64bits).
  cbn [length] in Hs. pose proof (read_len_loop_bound (Z.to_nat (Z.land (b2z b) 0x7F)) 0 sig) as HB.
  destruct (read_len_loop _ _ _) as [[r|] rest]; [|by left]. destruct (Z.ltb_spec r 128); [by left|]. right. right.
  split; [rewrite s32_small; lia|lia].
Qed.

(** * Integers *)

Lemma skip_zeros_spec (rlen : nat) (l rest : list byte) :
  length l = rlen →
  ∃ k m, l = replicate k x00 ++ m ∧ skip_zeros rlen (l ++ rest) = (length m, m ++ rest) ∧
    match m with [] => True | x :: _ => b2z x ≠ 0 end.
Proof.
  revert l. induction rlen as [|n IH]; intros [|x l] Hl; try done.
  - exists O, []. done.
  - cbn [skip_zeros app lookup_total list_lookup_total]. cbn [drop]. rewrite drop_0.
    destruct (Z.eqb_spec (b2z x) 0) as [E|E].
    + destruct (IH l ltac:(by injection Hl)) as (k & m & El & Es & Hm). exists (S k), m. split_and!; [|done|done].
      cbn [replicate app]. rewrite <- El. f_equal. by apply b2z_inj.
    + exists O, (x :: l). split_and!; [done|by rewrite Hl|done].
Qed.

(** The test of the top bit of a byte. *)
Lemma top_bit (b : byte) : (Z.land (b2z b) 0x80 =? 0x80) = (0x80 <=? b2z b) ∧ (Z.land (b2z b) 0x80 =? 0) = (b2z b <? 0x80).
Proof. destruct b; by vm_compute. Qed.

(** At most one byte of a minimal encoding is skipped. *)
Lemma minimal_skip (l m : list byte) (k : nat) :
  l = replicate k x00 ++ m → minimal l → match m with [] => True | x :: _ => b2z x ≠ 0 end → (k ≤ 1)%nat.
Proof.
  intros -> Hm _. destruct k as [|[|k]]; [lia|lia|]. exfalso. destruct Hm as [_ H2]. cbn [replicate app] in H2.
  specialize (H2 eq_refl). by vm_compute in H2.
Qed.

(** Reading an integer of [l], whose length was read, with [rest] after it. *)
Definition integer_body (r : secp256k1_scalar) (l rest : list byte) : secp256k1_scalar * list byte * Z :=
  let sig := l ++ rest in
  let rlen := zlen l in
  if (b2z (sig !!! 0%nat) =? 0x00) && (rlen >? 1) && (Z.land (b2z (sig !!! 1%nat)) 0x80 =? 0x00) then (r, sig, 0)
  else if (b2z (sig !!! 0%nat) =? 0xFF) && (rlen >? 1) && (Z.land (b2z (sig !!! 1%nat)) 0x80 =? 0x80) then (r, sig, 0)
  else
    let overflow := truth (Z.land (b2z (sig !!! 0%nat)) 0x80 =? 0x80) in
    let '(rlen, sig) := skip_zeros (Z.to_nat rlen) sig in
    let overflow := if (32 <? rlen)%nat then 1 else overflow in
    let '(r, overflow) :=
      if overflow =? 0 then secp256k1_scalar_set_b32 (replicate (32 - rlen) x00 ++ take rlen sig)
      else (r, overflow) in
    let r := if nonzero overflow then secp256k1_scalar_set_int 0 else r in
    (r, drop rlen sig, 1).

Lemma zero_int : scalar_ok (secp256k1_scalar_set_int 0) ∧ scalar_val (secp256k1_scalar_set_int 0) = 0.
Proof. split; [split; [split; [done|]|by vm_compute]|done]. repeat (constructor; [by split|]); constructor. Qed.

(** A minimal encoding is read, as 0 if the number is not below the order. *)
Lemma integer_body_minimal (r : secp256k1_scalar) (l rest : list byte) :
  minimal l →
  integer_body r l rest =
  (if (length l <=? 33)%nat && (be_val l <? group_order) then (secp256k1_scalar_set_b32 (be_bytes 32 (be_val l))).1
   else secp256k1_scalar_set_int 0, rest, 1).
Proof.
  intros Hm. pose proof Hm as Hm'. destruct l as [|x l]; [done|]. destruct Hm' as [Hx Hy]. unfold integer_body. cbv zeta.
  rewrite Nat2Z.id. destruct (skip_zeros_spec (length (x :: l)) (x :: l) rest eq_refl) as (k & m & El & Es & Hm0).
  rewrite Es. change (((x :: l) ++ rest) !!! 0%nat) with x.
  destruct (top_bit x) as [-> _]. destruct (Z.leb_spec 0x80 (b2z x)); [lia|]. cbn [truth].
  assert ((b2z x =? 0x00) && (zlen (x :: l) >? 1) && (Z.land (b2z (((x :: l) ++ rest) !!! 1%nat)) 0x80 =? 0x00) = false) as ->.
  { destruct (Z.eqb_spec (b2z x) 0) as [E|E]; [|done]. rewrite Z.gtb_ltb. destruct (Z.ltb_spec 1 (zlen (x :: l))) as [H1|]; [|done].
    destruct l as [|y l]; [cbn in H1; lia|]. change (((x :: y :: l) ++ rest) !!! 1%nat) with y. cbn [andb]. rewrite (proj2 (top_bit y)).
    apply Z.ltb_ge. by apply Hy. }
  destruct (Z.eqb_spec (b2z x) 0xFF); [lia|]. cbn [andb].
  assert (k ≤ 1)%nat as Hk by (by eapply minimal_skip).
  assert (be_val (x :: l) = be_val m) as Ev by (rewrite El; apply be_val_zeros).
  assert (length (x :: l) = k + length m)%nat as Ek by (rewrite El at 1; by rewrite length_app, length_replicate).
  rewrite take_app_length, drop_app_length, Ev.
  assert (∀ y m', m = y :: m' → (32 < length m)%nat → group_order ≤ be_val m) as Hbig.
  { intros y m' -> Hlen. change (y :: m') with ([y] ++ m'). rewrite be_val_app. pose proof (b2z_range y).
    assert (be_val [y] = b2z y) as -> by (unfold be_val; cbn; lia). unfold be_val at 1. pose proof (le_val_range (reverse m')).
    assert (256 ^ 32 ≤ 256 ^ zlen m') by (apply Z.pow_le_mono_r; cbn [length] in Hlen; lia).
    assert (group_order < 256 ^ 32) by (by vm_compute). nia. }
  destruct (Nat.ltb_spec 32 (length m)) as [Hl|Hl].
  - cbn [Z.eqb]. change (nonzero 1) with true. cbv iota. destruct m as [|y m']; [cbn in Hl; lia|].
    specialize (Hbig _ _ eq_refl Hl). destruct (Z.ltb_spec (be_val (y :: m')) group_order); [lia|]. by rewrite andb_false_r.
  - change (0 =? 0) with true. cbv iota. rewrite (proj2 (Nat.leb_le (length (x :: l)) 33)) by lia. cbn [andb].
    set (b := replicate (32 - length m) x00 ++ m).
    assert (length b = 32%nat) as Lb by (unfold b; rewrite length_app, length_replicate; lia).
    assert (be_val b = be_val m) as Vb by apply be_val_zeros.
    assert (b = be_bytes 32 (be_val m)) as Eb.
    { apply be_val_inj; [unfold be_bytes; by rewrite length_reverse, length_le_bytes|].
      unfold be_bytes, be_val at 2. rewrite reverse_involutive, le_val_le_bytes, Vb. symmetry. apply Z.mod_small.
      rewrite <- Vb. unfold be_val. pose proof (le_val_range (reverse b)) as Hr. by rewrite length_reverse, Lb in Hr. }
    rewrite <- Eb. pose proof (set_b32_spec b Lb) as HB. destruct (secp256k1_scalar_set_b32 b) as [r' o].
    destruct HB as (_ & _ & ->). rewrite Vb. cbn [fst].
    destruct (Z.leb_spec group_order (be_val m)), (Z.ltb_spec (be_val m) group_order); try lia; done.
Qed.

#[local] Opaque secp256k1_scalar_set_b32.

(** Whatever is read as a number other than 0 was its encoding. *)
Lemma integer_body_inv (r r' : secp256k1_scalar) (l rest rest' : list byte) :
  l ≠ [] → integer_body r l rest = (r', rest', 1) → scalar_val r' ≠ 0 →
  scalar_ok r' ∧ l = der_integer r' ∧ rest' = rest.
Proof.
  intros Hne HB Hr'. assert (minimal l) as Hm.
  { destruct l as [|x l]; [done|]. unfold integer_body in HB. cbv zeta in HB.
    change (((x :: l) ++ rest) !!! 0%nat) with x in HB. rewrite (proj1 (top_bit x)) in HB.
    destruct (_ && _ && _) eqn:G1 in HB; [done|]. destruct (_ && _ && _) in HB; [done|]. split.
    - destruct (Z.leb_spec 0x80 (b2z x)); [|done]. exfalso. destruct (skip_zeros _ _) as [n m]. cbn [truth] in HB.
      destruct (32 <? n)%nat; cbn [Z.eqb] in HB; change (nonzero 1) with true in HB; cbv iota in HB; injection HB as <- _;
        by apply Hr', zero_int.
    - destruct l as [|y l]; [done|]. intros E. rewrite E in G1. change (((x :: y :: l) ++ rest) !!! 1%nat) with y in G1.
      rewrite (proj2 (top_bit y)), Z.gtb_ltb in G1. destruct (Z.ltb_spec 1 (zlen (x :: y :: l))) as [|H1]; [|cbn [length] in H1; lia].
      cbn [Z.eqb andb] in G1. by apply Z.ltb_ge. }
  rewrite (integer_body_minimal r l rest Hm) in HB. injection HB as Er <-.
  destruct (Nat.leb_spec (length l) 33) as [Hl|Hl]; cbn [andb] in Er; [|subst r'; by destruct Hr'; apply zero_int].
  destruct (Z.ltb_spec (be_val l) group_order) as [Hv|Hv]; [|subst r'; by destruct Hr'; apply zero_int].
  assert (0 ≤ be_val l) as H0 by (unfold be_val; apply le_val_range).
  assert (group_order < 256 ^ 32) as Hord by (by vm_compute).
  assert (be_val (be_bytes 32 (be_val l)) = be_val l) as Eb.
  { unfold be_bytes, be_val at 1. rewrite reverse_involutive, le_val_le_bytes. apply Z.mod_small. lia. }
  pose proof (set_b32_spec (be_bytes 32 (be_val l))) as HB.
  rewrite (surjective_pairing (secp256k1_scalar_set_b32 _)) in HB. cbv iota in HB. rewrite Er in HB. destruct HB as (Ok & Vr & _); [unfold be_bytes; by rewrite length_reverse, length_le_bytes|].
  rewrite Eb, Z.mod_small in Vr by lia. split_and!; [done| |done]. apply der_integer_unique; [apply Ok|done|done|done].
Qed.

Lemma parse_integer_eq (r : secp256k1_scalar) (sig : list byte) :
  secp256k1_der_parse_integer r (x02 :: sig) =
  (let '(rlen, sig) := secp256k1_der_read_len sig in
   if (rlen <=? 0) || (rlen >? zlen sig) then (r, sig, 0)
   else integer_body r (take (Z.to_nat rlen) sig) (drop (Z.to_nat rlen) sig)).
Proof.
  unfold secp256k1_der_parse_integer. change (negb (b2z x02 =? 0x02)) with false. cbv iota.
  destruct (secp256k1_der_read_len sig) as [rlen sig'].
  rewrite Z.gtb_ltb. destruct (Z.leb_spec rlen 0), (Z.ltb_spec (zlen sig') rlen); cbn [orb]; try done.
  unfold integer_body. cbv zeta. rewrite take_drop, length_take. replace (Z.of_nat (Z.to_nat rlen `min` length sig')) with rlen by lia.
  done.
Qed.

(** [l] with its tag and length. *)
Definition der_tlv (l : list byte) : list byte := x02 :: z2b (zlen l) :: l.

Lemma parse_integer_written (r a : secp256k1_scalar) (rest : list byte) :
  scalar_ok a → secp256k1_der_parse_integer r (der_tlv (der_integer a) ++ rest) = (a, rest, 1).
Proof.
  intros Ha. destruct (der_integer_spec a Ha) as (Hm & Hl & Hv). set (l := der_integer a) in *. clearbody l.
  unfold der_tlv. cbn [app]. rewrite parse_integer_eq, read_len_short; rewrite b2z_z2b_small by lia; [|lia].
  rewrite Z.gtb_ltb, length_app. destruct (Z.leb_spec (zlen l) 0), (Z.ltb_spec (Z.of_nat (length l + length rest)) (zlen l)); try lia.
  cbn [orb]. rewrite Nat2Z.id, take_app_length, drop_app_length, integer_body_minimal by done.
  rewrite (proj2 (Nat.leb_le _ _)) by lia. destruct Ha as [Hwf Hlt]. rewrite Hv, (proj2 (Z.ltb_lt _ _)) by done. cbn [andb].
  f_equal. f_equal. destruct (get_b32_spec a Hwf) as [Lb Vb].
  assert (be_bytes 32 (scalar_val a) = secp256k1_scalar_get_b32 a) as ->.
  { apply be_val_inj; [unfold be_bytes; by rewrite length_reverse, length_le_bytes, Lb|]. rewrite Vb.
    unfold be_bytes, be_val. rewrite reverse_involutive, le_val_le_bytes. apply Z.mod_small. apply scalar_wf_val in Hwf.
    exact Hwf. }
  by rewrite b32_roundtrip.
Qed.

Lemma parse_integer_inv (r r' : secp256k1_scalar) (sig rest : list byte) :
  zlen sig < 2 ^ 24 → secp256k1_der_parse_integer r sig = (r', rest, 1) → scalar_val r' ≠ 0 →
  scalar_ok r' ∧ sig = der_tlv (der_integer r') ++ rest.
Proof.
  intros Hs HP Hr'. destruct sig as [|b sig]; [done|].
  assert (b = x02) as ->.
  { apply b2z_inj. unfold secp256k1_der_parse_integer in HP. by destruct (Z.eqb_spec (b2z b) 0x02). }
  rewrite parse_integer_eq in HP. cbn [length] in Hs. pose proof (read_len_spec sig ltac:(lia)) as HR.
  destruct (secp256k1_der_read_len sig) as [rlen sig']. rewrite Z.gtb_ltb in HP.
  destruct (Z.leb_spec rlen 0) as [|H0], (Z.ltb_spec (zlen sig') rlen) as [|H1]; cbn [orb] in HP; try done.
  assert (length (take (Z.to_nat rlen) sig') = Z.to_nat rlen) as HL by (rewrite length_take; lia).
  apply integer_body_inv in HP as (Ok & El & Er); [|destruct (take _ _); [cbn in HL; lia|done]|done].
  split; [done|]. destruct (der_integer_spec r' Ok) as (_ & Hl & _). rewrite <- El in Hl.
  destruct HR as [?|[(b & -> & -> & Hb)|[? _]]]; [lia| |lia].
  unfold der_tlv. rewrite <- El, HL. cbn [app]. rewrite Er, take_drop. do 2 f_equal. rewrite Z2Nat.id, z2b_b2z by lia. done.
Qed.

(** * Signatures *)

Definition der_signature (r s : secp256k1_scalar) : list byte :=
  let content := der_tlv (der_integer r) ++ der_tlv (der_integer s) in
  x30 :: z2b (zlen content) :: content.

Lemma der_signature_length (r s : secp256k1_scalar) :
  scalar_ok r → scalar_ok s →
  zlen (der_signature r s) = 6 + zlen (der_integer s) + zlen (der_integer r) ∧ 8 ≤ zlen (der_signature r s) ≤ 72.
Proof.
  intros Hr Hs. destruct (der_integer_spec r Hr) as (_ & Lr & _). destruct (der_integer_spec s Hs) as (_ & Ls & _).
  unfold der_signature, der_tlv. cbn [length]. rewrite length_app. cbn [length]. lia.
Qed.

Lemma sig_serialize_spec (sig : list byte) (size : Z) (r s : secp256k1_scalar) :
  scalar_ok r → scalar_ok s →
  let n := zlen (der_signature r s) in
  secp256k1_ecdsa_sig_serialize sig size r s =
  if size <? n then (sig, n, 0) else (der_signature r s ++ drop (length (der_signature r s)) sig, n, 1).
Proof.
  intros Hr Hs. cbv zeta. destruct (der_signature_length r s Hr Hs) as [E _]. unfold secp256k1_ecdsa_sig_serialize. cbv zeta.
  fold (der_integer r) (der_integer s). rewrite <- E. destruct (size <? zlen (der_signature r s)); [done|].
  assert ([x30; z2b (4 + zlen (der_integer s) + zlen (der_integer r)); x02; z2b (zlen (der_integer r))] ++ der_integer r ++
    [x02; z2b (zlen (der_integer s))] ++ der_integer s = der_signature r s) as ->; [|done].
  unfold der_signature, der_tlv. rewrite length_app. cbn [app length]. f_equal. f_equal. f_equal. lia.
Qed.

Lemma sig_parse_written (rr rs r s : secp256k1_scalar) :
  scalar_ok r → scalar_ok s → secp256k1_ecdsa_sig_parse rr rs (der_signature r s) = (r, s, 1).
Proof.
  intros Hr Hs. destruct (der_signature_length r s Hr Hs) as [_ HL]. unfold der_signature in *. cbv zeta in *. cbn [length] in HL.
  set (content := der_tlv (der_integer r) ++ der_tlv (der_integer s)) in *. unfold secp256k1_ecdsa_sig_parse.
  change (negb (b2z x30 =? 0x30)) with false. cbv iota.
  rewrite read_len_short; rewrite b2z_z2b_small by lia; [|lia].
  rewrite Z.gtb_ltb, Z.eqb_refl. destruct (Z.ltb_spec (zlen content) 0), (Z.ltb_spec (zlen content) (zlen content)); try lia. cbn [orb negb].
  unfold content. rewrite parse_integer_written by done. change (negb (nonzero 1)) with false. cbv iota.
  rewrite <- (app_nil_r (der_tlv (der_integer s))), parse_integer_written by done. done.
Qed.

Lemma parse_integer_ok (r r' : secp256k1_scalar) (sig rest : list byte) (ok : Z) :
  nonzero ok = true → secp256k1_der_parse_integer r sig = (r', rest, ok) → ok = 1.
Proof.
  intros Hok HP. assert (ok = 0 ∨ ok = 1) as [-> | ->]; [|done..].
  unfold secp256k1_der_parse_integer in HP. destruct sig as [|b sig]; [injection HP; auto|].
  destruct (negb _); [injection HP; auto|]. destruct (secp256k1_der_read_len sig) as [rlen sig'].
  destruct (_ || _); [injection HP; auto|]. destruct (_ && _ && _); [injection HP; auto|].
  destruct (_ && _ && _); [injection HP; auto|]. destruct (skip_zeros _ _). cbv zeta in HP.
  destruct (if _ =? 0 then _ else _). injection HP; auto.
Qed.

Lemma sig_parse_inv (rr rs r s : secp256k1_scalar) (input : list byte) :
  zlen input < 2 ^ 24 → secp256k1_ecdsa_sig_parse rr rs input = (r, s, 1) → scalar_val r ≠ 0 → scalar_val s ≠ 0 →
  scalar_ok r ∧ scalar_ok s ∧ input = der_signature r s.
Proof.
  intros Hi HP Hr Hs. destruct input as [|b input]; [done|]. unfold secp256k1_ecdsa_sig_parse in HP.
  destruct (Z.eqb_spec (b2z b) 0x30) as [Eb|]; [|done]. cbn [negb] in HP. cbn [length] in Hi.
  pose proof (read_len_spec input ltac:(lia)) as HR. destruct (secp256k1_der_read_len input) as [rlen sig].
  rewrite Z.gtb_ltb in HP. destruct (Z.ltb_spec rlen 0) as [|H0], (Z.ltb_spec (zlen sig) rlen) as [|H1]; cbn [orb] in HP; try done.
  destruct (Z.eqb_spec rlen (zlen sig)) as [E|]; [|done]. cbn [negb] in HP.
  assert (zlen sig < 2 ^ 24) as Hsig.
  { destruct HR as [?|[(b' & -> & _)|[_ ?]]]; [lia|cbn [length] in Hi; lia|done]. }
  destruct (secp256k1_der_parse_integer rr sig) as [[r1 sig1] ok1] eqn:P1.
  destruct (nonzero ok1) eqn:O1; cbn [negb] in HP; [|done].
  destruct (secp256k1_der_parse_integer rs sig1) as [[s1 sig2] ok2] eqn:P2.
  destruct (nonzero ok2) eqn:O2; cbn [negb] in HP; [|done]. destruct sig2 as [|]; [|done]. injection HP as -> ->.
  rewrite (parse_integer_ok _ _ _ _ _ O1 P1) in P1. rewrite (parse_integer_ok _ _ _ _ _ O2 P2) in P2.
  destruct (parse_integer_inv _ _ _ _ Hsig P1 Hr) as [Ok1 E1].
  assert (zlen sig1 < 2 ^ 24) as Hsig1 by (rewrite E1, length_app in Hsig; lia).
  destruct (parse_integer_inv _ _ _ _ Hsig1 P2 Hs) as [Ok2 E2].
  rewrite app_nil_r in E2. subst sig1. split_and!; [done|done|].
  destruct (der_signature_length r s Ok1 Ok2) as [_ HL]. unfold der_signature in *. cbv zeta in *. rewrite <- E1 in *.
  cbn [length] in HL. destruct HR as [?|[(b' & -> & Erl & Hb)|[? _]]]; [lia| |lia].
  assert (b = x30) as -> by (by apply b2z_inj). by rewrite <- E, Erl, z2b_b2z.
Qed.
End Target.
