(* ===== verification/Secp256k1Keys.v ===== *)
(** Public and private keys: src/src/secp256k1/src/eckey_impl.h.

    The functions return what they leave in the structures and buffers they write to, and their
    result. *)

From Stdlib Require Import ZArith Lia Strings.Byte.
From stdpp Require Import base gmap list fin_maps numbers.
From S2P Require Import Prelude Mem Secp256k1Scalar Secp256k1Field Secp256k1Group Secp256k1Ecmult.

Definition secp256k1_eckey_pubkey_parse (elem : secp256k1_ge) (pub : list byte) : secp256k1_ge * Z :=
  let size := zlen pub in
  let tag := b2z (pub !!! 0%nat) in
  if (size =? 33) && ((tag =? 0x02) || (tag =? 0x03)) then
    let '(x, ok) := secp256k1_fe_set_b32 (take 32 (drop 1 pub)) in
    if nonzero ok then
      let '(elem, ok) := secp256k1_ge_set_xo_var x (truth (tag =? 0x03)) in
      (elem, truth (nonzero ok))
    else (elem, 0)
  else if (size =? 65) && ((tag =? 0x04) || (tag =? 0x06) || (tag =? 0x07)) then
    let '(x, okx) := secp256k1_fe_set_b32 (take 32 (drop 1 pub)) in
    if negb (nonzero okx) then (elem, 0)
    else
      let '(y, oky) := secp256k1_fe_set_b32 (take 32 (drop 33 pub)) in
      if negb (nonzero oky) then (elem, 0)
      else
        let elem := secp256k1_ge_set_xy x y in
        if ((tag =? 0x06) || (tag =? 0x07)) && negb (secp256k1_fe_is_odd y =? truth (tag =? 0x07)) then (elem, 0)
        else (elem, secp256k1_ge_is_valid_var elem)
  else (elem, 0).

(** [elem] with normalized coordinates, the buffer [pub], [*size] and the result. *)
Definition secp256k1_eckey_pubkey_serialize (elem : secp256k1_ge) (pub : list byte) (size compressed : Z) :
  secp256k1_ge * list byte * Z * Z :=
  if nonzero (secp256k1_ge_is_infinity elem) then (elem, pub, size, 0)
  else
    let x := secp256k1_fe_normalize_var (ge_x elem) in
    let y := secp256k1_fe_normalize_var (ge_y elem) in
    let elem := Ge x y (ge_infinity elem) in
    if nonzero compressed then
      let tag := Z.lor 0x02 (if nonzero (secp256k1_fe_is_odd y) then 0x01 else 0x00) in
      (elem, z2b tag :: secp256k1_fe_get_b32 x ++ drop 33 pub, 33, 1)
    else
      (elem, x04 :: secp256k1_fe_get_b32 x ++ secp256k1_fe_get_b32 y ++ drop 65 pub, 65, 1).

Definition secp256k1_eckey_privkey_tweak_add (key tweak : secp256k1_scalar) : secp256k1_scalar * Z :=
  let key := (secp256k1_scalar_add key tweak).1 in
  if nonzero (secp256k1_scalar_is_zero key) then (key, 0) else (key, 1).

Definition secp256k1_eckey_pubkey_tweak_add (ctx : secp256k1_ecmult_context) (key : secp256k1_ge) (tweak : secp256k1_scalar) :
  secp256k1_ge * Z :=
  let pt := secp256k1_gej_set_ge key in
  let one := secp256k1_scalar_set_int 1 in
  let pt := secp256k1_ecmult ctx pt one tweak in
  if nonzero (secp256k1_gej_is_infinity pt) then (key, 0)
  else ((secp256k1_ge_set_gej pt).1, 1).

Definition secp256k1_eckey_privkey_tweak_mul (key tweak : secp256k1_scalar) : secp256k1_scalar * Z :=
  if nonzero (secp256k1_scalar_is_zero tweak) then (key, 0)
  else (secp256k1_scalar_mul key tweak, 1).

Definition secp256k1_eckey_pubkey_tweak_mul (ctx : secp256k1_ecmult_context) (key : secp256k1_ge) (tweak : secp256k1_scalar) :
  secp256k1_ge * Z :=
  if nonzero (secp256k1_scalar_is_zero tweak) then (key, 0)
  else
    let zero := secp256k1_scalar_set_int 0 in
    let pt := secp256k1_gej_set_ge key in
    let pt := secp256k1_ecmult ctx pt tweak zero in
    ((secp256k1_ge_set_gej pt).1, 1).
