(* ===== verification/Secp256k1Api.v ===== *)
(** The interface of the library: src/src/secp256k1/src/secp256k1.c.

    A pointer that a function compares with NULL is an option.  An argument that [ARG_CHECK] refuses is
    reported to the callback of the context, and the function returns 0: [reports] lists
    the calls of callbacks with their texts.  (The default callback ends the process.)  A
    public key and a signature are the 64 bytes of their structures, which hold the words of the
    internal representation in the byte order of the target.  [local], [mem], [local_scalar] and
    [local_ge] are what memory holds before it is written.  The functions that draw until a number is in range have [fuel]
    for it, and give [None] if it is used up. *)

From Stdlib Require Import ZArith Lia Strings.Byte Strings.String.
From stdpp Require Import base gmap list fin_maps numbers.
From S2P Require Import Prelude Mem Lz4Common Secp256k1Scalar Secp256k1Field Secp256k1Group Secp256k1Ecmult Secp256k1Hash Secp256k1EcmultGen Secp256k1Ecdsa Secp256k1Keys.

#[local] Open Scope string_scope.
#[local] Open Scope list_scope.
#[local] Open Scope Z_scope.

(** * Contexts *)

(** A function and its argument, as addresses. *)
Record secp256k1_callback := Callback { fn : Z; data : Z }.

Record secp256k1_context := Context_ {
  ecmult_ctx : secp256k1_ecmult_context; ecmult_gen_ctx : secp256k1_ecmult_gen_context;
  illegal_callback : secp256k1_callback; error_callback : secp256k1_callback }.

(** What a function leaves, its result and the callbacks it called. *)
Record outcome (A : Type) := Outcome { value : A; ret : Z; reports : list (secp256k1_callback * string) }.
Arguments Outcome {A} value ret reports.
Arguments value {A} o.
Arguments ret {A} o.
Arguments reports {A} o.

Definition ARG_CHECK {A : Type} (ctx : secp256k1_context) (cond : bool) (text : string) (out : A) (rest : outcome A) :
  outcome A :=
  if cond then rest else Outcome out 0 [(illegal_callback ctx, text)].

Definition not_null {A : Type} (p : option A) : bool := match p with Some _ => true | None => false end.

Definition SECP256K1_FLAGS_TYPE_MASK : Z := 0xFF.
Definition SECP256K1_FLAGS_TYPE_CONTEXT : Z := 1.
Definition SECP256K1_FLAGS_TYPE_COMPRESSION : Z := 2.
Definition SECP256K1_FLAGS_BIT_CONTEXT_VERIFY : Z := 0x100.
Definition SECP256K1_FLAGS_BIT_CONTEXT_SIGN : Z := 0x200.
Definition SECP256K1_FLAGS_BIT_COMPRESSION : Z := 0x100.

Definition SECP256K1_EC_COMPRESSED : Z := Z.lor SECP256K1_FLAGS_TYPE_COMPRESSION SECP256K1_FLAGS_BIT_COMPRESSION.
Definition SECP256K1_EC_UNCOMPRESSED : Z := SECP256K1_FLAGS_TYPE_COMPRESSION.

Section Library.
Context `{Arch} (local : secp256k1_sha256_t) (mem : nat → list secp256k1_fe).
Context (local_scalar : secp256k1_scalar) (local_ge : secp256k1_ge).

Section Contexts.
Context (default_illegal_callback_fn default_error_callback_fn : Z).

Definition default_illegal_callback : secp256k1_callback := Callback default_illegal_callback_fn 0.
Definition default_error_callback : secp256k1_callback := Callback default_error_callback_fn 0.

(** [gen] is what the memory of the context holds for the members that are not set. *)
Definition secp256k1_context_create (fuel : nat) (gen : secp256k1_ecmult_gen_context) (flags : Z) :
  option (outcome (option secp256k1_context)) :=
  if negb (Z.land flags SECP256K1_FLAGS_TYPE_MASK =? SECP256K1_FLAGS_TYPE_CONTEXT) then
    Some (Outcome None 0 [(default_illegal_callback, "Invalid flags")])
  else
    let verify := secp256k1_ecmult_context_init in
    let sign := secp256k1_ecmult_gen_context_init gen in
    match
      if nonzero (Z.land flags SECP256K1_FLAGS_BIT_CONTEXT_SIGN)
      then secp256k1_ecmult_gen_context_build local mem fuel sign else Some sign
    with
    | None => None
    | Some sign =>
        let verify :=
          if nonzero (Z.land flags SECP256K1_FLAGS_BIT_CONTEXT_VERIFY)
          then secp256k1_ecmult_context_build verify else verify in
        Some (Outcome (Some (Context_ verify sign default_illegal_callback default_error_callback)) 1 [])
    end.

Definition secp256k1_context_clone (gen : secp256k1_ecmult_gen_context) (ctx : secp256k1_context) : secp256k1_context :=
  Context_ (secp256k1_ecmult_context_clone (ecmult_ctx ctx)) (secp256k1_ecmult_gen_context_clone gen (ecmult_gen_ctx ctx))
    (illegal_callback ctx) (error_callback ctx).

Definition secp256k1_context_set_illegal_callback (ctx : secp256k1_context) (fun_ dat : Z) : secp256k1_context :=
  let fun_ := if fun_ =? 0 then default_illegal_callback_fn else fun_ in
  Context_ (ecmult_ctx ctx) (ecmult_gen_ctx ctx) (Callback fun_ dat) (error_callback ctx).

Definition secp256k1_context_set_error_callback (ctx : secp256k1_context) (fun_ dat : Z) : secp256k1_context :=
  let fun_ := if fun_ =? 0 then default_error_callback_fn else fun_ in
  Context_ (ecmult_ctx ctx) (ecmult_gen_ctx ctx) (illegal_callback ctx) (Callback fun_ dat).
End Contexts.

Definition secp256k1_context_randomize (fuel : nat) (ctx : secp256k1_context) (seed32 : option (list byte)) :
  option (outcome secp256k1_context) :=
  if secp256k1_ecmult_gen_context_is_built (ecmult_gen_ctx ctx) then
    match secp256k1_ecmult_gen_blind local fuel (ecmult_gen_ctx ctx) seed32 with
    | None => None
    | Some gen => Some (Outcome (Context_ (ecmult_ctx ctx) gen (illegal_callback ctx) (error_callback ctx)) 1 [])
    end
  else Some (Outcome ctx 0 [(illegal_callback ctx, "secp256k1_ecmult_gen_context_is_built(&ctx->ecmult_gen_ctx)")]).

(** * Public keys *)

(** [memcpy] between eight words and 32 bytes. *)
Definition words_of_bytes (l : list byte) : list Z := map (λ i, word_of_bytes (take 4 (drop (4 * i) l))) (seq 0 8).
Definition bytes_of_words (l : list Z) : list byte := mjoin (bytes_of_word <$> l).

Definition secp256k1_pubkey_load (ctx : secp256k1_context) (pubkey : list byte) : outcome secp256k1_ge :=
  let s := GeStorage (FeStorage (words_of_bytes (take 32 pubkey))) (FeStorage (words_of_bytes (drop 32 pubkey))) in
  let ge := secp256k1_ge_from_storage s in
  ARG_CHECK ctx (negb (nonzero (secp256k1_fe_is_zero (ge_x ge)))) "!secp256k1_fe_is_zero(&ge->x)" ge
    (Outcome ge 1 []).

Definition secp256k1_pubkey_save (ge : secp256k1_ge) : list byte :=
  let s := secp256k1_ge_to_storage ge in
  bytes_of_words (st_n (gs_x s)) ++ bytes_of_words (st_n (gs_y s)).

Definition zero_pubkey : list byte := replicate 64 x00.

Definition secp256k1_ec_pubkey_parse (ctx : secp256k1_context) (pubkey input : option (list byte)) : outcome (option (list byte)) :=
  ARG_CHECK ctx (not_null pubkey) "pubkey != NULL" pubkey (
  let pubkey := Some zero_pubkey in
  ARG_CHECK ctx (not_null input) "input != NULL" pubkey (
  let '(Q, ok) := secp256k1_eckey_pubkey_parse local_ge (default [] input) in
  if negb (nonzero ok) then Outcome pubkey 0 []
  else Outcome (Some (secp256k1_pubkey_save Q)) 1 [])).

(** The buffer and [*outputlen]. *)
Definition secp256k1_ec_pubkey_serialize (ctx : secp256k1_context) (output : option (list byte)) (outputlen : option Z)
  (pubkey : option (list byte)) (flags : Z) : outcome (option (list byte) * option Z) :=
  let compressed := Z.land flags SECP256K1_FLAGS_BIT_COMPRESSION in
  ARG_CHECK ctx (not_null outputlen) "outputlen != NULL" (output, outputlen) (
  let len := default 0 outputlen in
  ARG_CHECK ctx (len >=? (if nonzero compressed then 33 else 65))
    "*outputlen >= ((flags & SECP256K1_FLAGS_BIT_COMPRESSION) ? 33 : 65)" (output, outputlen) (
  ARG_CHECK ctx (not_null output) "output != NULL" (output, Some 0) (
  let out := replicate (Z.to_nat len) x00 ++ drop (Z.to_nat len) (default [] output) in
  ARG_CHECK ctx (not_null pubkey) "pubkey != NULL" (Some out, Some 0) (
  ARG_CHECK ctx (Z.land flags SECP256K1_FLAGS_TYPE_MASK =? SECP256K1_FLAGS_TYPE_COMPRESSION)
    "(flags & SECP256K1_FLAGS_TYPE_MASK) == SECP256K1_FLAGS_TYPE_COMPRESSION" (Some out, Some 0) (
  let load := secp256k1_pubkey_load ctx (default [] pubkey) in
  if nonzero (ret load) then
    let '(_, out, len, r) := secp256k1_eckey_pubkey_serialize (value load) out len compressed in
    Outcome (Some out, Some (if nonzero r then len else 0)) r (reports load)
  else Outcome (Some out, Some 0) 0 (reports load)))))).

(** * Signatures *)

Definition secp256k1_ecdsa_signature_load (sig : list byte) : secp256k1_scalar * secp256k1_scalar :=
  (Scalar (words_of_bytes (take 32 sig)), Scalar (words_of_bytes (drop 32 sig))).

Definition secp256k1_ecdsa_signature_save (r s : secp256k1_scalar) : list byte :=
  bytes_of_words (d r) ++ bytes_of_words (d s).

Definition secp256k1_ecdsa_signature_parse_der (ctx : secp256k1_context) (sig input : option (list byte)) :
  outcome (option (list byte)) :=
  ARG_CHECK ctx (not_null sig) "sig != NULL" sig (
  ARG_CHECK ctx (not_null input) "input != NULL" sig (
  let '(r, s, ok) := secp256k1_ecdsa_sig_parse local_scalar local_scalar (default [] input) in
  if nonzero ok then Outcome (Some (secp256k1_ecdsa_signature_save r s)) 1 []
  else Outcome (Some (replicate 64 x00)) 0 [])).

Definition secp256k1_ecdsa_signature_parse_compact (ctx : secp256k1_context) (sig input64 : option (list byte)) :
  outcome (option (list byte)) :=
  ARG_CHECK ctx (not_null sig) "sig != NULL" sig (
  ARG_CHECK ctx (not_null input64) "input64 != NULL" sig (
  let input := default [] input64 in
  let '(r, overflow) := secp256k1_scalar_set_b32 (take 32 input) in
  let ok := Z.land 1 (truth (negb (nonzero overflow))) in
  let '(s, overflow) := secp256k1_scalar_set_b32 (take 32 (drop 32 input)) in
  let ok := Z.land ok (truth (negb (nonzero overflow))) in
  Outcome (Some (if nonzero ok then secp256k1_ecdsa_signature_save r s else replicate 64 x00)) ok [])).

Definition secp256k1_ecdsa_signature_serialize_der (ctx : secp256k1_context) (output : option (list byte)) (outputlen : option Z)
  (sig : option (list byte)) : outcome (option (list byte) * option Z) :=
  ARG_CHECK ctx (not_null output) "output != NULL" (output, outputlen) (
  ARG_CHECK ctx (not_null outputlen) "outputlen != NULL" (output, outputlen) (
  ARG_CHECK ctx (not_null sig) "sig != NULL" (output, outputlen) (
  let '(r, s) := secp256k1_ecdsa_signature_load (default [] sig) in
  let '(out, len, ok) := secp256k1_ecdsa_sig_serialize (default [] output) (default 0 outputlen) r s in
  Outcome (Some out, Some len) ok []))).

Definition secp256k1_ecdsa_signature_serialize_compact (ctx : secp256k1_context) (output64 sig : option (list byte)) :
  outcome (option (list byte)) :=
  ARG_CHECK ctx (not_null output64) "output64 != NULL" output64 (
  ARG_CHECK ctx (not_null sig) "sig != NULL" output64 (
  let '(r, s) := secp256k1_ecdsa_signature_load (default [] sig) in
  Outcome (Some (secp256k1_scalar_get_b32 r ++ secp256k1_scalar_get_b32 s)) 1 [])).

Definition secp256k1_ecdsa_signature_normalize (ctx : secp256k1_context) (sigout sigin : option (list byte)) :
  outcome (option (list byte)) :=
  ARG_CHECK ctx (not_null sigin) "sigin != NULL" sigout (
  let '(r, s) := secp256k1_ecdsa_signature_load (default [] sigin) in
  let high := secp256k1_scalar_is_high s in
  match sigout with
  | Some _ =>
      let s := if nonzero high then secp256k1_scalar_negate s else s in
      Outcome (Some (secp256k1_ecdsa_signature_save r s)) high []
  | None => Outcome None high []
  end).

(** [!secp256k1_scalar_is_high(&s) && secp256k1_pubkey_load(...) && secp256k1_ecdsa_sig_verify(...)] *)
Definition secp256k1_ecdsa_verify (ctx : secp256k1_context) (sig msg32 pubkey : option (list byte)) : outcome unit :=
  ARG_CHECK ctx (secp256k1_ecmult_context_is_built (ecmult_ctx ctx))
    "secp256k1_ecmult_context_is_built(&ctx->ecmult_ctx)" tt (
  ARG_CHECK ctx (not_null msg32) "msg32 != NULL" tt (
  ARG_CHECK ctx (not_null sig) "sig != NULL" tt (
  ARG_CHECK ctx (not_null pubkey) "pubkey != NULL" tt (
  let m := (secp256k1_scalar_set_b32 (default [] msg32)).1 in
  let '(r, s) := secp256k1_ecdsa_signature_load (default [] sig) in
  if nonzero (secp256k1_scalar_is_high s) then Outcome tt 0 []
  else
    let load := secp256k1_pubkey_load ctx (default [] pubkey) in
    if nonzero (ret load) then
      Outcome tt (truth (nonzero (secp256k1_ecdsa_sig_verify (ecmult_ctx ctx) r s (value load) m))) (reports load)
    else Outcome tt 0 (reports load))))).

(** [secp256k1_nonce_function]: the nonce and the result, for msg32, key32, algo16, data and attempt. *)
Definition nonce_function : Type :=
  list byte → list byte → option (list byte) → option (list byte) → Z → list byte * Z.

(** [for (i = 0; i <= counter; i++)]: the last output of [n + 1], for a counter below [2^32 - 1]. With the
    largest [unsigned int] as its counter the loop in the code does not end, which a caller would reach after
    [2^32 - 1] nonces that are not usable; the model gives the last of the [2^32] outputs there. *)
Fixpoint generate_last (n : nat) (rng : secp256k1_rfc6979_hmac_sha256_t) : list byte :=
  let '(rng, nonce32) := secp256k1_rfc6979_hmac_sha256_generate local rng 32 in
  match n with O => nonce32 | S n => generate_last n rng end.

Definition nonce_function_rfc6979 : nonce_function := λ msg32 key32 algo16 data counter,
  let keydata := take 32 key32 ++ take 32 msg32 in
  let keydata := match data with Some data => keydata ++ take 32 data | None => keydata end in
  let keydata := match algo16 with Some algo16 => keydata ++ take 16 algo16 | None => keydata end in
  let rng := secp256k1_rfc6979_hmac_sha256_initialize local keydata in
  (generate_last (Z.to_nat counter) rng, 1).

(** [while (1)]: [r], [s] and [ret] after it. *)
Fixpoint sign_loop (fuel : nat) (gen : secp256k1_ecmult_gen_context) (noncefp : nonce_function) (msg32 seckey : list byte)
  (noncedata : option (list byte)) (sec msg r s : secp256k1_scalar) (count : Z) :
  option (secp256k1_scalar * secp256k1_scalar * Z) :=
  match fuel with
  | O => None
  | S fuel =>
      let '(nonce32, ok) := noncefp msg32 seckey None noncedata count in
      if negb (nonzero ok) then Some (r, s, ok)
      else
        let '(non, overflow) := secp256k1_scalar_set_b32 nonce32 in
        let '(r, s, done) :=
          if negb (nonzero overflow) && negb (nonzero (secp256k1_scalar_is_zero non)) then
            let '(r, s, _, signed) := secp256k1_ecdsa_sig_sign gen sec msg non None in
            (r, s, nonzero signed)
          else (r, s, false) in
        if done then Some (r, s, ok)
        else sign_loop fuel gen noncefp msg32 seckey noncedata sec msg r s (u32 (count + 1))
  end.

Definition secp256k1_ecdsa_sign (fuel : nat) (ctx : secp256k1_context) (signature msg32 seckey : option (list byte))
  (noncefp : option nonce_function) (noncedata : option (list byte)) : option (outcome (option (list byte))) :=
  if negb (secp256k1_ecmult_gen_context_is_built (ecmult_gen_ctx ctx)) then
    Some (Outcome signature 0 [(illegal_callback ctx, "secp256k1_ecmult_gen_context_is_built(&ctx->ecmult_gen_ctx)")])
  else if negb (not_null msg32) then Some (Outcome signature 0 [(illegal_callback ctx, "msg32 != NULL")])
  else if negb (not_null signature) then Some (Outcome signature 0 [(illegal_callback ctx, "signature != NULL")])
  else if negb (not_null seckey) then Some (Outcome signature 0 [(illegal_callback ctx, "seckey != NULL")])
  else
    let noncefp := default nonce_function_rfc6979 noncefp in
    let '(sec, overflow) := secp256k1_scalar_set_b32 (default [] seckey) in
    if negb (nonzero overflow) && negb (nonzero (secp256k1_scalar_is_zero sec)) then
      let msg := (secp256k1_scalar_set_b32 (default [] msg32)).1 in
      match sign_loop fuel (ecmult_gen_ctx ctx) noncefp (default [] msg32) (default [] seckey) noncedata sec msg
              local_scalar local_scalar 0 with
      | None => None
      | Some (r, s, ok) =>
          Some (Outcome (Some (if nonzero ok then secp256k1_ecdsa_signature_save r s else replicate 64 x00)) ok [])
      end
    else Some (Outcome (Some (replicate 64 x00)) 0 []).

(** * Keys *)

Definition secp256k1_ec_seckey_verify (ctx : secp256k1_context) (seckey : option (list byte)) : outcome unit :=
  ARG_CHECK ctx (not_null seckey) "seckey != NULL" tt (
  let '(sec, overflow) := secp256k1_scalar_set_b32 (default [] seckey) in
  Outcome tt (truth (negb (nonzero overflow) && negb (nonzero (secp256k1_scalar_is_zero sec)))) []).

Definition secp256k1_ec_pubkey_create (ctx : secp256k1_context) (pubkey seckey : option (list byte)) : outcome (option (list byte)) :=
  ARG_CHECK ctx (not_null pubkey) "pubkey != NULL" pubkey (
  let pubkey := Some zero_pubkey in
  ARG_CHECK ctx (secp256k1_ecmult_gen_context_is_built (ecmult_gen_ctx ctx))
    "secp256k1_ecmult_gen_context_is_built(&ctx->ecmult_gen_ctx)" pubkey (
  ARG_CHECK ctx (not_null seckey) "seckey != NULL" pubkey (
  let '(sec, overflow) := secp256k1_scalar_set_b32 (default [] seckey) in
  let ok := Z.land (truth (negb (nonzero overflow))) (truth (negb (nonzero (secp256k1_scalar_is_zero sec)))) in
  if nonzero ok then
    let pj := secp256k1_ecmult_gen (ecmult_gen_ctx ctx) sec in
    let p := (secp256k1_ge_set_gej pj).1 in
    Outcome (Some (secp256k1_pubkey_save p)) ok []
  else Outcome pubkey ok []))).

Definition secp256k1_ec_privkey_tweak_add (ctx : secp256k1_context) (seckey tweak : option (list byte)) : outcome (option (list byte)) :=
  ARG_CHECK ctx (not_null seckey) "seckey != NULL" seckey (
  ARG_CHECK ctx (not_null tweak) "tweak != NULL" seckey (
  let '(term, overflow) := secp256k1_scalar_set_b32 (default [] tweak) in
  let sec := (secp256k1_scalar_set_b32 (default [] seckey)).1 in
  let '(sec, ok) := if nonzero overflow then (sec, 0) else secp256k1_eckey_privkey_tweak_add sec term in
  Outcome (Some (if nonzero ok then secp256k1_scalar_get_b32 sec else replicate 32 x00)) ok [])).

Definition secp256k1_ec_pubkey_tweak_add (ctx : secp256k1_context) (pubkey tweak : option (list byte)) : outcome (option (list byte)) :=
  ARG_CHECK ctx (secp256k1_ecmult_context_is_built (ecmult_ctx ctx))
    "secp256k1_ecmult_context_is_built(&ctx->ecmult_ctx)" pubkey (
  ARG_CHECK ctx (not_null pubkey) "pubkey != NULL" pubkey (
  ARG_CHECK ctx (not_null tweak) "tweak != NULL" pubkey (
  let '(term, overflow) := secp256k1_scalar_set_b32 (default [] tweak) in
  if nonzero overflow then Outcome (Some zero_pubkey) 0 []
  else
    let load := secp256k1_pubkey_load ctx (default [] pubkey) in
    if nonzero (ret load) then
      let '(p, ok) := secp256k1_eckey_pubkey_tweak_add (ecmult_ctx ctx) (value load) term in
      if nonzero ok then Outcome (Some (secp256k1_pubkey_save p)) 1 (reports load)
      else Outcome (Some zero_pubkey) 0 (reports load)
    else Outcome (Some zero_pubkey) 0 (reports load)))).

Definition secp256k1_ec_privkey_tweak_mul (ctx : secp256k1_context) (seckey tweak : option (list byte)) : outcome (option (list byte)) :=
  ARG_CHECK ctx (not_null seckey) "seckey != NULL" seckey (
  ARG_CHECK ctx (not_null tweak) "tweak != NULL" seckey (
  let '(factor, overflow) := secp256k1_scalar_set_b32 (default [] tweak) in
  let sec := (secp256k1_scalar_set_b32 (default [] seckey)).1 in
  let '(sec, ok) := if nonzero overflow then (sec, 0) else secp256k1_eckey_privkey_tweak_mul sec factor in
  Outcome (Some (if nonzero ok then secp256k1_scalar_get_b32 sec else replicate 32 x00)) ok [])).

Definition secp256k1_ec_pubkey_tweak_mul (ctx : secp256k1_context) (pubkey tweak : option (list byte)) : outcome (option (list byte)) :=
  ARG_CHECK ctx (secp256k1_ecmult_context_is_built (ecmult_ctx ctx))
    "secp256k1_ecmult_context_is_built(&ctx->ecmult_ctx)" pubkey (
  ARG_CHECK ctx (not_null pubkey) "pubkey != NULL" pubkey (
  ARG_CHECK ctx (not_null tweak) "tweak != NULL" pubkey (
  let '(factor, overflow) := secp256k1_scalar_set_b32 (default [] tweak) in
  if nonzero overflow then Outcome (Some zero_pubkey) 0 []
  else
    let load := secp256k1_pubkey_load ctx (default [] pubkey) in
    if nonzero (ret load) then
      let '(p, ok) := secp256k1_eckey_pubkey_tweak_mul (ecmult_ctx ctx) (value load) factor in
      if nonzero ok then Outcome (Some (secp256k1_pubkey_save p)) 1 (reports load)
      else Outcome (Some zero_pubkey) 0 (reports load)
    else Outcome (Some zero_pubkey) 0 (reports load)))).

(** [for (i = 0; i < n; i++)]: [Qj] and the reports; a key that is refused is added all the same. *)
Definition combine_step (ctx : secp256k1_context) (st : secp256k1_gej * list (secp256k1_callback * string)) (pubkey : list byte) :
  secp256k1_gej * list (secp256k1_callback * string) :=
  let load := secp256k1_pubkey_load ctx pubkey in
  (secp256k1_gej_add_ge st.1 (value load), st.2 ++ reports load).

Definition secp256k1_ec_pubkey_combine (ctx : secp256k1_context) (pubnonce : option (list byte))
  (pubnonces : option (list (list byte))) (n : nat) : outcome (option (list byte)) :=
  ARG_CHECK ctx (not_null pubnonce) "pubnonce != NULL" pubnonce (
  let pubnonce := Some zero_pubkey in
  ARG_CHECK ctx (1 <=? n)%nat "n >= 1" pubnonce (
  ARG_CHECK ctx (not_null pubnonces) "pubnonces != NULL" pubnonce (
  let '(Qj, calls) := foldl (combine_step ctx) (secp256k1_gej_set_infinity, []) (take n (default [] pubnonces)) in
  if nonzero (secp256k1_gej_is_infinity Qj) then Outcome pubnonce 0 calls
  else
    let Q := (secp256k1_ge_set_gej Qj).1 in
    Outcome (Some (secp256k1_pubkey_save Q)) 1 calls))).
End Library.
