(* ===== verification/Secp256k1ApiProofs.v ===== *)
(** What the interface promises: keys and signatures as callers see them.

    [pubkey_is] and [signature_is] say which point or which numbers the 64 bytes of a
    structure stand for.  The lemmas follow each function of secp256k1.c, with its
    errors, down to the specifications of the parts it calls. *)

From Stdlib Require Import ZArith Lia Strings.Byte Strings.String.
From stdpp Require Import base gmap list fin_maps numbers.
From S2P Require Import Prelude Mem Lz4Common Primality Secp256k1Scalar Secp256k1ScalarProofs Secp256k1ScalarOps Secp256k1Field Secp256k1FieldProofs Secp256k1FieldOps Secp256k1FieldApi Secp256k1Curve Secp256k1GroupLaw Secp256k1Order Secp256k1Group Secp256k1GroupProofs Secp256k1GroupApi Secp256k1Ecmult Secp256k1EcmultProofs Secp256k1Hash Secp256k1HashApi Secp256k1EcmultGen Secp256k1EcmultGenProofs Secp256k1EcmultGenTable Secp256k1Ecdsa Secp256k1EcdsaProofs Secp256k1Der Secp256k1Keys Secp256k1Api.

(** * No point has first coordinate 0 *)

Lemma seven_power : powm 7 field_prime (Z.to_pos ((field_prime - 1) / 2)) ≠ 1 mod field_prime.
Proof. vm_compute. discriminate. Qed.

Lemma no_point_with_x_0 (x y : Z) : on_curve (Some (x, y)) → ¬ x ≡ₚ 0.
Proof.
  intros HC Hx. cbn [on_curve] in HC. rewrite Hx in HC. change (0 * 0 * 0 + 7) with 7 in HC.
  assert (¬ y ≡ₚ 0) as Hy.
  { intros E. rewrite E in HC. by apply (small_nonzero 7). }
  pose proof (fermat_eqp y Hy) as Hf.
  replace (field_prime - 1) with (2 * ((field_prime - 1) / 2)) in Hf by (by vm_compute).
  rewrite Z.pow_mul_r in Hf by (apply Z.leb_le; vm_compute; reflexivity).
  rewrite Z.pow_2_r, HC in Hf. unfold eqp in Hf.
  replace ((field_prime - 1) / 2) with (Z.pos (Z.to_pos ((field_prime - 1) / 2))) in Hf by (by vm_compute).
  rewrite <- powm_spec in Hf. by apply seven_power.
Qed.

#[local] Opaque group_order field_prime.

Section Target.
Context `{Arch}.

(** * Words in memory *)

Lemma length_bytes_of_word (x : Z) : length (bytes_of_word x) = 4%nat.
Proof. unfold bytes_of_word, be_bytes. destruct LZ4_isLittleEndian; rewrite ?length_reverse; apply length_le_bytes. Qed.

Lemma word_roundtrip (x : Z) : is_limb x → word_of_bytes (bytes_of_word x) = x.
Proof.
  intros Hx. unfold word_of_bytes, bytes_of_word, be_val, be_bytes. destruct LZ4_isLittleEndian;
    rewrite ?reverse_involutive, le_val_le_bytes; apply Z.mod_small; exact Hx.
Qed.

Lemma length_bytes_of_words (l : list Z) : length (bytes_of_words l) = (4 * length l)%nat.
Proof.
  induction l as [|x l IH]; [done|]. unfold bytes_of_words in *. rewrite fmap_cons, mjoin_cons, length_app, IH, length_bytes_of_word.
  cbn [length]. lia.
Qed.

Lemma words_roundtrip (l : list Z) : length l = 8%nat → limbs_ok l → words_of_bytes (bytes_of_words l) = l.
Proof.
  intros Hl Hok. apply list_eq_same_length with 8%nat; [done|by unfold words_of_bytes; rewrite length_map, length_seq|].
  intros i x y Hi. unfold words_of_bytes. rewrite list_lookup_fmap, lookup_seq_lt by done. rewrite Nat.add_0_l. intros Ex Ey.
  assert (x = word_of_bytes (take 4 (drop (4 * i) (bytes_of_words l)))) as ->
    by (apply (inj Some); rewrite <- Ex; reflexivity).
  assert (∀ k, take 4 (drop (4 * k) (bytes_of_words l)) = match l !! k with Some w => bytes_of_word w | None => [] end) as HT.
  { clear. intros k. revert l. induction k as [|k IH]; intros [|w l]; try done.
    - unfold bytes_of_words. rewrite fmap_cons, mjoin_cons. cbn [lookup list_lookup]. rewrite drop_0.
      by rewrite take_app_length' by (by rewrite length_bytes_of_word).
    - unfold bytes_of_words. rewrite fmap_cons, mjoin_cons. replace (4 * S k)%nat with (length (bytes_of_word w) + 4 * k)%nat
        by (rewrite length_bytes_of_word; lia). rewrite <- drop_drop, drop_app_length. apply IH. }
  rewrite HT, Ey. apply word_roundtrip. by apply (Forall_lookup_1 _ _ _ _ Hok Ey).
Qed.

(** * Keys in memory *)

Definition pubkey_is (pubkey : list byte) (P : point) : Prop :=
  ∃ ge, finite P ∧ on_curve P ∧ ge_is ge P ∧ pubkey = secp256k1_pubkey_save ge.

Lemma pubkey_is_eq (pubkey : list byte) (P Q : point) : point_eq P Q → pubkey_is pubkey P → pubkey_is pubkey Q.
Proof. intros E (ge & Hf & HC & HG & ->). exists ge. by rewrite <- E. Qed.

(** A point has one representation. *)
Lemma pubkey_is_inj (k1 k2 : list byte) (P : point) : pubkey_is k1 P → pubkey_is k2 P → k1 = k2.
Proof.
  intros (g1 & Hf & _ & G1 & ->) (g2 & _ & _ & G2 & ->). destruct P as [[x y]|]; [|done].
  unfold secp256k1_pubkey_save. by rewrite (ge_storage_canonical g1 g2 x y).
Qed.

Lemma pubkey_load_spec (ctx : secp256k1_context) (pubkey : list byte) (P : point) :
  pubkey_is pubkey P → ∃ ge, secp256k1_pubkey_load ctx pubkey = Outcome ge 1 [] ∧ ge_is ge P.
Proof.
  intros (ge & Hf & HC & HG & ->). destruct P as [[x y]|]; [|done].
  exists (secp256k1_ge_from_storage (secp256k1_ge_to_storage ge)). pose proof (ge_storage_spec ge x y HG) as HS.
  split; [|done]. destruct HG as (_ & Fx & Fy). unfold secp256k1_pubkey_load, secp256k1_pubkey_save. cbv zeta.
  destruct (normalize_is _ _ _ Fx ltac:(lia)) as [Nx Vx]. destruct (normalize_is _ _ _ Fy ltac:(lia)) as [Ny Vy].
  unfold secp256k1_ge_to_storage in *. cbv zeta in *. cbn [gs_x gs_y] in *.
  destruct (to_storage_spec _ (proj1 Nx)) as [[Lx Wx] _]. destruct (to_storage_spec _ (proj1 Ny)) as [[Ly Wy] _].
  set (sx := secp256k1_fe_to_storage (secp256k1_fe_normalize (ge_x ge))) in *.
  set (sy := secp256k1_fe_to_storage (secp256k1_fe_normalize (ge_y ge))) in *.
  rewrite take_app_length', drop_app_length' by (by rewrite length_bytes_of_words, Lx).
  rewrite !words_roundtrip by done. replace (FeStorage (st_n sx)) with sx by (by destruct sx).
  replace (FeStorage (st_n sy)) with sy by (by destruct sy).
  unfold secp256k1_ge_from_storage in *. cbn [ge_x gs_x gs_y] in *.
  assert (secp256k1_fe_is_zero (secp256k1_fe_from_storage sx) = 0) as ->; [|reflexivity].
  unfold sx. rewrite storage_roundtrip by apply Nx. rewrite (fe_is_zero_spec _ Nx), Vx.
  destruct (Z.eqb_spec (x mod field_prime) 0) as [E|]; [|reflexivity]. exfalso. apply (no_point_with_x_0 x y HC).
  unfold eqp. rewrite E. symmetry. apply Z.mod_0_l. intros E0. pose proof order_bounds. pose proof order_pos. lia.
Qed.

(** * Signatures in memory *)

Definition signature_is (sig : list byte) (r s : Z) : Prop :=
  0 ≤ r < group_order ∧ 0 ≤ s < group_order ∧ ∃ a b, scalar_ok a ∧ scalar_ok b ∧ scalar_val a = r ∧ scalar_val b = s ∧
    sig = secp256k1_ecdsa_signature_save a b.

Lemma signature_load_save (a b : secp256k1_scalar) :
  scalar_wf a → scalar_wf b → secp256k1_ecdsa_signature_load (secp256k1_ecdsa_signature_save a b) = (a, b).
Proof.
  intros [La Wa] [Lb Wb]. unfold secp256k1_ecdsa_signature_load, secp256k1_ecdsa_signature_save.
  rewrite take_app_length', drop_app_length' by (by rewrite length_bytes_of_words, La).
  rewrite !words_roundtrip by done. by destruct a, b.
Qed.

(** * Reading and writing public keys *)

(** The encodings of SEC 1, section 2.3.3. *)
Definition sec_compressed (x y : Z) : list byte := z2b (2 + (y mod field_prime) mod 2) :: be_bytes 32 (x mod field_prime).
Definition sec_uncompressed (x y : Z) : list byte := x04 :: be_bytes 32 (x mod field_prime) ++ be_bytes 32 (y mod field_prime).

Lemma prime_range (x : Z) : 0 ≤ x mod field_prime < field_prime ∧ field_prime < 2 ^ 256.
Proof. split; [apply Z.mod_pos_bound|]; by vm_compute. Qed.

Lemma coordinate_bytes (m : Z) (f : secp256k1_fe) (x : Z) :
  fe_is m f x → m ≤ 31 → secp256k1_fe_get_b32 (secp256k1_fe_normalize_var f) = be_bytes 32 (x mod field_prime).
Proof.
  intros F Hm. rewrite normalize_var_eq by (apply (fe_mag_mono m); [apply F|done]).
  destruct (normalize_is m f x F Hm) as [N V]. rewrite fe_get_b32_spec by apply N. by rewrite V.
Qed.

(** What an accepted coordinate is. *)
Lemma coordinate_parse (b : list byte) :
  length b = 32%nat → let '(f, ok) := secp256k1_fe_set_b32 b in
  ok = truth (be_val b <? field_prime) ∧ fe_is 1 f (be_val b) ∧ fe_val f = be_val b ∧ (ok = 1 → fe_norm f).
Proof.
  intros Hb. pose proof (fe_set_b32_spec b Hb) as HB. destruct (secp256k1_fe_set_b32 b) as [f ok].
  destruct HB as (Mf & Vf & ->). split_and!; [done|split; [by apply (limbs_le_mono 1); [|lia]|by rewrite Vf]|done|].
  destruct (Z.ltb_spec (be_val b) field_prime); [|done]. intros _. split; [done|lia].
Qed.

Lemma be_bytes_coordinate (x : Z) : length (be_bytes 32 (x mod field_prime)) = 32%nat ∧ be_val (be_bytes 32 (x mod field_prime)) = x mod field_prime.
Proof. destruct (prime_range x). split; [apply length_be_bytes|apply be_val_be_bytes32; lia]. Qed.

(** Only points of the curve are accepted. *)
Lemma eckey_pubkey_parse_sound (elem : secp256k1_ge) (pub : list byte) :
  let '(ge, ok) := secp256k1_eckey_pubkey_parse elem pub in
  (ok = 0 ∨ ok = 1) ∧
  (ok = 1 → ∃ x y, 0 ≤ x < field_prime ∧ 0 ≤ y < field_prime ∧ on_curve (Some (x, y)) ∧ ge_is ge (Some (x, y)) ∧
    (pub = sec_compressed x y ∨ pub = sec_uncompressed x y ∨
     pub = z2b (6 + y mod 2) :: be_bytes 32 x ++ be_bytes 32 y)).
Proof.
  unfold secp256k1_eckey_pubkey_parse. cbv zeta. destruct (prime_range 0) as [_ HP256].
  destruct (_ && (_ || _)) eqn:G1.
  - apply andb_true_iff in G1 as [Hl Ht]. apply Z.eqb_eq in Hl. destruct pub as [|t pub]; [discriminate Hl|]. cbn [length] in Hl.
    change ((t :: pub) !!! 0%nat) with t in *. change (drop 1 (t :: pub)) with (drop 0 pub). rewrite drop_0, take_ge by lia.
    pose proof (coordinate_parse pub ltac:(lia)) as HX. destruct (secp256k1_fe_set_b32 pub) as [f ok].
    destruct HX as (Eok & Ff & Vf & Nf). destruct (Z.ltb_spec (be_val pub) field_prime) as [Hlt|]; cbn [truth] in Eok; subst ok; [|split; [left; reflexivity|discriminate]].
    change (nonzero 1) with true. cbv iota. set (odd := truth (b2z t =? 0x03)).
    assert (odd = 0 ∧ b2z t = 2 ∨ odd = 1 ∧ b2z t = 3) as Ho.
    { unfold odd. apply orb_true_iff in Ht. rewrite !Z.eqb_eq in Ht. destruct Ht as [-> | ->]; [by left|by right]. }
    pose proof (ge_set_xo_spec f odd (fe_mag_mono 1 8 _ (proj1 Ff) ltac:(lia)) ltac:(lia)) as HO.
    destruct (secp256k1_ge_set_xo_var f odd) as [ge ok]. destruct HO as (Hok & _ & Hge).
    destruct Hok as [-> | ->]; cbn [nonzero Z.eqb negb truth]; [split; [left; reflexivity|discriminate]|]. split; [right; reflexivity|]. intros _.
    destruct (Hge eq_refl) as (y & Ry & Py & Cy & Gy). rewrite Vf in *. exists (be_val pub), y.
    assert (0 ≤ be_val pub) as H0 by (unfold be_val; apply le_val_range). split; [lia|]. split; [exact Ry|]. split; [exact Cy|]. split; [exact Gy|]. left.
    unfold sec_compressed. rewrite (Z.mod_small (be_val pub)), (Z.mod_small y field_prime), Py by lia. f_equal.
    + apply b2z_inj. rewrite b2z_z2b_small by lia. lia.
    + apply be_val_inj; [rewrite length_be_bytes; lia|]. rewrite be_val_be_bytes32; lia.
  - clear G1. destruct (_ && _) eqn:G1; [|split; [left; reflexivity|discriminate]].
    apply andb_true_iff in G1 as [Hl Ht]. apply Z.eqb_eq in Hl. destruct pub as [|t pub]; [discriminate Hl|]. cbn [length] in Hl.
    change ((t :: pub) !!! 0%nat) with t in *. change (drop 1 (t :: pub)) with (drop 0 pub). change (drop 33 (t :: pub)) with (drop 32 pub).
    rewrite drop_0, (take_ge (drop 32 pub)) by (rewrite length_drop; lia).
    assert (length (take 32 pub) = 32%nat) as L1 by (rewrite length_take; lia).
    assert (length (drop 32 pub) = 32%nat) as L2 by (rewrite length_drop; lia).
    pose proof (take_drop 32 pub) as Ep. set (bx := take 32 pub) in *. set (by_ := drop 32 pub) in *. clearbody bx by_. subst pub.
    pose proof (coordinate_parse bx L1) as HX. destruct (secp256k1_fe_set_b32 bx) as [f ok].
    destruct HX as (Eok & Ff & Vf & Nf). destruct (Z.ltb_spec (be_val bx) field_prime) as [Hltx|].
    2:{ cbn [truth] in Eok. subst ok. change (negb (nonzero 0)) with true. cbv iota. split; [left; reflexivity|discriminate]. }
    cbn [truth] in Eok. subst ok.
    change (negb (nonzero 1)) with false. cbv iota.
    pose proof (coordinate_parse by_ L2) as HY. destruct (secp256k1_fe_set_b32 by_) as [g ok].
    destruct HY as (Eok & Fg & Vg & Ng). destruct (Z.ltb_spec (be_val by_) field_prime) as [Hlty|]; cbn [truth] in Eok; subst ok;
      [|change (negb (nonzero 0)) with true; cbv iota; split; [left; reflexivity|discriminate]].
    change (negb (nonzero 1)) with false. cbv iota.
    rewrite (fe_is_odd_spec _ (Ng eq_refl)), Vg.
    destruct (_ && negb _) eqn:G2; [split; [left; reflexivity|discriminate]|].
    set (x := be_val bx) in *. set (y := be_val by_) in *.
    assert (ge_is (secp256k1_ge_set_xy f g) (Some (x, y))) as HG
      by (split; [reflexivity|split; (eapply fe_is_mono; [eassumption|lia])]).
    rewrite (ge_is_valid_spec _ _ HG). cbn [point_valid]. case_bool_decide as HC; cbn [truth];
      [|split; [left; reflexivity|discriminate]]. split; [right; reflexivity|]. intros _. exists x, y.
    assert (0 ≤ x) as X0 by (unfold x, be_val; apply le_val_range). assert (0 ≤ y) as Y0 by (unfold y, be_val; apply le_val_range).
    split; [lia|]. split; [lia|]. split; [exact HC|]. split; [exact HG|]. right.
    assert (bx = be_bytes 32 x) as Ebx by (apply be_val_inj; [rewrite length_be_bytes; lia|unfold x; rewrite be_val_be_bytes32; lia]).
    assert (by_ = be_bytes 32 y) as Eby by (apply be_val_inj; [rewrite length_be_bytes; lia|unfold y; rewrite be_val_be_bytes32; lia]).
    unfold sec_uncompressed. rewrite (Z.mod_small x), (Z.mod_small y field_prime), <- Ebx, <- Eby by lia.
    apply orb_true_iff in Ht as [Ht|Ht]; [apply orb_true_iff in Ht as [Ht|Ht]|]; apply Z.eqb_eq in Ht; rewrite Ht in G2.
    + left. f_equal. by apply b2z_inj.
    + right. f_equal. apply b2z_inj. pose proof (Z.mod_pos_bound y 2 ltac:(lia)). rewrite b2z_z2b_small by lia. rewrite Ht.
      cbn [Z.eqb orb andb truth Pos.eqb] in G2. apply negb_false_iff, Z.eqb_eq in G2. lia.
    + right. f_equal. apply b2z_inj. pose proof (Z.mod_pos_bound y 2 ltac:(lia)). rewrite b2z_z2b_small by lia. rewrite Ht.
      cbn [Z.eqb orb andb truth Pos.eqb] in G2. apply negb_false_iff, Z.eqb_eq in G2. lia.
Qed.

(** The two encodings that are written are read as the point. *)
Lemma eckey_pubkey_parse_compressed (elem : secp256k1_ge) (x y : Z) :
  on_curve (Some (x, y)) →
  ∃ ge, secp256k1_eckey_pubkey_parse elem (sec_compressed x y) = (ge, 1) ∧ ge_is ge (Some (x, y)).
Proof.
  intros HC. unfold sec_compressed. destruct (be_bytes_coordinate x) as [Lx Vx]. set (bx := be_bytes 32 (x mod field_prime)) in *.
  clearbody bx. set (odd := (y mod field_prime) mod 2).
  assert (odd = 0 ∨ odd = 1) as Ho by (unfold odd; pose proof (Z.mod_pos_bound (y mod field_prime) 2 ltac:(lia)); lia).
  set (t := z2b (2 + odd)). assert (b2z t = 2 + odd) as Et by (unfold t; apply b2z_z2b_small; lia).
  unfold secp256k1_eckey_pubkey_parse. cbv zeta. change ((t :: bx) !!! 0%nat) with t. rewrite Et.
  change (drop 1 (t :: bx)) with (drop 0 bx). rewrite drop_0, take_ge by lia. cbn [length]. rewrite Lx.
  assert ((Z.of_nat 33 =? 33) && ((2 + odd =? 2) || (2 + odd =? 3)) = true) as -> by (destruct Ho as [-> | ->]; reflexivity).
  assert (truth (2 + odd =? 3) = odd) as -> by (destruct Ho as [-> | ->]; reflexivity).
  pose proof (coordinate_parse bx Lx) as HX. destruct (secp256k1_fe_set_b32 bx) as [f ok]. destruct HX as (Eok & Ff & Vf & _).
  rewrite Vx in *. destruct (prime_range x) as [Rx _]. rewrite (proj2 (Z.ltb_lt _ _)) in Eok by lia. cbn [truth] in Eok. subst ok.
  change (nonzero 1) with true. cbv iota.
  pose proof (ge_set_xo_spec f odd (fe_mag_mono 1 8 _ (proj1 Ff) ltac:(lia)) Ho) as HO.
  destruct (secp256k1_ge_set_xo_var f odd) as [ge ok]. destruct HO as (_ & Hex & Hge). rewrite Vf in *.
  assert (point_eq (Some (x mod field_prime, y)) (Some (x, y))) as EP by (split; [apply eqp_mod|reflexivity]).
  assert (ok = 1) as -> by (apply Hex; exists y; rewrite EP; exact HC).
  destruct (Hge eq_refl) as (y' & Ry & Py & Cy & Gy). exists ge. split; [reflexivity|].
  assert (point_eq (Some (x mod field_prime, y')) (Some (x, y))) as <-; [|exact Gy].
  apply point_code_inj; [exact Cy|exact HC|]. cbn [point_code]. rewrite (Z.mod_small y') by lia. rewrite Z.mod_mod by lia. fold odd. lia.
Qed.

Lemma eckey_pubkey_parse_uncompressed (elem : secp256k1_ge) (x y : Z) :
  on_curve (Some (x, y)) →
  ∃ ge, secp256k1_eckey_pubkey_parse elem (sec_uncompressed x y) = (ge, 1) ∧ ge_is ge (Some (x, y)).
Proof.
  intros HC. unfold sec_uncompressed. destruct (be_bytes_coordinate x) as [Lx Vx]. set (bx := be_bytes 32 (x mod field_prime)) in *.
  clearbody bx. destruct (be_bytes_coordinate y) as [Ly Vy]. set (by_ := be_bytes 32 (y mod field_prime)) in *. clearbody by_.
  unfold secp256k1_eckey_pubkey_parse. cbv zeta. change ((x04 :: bx ++ by_) !!! 0%nat) with x04.
  change (drop 1 (x04 :: bx ++ by_)) with (drop 0 (bx ++ by_)). change (drop 33 (x04 :: bx ++ by_)) with (drop 32 (bx ++ by_)).
  rewrite drop_0, take_app_length', drop_app_length', (take_ge by_) by lia. cbn [length]. rewrite length_app, Lx, Ly.
  assert (∀ b, (Z.of_nat (S (32 + 32)) =? 33) && b = false) as E33 by reflexivity. rewrite E33. clear E33.
  assert ((Z.of_nat (S (32 + 32)) =? 65) && ((b2z x04 =? 0x04) || (b2z x04 =? 0x06) || (b2z x04 =? 0x07)) = true) as -> by reflexivity.
  destruct (prime_range x) as [Rx _]. destruct (prime_range y) as [Ry _].
  pose proof (coordinate_parse bx Lx) as HX. destruct (secp256k1_fe_set_b32 bx) as [f ok]. destruct HX as (Eok & Ff & _ & _).
  rewrite Vx in *. rewrite (proj2 (Z.ltb_lt _ _)) in Eok by lia. cbn [truth] in Eok. subst ok. change (negb (nonzero 1)) with false. cbv iota.
  pose proof (coordinate_parse by_ Ly) as HY. destruct (secp256k1_fe_set_b32 by_) as [g ok]. destruct HY as (Eok & Fg & _ & _).
  rewrite Vy in *. rewrite (proj2 (Z.ltb_lt _ _)) in Eok by lia. cbn [truth] in Eok. subst ok. change (negb (nonzero 1)) with false. cbv iota.
  assert (∀ b, ((b2z x04 =? 0x06) || (b2z x04 =? 0x07)) && b = false) as E6 by reflexivity. rewrite E6. clear E6.
  assert (ge_is (secp256k1_ge_set_xy f g) (Some (x, y))) as HG.
  { split; [reflexivity|]. split; (eapply fe_is_mono; [eapply fe_is_proper; [eassumption|apply eqp_mod]|lia]). }
  eexists. split; [|exact HG]. rewrite (ge_is_valid_spec _ _ HG). cbn [point_valid]. by rewrite bool_decide_true by exact HC.
Qed.

Lemma eckey_pubkey_serialize_spec (elem : secp256k1_ge) (pub : list byte) (size compressed : Z) (x y : Z) :
  ge_is elem (Some (x, y)) →
  let '(_, out, len, r) := secp256k1_eckey_pubkey_serialize elem pub size compressed in
  r = 1 ∧ (out, len) = if nonzero compressed then (sec_compressed x y ++ drop 33 pub, 33) else (sec_uncompressed x y ++ drop 65 pub, 65).
Proof.
  intros (Hi & Fx & Fy). unfold secp256k1_eckey_pubkey_serialize, secp256k1_ge_is_infinity. rewrite Hi. change (nonzero 0) with false.
  cbv iota zeta. rewrite (coordinate_bytes _ _ _ Fx), (coordinate_bytes _ _ _ Fy) by lia.
  rewrite (normalize_var_eq (ge_y elem)) by (apply (fe_mag_mono 8); [apply Fy|lia]).
  destruct (normalize_is _ _ _ Fy ltac:(lia)) as [Ny Vy]. rewrite (fe_is_odd_spec _ Ny), Vy.
  destruct (nonzero compressed); (split; [reflexivity|]).
  - unfold sec_compressed. cbn [app]. do 3 f_equal.
    assert ((y mod field_prime) mod 2 = 0 ∨ (y mod field_prime) mod 2 = 1) as [-> | ->]; [|reflexivity..].
    pose proof (Z.mod_pos_bound (y mod field_prime) 2 ltac:(lia)). lia.
  - unfold sec_uncompressed. cbn [app]. by rewrite <- app_assoc.
Qed.
End Target.
