(* ===== verification/Secp256k1Interface.v ===== *)
(** The theorems about the interface of the library.

    Each is about calls with valid pointers; the arguments that are refused are reported to
    the callback of the context and change nothing but what the code clears first. *)

From Stdlib Require Import ZArith Lia Strings.Byte Strings.String.
From stdpp Require Import base gmap list fin_maps numbers.
From S2P Require Import Prelude Mem Lz4Common Secp256k1Scalar Secp256k1ScalarProofs Secp256k1ScalarOps Secp256k1Field Secp256k1FieldProofs Secp256k1FieldOps Secp256k1FieldApi Secp256k1Curve Secp256k1GroupLaw Secp256k1Order Secp256k1Group Secp256k1GroupProofs Secp256k1GroupApi Secp256k1Ecmult Secp256k1EcmultProofs Secp256k1Hash Secp256k1HashApi Secp256k1EcmultGen Secp256k1EcmultGenProofs Secp256k1EcmultGenTable Secp256k1Ecdsa Secp256k1EcdsaProofs Secp256k1Der Secp256k1Keys Secp256k1Api Secp256k1ApiProofs.

#[local] Opaque group_order field_prime.

(** A context that can be used for signatures and for multiples of the generator, and for verification. *)
Definition signs (ctx : secp256k1_context) : Prop := gen_ctx_ok (ecmult_gen_ctx ctx).
Definition verifies (ctx : secp256k1_context) : Prop := ecmult_ctx_ok (ecmult_ctx ctx).

Lemma signs_built (ctx : secp256k1_context) : signs ctx → secp256k1_ecmult_gen_context_is_built (ecmult_gen_ctx ctx) = true.
Proof. intros ((U & t & _ & E & _) & _). unfold secp256k1_ecmult_gen_context_is_built. by rewrite E. Qed.

Lemma verifies_built (ctx : secp256k1_context) : verifies ctx → secp256k1_ecmult_context_is_built (ecmult_ctx ctx) = true.
Proof. unfold verifies, ecmult_ctx_ok, secp256k1_ecmult_context_is_built. by destruct (pre_g (ecmult_ctx ctx)). Qed.

(** The number that 32 bytes are read as, if it is a private key. *)
Definition valid_key (l : list byte) : bool := (0 <? be_val l) && (be_val l <? group_order).

Lemma key_range (l : list byte) :
  length l = 32%nat → let '(a, overflow) := secp256k1_scalar_set_b32 l in
  scalar_ok a ∧ scalar_val a = be_val l mod group_order ∧ overflow = truth (group_order <=? be_val l) ∧
  negb (nonzero overflow) && negb (nonzero (secp256k1_scalar_is_zero a)) = valid_key l ∧
  (valid_key l = true → scalar_val a = be_val l ∧ 0 < be_val l < group_order).
Proof.
  intros Hl. pose proof (set_b32_spec l Hl) as HB. destruct (secp256k1_scalar_set_b32 l) as [a o]. destruct HB as (Oa & Va & ->).
  assert (0 ≤ be_val l) as H0 by (unfold be_val; apply le_val_range). rewrite is_zero_spec by apply Oa. unfold valid_key.
  split; [done|]. split; [done|]. split; [done|]. split.
  - destruct (Z.leb_spec group_order (be_val l)), (Z.ltb_spec (be_val l) group_order); try lia.
    + by rewrite andb_false_r.
    + rewrite Va, Z.mod_small by lia. destruct (Z.eqb_spec (be_val l) 0), (Z.ltb_spec 0 (be_val l)); try lia; reflexivity.
  - rewrite andb_true_iff, !Z.ltb_lt. intros [H1 H2]. rewrite Va, Z.mod_small by lia. lia.
Qed.

Section Target.
Context `{Arch}.

(** * Public keys *)

Lemma save_is (ge : secp256k1_ge) (P : point) : finite P → on_curve P → ge_is ge P → pubkey_is (secp256k1_pubkey_save ge) P.
Proof. intros Hf HC HG. exists ge. done. Qed.

Section Keys.
Context (ctx : secp256k1_context).

Lemma pubkey_create_eq (pubkey seckey : list byte) :
  signs ctx → length seckey = 32%nat →
  let res := secp256k1_ec_pubkey_create ctx (Some pubkey) (Some seckey) in
  reports res = [] ∧ ret res = truth (valid_key seckey) ∧
  if valid_key seckey then ∃ key, value res = Some key ∧ pubkey_is key (point_mul (be_val seckey) generator)
  else value res = Some zero_pubkey.
Proof.
  intros Hs Hl. unfold secp256k1_ec_pubkey_create, ARG_CHECK. cbn [not_null]. rewrite (signs_built ctx Hs). cbn [default from_option id].
  pose proof (key_range seckey Hl) as HK. destruct (secp256k1_scalar_set_b32 seckey) as [sec o]. destruct HK as (Os & _ & _ & Ev & Hv).
  assert (Z.land (truth (negb (nonzero o))) (truth (negb (nonzero (secp256k1_scalar_is_zero sec)))) = truth (valid_key seckey)) as ->.
  { rewrite <- Ev. by destruct (nonzero o), (nonzero (secp256k1_scalar_is_zero sec)). }
  destruct (valid_key seckey); cbn [truth]; [|done]. change (nonzero 1) with true. cbv iota zeta. split; [done|]. split; [done|].
  destruct (Hv eq_refl) as [E R]. destruct (ecmult_gen_spec _ sec Hs Os) as [HG _]. rewrite E in HG.
  destruct (ge_set_gej_spec _ _ HG) as [HP _]. eexists. split; [reflexivity|]. apply save_is; [|curve|exact HP].
  apply point_mul_finite; [curve|done|]. rewrite Z.mod_small; lia.
Qed.

Lemma pubkey_tweak_add_eq (pubkey tweak : list byte) (P : point) :
  verifies ctx → pubkey_is pubkey P → length tweak = 32%nat →
  let Q := point_add P (point_mul (be_val tweak) generator) in
  let res := secp256k1_ec_pubkey_tweak_add ctx (Some pubkey) (Some tweak) in
  reports res = [] ∧
  ((be_val tweak < group_order ∧ finite Q) ∧ ret res = 1 ∧ (∃ key, value res = Some key ∧ pubkey_is key Q) ∨
   ¬ (be_val tweak < group_order ∧ finite Q) ∧ ret res = 0 ∧ value res = Some zero_pubkey).
Proof.
  intros Hv HP Hl. cbv zeta. unfold secp256k1_ec_pubkey_tweak_add, ARG_CHECK. rewrite (verifies_built ctx Hv). cbn [not_null default from_option id].
  pose proof (set_b32_spec tweak Hl) as HB. destruct (secp256k1_scalar_set_b32 tweak) as [t o]. destruct HB as (Ot & Vt & ->).
  assert (0 ≤ be_val tweak) as H0 by (unfold be_val; apply le_val_range).
  destruct (Z.leb_spec group_order (be_val tweak)) as [Hge|Hlt]; cbn [truth nonzero Z.eqb negb].
  { split; [done|]. right. split; [lia|done]. }
  rewrite Z.mod_small in Vt by lia. destruct (pubkey_load_spec ctx pubkey P HP) as (ge & -> & HG). cbn [ret value reports].
  change (nonzero 1) with true. cbv iota. unfold secp256k1_eckey_pubkey_tweak_add. cbv zeta.
  destruct HP as (_ & Hf & HC & _). assert (scalar_ok (secp256k1_scalar_set_int 1) ∧ scalar_val (secp256k1_scalar_set_int 1) = 1) as [O1 V1].
  { split; [split; [split; [done|]|by vm_compute]|done]. repeat (constructor; [by split|]); constructor. }
  pose proof (ecmult_spec _ _ P _ _ Hv (gej_set_ge_spec _ _ HG) HC Hf O1 Ot) as HE. rewrite V1, Vt in HE.
  change (point_mul 1 P) with P in HE. set (pt := secp256k1_ecmult _ _ _ _) in *. clearbody pt.
  assert (on_curve (point_add P (point_mul (be_val tweak) generator))) as HQ by curve.
  set (Q := point_add P _) in *. clearbody Q. unfold secp256k1_gej_is_infinity.
  destruct (ge_set_gej_spec _ _ HE) as [HS _]. destruct Q as [[x y]|].
  - rewrite (proj1 HE). change (nonzero 0) with false. cbv iota. split; [done|]. left. split; [done|]. split; [done|].
    eexists. split; [reflexivity|]. by apply save_is.
  - cbn [gej_is] in HE. rewrite HE. change (nonzero 1) with true. cbv iota. split; [done|]. right. split; [|done]. by intros [_ ?].
Qed.

Lemma pubkey_tweak_mul_eq (pubkey tweak : list byte) (P : point) :
  verifies ctx → pubkey_is pubkey P → length tweak = 32%nat →
  let res := secp256k1_ec_pubkey_tweak_mul ctx (Some pubkey) (Some tweak) in
  reports res = [] ∧ ret res = truth (valid_key tweak) ∧
  if valid_key tweak then ∃ key, value res = Some key ∧ pubkey_is key (point_mul (be_val tweak) P)
  else value res = Some zero_pubkey.
Proof.
  intros Hv HP Hl. cbv zeta. unfold secp256k1_ec_pubkey_tweak_mul, ARG_CHECK. rewrite (verifies_built ctx Hv). cbn [not_null default from_option id].
  pose proof (key_range tweak Hl) as HK. destruct (secp256k1_scalar_set_b32 tweak) as [t o]. destruct HK as (Ot & _ & Eo & Ev & Hk).
  destruct (nonzero o) eqn:No; cbn [negb andb] in Ev; [by rewrite <- Ev|].
  destruct (pubkey_load_spec ctx pubkey P HP) as (ge & -> & HG). cbn [ret value reports]. change (nonzero 1) with true. cbv iota.
  unfold secp256k1_eckey_pubkey_tweak_mul. destruct (nonzero (secp256k1_scalar_is_zero t)); cbn [negb] in Ev; rewrite <- Ev in *;
    [by change (nonzero 0) with false|]. cbv zeta. change (nonzero 1) with true. cbv iota. split; [done|]. split; [done|].
  destruct (Hk eq_refl) as [E R]. destruct HP as (_ & Hf & HC & _).
  destruct zero_int as [O0 V0]. pose proof (ecmult_spec _ _ P _ _ Hv (gej_set_ge_spec _ _ HG) HC Hf Ot O0) as HE. rewrite V0, E in HE.
  change (point_mul 0 generator) with (None : point) in HE. rewrite point_add_None in HE.
  destruct (ge_set_gej_spec _ _ HE) as [HS _]. eexists. split; [reflexivity|]. apply save_is; [|curve|exact HS].
  apply point_mul_finite; [done|done|]. rewrite Z.mod_small; lia.
Qed.

Lemma privkey_tweak_add_eq (seckey tweak : list byte) :
  length seckey = 32%nat → length tweak = 32%nat →
  let d := (be_val seckey + be_val tweak) mod group_order in
  let ok := (be_val tweak <? group_order) && negb (d =? 0) in
  let res := secp256k1_ec_privkey_tweak_add ctx (Some seckey) (Some tweak) in
  reports res = [] ∧ ret res = truth ok ∧ ∃ out, value res = Some out ∧ length out = 32%nat ∧ be_val out = if ok then d else 0.
Proof.
  intros Hs Hl. cbv zeta. unfold secp256k1_ec_privkey_tweak_add, ARG_CHECK. cbn [not_null default from_option id].
  pose proof (set_b32_spec tweak Hl) as HB. destruct (secp256k1_scalar_set_b32 tweak) as [t o]. destruct HB as (Ot & Vt & ->).
  pose proof (set_b32_spec seckey Hs) as HB. destruct (secp256k1_scalar_set_b32 seckey) as [sec o]. destruct HB as (Os & Vs & _). cbn [fst].
  assert (be_val (replicate 32 x00) = 0) as Z0 by reflexivity. pose proof order_pos.
  destruct (Z.leb_spec group_order (be_val tweak)) as [Hge|Hlt], (Z.ltb_spec (be_val tweak) group_order) as [Hlt'|]; try lia;
    cbn [truth nonzero Z.eqb negb andb].
  { split; [done|]. split; [done|]. eexists. split; [reflexivity|]. done. }
  unfold secp256k1_eckey_privkey_tweak_add. destruct (add_spec sec t Os Ot) as (Oa & Va & _).
  set (a := (secp256k1_scalar_add sec t).1) in *. clearbody a. cbv zeta. rewrite is_zero_spec by apply Oa.
  rewrite Vs, Vt, <- Z.add_mod in Va by lia. rewrite Va. destruct (get_b32_spec a (proj1 Oa)) as [Lb Vb].
  destruct (Z.eqb_spec ((be_val seckey + be_val tweak) mod group_order) 0) as [E|E]; cbn [truth nonzero Z.eqb negb andb];
    (split; [done|]; split; [done|]; eexists; split; [reflexivity|]); [done|]. split; [done|congruence].
Qed.

Lemma privkey_tweak_mul_eq (seckey tweak : list byte) :
  length seckey = 32%nat → length tweak = 32%nat →
  let res := secp256k1_ec_privkey_tweak_mul ctx (Some seckey) (Some tweak) in
  reports res = [] ∧ ret res = truth (valid_key tweak) ∧ ∃ out, value res = Some out ∧ length out = 32%nat ∧
    be_val out = if valid_key tweak then (be_val seckey * be_val tweak) mod group_order else 0.
Proof.
  intros Hs Hl. cbv zeta. unfold secp256k1_ec_privkey_tweak_mul, ARG_CHECK. cbn [not_null default from_option id].
  pose proof (key_range tweak Hl) as HK. destruct (secp256k1_scalar_set_b32 tweak) as [t o]. destruct HK as (Ot & _ & _ & Ev & Hk).
  pose proof (set_b32_spec seckey Hs) as HB. destruct (secp256k1_scalar_set_b32 seckey) as [sec o']. destruct HB as (Os & Vs & _). cbn [fst].
  assert (be_val (replicate 32 x00) = 0) as Z0 by reflexivity. pose proof order_pos.
  destruct (nonzero o); cbn [negb andb] in Ev.
  { rewrite <- Ev. cbn [truth]. split; [done|]. split; [done|]. eexists. split; [reflexivity|]. done. }
  unfold secp256k1_eckey_privkey_tweak_mul. destruct (nonzero (secp256k1_scalar_is_zero t)); cbn [negb] in Ev; rewrite <- Ev in *; cbn [truth].
  { split; [done|]. split; [done|]. eexists. split; [reflexivity|]. done. }
  change (nonzero 1) with true. cbv iota. split; [done|]. split; [done|]. eexists. split; [reflexivity|].
  destruct (mul_spec sec t (proj1 Os) (proj1 Ot)) as [Om Vm]. destruct (get_b32_spec _ (proj1 Om)) as [Lb Vb].
  split; [done|]. rewrite Vb, Vm, Vs, (proj1 (Hk eq_refl)). apply Z.mul_mod_idemp_l. lia.
Qed.
End Keys.

Lemma multiple_finite (k : Z) : finite (point_mul k generator) ↔ k mod group_order ≠ 0.
Proof.
  split.
  - intros Hf E. rewrite <- (point_mul_mod k generator generator_on_curve), E in Hf. exact Hf.
  - intros Hk. apply point_mul_finite; [curve|done|done].
Qed.

Lemma valid_key_iff (l : list byte) : valid_key l = true ↔ 0 < be_val l < group_order.
Proof. unfold valid_key. rewrite andb_true_iff, !Z.ltb_lt. lia. Qed.

(** C13: Tweaking keys commutes with deriving public keys: adding a tweak to a private key, or
    multiplying it by one, succeeds exactly if doing so with its public key does, and then
    gives the private key of the public key that results. *)
Theorem secp256k1_tweak_commutes (ctx : secp256k1_context) (pubkey seckey tweak : list byte) :
  signs ctx → verifies ctx → length seckey = 32%nat → valid_key seckey = true → length tweak = 32%nat →
  let key l := value (secp256k1_ec_pubkey_create ctx (Some pubkey) l) in
  let priv_add := secp256k1_ec_privkey_tweak_add ctx (Some seckey) (Some tweak) in
  let pub_add := secp256k1_ec_pubkey_tweak_add ctx (key (Some seckey)) (Some tweak) in
  let priv_mul := secp256k1_ec_privkey_tweak_mul ctx (Some seckey) (Some tweak) in
  let pub_mul := secp256k1_ec_pubkey_tweak_mul ctx (key (Some seckey)) (Some tweak) in
  (ret priv_add = ret pub_add ∧ (ret priv_add = 1 → key (value priv_add) = value pub_add)) ∧
  (ret priv_mul = ret pub_mul ∧ (ret priv_mul = 1 → key (value priv_mul) = value pub_mul)).
Proof.
  intros Hs Hv Ls Ks Lt. cbv zeta. pose proof order_pos as Hn.
  destruct (pubkey_create_eq ctx pubkey seckey Hs Ls) as (_ & _ & HC). rewrite Ks in HC. destruct HC as (k0 & -> & HK0).
  destruct (privkey_tweak_add_eq ctx seckey tweak Ls Lt) as (_ & Ra & oa & Va & La & Ba).
  destruct (privkey_tweak_mul_eq ctx seckey tweak Ls Lt) as (_ & Rm & om & Vm & Lm & Bm).
  destruct (pubkey_tweak_mul_eq ctx k0 tweak _ Hv HK0 Lt) as (_ & Rm' & Pm).
  pose proof (pubkey_tweak_add_eq ctx k0 tweak _ Hv HK0 Lt) as HA. cbv zeta in HA. destruct HA as [_ HA].
  assert (point_eq (point_add (point_mul (be_val seckey) generator) (point_mul (be_val tweak) generator))
    (point_mul ((be_val seckey + be_val tweak) mod group_order) generator)) as EA.
  { rewrite point_mul_mod, point_mul_add by curve. done. }
  rewrite EA, multiple_finite, Z.mod_mod in HA by lia. rewrite Va, Vm, Ra, Rm, Rm'.
  destruct (proj1 (valid_key_iff seckey) Ks) as [Kp Kl]. split.
  - set (dd := (be_val seckey + be_val tweak) mod group_order) in *.
    assert (0 ≤ dd < group_order) as Rd by (apply Z.mod_pos_bound; lia).
    destruct (Z.ltb_spec (be_val tweak) group_order) as [Hlt|], (Z.eqb_spec dd 0) as [E0|E0]; cbn [negb andb truth] in *;
      destruct HA as [(? & -> & kq & -> & HQ)|(? & -> & _)]; try lia; try tauto; try (split; [done|discriminate]).
    split; [done|]. intros _. destruct (pubkey_create_eq ctx pubkey oa Hs La) as (_ & _ & HC). rewrite <- Ba in *.
    rewrite (proj2 (valid_key_iff oa)) in HC by lia. destruct HC as (k1 & -> & HK1). f_equal.
    apply (pubkey_is_inj _ _ _ HK1). eapply pubkey_is_eq; [exact EA|exact HQ].
  - split; [done|]. destruct (valid_key tweak) eqn:Kt; [|discriminate]. intros _. destruct Pm as (kq & -> & HQ).
    apply valid_key_iff in Kt. destruct (pubkey_create_eq ctx pubkey om Hs Lm) as (_ & _ & HC).
    assert (0 < be_val om < group_order) as Ro.
    { rewrite Bm. pose proof (Z.mod_pos_bound (be_val seckey * be_val tweak) group_order ltac:(lia)) as Hb. split; [|lia].
      apply Z.le_neq. split; [lia|]. intros E. symmetry in E.
      pose proof (proj2 (multiple_finite (be_val tweak)) ltac:(rewrite Z.mod_small; lia)) as Hf.
      apply (point_mul_finite (be_val seckey)) in Hf; [|curve|rewrite Z.mod_small; lia].
      rewrite <- point_mul_mul in Hf by curve. by apply multiple_finite in Hf. }
    rewrite (proj2 (valid_key_iff om) Ro) in HC. destruct HC as (k1 & -> & HK1). f_equal. apply (pubkey_is_inj _ _ _ HK1).
    eapply pubkey_is_eq; [|exact HQ]. rewrite Bm, point_mul_mod, Z.mul_comm, point_mul_mul by curve. done.
Qed.

(** * Signatures *)

Lemma signature_load_is (sig : list byte) (r s : Z) :
  signature_is sig r s →
  ∃ a b, secp256k1_ecdsa_signature_load sig = (a, b) ∧ scalar_ok a ∧ scalar_ok b ∧ scalar_val a = r ∧ scalar_val b = s.
Proof.
  intros (_ & _ & a & b & Oa & Ob & Va & Vb & ->). exists a, b. split; [|done]. apply signature_load_save; [apply Oa|apply Ob].
Qed.

Lemma signature_save_is (a b : secp256k1_scalar) :
  scalar_ok a → scalar_ok b → signature_is (secp256k1_ecdsa_signature_save a b) (scalar_val a) (scalar_val b).
Proof. intros Oa Ob. split; [by apply scalar_range|]. split; [by apply scalar_range|]. exists a, b. done. Qed.

Lemma ecdsa_verify_eq (ctx : secp256k1_context) (sig msg pubkey : list byte) (r s : Z) (Q : point) :
  verifies ctx → signature_is sig r s → length msg = 32%nat → pubkey_is pubkey Q →
  let res := secp256k1_ecdsa_verify ctx (Some sig) (Some msg) (Some pubkey) in
  reports res = [] ∧ (ret res = 0 ∨ ret res = 1) ∧
  (ret res = 1 ↔ 2 * s ≤ group_order ∧ ecdsa_valid r s (be_val msg mod group_order) Q).
Proof.
  intros Hv HS Hl HP. cbv zeta. unfold secp256k1_ecdsa_verify, ARG_CHECK. rewrite (verifies_built ctx Hv). cbn [not_null default from_option id].
  pose proof (set_b32_spec msg Hl) as HB. destruct (secp256k1_scalar_set_b32 msg) as [m o]. destruct HB as (Om & Vm & _). cbn [fst].
  destruct (signature_load_is sig r s HS) as (a & b & -> & Oa & Ob & Va & Vb). rewrite is_high_spec, Vb by apply Ob.
  destruct (Z.ltb_spec group_order (2 * s)) as [Hh|Hh]; cbn [truth].
  { change (nonzero 1) with true. cbv iota. split; [done|]. split; [by left|]. split; [discriminate|lia]. }
  change (nonzero 0) with false. cbv iota. destruct (pubkey_load_spec ctx pubkey Q HP) as (ge & -> & HG). cbn [ret value reports].
  change (nonzero 1) with true. cbv iota. destruct HP as (_ & Hf & HC & _).
  destruct (ecdsa_sig_verify_spec _ a b m ge Q Hv Oa Ob Om HG HC Hf) as [HV H01]. rewrite Va, Vb, Vm in HV. cbn [ret reports].
  destruct H01 as [E|E]; rewrite E in *; cbn [truth nonzero Z.eqb negb]; (split; [done|]).
  - split; [by left|]. split; [discriminate|]. intros [_ HE]. apply HV in HE. discriminate HE.
  - split; [by right|]. split; [|done]. intros _. split; [done|]. by apply HV.
Qed.

(** C4: secp256k1_ecdsa_verify decides the ECDSA equation: for a signature [(r, s)], a key [Q] and a
    message it returns 1 if [s] is not above half of the order and the signature
    is valid by the standard, and 0 otherwise; no callback is called. *)
Theorem secp256k1_ecdsa_verify_correct (ctx : secp256k1_context) (sig msg pubkey : list byte) (r s : Z) (Q : point) :
  verifies ctx → signature_is sig r s → length msg = 32%nat → pubkey_is pubkey Q →
  let res := secp256k1_ecdsa_verify ctx (Some sig) (Some msg) (Some pubkey) in
  reports res = [] ∧ (ret res = 0 ∨ ret res = 1) ∧
  (ret res = 1 ↔ 2 * s ≤ group_order ∧ ecdsa_valid r s (be_val msg mod group_order) Q).
Proof. apply ecdsa_verify_eq. Qed.

(** ** Signing *)

Context (local : secp256k1_sha256_t) (local_scalar : secp256k1_scalar).

(** An attempt that ends the loop. *)
Definition nonce_usable (gen : secp256k1_ecmult_gen_context) (noncefp : nonce_function) (msg32 seckey : list byte)
  (noncedata : option (list byte)) (sec msg : secp256k1_scalar) (count : Z) : bool :=
  let '(nonce32, ok) := noncefp msg32 seckey None noncedata count in
  let '(non, overflow) := secp256k1_scalar_set_b32 nonce32 in
  negb (nonzero ok) ||
  (negb (nonzero overflow) && negb (nonzero (secp256k1_scalar_is_zero non)) &&
   nonzero (secp256k1_ecdsa_sig_sign gen sec msg non None).2).

Section Loop.
Context (gen : secp256k1_ecmult_gen_context) (noncefp : nonce_function) (msg32 seckey : list byte)
  (noncedata : option (list byte)) (sec msg : secp256k1_scalar).
Hypothesis Hgen : gen_ctx_ok gen.
Hypothesis Hsec : scalar_ok sec.
Hypothesis Hmsg : scalar_ok msg.
Hypothesis Hnonce : ∀ data count, length (noncefp msg32 seckey None data count).1 = 32%nat.

(** If the loop ends with success, it was with a signature. *)
Lemma sign_loop_spec (fuel : nat) (r s : secp256k1_scalar) (count : Z) :
  match sign_loop fuel gen noncefp msg32 seckey noncedata sec msg r s count with
  | Some (r', s', ok) => ok ≠ 0 → scalar_ok r' ∧ scalar_ok s' ∧ 2 * scalar_val s' ≤ group_order ∧
      (scalar_val r' ≠ 0 →
       ecdsa_valid (scalar_val r') (scalar_val s') (scalar_val msg) (point_mul (scalar_val sec) generator))
  | None => True
  end.
Proof.
  revert r s count. induction fuel as [|fuel IH]; intros r s count; cbn [sign_loop]; [done|].
  pose proof (Hnonce noncedata count) as HL. destruct (noncefp msg32 seckey None noncedata count) as [nonce32 ok]. cbn [fst] in HL.
  destruct (nonzero ok) eqn:Eok; cbn [negb]; [|unfold nonzero in Eok; by destruct (Z.eqb_spec ok 0)].
  pose proof (key_range nonce32 HL) as HK. destruct (secp256k1_scalar_set_b32 nonce32) as [non o]. destruct HK as (On & _ & _ & Ev & Hv).
  rewrite Ev. destruct (valid_key nonce32); [|apply IH].
  pose proof (sign_valid gen sec msg non None Hgen Hsec Hmsg On) as HS.
  destruct (secp256k1_ecdsa_sig_sign gen sec msg non None) as [[[r' s'] id] signed].
  destruct (Hv eq_refl) as [Vn Rn]. destruct HS as (Or & Os & Ls & H01 & HV); [lia|].
  destruct H01 as [-> | ->]; [change (nonzero 0) with false; cbv iota; apply IH|]. change (nonzero 1) with true. cbv iota.
  intros _. split_and!; [done|done|done|by apply HV].
Qed.

Lemma sign_loop_total (fuel : nat) (r s : secp256k1_scalar) (count i : Z) :
  0 ≤ count → 0 ≤ i < Z.of_nat fuel → count + i < 2 ^ 32 →
  nonce_usable gen noncefp msg32 seckey noncedata sec msg (count + i) = true →
  sign_loop fuel gen noncefp msg32 seckey noncedata sec msg r s count ≠ None.
Proof.
  revert r s count i. induction fuel as [|fuel IH]; intros r s count i Hc Hi Hb Hu; [lia|]. cbn [sign_loop].
  destruct (decide (i = 0)) as [->|Hne].
  - rewrite Z.add_0_r in Hu. unfold nonce_usable in Hu. destruct (noncefp msg32 seckey None noncedata count) as [nonce32 ok].
    destruct (nonzero ok); cbn [negb orb] in Hu |- *; [|done]. destruct (secp256k1_scalar_set_b32 nonce32) as [non o].
    apply andb_true_iff in Hu as [-> Hu]. destruct (secp256k1_ecdsa_sig_sign gen sec msg non None) as [[[r' s'] id] signed].
    cbn [snd] in Hu. by rewrite Hu.
  - destruct (noncefp msg32 seckey None noncedata count) as [nonce32 ok]. destruct (nonzero ok); cbn [negb]; [|done].
    destruct (secp256k1_scalar_set_b32 nonce32) as [non o].
    match goal with |- match ?e with (_, _) => _ end ≠ None => destruct e as [[r' s'] dn] end. destruct dn; [done|].
    rewrite u32_small by lia. apply (IH _ _ _ (i - 1)); [lia|lia|lia|]. replace (count + 1 + (i - 1)) with (count + i) by lia. exact Hu.
Qed.
End Loop.

Hypothesis Hlocal : length (buf local) = 64%nat.

Lemma generate_last_length (n : nat) (rng : secp256k1_rfc6979_hmac_sha256_t) (st : drbg) :
  rng_is rng st → length (generate_last local n rng) = 32%nat.
Proof.
  revert rng st. induction n as [|n IH]; intros rng st Hr; cbn [generate_last];
    pose proof (generate_32 local Hlocal rng st Hr) as HG;
    destruct (secp256k1_rfc6979_hmac_sha256_generate local rng 32) as [rng' out]; destruct HG as (Hr' & _ & HL); [done|].
  by apply (IH rng' _ Hr').
Qed.

Lemma nonce_function_length (msg32 key32 : list byte) (algo16 noncedata : option (list byte)) (counter : Z) :
  length (nonce_function_rfc6979 local msg32 key32 algo16 noncedata counter).1 = 32%nat.
Proof.
  unfold nonce_function_rfc6979. cbv zeta. cbn [fst]. eapply generate_last_length, rfc6979_initialize; [done|].
  destruct noncedata, algo16; rewrite ?length_app, ?length_take; lia.
Qed.

(** C2: Signing gives signatures that verify: if secp256k1_ecdsa_sign returns with success, it leaves a
    signature with [s] at most half of the order, which secp256k1_ecdsa_verify accepts for the
    message and the public key that secp256k1_ec_pubkey_create derives, unless [r] is 0; a
    private key out of range is refused with a cleared signature.  The loop runs out
    of attempts only if none of the nonces could be used. *)
Theorem secp256k1_ecdsa_sign_verifies (sctx vctx : secp256k1_context) (fuel : nat) (sig0 pub0 msg seckey : list byte)
  (noncefp : option nonce_function) (noncedata : option (list byte)) :
  signs sctx → verifies vctx → length msg = 32%nat → length seckey = 32%nat →
  (∀ m k a data c, length ((default (nonce_function_rfc6979 local) noncefp) m k a data c).1 = 32%nat) →
  let f := default (nonce_function_rfc6979 local) noncefp in
  let pubkey := value (secp256k1_ec_pubkey_create sctx (Some pub0) (Some seckey)) in
  match secp256k1_ecdsa_sign local local_scalar fuel sctx (Some sig0) (Some msg) (Some seckey) noncefp noncedata with
  | Some res =>
      reports res = [] ∧ (valid_key seckey = false → ret res = 0) ∧ (ret res = 0 → value res = Some (replicate 64 x00)) ∧
      (ret res ≠ 0 → ∃ sig r s, value res = Some sig ∧ signature_is sig r s ∧ 2 * s ≤ group_order ∧
        (r ≠ 0 → ret (secp256k1_ecdsa_verify vctx (Some sig) (Some msg) pubkey) = 1))
  | None => ∀ i, 0 ≤ i < Z.of_nat fuel → i < 2 ^ 32 →
      nonce_usable (ecmult_gen_ctx sctx) f msg seckey noncedata
        (secp256k1_scalar_set_b32 seckey).1 (secp256k1_scalar_set_b32 msg).1 i = false
  end.
Proof.
  intros Hs Hv Lm Lk HN. cbv zeta. destruct (pubkey_create_eq sctx pub0 seckey Hs Lk) as (_ & _ & HC).
  set (pubkey := value (secp256k1_ec_pubkey_create _ _ _)) in *. clearbody pubkey.
  unfold secp256k1_ecdsa_sign. rewrite (signs_built sctx Hs). cbn [negb not_null]. cbv iota.
  set (f := default (nonce_function_rfc6979 local) noncefp) in *. clearbody f.
  change (default [] (Some seckey)) with seckey. change (default [] (Some msg)) with msg.
  pose proof (key_range seckey Lk) as HK. destruct (secp256k1_scalar_set_b32 seckey) as [sec o]. destruct HK as (Os & _ & _ & Ev & Hk).
  pose proof (set_b32_spec msg Lm) as HB. destruct (secp256k1_scalar_set_b32 msg) as [m o']. destruct HB as (Om & Vm & _). cbn [fst].
  cbv zeta. rewrite Ev. destruct (valid_key seckey); [|split; [done|]; split; [done|]; split; [done|]; intros Hne; by destruct Hne].
  pose proof (sign_loop_spec (ecmult_gen_ctx sctx) f msg seckey noncedata sec m Hs Os Om (λ dat c, HN msg seckey None dat c)
    fuel local_scalar local_scalar 0) as HL.
  pose proof (sign_loop_total (ecmult_gen_ctx sctx) f msg seckey noncedata sec m fuel local_scalar local_scalar 0) as HT.
  destruct (sign_loop _ _ _ _ _ _ _ _ _ _ _) as [[[r s] ok]|].
  - cbn [reports ret value]. split; [done|]. split; [discriminate|]. split; [by intros ->|]. intros Hok.
    destruct (HL Hok) as (Or & Oss & Ls & HV). exists (secp256k1_ecdsa_signature_save r s), (scalar_val r), (scalar_val s).
    assert (nonzero ok = true) as -> by (unfold nonzero; by apply Z.eqb_neq in Hok as ->).
    pose proof (signature_save_is r s Or Oss) as HS. split_and!; [done|done|done|]. intros Hr0.
    destruct HC as (key & -> & HKey). destruct (ecdsa_verify_eq vctx _ msg key _ _ _ Hv HS Lm HKey) as (_ & _ & HE).
    apply HE. split; [done|]. rewrite <- Vm. destruct (Hk eq_refl) as [<- _]. by apply HV.
  - intros i Hi Hb. destruct (nonce_usable _ _ _ _ _ _ _ i) eqn:E; [|done]. by destruct (HT i ltac:(lia) Hi ltac:(lia) E).
Qed.
End Target.
