(* ===== verification/Secp256k1Codecs.v ===== *)
(** Encodings of public keys at the interface. *)

From Stdlib Require Import ZArith Lia Strings.Byte Strings.String.
From stdpp Require Import base gmap list fin_maps numbers.
From S2P Require Import Prelude Mem Lz4Common Secp256k1Scalar Secp256k1ScalarProofs Secp256k1ScalarOps Secp256k1Field Secp256k1FieldProofs Secp256k1FieldOps Secp256k1FieldApi Secp256k1Curve Secp256k1GroupLaw Secp256k1Order Secp256k1Group Secp256k1GroupProofs Secp256k1GroupApi Secp256k1Ecmult Secp256k1EcmultProofs Secp256k1Hash Secp256k1HashApi Secp256k1EcmultGen Secp256k1EcmultGenProofs Secp256k1EcmultGenTable Secp256k1Ecdsa Secp256k1EcdsaProofs Secp256k1Der Secp256k1Keys Secp256k1Api Secp256k1ApiProofs Secp256k1Interface.

#[local] Opaque group_order field_prime.

Section Target.
Context `{Arch} (local_scalar : secp256k1_scalar) (local_ge : secp256k1_ge).

(** * Public keys *)

Lemma pubkey_parse_eq (ctx : secp256k1_context) (pub0 input : list byte) (ge : secp256k1_ge) (P : point) :
  secp256k1_eckey_pubkey_parse local_ge input = (ge, 1) → finite P → on_curve P → ge_is ge P →
  ∃ key, secp256k1_ec_pubkey_parse local_ge ctx (Some pub0) (Some input) = Outcome (Some key) 1 [] ∧ pubkey_is key P.
Proof.
  intros E Hf HC HG. unfold secp256k1_ec_pubkey_parse, ARG_CHECK. cbn [not_null default from_option id]. rewrite E.
  change (negb (nonzero 1)) with false. cbv iota. eexists. split; [reflexivity|]. by apply save_is.
Qed.

(** C14: Only points of the curve are accepted as public keys: what secp256k1_ec_pubkey_parse accepts
    is the compressed, uncompressed or hybrid encoding of a finite point of the curve with
    reduced coordinates, and the key stands for that point; otherwise it returns 0 and leaves a
    cleared key.  Each of the first two encodings of each point is accepted. *)
Theorem secp256k1_ec_pubkey_parse_correct (ctx : secp256k1_context) (pub0 input : list byte) (x y : Z) :
  let res := secp256k1_ec_pubkey_parse local_ge ctx (Some pub0) (Some input) in
  reports res = [] ∧
  (ret res = 0 ∧ value res = Some zero_pubkey ∨
   ret res = 1 ∧ ∃ key x' y', value res = Some key ∧ pubkey_is key (Some (x', y')) ∧
     0 ≤ x' < field_prime ∧ 0 ≤ y' < field_prime ∧
     (input = sec_compressed x' y' ∨ input = sec_uncompressed x' y' ∨
      input = z2b (6 + y' mod 2) :: be_bytes 32 x' ++ be_bytes 32 y')) ∧
  (on_curve (Some (x, y)) → input = sec_compressed x y ∨ input = sec_uncompressed x y →
   ret res = 1 ∧ ∃ key, value res = Some key ∧ pubkey_is key (Some (x, y))).
Proof.
  cbv zeta. split; [|split].
  - unfold secp256k1_ec_pubkey_parse, ARG_CHECK. cbn [not_null default from_option id].
    destruct (secp256k1_eckey_pubkey_parse local_ge input) as [ge ok]. by destruct (negb (nonzero ok)).
  - unfold secp256k1_ec_pubkey_parse, ARG_CHECK. cbn [not_null default from_option id].
    pose proof (eckey_pubkey_parse_sound local_ge input) as HS.
    destruct (secp256k1_eckey_pubkey_parse local_ge input) as [ge ok]. destruct HS as [[-> | ->] HS].
    + left. split; reflexivity.
    + right. split; [reflexivity|]. destruct (HS eq_refl) as (x' & y' & Rx & Ry & HC & HG & HI).
      exists (secp256k1_pubkey_save ge), x', y'. split; [reflexivity|]. split; [by apply save_is|]. split; [exact Rx|]. split; [exact Ry|exact HI].
  - intros HC [-> | ->].
    + destruct (eckey_pubkey_parse_compressed local_ge x y HC) as (ge & E & HG).
      destruct (pubkey_parse_eq ctx pub0 _ ge (Some (x, y)) E I HC HG) as (key & -> & HK). split; [reflexivity|]. by exists key.
    + destruct (eckey_pubkey_parse_uncompressed local_ge x y HC) as (ge & E & HG).
      destruct (pubkey_parse_eq ctx pub0 _ ge (Some (x, y)) E I HC HG) as (key & -> & HK). split; [reflexivity|]. by exists key.
Qed.

(** C19: Public keys survive a round trip: what secp256k1_ec_pubkey_serialize writes for a key, compressed
    or not, is read by secp256k1_ec_pubkey_parse as the same 64 bytes. The output needs 33 bytes for the
    compressed and 65 for the other form; it may be longer, and longer than the length that is passed for it. *)
Theorem secp256k1_ec_pubkey_roundtrip (ctx : secp256k1_context) (pubkey pub0 output : list byte) (outputlen : Z) (P : point) (compressed : bool) :
  let flags := if compressed then SECP256K1_EC_COMPRESSED else SECP256K1_EC_UNCOMPRESSED in
  let n := if compressed then 33 else 65 in
  pubkey_is pubkey P → n ≤ outputlen ≤ zlen output →
  let res := secp256k1_ec_pubkey_serialize ctx (Some output) (Some outputlen) (Some pubkey) flags in
  ret res = 1 ∧ reports res = [] ∧ ∃ out, value res = (Some out, Some n) ∧ length out = length output ∧
    secp256k1_ec_pubkey_parse local_ge ctx (Some pub0) (Some (take (Z.to_nat n) out)) = Outcome (Some pubkey) 1 [].
Proof.
  cbv zeta. intros HP HL. set (flags := if compressed then SECP256K1_EC_COMPRESSED else _).
  assert (nonzero (Z.land flags SECP256K1_FLAGS_BIT_COMPRESSION) = compressed) as Ec by (by destruct compressed).
  assert ((Z.land flags SECP256K1_FLAGS_TYPE_MASK =? SECP256K1_FLAGS_TYPE_COMPRESSION) = true) as Et by (by destruct compressed).
  unfold secp256k1_ec_pubkey_serialize, ARG_CHECK. cbn [not_null default from_option id]. rewrite Ec, Et.
  assert ((outputlen >=? (if compressed then 33 else 65)) = true) as -> by (apply Z.geb_le; destruct compressed; lia). cbv zeta.
  destruct (pubkey_load_spec ctx pubkey P HP) as (ge & -> & HG). cbn [ret value reports]. change (nonzero 1) with true. cbv iota.
  set (cleared := replicate (Z.to_nat outputlen) x00 ++ drop (Z.to_nat outputlen) output).
  assert (length cleared = length output) as Lc by (unfold cleared; rewrite length_app, length_replicate, length_drop; lia).
  pose proof HP as (_ & Hf & HC & _). destruct P as [[x y]|]; [|destruct Hf].
  pose proof (eckey_pubkey_serialize_spec ge cleared outputlen
    (Z.land flags SECP256K1_FLAGS_BIT_COMPRESSION) x y HG) as HS.
  destruct (secp256k1_eckey_pubkey_serialize _ _ _ _) as [[[g out] len] r]. destruct HS as [-> HS]. rewrite Ec in HS. cbn [ret value reports].
  change (nonzero 1) with true. cbv iota. split; [reflexivity|]. split; [reflexivity|]. exists out.
  assert (length (sec_compressed x y) = 33%nat) as L1 by (unfold sec_compressed; cbn [length]; by rewrite length_be_bytes).
  assert (length (sec_uncompressed x y) = 65%nat) as L2 by (unfold sec_uncompressed; cbn [length]; by rewrite length_app, !length_be_bytes).
  assert (∀ l ge', secp256k1_eckey_pubkey_parse local_ge l = (ge', 1) → ge_is ge' (Some (x, y)) →
    secp256k1_ec_pubkey_parse local_ge ctx (Some pub0) (Some l) = Outcome (Some pubkey) 1 []) as Hparse.
  { intros l ge' E HG'. destruct (pubkey_parse_eq ctx pub0 l ge' (Some (x, y)) E I HC HG') as (key & -> & HK).
    by rewrite (pubkey_is_inj key pubkey (Some (x, y)) HK HP). }
  destruct compressed; pose proof (f_equal fst HS) as Eo; pose proof (f_equal snd HS) as El; cbn [fst snd] in Eo, El; rewrite Eo, El;
    (split; [reflexivity|]); rewrite length_app, length_drop, Lc.
  - split; [lia|]. change (Z.to_nat 33) with 33%nat. rewrite take_app_length' by done.
    destruct (eckey_pubkey_parse_compressed local_ge x y HC) as (ge' & E & HG'). exact (Hparse _ _ E HG').
  - split; [lia|]. change (Z.to_nat 65) with 65%nat. rewrite take_app_length' by done.
    destruct (eckey_pubkey_parse_uncompressed local_ge x y HC) as (ge' & E & HG'). exact (Hparse _ _ E HG').
Qed.
End Target.
