(* ===== verification/Secp256k1Signatures.v ===== *)
(** Encodings of signatures at the interface, and their normal form. *)

From Stdlib Require Import ZArith Lia Strings.Byte Strings.String.
From stdpp Require Import base gmap list fin_maps numbers.
From S2P Require Import Prelude Mem Lz4Common Secp256k1Scalar Secp256k1ScalarProofs Secp256k1ScalarOps Secp256k1Field Secp256k1FieldProofs Secp256k1FieldOps Secp256k1FieldApi Secp256k1Curve Secp256k1GroupLaw Secp256k1Order Secp256k1Group Secp256k1GroupProofs Secp256k1GroupApi Secp256k1Ecmult Secp256k1EcmultProofs Secp256k1Hash Secp256k1EcmultGen Secp256k1EcmultGenProofs Secp256k1Ecdsa Secp256k1EcdsaProofs Secp256k1Der Secp256k1Keys Secp256k1Api Secp256k1ApiProofs Secp256k1Interface.

#[local] Opaque group_order field_prime secp256k1_ecdsa_signature_save.

Section Target.
Context `{Arch} (local_scalar : secp256k1_scalar).

(** * DER *)

(** Whatever is read as an integer is a number below the order. *)
Lemma parse_integer_scalar (r r' : secp256k1_scalar) (sig rest : list byte) :
  secp256k1_der_parse_integer r sig = (r', rest, 1) → scalar_ok r'.
Proof.
  intros HP. destruct sig as [|b sig]; [discriminate HP|].
  assert (b = x02) as ->.
  { apply b2z_inj. unfold secp256k1_der_parse_integer in HP. by destruct (Z.eqb_spec (b2z b) 0x02). }
  rewrite parse_integer_eq in HP. destruct (secp256k1_der_read_len sig) as [rlen sig'].
  destruct (_ || _); [discriminate HP|]. set (l := take _ _) in HP. clearbody l. unfold integer_body in HP. cbv zeta in HP.
  destruct (_ && _ && _); [discriminate HP|]. destruct (_ && _ && _); [discriminate HP|]. rewrite Nat2Z.id in HP.
  destruct (skip_zeros_spec (length l) l (drop (Z.to_nat rlen) sig') eq_refl) as (k & m & El & Es & _). rewrite Es in HP.
  destruct zero_int as [O0 _]. destruct (Nat.ltb_spec 32 (length m)) as [Hlt|Hle].
  - cbn [Z.eqb] in HP. change (nonzero 1) with true in HP. injection HP as <- _. exact O0.
  - destruct (truth _ =? 0) eqn:T in HP; [|unfold nonzero in HP; rewrite T in HP; injection HP as <- _; exact O0].
    rewrite take_app_length in HP. pose proof (set_b32_spec (replicate (32 - length m) x00 ++ m)) as HB.
    destruct (secp256k1_scalar_set_b32 _) as [a o]. destruct HB as (Oa & _); [rewrite length_app, length_replicate; lia|].
    destruct (nonzero o); injection HP as <- _; [exact O0|exact Oa].
Qed.

Lemma sig_parse_scalars (rr rs r s : secp256k1_scalar) (input : list byte) (ok : Z) :
  secp256k1_ecdsa_sig_parse rr rs input = (r, s, ok) → ok = 0 ∨ ok = 1 ∧ scalar_ok r ∧ scalar_ok s.
Proof.
  intros HP. unfold secp256k1_ecdsa_sig_parse in HP. destruct input as [|b input]; [left; by injection HP as _ _ <-|].
  destruct (negb _) in HP; [left; by injection HP as _ _ <-|]. destruct (secp256k1_der_read_len input) as [rlen sig].
  destruct (_ || _) in HP; [left; by injection HP as _ _ <-|]. destruct (negb _) in HP; [left; by injection HP as _ _ <-|].
  destruct (secp256k1_der_parse_integer rr sig) as [[r1 sig1] ok1] eqn:P1.
  destruct (nonzero ok1) eqn:O1; cbn [negb] in HP; [|left; by injection HP as _ _ <-].
  destruct (secp256k1_der_parse_integer rs sig1) as [[s1 sig2] ok2] eqn:P2.
  destruct (nonzero ok2) eqn:O2; cbn [negb] in HP; [|left; by injection HP as _ _ <-].
  rewrite (parse_integer_ok _ _ _ _ _ O1 P1) in P1. rewrite (parse_integer_ok _ _ _ _ _ O2 P2) in P2.
  destruct sig2; [|left; by injection HP as _ _ <-]. right. injection HP as <- <- <-.
  split; [reflexivity|]. split; [exact (parse_integer_scalar _ _ _ _ P1)|exact (parse_integer_scalar _ _ _ _ P2)].
Qed.

Lemma signature_serialize_der_eq (ctx : secp256k1_context) (output : list byte) (size : Z) (a b : secp256k1_scalar) :
  scalar_ok a → scalar_ok b →
  let n := zlen (der_signature a b) in
  secp256k1_ecdsa_signature_serialize_der ctx (Some output) (Some size) (Some (secp256k1_ecdsa_signature_save a b)) =
  if size <? n then Outcome (Some output, Some n) 0 []
  else Outcome (Some (der_signature a b ++ drop (length (der_signature a b)) output), Some n) 1 [].
Proof.
  intros Oa Ob. cbv zeta. unfold secp256k1_ecdsa_signature_serialize_der, ARG_CHECK. cbn [not_null].
  change (default [] (Some (secp256k1_ecdsa_signature_save a b))) with (secp256k1_ecdsa_signature_save a b).
  rewrite (signature_load_save a b (proj1 Oa) (proj1 Ob)). cbn [default from_option id].
  rewrite (sig_serialize_spec _ _ a b Oa Ob). destruct (size <? _); reflexivity.
Qed.

(** C20: DER signatures survive a round trip: secp256k1_ecdsa_signature_serialize_der writes between 8 and 72
    bytes, from which secp256k1_ecdsa_signature_parse_der gives back the same 64 bytes; a
    buffer that is too small is left alone, and the length that is needed is reported. *)
Theorem secp256k1_ecdsa_signature_der_roundtrip (ctx : secp256k1_context) (sig sig0 output : list byte) (size r s : Z) :
  signature_is sig r s → size ≤ zlen output →
  ∃ n, 8 ≤ n ≤ 72 ∧
    let res := secp256k1_ecdsa_signature_serialize_der ctx (Some output) (Some size) (Some sig) in
    (size < n → res = Outcome (Some output, Some n) 0 []) ∧
    (n ≤ size → ∃ out, res = Outcome (Some out, Some n) 1 [] ∧ length out = length output ∧
      secp256k1_ecdsa_signature_parse_der local_scalar ctx (Some sig0) (Some (take (Z.to_nat n) out)) = Outcome (Some sig) 1 []).
Proof.
  intros (_ & _ & a & b & Oa & Ob & _ & _ & ->) Hsz. destruct (der_signature_length a b Oa Ob) as [_ HL].
  exists (zlen (der_signature a b)). split; [exact HL|]. cbv zeta.
  rewrite (signature_serialize_der_eq ctx output size a b Oa Ob). cbv zeta.
  pose proof (sig_parse_written local_scalar local_scalar a b Oa Ob) as HP. set (e := der_signature a b) in *. clearbody e.
  destruct (Z.ltb_spec size (zlen e)) as [Hlt|Hge]; split; intros Hn; try lia; [reflexivity|].
  eexists. split; [reflexivity|]. rewrite Nat2Z.id, take_app_length. split; [rewrite length_app, length_drop; lia|].
  unfold secp256k1_ecdsa_signature_parse_der, ARG_CHECK. cbn [not_null]. change (default [] (Some e)) with e. by rewrite HP.
Qed.

(** C15: The DER parser is strict: secp256k1_ecdsa_signature_parse_der returns 0 with a cleared
    signature, or 1 with numbers below the order; and if neither is 0, the input was
    the one encoding that secp256k1_ecdsa_signature_serialize_der writes, without any byte after it. *)
Theorem secp256k1_ecdsa_signature_der_strict (ctx : secp256k1_context) (sig0 input : list byte) :
  zlen input < 2 ^ 24 →
  let res := secp256k1_ecdsa_signature_parse_der local_scalar ctx (Some sig0) (Some input) in
  reports res = [] ∧
  (ret res = 0 ∧ value res = Some (replicate 64 x00) ∨
   ret res = 1 ∧ ∃ sig r s, value res = Some sig ∧ signature_is sig r s ∧
     (r ≠ 0 → s ≠ 0 → ∀ output, secp256k1_ecdsa_signature_serialize_der ctx (Some output) (Some (zlen input)) (Some sig) =
        Outcome (Some (input ++ drop (length input) output), Some (zlen input)) 1 [])).
Proof.
  intros Hi. cbv zeta. unfold secp256k1_ecdsa_signature_parse_der, ARG_CHECK. cbn [not_null]. change (default [] (Some input)) with input.
  destruct (secp256k1_ecdsa_sig_parse local_scalar local_scalar input) as [[a b] ok] eqn:HP.
  destruct (sig_parse_scalars _ _ _ _ _ _ HP) as [-> |(-> & Oa & Ob)].
  - change (nonzero 0) with false. cbv iota. split; [reflexivity|]. left. split; reflexivity.
  - change (nonzero 1) with true. cbv iota. split; [reflexivity|]. right. split; [reflexivity|].
    exists (secp256k1_ecdsa_signature_save a b), (scalar_val a), (scalar_val b). split; [reflexivity|].
    split; [by apply signature_save_is|]. intros Hr Hs output. destruct (sig_parse_inv _ _ _ _ _ Hi HP Hr Hs) as (_ & _ & ->).
    rewrite (signature_serialize_der_eq ctx output _ a b Oa Ob), Z.ltb_irrefl. reflexivity.
Qed.

(** * The compact encoding *)

(** C35: The compact encoding is the two numbers as 32 bytes each, most significant byte first:
    secp256k1_ecdsa_signature_parse_compact accepts 64 bytes exactly if both are below the order, and
    then stores these numbers; secp256k1_ecdsa_signature_serialize_compact writes the same bytes again. *)
Theorem secp256k1_ecdsa_signature_compact_correct (ctx : secp256k1_context) (sig0 out0 input : list byte) :
  length input = 64%nat →
  let r := be_val (take 32 input) in
  let s := be_val (drop 32 input) in
  let res := secp256k1_ecdsa_signature_parse_compact ctx (Some sig0) (Some input) in
  reports res = [] ∧
  if (r <? group_order) && (s <? group_order) then
    ret res = 1 ∧ ∃ sig, value res = Some sig ∧ signature_is sig r s ∧
      secp256k1_ecdsa_signature_serialize_compact ctx (Some out0) (Some sig) = Outcome (Some input) 1 []
  else ret res = 0 ∧ value res = Some (replicate 64 x00).
Proof.
  intros Hl. cbv zeta. unfold secp256k1_ecdsa_signature_parse_compact, ARG_CHECK. cbn [not_null].
  change (default [] (Some input)) with input. rewrite (take_ge (drop 32 input)) by (rewrite length_drop; lia).
  assert (length (take 32 input) = 32%nat) as L1 by (rewrite length_take; lia).
  assert (length (drop 32 input) = 32%nat) as L2 by (rewrite length_drop; lia).
  assert (0 ≤ be_val (take 32 input)) as P1 by (unfold be_val; apply le_val_range).
  assert (0 ≤ be_val (drop 32 input)) as P2 by (unfold be_val; apply le_val_range).
  pose proof (set_b32_spec _ L1) as HB1. destruct (secp256k1_scalar_set_b32 (take 32 input)) as [a o1]. destruct HB1 as (Oa & Va & ->).
  pose proof (set_b32_spec _ L2) as HB2. destruct (secp256k1_scalar_set_b32 (drop 32 input)) as [b o2]. destruct HB2 as (Ob & Vb & ->).
  destruct (Z.leb_spec group_order (be_val (take 32 input))), (Z.ltb_spec (be_val (take 32 input)) group_order); try lia;
    destruct (Z.leb_spec group_order (be_val (drop 32 input))), (Z.ltb_spec (be_val (drop 32 input)) group_order); try lia;
    (split; [reflexivity|]); cbn [andb]; try (split; reflexivity).
  split; [reflexivity|]. exists (secp256k1_ecdsa_signature_save a b). split; [reflexivity|].
  rewrite Z.mod_small in Va, Vb by lia. split; [rewrite <- Va, <- Vb; by apply signature_save_is|].
  unfold secp256k1_ecdsa_signature_serialize_compact, ARG_CHECK. cbn [not_null].
  change (default [] (Some (secp256k1_ecdsa_signature_save a b))) with (secp256k1_ecdsa_signature_save a b).
  rewrite (signature_load_save a b (proj1 Oa) (proj1 Ob)). f_equal. f_equal. transitivity (take 32 input ++ drop 32 input); [|apply take_drop].
  destruct (get_b32_spec a (proj1 Oa)) as [La Ba]. destruct (get_b32_spec b (proj1 Ob)) as [Lb Bb].
  f_equal; apply be_val_inj; congruence.
Qed.

(** * The normal form *)

(** A signature stays valid if [s] is replaced by its opposite: the point that is compared is negated. *)
Lemma ecdsa_valid_negate (r s z : Z) (Q : point) :
  on_curve Q → ecdsa_valid r s z Q → ecdsa_valid r (group_order - s) z Q.
Proof.
  intros HQ (Hr & Hs & w & x & y & Hw & HE & Hx). split; [exact Hr|]. split; [lia|].
  exists (- w), x, (- y). split_and!; [| |exact Hx].
  - rewrite <- Hw. replace (- w * (group_order - s)) with (w * s + (- w) * group_order) by ring. apply Z_mod_plus_full.
  - replace (z * - w) with (- (z * w)) by ring. replace (r * - w) with (- (r * w)) by ring.
    rewrite !point_mul_opp by curve. rewrite <- point_neg_add by curve. rewrite HE. by rewrite point_neg_eq.
Qed.

Lemma signature_is_inj (sig sig' : list byte) (r s : Z) : signature_is sig r s → signature_is sig' r s → sig = sig'.
Proof.
  intros (_ & _ & a & b & Oa & Ob & Va & Vb & ->) (_ & _ & a' & b' & Oa' & Ob' & Va' & Vb' & ->).
  f_equal; apply scalar_val_inj; [apply Oa|apply Oa'|congruence|apply Ob|apply Ob'|congruence].
Qed.

Lemma signature_normalize_eq (ctx : secp256k1_context) (sig0 sig : list byte) (r s : Z) :
  signature_is sig r s →
  let low := if group_order <? 2 * s then group_order - s else s in
  ∃ sig', signature_is sig' r low ∧
    secp256k1_ecdsa_signature_normalize ctx (Some sig0) (Some sig) = Outcome (Some sig') (truth (group_order <? 2 * s)) [].
Proof.
  intros HS. cbv zeta. destruct (signature_load_is sig r s HS) as (a & b & E & Oa & Ob & <- & <-).
  unfold secp256k1_ecdsa_signature_normalize, ARG_CHECK. cbn [not_null]. change (default [] (Some sig)) with sig. rewrite E.
  rewrite (is_high_spec b (proj1 Ob)). pose proof (scalar_range b Ob) as Rb.
  destruct (Z.ltb_spec group_order (2 * scalar_val b)) as [Hh|Hh]; cbn [truth].
  - change (nonzero 1) with true. cbv iota zeta. destruct (negate_spec b Ob) as [On Vn]. eexists. split; [|reflexivity].
    pose proof (signature_save_is a _ Oa On) as HN. rewrite Vn in HN.
    replace (group_order - scalar_val b) with ((- scalar_val b) mod group_order); [exact HN|].
    symmetry. apply (Z.mod_unique_pos _ _ (-1)); lia.
  - change (nonzero 0) with false. cbv iota zeta. eexists. split; [|reflexivity]. by apply signature_save_is.
Qed.

(** C21: Normal forms: secp256k1_ecdsa_signature_normalize gives the one of [(r, s)] and [(r, n - s)] whose
    second number is at most half of the order and tells if it had to change it; doing
    so again changes nothing, and secp256k1_ecdsa_verify accepts the result exactly if the signature
    that was given is valid by the standard. *)
Theorem secp256k1_ecdsa_signature_normalize_correct (ctx : secp256k1_context) (sig0 sig msg pubkey : list byte) (r s : Z) (Q : point) :
  signature_is sig r s → verifies ctx → length msg = 32%nat → pubkey_is pubkey Q →
  ∃ sig', secp256k1_ecdsa_signature_normalize ctx (Some sig0) (Some sig) = Outcome (Some sig') (truth (group_order <? 2 * s)) [] ∧
    signature_is sig' r (Z.min s (group_order - s)) ∧
    secp256k1_ecdsa_signature_normalize ctx (Some sig0) (Some sig') = Outcome (Some sig') 0 [] ∧
    (ret (secp256k1_ecdsa_verify ctx (Some sig') (Some msg) (Some pubkey)) = 1 ↔ ecdsa_valid r s (be_val msg mod group_order) Q).
Proof.
  intros HS Hv Lm HP. pose proof HP as (_ & _ & HC & _). pose proof HS as (_ & Rs & _).
  destruct (signature_normalize_eq ctx sig0 sig r s HS) as (sig' & HS' & E). exists sig'. split; [exact E|].
  set (low := if _ <? _ then _ else _) in *.
  assert (low = Z.min s (group_order - s)) as El by (subst low; destruct (Z.ltb_spec group_order (2 * s)); lia).
  rewrite <- El. split; [exact HS'|]. destruct (signature_normalize_eq ctx sig0 sig' r low HS') as (sig2 & HS2 & E2).
  assert (2 * low ≤ group_order) as Hlow by lia. apply Z.ltb_ge in Hlow as Hlow'. rewrite Hlow' in *. split.
  - rewrite E2. f_equal. f_equal. apply (signature_is_inj _ _ _ _ HS2 HS').
  - destruct (ecdsa_verify_eq ctx sig' msg pubkey r low Q Hv HS' Lm HP) as (_ & _ & ->).
    subst low. destruct (group_order <? 2 * s); [|tauto]. split; intros HV.
    + destruct HV as [_ HV]. apply (ecdsa_valid_negate _ _ _ _ HC) in HV. by replace (group_order - (group_order - s)) with s in HV by lia.
    + split; [exact Hlow|]. by apply ecdsa_valid_negate.
Qed.
End Target.
