(* ===== verification/Secp256k1Contexts.v ===== *)
(** The life of contexts, and the sum of public keys. *)

From Stdlib Require Import ZArith Lia Strings.Byte Strings.String.
From stdpp Require Import base gmap list fin_maps numbers.
From S2P Require Import Prelude Mem Lz4Common Secp256k1Scalar Secp256k1ScalarProofs Secp256k1ScalarOps Secp256k1Field Secp256k1FieldProofs Secp256k1FieldOps Secp256k1FieldApi Secp256k1Curve Secp256k1GroupLaw Secp256k1Order Secp256k1Group Secp256k1GroupProofs Secp256k1GroupApi Secp256k1Ecmult Secp256k1EcmultProofs Secp256k1Hash Secp256k1EcmultGen Secp256k1EcmultGenProofs Secp256k1EcmultGenTable Secp256k1Ecdsa Secp256k1EcdsaProofs Secp256k1Keys Secp256k1Api Secp256k1ApiProofs Secp256k1Interface.

#[local] Opaque group_order field_prime.

(** * Contexts *)

Lemma gen_clone_ok (dst src : secp256k1_ecmult_gen_context) : gen_ctx_ok src → gen_ctx_ok (secp256k1_ecmult_gen_context_clone dst src).
Proof.
  intros ((U & t & HU & E & Ht) & Hb & Hi & Hm). unfold secp256k1_ecmult_gen_context_clone. rewrite E.
  split; [|by split_and!]. exists U, (take 1024 t). split_and!; [done|done|]. intros j i Hj Hi'.
  rewrite lookup_total_take, decide_True by lia. by apply Ht.
Qed.

Lemma ecmult_clone_ok (src : secp256k1_ecmult_context) : ecmult_ctx_ok src → ecmult_ctx_ok (secp256k1_ecmult_context_clone src).
Proof.
  unfold ecmult_ctx_ok, secp256k1_ecmult_context_clone. destruct (pre_g src) as [t|]; [|done]. intros HT. cbn [pre_g].
  rewrite take_ge; [exact HT|]. destruct HT as [-> _]. reflexivity.
Qed.

Section Target.
Context `{Arch} (local : secp256k1_sha256_t) (mem : nat → list secp256k1_fe).
Hypothesis Hlocal : length (buf local) = 64%nat.
Hypothesis Hmem : ∀ n, length (mem n) = n.
Context (illegal_fn error_fn : Z).

(** C22: Contexts: secp256k1_context_create refuses flags of another type, and otherwise returns a context
    that signs if this was asked for and verifies if this was asked for; copies
    made by secp256k1_context_clone and the context that secp256k1_context_randomize leaves do so as well, and the
    latter always returns if the blinding is reset. *)
Theorem secp256k1_context_lifecycle (fuel : nat) (gen0 gen1 : secp256k1_ecmult_gen_context) (flags : Z) (ctx : secp256k1_context) (seed : option (list byte)) :
  (if Z.land flags SECP256K1_FLAGS_TYPE_MASK =? SECP256K1_FLAGS_TYPE_CONTEXT then
     ∃ c, secp256k1_context_create local mem illegal_fn error_fn (S fuel) gen0 flags = Some (Outcome (Some c) 1 []) ∧
       (if nonzero (Z.land flags SECP256K1_FLAGS_BIT_CONTEXT_SIGN) then signs c
        else secp256k1_ecmult_gen_context_is_built (ecmult_gen_ctx c) = false) ∧
       (if nonzero (Z.land flags SECP256K1_FLAGS_BIT_CONTEXT_VERIFY) then verifies c
        else secp256k1_ecmult_context_is_built (ecmult_ctx c) = false)
   else secp256k1_context_create local mem illegal_fn error_fn (S fuel) gen0 flags =
     Some (Outcome None 0 [(default_illegal_callback illegal_fn, "Invalid flags"%string)])) ∧
  (verifies ctx → verifies (secp256k1_context_clone gen1 ctx)) ∧
  (signs ctx → signs (secp256k1_context_clone gen1 ctx) ∧
     (seed = None → secp256k1_context_randomize local (S fuel) ctx seed ≠ None) ∧
     ∀ res, secp256k1_context_randomize local (S fuel) ctx seed = Some res →
       ret res = 1 ∧ reports res = [] ∧ signs (value res) ∧ (verifies ctx → verifies (value res))).
Proof.
  split_and!.
  - unfold secp256k1_context_create. destruct (_ =? _); cbn [negb]; [|reflexivity]. cbv zeta.
    assert (verifies_ok : ecmult_ctx_ok (secp256k1_ecmult_context_build secp256k1_ecmult_context_init))
      by (apply ecmult_context_build_ok; by right).
    destruct (nonzero (Z.land flags SECP256K1_FLAGS_BIT_CONTEXT_SIGN)).
    + destruct (ecmult_gen_context_build_ok local mem Hlocal Hmem fuel (secp256k1_ecmult_gen_context_init gen0)) as (g & -> & Hg); [by left|].
      eexists. split; [reflexivity|]. split; [exact Hg|].
      destruct (nonzero (Z.land flags SECP256K1_FLAGS_BIT_CONTEXT_VERIFY)); [exact verifies_ok|reflexivity].
    + eexists. split; [reflexivity|]. split; [reflexivity|].
      destruct (nonzero (Z.land flags SECP256K1_FLAGS_BIT_CONTEXT_VERIFY)); [exact verifies_ok|reflexivity].
  - apply ecmult_clone_ok.
  - intros Hs. split; [by apply gen_clone_ok|]. unfold secp256k1_context_randomize. rewrite (signs_built ctx Hs). split.
    + intros ->. destruct (ecmult_gen_blind_reset local Hlocal fuel (ecmult_gen_ctx ctx)) as [g ->]. discriminate.
    + intros res. destruct (secp256k1_ecmult_gen_blind local (S fuel) (ecmult_gen_ctx ctx) seed) as [g|] eqn:E; [|discriminate].
      intros [= <-]. split; [reflexivity|]. split; [reflexivity|]. split; [|done].
      eapply (ecmult_gen_blind_spec local Hlocal); [|exact E]. destruct seed; [exact Hs|apply Hs].
Qed.
End Target.

(** * Sums of public keys *)

Section Combine.
Context `{Arch} (ctx : secp256k1_context).

Lemma gej_infinity_is : gej_is secp256k1_gej_set_infinity None.
Proof. reflexivity. Qed.

Lemma gej_infinity_mag : gej_mag secp256k1_gej_set_infinity.
Proof. repeat split; repeat (constructor; [vm_compute; split; discriminate|]); constructor. Qed.

Definition point_sum (Ps : list point) : point := foldl point_add None Ps.

Lemma combine_loop (keys : list (list byte)) (Ps : list point) (Qj : secp256k1_gej) (Q : point) :
  Forall2 pubkey_is keys Ps → gej_is Qj Q → gej_mag Qj → on_curve Q →
  let '(Qj', calls) := foldl (combine_step ctx) (Qj, []) keys in
  calls = [] ∧ gej_is Qj' (foldl point_add Q Ps) ∧ on_curve (foldl point_add Q Ps).
Proof.
  intros HF. revert Qj Q. induction HF as [|key P keys Ps HK HF IH]; intros Qj Q HQ HM HC; cbn [foldl]; [done|].
  unfold combine_step at 2. destruct (pubkey_load_spec ctx key P HK) as (ge & -> & HG). cbn [value reports fst snd app].
  pose proof HK as (_ & Hf & HP & _). destruct P as [[x y]|]; [|destruct Hf].
  assert (gej_infinity Qj = 0 ∨ gej_infinity Qj = 1) as Hi by (destruct Q as [[? ?]|]; [left; apply HQ|right; exact HQ]).
  apply IH; [by apply gej_add_ge_spec| |curve].
  destruct HG as (_ & Fx & Fy). apply gej_add_ge_mag; [exact HM|exact Hi|apply Fx|apply Fy].
Qed.

(** C23: secp256k1_ec_pubkey_combine adds points: for one or more public keys it returns 1 and the key of their sum,
    or 0 and a cleared key if the sum is the point at infinity, whatever the order and however the
    keys repeat or cancel each other; no callback is called. *)
Theorem secp256k1_ec_pubkey_combine_correct (pub0 : list byte) (keys : list (list byte)) (Ps : list point) :
  Forall2 pubkey_is keys Ps → keys ≠ [] →
  let res := secp256k1_ec_pubkey_combine ctx (Some pub0) (Some keys) (length keys) in
  reports res = [] ∧
  match point_sum Ps with
  | Some xy => ret res = 1 ∧ ∃ key, value res = Some key ∧ pubkey_is key (Some xy)
  | None => ret res = 0 ∧ value res = Some zero_pubkey
  end.
Proof.
  intros HF Hne. cbv zeta. unfold secp256k1_ec_pubkey_combine, ARG_CHECK. cbn [not_null default from_option id].
  rewrite (proj2 (Nat.leb_le 1 (length keys))) by (destruct keys; [done|cbn [length]; lia]). rewrite take_ge by lia.
  pose proof (combine_loop keys Ps secp256k1_gej_set_infinity None HF gej_infinity_is gej_infinity_mag I) as HL.
  destruct (foldl (combine_step ctx) _ keys) as [Qj calls]. destruct HL as (-> & HQ & HC). fold (point_sum Ps) in HQ, HC.
  unfold secp256k1_gej_is_infinity. destruct (point_sum Ps) as [[x y]|].
  - rewrite (proj1 HQ). change (nonzero 0) with false. cbv iota. split; [reflexivity|]. split; [reflexivity|].
    eexists. split; [reflexivity|]. destruct (ge_set_gej_spec _ _ HQ) as [HG _]. by apply save_is.
  - cbn [gej_is] in HQ. rewrite HQ. change (nonzero 1) with true. cbv iota. split; [reflexivity|]. split; reflexivity.
Qed.
End Combine.
