(* ===== verification/Secp256k1Signing.v ===== *)
(** The case that signing does not exclude: a nonce for which the first number of the signature is 0. *)

From Stdlib Require Import ZArith Lia Strings.Byte Strings.String.
From stdpp Require Import base gmap list fin_maps numbers.
From S2P Require Import Prelude Mem Lz4Common Secp256k1Scalar Secp256k1ScalarProofs Secp256k1ScalarOps Secp256k1ScalarApi Secp256k1Field Secp256k1FieldProofs Secp256k1FieldOps Secp256k1FieldApi Secp256k1Curve Secp256k1GroupLaw Secp256k1Order Secp256k1Group Secp256k1GroupProofs Secp256k1GroupApi Secp256k1Ecmult Secp256k1EcmultProofs Secp256k1Hash Secp256k1EcmultGen Secp256k1EcmultGenProofs Secp256k1Ecdsa Secp256k1EcdsaProofs Secp256k1Keys Secp256k1Api Secp256k1ApiProofs Secp256k1Interface.

(** The order is the first coordinate of a point of the curve. *)
Definition order_y : Z := 0x98f66641cb0ae1776b463ebdee3d77fe2658f021db48e2c8ac7ab4c92f83621e.

Lemma order_point : on_curve (Some (group_order, order_y)).
Proof. vm_compute. reflexivity. Qed.

#[local] Opaque group_order field_prime order_y.

Lemma nonce_of_order_point : ∃ k, 0 < k < group_order ∧ point_eq (point_mul k generator) (Some (group_order, order_y)).
Proof.
  destruct (curve_cyclic _ order_point) as (k & Hk & E). exists k. symmetry in E. split; [|exact E].
  assert (k ≠ 0); [|lia]. intros ->. exact E.
Qed.

Lemma sign_base_nonzero (k z d s0 : Z) : 0 < z < group_order → sign_base k z 0 d s0 → s0 ≠ 0.
Proof.
  intros Hz (i & Hi & ->) E. pose proof order_pos as Hn. set (n := group_order) in *. clearbody n.
  replace (i * (0 * d + z)) with (i * z) in E by ring.
  assert ((z * (i * k)) mod n = z) as Ez by (rewrite <- Z.mul_mod_idemp_r, Hi, Z.mul_1_r by lia; apply Z.mod_small; lia).
  replace (z * (i * k)) with (k * (i * z)) in Ez by ring. rewrite <- Z.mul_mod_idemp_r, E, Z.mul_0_r, Z.mod_0_l in Ez by lia. lia.
Qed.

Section Target.
Context `{Arch} (local : secp256k1_sha256_t) (local_scalar : secp256k1_scalar).

(** One attempt: a nonce in range gives the signature of the standard, unless its second number is 0. *)
Lemma sign_once (ctx : secp256k1_context) (fuel : nat) (sig0 msg seckey nonce : list byte) :
  signs ctx → length msg = 32%nat → length seckey = 32%nat → valid_key seckey = true → length nonce = 32%nat → valid_key nonce = true →
  ∃ x y s0, point_eq (point_mul (be_val nonce) generator) (Some (x, y)) ∧ 0 ≤ x < field_prime ∧
    sign_base (be_val nonce) (be_val msg mod group_order) (x mod group_order) (be_val seckey) s0 ∧
    (s0 ≠ 0 → ∃ sig, signature_is sig (x mod group_order) (if group_order <? 2 * s0 then group_order - s0 else s0) ∧
      secp256k1_ecdsa_sign local local_scalar (S fuel) ctx (Some sig0) (Some msg) (Some seckey) (Some (λ _ _ _ _ _, (nonce, 1))) None =
        Some (Outcome (Some sig) 1 [])).
Proof.
  intros Hs Lm Lk Kk Ln Kn.
  pose proof (key_range seckey Lk) as HK. pose proof (set_b32_spec msg Lm) as HB. pose proof (key_range nonce Ln) as HN.
  unfold secp256k1_ecdsa_sign. rewrite (signs_built ctx Hs). cbn [negb not_null]. cbv iota.
  change (default [] (Some seckey)) with seckey. change (default [] (Some msg)) with msg. cbn [default from_option id sign_loop].
  change (nonzero 1) with true. cbn [negb].
  destruct (secp256k1_scalar_set_b32 seckey) as [sec o]. destruct HK as (Os & _ & _ & -> & Hk). destruct (Hk Kk) as [<- _].
  destruct (secp256k1_scalar_set_b32 nonce) as [sk o2]. destruct HN as (Ok & _ & _ & -> & Hn). destruct (Hn Kn) as [<- Rn].
  destruct (secp256k1_scalar_set_b32 msg) as [m o']. destruct HB as (Om & <- & _). cbn [fst]. rewrite Kk, Kn. cbv iota.
  pose proof (ecdsa_sig_sign_spec (ecmult_gen_ctx ctx) sec m sk None Hs Os Om Ok) as HS.
  destruct (secp256k1_ecdsa_sig_sign _ _ _ _ _) as [[[r s] id] signed].
  destruct HS as (x & y & s0 & Exy & Rx & _ & Or & Vr & Hb & Oss & Vs & -> & _); [pose proof (proj1 (valid_key_iff nonce) Kn); destruct (Hn Kn); lia|].
  rewrite Vr in Hb. exists x, y, s0. split_and!; [exact Exy|lia|lia|exact Hb|]. intros H0. apply Z.eqb_neq in H0. rewrite H0.
  exists (secp256k1_ecdsa_signature_save r s). rewrite <- Vr, <- Vs. split; [by apply signature_save_is|]. reflexivity.
Qed.

(** C40: Signing does not exclude a first number of 0: there is a nonce for which, whatever the key and the message (other than
    0 modulo the order), secp256k1_ecdsa_sign returns 1 and leaves a signature with [r = 0], which
    secp256k1_ecdsa_verify rejects.  The code asserts that it cannot happen only in builds with VERIFY. *)
Theorem secp256k1_ecdsa_sign_zero_r (sctx vctx : secp256k1_context) (fuel : nat) (sig0 pubkey msg seckey : list byte) (Q : point) :
  signs sctx → verifies vctx → length msg = 32%nat → length seckey = 32%nat → valid_key seckey = true →
  be_val msg mod group_order ≠ 0 → pubkey_is pubkey Q →
  ∃ nonce sig s, length nonce = 32%nat ∧ valid_key nonce = true ∧
    secp256k1_ecdsa_sign local local_scalar (S fuel) sctx (Some sig0) (Some msg) (Some seckey) (Some (λ _ _ _ _ _, (nonce, 1))) None =
      Some (Outcome (Some sig) 1 []) ∧
    signature_is sig 0 s ∧ ret (secp256k1_ecdsa_verify vctx (Some sig) (Some msg) (Some pubkey)) = 0.
Proof.
  intros Hs Hv Lm Lk Kk Hz HQ. destruct nonce_of_order_point as (k & Rk & Ek). pose proof order_bounds as Hob. pose proof order_pos as Hop.
  destruct (scalar_of_ok k ltac:(lia)) as [Ok Vk]. destruct (get_b32_spec _ (proj1 Ok)) as [Lb Vb]. rewrite Vk in Vb.
  set (nonce := secp256k1_scalar_get_b32 _) in *. clearbody nonce. assert (valid_key nonce = true) as Kn by (apply valid_key_iff; lia).
  destruct (sign_once sctx fuel sig0 msg seckey nonce Hs Lm Lk Kk Lb Kn) as (x & y & s0 & Exy & Rx & Hb & HS).
  rewrite Vb, Ek in Exy. destruct Exy as [Ex _]. assert (x = group_order) as ->.
  { unfold eqp in Ex. rewrite !Z.mod_small in Ex by lia. lia. }
  rewrite Z.mod_same in Hb, HS by lia. apply sign_base_nonzero in Hb; [|pose proof (Z.mod_pos_bound (be_val msg) group_order); lia].
  destruct (HS Hb) as (sig & Hsig & E). eexists nonce, sig, _. split_and!; [exact Lb|exact Kn|exact E|exact Hsig|].
  destruct (ecdsa_verify_eq vctx _ msg pubkey _ _ _ Hv Hsig Lm HQ) as (_ & [E0|E1] & HE); [exact E0|].
  apply HE in E1 as [_ [E1 _]]. lia.
Qed.
End Target.
