(* ===== verification/Secp256k1Examples.v ===== *)
(** The theorems about secp256k1 at concrete inputs, with published test vectors and
    those of the library's own tests. *)

From Stdlib Require Import ZArith Lia Strings.Byte.
From stdpp Require Import base gmap list fin_maps numbers.
From S2P Require Import Prelude Lz4Common Secp256k1Scalar Secp256k1ScalarProofs Secp256k1ScalarApi Secp256k1Hash Secp256k1HashProofs Secp256k1HashApi.

(** * Scalars *)

Lemma secp256k1_scalar_arithmetic_witness :
  secp256k1_scalar_add (scalar_of (group_order - 1)) (scalar_of 5) = (scalar_of 4, 1).
Proof.
  exact (proj1 (secp256k1_scalar_arithmetic (group_order - 1) 5
    ltac:(unfold group_order; lia) ltac:(unfold group_order; lia))).
Defined.

Lemma secp256k1_scalar_inverse_correct_witness :
  secp256k1_scalar_mul (secp256k1_scalar_inverse (scalar_of 3)) (scalar_of 3) = scalar_of 1.
Proof.
  exact (proj1 (secp256k1_scalar_inverse_correct 3 ltac:(unfold group_order; lia))).
Defined.

Lemma secp256k1_scalar_low_witness :
  secp256k1_scalar_is_high
    (secp256k1_scalar_cond_negate (scalar_of (group_order - 7))
      (secp256k1_scalar_is_high (scalar_of (group_order - 7)))).1 = 0.
Proof.
  pose proof (secp256k1_scalar_low (group_order - 7) ltac:(unfold group_order; lia)) as H.
  destruct (secp256k1_scalar_cond_negate _ _) as [r sign]. exact (proj1 (proj2 H)).
Defined.

Lemma secp256k1_scalar_b32_roundtrip_witness :
  secp256k1_scalar_set_b32 (replicate 32 xff) =
    (scalar_of (2 ^ 256 - 1 - group_order), 1).
Proof.
  refine (proj1 (proj2 (secp256k1_scalar_b32_roundtrip (scalar_of 0) (replicate 32 xff) _ _))).
  - apply (scalar_of_ok 0). split; reflexivity || discriminate.
  - reflexivity.
Defined.

Lemma secp256k1_scalar_bits_witness :
  secp256k1_scalar_get_bits_var (scalar_of (5 * 2 ^ 30)) 30 5 = 5.
Proof.
  assert (Hwf : scalar_wf (scalar_of (5 * 2 ^ 30))) by (apply scalar_of_wf; split; reflexivity || discriminate).
  exact (proj1 (secp256k1_scalar_bits (scalar_of (5 * 2 ^ 30)) (scalar_of (5 * 2 ^ 30)) 30 5 3 272
    Hwf Hwf ltac:(lia) ltac:(lia) ltac:(lia) ltac:(lia) ltac:(lia))).
Defined.

(** * Hashes *)

(** A context that was never initialised. *)
Definition garbage : secp256k1_sha256_t := Sha256 [] (replicate 64 x2a) 77.

(** SHA-256 of "abc", in two pieces (FIPS 180-4). *)
Lemma secp256k1_sha256_incremental_witness :
  be_val (@secp256k1_sha256_finalize x86_64
    (foldl (@secp256k1_sha256_write x86_64) (secp256k1_sha256_initialize garbage) [[x61]; [x62; x63]])).2 =
  0xba7816bf8f01cfea414140de5dae2223b00361a396177a9cb410ff61f20015ad.
Proof.
  rewrite (@secp256k1_sha256_incremental x86_64 garbage [[x61]; [x62; x63]] eq_refl eq_refl).
  vm_compute. reflexivity.
Defined.

(** RFC 4231, test case 2: the key is Jefe, the message what do ya want for nothing?, here in
    two pieces. *)
Lemma secp256k1_hmac_incremental_witness :
  be_val (@secp256k1_hmac_sha256_finalize x86_64
    (foldl (@secp256k1_hmac_sha256_write x86_64)
      (@secp256k1_hmac_sha256_initialize x86_64 garbage (Hmac garbage garbage) (be_bytes 4 0x4a656665))
      [be_bytes 16 0x7768617420646f2079612077616e7420; be_bytes 12 0x666f72206e6f7468696e673f])).2 =
  0x5bdcc146bf60754e6a042426089575c75a003f089d2739839dec58b964ec3843.
Proof.
  rewrite (@secp256k1_hmac_incremental x86_64 garbage (Hmac garbage garbage) (be_bytes 4 0x4a656665)
    [be_bytes 16 0x7768617420646f2079612077616e7420; be_bytes 12 0x666f72206e6f7468696e673f] eq_refl eq_refl eq_refl eq_refl eq_refl).
  vm_compute. reflexivity.
Defined.

(** The first vector of [run_rfc6979_hmac_sha256_tests]. *)
Lemma secp256k1_rfc6979_refines_witness :
  be_val <$> generate_all (H := x86_64) garbage
    (@secp256k1_rfc6979_hmac_sha256_initialize x86_64 garbage
      (be_bytes 64 0x0102030405060708090a0b0c0d0e0f101112131415161718191a1b1c1d1e1f004bf5122f344554c53bde2ebb8cd2b7e3d1600ad631c385a5d7cce23c7785459a))
    [32; 32; 32] =
  [0x4fe29525b2086809159acdf0506efb86b0ec932c7ba44256ab321e421e67e9fb;
   0x2bf0fff1d3c378a22dc5de1d856522325c65b504491a0cbd01cb8f3aa67ffd4a;
   0xf528b410cb541f77000d7afb6c5b53c5c471eab43e466d9ac5190c39c82fd82e].
Proof.
  rewrite (@secp256k1_rfc6979_refines x86_64 garbage _ [32; 32; 32] eq_refl);
    [vm_compute; reflexivity|reflexivity|repeat constructor; lia].
Defined.
