(* ===== verification/Secp256k1FieldExamples.v ===== *)
(** The theorems about the field at concrete elements, and the limit of the normalizations. *)

From Stdlib Require Import ZArith Lia Strings.Byte.
From stdpp Require Import base gmap list fin_maps numbers.
From S2P Require Import Prelude Secp256k1Scalar Secp256k1ScalarProofs Secp256k1Field Secp256k1FieldProofs Secp256k1FieldOps Secp256k1FieldApi.

(** The coordinates of the generator of the group, and the prime minus one. *)
Definition gen_x : secp256k1_fe :=
  SECP256K1_FE_CONST 0x79BE667E 0xF9DCBBAC 0x55A06295 0xCE870B07 0x029BFCDB 0x2DCE28D9 0x59F2815B 0x16F81798.
Definition gen_y : secp256k1_fe :=
  SECP256K1_FE_CONST 0x483ADA77 0x26A3C465 0x5DA4FBFC 0x0E1108A8 0xFD17B448 0xA6855419 0x9C47D08F 0xFB10D4B8.
Definition minus_one : secp256k1_fe :=
  SECP256K1_FE_CONST 0xFFFFFFFF 0xFFFFFFFF 0xFFFFFFFF 0xFFFFFFFF 0xFFFFFFFF 0xFFFFFFFF 0xFFFFFFFE 0xFFFFFC2E.

(** Bounds of explicit elements. *)
Ltac limbs_eval := repeat (constructor; [vm_compute; split; discriminate|]); constructor.

Lemma gen_x_norm : fe_norm gen_x.
Proof. split; [limbs_eval|vm_compute; reflexivity]. Qed.
Lemma gen_y_norm : fe_norm gen_y.
Proof. split; [limbs_eval|vm_compute; reflexivity]. Qed.
Lemma minus_one_norm : fe_norm minus_one.
Proof. split; [limbs_eval|vm_compute; reflexivity]. Qed.

Lemma fe_norm_mag_any (a : secp256k1_fe) (m : Z) : fe_norm a → 1 ≤ m → fe_mag m a.
Proof. intros Ha Hm. by apply (fe_mag_mono 1); [apply fe_norm_mag|]. Qed.

Lemma secp256k1_fe_ring_witness :
  fe_val (secp256k1_fe_mul gen_x minus_one) ≡ₚ fe_val gen_x * fe_val minus_one ∧
  fe_val (secp256k1_fe_negate gen_x 1) ≡ₚ - fe_val gen_x.
Proof.
  destruct (secp256k1_fe_ring gen_x minus_one 1 1 3 (fe_norm_mag _ gen_x_norm) (fe_norm_mag _ minus_one_norm)
    ltac:(lia) ltac:(lia) ltac:(lia)) as (H1 & _ & _ & H2 & _).
  split; [apply H1; lia|apply H2; lia].
Defined.

Lemma secp256k1_fe_verified_witness :
  secp256k1_fe_verify (secp256k1_fe_mul gen_x minus_one) 1 false = true ∧
  secp256k1_fe_verify (secp256k1_fe_normalize gen_x) 1 true = true.
Proof.
  destruct (secp256k1_fe_verified gen_x minus_one 1 1 3) as (H1 & _ & _ & _ & _ & H2).
  - split; [done|]. repeat (constructor; [vm_compute; discriminate|]). constructor.
  - split; [done|]. repeat (constructor; [vm_compute; discriminate|]). constructor.
  - vm_compute. reflexivity.
  - vm_compute. reflexivity.
  - lia.
  - split; [apply H1; lia|apply H2; lia].
Defined.

Lemma secp256k1_fe_normalize_canonical_witness :
  secp256k1_fe_normalizes_to_zero (secp256k1_fe_add gen_x (secp256k1_fe_negate gen_x 1)) = 1.
Proof.
  destruct (fe_negate_spec gen_x 1 (fe_norm_mag _ gen_x_norm) ltac:(lia)) as [Hn _].
  destruct (fe_add_spec gen_x (secp256k1_fe_negate gen_x 1) 1 2 (fe_norm_mag _ gen_x_norm) Hn) as [Hs _]; [lia..|].
  destruct (secp256k1_fe_normalize_canonical (secp256k1_fe_add gen_x (secp256k1_fe_negate gen_x 1)) gen_x)
    as (_ & _ & _ & _ & _ & -> & _).
  - apply (fe_mag_mono _ _ _ Hs). lia.
  - apply fe_norm_mag_any; [apply gen_x_norm|lia].
  - vm_compute. reflexivity.
Defined.

Lemma secp256k1_fe_inverses_witness :
  fe_val (secp256k1_fe_inv gen_y) * fe_val gen_y ≡ₚ 1 ∧
  fe_val (secp256k1_fe_inv_all_var [gen_x; gen_x] [gen_y; minus_one] 2 !!! 1%nat) * fe_val minus_one ≡ₚ 1.
Proof.
  destruct (secp256k1_fe_inverses gen_y [gen_x; gen_x] [gen_y; minus_one]) as (_ & H1 & _ & H2).
  - apply fe_norm_mag_any; [apply gen_y_norm|lia].
  - reflexivity.
  - intros [|[|i]] Hi; [| |simpl in Hi; lia].
    + split; [apply fe_norm_mag_any; [apply gen_y_norm|lia]|vm_compute; discriminate].
    + split; [apply fe_norm_mag_any; [apply minus_one_norm|lia]|vm_compute; discriminate].
  - split; [exact H1|]. apply (H2 1%nat). simpl. lia.
Defined.

(** The generator is on the curve, so that [x^3 + 7] has a root; minus one has none. *)
Lemma secp256k1_fe_square_roots_witness :
  (∃ s, s * s ≡ₚ fe_val (secp256k1_fe_sqr gen_y)) ∧ ¬ (∃ s, s * s ≡ₚ fe_val minus_one).
Proof.
  pose proof (secp256k1_fe_square_roots (secp256k1_fe_sqr gen_y)) as H1.
  pose proof (secp256k1_fe_square_roots minus_one) as H2. split.
  - assert ((secp256k1_fe_sqrt (secp256k1_fe_sqr gen_y)).2 = 1) as E by (vm_compute; reflexivity).
    destruct (secp256k1_fe_sqrt (secp256k1_fe_sqr gen_y)) as [r ok].
    destruct H1 as (_ & _ & _ & H & _); [|by apply H].
    apply (fe_mag_mono 1); [apply fe_sqr_spec, fe_norm_mag_any; [apply gen_y_norm|lia]|lia].
  - assert ((secp256k1_fe_sqrt minus_one).2 = 0) as E by (vm_compute; reflexivity).
    destruct (secp256k1_fe_sqrt minus_one) as [r ok].
    destruct H2 as (_ & _ & _ & H & _); [apply fe_norm_mag_any; [apply minus_one_norm|lia]|].
    intros Hs. apply H in Hs. cbn [snd] in E. lia.
Defined.

Lemma secp256k1_fe_roundtrips_witness :
  secp256k1_fe_set_b32 (secp256k1_fe_get_b32 gen_x) = (gen_x, 1) ∧
  (secp256k1_fe_set_b32 (replicate 32 xff)).2 = 0 ∧
  secp256k1_fe_from_storage (secp256k1_fe_to_storage gen_x) = gen_x.
Proof.
  destruct (secp256k1_fe_roundtrips gen_x (replicate 32 xff) (secp256k1_fe_to_storage gen_x))
    as (_ & H1 & _ & H2 & _ & H3 & _).
  - apply gen_x_norm.
  - reflexivity.
  - split; [reflexivity|]. repeat (constructor; [vm_compute; split; [discriminate|reflexivity]|]). constructor.
  - split; [exact H1|]. split; [|exact H3]. rewrite H2. vm_compute. reflexivity.
Defined.

Lemma secp256k1_fe_comparisons_witness :
  secp256k1_fe_equal gen_x gen_y = 0 ∧ secp256k1_fe_cmp_var gen_x gen_y = 1 ∧ secp256k1_fe_is_odd gen_y = 0.
Proof.
  destruct (secp256k1_fe_comparisons gen_x gen_y gen_x gen_y true (fe_norm_mag _ gen_x_norm)
    (fe_norm_mag_any _ 29 gen_y_norm ltac:(lia)) gen_x_norm gen_y_norm) as (-> & _ & -> & _).
  split_and!; vm_compute; reflexivity.
Defined.

(** An element of magnitude 32 with the largest limbs that secp256k1_fe_verify admits. *)
Definition largest_fe : secp256k1_fe :=
  Fe [M26 * 64; M26 * 64; M26 * 64; M26 * 64; M26 * 64; M26 * 64; M26 * 64; M26 * 64; M26 * 64; M22 * 64].

(** The limit of the normalizations: secp256k1_fe_verify admits elements of magnitude 32 on
    which the first addition of the normalization wraps around, so that the result is another
    number; up to magnitude 31 that cannot happen. *)
Theorem secp256k1_fe_normalize_limit :
  secp256k1_fe_verify largest_fe 32 false = true ∧
  fe_val (secp256k1_fe_normalize largest_fe) ≠ fe_val largest_fe mod field_prime ∧
  ∀ a, fe_wf a → secp256k1_fe_verify a 31 false = true →
    fe_val (secp256k1_fe_normalize a) = fe_val a mod field_prime.
Proof.
  split_and!; [reflexivity|vm_compute; discriminate|]. intros a [Hl Hf] Ha.
  apply fe_verify_spec in Ha as [Ha _]; [|done..]. by apply normalize_spec.
Qed.
