(* ===== verification/Secp256k1GroupExamples.v ===== *)
(** The theorems about points at concrete ones: the generator, its double and its opposite. *)

From Stdlib Require Import ZArith Lia Strings.Byte.
From stdpp Require Import base gmap list fin_maps numbers.
From S2P Require Import Prelude Mem Lz4Common Secp256k1Scalar Secp256k1ScalarProofs Secp256k1ScalarOps Secp256k1ScalarApi Secp256k1Field Secp256k1FieldProofs Secp256k1FieldOps Secp256k1FieldApi Secp256k1Curve Secp256k1GroupLaw Secp256k1Order Secp256k1Group Secp256k1GroupProofs Secp256k1GroupApi Secp256k1Ecmult Secp256k1Wnaf Secp256k1EcmultProofs Secp256k1Hash Secp256k1HashApi Secp256k1EcmultGen Secp256k1EcmultGenProofs Secp256k1EcmultGenTable Secp256k1GroupTheorems Secp256k1Examples.

Definition gen_gej : secp256k1_gej := secp256k1_gej_set_ge secp256k1_ge_const_g.

Lemma gen_gej_is : gej_is gen_gej generator.
Proof. apply gej_set_ge_spec, generator_ge. Qed.

(** The point whose negation is the generator. *)
Definition minus_gen : point := point_neg generator.

Lemma minus_gen_is : gej_is (secp256k1_gej_neg gen_gej) minus_gen.
Proof. apply gej_neg_spec, gen_gej_is. Qed.

Lemma minus_gen_on_curve : on_curve minus_gen.
Proof. apply point_neg_on_curve, generator_on_curve. Qed.

(** Memory with arbitrary contents. *)
Definition some_fes (n : nat) : list secp256k1_fe := replicate n (secp256k1_fe_set_int 42).

Lemma length_some_fes (n : nat) : length (some_fes n) = n.
Proof. apply length_replicate. Qed.

Lemma secp256k1_group_operations_witness :
  gej_is (secp256k1_gej_add_var gen_gej gen_gej gen_gej false).1 (point_add generator generator) ∧
  gej_is (secp256k1_gej_add_ge gen_gej secp256k1_ge_const_g) (point_add generator generator).
Proof.
  destruct (secp256k1_group_operations gen_gej gen_gej gen_gej secp256k1_ge_const_g false generator generator
    generator_on_curve generator_on_curve gen_gej_is gen_gej_is generator_ge) as ([H1 _] & H2 & _).
  split; [exact H1|]. apply H2; [|exact I]. eapply gej_is_mag; [exact gen_gej_is|exact I].
Defined.

Lemma secp256k1_gej_add_var_group_witness :
  same_point (secp256k1_gej_add_var gen_gej (secp256k1_gej_add_var gen_gej gen_gej (secp256k1_gej_neg gen_gej) false).1 gen_gej false).1
    (secp256k1_gej_add_var gen_gej gen_gej (secp256k1_gej_add_var gen_gej (secp256k1_gej_neg gen_gej) gen_gej false).1 false).1.
Proof.
  apply (secp256k1_gej_add_var_group gen_gej gen_gej (secp256k1_gej_neg gen_gej) gen_gej generator minus_gen generator).
  - exact generator_on_curve.
  - exact minus_gen_on_curve.
  - exact generator_on_curve.
  - exact gen_gej_is.
  - exact minus_gen_is.
  - exact gen_gej_is.
Defined.

Lemma secp256k1_ge_conversions_witness :
  Forall2 ge_is (secp256k1_ge_set_all_gej_var [secp256k1_ge_const_g; secp256k1_ge_const_g] [gen_gej; secp256k1_gej_set_infinity] some_fes)
    [generator; None] ∧
  secp256k1_ge_to_storage (secp256k1_ge_set_gej gen_gej).1 = secp256k1_ge_to_storage secp256k1_ge_const_g.
Proof.
  destruct (secp256k1_ge_conversions secp256k1_ge_const_g [secp256k1_ge_const_g; secp256k1_ge_const_g] gen_gej
    [gen_gej; secp256k1_gej_set_infinity] some_fes generator [generator; None] gen_gej_is) as (_ & H1 & H2).
  - constructor; [exact gen_gej_is|]. constructor; [reflexivity|constructor].
  - reflexivity.
  - exact length_some_fes.
  - split; [exact H1|]. apply (H2 _ generator_ge). exact I.
Defined.

(** The first coordinate of the generator is decompressed; 5 is no first coordinate. *)
Lemma secp256k1_ge_decompression_witness :
  (∃ y, 0 ≤ y < field_prime ∧ y mod 2 = 1 ∧ on_curve (Some (fe_val (ge_x secp256k1_ge_const_g), y))) ∧
  ¬ (∃ y, on_curve (Some (5, y))) ∧ secp256k1_gej_is_valid_var gen_gej = 1.
Proof.
  assert (fe_mag 8 (ge_x secp256k1_ge_const_g)) as M1 by apply (proj1 (proj2 generator_ge)).
  assert (fe_mag 8 (secp256k1_fe_set_int 5)) as M2 by (apply (fe_mag_mono 1); [apply fe_is_set_int; vm_compute; split; discriminate|lia]).
  pose proof (secp256k1_ge_decompression (ge_x secp256k1_ge_const_g) 1 secp256k1_ge_const_g gen_gej generator M1
    (or_intror eq_refl) generator_ge gen_gej_is) as [H1 (_ & H3)].
  pose proof (secp256k1_ge_decompression (secp256k1_fe_set_int 5) 1 secp256k1_ge_const_g gen_gej generator M2
    (or_intror eq_refl) generator_ge gen_gej_is) as [H2 _].
  assert ((secp256k1_ge_set_xo_var (ge_x secp256k1_ge_const_g) 1).2 = 1) as E1 by (vm_compute; reflexivity).
  assert ((secp256k1_ge_set_xo_var (secp256k1_fe_set_int 5) 1).2 = 0) as E2 by (vm_compute; reflexivity).
  destruct (secp256k1_ge_set_xo_var (ge_x secp256k1_ge_const_g) 1) as [r1 ok1], (secp256k1_ge_set_xo_var (secp256k1_fe_set_int 5) 1) as [r2 ok2].
  cbn [snd] in E1, E2. split; [|split].
  - destruct H1 as (_ & _ & H1). destruct (H1 E1) as (y & Ry & Py & HC & _). exists y. split; [exact Ry|]. split; [exact Py|exact HC].
  - destruct H2 as [H2 _]. intros Hy. apply H2 in Hy. lia.
  - rewrite H3. unfold point_valid. by rewrite bool_decide_true by exact generator_on_curve.
Defined.

Lemma some_scalar_ok : scalar_ok (scalar_of (group_order - 7)) ∧ scalar_val (scalar_of (group_order - 7)) = group_order - 7.
Proof. apply scalar_of_ok. vm_compute. split; [discriminate|reflexivity]. Qed.

(** A scalar above half of the order has digits that stand for its opposite. *)
Lemma secp256k1_ecmult_wnaf_correct_witness :
  (secp256k1_ecmult_wnaf 256 (scalar_of (group_order - 7)) 5).2 = 1 ∧
  (secp256k1_ecmult_wnaf 256 (scalar_of (group_order - 7)) 5).1 !!! 0%nat = -7 ∧
  length (secp256k1_ecmult_wnaf 256 (scalar_of (group_order - 7)) 5).1 = 256%nat.
Proof.
  pose proof (secp256k1_ecmult_wnaf_correct (scalar_of (group_order - 7)) 5 (proj1 some_scalar_ok) ltac:(lia)) as H.
  split; [vm_compute; reflexivity|]. split; [vm_compute; reflexivity|].
  destruct (secp256k1_ecmult_wnaf 256 (scalar_of (group_order - 7)) 5) as [l bits]. exact (proj1 H).
Defined.

#[local] Opaque group_order field_prime generator point_mul point_add.

Lemma secp256k1_ecmult_correct_witness :
  gej_is (secp256k1_ecmult (secp256k1_ecmult_context_build secp256k1_ecmult_context_init) gen_gej
      (scalar_of (group_order - 7)) (scalar_of (group_order - 7)))
    (point_add (point_mul (scalar_val (scalar_of (group_order - 7))) generator)
      (point_mul (scalar_val (scalar_of (group_order - 7))) generator)).
Proof.
  exact (proj1 (secp256k1_ecmult_correct gen_gej generator (scalar_of (group_order - 7)) (scalar_of (group_order - 7))
    generator_on_curve I gen_gej_is (proj1 some_scalar_ok) (proj1 some_scalar_ok))).
Defined.

(** A context that was never initialised. *)
Definition some_gen : secp256k1_ecmult_gen_context := EcmultGenContext None (secp256k1_scalar_set_int 5) gen_gej.

Lemma secp256k1_ecmult_gen_correct_witness :
  ∃ ctx, secp256k1_ecmult_gen_context_build (H := x86_64) garbage some_fes 1 (secp256k1_ecmult_gen_context_init some_gen) = Some ctx ∧
    gej_is (secp256k1_ecmult_gen ctx (scalar_of (group_order - 7))) (point_mul (scalar_val (scalar_of (group_order - 7))) generator) ∧
    secp256k1_ecmult_gen_blind (H := x86_64) garbage 1 ctx None ≠ None.
Proof.
  destruct (secp256k1_ecmult_gen_correct (H := x86_64) garbage some_fes 0 0 some_gen None (scalar_of (group_order - 7))
    eq_refl length_some_fes (proj1 some_scalar_ok)) as (ctx & E & H1 & H2 & _).
  exists ctx. split; [exact E|]. split; [exact H1|]. exact (H2 eq_refl).
Defined.

(** Contexts exist. *)
Lemma some_gen_ctx : ∃ ctx, gen_ctx_ok ctx.
Proof.
  destruct (ecmult_gen_context_build_ok (H := x86_64) garbage some_fes eq_refl length_some_fes 0 (secp256k1_ecmult_gen_context_init some_gen))
    as (ctx & _ & Hc); [by left|]. by exists ctx.
Qed.

Lemma secp256k1_ecmult_gen_bijective_witness :
  ∃ ctx k, scalar_ok k ∧ gej_is (secp256k1_ecmult_gen ctx k) minus_gen.
Proof.
  destruct some_gen_ctx as [ctx Hc]. exists ctx.
  destruct (secp256k1_ecmult_gen_bijective ctx minus_gen Hc minus_gen_on_curve) as (k & Ok & HG & _). exists k. split; [exact Ok|exact HG].
Defined.
