(* ===== verification/Secp256k1ApiExamples.v ===== *)
(** The theorems about the interface at concrete keys, messages and signatures. *)

From Stdlib Require Import ZArith Lia Strings.Byte Strings.String.
From stdpp Require Import base gmap list fin_maps numbers.
From S2P Require Import Prelude Mem Lz4Common Secp256k1Scalar Secp256k1ScalarProofs Secp256k1ScalarOps Secp256k1ScalarApi Secp256k1Field Secp256k1FieldProofs Secp256k1FieldOps Secp256k1FieldApi Secp256k1Curve Secp256k1GroupLaw Secp256k1Order Secp256k1Group Secp256k1GroupProofs Secp256k1GroupApi Secp256k1Ecmult Secp256k1EcmultProofs Secp256k1Hash Secp256k1HashApi Secp256k1EcmultGen Secp256k1EcmultGenProofs Secp256k1EcmultGenTable Secp256k1GroupTheorems Secp256k1Ecdsa Secp256k1EcdsaProofs Secp256k1Der Secp256k1Keys Secp256k1Api Secp256k1ApiProofs Secp256k1Interface Secp256k1Codecs Secp256k1Signatures Secp256k1Contexts Secp256k1Signing Secp256k1Examples Secp256k1GroupExamples.

(** 32 bytes that stand for 1 and for 2. *)
Definition one_b32 : list byte := replicate 31 x00 ++ [x01].
Definition two_b32 : list byte := replicate 31 x00 ++ [x02].

Lemma one_val : be_val one_b32 = 1.
Proof. reflexivity. Qed.
Lemma one_valid : valid_key one_b32 = true.
Proof. vm_compute. reflexivity. Qed.
Lemma one_mod : be_val one_b32 mod group_order = 1.
Proof. vm_compute. reflexivity. Qed.

(** The first coordinate of the generator is below the order, and so is 1 more. *)
Lemma gen_x_small : gen_x mod group_order = gen_x ∧ (gen_x * 1 + 1) mod group_order = gen_x + 1 ∧ 0 < gen_x < group_order ∧ gen_x < field_prime.
Proof. vm_compute. repeat split; discriminate. Qed.

#[local] Opaque group_order field_prime generator point_mul point_add secp256k1_ecdsa_signature_save.

Definition ctx_of (g : secp256k1_ecmult_gen_context) : secp256k1_context :=
  Context_ (secp256k1_ecmult_context_build secp256k1_ecmult_context_init) g (Callback 1 0) (Callback 2 0).

Lemma some_ctx : ∃ ctx, signs ctx ∧ verifies ctx.
Proof.
  destruct some_gen_ctx as [g Hg]. exists (ctx_of g). split; [exact Hg|]. apply ecmult_context_build_ok. by right.
Qed.

Lemma secp256k1_tweak_commutes_witness :
  ∃ ctx, (signs ctx ∧ verifies ctx) ∧
  let key l := value (secp256k1_ec_pubkey_create (H := x86_64) ctx (Some zero_pubkey) l) in
  let priv := secp256k1_ec_privkey_tweak_add ctx (Some one_b32) (Some two_b32) in
  ret priv = 1 ∧ key (value priv) = value (secp256k1_ec_pubkey_tweak_add (H := x86_64) ctx (key (Some one_b32)) (Some two_b32)).
Proof.
  destruct some_ctx as (ctx & Hs & Hv). exists ctx. split; [split; [exact Hs|exact Hv]|]. cbv zeta.
  destruct (secp256k1_tweak_commutes (H := x86_64) ctx zero_pubkey one_b32 two_b32 Hs Hv eq_refl one_valid eq_refl) as [[_ H1] _].
  assert (ret (secp256k1_ec_privkey_tweak_add ctx (Some one_b32) (Some two_b32)) = 1) as E by reflexivity.
  split; [exact E|]. exact (H1 E).
Defined.

(** A key for the generator and signatures of the nonce 1. *)
Lemma some_key (ctx : secp256k1_context) :
  signs ctx → ∃ key, value (secp256k1_ec_pubkey_create (H := x86_64) ctx (Some zero_pubkey) (Some one_b32)) = Some key ∧
    pubkey_is (H := x86_64) key (point_mul 1 generator).
Proof.
  intros Hs. destruct (pubkey_create_eq (H := x86_64) ctx zero_pubkey one_b32 Hs eq_refl) as (_ & _ & HC).
  rewrite one_valid in HC. exact HC.
Qed.

Lemma some_signature (ctx : secp256k1_context) (fuel : nat) :
  signs ctx → ∃ sig s, signature_is (H := x86_64) sig gen_x s ∧
    secp256k1_ecdsa_sign (H := x86_64) garbage (secp256k1_scalar_set_int 3) (S fuel) ctx (Some zero_pubkey) (Some one_b32) (Some one_b32)
      (Some (λ _ _ _ _ _, (one_b32, 1))) None = Some (Outcome (Some sig) 1 []).
Proof.
  intros Hs. destruct gen_x_small as (G1 & G2 & G3 & G4).
  destruct (sign_once (H := x86_64) garbage (secp256k1_scalar_set_int 3) ctx fuel zero_pubkey one_b32 one_b32 one_b32 Hs eq_refl eq_refl
    one_valid eq_refl one_valid) as (x & y & s0 & [Ex _] & Rx & (i & Hi & ->) & HS).
  rewrite one_mod in *. rewrite one_val in *. assert (x = gen_x) as -> by (unfold eqp in Ex; rewrite !Z.mod_small in Ex by lia; lia).
  rewrite G1 in *. pose proof order_pos.
  assert ((i * (gen_x * 1 + 1)) mod group_order = gen_x + 1) as E.
  { rewrite <- Z.mul_mod_idemp_l by lia. rewrite Z.mul_1_r in Hi. rewrite Hi, Z.mul_1_l. exact G2. }
  rewrite E in HS. destruct HS as (sig & H1 & H2); [lia|]. eexists sig, _. split; [exact H1|exact H2].
Qed.

Lemma signature_is_fun (sig : list byte) (r s r' s' : Z) :
  signature_is (H := x86_64) sig r s → signature_is (H := x86_64) sig r' s' → r = r' ∧ s = s'.
Proof.
  intros H1 H2. destruct (signature_load_is (H := x86_64) sig r s H1) as (a & b & E & _ & _ & <- & <-).
  destruct (signature_load_is (H := x86_64) sig r' s' H2) as (a' & b' & E' & _ & _ & <- & <-). rewrite E in E'.
  pose proof (f_equal fst E') as Ea. pose proof (f_equal snd E') as Eb. cbn [fst snd] in Ea, Eb. by rewrite Ea, Eb.
Qed.

Lemma secp256k1_ecdsa_verify_correct_witness :
  ∃ ctx sig key s, signature_is (H := x86_64) sig gen_x s ∧
    (ret (secp256k1_ecdsa_verify (H := x86_64) ctx (Some sig) (Some one_b32) (Some key)) = 1 ↔
     2 * s ≤ group_order ∧ ecdsa_valid gen_x s (be_val one_b32 mod group_order) (point_mul 1 generator)).
Proof.
  destruct some_ctx as (ctx & Hs & Hv). destruct (some_key ctx Hs) as (key & _ & HK). destruct (some_signature ctx 0 Hs) as (sig & s & HS & _).
  exists ctx, sig, key, s. split; [exact HS|].
  destruct (secp256k1_ecdsa_verify_correct (H := x86_64) ctx sig one_b32 key gen_x s _ Hv HS eq_refl HK) as (_ & _ & HE). exact HE.
Defined.

Lemma secp256k1_ecdsa_sign_verifies_witness :
  ∃ ctx sig key, secp256k1_ecdsa_sign (H := x86_64) garbage (secp256k1_scalar_set_int 3) 1 ctx (Some zero_pubkey) (Some one_b32) (Some one_b32)
      (Some (λ _ _ _ _ _, (one_b32, 1))) None = Some (Outcome (Some sig) 1 []) ∧
    value (secp256k1_ec_pubkey_create (H := x86_64) ctx (Some zero_pubkey) (Some one_b32)) = Some key ∧
    ret (secp256k1_ecdsa_verify (H := x86_64) ctx (Some sig) (Some one_b32) (Some key)) = 1.
Proof.
  destruct some_ctx as (ctx & Hs & Hv). destruct (some_key ctx Hs) as (key & EK & HK). destruct (some_signature ctx 0 Hs) as (sig & s & HS & E).
  exists ctx, sig, key. split; [exact E|]. split; [exact EK|].
  pose proof (secp256k1_ecdsa_sign_verifies (H := x86_64) garbage (secp256k1_scalar_set_int 3) eq_refl ctx ctx 1 zero_pubkey zero_pubkey one_b32 one_b32
    (Some (λ _ _ _ _ _, (one_b32, 1))) None Hs Hv eq_refl eq_refl (λ _ _ _ _ _, eq_refl)) as H.
  cbv zeta in H. rewrite E, EK in H. destruct H as (_ & _ & _ & H). destruct (H ltac:(discriminate)) as (sig' & r' & s' & E' & HS' & _ & HV).
  injection E' as <-. apply HV. destruct (signature_is_fun _ _ _ _ _ HS HS') as [<- _]. pose proof gen_x_small. lia.
Defined.

Lemma secp256k1_ecdsa_sign_zero_r_witness :
  ∃ ctx nonce sig s, secp256k1_ecdsa_sign (H := x86_64) garbage (secp256k1_scalar_set_int 3) 1 ctx (Some zero_pubkey) (Some one_b32) (Some one_b32)
      (Some (λ _ _ _ _ _, (nonce, 1))) None = Some (Outcome (Some sig) 1 []) ∧ signature_is (H := x86_64) sig 0 s.
Proof.
  destruct some_ctx as (ctx & Hs & Hv). destruct (some_key ctx Hs) as (key & _ & HK). exists ctx.
  destruct (secp256k1_ecdsa_sign_zero_r (H := x86_64) garbage (secp256k1_scalar_set_int 3) ctx ctx 0 zero_pubkey key one_b32 one_b32 _
    Hs Hv eq_refl eq_refl one_valid ltac:(rewrite one_mod; discriminate) HK) as (nonce & sig & s & _ & _ & E & HS & _).
  exists nonce, sig, s. split; [exact E|exact HS].
Defined.

(** * Encodings *)

Definition some_ge : secp256k1_ge := secp256k1_ge_const_g.
Definition no_ctx : secp256k1_context := Context_ secp256k1_ecmult_context_init some_gen (Callback 1 0) (Callback 2 0).

Lemma generator_curve : on_curve (Some (gen_x, gen_y)).
Proof. exact generator_on_curve. Qed.

Lemma secp256k1_ec_pubkey_parse_correct_witness :
  ret (secp256k1_ec_pubkey_parse (H := x86_64) some_ge no_ctx (Some zero_pubkey) (Some (sec_compressed gen_x gen_y))) = 1 ∧
  ret (secp256k1_ec_pubkey_parse (H := x86_64) some_ge no_ctx (Some zero_pubkey) (Some (x05 :: replicate 32 x01))) = 0.
Proof.
  split; [|vm_compute; reflexivity].
  destruct (secp256k1_ec_pubkey_parse_correct (H := x86_64) some_ge no_ctx zero_pubkey (sec_compressed gen_x gen_y) gen_x gen_y) as (_ & _ & H).
  exact (proj1 (H generator_curve (or_introl eq_refl))).
Defined.

Lemma gen_key : pubkey_is (H := x86_64) (secp256k1_pubkey_save (H := x86_64) secp256k1_ge_const_g) (Some (gen_x, gen_y)).
Proof. apply save_is; [exact I|exact generator_curve|exact generator_ge]. Qed.

Lemma secp256k1_ec_pubkey_roundtrip_witness :
  ∃ out, value (secp256k1_ec_pubkey_serialize (H := x86_64) no_ctx (Some (replicate 33 x2a)) (Some 33)
      (Some (secp256k1_pubkey_save (H := x86_64) secp256k1_ge_const_g)) SECP256K1_EC_COMPRESSED) = (Some out, Some 33) ∧
    secp256k1_ec_pubkey_parse (H := x86_64) some_ge no_ctx (Some zero_pubkey) (Some (take 33 out)) =
      Outcome (Some (secp256k1_pubkey_save (H := x86_64) secp256k1_ge_const_g)) 1 [].
Proof.
  destruct (secp256k1_ec_pubkey_roundtrip (H := x86_64) some_ge no_ctx _ zero_pubkey (replicate 33 x2a) 33 _ true gen_key ltac:(vm_compute; split; discriminate))
    as (_ & _ & out & E & _ & HP).
  exists out. split; [exact E|exact HP].
Defined.

(** The signature [(1, n - 7)], which is not in normal form. *)
Definition high_sig : list byte := secp256k1_ecdsa_signature_save (H := x86_64) (scalar_of 1) (scalar_of (group_order - 7)).

Lemma high_sig_is : signature_is (H := x86_64) high_sig 1 (group_order - 7).
Proof.
  pose proof order_pos. destruct (scalar_of_ok 1 ltac:(lia)) as [O1 V1]. destruct some_scalar_ok as [O2 V2].
  rewrite <- V1 at 1. rewrite <- V2. apply signature_save_is; [exact O1|exact O2].
Qed.

Lemma secp256k1_ecdsa_signature_der_roundtrip_witness :
  ∃ n out, secp256k1_ecdsa_signature_serialize_der (H := x86_64) no_ctx (Some (replicate 80 x2a)) (Some 72) (Some high_sig) =
      Outcome (Some out, Some n) 1 [] ∧
    secp256k1_ecdsa_signature_parse_der (H := x86_64) (scalar_of 3) no_ctx (Some zero_pubkey) (Some (take (Z.to_nat n) out)) =
      Outcome (Some high_sig) 1 [].
Proof.
  destruct (secp256k1_ecdsa_signature_der_roundtrip (H := x86_64) (scalar_of 3) no_ctx high_sig zero_pubkey (replicate 80 x2a) 72 _ _
    high_sig_is ltac:(vm_compute; discriminate)) as (n & Hn & _ & H).
  destruct (H ltac:(lia)) as (out & E & _ & HP). exists n, out. split; [exact E|exact HP].
Defined.

(** The shortest signature with numbers that are not 0, and the same with a byte added to the first. *)
Definition short_der : list byte := [x30; x06; x02; x01; x01; x02; x01; x01].
Definition long_der : list byte := [x30; x07; x02; x02; x00; x01; x02; x01; x01].

Lemma secp256k1_ecdsa_signature_der_strict_witness :
  ret (secp256k1_ecdsa_signature_parse_der (H := x86_64) (scalar_of 3) no_ctx (Some zero_pubkey) (Some short_der)) = 1 ∧
  ret (secp256k1_ecdsa_signature_parse_der (H := x86_64) (scalar_of 3) no_ctx (Some zero_pubkey) (Some long_der)) = 0 ∧
  ∃ sig r s, value (secp256k1_ecdsa_signature_parse_der (H := x86_64) (scalar_of 3) no_ctx (Some zero_pubkey) (Some short_der)) = Some sig ∧
    signature_is (H := x86_64) sig r s.
Proof.
  assert (ret (secp256k1_ecdsa_signature_parse_der (H := x86_64) (scalar_of 3) no_ctx (Some zero_pubkey) (Some short_der)) = 1) as E
    by (vm_compute; reflexivity).
  split; [exact E|]. split; [vm_compute; reflexivity|].
  destruct (secp256k1_ecdsa_signature_der_strict (H := x86_64) (scalar_of 3) no_ctx zero_pubkey short_der ltac:(vm_compute; reflexivity))
    as (_ & [[E0 _]|(_ & sig & r & s & Ev & HS & _)]).
  - rewrite E in E0. discriminate E0.
  - exists sig, r, s. split; [exact Ev|exact HS].
Defined.

Lemma secp256k1_ecdsa_signature_compact_correct_witness :
  (∃ sig, signature_is (H := x86_64) sig 1 1 ∧
     secp256k1_ecdsa_signature_serialize_compact (H := x86_64) no_ctx (Some zero_pubkey) (Some sig) = Outcome (Some (one_b32 ++ one_b32)) 1 []) ∧
  ret (secp256k1_ecdsa_signature_parse_compact (H := x86_64) no_ctx (Some zero_pubkey) (Some (one_b32 ++ replicate 32 xff))) = 0.
Proof.
  split; [|vm_compute; reflexivity].
  destruct (secp256k1_ecdsa_signature_compact_correct (H := x86_64) no_ctx zero_pubkey zero_pubkey (one_b32 ++ one_b32) eq_refl) as [_ H].
  change (be_val (take 32 (one_b32 ++ one_b32))) with 1 in H. change (be_val (drop 32 (one_b32 ++ one_b32))) with 1 in H.
  rewrite (proj2 (Z.ltb_lt 1 group_order) order_pos) in H. cbn [andb] in H. destruct H as (_ & sig & _ & HS & E).
  exists sig. split; [exact HS|exact E].
Defined.

Lemma secp256k1_ecdsa_signature_normalize_correct_witness :
  ∃ ctx sig', secp256k1_ecdsa_signature_normalize (H := x86_64) ctx (Some zero_pubkey) (Some high_sig) = Outcome (Some sig') 1 [] ∧
    signature_is (H := x86_64) sig' 1 7.
Proof.
  destruct some_ctx as (ctx & _ & Hv). exists ctx.
  destruct (secp256k1_ecdsa_signature_normalize_correct (H := x86_64) ctx zero_pubkey high_sig one_b32 _ _ _ _ high_sig_is Hv eq_refl gen_key)
    as (sig' & E & HS & _). exists sig'.
  assert (Z.min (group_order - 7) (group_order - (group_order - 7)) = 7 ∧ (group_order <? 2 * (group_order - 7)) = true) as [E1 E2]
    by (split; vm_compute; reflexivity).
  rewrite E2 in E. rewrite E1 in HS. split; [exact E|exact HS].
Defined.

(** * Contexts and sums *)

Lemma secp256k1_context_lifecycle_witness :
  ∃ c, secp256k1_context_create (H := x86_64) garbage some_fes 1 2 1 some_gen 0x301 = Some (Outcome (Some c) 1 []) ∧
    signs c ∧ verifies c ∧ signs (secp256k1_context_clone some_gen c) ∧ secp256k1_context_randomize (H := x86_64) garbage 1 c None ≠ None.
Proof.
  destruct (secp256k1_context_lifecycle (H := x86_64) garbage some_fes eq_refl length_some_fes 1 2 0 some_gen some_gen 0x301 no_ctx None)
    as [(c & E & Hs & Hv) _].
  change (nonzero (Z.land 0x301 SECP256K1_FLAGS_BIT_CONTEXT_SIGN)) with true in Hs.
  change (nonzero (Z.land 0x301 SECP256K1_FLAGS_BIT_CONTEXT_VERIFY)) with true in Hv. cbv iota in Hs, Hv.
  exists c. split; [exact E|]. split; [exact Hs|]. split; [exact Hv|].
  destruct (secp256k1_context_lifecycle (H := x86_64) garbage some_fes eq_refl length_some_fes 1 2 0 some_gen some_gen 0x301 c None)
    as (_ & _ & H). destruct (H Hs) as (H1 & H2 & _). split; [exact H1|exact (H2 eq_refl)].
Defined.

Definition minus_gen_ge : secp256k1_ge := secp256k1_ge_neg secp256k1_ge_const_g.

Lemma minus_gen_key : pubkey_is (H := x86_64) (secp256k1_pubkey_save (H := x86_64) minus_gen_ge) minus_gen.
Proof.
  apply save_is; [exact I|exact minus_gen_on_curve|]. apply ge_neg_spec. exact generator_ge.
Qed.

Lemma opposite_sum : point_sum [Some (gen_x, gen_y); minus_gen] = None.
Proof. vm_compute. reflexivity. Qed.

(** The keys of a point and of its opposite cancel each other. *)
Lemma secp256k1_ec_pubkey_combine_correct_witness :
  ret (secp256k1_ec_pubkey_combine (H := x86_64) no_ctx (Some zero_pubkey)
    (Some [secp256k1_pubkey_save (H := x86_64) secp256k1_ge_const_g; secp256k1_pubkey_save (H := x86_64) minus_gen_ge]) 2) = 0.
Proof.
  destruct (secp256k1_ec_pubkey_combine_correct (H := x86_64) no_ctx zero_pubkey
    [secp256k1_pubkey_save (H := x86_64) secp256k1_ge_const_g; secp256k1_pubkey_save (H := x86_64) minus_gen_ge]
    [Some (gen_x, gen_y); minus_gen]) as [_ H].
  - constructor; [exact gen_key|]. constructor; [exact minus_gen_key|constructor].
  - discriminate.
  - rewrite opposite_sum in H. exact (proj1 H).
Defined.
